(* ===== verification/_CoqProject ===== *)
-Q . S2P
Prelude.v
Float64.v
HdmDecoder.v
Dcd.v
Gfam.v
Fabric.v
CacheState.v
Coherency.v
Mhsld.v
SsdBackend.v
LruCache.v
Topology.v
Pooling.v
ShmRing.v
SharedMem.v
Endpoint.v
Server.v
DistMsg.v
DistServer.v
Pgas.v
Trace.v
Rob.v
Policy.v
Growth.v
Sampler.v
RobRun.v
Bytes.v
MpiShim.v
MpiMailbox.v
MpiColl.v
GpuTransport.v
