(* ===== verification/Prelude.v ===== *)
(** * CXLMemSim: verification development

    CXLMemSim simulates CXL memory: a memory server that guests reach over TCP
    or shared memory, a topology of switches and memory endpoints with latency
    and bandwidth models, coherency between hosts, and pooling of capacity.
    This library models the parts of it that decide what is stored, who may
    access it and which state a line, a request or an extent is in, and proves
    that they do so correctly.  This file is the prelude: machine integers,
    cachelines, little-endian words, the tactics and the generic lemmas.

    ** The program and its models

    From the memory up to the server (each file names the functions it models
    in its own header):

    - SsdBackend: [SsdStreamingBackend] (src/ssd_streaming_backend.cpp), a page
      cache over a file with read-ahead, pinning, eviction and write-back.
      State: the cache, the file and the outcomes of the I/O calls.
    - SharedMem: [SharedMemoryManager] (src/shared_memory_manager.cc), the
      bytes behind the simulated memory, in a shared mapping, a mapped file or
      the SSD backend; cacheline metadata and atomics.
    - Dcd: [DynamicCapacityDevice] and Gfam: [GFAMDevice] (src/dcd_gfam.cpp),
      extents of capacity and the permissions of hosts on them.  Gfam uses Dcd
      through the interface [Allocator].  Pooling: their owner, the controller
      (src/cxlcontroller.cpp), and the requests that manage them.
    - HdmDecoder: [HDMDecoder] (src/hdm_decoder.cpp), address decoding.
    - CacheState, Coherency: [CoherencyEngine] (src/coherency_engine.cpp), the
      MOESI directory between nodes; Mhsld: [MHSLDDevice]
      (src/cxlendpoint.cpp), the same inside a multi-headed device, with
      capacity pools; Fabric: [LogPModel] and [FabricLink], their timing.
    - Topology: [CXLController::construct_topo] (src/cxlcontroller.cpp), from a
      text to a tree of switches; Endpoint: [CXLMemExpander], [CXLSwitch]
      (src/cxlendpoint.cpp) and [record_cxl_access], the queues, credits,
      address caches, counters and bandwidth model of that tree.
    - LruCache: [LRUCache] (include/cxlcontroller.h) and the TLBs of
      [HugePagePolicy] (include/policy.h).
    - ShmRing: the request rings (src/shm_communication.cpp) between guests and
      the server, access by access.
    - Server: [ThreadPerConnectionServer] (src/main_server.cc), which composes
      SharedMem, Pooling, Endpoint and ShmRing: the coherency state of lines,
      reads, writes, atomics, fences, back invalidation, the label storage
      area, and the dispatch of requests.
    - Pgas: the PGAS mode of the same server (src/main_server.cc,
      include/cxl_backend.h), where four workers serve the request slots of the
      clients from a table of cachelines with metadata or from SharedMem.
    - Trace, Rob: the trace tool (src/rob.cc, src/rob.cpp).  Trace reads and
      writes instruction traces, with four threads; Rob is the reorder buffer and
      the simulation, over the interface [Timing] of the controller, whose promises
      are [TimingOk] and, for a limited number of accesses, [TimingWithin].
    - Policy, Growth, Sampler: the controller as the memory of a sampled or traced program
      (src/cxlcontroller.cpp, src/policy.cpp, include/policy.h).  Policy has its
      state and the policies for allocation, migration, paging and caching; Growth
      bounds what accesses add to the expanders, and has the condition under which
      interleaved allocation returns; Sampler
      the handling of accesses and of branch records, back invalidation, migration
      and congestion, over Endpoint and LruCache.  RobRun makes it an instance of
      [Timing], so that Rob runs on it.
    - DistMsg: [DistributedMessageManager] and DistServer:
      [DistributedMemoryServer] (src/distributed_server.cpp), a memory that is
      split among nodes: messages in a shared segment, and nodes that serve
      their own addresses and forward the others.  DistMsg reaches the handlers
      of a node through the interface [Handlers]/[HandlersOk]; DistServer
      implements it over SharedMem, Coherency and HdmDecoder.
    - MpiShim, MpiMailbox, MpiColl: the shim that puts the communication of an
      MPI program into CXL memory (workloads/gromacs/mpi_cxl_shim.c).  MpiShim
      has the copy loops and the hooks of [memset], [memcpy] and [memmove], the
      shared header, its initialisation, the registration of ranks and the
      allocator; MpiMailbox the message queues, access by access; MpiColl the
      collective operations between two barriers, over the allocator.  Bytes is the
      memory behind pointers that these files use.
    - GpuTransport: the transport of commands from a guest to its GPU
      (qemu_integration/guest_libcuda/cxl_gpu_transport.c): registers, windows and the
      execution of a command, over a device that is a parameter ([Gpu]).

    Structures are records with the fields of the source, enumerations are
    inductive types, methods are functions from the state to a result and a
    new state, with the conditions and early returns of the code.  Shared
    objects that are reached by pointer live in a store and are passed
    explicitly.  Undefined behaviour and exceptions are values ([None],
    [Fault]), and the theorems show that they do not occur, or where they do.

    ** Conventions

    - Integers are [Z]; every operation of a fixed width that can wrap is
      written with its reduction ([+w], [-w], [*w], [u64], [u32]).
    - [double] is binary64, rounded to nearest even (Float64); conversions that
      C++ leaves undefined go through the class [CastUB].
    - [std::map] and [std::unordered_map] are [gmap], [std::set] is [gset];
      where the order of an iteration matters, it is a list.
    - A lock that is held over a whole method makes the method one step.  Where
      processes share memory without a lock (ShmRing, the slots of Pgas, the
      credits of Fabric, the threads of DistMsg and Trace, the mailboxes and the
      allocator of the MPI shim), the steps are the single
      accesses, interleaved freely.  An operation of a node that waits for another
      node is two steps, and [cluster_step] interleaves the steps of all nodes.
    - Outcomes of system calls, of allocation and of the clock are arguments.

    ** What the theorems show

    - Memory: a successful read returns what is stored, a write changes exactly
      its range, a failed one at most a prefix, in every backing mode and up to
      the requests of the server; a successful flush is in the file.
      [SsdBackend.ssd_read_correct], [ssd_write_correct],
      [ssd_read_after_write], [ssd_flush_durable], [SharedMem.shm_read_write],
      [shm_atomics], [Server.server_refines_memory], [server_write_read].  For
      the server, writes and atomics may carry any timestamps, and a read refines
      the memory while the timestamps of the requests do not go back.
    - Coherency: one writer or many readers, under any interleaving of requests
      ([Coherency.single_writer], [Mhsld.mhsld_single_writer],
      [Server.server_coherent], for any timestamps), and each operation refines the abstract one on
      sets of readers and a writer ([read_refines], [write_refines], ...).
    - Access: extents are disjoint and inside the device, placement is first
      fit, only authorised ranges are served, released capacity is closed until
      capacity is added there again
      ([Dcd.dcd_reachable_inv], [first_fit_complete], [Pooling.add_then_access],
      [release_then_denied], [Server.memory_request_authorised]).
    - Transport: the rings lose, duplicate and reorder nothing, have no race and
      serve every request ([ShmRing.ring_fifo], [ring_no_race],
      [drain_serves_all], [Server.ring_call_served]).
    - Slots: under every interleaving of workers and clients each request is
      served once, as submitted, without a race on its slot, and its client gets
      its answer, until that client gives up waiting for one
      ([Pgas.pgas_exactly_once], [pgas_no_race]); the slots refine the
      flat memory ([pgas_refines_memory], [pgas_write_read]), only allowed
      accesses succeed ([pgas_authorised]), a scan answers all known requests
      ([pgas_poll_serves_all]), and capacity management agrees with the one over
      TCP ([pgas_management_agrees]).  A client that has given up can take the
      answer to an earlier request: [timeout_takes_stale].
    - Distribution: the rings between nodes are bounded channels, polls drain
      them and requests are answered ([DistMsg.channels_refine],
      [messages_conserved], [poll_drains], [request_answered]); a cluster acts
      as one memory ([DistServer.call_transparent], [cluster_write_read]) while
      one request runs at a time, and is safe under every interleaving
      ([cluster_safe]); nodes that start in overlapping steps form such a cluster
      ([cluster_forms]).  That requests which cross each other are not served is
      [crossed_reads], that a node which starts again hears no other node until that
      one registers again is [started_node_deaf].
    - Traces: what is written is read back, by any interleaving of the threads
      ([Trace.trace_roundtrip], [parallel_reads_trace], [reader_terminates]); a
      simulation ends and retires in order ([Rob.rob_terminates],
      [rob_in_order]), also on the real controller, with interleaved allocation
      while there is room for the accesses of the trace ([RobRun.trace_run_ends]).  That
      its delays never reach the trace is [delayed_trace_unchanged].
    - Samples: every access is counted once, and goes to memory at most once per
      sample if it is cached ([Sampler.sample_counted], [sample_one_miss]); back
      invalidation removes exactly its lines ([back_invalidation_exact]), a move
      keeps all entries ([migrate_conserves]), and the window of branch records is
      exact for one thread ([window_exact]; for two, [two_threads_undefined]).
      Interleaved allocation finds an expander with room if there is one and gives
      each the share that the code computes ([Policy.interleave_complete],
      [interleave_fair]; that these are not the documented shares is
      [documented_shares]), NUMA allocation picks the best node ([numa_best]).
    - MPI: a mailbox delivers each message at most once, unchanged and in order
      for a source and tag, with one sender always and with more as long as the
      ring is not overrun ([MpiMailbox.one_sender_faithful], [mailbox_faithful]);
      what is sent is received ([send_recv_roundtrip], [recv_first]).  The
      collectives compute what MPI defines ([MpiColl.rooted_exact],
      [gather_exact], [alltoall_exact], [allreduce_sums]) for the ranks of one node,
      with memory for the blocks and types of known size; sums of integers must not
      overflow ([allreduce_overflows]).  The hooks of memory
      agree with libc ([MpiShim.memmove_exact], [memset_exact]), allocations
      are disjoint ([heap_disjoint]), every rank finds the same bytes behind a
      remotable pointer ([rptr_shared]), the region is set up completely
      ([init_fits], [registration_complete]).  What goes wrong with an overrun,
      an abandoned slot, a failed allocation or derived types is shown by
      [overrun_loses_message], [abandoned_blocks], [give_back_race],
      [bcast_without_memory], [gather_partial_memory], [bcast_cuts_derived_types].
    - GPU commands: a register that was written is read back, a device that follows
      the protocol is understood, and a command ends whatever the device does
      ([GpuTransport.reg64_roundtrip], [execute_answers], [execute_ends]).
    - Structures: round trips and equivalences with reference definitions
      ([Topology.construct_roundtrip], [HdmDecoder.interleave_roundtrip],
      [sort_ranges_decode], [LruCache.lru_refines],
      [Endpoint.record_access_local], [record_cxl_access_path]).
    - Bounds and termination: queues, credits, penalties, loops
      ([Endpoint.expander_bounds], [penalty_bounded],
      [ShmRing.send_request_bounded], [Fabric.credits_conserved],
      [Server.bi_invalidate_terminates], [MpiMailbox.send_ends], [recv_ends]).

    Lemmas under "Observations" at the end of a file show, on concrete inputs or
    in general, behaviour that a reader of the code would not expect.

    ** Bounds and fuel

    Loops that are not structural run on fuel.  SharedMem: one unit per byte of
    an access of at most 64 bytes, and every iteration copies at least one.
    ShmRing: the calls run to their end in at most as many steps as they have
    accesses, the search for a slot in [RING_SIZE].  Endpoint: a call issues at
    most the requests that are queued.  Dcd, Topology, HdmDecoder: one unit per
    extent, token or halving.  Mhsld, SsdBackend: one unit per line, page or
    chunk of the range.  Policy: one unit per position of the shares, after which
    every position was tried ([interleave_complete] also shows that the loop does not
    end where this fuel is not enough, and [Growth.interleave_returns] that it
    returns while there is room); Sampler: one per timestamp ([scan_counts]).
    MpiShim: one unit per word or byte that is copied, and the 2000 looks at the
    flag that [init_cxl_memory] takes; MpiMailbox: the steps that a call takes
    alone, at most 10009 and, in a ring that is not overrun, 262, the bounds that
    [send_ends] and [recv_ends] prove.  GpuTransport: the polls of a command, bounded by
    the clock ([execute_ends]).
    In each case a theorem or lemma shows that the result
    does not depend on the fuel or that the given fuel is enough.  The loop of
    OP_BI_INVALIDATE takes its fuel from the environment, because it does not
    always end: [bi_invalidate_terminates] and [bi_invalidate_diverges].

    ** Not modelled

    - Sockets, RDMA, threads, signals, option parsing and logging
      (tcp_communication, rdma_communication, the start and stop of the server,
      main.cc): operating-system calls around the modelled handlers.
    - Sampling of a running process (monitor, pebs, lbr, perf, incore, uncore,
      helper, bw): they read hardware counters and BPF maps.
    - The TCP and RDMA transports of the distributed server, their calibration
      and the forwarding over them (src/distributed_server.cpp from line 1306
      on); the class DistributedMHSLDManager there is compiled out.
    - The remote expander and the branch of [CXLController::insert] that routes
      accesses with the HDM decoder to it.
    - The one-sided operations of the MPI shim (windows, put, get, accumulate)
      and the rest of its hooks, which call MPI as well; how it maps a device;
      its tables of pending receives and of mappings, its signal handlers and
      its statistics.
    - The CUDA functions of the guest library, microbenchmarks, the other workloads, tools, tests and scripts
      (qemu_integration, microbench, workloads, use_cases, script, tests) and
      generated files (include/vmlinux.h).
    - Data races inside methods whose mutexes are modelled as one step, and the
      latencies of the code itself. *)

From stdpp Require Export base numbers list gmap strings sorting.
From Stdlib Require Export ZArith Lia ZifyBool.

#[global] Open Scope Z_scope.

(** ** Machine integers

    C++ [uint64_t]/[uint32_t]/[size_t] values are [Z] in range; every
    operation that can wrap is written with an explicit reduction. *)

Declare Scope mach_scope.
Delimit Scope mach_scope with mach.
#[global] Open Scope mach_scope.

Abbreviation TWO64 := 18446744073709551616 (only parsing).
Abbreviation TWO32 := 4294967296 (only parsing).

Definition u64 (z : Z) : Z := z mod TWO64.
Definition u32 (z : Z) : Z := z mod TWO32.

(** Conversion to [int]. *)
Definition i32 (z : Z) : Z := let u := u32 z in if u <? 2147483648 then u else u - TWO32.

Definition UINT64_MAX : Z := 18446744073709551615.
Definition UINT32_MAX : Z := 4294967295.

(** Unsigned 64-bit arithmetic, with the wrap-around of C++. *)
Notation "x +w y" := (u64 (x + y)) (at level 50, left associativity) : mach_scope.
Notation "x -w y" := (u64 (x - y)) (at level 50, left associativity) : mach_scope.
Notation "x *w y" := (u64 (x * y)) (at level 40, left associativity) : mach_scope.

(** The range predicates of the two unsigned widths. *)
Definition is_u64 (z : Z) : Prop := 0 <= z < TWO64.
Definition is_u32 (z : Z) : Prop := 0 <= z < TWO32.

#[global] Instance is_u64_dec z : Decision (is_u64 z) := _.
#[global] Instance is_u32_dec z : Decision (is_u32 z) := _.

(** ** Cache lines *)

Definition CACHELINE_SIZE : Z := 64.

(** [addr & ~(CACHELINE_SIZE - 1)], as the sources compute it. *)
Definition cl_align (addr : Z) : Z := Z.land addr (u64 (Z.lnot (CACHELINE_SIZE - 1))).

(** ** Tactics *)

(** Linear arithmetic over machine integers: unfolds the ranges and the
    reductions, turns [/] and [mod] by constants into equations, then [lia]. *)
Ltac mlia :=
  unfold is_u64, is_u32, u64, u32, UINT64_MAX, UINT32_MAX, CACHELINE_SIZE in *;
  Z.to_euclidean_division_equations; lia.

(** Splits every boolean test of the goal and the context into a proposition. *)
Ltac btests :=
  repeat match goal with
  | H : _ && _ = true |- _ => apply andb_prop in H as [? ?]
  | H : _ || _ = false |- _ => apply orb_false_elim in H as [? ?]
  | H : negb _ = true |- _ => apply negb_true_iff in H
  | H : negb _ = false |- _ => apply negb_false_iff in H
  | H : (_ =? _) = true |- _ => apply Z.eqb_eq in H
  | H : (_ =? _) = false |- _ => apply Z.eqb_neq in H
  | H : (_ <? _) = true |- _ => apply Z.ltb_lt in H
  | H : (_ <? _) = false |- _ => apply Z.ltb_ge in H
  | H : (_ <=? _) = true |- _ => apply Z.leb_le in H
  | H : (_ <=? _) = false |- _ => apply Z.leb_gt in H
  end.

(** Case analysis on every test and match of the goal. *)
Ltac cases := repeat (case_match; simplify_eq/=; btests).

(** Rewrites the tests of [Z] equality that the context decides. *)
Ltac eqb_simpl :=
  repeat match goal with
  | H : ?a ≠ ?b |- context [?a =? ?b] => rewrite (proj2 (Z.eqb_neq a b) H)
  | |- context [?a =? ?a] => rewrite (Z.eqb_refl a)
  end.

(** ** Generic lemmas: machine integers *)

Create HintDb cxl discriminated.

Lemma u64_small z : is_u64 z → u64 z = z.
Proof. unfold is_u64, u64. intros. by apply Z.mod_small. Qed.

Lemma u32_small z : is_u32 z → u32 z = z.
Proof. unfold is_u32, u32. intros. by apply Z.mod_small. Qed.

Lemma u64_range z : is_u64 (u64 z).
Proof. unfold is_u64, u64. by apply Z.mod_pos_bound. Qed.

Lemma u32_range z : is_u32 (u32 z).
Proof. unfold is_u32, u32. by apply Z.mod_pos_bound. Qed.

Lemma u64_idemp z : u64 (u64 z) = u64 z.
Proof. apply u64_small, u64_range. Qed.

#[export] Hint Resolve u64_range u32_range : cxl.

(** *** Little-endian words *)

Fixpoint le_decode (bs : list Z) : Z :=
  match bs with [] => 0 | b :: bs' => b + 256 * le_decode bs' end.

Fixpoint le_encode (n : nat) (v : Z) : list Z :=
  match n with O => [] | S n' => v mod 256 :: le_encode n' (v / 256) end.

Lemma le_encode_length n v : length (le_encode n v) = n.
Proof. revert v. induction n as [|n IH]; intros v; simpl; auto. Qed.

Lemma le_decode_encode n v : le_decode (le_encode n v) = v mod 256 ^ Z.of_nat n.
Proof.
  revert v. induction n as [|n IH]; intros v; [by rewrite Z.mod_1_r|]. cbn [le_encode le_decode]. rewrite IH.
  rewrite Nat2Z.inj_succ, Z.pow_succ_r by lia. rewrite (Z.rem_mul_r v 256) by lia. lia.
Qed.

Lemma le_word v : le_decode (le_encode 8 v) = u64 v.
Proof. apply le_decode_encode. Qed.

Lemma u64_add_small x y : 0 <= x → 0 <= y → x + y < TWO64 → x +w y = x + y.
Proof. intros. apply u64_small. unfold is_u64. lia. Qed.

(** ** Generic lemmas: cache-line alignment *)

Lemma cl_align_mod addr : is_u64 addr → cl_align addr = addr - addr mod 64.
Proof.
  intros Hr. unfold cl_align, CACHELINE_SIZE.
  change (u64 (Z.lnot (64 - 1))) with (Z.ldiff (Z.ones 64) (Z.ones 6)).
  rewrite Z.ldiff_land, Z.land_assoc, Z.land_ones by lia.
  change (2 ^ 64) with TWO64. rewrite Z.mod_small by done.
  rewrite <- Z.ldiff_land, Z.ldiff_ones_r by lia.
  rewrite Z.shiftl_mul_pow2, Z.shiftr_div_pow2 by lia.
  change (2 ^ 6) with 64. mlia.
Qed.

Lemma cl_align_le addr : is_u64 addr → 0 <= cl_align addr <= addr.
Proof. intros H. rewrite cl_align_mod by done. mlia. Qed.

Lemma cl_align_aligned addr : is_u64 addr → cl_align addr mod 64 = 0.
Proof. intros H. rewrite cl_align_mod by done. mlia. Qed.

Lemma cl_align_bound addr : is_u64 addr → addr < cl_align addr + 64.
Proof. intros H. rewrite cl_align_mod by done. mlia. Qed.

Lemma cl_align_u64 addr : is_u64 addr → is_u64 (cl_align addr).
Proof. intros H. pose proof (cl_align_le addr H). unfold is_u64 in *. lia. Qed.

Lemma cl_align_idemp addr : is_u64 addr → cl_align (cl_align addr) = cl_align addr.
Proof.
  intros H. rewrite (cl_align_mod (cl_align addr)) by by apply cl_align_u64.
  rewrite cl_align_aligned by done. lia.
Qed.

(** Two addresses have the same line exactly when they have the same block. *)
Lemma cl_align_same a b :
  is_u64 a → is_u64 b → cl_align a = cl_align b ↔ a / 64 = b / 64.
Proof. intros Ha Hb. rewrite !cl_align_mod by done. mlia. Qed.

#[export] Hint Resolve cl_align_u64 cl_align_aligned : cxl.

(** ** Generic lemmas: lists *)

Lemma existsb_exists_iff {A} (f : A → bool) l :
  existsb f l = true ↔ ∃ x, x ∈ l ∧ f x = true.
Proof.
  rewrite existsb_exists. setoid_rewrite list_elem_of_In. done.
Qed.

Lemma existsb_false_iff {A} (f : A → bool) l :
  existsb f l = false ↔ ∀ x, x ∈ l → f x = false.
Proof.
  rewrite <- not_true_iff_false, existsb_exists_iff. split.
  - intros H x Hx. destruct (f x) eqn:?; naive_solver.
  - intros H (x & Hx & Hf). rewrite H in Hf; done.
Qed.

(** The first element of a list that passes a test ([std::find_if], or a
    loop that returns at the first match). *)
Fixpoint find_first {A} (f : A → bool) (l : list A) : option A :=
  match l with
  | [] => None
  | x :: l' => if f x then Some x else find_first f l'
  end.

Lemma find_first_Some {A} (f : A → bool) l x :
  find_first f l = Some x → x ∈ l ∧ f x = true.
Proof.
  induction l as [|y l IH]; simpl; [done|]. destruct (f y) eqn:Hf.
  - intros [= ->]. set_solver.
  - intros [? ?]%IH. set_solver.
Qed.

Lemma find_first_None {A} (f : A → bool) l :
  find_first f l = None ↔ ∀ x, x ∈ l → f x = false.
Proof.
  induction l as [|y l IH]; simpl; [set_solver|]. destruct (f y) eqn:Hf.
  - split; [done|]. intros H. specialize (H y ltac:(set_solver)). congruence.
  - rewrite IH. set_solver.
Qed.

Lemma find_first_is_Some {A} (f : A → bool) l :
  is_Some (find_first f l) ↔ ∃ x, x ∈ l ∧ f x = true.
Proof.
  rewrite <- existsb_exists_iff. rewrite <- not_eq_None_Some, find_first_None.
  rewrite <- existsb_false_iff. destruct (existsb f l); naive_solver.
Qed.

(** Sum of a list of machine integers, not reduced. *)
Definition zsum (l : list Z) : Z := foldr Z.add 0 l.

Lemma zsum_cons x l : zsum (x :: l) = x + zsum l.
Proof. done. Qed.

Lemma zsum_app l k : zsum (l ++ k) = zsum l + zsum k.
Proof. induction l as [|x l IH]; simpl; [done|]. unfold zsum in *. simpl. lia. Qed.

#[global] Instance zsum_perm : Proper ((≡ₚ) ==> (=)) zsum.
Proof. induction 1; unfold zsum in *; simpl in *; lia. Qed.

Lemma zsum_nonneg l : Forall (λ x, 0 <= x) l → 0 <= zsum l.
Proof. induction 1; unfold zsum in *; simpl; lia. Qed.

(** The list with its first element passing a test rewritten, [None] when no
    element passes (a loop over references that mutates and returns). *)
Fixpoint update_first {A} (f : A → bool) (g : A → A) (l : list A) : option (list A) :=
  match l with
  | [] => None
  | x :: l' => if f x then Some (g x :: l') else (x ::.) <$> update_first f g l'
  end.

Lemma update_first_Some {A} (f : A → bool) (g : A → A) l l' :
  update_first f g l = Some l' →
  ∃ l1 x l2, l = l1 ++ x :: l2 ∧ l' = l1 ++ g x :: l2 ∧ f x = true.
Proof.
  revert l'. induction l as [|y l IH]; simpl; [done|]. intros l'. destruct (f y) eqn:Hf.
  - intros [= <-]. by exists [], y, l.
  - intros (k & (l1 & x & l2 & -> & -> & ?)%IH & ->)%fmap_Some. by exists (y :: l1), x, l2.
Qed.

Lemma update_first_None {A} (f : A → bool) (g : A → A) l :
  update_first f g l = None ↔ ∀ x, x ∈ l → f x = false.
Proof.
  induction l as [|y l IH]; simpl; [set_solver|]. destruct (f y) eqn:Hf.
  - split; [done|]. intros H. specialize (H y ltac:(set_solver)). congruence.
  - rewrite fmap_None, IH. set_solver.
Qed.

Lemma elem_of_insert_inv {A} (l : list A) i x y : y ∈ <[i := x]> l → y = x ∨ y ∈ l.
Proof.
  intros [j [(_ & -> & _)|[_ Hj]]%list_lookup_insert_Some]%list_elem_of_lookup; [by left|right].
  by eapply list_elem_of_lookup_2.
Qed.

(** The elements of a list that pass a boolean test, in order. *)
Definition keep {A} (f : A → bool) (l : list A) : list A := base.filter (λ x, f x = true) l.

Lemma elem_of_keep {A} (f : A → bool) l x : x ∈ keep f l ↔ f x = true ∧ x ∈ l.
Proof. unfold keep. by rewrite list_elem_of_filter. Qed.

Lemma keep_app {A} (f : A → bool) l k : keep f (l ++ k) = keep f l ++ keep f k.
Proof. apply filter_app. Qed.

Lemma keep_cons {A} (f : A → bool) x l :
  keep f (x :: l) = if f x then x :: keep f l else keep f l.
Proof.
  unfold keep. destruct (f x) eqn:Hf; [by rewrite filter_cons_True|by rewrite filter_cons_False by congruence].
Qed.

Lemma keep_all {A} (f : A → bool) l : (∀ x, x ∈ l → f x = true) → keep f l = l.
Proof.
  induction l as [|x l IH]; intros H; [done|].
  rewrite keep_cons, (H x), IH by set_solver. done.
Qed.

Lemma keep_sublist {A} (f : A → bool) l : sublist (keep f l) l.
Proof.
  induction l as [|x l IH]; [constructor|]. rewrite keep_cons. case_match; by constructor.
Qed.

(** ** Generic lemmas: pairwise relations *)

(** A symmetric relation holds between any two positions of the list. *)
Fixpoint pairwise {A} (R : A → A → Prop) (l : list A) : Prop :=
  match l with
  | [] => True
  | x :: l' => (∀ y, y ∈ l' → R x y) ∧ pairwise R l'
  end.

Lemma pairwise_app {A} (R : A → A → Prop) l k :
  pairwise R (l ++ k) ↔ pairwise R l ∧ pairwise R k ∧ ∀ x y, x ∈ l → y ∈ k → R x y.
Proof.
  induction l as [|x l IH]; simpl; [set_solver|]. rewrite IH. set_solver.
Qed.

Lemma pairwise_perm {A} (R : A → A → Prop) l k :
  (∀ x y, R x y → R y x) → l ≡ₚ k → pairwise R l → pairwise R k.
Proof.
  intros Hs. induction 1 as [|x l k Hp IH|x y l|]; simpl; [done|..|tauto].
  - intros [H1 H2]. split; [|auto]. intros y Hy. apply H1. by rewrite Hp.
  - intros (H1 & H2 & H3). repeat split; [|set_solver|done].
    intros z [->|Hz]%elem_of_cons; [apply Hs, H1; set_solver|set_solver].
Qed.

(** A running [uint64_t] total is the reduced sum. *)
Lemma foldl_addw {A} (f : A → Z) (l : list A) acc :
  is_u64 acc → foldl (λ acc x, acc +w f x) acc l = u64 (acc + zsum (f <$> l)).
Proof.
  revert acc. induction l as [|x l IH]; intros acc Hacc; cbn [foldl].
  - change (zsum (f <$> [])) with 0. by rewrite Z.add_0_r, u64_small.
  - rewrite IH by apply u64_range. rewrite fmap_cons, zsum_cons. unfold u64.
    by rewrite Zplus_mod_idemp_l, Z.add_assoc.
Qed.
