(* ===== verification/Float64.v ===== *)
(** * Float64: the C++ [double]

    The simulator computes latencies and bandwidth shares with [double].
    They are IEEE 754 binary64 numbers here: [spec_float] with 53 bits of
    precision and maximal exponent 1024, rounded to nearest even.  The
    operations are executable, so a latency can be evaluated on a concrete
    input.  A decimal literal such as [0.3] is the correctly rounded quotient
    of two exactly representable integers, which is the double the compiler
    produces for it.

    Converting a [double] outside the target range to an integer type is
    undefined in C++.  The class [CastUB] stands for whatever value the
    platform produces there; no theorem depends on it. *)

From Stdlib Require Import SpecFloat.
From S2P Require Import Prelude.

Declare Scope f64_scope.
Delimit Scope f64_scope with f64.

(** ** Operations *)

Abbreviation f64 := spec_float.
Bind Scope f64_scope with spec_float.

Definition fadd : f64 → f64 → f64 := SFadd 53 1024.
Definition fsub : f64 → f64 → f64 := SFsub 53 1024.
Definition fmul : f64 → f64 → f64 := SFmul 53 1024.
Definition fdiv : f64 → f64 → f64 := SFdiv 53 1024.

Definition flt (x y : f64) : bool := SFltb x y.
Definition fle (x y : f64) : bool := SFleb x y.

(** [static_cast<double>] of an integer: correctly rounded. *)
Definition f64_of_Z (z : Z) : f64 := binary_normalize 53 1024 z 0 false.

(** A decimal literal [n/d]. *)
Definition flit (n d : Z) : f64 := fdiv (f64_of_Z n) (f64_of_Z d).

Notation "x + y" := (fadd x y) : f64_scope.
Notation "x - y" := (fsub x y) : f64_scope.
Notation "x * y" := (fmul x y) : f64_scope.
Notation "x / y" := (fdiv x y) : f64_scope.

Definition f0 : f64 := S754_zero false.
Definition f1 : f64 := f64_of_Z 1.

(** [std::max], [std::min] and [std::clamp], with their behaviour on ties and NaN. *)
Definition fmax (x y : f64) : f64 := if flt x y then y else x.
Definition fmin (x y : f64) : f64 := if flt y x then y else x.
Definition fclamp (v lo hi : f64) : f64 := if flt v lo then lo else if flt hi v then hi else v.

(** Truncation towards zero; [None] on NaN and infinities. *)
Definition ftrunc (x : f64) : option Z :=
  match x with
  | S754_zero _ => Some 0
  | S754_finite s m e =>
      let a := if 0 <=? e then Z.pos m * 2 ^ e else Z.pos m / 2 ^ (- e) in
      Some (if s then - a else a)
  | _ => None
  end.

(** The platform's result for an undefined conversion. *)
Class CastUB := cast_ub : f64 → Z.

(** [static_cast<uint64_t>(x)]. *)
Definition f64_to_u64 `{CastUB} (x : f64) : Z :=
  match ftrunc x with
  | Some z => if (0 <=? z) && (z <? TWO64) then z else u64 (cast_ub x)
  | None => u64 (cast_ub x)
  end.

(** ** Values that are not negative

    [fnn x] holds of every double that is not below zero (zeros of both
    signs, positive numbers, the positive infinity, and NaN). *)

Definition fnn (x : f64) : Prop :=
  match x with
  | S754_infinity s | S754_finite s _ _ => s = false
  | S754_zero _ | S754_nan => True
  end.

Lemma shr_1_nonneg mrs : 0 <= shr_m mrs → 0 <= shr_m (shr_1 mrs).
Proof. destruct mrs as [[|[p|p|]|p] r s]; simpl; lia. Qed.

Lemma iter_pos_shr_nonneg p mrs : 0 <= shr_m mrs → 0 <= shr_m (SpecFloat.iter_pos shr_1 p mrs).
Proof.
  revert mrs. induction p as [p IH|p IH|]; intros mrs H; simpl.
  - by apply IH, IH, shr_1_nonneg.
  - by apply IH, IH.
  - by apply shr_1_nonneg.
Qed.

Lemma shr_fexp_nonneg m e l : 0 <= m → 0 <= shr_m (fst (shr_fexp 53 1024 m e l)).
Proof.
  intros H. unfold shr_fexp, shr.
  assert (0 <= shr_m (shr_record_of_loc m l)) as H'.
  { by destruct l as [|[]]. }
  case_match; simpl; try done. by apply iter_pos_shr_nonneg.
Qed.

Lemma round_nearest_even_nonneg m l : 0 <= m → 0 <= round_nearest_even m l.
Proof. unfold round_nearest_even. destruct l as [|[]]; cases; lia. Qed.

Lemma binary_round_aux_nn m e l : 0 <= m → fnn (binary_round_aux 53 1024 false m e l).
Proof.
  intros H. unfold binary_round_aux.
  pose proof (shr_fexp_nonneg m e l H) as H1.
  destruct (shr_fexp 53 1024 m e l) as [mrs e'] eqn:?. simpl in H1.
  pose proof (shr_fexp_nonneg _ e' loc_Exact
    (round_nearest_even_nonneg (shr_m mrs) (loc_of_shr_record mrs) H1)) as H2.
  case_match. simpl in H2. repeat case_match; simpl; done.
Qed.

Lemma binary_normalize_nn m e : 0 <= m → fnn (binary_normalize 53 1024 m e false).
Proof.
  intros H. destruct m as [|p|p]; simpl; [done| |lia].
  unfold binary_round. case_match. by apply binary_round_aux_nn.
Qed.

Lemma f64_of_Z_nn z : 0 <= z → fnn (f64_of_Z z).
Proof. apply binary_normalize_nn. Qed.

Lemma fadd_nn x y : fnn x → fnn y → fnn (x + y)%f64.
Proof.
  destruct x as [| [] | | [] ??], y as [| [] | | [] ??]; simpl; try done.
  - by repeat case_match.
  - intros _ _. unfold binary_round. case_match. by apply binary_round_aux_nn.
Qed.

Lemma fmul_nn x y : fnn x → fnn y → fnn (x * y)%f64.
Proof.
  destruct x as [| [] | | [] ??], y as [| [] | | [] ??]; simpl; try done.
  intros _ _. by apply binary_round_aux_nn.
Qed.

Lemma SFdiv_core_nonneg m1 e1 m2 e2 :
  0 <= m1 → 0 < m2 → 0 <= fst (fst (SFdiv_core_binary 53 1024 m1 e1 m2 e2)).
Proof.
  intros H1 H2. unfold SFdiv_core_binary.
  set (m' := match _ with Z0 => m1 | Z.pos _ => _ | Z.neg _ => 0 end).
  assert (0 <= m') as Hm.
  { subst m'. case_match; try lia. rewrite Z.shiftl_nonneg. lia. }
  pose proof (Z_div_mod m' m2 ltac:(lia)) as Hd.
  destruct (Z.div_eucl m' m2) as [q r]. simpl. nia.
Qed.

Lemma fdiv_nn x y : fnn x → fnn y → y ≠ S754_zero true → fnn (x / y)%f64.
Proof.
  destruct x as [[] | [] | | [] m1 e1], y as [[] | [] | | [] m2 e2]; simpl; try done.
  intros _ _ _. unfold fdiv, SFdiv.
  pose proof (SFdiv_core_nonneg (Z.pos m1) e1 (Z.pos m2) e2 ltac:(lia) ltac:(lia)).
  destruct (SFdiv_core_binary _ _ _ _ _) as [[q e'] l]. by apply binary_round_aux_nn.
Qed.

Lemma fmax_nn_l x y : fnn x → fnn (fmax x y).
Proof.
  unfold fmax, flt, SFltb. intros Hx. case_match eqn:E; [|done].
  destruct x as [| [] | | [] ??], y as [| [] | | [] ??]; simpl in *; try done; by cases.
Qed.

Lemma fmin_nn x y : fnn x → fnn y → fnn (fmin x y).
Proof. unfold fmin. by case_match. Qed.

#[export] Hint Resolve f64_of_Z_nn fadd_nn fmul_nn fmin_nn fmax_nn_l : cxl.

(** ** Order *)

Lemma flt_irrefl x : flt x x = false.
Proof.
  unfold flt, SFltb, SFcompare. destruct x as [| [] | | [] m e]; try done.
  all: rewrite Z.compare_refl; change (Pos.compare_cont Eq m m) with (Pos.compare m m);
    by rewrite Pos.compare_refl.
Qed.

(** The smaller of two doubles is not above its second argument. *)
Lemma fmin_not_above x y : flt y (fmin x y) = false.
Proof. unfold fmin. destruct (flt y x) eqn:E; [apply flt_irrefl|done]. Qed.

(** The truncation of a value that is not negative is a natural number. *)
Lemma ftrunc_nonneg x z : fnn x → ftrunc x = Some z → 0 <= z.
Proof.
  destruct x as [| | | s m e]; simpl; try done; [naive_solver|].
  intros -> [= <-]. case_match; [|apply Z.div_pos; lia]. lia.
Qed.

Lemma f64_to_u64_range `{CastUB} x : is_u64 (f64_to_u64 x).
Proof.
  unfold f64_to_u64. cases; auto with cxl. unfold is_u64. lia.
Qed.

#[export] Hint Resolve f64_to_u64_range : cxl.
