(* ===== verification/HdmDecoder.v ===== *)
(** * HdmDecoder: host-managed device memory address decoding

    Models [HDMDecoder] ([include/hdm_decoder.h], [src/hdm_decoder.cpp]): the
    range-based decoder (linear scan before [sort_ranges], binary search
    after), the interleaved decoder and the hybrid mode.  Addresses are 64-bit
    and [base_addr + size] wraps as it does in the source. *)

From S2P Require Import Prelude.

(** ** Data *)

Inductive HDMDecoderMode := INTERLEAVED | RANGE_BASED | HYBRID.

Inductive InterleaveGranularity :=
  CACHELINE_64B | CACHELINE_256B | PAGE_4K | PAGE_2M | PAGE_1G.

(** The underlying [uint64_t] of the enumeration. *)
Definition granularity_value (g : InterleaveGranularity) : Z :=
  match g with
  | CACHELINE_64B => 64
  | CACHELINE_256B => 256
  | PAGE_4K => 4096
  | PAGE_2M => 2097152
  | PAGE_1G => 1073741824
  end.

Record HDMRange := {
  hr_base_addr : Z;
  hr_size : Z;
  hr_target_id : Z;
  hr_is_remote : bool
}.

Record HDMInterleaveConfig := {
  hi_granularity : InterleaveGranularity;
  hi_target_ids : list Z;
  hi_base_addr : Z;
  hi_total_size : Z
}.

Record DecodeResult := {
  dr_target_id : Z;
  dr_local_offset : Z;
  dr_is_remote : bool;
  dr_hop_count : Z
}.

Record HDMDecoder := {
  hd_mode : HDMDecoderMode;
  hd_ranges : list HDMRange;
  hd_interleave : HDMInterleaveConfig;
  hd_ranges_sorted : bool
}.

#[global] Instance HDMRange_eq_dec : EqDecision HDMRange.
Proof. solve_decision. Defined.

#[global] Instance DecodeResult_eq_dec : EqDecision DecodeResult.
Proof. solve_decision. Defined.

(** ** Operations *)

Definition HDMDecoder_new (mode : HDMDecoderMode) : HDMDecoder :=
  {| hd_mode := mode; hd_ranges := [];
     hd_interleave := {| hi_granularity := CACHELINE_256B; hi_target_ids := [];
                         hi_base_addr := 0; hi_total_size := 0 |};
     hd_ranges_sorted := false |}.

Definition add_range (d : HDMDecoder) (base size target_id : Z) (is_remote : bool) : HDMDecoder :=
  {| hd_mode := hd_mode d;
     hd_ranges := hd_ranges d ++
       [{| hr_base_addr := base; hr_size := size; hr_target_id := target_id;
           hr_is_remote := is_remote |}];
     hd_interleave := hd_interleave d;
     hd_ranges_sorted := false |}.

Definition configure_interleave (d : HDMDecoder) (gran : InterleaveGranularity)
    (targets : list Z) (base total_size : Z) : HDMDecoder :=
  {| hd_mode := hd_mode d; hd_ranges := hd_ranges d;
     hd_interleave := {| hi_granularity := gran; hi_target_ids := targets;
                         hi_base_addr := base; hi_total_size := total_size |};
     hd_ranges_sorted := hd_ranges_sorted d |}.

(** The comparator of [std::sort]: ascending base address. *)
Definition range_le (a b : HDMRange) : Prop := hr_base_addr a <= hr_base_addr b.

#[global] Instance range_le_dec a b : Decision (range_le a b).
Proof. unfold range_le. apply _. Defined.

Definition sort_ranges (d : HDMDecoder) : HDMDecoder :=
  {| hd_mode := hd_mode d;
     hd_ranges := merge_sort range_le (hd_ranges d);
     hd_interleave := hd_interleave d;
     hd_ranges_sorted := true |}.

(** [{UINT32_MAX, 0, false, 0}], the answer when nothing matches. *)
Definition no_decode : DecodeResult :=
  {| dr_target_id := UINT32_MAX; dr_local_offset := 0; dr_is_remote := false; dr_hop_count := 0 |}.

(** The guard of the linear scan. *)
Definition in_range (addr : Z) (r : HDMRange) : bool :=
  (hr_base_addr r <=? addr) && (addr <? hr_base_addr r +w hr_size r).

(** The answer for an address inside a range. *)
Definition range_hit (addr : Z) (r : HDMRange) : DecodeResult :=
  {| dr_target_id := hr_target_id r;
     dr_local_offset := addr -w hr_base_addr r;
     dr_is_remote := hr_is_remote r;
     dr_hop_count := if hr_is_remote r then 1 else 0 |}.

(** The loop taken when the ranges are not sorted. *)
Definition scan_ranges (rs : list HDMRange) (addr : Z) : DecodeResult :=
  match find_first (in_range addr) rs with
  | Some r => range_hit addr r
  | None => no_decode
  end.

(** The binary search; [None] when the fuel runs out before the loop ends. *)
Fixpoint bsearch_ranges (fuel : nat) (rs : list HDMRange) (addr lo hi : Z) : option DecodeResult :=
  match fuel with
  | O => None
  | S fuel' =>
      if lo <=? hi then
        let mid := lo + (hi - lo) / 2 in
        match rs !! Z.to_nat mid with
        | None => None
        | Some range =>
            if addr <? hr_base_addr range then bsearch_ranges fuel' rs addr lo (mid - 1)
            else if hr_base_addr range +w hr_size range <=? addr
            then bsearch_ranges fuel' rs addr (mid + 1) hi
            else Some (range_hit addr range)
        end
      else Some no_decode
  end.

Definition decode_range (d : HDMDecoder) (addr : Z) : DecodeResult :=
  match hd_ranges d with
  | [] => no_decode
  | rs =>
      if hd_ranges_sorted d then
        default no_decode
          (bsearch_ranges (S (length rs)) rs addr 0 (Z.of_nat (length rs) - 1))
      else scan_ranges rs addr
  end.

Definition decode_interleaved (d : HDMDecoder) (addr : Z) : DecodeResult :=
  let c := hd_interleave d in
  match hi_target_ids c with
  | [] => no_decode
  | targets =>
      if (addr <? hi_base_addr c) || (hi_base_addr c +w hi_total_size c <=? addr) then no_decode
      else
        let granularity := granularity_value (hi_granularity c) in
        let relative_addr := addr -w hi_base_addr c in
        let block_index := relative_addr / granularity in
        let num_targets := Z.of_nat (length targets) in
        let target_index := block_index mod num_targets in
        let target_id := default 0 (targets !! Z.to_nat target_index) in
        let target_block := block_index / num_targets in
        let intra_block_offset := relative_addr mod granularity in
        let local_offset := (target_block *w granularity) +w intra_block_offset in
        let is_remote :=
          match find_first (λ r, hr_target_id r =? target_id) (hd_ranges d) with
          | Some r => hr_is_remote r
          | None => false
          end in
        {| dr_target_id := target_id; dr_local_offset := local_offset;
           dr_is_remote := is_remote; dr_hop_count := if is_remote then 1 else 0 |}
  end.

Definition decode (d : HDMDecoder) (addr : Z) : DecodeResult :=
  match hd_mode d with
  | RANGE_BASED => decode_range d addr
  | INTERLEAVED => decode_interleaved d addr
  | HYBRID =>
      let result := decode_range d addr in
      if negb (dr_target_id result =? UINT32_MAX) then result
      else decode_interleaved d addr
  end.

Definition get_home_node (d : HDMDecoder) (addr : Z) : Z := dr_target_id (decode d addr).

Definition is_local (d : HDMDecoder) (addr local_node_id : Z) : bool :=
  (dr_target_id (decode d addr) =? local_node_id) && negb (dr_is_remote (decode d addr)).

(** ** Routing *)

(** All nodes that a decoder can name. *)
Definition targets (d : HDMDecoder) : list Z := (hr_target_id <$> hd_ranges d) ++ hi_target_ids (hd_interleave d).

Lemma bsearch_ranges_target fuel rs addr lo hi :
  dr_target_id (default no_decode (bsearch_ranges fuel rs addr lo hi)) ∈ UINT32_MAX :: (hr_target_id <$> rs).
Proof.
  revert lo hi. induction fuel as [|fuel IH]; intros lo hi; cbn [bsearch_ranges]; [by left|]. destruct (lo <=? hi); [|by left].
  destruct (rs !! _) as [r|] eqn:E; [|by left]. destruct (addr <? _); [apply IH|]. destruct (_ <=? addr); [apply IH|].
  right. apply list_elem_of_fmap. exists r. split; [done|]. by eapply list_elem_of_lookup_2.
Qed.

Lemma decode_range_target d addr : dr_target_id (decode_range d addr) ∈ UINT32_MAX :: (hr_target_id <$> hd_ranges d).
Proof.
  unfold decode_range. destruct (hd_ranges d) as [|r0 rs0] eqn:Er; [by left|]. rewrite <- Er. destruct (hd_ranges_sorted d); [apply bsearch_ranges_target|].
  unfold scan_ranges. destruct (find_first _ _) as [r|] eqn:E; [|by left]. right. apply find_first_Some in E as [E _]. apply list_elem_of_fmap. by exists r.
Qed.

Lemma decode_interleaved_target d addr : dr_target_id (decode_interleaved d addr) ∈ UINT32_MAX :: hi_target_ids (hd_interleave d).
Proof.
  unfold decode_interleaved. destruct (hi_target_ids _) as [|t ts] eqn:E; [by left|]. rewrite <- E. destruct (_ || _); [by left|]. right. simpl.
  set (k := _ mod _). assert (0 <= k < Z.of_nat (length (hi_target_ids (hd_interleave d)))) as Hk
    by (apply Z.mod_pos_bound; rewrite E; simpl; lia).
  destruct (lookup_lt_is_Some_2 (hi_target_ids (hd_interleave d)) (Z.to_nat k)) as [x Hx]; [lia|].
  rewrite Hx. by eapply list_elem_of_lookup_2.
Qed.

Lemma get_home_node_target d addr : get_home_node d addr ∈ UINT32_MAX :: targets d.
Proof.
  unfold get_home_node, decode, targets. pose proof (decode_range_target d addr) as H1. pose proof (decode_interleaved_target d addr) as H2.
  destruct (hd_mode d); [set_solver..|]. destruct (negb _); set_solver.
Qed.

(** ** Well-formed range tables *)

(** A range that is not empty and whose end is representable. *)
Definition range_ok (r : HDMRange) : Prop :=
  0 <= hr_base_addr r ∧ 0 < hr_size r ∧ hr_base_addr r + hr_size r < TWO64.

(** Mathematical membership, without wrap-around. *)
Definition range_contains (addr : Z) (r : HDMRange) : Prop :=
  hr_base_addr r <= addr < hr_base_addr r + hr_size r.

Definition ranges_apart (r s : HDMRange) : Prop :=
  hr_base_addr r + hr_size r <= hr_base_addr s ∨ hr_base_addr s + hr_size s <= hr_base_addr r.

(** The entries of the table are distinct and no two of them overlap. *)
Definition ranges_disjoint (rs : list HDMRange) : Prop :=
  NoDup rs ∧ ∀ r s, r ∈ rs → s ∈ rs → r ≠ s → ranges_apart r s.

(** ** Lemmas: the range table *)

Lemma in_range_iff addr r : range_ok r → in_range addr r = true ↔ range_contains addr r.
Proof.
  intros (?&?&?). unfold in_range, range_contains.
  rewrite u64_add_small by lia. lia.
Qed.

Lemma contains_unique rs addr r s :
  ranges_disjoint rs → r ∈ rs → s ∈ rs →
  range_contains addr r → range_contains addr s → r = s.
Proof.
  intros [_ Hd] Hr Hs Hcr Hcs. destruct (decide (r = s)) as [|Hne]; [done|].
  specialize (Hd r s Hr Hs Hne). unfold ranges_apart, range_contains in *. lia.
Qed.

Lemma scan_ranges_hit rs addr r :
  Forall range_ok rs → ranges_disjoint rs → r ∈ rs → range_contains addr r →
  scan_ranges rs addr = range_hit addr r.
Proof.
  intros Hok Hd Hr Hc. unfold scan_ranges. rewrite Forall_forall in Hok.
  destruct (find_first (in_range addr) rs) as [s|] eqn:E.
  - apply find_first_Some in E as [Hs Hi]. apply in_range_iff in Hi; [|by apply Hok].
    by rewrite (contains_unique rs addr r s).
  - rewrite find_first_None in E. specialize (E r Hr).
    apply in_range_iff in Hc; [congruence|by apply Hok].
Qed.

Lemma scan_ranges_miss rs addr :
  Forall range_ok rs → (∀ r, r ∈ rs → ¬ range_contains addr r) → scan_ranges rs addr = no_decode.
Proof.
  intros Hok Hn. unfold scan_ranges. rewrite Forall_forall in Hok.
  destruct (find_first (in_range addr) rs) as [s|] eqn:E; [|done].
  apply find_first_Some in E as [Hs Hi]. apply in_range_iff in Hi; [|by apply Hok].
  by destruct (Hn s).
Qed.

(** ** Lemmas: the binary search *)

(** Earlier entries end before later ones begin. *)
Definition ranges_ascending (rs : list HDMRange) : Prop :=
  ∀ i j r s, (i < j)%nat → rs !! i = Some r → rs !! j = Some s →
    hr_base_addr r + hr_size r <= hr_base_addr s.

#[global] Instance range_le_total : Total range_le.
Proof. intros a b. unfold range_le. lia. Qed.

#[global] Instance range_le_trans : Transitive range_le.
Proof. intros a b c. unfold range_le. lia. Qed.

Lemma sorted_ranges_ascending rs :
  Forall range_ok rs → ranges_disjoint rs → ranges_ascending (merge_sort range_le rs).
Proof.
  intros Hok [Hnd Hd] i j r s Hij Hi Hj.
  pose proof (merge_sort_Permutation range_le rs) as Hp.
  assert (StronglySorted range_le (merge_sort range_le rs)) as Hs.
  { apply StronglySorted_merge_sort; apply _. }
  assert (range_le r s) as Hle.
  { rewrite <- (take_drop (S i) (merge_sort range_le rs)) in Hs.
    eapply StronglySorted_app_1_elem_of; [exact Hs| |].
    - apply list_elem_of_lookup. exists i. rewrite lookup_take_lt by lia. done.
    - apply list_elem_of_lookup. exists (j - S i)%nat. rewrite lookup_drop.
      by replace (S i + (j - S i))%nat with j by lia. }
  assert (r ∈ rs ∧ s ∈ rs) as [Hr Hs'].
  { rewrite <- Hp. split; apply list_elem_of_lookup; eauto. }
  assert (r ≠ s) as Hne.
  { rewrite <- Hp in Hnd. intros ->. assert (i = j) by (eapply NoDup_lookup; eauto). lia. }
  specialize (Hd r s Hr Hs' Hne). rewrite Forall_forall in Hok.
  pose proof (Hok r Hr). pose proof (Hok s Hs'). unfold ranges_apart, range_le, range_ok in *. lia.
Qed.

(** With enough fuel the search returns, and its answer is the entry of the
    window that contains the address, if there is one. *)
Lemma bsearch_ranges_correct rs addr :
  Forall range_ok rs → ranges_ascending rs →
  ∀ fuel lo hi,
  0 <= lo <= hi + 1 → hi < Z.of_nat (length rs) → hi - lo + 1 < Z.of_nat fuel →
  (∃ i r, lo <= i <= hi ∧ rs !! Z.to_nat i = Some r ∧ range_contains addr r ∧
     bsearch_ranges fuel rs addr lo hi = Some (range_hit addr r)) ∨
  ((∀ i r, lo <= i <= hi → rs !! Z.to_nat i = Some r → ¬ range_contains addr r) ∧
     bsearch_ranges fuel rs addr lo hi = Some no_decode).
Proof.
  intros Hok Hasc fuel. induction fuel as [|fuel IH]; intros lo hi Hlo Hhi Hfuel; simpl.
  { lia. }
  destruct (lo <=? hi) eqn:Hlh; btests; [|right; split; [intros; lia|done]].
  set (mid := lo + (hi - lo) / 2).
  assert (lo <= mid <= hi) as Hmid by (unfold mid; mlia).
  destruct (lookup_lt_is_Some_2 rs (Z.to_nat mid)) as [range Hrange]; [lia|].
  rewrite Hrange. assert (range_ok range) as Hro.
  { rewrite Forall_lookup in Hok. eauto. }
  rewrite u64_add_small by (unfold range_ok in Hro; lia).
  destruct (addr <? hr_base_addr range) eqn:H1; btests;
    [|destruct (hr_base_addr range + hr_size range <=? addr) eqn:H2; btests].
  - destruct (IH lo (mid - 1)) as [(i & r & ? & ? & ? & ?)|[Hn ?]]; [lia..| |].
    + left. exists i, r. split; [lia|done].
    + right. split; [|done]. intros i r Hi Hr Hc.
      destruct (decide (i <= mid - 1)); [by eapply Hn; eauto; lia|].
      destruct (decide (i = mid)) as [->|]; [simplify_eq; unfold range_contains in Hc; lia|].
      specialize (Hasc (Z.to_nat mid) (Z.to_nat i) range r ltac:(lia) Hrange Hr).
      unfold range_contains, range_ok in *. lia.
  - destruct (IH (mid + 1) hi) as [(i & r & ? & ? & ? & ?)|[Hn ?]]; [lia..| |].
    + left. exists i, r. split; [lia|done].
    + right. split; [|done]. intros i r Hi Hr Hc.
      destruct (decide (mid + 1 <= i)); [by eapply Hn; eauto; lia|].
      destruct (decide (i = mid)) as [->|]; [simplify_eq; unfold range_contains in Hc; lia|].
      specialize (Hasc (Z.to_nat i) (Z.to_nat mid) r range ltac:(lia) Hr Hrange).
      unfold range_contains, range_ok in *. lia.
  - left. exists mid, range. unfold range_contains. repeat split; (done || lia).
Qed.

Lemma lookup_all_iff {A} (rs : list A) (P : A → Prop) :
  (∀ i r, 0 <= i <= Z.of_nat (length rs) - 1 → rs !! Z.to_nat i = Some r → P r) →
  ∀ r, r ∈ rs → P r.
Proof.
  intros H r [i Hi]%list_elem_of_lookup. pose proof (lookup_lt_Some _ _ _ Hi).
  apply (H (Z.of_nat i)); [lia|]. by rewrite Nat2Z.id.
Qed.

(** ** Lemmas: interleaving *)

Lemma granularity_pos g : 64 <= granularity_value g <= 1073741824.
Proof. by destruct g. Qed.

(** The interleaved decoder as one equation, for an address of the region. *)
Lemma decode_interleaved_in d addr t :
  let c := hd_interleave d in
  let g := granularity_value (hi_granularity c) in
  let n := Z.of_nat (length (hi_target_ids c)) in
  let rel := addr - hi_base_addr c in
  0 <= hi_base_addr c → hi_base_addr c <= addr < hi_base_addr c + hi_total_size c →
  hi_base_addr c + hi_total_size c < TWO64 →
  hi_target_ids c !! Z.to_nat ((rel / g) mod n) = Some t →
  dr_target_id (decode_interleaved d addr) = t ∧
  dr_local_offset (decode_interleaved d addr) = rel / g / n * g + rel mod g.
Proof.
  intros c g n rel Hb Ha Hw Ht. unfold decode_interleaved. fold c.
  assert (0 < n) as Hn.
  { subst n. destruct (hi_target_ids c); [by rewrite lookup_nil in Ht|simpl; lia]. }
  destruct (hi_target_ids c) as [|t0 ts] eqn:Hts; [simpl in n; lia|].
  rewrite (u64_add_small (hi_base_addr c)) by lia.
  rewrite (proj2 (orb_false_iff _ _)) by lia.
  assert (u64 (addr - hi_base_addr c) = rel) as -> by (apply u64_small; unfold is_u64; lia).
  cbn [dr_target_id dr_local_offset]. fold g n. rewrite Ht. split; [done|].
  pose proof (granularity_pos (hi_granularity c)) as Hg. fold g in Hg.
  assert (0 <= rel / g / n * g <= rel) as Hq.
  { pose proof (Z.mul_div_le rel g ltac:(lia)).
    pose proof (Z.div_le_upper_bound (rel / g) n (rel / g) Hn).
    pose proof (Z.div_pos rel g ltac:(lia) ltac:(lia)).
    pose proof (Z.div_pos (rel / g) n ltac:(lia) Hn). nia. }
  assert (rel / g / n * g + rel mod g <= rel).
  { rewrite (Z.div_mod rel g) at 3 by lia.
    pose proof (Z.div_pos rel g ltac:(lia) ltac:(lia)).
    assert (rel / g / n <= rel / g) by (apply Z.div_le_upper_bound; nia). nia. }
  pose proof (Z.mod_pos_bound rel g ltac:(lia)).
  rewrite (u64_small (_ * g)) by (unfold is_u64; lia).
  apply u64_small. unfold is_u64. lia.
Qed.

(** The block arithmetic is inverted by the obvious formula. *)
Lemma interleave_inverse rel g n :
  0 <= rel → 0 < g → 0 < n →
  let off := rel / g / n * g + rel mod g in
  ((off / g) * n + (rel / g) mod n) * g + off mod g = rel.
Proof.
  intros Hr Hg Hn off.
  pose proof (Z.mod_pos_bound rel g Hg).
  assert (off / g = rel / g / n) as ->.
  { unfold off. rewrite Z.div_add_l by lia. rewrite (Z.div_small (rel mod g)) by lia. lia. }
  assert (off mod g = rel mod g) as ->.
  { unfold off. rewrite Z.add_comm, Z.mod_add by lia. by apply Z.mod_small. }
  rewrite (Z.mul_comm _ n), <- Z.div_mod by lia.
  rewrite (Z.mul_comm _ g), <- Z.div_mod by lia. done.
Qed.

(** ** Theorems *)

(** Sorting the range table never changes a decode: on a table of disjoint,
    representable ranges the binary search that [sort_ranges] enables returns,
    within its fuel, exactly what the linear scan of the unsorted table returns. *)
Theorem sort_ranges_decode d addr :
  hd_ranges_sorted d = false → Forall range_ok (hd_ranges d) → ranges_disjoint (hd_ranges d) →
  decode_range (sort_ranges d) addr = decode_range d addr.
Proof.
  intros Hs Hok Hd. unfold decode_range, sort_ranges. rewrite Hs. cbn [hd_ranges hd_ranges_sorted].
  pose proof (merge_sort_Permutation range_le (hd_ranges d)) as Hp.
  pose proof (sorted_ranges_ascending _ Hok Hd) as Hasc.
  set (ss := merge_sort range_le (hd_ranges d)) in *.
  destruct (hd_ranges d) as [|r0 rs0] eqn:Hrs; [done|]. rewrite <- Hrs in *.
  destruct ss as [|s0 ss0] eqn:Hss; [by apply Permutation_nil_l in Hp; congruence|].
  rewrite <- Hss in *.
  assert (Forall range_ok ss) as Hok' by by rewrite Hp.
  destruct (bsearch_ranges_correct ss addr Hok' Hasc
    (S (length ss)) 0 (Z.of_nat (length ss) - 1)) as [(i & r & Hi & Hr & Hc & ->)|[Hn ->]];
    [lia..| |]; simpl.
  - symmetry. apply scan_ranges_hit; try done. rewrite <- Hp.
    apply list_elem_of_lookup. eauto.
  - symmetry. apply scan_ranges_miss; [done|]. intros r Hr. rewrite <- Hp in Hr.
    revert r Hr. by apply lookup_all_iff.
Qed.

(** C35. Interleaving is a bijection onto the targets: byte [off] of target
    number [i] is reached by exactly the address that the inverse block formula
    gives, and it decodes back to that target and offset. *)
Theorem interleave_roundtrip d i off t k :
  let c := hd_interleave d in
  let g := granularity_value (hi_granularity c) in
  let n := Z.of_nat (length (hi_target_ids c)) in
  let addr := hi_base_addr c + ((off / g) * n + i) * g + off mod g in
  0 <= hi_base_addr c → hi_base_addr c + hi_total_size c < TWO64 →
  hi_total_size c = n * g * k → 0 <= off < g * k → 0 <= i →
  hi_target_ids c !! Z.to_nat i = Some t →
  hi_base_addr c <= addr < hi_base_addr c + hi_total_size c ∧
  dr_target_id (decode_interleaved d addr) = t ∧
  dr_local_offset (decode_interleaved d addr) = off.
Proof.
  intros c g n addr Hb Hw Htot Hoff Hi Ht.
  pose proof (granularity_pos (hi_granularity c)) as Hg. fold g in Hg.
  pose proof (lookup_lt_Some _ _ _ Ht) as Hlt.
  assert (i < n) as Hin by (subst n; lia).
  assert (0 <= off / g < k) as Hq.
  { split; [apply Z.div_pos; lia|]. apply Z.div_lt_upper_bound; lia. }
  pose proof (Z.mod_pos_bound off g ltac:(lia)) as Hm.
  set (rel := ((off / g) * n + i) * g + off mod g).
  assert (rel / g = off / g * n + i) as Hrg.
  { unfold rel. rewrite Z.div_add_l by lia. rewrite (Z.div_small (off mod g)) by lia. lia. }
  assert (rel mod g = off mod g) as Hrm.
  { unfold rel. rewrite Z.add_comm, Z.mod_add by lia. by apply Z.mod_small. }
  assert (addr - hi_base_addr c = rel) as Hrel by (unfold addr, rel; lia).
  assert (0 <= rel < hi_total_size c) as Hbound.
  { rewrite Htot. split; [unfold rel; nia|]. unfold rel. nia. }
  assert ((rel / g) mod n = i) as Hidx.
  { rewrite Hrg, Z.add_comm, Z.mod_add by lia. by apply Z.mod_small. }
  split; [lia|].
  destruct (decode_interleaved_in d addr t) as [-> ->]; fold c g n; try lia.
  { rewrite Hrel, Hidx. done. }
  split; [done|]. rewrite Hrel, Hrm, Hrg.
  rewrite Z.div_add_l, (Z.div_small i) by lia.
  rewrite Z.add_0_r, (Z.mul_comm _ g). symmetry. apply Z.div_mod. lia.
Qed.

(** Interleaving never aliases: with distinct targets, two addresses of the
    region that decode to the same target and the same local offset are equal. *)
Theorem interleave_injective d a b :
  let c := hd_interleave d in
  NoDup (hi_target_ids c) → hi_target_ids c ≠ [] →
  0 <= hi_base_addr c → hi_base_addr c + hi_total_size c < TWO64 →
  hi_base_addr c <= a < hi_base_addr c + hi_total_size c →
  hi_base_addr c <= b < hi_base_addr c + hi_total_size c →
  dr_target_id (decode_interleaved d a) = dr_target_id (decode_interleaved d b) →
  dr_local_offset (decode_interleaved d a) = dr_local_offset (decode_interleaved d b) →
  a = b.
Proof.
  intros c Hnd Hne Hb Hw Ha Hb' Ht Ho.
  set (g := granularity_value (hi_granularity c)).
  set (n := Z.of_nat (length (hi_target_ids c))).
  pose proof (granularity_pos (hi_granularity c)) as Hg. fold g in Hg.
  assert (0 < n) as Hn by (subst n; destruct (hi_target_ids c); [done|simpl; lia]).
  assert (∀ x, ∃ t, hi_target_ids c !! Z.to_nat ((x / g) mod n) = Some t) as Hlk.
  { intros x. apply lookup_lt_is_Some_2.
    pose proof (Z.mod_pos_bound (x / g) n Hn). subst n. lia. }
  destruct (Hlk (a - hi_base_addr c)) as [ta Hta]. destruct (Hlk (b - hi_base_addr c)) as [tb Htb].
  destruct (decode_interleaved_in d a ta) as [Ea Oa]; try done.
  destruct (decode_interleaved_in d b tb) as [Eb Ob]; try done.
  rewrite Ea, Eb in Ht. subst tb. rewrite Oa, Ob in Ho. clear Ea Eb Oa Ob.
  fold c g n in Ho.
  pose proof (NoDup_lookup _ _ _ _ Hnd Hta Htb) as Hidx.
  pose proof (Z.mod_pos_bound ((a - hi_base_addr c) / g) n Hn).
  pose proof (Z.mod_pos_bound ((b - hi_base_addr c) / g) n Hn).
  assert (((a - hi_base_addr c) / g) mod n = ((b - hi_base_addr c) / g) mod n) as Hidx' by lia.
  pose proof (interleave_inverse (a - hi_base_addr c) g n) as Ia.
  pose proof (interleave_inverse (b - hi_base_addr c) g n) as Ib.
  cbv zeta in Ia, Ib. rewrite Ho, Hidx' in Ia. lia.
Qed.

(** Hybrid mode: an address inside an explicit range decodes to that range's
    target and offset, and every other address decodes as the interleave set says. *)
Theorem decode_hybrid d addr :
  hd_mode d = HYBRID → hd_ranges_sorted d = false →
  Forall range_ok (hd_ranges d) → ranges_disjoint (hd_ranges d) →
  Forall (λ r, hr_target_id r ≠ UINT32_MAX) (hd_ranges d) → is_u64 addr →
  (∃ r, r ∈ hd_ranges d ∧ range_contains addr r ∧
     decode d addr = {| dr_target_id := hr_target_id r; dr_local_offset := addr - hr_base_addr r;
                        dr_is_remote := hr_is_remote r;
                        dr_hop_count := if hr_is_remote r then 1 else 0 |}) ∨
  ((∀ r, r ∈ hd_ranges d → ¬ range_contains addr r) ∧ decode d addr = decode_interleaved d addr).
Proof.
  intros Hm Hs Hok Hd Ht Ha. unfold decode. rewrite Hm.
  assert (decode_range d addr = scan_ranges (hd_ranges d) addr) as ->.
  { unfold decode_range. rewrite Hs. by destruct (hd_ranges d). }
  destruct (find_first (in_range addr) (hd_ranges d)) as [r|] eqn:E.
  - apply find_first_Some in E as [Hr Hi]. rewrite Forall_forall in Ht.
    assert (range_ok r) as Hro by (rewrite Forall_forall in Hok; auto).
    apply in_range_iff in Hi; [|done].
    left. exists r. do 2 (split; [done|]). rewrite (scan_ranges_hit _ _ r) by done.
    rewrite (proj2 (Z.eqb_neq _ _)) by by apply Ht.
    simpl. unfold range_hit. rewrite u64_small; [done|].
    unfold range_contains, range_ok, is_u64 in *. lia.
  - rewrite find_first_None in E. rewrite Forall_forall in Hok.
    assert (∀ r, r ∈ hd_ranges d → ¬ range_contains addr r) as Hn.
    { intros r Hr Hc. apply (in_range_iff addr r) in Hc; [|auto]. rewrite (E r Hr) in Hc. done. }
    right. split; [done|]. rewrite scan_ranges_miss; [done|by rewrite Forall_forall|done].
Qed.

(** A range that ends exactly at the top of the 64-bit address space never
    decodes anything: its end wraps to zero and the guard of the scan fails. *)
Theorem top_range_unreachable d base size t rem addr :
  hd_ranges d = [{| hr_base_addr := base; hr_size := size; hr_target_id := t; hr_is_remote := rem |}] →
  hd_ranges_sorted d = false → base + size = TWO64 → 0 <= addr →
  decode_range d addr = no_decode.
Proof.
  intros Hr Hs Hsum Ha. unfold decode_range, scan_ranges. rewrite Hr, Hs. simpl.
  unfold in_range. simpl. rewrite Hsum. change (u64 TWO64) with 0.
  rewrite (proj2 (andb_false_iff _ _)); [done|]. right. lia.
Qed.

(** ** Witnesses *)

Definition ex_ranges : HDMDecoder :=
  add_range (add_range (HDMDecoder_new HYBRID) 8192 4096 7 true) 0 4096 3 false.

Definition ex_interleaved : HDMDecoder :=
  configure_interleave ex_ranges CACHELINE_256B [3; 7] 65536 4096.

Lemma ex_ranges_ok : Forall range_ok (hd_ranges ex_ranges).
Proof. repeat constructor; simpl; lia. Qed.

Lemma ex_ranges_disjoint : ranges_disjoint (hd_ranges ex_ranges).
Proof.
  split; [by apply (bool_decide_unpack _); vm_compute|].
  simpl. intros r s. rewrite !elem_of_cons, !elem_of_nil. unfold ranges_apart.
  intros [->|[->|[]]] [->|[->|[]]] ?; simpl; (lia || done).
Qed.

Lemma sort_ranges_decode_witness :
  decode_range (sort_ranges ex_ranges) 8200 = decode_range ex_ranges 8200 ∧
  dr_target_id (decode_range ex_ranges 8200) = 7.
Proof.
  split; [|reflexivity].
  apply (sort_ranges_decode ex_ranges 8200 eq_refl ex_ranges_ok ex_ranges_disjoint).
Defined.

Lemma interleave_roundtrip_witness :
  dr_target_id (decode_interleaved ex_interleaved (65536 + ((300 / 256) * 2 + 1) * 256 + 300 mod 256)) = 7 ∧
  dr_local_offset (decode_interleaved ex_interleaved (65536 + ((300 / 256) * 2 + 1) * 256 + 300 mod 256)) = 300.
Proof.
  apply (interleave_roundtrip ex_interleaved 1 300 7 8); try reflexivity; (split; reflexivity) || done.
Defined.

Lemma interleave_injective_witness :
  dr_local_offset (decode_interleaved ex_interleaved 65796) = 4 ∧ 65796 = 65796.
Proof.
  split; [reflexivity|].
  apply (interleave_injective ex_interleaved 65796 65796); try reflexivity;
    try (split; vm_compute; done); try done.
  by apply (bool_decide_unpack _); vm_compute.
Defined.

Lemma decode_hybrid_witness :
  (∃ r, r ∈ hd_ranges ex_ranges ∧ range_contains 8200 r ∧
     decode ex_ranges 8200 = {| dr_target_id := hr_target_id r; dr_local_offset := 8200 - hr_base_addr r;
                        dr_is_remote := hr_is_remote r;
                        dr_hop_count := if hr_is_remote r then 1 else 0 |}) ∨
  ((∀ r, r ∈ hd_ranges ex_ranges → ¬ range_contains 8200 r) ∧
   decode ex_ranges 8200 = decode_interleaved ex_ranges 8200).
Proof.
  apply (decode_hybrid ex_ranges 8200 eq_refl eq_refl ex_ranges_ok ex_ranges_disjoint).
  - by repeat constructor.
  - split; vm_compute; done.
Defined.

Lemma top_range_unreachable_witness :
  decode_range (add_range (HDMDecoder_new RANGE_BASED) 18446744073709547520 4096 1 false)
    18446744073709547520 = no_decode.
Proof.
  apply (top_range_unreachable _ 18446744073709547520 4096 1 false); reflexivity || done.
Defined.
