(* ===== verification/Dcd.v ===== *)
(** * Dynamic capacity device

    Models [DynamicCapacityDevice] of include/dcd_gfam.h and src/dcd_gfam.cpp:
    extents are added (at a requested or at a first-fit base) and released,
    and looked up by byte range.  The theorems: active extents stay inside the
    device, aligned and disjoint; first-fit returns the lowest feasible base
    and fails only when there is none; at byte granularity the device refines
    a set of allocated bytes. *)

From S2P Require Import Prelude.

(** ** Data *)

Inductive DCDStatus := OK | OUT_OF_CAPACITY | OVERLAP | NOT_FOUND | INVALID_REQUEST | ACCESS_DENIED.

#[global] Instance DCDStatus_eq_dec : EqDecision DCDStatus.
Proof. solve_decision. Defined.

Record DCDExtent := {
  de_base : Z;
  de_size : Z;
  de_tag : Z;
  de_created_timestamp : Z;
  de_released_timestamp : Z;
  de_active : bool
}.

Record DCDAllocationResult := {
  da_status : DCDStatus;
  da_base : Z;
  da_size : Z;
  da_tag : Z
}.

Record DCDStats := {
  ds_total_capacity : Z;
  ds_allocated_capacity : Z;
  ds_free_capacity : Z;
  ds_active_extents : Z;
  ds_allocation_requests : Z;
  ds_release_requests : Z;
  ds_failed_requests : Z
}.

Record DynamicCapacityDevice := {
  dcd_total_capacity_bytes : Z;
  dcd_granularity_bytes : Z;
  dcd_next_tag : Z;
  dcd_extents : list DCDExtent;
  dcd_allocation_requests : Z;
  dcd_release_requests : Z;
  dcd_failed_requests : Z
}.

(** ** Range arithmetic *)

Definition ranges_overlap (a_base a_size b_base b_size : Z) : bool :=
  if (a_size =? 0) || (b_size =? 0) then false
  else if a_base <=? b_base then (b_base -w a_base) <? a_size
  else (a_base -w b_base) <? b_size.

Definition range_contains (outer_base outer_size inner_base inner_size : Z) : bool :=
  if (inner_size =? 0) || (outer_size <? inner_size) || (inner_base <? outer_base) then false
  else (inner_base -w outer_base) <=? (outer_size -w inner_size).

(** ** Operations *)

Definition DynamicCapacityDevice_new (total_capacity_bytes granularity_bytes : Z) : DynamicCapacityDevice :=
  {| dcd_total_capacity_bytes := total_capacity_bytes;
     dcd_granularity_bytes := Z.max 1 granularity_bytes;
     dcd_next_tag := 1; dcd_extents := [];
     dcd_allocation_requests := 0; dcd_release_requests := 0; dcd_failed_requests := 0 |}.

Definition align_up (d : DynamicCapacityDevice) (value : Z) : Z :=
  if value =? 0 then 0
  else
    let remainder := value mod dcd_granularity_bytes d in
    if remainder =? 0 then value
    else if UINT64_MAX -w (dcd_granularity_bytes d -w remainder) <? value then 0
    else (value +w dcd_granularity_bytes d) -w remainder.

Definition range_within_device (d : DynamicCapacityDevice) (base size : Z) : bool :=
  (0 <? size) && (base <? dcd_total_capacity_bytes d) &&
  (size <=? dcd_total_capacity_bytes d -w base).

Definition range_overlaps_active (d : DynamicCapacityDevice) (base size : Z) : bool :=
  existsb (λ e, de_active e && ranges_overlap base size (de_base e) (de_size e)) (dcd_extents d).

(** The comparison handed to [std::sort]; equal bases do not occur among
    active extents (they are disjoint and not empty). *)
Definition base_le (x y : DCDExtent) : Prop := de_base x <= de_base y.
#[global] Instance base_le_dec : RelDecision base_le := λ x y, decide (de_base x <= de_base y).

Definition active_extents (d : DynamicCapacityDevice) : list DCDExtent :=
  merge_sort base_le (keep de_active (dcd_extents d)).

(** The loop of [find_free_base] over the sorted active extents. *)
Fixpoint find_free_loop (d : DynamicCapacityDevice) (size candidate : Z) (active : list DCDExtent) : option Z :=
  match active with
  | [] => if range_within_device d candidate size then Some candidate else None
  | extent :: rest =>
      if candidate +w size <=? de_base extent then Some candidate
      else if UINT64_MAX -w de_size extent <? de_base extent then None
      else find_free_loop d size (align_up d (de_base extent +w de_size extent)) rest
  end.

Definition find_free_base (d : DynamicCapacityDevice) (size : Z) : option Z :=
  find_free_loop d size 0 (active_extents d).

Definition count_request (d : DynamicCapacityDevice) : DynamicCapacityDevice :=
  {| dcd_total_capacity_bytes := dcd_total_capacity_bytes d;
     dcd_granularity_bytes := dcd_granularity_bytes d; dcd_next_tag := dcd_next_tag d;
     dcd_extents := dcd_extents d; dcd_allocation_requests := dcd_allocation_requests d +w 1;
     dcd_release_requests := dcd_release_requests d; dcd_failed_requests := dcd_failed_requests d |}.

Definition count_release (d : DynamicCapacityDevice) : DynamicCapacityDevice :=
  {| dcd_total_capacity_bytes := dcd_total_capacity_bytes d;
     dcd_granularity_bytes := dcd_granularity_bytes d; dcd_next_tag := dcd_next_tag d;
     dcd_extents := dcd_extents d; dcd_allocation_requests := dcd_allocation_requests d;
     dcd_release_requests := dcd_release_requests d +w 1; dcd_failed_requests := dcd_failed_requests d |}.

Definition count_failure (d : DynamicCapacityDevice) : DynamicCapacityDevice :=
  {| dcd_total_capacity_bytes := dcd_total_capacity_bytes d;
     dcd_granularity_bytes := dcd_granularity_bytes d; dcd_next_tag := dcd_next_tag d;
     dcd_extents := dcd_extents d; dcd_allocation_requests := dcd_allocation_requests d;
     dcd_release_requests := dcd_release_requests d; dcd_failed_requests := dcd_failed_requests d +w 1 |}.

Definition set_extents (d : DynamicCapacityDevice) (next_tag : Z) (es : list DCDExtent) : DynamicCapacityDevice :=
  {| dcd_total_capacity_bytes := dcd_total_capacity_bytes d;
     dcd_granularity_bytes := dcd_granularity_bytes d; dcd_next_tag := next_tag;
     dcd_extents := es; dcd_allocation_requests := dcd_allocation_requests d;
     dcd_release_requests := dcd_release_requests d; dcd_failed_requests := dcd_failed_requests d |}.

(** [size == total_capacity_bytes_ ? size : align_up(size)]. *)
Definition request_size (d : DynamicCapacityDevice) (size : Z) : Z :=
  if size =? dcd_total_capacity_bytes d then size else align_up d size.

(** The tail of [add_capacity], from the range check on. *)
Definition place_extent (d : DynamicCapacityDevice) (base aligned_size tag timestamp : Z)
    : DCDAllocationResult * DynamicCapacityDevice :=
  if negb (range_within_device d base aligned_size) then
    ({| da_status := OUT_OF_CAPACITY; da_base := base; da_size := aligned_size; da_tag := tag |},
     count_failure d)
  else if range_overlaps_active d base aligned_size then
    ({| da_status := OVERLAP; da_base := base; da_size := aligned_size; da_tag := tag |},
     count_failure d)
  else
    let extent_tag := if tag =? 0 then dcd_next_tag d else tag in
    let next_tag := if tag =? 0 then dcd_next_tag d +w 1 else dcd_next_tag d in
    ({| da_status := OK; da_base := base; da_size := aligned_size; da_tag := extent_tag |},
     set_extents d next_tag (dcd_extents d ++
       [{| de_base := base; de_size := aligned_size; de_tag := extent_tag;
           de_created_timestamp := timestamp; de_released_timestamp := 0; de_active := true |}])).

Definition add_capacity (d0 : DynamicCapacityDevice) (requested_base size tag timestamp : Z)
    : DCDAllocationResult * DynamicCapacityDevice :=
  let d := count_request d0 in
  let aligned_size := request_size d size in
  if (aligned_size =? 0) || (dcd_total_capacity_bytes d <? aligned_size) then
    ({| da_status := INVALID_REQUEST; da_base := 0; da_size := 0; da_tag := tag |}, count_failure d)
  else if requested_base =? UINT64_MAX then
    match find_free_base d aligned_size with
    | None =>
        ({| da_status := OUT_OF_CAPACITY; da_base := 0; da_size := aligned_size; da_tag := tag |},
         count_failure d)
    | Some base => place_extent d base aligned_size tag timestamp
    end
  else if negb (requested_base mod dcd_granularity_bytes d =? 0) then
    ({| da_status := INVALID_REQUEST; da_base := requested_base; da_size := aligned_size; da_tag := tag |},
     count_failure d)
  else place_extent d requested_base aligned_size tag timestamp.

Definition release_matches (base aligned_size tag : Z) (e : DCDExtent) : bool :=
  de_active e && ((tag =? 0) || (de_tag e =? tag)) && (de_base e =? base) && (de_size e =? aligned_size).

Definition deactivate (timestamp : Z) (e : DCDExtent) : DCDExtent :=
  {| de_base := de_base e; de_size := de_size e; de_tag := de_tag e;
     de_created_timestamp := de_created_timestamp e;
     de_released_timestamp := timestamp; de_active := false |}.

Definition release_capacity (d0 : DynamicCapacityDevice) (base size tag timestamp : Z)
    : DCDStatus * DynamicCapacityDevice :=
  let d := count_release d0 in
  let aligned_size := request_size d size in
  if negb (range_within_device d base aligned_size) then (INVALID_REQUEST, count_failure d)
  else match update_first (release_matches base aligned_size tag) (deactivate timestamp) (dcd_extents d) with
       | Some es => (OK, set_extents d (dcd_next_tag d) es)
       | None => (NOT_FOUND, count_failure d)
       end.

Definition find_extent (d : DynamicCapacityDevice) (addr size : Z) : option DCDExtent :=
  if (size =? 0) || (dcd_total_capacity_bytes d <=? addr) || (dcd_total_capacity_bytes d -w addr <? size)
  then None
  else find_first (λ e, de_active e && range_contains (de_base e) (de_size e) addr size) (dcd_extents d).

Definition is_allocated (d : DynamicCapacityDevice) (addr size : Z) : bool :=
  match find_extent d addr size with Some _ => true | None => false end.

Definition stats (d : DynamicCapacityDevice) : DCDStats :=
  let active := keep de_active (dcd_extents d) in
  let allocated := foldl (λ acc e, acc +w de_size e) 0 active in
  {| ds_total_capacity := dcd_total_capacity_bytes d;
     ds_allocated_capacity := allocated;
     ds_free_capacity := if allocated <=? dcd_total_capacity_bytes d
                         then dcd_total_capacity_bytes d -w allocated else 0;
     ds_active_extents := foldl (λ acc _, acc +w 1) 0 active;
     ds_allocation_requests := dcd_allocation_requests d;
     ds_release_requests := dcd_release_requests d;
     ds_failed_requests := dcd_failed_requests d |}.

(** ** Well-formedness *)

(** The bytes of an extent. *)
Definition covers (e : DCDExtent) (a : Z) : Prop := de_base e <= a < de_base e + de_size e.

Definition extents_apart (x y : DCDExtent) : Prop :=
  de_base x + de_size x <= de_base y ∨ de_base y + de_size y <= de_base x.

Definition extent_ok (d : DynamicCapacityDevice) (e : DCDExtent) : Prop :=
  0 <= de_base e ∧ 0 < de_size e ∧ de_base e + de_size e <= dcd_total_capacity_bytes d ∧
  de_base e mod dcd_granularity_bytes d = 0.

Record dcd_inv (d : DynamicCapacityDevice) : Prop := {
  inv_total : is_u64 (dcd_total_capacity_bytes d);
  inv_gran : 0 < dcd_granularity_bytes d < TWO64;
  inv_extents : ∀ e, e ∈ keep de_active (dcd_extents d) → extent_ok d e;
  inv_apart : pairwise extents_apart (keep de_active (dcd_extents d))
}.

(** A base at which an extent of the given size can be placed. *)
Definition feasible (d : DynamicCapacityDevice) (size base : Z) : Prop :=
  0 <= base ∧ base + size <= dcd_total_capacity_bytes d ∧ base mod dcd_granularity_bytes d = 0 ∧
  ∀ e, e ∈ keep de_active (dcd_extents d) →
    base + size <= de_base e ∨ de_base e + de_size e <= base.

(** The requests the device serves, and its reachable states. *)
Inductive dcd_step : DynamicCapacityDevice → DynamicCapacityDevice → Prop :=
| step_add d base size tag ts : is_u64 base → is_u64 size → dcd_step d (add_capacity d base size tag ts).2
| step_release d base size tag ts : is_u64 base → is_u64 size → dcd_step d (release_capacity d base size tag ts).2.

(** ** Lemmas: range arithmetic *)

Lemma ranges_overlap_iff ab as_ bb bs :
  is_u64 ab → is_u64 bb → 0 < as_ → 0 < bs →
  ranges_overlap ab as_ bb bs = true ↔ ¬ (ab + as_ <= bb ∨ bb + bs <= ab).
Proof.
  intros Ha Hb H1 H2. unfold ranges_overlap, is_u64 in *.
  rewrite (proj2 (Z.eqb_neq as_ 0)), (proj2 (Z.eqb_neq bs 0)) by lia. simpl.
  destruct (ab <=? bb) eqn:E; btests; rewrite u64_small by (unfold is_u64; lia); lia.
Qed.

Lemma range_contains_iff ob os ib is_ :
  is_u64 ob → is_u64 os → is_u64 ib → is_u64 is_ →
  range_contains ob os ib is_ = true ↔ 0 < is_ ∧ ob <= ib ∧ ib + is_ <= ob + os.
Proof.
  intros Ho Hs Hi Hn. unfold range_contains, is_u64 in *.
  destruct (_ || _ || _) eqn:E; [lia|].
  rewrite !u64_small by (unfold is_u64; lia). lia.
Qed.

Lemma range_within_device_iff d base size :
  is_u64 (dcd_total_capacity_bytes d) → is_u64 base → is_u64 size →
  range_within_device d base size = true ↔ 0 < size ∧ base + size <= dcd_total_capacity_bytes d.
Proof.
  intros Ht Hb Hs. unfold range_within_device, is_u64 in *.
  destruct (base <? dcd_total_capacity_bytes d) eqn:E; [|lia].
  rewrite u64_small by (unfold is_u64; lia). lia.
Qed.

(** [align_up] is the least multiple above its argument, or 0 on overflow. *)
Lemma align_up_spec d v :
  0 < dcd_granularity_bytes d < TWO64 → is_u64 v →
  let g := dcd_granularity_bytes d in
  is_u64 (align_up d v) ∧ align_up d v mod g = 0 ∧
  (v + g <= TWO64 → v <= align_up d v < v + g ∧ ∀ b, v <= b → b mod g = 0 → align_up d v <= b).
Proof.
  intros Hg Hv g. fold g in Hg. unfold align_up. fold g. unfold is_u64 in *.
  pose proof (Z.mod_pos_bound v g ltac:(lia)) as Hm. pose proof (Z.div_mod v g ltac:(lia)) as Hdm.
  destruct (v =? 0) eqn:E0; btests.
  { subst v. rewrite Z.mod_0_l by lia. split_and!; try lia. intros _. split; intros; lia. }
  destruct (v mod g =? 0) eqn:E1; btests.
  { split_and!; try lia. intros _. split; intros; lia. }
  rewrite (u64_small (g - v mod g)) by (unfold is_u64; lia).
  rewrite (u64_small (UINT64_MAX - _)) by (unfold is_u64, UINT64_MAX; lia).
  destruct (_ <? v) eqn:E2; btests; unfold UINT64_MAX in *.
  { rewrite Z.mod_0_l by lia. split_and!; lia. }
  assert ((v +w g) -w v mod g = v + g - v mod g) as ->.
  { unfold u64. rewrite Zminus_mod_idemp_l. apply Z.mod_small. lia. }
  assert (v + g - v mod g = (v / g + 1) * g) as Heq by lia. rewrite Heq.
  split_and!; [lia|lia|apply Z.mod_mul; lia|].
  intros _. split; [lia|]. intros b Hb Hbm. pose proof (Z.div_mod b g ltac:(lia)).
  assert (v / g < b / g) by (apply Z.nle_gt; intros ?; nia). nia.
Qed.

Lemma request_size_u64 d size :
  0 < dcd_granularity_bytes d < TWO64 → is_u64 size → is_u64 (request_size d size).
Proof.
  intros Hg Hs. unfold request_size. case_match; [done|]. by apply align_up_spec.
Qed.

Lemma extents_apart_sym x y : extents_apart x y → extents_apart y x.
Proof. unfold extents_apart. lia. Qed.

Lemma range_overlaps_active_false d base size :
  dcd_inv d → is_u64 base → 0 < size →
  range_overlaps_active d base size = false →
  ∀ e, e ∈ keep de_active (dcd_extents d) → base + size <= de_base e ∨ de_base e + de_size e <= base.
Proof.
  intros [Ht _ Hok _] Hb Hs Hov e He. pose proof (Hok e He) as (? & ? & ? & _).
  apply elem_of_keep in He as [Ha He].
  unfold range_overlaps_active in Hov. rewrite existsb_false_iff in Hov.
  specialize (Hov e He). rewrite Ha in Hov. simpl in Hov.
  apply not_true_iff_false in Hov. rewrite ranges_overlap_iff in Hov; unfold is_u64 in *; lia.
Qed.

Lemma range_overlaps_active_true d base size :
  dcd_inv d → is_u64 base → 0 < size →
  (∀ e, e ∈ keep de_active (dcd_extents d) → base + size <= de_base e ∨ de_base e + de_size e <= base) →
  range_overlaps_active d base size = false.
Proof.
  intros [Ht _ Hok _] Hb Hs Hov. unfold range_overlaps_active. rewrite existsb_false_iff.
  intros e He. destruct (de_active e) eqn:Ha; [|done]. simpl.
  assert (e ∈ keep de_active (dcd_extents d)) as Hk by by rewrite elem_of_keep.
  pose proof (Hok e Hk) as (? & ? & ? & _).
  apply not_true_iff_false. rewrite ranges_overlap_iff; unfold is_u64 in *; [|lia..].
  specialize (Hov e Hk). lia.
Qed.

(** ** Lemmas: placement *)

(** The invariant does not look at the counters. *)
Lemma dcd_inv_same d d' :
  dcd_total_capacity_bytes d' = dcd_total_capacity_bytes d →
  dcd_granularity_bytes d' = dcd_granularity_bytes d →
  keep de_active (dcd_extents d') = keep de_active (dcd_extents d) → dcd_inv d → dcd_inv d'.
Proof.
  intros Ht Hg Hk [?? Hok Hp]. split; [by rewrite Ht|by rewrite Hg| |by rewrite Hk].
  intros e. rewrite Hk. intros He. unfold extent_ok. rewrite Ht, Hg. by apply Hok.
Qed.

Lemma count_request_inv d : dcd_inv d → dcd_inv (count_request d).
Proof. by apply dcd_inv_same. Qed.

Lemma count_release_inv d : dcd_inv d → dcd_inv (count_release d).
Proof. by apply dcd_inv_same. Qed.

Lemma count_failure_inv d : dcd_inv d → dcd_inv (count_failure d).
Proof. by apply dcd_inv_same. Qed.

#[local] Hint Resolve count_request_inv count_release_inv count_failure_inv : cxl.

(** What [place_extent] does, on each of its branches. *)
Lemma place_extent_cases d base size tag ts :
  dcd_inv d → is_u64 base → is_u64 size → 0 < size →
  let '(r, d') := place_extent d base size tag ts in
  (da_status r = OK ∧ da_base r = base ∧ da_size r = size ∧
     base + size <= dcd_total_capacity_bytes d ∧
     (∀ e, e ∈ keep de_active (dcd_extents d) → base + size <= de_base e ∨ de_base e + de_size e <= base) ∧
     (∃ next, d' = set_extents d next (dcd_extents d ++
       [{| de_base := base; de_size := size; de_tag := da_tag r;
           de_created_timestamp := ts; de_released_timestamp := 0; de_active := true |}]))) ∨
  (da_status r = OUT_OF_CAPACITY ∧ d' = count_failure d ∧ dcd_total_capacity_bytes d < base + size) ∨
  (da_status r = OVERLAP ∧ d' = count_failure d ∧ range_overlaps_active d base size = true).
Proof.
  intros Hinv Hb Hs Hpos. unfold place_extent.
  pose proof (range_within_device_iff d base size (inv_total d Hinv) Hb Hs) as Hw.
  destruct (range_within_device d base size) eqn:E1; simpl.
  2: { right; left. split_and!; try done. apply Z.lt_nge. intros Hle. by pose proof (proj2 Hw (conj Hpos Hle)). }
  destruct (range_overlaps_active d base size) eqn:E2; simpl; [by right; right|].
  left. apply proj1 in Hw. split_and!; try done; [tauto| |eauto].
  by apply range_overlaps_active_false.
Qed.

(** ** Lemmas: first fit *)

Lemma active_extents_elem d e :
  e ∈ active_extents d ↔ e ∈ keep de_active (dcd_extents d).
Proof. unfold active_extents. by rewrite merge_sort_Permutation. Qed.

#[local] Instance base_le_total : Total base_le.
Proof. intros x y. unfold base_le. lia. Qed.
#[local] Instance base_le_trans : Transitive base_le.
Proof. intros x y z. unfold base_le. lia. Qed.

Lemma active_extents_sorted d : StronglySorted base_le (active_extents d).
Proof. unfold active_extents. apply (StronglySorted_merge_sort _). Qed.

Lemma active_extents_apart d : dcd_inv d → pairwise extents_apart (active_extents d).
Proof.
  intros [_ _ _ Hp]. revert Hp. apply pairwise_perm; [exact extents_apart_sym|].
  unfold active_extents. by rewrite merge_sort_Permutation.
Qed.

(** The loop started at a candidate above every extent already passed, and
    not above any feasible base, returns the lowest feasible base. *)
Lemma find_free_loop_spec d size active candidate :
  let g := dcd_granularity_bytes d in let total := dcd_total_capacity_bytes d in
  dcd_inv d → 0 < size <= total → 2 * total + g <= TWO64 →
  (∀ e, e ∈ active → extent_ok d e ∧ candidate <= de_base e) → StronglySorted base_le active → pairwise extents_apart active →
  0 <= candidate <= total + g → candidate mod g = 0 →
  let free b := 0 <= b ∧ b + size <= total ∧ b mod g = 0 ∧ candidate <= b ∧
    ∀ e, e ∈ active → b + size <= de_base e ∨ de_base e + de_size e <= b in
  match find_free_loop d size candidate active with
  | Some b => free b ∧ ∀ b', free b' → b <= b'
  | None => ∀ b', ¬ free b'
  end.
Proof.
  intros g total Hinv Hsz Hroom. revert candidate.
  pose proof (inv_total d Hinv) as Ht. fold total in Ht. pose proof (inv_gran d Hinv) as Hg. fold g in Hg.
  induction active as [|e rest IH]; intros c Hok Hsort Hap Hc Hal free; simpl.
  - pose proof (range_within_device_iff d c size Ht) as Hw. fold total in Hw. unfold is_u64 in *.
    specialize (Hw ltac:(lia) ltac:(lia)).
    destruct (range_within_device d c size) eqn:E.
    + apply proj1 in Hw. split; [|by intros b' (?&?&?&?&?)]. repeat split; try lia; try done. set_solver.
    + intros b' (?&?&?&?&_). apply proj2 in Hw. by discriminate Hw; lia.
  - destruct (Hok e ltac:(set_solver)) as [(He1 & He2 & He3 & He4) Hce]. fold total in He3. fold g in He4.
    destruct Hap as [Hape Hap]. apply StronglySorted_inv in Hsort as [Hsort Hse].
    rewrite Forall_forall in Hse. unfold is_u64 in *.
    rewrite (u64_small (c + size)) by (unfold is_u64; lia).
    destruct (c + size <=? de_base e) eqn:E; btests.
    { split; [|by intros b' (?&?&?&?&?)]. repeat split; try lia; try done. intros x [->|Hx]%elem_of_cons; [lia|].
      specialize (Hse x Hx). unfold base_le in Hse. lia. }
    rewrite (u64_small (UINT64_MAX - _)) by (unfold is_u64, UINT64_MAX; lia).
    rewrite (proj2 (Z.ltb_ge _ _)) by (unfold UINT64_MAX; lia).
    rewrite u64_add_small by lia.
    destruct (align_up_spec d (de_base e + de_size e)) as (Hu1 & Hu2 & Hu3); [done|unfold is_u64; lia|].
    fold g in Hu2, Hu3. destruct Hu3 as [Hu3 Hu4]; [lia|].
    set (c' := align_up d (de_base e + de_size e)) in *.
    assert (∀ x, x ∈ rest → extent_ok d x ∧ c' <= de_base x) as Hok'.
    { intros x Hx. destruct (Hok x ltac:(set_solver)) as [Hx1 _]. split; [done|].
      specialize (Hape x Hx). specialize (Hse x Hx). destruct Hx1 as (?&?&?&?).
      apply Hu4; [|done]. unfold extents_apart, base_le in *. lia. }
    specialize (IH c' Hok' Hsort Hap ltac:(lia) Hu2). simpl in IH.
    assert (∀ b, free b ↔ 0 <= b ∧ b + size <= total ∧ b mod g = 0 ∧ c' <= b ∧
      ∀ x, x ∈ rest → b + size <= de_base x ∨ de_base x + de_size x <= b) as Hfree.
    { intros b. split.
      - intros (?&?&Hb&?&Hf). repeat split; try done; [|set_solver].
        apply Hu4; [|done]. destruct (Hf e ltac:(set_solver)); lia.
      - intros (?&?&?&?&Hf). repeat split; try done; [lia|].
        intros x [->|Hx]%elem_of_cons; [lia|auto]. }
    destruct (find_free_loop d size c' rest); [|by intros b' ?%Hfree; eapply IH].
    destruct IH as [IH1 IH2]. split; [by apply Hfree|]. intros b' ?%Hfree. auto.
Qed.

Lemma find_free_base_spec d n :
  dcd_inv d → 0 < n <= dcd_total_capacity_bytes d →
  2 * dcd_total_capacity_bytes d + dcd_granularity_bytes d <= TWO64 →
  match find_free_base d n with
  | Some b => feasible d n b ∧ ∀ b', feasible d n b' → b <= b'
  | None => ∀ b', ¬ feasible d n b'
  end.
Proof.
  intros Hinv Hn Hroom. pose proof (inv_total d Hinv) as Ht. pose proof (inv_gran d Hinv) as Hg.
  pose proof (find_free_loop_spec d n (active_extents d) 0 Hinv Hn Hroom) as Hff.
  ospecialize* Hff.
  { intros e. rewrite active_extents_elem. intros He. pose proof (inv_extents d Hinv e He) as Hok.
    split; [done|]. apply Hok. }
  { apply active_extents_sorted. }
  { by apply active_extents_apart. }
  { unfold is_u64 in *. lia. }
  { apply Z.mod_0_l. lia. }
  cbv zeta in Hff. unfold find_free_base, feasible.
  destruct (find_free_loop d n 0 _) as [b|]; setoid_rewrite active_extents_elem in Hff; [|naive_solver].
  destruct Hff as [(?&?&?&?&?) Hmin]. split; [done|]. intros b' (?&?&?&?). by apply Hmin.
Qed.

(** Whatever the loop returns is an aligned 64-bit base, overflow or not. *)
Lemma find_free_loop_aligned d size active candidate b :
  dcd_inv d → (∀ e, e ∈ active → extent_ok d e) →
  is_u64 candidate → candidate mod dcd_granularity_bytes d = 0 →
  find_free_loop d size candidate active = Some b → is_u64 b ∧ b mod dcd_granularity_bytes d = 0.
Proof.
  intros Hinv. revert candidate. induction active as [|e rest IH]; simpl; intros c Hok Hc Hal Hf.
  - case_match; naive_solver.
  - do 2 (case_match; [naive_solver|]). revert Hf.
    destruct (align_up_spec d (de_base e +w de_size e) (inv_gran d Hinv) (u64_range _)) as (?&?&_).
    apply IH; [set_solver|done..].
Qed.

Lemma find_free_base_aligned d size b :
  dcd_inv d → find_free_base d size = Some b → is_u64 b ∧ b mod dcd_granularity_bytes d = 0.
Proof.
  intros Hinv. pose proof (inv_gran d Hinv). apply find_free_loop_aligned; try done.
  intros e. rewrite active_extents_elem. apply (inv_extents d Hinv).
Qed.

(** Every outcome of [add_capacity]: a new active extent in a free, aligned
    hole of the device, or a counted failure that leaves the extents alone. *)
Definition add_outcome (d : DynamicCapacityDevice) (size ts : Z)
    (p : DCDAllocationResult * DynamicCapacityDevice) : Prop :=
  let '(r, d') := p in
  (da_status r = OK ∧ da_size r = request_size d size ∧ 0 <= da_base r ∧ 0 < da_size r ∧
     da_base r + da_size r <= dcd_total_capacity_bytes d ∧ da_base r mod dcd_granularity_bytes d = 0 ∧
     (∀ e, e ∈ keep de_active (dcd_extents d) →
        da_base r + da_size r <= de_base e ∨ de_base e + de_size e <= da_base r) ∧
     ∃ next, d' = set_extents (count_request d) next (dcd_extents d ++
       [{| de_base := da_base r; de_size := da_size r; de_tag := da_tag r;
           de_created_timestamp := ts; de_released_timestamp := 0; de_active := true |}])) ∨
  (da_status r ≠ OK ∧ d' = count_failure (count_request d)).

Lemma place_extent_outcome d b size tag ts :
  dcd_inv d → is_u64 b → b mod dcd_granularity_bytes d = 0 → is_u64 (request_size d size) →
  request_size d size ≠ 0 →
  add_outcome d size ts (place_extent (count_request d) b (request_size d size) tag ts).
Proof.
  intros Hinv Hbu Hbm Hrs Hne. unfold add_outcome, is_u64 in *.
  pose proof (place_extent_cases (count_request d) b (request_size d size) tag ts
    (count_request_inv d Hinv) Hbu Hrs ltac:(lia)) as Hc.
  destruct (place_extent _ _ _ _ _) as [r d'].
  destruct Hc as [(H1 & H2 & H3 & H4 & H5 & next & H6)|[(H1 & -> & _)|(H1 & -> & _)]];
    [left|right; by rewrite H1..].
  rewrite H2, H3. simpl in *. split_and!; try done; try lia. by exists next.
Qed.

Lemma add_capacity_cases d base size tag ts :
  dcd_inv d → is_u64 base → is_u64 size → add_outcome d size ts (add_capacity d base size tag ts).
Proof.
  intros Hinv Hb Hs. unfold add_capacity.
  pose proof (request_size_u64 (count_request d) size (inv_gran d Hinv) Hs) as Hrs.
  change (request_size (count_request d) size) with (request_size d size) in *.
  destruct (_ || _) eqn:E; [by right|]. btests.
  destruct (base =? UINT64_MAX).
  - destruct (find_free_base _ _) as [b|] eqn:Ef; [|by right].
    apply find_free_base_aligned in Ef as [??]; [|auto with cxl]. by apply place_extent_outcome.
  - destruct (base mod _ =? 0) eqn:Em; simpl; [|by right]. btests. by apply place_extent_outcome.
Qed.

(** Every outcome of [release_capacity]. *)
Lemma release_capacity_cases d base size tag ts :
  let '(s, d') := release_capacity d base size tag ts in
  (s = OK ∧ ∃ l1 e l2, dcd_extents d = l1 ++ e :: l2 ∧ de_active e = true ∧
     de_base e = base ∧ de_size e = request_size d size ∧
     d' = set_extents (count_release d) (dcd_next_tag d) (l1 ++ deactivate ts e :: l2)) ∨
  (s ≠ OK ∧ d' = count_failure (count_release d)).
Proof.
  unfold release_capacity. change (request_size (count_release d) size) with (request_size d size).
  destruct (negb _); [by right|].
  destruct (update_first _ _ _) as [es|] eqn:E; [left|by right].
  split; [done|]. apply update_first_Some in E as (l1 & e & l2 & He & -> & Hm).
  unfold release_matches in Hm. btests. simpl in *. by exists l1, e, l2.
Qed.

Lemma dcd_step_inv d d' : dcd_inv d → dcd_step d d' → dcd_inv d'.
Proof.
  intros Hinv Hstep. destruct Hstep as [d base size tag ts Hb Hs|d base size tag ts Hb Hs].
  - pose proof (add_capacity_cases d base size tag ts Hinv Hb Hs) as H.
    destruct (add_capacity _ _ _ _ _) as [r d']. simpl.
    destruct H as [(_ & _ & Hb0 & Hp & Hle & Hal & Hap & next & ->)|[_ ->]]; [|auto with cxl].
    destruct Hinv as [Ht Hg Hok Hpw]. split; simpl; try done.
    + intros e. rewrite keep_app, elem_of_app, keep_cons. simpl.
      intros [He|[->|[]%not_elem_of_nil]%elem_of_cons]; [by apply Hok|]. by repeat split.
    + rewrite keep_app, pairwise_app, keep_cons. simpl. split_and!; try done; [set_solver|].
      intros x y Hx ->%list_elem_of_singleton. unfold extents_apart. simpl. specialize (Hap x Hx). lia.
  - pose proof (release_capacity_cases d base size tag ts) as H.
    destruct (release_capacity _ _ _ _ _) as [r d']. simpl.
    destruct H as [(_ & l1 & e & l2 & He & Ha & _ & _ & ->)|[_ ->]]; [|auto with cxl].
    destruct Hinv as [Ht Hg Hok Hpw]. rewrite He, keep_app, keep_cons, Ha in Hok, Hpw.
    rewrite pairwise_app in Hpw. simpl in Hpw. split; simpl; try done.
    + intros x. rewrite keep_app, keep_cons. simpl. intros Hx. apply Hok. set_solver.
    + rewrite keep_app, keep_cons, pairwise_app. simpl. set_solver.
Qed.

Lemma dcd_new_inv total g : is_u64 total → is_u64 g → dcd_inv (DynamicCapacityDevice_new total g).
Proof. intros Ht Hg. split; simpl; [done|unfold is_u64 in *; lia|set_solver|done]. Qed.

(** ** Lemmas: allocated bytes *)

Lemma is_allocated_iff d addr size :
  dcd_inv d → is_u64 addr → is_u64 size →
  is_allocated d addr size = true ↔
  0 < size ∧ ∃ e, e ∈ keep de_active (dcd_extents d) ∧
    de_base e <= addr ∧ addr + size <= de_base e + de_size e.
Proof.
  intros [Ht Hg Hok Hp] Ha Hs. unfold is_allocated.
  trans (is_Some (find_extent d addr size)).
  { destruct (find_extent d addr size); rewrite is_Some_alt; by split. }
  unfold find_extent. destruct (_ || _ || _) eqn:E.
  - split; [by intros [??]|]. intros (Hpos & e & He & ? & ?).
    destruct (Hok e He) as (? & ? & ? & _). unfold is_u64 in *.
    rewrite u64_small in E by (unfold is_u64; lia). lia.
  - btests. rewrite find_first_is_Some. unfold is_u64 in *. split.
    + intros (e & He & Hc). btests. assert (e ∈ keep de_active (dcd_extents d)) as Hk by by rewrite elem_of_keep.
      destruct (Hok e Hk) as (? & ? & ? & _).
      rewrite range_contains_iff in * by (unfold is_u64; lia). naive_solver.
    + intros (Hpos & e & He & ? & ?). destruct (Hok e He) as (? & ? & ? & _).
      apply elem_of_keep in He as [Hact He]. exists e. rewrite Hact. simpl. split; [done|].
      rewrite range_contains_iff by (unfold is_u64; lia). lia.
Qed.

Lemma byte_allocated_iff d a :
  dcd_inv d → is_u64 a →
  is_allocated d a 1 = true ↔ ∃ e, e ∈ keep de_active (dcd_extents d) ∧ covers e a.
Proof.
  intros Hinv Ha. rewrite is_allocated_iff by done. unfold covers.
  split; [intros (_ & e & ? & ?)|intros (e & ? & ?); split; [done|]]; exists e; (split; [done|lia]).
Qed.

(** Extents laid out in order above [lo] sum up to at most the rest of the device. *)
Lemma sorted_sum d l lo :
  (∀ e, e ∈ l → extent_ok d e ∧ lo <= de_base e) → StronglySorted base_le l →
  pairwise extents_apart l → lo <= dcd_total_capacity_bytes d →
  lo + zsum (de_size <$> l) <= dcd_total_capacity_bytes d.
Proof.
  revert lo. induction l as [|e l IH]; intros lo Hok Hs Hp Hlo; [unfold zsum; simpl; lia|].
  apply StronglySorted_inv in Hs as [Hs Hse]. rewrite Forall_forall in Hse. destruct Hp as [Hpe Hp].
  destruct (Hok e ltac:(set_solver)) as [(? & ? & ? & _) ?].
  assert (de_base e + de_size e + zsum (de_size <$> l) <= dcd_total_capacity_bytes d).
  { apply IH; try done. intros x Hx. split; [apply Hok; set_solver|].
    specialize (Hpe x Hx). specialize (Hse x Hx). destruct (Hok x ltac:(set_solver)) as [(?&?&?&?) ?].
    unfold extents_apart, base_le in *. lia. }
  rewrite fmap_cons, zsum_cons. lia.
Qed.

Lemma allocated_bound d :
  dcd_inv d → 0 <= zsum (de_size <$> keep de_active (dcd_extents d)) <= dcd_total_capacity_bytes d.
Proof.
  intros Hinv. split.
  - apply zsum_nonneg, Forall_fmap, Forall_forall. intros e He.
    destruct (inv_extents d Hinv e He) as (?&?&?&?). simpl. lia.
  - rewrite <- (merge_sort_Permutation base_le (keep _ _)).
    change (merge_sort _ _) with (active_extents d).
    apply (sorted_sum d (active_extents d) 0); [|apply active_extents_sorted|by apply active_extents_apart|].
    + intros e. rewrite active_extents_elem. intros He. pose proof (inv_extents d Hinv e He) as Hok.
      split; [done|]. apply Hok.
    + apply (inv_total d Hinv).
Qed.

(** ** Examples *)

(** A 1 MiB device with 4 KiB granularity and two extents around a hole. *)
Definition ex_dcd : DynamicCapacityDevice :=
  (add_capacity (add_capacity (DynamicCapacityDevice_new 1048576 4096) 0 4096 0 10).2 12288 5000 9 20).2.

Lemma ex_dcd_reach : rtc dcd_step (DynamicCapacityDevice_new 1048576 4096) ex_dcd.
Proof.
  eapply rtc_l; [by apply (step_add _ 0 4096 0 10)|].
  eapply rtc_l; [by apply (step_add _ 12288 5000 9 20)|]. apply rtc_refl.
Qed.

Lemma ex_dcd_inv : dcd_inv ex_dcd.
Proof.
  eapply dcd_step_inv; [|by apply (step_add _ 12288 5000 9 20)].
  eapply dcd_step_inv; [|by apply (step_add _ 0 4096 0 10)]. by apply dcd_new_inv.
Qed.

(** ** Theorems *)

(** C24. Over any sequence of add and release requests, the active extents stay
    inside the device, aligned to the granularity and pairwise disjoint. *)
Theorem dcd_reachable_inv total g d :
  is_u64 total → is_u64 g → rtc dcd_step (DynamicCapacityDevice_new total g) d → dcd_inv d.
Proof.
  intros Ht Hg Hr. pose proof (dcd_new_inv total g Ht Hg) as Hi.
  induction Hr; eauto using dcd_step_inv.
Qed.

(** C25. Automatic placement is complete lowest-fit: on a device small enough
    for its arithmetic not to wrap, [add_capacity] without a requested base
    succeeds exactly when some aligned hole fits the (aligned) size, and the
    base it returns is the lowest such hole. *)
Theorem first_fit_complete d size tag ts :
  dcd_inv d → 2 * dcd_total_capacity_bytes d + dcd_granularity_bytes d <= TWO64 →
  is_u64 size → 0 < size <= dcd_total_capacity_bytes d →
  let r := (add_capacity d UINT64_MAX size tag ts).1 in
  let n := request_size d size in
  (da_status r = OK ↔ n <= dcd_total_capacity_bytes d ∧ ∃ b, feasible d n b) ∧
  (da_status r = OK → feasible d n (da_base r) ∧ ∀ b, feasible d n b → da_base r <= b).
Proof.
  intros Hinv Hroom Hsu Hsz r n. pose proof (inv_gran d Hinv) as Hg. pose proof (inv_total d Hinv) as Ht.
  assert (is_u64 n ∧ 0 < n) as [Hnu Hn].
  { split; [by apply request_size_u64|]. unfold n, request_size. case_match; [lia|].
    destruct (align_up_spec d size Hg Hsu) as (_ & _ & Hal). destruct Hal; lia. }
  unfold r, add_capacity. change (request_size (count_request d) size) with n.
  change (dcd_total_capacity_bytes (count_request d)) with (dcd_total_capacity_bytes d).
  rewrite (proj2 (Z.eqb_neq n 0)) by lia. rewrite (Z.eqb_refl UINT64_MAX). simpl orb.
  destruct (dcd_total_capacity_bytes d <? n) eqn:En; btests; cbv iota.
  { simpl. split; [|done]. split; [done|]. lia. }
  pose proof (find_free_base_spec (count_request d) n (count_request_inv d Hinv) ltac:(simpl; lia) Hroom) as Hff.
  change (feasible (count_request d)) with (feasible d) in Hff.
  destruct (find_free_base _ n) as [b|].
  2: { simpl. split; [|done]. split; [done|]. intros [_ [b' ?]]. by destruct (Hff b'). }
  destruct Hff as [Hb Hmin]. pose proof Hb as (H1 & H2 & H3 & H4).
  pose proof (place_extent_cases (count_request d) b n tag ts (count_request_inv d Hinv)
    ltac:(unfold is_u64 in *; lia) Hnu Hn) as Hc.
  destruct (place_extent _ _ _ _ _) as [r0 d0]. simpl in *.
  destruct Hc as [(-> & -> & _)|[(_ & _ & Hc)|(_ & _ & Hc)]].
  - split; [|done]. split; [|done]. by split; [|exists b].
  - simpl in Hc. lia.
  - rewrite range_overlaps_active_true in Hc; try done; [auto with cxl|unfold is_u64 in *; lia].
Qed.

(** A successful [add_capacity] turns a wholly free range into allocated
    bytes and changes no other byte; a failed one changes no byte. *)
Theorem add_capacity_bytes d base size tag ts r d' a :
  dcd_inv d → is_u64 base → is_u64 size → is_u64 a →
  add_capacity d base size tag ts = (r, d') →
  let new := bool_decide (da_status r = OK) && (da_base r <=? a) && (a <? da_base r + da_size r) in
  is_allocated d' a 1 = is_allocated d a 1 || new ∧ (new = true → is_allocated d a 1 = false).
Proof.
  intros Hinv Hb Hs Ha Hr. pose proof (dcd_step_inv d _ Hinv (step_add d base size tag ts Hb Hs)) as Hinv'.
  pose proof (add_capacity_cases d base size tag ts Hinv Hb Hs) as Hc.
  rewrite Hr in Hc, Hinv'. simpl in Hinv'.
  destruct Hc as [(-> & Hsz & H0 & H1 & H2 & H3 & Hap & next & Hd)|[Hst ->]].
  2: { rewrite bool_decide_eq_false_2 by done. simpl. by rewrite orb_false_r. }
  rewrite bool_decide_eq_true_2 by done. cbv zeta.
  assert (is_allocated d a 1 = true → ¬ (da_base r <= a < da_base r + da_size r)) as Hfree.
  { rewrite byte_allocated_iff by done. intros (e & He & Hcov). specialize (Hap e He). unfold covers in Hcov. lia. }
  split; [|intros; destruct (is_allocated d a 1); [exfalso|done]; apply Hfree; lia].
  apply eq_iff_eq_true. rewrite orb_true_iff, !byte_allocated_iff by done. rewrite Hd. simpl.
  setoid_rewrite keep_app. setoid_rewrite elem_of_app. rewrite keep_cons. simpl.
  setoid_rewrite list_elem_of_singleton. unfold covers. split.
  - intros (e & [He| ->] & Hcov); [left; eauto|right; simpl in Hcov; lia].
  - intros [(e & He & Hcov)|Hn]; [eauto|]. eexists. split; [by right|]. simpl. lia.
Qed.

(** A successful [release_capacity] frees exactly the bytes of the named
    extent, all of which were allocated; a failed one changes no byte. *)
Theorem release_capacity_bytes d base size tag ts s d' a :
  dcd_inv d → is_u64 base → is_u64 size → is_u64 a →
  release_capacity d base size tag ts = (s, d') →
  let gone := bool_decide (s = OK) && (base <=? a) && (a <? base + request_size d size) in
  is_allocated d' a 1 = is_allocated d a 1 && negb gone ∧ (gone = true → is_allocated d a 1 = true).
Proof.
  intros Hinv Hb Hs Ha Hr. pose proof (dcd_step_inv d _ Hinv (step_release d base size tag ts Hb Hs)) as Hinv'.
  pose proof (release_capacity_cases d base size tag ts) as Hc.
  rewrite Hr in Hc, Hinv'. simpl in Hinv'.
  destruct Hc as [(-> & l1 & e & l2 & He & Hact & Heb & Hes & Hd)|[Hst ->]].
  2: { rewrite bool_decide_eq_false_2 by done. simpl. by rewrite andb_true_r. }
  rewrite bool_decide_eq_true_2 by done. cbv zeta. rewrite <- Hes, <- Heb.
  pose proof (inv_apart d Hinv) as Hap. rewrite He, keep_app, keep_cons, Hact, pairwise_app in Hap.
  destruct Hap as (Hap1 & [Hap2 Hap3] & Hap4).
  assert (keep de_active (dcd_extents d') = keep de_active l1 ++ keep de_active l2) as Hk'.
  { rewrite Hd. simpl. by rewrite keep_app, keep_cons. }
  assert (keep de_active (dcd_extents d) = keep de_active l1 ++ e :: keep de_active l2) as Hk.
  { by rewrite He, keep_app, keep_cons, Hact. }
  assert (∀ x, x ∈ keep de_active l1 ++ keep de_active l2 → extents_apart e x) as Hothers.
  { intros x [Hx|Hx]%elem_of_app; [apply extents_apart_sym, Hap4; set_solver|by apply Hap2]. }
  split.
  - apply eq_iff_eq_true. rewrite andb_true_iff, !byte_allocated_iff by done. rewrite Hk, Hk'. unfold covers. split.
    + intros (x & Hx & Hcov). split; [set_solver|]. specialize (Hothers x Hx).
      unfold extents_apart in Hothers. lia.
    + intros [(x & Hx & Hcov) Hn].
      assert (x = e ∨ x ∈ keep de_active l1 ++ keep de_active l2) as [->|Hx'] by set_solver; [lia|eauto].
  - intros Hg. rewrite byte_allocated_iff by done. exists e. rewrite Hk. unfold covers.
    split; [set_solver|lia].
Qed.

(** The statistics balance: the reported allocated capacity is the exact
    sum of the active extents and adds up with the free capacity to the total. *)
Theorem stats_balance d :
  dcd_inv d →
  ds_allocated_capacity (stats d) = zsum (de_size <$> keep de_active (dcd_extents d)) ∧
  ds_allocated_capacity (stats d) + ds_free_capacity (stats d) = dcd_total_capacity_bytes d ∧
  0 <= ds_free_capacity (stats d).
Proof.
  intros Hinv. pose proof (allocated_bound d Hinv) as Hb. pose proof (inv_total d Hinv) as Ht.
  unfold stats. cbn [ds_allocated_capacity ds_free_capacity].
  rewrite foldl_addw by done. unfold is_u64 in *. rewrite u64_small by (unfold is_u64; lia).
  rewrite (proj2 (Z.leb_le _ _)) by lia. rewrite u64_small by (unfold is_u64; lia). lia.
Qed.

(** ** Witnesses *)

Lemma dcd_reachable_inv_witness : dcd_inv ex_dcd ∧ length (dcd_extents ex_dcd) = 2%nat.
Proof.
  split; [|reflexivity]. apply (dcd_reachable_inv 1048576 4096); [done|done|exact ex_dcd_reach].
Defined.

Lemma first_fit_complete_witness :
  da_base (add_capacity ex_dcd UINT64_MAX 8192 0 30).1 = 4096 ∧
  ∀ b, feasible ex_dcd 8192 b → 4096 <= b.
Proof.
  split; [vm_compute; reflexivity|].
  refine (proj2 (proj2 (first_fit_complete ex_dcd 8192 0 30 ex_dcd_inv _ _ _) _));
    vm_compute; done || by split.
Defined.

Lemma add_capacity_bytes_witness :
  is_allocated (add_capacity ex_dcd 4096 4096 0 30).2 5000 1 = is_allocated ex_dcd 5000 1 || true ∧
  (true = true → is_allocated ex_dcd 5000 1 = false).
Proof.
  apply (add_capacity_bytes ex_dcd 4096 4096 0 30 (add_capacity ex_dcd 4096 4096 0 30).1
    (add_capacity ex_dcd 4096 4096 0 30).2 5000 ex_dcd_inv); [done..|].
  apply surjective_pairing.
Defined.

Lemma release_capacity_bytes_witness :
  is_allocated (release_capacity ex_dcd 12288 5000 9 30).2 13000 1 =
    is_allocated ex_dcd 13000 1 && negb true ∧
  (true = true → is_allocated ex_dcd 13000 1 = true).
Proof.
  apply (release_capacity_bytes ex_dcd 12288 5000 9 30 (release_capacity ex_dcd 12288 5000 9 30).1
    (release_capacity ex_dcd 12288 5000 9 30).2 13000 ex_dcd_inv); [done..|].
  apply surjective_pairing.
Defined.

Lemma stats_balance_witness :
  ds_allocated_capacity (stats ex_dcd) = 12288 ∧
  ds_allocated_capacity (stats ex_dcd) + ds_free_capacity (stats ex_dcd) = 1048576.
Proof. split; [reflexivity|]. apply (stats_balance ex_dcd ex_dcd_inv). Defined.
