(* ===== verification/Gfam.v ===== *)
(** * Global fabric-attached memory

    Models [GFAMDevice] of include/dcd_gfam.h and src/dcd_gfam.cpp: hosts are
    registered on the fabric, get permissions on byte ranges of the dynamic
    capacity device, and their accesses are checked, counted and timed.

    The device only asks the capacity device whether a range is allocated;
    that question is the interface [Allocator], and the theorems are proved
    against its laws.  [Dcd] implements them.  The [dcd_] pointer may be null. *)

From S2P Require Import Prelude Float64 Dcd.

(** ** The allocation interface *)

Class Allocator (D : Type) := {
  alloc_covers : D → Z → Z → bool;
  alloc_ok : D → Prop
}.

Class AllocatorLaws (D : Type) `{Allocator D} : Prop := {
  alloc_nonempty (d : D) a n :
    alloc_ok d → is_u64 a → is_u64 n → alloc_covers d a n = true → 0 < n;
  alloc_subrange (d : D) a n a' n' :
    alloc_ok d → is_u64 a → is_u64 n → is_u64 a' → is_u64 n' → 0 < n' →
    a <= a' → a' + n' <= a + n → alloc_covers d a n = true → alloc_covers d a' n' = true
}.

#[global] Instance dcd_allocator : Allocator DynamicCapacityDevice :=
  {| alloc_covers := is_allocated; alloc_ok := dcd_inv |}.

#[global] Instance dcd_allocator_laws : AllocatorLaws DynamicCapacityDevice.
Proof.
  split; simpl.
  - intros d a n Hd Ha Hn. rewrite is_allocated_iff by done. tauto.
  - intros d a n a' n' Hd Ha Hn Ha' Hn' Hpos Hle Hle'. rewrite !is_allocated_iff by done.
    intros (_ & e & He & ? & ?). split; [done|]. exists e. split; [done|lia].
Qed.

(** ** Data *)

Definition DCD_PERM_READ : Z := 1.
Definition DCD_PERM_WRITE : Z := 2.
Definition DCD_PERM_ATOMIC : Z := 4.
Definition DCD_PERM_SHARED : Z := 8.
Definition DCD_PERM_ALL : Z :=
  Z.lor (Z.lor (Z.lor DCD_PERM_READ DCD_PERM_WRITE) DCD_PERM_ATOMIC) DCD_PERM_SHARED.

Record GFAMHost := {
  gh_host_id : Z;
  gh_label : string;
  gh_active : bool;
  gh_bandwidth_share : f64;
  gh_reads : Z;
  gh_writes : Z;
  gh_atomics : Z
}.

Record GFAMMapping := {
  gm_host_id : Z;
  gm_base : Z;
  gm_size : Z;
  gm_permissions : Z
}.

Record GFAMAccessResult := {
  ga_allowed : bool;
  ga_status : DCDStatus;
  ga_latency_ns : f64
}.

Record GFAMStats := {
  gs_hosts : Z;
  gs_mappings : Z;
  gs_shared_mappings : Z;
  gs_read_ops : Z;
  gs_write_ops : Z;
  gs_atomic_ops : Z;
  gs_denied_accesses : Z;
  gs_avg_access_latency_ns : f64
}.

Record GFAMDevice := {
  gf_fabric_latency_ns : f64;
  gf_bandwidth_gbps : f64;
  gf_hosts : gmap Z GFAMHost;
  gf_mappings : list GFAMMapping;
  gf_denied_accesses : Z;
  gf_total_latency_ns : Z;
  gf_total_accesses : Z
}.

(** [GFAMHost{}]: what [hosts_[id]] default-constructs. *)
Definition GFAMHost_new : GFAMHost :=
  {| gh_host_id := 0; gh_label := EmptyString; gh_active := true; gh_bandwidth_share := f0;
     gh_reads := 0; gh_writes := 0; gh_atomics := 0 |}.

Definition set_tables (g : GFAMDevice) (hosts : gmap Z GFAMHost) (mappings : list GFAMMapping) : GFAMDevice :=
  {| gf_fabric_latency_ns := gf_fabric_latency_ns g; gf_bandwidth_gbps := gf_bandwidth_gbps g;
     gf_hosts := hosts; gf_mappings := mappings; gf_denied_accesses := gf_denied_accesses g;
     gf_total_latency_ns := gf_total_latency_ns g; gf_total_accesses := gf_total_accesses g |}.

Definition set_share (s : f64) (h : GFAMHost) : GFAMHost :=
  {| gh_host_id := gh_host_id h; gh_label := gh_label h; gh_active := gh_active h;
     gh_bandwidth_share := if gh_active h then s else f0;
     gh_reads := gh_reads h; gh_writes := gh_writes h; gh_atomics := gh_atomics h |}.

Definition set_active (a : bool) (h : GFAMHost) : GFAMHost :=
  {| gh_host_id := gh_host_id h; gh_label := gh_label h; gh_active := a;
     gh_bandwidth_share := gh_bandwidth_share h;
     gh_reads := gh_reads h; gh_writes := gh_writes h; gh_atomics := gh_atomics h |}.

Definition set_permissions (p : Z) (m : GFAMMapping) : GFAMMapping :=
  {| gm_host_id := gm_host_id m; gm_base := gm_base m; gm_size := gm_size m; gm_permissions := p |}.

(** ** Operations *)

Definition GFAMDevice_new (fabric_latency_ns bandwidth_gbps : f64) : GFAMDevice :=
  {| gf_fabric_latency_ns := fabric_latency_ns; gf_bandwidth_gbps := fmax f1 bandwidth_gbps;
     gf_hosts := ∅; gf_mappings := []; gf_denied_accesses := 0;
     gf_total_latency_ns := 0; gf_total_accesses := 0 |}.

Definition active_hosts (hosts : gmap Z GFAMHost) : Z :=
  Z.of_nat (length (keep gh_active (snd <$> map_to_list hosts))).

Definition bandwidth_share (hosts : gmap Z GFAMHost) : f64 :=
  if 0 <? active_hosts hosts then (f1 / f64_of_Z (active_hosts hosts))%f64 else f0.

Definition rebalance_bandwidth_locked (g : GFAMDevice) : GFAMDevice :=
  set_tables g (set_share (bandwidth_share (gf_hosts g)) <$> gf_hosts g) (gf_mappings g).

Definition register_host (g : GFAMDevice) (host_id : Z) (label : string) : GFAMDevice :=
  let host := default GFAMHost_new (gf_hosts g !! host_id) in
  let host' := {| gh_host_id := host_id; gh_label := label; gh_active := true;
                  gh_bandwidth_share := gh_bandwidth_share host; gh_reads := gh_reads host;
                  gh_writes := gh_writes host; gh_atomics := gh_atomics host |} in
  rebalance_bandwidth_locked (set_tables g (<[host_id := host']> (gf_hosts g)) (gf_mappings g)).

Definition unregister_host (g : GFAMDevice) (host_id : Z) : GFAMDevice :=
  rebalance_bandwidth_locked
    (set_tables g (alter (set_active false) host_id (gf_hosts g))
       (keep (λ m, negb (gm_host_id m =? host_id)) (gf_mappings g))).

(** [host_it == end() || !host_it->second.active], negated. *)
Definition host_is_active (g : GFAMDevice) (host_id : Z) : bool :=
  match gf_hosts g !! host_id with Some h => gh_active h | None => false end.

Definition same_mapping (host_id base size : Z) (m : GFAMMapping) : bool :=
  (gm_host_id m =? host_id) && (gm_base m =? base) && (gm_size m =? size).

Definition revoke_access (g : GFAMDevice) (host_id base size : Z) : DCDStatus * GFAMDevice :=
  let ms := keep (λ m, negb (same_mapping host_id base size m)) (gf_mappings g) in
  (if decide (length ms = length (gf_mappings g)) then NOT_FOUND else OK,
   set_tables g (gf_hosts g) ms).

Definition revoke_extent (g : GFAMDevice) (base size : Z) : GFAMDevice :=
  set_tables g (gf_hosts g)
    (keep (λ m, negb ((gm_base m =? base) && (gm_size m =? size))) (gf_mappings g)).

Definition mapping_covers (m : GFAMMapping) (addr size : Z) : bool :=
  range_contains (gm_base m) (gm_size m) addr size.

Definition required_permissions (is_write is_atomic : bool) : Z :=
  if is_atomic then Z.lor (Z.lor DCD_PERM_ATOMIC DCD_PERM_READ) DCD_PERM_WRITE
  else if is_write then DCD_PERM_WRITE else DCD_PERM_READ.

(** The test of the loops of [check_access] and [record_access]. *)
Definition mapping_allows (host_id addr size required : Z) (m : GFAMMapping) : bool :=
  (gm_host_id m =? host_id) && mapping_covers m addr size && (Z.land (gm_permissions m) required =? required).

Definition calculate_access_latency (g : GFAMDevice) (host_id size : Z) : f64 :=
  let share := match gf_hosts g !! host_id with Some h => gh_bandwidth_share h | None => f0 end in
  let share := if fle share f0 then f1 else share in
  let effective_bandwidth_gbps := (gf_bandwidth_gbps g * share)%f64 in
  let billion := f64_of_Z 1000000000 in
  let transfer_time_ns :=
    ((f64_of_Z size * f64_of_Z 8) / (effective_bandwidth_gbps * billion) * billion)%f64 in
  let contention_penalty :=
    if flt share f1 then (gf_fabric_latency_ns g * (f1 / share - f1) * flit 25 100)%f64 else f0 in
  (gf_fabric_latency_ns g + transfer_time_ns + contention_penalty)%f64.

Definition deny (g : GFAMDevice) : GFAMAccessResult * GFAMDevice :=
  ({| ga_allowed := false; ga_status := ACCESS_DENIED; ga_latency_ns := f0 |},
   {| gf_fabric_latency_ns := gf_fabric_latency_ns g; gf_bandwidth_gbps := gf_bandwidth_gbps g;
      gf_hosts := gf_hosts g; gf_mappings := gf_mappings g;
      gf_denied_accesses := gf_denied_accesses g +w 1;
      gf_total_latency_ns := gf_total_latency_ns g; gf_total_accesses := gf_total_accesses g |}).

Definition count_access (is_write is_atomic : bool) (h : GFAMHost) : GFAMHost :=
  {| gh_host_id := gh_host_id h; gh_label := gh_label h; gh_active := gh_active h;
     gh_bandwidth_share := gh_bandwidth_share h;
     gh_reads := if is_atomic then gh_reads h else if is_write then gh_reads h else gh_reads h +w 1;
     gh_writes := if is_atomic then gh_writes h else if is_write then gh_writes h +w 1 else gh_writes h;
     gh_atomics := if is_atomic then gh_atomics h +w 1 else gh_atomics h |}.

Definition stats (g : GFAMDevice) : GFAMStats :=
  let hosts := snd <$> map_to_list (gf_hosts g) in
  {| gs_hosts := foldl (λ acc _, acc +w 1) 0 (keep gh_active hosts);
     gs_mappings := Z.of_nat (length (gf_mappings g));
     gs_shared_mappings :=
       foldl (λ acc _, acc +w 1) 0
         (keep (λ m, negb (Z.land (gm_permissions m) DCD_PERM_SHARED =? 0)) (gf_mappings g));
     gs_read_ops := foldl (λ acc h, acc +w gh_reads h) 0 hosts;
     gs_write_ops := foldl (λ acc h, acc +w gh_writes h) 0 hosts;
     gs_atomic_ops := foldl (λ acc h, acc +w gh_atomics h) 0 hosts;
     gs_denied_accesses := gf_denied_accesses g;
     gs_avg_access_latency_ns :=
       if 0 <? gf_total_accesses g
       then (f64_of_Z (gf_total_latency_ns g) / f64_of_Z (gf_total_accesses g))%f64 else f0 |}.

Section with_device.
Context {D : Type} `{Allocator D}.

(** [dcd_ && dcd_->is_allocated(addr, size)]. *)
Definition dcd_allocated (dcd : option D) (addr size : Z) : bool :=
  match dcd with Some d => alloc_covers d addr size | None => false end.

Definition grant_access (dcd : option D) (g : GFAMDevice) (host_id base size permissions : Z)
    : DCDStatus * GFAMDevice :=
  if negb (dcd_allocated dcd base size) || (permissions =? 0) then (INVALID_REQUEST, g)
  else if negb (host_is_active g host_id) then (ACCESS_DENIED, g)
  else
    let m := {| gm_host_id := host_id; gm_base := base; gm_size := size; gm_permissions := permissions |} in
    match update_first (same_mapping host_id base size) (set_permissions permissions) (gf_mappings g) with
    | Some ms => (OK, set_tables g (gf_hosts g) ms)
    | None => (OK, set_tables g (gf_hosts g) (gf_mappings g ++ [m]))
    end.

Definition check_access (dcd : option D) (g : GFAMDevice) (host_id addr size : Z) (is_write is_atomic : bool) : bool :=
  if negb (dcd_allocated dcd addr size) then false
  else if negb (host_is_active g host_id) then false
  else existsb (mapping_allows host_id addr size (required_permissions is_write is_atomic)) (gf_mappings g).

Definition record_access `{CastUB} (dcd : option D) (g : GFAMDevice) (host_id addr size : Z)
    (is_write is_atomic : bool) (timestamp : Z) : GFAMAccessResult * GFAMDevice :=
  if negb (dcd_allocated dcd addr size) then deny g
  else match gf_hosts g !! host_id with
  | None => deny g
  | Some host =>
      if negb (gh_active host) then deny g
      else if negb (existsb (mapping_allows host_id addr size (required_permissions is_write is_atomic))
                      (gf_mappings g)) then deny g
      else
        let hosts := <[host_id := count_access is_write is_atomic host]> (gf_hosts g) in
        let g1 := set_tables g hosts (gf_mappings g) in
        let latency := calculate_access_latency g1 host_id size in
        ({| ga_allowed := true; ga_status := OK; ga_latency_ns := latency |},
         {| gf_fabric_latency_ns := gf_fabric_latency_ns g; gf_bandwidth_gbps := gf_bandwidth_gbps g;
            gf_hosts := hosts; gf_mappings := gf_mappings g;
            gf_denied_accesses := gf_denied_accesses g;
            gf_total_latency_ns := gf_total_latency_ns g +w f64_to_u64 latency;
            gf_total_accesses := gf_total_accesses g +w 1 |})
  end.

End with_device.

(** ** Well-formedness *)

Definition mapping_key (m : GFAMMapping) : Z * Z * Z := (gm_host_id m, gm_base m, gm_size m).

Definition mapping_ok (g : GFAMDevice) (m : GFAMMapping) : Prop :=
  host_is_active g (gm_host_id m) = true ∧ is_u64 (gm_base m) ∧ is_u64 (gm_size m) ∧
  0 < gm_size m ∧ gm_permissions m ≠ 0.

Record gfam_inv (g : GFAMDevice) : Prop := {
  gi_mappings : ∀ m, m ∈ gf_mappings g → mapping_ok g m;
  gi_keys : NoDup (mapping_key <$> gf_mappings g);
  gi_shares : ∀ id h, gf_hosts g !! id = Some h →
    gh_host_id h = id ∧
    gh_bandwidth_share h = if gh_active h then bandwidth_share (gf_hosts g) else f0
}.

(** ** Lemmas: tables *)

Lemma bandwidth_share_ext (hosts : gmap Z GFAMHost) (f : GFAMHost → GFAMHost) :
  (∀ h, gh_active (f h) = gh_active h) → bandwidth_share (f <$> hosts) = bandwidth_share hosts.
Proof.
  intros Hf. unfold bandwidth_share.
  assert (active_hosts (f <$> hosts) = active_hosts hosts) as ->; [|done].
  unfold active_hosts. rewrite map_to_list_fmap. f_equal. rewrite <- !list_fmap_compose.
  induction (map_to_list hosts) as [|[k h] l IH]; [done|]. rewrite !fmap_cons, !keep_cons.
  simpl. rewrite Hf. case_match; simpl; auto.
Qed.

Lemma bandwidth_share_insert (hosts : gmap Z GFAMHost) id h h' :
  hosts !! id = Some h → gh_active h' = gh_active h →
  bandwidth_share (<[id := h']> hosts) = bandwidth_share hosts.
Proof.
  intros Hh Ha. unfold bandwidth_share.
  assert (active_hosts (<[id := h']> hosts) = active_hosts hosts) as ->; [|done].
  unfold active_hosts. f_equal. rewrite <- (insert_delete_id hosts id h Hh) at 2.
  rewrite <- (insert_delete_eq hosts id h').
  assert (∀ x, length (keep gh_active (snd <$> map_to_list (<[id := x]> (delete id hosts)))) =
    length (keep gh_active (x :: (snd <$> map_to_list (delete id hosts))))) as Hl.
  { intros x. apply Permutation_length. unfold keep. apply filter_Permutation.
    rewrite map_to_list_insert by apply lookup_delete_eq. done. }
  rewrite !Hl, !keep_cons, Ha. by case_match.
Qed.

(** Rebalancing establishes the share clause, and keeps who is active. *)
Lemma rebalance_shares g id h :
  (∀ k x, gf_hosts g !! k = Some x → gh_host_id x = k) →
  gf_hosts (rebalance_bandwidth_locked g) !! id = Some h →
  gh_host_id h = id ∧
  gh_bandwidth_share h = if gh_active h then bandwidth_share (gf_hosts (rebalance_bandwidth_locked g)) else f0.
Proof.
  intros Hid. simpl. rewrite lookup_fmap. intros (x & Hx & ->)%fmap_Some. simpl.
  rewrite bandwidth_share_ext by done. split; [by apply Hid|]. done.
Qed.

Lemma rebalance_active g id : host_is_active (rebalance_bandwidth_locked g) id = host_is_active g id.
Proof. unfold host_is_active. simpl. rewrite lookup_fmap. by destruct (gf_hosts g !! id). Qed.

(** A table whose mappings come from a well-formed one keeps its clauses. *)
Lemma gfam_inv_submappings g hosts ms :
  gfam_inv g → sublist ms (gf_mappings g) → hosts = gf_hosts g → gfam_inv (set_tables g hosts ms).
Proof.
  intros [Hm Hk Hs] Hsub ->. split; simpl; [|by eapply sublist_NoDup, fmap_sublist|done].
  intros m Hin. apply Hm. by eapply elem_of_sublist.
Qed.

Lemma NoDup_keys_unique g m m' :
  gfam_inv g → m ∈ gf_mappings g → m' ∈ gf_mappings g → mapping_key m = mapping_key m' → m = m'.
Proof.
  intros [_ Hk _] Hm Hm' He.
  apply list_elem_of_lookup in Hm as [i Hi]. apply list_elem_of_lookup in Hm' as [j Hj].
  assert (i = j) as ->; [|congruence].
  eapply (NoDup_lookup (mapping_key <$> gf_mappings g)); [done| |]; rewrite list_lookup_fmap.
  - by rewrite Hi.
  - by rewrite Hj, He.
Qed.

Lemma same_mapping_key host base size m :
  same_mapping host base size m = true ↔ mapping_key m = (host, base, size).
Proof. unfold same_mapping, mapping_key. split; [intros; btests; congruence|intros [= -> -> ->]]. lia. Qed.

Lemma register_host_inv g id label : gfam_inv g → gfam_inv (register_host g id label).
Proof.
  intros [Hm Hk Hs]. split; [|done|].
  - simpl. intros m Hin. destruct (Hm m Hin) as (Ha & ? & ? & ? & ?). split_and!; try done.
    unfold register_host. rewrite rebalance_active. unfold host_is_active in *. simpl.
    destruct (decide (id = gm_host_id m)) as [->|Hne]; [by rewrite lookup_insert_eq|].
    by rewrite lookup_insert_ne.
  - intros k h. apply rebalance_shares. simpl. intros k' x.
    destruct (decide (id = k')) as [->|Hne]; [rewrite lookup_insert_eq; by intros [= <-]|].
    rewrite lookup_insert_ne by done. apply Hs.
Qed.

Lemma unregister_host_inv g id : gfam_inv g → gfam_inv (unregister_host g id).
Proof.
  intros [Hm Hk Hs]. split.
  - simpl. intros m. rewrite elem_of_keep. intros [Hne Hin]. btests.
    destruct (Hm m Hin) as (Ha & ? & ? & ? & ?). split_and!; try done.
    unfold unregister_host. rewrite rebalance_active. unfold host_is_active in *. simpl.
    by rewrite lookup_alter_ne.
  - by eapply sublist_NoDup, fmap_sublist, keep_sublist.
  - intros k h. apply rebalance_shares. simpl. intros k' x.
    destruct (decide (id = k')) as [->|Hne].
    + rewrite lookup_alter_eq. intros (y & Hy & ->)%fmap_Some. apply (Hs k' y Hy).
    + rewrite lookup_alter_ne by done. apply Hs.
Qed.

Lemma revoke_access_inv g id base size : gfam_inv g → gfam_inv (revoke_access g id base size).2.
Proof. intros Hi. by apply gfam_inv_submappings; [|apply keep_sublist|]. Qed.

Lemma revoke_extent_inv g base size : gfam_inv g → gfam_inv (revoke_extent g base size).
Proof. intros Hi. by apply gfam_inv_submappings; [|apply keep_sublist|]. Qed.

Lemma GFAMDevice_new_inv lat bw : gfam_inv (GFAMDevice_new lat bw).
Proof. split; simpl; [set_solver|constructor|done]. Qed.

(** Changing permissions in place keeps the keys. *)
Lemma update_permissions_keys p ms ms' id base size :
  update_first (same_mapping id base size) (set_permissions p) ms = Some ms' →
  mapping_key <$> ms' = mapping_key <$> ms.
Proof.
  intros (l1 & x & l2 & -> & -> & _)%update_first_Some. rewrite !fmap_app, !fmap_cons. done.
Qed.

#[local] Hint Resolve register_host_inv unregister_host_inv revoke_access_inv revoke_extent_inv : cxl.

Section with_device_lemmas.
Context {D : Type} `{AllocatorLaws D}.
Implicit Types (dcd : option D) (g : GFAMDevice).

Definition dcd_ok (dcd : option D) : Prop := match dcd with Some d => alloc_ok d | None => True end.

Lemma grant_access_cases dcd g id base size perms :
  let '(s, g') := grant_access dcd g id base size perms in
  let m := {| gm_host_id := id; gm_base := base; gm_size := size; gm_permissions := perms |} in
  (s ≠ OK ∧ g' = g) ∨
  (s = OK ∧ dcd_allocated dcd base size = true ∧ perms ≠ 0 ∧ host_is_active g id = true ∧
   gf_hosts g' = gf_hosts g ∧ m ∈ gf_mappings g' ∧
   g' = set_tables g (gf_hosts g) (gf_mappings g') ∧
   (∀ m', m' ∈ gf_mappings g' → m' = m ∨ m' ∈ gf_mappings g) ∧
   (NoDup (mapping_key <$> gf_mappings g) → NoDup (mapping_key <$> gf_mappings g'))).
Proof.
  unfold grant_access. destruct (negb _ || _) eqn:E1; [by left|]. btests.
  destruct (negb (host_is_active g id)) eqn:E2; [by left|]. btests.
  destruct (update_first _ _ _) as [ms|] eqn:Eu; right; split_and!; try done; simpl.
  - apply update_first_Some in Eu as (l1 & x & l2 & _ & -> & Hx%same_mapping_key).
    apply elem_of_app. right. apply elem_of_cons. left. destruct x. unfold mapping_key in Hx. simpl in Hx.
    by simplify_eq.
  - apply update_first_Some in Eu as (l1 & x & l2 & -> & -> & Hx%same_mapping_key). intros m'.
    rewrite !elem_of_app, !elem_of_cons. intros [?|[->|?]]; [by right; left| |by right; right; right].
    left. destruct x. unfold mapping_key in Hx. simpl in *. unfold set_permissions. simpl. by simplify_eq.
  - by rewrite (update_permissions_keys _ _ _ _ _ _ Eu).
  - set_solver.
  - set_solver.
  - intros Hnd. rewrite fmap_app. apply NoDup_app. split_and!; [done| |apply NoDup_singleton].
    intros k (m' & -> & Hm')%list_elem_of_fmap Hk%list_elem_of_singleton.
    rewrite update_first_None in Eu. specialize (Eu m' Hm').
    by rewrite (proj2 (same_mapping_key id base size m')) in Eu.
Qed.

Lemma grant_access_inv dcd g id base size perms :
  dcd_ok dcd → is_u64 base → is_u64 size → gfam_inv g → gfam_inv (grant_access dcd g id base size perms).2.
Proof.
  intros Hd Hb Hs Hi. pose proof (grant_access_cases dcd g id base size perms) as Hc.
  destruct (grant_access _ _ _ _ _ _) as [s g']. simpl.
  destruct Hc as [[_ ->]|(_ & Hal & Hp & Ha & Hh & _ & Hg' & Hms & Hnd)]; [done|].
  destruct Hi as [Hm Hk Hsh]. split; [|auto|by rewrite Hh].
  intros m Hin. rewrite Hg'. destruct (Hms m Hin) as [->|Hold].
  - split_and!; try done. destruct dcd as [d|]; [|done].
    exact (alloc_nonempty d base size Hd Hb Hs Hal).
  - apply (Hm m Hold).
Qed.

Lemma record_access_cases `{CastUB} dcd g id addr size w at_ ts :
  let '(r, g') := record_access dcd g id addr size w at_ ts in
  (check_access dcd g id addr size w at_ = false ∧ (r, g') = deny g) ∨
  (check_access dcd g id addr size w at_ = true ∧ ga_allowed r = true ∧ ga_status r = OK ∧
   ∃ host, gf_hosts g !! id = Some host ∧
     gf_hosts g' = <[id := count_access w at_ host]> (gf_hosts g) ∧
     gf_mappings g' = gf_mappings g ∧ gf_denied_accesses g' = gf_denied_accesses g ∧
     gf_total_accesses g' = gf_total_accesses g +w 1 ∧
     gf_total_latency_ns g' = gf_total_latency_ns g +w f64_to_u64 (ga_latency_ns r)).
Proof.
  unfold record_access, check_access, host_is_active.
  destruct (dcd_allocated dcd addr size); simpl; [|by left].
  destruct (gf_hosts g !! id) as [host|]; simpl; [|by left].
  destruct (gh_active host); simpl; [|by left].
  destruct (existsb _ _); simpl; [|by left]. right. split_and!; try done. eauto 10.
Qed.

Lemma record_access_inv `{CastUB} dcd g id addr size w at_ ts :
  gfam_inv g → gfam_inv (record_access dcd g id addr size w at_ ts).2.
Proof.
  intros [Hm Hk Hs]. pose proof (record_access_cases dcd g id addr size w at_ ts) as Hc.
  destruct (record_access _ _ _ _ _ _ _ _) as [r g']. simpl.
  destruct Hc as [[_ [= _ ->]]|(_ & _ & _ & host & Hh & Hhs & Hms & _)]; [by split|].
  assert (∀ k, host_is_active g' k = host_is_active g k) as Hact.
  { intros k. unfold host_is_active. rewrite Hhs.
    destruct (decide (id = k)) as [->|]; [by rewrite lookup_insert_eq, Hh|by rewrite lookup_insert_ne]. }
  split.
  - intros m. rewrite Hms. intros Hin. unfold mapping_ok. rewrite Hact. by apply Hm.
  - by rewrite Hms.
  - intros k h. rewrite Hhs, (bandwidth_share_insert _ _ host) by done.
    destruct (decide (id = k)) as [->|]; [|rewrite lookup_insert_ne by done; apply Hs].
    rewrite lookup_insert_eq. intros [= <-]. simpl. by apply Hs.
Qed.

(** The requests of the device; the capacity device may change between them. *)
Inductive gfam_step `{CastUB} : GFAMDevice → GFAMDevice → Prop :=
| step_register g id label : gfam_step g (register_host g id label)
| step_unregister g id : gfam_step g (unregister_host g id)
| step_grant g dcd id base size perms : dcd_ok dcd → is_u64 base → is_u64 size →
    gfam_step g (grant_access dcd g id base size perms).2
| step_revoke g id base size : gfam_step g (revoke_access g id base size).2
| step_revoke_extent g base size : gfam_step g (revoke_extent g base size)
| step_record g dcd id addr size w at_ ts :
    gfam_step g (record_access dcd g id addr size w at_ ts).2.

Lemma gfam_step_inv `{CastUB} g g' : gfam_inv g → gfam_step g g' → gfam_inv g'.
Proof.
  intros Hi Hs. destruct Hs; auto with cxl; [by apply grant_access_inv|by apply record_access_inv].
Qed.

End with_device_lemmas.

(** ** Examples *)

Definition ex_gfam0 : GFAMDevice :=
  register_host (register_host (GFAMDevice_new (f64_of_Z 100) (f64_of_Z 32)) 1 "a") 2 "b".

Definition ex_gfam : GFAMDevice :=
  (grant_access (Some ex_dcd) ex_gfam0 1 12288 8192 (Z.lor DCD_PERM_READ DCD_PERM_WRITE)).2.

#[local] Instance ex_cast : CastUB := λ _, 0.

Lemma ex_gfam_inv : gfam_inv ex_gfam.
Proof.
  apply (grant_access_inv (Some ex_dcd)); [exact ex_dcd_inv|done..|].
  by do 2 apply register_host_inv; apply GFAMDevice_new_inv.
Qed.

(** ** Theorems *)

Section theorems.
Context {D : Type} `{AllocatorLaws D}.
Implicit Types (dcd : option D) (g : GFAMDevice).

(** C33. Over any sequence of fabric requests, with the capacity device changing
    freely in between, every mapping belongs to an active host and is not
    empty, no (host, base, size) has two mappings, and every active host holds
    the same bandwidth share, one over the number of active hosts. *)
Theorem gfam_reachable_inv `{CastUB} lat bw g :
  rtc gfam_step (GFAMDevice_new lat bw) g → gfam_inv g.
Proof.
  intros Hr. pose proof (GFAMDevice_new_inv lat bw) as Hi.
  induction Hr; eauto using gfam_step_inv.
Qed.

(** [check_access] decides authorisation: it accepts exactly when the
    range is allocated on the device, the host is active, and one mapping of
    the host contains the range and has every permission bit the access needs. *)
Theorem check_access_iff dcd g id addr size w at_ :
  gfam_inv g → is_u64 addr → is_u64 size →
  check_access dcd g id addr size w at_ = true ↔
  dcd_allocated dcd addr size = true ∧ host_is_active g id = true ∧
  ∃ m, m ∈ gf_mappings g ∧ gm_host_id m = id ∧
    0 < size ∧ gm_base m <= addr ∧ addr + size <= gm_base m + gm_size m ∧
    ∀ i, Z.testbit (required_permissions w at_) i = true → Z.testbit (gm_permissions m) i = true.
Proof.
  intros Hi Ha Hs. unfold check_access.
  destruct (dcd_allocated dcd addr size); simpl; [|naive_solver].
  destruct (host_is_active g id); simpl; [|naive_solver].
  rewrite existsb_exists_iff. split.
  - intros (m & Hm & Hall). destruct (gi_mappings g Hi m Hm) as (_ & ? & ? & _).
    unfold mapping_allows, mapping_covers in Hall. btests.
    match goal with Hc : range_contains _ _ _ _ = true |- _ => rewrite range_contains_iff in Hc by done end.
    do 2 (split; [done|]). exists m. split_and!; try done; try tauto. intros i Hb.
    match goal with Hl : Z.land _ _ = _ |- _ => rewrite <- Hl, Z.land_spec in Hb end. by btests.
  - intros (_ & _ & m & Hm & Hid & Hpos & Hb1 & Hb2 & Hbits). exists m. split; [done|].
    destruct (gi_mappings g Hi m Hm) as (_ & ? & ? & _).
    unfold mapping_allows, mapping_covers. rewrite !andb_true_iff, range_contains_iff by done.
    split_and!; try lia. apply Z.eqb_eq, Z.bits_inj'. intros i Hi0. rewrite Z.land_spec.
    destruct (Z.testbit (required_permissions w at_) i) eqn:E; [by rewrite (Hbits i E)|apply andb_false_r].
Qed.

(** [record_access] enforces [check_access]: it allows exactly the checked
    accesses; an allowed one is counted once, on the host's counter of its kind
    and on the total, and a refused one only increments the denied counter. *)
Theorem record_access_enforces `{CastUB} dcd g id addr size w at_ ts r g' :
  record_access dcd g id addr size w at_ ts = (r, g') →
  ga_allowed r = check_access dcd g id addr size w at_ ∧
  gf_mappings g' = gf_mappings g ∧
  (ga_allowed r = true → ∃ host, gf_hosts g !! id = Some host ∧
     gf_hosts g' = <[id := count_access w at_ host]> (gf_hosts g) ∧
     gf_denied_accesses g' = gf_denied_accesses g ∧ gf_total_accesses g' = gf_total_accesses g +w 1) ∧
  (ga_allowed r = false → ga_status r = ACCESS_DENIED ∧ gf_hosts g' = gf_hosts g ∧
     gf_denied_accesses g' = gf_denied_accesses g +w 1 ∧ gf_total_accesses g' = gf_total_accesses g).
Proof.
  intros Hr. pose proof (record_access_cases dcd g id addr size w at_ ts) as Hc. rewrite Hr in Hc.
  destruct Hc as [[-> [= -> ->]]|(-> & -> & _ & host & ? & ? & ? & ? & ? & _)]; split_and!; try done; eauto.
Qed.

(** A granted range is usable: after a successful [grant_access] the host
    may access every non-empty part of the range with any subset of the granted
    permissions, as long as the capacity device does not change. *)
Theorem grant_then_access dcd g id base size perms g' addr n w at_ :
  gfam_inv g → dcd_ok dcd → is_u64 base → is_u64 size → is_u64 addr → is_u64 n →
  grant_access dcd g id base size perms = (OK, g') →
  0 < n → base <= addr → addr + n <= base + size →
  Z.land perms (required_permissions w at_) = required_permissions w at_ →
  check_access dcd g' id addr n w at_ = true.
Proof.
  intros Hi Hd Hb Hs Ha Hn Hg Hpos Hle Hle' Hp.
  pose proof (grant_access_cases dcd g id base size perms) as Hc. rewrite Hg in Hc.
  destruct Hc as [[? _]|(_ & Hal & _ & Hact & Hh & Hm & _)]; [done|].
  unfold check_access. assert (dcd_allocated dcd addr n = true) as ->.
  { destruct dcd as [d|]; [|done]. simpl in *. by eapply (alloc_subrange d base size). }
  unfold host_is_active in *. rewrite Hh, Hact. simpl.
  apply existsb_exists_iff. eexists. split; [exact Hm|].
  unfold mapping_allows, mapping_covers. simpl.
  rewrite !andb_true_iff, range_contains_iff by done. lia.
Qed.

(** Unregistering a host ends its access: no range of the device passes
    [check_access] for it afterwards, and other hosts keep what they had. *)
Theorem unregister_revokes dcd g id id' addr size w at_ :
  check_access dcd (unregister_host g id) id' addr size w at_ =
  negb (id' =? id) && check_access dcd g id' addr size w at_.
Proof.
  unfold check_access. destruct (dcd_allocated dcd addr size); simpl; [|by rewrite andb_false_r].
  unfold unregister_host. rewrite rebalance_active. unfold host_is_active. simpl.
  destruct (id' =? id) eqn:E; btests; simpl.
  - subst. rewrite lookup_alter_eq. by destruct (gf_hosts g !! id).
  - rewrite lookup_alter_ne by done. destruct (gf_hosts g !! id') as [h|]; [|done].
    destruct (gh_active h); [|done]. simpl.
    apply eq_iff_eq_true. rewrite !existsb_exists_iff. setoid_rewrite elem_of_keep.
    unfold mapping_allows. split; [naive_solver|].
    intros (m & Hm & Hall). exists m. split; [|done]. btests. split; [lia|done].
Qed.

End theorems.

(** ** Witnesses *)

Lemma gfam_reachable_inv_witness : gfam_inv ex_gfam ∧ length (gf_mappings ex_gfam) = 1%nat.
Proof.
  split; [|vm_compute; reflexivity].
  apply (gfam_reachable_inv (D := DynamicCapacityDevice) (f64_of_Z 100) (f64_of_Z 32)).
  eapply rtc_l; [apply (step_register _ 1 "a")|]. eapply rtc_l; [apply (step_register _ 2 "b")|].
  eapply rtc_l; [|apply rtc_refl].
  apply (step_grant ex_gfam0 (Some ex_dcd) 1 12288 8192 3); [exact ex_dcd_inv|done|done].
Defined.

Lemma check_access_iff_witness :
  check_access (Some ex_dcd) ex_gfam 1 12288 64 true false = true ↔
  dcd_allocated (Some ex_dcd) 12288 64 = true ∧ host_is_active ex_gfam 1 = true ∧
  ∃ m, m ∈ gf_mappings ex_gfam ∧ gm_host_id m = 1 ∧
    0 < 64 ∧ gm_base m <= 12288 ∧ 12288 + 64 <= gm_base m + gm_size m ∧
    ∀ i, Z.testbit (required_permissions true false) i = true → Z.testbit (gm_permissions m) i = true.
Proof. apply (check_access_iff (Some ex_dcd) ex_gfam 1 12288 64 true false ex_gfam_inv); done. Defined.

Lemma record_access_enforces_witness :
  ga_allowed (record_access (Some ex_dcd) ex_gfam 1 12288 64 true false 0).1 =
  check_access (Some ex_dcd) ex_gfam 1 12288 64 true false.
Proof.
  apply (record_access_enforces (Some ex_dcd) ex_gfam 1 12288 64 true false 0
    (record_access (Some ex_dcd) ex_gfam 1 12288 64 true false 0).1
    (record_access (Some ex_dcd) ex_gfam 1 12288 64 true false 0).2).
  apply surjective_pairing.
Defined.

Lemma grant_then_access_witness : check_access (Some ex_dcd) ex_gfam 1 12352 64 true false = true.
Proof.
  apply (grant_then_access (Some ex_dcd) ex_gfam0 1 12288 8192 3 ex_gfam 12352 64 true false);
    [|exact ex_dcd_inv|done|done|done|done|vm_compute; reflexivity|done..].
  by do 2 apply register_host_inv; apply GFAMDevice_new_inv.
Defined.
