(* ===== verification/Fabric.v ===== *)
(** * Fabric timing: LogP queues and fabric links

    Models [LogPModel] of include/cxlendpoint.h (point-to-point, queued,
    broadcast and barrier latencies between nodes, with one queue per
    destination) and [FabricLink] of include/cxlendpoint.h and
    src/cxlendpoint.cpp (traversal latency, credits, congestion).

    Both are shared by pointer between the coherency engine, the controller
    and the remote expanders; the components that use them pass their states
    explicitly.  Each method of [LogPModel] holds [queue_mutex]; the credit
    counter of a link is an atomic, so [acquire_credit] and [release_credit] are
    also given access by access ([credit_access]), for any number of threads. *)

From S2P Require Import Prelude Float64.

(** ** LogP: data *)

Record LogPConfig := {
  lc_L : f64;
  lc_o_s : f64;
  lc_o_r : f64;
  lc_g : f64;
  lc_P : Z
}.

Definition LogPConfig_default : LogPConfig :=
  {| lc_L := f64_of_Z 150; lc_o_s := f64_of_Z 20; lc_o_r := f64_of_Z 20; lc_g := f64_of_Z 4; lc_P := 2 |}.

Record LogPQueueState := {
  lq_arrival_rate : f64;
  lq_service_rate : f64;
  lq_queue_occupancy : f64;
  lq_total_messages : Z;
  lq_total_wait_ns : Z;
  lq_last_send_time : Z;
  lq_last_recv_time : Z
}.

Definition LogPQueueState_new : LogPQueueState :=
  {| lq_arrival_rate := f0; lq_service_rate := f0; lq_queue_occupancy := f0;
     lq_total_messages := 0; lq_total_wait_ns := 0; lq_last_send_time := 0; lq_last_recv_time := 0 |}.

(** [state] is only read for its [service_rate]. *)
Record LogPModel := {
  lm_config : LogPConfig;
  lm_service_rate : f64;
  lm_node_queues : gmap Z LogPQueueState
}.

(** ** LogP: operations *)

Definition LogPModel_default : LogPModel :=
  {| lm_config := LogPConfig_default; lm_service_rate := f0; lm_node_queues := ∅ |}.

Definition LogPModel_new (cfg : LogPConfig) : LogPModel :=
  {| lm_config := cfg; lm_service_rate := (f1 / lc_g cfg)%f64; lm_node_queues := ∅ |}.

Definition reconfigure (m : LogPModel) (cfg : LogPConfig) : LogPModel :=
  {| lm_config := cfg; lm_service_rate := (f1 / lc_g cfg)%f64; lm_node_queues := ∅ |}.

Definition p2p_latency (m : LogPModel) : f64 :=
  (lc_o_s (lm_config m) + lc_L (lm_config m) + lc_o_r (lm_config m))%f64.

(** [node_queues[dst_node]]: the queue, created empty at the first use. *)
Definition node_queue (m : LogPModel) (dst_node : Z) : LogPQueueState :=
  default LogPQueueState_new (lm_node_queues m !! dst_node).

Definition set_queue (m : LogPModel) (dst_node : Z) (q : LogPQueueState) : LogPModel :=
  {| lm_config := lm_config m; lm_service_rate := lm_service_rate m;
     lm_node_queues := <[dst_node := q]> (lm_node_queues m) |}.

Definition send_delay `{CastUB} (m : LogPModel) (current_time dst_node : Z) : f64 * LogPModel :=
  let q := node_queue m dst_node in
  let g := lc_g (lm_config m) in
  let o_s := lc_o_s (lm_config m) in
  let free_at := (f64_of_Z (lq_last_send_time q) + g)%f64 in
  let gap_wait :=
    if (0 <? lq_last_send_time q) && flt (f64_of_Z current_time) free_at
    then (free_at - f64_of_Z current_time)%f64 else f0 in
  let q' := {| lq_arrival_rate := lq_arrival_rate q; lq_service_rate := lq_service_rate q;
               lq_queue_occupancy := lq_queue_occupancy q; lq_total_messages := lq_total_messages q;
               lq_total_wait_ns := lq_total_wait_ns q;
               lq_last_send_time := f64_to_u64 (f64_of_Z current_time + gap_wait + o_s)%f64;
               lq_last_recv_time := lq_last_recv_time q |} in
  ((gap_wait + o_s)%f64, set_queue m dst_node q').

Definition queue_wait_time (m : LogPModel) (dst_node : Z) : f64 :=
  match lm_node_queues m !! dst_node with
  | None => f0
  | Some q =>
      let rho := if fle f1 (lq_queue_occupancy q) then flit 99 100 else lq_queue_occupancy q in
      if flt rho (flit 1 100) then f0
      else (rho / (f64_of_Z 2 * lm_service_rate m * (f1 - rho)))%f64
  end.

Definition message_latency `{CastUB} (m : LogPModel) (current_time dst_node : Z) : f64 * LogPModel :=
  let '(s_delay, m1) := send_delay m current_time dst_node in
  let q_wait := queue_wait_time m1 dst_node in
  ((s_delay + lc_L (lm_config m1) + q_wait + lc_o_r (lm_config m1))%f64, m1).

Definition update_arrival_rate (m : LogPModel) (dst_node window_ns message_count : Z) : LogPModel :=
  let q := node_queue m dst_node in
  let rate := (f64_of_Z message_count / f64_of_Z window_ns)%f64 in
  set_queue m dst_node
    {| lq_arrival_rate := rate; lq_service_rate := lq_service_rate q;
       lq_queue_occupancy := (rate / lm_service_rate m)%f64;
       lq_total_messages := lq_total_messages q +w message_count;
       lq_total_wait_ns := lq_total_wait_ns q;
       lq_last_send_time := lq_last_send_time q; lq_last_recv_time := lq_last_recv_time q |}.

Definition record_message (m : LogPModel) (dst_node latency_ns : Z) : LogPModel :=
  let q := node_queue m dst_node in
  set_queue m dst_node
    {| lq_arrival_rate := lq_arrival_rate q; lq_service_rate := lq_service_rate q;
       lq_queue_occupancy := lq_queue_occupancy q;
       lq_total_messages := lq_total_messages q +w 1;
       lq_total_wait_ns := lq_total_wait_ns q +w latency_ns;
       lq_last_send_time := lq_last_send_time q; lq_last_recv_time := lq_last_recv_time q |}.

(** [std::ceil(std::log2(P))] of a 32-bit [P]: the logarithm is far enough from
    every integer, unless [P] is a power of two, for the rounding not to matter. *)
Definition broadcast_latency (m : LogPModel) : f64 :=
  if lc_P (lm_config m) <=? 1 then f0
  else (f64_of_Z (Z.log2_up (lc_P (lm_config m))) * p2p_latency m)%f64.

Definition barrier_latency (m : LogPModel) : f64 := (f64_of_Z 2 * broadcast_latency m)%f64.

Definition avg_latency (m : LogPModel) (dst_node : Z) : f64 :=
  match lm_node_queues m !! dst_node with
  | None => p2p_latency m
  | Some q =>
      if lq_total_messages q =? 0 then p2p_latency m
      else (f64_of_Z (lq_total_wait_ns q) / f64_of_Z (lq_total_messages q))%f64
  end.

(** ** Fabric links: data and operations *)

Record FabricLinkConfig := {
  fc_latency_ns : f64;
  fc_bandwidth_gbps : f64;
  fc_max_credits : Z
}.

Record FabricLink := {
  fl_config : FabricLinkConfig;
  fl_src_node : Z;
  fl_dst_node : Z;
  fl_available_credits : Z;
  fl_in_flight_flits : Z;
  fl_last_flit_time : Z
}.

Definition FabricLink_new (src dst : Z) (cfg : FabricLinkConfig) : FabricLink :=
  {| fl_config := cfg; fl_src_node := src; fl_dst_node := dst;
     fl_available_credits := fc_max_credits cfg; fl_in_flight_flits := 0; fl_last_flit_time := 0 |}.

Definition get_utilization (l : FabricLink) (window_ns : Z) : f64 :=
  (f1 - f64_of_Z (fl_available_credits l) / f64_of_Z (fc_max_credits (fl_config l)))%f64.

Definition get_congestion_delay (l : FabricLink) (timestamp : Z) : f64 :=
  let utilization :=
    (f1 - f64_of_Z (fl_available_credits l) / f64_of_Z (fc_max_credits (fl_config l)))%f64 in
  if flt utilization (flit 5 10) then f0
  else if flt utilization (flit 8 10)
  then ((utilization - flit 5 10) / flit 3 10 * f64_of_Z 20)%f64
  else (f64_of_Z 20 + (utilization - flit 8 10) / flit 2 10 * f64_of_Z 80)%f64.

Definition calculate_traversal_latency (l : FabricLink) (timestamp data_size : Z) : f64 * FabricLink :=
  let cfg := fl_config l in
  let billion := f64_of_Z 1000000000 in
  let serialization_ns := (f64_of_Z data_size / (fc_bandwidth_gbps cfg * billion) * billion)%f64 in
  let latency := (fc_latency_ns cfg + serialization_ns)%f64 in
  let latency := (latency + get_congestion_delay l timestamp)%f64 in
  (latency,
   {| fl_config := cfg; fl_src_node := fl_src_node l; fl_dst_node := fl_dst_node l;
      fl_available_credits := fl_available_credits l;
      fl_in_flight_flits := fl_in_flight_flits l +w 1; fl_last_flit_time := timestamp |}).

Definition set_credits (l : FabricLink) (c : Z) : FabricLink :=
  {| fl_config := fl_config l; fl_src_node := fl_src_node l; fl_dst_node := fl_dst_node l;
     fl_available_credits := c; fl_in_flight_flits := fl_in_flight_flits l;
     fl_last_flit_time := fl_last_flit_time l |}.

(** [acquire_credit] running alone. *)
Definition acquire_credit (l : FabricLink) : bool * FabricLink :=
  if 0 <? fl_available_credits l then (true, set_credits l (fl_available_credits l - 1)) else (false, l).

(** [release_credit] running alone. *)
Definition release_credit (l : FabricLink) : FabricLink :=
  if fl_available_credits l <? fc_max_credits (fl_config l)
  then set_credits l (fl_available_credits l +w 1) else l.

(** ** Concurrent credits

    Threads that acquire a credit, hold it and release it, again and again; a thread
    calls [release_credit] for a credit it holds.  [Acquiring] and [Releasing] have
    the value that the thread has loaded. *)

Inductive CreditPc := Outside | Acquiring (current : Z) | Holding | Releasing (current : Z).

(** The next access of a thread to the counter.  With [weak], [compare_exchange_weak] fails
    though the counter has the expected value. *)
Definition credit_access (weak : bool) (l : FabricLink) (pc : CreditPc) : FabricLink * CreditPc :=
  match pc with
  | Outside => (l, Acquiring (fl_available_credits l))
  | Acquiring current =>
      if 0 <? current then
        if (fl_available_credits l =? current) && negb weak then (set_credits l (current - 1), Holding)
        else (l, Acquiring (fl_available_credits l))
      else (l, Outside)
  | Holding => (l, Releasing (fl_available_credits l))
  | Releasing current =>
      if current <? fc_max_credits (fl_config l) then (set_credits l (fl_available_credits l +w 1), Outside) else (l, Outside)
  end.

Record CreditState := { cs_link : FabricLink; cs_threads : list CreditPc }.

(** Thread [i] makes its next access. *)
Definition credit_turn (i : nat) (weak : bool) (s : CreditState) : CreditState :=
  match cs_threads s !! i with
  | None => s
  | Some pc => let '(l, pc') := credit_access weak (cs_link s) pc in {| cs_link := l; cs_threads := <[i := pc']> (cs_threads s) |}
  end.

Inductive credit_step (s : CreditState) : CreditState → Prop :=
| credit_step_turn i weak : credit_step s (credit_turn i weak s).

Definition credit_start (src dst : Z) (cfg : FabricLinkConfig) (threads : nat) : CreditState :=
  {| cs_link := FabricLink_new src dst cfg; cs_threads := replicate threads Outside |}.

(** A thread that has a credit, until it has given it back. *)
Definition owns (pc : CreditPc) : Z := match pc with Holding | Releasing _ => 1 | _ => 0 end.

(** What a thread has loaded still tells it the right thing. *)
Definition pc_ok (cfg : FabricLinkConfig) (pc : CreditPc) : Prop :=
  match pc with Releasing current => current < fc_max_credits cfg | _ => True end.

Record credit_inv (cfg : FabricLinkConfig) (s : CreditState) : Prop := {
  ci_config : fl_config (cs_link s) = cfg;
  ci_available : 0 <= fl_available_credits (cs_link s);
  ci_sum : fl_available_credits (cs_link s) + zsum (owns <$> cs_threads s) = fc_max_credits cfg;
  ci_pcs : Forall (pc_ok cfg) (cs_threads s)
}.

(** ** Lemmas *)

Lemma send_delay_frame `{CastUB} m ts dst d m' :
  send_delay m ts dst = (d, m') →
  lm_config m' = lm_config m ∧ lm_service_rate m' = lm_service_rate m ∧
  ∀ n, n ≠ dst → lm_node_queues m' !! n = lm_node_queues m !! n.
Proof.
  unfold send_delay. intros [= <- <-]. split_and!; [done..|].
  intros n Hn. simpl. by rewrite lookup_insert_ne.
Qed.

Lemma message_latency_frame `{CastUB} m ts dst d m' :
  message_latency m ts dst = (d, m') →
  lm_config m' = lm_config m ∧ lm_service_rate m' = lm_service_rate m ∧
  ∀ n, n ≠ dst → lm_node_queues m' !! n = lm_node_queues m !! n.
Proof.
  unfold message_latency. destruct (send_delay m ts dst) as [d0 m0] eqn:E.
  intros [= <- <-]. by eapply send_delay_frame.
Qed.

Lemma owns_insert pcs i pc pc' :
  pcs !! i = Some pc → zsum (owns <$> <[i := pc']> pcs) = zsum (owns <$> pcs) - owns pc + owns pc'.
Proof.
  revert i. induction pcs as [|x pcs IH]; intros [|i] Hi; simplify_eq/=; [lia|]. rewrite (IH i Hi). lia.
Qed.

Lemma owns_total pcs : 0 <= zsum (owns <$> pcs).
Proof. apply zsum_nonneg, Forall_fmap, Forall_forall. intros [] _; simpl; lia. Qed.

Lemma owns_some pcs i pc : pcs !! i = Some pc → owns pc <= zsum (owns <$> pcs).
Proof. intros Hi. pose proof (owns_insert pcs i pc Outside Hi) as H. pose proof (owns_total (<[i := Outside]> pcs)). simpl in H. lia. Qed.

Lemma credit_step_inv cfg s s' : fc_max_credits cfg < TWO64 → credit_inv cfg s → credit_step s s' → credit_inv cfg s'.
Proof.
  intros Hm [Hc Ha Hs Hp] [i weak]. unfold credit_turn. destruct (cs_threads s !! i) as [pc|] eqn:Hi; [|by split].
  pose proof (owns_some _ _ _ Hi) as Ho. pose proof (Forall_lookup_1 _ _ _ _ Hp Hi) as Hpc.
  assert (∀ l pc', fl_config l = cfg → 0 <= fl_available_credits l → fl_available_credits l + owns pc' = fl_available_credits (cs_link s) + owns pc →
    pc_ok cfg pc' → credit_inv cfg {| cs_link := l; cs_threads := <[i := pc']> (cs_threads s) |}) as Hgo.
  { intros l pc' H1 H2 H3 H4. split; simpl; [done|done| |by apply Forall_insert]. rewrite (owns_insert _ _ _ _ Hi). lia. }
  destruct pc as [|current| |current]; simpl in *.
  - by apply Hgo.
  - destruct (0 <? current) eqn:E; [|by apply Hgo]. destruct (_ && _) eqn:E2; [|by apply Hgo]. btests. apply Hgo; simpl; (done || lia).
  - apply Hgo; simpl; (done || lia).
  - rewrite Hc, (proj2 (Z.ltb_lt _ _) Hpc). apply Hgo; simpl; (done || rewrite u64_small by (unfold is_u64; lia); lia).
Qed.

Lemma credit_start_inv src dst cfg threads : 0 <= fc_max_credits cfg → credit_inv cfg (credit_start src dst cfg threads).
Proof.
  intros Hm. split; simpl; [done|done| |by apply Forall_replicate]. rewrite fmap_replicate. simpl.
  assert (zsum (replicate threads 0) = 0) as ->; [|lia]. induction threads as [|n IH]; [done|]. simpl. lia.
Qed.

(** A thread that is not interrupted does what [acquire_credit] and [release_credit] say. *)
Lemma acquire_alone l :
  let '(l1, pc1) := credit_access false l Outside in
  credit_access false l1 pc1 = ((acquire_credit l).2, if (acquire_credit l).1 then Holding else Outside).
Proof. unfold acquire_credit. simpl. rewrite Z.eqb_refl. by destruct (0 <? _). Qed.

Lemma release_alone l :
  let '(l1, pc1) := credit_access false l Holding in credit_access false l1 pc1 = (release_credit l, Outside).
Proof. unfold release_credit. simpl. by destruct (_ <? _). Qed.

(** ** Theorems *)

(** C37. Credits are conserved under every interleaving of the atomic accesses of any
    number of threads, with spurious failures of the compare-and-swap: the free
    credits and those that threads hold or are giving back always add up to the
    configured maximum.  In particular the counter never exceeds the maximum, at most
    that many threads hold a credit, and the guard of [release_credit], which is read
    before the addition, never drops a credit. *)
Theorem credits_conserved src dst cfg threads s :
  0 <= fc_max_credits cfg < TWO64 → rtc credit_step (credit_start src dst cfg threads) s →
  0 <= fl_available_credits (cs_link s) ∧ fl_available_credits (cs_link s) + zsum (owns <$> cs_threads s) = fc_max_credits cfg ∧
  ∀ i current, cs_threads s !! i = Some (Releasing current) →
    credit_access false (cs_link s) (Releasing current) = (set_credits (cs_link s) (fl_available_credits (cs_link s) + 1), Outside).
Proof.
  intros Hm Hr. assert (credit_inv cfg s) as [Hc Ha Hs Hp].
  { pose proof (credit_start_inv src dst cfg threads ltac:(lia)) as H0. revert H0. induction Hr as [|x y z Hxy _ IH]; [done|].
    intros Hx. apply IH. eapply credit_step_inv; [lia|exact Hx|exact Hxy]. }
  split; [done|]. split; [done|]. intros i current Hi. pose proof (Forall_lookup_1 _ _ _ _ Hp Hi) as Hpc. pose proof (owns_some _ _ _ Hi) as Ho.
  simpl in *. rewrite Hc, (proj2 (Z.ltb_lt _ _) Hpc). by rewrite u64_small by (unfold is_u64; lia).
Qed.

(** A message to one node does not disturb the queues of the others, and
    the first message to a quiet node costs exactly [o_s + L + o_r] on top of
    zero waits. *)
Theorem message_latency_local `{CastUB} m ts dst :
  let '(d, m') := message_latency m ts dst in
  lm_config m' = lm_config m ∧
  (∀ n, n ≠ dst → lm_node_queues m' !! n = lm_node_queues m !! n) ∧
  (lm_node_queues m !! dst = None →
   d = (f0 + lc_o_s (lm_config m) + lc_L (lm_config m) + f0 + lc_o_r (lm_config m))%f64).
Proof.
  destruct (message_latency m ts dst) as [d m'] eqn:E. split_and!.
  - by apply message_latency_frame in E as (?&?&?).
  - by apply message_latency_frame in E as (?&?&?).
  - intros Hn. unfold message_latency, send_delay, node_queue in E. rewrite Hn in E. simpl in E.
    unfold queue_wait_time in E. simpl in E. rewrite lookup_insert_eq in E. simpl in E.
    by injection E as <- _.
Qed.

(** ** Witnesses *)

(** One credit and two threads: both load the counter, the second swap fails, its thread
    gives up; the first thread gives its credit back and the second one gets it, after a
    spurious failure. *)
Definition ex_single_credit : FabricLinkConfig :=
  {| fc_latency_ns := f64_of_Z 50; fc_bandwidth_gbps := f64_of_Z 32; fc_max_credits := 1 |}.

Definition ex_schedule : list (nat * bool) :=
  [(0, false); (1, false); (0, false); (1, false); (1, false); (0, false); (0, false); (1, false); (1, true); (1, false); (1, false)]%nat.

Definition run_credits (l : list (nat * bool)) (s : CreditState) : CreditState := foldl (λ s t, credit_turn t.1 t.2 s) s l.

Lemma run_credits_steps l s : rtc credit_step s (run_credits l s).
Proof. revert s. induction l as [|[i w] l IH]; intros s; [apply rtc_refl|]. eapply rtc_l; [apply (credit_step_turn s i w)|apply IH]. Qed.

Lemma credits_conserved_witness :
  let s := run_credits ex_schedule (credit_start 0 1 ex_single_credit 2) in
  cs_threads (run_credits (take 5 ex_schedule) (credit_start 0 1 ex_single_credit 2)) = [Holding; Outside] ∧
  cs_threads s = [Outside; Releasing 0] ∧ fl_available_credits (cs_link s) + zsum (owns <$> cs_threads s) = 1.
Proof.
  intros s. split; [vm_compute; reflexivity|]. split; [vm_compute; reflexivity|].
  apply (credits_conserved 0 1 ex_single_credit 2 s); [vm_compute; split; done|apply run_credits_steps].
Defined.
