(* ===== verification/CacheState.v ===== *)
(** * Cache-line and head states shared by the coherency models

    The MOESI state of a line and the per-head (host port) record that
    include/cxlendpoint.h declares and that both the coherency engine and the
    multi-headed device use. *)

From S2P Require Import Prelude Float64.

Inductive MHSLDCacheState := INVALID | SHARED | EXCLUSIVE | MODIFIED | OWNED.

#[global] Instance MHSLDCacheState_eq_dec : EqDecision MHSLDCacheState.
Proof. solve_decision. Defined.

Record MHSLDHeadState := {
  hs_head_id : Z;
  hs_allocated_capacity : Z;
  hs_used_capacity : Z;
  hs_bandwidth_share : f64;
  hs_total_reads : Z;
  hs_total_writes : Z;
  hs_coherency_stalls : Z;
  hs_back_invalidations : Z;
  hs_active : bool
}.

Definition MHSLDHeadState_new : MHSLDHeadState :=
  {| hs_head_id := 0; hs_allocated_capacity := 0; hs_used_capacity := 0; hs_bandwidth_share := f1;
     hs_total_reads := 0; hs_total_writes := 0; hs_coherency_stalls := 0;
     hs_back_invalidations := 0; hs_active := false |}.

(** The constructors' loop over the head table. *)
Definition idle_head (i : nat) : MHSLDHeadState :=
  {| hs_head_id := Z.of_nat i; hs_allocated_capacity := 0; hs_used_capacity := 0; hs_bandwidth_share := f0;
     hs_total_reads := 0; hs_total_writes := 0; hs_coherency_stalls := 0;
     hs_back_invalidations := 0; hs_active := false |}.

Definition set_head_share (s : f64) (h : MHSLDHeadState) : MHSLDHeadState :=
  {| hs_head_id := hs_head_id h; hs_allocated_capacity := hs_allocated_capacity h;
     hs_used_capacity := hs_used_capacity h; hs_bandwidth_share := s;
     hs_total_reads := hs_total_reads h; hs_total_writes := hs_total_writes h;
     hs_coherency_stalls := hs_coherency_stalls h; hs_back_invalidations := hs_back_invalidations h;
     hs_active := hs_active h |}.

(** Heads that count for contention. *)
Definition contending (h : MHSLDHeadState) : bool :=
  hs_active h && (0 <? hs_total_reads h +w hs_total_writes h).

(** Ascending iteration over a [std::set<uint32_t>]. *)
Definition ascending (s : gset Z) : list Z := merge_sort Z.le (elements s).

Lemma elem_of_ascending s x : x ∈ ascending s ↔ x ∈ s.
Proof. unfold ascending. by rewrite merge_sort_Permutation, elem_of_elements. Qed.

Lemma length_ascending s : length (ascending s) = size s.
Proof. unfold ascending. by rewrite merge_sort_Permutation. Qed.
