(* ===== verification/Coherency.v ===== *)
(** * Coherency engine

    Models [CoherencyEngine] of include/coherency_engine.h and
    src/coherency_engine.cpp, the MOESI directory used for every access:
    reads, writes, atomics, the remote message handlers and head management.

    Every operation on a line runs under that line's lock, so it is one atomic
    step here; lines interleave freely.  The LogP model and the fabric links
    are reached by pointer: [ce_logp] and [ce_links] are the pointees, and
    [ce_fabric_links] maps a node to the link it points to, so two nodes may
    share a link.

    Abstractly a line is a set of readers and an optional writer.  The
    theorems show that the directory keeps a single writer or many readers,
    and that each operation refines its abstract counterpart. *)

From S2P Require Import Prelude Float64 Fabric CacheState.

(** ** Data *)

Record DirectoryEntry := {
  ent_cacheline_addr : Z;
  ent_state : MHSLDCacheState;
  ent_owner_node : Z;
  ent_owner_head : Z;
  ent_sharer_nodes : gset Z;
  ent_version : Z;
  ent_last_access_time : Z;
  ent_has_dirty_data : bool
}.

Record CoherencyRequest := {
  rq_addr : Z;
  rq_requesting_node : Z;
  rq_requesting_head : Z;
  rq_is_write : bool;
  rq_timestamp : Z
}.

Record CoherencyResponse := {
  rs_latency_ns : f64;
  rs_new_state : MHSLDCacheState;
  rs_success : bool;
  rs_data_source_node : Z
}.

(** The atomic counters of the engine. *)
Record Counters := {
  ct_coherency_messages : Z;
  ct_invalidations : Z;
  ct_downgrades : Z;
  ct_writebacks : Z;
  ct_remote_ops : Z;
  ct_latency_ns : Z;
  ct_ops : Z
}.

Record CoherencyEngine := {
  ce_local_node_id : Z;
  ce_logp : option LogPModel;
  ce_links : gmap Z FabricLink;
  ce_fabric_links : gmap Z (option Z);
  ce_directory : gmap Z DirectoryEntry;
  ce_heads : list MHSLDHeadState;
  ce_counters : Counters
}.

Record Stats := {
  st_coherency_messages : Z;
  st_invalidations : Z;
  st_downgrades : Z;
  st_writebacks : Z;
  st_remote_ops : Z;
  st_avg_coherency_latency : f64
}.

(** *** Field updates *)

Definition with_state (s : MHSLDCacheState) (e : DirectoryEntry) : DirectoryEntry :=
  {| ent_cacheline_addr := ent_cacheline_addr e; ent_state := s; ent_owner_node := ent_owner_node e;
     ent_owner_head := ent_owner_head e; ent_sharer_nodes := ent_sharer_nodes e; ent_version := ent_version e;
     ent_last_access_time := ent_last_access_time e; ent_has_dirty_data := ent_has_dirty_data e |}.

Definition with_owner (n h : Z) (e : DirectoryEntry) : DirectoryEntry :=
  {| ent_cacheline_addr := ent_cacheline_addr e; ent_state := ent_state e; ent_owner_node := n;
     ent_owner_head := h; ent_sharer_nodes := ent_sharer_nodes e; ent_version := ent_version e;
     ent_last_access_time := ent_last_access_time e; ent_has_dirty_data := ent_has_dirty_data e |}.

Definition with_sharers (s : gset Z) (e : DirectoryEntry) : DirectoryEntry :=
  {| ent_cacheline_addr := ent_cacheline_addr e; ent_state := ent_state e; ent_owner_node := ent_owner_node e;
     ent_owner_head := ent_owner_head e; ent_sharer_nodes := s; ent_version := ent_version e;
     ent_last_access_time := ent_last_access_time e; ent_has_dirty_data := ent_has_dirty_data e |}.

Definition with_dirty (d : bool) (e : DirectoryEntry) : DirectoryEntry :=
  {| ent_cacheline_addr := ent_cacheline_addr e; ent_state := ent_state e; ent_owner_node := ent_owner_node e;
     ent_owner_head := ent_owner_head e; ent_sharer_nodes := ent_sharer_nodes e; ent_version := ent_version e;
     ent_last_access_time := ent_last_access_time e; ent_has_dirty_data := d |}.

(** [last_access_time = ts], and [version++] for writes. *)
Definition touch (ts : Z) (is_write : bool) (e : DirectoryEntry) : DirectoryEntry :=
  {| ent_cacheline_addr := ent_cacheline_addr e; ent_state := ent_state e; ent_owner_node := ent_owner_node e;
     ent_owner_head := ent_owner_head e; ent_sharer_nodes := ent_sharer_nodes e;
     ent_version := if is_write then u32 (ent_version e + 1) else ent_version e;
     ent_last_access_time := ts; ent_has_dirty_data := ent_has_dirty_data e |}.

(** The counters an action adds to: messages, invalidations, downgrades, writebacks. *)
Definition add_counts (m i d w : Z) (c : Counters) : Counters :=
  {| ct_coherency_messages := ct_coherency_messages c +w m; ct_invalidations := ct_invalidations c +w i;
     ct_downgrades := ct_downgrades c +w d; ct_writebacks := ct_writebacks c +w w;
     ct_remote_ops := ct_remote_ops c; ct_latency_ns := ct_latency_ns c; ct_ops := ct_ops c |}.

Definition bump (m i d w : Z) (ce : CoherencyEngine) : CoherencyEngine :=
  {| ce_local_node_id := ce_local_node_id ce; ce_logp := ce_logp ce; ce_links := ce_links ce;
     ce_fabric_links := ce_fabric_links ce; ce_directory := ce_directory ce; ce_heads := ce_heads ce;
     ce_counters := add_counts m i d w (ce_counters ce) |}.

Definition with_env (logp : option LogPModel) (links : gmap Z FabricLink) (ce : CoherencyEngine) : CoherencyEngine :=
  {| ce_local_node_id := ce_local_node_id ce; ce_logp := logp; ce_links := links;
     ce_fabric_links := ce_fabric_links ce; ce_directory := ce_directory ce; ce_heads := ce_heads ce;
     ce_counters := ce_counters ce |}.

Definition with_directory (d : gmap Z DirectoryEntry) (ce : CoherencyEngine) : CoherencyEngine :=
  {| ce_local_node_id := ce_local_node_id ce; ce_logp := ce_logp ce; ce_links := ce_links ce;
     ce_fabric_links := ce_fabric_links ce; ce_directory := d; ce_heads := ce_heads ce;
     ce_counters := ce_counters ce |}.

Definition with_heads (hs : list MHSLDHeadState) (ce : CoherencyEngine) : CoherencyEngine :=
  {| ce_local_node_id := ce_local_node_id ce; ce_logp := ce_logp ce; ce_links := ce_links ce;
     ce_fabric_links := ce_fabric_links ce; ce_directory := ce_directory ce; ce_heads := hs;
     ce_counters := ce_counters ce |}.

(** ** Construction and lookup *)

Definition DirectoryEntry_new : DirectoryEntry :=
  {| ent_cacheline_addr := 0; ent_state := INVALID; ent_owner_node := UINT32_MAX;
     ent_owner_head := UINT32_MAX; ent_sharer_nodes := ∅; ent_version := 0;
     ent_last_access_time := 0; ent_has_dirty_data := false |}.

Definition fresh_entry (cl_addr : Z) : DirectoryEntry :=
  {| ent_cacheline_addr := cl_addr; ent_state := INVALID; ent_owner_node := UINT32_MAX;
     ent_owner_head := UINT32_MAX; ent_sharer_nodes := ∅; ent_version := 0;
     ent_last_access_time := 0; ent_has_dirty_data := false |}.

Definition CoherencyEngine_new (local_node : Z) (logp : option LogPModel) (max_heads : nat) : CoherencyEngine :=
  {| ce_local_node_id := local_node; ce_logp := logp; ce_links := ∅; ce_fabric_links := ∅;
     ce_directory := ∅; ce_heads := idle_head <$> seq 0 max_heads;
     ce_counters := {| ct_coherency_messages := 0; ct_invalidations := 0; ct_downgrades := 0;
                       ct_writebacks := 0; ct_remote_ops := 0; ct_latency_ns := 0; ct_ops := 0 |} |}.

(** The entry found or created; creating it is visible to later lookups only
    once the caller stores it back, which every caller does. *)
Definition get_or_create_entry (ce : CoherencyEngine) (addr : Z) : DirectoryEntry :=
  default (fresh_entry (cl_align addr)) (ce_directory ce !! cl_align addr).

Definition store_entry (ce : CoherencyEngine) (addr : Z) (e : DirectoryEntry) : CoherencyEngine :=
  with_directory (<[cl_align addr := e]> (ce_directory ce)) ce.

Section engine.
Context `{CastUB}.

(** ** Timing *)

Definition calculate_coherency_msg_latency (ce : CoherencyEngine) (target ts : Z) : f64 * CoherencyEngine :=
  let '(lat1, links) :=
    match ce_fabric_links ce !! target with
    | Some (Some p) =>
        match ce_links ce !! p with
        | Some l => let '(t, l') := calculate_traversal_latency l ts CACHELINE_SIZE in
                    ((f0 + t)%f64, <[p := l']> (ce_links ce))
        | None => (f0, ce_links ce)
        end
    | _ => (f0, ce_links ce)
    end in
  match ce_logp ce with
  | Some m =>
      if negb (target =? ce_local_node_id ce) then
        let '(t, m') := message_latency m ts target in
        ((lat1 + t)%f64, with_env (Some m') links ce)
      else (lat1, with_env (Some m) links ce)
  | None => (lat1, with_env None links ce)
  end.

Definition calculate_contention_latency (ce : CoherencyEngine) (head_id ts : Z) : f64 :=
  match ce_heads ce !! Z.to_nat head_id with
  | None => f0
  | Some h =>
      if negb (hs_active h) then f0
      else
        let contending_heads := u32 (Z.of_nat (length (keep contending (ce_heads ce)))) in
        if contending_heads <=? 1 then f0
        else
          let fair_share := if fle (hs_bandwidth_share h) f0 then (f1 / f64_of_Z contending_heads)%f64
                            else hs_bandwidth_share h in
          let base_latency := f64_of_Z 100 in
          let additional := (base_latency * (f1 / fair_share - f1) * flit 3 10)%f64 in
          fmin additional (base_latency * f64_of_Z 5)%f64
  end.

(** ** Coherency actions *)

(** The second loop of [invalidate_sharers]. *)
Fixpoint invalidate_loop (ce : CoherencyEngine) (targets : list Z) (ts : Z) (max_latency accumulated_gap : f64)
    : f64 * CoherencyEngine :=
  match targets with
  | [] => (max_latency, ce)
  | sharer :: rest =>
      let '(lat, ce1) := calculate_coherency_msg_latency ce sharer ts in
      let inv_latency := (accumulated_gap + lat)%f64 in
      let gap := match ce_logp ce1 with
                 | Some m => (accumulated_gap + lc_g (lm_config m))%f64
                 | None => accumulated_gap
                 end in
      invalidate_loop (bump 1 1 0 0 ce1) rest ts (fmax max_latency inv_latency) gap
  end.

Definition invalidate_sharers (ce : CoherencyEngine) (e : DirectoryEntry) (except_node ts : Z)
    : f64 * DirectoryEntry * CoherencyEngine :=
  let to_invalidate := ascending (ent_sharer_nodes e ∖ {[except_node]}) in
  let '(lat, ce') := invalidate_loop ce to_invalidate ts f0 f0 in
  (lat, with_sharers ∅ e, ce').

Definition downgrade_owner (ce : CoherencyEngine) (e : DirectoryEntry) (requesting_node ts : Z)
    : f64 * DirectoryEntry * CoherencyEngine :=
  if (ent_owner_node e =? UINT32_MAX) || (ent_owner_node e =? requesting_node) then (f0, e, ce)
  else
    let '(lat, ce1) := calculate_coherency_msg_latency ce (ent_owner_node e) ts in
    let e' := match ent_state e with
              | MODIFIED => with_dirty true (with_state OWNED e)
              | EXCLUSIVE =>
                  with_owner UINT32_MAX UINT32_MAX
                    (with_state SHARED (with_sharers ({[ent_owner_node e]} ∪ ent_sharer_nodes e) e))
              | _ => e
              end in
    (lat, e', bump 1 0 1 0 ce1).

Definition fetch_from_owner (ce : CoherencyEngine) (e : DirectoryEntry) (requesting_node ts : Z)
    : f64 * CoherencyEngine :=
  if ent_owner_node e =? UINT32_MAX then (f0, ce)
  else let '(lat, ce1) := calculate_coherency_msg_latency ce (ent_owner_node e) ts in
       (lat, bump 1 0 0 0 ce1).

Definition transition_to_shared (e : DirectoryEntry) (node head : Z) : DirectoryEntry :=
  let e1 := with_sharers ({[node]} ∪ ent_sharer_nodes e) e in
  match ent_state e with
  | INVALID => with_owner node head (with_state SHARED e1)
  | _ => e1
  end.

Definition transition_to_exclusive (ce : CoherencyEngine) (e : DirectoryEntry) (node head ts : Z)
    : f64 * DirectoryEntry * CoherencyEngine :=
  let '(lat, e1, ce1) := invalidate_sharers ce e node ts in
  (lat, with_sharers ∅ (with_state EXCLUSIVE (with_owner node head e1)), ce1).

Definition transition_to_modified (ce : CoherencyEngine) (e : DirectoryEntry) (node head ts : Z)
    : f64 * DirectoryEntry * CoherencyEngine :=
  let '(lat, e1, ce1) := transition_to_exclusive ce e node head ts in
  (lat, with_dirty true (with_state MODIFIED e1), ce1).

(** ** The MOESI state machines *)

(** What a state machine has computed when it reaches [done:]. *)
Record Outcome := {
  oc_latency : f64;
  oc_new_state : MHSLDCacheState;
  oc_data_source : Z;
  oc_entry : DirectoryEntry;
  oc_engine : CoherencyEngine
}.

Definition owner_may_hit (s : MHSLDCacheState) : bool :=
  match s with EXCLUSIVE | MODIFIED | OWNED => true | _ => false end.

(** The body of [process_read] up to [done:], on the locked entry. *)
Definition read_body (ce : CoherencyEngine) (e : DirectoryEntry) (req : CoherencyRequest) : Outcome :=
  let n := rq_requesting_node req in
  let ts := rq_timestamp req in
  let local := ce_local_node_id ce in
  let contention := calculate_contention_latency ce (rq_requesting_head req) ts in
  let add_sharer e := with_sharers ({[n]} ∪ ent_sharer_nodes e) e in
  if (ent_owner_node e =? n) && owner_may_hit (ent_state e) then
    {| oc_latency := contention; oc_new_state := ent_state e; oc_data_source := local;
       oc_entry := e; oc_engine := ce |}
  else if bool_decide (n ∈ ent_sharer_nodes e) then
    {| oc_latency := contention; oc_new_state := SHARED; oc_data_source := local;
       oc_entry := e; oc_engine := ce |}
  else
    match ent_state e with
    | INVALID =>
        {| oc_latency := f0; oc_new_state := SHARED; oc_data_source := local;
           oc_entry := with_owner n (rq_requesting_head req) (with_state SHARED (add_sharer e));
           oc_engine := ce |}
    | SHARED =>
        {| oc_latency := f0; oc_new_state := SHARED; oc_data_source := local;
           oc_entry := add_sharer e; oc_engine := ce |}
    | EXCLUSIVE =>
        if ent_owner_node e =? n then
          {| oc_latency := contention; oc_new_state := SHARED; oc_data_source := local;
             oc_entry := with_state SHARED (add_sharer e); oc_engine := ce |}
        else
          let '(lat, e1, ce1) := downgrade_owner ce e n ts in
          {| oc_latency := lat; oc_new_state := SHARED; oc_data_source := ent_owner_node e1;
             oc_entry := with_state SHARED (add_sharer e1); oc_engine := ce1 |}
    | MODIFIED =>
        if ent_owner_node e =? n then
          {| oc_latency := contention; oc_new_state := SHARED; oc_data_source := local;
             oc_entry := add_sharer e; oc_engine := ce |}
        else
          let '(lat, ce1) := fetch_from_owner ce e n ts in
          {| oc_latency := lat; oc_new_state := SHARED; oc_data_source := ent_owner_node e;
             oc_entry := add_sharer (with_state OWNED e); oc_engine := ce1 |}
    | OWNED =>
        if ent_owner_node e =? n then
          {| oc_latency := contention; oc_new_state := SHARED; oc_data_source := local;
             oc_entry := add_sharer e; oc_engine := ce |}
        else
          let '(lat, ce1) := calculate_coherency_msg_latency ce (ent_owner_node e) ts in
          {| oc_latency := lat; oc_new_state := SHARED; oc_data_source := ent_owner_node e;
             oc_entry := add_sharer e; oc_engine := bump 1 0 0 0 ce1 |}
    end.

(** The switch of [process_write]: the messages of each state.  Gives the
    latency, the data source, the entry and the engine. *)
Definition write_switch (ce : CoherencyEngine) (e : DirectoryEntry) (req : CoherencyRequest)
    : f64 * Z * DirectoryEntry * CoherencyEngine :=
  let n := rq_requesting_node req in
  let ts := rq_timestamp req in
  let local := ce_local_node_id ce in
  let other := negb (ent_owner_node e =? n) in
  match ent_state e with
  | INVALID => (f0, local, e, ce)
  | SHARED => let '(lat, e1, ce1) := invalidate_sharers ce e n ts in (lat, local, e1, ce1)
  | EXCLUSIVE =>
      if other then
        let '(lat, ce1) := calculate_coherency_msg_latency ce (ent_owner_node e) ts in
        (lat, local, e, bump 1 1 0 0 ce1)
      else (f0, local, e, ce)
  | MODIFIED =>
      if other then
        let '(lat, ce1) := calculate_coherency_msg_latency ce (ent_owner_node e) ts in
        (lat, ent_owner_node e, e, bump 1 0 0 1 ce1)
      else (f0, local, e, ce)
  | OWNED =>
      if other then
        let '(owner_lat, ce1) := calculate_coherency_msg_latency ce (ent_owner_node e) ts in
        let '(sharer_lat, e1, ce2) := invalidate_sharers ce1 e n ts in
        ((owner_lat + sharer_lat)%f64, ent_owner_node e1, e1, bump 0 0 0 1 ce2)
      else let '(lat, e1, ce1) := invalidate_sharers ce e n ts in (lat, local, e1, ce1)
  end.

(** The body of [process_write] up to [done:], on the locked entry. *)
Definition write_body (ce : CoherencyEngine) (e : DirectoryEntry) (req : CoherencyRequest) : Outcome :=
  let n := rq_requesting_node req in
  let ts := rq_timestamp req in
  let local := ce_local_node_id ce in
  let contention := calculate_contention_latency ce (rq_requesting_head req) ts in
  if (ent_owner_node e =? n) && (bool_decide (ent_state e = EXCLUSIVE) || bool_decide (ent_state e = MODIFIED)) then
    {| oc_latency := contention; oc_new_state := MODIFIED; oc_data_source := local;
       oc_entry := with_dirty true (with_state MODIFIED e); oc_engine := ce |}
  else if (ent_owner_node e =? n) && bool_decide (ent_state e = OWNED) then
    let '(lat, e1, ce1) := invalidate_sharers ce e n ts in
    {| oc_latency := lat; oc_new_state := MODIFIED; oc_data_source := local;
       oc_entry := with_dirty true (with_state MODIFIED e1); oc_engine := ce1 |}
  else
    let '(lat, src, e1, ce1) := write_switch ce e req in
    {| oc_latency := lat; oc_new_state := MODIFIED; oc_data_source := src;
       oc_entry := with_dirty true (with_sharers ∅ (with_state MODIFIED
                     (with_owner n (rq_requesting_head req) e1)));
       oc_engine := ce1 |}.

(** The code from [done:] on: contention, counters, response; the entry is
    written back to the directory. *)
Definition finish_op (o : Outcome) (req : CoherencyRequest) : CoherencyResponse * CoherencyEngine :=
  let ce := oc_engine o in
  let latency := (oc_latency o + calculate_contention_latency ce (rq_requesting_head req) (rq_timestamp req))%f64 in
  let c := ce_counters ce in
  let c' := {| ct_coherency_messages := ct_coherency_messages c; ct_invalidations := ct_invalidations c;
               ct_downgrades := ct_downgrades c; ct_writebacks := ct_writebacks c;
               ct_remote_ops := if negb (rq_requesting_node req =? ce_local_node_id ce)
                                then ct_remote_ops c +w 1 else ct_remote_ops c;
               ct_latency_ns := ct_latency_ns c +w f64_to_u64 latency;
               ct_ops := ct_ops c +w 1 |} in
  ({| rs_latency_ns := latency; rs_new_state := oc_new_state o; rs_success := true;
      rs_data_source_node := oc_data_source o |},
   store_entry
     {| ce_local_node_id := ce_local_node_id ce; ce_logp := ce_logp ce; ce_links := ce_links ce;
        ce_fabric_links := ce_fabric_links ce; ce_directory := ce_directory ce; ce_heads := ce_heads ce;
        ce_counters := c' |}
     (rq_addr req) (oc_entry o)).

Definition process_read (ce : CoherencyEngine) (req : CoherencyRequest) : CoherencyResponse * CoherencyEngine :=
  let e := touch (rq_timestamp req) false (get_or_create_entry ce (rq_addr req)) in
  finish_op (read_body ce e req) req.

Definition process_write (ce : CoherencyEngine) (req : CoherencyRequest) : CoherencyResponse * CoherencyEngine :=
  let e := touch (rq_timestamp req) true (get_or_create_entry ce (rq_addr req)) in
  finish_op (write_body ce e req) req.

Definition process_atomic (ce : CoherencyEngine) (req : CoherencyRequest) : CoherencyResponse * CoherencyEngine :=
  let '(resp, ce') := process_write ce req in
  match ce_logp ce' with
  | Some m =>
      let atomic_overhead := (lc_o_s (lm_config m) + lc_o_r (lm_config m))%f64 in
      ({| rs_latency_ns := (rs_latency_ns resp + atomic_overhead)%f64; rs_new_state := rs_new_state resp;
          rs_success := rs_success resp; rs_data_source_node := rs_data_source_node resp |}, ce')
  | None => (resp, ce')
  end.

Definition send_remote_invalidate (ce : CoherencyEngine) (target addr ts : Z) : f64 * CoherencyEngine :=
  calculate_coherency_msg_latency ce target ts.

Definition send_remote_downgrade (ce : CoherencyEngine) (target addr ts : Z) : f64 * CoherencyEngine :=
  calculate_coherency_msg_latency ce target ts.

End engine.

(** ** Remote message handlers *)

Definition handle_remote_invalidate (ce : CoherencyEngine) (addr from_node : Z) : CoherencyEngine :=
  match ce_directory ce !! cl_align addr with
  | None => ce
  | Some e =>
      let local := ce_local_node_id ce in
      let e1 := with_sharers (ent_sharer_nodes e ∖ {[local]}) e in
      if ent_owner_node e =? local then
        let was_modified := bool_decide (ent_state e = MODIFIED) in
        let e2 := with_state INVALID (with_owner UINT32_MAX UINT32_MAX
                    (if was_modified then with_dirty true e1 else e1)) in
        bump 0 1 0 (if was_modified then 1 else 0) (store_entry ce addr e2)
      else bump 0 1 0 0 (store_entry ce addr e1)
  end.

Definition handle_remote_downgrade (ce : CoherencyEngine) (addr from_node : Z) : CoherencyEngine :=
  match ce_directory ce !! cl_align addr with
  | None => ce
  | Some e =>
      let local := ce_local_node_id ce in
      let e1 :=
        if ent_owner_node e =? local then
          match ent_state e with
          | MODIFIED => with_state OWNED e
          | EXCLUSIVE => with_sharers ({[local]} ∪ ent_sharer_nodes e) (with_state SHARED e)
          | _ => e
          end
        else e in
      bump 0 0 1 0 (store_entry ce addr e1)
  end.

Definition handle_remote_writeback (ce : CoherencyEngine) (addr from_node : Z) : CoherencyEngine :=
  match ce_directory ce !! cl_align addr with
  | None => ce
  | Some e =>
      let e1 :=
        if ent_owner_node e =? from_node then
          with_sharers (ent_sharer_nodes e ∖ {[from_node]})
            (with_state INVALID (with_owner UINT32_MAX UINT32_MAX (with_dirty false e)))
        else e in
      bump 0 0 0 1 (store_entry ce addr e1)
  end.

(** ** Head management, links, statistics *)

Definition activate_head (ce : CoherencyEngine) (head_id capacity : Z) : CoherencyEngine :=
  match ce_heads ce !! Z.to_nat head_id with
  | None => ce
  | Some h =>
      let h' := {| hs_head_id := hs_head_id h; hs_allocated_capacity := capacity; hs_used_capacity := 0;
                   hs_bandwidth_share := hs_bandwidth_share h; hs_total_reads := hs_total_reads h;
                   hs_total_writes := hs_total_writes h; hs_coherency_stalls := hs_coherency_stalls h;
                   hs_back_invalidations := hs_back_invalidations h; hs_active := true |} in
      let heads := <[Z.to_nat head_id := h']> (ce_heads ce) in
      let active_count := u32 (Z.of_nat (length (keep hs_active heads))) in
      with_heads ((λ x, if hs_active x then set_head_share (f1 / f64_of_Z active_count)%f64 x else x) <$> heads) ce
  end.

Definition deactivate_head (ce : CoherencyEngine) (head_id : Z) : CoherencyEngine :=
  match ce_heads ce !! Z.to_nat head_id with
  | None => ce
  | Some h =>
      let h' := {| hs_head_id := hs_head_id h; hs_allocated_capacity := hs_allocated_capacity h;
                   hs_used_capacity := hs_used_capacity h; hs_bandwidth_share := f0;
                   hs_total_reads := hs_total_reads h; hs_total_writes := hs_total_writes h;
                   hs_coherency_stalls := hs_coherency_stalls h;
                   hs_back_invalidations := hs_back_invalidations h; hs_active := false |} in
      with_heads (<[Z.to_nat head_id := h']> (ce_heads ce)) ce
  end.

Definition register_fabric_link (ce : CoherencyEngine) (node_id : Z) (link : option Z) : CoherencyEngine :=
  {| ce_local_node_id := ce_local_node_id ce; ce_logp := ce_logp ce; ce_links := ce_links ce;
     ce_fabric_links := <[node_id := link]> (ce_fabric_links ce); ce_directory := ce_directory ce;
     ce_heads := ce_heads ce; ce_counters := ce_counters ce |}.

Definition get_stats (ce : CoherencyEngine) : Stats :=
  let c := ce_counters ce in
  {| st_coherency_messages := ct_coherency_messages c; st_invalidations := ct_invalidations c;
     st_downgrades := ct_downgrades c; st_writebacks := ct_writebacks c; st_remote_ops := ct_remote_ops c;
     st_avg_coherency_latency := if 0 <? ct_ops c then (f64_of_Z (ct_latency_ns c) / f64_of_Z (ct_ops c))%f64
                                 else f0 |}.

(** ** Abstract lines

    Who may read the line from its own copy, and who may write it. *)

Definition readers (e : DirectoryEntry) : gset Z :=
  ent_sharer_nodes e ∪ (if owner_may_hit (ent_state e) then {[ent_owner_node e]} else ∅).

Definition writer (e : DirectoryEntry) : option Z :=
  match ent_state e with EXCLUSIVE | MODIFIED => Some (ent_owner_node e) | _ => None end.

(** The line an address is in; a line not in the directory is invalid. *)
Definition line (ce : CoherencyEngine) (addr : Z) : DirectoryEntry := get_or_create_entry ce addr.

(** ** Invariants *)

Record entry_ok (e : DirectoryEntry) : Prop := {
  eo_exclusive : writer e ≠ None → ent_sharer_nodes e = ∅;
  eo_owner : owner_may_hit (ent_state e) = true → ent_owner_node e ≠ UINT32_MAX;
  eo_owned : ent_state e = OWNED → ent_owner_node e ∉ ent_sharer_nodes e;
  eo_dirty : ent_state e = MODIFIED ∨ ent_state e = OWNED → ent_has_dirty_data e = true
}.

Definition counters_ok (c : Counters) : Prop :=
  is_u64 (ct_coherency_messages c) ∧ is_u64 (ct_invalidations c) ∧
  is_u64 (ct_downgrades c) ∧ is_u64 (ct_writebacks c).

Record engine_inv (ce : CoherencyEngine) : Prop := {
  ci_entries : ∀ k e, ce_directory ce !! k = Some e → entry_ok e ∧ ent_cacheline_addr e = k ∧ k mod 64 = 0;
  ci_heads : ∀ h, h ∈ ce_heads ce → hs_total_reads h = 0 ∧ hs_total_writes h = 0;
  ci_counters : counters_ok (ce_counters ce)
}.

(** The parts of the engine that no timing computation touches. *)
Definition same_core (ce ce' : CoherencyEngine) : Prop :=
  ce_local_node_id ce' = ce_local_node_id ce ∧ ce_fabric_links ce' = ce_fabric_links ce ∧
  ce_directory ce' = ce_directory ce ∧ ce_heads ce' = ce_heads ce.

#[global] Instance same_core_preorder : PreOrder same_core.
Proof. split; unfold same_core; [done|]. intros x y z. naive_solver congruence. Qed.

(** The counter increments between two engines. *)
Definition counts (m i d w : Z) (ce ce' : CoherencyEngine) : Prop :=
  ce_counters ce' = add_counts m i d w (ce_counters ce).

(** A request of a real node. *)
Definition req_ok (req : CoherencyRequest) : Prop :=
  is_u64 (rq_addr req) ∧ rq_requesting_node req ≠ UINT32_MAX.

(** ** Lemmas: timing leaves the core alone *)

Lemma bump_core m i d w ce : same_core ce (bump m i d w ce).
Proof. done. Qed.

Lemma add_counts_zero c :
  (∀ z, z ∈ [ct_coherency_messages c; ct_invalidations c; ct_downgrades c; ct_writebacks c] → is_u64 z) →
  add_counts 0 0 0 0 c = c.
Proof.
  intros Hr. destruct c. unfold add_counts. simpl in *. rewrite !Z.add_0_r, !u64_small by (apply Hr; set_solver). done.
Qed.

Lemma msg_latency_core `{CastUB} ce target ts lat ce' :
  calculate_coherency_msg_latency ce target ts = (lat, ce') →
  same_core ce ce' ∧ ce_counters ce' = ce_counters ce.
Proof.
  unfold calculate_coherency_msg_latency. repeat case_match; intros [= <- <-]; simplify_eq/=; done.
Qed.

Lemma add_counts_add m i d w m' i' d' w' c :
  add_counts m' i' d' w' (add_counts m i d w c) = add_counts (m + m') (i + i') (d + d') (w + w') c.
Proof.
  unfold add_counts. simpl. unfold u64. rewrite !Zplus_mod_idemp_l, !Z.add_assoc. done.
Qed.

Lemma invalidate_loop_core `{CastUB} ce targets ts mx gap lat ce' :
  invalidate_loop ce targets ts mx gap = (lat, ce') →
  same_core ce ce' ∧
  (targets ≠ [] → counts (Z.of_nat (length targets)) (Z.of_nat (length targets)) 0 0 ce ce') ∧
  (targets = [] → ce' = ce).
Proof.
  revert ce mx gap. induction targets as [|t rest IH]; intros ce mx gap; simpl; [by intros [= <- <-]|].
  destruct (calculate_coherency_msg_latency ce t ts) as [l ce1] eqn:E.
  apply msg_latency_core in E as [Hc1 Hct]. intros Hl. apply IH in Hl as (Hc2 & Hn & He).
  split; [by etrans; [exact Hc1|]|]. split; [|done]. intros _. unfold counts in *.
  destruct rest as [|t' rest].
  - rewrite (He eq_refl). simpl. by rewrite Hct.
  - rewrite (Hn ltac:(done)). simpl. rewrite Hct, add_counts_add. f_equal; lia.
Qed.

(** [invalidate_sharers] sends one message to every other sharer. *)
Lemma invalidate_sharers_spec `{CastUB} ce e n ts lat e' ce' :
  invalidate_sharers ce e n ts = (lat, e', ce') →
  e' = with_sharers ∅ e ∧ same_core ce ce' ∧
  let k := Z.of_nat (size (ent_sharer_nodes e ∖ {[n]})) in
  (0 < k → counts k k 0 0 ce ce') ∧ (k = 0 → ce' = ce).
Proof.
  unfold invalidate_sharers. destruct (invalidate_loop _ _ _ _ _) as [l ce1] eqn:E.
  intros [= <- <- <-]. apply invalidate_loop_core in E as (Hc & Hn & He).
  rewrite length_ascending in Hn. split_and!; try done.
  - intros Hk. apply Hn. intros Hnil. apply (f_equal length) in Hnil. rewrite length_ascending in Hnil. simpl in Hnil. lia.
  - intros Hk. apply He. apply length_zero_iff_nil. rewrite length_ascending. lia.
Qed.

(** The contention model never fires: no operation of the engine counts a head's accesses. *)
Lemma contention_zero ce head ts :
  (∀ h, h ∈ ce_heads ce → hs_total_reads h = 0 ∧ hs_total_writes h = 0) →
  calculate_contention_latency ce head ts = f0.
Proof.
  intros Hh. unfold calculate_contention_latency. case_match; [|done]. case_match; [done|].
  assert (keep contending (ce_heads ce) = []) as ->; [|done].
  apply elem_of_nil_inv. intros h. rewrite elem_of_keep. intros [Hc Hin].
  destruct (Hh h Hin) as [Hr Hw]. unfold contending in Hc. rewrite Hr, Hw in Hc. simpl in Hc.
  by rewrite andb_false_r in Hc.
Qed.

(** ** Lemmas: the state machines on one line *)

Lemma add_counts_ok m i d w c : counters_ok (add_counts m i d w c).
Proof. unfold counters_ok. simpl. auto with cxl. Qed.

Lemma add_counts_0 c : counters_ok c → add_counts 0 0 0 0 c = c.
Proof. intros (?&?&?&?). apply add_counts_zero. set_solver. Qed.

(** [invalidate_sharers] on an engine with sane counters, in one equation. *)
Lemma invalidate_sharers_counts `{CastUB} ce e n ts lat e' ce' :
  counters_ok (ce_counters ce) → invalidate_sharers ce e n ts = (lat, e', ce') →
  let k := Z.of_nat (size (ent_sharer_nodes e ∖ {[n]})) in
  e' = with_sharers ∅ e ∧ same_core ce ce' ∧ counts k k 0 0 ce ce'.
Proof.
  intros Hok (-> & Hc & Hk & H0)%invalidate_sharers_spec k. fold k in Hk, H0. split_and!; [done..|].
  destruct (decide (k = 0)) as [Hz|Hz]; [|apply Hk; lia].
  rewrite (H0 Hz), Hz. unfold counts. by rewrite add_counts_0.
Qed.

(** The conclusions of a read on its line: the requester becomes a reader, a
    foreign writer is demoted, nobody loses a read copy. *)
Definition read_result (n : Z) (e e' : DirectoryEntry) : Prop :=
  readers e' = readers e ∪ {[n]} ∧ writer e' = (if decide (writer e = Some n) then Some n else None).

(** Solves the clauses of [entry_ok] and [read_result] on explicit entries. *)
Ltac line_solve :=
  unfold read_result, readers, writer in *; simpl in *;
  repeat case_decide; simplify_eq/=; first [done|tauto|timeout 30 set_solver].

Lemma read_body_spec `{CastUB} ce e req :
  entry_ok e → rq_requesting_node req ≠ UINT32_MAX →
  let o := read_body ce e req in
  entry_ok (oc_entry o) ∧ same_core ce (oc_engine o) ∧
  ent_cacheline_addr (oc_entry o) = ent_cacheline_addr e ∧
  read_result (rq_requesting_node req) e (oc_entry o).
Proof.
  intros [Hex How Hod Hdi] Hn o. unfold o, read_body.
  generalize dependent (rq_requesting_node req). intros n Hn.
  destruct e as [a s ow oh sh v t d]. simpl in *.
  destruct (ow =? n) eqn:E1; btests; subst; simpl; destruct (bool_decide (n ∈ sh)) eqn:E2;
    [apply bool_decide_eq_true in E2|apply bool_decide_eq_false in E2| |].
  all: destruct s; simpl in *; try (pose proof (How eq_refl) as HowM).
  all: unfold downgrade_owner, fetch_from_owner; simpl; eqb_simpl; simpl.
  all: try (destruct (calculate_coherency_msg_latency _ _ _) as [l ce1] eqn:Em;
            apply msg_latency_core in Em as [Hc _]; simpl).
  all: split_and!; [split|..]; line_solve.
Qed.

(** The messages a write owes: one to every other reader of the line. *)
Definition others (n : Z) (e : DirectoryEntry) : Z := Z.of_nat (size (readers e ∖ {[n]})).

(** An owner in state O that is not the writer is told, but not counted. *)
Definition uncounted (n : Z) (e : DirectoryEntry) : Z :=
  if bool_decide (ent_state e = OWNED) && negb (ent_owner_node e =? n) then 1 else 0.

Lemma write_body_entry `{CastUB} ce e req :
  entry_ok e → rq_requesting_node req ≠ UINT32_MAX →
  let o := write_body ce e req in
  entry_ok (oc_entry o) ∧ ent_cacheline_addr (oc_entry o) = ent_cacheline_addr e ∧
  readers (oc_entry o) = {[rq_requesting_node req]} ∧ writer (oc_entry o) = Some (rq_requesting_node req).
Proof.
  intros [Hex How Hod Hdi] Hn o. unfold o, write_body, write_switch, invalidate_sharers.
  generalize dependent (rq_requesting_node req). intros n Hn.
  destruct e as [a s ow oh sh v t d]. simpl in *.
  destruct (ow =? n) eqn:E1; btests; subst; simpl; destruct s; simpl in *; eqb_simpl; simpl.
  all: repeat case_match; simplify_eq/=.
  all: split_and!; [split|..]; line_solve.
Qed.

Lemma write_body_core `{CastUB} ce e req : same_core ce (oc_engine (write_body ce e req)).
Proof.
  unfold write_body, write_switch.
  destruct (invalidate_sharers ce e _ _) as [[l0 e0] ce0] eqn:E0.
  apply invalidate_sharers_spec in E0 as (_ & Hc0 & _).
  destruct (calculate_coherency_msg_latency ce _ _) as [l1 ce1] eqn:E1.
  apply msg_latency_core in E1 as [Hc1 _].
  destruct (invalidate_sharers ce1 e _ _) as [[l2 e2] ce2] eqn:E2.
  apply invalidate_sharers_spec in E2 as (_ & Hc2 & _).
  repeat case_match; simplify_eq/=; try done; by etrans.
Qed.

(** The message counter after a write, on every state of the line. *)
Lemma write_body_messages `{CastUB} ce e req :
  counters_ok (ce_counters ce) → entry_ok e → (ent_state e = INVALID → ent_sharer_nodes e = ∅) →
  let n := rq_requesting_node req in
  ct_coherency_messages (ce_counters (oc_engine (write_body ce e req))) =
  ct_coherency_messages (ce_counters ce) +w (others n e - uncounted n e).
Proof.
  intros Hok [Hex How Hod Hdi] Hinv n. unfold write_body, write_switch.
  destruct (invalidate_sharers ce e _ _) as [[l0 e0] ce0] eqn:E0.
  apply invalidate_sharers_counts in E0 as (_ & _ & Hc0); [|done].
  destruct (calculate_coherency_msg_latency ce _ _) as [l1 ce1] eqn:E1.
  apply msg_latency_core in E1 as [_ Hc1].
  destruct (invalidate_sharers ce1 e _ _) as [[l2 e2] ce2] eqn:E2.
  apply invalidate_sharers_counts in E2 as (_ & _ & Hc2); [|by rewrite Hc1].
  unfold counts in *. rewrite Hc1 in Hc2. fold n in Hc0, Hc2 |- *.
  assert (ct_coherency_messages (ce_counters ce) +w 0 = ct_coherency_messages (ce_counters ce)) as Hz.
  { rewrite Z.add_0_r. apply u64_small, Hok. }
  unfold others, uncounted, readers. destruct e as [a s ow oh sh v t d]. simpl in *.
  destruct (ow =? n) eqn:En; btests; subst; destruct s; simpl in *; eqb_simpl; simpl;
    rewrite ?Hc0, ?Hc1, ?Hc2; simpl.
  all: rewrite ?(Hinv eq_refl), ?Z.sub_0_r; try (rewrite (Hex ltac:(done))).
  all: try (replace ((∅ ∪ ∅ : gset Z) ∖ {[n]}) with (∅ : gset Z) by set_solver; by rewrite size_empty).
  all: try (replace ((∅ ∪ {[n]} : gset Z) ∖ {[n]}) with (∅ : gset Z) by set_solver; by rewrite size_empty).
  all: try (replace ((∅ ∪ {[ow]} : gset Z) ∖ {[n]}) with ({[ow]} : gset Z) by set_solver; by rewrite size_singleton).
  all: try (replace ((sh ∪ ∅) ∖ {[n]}) with (sh ∖ {[n]}) by set_solver; done).
  all: try (replace ((sh ∪ {[n]}) ∖ {[n]}) with (sh ∖ {[n]}) by set_solver; done).
  replace ((sh ∪ {[ow]}) ∖ {[n]}) with ({[ow]} ∪ sh ∖ {[n]}) by set_solver.
  rewrite (size_union {[ow]} (sh ∖ {[n]})), size_singleton by (pose proof (Hod eq_refl); set_solver).
  rewrite Z.add_0_r, u64_idemp. do 2 f_equal. lia.
Qed.

(** ** Lemmas: every operation keeps the invariant *)

Lemma line_ok ce addr : engine_inv ce → entry_ok (line ce addr) .
Proof.
  intros [He _ _]. unfold line, get_or_create_entry.
  destruct (ce_directory ce !! cl_align addr) as [e|] eqn:E; simpl; [by destruct (He _ e E) as (?&?&?)|].
  split; simpl; unfold writer; simpl; naive_solver.
Qed.

Lemma line_addr ce addr : engine_inv ce → ent_cacheline_addr (line ce addr) = cl_align addr.
Proof.
  intros [He _ _]. unfold line, get_or_create_entry.
  destruct (ce_directory ce !! cl_align addr) as [e|] eqn:E; simpl; [by destruct (He _ e E) as (?&?&?)|done].
Qed.

Lemma touch_ok ts w e : entry_ok e → entry_ok (touch ts w e).
Proof. intros [????]. by split. Qed.

(** Storing a well-formed entry keeps the directory well-formed. *)
Lemma store_entry_inv ce ce' addr e :
  engine_inv ce → same_core ce ce' → counters_ok (ce_counters ce') → is_u64 addr →
  entry_ok e → ent_cacheline_addr e = cl_align addr → engine_inv (store_entry ce' addr e).
Proof.
  intros [He Hh Hc] (_ & _ & Hd & Hhs) Hc' Ha Heo Hea. split; simpl; [|by rewrite Hhs|done].
  intros k x. rewrite Hd. destruct (decide (cl_align addr = k)) as [<-|Hne].
  - rewrite lookup_insert_eq. intros [= <-]. split_and!; auto with cxl.
  - rewrite lookup_insert_ne by done. apply He.
Qed.

Lemma bump_inv m i d w ce : engine_inv ce → engine_inv (bump m i d w ce).
Proof. intros [???]. split; simpl; try done. apply add_counts_ok. Qed.

Lemma read_body_counters `{CastUB} ce e req :
  counters_ok (ce_counters ce) → counters_ok (ce_counters (oc_engine (read_body ce e req))).
Proof.
  intros Hok. unfold read_body, downgrade_owner, fetch_from_owner.
  destruct (calculate_coherency_msg_latency ce (ent_owner_node e) _) as [l ce1] eqn:E.
  apply msg_latency_core in E as [_ Hc].
  repeat (case_match; simplify_eq/=); try done; apply add_counts_ok.
Qed.

Lemma invalidate_sharers_ok `{CastUB} ce e n ts l e' ce' :
  counters_ok (ce_counters ce) → invalidate_sharers ce e n ts = (l, e', ce') → counters_ok (ce_counters ce').
Proof.
  intros Hok Hi. apply invalidate_sharers_counts in Hi as (_ & _ & Hc); [|done].
  rewrite Hc. apply add_counts_ok.
Qed.

Lemma write_body_counters `{CastUB} ce e req :
  counters_ok (ce_counters ce) → counters_ok (ce_counters (oc_engine (write_body ce e req))).
Proof.
  intros Hok. unfold write_body, write_switch.
  destruct (invalidate_sharers ce e _ _) as [[l0 e0] ce0] eqn:E0.
  apply invalidate_sharers_ok in E0; [|done].
  destruct (calculate_coherency_msg_latency ce _ _) as [l1 ce1] eqn:E1.
  apply msg_latency_core in E1 as [_ Hc1].
  repeat (case_match; simplify_eq/=); try done; apply add_counts_ok.
Qed.

(** [finish_op] stores the computed entry under the request's line. *)
Lemma finish_op_inv `{CastUB} ce o req :
  engine_inv ce → same_core ce (oc_engine o) → counters_ok (ce_counters (oc_engine o)) →
  is_u64 (rq_addr req) → entry_ok (oc_entry o) → ent_cacheline_addr (oc_entry o) = cl_align (rq_addr req) →
  engine_inv (finish_op o req).2.
Proof.
  intros Hi Hc Hct Ha Heo Hea. unfold finish_op. cbn [snd].
  by apply (store_entry_inv ce).
Qed.

Lemma finish_op_line `{CastUB} o req addr :
  is_u64 addr → is_u64 (rq_addr req) →
  line (finish_op o req).2 addr =
  if decide (cl_align addr = cl_align (rq_addr req)) then oc_entry o else line (oc_engine o) addr.
Proof.
  intros Ha Hr. unfold finish_op, line, get_or_create_entry, store_entry. simpl.
  case_decide as Hd; [by rewrite Hd, lookup_insert_eq|by rewrite lookup_insert_ne].
Qed.

Lemma same_core_line ce ce' addr : same_core ce ce' → line ce' addr = line ce addr.
Proof. intros (_ & _ & Hd & _). unfold line, get_or_create_entry. by rewrite Hd. Qed.

Lemma process_read_inv `{CastUB} ce req : engine_inv ce → req_ok req → engine_inv (process_read ce req).2.
Proof.
  intros Hi [Ha Hn]. unfold process_read.
  destruct (read_body_spec ce (touch (rq_timestamp req) false (line ce (rq_addr req))) req) as (H1 & H2 & H3 & _);
    [by apply touch_ok, line_ok|done|].
  apply (finish_op_inv ce); try done; [by apply read_body_counters, ci_counters|].
  etrans; [exact H3|]. by apply line_addr.
Qed.

Lemma process_write_inv `{CastUB} ce req : engine_inv ce → req_ok req → engine_inv (process_write ce req).2.
Proof.
  intros Hi [Ha Hn]. unfold process_write.
  destruct (write_body_entry ce (touch (rq_timestamp req) true (line ce (rq_addr req))) req) as (H1 & H3 & _);
    [by apply touch_ok, line_ok|done|].
  apply (finish_op_inv ce); try done; [apply write_body_core|by apply write_body_counters, ci_counters|].
  etrans; [exact H3|]. by apply line_addr.
Qed.

Lemma process_atomic_engine `{CastUB} ce req : (process_atomic ce req).2 = (process_write ce req).2.
Proof. unfold process_atomic. destruct (process_write ce req). by case_match. Qed.

(** The handlers replace the entry of a line that the directory holds. *)
Lemma handler_store_inv ce addr e e' m i d w :
  engine_inv ce → is_u64 addr → ce_directory ce !! cl_align addr = Some e →
  (entry_ok e → entry_ok e' ∧ ent_cacheline_addr e' = ent_cacheline_addr e) →
  engine_inv (bump m i d w (store_entry ce addr e')).
Proof.
  intros Hi Ha He Hok. destruct (ci_entries ce Hi _ _ He) as (Heo & Hea & _).
  destruct (Hok Heo) as [? ?]. apply bump_inv. apply (store_entry_inv ce); try done; [|congruence].
  apply (ci_counters ce Hi).
Qed.

Lemma handle_remote_invalidate_inv ce addr from :
  engine_inv ce → is_u64 addr → engine_inv (handle_remote_invalidate ce addr from).
Proof.
  intros Hi Ha. unfold handle_remote_invalidate. destruct (ce_directory ce !! _) as [e|] eqn:E; [|done].
  destruct (ent_owner_node e =? _) eqn:Eo; eapply handler_store_inv; try done;
    intros [Hex How Hod Hdi]; btests.
  - split; [|by case_match]. destruct (bool_decide _); split; line_solve.
  - split; [|done]. split; simpl; try done; [intros Hw; rewrite Hex by done; set_solver|].
    intros Hs. specialize (Hod Hs). set_solver.
Qed.

Lemma handle_remote_downgrade_inv ce addr from :
  ce_local_node_id ce ≠ UINT32_MAX →
  engine_inv ce → is_u64 addr → engine_inv (handle_remote_downgrade ce addr from).
Proof.
  intros Hl Hi Ha. unfold handle_remote_downgrade. destruct (ce_directory ce !! _) as [e|] eqn:E; [|done].
  eapply handler_store_inv; try done. intros [Hex How Hod Hdi].
  destruct (ent_owner_node e =? _) eqn:Eo; [|done]. btests. clear E.
  destruct e as [a s ow oh sh v t d]; simpl in *; subst.
  destruct s; simpl; (split; [split|done]); line_solve.
Qed.

Lemma handle_remote_writeback_inv ce addr from :
  engine_inv ce → is_u64 addr → engine_inv (handle_remote_writeback ce addr from).
Proof.
  intros Hi Ha. unfold handle_remote_writeback. destruct (ce_directory ce !! _) as [e|] eqn:E; [|done].
  eapply handler_store_inv; try done. intros Heo. destruct (ent_owner_node e =? _); [|done].
  split; [|done]. split; line_solve.
Qed.

Lemma heads_inv ce hs :
  engine_inv ce → (∀ h, h ∈ hs → hs_total_reads h = 0 ∧ hs_total_writes h = 0) → engine_inv (with_heads hs ce).
Proof. intros [???] Hh. by split. Qed.

Lemma activate_head_inv ce h c : engine_inv ce → engine_inv (activate_head ce h c).
Proof.
  intros Hi. unfold activate_head. destruct (ce_heads ce !! _) as [x|] eqn:E; [|done].
  apply heads_inv; [done|]. pose proof (ci_heads ce Hi) as Hh.
  intros y (z & -> & Hz)%list_elem_of_fmap.
  assert (hs_total_reads z = 0 ∧ hs_total_writes z = 0) as Hz0; [|by case_match].
  apply elem_of_insert_inv in Hz as [->|Hz]; [simpl|by apply Hh].
  apply Hh. by eapply list_elem_of_lookup_2.
Qed.

Lemma deactivate_head_inv ce h : engine_inv ce → engine_inv (deactivate_head ce h).
Proof.
  intros Hi. unfold deactivate_head. destruct (ce_heads ce !! _) as [x|] eqn:E; [|done].
  apply heads_inv; [done|]. pose proof (ci_heads ce Hi) as Hh.
  intros y [->|Hy]%elem_of_insert_inv; [simpl|by apply Hh].
  apply Hh. by eapply list_elem_of_lookup_2.
Qed.

Lemma CoherencyEngine_new_inv local logp heads : engine_inv (CoherencyEngine_new local logp heads).
Proof.
  split; simpl; [done| |by repeat split].
  intros h (i & -> & _)%list_elem_of_fmap. done.
Qed.

(** The events an engine sees.  [step_env] is any use of the shared LogP model
    and links by other components. *)
Inductive engine_step `{CastUB} : CoherencyEngine → CoherencyEngine → Prop :=
| step_read ce req : req_ok req → engine_step ce (process_read ce req).2
| step_write ce req : req_ok req → engine_step ce (process_write ce req).2
| step_atomic ce req : req_ok req → engine_step ce (process_atomic ce req).2
| step_invalidate ce addr from : is_u64 addr → engine_step ce (handle_remote_invalidate ce addr from)
| step_downgrade ce addr from : is_u64 addr → engine_step ce (handle_remote_downgrade ce addr from)
| step_writeback ce addr from : is_u64 addr → engine_step ce (handle_remote_writeback ce addr from)
| step_activate ce h c : engine_step ce (activate_head ce h c)
| step_deactivate ce h : engine_step ce (deactivate_head ce h)
| step_link ce n l : engine_step ce (register_fabric_link ce n l)
| step_env ce logp links : engine_step ce (with_env logp links ce).

Lemma finish_op_local `{CastUB} o req :
  ce_local_node_id (finish_op o req).2 = ce_local_node_id (oc_engine o).
Proof. done. Qed.

Lemma read_body_core `{CastUB} ce e req : same_core ce (oc_engine (read_body ce e req)).
Proof.
  unfold read_body, downgrade_owner, fetch_from_owner.
  destruct (calculate_coherency_msg_latency ce (ent_owner_node e) _) as [l ce1] eqn:E.
  apply msg_latency_core in E as [Hc _]. repeat (case_match; simplify_eq/=); done.
Qed.

Lemma engine_step_local `{CastUB} ce ce' : engine_step ce ce' → ce_local_node_id ce' = ce_local_node_id ce.
Proof.
  destruct 1; rewrite ?process_atomic_engine; try done.
  1: apply (read_body_core ce). 1-2: apply (write_body_core ce).
  - unfold handle_remote_invalidate. by repeat case_match.
  - unfold handle_remote_downgrade. by repeat case_match.
  - unfold handle_remote_writeback. by repeat case_match.
  - unfold activate_head. by repeat case_match.
  - unfold deactivate_head. by repeat case_match.
Qed.

Lemma engine_step_inv `{CastUB} ce ce' :
  ce_local_node_id ce ≠ UINT32_MAX → engine_inv ce → engine_step ce ce' → engine_inv ce'.
Proof.
  intros Hl Hi Hs. destruct Hs; rewrite ?process_atomic_engine;
    eauto using process_read_inv, process_write_inv, handle_remote_invalidate_inv,
      handle_remote_downgrade_inv, handle_remote_writeback_inv, activate_head_inv, deactivate_head_inv.
  all: destruct Hi; by split.
Qed.

Lemma engine_reachable `{CastUB} local logp heads ce :
  local ≠ UINT32_MAX → rtc engine_step (CoherencyEngine_new local logp heads) ce → engine_inv ce.
Proof.
  intros Hl Hr. remember (CoherencyEngine_new local logp heads) as ce0 eqn:H0.
  assert (ce_local_node_id ce0 ≠ UINT32_MAX ∧ engine_inv ce0) as [Hl0 Hi0].
  { subst. split; [done|apply CoherencyEngine_new_inv]. }
  clear H0. induction Hr as [|x y z Hxy Hyz IH]; [done|].
  apply IH; [by rewrite (engine_step_local _ _ Hxy)|by eapply engine_step_inv].
Qed.

(** ** Examples *)

#[local] Instance ex_cast : CastUB := λ _, 0.

Definition ex_req (n addr ts : Z) : CoherencyRequest :=
  {| rq_addr := addr; rq_requesting_node := n; rq_requesting_head := 0; rq_is_write := false; rq_timestamp := ts |}.

Definition ex_engine0 : CoherencyEngine := CoherencyEngine_new 0 (Some (LogPModel_new LogPConfig_default)) 4.

(** Node 1 writes a line, node 2 reads it, node 3 reads it. *)
Definition ex_engine : CoherencyEngine :=
  (process_read (process_read (process_write ex_engine0 (ex_req 1 4100 10)).2 (ex_req 2 4096 20)).2
     (ex_req 3 4159 30)).2.

Lemma ex_engine_reach : rtc engine_step ex_engine0 ex_engine.
Proof.
  eapply rtc_l; [by apply (step_write _ (ex_req 1 4100 10))|].
  eapply rtc_l; [by apply (step_read _ (ex_req 2 4096 20))|].
  eapply rtc_l; [by apply (step_read _ (ex_req 3 4159 30))|]. apply rtc_refl.
Qed.

Lemma ex_engine_inv : engine_inv ex_engine.
Proof. by apply (engine_reachable 0 (Some (LogPModel_new LogPConfig_default)) 4), ex_engine_reach. Qed.

(** ** Theorems *)

(** C10. Single writer or many readers: in every reachable state of the engine,
    under any interleaving of reads, writes, atomics, remote messages and head
    changes, a line with a writer has that writer as its only reader, an owner
    recorded in state E, M or O is a real node, and a line in state M or O is
    marked dirty. *)
Theorem single_writer `{CastUB} local logp heads ce addr :
  local ≠ UINT32_MAX → rtc engine_step (CoherencyEngine_new local logp heads) ce →
  let e := line ce addr in
  (∀ w, writer e = Some w → readers e = {[w]} ∧ w ≠ UINT32_MAX) ∧
  (ent_state e = OWNED → ent_owner_node e ≠ UINT32_MAX ∧ ent_owner_node e ∉ ent_sharer_nodes e) ∧
  (ent_state e = MODIFIED ∨ ent_state e = OWNED → ent_has_dirty_data e = true).
Proof.
  intros Hl Hr e. destruct (line_ok ce addr (engine_reachable _ _ _ _ Hl Hr)) as [Hex How Hod Hdi].
  fold e in Hex, How, Hod, Hdi. unfold writer, readers in *.
  split_and!; [|intros Hs; split; [apply How; by rewrite Hs|by apply Hod]|done].
  destruct (ent_state e); simpl in *; try done; intros w [= <-]; rewrite Hex by done; split; auto; set_solver.
Qed.

(** C11. A read refines its abstract counterpart: it always succeeds, the
    requester becomes a reader, a writer other than the requester is demoted
    but stays a reader, every reader keeps its copy, and no other line changes. *)
Theorem read_refines `{CastUB} ce req r ce' :
  engine_inv ce → req_ok req → process_read ce req = (r, ce') →
  let n := rq_requesting_node req in
  let e := line ce (rq_addr req) in
  let e' := line ce' (rq_addr req) in
  rs_success r = true ∧
  readers e' = readers e ∪ {[n]} ∧
  writer e' = (if decide (writer e = Some n) then Some n else None) ∧
  ∀ addr, is_u64 addr → cl_align addr ≠ cl_align (rq_addr req) → line ce' addr = line ce addr.
Proof.
  intros Hi [Ha Hn] Hr n e e'.
  assert (ce' = (process_read ce req).2 ∧ r = (process_read ce req).1) as [-> ->] by by rewrite Hr.
  destruct (read_body_spec ce (touch (rq_timestamp req) false e) req) as (_ & Hc & _ & Hrd & Hwr);
    [by apply touch_ok, line_ok|done|].
  split; [done|]. unfold e', process_read. rewrite finish_op_line, decide_True by done.
  split_and!; [exact Hrd|exact Hwr|].
  intros addr Hau Hne. rewrite finish_op_line, decide_False by done. by apply same_core_line, read_body_core.
Qed.

(** C12. A write refines its abstract counterpart: it always succeeds, the
    requester becomes the only reader and the writer of the line, and no
    other line changes. *)
Theorem write_refines `{CastUB} ce req r ce' :
  engine_inv ce → req_ok req → process_write ce req = (r, ce') →
  let n := rq_requesting_node req in
  rs_success r = true ∧ rs_new_state r = MODIFIED ∧
  readers (line ce' (rq_addr req)) = {[n]} ∧ writer (line ce' (rq_addr req)) = Some n ∧
  ∀ addr, is_u64 addr → cl_align addr ≠ cl_align (rq_addr req) → line ce' addr = line ce addr.
Proof.
  intros Hi [Ha Hn] Hr n. set (e := line ce (rq_addr req)).
  assert (ce' = (process_write ce req).2 ∧ r = (process_write ce req).1) as [-> ->] by by rewrite Hr.
  destruct (write_body_entry ce (touch (rq_timestamp req) true e) req) as (_ & _ & Hrd & Hwr);
    [by apply touch_ok, line_ok|done|].
  split; [done|]. split; [simpl; unfold write_body; by repeat case_match|].
  unfold process_write. rewrite finish_op_line, decide_True by done.
  split_and!; [exact Hrd|exact Hwr|].
  intros addr Hau Hne. rewrite finish_op_line, decide_False by done. by apply same_core_line, write_body_core.
Qed.

(** A write on a line whose invalid state has no leftover sharers counts one
    coherency message for every other reader of the line, except that the
    owner of a line in state O is notified without being counted. *)
Theorem write_messages `{CastUB} ce req :
  engine_inv ce →
  let n := rq_requesting_node req in
  let e := line ce (rq_addr req) in
  (ent_state e = INVALID → ent_sharer_nodes e = ∅) →
  ct_coherency_messages (ce_counters (process_write ce req).2) =
  ct_coherency_messages (ce_counters ce) +w (others n e - uncounted n e).
Proof.
  intros Hi n e Hinv.
  exact (write_body_messages ce (touch (rq_timestamp req) true e) req (ci_counters ce Hi)
    (touch_ok _ _ _ (line_ok ce (rq_addr req) Hi)) Hinv).
Qed.

(** The contention term of the engine is always zero: no operation counts
    accesses per head, so [calculate_contention_latency] never sees a
    contending head in a reachable state. *)
Theorem contention_never_fires `{CastUB} local logp heads ce head ts :
  local ≠ UINT32_MAX → rtc engine_step (CoherencyEngine_new local logp heads) ce →
  calculate_contention_latency ce head ts = f0.
Proof. intros Hl Hr. by eapply contention_zero, ci_heads, engine_reachable. Qed.

(** A write after a writeback sends no invalidation to the remaining
    sharers: once the owner of a shared line writes back, the line is invalid
    but node 2 still hits as a sharer, and the write of node 3 takes the line
    without sending a single message. *)
Theorem writeback_loses_sharer :
  let ce1 := (process_read (process_read ex_engine0 (ex_req 1 4096 10)).2 (ex_req 2 4096 20)).2 in
  let ce2 := handle_remote_writeback ce1 4096 1 in
  let ce3 := (process_write ce2 (ex_req 3 4096 30)).2 in
  ent_state (line ce2 4096) = INVALID ∧ readers (line ce2 4096) = {[2]} ∧
  readers (line ce3 4096) = {[3]} ∧
  ct_coherency_messages (ce_counters ce3) = 0 ∧ ct_invalidations (ce_counters ce3) = 0.
Proof. vm_compute. repeat split; apply leibniz_equiv; set_solver. Qed.

(** ** Witnesses *)

Lemma single_writer_witness :
  (ent_state (line ex_engine 4096) = OWNED →
   ent_owner_node (line ex_engine 4096) ≠ UINT32_MAX ∧
   ent_owner_node (line ex_engine 4096) ∉ ent_sharer_nodes (line ex_engine 4096)) ∧
  ent_state (line ex_engine 4096) = OWNED.
Proof.
  split; [|vm_compute; reflexivity].
  apply (single_writer 0 (Some (LogPModel_new LogPConfig_default)) 4 ex_engine 4096); [done|exact ex_engine_reach].
Defined.

Lemma read_refines_witness :
  readers (line (process_read ex_engine (ex_req 5 4096 40)).2 4096) = readers (line ex_engine 4096) ∪ {[5]}.
Proof.
  apply (read_refines ex_engine (ex_req 5 4096 40) (process_read ex_engine (ex_req 5 4096 40)).1
    (process_read ex_engine (ex_req 5 4096 40)).2 ex_engine_inv); [done|apply surjective_pairing].
Defined.

Lemma write_refines_witness :
  readers (line (process_write ex_engine (ex_req 2 4096 40)).2 4096) = {[2]}.
Proof.
  apply (write_refines ex_engine (ex_req 2 4096 40) (process_write ex_engine (ex_req 2 4096 40)).1
    (process_write ex_engine (ex_req 2 4096 40)).2 ex_engine_inv); [done|apply surjective_pairing].
Defined.

Lemma write_messages_witness :
  ct_coherency_messages (ce_counters (process_write ex_engine (ex_req 2 4096 40)).2) =
  ct_coherency_messages (ce_counters ex_engine) +w
    (others 2 (line ex_engine 4096) - uncounted 2 (line ex_engine 4096)).
Proof. apply (write_messages ex_engine (ex_req 2 4096 40) ex_engine_inv). by vm_compute. Defined.

Lemma contention_never_fires_witness : calculate_contention_latency ex_engine 0 50 = f0.
Proof.
  apply (contention_never_fires 0 (Some (LogPModel_new LogPConfig_default)) 4); [done|exact ex_engine_reach].
Defined.
