(* ===== verification/Mhsld.v ===== *)
(** * Multi-headed single logical device

    Models [MHSLDDevice] of include/cxlendpoint.h and src/cxlendpoint.cpp: a
    device shared by up to sixteen hosts (heads), with a MOESI directory over
    the heads, capacity pools per head, bandwidth shares and LogP latencies.

    An access holds the lock of its line, and the entry it works on is the one
    that [invalidate_sharers] finds again by address; the model stores the
    entry in the directory before the call and reloads it afterwards.
    [deactivate_head] and [release_pool] are taken as one step each, and so is
    [downgrade_owner], which takes no lock and which nothing calls: the reads and
    writes downgrade an owner themselves, under the lock of the line. *)

From S2P Require Import Prelude Float64 Fabric CacheState.

Definition MAX_HEADS : nat := 16.

(** ** Data *)

Record MHSLDCachelineInfo := {
  mi_address : Z;
  mi_sharers : gset Z;
  mi_owner_head : Z;
  mi_owner_state : MHSLDCacheState;
  mi_version : Z;
  mi_last_access_time : Z;
  mi_access_count : Z;
  mi_has_dirty_data : bool
}.

Record MHSLDDevice := {
  md_total_capacity : Z;
  md_num_heads : Z;
  md_base_read_latency : f64;
  md_base_write_latency : f64;
  md_max_bandwidth : f64;
  md_heads : list MHSLDHeadState;
  md_directory : gmap Z MHSLDCachelineInfo;
  md_logp_model : LogPModel;
  md_coherency_messages : Z;
  md_invalidations : Z;
  md_downgrades : Z;
  md_writebacks : Z
}.

Record MHSLDStats := {
  ms_coherency_messages : Z;
  ms_invalidations : Z;
  ms_downgrades : Z;
  ms_writebacks : Z;
  ms_avg_read_latency : f64;
  ms_avg_write_latency : f64;
  ms_pool_utilization : f64
}.

(** *** Field updates *)

Definition with_heads (hs : list MHSLDHeadState) (d : MHSLDDevice) : MHSLDDevice :=
  {| md_total_capacity := md_total_capacity d; md_num_heads := md_num_heads d;
     md_base_read_latency := md_base_read_latency d; md_base_write_latency := md_base_write_latency d;
     md_max_bandwidth := md_max_bandwidth d; md_heads := hs; md_directory := md_directory d;
     md_logp_model := md_logp_model d; md_coherency_messages := md_coherency_messages d;
     md_invalidations := md_invalidations d; md_downgrades := md_downgrades d;
     md_writebacks := md_writebacks d |}.

Definition with_directory (m : gmap Z MHSLDCachelineInfo) (d : MHSLDDevice) : MHSLDDevice :=
  {| md_total_capacity := md_total_capacity d; md_num_heads := md_num_heads d;
     md_base_read_latency := md_base_read_latency d; md_base_write_latency := md_base_write_latency d;
     md_max_bandwidth := md_max_bandwidth d; md_heads := md_heads d; md_directory := m;
     md_logp_model := md_logp_model d; md_coherency_messages := md_coherency_messages d;
     md_invalidations := md_invalidations d; md_downgrades := md_downgrades d;
     md_writebacks := md_writebacks d |}.

Definition with_logp (l : LogPModel) (d : MHSLDDevice) : MHSLDDevice :=
  {| md_total_capacity := md_total_capacity d; md_num_heads := md_num_heads d;
     md_base_read_latency := md_base_read_latency d; md_base_write_latency := md_base_write_latency d;
     md_max_bandwidth := md_max_bandwidth d; md_heads := md_heads d; md_directory := md_directory d;
     md_logp_model := l; md_coherency_messages := md_coherency_messages d;
     md_invalidations := md_invalidations d; md_downgrades := md_downgrades d;
     md_writebacks := md_writebacks d |}.

(** Adds to messages, invalidations, downgrades and writebacks. *)
Definition count (m i g w : Z) (d : MHSLDDevice) : MHSLDDevice :=
  {| md_total_capacity := md_total_capacity d; md_num_heads := md_num_heads d;
     md_base_read_latency := md_base_read_latency d; md_base_write_latency := md_base_write_latency d;
     md_max_bandwidth := md_max_bandwidth d; md_heads := md_heads d; md_directory := md_directory d;
     md_logp_model := md_logp_model d; md_coherency_messages := md_coherency_messages d +w m;
     md_invalidations := md_invalidations d +w i; md_downgrades := md_downgrades d +w g;
     md_writebacks := md_writebacks d +w w |}.

Definition upd_head (h : Z) (f : MHSLDHeadState → MHSLDHeadState) (d : MHSLDDevice) : MHSLDDevice :=
  with_heads (alter f (Z.to_nat h) (md_heads d)) d.

Definition head_counts (r w s b : Z) (h : MHSLDHeadState) : MHSLDHeadState :=
  {| hs_head_id := hs_head_id h; hs_allocated_capacity := hs_allocated_capacity h;
     hs_used_capacity := hs_used_capacity h; hs_bandwidth_share := hs_bandwidth_share h;
     hs_total_reads := hs_total_reads h +w r; hs_total_writes := hs_total_writes h +w w;
     hs_coherency_stalls := hs_coherency_stalls h +w s;
     hs_back_invalidations := hs_back_invalidations h +w b; hs_active := hs_active h |}.

Definition set_head_active (a : bool) (h : MHSLDHeadState) : MHSLDHeadState :=
  {| hs_head_id := hs_head_id h; hs_allocated_capacity := hs_allocated_capacity h;
     hs_used_capacity := hs_used_capacity h; hs_bandwidth_share := hs_bandwidth_share h;
     hs_total_reads := hs_total_reads h; hs_total_writes := hs_total_writes h;
     hs_coherency_stalls := hs_coherency_stalls h; hs_back_invalidations := hs_back_invalidations h;
     hs_active := a |}.

Definition set_head_pool (alloc used : Z) (h : MHSLDHeadState) : MHSLDHeadState :=
  {| hs_head_id := hs_head_id h; hs_allocated_capacity := alloc;
     hs_used_capacity := used; hs_bandwidth_share := hs_bandwidth_share h;
     hs_total_reads := hs_total_reads h; hs_total_writes := hs_total_writes h;
     hs_coherency_stalls := hs_coherency_stalls h; hs_back_invalidations := hs_back_invalidations h;
     hs_active := hs_active h |}.

Definition with_line (sh : gset Z) (ow : Z) (st : MHSLDCacheState) (dirty : bool) (e : MHSLDCachelineInfo)
    : MHSLDCachelineInfo :=
  {| mi_address := mi_address e; mi_sharers := sh; mi_owner_head := ow; mi_owner_state := st;
     mi_version := mi_version e; mi_last_access_time := mi_last_access_time e;
     mi_access_count := mi_access_count e; mi_has_dirty_data := dirty |}.

(** [access_count++], [last_access_time = ts] and, for writes, [version++]. *)
Definition touch (ts : Z) (is_write : bool) (e : MHSLDCachelineInfo) : MHSLDCachelineInfo :=
  {| mi_address := mi_address e; mi_sharers := mi_sharers e; mi_owner_head := mi_owner_head e;
     mi_owner_state := mi_owner_state e;
     mi_version := if is_write then u32 (mi_version e + 1) else mi_version e;
     mi_last_access_time := ts; mi_access_count := mi_access_count e +w 1;
     mi_has_dirty_data := mi_has_dirty_data e |}.

(** ** Construction, heads and bandwidth *)

Definition MHSLDDevice_new (capacity num_heads : Z) (read_lat write_lat bandwidth : f64) (cfg : LogPConfig)
    : MHSLDDevice :=
  {| md_total_capacity := capacity; md_num_heads := num_heads; md_base_read_latency := read_lat;
     md_base_write_latency := write_lat; md_max_bandwidth := bandwidth;
     md_heads := idle_head <$> seq 0 MAX_HEADS; md_directory := ∅; md_logp_model := LogPModel_new cfg;
     md_coherency_messages := 0; md_invalidations := 0; md_downgrades := 0; md_writebacks := 0 |}.

(** [head_id < MAX_HEADS && heads[head_id].active]. *)
Definition head_active (d : MHSLDDevice) (h : Z) : bool :=
  match md_heads d !! Z.to_nat h with Some x => hs_active x | None => false end.

Definition rebalance_bandwidth (d : MHSLDDevice) : MHSLDDevice :=
  let active := keep hs_active (md_heads d) in
  let active_count := Z.of_nat (length active) in
  if active_count =? 0 then d
  else
    let total_alloc := foldl (λ acc h, acc +w hs_allocated_capacity h) 0 active in
    let share h :=
      if hs_active h && (0 <? total_alloc)
      then (f64_of_Z (hs_allocated_capacity h) / f64_of_Z total_alloc)%f64
      else if hs_active h then (f1 / f64_of_Z active_count)%f64 else f0 in
    with_heads ((λ h, set_head_share (share h) h) <$> md_heads d) d.

Definition activate_head (d : MHSLDDevice) (head_id capacity_alloc : Z) : bool * MHSLDDevice :=
  if Z.of_nat MAX_HEADS <=? head_id then (false, d)
  else (true, rebalance_bandwidth
                (upd_head head_id (λ h, set_head_pool capacity_alloc 0 (set_head_active true h)) d)).

Definition drop_head (head_id : Z) (e : MHSLDCachelineInfo) : MHSLDCachelineInfo :=
  if mi_owner_head e =? head_id
  then with_line (mi_sharers e ∖ {[head_id]}) UINT32_MAX INVALID
         (bool_decide (mi_owner_state e = MODIFIED) || mi_has_dirty_data e) e
  else with_line (mi_sharers e ∖ {[head_id]}) (mi_owner_head e) (mi_owner_state e) (mi_has_dirty_data e) e.

Definition deactivate_head (d : MHSLDDevice) (head_id : Z) : MHSLDDevice :=
  if Z.of_nat MAX_HEADS <=? head_id then d
  else
    let d1 := upd_head head_id (λ h, set_head_share f0 (set_head_active false h)) d in
    rebalance_bandwidth (with_directory (drop_head head_id <$> md_directory d1) d1).

Definition get_pool_utilization (d : MHSLDDevice) : f64 :=
  let total_used := foldl (λ acc h, acc +w hs_used_capacity h) 0 (keep hs_active (md_heads d)) in
  if 0 <? md_total_capacity d then (f64_of_Z total_used / f64_of_Z (md_total_capacity d))%f64 else f0.

Definition calculate_fair_share_bandwidth (d : MHSLDDevice) (head_id : Z) : f64 :=
  match md_heads d !! Z.to_nat head_id with
  | Some h => if hs_active h then (md_max_bandwidth d * hs_bandwidth_share h)%f64 else f0
  | None => f0
  end.

Definition calculate_contention_latency (d : MHSLDDevice) (head_id timestamp : Z) : f64 :=
  match md_heads d !! Z.to_nat head_id with
  | None => f0
  | Some h =>
      if negb (hs_active h) then f0
      else
        let contending_heads := Z.of_nat (length (keep contending (md_heads d))) in
        if contending_heads <=? 1 then f0
        else
          let fair_share := if fle (hs_bandwidth_share h) f0 then (f1 / f64_of_Z contending_heads)%f64
                            else hs_bandwidth_share h in
          let additional := (md_base_read_latency d * (f1 / fair_share - f1) * flit 3 10)%f64 in
          fmin additional (md_base_read_latency d * f64_of_Z 5)%f64
  end.

Definition get_stats (d : MHSLDDevice) : MHSLDStats :=
  {| ms_coherency_messages := md_coherency_messages d; ms_invalidations := md_invalidations d;
     ms_downgrades := md_downgrades d; ms_writebacks := md_writebacks d;
     ms_avg_read_latency := md_base_read_latency d; ms_avg_write_latency := md_base_write_latency d;
     ms_pool_utilization := get_pool_utilization d |}.

(** ** Directory *)

Definition fresh_info (cl_addr : Z) : MHSLDCachelineInfo :=
  {| mi_address := cl_addr; mi_sharers := ∅; mi_owner_head := UINT32_MAX; mi_owner_state := INVALID;
     mi_version := 0; mi_last_access_time := 0; mi_access_count := 0; mi_has_dirty_data := false |}.

Definition get_entry (d : MHSLDDevice) (addr : Z) : option MHSLDCachelineInfo :=
  md_directory d !! cl_align addr.

Definition get_or_create_entry (d : MHSLDDevice) (addr : Z) : MHSLDCachelineInfo :=
  default (fresh_info (cl_align addr)) (get_entry d addr).

(** Writes through the entry pointer of [addr]. *)
Definition put_entry (addr : Z) (e : MHSLDCachelineInfo) (d : MHSLDDevice) : MHSLDDevice :=
  with_directory (<[cl_align addr := e]> (md_directory d)) d.

(** ** Pools *)

Definition allocate_pool (d : MHSLDDevice) (head_id size : Z) : Z * MHSLDDevice :=
  match md_heads d !! Z.to_nat head_id with
  | None => (0, d)
  | Some h =>
      if negb (hs_active h) then (0, d)
      else if hs_allocated_capacity h <? hs_used_capacity h +w size then (0, d)
      else
        let base := head_id *w (md_total_capacity d / Z.of_nat MAX_HEADS) in
        (base +w hs_used_capacity h,
         upd_head head_id (set_head_pool (hs_allocated_capacity h) (hs_used_capacity h +w size)) d)
  end.

(** What the loop of [release_pool] does to one line. *)
Definition release_line (head_id : Z) (e : MHSLDCachelineInfo) : MHSLDCachelineInfo :=
  if mi_owner_head e =? head_id
  then with_line (mi_sharers e ∖ {[head_id]}) UINT32_MAX INVALID (mi_has_dirty_data e) e
  else with_line (mi_sharers e ∖ {[head_id]}) (mi_owner_head e) (mi_owner_state e) (mi_has_dirty_data e) e.

(** The loop; [None] when the fuel runs out before [cl_addr] reaches the end. *)
Fixpoint release_loop (fuel : nat) (head_id cl_addr end_addr : Z) (dir : gmap Z MHSLDCachelineInfo)
    : option (gmap Z MHSLDCachelineInfo) :=
  match fuel with
  | O => None
  | S fuel' =>
      if cl_addr <? end_addr
      then release_loop fuel' head_id (cl_addr +w CACHELINE_SIZE) end_addr
             (alter (release_line head_id) (cl_align cl_addr) dir)
      else Some dir
  end.

Definition release_pool (fuel : nat) (d : MHSLDDevice) (head_id addr size : Z) : option MHSLDDevice :=
  match md_heads d !! Z.to_nat head_id with
  | None => Some d
  | Some h =>
      if negb (hs_active h) then Some d
      else
        dir ← release_loop fuel head_id (cl_align addr) (addr +w size) (md_directory d);
        let d1 := with_directory dir d in
        Some (if size <=? hs_used_capacity h
              then upd_head head_id (set_head_pool (hs_allocated_capacity h) (hs_used_capacity h - size)) d1
              else d1)
  end.

(** ** Coherent accesses *)

Section access.
Context `{CastUB}.

(** The loop of [invalidate_sharers] over the heads to invalidate. *)
Fixpoint invalidate_loop (d : MHSLDDevice) (targets : list Z) (max_inv accumulated_gap : f64) : f64 * MHSLDDevice :=
  match targets with
  | [] => (max_inv, d)
  | sharer :: rest =>
      let cfg := lm_config (md_logp_model d) in
      let inv_latency := (accumulated_gap + lc_L cfg + lc_o_r cfg)%f64 in
      invalidate_loop (count 1 1 0 0 (upd_head sharer (head_counts 0 0 0 1) d)) rest
        (fmax max_inv inv_latency) (accumulated_gap + lc_g cfg)%f64
  end.

Definition invalidate_sharers (d : MHSLDDevice) (addr except_head timestamp : Z) : f64 * MHSLDDevice :=
  match get_entry d addr with
  | None => (f0, d)
  | Some e =>
      let to_invalidate :=
        keep (λ s, negb (s =? except_head) && head_active d s) (ascending (mi_sharers e)) in
      let '(max_inv, d1) := invalidate_loop d to_invalidate f0 f0 in
      let lat := match to_invalidate with
                 | [] => max_inv
                 | _ => (max_inv + lc_o_s (lm_config (md_logp_model d)))%f64
                 end in
      (lat, put_entry addr (with_line ∅ (mi_owner_head e) (mi_owner_state e) (mi_has_dirty_data e) e) d1)
  end.

(** The end of an access that is not a local hit. *)
Definition finish_access (d : MHSLDDevice) (head_id : Z) (latency : f64) (timestamp : Z) : f64 * MHSLDDevice :=
  let latency := (latency + calculate_contention_latency d head_id timestamp)%f64 in
  (latency, with_logp (record_message (md_logp_model d) head_id (f64_to_u64 latency)) d).

Definition owner_may_hit (s : MHSLDCacheState) : bool :=
  match s with EXCLUSIVE | MODIFIED | OWNED => true | _ => false end.

Definition read_with_coherency (d : MHSLDDevice) (head_id addr timestamp : Z) : f64 * MHSLDDevice :=
  if negb (head_active d head_id) then (f0, d)
  else
    let e := touch timestamp false (get_or_create_entry d addr) in
    let d1 := upd_head head_id (head_counts 1 0 0 0) (put_entry addr e d) in
    let latency := md_base_read_latency d in
    if (mi_owner_head e =? head_id) && owner_may_hit (mi_owner_state e) then
      ((latency + calculate_contention_latency d1 head_id timestamp)%f64, d1)
    else if bool_decide (head_id ∈ mi_sharers e) then
      ((latency + calculate_contention_latency d1 head_id timestamp)%f64, d1)
    else
      let shared := {[head_id]} ∪ mi_sharers e in
      match mi_owner_state e with
      | INVALID =>
          finish_access (put_entry addr (with_line shared head_id SHARED (mi_has_dirty_data e) e) d1)
            head_id latency timestamp
      | SHARED =>
          finish_access (put_entry addr (with_line shared (mi_owner_head e) SHARED (mi_has_dirty_data e) e) d1)
            head_id latency timestamp
      | EXCLUSIVE | MODIFIED =>
          let '(snoop, logp) := message_latency (md_logp_model d1) timestamp (mi_owner_head e) in
          let was_modified := bool_decide (mi_owner_state e = MODIFIED) in
          let e' := if was_modified
                    then with_line shared (mi_owner_head e) OWNED (mi_has_dirty_data e) e
                    else with_line ({[mi_owner_head e]} ∪ shared) (mi_owner_head e) SHARED (mi_has_dirty_data e) e in
          let d2 := upd_head head_id (head_counts 0 0 1 0)
                      (count 1 0 (if was_modified then 1 else 0) 0 (put_entry addr e' (with_logp logp d1))) in
          finish_access d2 head_id (latency + snoop)%f64 timestamp
      | OWNED =>
          let '(fwd, logp) := message_latency (md_logp_model d1) timestamp (mi_owner_head e) in
          let e' := with_line shared (mi_owner_head e) OWNED (mi_has_dirty_data e) e in
          finish_access (count 1 0 0 0 (put_entry addr e' (with_logp logp d1)))
            head_id (latency + fwd)%f64 timestamp
      end.

(** The switch of [write_with_coherency]: coherency latency and device. *)
Definition write_switch (d1 : MHSLDDevice) (e : MHSLDCachelineInfo) (head_id addr timestamp : Z)
    : f64 * MHSLDDevice :=
  match mi_owner_state e with
  | INVALID => (f0, d1)
  | SHARED => invalidate_sharers d1 addr head_id timestamp
  | st =>
      let '(lat, d2) :=
        if negb (mi_owner_head e =? head_id) then
          let '(snoop, logp) := message_latency (md_logp_model d1) timestamp (mi_owner_head e) in
          let wb := if bool_decide (st = MODIFIED) || bool_decide (st = OWNED) then 1 else 0 in
          ((f0 + snoop)%f64,
           count 1 0 0 wb (upd_head (mi_owner_head e) (head_counts 0 0 0 1) (with_logp logp d1)))
        else (f0, d1) in
      let '(inv, d3) := invalidate_sharers d2 addr head_id timestamp in
      ((lat + inv)%f64, d3)
  end.

Definition write_with_coherency (d : MHSLDDevice) (head_id addr timestamp : Z) : f64 * MHSLDDevice :=
  if negb (head_active d head_id) then (f0, d)
  else
    let e := touch timestamp true (get_or_create_entry d addr) in
    let d1 := upd_head head_id (head_counts 0 1 0 0) (put_entry addr e d) in
    let latency := md_base_write_latency d in
    if (mi_owner_head e =? head_id) &&
       (bool_decide (mi_owner_state e = EXCLUSIVE) || bool_decide (mi_owner_state e = MODIFIED)) then
      ((latency + calculate_contention_latency d1 head_id timestamp)%f64,
       put_entry addr (with_line (mi_sharers e) (mi_owner_head e) MODIFIED true e) d1)
    else if (mi_owner_head e =? head_id) && bool_decide (mi_owner_state e = OWNED) then
      let '(inv, d2) := invalidate_sharers d1 addr head_id timestamp in
      let e2 := get_or_create_entry d2 addr in
      (((latency + inv) + calculate_contention_latency d2 head_id timestamp)%f64,
       put_entry addr (with_line (mi_sharers e2) (mi_owner_head e2) MODIFIED true e2) d2)
    else
      let '(coh, d2) := write_switch d1 e head_id addr timestamp in
      let e2 := get_or_create_entry d2 addr in
      let d3 := upd_head head_id (head_counts 0 0 (if flt f0 coh then 1 else 0) 0)
                  (put_entry addr (with_line ∅ head_id MODIFIED true e2) d2) in
      finish_access d3 head_id (latency + coh)%f64 timestamp.

Definition atomic_with_coherency (d : MHSLDDevice) (head_id addr timestamp : Z) : f64 * MHSLDDevice :=
  let '(latency, d1) := write_with_coherency d head_id addr timestamp in
  let cfg := lm_config (md_logp_model d1) in
  ((latency + (lc_o_s cfg + lc_o_r cfg))%f64, d1).

Definition downgrade_owner (d : MHSLDDevice) (addr requesting_head timestamp : Z) : f64 * MHSLDDevice :=
  match get_entry d addr with
  | None => (f0, d)
  | Some e =>
      if (mi_owner_head e =? UINT32_MAX) || (mi_owner_head e =? requesting_head) then (f0, d)
      else
        let '(lat, logp) := message_latency (md_logp_model d) timestamp (mi_owner_head e) in
        let e' := match mi_owner_state e with
                  | MODIFIED => with_line (mi_sharers e) (mi_owner_head e) OWNED true e
                  | EXCLUSIVE => with_line ({[mi_owner_head e]} ∪ mi_sharers e) UINT32_MAX SHARED
                                   (mi_has_dirty_data e) e
                  | _ => e
                  end in
        (lat, count 1 0 1 0 (put_entry addr e' (with_logp logp d)))
  end.

Definition writeback (d : MHSLDDevice) (addr head_id timestamp : Z) : f64 * MHSLDDevice :=
  match get_entry d addr with
  | None => (f0, d)
  | Some e =>
      if negb (mi_owner_head e =? head_id) then (f0, d)
      else
        let cfg := lm_config (md_logp_model d) in
        let dirty_copy := bool_decide (mi_owner_state e = MODIFIED) || bool_decide (mi_owner_state e = OWNED) in
        let wb := if dirty_copy then (md_base_write_latency d + (lc_o_s cfg + lc_L cfg))%f64
                  else md_base_write_latency d in
        (wb, count 0 0 0 1 (put_entry addr
               (with_line (mi_sharers e ∖ {[head_id]}) UINT32_MAX INVALID
                  (if dirty_copy then false else mi_has_dirty_data e) e) d))
  end.

End access.

(** ** Abstract lines and invariants *)

Definition readers (e : MHSLDCachelineInfo) : gset Z :=
  mi_sharers e ∪ (if owner_may_hit (mi_owner_state e) then {[mi_owner_head e]} else ∅).

Definition writer (e : MHSLDCachelineInfo) : option Z :=
  match mi_owner_state e with EXCLUSIVE | MODIFIED => Some (mi_owner_head e) | _ => None end.

(** The heads that hold a copy are connected, in particular they are indices
    of the head table. *)
Record info_ok (act : Z → bool) (e : MHSLDCachelineInfo) : Prop := {
  io_exclusive : writer e ≠ None → mi_sharers e = ∅;
  io_owned : mi_owner_state e = OWNED → mi_owner_head e ∉ mi_sharers e;
  io_dirty : mi_owner_state e = MODIFIED ∨ mi_owner_state e = OWNED → mi_has_dirty_data e = true;
  io_readers : ∀ h, h ∈ readers e → 0 <= h ∧ act h = true
}.

Record device_inv (d : MHSLDDevice) : Prop := {
  di_heads : length (md_heads d) = MAX_HEADS;
  di_lines : ∀ k e, md_directory d !! k = Some e → info_ok (head_active d) e ∧ mi_address e = k ∧ k mod 64 = 0
}.

(** Which heads are connected is all the directory depends on. *)
Definition same_heads (d d' : MHSLDDevice) : Prop :=
  hs_active <$> md_heads d' = hs_active <$> md_heads d.

#[global] Instance same_heads_equiv : Equivalence same_heads.
Proof. split; unfold same_heads; repeat intro; congruence. Qed.

Lemma head_active_lookup d h :
  head_active d h = default false ((hs_active <$> md_heads d) !! Z.to_nat h).
Proof. unfold head_active. rewrite list_lookup_fmap. by destruct (md_heads d !! _). Qed.

Lemma same_heads_active d d' h : same_heads d d' → head_active d' h = head_active d h.
Proof. intros Hs. rewrite !head_active_lookup. by rewrite Hs. Qed.

Lemma same_heads_length d d' : same_heads d d' → length (md_heads d') = length (md_heads d).
Proof. intros Hs. apply (f_equal length) in Hs. by rewrite !length_fmap in Hs. Qed.

Lemma upd_head_same h f d : (∀ x, hs_active (f x) = hs_active x) → same_heads d (upd_head h f d).
Proof.
  intros Hf. unfold same_heads, upd_head. simpl. apply list_eq. intros i.
  rewrite !list_lookup_fmap. destruct (decide (i = Z.to_nat h)) as [->|Hne].
  - rewrite list_lookup_alter_eq. destruct (md_heads d !! _); simpl; [by rewrite Hf|done].
  - by rewrite list_lookup_alter_ne.
Qed.

(** An access leaves the connections alone and rewrites one line. *)
Definition access_effect (d d' : MHSLDDevice) (addr : Z) (e' : MHSLDCachelineInfo) : Prop :=
  md_directory d' = <[cl_align addr := e']> (md_directory d) ∧ same_heads d d'.

Lemma invalidate_loop_effect d targets mx gap lat d' :
  invalidate_loop d targets mx gap = (lat, d') → md_directory d' = md_directory d ∧ same_heads d d'.
Proof.
  revert d mx gap. induction targets as [|t rest IH]; intros d mx gap; simpl; [by intros [= <- <-]|].
  intros [-> Hs]%IH. split; [done|]. etrans; [|exact Hs]. by apply (upd_head_same t (head_counts 0 0 0 1) d).
Qed.

Lemma invalidate_sharers_effect d addr h ts lat d' e :
  get_entry d addr = Some e → invalidate_sharers d addr h ts = (lat, d') →
  access_effect d d' addr (with_line ∅ (mi_owner_head e) (mi_owner_state e) (mi_has_dirty_data e) e).
Proof.
  intros He. unfold invalidate_sharers. rewrite He.
  destruct (invalidate_loop _ _ _ _) as [l d1] eqn:E. apply invalidate_loop_effect in E as [Hd Hs].
  intros [= <- <-]. split; [|exact Hs]. simpl. by rewrite Hd.
Qed.

Definition line (d : MHSLDDevice) (addr : Z) : MHSLDCachelineInfo := get_or_create_entry d addr.

Lemma get_entry_effect d d' addr e : access_effect d d' addr e → get_entry d' addr = Some e.
Proof. intros [Hd _]. unfold get_entry. by rewrite Hd, lookup_insert_eq. Qed.

Lemma line_effect d d' addr e a :
  access_effect d d' addr e → line d' a = if decide (cl_align a = cl_align addr) then e else line d a.
Proof.
  intros [Hd _]. unfold line, get_or_create_entry, get_entry. rewrite Hd.
  case_decide as Hc; [by rewrite Hc, lookup_insert_eq|by rewrite lookup_insert_ne].
Qed.

Lemma access_effect_trans d1 d2 d3 addr e e' :
  access_effect d1 d2 addr e → access_effect d2 d3 addr e' → access_effect d1 d3 addr e'.
Proof.
  intros [H1 S1] [H2 S2]. split; [by rewrite H2, H1, insert_insert_eq|by etrans].
Qed.

Lemma put_entry_effect addr e d : access_effect d (put_entry addr e d) addr e.
Proof. done. Qed.

(** Head counters, global counters and the LogP model do not matter. *)
Lemma effect_upd_head d d' addr e h r w s b :
  access_effect d d' addr e → access_effect d (upd_head h (head_counts r w s b) d') addr e.
Proof. intros [Hd Hs]. split; [done|]. etrans; [exact Hs|]. by apply upd_head_same. Qed.

Lemma effect_upd_head_l d d' addr e h r w s b :
  access_effect (upd_head h (head_counts r w s b) d) d' addr e → access_effect d d' addr e.
Proof. intros [Hd Hs]. split; [done|]. etrans; [|exact Hs]. by apply upd_head_same. Qed.

Lemma effect_count d d' addr e m i g w :
  access_effect d d' addr e → access_effect d (count m i g w d') addr e.
Proof. done. Qed.

Lemma effect_logp d d' addr e l : access_effect d d' addr e → access_effect d (with_logp l d') addr e.
Proof. done. Qed.

Lemma effect_put d d' addr e e' : access_effect d d' addr e → access_effect d (put_entry addr e' d') addr e'.
Proof. intros He. eapply access_effect_trans; [exact He|done]. Qed.

Lemma finish_access_effect `{CastUB} d d' addr e h lat ts :
  access_effect d d' addr e → access_effect d (finish_access d' h lat ts).2 addr e.
Proof. done. Qed.

Lemma device_inv_effect d d' addr e :
  device_inv d → is_u64 addr → access_effect d d' addr e →
  info_ok (head_active d) e → mi_address e = cl_align addr → device_inv d'.
Proof.
  intros [Hl Hi] Ha [Hd Hs] He Hea. split; [by rewrite (same_heads_length d d')|].
  assert (∀ x, info_ok (head_active d) x → info_ok (head_active d') x) as Hok.
  { intros x [????]. split; try done. intros h Hh. rewrite (same_heads_active d d') by done. auto. }
  intros k x. rewrite Hd. destruct (decide (cl_align addr = k)) as [<-|Hne].
  - rewrite lookup_insert_eq. intros [= <-]. split_and!; auto with cxl.
  - rewrite lookup_insert_ne by done. intros Hx. destruct (Hi k x Hx) as (?&?&?). auto.
Qed.

Lemma line_info_ok d addr : device_inv d → info_ok (head_active d) (line d addr).
Proof.
  intros [_ Hi]. unfold line, get_or_create_entry, get_entry.
  destruct (md_directory d !! _) as [e|] eqn:E; simpl; [by destruct (Hi _ _ E)|].
  split; unfold readers, writer; simpl; try done; try set_solver; naive_solver.
Qed.

Lemma line_address d addr : device_inv d → mi_address (line d addr) = cl_align addr.
Proof.
  intros [_ Hi]. unfold line, get_or_create_entry, get_entry.
  destruct (md_directory d !! _) as [e|] eqn:E; simpl; [by destruct (Hi _ _ E) as (?&?&?)|done].
Qed.

(** Computes the effect of a chain of updates on one line. *)
Ltac effect :=
  repeat first
    [ apply finish_access_effect | apply effect_upd_head | apply effect_count | apply effect_logp
    | eassumption | apply put_entry_effect | eapply effect_put ].

Ltac info_solve :=
  unfold readers, writer in *; simpl in *;
  repeat case_decide; simplify_eq/=; try done; try set_solver.

(** ** Lemmas: reads and writes of one line *)

(** What a read leaves in the line. *)
Definition read_line (h : Z) (e : MHSLDCachelineInfo) : MHSLDCachelineInfo :=
  let shared := {[h]} ∪ mi_sharers e in
  if (mi_owner_head e =? h) && owner_may_hit (mi_owner_state e) then e
  else if bool_decide (h ∈ mi_sharers e) then e
  else match mi_owner_state e with
       | INVALID => with_line shared h SHARED (mi_has_dirty_data e) e
       | SHARED => with_line shared (mi_owner_head e) SHARED (mi_has_dirty_data e) e
       | EXCLUSIVE => with_line ({[mi_owner_head e]} ∪ shared) (mi_owner_head e) SHARED (mi_has_dirty_data e) e
       | MODIFIED | OWNED => with_line shared (mi_owner_head e) OWNED (mi_has_dirty_data e) e
       end.

Lemma read_effect `{CastUB} d h addr ts :
  head_active d h = true →
  access_effect d (read_with_coherency d h addr ts).2 addr (read_line h (touch ts false (line d addr))).
Proof.
  intros Ha. unfold read_with_coherency, read_line. rewrite Ha. cbn [negb].
  change (get_or_create_entry d addr) with (line d addr).
  generalize (touch ts false (line d addr)). intros e.
  destruct (message_latency _ ts (mi_owner_head e)) as [lat logp].
  destruct (_ && _); [effect|]. destruct (bool_decide (h ∈ _)); [effect|].
  destruct (mi_owner_state e); simpl; effect.
Qed.

Lemma read_line_ok act h e :
  info_ok act e → 0 <= h → act h = true →
  info_ok act (read_line h e) ∧ mi_address (read_line h e) = mi_address e ∧
  readers (read_line h e) = readers e ∪ {[h]} ∧
  writer (read_line h e) = (if decide (writer e = Some h) then Some h else None).
Proof.
  intros [Hex Hod Hdi Hrd] H0 Ha. unfold read_line. destruct e as [a sh ow st v t c d]. simpl in *.
  destruct (ow =? h) eqn:E1; btests; subst; simpl; destruct (bool_decide (h ∈ sh)) eqn:E2;
    [apply bool_decide_eq_true in E2|apply bool_decide_eq_false in E2| |].
  all: destruct st; simpl in *.
  all: split_and!; [split|..]; info_solve.
Qed.

(** Two entries that differ only in who holds the line. *)
Definition same_meta (e e' : MHSLDCachelineInfo) : Prop :=
  ∀ sh ow st dirty, with_line sh ow st dirty e' = with_line sh ow st dirty e.

Lemma invalidate_same_meta d d1 d2 addr e h ts lat :
  access_effect d d1 addr e → invalidate_sharers d1 addr h ts = (lat, d2) →
  ∃ e', access_effect d d2 addr e' ∧ same_meta e e' ∧ mi_owner_head e' = mi_owner_head e ∧ mi_sharers e' = ∅.
Proof.
  intros He Hi. pose proof (get_entry_effect _ _ _ _ He) as Hg.
  eapply invalidate_sharers_effect in Hi; [|exact Hg].
  eexists. split; [by eapply access_effect_trans|]. by repeat split.
Qed.

Lemma write_switch_effect `{CastUB} d d1 addr e h ts lat d2 :
  access_effect d d1 addr e → write_switch d1 e h addr ts = (lat, d2) →
  ∃ e', access_effect d d2 addr e' ∧ same_meta e e'.
Proof.
  intros He. unfold write_switch. destruct (message_latency _ ts _) as [l0 logp].
  set (d1' := if negb (mi_owner_head e =? h) then _ else _).
  assert (∀ wb, access_effect d (count 1 0 0 wb (upd_head (mi_owner_head e) (head_counts 0 0 0 1)
    (with_logp logp d1))) addr e) as He' by (intros wb; effect).
  destruct (mi_owner_state e); subst d1'; simpl.
  { intros [= <- <-]. by exists e. }
  { intros Hi. eapply invalidate_same_meta in Hi as (e' & ? & ? & _); eauto. }
  all: destruct (mi_owner_head e =? h); simpl;
    match goal with |- context [invalidate_sharers ?x ?a ?y ?t] =>
      destruct (invalidate_sharers x a y t) as [l2 d3] eqn:Ei end;
    intros [= <- <-]; eapply invalidate_same_meta in Ei as (e' & ? & ? & _); eauto.
Qed.

Lemma write_effect `{CastUB} d h addr ts :
  device_inv d → head_active d h = true →
  access_effect d (write_with_coherency d h addr ts).2 addr
    (with_line ∅ h MODIFIED true (touch ts true (line d addr))).
Proof.
  intros Hi Ha. destruct (line_info_ok d addr Hi) as [Hex _ _ _].
  unfold write_with_coherency. rewrite Ha. cbn [negb].
  change (get_or_create_entry d addr) with (line d addr).
  assert (writer (touch ts true (line d addr)) ≠ None → mi_sharers (touch ts true (line d addr)) = ∅) as Hex' by done.
  clear Hex. revert Hex'. generalize (touch ts true (line d addr)). intros e Hex.
  set (d1 := upd_head h (head_counts 0 1 0 0) (put_entry addr e d)).
  assert (access_effect d d1 addr e) as He by (unfold d1; effect).
  destruct (_ && (_ || _)) eqn:E1.
  { apply andb_prop in E1 as [Eo Es]. btests. rewrite Eo. simpl. rewrite Hex; [by eapply effect_put|].
    unfold writer. by destruct (mi_owner_state e). }
  destruct (_ && bool_decide _) eqn:E2.
  { apply andb_prop in E2 as [Eo _]. btests. destruct (invalidate_sharers d1 addr h ts) as [inv d2] eqn:Ei.
    eapply invalidate_same_meta in Ei as (e2 & He2 & Hm & Ho & Hs); [|exact He].
    cbn [snd]. unfold get_or_create_entry. rewrite (get_entry_effect _ _ _ _ He2). simpl.
    rewrite Hm, Hs, Ho, Eo. by eapply effect_put. }
  destruct (write_switch d1 e h addr ts) as [coh d2] eqn:Ew.
  eapply write_switch_effect in Ew as (e2 & He2 & Hm); [|exact He].
  unfold get_or_create_entry. rewrite (get_entry_effect _ _ _ _ He2). cbn [default].
  rewrite Hm. apply finish_access_effect, effect_upd_head. by eapply effect_put.
Qed.

Lemma write_line_ok act h e :
  0 <= h → act h = true → info_ok act (with_line ∅ h MODIFIED true e).
Proof. intros H0 Ha. split; unfold readers, writer; simpl; try done. set_solver. Qed.

(** ** Lemmas: the other operations *)

Lemma rebalance_same d : same_heads d (rebalance_bandwidth d) ∧ md_directory (rebalance_bandwidth d) = md_directory d.
Proof.
  unfold rebalance_bandwidth. case_match; [done|]. split; [|done].
  unfold same_heads. simpl. rewrite <- list_fmap_compose. by apply list_fmap_ext.
Qed.

Lemma info_ok_mono (act act' : Z → bool) e :
  (∀ h, h ∈ readers e → 0 <= h → act h = true → act' h = true) → info_ok act e → info_ok act' e.
Proof. intros Hm [??? Hr]. split; auto. intros h Hh. destruct (Hr h Hh). auto. Qed.

(** A device with the same heads connected, or more, whose lines were rewritten by [f]. *)
Lemma device_inv_lines d d' f :
  device_inv d → length (md_heads d') = length (md_heads d) →
  (∀ k e', md_directory d' !! k = Some e' →
     ∃ e, md_directory d !! k = Some e ∧ (e' = e ∨ e' = f e)) →
  (∀ e, info_ok (head_active d) e → info_ok (head_active d') e) →
  (∀ e, info_ok (head_active d) e → info_ok (head_active d') (f e) ∧ mi_address (f e) = mi_address e) →
  device_inv d'.
Proof.
  intros [Hl Hi] Hlen Hd Hsame Hf. split; [congruence|]. intros k e' He'.
  destruct (Hd k e' He') as (e & He & [->| ->]); destruct (Hi k e He) as (Hok & Hk & Hal).
  - split_and!; auto.
  - destruct (Hf e Hok) as [? ->]. auto.
Qed.

Lemma head_active_upd h f d k :
  head_active (upd_head h f d) k =
  match md_heads d !! Z.to_nat k with
  | Some x => hs_active (if decide (Z.to_nat k = Z.to_nat h) then f x else x)
  | None => false
  end.
Proof.
  unfold head_active, upd_head. simpl. case_decide as Hd.
  - rewrite Hd, list_lookup_alter_eq. by destruct (md_heads d !! _).
  - rewrite list_lookup_alter_ne by done. by destruct (md_heads d !! _).
Qed.

Lemma mhsld_activate_inv d h c : device_inv d → device_inv (activate_head d h c).2.
Proof.
  intros Hi. unfold activate_head. case_match; [done|]. cbn [snd].
  set (d1 := upd_head h _ d). destruct (rebalance_same d1) as [Hs Hd].
  apply (device_inv_lines d _ id); [done|..].
  - rewrite (same_heads_length _ _ Hs). unfold d1. simpl. apply length_alter.
  - intros k e. rewrite Hd. simpl. eauto.
  - intros e. apply info_ok_mono. intros k _ _. rewrite (same_heads_active _ _ _ Hs). unfold d1.
    rewrite head_active_upd. unfold head_active. destruct (md_heads d !! _); [|done]. by case_decide.
  - intros e He. split; [|done]. revert He. apply info_ok_mono. intros k _ _.
    rewrite (same_heads_active _ _ _ Hs). unfold d1.
    rewrite head_active_upd. unfold head_active. destruct (md_heads d !! _); [|done]. by case_decide.
Qed.

Lemma drop_head_ok act act' h e :
  (∀ k, k ≠ h → 0 <= k → act k = true → act' k = true) →
  info_ok act e → info_ok act' (drop_head h e) ∧ mi_address (drop_head h e) = mi_address e.
Proof.
  intros Hact [Hex Hod Hdi Hrd]. unfold drop_head. destruct e as [a sh ow st v t c dd]. simpl in *.
  destruct (ow =? h) eqn:E; btests; (split; [|done]); split; unfold readers, writer in *; simpl in *; try done.
  - naive_solver.
  - intros k Hk. destruct (Hrd k) as [? ?]; [set_solver|]. split; [done|]. apply Hact; set_solver.
  - intros Hw. rewrite Hex by done. set_solver.
  - set_solver.
  - intros k Hk. destruct (Hrd k) as [? ?]; [set_solver|]. split; [done|]. apply Hact; [|done..].
    destruct (owner_may_hit st); set_solver.
Qed.

Lemma mhsld_deactivate_inv d h :
  0 <= h → device_inv d → device_inv (deactivate_head d h).
Proof.
  intros Hh [Hl Hi]. unfold deactivate_head. case_match; [done|]. cbv zeta.
  set (d1 := upd_head h _ d). set (d2 := with_directory _ d1).
  destruct (rebalance_same d2) as [Hs Hd].
  assert (∀ k, k ≠ h → 0 <= k → head_active d k = true → head_active (rebalance_bandwidth d2) k = true) as Hact.
  { intros k Hk Hk0. rewrite (same_heads_active _ _ _ Hs). unfold d2.
    change (head_active (with_directory _ d1) k) with (head_active d1 k). unfold d1. rewrite head_active_upd.
    unfold head_active. destruct (md_heads d !! _); [|done]. rewrite decide_False by lia. done. }
  split.
  - rewrite (same_heads_length _ _ Hs). unfold d2, d1. simpl. by rewrite length_alter.
  - intros k e. rewrite Hd. simpl. rewrite lookup_fmap. intros (x & Hx & ->)%fmap_Some.
    destruct (Hi k x Hx) as (Hok & Hk & Hal). destruct (drop_head_ok _ _ h x Hact Hok) as [? ->]. done.
Qed.

Lemma release_line_ok act h e :
  info_ok act e → info_ok act (release_line h e) ∧ mi_address (release_line h e) = mi_address e.
Proof.
  intros [Hex Hod Hdi Hrd]. unfold release_line. destruct e as [a sh ow st v t c dd]. simpl in *.
  destruct (ow =? h) eqn:E; btests; (split; [|done]); split; unfold readers, writer in *; simpl in *; try done.
  - naive_solver.
  - set_solver.
  - intros Hw. rewrite Hex by done. set_solver.
  - set_solver.
  - set_solver.
Qed.

(** The loop only rewrites lines with [release_line], any number of times. *)
Lemma release_loop_ok act fuel h a e dir dir' :
  (∀ k x, dir !! k = Some x → info_ok act x ∧ mi_address x = k ∧ k mod 64 = 0) →
  release_loop fuel h a e dir = Some dir' →
  ∀ k x, dir' !! k = Some x → info_ok act x ∧ mi_address x = k ∧ k mod 64 = 0.
Proof.
  revert a dir. induction fuel as [|fuel IH]; intros a dir Hd; simpl; [done|].
  case_match; [|by intros [= <-]]. apply IH. intros k x.
  destruct (decide (cl_align a = k)) as [<-|Hne]; [|rewrite lookup_alter_ne by done; apply Hd].
  rewrite lookup_alter_eq. intros (y & Hy & ->)%fmap_Some. destruct (Hd _ _ Hy) as (Hok & ? & ?).
  destruct (release_line_ok act h y Hok) as [? ->]. done.
Qed.

Lemma release_pool_inv fuel d h addr size d' :
  release_pool fuel d h addr size = Some d' → device_inv d → device_inv d'.
Proof.
  intros Hr [Hl Hi]. unfold release_pool in Hr. destruct (md_heads d !! _) as [x|]; [|by simplify_eq].
  case_match; [by simplify_eq|]. apply bind_Some in Hr as (dir & Hloop & [= <-]).
  set (d1 := with_directory dir d).
  assert (device_inv d1) as Hi1.
  { split; [done|]. intros k e. exact (release_loop_ok (head_active d) fuel h _ _ _ dir Hi Hloop k e). }
  case_match; [|done]. set (f := set_head_pool _ _).
  pose proof (upd_head_same h f d1 ltac:(done)) as Hs.
  destruct Hi1 as [Hl1 Hi1]. split; [by rewrite (same_heads_length _ _ Hs)|].
  intros k e He. destruct (Hi1 k e He) as (Hok & ? & ?). split_and!; try done.
  revert Hok. apply info_ok_mono. intros y _ _. by rewrite (same_heads_active _ _ _ Hs).
Qed.

Lemma allocate_pool_inv d h size : device_inv d → device_inv (allocate_pool d h size).2.
Proof.
  intros [Hl Hi]. unfold allocate_pool. destruct (md_heads d !! _) as [x|]; [|done].
  repeat case_match; try done. cbn [snd]. set (f := set_head_pool _ _).
  pose proof (upd_head_same h f d ltac:(done)) as Hs.
  split; [by rewrite (same_heads_length _ _ Hs)|].
  intros k e He. destruct (Hi k e He) as (Hok & ? & ?). split_and!; try done.
  revert Hok. apply info_ok_mono. intros y _ _. by rewrite (same_heads_active _ _ _ Hs).
Qed.

Lemma line_entry d addr e : get_entry d addr = Some e → line d addr = e.
Proof. intros He. unfold line, get_or_create_entry. by rewrite He. Qed.

Lemma downgrade_owner_inv `{CastUB} d addr h ts :
  device_inv d → is_u64 addr → device_inv (downgrade_owner d addr h ts).2.
Proof.
  intros Hi Ha. unfold downgrade_owner. destruct (get_entry d addr) as [e|] eqn:E; [|done].
  case_match; [done|]. destruct (message_latency _ ts _) as [l logp]. cbn [snd].
  pose proof (line_info_ok d addr Hi) as Hok. pose proof (line_address d addr Hi) as Had.
  rewrite (line_entry _ _ _ E) in Hok, Had. destruct Hok as [Hex Hod Hdi Hrd].
  eapply (device_inv_effect d); [done..|apply effect_count; split; reflexivity| |].
  - destruct e as [a sh ow st v t c dd]. simpl in *. destruct st; split; info_solve.
  - by destruct (mi_owner_state e).
Qed.

Lemma writeback_inv d addr h ts : device_inv d → is_u64 addr → device_inv (writeback d addr h ts).2.
Proof.
  intros Hi Ha. unfold writeback. destruct (get_entry d addr) as [e|] eqn:E; [|done].
  case_match; [done|]. cbn [snd].
  pose proof (line_info_ok d addr Hi) as Hok. pose proof (line_address d addr Hi) as Had.
  rewrite (line_entry _ _ _ E) in Hok, Had. destruct Hok as [Hex Hod Hdi Hrd].
  eapply (device_inv_effect d); [done..|apply effect_count; split; reflexivity| |done].
  split; unfold readers, writer in *; simpl in *; [done|done|naive_solver|set_solver].
Qed.

Lemma read_inv `{CastUB} d h addr ts :
  device_inv d → 0 <= h → is_u64 addr → device_inv (read_with_coherency d h addr ts).2.
Proof.
  intros Hi H0 Ha. destruct (head_active d h) eqn:Hact; [|unfold read_with_coherency; by rewrite Hact].
  destruct (read_line_ok (head_active d) h (touch ts false (line d addr))) as (Hok & Had & _);
    [by destruct (line_info_ok d addr Hi)|done|done|].
  eapply (device_inv_effect d); [done..|by apply read_effect|done|]. rewrite Had. by apply line_address.
Qed.

Lemma write_inv `{CastUB} d h addr ts :
  device_inv d → 0 <= h → is_u64 addr → device_inv (write_with_coherency d h addr ts).2.
Proof.
  intros Hi H0 Ha. destruct (head_active d h) eqn:Hact; [|unfold write_with_coherency; by rewrite Hact].
  eapply (device_inv_effect d); [done..|by apply write_effect|by apply write_line_ok|]. by apply line_address.
Qed.

(** ** Lemmas: pools *)

Lemma cl_align_id a : is_u64 a → a mod 64 = 0 → cl_align a = a.
Proof. intros Hu Ha. rewrite cl_align_mod by done. lia. Qed.

(** The release loop visits exactly the lines of the region, when its end
    leaves room for the last increment. *)
Lemma release_loop_spec fuel h a e dir :
  0 <= a → a mod 64 = 0 → e <= TWO64 - 64 → Z.max 0 (e - a + 63) / 64 < Z.of_nat fuel →
  ∃ dir', release_loop fuel h a e dir = Some dir' ∧
    ∀ k, dir' !! k = if decide (a <= k < e ∧ k mod 64 = 0) then release_line h <$> dir !! k else dir !! k.
Proof.
  revert a dir. induction fuel as [|fuel IH]; intros a dir Ha Hal He Hf.
  { pose proof (Z.div_pos (Z.max 0 (e - a + 63)) 64). lia. }
  cbn [release_loop]. destruct (a <? e) eqn:E; btests.
  2: { exists dir. split; [done|]. intros k. rewrite decide_False by lia. done. }
  unfold CACHELINE_SIZE. rewrite (u64_small (a + 64)) by (unfold is_u64; lia).
  rewrite (cl_align_id a) by (try unfold is_u64; lia).
  destruct (IH (a + 64) (alter (release_line h) a dir)) as (dir' & -> & Hd).
  { lia. } { mlia. } { done. } { rewrite Z.max_r in Hf by lia. mlia. }
  exists dir'. split; [done|]. intros k. rewrite Hd.
  destruct (decide (k = a)) as [->|Hne].
  - rewrite decide_False by lia. rewrite decide_True by lia. apply lookup_alter_eq.
  - rewrite lookup_alter_ne by done.
    destruct (decide (a + 64 <= k < e ∧ k mod 64 = 0)) as [Hin|Hin].
    + rewrite decide_True; [done|]. lia.
    + rewrite decide_False; [done|]. intros [? Hk]. apply Hin. split; [|done]. mlia.
Qed.

(** When the end of the region is above the last line, the increment wraps
    and the loop never stops. *)
Lemma release_loop_diverges fuel h a e dir :
  0 <= a < TWO64 → a mod 64 = 0 → TWO64 - 64 < e → release_loop fuel h a e dir = None.
Proof.
  revert a dir. induction fuel as [|fuel IH]; intros a dir Ha Hal He; [done|].
  cbn [release_loop]. assert (a <= TWO64 - 64) by mlia.
  rewrite (proj2 (Z.ltb_lt _ _)) by lia. apply IH; [apply u64_range|unfold CACHELINE_SIZE; mlia|done].
Qed.

(** The part of the device that belongs to a head. *)
Definition slot_base (d : MHSLDDevice) (h : Z) : Z := h * (md_total_capacity d / 16).

(** Pools fit their slots. *)
Definition pools_ok (d : MHSLDDevice) : Prop :=
  0 <= md_total_capacity d < TWO64 ∧ length (md_heads d) = MAX_HEADS ∧
  ∀ i x, md_heads d !! i = Some x →
    0 <= hs_used_capacity x <= hs_allocated_capacity x ∧ hs_allocated_capacity x <= md_total_capacity d / 16.

(** The head can take an allocation of this size. *)
Definition has_room (d : MHSLDDevice) (h size : Z) : bool :=
  match md_heads d !! Z.to_nat h with
  | Some x => hs_active x && (hs_used_capacity x + size <=? hs_allocated_capacity x)
  | None => false
  end.

Definition used (d : MHSLDDevice) (h : Z) : Z :=
  match md_heads d !! Z.to_nat h with Some x => hs_used_capacity x | None => 0 end.

Lemma allocate_pool_room d h size :
  pools_ok d → 0 <= h → 0 <= size < TWO64 / 2 →
  let '(a, d') := allocate_pool d h size in
  pools_ok d' ∧ md_total_capacity d' = md_total_capacity d ∧
  (has_room d h size = true → a = slot_base d h + used d h ∧ h < 16 ∧ used d h + size <= md_total_capacity d / 16) ∧
  ∀ k, 0 <= k → used d' k = used d k + (if has_room d h size && (k =? h) then size else 0).
Proof.
  intros (Ht & Hlen & Hp) Hh Hs. unfold allocate_pool, has_room, used.
  destruct (md_heads d !! Z.to_nat h) as [x|] eqn:E; [|simpl; split_and!; try done; intros; lia].
  destruct (hs_active x) eqn:Ea; [|simpl; split_and!; try done; intros; lia].
  pose proof (Hp _ _ E) as [Hu Hal]. pose proof (lookup_lt_Some _ _ _ E) as Hlt. unfold MAX_HEADS in *.
  assert (md_total_capacity d / 16 < 1152921504606846976) as Hcap by (apply Z.div_lt_upper_bound; lia).
  assert (0 <= md_total_capacity d / 16) by (apply Z.div_pos; lia).
  change (TWO64 / 2) with 9223372036854775808 in Hs.
  cbn [negb]. rewrite (u64_small (hs_used_capacity x + size)) by (unfold is_u64; lia). cbn [andb].
  destruct (hs_allocated_capacity x <? hs_used_capacity x + size) eqn:El; btests.
  { rewrite (proj2 (Z.leb_gt _ _)) by lia. simpl. split_and!; try done. intros; lia. }
  rewrite (proj2 (Z.leb_le _ _)) by lia. cbn [andb]. split_and!.
  - split; [done|]. split; [by simpl; rewrite length_alter|]. intros i y. simpl.
    destruct (decide (i = Z.to_nat h)) as [->|Hne]; [|rewrite list_lookup_alter_ne by done; apply Hp].
    rewrite list_lookup_alter_eq, E. intros [= <-]. simpl. lia.
  - done.
  - intros _. unfold slot_base. change (Z.of_nat 16) with 16.
    assert (h <= 15) as H15 by lia. set (cap := md_total_capacity d / 16) in *.
    assert (0 <= h * cap <= 15 * cap) by (split; [apply Z.mul_nonneg_nonneg|apply Z.mul_le_mono_nonneg_r]; lia).
    rewrite (u64_small (h * cap)) by (unfold is_u64; lia).
    rewrite u64_small by (unfold is_u64; lia). lia.
  - intros k Hk. simpl. destruct (k =? h) eqn:Ek; btests.
    + subst. rewrite list_lookup_alter_eq, E. done.
    + rewrite list_lookup_alter_ne by lia. destruct (md_heads d !! _); lia.
Qed.

(** A run of allocations and the ranges that succeeded. *)
Fixpoint allocate_all (d : MHSLDDevice) (reqs : list (Z * Z)) : list (Z * Z * Z) * MHSLDDevice :=
  match reqs with
  | [] => ([], d)
  | (h, size) :: rest =>
      let '(a, d1) := allocate_pool d h size in
      let '(log, d2) := allocate_all d1 rest in
      ((if has_room d h size then [(h, a, size)] else []) ++ log, d2)
  end.

Definition ranges_apart (x y : Z * Z * Z) : Prop :=
  let '(_, a, n) := x in let '(_, b, m) := y in a + n <= b ∨ b + m <= a.

Lemma allocate_all_spec d reqs :
  pools_ok d → Forall (λ r, 0 <= r.1 ∧ 0 <= r.2 < TWO64 / 2) reqs →
  let '(log, d') := allocate_all d reqs in
  md_total_capacity d' = md_total_capacity d ∧
  (∀ h a n, (h, a, n) ∈ log → 0 <= h < 16 ∧ 0 <= n ∧ slot_base d h + used d h <= a ∧
     a + n <= slot_base d h + md_total_capacity d / 16) ∧
  pairwise ranges_apart log.
Proof.
  revert d. induction reqs as [|[h size] rest IH]; intros d Hp Hreqs; simpl; [split; [done|split; [set_solver|done]]|].
  apply Forall_cons in Hreqs as [[Hh Hs] Hrest]. simpl in Hh, Hs.
  pose proof (allocate_pool_room d h size Hp Hh Hs) as Hr.
  destruct (allocate_pool d h size) as [a d1]. destruct Hr as (Hp1 & Ht & Hroom & Hused).
  specialize (IH d1 Hp1 Hrest). destruct (allocate_all d1 rest) as [log d2].
  destruct IH as (Ht2 & Hlog & Hpw). split; [congruence|].
  assert (∀ k, slot_base d1 k = slot_base d k) as Hsb by (intros k; unfold slot_base; by rewrite Ht).
  assert (∀ k, 0 <= used d k) as Hu0.
  { intros k. unfold used. destruct (md_heads d !! _) eqn:E; [|done]. apply (proj2 (proj2 Hp)) in E as [? ?]. lia. }
  pose proof (Hu0 h) as Huh.
  assert (∀ k b m, (k, b, m) ∈ log → 0 <= k < 16 ∧ 0 <= m ∧
    slot_base d k + used d k + (if has_room d h size && (k =? h) then size else 0) <= b ∧
    b + m <= slot_base d k + md_total_capacity d / 16) as Hlog'.
  { intros k b m Hin. destruct (Hlog k b m Hin) as (?&?&Hlo&Hhi). rewrite Hsb in Hlo, Hhi.
    rewrite Hused in Hlo by lia. rewrite Ht in Hhi. lia. }
  destruct (has_room d h size); simpl in *.
  - destruct (Hroom eq_refl) as (-> & Hh16 & Hfit). split.
    + intros k b m [[= -> -> ->]|Hin]%elem_of_cons; [lia|]. destruct (Hlog' k b m Hin). case_match; lia.
    + split; [|done]. intros [[k b] m] Hin. destruct (Hlog' k b m Hin) as (Hk & Hm & Hlo & Hhi). simpl.
      destruct (k =? h) eqn:Ek; btests; [subst; lia|]. unfold slot_base in *.
      assert (0 <= md_total_capacity d / 16) as Hc0 by (apply Z.div_pos; [apply Hp|lia]).
      set (cap := md_total_capacity d / 16) in *. clearbody cap.
      pose proof (Hu0 k) as Huk.
      assert (k < h ∨ h < k) as [Hlt|Hlt] by lia; [right|left].
      * assert (k * cap + cap <= h * cap) by nia. lia.
      * assert (h * cap + cap <= k * cap) by nia. lia.
  - split; [|done]. intros k b m Hin. destruct (Hlog' k b m Hin). lia.
Qed.

(** ** The device as a transition system *)

Inductive mhsld_step `{CastUB} : MHSLDDevice → MHSLDDevice → Prop :=
| ms_read d h a ts : is_u32 h → is_u64 a → mhsld_step d (read_with_coherency d h a ts).2
| ms_write d h a ts : is_u32 h → is_u64 a → mhsld_step d (write_with_coherency d h a ts).2
| ms_atomic d h a ts : is_u32 h → is_u64 a → mhsld_step d (atomic_with_coherency d h a ts).2
| ms_downgrade d h a ts : is_u64 a → mhsld_step d (downgrade_owner d a h ts).2
| ms_writeback d h a ts : is_u64 a → mhsld_step d (writeback d a h ts).2
| ms_activate d h c : mhsld_step d (activate_head d h c).2
| ms_deactivate d h : is_u32 h → mhsld_step d (deactivate_head d h)
| ms_allocate d h n : mhsld_step d (allocate_pool d h n).2
| ms_release fuel d h a n d' : release_pool fuel d h a n = Some d' → mhsld_step d d'.

Lemma atomic_device `{CastUB} d h a ts : (atomic_with_coherency d h a ts).2 = (write_with_coherency d h a ts).2.
Proof. unfold atomic_with_coherency. by destruct (write_with_coherency d h a ts). Qed.

Lemma mhsld_step_inv `{CastUB} d d' : device_inv d → mhsld_step d d' → device_inv d'.
Proof.
  intros Hi Hs. destruct Hs as [d h a ts [Hh _]|d h a ts [Hh _]|d h a ts [Hh _]| | | |d h [Hh _]| |];
    rewrite ?atomic_device;
    eauto using read_inv, write_inv, downgrade_owner_inv, writeback_inv, mhsld_activate_inv,
      mhsld_deactivate_inv, allocate_pool_inv, release_pool_inv.
Qed.

Lemma MHSLDDevice_new_inv c n r w b cfg : device_inv (MHSLDDevice_new c n r w b cfg).
Proof. by split. Qed.

Lemma mhsld_reachable `{CastUB} c n r w b cfg d :
  rtc mhsld_step (MHSLDDevice_new c n r w b cfg) d → device_inv d.
Proof.
  intros Hr. pose proof (MHSLDDevice_new_inv c n r w b cfg) as Hi.
  induction Hr; eauto using mhsld_step_inv.
Qed.

(** ** Examples *)

#[local] Instance ex_cast : CastUB := λ _, 0.

Definition ex_device0 : MHSLDDevice :=
  MHSLDDevice_new 1048576 2 (f64_of_Z 100) (f64_of_Z 150) (f64_of_Z 32) LogPConfig_default.

Definition ex_device1 : MHSLDDevice := (activate_head (activate_head ex_device0 0 4096).2 1 8192).2.

(** Head 0 writes a line and head 1 reads it. *)
Definition ex_device : MHSLDDevice :=
  (read_with_coherency (write_with_coherency ex_device1 0 4100 10).2 1 4096 20).2.

Lemma ex_device_reach : rtc mhsld_step ex_device0 ex_device.
Proof.
  unfold ex_device, ex_device1.
  eapply rtc_r; [|by apply (ms_read _ 1 4096 20)]. eapply rtc_r; [|by apply (ms_write _ 0 4100 10)].
  eapply rtc_r; [|apply (ms_activate _ 1 8192)]. eapply rtc_r; [|apply (ms_activate _ 0 4096)].
  apply rtc_refl.
Qed.

Lemma ex_device_inv : device_inv ex_device.
Proof. eapply mhsld_reachable, ex_device_reach. Qed.

Lemma ex_device1_pools : pools_ok ex_device1.
Proof.
  split; [done|]. split; [done|]. intros i x Hx.
  do 17 (destruct i as [|i]; [vm_compute in Hx; simplify_eq/=; vm_compute; intuition discriminate|]).
  done.
Qed.

(** ** Theorems *)

(** C20. In every reachable state of the device, under any sequence of accesses,
    pool operations and head changes, a line with a writer has it as its only
    reader, every head that holds a copy is connected and is an index of the
    head table, so the accesses [heads[owner_head]] and [heads[sharer]] stay in
    bounds, and lines in state M or O are marked dirty. *)
Theorem mhsld_single_writer `{CastUB} c n r w b cfg d addr :
  rtc mhsld_step (MHSLDDevice_new c n r w b cfg) d →
  let e := line d addr in
  (∀ h, writer e = Some h → readers e = {[h]}) ∧
  (∀ h, h ∈ readers e → 0 <= h < 16 ∧ head_active d h = true) ∧
  (mi_owner_state e = MODIFIED ∨ mi_owner_state e = OWNED → mi_has_dirty_data e = true).
Proof.
  intros Hr e. pose proof (mhsld_reachable _ _ _ _ _ _ _ Hr) as Hi.
  destruct (line_info_ok d addr Hi) as [Hex Hod Hdi Hrd]. fold e in Hex, Hod, Hdi, Hrd. split_and!; [| |done].
  - intros h Hw. unfold readers. rewrite Hex by by rewrite Hw. unfold writer in Hw.
    destruct (mi_owner_state e); simplify_eq/=; set_solver.
  - intros h Hh. destruct (Hrd h Hh) as [H0 Hact]. split; [|done]. split; [done|].
    unfold head_active in Hact. destruct (md_heads d !! _) eqn:E; [|done].
    apply lookup_lt_Some in E. rewrite (di_heads d Hi) in E. unfold MAX_HEADS in E. lia.
Qed.

(** A read by a connected head adds it to the readers, demotes a foreign
    writer without taking its copy, and changes no other line; a head that is
    not connected changes nothing. *)
Theorem mhsld_read_refines `{CastUB} d h addr ts lat d' :
  device_inv d → 0 <= h → is_u64 addr → read_with_coherency d h addr ts = (lat, d') →
  (head_active d h = false → lat = f0 ∧ d' = d) ∧
  (head_active d h = true →
   readers (line d' addr) = readers (line d addr) ∪ {[h]} ∧
   writer (line d' addr) = (if decide (writer (line d addr) = Some h) then Some h else None) ∧
   ∀ a, is_u64 a → cl_align a ≠ cl_align addr → line d' a = line d a).
Proof.
  intros Hi H0 Ha Hr. split; intros Hact.
  { unfold read_with_coherency in Hr. rewrite Hact in Hr. by simplify_eq/=. }
  pose proof (read_effect d h addr ts Hact) as He. rewrite Hr in He. cbn [snd] in He.
  destruct (read_line_ok (head_active d) h (touch ts false (line d addr))) as (_ & _ & Hrd & Hwr);
    [by destruct (line_info_ok d addr Hi)|done|done|].
  split_and!; [rewrite (line_effect _ _ _ _ addr He), decide_True by done; exact Hrd|
               rewrite (line_effect _ _ _ _ addr He), decide_True by done; exact Hwr|].
  intros a Hau Hne. by rewrite (line_effect _ _ _ _ a He), decide_False.
Qed.

(** A write by a connected head makes it the only reader and the writer of
    the line and changes no other line; a head that is not connected changes
    nothing. *)
Theorem mhsld_write_refines `{CastUB} d h addr ts lat d' :
  device_inv d → 0 <= h → is_u64 addr → write_with_coherency d h addr ts = (lat, d') →
  (head_active d h = false → lat = f0 ∧ d' = d) ∧
  (head_active d h = true →
   readers (line d' addr) = {[h]} ∧ writer (line d' addr) = Some h ∧
   ∀ a, is_u64 a → cl_align a ≠ cl_align addr → line d' a = line d a).
Proof.
  intros Hi H0 Ha Hr. split; intros Hact.
  { unfold write_with_coherency in Hr. rewrite Hact in Hr. by simplify_eq/=. }
  pose proof (write_effect d h addr ts Hi Hact) as He. rewrite Hr in He. cbn [snd] in He.
  split_and!; [rewrite (line_effect _ _ _ _ addr He), decide_True by done; unfold readers; simpl; set_solver|
               by rewrite (line_effect _ _ _ _ addr He), decide_True|].
  intros a Hau Hne. by rewrite (line_effect _ _ _ _ a He), decide_False.
Qed.

(** Pool allocations never overlap: when every head's pool fits its
    sixteenth of the device, the ranges handed out by any run of allocations of
    any heads lie inside their head's slot and are pairwise disjoint. *)
Theorem allocations_disjoint d reqs :
  pools_ok d → Forall (λ r, 0 <= r.1 ∧ 0 <= r.2 < TWO64 / 2) reqs →
  let log := (allocate_all d reqs).1 in
  pairwise ranges_apart log ∧
  ∀ h a n, (h, a, n) ∈ log → slot_base d h <= a ∧ a + n <= slot_base d (h + 1).
Proof.
  intros Hp Hr log. pose proof (allocate_all_spec d reqs Hp Hr) as Hs. unfold log.
  destruct (allocate_all d reqs) as [lg d']. destruct Hs as (_ & Hlog & Hpw). split; [done|].
  intros h a n Hin. destruct (Hlog h a n Hin) as (Hh & Hn & Hlo & Hhi). unfold slot_base in *.
  assert (0 <= used d h).
  { unfold used. destruct (md_heads d !! _) eqn:E; [|done]. apply (proj2 (proj2 Hp)) in E as [? ?]. lia. }
  split; [lia|]. rewrite Z.mul_add_distr_r, Z.mul_1_l. lia.
Qed.

(** [release_pool] terminates and drops the head from exactly the lines of
    the region, when the region ends below the last line of the address space. *)
Theorem release_pool_spec d h addr size fuel :
  head_active d h = true → is_u64 addr → 0 <= size → addr + size <= TWO64 - 64 →
  size / 64 + 3 <= Z.of_nat fuel →
  ∃ d', release_pool fuel d h addr size = Some d' ∧
    ∀ k, md_directory d' !! k =
      if decide (cl_align addr <= k < addr + size ∧ k mod 64 = 0)
      then release_line h <$> md_directory d !! k else md_directory d !! k.
Proof.
  intros Hact Ha Hs He Hf. unfold release_pool, head_active in *.
  destruct (md_heads d !! _) as [x|]; [|done]. rewrite Hact. cbn [negb].
  rewrite (u64_small (addr + size)) by (unfold is_u64 in *; lia).
  pose proof (cl_align_le addr Ha). pose proof (cl_align_bound addr Ha).
  destruct (release_loop_spec fuel h (cl_align addr) (addr + size) (md_directory d)) as (dir & -> & Hd).
  { lia. } { by apply cl_align_aligned. } { done. } { rewrite Z.max_r by lia. mlia. }
  eexists. split; [done|]. intros k. by case_match.
Qed.

(** [release_pool] on a region that ends inside the last line of the
    address space never terminates: the line address wraps to zero before the
    loop condition can fail. *)
Theorem release_pool_diverges d h addr size fuel :
  head_active d h = true → is_u64 addr → TWO64 - 64 < addr + size < TWO64 →
  release_pool fuel d h addr size = None.
Proof.
  intros Hact Ha He. unfold release_pool, head_active in *.
  destruct (md_heads d !! _) as [x|]; [|done]. rewrite Hact. cbn [negb].
  rewrite (u64_small (addr + size)) by (unfold is_u64 in *; lia).
  rewrite release_loop_diverges; [done| |by apply cl_align_aligned|lia].
  pose proof (cl_align_le addr Ha). unfold is_u64 in *. lia.
Qed.

(** The capacity check of [allocate_pool] can be passed by overflow: a
    head that has used [u] bytes is granted an allocation of [2^64 - u] bytes,
    and its usage counter returns to zero. *)
Theorem allocate_pool_overflow d h x :
  0 <= h → md_heads d !! Z.to_nat h = Some x → hs_active x = true →
  0 < hs_used_capacity x → 0 <= hs_allocated_capacity x →
  allocate_pool d h (TWO64 - hs_used_capacity x) =
  ((h *w (md_total_capacity d / 16)) +w hs_used_capacity x,
   upd_head h (set_head_pool (hs_allocated_capacity x) 0) d).
Proof.
  intros Hh Hx Ha Hu Hal. unfold allocate_pool. rewrite Hx, Ha. cbn [negb].
  replace (hs_used_capacity x + (TWO64 - hs_used_capacity x)) with TWO64 by lia.
  change (u64 TWO64) with 0. by rewrite (proj2 (Z.ltb_ge _ _)) by lia.
Qed.

(** Releasing an earlier allocation hands out a live one again: after two
    allocations of head 1 and the release of the first, the next allocation
    returns the address of the second, which is still in use. *)
Theorem release_reuses_live :
  let '(a, d1) := allocate_pool ex_device1 1 4096 in
  let '(b, d2) := allocate_pool d1 1 4096 in
  match release_pool 100 d2 1 a 4096 with
  | Some d3 => (allocate_pool d3 1 4096).1 = b ∧ a ≠ b
  | None => False
  end.
Proof. vm_compute. by split. Qed.

(** ** Witnesses *)

Lemma mhsld_single_writer_witness :
  size (readers (line ex_device 4096)) = 2%nat ∧
  ∀ h, h ∈ readers (line ex_device 4096) → 0 <= h < 16 ∧ head_active ex_device h = true.
Proof.
  split; [vm_compute; reflexivity|].
  apply (mhsld_single_writer 1048576 2 (f64_of_Z 100) (f64_of_Z 150) (f64_of_Z 32) LogPConfig_default
    ex_device 4096 ex_device_reach).
Defined.

Lemma mhsld_read_refines_witness :
  readers (line (read_with_coherency ex_device1 1 4096 30).2 4096) = readers (line ex_device1 4096) ∪ {[1]}.
Proof.
  refine (proj1 (proj2 (mhsld_read_refines ex_device1 1 4096 30 (read_with_coherency ex_device1 1 4096 30).1
    (read_with_coherency ex_device1 1 4096 30).2 _ _ _ _) _)); [|done|done|apply surjective_pairing|reflexivity].
  by do 2 apply mhsld_activate_inv; apply MHSLDDevice_new_inv.
Defined.

Lemma mhsld_write_refines_witness :
  readers (line (write_with_coherency ex_device 1 4096 30).2 4096) = {[1]}.
Proof.
  refine (proj1 (proj2 (mhsld_write_refines ex_device 1 4096 30 (write_with_coherency ex_device 1 4096 30).1
    (write_with_coherency ex_device 1 4096 30).2 ex_device_inv _ _ _) _));
    [done|done|apply surjective_pairing|vm_compute; reflexivity].
Defined.

Lemma allocations_disjoint_witness :
  (allocate_all ex_device1 [(0, 1024); (1, 4096); (0, 1024)]).1 = [(0, 0, 1024); (1, 65536, 4096); (0, 1024, 1024)] ∧
  pairwise ranges_apart (allocate_all ex_device1 [(0, 1024); (1, 4096); (0, 1024)]).1.
Proof.
  split; [vm_compute; reflexivity|].
  apply (allocations_disjoint ex_device1 [(0, 1024); (1, 4096); (0, 1024)] ex_device1_pools).
  repeat constructor; simpl; lia.
Defined.

Lemma release_pool_spec_witness :
  ∃ d', release_pool 10 ex_device1 1 4096 128 = Some d' ∧
    ∀ k, md_directory d' !! k =
      if decide (cl_align 4096 <= k < 4096 + 128 ∧ k mod 64 = 0)
      then release_line 1 <$> md_directory ex_device1 !! k else md_directory ex_device1 !! k.
Proof. apply (release_pool_spec ex_device1 1 4096 128 10); (reflexivity || done). Defined.

Lemma release_pool_diverges_witness :
  release_pool 1000 ex_device1 1 18446744073709551552 63 = None.
Proof. apply (release_pool_diverges ex_device1 1 18446744073709551552 63 1000); (reflexivity || done). Defined.

Lemma allocate_pool_overflow_witness :
  (allocate_pool (allocate_pool ex_device1 1 4096).2 1 (TWO64 - 4096)).1 = 65536 + 4096.
Proof.
  etrans; [apply (f_equal fst), (allocate_pool_overflow (allocate_pool ex_device1 1 4096).2 1
    {| hs_head_id := 1; hs_allocated_capacity := 8192; hs_used_capacity := 4096;
       hs_bandwidth_share := (f64_of_Z 8192 / f64_of_Z 12288)%f64; hs_total_reads := 0; hs_total_writes := 0;
       hs_coherency_stalls := 0; hs_back_invalidations := 0; hs_active := true |});
    [done|vm_compute; reflexivity|done|done|done]|vm_compute; reflexivity].
Defined.
