(* ===== verification/SsdBackend.v ===== *)
(** * SSD streaming backend

    Models [SsdStreamingBackend] of include/ssd_streaming_backend.h and
    src/ssd_streaming_backend.cpp: a bounded page cache with CLOCK eviction,
    read-ahead and pinning over a backing file.

    The model is the backend seen by one caller: each operation runs to its
    end, so the transient states Loading and Evicting, which a page only has
    while the lock is released for I/O, are never observed and the waits on
    them do not block.  The backing file and the allocator are outside of the
    sources: [sb_disk] is the content of the file by page, and the outcomes of
    page reads, page writes, [fsync] and buffer allocations are taken, in
    order, from [sb_io] and [sb_alloc] (success when these lists are empty).
    A failed page write leaves an arbitrary page in the file.

    The specification is a flat array of bytes: [logical]. *)

From S2P Require Import Prelude.

(** ** Data *)

Inductive SsdPageState := NonResident | Loading | ResidentClean | ResidentDirty | Evicting.

#[global] Instance SsdPageState_eq_dec : EqDecision SsdPageState.
Proof. solve_decision. Defined.

Record SsdStreamingConfig := {
  sc_backing_path : string;
  sc_capacity_bytes : Z;
  sc_page_size : Z;
  sc_io_chunk_size : Z;
  sc_cache_pages : Z;
  sc_read_ahead_pages : Z;
  sc_use_io_uring : bool;
  sc_use_odirect : bool
}.

Record SsdStreamingStats := {
  ss_reads : Z;
  ss_writes : Z;
  ss_page_faults : Z;
  ss_cache_hits : Z;
  ss_evictions : Z;
  ss_dirty_flushes : Z;
  ss_bytes_read : Z;
  ss_bytes_written : Z
}.

(** [va_page_no] and [backing_slot] are both the key of the page table. *)
Record PageMeta := {
  pm_state : SsdPageState;
  pm_refcnt : Z;
  pm_generation : Z;
  pm_dirty : bool;
  pm_accessed : bool;
  pm_pinned : bool;
  pm_streaming : bool;
  pm_data : list Z
}.

(** An I/O that succeeds, or one that fails; a failed page write leaves the
    given bytes in the page. *)
Inductive IoOutcome := IoOk | IoFail (garbage : list Z).

Record SsdStreamingBackend := {
  sb_config : SsdStreamingConfig;
  sb_initialized : bool;
  sb_generation : Z;
  sb_clock_queue : list Z;
  sb_pages : gmap Z PageMeta;
  sb_stats : SsdStreamingStats;
  sb_disk : gmap Z (list Z);
  sb_io : list IoOutcome;
  sb_alloc : list bool
}.

(** *** Field updates *)

Definition set_pages (ps : gmap Z PageMeta) (s : SsdStreamingBackend) : SsdStreamingBackend :=
  {| sb_config := sb_config s; sb_initialized := sb_initialized s; sb_generation := sb_generation s;
     sb_clock_queue := sb_clock_queue s; sb_pages := ps; sb_stats := sb_stats s; sb_disk := sb_disk s;
     sb_io := sb_io s; sb_alloc := sb_alloc s |}.

Definition set_clock (q : list Z) (s : SsdStreamingBackend) : SsdStreamingBackend :=
  {| sb_config := sb_config s; sb_initialized := sb_initialized s; sb_generation := sb_generation s;
     sb_clock_queue := q; sb_pages := sb_pages s; sb_stats := sb_stats s; sb_disk := sb_disk s;
     sb_io := sb_io s; sb_alloc := sb_alloc s |}.

Definition set_io (d : gmap Z (list Z)) (io : list IoOutcome) (s : SsdStreamingBackend) : SsdStreamingBackend :=
  {| sb_config := sb_config s; sb_initialized := sb_initialized s; sb_generation := sb_generation s;
     sb_clock_queue := sb_clock_queue s; sb_pages := sb_pages s; sb_stats := sb_stats s; sb_disk := d;
     sb_io := io; sb_alloc := sb_alloc s |}.

Definition set_alloc (al : list bool) (s : SsdStreamingBackend) : SsdStreamingBackend :=
  {| sb_config := sb_config s; sb_initialized := sb_initialized s; sb_generation := sb_generation s;
     sb_clock_queue := sb_clock_queue s; sb_pages := sb_pages s; sb_stats := sb_stats s; sb_disk := sb_disk s;
     sb_io := sb_io s; sb_alloc := al |}.

(** [++generation_]. *)
Definition next_generation (s : SsdStreamingBackend) : SsdStreamingBackend :=
  {| sb_config := sb_config s; sb_initialized := sb_initialized s; sb_generation := sb_generation s +w 1;
     sb_clock_queue := sb_clock_queue s; sb_pages := sb_pages s; sb_stats := sb_stats s; sb_disk := sb_disk s;
     sb_io := sb_io s; sb_alloc := sb_alloc s |}.

(** Adds to the counters: reads, writes, faults, hits, evictions, flushes, bytes read and written. *)
Definition count (r w f h e d br bw : Z) (s : SsdStreamingBackend) : SsdStreamingBackend :=
  let t := sb_stats s in
  {| sb_config := sb_config s; sb_initialized := sb_initialized s; sb_generation := sb_generation s;
     sb_clock_queue := sb_clock_queue s; sb_pages := sb_pages s;
     sb_stats := {| ss_reads := ss_reads t +w r; ss_writes := ss_writes t +w w;
                    ss_page_faults := ss_page_faults t +w f; ss_cache_hits := ss_cache_hits t +w h;
                    ss_evictions := ss_evictions t +w e; ss_dirty_flushes := ss_dirty_flushes t +w d;
                    ss_bytes_read := ss_bytes_read t +w br; ss_bytes_written := ss_bytes_written t +w bw |};
     sb_disk := sb_disk s; sb_io := sb_io s; sb_alloc := sb_alloc s |}.

Definition set_page (p : Z) (pm : PageMeta) (s : SsdStreamingBackend) : SsdStreamingBackend :=
  set_pages (<[p := pm]> (sb_pages s)) s.

Definition upd_page (p : Z) (f : PageMeta → PageMeta) (s : SsdStreamingBackend) : SsdStreamingBackend :=
  set_pages (alter f p (sb_pages s)) s.

Definition page_with (st : SsdPageState) (dirty : bool) (data : list Z) (pm : PageMeta) : PageMeta :=
  {| pm_state := st; pm_refcnt := pm_refcnt pm; pm_generation := pm_generation pm; pm_dirty := dirty;
     pm_accessed := pm_accessed pm; pm_pinned := pm_pinned pm; pm_streaming := pm_streaming pm;
     pm_data := data |}.

Definition page_touch (accessed : bool) (gen : Z) (pm : PageMeta) : PageMeta :=
  {| pm_state := pm_state pm; pm_refcnt := pm_refcnt pm; pm_generation := gen; pm_dirty := pm_dirty pm;
     pm_accessed := accessed; pm_pinned := pm_pinned pm; pm_streaming := pm_streaming pm;
     pm_data := pm_data pm |}.

Definition page_ref (k : Z) (pm : PageMeta) : PageMeta :=
  {| pm_state := pm_state pm; pm_refcnt := u32 (pm_refcnt pm + k); pm_generation := pm_generation pm;
     pm_dirty := pm_dirty pm; pm_accessed := pm_accessed pm; pm_pinned := pm_pinned pm;
     pm_streaming := pm_streaming pm; pm_data := pm_data pm |}.

Definition page_pin (b : bool) (pm : PageMeta) : PageMeta :=
  {| pm_state := pm_state pm; pm_refcnt := pm_refcnt pm; pm_generation := pm_generation pm;
     pm_dirty := pm_dirty pm; pm_accessed := pm_accessed pm; pm_pinned := b;
     pm_streaming := pm_streaming pm; pm_data := pm_data pm |}.

Definition page_stream (pm : PageMeta) : PageMeta :=
  {| pm_state := pm_state pm; pm_refcnt := pm_refcnt pm; pm_generation := pm_generation pm;
     pm_dirty := pm_dirty pm; pm_accessed := false; pm_pinned := pm_pinned pm;
     pm_streaming := true; pm_data := pm_data pm |}.

(** ** Configuration *)

Definition kDirectIoAlignment : Z := 4096.

Definition is_power_of_two (value : Z) : bool := negb (value =? 0) && (Z.land value (value - 1) =? 0).

Definition OFF_T_MAX : Z := 9223372036854775807.

Definition validate_config (c : SsdStreamingConfig) : bool :=
  if decide (sc_backing_path c = EmptyString) then false
  else if sc_capacity_bytes c =? 0 then false
  else if negb (is_power_of_two (sc_page_size c)) || (sc_page_size c <? 512) then false
  else if sc_use_odirect c && (sc_page_size c <? kDirectIoAlignment) then false
  else if negb (sc_capacity_bytes c mod sc_page_size c =? 0) then false
  else if OFF_T_MAX <? sc_capacity_bytes c then false
  else true.

(** The defaults that [initialize] fills in. *)
Definition fill_defaults (c : SsdStreamingConfig) : SsdStreamingConfig :=
  let cache_pages := if sc_cache_pages c =? 0 then Z.max 1024 (67108864 / sc_page_size c)
                     else sc_cache_pages c in
  let read_ahead := if (sc_read_ahead_pages c =? 0) && (sc_page_size c <? sc_io_chunk_size c)
                    then sc_io_chunk_size c / sc_page_size c else sc_read_ahead_pages c in
  {| sc_backing_path := sc_backing_path c; sc_capacity_bytes := sc_capacity_bytes c;
     sc_page_size := sc_page_size c; sc_io_chunk_size := sc_io_chunk_size c;
     sc_cache_pages := cache_pages; sc_read_ahead_pages := read_ahead;
     sc_use_io_uring := sc_use_io_uring c; sc_use_odirect := sc_use_odirect c |}.

Definition SsdStreamingBackend_new (c : SsdStreamingConfig) (disk : gmap Z (list Z))
    (io : list IoOutcome) (alloc : list bool) : SsdStreamingBackend :=
  {| sb_config := c; sb_initialized := false; sb_generation := 0; sb_clock_queue := []; sb_pages := ∅;
     sb_stats := {| ss_reads := 0; ss_writes := 0; ss_page_faults := 0; ss_cache_hits := 0; ss_evictions := 0;
                    ss_dirty_flushes := 0; ss_bytes_read := 0; ss_bytes_written := 0 |};
     sb_disk := disk; sb_io := io; sb_alloc := alloc |}.

(** [open_ok] is the outcome of opening and sizing the backing file. *)
Definition initialize (open_ok : bool) (s : SsdStreamingBackend) : bool * SsdStreamingBackend :=
  if sb_initialized s then (true, s)
  else if negb (validate_config (sb_config s) && open_ok) then (false, s)
  else (true,
    {| sb_config := fill_defaults (sb_config s); sb_initialized := true; sb_generation := sb_generation s;
       sb_clock_queue := sb_clock_queue s; sb_pages := sb_pages s; sb_stats := sb_stats s;
       sb_disk := sb_disk s; sb_io := sb_io s; sb_alloc := sb_alloc s |}).

(** ** Page I/O *)

Definition page_size (s : SsdStreamingBackend) : Z := sc_page_size (sb_config s).

(** A page of the file; bytes past its end read as zero. *)
Definition disk_page (s : SsdStreamingBackend) (p : Z) : list Z :=
  resize (Z.to_nat (page_size s)) 0 (default [] (sb_disk s !! p)).

Definition read_page (s : SsdStreamingBackend) (p : Z) : option (list Z) * SsdStreamingBackend :=
  match sb_io s with
  | IoFail _ :: io => (None, set_io (sb_disk s) io s)
  | IoOk :: io => (Some (disk_page s p), set_io (sb_disk s) io s)
  | [] => (Some (disk_page s p), s)
  end.

Definition write_page (s : SsdStreamingBackend) (p : Z) (data : list Z) : bool * SsdStreamingBackend :=
  match sb_io s with
  | IoFail garbage :: io => (false, set_io (<[p := garbage]> (sb_disk s)) io s)
  | IoOk :: io => (true, set_io (<[p := data]> (sb_disk s)) io s)
  | [] => (true, set_io (<[p := data]> (sb_disk s)) [] s)
  end.

Definition fsync (s : SsdStreamingBackend) : bool * SsdStreamingBackend :=
  match sb_io s with
  | IoFail _ :: io => (false, set_io (sb_disk s) io s)
  | IoOk :: io => (true, set_io (sb_disk s) io s)
  | [] => (true, s)
  end.

(** ** The page cache *)

Definition range_valid (s : SsdStreamingBackend) (addr size : Z) : bool :=
  if size =? 0 then false
  else if UINT64_MAX - (size - 1) <? addr then false
  else addr +w size <=? sc_capacity_bytes (sb_config s).

Definition addr_to_page (s : SsdStreamingBackend) (addr : Z) : Z := addr / page_size s.
Definition page_offset (s : SsdStreamingBackend) (addr : Z) : Z := addr mod page_size s.

Definition new_page (s : SsdStreamingBackend) : PageMeta :=
  {| pm_state := NonResident; pm_refcnt := 0; pm_generation := 0; pm_dirty := false; pm_accessed := false;
     pm_pinned := false; pm_streaming := false; pm_data := replicate (Z.to_nat (page_size s)) 0 |}.

(** Gives whether the page exists afterwards ([nullptr] otherwise). *)
Definition get_or_create_page_locked (s : SsdStreamingBackend) (p : Z) : bool * SsdStreamingBackend :=
  match sb_pages s !! p with
  | Some _ => (true, s)
  | None =>
      match sb_alloc s with
      | false :: al => (false, set_alloc al s)
      | al => (true, set_clock (sb_clock_queue s ++ [p]) (set_page p (new_page s) (set_alloc (tail al) s)))
      end
  end.

Definition load_page_locked (s : SsdStreamingBackend) (p : Z) : bool * SsdStreamingBackend :=
  if sc_capacity_bytes (sb_config s) <=? p *w page_size s then (false, s)
  else match read_page s p with
       | (Some data, s1) =>
           let s2 := next_generation s1 in
           (true, count 0 0 1 0 0 0 0 0
              (upd_page p (λ pm, page_touch true (sb_generation s2) (page_with ResidentClean false data pm)) s2))
       | (None, s1) =>
           (false, upd_page p (λ pm, page_with NonResident (pm_dirty pm) (pm_data pm) pm) s1)
       end.

Definition flush_page_locked (s : SsdStreamingBackend) (p : Z) : bool * SsdStreamingBackend :=
  match sb_pages s !! p with
  | None => (true, s)
  | Some pm =>
      if negb (pm_dirty pm) then (true, s)
      else match write_page s p (pm_data pm) with
           | (false, s1) => (false, set_page p (page_with ResidentDirty (pm_dirty pm) (pm_data pm) pm) s1)
           | (true, s1) =>
               (true, count 0 0 0 0 0 1 0 (page_size s)
                        (set_page p (page_with ResidentClean false (pm_data pm) pm) s1))
           end
  end.

Definition evict_page_locked (s : SsdStreamingBackend) (p : Z) : bool * SsdStreamingBackend :=
  match sb_pages s !! p with
  | None => (true, s)
  | Some pm =>
      if pm_pinned pm || negb (pm_refcnt pm =? 0) then (false, s)
      else match flush_page_locked s p with
           | (false, s1) => (false, s1)
           | (true, s1) => (true, count 0 0 0 0 1 0 0 0 (set_pages (delete p (sb_pages s1)) s1))
           end
  end.

(** The attempts of [evict_one_locked]. *)
Fixpoint clock_loop (attempts : nat) (s : SsdStreamingBackend) : bool * SsdStreamingBackend :=
  match attempts, sb_clock_queue s with
  | O, _ => (false, s)
  | _, [] => (false, s)
  | S n, p :: rest =>
      let s1 := set_clock rest s in
      match sb_pages s !! p with
      | None => clock_loop n s1
      | Some pm =>
          if pm_pinned pm || negb (pm_refcnt pm =? 0) then clock_loop n (set_clock (rest ++ [p]) s1)
          else if pm_accessed pm then
            clock_loop n (upd_page p (λ pm, page_touch false (pm_generation pm) pm) (set_clock (rest ++ [p]) s1))
          else evict_page_locked s1 p
      end
  end.

Definition evict_one_locked (s : SsdStreamingBackend) : bool * SsdStreamingBackend :=
  if bool_decide (sb_pages s = ∅) then (true, s)
  else clock_loop (length (sb_clock_queue s) * 2 + 1) s.

Definition num_pages (s : SsdStreamingBackend) : Z := Z.of_nat (size (sb_pages s)).

(** [while (pages_.size() >= cache_pages && !pages_.empty()) if (!evict_one) ...]:
    false when an eviction failed.  Every successful eviction removes a page,
    so as much fuel as there are pages is enough. *)
Fixpoint make_room (fuel : nat) (s : SsdStreamingBackend) : bool * SsdStreamingBackend :=
  match fuel with
  | O => (false, s)
  | S fuel' =>
      if (sc_cache_pages (sb_config s) <=? num_pages s) && negb (bool_decide (sb_pages s = ∅)) then
        match evict_one_locked s with
        | (true, s1) => make_room fuel' s1
        | (false, s1) => (false, s1)
        end
      else (true, s)
  end.

Definition room_for (s : SsdStreamingBackend) (p : Z) : bool * SsdStreamingBackend :=
  match sb_pages s !! p with
  | Some _ => (true, s)
  | None => make_room (S (size (sb_pages s))) s
  end.

(** [while (pages_.size() > cache_pages) if (!evict_one) break;]. *)
Fixpoint trim (fuel : nat) (s : SsdStreamingBackend) : SsdStreamingBackend :=
  match fuel with
  | O => s
  | S fuel' =>
      if sc_cache_pages (sb_config s) <? num_pages s then
        match evict_one_locked s with
        | (true, s1) => trim fuel' s1
        | (false, s1) => s1
        end
      else s
  end.

Definition trim_all (s : SsdStreamingBackend) : SsdStreamingBackend := trim (S (size (sb_pages s))) s.

(** The read-ahead loop: [n] pages left, the next one is [p]. *)
Fixpoint readahead_loop (n : nat) (p last_page : Z) (s : SsdStreamingBackend) : SsdStreamingBackend :=
  match n with
  | O => s
  | S n' =>
      if last_page <? p then s
      else
        match room_for s p with
        | (false, s1) => s1
        | (true, s1) =>
            match get_or_create_page_locked s1 p with
            | (false, s2) => s2
            | (true, s2) =>
                let s3 := match sb_pages s2 !! p with
                          | Some pm => if decide (pm_state pm = NonResident) then (load_page_locked s2 p).2 else s2
                          | None => s2
                          end in
                readahead_loop n' (p + 1) last_page (trim_all s3)
            end
        end
  end.

Definition last_page (s : SsdStreamingBackend) : Z := (sc_capacity_bytes (sb_config s) - 1) / page_size s.

Definition ensure_page_loaded_locked (s : SsdStreamingBackend) (p : Z) (issue_readahead : bool)
    : bool * SsdStreamingBackend :=
  match room_for s p with
  | (false, s1) => (false, s1)
  | (true, s1) =>
      match get_or_create_page_locked s1 p with
      | (false, s2) => (false, s2)
      | (true, s2) =>
          let resident := match sb_pages s2 !! p with
                          | Some pm => bool_decide (pm_state pm = ResidentClean) ||
                                       bool_decide (pm_state pm = ResidentDirty)
                          | None => false
                          end in
          if resident then
            let s3 := next_generation s2 in
            (true, count 0 0 0 1 0 0 0 0 (upd_page p (page_touch true (sb_generation s3)) s3))
          else
            match load_page_locked (trim_all s2) p with
            | (false, s4) => (false, s4)
            | (true, s4) =>
                if issue_readahead then
                  let s5 := upd_page p (page_ref 1) s4 in
                  let s6 := readahead_loop (Z.to_nat (sc_read_ahead_pages (sb_config s))) (p + 1) (last_page s) s5 in
                  (true, upd_page p (page_ref (-1)) s6)
                else (true, s4)
            end
      end
  end.

(** ** Public operations

    [read] and [write] take the buffer as a list; a null pointer is [None]. *)

(** [memcpy] of [chunk] into a page buffer at [off]. *)
Definition splice (off : Z) (chunk data : list Z) : list Z :=
  take (Z.to_nat off) data ++ chunk ++ drop (Z.to_nat off + length chunk) data.

(** The loop of [read]: the bytes from [addr + copied] on.  Every turn copies at
    least one byte, so [size + 1] is enough fuel.  [first] is [copied == 0].
    A page missing after a successful load would be an exception of [at]. *)
Fixpoint read_loop (fuel : nat) (s : SsdStreamingBackend) (current remaining : Z) (first : bool)
    : option (list Z) * SsdStreamingBackend :=
  match fuel with
  | O => (None, s)
  | S fuel' =>
      if remaining <=? 0 then (Some [], s)
      else
        let p := addr_to_page s current in
        let off := page_offset s current in
        let chunk := Z.min remaining (page_size s - off) in
        match ensure_page_loaded_locked s p first with
        | (false, s1) => (None, s1)
        | (true, s1) =>
            match sb_pages s1 !! p with
            | None => (None, s1)
            | Some pm =>
                let bytes := take (Z.to_nat chunk) (drop (Z.to_nat off) (pm_data pm)) in
                match read_loop fuel' s1 (current + chunk) (remaining - chunk) false with
                | (Some rest, s2) => (Some (bytes ++ rest), s2)
                | (None, s2) => (None, s2)
                end
            end
        end
  end.

Definition read (s : SsdStreamingBackend) (addr size : Z) : option (list Z) * SsdStreamingBackend :=
  if negb (range_valid s addr size) then (None, s)
  else if negb (sb_initialized s) then (None, s)
  else match read_loop (S (Z.to_nat size)) s addr size true with
       | (Some bytes, s1) => (Some bytes, count 1 0 0 0 0 0 size 0 s1)
       | (None, s1) => (None, s1)
       end.

(** The loop of [write]: [src] holds the bytes still to be written at [current]. *)
Fixpoint write_loop (fuel : nat) (s : SsdStreamingBackend) (current : Z) (src : list Z) : bool * SsdStreamingBackend :=
  match fuel with
  | O => (false, s)
  | S fuel' =>
      match src with
      | [] => (true, s)
      | _ =>
          let p := addr_to_page s current in
          let off := page_offset s current in
          let chunk := Z.min (Z.of_nat (length src)) (page_size s - off) in
          match ensure_page_loaded_locked s p false with
          | (false, s1) => (false, s1)
          | (true, s1) =>
              match sb_pages s1 !! p with
              | None => (false, s1)
              | Some pm =>
                  let s2 := next_generation s1 in
                  let data := splice off (take (Z.to_nat chunk) src) (pm_data pm) in
                  write_loop fuel'
                    (set_page p (page_touch true (sb_generation s2) (page_with ResidentDirty true data pm)) s2)
                    (current + chunk) (drop (Z.to_nat chunk) src)
              end
          end
      end
  end.

Definition write (s : SsdStreamingBackend) (addr : Z) (src : list Z) : bool * SsdStreamingBackend :=
  let size := Z.of_nat (length src) in
  if negb (range_valid s addr size) then (false, s)
  else if negb (sb_initialized s) then (false, s)
  else match write_loop (S (length src)) s addr src with
       | (true, s1) => (true, count 0 1 0 0 0 0 0 size s1)
       | (false, s1) => (false, s1)
       end.

(** Flushes the listed pages; true when every one was written. *)
Fixpoint flush_all (ps : list Z) (s : SsdStreamingBackend) : bool * SsdStreamingBackend :=
  match ps with
  | [] => (true, s)
  | p :: rest =>
      let '(ok, s1) := flush_page_locked s p in
      let '(ok', s2) := flush_all rest s1 in
      (ok && ok', s2)
  end.

(** The order of the snapshot is the order of the hash map. *)
Definition snapshot (s : SsdStreamingBackend) : list Z := fst <$> map_to_list (sb_pages s).

Definition flush (s : SsdStreamingBackend) : bool * SsdStreamingBackend :=
  if negb (sb_initialized s) then (false, s)
  else
    let ps := snapshot s in
    let s1 := set_pages (page_ref 1 <$> sb_pages s) s in
    let '(ok, s2) := flush_all ps s1 in
    let s3 := set_pages (page_ref (-1) <$> sb_pages s2) s2 in
    if negb ok then (false, s3) else fsync s3.

(** The loops over the pages of a range, [n] pages left. *)
Fixpoint prefetch_loop (n : nat) (p : Z) (s : SsdStreamingBackend) : bool * SsdStreamingBackend :=
  match n with
  | O => (true, s)
  | S n' => match ensure_page_loaded_locked s p false with
            | (true, s1) => prefetch_loop n' (p + 1) s1
            | (false, s1) => (false, s1)
            end
  end.

Fixpoint evict_loop (n : nat) (p : Z) (s : SsdStreamingBackend) : bool * SsdStreamingBackend :=
  match n with
  | O => (true, s)
  | S n' => let '(ok, s1) := evict_page_locked s p in
            let '(ok', s2) := evict_loop n' (p + 1) s1 in (ok && ok', s2)
  end.

Fixpoint pin_loop (n : nat) (p : Z) (s : SsdStreamingBackend) : bool * SsdStreamingBackend :=
  match n with
  | O => (true, s)
  | S n' => match ensure_page_loaded_locked s p false with
            | (true, s1) => pin_loop n' (p + 1) (upd_page p (page_pin true) s1)
            | (false, s1) => (false, s1)
            end
  end.

Fixpoint unpin_loop (n : nat) (p : Z) (s : SsdStreamingBackend) : SsdStreamingBackend :=
  match n with
  | O => s
  | S n' => unpin_loop n' (p + 1) (upd_page p (page_pin false) s)
  end.

Fixpoint streaming_loop (n : nat) (p : Z) (s : SsdStreamingBackend) : bool * SsdStreamingBackend :=
  match n with
  | O => (true, s)
  | S n' =>
      match room_for s p with
      | (false, s1) => (false, s1)
      | (true, s1) =>
          match get_or_create_page_locked s1 p with
          | (false, s2) => (false, s2)
          | (true, s2) => streaming_loop n' (p + 1) (upd_page p page_stream s2)
          end
      end
  end.

(** [range_valid && initialized_], and the pages [first .. last] of the range. *)
Definition op_ready (s : SsdStreamingBackend) (addr size : Z) : bool := range_valid s addr size && sb_initialized s.
Definition first_page (s : SsdStreamingBackend) (addr : Z) : Z := addr_to_page s addr.
Definition page_count (s : SsdStreamingBackend) (addr size : Z) : nat :=
  Z.to_nat (addr_to_page s (addr + size - 1) - addr_to_page s addr + 1).

Definition prefetch (s : SsdStreamingBackend) (addr size : Z) : bool * SsdStreamingBackend :=
  if op_ready s addr size then prefetch_loop (page_count s addr size) (first_page s addr) s else (false, s).

Definition evict_after (s : SsdStreamingBackend) (addr size : Z) : bool * SsdStreamingBackend :=
  if op_ready s addr size then evict_loop (page_count s addr size) (first_page s addr) s else (false, s).

Definition pin (s : SsdStreamingBackend) (addr size : Z) : bool * SsdStreamingBackend :=
  if op_ready s addr size then pin_loop (page_count s addr size) (first_page s addr) s else (false, s).

Definition unpin (s : SsdStreamingBackend) (addr size : Z) : bool * SsdStreamingBackend :=
  if op_ready s addr size then (true, unpin_loop (page_count s addr size) (first_page s addr) s) else (false, s).

Definition set_streaming (s : SsdStreamingBackend) (addr size : Z) : bool * SsdStreamingBackend :=
  if op_ready s addr size then streaming_loop (page_count s addr size) (first_page s addr) s else (false, s).

(** [shutdown] flushes what it can and forgets the cache. *)
Definition shutdown (s : SsdStreamingBackend) : SsdStreamingBackend :=
  if negb (sb_initialized s) then s
  else
    let s1 := (fsync (flush_all (snapshot s) s).2).2 in
    {| sb_config := sb_config s1; sb_initialized := false; sb_generation := sb_generation s1;
       sb_clock_queue := []; sb_pages := ∅; sb_stats := sb_stats s1; sb_disk := sb_disk s1;
       sb_io := sb_io s1; sb_alloc := sb_alloc s1 |}.

(** ** The specification: a flat array of bytes *)

Definition resident (pm : PageMeta) : bool :=
  match pm_state pm with ResidentClean | ResidentDirty => true | _ => false end.

(** The content of a page: the cached copy, or the file. *)
Definition page_content (s : SsdStreamingBackend) (p : Z) : list Z :=
  match sb_pages s !! p with
  | Some pm => if resident pm then pm_data pm else disk_page s p
  | None => disk_page s p
  end.

(** The byte at an address. *)
Definition logical (s : SsdStreamingBackend) (a : Z) : Z :=
  nth (Z.to_nat (page_offset s a)) (page_content s (addr_to_page s a)) 0.

(** ** Invariant *)

Record page_ok (s : SsdStreamingBackend) (p : Z) (pm : PageMeta) : Prop := {
  po_addr : 0 <= p ∧ p * page_size s < TWO64;
  po_range : resident pm = true → p <= last_page s;
  po_state : pm_state pm = NonResident ∨ pm_state pm = ResidentClean ∨ pm_state pm = ResidentDirty;
  po_dirty : pm_dirty pm = bool_decide (pm_state pm = ResidentDirty);
  po_length : length (pm_data pm) = Z.to_nat (page_size s);
  po_clean : pm_state pm = ResidentClean → pm_data pm = disk_page s p
}.

(** What [validate_config] and [initialize] establish. *)
Record config_ok (c : SsdStreamingConfig) : Prop := {
  co_page : 512 <= sc_page_size c;
  co_capacity : 0 < sc_capacity_bytes c <= OFF_T_MAX;
  co_aligned : sc_capacity_bytes c mod sc_page_size c = 0;
  co_cache : 1 <= sc_cache_pages c;
  co_readahead : 0 <= sc_read_ahead_pages c
}.

Record ssd_inv (s : SsdStreamingBackend) : Prop := {
  si_config : config_ok (sb_config s);
  si_pages : ∀ p pm, sb_pages s !! p = Some pm → page_ok s p pm;
  si_bound : num_pages s <= sc_cache_pages (sb_config s)
}.

(** A page that may not be evicted. *)
Definition held (pm : PageMeta) : Prop := pm_pinned pm = true ∨ pm_refcnt pm ≠ 0.

Definition refcount (s : SsdStreamingBackend) (p : Z) : Z :=
  match sb_pages s !! p with Some pm => pm_refcnt pm | None => 0 end.

(** What every internal step of the cache keeps: the invariant, the
    configuration, the content of every page, the reference counts, and the
    presence of the pages that are pinned or referenced. *)
Record step_ok (s s' : SsdStreamingBackend) : Prop := {
  ok_inv : ssd_inv s';
  ok_config : sb_config s' = sb_config s;
  ok_init : sb_initialized s' = sb_initialized s;
  ok_content : ∀ p, page_content s' p = page_content s p;
  ok_ref : ∀ p pm', sb_pages s' !! p = Some pm' → pm_refcnt pm' = refcount s p;
  ok_held : ∀ p pm, sb_pages s !! p = Some pm → held pm →
    ∃ pm', sb_pages s' !! p = Some pm' ∧ pm_pinned pm' = pm_pinned pm ∧
      (resident pm = true → resident pm' = true)
}.

(** ** Lemmas: composition *)

Lemma step_ok_refl s : ssd_inv s → step_ok s s.
Proof. intros Hi. split; try done; [intros p pm Hp; unfold refcount; by rewrite Hp|eauto]. Qed.

Lemma step_ok_trans s1 s2 s3 : step_ok s1 s2 → step_ok s2 s3 → step_ok s1 s3.
Proof.
  intros [I1 C1 N1 P1 R1 H1] [I2 C2 N2 P2 R2 H2]. split; try done; try congruence.
  - intros p pm3 Hp3. rewrite (R2 p pm3 Hp3). unfold refcount at 1.
    destruct (sb_pages s2 !! p) as [pm2|] eqn:E2; [by apply R1|].
    unfold refcount. destruct (sb_pages s1 !! p) as [pm1|] eqn:E1; [|done].
    destruct (decide (pm_refcnt pm1 = 0)) as [->|Hne]; [done|].
    destruct (H1 p pm1 E1 (or_intror Hne)) as (? & ? & _). congruence.
  - intros p pm Hp Hh. destruct (H1 p pm Hp Hh) as (pm2 & E2 & Hpin & Hres).
    assert (held pm2) as Hh2.
    { unfold held in *. rewrite Hpin, (R1 p pm2 E2). unfold refcount. by rewrite Hp. }
    destruct (H2 p pm2 E2 Hh2) as (pm3 & E3 & Hpin3 & Hres3). exists pm3.
    split_and!; [done|congruence|auto].
Qed.

(** States that agree on configuration, pages and file. *)
Definition same_store (s s' : SsdStreamingBackend) : Prop :=
  sb_config s' = sb_config s ∧ sb_initialized s' = sb_initialized s ∧
  sb_pages s' = sb_pages s ∧ sb_disk s' = sb_disk s.

Lemma same_store_disk s s' p : same_store s s' → disk_page s' p = disk_page s p.
Proof. intros (Hc & _ & _ & Hd). unfold disk_page, page_size. by rewrite Hc, Hd. Qed.

Lemma page_ok_ext s s' p pm :
  sb_config s' = sb_config s → disk_page s' p = disk_page s p → page_ok s p pm → page_ok s' p pm.
Proof.
  intros Hc Hd [H1 H2 H3 H4 H5 H6].
  assert (page_size s' = page_size s) as Hps by (unfold page_size; by rewrite Hc).
  assert (last_page s' = last_page s) as Hl by (unfold last_page; by rewrite Hc, Hps).
  split; rewrite ?Hps, ?Hl, ?Hd; done.
Qed.

Lemma same_store_ok s s' : ssd_inv s → same_store s s' → step_ok s s'.
Proof.
  intros Hi Hs. pose proof (λ p, same_store_disk s s' p Hs) as Hd. destruct Hs as (Hc & Hn & Hp & Hdk).
  destruct Hi as [Hcfg Hpg Hb]. split; try done.
  - split; [by rewrite Hc| |by unfold num_pages; rewrite Hp, Hc].
    intros p pm. rewrite Hp. intros He. by apply (page_ok_ext s); auto.
  - intros p. unfold page_content. by rewrite Hp, Hd.
  - intros p pm'. rewrite Hp. intros He. unfold refcount. by rewrite He.
  - intros p pm He _. exists pm. by rewrite Hp.
Qed.

(** Rewriting one present page, keeping its reference count, its pin and its content. *)
Lemma set_page_ok s p pm pm' :
  ssd_inv s → sb_pages s !! p = Some pm → page_ok s p pm' →
  pm_refcnt pm' = pm_refcnt pm → pm_pinned pm' = pm_pinned pm →
  (resident pm = true → resident pm' = true) →
  (if resident pm' then pm_data pm' else disk_page s p) = page_content s p →
  step_ok s (set_page p pm' s).
Proof.
  intros [Hc Hpg Hb] Hp Hok Href Hpin Hres Hcont. split; try done; simpl.
  - split; [done| |]; simpl.
    + intros q x. destruct (decide (p = q)) as [<-|Hne].
      * rewrite lookup_insert_eq. intros [= <-]. by apply (page_ok_ext s).
      * rewrite lookup_insert_ne by done. intros Hq. apply (page_ok_ext s); auto.
    + unfold num_pages in *. simpl. rewrite map_size_insert_Some; [done|by rewrite Hp].
  - intros q. destruct (decide (p = q)) as [<-|Hne]; unfold page_content at 1; simpl.
    + rewrite lookup_insert_eq. exact Hcont.
    + rewrite lookup_insert_ne by done. done.
  - intros q x. destruct (decide (p = q)) as [<-|Hne].
    + rewrite lookup_insert_eq. intros [= <-]. unfold refcount. by rewrite Hp.
    + rewrite lookup_insert_ne by done. intros Hq. unfold refcount. by rewrite Hq.
  - intros q x Hq _. destruct (decide (p = q)) as [<-|Hne].
    + rewrite lookup_insert_eq. simplify_eq. eauto.
    + rewrite lookup_insert_ne by done. eauto.
Qed.

Lemma upd_page_set s p pm f : sb_pages s !! p = Some pm → upd_page p f s = set_page p (f pm) s.
Proof.
  intros Hp. unfold upd_page, set_page. f_equal. apply map_eq. intros q.
  destruct (decide (p = q)) as [<-|Hne].
  - by rewrite lookup_alter_eq, lookup_insert_eq, Hp.
  - by rewrite lookup_alter_ne, lookup_insert_ne.
Qed.

Lemma upd_page_none s p f : sb_pages s !! p = None → upd_page p f s = s.
Proof.
  intros Hp. assert (alter f p (sb_pages s) = sb_pages s) as Ha.
  { apply map_eq. intros q. destruct (decide (p = q)) as [<-|Hne]; [|by rewrite lookup_alter_ne].
    by rewrite lookup_alter_eq, Hp. }
  unfold upd_page, set_pages. rewrite Ha. by destruct s.
Qed.

(** ** Lemmas: the internal operations *)

Lemma page_meta_ok s p pm f :
  page_ok s p pm → pm_state (f pm) = pm_state pm → pm_dirty (f pm) = pm_dirty pm →
  pm_data (f pm) = pm_data pm → page_ok s p (f pm).
Proof.
  intros [H1 H2 H3 H4 H5 H6] Hs Hd Hda.
  split; unfold resident in *; rewrite ?Hs, ?Hd, ?Hda; done.
Qed.

(** Updates of the bookkeeping bits of a page. *)
Lemma upd_page_meta_ok s p f :
  ssd_inv s →
  (∀ pm, pm_state (f pm) = pm_state pm ∧ pm_dirty (f pm) = pm_dirty pm ∧ pm_data (f pm) = pm_data pm ∧
         pm_refcnt (f pm) = pm_refcnt pm ∧ pm_pinned (f pm) = pm_pinned pm) →
  step_ok s (upd_page p f s).
Proof.
  intros Hi Hf. destruct (sb_pages s !! p) as [pm|] eqn:E.
  - rewrite (upd_page_set s p pm f E). destruct (Hf pm) as (Hs & Hd & Hda & Hr & Hpin).
    assert (resident (f pm) = resident pm) as Hres by (unfold resident; by rewrite Hs).
    apply (set_page_ok s p pm); try done.
    + apply page_meta_ok; auto. by apply (si_pages s Hi).
    + by rewrite Hres.
    + unfold page_content. by rewrite E, Hres, Hda.
  - rewrite upd_page_none by done. by apply step_ok_refl.
Qed.

Lemma read_page_spec s p r s' :
  read_page s p = (r, s') → same_store s s' ∧ (∀ data, r = Some data → data = disk_page s p).
Proof.
  unfold read_page. destruct (sb_io s) as [|[|g] io]; intros [= <- <-]; repeat split; naive_solver.
Qed.

Lemma disk_page_length s p : length (disk_page s p) = Z.to_nat (page_size s).
Proof. unfold disk_page. apply length_resize. Qed.

Lemma last_page_bound s p :
  config_ok (sb_config s) → p * page_size s < sc_capacity_bytes (sb_config s) → p <= last_page s.
Proof.
  intros [Hp _ _ _ _] Hlt. unfold last_page, page_size in *. apply Z.div_le_lower_bound; lia.
Qed.

Lemma step_ok_store s s1 s2 : step_ok s s1 → same_store s1 s2 → step_ok s s2.
Proof. intros Hs Hst. eapply step_ok_trans; [exact Hs|]. apply same_store_ok; [apply Hs|done]. Qed.

Lemma load_page_ok s p pm ok s' :
  ssd_inv s → sb_pages s !! p = Some pm → pm_state pm = NonResident → load_page_locked s p = (ok, s') →
  step_ok s s' ∧ (ok = true → ∃ pm, sb_pages s' !! p = Some pm ∧ resident pm = true).
Proof.
  intros Hi Hp Hst Hl. unfold load_page_locked in Hl.
  pose proof (si_pages s Hi p pm Hp) as [Ha Hra Hsta Hdi Hlen Hcl].
  rewrite (u64_small (p * page_size s)) in Hl.
  2: { destruct (si_config s Hi). unfold is_u64, page_size in *. nia. }
  destruct (_ <=? _) eqn:Ecap; btests; [simplify_eq; split; [by apply step_ok_refl|done]|].
  destruct (read_page s p) as [r s1] eqn:Er. apply read_page_spec in Er as [Hss Hr].
  pose proof (same_store_ok s s1 Hi Hss) as Hok1. pose proof Hss as (Hc1 & _ & Hp1 & _).
  pose proof (same_store_disk s s1 p Hss) as Hd1.
  assert (sb_pages s1 !! p = Some pm) as Hps1 by by rewrite Hp1.
  assert (page_content s1 p = disk_page s1 p) as Hcont.
  { unfold page_content, resident. by rewrite Hps1, Hst. }
  destruct r as [data|]; injection Hl as <- <-.
  - specialize (Hr data eq_refl). rewrite (upd_page_set _ p pm) by done.
    set (s2 := next_generation s1). set (pm' := page_touch _ _ _).
    split; [|intros _; exists pm'; split; [apply lookup_insert_eq|done]].
    apply (step_ok_store s (set_page p pm' s2)); [|done].
    apply (step_ok_trans _ s2); [by apply (step_ok_store _ s1)|].
    apply (set_page_ok s2 p pm); try done; [apply (step_ok_store _ _ _ Hok1); done| |].
    + apply (page_ok_ext s); [done|by rewrite <- Hd1|]. split; simpl; try done.
      * intros _. by apply last_page_bound; [apply si_config|].
      * tauto.
      * rewrite Hr. apply disk_page_length.
    + simpl. rewrite Hr, <- Hd1. symmetry. exact Hcont.
  - rewrite (upd_page_set _ p pm) by done. split; [|done].
    eapply step_ok_trans; [exact Hok1|].
    apply (set_page_ok s1 p pm); try done; [apply Hok1| |].
    + apply (page_ok_ext s); [done|done|]. split; simpl; try done; [tauto|by rewrite Hdi, Hst].
    + unfold resident. by rewrite Hst.
Qed.

Lemma write_page_spec s p data ok s' :
  write_page s p data = (ok, s') →
  sb_config s' = sb_config s ∧ sb_initialized s' = sb_initialized s ∧ sb_pages s' = sb_pages s ∧
  (∀ q, q ≠ p → disk_page s' q = disk_page s q) ∧
  (ok = true → length data = Z.to_nat (page_size s) → disk_page s' p = data).
Proof.
  unfold write_page, disk_page.
  destruct (sb_io s) as [|[|g] io]; intros [= <- <-]; split_and!; try done; simpl;
    try (intros q Hq; by rewrite lookup_insert_ne).
  all: intros _ Hlen; rewrite lookup_insert_eq; simpl; unfold page_size in *; simpl; rewrite <- Hlen; apply resize_all.
Qed.

(** Rewriting a resident page together with its slot of the file. *)
Lemma set_page_disk_ok s s1 p pm pm' :
  ssd_inv s → sb_config s1 = sb_config s → sb_initialized s1 = sb_initialized s → sb_pages s1 = sb_pages s →
  (∀ q, q ≠ p → disk_page s1 q = disk_page s q) →
  sb_pages s !! p = Some pm → resident pm = true → page_ok s1 p pm' →
  pm_refcnt pm' = pm_refcnt pm → pm_pinned pm' = pm_pinned pm → resident pm' = true →
  pm_data pm' = pm_data pm → step_ok s (set_page p pm' s1).
Proof.
  intros [Hc Hpg Hb] Hc1 Hn1 Hp1 Hd1 Hp Hres Hok Href Hpin Hres' Hdata. split; try done; simpl.
  - split; simpl; [by rewrite Hc1| |].
    + intros q x. rewrite Hp1. destruct (decide (p = q)) as [<-|Hne].
      * rewrite lookup_insert_eq. intros [= <-]. by apply (page_ok_ext s1).
      * rewrite lookup_insert_ne by done. intros Hq.
        by apply (page_ok_ext s); [done|apply Hd1|apply Hpg].
    + unfold num_pages in *. simpl. rewrite Hp1, Hc1, map_size_insert_Some; [done|by rewrite Hp].
  - intros q. unfold page_content. simpl. rewrite Hp1.
    destruct (decide (p = q)) as [<-|Hne]; [by rewrite lookup_insert_eq, Hp, Hres, Hres'|].
    rewrite lookup_insert_ne by done.
    change (disk_page (set_page p pm' s1) q) with (disk_page s1 q). by rewrite Hd1.
  - intros q x. rewrite Hp1. destruct (decide (p = q)) as [<-|Hne].
    + rewrite lookup_insert_eq. intros [= <-]. unfold refcount. by rewrite Hp.
    + rewrite lookup_insert_ne by done. intros Hq. unfold refcount. by rewrite Hq.
  - intros q x Hq _. rewrite Hp1. destruct (decide (p = q)) as [<-|Hne].
    + rewrite lookup_insert_eq. simplify_eq. eauto.
    + rewrite lookup_insert_ne by done. eauto.
Qed.

(** Pages and file agree away from [p], and [p] keeps its bookkeeping. *)
Record only_page (s s' : SsdStreamingBackend) (p : Z) (ok : bool) : Prop := {
  op_page : ∀ pm, sb_pages s !! p = Some pm → ∃ pm', sb_pages s' !! p = Some pm' ∧
    pm_pinned pm' = pm_pinned pm ∧ pm_refcnt pm' = pm_refcnt pm ∧
    (ok = true → pm_dirty pm' = false) ∧ (pm_dirty pm = false → pm_dirty pm' = false);
  op_none : sb_pages s !! p = None → sb_pages s' !! p = None;
  op_other : ∀ q, q ≠ p → sb_pages s' !! q = sb_pages s !! q ∧ disk_page s' q = disk_page s q;
  op_size : size (sb_pages s') = size (sb_pages s)
}.

Lemma flush_page_ok s p ok s' :
  ssd_inv s → flush_page_locked s p = (ok, s') → step_ok s s' ∧ only_page s s' p ok.
Proof.
  intros Hi Hf. unfold flush_page_locked in Hf. destruct (sb_pages s !! p) as [pm|] eqn:Hp.
  2: { simplify_eq. split; [by apply step_ok_refl|]. split; try done. congruence. }
  destruct (pm_dirty pm) eqn:Hd; simpl in Hf.
  2: { simplify_eq. split; [by apply step_ok_refl|]. split; try done. intros x Hx. simplify_eq. eauto 10. }
  pose proof (si_pages s Hi p pm Hp) as [Ha Hra Hsta Hdi Hlen Hcl].
  rewrite Hd in Hdi. symmetry in Hdi. apply bool_decide_eq_true in Hdi.
  assert (resident pm = true) as Hres by (unfold resident; by rewrite Hdi).
  destruct (write_page s p (pm_data pm)) as [wok s1] eqn:Ew.
  apply write_page_spec in Ew as (Hc1 & Hn1 & Hp1 & Hd1 & Hdp).
  assert (page_size s1 = page_size s) as Hps by (unfold page_size; by rewrite Hc1).
  assert (last_page s1 = last_page s) as Hlp by (unfold last_page; by rewrite Hc1, Hps).
  set (pm' := if wok then page_with ResidentClean false (pm_data pm) pm
              else page_with ResidentDirty true (pm_data pm) pm).
  assert (step_ok s (set_page p pm' s1)) as Hok.
  { apply (set_page_disk_ok s s1 p pm); try done; try (by destruct wok).
    destruct wok; split; simpl; rewrite ?Hps, ?Hlp; try done; auto.
    intros _. symmetry. by apply Hdp. }
  assert (sb_pages (set_page p pm' s1) !! p = Some pm') as Hlk by apply lookup_insert_eq.
  assert (∀ q, q ≠ p → sb_pages (set_page p pm' s1) !! q = sb_pages s !! q) as Hoth.
  { intros q Hq. simpl. by rewrite Hp1, lookup_insert_ne. }
  assert (size (sb_pages (set_page p pm' s1)) = size (sb_pages s)) as Hsz.
  { simpl. rewrite Hp1, map_size_insert_Some; [done|by rewrite Hp]. }
  destruct wok; injection Hf as <- <-.
  - split; [apply (step_ok_store s (set_page p pm' s1)); done|].
    split; try done; [|congruence|].
    + intros x Hx. simplify_eq. exists pm'. by repeat split.
    + intros q Hq. split; [by apply Hoth|]. by apply Hd1.
  - split; [done|]. split; try done; [|congruence|].
    + intros x Hx. simplify_eq. exists pm'. repeat split; try done. congruence.
    + intros q Hq. split; [by apply Hoth|]. by apply Hd1.
Qed.

(** Dropping a page that is not held and not dirty. *)
Lemma delete_page_ok s p pm :
  ssd_inv s → sb_pages s !! p = Some pm → ¬ held pm → pm_dirty pm = false →
  step_ok s (set_pages (delete p (sb_pages s)) s).
Proof.
  intros Hi Hp Hh Hd. pose proof (si_pages s Hi p pm Hp) as [Ha Hra Hsta Hdi Hlen Hcl].
  rewrite Hd in Hdi. symmetry in Hdi. apply bool_decide_eq_false in Hdi.
  destruct Hi as [Hc Hpg Hb]. split; try done; simpl.
  - split; simpl; [done| |].
    + intros q x. rewrite lookup_delete_Some. intros [_ Hq]. apply (page_ok_ext s); auto.
    + unfold num_pages in *. simpl. rewrite map_size_delete, Hp. lia.
  - intros q. unfold page_content. simpl. destruct (decide (p = q)) as [<-|Hne].
    + rewrite lookup_delete_eq, Hp. unfold resident.
      destruct Hsta as [Hs|[Hs|Hs]]; rewrite Hs; try done. symmetry. by apply Hcl.
    + by rewrite lookup_delete_ne.
  - intros q x. rewrite lookup_delete_Some. intros [_ Hq]. unfold refcount. by rewrite Hq.
  - intros q x Hq Hx. destruct (decide (p = q)) as [<-|Hne]; [by simplify_eq|].
    rewrite lookup_delete_ne by done. eauto.
Qed.

Lemma evict_page_ok s p ok s' :
  ssd_inv s → evict_page_locked s p = (ok, s') →
  step_ok s s' ∧ (ok = true → is_Some (sb_pages s !! p) → S (size (sb_pages s')) = size (sb_pages s)) ∧
  (ok = false → size (sb_pages s') = size (sb_pages s)) ∧ (ok = true → sb_pages s' !! p = None).
Proof.
  intros Hi He. unfold evict_page_locked in He. destruct (sb_pages s !! p) as [pm|] eqn:Hp.
  2: { simplify_eq. split; [by apply step_ok_refl|]. split_and!; try done; by intros _ [??]. }
  destruct (_ || _) eqn:Eh; [simplify_eq; split; [by apply step_ok_refl|done]|]. btests.
  destruct (flush_page_locked s p) as [fok s1] eqn:Ef.
  apply flush_page_ok in Ef as [Hok1 [Hpg _ _ Hsz]]; [|done].
  destruct (Hpg pm Hp) as (pm1 & Hp1 & Hpin & Href & Hcl & _).
  destruct fok; simplify_eq; [|by split]. split_and!; try done.
  - apply (step_ok_store s (set_pages (delete p (sb_pages s1)) s1)); [|done].
    eapply step_ok_trans; [exact Hok1|]. apply (delete_page_ok _ _ pm1); [apply Hok1|done| |by apply Hcl].
    unfold held. rewrite Hpin, Href. intros [?|?]; congruence.
  - intros _ _. simpl. rewrite map_size_delete, Hp1, <- Hsz.
    assert (size (sb_pages s1) ≠ 0%nat); [|lia].
    rewrite map_size_ne_0_lookup. eauto.
  - intros _. simpl. apply lookup_delete_eq.
Qed.

Lemma upd_page_size p f s : size (sb_pages (upd_page p f s)) = size (sb_pages s).
Proof.
  destruct (sb_pages s !! p) as [pm|] eqn:E; [|by rewrite upd_page_none].
  rewrite (upd_page_set s p pm) by done. simpl. apply map_size_insert_Some. by rewrite E.
Qed.

Lemma clock_loop_ok n s ok s' :
  ssd_inv s → clock_loop n s = (ok, s') →
  step_ok s s' ∧ size (sb_pages s) = (if ok then S (size (sb_pages s')) else size (sb_pages s')).
Proof.
  revert s. induction n as [|n IH]; intros s Hi Hc; simpl in Hc.
  { simplify_eq. split; [by apply step_ok_refl|done]. }
  destruct (sb_clock_queue s) as [|p rest]; [simplify_eq; split; [by apply step_ok_refl|done]|].
  assert (∀ q, step_ok s (set_clock q s)) as Hq by (intros q; by apply same_store_ok).
  destruct (sb_pages s !! p) as [pm|] eqn:Hp.
  2: { apply IH in Hc as [Hs Hz]; [|apply Hq]. split; [exact (step_ok_trans _ _ _ (Hq rest) Hs)|done]. }
  destruct (_ || _) eqn:Eh.
  { apply IH in Hc as [Hs Hz]; [|apply (Hq (rest ++ [p]))]. split; [exact (step_ok_trans _ _ _ (Hq _) Hs)|done]. }
  destruct (pm_accessed pm).
  - set (s1 := upd_page _ _ _) in Hc.
    assert (step_ok s s1) as H1.
    { eapply step_ok_trans; [apply (Hq (rest ++ [p]))|]. apply upd_page_meta_ok; [apply Hq|done]. }
    apply IH in Hc as [Hs Hz]; [|apply H1]. split; [by eapply step_ok_trans|].
    rewrite <- Hz. unfold s1. by rewrite upd_page_size.
  - apply evict_page_ok in Hc as (Hs & Hz & Hz' & _); [|apply Hq].
    split; [exact (step_ok_trans _ _ _ (Hq rest) Hs)|]. destruct ok; [|by rewrite Hz'].
    symmetry. apply Hz; [done|]. by exists pm.
Qed.

Lemma evict_one_ok s ok s' :
  ssd_inv s → sb_pages s ≠ ∅ → evict_one_locked s = (ok, s') →
  step_ok s s' ∧ size (sb_pages s) = (if ok then S (size (sb_pages s')) else size (sb_pages s')).
Proof.
  intros Hi Hne. unfold evict_one_locked. rewrite bool_decide_eq_false_2 by done. by apply clock_loop_ok.
Qed.

(** With as much fuel as pages, the loop ends because there is room or
    because an eviction failed, never because the fuel ran out. *)
Lemma make_room_ok fuel s ok s' :
  ssd_inv s → (size (sb_pages s) < fuel)%nat → make_room fuel s = (ok, s') →
  step_ok s s' ∧ (ok = true → num_pages s' < sc_cache_pages (sb_config s)) ∧
  (ok = false → ∃ s0, step_ok s s0 ∧ (evict_one_locked s0).1 = false).
Proof.
  revert s. induction fuel as [|fuel IH]; intros s Hi Hf Hm; [lia|]. simpl in Hm.
  destruct (_ && _) eqn:Ec.
  - btests. match goal with H : bool_decide _ = false |- _ => apply bool_decide_eq_false in H as Hne end.
    destruct (evict_one_locked s) as [eok s1] eqn:Ee.
    pose proof Ee as Ee'. apply evict_one_ok in Ee as [Hs Hz]; [|done..]. destruct eok.
    + pose proof (ok_config _ _ Hs) as Hc.
      apply IH in Hm as (Hs' & Ht & Hff); [|apply Hs|lia].
      split; [by eapply step_ok_trans|]. rewrite Hc in Ht. split; [done|].
      intros Hf'. destruct (Hff Hf') as (s0 & Hs0 & He0). exists s0. split; [by eapply step_ok_trans|done].
    + simplify_eq. split; [done|]. split; [done|]. intros _. exists s.
      split; [by apply step_ok_refl|by rewrite Ee'].
  - simplify_eq. split; [by apply step_ok_refl|]. split; [|done]. intros _.
    destruct (si_config _ Hi). apply andb_false_iff in Ec as [Ec|Ec]; btests; [lia|].
    apply bool_decide_eq_true in Ec. unfold num_pages. rewrite Ec, map_size_empty. lia.
Qed.

Lemma room_for_ok s p ok s' :
  ssd_inv s → room_for s p = (ok, s') →
  step_ok s s' ∧ (ok = true → is_Some (sb_pages s' !! p) ∨ num_pages s' < sc_cache_pages (sb_config s')).
Proof.
  intros Hi. unfold room_for. destruct (sb_pages s !! p) as [pm|] eqn:Hp.
  - intros [= <- <-]. split; [by apply step_ok_refl|]. intros _. left. by exists pm.
  - intros Hm. apply make_room_ok in Hm as (Hs & Ht & _); [|done|lia]. split; [done|].
    intros Hok. right. rewrite (ok_config _ _ Hs). auto.
Qed.

Lemma new_page_ok s p : 0 <= p → p * page_size s < TWO64 → page_ok s p (new_page s).
Proof. intros H1 H2. split; simpl; try done; [tauto|apply length_replicate]. Qed.

Lemma get_or_create_ok s p ok s' :
  ssd_inv s → 0 <= p → p * page_size s < TWO64 →
  is_Some (sb_pages s !! p) ∨ num_pages s < sc_cache_pages (sb_config s) →
  get_or_create_page_locked s p = (ok, s') →
  step_ok s s' ∧ (ok = true → is_Some (sb_pages s' !! p)).
Proof.
  intros Hi H0 H64 Hroom. unfold get_or_create_page_locked.
  destruct (sb_pages s !! p) as [pm|] eqn:Hp.
  { intros [= <- <-]. split; [by apply step_ok_refl|by eexists]. }
  destruct Hroom as [[? ?]|Hroom]; [done|].
  assert (∀ al, step_ok s (set_clock (sb_clock_queue s ++ [p]) (set_page p (new_page s) (set_alloc al s)))) as Hnew.
  { intros al. destruct Hi as [Hc Hpg Hb]. split; try done; simpl.
    - split; simpl; [done| |].
      + intros q x. destruct (decide (p = q)) as [<-|Hne].
        * rewrite lookup_insert_eq. intros [= <-]. by apply (page_ok_ext s); [..|apply new_page_ok].
        * rewrite lookup_insert_ne by done. intros Hq. by apply (page_ok_ext s); [..|apply Hpg].
      + unfold num_pages in *. simpl. rewrite map_size_insert_None by done. lia.
    - intros q. unfold page_content. simpl. destruct (decide (p = q)) as [<-|Hne].
      + by rewrite lookup_insert_eq, Hp.
      + by rewrite lookup_insert_ne.
    - intros q x. unfold refcount. destruct (decide (p = q)) as [<-|Hne].
      + rewrite lookup_insert_eq, Hp. by intros [= <-].
      + rewrite lookup_insert_ne by done. intros Hq. by rewrite Hq.
    - intros q x Hq _. destruct (decide (p = q)) as [<-|Hne]; [congruence|].
      rewrite lookup_insert_ne by done. eauto. }
  destruct (sb_alloc s) as [|[] al]; intros [= <- <-].
  - split; [apply Hnew|]. intros _. exists (new_page s). apply lookup_insert_eq.
  - split; [apply (Hnew al)|]. intros _. exists (new_page s). apply lookup_insert_eq.
  - split; [by apply same_store_ok|done].
Qed.

(** The cache never exceeds its bound, so trimming has nothing to do. *)
Lemma trim_all_id s : ssd_inv s → trim_all s = s.
Proof.
  intros [_ _ Hb]. unfold trim_all. simpl. by rewrite (proj2 (Z.ltb_ge _ _)) by lia.
Qed.

Lemma page_below_last s p : config_ok (sb_config s) → 0 <= p <= last_page s → p * page_size s < TWO64.
Proof.
  intros [Hp Hc _ _ _] Hr. unfold last_page, page_size, OFF_T_MAX in *.
  pose proof (Z.mul_div_le (sc_capacity_bytes (sb_config s) - 1) (sc_page_size (sb_config s)) ltac:(lia)). nia.
Qed.

Lemma readahead_ok n p last s :
  ssd_inv s → 0 <= p → last <= last_page s → step_ok s (readahead_loop n p last s).
Proof.
  revert p s. induction n as [|n IH]; intros p s Hi Hp Hlast; simpl; [by apply step_ok_refl|].
  destruct (last <? p) eqn:El; btests; [by apply step_ok_refl|].
  destruct (room_for s p) as [rok s1] eqn:Er. apply room_for_ok in Er as [H1 Hr]; [|done].
  destruct rok; [|done]. pose proof (ok_inv _ _ H1) as Hi1. pose proof (ok_config _ _ H1) as Hc1.
  destruct (get_or_create_page_locked s1 p) as [gok s2] eqn:Eg.
  apply get_or_create_ok in Eg as [H2 Hg]; [|done|done| |by apply Hr].
  2: { apply page_below_last; [apply Hi1|]. unfold last_page, page_size in *. rewrite Hc1. lia. }
  pose proof (step_ok_trans _ _ _ H1 H2) as H12. destruct gok; [|done].
  set (s3 := match sb_pages s2 !! p with Some pm => _ | None => s2 end).
  assert (step_ok s s3) as H3.
  { unfold s3. destruct (sb_pages s2 !! p) as [pm|] eqn:E2; [|done]. case_decide as Hst; [|done].
    destruct (load_page_locked s2 p) as [lok s4] eqn:El2. simpl.
    apply (load_page_ok s2 p pm) in El2 as [H4 _]; [|apply H2|done|done]. by eapply step_ok_trans. }
  rewrite trim_all_id by apply H3.
  eapply step_ok_trans; [exact H3|]. apply IH; [apply H3|lia|].
  unfold last_page, page_size in *. by rewrite (ok_config _ _ H3).
Qed.

(** Rewriting the bookkeeping of any number of pages. *)
Definition keeps_page (f : PageMeta → PageMeta) : Prop :=
  ∀ pm, pm_state (f pm) = pm_state pm ∧ pm_dirty (f pm) = pm_dirty pm ∧ pm_data (f pm) = pm_data pm.

Lemma repage_ok s s' (g : Z → PageMeta → PageMeta) :
  ssd_inv s → sb_config s' = sb_config s → sb_disk s' = sb_disk s →
  (∀ q, sb_pages s' !! q = g q <$> sb_pages s !! q) → (∀ q, keeps_page (g q)) →
  ssd_inv s' ∧ ∀ q, page_content s' q = page_content s q.
Proof.
  intros [Hc Hpg Hb] Hc' Hd' Hl Hg.
  assert (∀ q, disk_page s' q = disk_page s q) as Hd by (intros q; unfold disk_page, page_size; by rewrite Hc', Hd').
  split; [split|].
  - by rewrite Hc'.
  - intros q x. rewrite Hl. intros (y & Hy & ->)%fmap_Some. destruct (Hg q y) as (?&?&?).
    apply (page_ok_ext s); [done|done|]. apply page_meta_ok; auto.
  - unfold num_pages in *. rewrite Hc'. replace (size (sb_pages s')) with (size (sb_pages s)); [done|].
    rewrite <- !size_dom. f_equal. apply set_eq. intros q. rewrite !elem_of_dom, Hl. by rewrite fmap_is_Some.
  - intros q. unfold page_content. rewrite Hl. destruct (sb_pages s !! q) as [pm|]; simpl; [|done].
    destruct (Hg q pm) as (Hs & _ & Hda). unfold resident. by rewrite Hs, Hda, Hd.
Qed.

Lemma upd_page_lookup p f s q :
  sb_pages (upd_page p f s) !! q = (if decide (p = q) then f else id) <$> sb_pages s !! q.
Proof.
  simpl. case_decide as Hd; [subst; apply lookup_alter_eq|].
  rewrite lookup_alter_ne by done. by destruct (sb_pages s !! q).
Qed.

Lemma upd_page_view p f s :
  ssd_inv s → keeps_page f →
  ssd_inv (upd_page p f s) ∧ ∀ q, page_content (upd_page p f s) q = page_content s q.
Proof.
  intros Hi Hf. apply (repage_ok s _ (λ q, if decide (p = q) then f else id)); try done.
  - intros q. apply upd_page_lookup.
  - intros q. by case_decide.
Qed.

(** Reading ahead while the page is referenced: the reference is returned and
    the page is still there. *)
Lemma readahead_referenced s p n last pm :
  ssd_inv s → 0 <= p → last <= last_page s → sb_pages s !! p = Some pm → resident pm = true → pm_refcnt pm = 0 →
  let s' := upd_page p (page_ref (-1)) (readahead_loop n (p + 1) last (upd_page p (page_ref 1) s)) in
  step_ok s s' ∧ ∃ pm', sb_pages s' !! p = Some pm' ∧ resident pm' = true.
Proof.
  intros Hi Hp0 Hlast Hp Hres Href. set (s5 := upd_page p (page_ref 1) s).
  destruct (upd_page_view p (page_ref 1) s Hi ltac:(done)) as [Hi5 Hc5]. fold s5 in Hi5, Hc5.
  pose proof (readahead_ok n (p + 1) last s5 Hi5 ltac:(lia) Hlast) as H6.
  set (s6 := readahead_loop n (p + 1) last s5) in *. intros s'.
  destruct (upd_page_view p (page_ref (-1)) s6 (ok_inv _ _ H6) ltac:(done)) as [Hi7 Hc7]. fold s' in Hi7, Hc7.
  assert (sb_pages s5 !! p = Some (page_ref 1 pm)) as Hp5.
  { unfold s5. by rewrite upd_page_lookup, decide_True, Hp. }
  destruct (ok_held _ _ H6 p _ Hp5) as (pm6 & Hp6 & Hpin6 & Hres6).
  { right. simpl. by rewrite Href. }
  pose proof (ok_ref _ _ H6 p pm6 Hp6) as Hr6. unfold refcount in Hr6. rewrite Hp5 in Hr6. simpl in Hr6.
  rewrite Href in Hr6.
  assert (sb_pages s' !! p = Some (page_ref (-1) pm6)) as Hp7.
  { unfold s'. by rewrite upd_page_lookup, decide_True, Hp6. }
  split; [|exists (page_ref (-1) pm6); split; [done|by apply Hres6]].
  split; [done|apply (ok_config _ _ H6)|apply (ok_init _ _ H6)| | |].
  - intros q. by rewrite Hc7, (ok_content _ _ H6), Hc5.
  - intros q x Hx. destruct (decide (p = q)) as [<-|Hne].
    + rewrite Hp7 in Hx. injection Hx as <-. simpl. rewrite Hr6. unfold refcount. by rewrite Hp, Href.
    + unfold s' in Hx. rewrite upd_page_lookup, decide_False in Hx by done.
      rewrite option_fmap_id in Hx. rewrite (ok_ref _ _ H6 q x Hx). unfold refcount, s5.
      rewrite upd_page_lookup, decide_False by done. by rewrite option_fmap_id.
  - intros q x Hq Hh. destruct (decide (p = q)) as [<-|Hne].
    + exists (page_ref (-1) pm6). simplify_eq. split_and!; [done|exact Hpin6|by intros _; apply Hres6].
    + assert (sb_pages s5 !! q = Some x) as Hq5.
      { unfold s5. rewrite upd_page_lookup, decide_False by done. by rewrite option_fmap_id. }
      destruct (ok_held _ _ H6 q x Hq5 Hh) as (y & Hy & ?). exists y. split; [|done].
      unfold s'. rewrite upd_page_lookup, decide_False by done. by rewrite option_fmap_id.
Qed.

Lemma ensure_ok s p ra ok s' :
  ssd_inv s → 0 <= p → p * page_size s < TWO64 → refcount s p = 0 →
  ensure_page_loaded_locked s p ra = (ok, s') →
  step_ok s s' ∧ (ok = true → ∃ pm, sb_pages s' !! p = Some pm ∧ resident pm = true).
Proof.
  intros Hi Hp0 Hp64 Href He. unfold ensure_page_loaded_locked in He.
  destruct (room_for s p) as [rok s1] eqn:Er. apply room_for_ok in Er as [H1 Hr]; [|done].
  destruct rok; [|simplify_eq; split; done].
  pose proof (ok_inv _ _ H1) as Hi1. pose proof (ok_config _ _ H1) as Hc1.
  destruct (get_or_create_page_locked s1 p) as [gok s2] eqn:Eg.
  apply get_or_create_ok in Eg as [H2 Hg]; [|done|done| |by apply Hr].
  2: { unfold page_size in *. by rewrite Hc1. }
  pose proof (step_ok_trans _ _ _ H1 H2) as H12. pose proof (ok_inv _ _ H12) as Hi2.
  destruct gok; [|simplify_eq; split; done].
  destruct (Hg eq_refl) as [pm2 Hp2]. rewrite Hp2 in He.
  pose proof (si_pages _ Hi2 p pm2 Hp2) as [_ _ Hst2 _ _ _].
  destruct (bool_decide _ || bool_decide _) eqn:Eres.
  - simplify_eq. set (g := sb_generation (next_generation s2)). split.
    + apply (step_ok_trans _ (upd_page p (page_touch true g) s2)).
      * eapply step_ok_trans; [exact H12|]. by apply upd_page_meta_ok.
      * by apply same_store_ok; [apply upd_page_meta_ok|].
    + intros _. exists (page_touch true g pm2). split; [simpl; by rewrite lookup_alter_eq, Hp2|].
      unfold resident. simpl. rewrite orb_true_iff, !bool_decide_eq_true in Eres. by destruct Eres as [-> | ->].
  - rewrite trim_all_id in He by done.
    rewrite orb_false_iff, !bool_decide_eq_false in Eres.
    assert (pm_state pm2 = NonResident) as Hnr by tauto.
    destruct (load_page_locked s2 p) as [lok s4] eqn:El.
    apply (load_page_ok s2 p pm2) in El as [H4 Hl]; [|done..].
    pose proof (step_ok_trans _ _ _ H12 H4) as H14.
    destruct lok; [|simplify_eq; split; done].
    destruct (Hl eq_refl) as (pm4 & Hp4 & Hres4).
    destruct ra; [|simplify_eq; split; [done|eauto]].
    assert (pm_refcnt pm4 = 0) as Href4 by (rewrite (ok_ref _ _ H14 p pm4 Hp4); done).
    assert (last_page s <= last_page s4) as Hlast.
    { unfold last_page, page_size. by rewrite (ok_config _ _ H14). }
    destruct (readahead_referenced s4 p (Z.to_nat (sc_read_ahead_pages (sb_config s))) (last_page s) pm4
      (ok_inv _ _ H14) Hp0 Hlast Hp4 Hres4 Href4) as [H7 H8].
    simplify_eq. split; [by eapply step_ok_trans|done].
Qed.

(** ** Lemmas: reading and writing bytes *)

(** No page is referenced: the state between two operations. *)
Definition quiet (s : SsdStreamingBackend) : Prop := ∀ p, refcount s p = 0.

Lemma step_ok_quiet s s' : step_ok s s' → quiet s → quiet s'.
Proof.
  intros Hs Hq p. unfold refcount. destruct (sb_pages s' !! p) as [pm|] eqn:E; [|done].
  rewrite (ok_ref _ _ Hs p pm E). apply Hq.
Qed.

Lemma step_ok_page_size s s' : step_ok s s' → page_size s' = page_size s.
Proof. intros Hs. unfold page_size. by rewrite (ok_config _ _ Hs). Qed.

Lemma step_ok_logical s s' a : step_ok s s' → logical s' a = logical s a.
Proof.
  intros Hs. unfold logical, page_offset, addr_to_page.
  by rewrite (step_ok_page_size _ _ Hs), (ok_content _ _ Hs).
Qed.

Lemma page_content_length s p : ssd_inv s → length (page_content s p) = Z.to_nat (page_size s).
Proof.
  intros Hi. unfold page_content. destruct (sb_pages s !! p) as [pm|] eqn:E; [|apply disk_page_length].
  destruct (resident pm); [|apply disk_page_length]. exact (po_length _ _ _ (si_pages s Hi p pm E)).
Qed.

(** The bytes of a range, as the specification has them. *)
Definition logical_range (s : SsdStreamingBackend) (a : Z) (n : nat) : list Z :=
  (λ i, logical s (a + Z.of_nat i)) <$> seq 0 n.

Lemma logical_range_app s a n m :
  logical_range s a (n + m) = logical_range s a n ++ logical_range s (a + Z.of_nat n) m.
Proof.
  unfold logical_range. rewrite seq_app, fmap_app. f_equal. simpl.
  rewrite <- (Nat.add_0_r n) at 1. rewrite <- fmap_add_seq, <- list_fmap_compose.
  apply list_fmap_ext. intros _ i _. simpl. f_equal. lia.
Qed.

(** Where the bytes of a page-sized piece are. *)
Lemma piece_addr ps a i :
  0 < ps → 0 <= a → 0 <= i < ps - a mod ps → (a + i) / ps = a / ps ∧ (a + i) mod ps = a mod ps + i.
Proof.
  intros Hps Ha Hi. pose proof (Z.mod_pos_bound a ps Hps).
  assert (a + i = ps * (a / ps) + (a mod ps + i)) as -> by (pose proof (Z.div_mod a ps ltac:(lia)); lia).
  split.
  - rewrite Z.mul_comm, Z.div_add_l by lia. rewrite (Z.div_small (a mod ps + i)) by lia. lia.
  - rewrite Z.add_comm, Z.mul_comm, Z.mod_add by lia. by apply Z.mod_small; lia.
Qed.

Lemma piece_bytes s a n :
  ssd_inv s → 0 <= a → Z.of_nat n <= page_size s - page_offset s a →
  take n (drop (Z.to_nat (page_offset s a)) (page_content s (addr_to_page s a))) = logical_range s a n.
Proof.
  intros Hi Ha Hn. pose proof (page_content_length s (addr_to_page s a) Hi) as Hlen.
  destruct (si_config s Hi) as [Hps _ _ _ _]. fold (page_size s) in Hps.
  pose proof (Z.mod_pos_bound a (page_size s) ltac:(lia)) as Hm. fold (page_offset s a) in Hm.
  apply list_eq_same_length with n.
  - unfold logical_range. by rewrite length_fmap, length_seq.
  - rewrite length_take, length_drop, Hlen. lia.
  - intros i x y Hin Hx Hy. unfold logical_range in Hy.
    rewrite list_lookup_fmap, lookup_seq_lt in Hy by done. simpl in Hy. injection Hy as <-.
    rewrite lookup_take_lt, lookup_drop in Hx by done. unfold logical.
    destruct (piece_addr (page_size s) a (Z.of_nat i)) as [Hd Hmo]; [lia|lia|fold (page_offset s a); lia|].
    unfold addr_to_page, page_offset in *. rewrite Hd, Hmo.
    rewrite Z2Nat.inj_add, Nat2Z.id by lia. symmetry. by apply nth_lookup_Some.
Qed.

Lemma addr_page_bound s a : ssd_inv s → 0 <= a < TWO64 → addr_to_page s a * page_size s < TWO64.
Proof.
  intros Hi Ha. destruct (si_config s Hi) as [Hps _ _ _ _]. unfold addr_to_page, page_size in *.
  pose proof (Z.mul_div_le a (sc_page_size (sb_config s)) ltac:(lia)). lia.
Qed.

Lemma addr_page_nonneg s a : ssd_inv s → 0 <= a → 0 <= addr_to_page s a.
Proof.
  intros Hi Ha. destruct (si_config s Hi) as [Hps _ _ _ _]. unfold addr_to_page, page_size in *.
  apply Z.div_pos; lia.
Qed.

Lemma read_loop_ok fuel s a n first r s' :
  ssd_inv s → quiet s → 0 <= a → 0 <= n → a + n <= TWO64 → n < Z.of_nat fuel →
  read_loop fuel s a n first = (r, s') →
  step_ok s s' ∧ ∀ bytes, r = Some bytes → bytes = logical_range s a (Z.to_nat n).
Proof.
  revert s a n first r s'. induction fuel as [|fuel IH]; intros s a n first r s' Hi Hq Ha Hn H64 Hf Hr; [lia|].
  cbn [read_loop] in Hr. destruct (n <=? 0) eqn:En; btests.
  { simplify_eq. split; [by apply step_ok_refl|]. intros bytes [= <-]. by replace n with 0 by lia. }
  pose proof (addr_page_nonneg s a Hi Ha) as Hp0. pose proof (addr_page_bound s a Hi ltac:(lia)) as Hpb.
  destruct (ensure_page_loaded_locked s (addr_to_page s a) first) as [eok s1] eqn:Ee.
  apply ensure_ok in Ee as [H1 Hres]; [|done|done|done|apply Hq].
  destruct eok; [|simplify_eq; split; done]. destruct (Hres eq_refl) as (pm & Hpm & Hr1). rewrite Hpm in Hr.
  set (chunk := Z.min n (page_size s - page_offset s a)) in *.
  destruct (si_config s Hi) as [Hps _ _ _ _]. fold (page_size s) in Hps.
  pose proof (Z.mod_pos_bound a (page_size s) ltac:(lia)) as Hm. fold (page_offset s a) in Hm.
  destruct (read_loop fuel s1 (a + chunk) (n - chunk) false) as [r2 s2] eqn:Er2.
  apply IH in Er2 as [H2 Hb]; [|apply H1|by eapply step_ok_quiet|lia..].
  assert (page_content s (addr_to_page s a) = pm_data pm) as Hcont.
  { rewrite <- (ok_content _ _ H1). unfold page_content. by rewrite Hpm, Hr1. }
  destruct r2 as [rest|]; simplify_eq; (split; [by eapply step_ok_trans|]); [|done].
  intros bytes [= <-]. rewrite <- Hcont.
  replace (Z.to_nat n) with (Z.to_nat chunk + Z.to_nat (n - chunk))%nat by lia.
  rewrite logical_range_app. f_equal.
  - apply piece_bytes; [done|done|lia].
  - rewrite (Hb rest eq_refl), Z2Nat.id by lia. unfold logical_range. apply list_fmap_ext.
    intros _ i _. by apply step_ok_logical.
Qed.

(** The array with [bytes] written at [addr]. *)
Definition overlay (f : Z → Z) (addr : Z) (bytes : list Z) (a : Z) : Z :=
  if (addr <=? a) && (a <? addr + Z.of_nat (length bytes)) then nth (Z.to_nat (a - addr)) bytes 0 else f a.

Lemma overlay_app f addr xs ys a :
  overlay (overlay f addr xs) (addr + Z.of_nat (length xs)) ys a = overlay f addr (xs ++ ys) a.
Proof.
  unfold overlay. rewrite length_app.
  destruct (_ && (a <? addr + Z.of_nat (length xs) + _)) eqn:E1; btests.
  - rewrite (proj2 (Z.leb_le _ _)), (proj2 (Z.ltb_lt _ _)) by lia. simpl. rewrite app_nth2 by lia. f_equal. lia.
  - destruct (_ && (a <? addr + Z.of_nat (length xs))) eqn:E2; btests.
    + rewrite (proj2 (Z.leb_le _ _)), (proj2 (Z.ltb_lt _ _)) by lia. simpl. rewrite app_nth1 by lia. done.
    + rewrite (proj2 (andb_false_iff _ _)); [done|].
      apply andb_false_iff in E1 as [?|?]; apply andb_false_iff in E2 as [?|?]; btests; lia.
Qed.

(** A state reached by writing [bytes] at [addr]. *)
Record wrote (s s' : SsdStreamingBackend) (addr : Z) (bytes : list Z) : Prop := {
  wr_inv : ssd_inv s';
  wr_config : sb_config s' = sb_config s;
  wr_init : sb_initialized s' = sb_initialized s;
  wr_quiet : quiet s → quiet s';
  wr_logical : ∀ a, 0 <= a → logical s' a = overlay (logical s) addr bytes a
}.

Lemma overlay_nil f addr a : overlay f addr [] a = f a.
Proof. unfold overlay. simpl. rewrite (proj2 (andb_false_iff _ _)); [done|]. lia. Qed.

Lemma step_ok_wrote s s' addr : step_ok s s' → wrote s s' addr [].
Proof.
  intros Hs. split; try apply Hs; [by apply step_ok_quiet|].
  intros a _. rewrite overlay_nil. by apply step_ok_logical.
Qed.

Lemma wrote_trans s1 s2 s3 addr xs ys :
  wrote s1 s2 addr xs → wrote s2 s3 (addr + Z.of_nat (length xs)) ys → wrote s1 s3 addr (xs ++ ys).
Proof.
  intros [I1 C1 N1 Q1 L1] [I2 C2 N2 Q2 L2]. split; try done; try congruence; [auto|].
  intros a Ha. rewrite L2 by done. rewrite <- overlay_app. unfold overlay. case_match; [done|].
  rewrite L1 by done. done.
Qed.

Lemma splice_length off chunk data :
  0 <= off → (Z.to_nat off + length chunk <= length data)%nat → length (splice off chunk data) = length data.
Proof. intros H0 Hl. unfold splice. rewrite !length_app, length_take, length_drop. lia. Qed.

Lemma splice_nth off chunk data i :
  0 <= off → (Z.to_nat off + length chunk <= length data)%nat →
  nth i (splice off chunk data) 0 =
  if decide (Z.to_nat off ≤ i < Z.to_nat off + length chunk)%nat then nth (i - Z.to_nat off) chunk 0
  else nth i data 0.
Proof.
  intros H0 Hl. unfold splice. assert (length (take (Z.to_nat off) data) = Z.to_nat off) as Ht.
  { rewrite length_take. lia. }
  case_decide as Hd.
  - rewrite app_nth2, Ht by lia. rewrite app_nth1 by lia. done.
  - destruct (decide (i < Z.to_nat off)%nat) as [Hlt|Hge].
    + rewrite app_nth1 by lia. rewrite <- (take_drop (Z.to_nat off) data) at 2. by rewrite app_nth1 by lia.
    + rewrite app_nth2, Ht by lia. rewrite app_nth2 by lia.
      rewrite <- (take_drop (Z.to_nat off + length chunk) data) at 2.
      rewrite app_nth2; rewrite length_take; [f_equal; lia|lia].
Qed.

(** Dirtying a piece of one resident page. *)
Lemma write_piece_ok s p pm a xs gen :
  ssd_inv s → 0 <= a → p = addr_to_page s a → sb_pages s !! p = Some pm → resident pm = true →
  Z.of_nat (length xs) <= page_size s - page_offset s a →
  wrote s (set_page p (page_touch true gen
    (page_with ResidentDirty true (splice (page_offset s a) xs (pm_data pm)) pm)) (next_generation s)) a xs.
Proof.
  intros Hi Ha -> Hp Hres Hlen. pose proof (si_pages s Hi _ pm Hp) as [Had Hra _ _ Hpl _].
  destruct (si_config s Hi) as [Hps _ _ _ _]. fold (page_size s) in Hps.
  pose proof (Z.mod_pos_bound a (page_size s) ltac:(lia)) as Hm. fold (page_offset s a) in Hm.
  set (pm' := page_touch _ _ _). set (s' := set_page _ pm' _).
  assert (length (pm_data pm') = Z.to_nat (page_size s)) as Hl'.
  { simpl. rewrite splice_length by lia. done. }
  assert (sb_pages s' = <[addr_to_page s a := pm']> (sb_pages s)) as Hps' by done.
  split; try done.
  - destruct Hi as [Hc Hpg Hb]. split; [done| |].
    + intros q x. rewrite Hps'. destruct (decide (addr_to_page s a = q)) as [<-|Hne].
      * rewrite lookup_insert_eq. intros [= <-]. apply (page_ok_ext s); [done|done|].
        split; try done; [by intros _; apply Hra|by right; right].
      * rewrite lookup_insert_ne by done. intros Hq. by apply (page_ok_ext s); [..|apply Hpg].
    + unfold num_pages in *. rewrite Hps', map_size_insert_Some; [done|by rewrite Hp].
  - intros Hq q. unfold refcount. rewrite Hps'. destruct (decide (addr_to_page s a = q)) as [<-|Hne].
    + rewrite lookup_insert_eq. simpl. specialize (Hq (addr_to_page s a)). unfold refcount in Hq. by rewrite Hp in Hq.
    + rewrite lookup_insert_ne by done. apply Hq.
  - intros b Hb. unfold logical. change (page_offset s' b) with (page_offset s b).
    change (addr_to_page s' b) with (addr_to_page s b). unfold page_content at 1. rewrite Hps'.
    destruct (decide (addr_to_page s a = addr_to_page s b)) as [Heq|Hne].
    + rewrite <- Heq, lookup_insert_eq. cbn [resident pm_state pm' page_touch page_with pm_data].
      change (resident pm') with true. cbv iota. unfold pm'. cbn [pm_data page_touch page_with].
      rewrite splice_nth by lia. unfold overlay, logical. rewrite <- Heq.
      unfold page_content. rewrite Hp, Hres. unfold addr_to_page, page_offset in *.
      pose proof (Z.div_mod a (page_size s) ltac:(lia)) as Hda. pose proof (Z.div_mod b (page_size s) ltac:(lia)) as Hdb.
      rewrite <- Heq in Hdb. pose proof (Z.mod_pos_bound b (page_size s) ltac:(lia)).
      case_decide as Hd.
      * rewrite (proj2 (Z.leb_le _ _)), (proj2 (Z.ltb_lt _ _)) by lia. simpl. f_equal. lia.
      * rewrite (proj2 (andb_false_iff _ _)); [done|]. lia.
    + rewrite lookup_insert_ne by done. unfold overlay. rewrite (proj2 (andb_false_iff _ _)); [done|].
      destruct (decide (a <= b < a + Z.of_nat (length xs))) as [Hin|Hin]; [|lia]. exfalso. apply Hne.
      destruct (piece_addr (page_size s) a (b - a)) as [Hd _]; [lia|lia|fold (page_offset s a); lia|].
      unfold addr_to_page. by replace (a + (b - a)) with b in Hd by lia.
Qed.

Lemma write_loop_ok fuel s a src ok s' :
  ssd_inv s → quiet s → 0 <= a → a + Z.of_nat (length src) <= TWO64 → (length src < fuel)%nat →
  write_loop fuel s a src = (ok, s') →
  ∃ k, (k ≤ length src)%nat ∧ (ok = true → k = length src) ∧ wrote s s' a (take k src).
Proof.
  revert s a src s'. induction fuel as [|fuel IH]; intros s a src s' Hi Hq Ha H64 Hf Hw; [lia|].
  cbn [write_loop] in Hw. destruct src as [|x0 xs0] eqn:Hsrc.
  { simplify_eq. exists 0%nat. split_and!; try done. by apply step_ok_wrote, step_ok_refl. }
  rewrite <- Hsrc in *. assert (0 < length src)%nat as Hpos by (rewrite Hsrc; simpl; lia). clear Hsrc.
  pose proof (addr_page_nonneg s a Hi Ha) as Hp0. pose proof (addr_page_bound s a Hi ltac:(lia)) as Hpb.
  destruct (ensure_page_loaded_locked s (addr_to_page s a) false) as [eok s1] eqn:Ee.
  apply ensure_ok in Ee as [H1 Hres]; [|done|done|done|apply Hq].
  destruct eok.
  2: { simplify_eq. exists 0%nat. split_and!; [lia|done|]. by apply step_ok_wrote. }
  destruct (Hres eq_refl) as (pm & Hpm & Hr1). rewrite Hpm in Hw.
  pose proof (step_ok_page_size _ _ H1) as Hps1.
  assert (addr_to_page s1 a = addr_to_page s a) as Hap by (unfold addr_to_page; by rewrite Hps1).
  assert (page_offset s1 a = page_offset s a) as Hao by (unfold page_offset; by rewrite Hps1).
  destruct (si_config s Hi) as [Hps _ _ _ _]. fold (page_size s) in Hps.
  pose proof (Z.mod_pos_bound a (page_size s) ltac:(lia)) as Hm. fold (page_offset s a) in Hm.
  set (chunk := Z.min (Z.of_nat (length src)) (page_size s - page_offset s a)) in *.
  assert (length (take (Z.to_nat chunk) src) = Z.to_nat chunk) as Hlt by (rewrite length_take; lia).
  set (s2 := set_page _ _ _) in Hw.
  assert (wrote s1 s2 a (take (Z.to_nat chunk) src)) as H2.
  { unfold s2. rewrite <- Hao. apply write_piece_ok; try done; [apply H1|by rewrite Hlt; lia]. }
  pose proof (wrote_trans _ _ _ _ _ _ (step_ok_wrote s s1 a H1) ltac:(simpl; rewrite Z.add_0_r; exact H2)) as H12.
  rewrite app_nil_l in H12.
  apply IH in Hw as (k & Hk & Hkok & Hwk);
    [|apply H2|by apply (wr_quiet _ _ _ _ H12)|lia|rewrite length_drop; lia|rewrite length_drop; lia].
  rewrite length_drop in Hk, Hkok. exists (Z.to_nat chunk + k)%nat.
  split_and!; [lia|intros Hok; specialize (Hkok Hok); lia|].
  rewrite <- take_take_drop. eapply wrote_trans; [exact H12|]. rewrite Hlt, Z2Nat.id by lia. exact Hwk.
Qed.

(** ** Lemmas: flushing *)

Definition clean_page (s : SsdStreamingBackend) (p : Z) : Prop :=
  ∀ pm, sb_pages s !! p = Some pm → pm_dirty pm = false.

Lemma clean_page_content s p : ssd_inv s → clean_page s p → page_content s p = disk_page s p.
Proof.
  intros Hi Hc. unfold page_content. destruct (sb_pages s !! p) as [pm|] eqn:E; [|done].
  pose proof (si_pages s Hi p pm E) as [_ _ Hst Hdi _ Hcl]. rewrite (Hc pm E) in Hdi. symmetry in Hdi.
  apply bool_decide_eq_false in Hdi. unfold resident.
  destruct Hst as [Hst|[Hst|Hst]]; rewrite Hst; try done. by apply Hcl.
Qed.

Lemma flush_page_clean s p ok s' q :
  ssd_inv s → flush_page_locked s p = (ok, s') →
  (clean_page s q → clean_page s' q) ∧ (ok = true → clean_page s' p) ∧
  (is_Some (sb_pages s' !! q) ↔ is_Some (sb_pages s !! q)).
Proof.
  intros Hi Hf. apply flush_page_ok in Hf as [_ [Hpg Hno Hot _]]; [|done].
  assert (∀ pm', sb_pages s' !! p = Some pm' → ∃ pm, sb_pages s !! p = Some pm ∧
    (ok = true → pm_dirty pm' = false) ∧ (pm_dirty pm = false → pm_dirty pm' = false)) as Hback.
  { intros pm' Hpm'. destruct (sb_pages s !! p) as [pm|] eqn:E; [|by rewrite Hno in Hpm'].
    destruct (Hpg pm eq_refl) as (x & Hx & _ & _ & ? & ?). simplify_eq. eauto. }
  split_and!.
  - intros Hc pm' Hpm'. destruct (decide (q = p)) as [->|Hne].
    + destruct (Hback pm' Hpm') as (pm & Hpm & _ & Hd). apply Hd, Hc, Hpm.
    + apply Hc. by rewrite <- (proj1 (Hot q Hne)).
  - intros Hok pm' Hpm'. destruct (Hback pm' Hpm') as (pm & _ & Hd & _). auto.
  - destruct (decide (q = p)) as [->|Hne]; [|by rewrite (proj1 (Hot q Hne))].
    split; [intros [x Hx]; destruct (Hback x Hx) as (y & Hy & _); by exists y|].
    intros [x Hx]. destruct (Hpg x Hx) as (y & Hy & _). by exists y.
Qed.

Lemma flush_all_ok ps s ok s' :
  ssd_inv s → flush_all ps s = (ok, s') →
  step_ok s s' ∧ (∀ q, clean_page s q → clean_page s' q) ∧
  (ok = true → ∀ p, p ∈ ps → clean_page s' p) ∧
  (∀ q, is_Some (sb_pages s' !! q) ↔ is_Some (sb_pages s !! q)).
Proof.
  revert s ok. induction ps as [|p ps IH]; intros s ok Hi Hf; simpl in Hf.
  { simplify_eq. split_and!; try done; [by apply step_ok_refl|set_solver]. }
  destruct (flush_page_locked s p) as [ok1 s1] eqn:E1.
  pose proof (λ q, flush_page_clean s p ok1 s1 q Hi E1) as Hcl.
  apply flush_page_ok in E1 as [H1 _]; [|done].
  destruct (flush_all ps s1) as [ok2 s2] eqn:E2. simplify_eq.
  apply IH in E2 as (H2 & Hc2 & Hp2 & Hd2); [|apply H1]. split_and!.
  - by eapply step_ok_trans.
  - intros q Hq. apply Hc2. by apply Hcl.
  - intros Hok q Hq. apply andb_prop in Hok as [-> ->]. apply elem_of_cons in Hq as [->|Hq].
    + apply Hc2. by apply (proj1 (proj2 (Hcl p))).
    + by apply Hp2.
  - intros q. by rewrite Hd2, (proj2 (proj2 (Hcl q))).
Qed.

Lemma snapshot_elem s p : p ∈ snapshot s ↔ is_Some (sb_pages s !! p).
Proof.
  unfold snapshot. rewrite list_elem_of_fmap. split.
  - intros ([q pm] & -> & Hq%elem_of_map_to_list). by exists pm.
  - intros [pm Hpm]. exists (p, pm). split; [done|]. by apply elem_of_map_to_list.
Qed.

(** A flush of all pages that succeeds makes the file hold the content. *)
Lemma flush_all_durable s s1 ok s' :
  ssd_inv s1 → (∀ q, is_Some (sb_pages s1 !! q) ↔ is_Some (sb_pages s !! q)) →
  flush_all (snapshot s) s1 = (ok, s') → ok = true →
  ∀ p, disk_page s' p = page_content s1 p.
Proof.
  intros Hi Hdom Hf Hok p. apply flush_all_ok in Hf as (H1 & _ & Hc & Hd); [|done].
  rewrite <- (ok_content _ _ H1). symmetry. apply clean_page_content; [apply H1|].
  intros pm Hpm. refine (Hc Hok p _ pm Hpm). rewrite snapshot_elem, <- Hdom, <- Hd. by exists pm.
Qed.

Lemma fsync_store s ok s' : fsync s = (ok, s') → same_store s s'.
Proof. unfold fsync. destruct (sb_io s) as [|[|g] io]; by intros [= <- <-]. Qed.

(** The state changes of an operation that only moves pages between cache and file. *)
Record transparent (s s' : SsdStreamingBackend) : Prop := {
  tr_inv : ssd_inv s';
  tr_config : sb_config s' = sb_config s;
  tr_init : sb_initialized s' = sb_initialized s;
  tr_quiet : quiet s → quiet s';
  tr_content : ∀ p, page_content s' p = page_content s p
}.

Lemma step_ok_transparent s s' : step_ok s s' → transparent s s'.
Proof. intros Hs. split; try apply Hs. by apply step_ok_quiet. Qed.

Lemma transparent_trans s1 s2 s3 : transparent s1 s2 → transparent s2 s3 → transparent s1 s3.
Proof. intros [?????] [?????]. split; try done; try congruence; auto. Qed.

Lemma transparent_logical s s' a : transparent s s' → logical s' a = logical s a.
Proof.
  intros [_ Hc _ _ Hp]. unfold logical, page_offset, addr_to_page, page_size. by rewrite Hc, Hp.
Qed.

Lemma flush_ok s ok s' :
  ssd_inv s → quiet s → flush s = (ok, s') →
  transparent s s' ∧ (ok = true → ∀ p, disk_page s' p = page_content s p).
Proof.
  intros Hi Hq Hf. unfold flush in Hf. destruct (negb (sb_initialized s)).
  { simplify_eq. split; [by apply step_ok_transparent, step_ok_refl|done]. }
  set (s1 := set_pages (page_ref 1 <$> sb_pages s) s) in Hf.
  destruct (repage_ok s s1 (λ _, page_ref 1)) as [Hi1 Hc1]; try done.
  { intros q. simpl. apply lookup_fmap. }
  destruct (flush_all (snapshot s) s1) as [fok s2] eqn:Ef.
  pose proof Ef as Ef'. apply flush_all_ok in Ef as (H2 & _ & _ & Hd2); [|done].
  set (s3 := set_pages (page_ref (-1) <$> sb_pages s2) s2) in Hf.
  destruct (repage_ok s2 s3 (λ _, page_ref (-1))) as [Hi3 Hc3]; try done; [apply H2| |].
  { intros q. simpl. apply lookup_fmap. }
  assert (transparent s s3) as H3.
  { split; [done|apply (ok_config _ _ H2)|apply (ok_init _ _ H2)| |].
    - intros _ q. unfold refcount. simpl. rewrite lookup_fmap.
      destruct (sb_pages s2 !! q) as [pm|] eqn:E; [|done]. simpl.
      rewrite (ok_ref _ _ H2 q pm E). unfold refcount. simpl. rewrite lookup_fmap.
      destruct (Hd2 q) as [Hd _]. destruct Hd as [x Hx]; [by exists pm|].
      simpl in Hx. rewrite lookup_fmap in Hx. destruct (sb_pages s !! q) as [y|] eqn:Ey; [|done]. simpl.
      specialize (Hq q). unfold refcount in Hq. rewrite Ey in Hq. by rewrite Hq.
    - intros q. by rewrite Hc3, (ok_content _ _ H2), Hc1. }
  destruct fok; simpl in Hf; [|by simplify_eq]. pose proof (fsync_store _ _ _ Hf) as Hss.
  split; [apply (transparent_trans _ s3); [done|by apply step_ok_transparent, same_store_ok]|].
  intros _ p. rewrite (same_store_disk _ _ p Hss), <- Hc1. change (disk_page s3 p) with (disk_page s2 p).
  eapply (flush_all_durable s s1); [done| |exact Ef'|done].
  intros q. simpl. rewrite lookup_fmap. by rewrite fmap_is_Some.
Qed.

(** ** Lemmas: the operations on a range *)

Definition ps_ok (s : SsdStreamingBackend) (p : Z) (n : nat) : Prop :=
  0 <= p ∧ (p + Z.of_nat n - 1) * page_size s < TWO64.

Lemma ps_ok_next s s' p n :
  sb_config s' = sb_config s → 512 <= page_size s → ps_ok s p (S n) →
  p * page_size s < TWO64 ∧ ps_ok s' (p + 1) n.
Proof. unfold ps_ok, page_size. intros -> ? [? ?]. split; [nia|split; [lia|nia]]. Qed.

Lemma inv_page_size s : ssd_inv s → 512 <= page_size s.
Proof. intros [[H _ _ _ _] _ _]. exact H. Qed.

Lemma range_valid_bound s addr size :
  is_u64 size → range_valid s addr size = true → 1 <= size ∧ addr + size <= TWO64.
Proof. unfold range_valid, is_u64, UINT64_MAX. intros ?. repeat case_match; try done. btests. lia. Qed.

Lemma op_ready_pages s addr size :
  ssd_inv s → is_u64 addr → is_u64 size → op_ready s addr size = true →
  ps_ok s (first_page s addr) (page_count s addr size).
Proof.
  intros Hi Ha Hs Hr. unfold op_ready in Hr. apply andb_prop in Hr as [Hr _].
  apply range_valid_bound in Hr as [H1 H2]; [|done]. pose proof (inv_page_size s Hi) as Hp.
  unfold ps_ok, first_page, page_count, addr_to_page, is_u64 in *.
  assert (addr / page_size s <= (addr + size - 1) / page_size s) by (apply Z.div_le_mono; lia).
  split; [apply Z.div_pos; lia|]. rewrite Z2Nat.id by lia.
  pose proof (Z.mul_div_le (addr + size - 1) (page_size s)). nia.
Qed.

Lemma prefetch_loop_ok n p s ok s' :
  ssd_inv s → quiet s → ps_ok s p n → prefetch_loop n p s = (ok, s') → step_ok s s'.
Proof.
  revert p s. induction n as [|n IH]; intros p s Hi Hq Hp Hl; simpl in Hl.
  { simplify_eq. by apply step_ok_refl. }
  pose proof (proj1 (ps_ok_next s s p n eq_refl (inv_page_size s Hi) Hp)) as Hp64.
  destruct (ensure_page_loaded_locked s p false) as [eok s1] eqn:Ee.
  apply ensure_ok in Ee as [H1 _]; [|done|apply Hp|done|apply Hq].
  destruct eok; [|by simplify_eq]. eapply step_ok_trans; [exact H1|]. eapply (IH (p + 1)); [..|exact Hl].
  - apply H1.
  - by apply (step_ok_quiet s).
  - eapply ps_ok_next; [apply H1|by apply inv_page_size|done].
Qed.

Lemma evict_loop_ok n p s ok s' : ssd_inv s → evict_loop n p s = (ok, s') → step_ok s s'.
Proof.
  revert p s ok. induction n as [|n IH]; intros p s ok Hi Hl; simpl in Hl.
  { simplify_eq. by apply step_ok_refl. }
  destruct (evict_page_locked s p) as [eok s1] eqn:Ee. apply evict_page_ok in Ee as [H1 _]; [|done].
  destruct (evict_loop n (p + 1) s1) as [ok2 s2] eqn:El. simplify_eq.
  eapply step_ok_trans; [exact H1|]. by eapply IH; [apply H1|].
Qed.

(** Marking a page changes neither its data nor its references. *)
Lemma mark_page s p f :
  ssd_inv s → keeps_page f → (∀ pm, pm_refcnt (f pm) = pm_refcnt pm) → transparent s (upd_page p f s).
Proof.
  intros Hi Hk Hf. destruct (upd_page_view p f s Hi Hk) as [Hi' Hc]. split; try done.
  intros Hq q. specialize (Hq q). unfold refcount in *. rewrite upd_page_lookup.
  destruct (sb_pages s !! q) as [pm|]; [|done]. simpl. case_decide; [by rewrite Hf|done].
Qed.

Lemma pin_loop_ok n p s ok s' :
  ssd_inv s → quiet s → ps_ok s p n → pin_loop n p s = (ok, s') → transparent s s'.
Proof.
  revert p s. induction n as [|n IH]; intros p s Hi Hq Hp Hl; simpl in Hl.
  { simplify_eq. by apply step_ok_transparent, step_ok_refl. }
  pose proof (proj1 (ps_ok_next s s p n eq_refl (inv_page_size s Hi) Hp)) as Hp64.
  destruct (ensure_page_loaded_locked s p false) as [eok s1] eqn:Ee.
  apply ensure_ok in Ee as [H1 _]; [|done|apply Hp|done|apply Hq].
  destruct eok; [|by simplify_eq; apply step_ok_transparent].
  assert (transparent s (upd_page p (page_pin true) s1)) as H2.
  { eapply transparent_trans; [by apply step_ok_transparent|]. by apply mark_page; [apply H1|..]. }
  eapply transparent_trans; [exact H2|]. eapply (IH (p + 1)); [apply H2|by apply H2| |exact Hl].
  eapply ps_ok_next; [apply H2|by apply inv_page_size|done].
Qed.

Lemma unpin_loop_ok n p s : ssd_inv s → transparent s (unpin_loop n p s).
Proof.
  revert p s. induction n as [|n IH]; intros p s Hi; simpl; [by apply step_ok_transparent, step_ok_refl|].
  assert (transparent s (upd_page p (page_pin false) s)) as H by by apply mark_page.
  eapply transparent_trans; [exact H|]. apply IH, H.
Qed.

Lemma streaming_loop_ok n p s ok s' :
  ssd_inv s → ps_ok s p n → streaming_loop n p s = (ok, s') → transparent s s'.
Proof.
  revert p s. induction n as [|n IH]; intros p s Hi Hp Hl; simpl in Hl.
  { simplify_eq. by apply step_ok_transparent, step_ok_refl. }
  pose proof (proj1 (ps_ok_next s s p n eq_refl (inv_page_size s Hi) Hp)) as Hp64.
  destruct (room_for s p) as [rok s1] eqn:Er. apply room_for_ok in Er as [H1 Hr]; [|done].
  destruct rok; [|by simplify_eq; apply step_ok_transparent].
  destruct (get_or_create_page_locked s1 p) as [gok s2] eqn:Eg.
  apply get_or_create_ok in Eg as [H2 _]; [|apply H1|apply Hp| |by apply Hr].
  2: { unfold page_size in *. by rewrite (ok_config _ _ H1). }
  pose proof (step_ok_trans _ _ _ H1 H2) as H12.
  destruct gok; [|by simplify_eq; apply step_ok_transparent].
  assert (transparent s (upd_page p page_stream s2)) as H3.
  { eapply transparent_trans; [by apply step_ok_transparent|]. by apply mark_page; [apply H12|..]. }
  eapply transparent_trans; [exact H3|]. eapply (IH (p + 1)); [apply H3| |exact Hl].
  eapply ps_ok_next; [apply H3|by apply inv_page_size|done].
Qed.

(** ** Lemmas: start and stop *)

(** The values that the unsigned fields of a configuration can hold. *)
Definition config_in (c : SsdStreamingConfig) : bool :=
  (0 <=? sc_capacity_bytes c) && (0 <=? sc_page_size c) && (0 <=? sc_io_chunk_size c) &&
  (0 <=? sc_cache_pages c) && (0 <=? sc_read_ahead_pages c).

Lemma fill_defaults_ok c : config_in c = true → validate_config c = true → config_ok (fill_defaults c).
Proof.
  unfold config_in, validate_config. intros Hin Hv.
  repeat (case_match; try done). btests. split; simpl; try lia.
  - repeat case_match; btests; lia.
  - case_match; btests; [|lia]. apply Z.div_pos; lia.
Qed.

Lemma fill_defaults_in c : config_ok (fill_defaults c) → config_in c = true → config_in (fill_defaults c) = true.
Proof.
  unfold config_in. intros [] Hin. btests. repeat (apply andb_true_intro; split); btests; simpl in *; lia.
Qed.

Lemma empty_inv s : config_ok (sb_config s) → sb_pages s = ∅ → ssd_inv s ∧ quiet s.
Proof.
  intros Hc Hp. split; [split|]; [done| | |].
  - intros p pm. by rewrite Hp, lookup_empty.
  - unfold num_pages. rewrite Hp, map_size_empty. destruct Hc. lia.
  - intros p. unfold refcount. by rewrite Hp, lookup_empty.
Qed.

(** What holds of a backend between two calls. *)
Definition between_calls (s : SsdStreamingBackend) : Prop :=
  config_in (sb_config s) = true ∧
  if sb_initialized s then ssd_inv s ∧ quiet s else sb_pages s = ∅.

Lemma initialize_ok b s ok s' : between_calls s → initialize b s = (ok, s') → between_calls s'.
Proof.
  unfold initialize. intros Hb Hi. destruct (sb_initialized s) eqn:En; [by simplify_eq|].
  destruct Hb as [Hin Hp]. rewrite En in Hp.
  destruct (validate_config (sb_config s) && b) eqn:Ev; simplify_eq/=; [|split; [done|by rewrite En]].
  apply andb_prop in Ev as [Ev _]. pose proof (fill_defaults_ok _ Hin Ev) as Hc.
  split; simpl; [by apply fill_defaults_in|]. by apply empty_inv.
Qed.

Lemma shutdown_ok s : between_calls s → between_calls (shutdown s).
Proof.
  unfold shutdown. intros [Hin Hb]. destruct (sb_initialized s) eqn:En; simpl; [|split; [done|by rewrite En]].
  destruct Hb as [Hi Hq]. destruct (flush_all (snapshot s) s) as [fok s1] eqn:Ef.
  apply flush_all_ok in Ef as [H1 _]; [|done]. simpl. destruct (fsync s1) as [sok s2] eqn:Es.
  apply fsync_store in Es as (Hc & _). split; simpl; [|done]. by rewrite Hc, (ok_config _ _ H1).
Qed.

(** ** Lemmas: the operations *)

Lemma read_ok s addr size r s' :
  ssd_inv s → quiet s → is_u64 addr → is_u64 size → read s addr size = (r, s') →
  step_ok s s' ∧ ∀ bytes, r = Some bytes → bytes = logical_range s addr (Z.to_nat size).
Proof.
  intros Hi Hq Ha Hs Hr. unfold read in Hr. destruct (range_valid s addr size) eqn:Hv; cbn [negb] in Hr.
  2: { simplify_eq. split; [by apply step_ok_refl|done]. }
  apply range_valid_bound in Hv as [H1 H2]; [|done].
  destruct (sb_initialized s); cbn [negb] in Hr; [|simplify_eq; split; [by apply step_ok_refl|done]].
  destruct (read_loop _ s addr size true) as [r1 s1] eqn:El.
  unfold is_u64 in *. apply read_loop_ok in El as [Hok Hb]; try done; try lia.
  destruct r1; simplify_eq; (split; [|by intros bytes [= <-]; apply Hb || done]); [|done].
  by apply (step_ok_store s s1).
Qed.

Lemma write_ok s addr src ok s' :
  ssd_inv s → quiet s → is_u64 addr → is_u64 (Z.of_nat (length src)) → write s addr src = (ok, s') →
  ∃ k, (k ≤ length src)%nat ∧ (ok = true → k = length src) ∧ wrote s s' addr (take k src).
Proof.
  intros Hi Hq Ha Hs Hr. unfold write in Hr.
  assert (∃ k, (k ≤ length src)%nat ∧ (false = true → k = length src) ∧ wrote s s addr (take k src)) as H0.
  { exists 0%nat. split_and!; [lia|done|]. by apply step_ok_wrote, step_ok_refl. }
  destruct (range_valid s addr _) eqn:Hv; cbn [negb] in Hr; [|by simplify_eq].
  apply range_valid_bound in Hv as [H1 H2]; [|done].
  destruct (sb_initialized s); cbn [negb] in Hr; [|by simplify_eq].
  destruct (write_loop _ s addr src) as [ok1 s1] eqn:El. unfold is_u64 in *.
  apply write_loop_ok in El as (k & Hk & Hf & Hw); try done; try lia.
  exists k. destruct ok1; simplify_eq; (split_and!; [done..|]); [|done].
  destruct Hw as [Wi Wc Wn Wq Wl]. assert (same_store s1 (count 0 1 0 0 0 0 0 (Z.of_nat (length src)) s1)) as Hss by done.
  apply same_store_ok in Hss; [|done]. split; [apply Hss|done|done| |].
  - intros _. by apply (step_ok_quiet s1); [|apply Wq].
  - intros a Ha'. rewrite <- Wl by done. by apply step_ok_logical.
Qed.

(** The operations that take a range and move or mark its pages. *)
Inductive range_op := OpPrefetch | OpEvictAfter | OpPin | OpUnpin | OpSetStreaming.

Definition run_range_op (op : range_op) : SsdStreamingBackend → Z → Z → bool * SsdStreamingBackend :=
  match op with
  | OpPrefetch => prefetch | OpEvictAfter => evict_after | OpPin => pin | OpUnpin => unpin
  | OpSetStreaming => set_streaming
  end.

Lemma range_op_ok op s addr size ok s' :
  ssd_inv s → quiet s → is_u64 addr → is_u64 size → run_range_op op s addr size = (ok, s') → transparent s s'.
Proof.
  intros Hi Hq Ha Hs Ho. destruct (op_ready s addr size) eqn:Hr.
  - pose proof (op_ready_pages s addr size Hi Ha Hs Hr) as Hp.
    destruct op; simpl in Ho; unfold prefetch, evict_after, pin, unpin, set_streaming in Ho; rewrite Hr in Ho.
    + by eapply step_ok_transparent, prefetch_loop_ok.
    + by eapply step_ok_transparent, evict_loop_ok.
    + by eapply pin_loop_ok.
    + simplify_eq. by apply unpin_loop_ok.
    + by eapply streaming_loop_ok.
  - assert (s' = s) as ->; [|by apply step_ok_transparent, step_ok_refl].
    destruct op; simpl in Ho; unfold prefetch, evict_after, pin, unpin, set_streaming in Ho; rewrite Hr in Ho;
      by simplify_eq.
Qed.

(** ** Histories of calls *)

(** The calls that are not meant to change the stored bytes. *)
Inductive cache_step (s : SsdStreamingBackend) : SsdStreamingBackend → Prop :=
  | cache_read addr size r s' : is_u64 addr → is_u64 size → read s addr size = (r, s') → cache_step s s'
  | cache_flush ok s' : flush s = (ok, s') → cache_step s s'
  | cache_range op addr size ok s' :
      is_u64 addr → is_u64 size → run_range_op op s addr size = (ok, s') → cache_step s s'.

Inductive ssd_step (s : SsdStreamingBackend) : SsdStreamingBackend → Prop :=
  | ssd_cache s' : cache_step s s' → ssd_step s s'
  | ssd_write addr src ok s' :
      is_u64 addr → is_u64 (Z.of_nat (length src)) → write s addr src = (ok, s') → ssd_step s s'
  | ssd_initialize open_ok ok s' : initialize open_ok s = (ok, s') → ssd_step s s'
  | ssd_shutdown : ssd_step s (shutdown s).

(** The states of a backend after its construction and any number of calls. *)
Definition ssd_reachable (s : SsdStreamingBackend) : Prop :=
  ∃ c disk io alloc, config_in c = true ∧ rtc ssd_step (SsdStreamingBackend_new c disk io alloc) s.

Lemma uninitialized_cache s s' : sb_initialized s = false → cache_step s s' → s' = s.
Proof.
  intros Hn [addr size r s1 _ _ Hr|ok s1 Hf|op addr size ok s1 _ _ Ho].
  - unfold read in Hr. rewrite Hn in Hr. destruct (range_valid s addr size); by simplify_eq/=.
  - unfold flush in Hf. rewrite Hn in Hf. by simplify_eq/=.
  - destruct op; simpl in Ho; unfold prefetch, evict_after, pin, unpin, set_streaming, op_ready in Ho;
      rewrite Hn, andb_false_r in Ho; by simplify_eq/=.
Qed.

Lemma cache_step_ok s s' : ssd_inv s → quiet s → cache_step s s' → transparent s s'.
Proof.
  intros Hi Hq [addr size r s1 Ha Hs Hr|ok s1 Hf|op addr size ok s1 Ha Hs Ho].
  - apply step_ok_transparent. by destruct (read_ok s addr size r s1).
  - by destruct (flush_ok s ok s1).
  - by apply (range_op_ok op s addr size ok).
Qed.

Lemma cache_step_between s s' :
  between_calls s → cache_step s s' → between_calls s' ∧ ∀ a, logical s' a = logical s a.
Proof.
  intros [Hin Hb] Hs. destruct (sb_initialized s) eqn:Hn.
  - destruct Hb as [Hi Hq]. pose proof (cache_step_ok s s' Hi Hq Hs) as Ht.
    split; [|intros a; by apply transparent_logical]. destruct Ht as [Ti Tc Tn Tq _].
    split; [by rewrite Tc|]. rewrite Tn, Hn. split; [done|by apply Tq].
  - apply uninitialized_cache in Hs as ->; [|done]. split; [|done]. split; [done|by rewrite Hn].
Qed.

Lemma cache_steps_between s s' :
  between_calls s → rtc cache_step s s' → between_calls s' ∧ ∀ a, logical s' a = logical s a.
Proof.
  intros Hb Hs. induction Hs as [|s1 s2 s3 H12 _ IH]; [done|].
  apply cache_step_between in H12 as [Hb2 H12]; [|done]. destruct (IH Hb2) as [Hb3 H23].
  split; [done|]. intros a. by rewrite H23.
Qed.

Lemma write_between s addr src ok s' :
  between_calls s → is_u64 addr → is_u64 (Z.of_nat (length src)) → write s addr src = (ok, s') →
  between_calls s' ∧ ∃ k, (k ≤ length src)%nat ∧ (ok = true → k = length src) ∧
    ∀ a, 0 <= a → logical s' a = overlay (logical s) addr (take k src) a.
Proof.
  intros [Hin Hb] Ha Hl Hw. destruct (sb_initialized s) eqn:Hn.
  - destruct Hb as [Hi Hq]. apply write_ok in Hw as (k & Hk & Hf & [Wi Wc Wn Wq Wl]); try done.
    split; [|by exists k]. split; [by rewrite Wc|]. rewrite Wn, Hn. split; [done|by apply Wq].
  - unfold write in Hw. rewrite Hn in Hw.
    assert (ok = false ∧ s' = s) as [-> ->] by (destruct (range_valid s addr _); by simplify_eq/=).
    split; [split; [done|by rewrite Hn]|]. exists 0%nat. split_and!; [lia|done|].
    intros a _. by rewrite overlay_nil.
Qed.

Lemma ssd_step_between s s' : between_calls s → ssd_step s s' → between_calls s'.
Proof.
  intros Hb [s1 Hc|addr src ok s1 Ha Hl Hw|b ok s1 Hi|].
  - by apply (cache_step_between s s1).
  - by destruct (write_between s addr src ok s1).
  - by apply (initialize_ok b s ok).
  - by apply shutdown_ok.
Qed.

Lemma ssd_reachable_between s : ssd_reachable s → between_calls s.
Proof.
  intros (c & disk & io & alloc & Hin & Hr).
  assert (between_calls (SsdStreamingBackend_new c disk io alloc)) as H0 by done.
  revert H0. induction Hr as [|s1 s2 s3 H12 _ IH]; [done|]. intros H1. by eapply IH, ssd_step_between.
Qed.

Lemma logical_range_lookup s a n bytes :
  length bytes = n → (∀ i, (i < n)%nat → logical s (a + Z.of_nat i) = nth i bytes 0) → logical_range s a n = bytes.
Proof.
  intros Hl Hb. unfold logical_range. apply (nth_ext _ _ 0 0); rewrite length_fmap, length_seq; [done|].
  intros i Hi. rewrite <- Hb by done.
  rewrite (nth_indep _ _ (logical s (a + Z.of_nat 0))) by (by rewrite length_fmap, length_seq).
  by rewrite (map_nth (λ i, logical s (a + Z.of_nat i))), seq_nth.
Qed.

(** Without I/O failures every flush succeeds. *)
Lemma flush_page_no_failure s p : sb_io s = [] → ∃ s', flush_page_locked s p = (true, s') ∧ sb_io s' = [].
Proof.
  intros Hio. unfold flush_page_locked, write_page. rewrite Hio.
  destruct (sb_pages s !! p) as [pm|]; [|by exists s]. destruct (pm_dirty pm); simpl; [|by exists s]. by eexists.
Qed.

Lemma flush_all_no_failure ps s : sb_io s = [] → ∃ s', flush_all ps s = (true, s') ∧ sb_io s' = [].
Proof.
  revert s. induction ps as [|p ps IH]; intros s Hio; simpl; [by exists s|].
  destruct (flush_page_no_failure s p Hio) as (s1 & -> & Hio1). destruct (IH s1 Hio1) as (s2 & -> & ?). by exists s2.
Qed.

(** ** A concrete backend: four pages of 512 bytes, one cached *)

Definition ex_ssd_config : SsdStreamingConfig :=
  {| sc_backing_path := "ssd.img"; sc_capacity_bytes := 2048; sc_page_size := 512; sc_io_chunk_size := 512;
     sc_cache_pages := 1; sc_read_ahead_pages := 1; sc_use_io_uring := false; sc_use_odirect := false |}.

Definition ex_ssd0 : SsdStreamingBackend := SsdStreamingBackend_new ex_ssd_config ∅ [] [].
Definition ex_ssd : SsdStreamingBackend := (initialize true ex_ssd0).2.

(** Twelve bytes across the boundary of the first two pages. *)
Definition ex_src : list Z := [1; 2; 3; 4; 5; 6; 7; 8; 9; 10; 11; 12].
Definition ex_ssd_written : SsdStreamingBackend := (write ex_ssd 506 ex_src).2.
Definition ex_ssd_pinned : SsdStreamingBackend := (pin ex_ssd_written 1024 8).2.

Lemma ex_ssd_reach : ssd_reachable ex_ssd.
Proof.
  exists ex_ssd_config, ∅, [], []. split; [done|]. eapply rtc_once.
  apply (ssd_initialize _ true true). reflexivity.
Qed.

Lemma ex_ssd_written_reach : ssd_reachable ex_ssd_written.
Proof.
  destruct ex_ssd_reach as (c & disk & io & alloc & Hc & Hr). exists c, disk, io, alloc. split; [done|].
  eapply rtc_r; [exact Hr|]. apply (ssd_write _ 506 ex_src (write ex_ssd 506 ex_src).1); [done..|].
  apply surjective_pairing.
Qed.

Lemma ex_ssd_pinned_reach : ssd_reachable ex_ssd_pinned.
Proof.
  destruct ex_ssd_written_reach as (c & disk & io & alloc & Hc & Hr). exists c, disk, io, alloc. split; [done|].
  eapply rtc_r; [exact Hr|]. apply ssd_cache, (cache_range _ OpPin 1024 8 (pin ex_ssd_written 1024 8).1); [done..|].
  apply surjective_pairing.
Qed.

(** ** Theorems *)

(** After any history of calls the cache of an initialized backend respects
    its bound, clean pages equal the file, dirty flags agree with page states,
    and no page is left referenced. *)
Theorem ssd_reachable_inv s :
  ssd_reachable s → sb_initialized s = true → ssd_inv s ∧ quiet s.
Proof. intros Hr Hn. apply ssd_reachable_between in Hr as [_ Hb]. by rewrite Hn in Hb. Qed.

Lemma ssd_reachable_inv_witness :
  sb_initialized ex_ssd_pinned = true ∧ ssd_inv ex_ssd_pinned.
Proof.
  split; [by vm_compute|]. apply (ssd_reachable_inv ex_ssd_pinned); [apply ex_ssd_pinned_reach|by vm_compute].
Defined.

(** A read that succeeds returns the stored bytes of its range, across page
    boundaries and whatever is evicted or read ahead; successful or not, it
    changes no stored byte. *)
Theorem ssd_read_correct s addr size r s' :
  ssd_reachable s → is_u64 addr → is_u64 size → read s addr size = (r, s') →
  (∀ bytes, r = Some bytes → bytes = logical_range s addr (Z.to_nat size)) ∧
  (∀ a, logical s' a = logical s a).
Proof.
  intros Hr Ha Hs Hrd. apply ssd_reachable_between in Hr. split.
  - destruct (sb_initialized s) eqn:Hn.
    + destruct Hr as [_ Hb]. rewrite Hn in Hb. destruct Hb. by apply (read_ok s addr size r s').
    + intros bytes ->. unfold read in Hrd. rewrite Hn in Hrd. by destruct (range_valid s addr size).
  - by apply (cache_step_between s s' Hr), (cache_read s addr size r).
Qed.

Lemma ssd_read_correct_witness :
  (read ex_ssd_written 506 12).1 = Some ex_src ∧
  ex_src = logical_range ex_ssd_written 506 (Z.to_nat 12).
Proof.
  assert (is_u64 506) as Ha by done. assert (is_u64 12) as Hs by done.
  assert ((read ex_ssd_written 506 12).1 = Some ex_src) as E by (vm_compute; reflexivity).
  split; [exact E|].
  pose proof (ssd_read_correct ex_ssd_written 506 12 _ _ ex_ssd_written_reach Ha Hs (surjective_pairing _)) as [H _].
  exact (H ex_src E).
Defined.

(** A write that succeeds changes exactly the bytes of its range; one that
    fails part-way has written a prefix and nothing else. *)
Theorem ssd_write_correct s addr src ok s' :
  ssd_reachable s → is_u64 addr → is_u64 (Z.of_nat (length src)) → write s addr src = (ok, s') →
  ∃ k, (k ≤ length src)%nat ∧ (ok = true → k = length src) ∧
    ∀ a, 0 <= a → logical s' a = overlay (logical s) addr (take k src) a.
Proof.
  intros Hr Ha Hl Hw. apply ssd_reachable_between in Hr. by destruct (write_between s addr src ok s').
Qed.

Lemma ssd_write_correct_witness :
  (write ex_ssd 506 ex_src).1 = true ∧
  ∃ k, (k ≤ length ex_src)%nat ∧ ((write ex_ssd 506 ex_src).1 = true → k = length ex_src) ∧
    ∀ a, 0 <= a → logical ex_ssd_written a = overlay (logical ex_ssd) 506 (take k ex_src) a.
Proof.
  split; [by vm_compute|].
  refine (ssd_write_correct ex_ssd 506 ex_src _ _ ex_ssd_reach _ _ (surjective_pairing _)); done.
Defined.

(** C21. A successful write followed by any number of reads, flushes, prefetches,
    evictions, pins, unpins and streaming hints is what a later successful read
    of the same range returns. *)
Theorem ssd_read_after_write s addr src s1 s2 bytes s3 :
  ssd_reachable s → is_u64 addr → is_u64 (Z.of_nat (length src)) →
  write s addr src = (true, s1) → rtc cache_step s1 s2 →
  read s2 addr (Z.of_nat (length src)) = (Some bytes, s3) → bytes = src.
Proof.
  intros Hr Ha Hl Hw Hc Hrd. apply ssd_reachable_between in Hr.
  apply write_between in Hw as (Hb1 & k & _ & Hk & Hw); try done. rewrite Hk, take_ge in Hw by done.
  apply cache_steps_between in Hc as [Hb2 Hc]; [|done].
  destruct (sb_initialized s2) eqn:Hn.
  - destruct Hb2 as [_ Hb2]. rewrite Hn in Hb2. destruct Hb2 as [Hi Hq].
    eapply read_ok in Hrd as [_ Hrd]; try done. rewrite (Hrd bytes eq_refl), Nat2Z.id.
    apply logical_range_lookup; [done|]. intros i Hi'. unfold is_u64 in *. rewrite Hc, Hw by lia.
    unfold overlay. rewrite (proj2 (Z.leb_le _ _)), (proj2 (Z.ltb_lt _ _)) by lia. simpl. f_equal. lia.
  - unfold read in Hrd. rewrite Hn in Hrd. by destruct (range_valid s2 addr _).
Qed.

Lemma ssd_read_after_write_witness :
  (read ex_ssd_pinned 506 12).1 = None ∧ (read (unpin ex_ssd_pinned 1024 8).2 506 12).1 = Some ex_src ∧
  ex_src = ex_src.
Proof.
  split_and!; [by vm_compute|by vm_compute|].
  apply (ssd_read_after_write ex_ssd 506 ex_src ex_ssd_written (unpin ex_ssd_pinned 1024 8).2 ex_src
           (read (unpin ex_ssd_pinned 1024 8).2 506 12).2 ex_ssd_reach); [done|done|by vm_compute| |by vm_compute].
  eapply rtc_l; [|eapply rtc_once].
  - apply (cache_range _ OpPin 1024 8 (pin ex_ssd_written 1024 8).1); [done..|apply surjective_pairing].
  - apply (cache_range _ OpUnpin 1024 8 (unpin ex_ssd_pinned 1024 8).1); [done..|apply surjective_pairing].
Defined.

(** A flush that reports success has made the backing file hold every stored
    byte, and the stored bytes are the ones before the flush. *)
Theorem ssd_flush_durable s s' :
  ssd_reachable s → flush s = (true, s') →
  (∀ p, disk_page s' p = page_content s p) ∧ (∀ a, logical s' a = logical s a).
Proof.
  intros Hr Hf. apply ssd_reachable_between in Hr.
  destruct (sb_initialized s) eqn:Hn; [|unfold flush in Hf; by rewrite Hn in Hf].
  destruct Hr as [_ Hb]. rewrite Hn in Hb. destruct Hb as [Hi Hq].
  apply flush_ok in Hf as [Ht Hd]; [|done..]. split; [by apply Hd|]. intros a. by apply transparent_logical.
Qed.

Lemma ssd_flush_durable_witness :
  (flush ex_ssd_written).1 = true ∧ disk_page ex_ssd_written 1 = replicate 512 0 ∧
  ∀ p, disk_page (flush ex_ssd_written).2 p = page_content ex_ssd_written p.
Proof.
  split_and!; [by vm_compute|by vm_compute|].
  apply (ssd_flush_durable ex_ssd_written (flush ex_ssd_written).2 ex_ssd_written_reach). vm_compute. reflexivity.
Defined.

(** When no I/O fails, a shutdown followed by a new start keeps every stored
    byte: nothing of the cache is lost. *)
Theorem ssd_restart_keeps s open_ok s' :
  ssd_reachable s → sb_initialized s = true → sb_io s = [] →
  initialize open_ok (shutdown s) = (true, s') → sb_initialized s' = true ∧ ∀ a, logical s' a = logical s a.
Proof.
  intros Hr Hn Hio Hs. apply ssd_reachable_between in Hr as [_ Hb]. rewrite Hn in Hb. destruct Hb as [Hi Hq].
  destruct (flush_all_no_failure (snapshot s) s Hio) as (s1 & Ef & Hio1).
  pose proof (flush_all_durable s s true s1 Hi (λ q, iff_refl _) Ef eq_refl) as Hd.
  apply flush_all_ok in Ef as Hf; [|done]. destruct Hf as [Hok _].
  unfold shutdown, fsync in Hs. rewrite Hn, Ef in Hs. simpl in Hs. rewrite Hio1 in Hs.
  unfold initialize in Hs. simpl in Hs. destruct (_ && _); simplify_eq/=. split; [done|]. intros a.
  unfold logical. rewrite <- Hd. unfold page_content, page_offset, addr_to_page, disk_page, page_size. simpl.
  by rewrite lookup_empty, (ok_config _ _ Hok).
Qed.

Lemma ssd_restart_keeps_witness :
  logical ex_ssd_pinned 507 = 2 ∧
  ∀ a, logical (initialize true (shutdown ex_ssd_pinned)).2 a = logical ex_ssd_pinned a.
Proof.
  split; [by vm_compute|].
  apply (ssd_restart_keeps ex_ssd_pinned true _ ex_ssd_pinned_reach); [by vm_compute|by vm_compute|].
  vm_compute. reflexivity.
Defined.

(** A pinned page stays in the cache, pinned and resident, through every
    read, prefetch and eviction request. *)
Theorem ssd_pinned_kept s op addr size s' p pm :
  ssd_reachable s → is_u64 addr → is_u64 size →
  (∃ r, read s addr size = (r, s')) ∨
  (∃ ok, run_range_op op s addr size = (ok, s') ∧ (op = OpPrefetch ∨ op = OpEvictAfter)) →
  sb_pages s !! p = Some pm → pm_pinned pm = true → resident pm = true →
  ∃ pm', sb_pages s' !! p = Some pm' ∧ pm_pinned pm' = true ∧ resident pm' = true.
Proof.
  intros Hr Ha Hs Hop Hp Hpin Hres. apply ssd_reachable_between in Hr as [_ Hb].
  destruct (sb_initialized s) eqn:Hn; [destruct Hb as [Hi Hq]|by rewrite Hb in Hp].
  assert (step_ok s s') as Hok.
  { destruct Hop as [[r Hr]|(ok & Ho & Hw)]; [by destruct (read_ok s addr size r s')|].
    assert (run_range_op op s addr size = (ok, s') → s' = s ∨ ps_ok s (first_page s addr) (page_count s addr size)).
    { destruct (op_ready s addr size) eqn:E; [right; by apply op_ready_pages|left].
      destruct Hw as [-> | ->]; simpl in Ho; unfold prefetch, evict_after in Ho; rewrite E in Ho; by simplify_eq. }
    destruct H as [->|Hps]; [done|by apply step_ok_refl|].
    destruct Hw as [-> | ->]; simpl in Ho; unfold prefetch, evict_after in Ho; destruct (op_ready s addr size);
      simplify_eq; try by apply step_ok_refl.
    - by apply (prefetch_loop_ok _ _ _ _ _ Hi Hq Hps Ho).
    - by apply (evict_loop_ok _ _ _ _ _ Hi Ho). }
  destruct (ok_held _ _ Hok p pm Hp (or_introl Hpin)) as (pm' & Hp' & Hpin' & Hres').
  exists pm'. split_and!; [done|congruence|auto].
Qed.

Lemma ssd_pinned_kept_witness :
  (evict_after ex_ssd_pinned 1024 8).1 = false ∧
  ∃ pm', sb_pages (evict_after ex_ssd_pinned 1024 8).2 !! 2 = Some pm' ∧ pm_pinned pm' = true ∧ resident pm' = true.
Proof.
  split; [by vm_compute|]. assert (is_u64 1024) as Ha by done. assert (is_u64 8) as Hs by done.
  apply (ssd_pinned_kept ex_ssd_pinned OpEvictAfter 1024 8 _ 2
           {| pm_state := ResidentClean; pm_refcnt := 0; pm_generation := 5; pm_dirty := false; pm_accessed := true;
              pm_pinned := true; pm_streaming := false; pm_data := replicate 512 0 |} ex_ssd_pinned_reach Ha Hs).
  - right. exists (evict_after ex_ssd_pinned 1024 8).1. split; [apply surjective_pairing|by right].
  - vm_compute. reflexivity.
  - reflexivity.
  - reflexivity.
Defined.

(** ** Observations *)

(** A victim whose write-back fails has left the clock queue but not the cache:
    no later call of [evict_one_locked] can choose it. *)
Theorem ssd_failed_writeback_leaks s p rest pm g io ok s' :
  sb_clock_queue s = p :: rest → p ∉ rest → sb_pages s !! p = Some pm →
  pm_pinned pm = false → pm_refcnt pm = 0 → pm_accessed pm = false → pm_dirty pm = true →
  sb_io s = IoFail g :: io → evict_one_locked s = (ok, s') →
  ok = false ∧ is_Some (sb_pages s' !! p) ∧ p ∉ sb_clock_queue s'.
Proof.
  intros Hq Hn Hp Hpin Href Hacc Hd Hio He. unfold evict_one_locked in He.
  rewrite bool_decide_eq_false_2 in He by (intros E; by rewrite E in Hp).
  rewrite Nat.add_1_r in He. cbn [clock_loop] in He. rewrite Hq, Hp, Hpin, Href, Hacc in He. simpl in He.
  unfold evict_page_locked, flush_page_locked, write_page in He. simpl in He.
  rewrite Hp, Hpin, Href, Hd in He. simpl in He. rewrite Hio in He. simplify_eq/=.
  split_and!; [done| |done]. rewrite lookup_insert_eq. by eexists.
Qed.

(** A range that ends exactly at the top of the address space wraps to 0 and is
    accepted: a page far past the capacity enters the cache. *)
Theorem ssd_range_wraps :
  (set_streaming ex_ssd (TWO64 - 512) 512).1 = true ∧
  is_Some (sb_pages (set_streaming ex_ssd (TWO64 - 512) 512).2 !! (36028797018963967)) ∧
  last_page ex_ssd = 3.
Proof. vm_compute. split_and!; [done|by eexists|done]. Qed.
