(* ===== verification/LruCache.v ===== *)
(** * LRU caches and page-table walks

    Models [LRUCache] of include/cxlcontroller.h (the last-level cache of the
    controller), [HugePagePolicy::TLBCache] and the page-table walk of
    [HugePagePolicy] of include/policy.h.

    Both caches keep a [std::list] in recency order and a hash map of iterators
    into it.  [IndexedList] models this pair: a node of the list has an
    identity, the map holds identities, and using an iterator that is not in
    the list, or the back of an empty list, is undefined ([None]).  The
    theorems show that this never happens and that the caches implement the
    textbook definition: a list of pairs, most recent first. *)

From S2P Require Import Prelude Float64.

(** ** A list with an index of iterators *)

Record IndexedList := {
  il_list : list (Z * Z);  (** node identity and key, front first *)
  il_map : gmap Z Z;       (** key to node identity *)
  il_next : Z              (** the identity of the next node *)
}.

Definition il_empty : IndexedList := {| il_list := []; il_map := ∅; il_next := 0 |}.

Definition il_keys (il : IndexedList) : list Z := snd <$> il_list il.

(** [list.erase(map[key])]: undefined unless the iterator is in the list. *)
Definition il_unlink (key : Z) (il : IndexedList) : option IndexedList :=
  match il_map il !! key with
  | None => None
  | Some node =>
      if existsb (λ n, n.1 =? node) (il_list il)
      then Some {| il_list := keep (λ n, negb (n.1 =? node)) (il_list il); il_map := il_map il; il_next := il_next il |}
      else None
  end.

(** [list.push_front(key); map[key] = list.begin()]. *)
Definition il_push_front (key : Z) (il : IndexedList) : IndexedList :=
  {| il_list := (il_next il, key) :: il_list il; il_map := <[key := il_next il]> (il_map il);
     il_next := il_next il + 1 |}.

(** [map.erase(key)]. *)
Definition il_forget (key : Z) (il : IndexedList) : IndexedList :=
  {| il_list := il_list il; il_map := delete key (il_map il); il_next := il_next il |}.

(** [key = list.back(); list.pop_back()]: undefined on an empty list. *)
Definition il_pop_back (il : IndexedList) : option (Z * IndexedList) :=
  match last (il_list il) with
  | None => None
  | Some n => Some (n.2, {| il_list := removelast (il_list il); il_map := il_map il; il_next := il_next il |})
  end.

(** ** LRUCache *)

Record LRUCacheEntry := { ce_key : Z; ce_value : Z; ce_timestamp : Z }.

Record LRUCache := {
  lc_capacity : Z;                (** [int] *)
  lc_cache : gmap Z LRUCacheEntry;
  lc_lru : IndexedList            (** [lru_list] and [lru_map] *)
}.

Definition LRUCache_new (capacity : Z) : LRUCache :=
  {| lc_capacity := capacity; lc_cache := ∅; lc_lru := il_empty |}.

Definition lru_size (c : LRUCache) : Z := Z.of_nat (size (lc_cache c)).

Definition get (c : LRUCache) (key timestamp : Z) : option (option Z * LRUCache) :=
  match lc_cache c !! key with
  | None => Some (None, c)
  | Some e =>
      il ← il_unlink key (lc_lru c);
      Some (Some (ce_value e),
        {| lc_capacity := lc_capacity c;
           lc_cache := <[key := {| ce_key := ce_key e; ce_value := ce_value e; ce_timestamp := timestamp |}]> (lc_cache c);
           lc_lru := il_push_front key il |})
  end.

(** The eviction of [put]; [cache.size() >= capacity] compares as [size_t]. *)
Definition make_space (c : LRUCache) : option LRUCache :=
  if u64 (lc_capacity c) <=? lru_size c then
    '(lru_key, il) ← il_pop_back (lc_lru c);
    Some {| lc_capacity := lc_capacity c; lc_cache := delete lru_key (lc_cache c); lc_lru := il_forget lru_key il |}
  else Some c.

Definition put (c : LRUCache) (key value timestamp : Z) : option LRUCache :=
  c1 ← (if bool_decide (is_Some (lc_cache c !! key)) then
          il ← il_unlink key (lc_lru c);
          Some {| lc_capacity := lc_capacity c; lc_cache := lc_cache c; lc_lru := il |}
        else make_space c);
  Some {| lc_capacity := lc_capacity c1;
          lc_cache := <[key := {| ce_key := key; ce_value := value; ce_timestamp := timestamp |}]> (lc_cache c1);
          lc_lru := il_push_front key (lc_lru c1) |}.

Definition clear (c : LRUCache) : LRUCache :=
  {| lc_capacity := lc_capacity c; lc_cache := ∅;
     lc_lru := {| il_list := []; il_map := ∅; il_next := il_next (lc_lru c) |} |}.

Definition remove (c : LRUCache) (key : Z) : option (bool * LRUCache) :=
  match lc_cache c !! key with
  | None => Some (false, c)
  | Some _ =>
      il ← il_unlink key (lc_lru c);
      Some (true, {| lc_capacity := lc_capacity c; lc_cache := delete key (lc_cache c); lc_lru := il_forget key il |})
  end.

Definition contains (c : LRUCache) (key : Z) : bool := bool_decide (is_Some (lc_cache c !! key)).

Definition peek (c : LRUCache) (key : Z) : option Z := ce_value <$> lc_cache c !! key.

(** ** TLBCache *)

Record TLBCache := { tlb_capacity : Z; tlb_entries : IndexedList }.

Definition TLBCache_new (size : Z) : TLBCache := {| tlb_capacity := size; tlb_entries := il_empty |}.

(** [lookup]: a hit moves the page to the front. *)
Definition tlb_lookup (t : TLBCache) (page_addr : Z) : option (bool * TLBCache) :=
  match il_map (tlb_entries t) !! page_addr with
  | None => Some (false, t)
  | Some _ =>
      il ← il_unlink page_addr (tlb_entries t);
      Some (true, {| tlb_capacity := tlb_capacity t; tlb_entries := il_push_front page_addr il |})
  end.

Definition tlb_insert (t : TLBCache) (page_addr : Z) : option TLBCache :=
  il1 ← (match il_map (tlb_entries t) !! page_addr with
         | Some _ => il_forget page_addr <$> il_unlink page_addr (tlb_entries t)
         | None => Some (tlb_entries t)
         end);
  il2 ← (if tlb_capacity t <=? Z.of_nat (length (il_list il1)) then
           '(victim, il) ← il_pop_back il1; Some (il_forget victim il)
         else Some il1);
  Some {| tlb_capacity := tlb_capacity t; tlb_entries := il_push_front page_addr il2 |}.

(** ** HugePagePolicy *)

Inductive page_type := CACHELINE | PAGE | HUGEPAGE_2M | HUGEPAGE_1G.

Record CXLHugePageEvent := {
  tlb_hits_4k : Z; tlb_misses_4k : Z; tlb_hits_2m : Z; tlb_misses_2m : Z; tlb_hits_1g : Z; tlb_misses_1g : Z;
  ptw_count : Z
}.

Record HugePagePolicy := {
  ptw_base_latency_local : Z;
  ptw_base_latency_remote : Z;
  va_pa_cache : gmap Z Z;
  tlb_4k : TLBCache;
  tlb_2m : TLBCache;
  tlb_1g : TLBCache;
  hp_stats : CXLHugePageEvent
}.

Definition HugePagePolicy_new (local_latency remote_latency : Z) : HugePagePolicy :=
  {| ptw_base_latency_local := local_latency; ptw_base_latency_remote := remote_latency; va_pa_cache := ∅;
     tlb_4k := TLBCache_new 64; tlb_2m := TLBCache_new 32; tlb_1g := TLBCache_new 4;
     hp_stats := {| tlb_hits_4k := 0; tlb_misses_4k := 0; tlb_hits_2m := 0; tlb_misses_2m := 0; tlb_hits_1g := 0;
                    tlb_misses_1g := 0; ptw_count := 0 |} |}.

(** [virt_addr & ~((1ULL << shift) - 1)], and the shift of a page type. *)
Definition page_shift (pt : page_type) : Z :=
  match pt with CACHELINE | PAGE => 12 | HUGEPAGE_2M => 21 | HUGEPAGE_1G => 30 end.
Definition page_base (shift virt_addr : Z) : Z := Z.land virt_addr (u64 (Z.lnot (Z.shiftl 1 shift - 1))).

Definition ptw_reduction (pt : page_type) : f64 :=
  match pt with CACHELINE | PAGE => f1 | HUGEPAGE_2M => flit 3 4 | HUGEPAGE_1G => flit 1 2 end.

(** The TLB that the walk selects. *)
Definition tlb_of (pt : page_type) (p : HugePagePolicy) : TLBCache :=
  match pt with CACHELINE | PAGE => tlb_4k p | HUGEPAGE_2M => tlb_2m p | HUGEPAGE_1G => tlb_1g p end.

Definition set_tlb (pt : page_type) (t : TLBCache) (p : HugePagePolicy) : HugePagePolicy :=
  {| ptw_base_latency_local := ptw_base_latency_local p; ptw_base_latency_remote := ptw_base_latency_remote p;
     va_pa_cache := va_pa_cache p;
     tlb_4k := match pt with CACHELINE | PAGE => t | _ => tlb_4k p end;
     tlb_2m := match pt with HUGEPAGE_2M => t | _ => tlb_2m p end;
     tlb_1g := match pt with HUGEPAGE_1G => t | _ => tlb_1g p end; hp_stats := hp_stats p |}.

(** The counter updates of the second switch. *)
Definition count_tlb (pt : page_type) (hit : bool) (e : CXLHugePageEvent) : CXLHugePageEvent :=
  let h := if hit then 1 else 0 in
  let m := if hit then 0 else 1 in
  let k4 := match pt with CACHELINE | PAGE => 1 | _ => 0 end in
  let k2 := match pt with HUGEPAGE_2M => 1 | _ => 0 end in
  let k1 := match pt with HUGEPAGE_1G => 1 | _ => 0 end in
  {| tlb_hits_4k := tlb_hits_4k e +w k4 * h; tlb_misses_4k := tlb_misses_4k e +w k4 * m;
     tlb_hits_2m := tlb_hits_2m e +w k2 * h; tlb_misses_2m := tlb_misses_2m e +w k2 * m;
     tlb_hits_1g := tlb_hits_1g e +w k1 * h; tlb_misses_1g := tlb_misses_1g e +w k1 * m;
     ptw_count := ptw_count e |}.

Definition set_hp (vp : gmap Z Z) (e : CXLHugePageEvent) (p : HugePagePolicy) : HugePagePolicy :=
  {| ptw_base_latency_local := ptw_base_latency_local p; ptw_base_latency_remote := ptw_base_latency_remote p;
     va_pa_cache := vp; tlb_4k := tlb_4k p; tlb_2m := tlb_2m p; tlb_1g := tlb_1g p; hp_stats := e |}.

Definition inc_ptw_count (e : CXLHugePageEvent) : CXLHugePageEvent :=
  {| tlb_hits_4k := tlb_hits_4k e; tlb_misses_4k := tlb_misses_4k e; tlb_hits_2m := tlb_hits_2m e;
     tlb_misses_2m := tlb_misses_2m e; tlb_hits_1g := tlb_hits_1g e; tlb_misses_1g := tlb_misses_1g e;
     ptw_count := ptw_count e +w 1 |}.

Definition check_page_table_walk `{CastUB} (p : HugePagePolicy) (virt_addr phys_addr : Z) (is_remote : bool)
    (page_size : page_type) : option (Z * HugePagePolicy) :=
  let base_latency := if is_remote then ptw_base_latency_remote p else ptw_base_latency_local p in
  let page_addr := page_base (page_shift page_size) virt_addr in
  '(tlb_hit, tlb) ← tlb_lookup (tlb_of page_size p) page_addr;
  let p1 := set_hp (va_pa_cache p) (count_tlb page_size tlb_hit (hp_stats p)) (set_tlb page_size tlb p) in
  if (tlb_hit : bool) then Some (0, p1)
  else match va_pa_cache p1 !! virt_addr with
       | Some _ =>
           tlb' ← tlb_insert tlb page_addr;
           Some (f64_to_u64 (f64_of_Z base_latency * flit 1 5 * ptw_reduction page_size)%f64, set_tlb page_size tlb' p1)
       | None =>
           let p2 := set_hp (<[virt_addr := phys_addr]> (va_pa_cache p1)) (inc_ptw_count (hp_stats p1)) p1 in
           tlb' ← tlb_insert tlb page_addr;
           Some (f64_to_u64 (f64_of_Z base_latency * ptw_reduction page_size)%f64, set_tlb page_size tlb' p2)
       end.

(** ** The specification *)

Definition without (k : Z) (l : list Z) : list Z := keep (λ x, negb (x =? k)) l.

(** Pairs of key and value, most recently used first. *)
Definition spec := list (Z * Z).

Definition spec_find (k : Z) (l : spec) : option Z := snd <$> find_first (λ x, x.1 =? k) l.
Definition spec_drop (k : Z) (l : spec) : spec := keep (λ x, negb (x.1 =? k)) l.

Definition spec_get (k : Z) (l : spec) : option Z * spec :=
  match spec_find k l with
  | Some v => (Some v, (k, v) :: spec_drop k l)
  | None => (None, l)
  end.

Definition spec_put (cap : nat) (k v : Z) (l : spec) : spec := (k, v) :: take (cap - 1) (spec_drop k l).

(** The abstraction. *)
Definition value_of (c : LRUCache) (k : Z) : Z := default 0 (peek c k).
Definition recency (c : LRUCache) : spec := (λ k, (k, value_of c k)) <$> il_keys (lc_lru c).

(** ** Invariants *)

Record il_ok (il : IndexedList) : Prop := {
  io_ids : ∀ n, n ∈ il_list il → n.1 < il_next il;
  io_nodup : NoDup il.(il_list).*1;
  io_keys : NoDup (il_keys il);
  io_map : ∀ k i, il_map il !! k = Some i ↔ (i, k) ∈ il_list il
}.

Record lru_ok (c : LRUCache) : Prop := {
  lo_list : il_ok (lc_lru c);
  lo_dom : ∀ k, is_Some (lc_cache c !! k) ↔ k ∈ il_keys (lc_lru c);
  lo_key : ∀ k e, lc_cache c !! k = Some e → ce_key e = k;
  lo_capacity : 1 <= lc_capacity c <= 2147483647;
  lo_bound : Z.of_nat (length (il_keys (lc_lru c))) <= lc_capacity c
}.

Record tlb_ok (t : TLBCache) : Prop := {
  to_list : il_ok (tlb_entries t);
  to_capacity : 1 <= tlb_capacity t;
  to_bound : Z.of_nat (length (il_keys (tlb_entries t))) <= tlb_capacity t
}.

(** ** Lemmas: lists *)

Lemma without_notin k l : k ∉ l → without k l = l.
Proof. intros Hk. apply keep_all. intros x Hx. apply negb_true_iff, Z.eqb_neq. by intros ->. Qed.

Lemma elem_of_without k l x : x ∈ without k l ↔ x ≠ k ∧ x ∈ l.
Proof. unfold without. rewrite elem_of_keep, negb_true_iff, Z.eqb_neq. done. Qed.

Lemma without_nodup k l : NoDup l → NoDup (without k l).
Proof. intros Hn. eapply sublist_NoDup; [exact Hn|]. apply keep_sublist. Qed.

Lemma without_length k l : NoDup l → k ∈ l → S (length (without k l)) = length l.
Proof.
  induction 1 as [|x l Hx Hn IH]; [set_solver|]. unfold without in *. rewrite keep_cons.
  intros [->|Hk]%elem_of_cons.
  - rewrite Z.eqb_refl. simpl. change (keep _ l) with (without x l). by rewrite without_notin.
  - destruct (x =? k) eqn:E; btests; [subst; done|]. simpl. by rewrite IH.
Qed.

Lemma removelast_take {A} (l : list A) : removelast l = take (length l - 1) l.
Proof.
  induction l as [|x l IH]; [done|]. destruct l as [|y l]; [done|].
  change (removelast (x :: y :: l)) with (x :: removelast (y :: l)). rewrite IH. simpl. by rewrite Nat.sub_0_r.
Qed.

Lemma removelast_fmap {A B} (f : A → B) (l : list A) : f <$> removelast l = removelast (f <$> l).
Proof. by rewrite !removelast_take, length_fmap, fmap_take. Qed.

Lemma removelast_snoc {A} (l : list A) x : last l = Some x → l = removelast l ++ [x].
Proof.
  intros Hl. apply last_Some in Hl as [l' ->]. by rewrite removelast_last.
Qed.

Lemma take_incl {A} (x : A) n l : x ∈ take n l → x ∈ l.
Proof. rewrite elem_of_take. intros (i & Hi & _). by eapply list_elem_of_lookup_2. Qed.

(** ** Lemmas: the indexed list *)

Lemma il_empty_ok n : il_ok {| il_list := []; il_map := ∅; il_next := n |}.
Proof.
  split; simpl; [set_solver|constructor|constructor|]. intros k i. rewrite lookup_empty. set_solver.
Qed.

Lemma il_mem il k : il_ok il → k ∈ il_keys il ↔ is_Some (il_map il !! k).
Proof.
  intros [_ _ _ Hm]. unfold il_keys. rewrite list_elem_of_fmap. split.
  - intros ([i k'] & -> & Hn). exists i. by apply Hm.
  - intros [i Hi]. exists (i, k). split; [done|]. by apply Hm.
Qed.

Lemma nodup_fst_inj (l : list (Z * Z)) i a b : NoDup l.*1 → (i, a) ∈ l → (i, b) ∈ l → a = b.
Proof.
  intros Hn Ha Hb. apply (elem_of_list_to_map (M := gmap Z)) in Ha; [|done].
  apply (elem_of_list_to_map (M := gmap Z)) in Hb; [|done]. congruence.
Qed.

(** Among the nodes, identity and key name the same node. *)
Lemma il_node_key il i k n : il_ok il → (i, k) ∈ il_list il → n ∈ il_list il → (n.1 =? i) = (n.2 =? k).
Proof.
  intros [_ Hnd _ Hm] Hi Hn. destruct n as [j k']. simpl.
  destruct (j =? i) eqn:Ej, (k' =? k) eqn:Ek; btests; try done; subst; exfalso.
  - by pose proof (nodup_fst_inj _ _ _ _ Hnd Hi Hn).
  - apply Hm in Hi. apply Hm in Hn. congruence.
Qed.

Lemma il_keys_keep il i k :
  il_ok il → (i, k) ∈ il_list il →
  snd <$> keep (λ n, negb (n.1 =? i)) (il_list il) = without k (il_keys il).
Proof.
  intros Hok Hi. unfold il_keys. pose proof (il_node_key il i k) as Hn.
  assert (∀ n, n ∈ il_list il → (n.1 =? i) = (n.2 =? k)) as Hl by (intros; by apply Hn). clear Hn Hok Hi.
  induction (il_list il) as [|n l IH]; [done|]. rewrite keep_cons, (Hl n) by set_solver. rewrite fmap_cons.
  unfold without in *. rewrite keep_cons. destruct (negb (n.2 =? k)); [rewrite fmap_cons; f_equal|]; apply IH; set_solver.
Qed.

(** Unlinking a key that is present. *)
Lemma il_unlink_ok il k :
  il_ok il → k ∈ il_keys il → ∃ il', il_unlink k il = Some il' ∧ il_keys il' = without k (il_keys il) ∧
    il_map il' = il_map il ∧ il_next il' = il_next il ∧ il_ok (il_forget k il').
Proof.
  intros Hok Hk. pose proof Hok as [Hid Hnd Hks Hm]. apply il_mem in Hk as [i Hi]; [|done].
  pose proof (proj1 (Hm k i) Hi) as Hin. unfold il_unlink. rewrite Hi.
  rewrite (proj2 (existsb_exists_iff _ _)) by (exists (i, k); by rewrite Z.eqb_refl).
  eexists. split; [done|]. split_and!; try done; [by apply il_keys_keep|].
  split; simpl.
  - intros n Hn%elem_of_keep. apply Hid, Hn.
  - eapply sublist_NoDup; [exact Hnd|]. apply fmap_sublist, keep_sublist.
  - unfold il_keys. simpl. rewrite (il_keys_keep il i k) by done. by apply without_nodup.
  - intros k' j. rewrite elem_of_keep, negb_true_iff. simpl. destruct (decide (k = k')) as [<-|Hne].
    + rewrite lookup_delete_eq. split; [done|]. intros [Hj Hn].
      pose proof (il_node_key il i k (j, k) Hok Hin Hn) as Hjk. simpl in Hjk. rewrite Hjk, Z.eqb_refl in Hj. done.
    + rewrite lookup_delete_ne, Hm by done. split; [|tauto]. intros Hn. split; [|done].
      pose proof (il_node_key il i k (j, k') Hok Hin Hn) as Hjk. simpl in Hjk. rewrite Hjk. apply Z.eqb_neq. congruence.
Qed.

(** Pushing a key that is absent; the map may still hold its old iterator. *)
Lemma il_push_ok il k :
  il_ok (il_forget k il) → k ∉ il_keys il → il_ok (il_push_front k il) ∧ il_keys (il_push_front k il) = k :: il_keys il.
Proof.
  intros [Hid Hnd Hks Hm] Hk. simpl in *. split; [|done]. split; simpl.
  - intros n [->|Hn]%elem_of_cons; simpl; [lia|]. specialize (Hid n Hn). lia.
  - constructor; [|done]. intros ([i k'] & Hi & Hn)%list_elem_of_fmap. specialize (Hid _ Hn). simpl in *. lia.
  - by constructor.
  - intros k' j. rewrite elem_of_cons. destruct (decide (k = k')) as [<-|Hne].
    + rewrite lookup_insert_eq. split; [intros [= <-]; by left|]. intros [[= ->]|Hn]; [done|].
      destruct Hk. apply list_elem_of_fmap. by exists (j, k).
    + rewrite lookup_insert_ne by done. specialize (Hm k' j). rewrite lookup_delete_ne in Hm by done.
      rewrite Hm. split; [by right|]. intros [[= _ Heq]|?]; [congruence|done].
Qed.

Lemma il_forget_id il k : il_ok il → k ∉ il_keys il → il_forget k il = il.
Proof.
  intros Hok Hk. unfold il_forget. rewrite delete_id; [by destruct il|].
  apply eq_None_not_Some. by rewrite <- il_mem.
Qed.

Lemma il_pop_ok il :
  il_ok il → il_keys il ≠ [] → ∃ k il', il_pop_back il = Some (k, il') ∧ last (il_keys il) = Some k ∧
    il_keys il' = removelast (il_keys il) ∧ il_ok (il_forget k il').
Proof.
  intros [Hid Hnd Hks Hm] Hne. unfold il_pop_back, il_keys in *.
  destruct (last (il_list il)) as [[i k]|] eqn:El; [|apply last_None in El; by rewrite El in Hne].
  exists k. eexists. split_and!; [done|by rewrite fmap_last, El|simpl; apply removelast_fmap|].
  apply removelast_snoc in El as El'. set (l' := removelast (il_list il)) in *.
  rewrite El', fmap_app in Hnd, Hks. apply NoDup_app in Hnd as (Hnd & Hx & _). apply NoDup_app in Hks as (Hks & Hy & _).
  split; simpl; [|done|done|].
  - intros n Hn. apply Hid. rewrite El'. set_solver.
  - intros k' j. destruct (decide (k = k')) as [<-|Hk].
    + rewrite lookup_delete_eq. split; [done|]. intros Hn. exfalso. apply (Hy k); [|set_solver].
      apply list_elem_of_fmap. by exists (j, k).
    + rewrite lookup_delete_ne, Hm, El', elem_of_app by done. split; [|by left].
      intros [?|[= _ ->]%list_elem_of_singleton]; [done|]. by destruct Hk.
Qed.

(** The three combinations that the caches use: move a key to the front,
    remove a key, and drop the last key. *)
Lemma il_touch_ok il k :
  il_ok il → k ∈ il_keys il → ∃ il', il_unlink k il = Some il' ∧ il_ok (il_push_front k il') ∧
    il_keys (il_push_front k il') = k :: without k (il_keys il).
Proof.
  intros Hok Hk. destruct (il_unlink_ok il k Hok Hk) as (il' & Hu & Hks & _ & _ & Hf). exists il'. split; [done|].
  rewrite <- Hks. apply il_push_ok; [done|]. rewrite Hks, elem_of_without. tauto.
Qed.

Lemma il_insert_ok il k : il_ok il → k ∉ il_keys il → il_ok (il_push_front k il).
Proof. intros Hok Hk. apply il_push_ok; [|done]. by rewrite il_forget_id. Qed.

Lemma touch_length k l : NoDup l → k ∈ l → length (k :: without k l) = length l.
Proof. intros ??. by apply without_length. Qed.

Lemma take_without_full k l n :
  NoDup l → (length l ≤ n)%nat → k ∈ l → take (n - 1) (without k l) = without k l.
Proof. intros Hn Hl Hk. pose proof (without_length k l Hn Hk). apply take_ge. lia. Qed.

(** ** Lemmas: the TLB *)

Definition tlb_keys (t : TLBCache) : list Z := il_keys (tlb_entries t).

Lemma tlb_lookup_ok t p :
  tlb_ok t → ∃ t', tlb_lookup t p = Some (bool_decide (p ∈ tlb_keys t), t') ∧ tlb_ok t' ∧
    tlb_capacity t' = tlb_capacity t ∧
    tlb_keys t' = if bool_decide (p ∈ tlb_keys t) then p :: without p (tlb_keys t) else tlb_keys t.
Proof.
  intros [Hl Hc Hb]. unfold tlb_lookup, tlb_keys. case_bool_decide as Hp.
  - destruct (proj1 (il_mem _ _ Hl) Hp) as [i ->]. destruct (il_touch_ok _ _ Hl Hp) as (il' & -> & Hok & Hks).
    eexists. split_and!; [done| |done|exact Hks]. split; [exact Hok|exact Hc|]. cbn [tlb_entries tlb_capacity]. rewrite Hks.
    pose proof (touch_length p _ (io_keys _ Hl) Hp). lia.
  - destruct (il_map (tlb_entries t) !! p) eqn:E; [|by exists t].
    destruct Hp. apply il_mem; [done|]. by rewrite E.
Qed.

(** The part of [insert] after the page is known to be absent. *)
Lemma evict_push il k n :
  il_ok il → k ∉ il_keys il → (1 ≤ n)%nat → (length (il_keys il) ≤ n)%nat →
  ∃ il', (if Z.of_nat n <=? Z.of_nat (length (il_list il)) then
            '(victim, il1) ← il_pop_back il; Some (il_forget victim il1)
          else Some il) = Some il' ∧
    il_ok (il_push_front k il') ∧ il_keys (il_push_front k il') = k :: take (n - 1) (il_keys il) ∧
    (∀ x, x ∈ il_keys il' → x ∈ il_keys il).
Proof.
  intros Hok Hk Hn Hl. assert (length (il_keys il) = length (il_list il)) as Hlen by apply length_fmap.
  destruct (Z.of_nat n <=? _) eqn:E; btests.
  - destruct (il_pop_ok il Hok) as (v & il1 & -> & Hlast & Hks & Hf); [intros E'; rewrite E' in Hlen; simpl in Hlen; lia|].
    eexists. split; [done|]. change (il_keys (il_push_front k (il_forget v il1))) with (k :: il_keys il1).
    change (il_keys (il_forget v il1)) with (il_keys il1). rewrite Hks, removelast_take.
    split_and!; [|f_equal; f_equal; lia|].
    + apply il_insert_ok; [done|]. change (il_keys (il_forget v il1)) with (il_keys il1).
      rewrite Hks, removelast_take. intros Hk'. apply Hk. by eapply take_incl.
    + intros x. apply take_incl.
  - exists il. split_and!; try done; [by apply il_insert_ok|].
    change (il_keys (il_push_front k il)) with (k :: il_keys il). rewrite take_ge; [done|lia].
Qed.

Lemma tlb_insert_ok t p :
  tlb_ok t → ∃ t', tlb_insert t p = Some t' ∧ tlb_ok t' ∧ tlb_capacity t' = tlb_capacity t ∧
    tlb_keys t' = p :: take (Z.to_nat (tlb_capacity t) - 1) (without p (tlb_keys t)).
Proof.
  intros [Hl Hc Hb]. unfold tlb_insert, tlb_keys. set (n := Z.to_nat (tlb_capacity t)).
  assert (∃ il1, match il_map (tlb_entries t) !! p with
                 | Some _ => il_forget p <$> il_unlink p (tlb_entries t)
                 | None => Some (tlb_entries t)
                 end = Some il1 ∧ il_ok il1 ∧ il_keys il1 = without p (il_keys (tlb_entries t))) as (il1 & -> & Hok1 & Hk1).
  { destruct (il_map (tlb_entries t) !! p) as [i|] eqn:E.
    - destruct (il_unlink_ok (tlb_entries t) p) as (il' & -> & Hks & _ & _ & Hf); [done|apply il_mem; [done|by rewrite E]|].
      by exists (il_forget p il').
    - exists (tlb_entries t). split_and!; [done..|]. symmetry. apply without_notin.
      rewrite il_mem, E by done. by intros [??]. }
  assert (length (il_keys il1) ≤ length (il_keys (tlb_entries t)))%nat as Hlen.
  { rewrite Hk1. apply sublist_length, keep_sublist. }
  destruct (evict_push il1 p n) as (il2 & Hil2 & Hok2 & Hks2 & _); [done| |lia|lia|].
  { rewrite Hk1, elem_of_without. tauto. }
  replace (Z.of_nat n) with (tlb_capacity t) in Hil2 by lia. simpl. rewrite Hil2. simpl.
  eexists. split_and!; [done| |done|by rewrite <- Hk1].
  split; [done|done|]. cbn [tlb_entries tlb_capacity]. rewrite Hks2. simpl. rewrite length_take. lia.
Qed.

(** ** Lemmas: the LRU cache *)

Lemma lru_size_keys c : lru_ok c → lru_size c = Z.of_nat (length (il_keys (lc_lru c))).
Proof.
  intros [Hl Hd _ _ _]. unfold lru_size. f_equal. rewrite <- size_dom.
  assert (dom (lc_cache c) = list_to_set (C := gset Z) (il_keys (lc_lru c))) as ->.
  { apply set_eq. intros k. by rewrite elem_of_dom, elem_of_list_to_set. }
  apply size_list_to_set, Hl.
Qed.

Lemma spec_find_recency c k :
  lru_ok c → spec_find k (recency c) = ce_value <$> lc_cache c !! k.
Proof.
  intros [_ Hd _ _ _]. unfold spec_find, recency, value_of, peek.
  assert (k ∈ il_keys (lc_lru c) ∨ k ∉ il_keys (lc_lru c)) as [Hk|Hk] by (destruct (decide (k ∈ il_keys (lc_lru c))); tauto).
  - destruct (proj2 (Hd k) Hk) as [e He]. rewrite He. clear Hd. induction (il_keys (lc_lru c)) as [|x l IH]; [set_solver|].
    simpl. destruct (x =? k) eqn:E; btests; simpl; [subst; by rewrite He|]. apply IH. set_solver.
  - assert (lc_cache c !! k = None) as -> by (apply eq_None_not_Some; by rewrite Hd). clear Hd.
    induction (il_keys (lc_lru c)) as [|x l IH]; [done|]. simpl. destruct (x =? k) eqn:E; btests; [set_solver|].
    apply IH. set_solver.
Qed.

Lemma spec_drop_fmap k (v : Z → Z) l : spec_drop k ((λ x, (x, v x)) <$> l) = (λ x, (x, v x)) <$> without k l.
Proof.
  unfold spec_drop, without. induction l as [|x l IH]; [done|]. rewrite fmap_cons, !keep_cons. simpl.
  destruct (x =? k); simpl; by rewrite IH.
Qed.

(** The values that an update of [k] leaves alone. *)
Lemma recency_ext (v v' : Z → Z) k (l : list Z) :
  k ∉ l → (∀ x, x ≠ k → v' x = v x) → (λ x, (x, v' x)) <$> l = (λ x, (x, v x)) <$> l.
Proof. intros Hk Hv. apply list_fmap_ext. intros i x Hx. rewrite Hv; [done|]. intros ->. apply Hk. by eapply list_elem_of_lookup_2. Qed.

(** A state whose keys and values are those of the specification. *)
Lemma recency_intro c' (v : Z) k rest :
  il_keys (lc_lru c') = k :: rest → value_of c' k = v →
  recency c' = (k, v) :: ((λ x, (x, value_of c' x)) <$> rest).
Proof. unfold recency. intros -> <-. done. Qed.

Lemma lru_ok_intro cap cache il k e rest :
  il_ok il → il_keys il = k :: rest → (∀ x, x ∈ rest → is_Some (cache !! x)) →
  (∀ x, is_Some (cache !! x) → x = k ∨ x ∈ rest) → (∀ x y, cache !! x = Some y → ce_key y = x) → ce_key e = k →
  1 <= cap <= 2147483647 → Z.of_nat (S (length rest)) <= cap →
  lru_ok {| lc_capacity := cap; lc_cache := <[k := e]> cache; lc_lru := il |}.
Proof.
  intros Hok Hks Hin Hout Hkey He Hcap Hlen. split; simpl; rewrite ?Hks; try done.
  - intros x. rewrite elem_of_cons. destruct (decide (k = x)) as [<-|Hne].
    + rewrite lookup_insert_eq. split; [by left|]. intros _. by eexists.
    + rewrite lookup_insert_ne by done. split; [intros Hx; destruct (Hout x Hx); auto|].
      intros [->|Hx]; [done|by apply Hin].
  - intros x y. destruct (decide (k = x)) as [<-|Hne]; [rewrite lookup_insert_eq; by intros [= <-]|].
    rewrite lookup_insert_ne by done. apply Hkey.
Qed.

Lemma get_ok c k ts :
  lru_ok c → ∃ r c', get c k ts = Some (r, c') ∧ lru_ok c' ∧ lc_capacity c' = lc_capacity c ∧
    spec_get k (recency c) = (r, recency c').
Proof.
  intros Hok. pose proof Hok as [Hl Hd Hkey Hcap Hb]. unfold get, spec_get. rewrite spec_find_recency by done.
  destruct (lc_cache c !! k) as [e|] eqn:E; simpl; [|by eexists _, _].
  assert (k ∈ il_keys (lc_lru c)) as Hk by (apply Hd; by rewrite E).
  destruct (il_touch_ok _ _ Hl Hk) as (il' & -> & Hok' & Hks'). simpl. eexists _, _. split_and!; [done| |done|].
  - apply (lru_ok_intro _ _ _ _ _ (without k (il_keys (lc_lru c)))); try done.
    + intros x [_ Hx]%elem_of_without. by apply Hd.
    + intros x Hx. apply Hd in Hx. destruct (decide (x = k)); [by left|right]. by apply elem_of_without.
    + exact (Hkey k e E).
    + rewrite without_length; [done|apply Hl|done].
  - f_equal. unfold recency at 1. rewrite spec_drop_fmap. symmetry.
    rewrite (recency_intro _ (ce_value e) k (without k (il_keys (lc_lru c)))); [|done|].
    + f_equal. apply (recency_ext _ _ k); [rewrite elem_of_without; tauto|].
      intros x Hx. unfold value_of, peek. simpl. by rewrite lookup_insert_ne.
    + unfold value_of, peek. simpl. by rewrite lookup_insert_eq.
Qed.

Lemma remove_ok c k :
  lru_ok c → ∃ c', remove c k = Some (contains c k, c') ∧ lru_ok c' ∧ lc_capacity c' = lc_capacity c ∧
    recency c' = spec_drop k (recency c).
Proof.
  intros Hok. pose proof Hok as [Hl Hd Hkey Hcap Hb]. unfold remove, contains. unfold recency at 2.
  rewrite spec_drop_fmap. destruct (lc_cache c !! k) as [e|] eqn:E.
  - assert (k ∈ il_keys (lc_lru c)) as Hk by (apply Hd; by rewrite E).
    destruct (il_unlink_ok _ _ Hl Hk) as (il' & -> & Hks & _ & _ & Hf). simpl.
    eexists. split_and!; [done| |done|].
    + assert (il_keys (il_forget k il') = without k (il_keys (lc_lru c))) as Hks' by done.
      split; cbn [lc_lru lc_cache lc_capacity]; rewrite ?Hks'; try done.
      * intros x. rewrite elem_of_without, <- Hd. destruct (decide (k = x)) as [<-|Hne].
        -- rewrite lookup_delete_eq. split; [by intros [??]|tauto].
        -- rewrite lookup_delete_ne by done. split; [by split|tauto].
      * intros x y. rewrite lookup_delete_Some. intros [_ ?]. by apply Hkey.
      * pose proof (without_length k _ (io_keys _ Hl) Hk). lia.
    + unfold recency. cbn [lc_lru]. change (il_keys (il_forget k il')) with (il_keys il'). rewrite Hks.
      apply (recency_ext _ _ k); [rewrite elem_of_without; tauto|]. intros x Hx. unfold value_of, peek. simpl.
      by rewrite lookup_delete_ne.
  - rewrite bool_decide_eq_false_2 by by intros [??]. exists c. split_and!; try done.
    rewrite without_notin; [done|]. rewrite <- Hd, E. by intros [??].
Qed.

(** The values of the keys that survive an eviction of [victim]. *)
Lemma put_values (cache : gmap Z LRUCacheEntry) cap il k e (l : list Z) c :
  (∀ x, x ∈ l → x ≠ k ∧ cache !! x = lc_cache c !! x) →
  (λ x, (x, value_of {| lc_capacity := cap; lc_cache := <[k := e]> cache; lc_lru := il |} x)) <$> l =
  (λ x, (x, value_of c x)) <$> l.
Proof.
  intros Hl. apply list_fmap_ext. intros i x Hx. apply list_elem_of_lookup_2 in Hx. destruct (Hl x Hx) as [Hne He].
  unfold value_of, peek. simpl. by rewrite lookup_insert_ne, He.
Qed.

Lemma put_hit_ok c k v ts :
  lru_ok c → k ∈ il_keys (lc_lru c) → ∃ c', put c k v ts = Some c' ∧ lru_ok c' ∧ lc_capacity c' = lc_capacity c ∧
    recency c' = (k, v) :: spec_drop k (recency c).
Proof.
  intros Hok Hk. pose proof Hok as [Hl Hd Hkey Hcap Hb]. unfold put.
  rewrite bool_decide_eq_true_2 by (by apply Hd). destruct (il_touch_ok _ _ Hl Hk) as (il' & -> & Hok' & Hks').
  simpl. eexists. split_and!; [done| |done|].
  - apply (lru_ok_intro _ _ _ _ _ (without k (il_keys (lc_lru c)))); try done.
    + intros x [_ Hx]%elem_of_without. by apply Hd.
    + intros x Hx. apply Hd in Hx. destruct (decide (x = k)); [by left|right]. by apply elem_of_without.
    + rewrite without_length; [done|apply Hl|done].
  - unfold recency at 2. rewrite spec_drop_fmap.
    rewrite (recency_intro _ v k (without k (il_keys (lc_lru c)))); [|done|].
    + f_equal. apply put_values. intros x Hx%elem_of_without. tauto.
    + unfold value_of, peek. simpl. by rewrite lookup_insert_eq.
Qed.

Lemma make_space_ok c :
  lru_ok c → let t := take (Z.to_nat (lc_capacity c) - 1) (il_keys (lc_lru c)) in
  ∃ cache il, make_space c = Some {| lc_capacity := lc_capacity c; lc_cache := cache; lc_lru := il |} ∧
    il_ok il ∧ il_keys il = t ∧ (∀ x, x ∈ t → cache !! x = lc_cache c !! x) ∧
    (∀ x y, cache !! x = Some y → lc_cache c !! x = Some y ∧ x ∈ t).
Proof.
  intros Hok t. pose proof Hok as [Hl Hd Hkey Hcap Hb]. unfold make_space.
  rewrite lru_size_keys, u64_small by (done || unfold is_u64; lia). set (ks := il_keys (lc_lru c)) in *.
  destruct (_ <=? _) eqn:E; btests.
  - assert (t = removelast ks) as Ht by (rewrite removelast_take; unfold t; f_equal; lia).
    destruct (il_pop_ok _ Hl) as (w & il1 & -> & Hlast & Hks & Hf); [fold ks; intros E'; rewrite E' in *; simpl in *; lia|].
    fold ks in Hlast, Hks. apply removelast_snoc in Hlast as Hs. rewrite <- Ht in Hs.
    simpl. eexists _, _. split_and!; [done|done|by rewrite Ht| |].
    + intros x Hx. apply lookup_delete_ne. intros <-. pose proof (io_keys _ Hl) as Hnd. fold ks in Hnd.
      rewrite Hs in Hnd. apply NoDup_app in Hnd as (_ & Hnd & _). by apply (Hnd w Hx), list_elem_of_singleton.
    + intros x y [Hne Hx]%lookup_delete_Some. split; [done|].
      assert (x ∈ ks) as Hxk by (apply Hd; by rewrite Hx).
      rewrite Hs in Hxk. apply elem_of_app in Hxk as [?|?%list_elem_of_singleton]; [done|congruence].
  - exists (lc_cache c), (lc_lru c). assert (t = ks) as Ht by (apply take_ge; lia). rewrite Ht.
    split_and!; [by destruct c|done|done|done|]. intros x y Hx. split; [done|]. apply Hd. by rewrite Hx.
Qed.

Lemma put_miss_ok c k v ts :
  lru_ok c → k ∉ il_keys (lc_lru c) → ∃ c', put c k v ts = Some c' ∧ lru_ok c' ∧ lc_capacity c' = lc_capacity c ∧
    recency c' = (k, v) :: take (Z.to_nat (lc_capacity c) - 1) (recency c).
Proof.
  intros Hok Hk. pose proof Hok as [Hl Hd Hkey Hcap Hb]. unfold put.
  rewrite bool_decide_eq_false_2 by (by rewrite Hd).
  destruct (make_space_ok c Hok) as (cache & il & -> & Hil & Hks & Hin & Hout).
  set (t := take _ _) in *. simpl. assert (k ∉ t) as Hkt by (intros Hx; by apply take_incl in Hx).
  assert (il_keys (il_push_front k il) = k :: t) as Hks' by (rewrite <- Hks; done).
  eexists. split_and!; [done| |done|].
  - apply (lru_ok_intro _ _ _ _ _ t); try done.
    + by apply il_insert_ok; [|rewrite Hks].
    + intros x Hx. rewrite Hin by done. apply Hd. by eapply take_incl.
    + intros x [y Hy]. right. by eapply Hout.
    + intros x y Hy. apply Hkey. by apply Hout.
    + unfold t. rewrite length_take. lia.
  - unfold recency at 2. rewrite <- fmap_take. fold t. rewrite (recency_intro _ v k t); [|done|].
    + f_equal. apply put_values. intros x Hx. split; [by intros ->|by apply Hin].
    + unfold value_of, peek. simpl. by rewrite lookup_insert_eq.
Qed.

Lemma recency_nodup c : lru_ok c → NoDup (recency c).*1.
Proof.
  intros Hok. unfold recency. rewrite <- list_fmap_compose.
  rewrite (list_fmap_ext _ id); [rewrite list_fmap_id; apply Hok|done].
Qed.

Lemma put_ok c k v ts :
  lru_ok c → ∃ c', put c k v ts = Some c' ∧ lru_ok c' ∧ lc_capacity c' = lc_capacity c ∧
    recency c' = spec_put (Z.to_nat (lc_capacity c)) k v (recency c).
Proof.
  intros Hok. pose proof (lo_bound _ Hok) as Hb. unfold spec_put. unfold recency at 2. rewrite spec_drop_fmap.
  destruct (decide (k ∈ il_keys (lc_lru c))) as [Hk|Hk].
  - destruct (put_hit_ok c k v ts Hok Hk) as (c' & Hp & Hok' & Hc & Hr). exists c'. split_and!; try done.
    rewrite Hr. f_equal. unfold recency. rewrite spec_drop_fmap, <- fmap_take, take_without_full; try done; [apply Hok|lia].
  - destruct (put_miss_ok c k v ts Hok Hk) as (c' & Hp & Hok' & Hc & Hr). exists c'. split_and!; try done.
    rewrite Hr, without_notin by done. done.
Qed.

(** ** Histories *)

Inductive lru_op := OpGet (key ts : Z) | OpPut (key value ts : Z) | OpRemove (key : Z) | OpPeek (key : Z) | OpClear.

(** What a call returns; [put] and [clear] return nothing. *)
Inductive lru_res := ResVal (v : option Z) | ResBool (b : bool) | ResUnit.

Definition run_op (c : LRUCache) (op : lru_op) : option (lru_res * LRUCache) :=
  match op with
  | OpGet key ts => '(r, c1) ← get c key ts; Some (ResVal r, c1)
  | OpPut key value ts => c1 ← put c key value ts; Some (ResUnit, c1)
  | OpRemove key => '(b, c1) ← remove c key; Some (ResBool b, c1)
  | OpPeek key => Some (ResVal (peek c key), c)
  | OpClear => Some (ResUnit, clear c)
  end.

Definition spec_op (cap : nat) (l : spec) (op : lru_op) : lru_res * spec :=
  match op with
  | OpGet key _ => let '(r, l1) := spec_get key l in (ResVal r, l1)
  | OpPut key value _ => (ResUnit, spec_put cap key value l)
  | OpRemove key => (ResBool (bool_decide (is_Some (spec_find key l))), spec_drop key l)
  | OpPeek key => (ResVal (spec_find key l), l)
  | OpClear => (ResUnit, [])
  end.

Fixpoint run_ops (c : LRUCache) (ops : list lru_op) : option (list lru_res * LRUCache) :=
  match ops with
  | [] => Some ([], c)
  | op :: ops' => '(r, c1) ← run_op c op; '(rs, c2) ← run_ops c1 ops'; Some (r :: rs, c2)
  end.

Fixpoint spec_ops (cap : nat) (l : spec) (ops : list lru_op) : list lru_res * spec :=
  match ops with
  | [] => ([], l)
  | op :: ops' => let '(r, l1) := spec_op cap l op in let '(rs, l2) := spec_ops cap l1 ops' in (r :: rs, l2)
  end.

Lemma run_op_ok c op :
  lru_ok c → ∃ r c', run_op c op = Some (r, c') ∧ lru_ok c' ∧ lc_capacity c' = lc_capacity c ∧
    spec_op (Z.to_nat (lc_capacity c)) (recency c) op = (r, recency c').
Proof.
  intros Hok. destruct op as [key ts|key value ts|key|key|]; simpl.
  - destruct (get_ok c key ts Hok) as (r & c' & -> & ? & ? & ->). simpl. by eexists _, _.
  - destruct (put_ok c key value ts Hok) as (c' & -> & ? & ? & Hr). rewrite <- Hr. simpl. by eexists _, _.
  - destruct (remove_ok c key Hok) as (c' & -> & ? & ? & Hr). rewrite <- Hr. simpl. eexists _, _. split_and!; try done.
    rewrite spec_find_recency by done. unfold contains. f_equal. f_equal. apply bool_decide_ext. by rewrite fmap_is_Some.
  - eexists _, _. split_and!; try done. by rewrite spec_find_recency.
  - eexists _, _. split_and!; try done. split; simpl; [apply il_empty_ok| |done|apply Hok|].
    + intros k. rewrite lookup_empty. split; [by intros [??]|set_solver].
    + pose proof (lo_capacity _ Hok). unfold il_keys. simpl. lia.
Qed.

Lemma run_ops_ok ops c :
  lru_ok c → ∃ rs c', run_ops c ops = Some (rs, c') ∧ lru_ok c' ∧ lc_capacity c' = lc_capacity c ∧
    spec_ops (Z.to_nat (lc_capacity c)) (recency c) ops = (rs, recency c').
Proof.
  revert c. induction ops as [|op ops IH]; intros c Hok; simpl; [by eexists _, _|].
  destruct (run_op_ok c op Hok) as (r & c1 & -> & Hok1 & Hc1 & ->). simpl.
  destruct (IH c1 Hok1) as (rs & c2 & -> & Hok2 & Hc2 & Hs). rewrite Hc1 in Hs. rewrite Hs.
  eexists _, _. split_and!; try done. congruence.
Qed.

Lemma LRUCache_new_ok cap : 1 <= cap <= 2147483647 → lru_ok (LRUCache_new cap).
Proof.
  intros Hc. split; simpl; [apply il_empty_ok| |done|done|unfold il_keys; simpl; lia].
  intros k. rewrite lookup_empty. split; [by intros [??]|set_solver].
Qed.

(** ** Lemmas: recent keys stay *)

(** The key that a call may move or bring to the front. *)
Definition touched (op : lru_op) : option Z :=
  match op with OpGet key _ | OpPut key _ _ => Some key | _ => None end.

(** The calls that do not aim at [k]. *)
Definition spares (k : Z) (op : lru_op) : bool :=
  match op with
  | OpGet key _ | OpPut key _ _ | OpRemove key => negb (key =? k)
  | OpPeek _ => true
  | OpClear => false
  end.

(** [k] is stored with [v], behind at most the keys of [T]. *)
Definition behind (k v : Z) (T : gset Z) (l : spec) : Prop :=
  ∃ pre post, l = pre ++ (k, v) :: post ∧ NoDup l.*1 ∧ ∀ x, x ∈ pre.*1 → x ∈ T.

Lemma behind_length k v (T : gset Z) (pre post : spec) :
  NoDup (pre ++ (k, v) :: post).*1 → (∀ x, x ∈ pre.*1 → x ∈ T) → (length pre ≤ size T)%nat.
Proof.
  intros Hn HT. rewrite fmap_app in Hn. apply NoDup_app in Hn as (Hn & _).
  rewrite <- (length_fmap fst), <- (size_list_to_set (C := gset Z) pre.*1) by done.
  apply subseteq_size. intros x Hx%elem_of_list_to_set. by apply HT.
Qed.

Lemma spec_drop_fst x l : (spec_drop x l).*1 = without x l.*1.
Proof.
  unfold spec_drop, without. induction l as [|[k v] l IH]; [done|]. rewrite fmap_cons, !keep_cons. cbn [fst].
  destruct (k =? x); cbn [negb]; [done|]. by rewrite fmap_cons, IH.
Qed.

Lemma spec_drop_split x k v pre post :
  x ≠ k → spec_drop x (pre ++ (k, v) :: post) = spec_drop x pre ++ (k, v) :: spec_drop x post.
Proof.
  intros Hx. unfold spec_drop. rewrite keep_app, keep_cons. simpl. by rewrite (proj2 (Z.eqb_neq k x)).
Qed.

(** Dropping another key, and putting it in front, keep [k] behind the touched keys. *)
Lemma behind_drop k v T l x : x ≠ k → behind k v T l → behind k v T (spec_drop x l).
Proof.
  intros Hx (pre & post & -> & Hn & HT). exists (spec_drop x pre), (spec_drop x post).
  split_and!; [by apply spec_drop_split|rewrite spec_drop_fst; by apply without_nodup|].
  intros y. rewrite spec_drop_fst, elem_of_without. intros [_ ?]. by apply HT.
Qed.

Lemma behind_front k v T l x w cap :
  x ≠ k → behind k v T l → (size (T ∪ {[x]}) < cap)%nat →
  behind k v (T ∪ {[x]}) ((x, w) :: take (cap - 1) (spec_drop x l)).
Proof.
  intros Hx Hb Hsz. apply (behind_drop k v T l x Hx) in Hb as Hd.
  destruct Hd as (pre & post & Hl & Hn & HT). rewrite Hl.
  assert (x ∉ (spec_drop x l).*1) as Hxl by (rewrite spec_drop_fst, elem_of_without; tauto).
  rewrite Hl in Hn, Hxl.
  assert (length ((x, w) :: pre) ≤ size (T ∪ {[x]}))%nat as Hlen.
  { apply (behind_length k v _ _ post); [by constructor|]. simpl. set_solver. }
  simpl in Hlen. exists ((x, w) :: pre), (take (cap - 1 - length pre - 1) post).
  assert (take (cap - 1) (pre ++ (k, v) :: post) = pre ++ (k, v) :: take (cap - 1 - length pre - 1) post) as Ht.
  { rewrite take_app_ge by lia. f_equal. destruct (cap - 1 - length pre)%nat eqn:E; [lia|]. simpl. by rewrite Nat.sub_0_r. }
  split_and!; [by rewrite Ht| |simpl; set_solver].
  constructor.
  - intros (y & Hy & Hin)%list_elem_of_fmap. apply Hxl, list_elem_of_fmap. exists y. split; [exact Hy|by eapply take_incl].
  - eapply sublist_NoDup; [exact Hn|]. apply fmap_sublist, sublist_take.
Qed.

Lemma behind_step k v T l op cap :
  behind k v T l → spares k op = true → (1 ≤ cap)%nat →
  (∀ x, touched op = Some x → (size (T ∪ {[x]}) < cap)%nat) →
  behind k v (match touched op with Some x => T ∪ {[x]} | None => T end) (spec_op cap l op).2.
Proof.
  intros Hb Hs Hc Hsz. destruct op as [x ts|x w ts|x|x|]; simpl in *; btests; try done.
  - unfold spec_get. destruct (spec_find x l) as [w|] eqn:E; simpl.
    + destruct (behind_front k v T l x w (S (length l + cap)) Hs Hb) as (pre & post & Hl & Hn & HT).
      { specialize (Hsz x eq_refl). lia. }
      rewrite take_ge in Hl, Hn; [by exists pre, post|..]; simpl.
      all: pose proof (sublist_length _ _ (keep_sublist (λ y, negb (y.1 =? x)) l)); unfold spec_drop; lia.
    + destruct Hb as (pre & post & ? & ? & HT). exists pre, post. split_and!; [done..|]. set_solver.
  - apply behind_front; [done..|by apply Hsz].
  - by apply behind_drop.
Qed.

(** All keys touched by a history. *)
Definition touched_keys (ops : list lru_op) : gset Z := list_to_set (omap touched ops).

Lemma behind_ops k v ops T l cap :
  behind k v T l → forallb (spares k) ops = true → (size (T ∪ touched_keys ops) < cap)%nat →
  ∃ T', behind k v T' (spec_ops cap l ops).2.
Proof.
  revert T l. induction ops as [|op ops IH]; intros T l Hb Hs Hsz; simpl; [by exists T|].
  simpl in Hs. apply andb_prop in Hs as [Hs Hss]. destruct (spec_op cap l op) as [r l1] eqn:E1.
  destruct (spec_ops cap l1 ops) as [rs l2] eqn:E2. simpl.
  pose proof (behind_step k v T l op cap Hb Hs ltac:(lia)) as Hb1. rewrite E1 in Hb1. simpl in Hb1.
  destruct (IH (match touched op with Some x => T ∪ {[x]} | None => T end) l1) as [T' HT'].
  - apply Hb1. intros x Hx. eapply Nat.le_lt_trans; [|exact Hsz]. apply subseteq_size.
    unfold touched_keys. simpl. rewrite Hx. set_solver.
  - done.
  - eapply Nat.le_lt_trans; [|exact Hsz]. apply subseteq_size. unfold touched_keys. simpl.
    destruct (touched op); set_solver.
  - exists T'. by rewrite E2 in HT'.
Qed.

Lemma behind_find k v T l : behind k v T l → spec_find k l = Some v.
Proof.
  intros (pre & post & -> & Hn & _). unfold spec_find. rewrite fmap_app in Hn. apply NoDup_app in Hn as (_ & Hn & _).
  induction pre as [|[x w] pre IH]; simpl; [by rewrite Z.eqb_refl|]. destruct (x =? k) eqn:E; btests.
  - subst. exfalso. apply (Hn k); set_solver.
  - apply IH. intros y Hy. apply Hn. set_solver.
Qed.

Lemma run_ops_app ops ops' s rs s1 :
  run_ops s ops = Some (rs, s1) → run_ops s (ops ++ ops') = ('(rs2, s2) ← run_ops s1 ops'; Some (rs ++ rs2, s2)).
Proof.
  revert s rs. induction ops as [|op ops IH]; intros s rs; simpl.
  - intros [= <- <-]. by destruct (run_ops s ops') as [[??]|].
  - destruct (run_op s op) as [[r s2]|]; simpl; [|done].
    destruct (run_ops s2 ops) as [[rs2 s3]|] eqn:E; simpl; [|done]. intros [= <- <-].
    rewrite (IH _ _ E). by destruct (run_ops s3 ops') as [[??]|].
Qed.

Lemma behind_put k v l cap : NoDup l.*1 → behind k v ∅ (spec_put cap k v l).
Proof.
  intros Hn. exists [], (take (cap - 1) (spec_drop k l)). split_and!; [done| |set_solver]. constructor.
  - intros (y & Hy & Hin)%list_elem_of_fmap. apply take_incl in Hin. unfold spec_drop in Hin.
    apply elem_of_keep in Hin as [Hin _]. btests. simpl in *. congruence.
  - eapply sublist_NoDup; [exact Hn|]. apply fmap_sublist. etrans; [apply sublist_take|apply keep_sublist].
Qed.

(** ** Lemmas: page-table walks *)

Record hp_ok (p : HugePagePolicy) : Prop := {
  ho_4k : tlb_ok (tlb_4k p);
  ho_2m : tlb_ok (tlb_2m p);
  ho_1g : tlb_ok (tlb_1g p)
}.

Lemma tlb_of_ok pt p : hp_ok p → tlb_ok (tlb_of pt p).
Proof. intros [???]. by destruct pt. Qed.

Lemma set_tlb_ok pt t p : hp_ok p → tlb_ok t → hp_ok (set_tlb pt t p).
Proof. intros [???] ?. by destruct pt; split. Qed.

Lemma set_hp_ok vp e p : hp_ok p → hp_ok (set_hp vp e p).
Proof. intros [???]. by split. Qed.

Lemma HugePagePolicy_new_ok l r : hp_ok (HugePagePolicy_new l r).
Proof. split; (split; simpl; [apply il_empty_ok|lia|unfold il_keys; simpl; lia]). Qed.

(** A walk is defined, keeps the TLBs in bounds, and leaves the page first in its TLB. *)
Lemma walk_ok `{CastUB} p va pa rem pt :
  hp_ok p → ∃ lat p', check_page_table_walk p va pa rem pt = Some (lat, p') ∧ hp_ok p' ∧
    page_base (page_shift pt) va ∈ tlb_keys (tlb_of pt p') ∧
    (page_base (page_shift pt) va ∈ tlb_keys (tlb_of pt p) → lat = 0).
Proof.
  intros Hp. unfold check_page_table_walk. set (pa' := page_base (page_shift pt) va).
  destruct (tlb_lookup_ok (tlb_of pt p) pa' (tlb_of_ok pt p Hp)) as (t1 & -> & Ht1 & Hc1 & Hk1). simpl.
  assert (∀ q t, tlb_of pt (set_tlb pt t q) = t) as Hof by (intros; by destruct pt).
  set (p1 := set_hp _ _ _). assert (hp_ok p1) as Hp1 by (by apply set_hp_ok, set_tlb_ok).
  destruct (tlb_insert_ok t1 pa' Ht1) as (t2 & Hi & Ht2 & _ & Hk2).
  case_bool_decide as Hin; cbn [mret]; [|change (va_pa_cache p !! va) with (va_pa_cache p1 !! va); destruct (va_pa_cache p1 !! va)].
  - eexists _, _. split_and!; try done. assert (tlb_of pt p1 = t1) as -> by (by destruct pt). rewrite Hk1. set_solver.
  - rewrite Hi. simpl. eexists _, _. split_and!; try done; [by apply set_tlb_ok|]. rewrite Hof, Hk2. set_solver.
  - rewrite Hi. simpl. eexists _, _. split_and!; try done; [apply set_tlb_ok; [by apply set_hp_ok|done]|].
    rewrite Hof, Hk2. set_solver.
Qed.

(** The policies that a sequence of walks reaches. *)
Inductive walk_step `{CastUB} (p : HugePagePolicy) : HugePagePolicy → Prop :=
  | walk_once va pa rem pt lat p' : check_page_table_walk p va pa rem pt = Some (lat, p') → walk_step p p'.

Lemma walk_steps_ok `{CastUB} p p' : hp_ok p → rtc walk_step p p' → hp_ok p'.
Proof.
  intros Hp Hs. revert Hp. induction Hs as [|p1 p2 p3 H12 _ IH]; [done|]. intros Hp. apply IH.
  destruct H12 as [va pa rem pt lat p2 Hw]. destruct (walk_ok p1 va pa rem pt Hp) as (lat' & p' & Hw' & Hok & _).
  congruence.
Qed.

(** ** Theorems *)

(** C26. Over any sequence of calls the cache behaves as a list of pairs in recency
    order: same results, no stale iterator, and never more entries than the
    capacity. *)
Theorem lru_refines cap ops :
  1 <= cap <= 2147483647 →
  ∃ rs c, run_ops (LRUCache_new cap) ops = Some (rs, c) ∧
    spec_ops (Z.to_nat cap) [] ops = (rs, recency c) ∧ lru_size c <= cap.
Proof.
  intros Hc. destruct (run_ops_ok ops (LRUCache_new cap) (LRUCache_new_ok cap Hc)) as (rs & c & Hr & Hok & Hcap & Hs).
  exists rs, c. split_and!; try done. rewrite lru_size_keys by done. pose proof (lo_bound c Hok). simpl in Hcap. lia.
Qed.

Definition ex_ops : list lru_op := [OpPut 1 10 0; OpPut 2 20 1; OpGet 1 2; OpPut 3 30 3; OpGet 2 4; OpRemove 1; OpPeek 3].

Lemma lru_refines_witness :
  ∃ rs c, run_ops (LRUCache_new 2) ex_ops = Some (rs, c) ∧
    spec_ops (Z.to_nat 2) [] ex_ops = (rs, recency c) ∧ lru_size c <= 2.
Proof. apply (lru_refines 2 ex_ops). lia. Defined.

(** An entry stays in the cache as long as fewer other keys than the capacity
    are read or written after it, whatever happened before. *)
Theorem lru_keeps_recent cap before k v ts after rs c :
  1 <= cap <= 2147483647 → forallb (spares k) after = true → Z.of_nat (size (touched_keys after)) < cap →
  run_ops (LRUCache_new cap) (before ++ OpPut k v ts :: after) = Some (rs, c) → peek c k = Some v.
Proof.
  intros Hc Hs Hsz Hr. pose proof (LRUCache_new_ok cap Hc) as Hok0.
  destruct (run_ops_ok before (LRUCache_new cap) Hok0) as (rs0 & c0 & Hr0 & Hok & Hcap0 & _). simpl in Hcap0.
  destruct (run_ops_ok (OpPut k v ts :: after) c0 Hok) as (rs1 & c1 & Hr1 & Hok1 & _ & Hs1).
  rewrite (run_ops_app _ _ _ _ _ Hr0), Hr1 in Hr. simplify_eq/=. clear Hr1.
  destruct (spec_ops _ (spec_put _ k v (recency c0)) after) as [rs2 l2] eqn:E2. simplify_eq.
  destruct (behind_ops k v after ∅ (spec_put (Z.to_nat (lc_capacity c0)) k v (recency c0)) (Z.to_nat (lc_capacity c0)))
    as [T HT]; [by apply behind_put, recency_nodup|done|rewrite union_empty_l_L; lia|].
  rewrite E2 in HT. simpl in HT. apply behind_find in HT. by rewrite spec_find_recency in HT.
Qed.

Lemma lru_keeps_recent_witness :
  ∃ c, run_ops (LRUCache_new 2) ([OpPut 5 50 0; OpPut 6 60 0] ++ OpPut 7 70 1 :: [OpGet 6 2; OpPut 6 61 3]) =
    Some ([ResUnit; ResUnit; ResUnit; ResVal (Some 60); ResUnit], c) ∧ peek c 7 = Some 70.
Proof.
  eexists. split; [vm_compute; reflexivity|].
  eapply (lru_keeps_recent 2 [OpPut 5 50 0; OpPut 6 60 0] 7 70 1 [OpGet 6 2; OpPut 6 61 3]
            [ResUnit; ResUnit; ResUnit; ResVal (Some 60); ResUnit]); [lia|reflexivity|vm_compute; reflexivity|].
  vm_compute. reflexivity.
Defined.

(** A page-table walk is always defined and leaves the page in its TLB: the
    next walk of any address of the page costs nothing. *)
Theorem walk_then_hit `{CastUB} local remote p va pa rem pt :
  rtc walk_step (HugePagePolicy_new local remote) p →
  ∃ lat p1, check_page_table_walk p va pa rem pt = Some (lat, p1) ∧
    ∀ va' pa' rem', page_base (page_shift pt) va' = page_base (page_shift pt) va →
      ∃ p2, check_page_table_walk p1 va' pa' rem' pt = Some (0, p2).
Proof.
  intros Hr. pose proof (walk_steps_ok _ _ (HugePagePolicy_new_ok local remote) Hr) as Hp.
  destruct (walk_ok p va pa rem pt Hp) as (lat & p1 & Hw & Hp1 & Hin & _). exists lat, p1. split; [done|].
  intros va' pa' rem' Heq. destruct (walk_ok p1 va' pa' rem' pt Hp1) as (lat' & p2 & Hw2 & _ & _ & Hz).
  rewrite Hw2, Hz by (by rewrite Heq). by eexists.
Qed.

#[local] Instance ex_cast : CastUB := λ _, 0.

Lemma walk_then_hit_witness :
  ∃ lat p1, check_page_table_walk (HugePagePolicy_new 100 300) 4097 9 true HUGEPAGE_2M = Some (lat, p1) ∧
    ∀ va' pa' rem', page_base 21 va' = page_base 21 4097 →
      ∃ p2, check_page_table_walk p1 va' pa' rem' HUGEPAGE_2M = Some (0, p2).
Proof. apply (walk_then_hit 100 300 (HugePagePolicy_new 100 300) 4097 9 true HUGEPAGE_2M). apply rtc_refl. Defined.
