(* ===== verification/Topology.v ===== *)
(** * Topology construction

    Models [CXLController::tokenize], [CXLController::construct_topo] and
    [CXLController::add_remote_endpoint] of src/cxlcontroller.cpp, with their
    helpers [parse_size_token] and [skip_optional_branch_length]: a
    Newick-like text is read into a tree of switches with endpoints.

    The switches live in a store indexed by their identifier (the controller is
    switch 0, a child gets the next number); the stack of open switches holds
    identifiers, as the code's stack holds pointers.  An exception is a value
    of [TopoError], returned with the state that the calls before it left.
    [num_switches] and [num_end_points] are [int]s of the code and unbounded here:
    they agree for texts of fewer than 2^31 tokens.

    The main theorem is a round trip: printing a tree and constructing it gives
    the tree back, in the store. *)

From Stdlib Require Import Ascii.
From S2P Require Import Prelude.

(** ** Tokens *)

Definition token := list ascii.

#[global] Instance ascii_eq_dec : EqDecision ascii := ascii_dec.

Definition tok_eqb (a b : token) : bool := bool_decide (a = b).

(** [std::isspace] in the C locale. *)
Definition isspace (c : ascii) : bool :=
  let n := nat_of_ascii c in (n =? 32)%nat || ((9 <=? n) && (n <=? 13))%nat.

Definition is_separator (c : ascii) : bool :=
  existsb (λ d, bool_decide (c = d)) ["("; ")"; ":"; ","; ";"]%char.

(** [if (!tmp.empty()) { res.emplace_back(tmp); tmp.clear(); }]. *)
Definition flush_tmp (tmp : token) : list token := match tmp with [] => [] | _ => [tmp] end.

Fixpoint tokenize_loop (tmp : token) (s : list ascii) : list token :=
  match s with
  | [] => flush_tmp tmp
  | c :: s' =>
      if isspace c then flush_tmp tmp ++ tokenize_loop [] s'
      else if is_separator c then flush_tmp tmp ++ [c] :: tokenize_loop [] s'
      else tokenize_loop (tmp ++ [c]) s'
  end.

Definition tokenize (s : list ascii) : list token := tokenize_loop [] s.

(** ** Numbers *)

Definition digit_of (c : ascii) : option Z :=
  let n := Z.of_nat (nat_of_ascii c) in if (48 <=? n) && (n <=? 57) then Some (n - 48) else None.

(** [std::from_chars] on the whole token: digits only, no overflow of [size_t]. *)
Fixpoint from_chars (acc : Z) (t : token) : option Z :=
  match t with
  | [] => Some acc
  | c :: t' =>
      match digit_of c with
      | None => None
      | Some d => let acc' := acc * 10 + d in if acc' <? TWO64 then from_chars acc' t' else None
      end
  end.

Definition parse_size_token (t : token) : option Z :=
  match t with [] => None | _ => from_chars 0 t end.

(** ** The topology under construction *)

Inductive Endpoint :=
  | Local (index : nat)                                   (** [cur_expanders[index]] *)
  | RemoteEp (id remote_node base capacity : Z).          (** a [RemoteCXLExpander] *)

#[global] Instance Endpoint_eq_dec : EqDecision Endpoint.
Proof. solve_decision. Defined.

Record SwitchNode := { sn_expanders : list Endpoint; sn_switches : list Z }.

Record Topo := {
  tp_cur_expanders : list bool;         (** false for a null pointer *)
  tp_switches : gmap Z SwitchNode;      (** the controller is switch 0 *)
  tp_num_switches : Z;
  tp_num_end_points : Z;
  tp_device_map : gmap Z Endpoint;
  tp_remote_expanders : list Endpoint;
  tp_stk : list Z;                      (** back first *)
  tp_next_named : Z;
  tp_endpoints : Z                      (** [topology_endpoints] *)
}.

Inductive TopoError :=
  | EndpointAfterRoot | OutOfRange | NullExpander | ChildAfterRoot | Unbalanced | BadRemote | TooManyCxl
  | BadToken | NoEndpoints.

Definition empty_switch : SwitchNode := {| sn_expanders := []; sn_switches := [] |}.

(** A controller with its local expanders, before any topology. *)
Definition Topo_new (cur : list bool) : Topo :=
  {| tp_cur_expanders := cur; tp_switches := {[0 := empty_switch]}; tp_num_switches := 0; tp_num_end_points := 0;
     tp_device_map := ∅; tp_remote_expanders := []; tp_stk := [0]; tp_next_named := 0; tp_endpoints := 0 |}.

Definition add_expander (e : Endpoint) (n : SwitchNode) : SwitchNode :=
  {| sn_expanders := sn_expanders n ++ [e]; sn_switches := sn_switches n |}.

Definition add_switch (i : Z) (n : SwitchNode) : SwitchNode :=
  {| sn_expanders := sn_expanders n; sn_switches := sn_switches n ++ [i] |}.

(** [sw->expanders.emplace_back(e)]. *)
Definition attach (sw : Z) (e : Endpoint) (s : Topo) : Topo :=
  {| tp_cur_expanders := tp_cur_expanders s; tp_switches := alter (add_expander e) sw (tp_switches s);
     tp_num_switches := tp_num_switches s; tp_num_end_points := tp_num_end_points s;
     tp_device_map := tp_device_map s; tp_remote_expanders := tp_remote_expanders s; tp_stk := tp_stk s;
     tp_next_named := tp_next_named s; tp_endpoints := tp_endpoints s |}.

(** [device_map[num_end_points++] = e]. *)
Definition number_endpoint (e : Endpoint) (s : Topo) : Topo :=
  {| tp_cur_expanders := tp_cur_expanders s; tp_switches := tp_switches s;
     tp_num_switches := tp_num_switches s; tp_num_end_points := tp_num_end_points s + 1;
     tp_device_map := <[tp_num_end_points s := e]> (tp_device_map s);
     tp_remote_expanders := tp_remote_expanders s; tp_stk := tp_stk s;
     tp_next_named := tp_next_named s; tp_endpoints := tp_endpoints s |}.

Definition count_endpoint (s : Topo) : Topo :=
  {| tp_cur_expanders := tp_cur_expanders s; tp_switches := tp_switches s;
     tp_num_switches := tp_num_switches s; tp_num_end_points := tp_num_end_points s;
     tp_device_map := tp_device_map s; tp_remote_expanders := tp_remote_expanders s; tp_stk := tp_stk s;
     tp_next_named := tp_next_named s; tp_endpoints := tp_endpoints s + 1 |}.

Definition add_remote (e : Endpoint) (s : Topo) : Topo :=
  {| tp_cur_expanders := tp_cur_expanders s; tp_switches := tp_switches s;
     tp_num_switches := tp_num_switches s; tp_num_end_points := tp_num_end_points s;
     tp_device_map := tp_device_map s; tp_remote_expanders := tp_remote_expanders s ++ [e]; tp_stk := tp_stk s;
     tp_next_named := tp_next_named s; tp_endpoints := tp_endpoints s |}.

Definition set_stk (stk : list Z) (s : Topo) : Topo :=
  {| tp_cur_expanders := tp_cur_expanders s; tp_switches := tp_switches s;
     tp_num_switches := tp_num_switches s; tp_num_end_points := tp_num_end_points s;
     tp_device_map := tp_device_map s; tp_remote_expanders := tp_remote_expanders s; tp_stk := stk;
     tp_next_named := tp_next_named s; tp_endpoints := tp_endpoints s |}.

Definition next_cxl (s : Topo) : Topo :=
  {| tp_cur_expanders := tp_cur_expanders s; tp_switches := tp_switches s;
     tp_num_switches := tp_num_switches s; tp_num_end_points := tp_num_end_points s;
     tp_device_map := tp_device_map s; tp_remote_expanders := tp_remote_expanders s; tp_stk := tp_stk s;
     tp_next_named := tp_next_named s + 1; tp_endpoints := tp_endpoints s |}.

Definition open_root (s : Topo) : Topo :=
  {| tp_cur_expanders := tp_cur_expanders s; tp_switches := tp_switches s;
     tp_num_switches := tp_num_switches s + 1; tp_num_end_points := tp_num_end_points s;
     tp_device_map := tp_device_map s; tp_remote_expanders := tp_remote_expanders s; tp_stk := tp_stk s;
     tp_next_named := tp_next_named s; tp_endpoints := tp_endpoints s |}.

(** [new CXLSwitch(num_switches++)], linked to its parent and pushed. *)
Definition open_child (parent : Z) (s : Topo) : Topo :=
  let i := tp_num_switches s in
  {| tp_cur_expanders := tp_cur_expanders s;
     tp_switches := <[i := empty_switch]> (alter (add_switch i) parent (tp_switches s));
     tp_num_switches := i + 1; tp_num_end_points := tp_num_end_points s;
     tp_device_map := tp_device_map s; tp_remote_expanders := tp_remote_expanders s; tp_stk := i :: tp_stk s;
     tp_next_named := tp_next_named s; tp_endpoints := tp_endpoints s |}.

(** ** construct_topo *)

Definition num_local (s : Topo) : Z := Z.of_nat (length (tp_cur_expanders s)).

(** The lambda [add_local_expander]. *)
Definition add_local_expander (number : Z) (s : Topo) : option TopoError * Topo :=
  match tp_stk s with
  | [] => (Some EndpointAfterRoot, s)
  | top :: _ =>
      if (number =? 0) || (num_local s <? number) then (Some OutOfRange, s)
      else
        let index := Z.to_nat (number - 1) in
        match tp_cur_expanders s !! index with
        | Some true => (None, count_endpoint (number_endpoint (Local index) (attach top (Local index) s)))
        | _ => (Some NullExpander, s)
        end
  end.

Definition default_capacity : Z := 1073741824.

Definition add_remote_endpoint (remote_node base capacity : Z) (s : Topo) : Endpoint * Topo :=
  let e := RemoteEp (tp_num_end_points s) remote_node base capacity in
  (e, add_remote e (number_endpoint e (attach 0 e s))).

Definition tok (s : string) : token := String.list_ascii_of_string s.

Definition skip_optional_branch_length (rest : list token) : list token :=
  match rest with
  | c :: rest1 => match rest1 with
                  | _ :: rest2 => if tok_eqb c (tok ":") then rest2 else rest
                  | [] => rest
                  end
  | [] => rest
  end.

(** The branch [R:node_id:exp_id], with the stack test of the code. *)
Definition remote_leaf (node : Z) (s : Topo) : Topo :=
  let remote_node := u32 node in
  let '(e, s1) := add_remote_endpoint remote_node (remote_node *w default_capacity) default_capacity s in
  let s2 := match tp_stk s1 with
            | top :: _ => if top =? 0 then s1 else attach top e s1
            | [] => s1
            end in
  count_endpoint s2.

Fixpoint topo_loop (tokens : list token) (s : Topo) : option TopoError * Topo :=
  match tokens with
  | [] => (None, s)
  | token :: rest =>
      if tok_eqb token (tok "(") && (tp_num_switches s =? 0) then topo_loop rest (open_root s)
      else if tok_eqb token (tok "(") then
        match tp_stk s with
        | [] => (Some ChildAfterRoot, s)
        | top :: _ => topo_loop rest (open_child top s)
        end
      else if tok_eqb token (tok ")") then
        match tp_stk s with
        | [] => (Some Unbalanced, s)
        | _ :: stk => topo_loop rest (set_stk stk s)
        end
      else if tok_eqb token (tok ",") || tok_eqb token (tok ";") then topo_loop rest s
      else
        let named :=
          if tok_eqb token (tok "CPU") then topo_loop (skip_optional_branch_length rest) s
          else if tok_eqb token (tok "CXL") then
            if num_local s <=? tp_next_named s then (Some TooManyCxl, s)
            else match add_local_expander (tp_next_named s + 1) s with
                 | (Some e, s1) => (Some e, s1)
                 | (None, s1) => topo_loop (skip_optional_branch_length rest) (next_cxl s1)
                 end
          else match parse_size_token token with
               | None => (Some BadToken, s)
               | Some number =>
                   match add_local_expander number s with
                   | (Some e, s1) => (Some e, s1)
                   | (None, s1) => topo_loop (skip_optional_branch_length rest) s1
                   end
               end in
        match rest with
        | c1 :: node :: c2 :: _ :: rest' =>
            if tok_eqb token (tok "R") && tok_eqb c1 (tok ":") && tok_eqb c2 (tok ":") then
              match parse_size_token node with
              | None => (Some BadRemote, s)
              | Some v => topo_loop rest' (remote_leaf v s)
              end
            else named
        | _ => named
        end
  end.

(** The locals at the start of [construct_topo]. *)
Definition begin_topo (s : Topo) : Topo :=
  {| tp_cur_expanders := tp_cur_expanders s; tp_switches := tp_switches s;
     tp_num_switches := tp_num_switches s; tp_num_end_points := tp_num_end_points s;
     tp_device_map := tp_device_map s; tp_remote_expanders := tp_remote_expanders s; tp_stk := [0];
     tp_next_named := 0; tp_endpoints := 0 |}.

Definition construct_topo (newick_tree : list ascii) (s : Topo) : option TopoError * Topo :=
  match topo_loop (tokenize newick_tree) (begin_topo s) with
  | (Some e, s1) => (Some e, s1)
  | (None, s1) => if (tp_endpoints s1 =? 0) && negb (num_local s1 =? 0) then (Some NoEndpoints, s1) else (None, s1)
  end.

(** ** The specification: trees of endpoints *)

(** A leaf is the 1-based number of a local expander. *)
Inductive tree := Leaf (number : Z) | Node (children : list tree).

Definition digit_char (d : Z) : ascii := ascii_of_nat (Z.to_nat (48 + d)).

(** Decimal digits; twenty are enough for a [size_t]. *)
Fixpoint digits_loop (fuel : nat) (n : Z) : token :=
  match fuel with
  | O => []
  | S fuel' => (if n <? 10 then [] else digits_loop fuel' (n / 10)) ++ [digit_char (n mod 10)]
  end.
Definition digits (n : Z) : token := digits_loop 20 n.

Fixpoint sep_tokens (l : list (list token)) : list token :=
  match l with
  | [] => []
  | x :: l' => match l' with [] => x | _ => x ++ tok "," :: sep_tokens l' end
  end.

Fixpoint tokens_of (t : tree) : list token :=
  match t with
  | Leaf n => [digits n]
  | Node cs => tok "(" :: sep_tokens (List.map tokens_of cs) ++ [tok ")"]
  end.

(** The text of a tree: its tokens without spaces. *)
Definition text_of (t : tree) : list ascii := concat (tokens_of t).

(** Every leaf names an expander that is there. *)
Fixpoint leaves_ok (cur : list bool) (t : tree) : bool :=
  match t with
  | Leaf n => (1 <=? n) && (n <=? Z.of_nat (length cur)) && default false (cur !! Z.to_nat (n - 1))
  | Node cs => forallb (leaves_ok cur) cs
  end.

Fixpoint num_leaves (t : tree) : Z :=
  match t with Leaf _ => 1 | Node cs => zsum (List.map num_leaves cs) end.

Definition leaf_of (t : tree) : option Endpoint :=
  match t with Leaf n => Some (Local (Z.to_nat (n - 1))) | Node _ => None end.

(** The inner children of a list, in order, are related to the identifiers. *)
Section inner.
Context (B : tree → Z → Prop).

Fixpoint inner (cs : list tree) (ids : list Z) : Prop :=
  match cs with
  | [] => ids = []
  | c :: cs' =>
      match c with
      | Leaf _ => inner cs' ids
      | Node _ => match ids with [] => False | j :: ids' => B c j ∧ inner cs' ids' end
      end
  end.
End inner.

(** Switch [i] of the store is the root of the tree, in the store's order:
    the endpoints are the leaves among the children, the child switches are
    the other children; all identifiers lie in [lo .. hi - 1]. *)
Fixpoint built (sw : gmap Z SwitchNode) (lo hi : Z) (t : tree) (i : Z) : Prop :=
  match t with
  | Leaf _ => False
  | Node cs =>
      ∃ node, sw !! i = Some node ∧ lo <= i < hi ∧ sn_expanders node = omap leaf_of cs ∧
        inner (built sw lo hi) cs (sn_switches node)
  end.

#[global] Arguments built : simpl never.

(** What reading a tree does to the state. *)
Definition add_leaf (n : Z) (top : Z) (s : Topo) : Topo :=
  let e := Local (Z.to_nat (n - 1)) in count_endpoint (number_endpoint e (attach top e s)).

Fixpoint add_tree (t : tree) (top : Z) (s : Topo) : Topo :=
  match t with
  | Leaf n => add_leaf n top s
  | Node cs =>
      set_stk (tp_stk s) (List.fold_left (λ s' c, add_tree c (tp_num_switches s) s') cs (open_child top s))
  end.

(** ** Lemmas: trees *)

Lemma built_Node sw lo hi cs i :
  built sw lo hi (Node cs) i ↔
  ∃ node, sw !! i = Some node ∧ lo <= i < hi ∧ sn_expanders node = omap leaf_of cs ∧
    inner (built sw lo hi) cs (sn_switches node).
Proof. reflexivity. Qed.

Section tree_induction.
Context (P : tree → Prop) (Hleaf : ∀ n, P (Leaf n)) (Hnode : ∀ cs, Forall P cs → P (Node cs)).

Fixpoint tree_nested_ind (t : tree) : P t :=
  match t with
  | Leaf n => Hleaf n
  | Node cs => Hnode cs ((fix go (cs : list tree) : Forall P cs :=
      match cs with
      | [] => Forall_nil_2 P
      | c :: cs' => Forall_cons_2 P c cs' (tree_nested_ind c) (go cs')
      end) cs)
  end.
End tree_induction.

(** A part of the store outside of the range may change. *)
Lemma built_frame sw sw' lo hi lo' hi' t i :
  lo' <= lo → hi <= hi' → (∀ j, lo <= j < hi → sw' !! j = sw !! j) → built sw lo hi t i → built sw' lo' hi' t i.
Proof.
  intros Hlo Hhi Hsw. revert i. induction t as [n|cs IH] using tree_nested_ind; intros i; [done|].
  rewrite !built_Node. intros (node & Hn & Hi & He & Hc). exists node. split_and!; [by rewrite Hsw|lia|lia|done|].
  clear He Hn. revert Hc. generalize (sn_switches node). induction IH as [|c cs Hc Hcs IHcs]; intros ids; [done|].
  destruct c as [n|cs']; simpl; [apply IHcs|]. destruct ids as [|j ids]; [done|]. intros [H1 H2].
  split; [by apply Hc|by apply IHcs].
Qed.

Lemma inner_frame sw sw' lo hi lo' hi' cs ids :
  lo' <= lo → hi <= hi' → (∀ j, lo <= j < hi → sw' !! j = sw !! j) →
  inner (built sw lo hi) cs ids → inner (built sw' lo' hi') cs ids.
Proof.
  intros Hlo Hhi Hsw. revert ids. induction cs as [|c cs IH]; intros ids; [done|].
  destruct c as [n|cs']; simpl; [apply IH|]. destruct ids as [|j ids]; [done|]. intros [H1 H2].
  split; [|by apply IH]. by apply (built_frame sw sw' lo hi).
Qed.

Lemma inner_snoc sw lo hi cs ids c :
  inner (built sw lo hi) cs ids →
  match c with
  | Leaf _ => inner (built sw lo hi) (cs ++ [c]) ids
  | Node _ => ∀ j, built sw lo hi c j → inner (built sw lo hi) (cs ++ [c]) (ids ++ [j])
  end.
Proof.
  revert ids. induction cs as [|x cs IH]; intros ids Hb.
  - simpl in Hb. subst. destruct c; [done|]. intros j Hj. done.
  - destruct c as [n|cs']; simpl in *; destruct x as [m|cs'']; try destruct ids as [|i ids]; try done.
    + by apply (IH []).
    + by apply (IH (i :: ids)).
    + destruct Hb as [H1 H2]. split; [done|]. by apply (IH ids).
    + intros j Hj. by apply (IH []).
    + intros j Hj. by apply (IH (i :: ids)).
    + destruct Hb as [H1 H2]. intros j Hj. split; [done|]. by apply (IH ids).
Qed.

(** ** Lemmas: what [add_tree] builds *)

(** Identifiers in use are below the counter. *)
Definition ids_ok (s : Topo) : Prop := ∀ j, is_Some (tp_switches s !! j) → j < tp_num_switches s.

(** Everything but switch [top] and the fresh identifiers is kept. *)
Record extends (top : Z) (k : Z) (s s' : Topo) : Prop := {
  ex_ids : ids_ok s';
  ex_num : tp_num_switches s <= tp_num_switches s';
  ex_cur : tp_cur_expanders s' = tp_cur_expanders s;
  ex_end : tp_endpoints s' = tp_endpoints s + k;
  ex_old : ∀ j, j < tp_num_switches s → j ≠ top → tp_switches s' !! j = tp_switches s !! j
}.

Definition added (t : tree) (top : Z) (node : SwitchNode) (s s' : Topo) : Prop :=
  match t with
  | Leaf n => tp_switches s' !! top = Some (add_expander (Local (Z.to_nat (n - 1))) node)
  | Node _ => tp_switches s' !! top = Some (add_switch (tp_num_switches s) node) ∧
      built (tp_switches s') (tp_num_switches s) (tp_num_switches s') t (tp_num_switches s)
  end.

Lemma extends_refl top s : ids_ok s → extends top 0 s s.
Proof. intros Hi. split; try done; lia. Qed.

Lemma extends_trans top k1 k2 s1 s2 s3 : extends top k1 s1 s2 → extends top k2 s2 s3 → extends top (k1 + k2) s1 s3.
Proof.
  intros [I1 N1 C1 E1 O1] [I2 N2 C2 E2 O2]. split; [done|lia|congruence|lia|].
  intros j Hj Hne. rewrite O2, O1 by (lia || done). done.
Qed.

Definition subtree_ok (c : tree) : Prop :=
  ∀ top s node, ids_ok s → tp_switches s !! top = Some node →
    let s' := add_tree c top s in extends top (num_leaves c) s s' ∧ added c top node s s' ∧ tp_stk s' = tp_stk s.

(** Adding the children of switch [i] one after the other. *)
Lemma add_children_ok cs i s node ds :
  Forall subtree_ok cs → ids_ok s → tp_switches s !! i = Some node →
  sn_expanders node = omap leaf_of ds → inner (built (tp_switches s) (i + 1) (tp_num_switches s)) ds (sn_switches node) →
  let s' := List.fold_left (λ s' c, add_tree c i s') cs s in
  extends i (zsum (List.map num_leaves cs)) s s' ∧ tp_stk s' = tp_stk s ∧
  ∃ node', tp_switches s' !! i = Some node' ∧ sn_expanders node' = omap leaf_of (ds ++ cs) ∧
    inner (built (tp_switches s') (i + 1) (tp_num_switches s')) (ds ++ cs) (sn_switches node').
Proof.
  intros Hcs. revert s node ds. induction Hcs as [|c cs Hc _ IH]; intros s node ds Hids Hn He Hb; simpl.
  { rewrite app_nil_r. split; [by apply extends_refl|]. eauto. }
  destruct (Hc i s node Hids Hn) as (H1 & Ha & Hstk). set (s1 := add_tree c i s) in *.
  assert (i < tp_num_switches s) as Hlt by (apply Hids; by rewrite Hn).
  assert (inner (built (tp_switches s1) (i + 1) (tp_num_switches s1)) ds (sn_switches node)) as Hb1.
  { eapply inner_frame; [..|exact Hb]; [lia|apply H1|]. intros j Hj. apply H1; lia. }
  assert (∃ node1, tp_switches s1 !! i = Some node1 ∧ sn_expanders node1 = omap leaf_of (ds ++ [c]) ∧
    inner (built (tp_switches s1) (i + 1) (tp_num_switches s1)) (ds ++ [c]) (sn_switches node1)) as (node1 & Hn1 & He1 & Hi1).
  { pose proof (inner_snoc _ _ _ _ _ c Hb1) as Hs. rewrite omap_app, <- He. destruct c as [n|cs']; simpl in Ha.
    - eexists. split_and!; [exact Ha|done|exact Hs].
    - destruct Ha as [Ha Hbc]. eexists. split_and!; [exact Ha|simpl; by rewrite app_nil_r|]. apply Hs.
      apply (built_frame (tp_switches s1) _ (tp_num_switches s) (tp_num_switches s1)); [lia|lia|done|exact Hbc]. }
  destruct (IH s1 node1 (ds ++ [c])) as (H2 & Hstk2 & Hn2); [apply H1|done..|]. rewrite <- app_assoc in Hn2.
  split_and!; [exact (extends_trans _ _ _ _ _ _ H1 H2)|congruence|done].
Qed.

Lemma add_tree_ok t : subtree_ok t.
Proof.
  induction t as [n|cs IH] using tree_nested_ind; intros top s node Hids Hn.
  - simpl. split_and!; [split; simpl; try done; try lia|simpl; by rewrite lookup_alter_eq, Hn|done].
    + intros j. simpl. destruct (decide (top = j)) as [<-|Hne]; [by rewrite lookup_alter_eq, Hn; intros _; apply Hids; rewrite Hn|].
      rewrite lookup_alter_ne by done. apply Hids.
    + intros j Hj Hne. by apply lookup_alter_ne.
  - set (i := tp_num_switches s). assert (top < i) as Hlt by (apply Hids; by rewrite Hn).
    assert (ids_ok (open_child top s)) as Hids1.
    { intros j. simpl. fold i. destruct (decide (i = j)) as [<-|Hne]; [lia|]. rewrite lookup_insert_ne by done.
      intros Hj. assert (j < i); [|lia]. apply Hids. destruct (decide (top = j)) as [<-|Hne']; [by rewrite Hn|].
      by rewrite lookup_alter_ne in Hj. }
    destruct (add_children_ok cs i (open_child top s) empty_switch [] IH Hids1) as (H1 & Hstk & node' & Hn' & He' & Hi');
      [simpl; by rewrite lookup_insert_eq|done|done|].
    simpl. fold i. set (s1 := List.fold_left _ _ _) in *. destruct H1 as [I1 N1 C1 E1 O1]. simpl in N1, C1, E1, O1. fold i in N1, O1.
    assert (tp_switches s1 !! top = Some (add_switch i node)) as Htop.
    { rewrite O1 by lia. rewrite lookup_insert_ne by lia. by rewrite lookup_alter_eq, Hn. }
    split_and!; [|exact Htop| |done].
    + split; [exact I1|simpl; lia|done|done|]. intros j Hj Hne. simpl. rewrite O1 by lia.
      rewrite lookup_insert_ne by lia. by apply lookup_alter_ne.
    + rewrite built_Node. exists node'. simpl. split_and!; [done|lia|lia|done|].
      eapply inner_frame; [| |done|exact Hi']; lia.
Qed.

(** ** Lemmas: numbers *)

Lemma digit_of_char d : 0 <= d < 10 → digit_of (digit_char d) = Some d.
Proof.
  intros Hd. assert (d = 0 ∨ d = 1 ∨ d = 2 ∨ d = 3 ∨ d = 4 ∨ d = 5 ∨ d = 6 ∨ d = 7 ∨ d = 8 ∨ d = 9) as Hc by lia.
  repeat (destruct Hc as [->|Hc]; [reflexivity|]). by subst.
Qed.

Definition is_digit (c : ascii) : bool := bool_decide (is_Some (digit_of c)).

Lemma digits_loop_digits fuel n : 0 <= n → forallb is_digit (digits_loop fuel n) = true.
Proof.
  revert n. induction fuel as [|fuel IH]; intros n Hn; [done|]. cbn [digits_loop].
  rewrite forallb_app. apply andb_true_intro. split.
  - destruct (n <? 10); [done|]. apply IH, Z.div_pos; lia.
  - simpl. unfold is_digit. rewrite digit_of_char by (apply Z.mod_pos_bound; lia). done.
Qed.

Lemma from_chars_app acc a b :
  from_chars acc (a ++ b) = (acc' ← from_chars acc a; from_chars acc' b).
Proof.
  revert acc. induction a as [|c a IH]; intros acc; [done|]. simpl. destruct (digit_of c); [|done].
  destruct (_ <? _); [apply IH|done].
Qed.

Lemma from_chars_digits fuel n :
  (1 ≤ fuel)%nat → 0 <= n < 10 ^ Z.of_nat fuel → n < TWO64 → from_chars 0 (digits_loop fuel n) = Some n.
Proof.
  revert n. induction fuel as [|fuel IH]; intros n Hf Hn H64; [lia|]. cbn [digits_loop].
  assert (0 <= n mod 10 < 10) as Hm by (apply Z.mod_pos_bound; lia).
  assert (n = 10 * (n / 10) + n mod 10) as Hd by (apply Z.div_mod; lia).
  rewrite from_chars_app. destruct (n <? 10) eqn:E; btests.
  - simpl. rewrite digit_of_char by done. rewrite Z.mod_small by lia. simpl. by rewrite (proj2 (Z.ltb_lt _ _)).
  - destruct fuel as [|fuel]; [simpl in Hn; lia|].
    rewrite IH; [|lia| |lia].
    + simpl. rewrite digit_of_char by done. replace (n / 10 * 10 + n mod 10) with n by lia.
      by rewrite (proj2 (Z.ltb_lt _ _)).
    + split; [apply Z.div_pos; lia|]. apply Z.div_lt_upper_bound; [lia|].
      rewrite <- Z.pow_succ_r by lia. rewrite <- Nat2Z.inj_succ. lia.
Qed.

Lemma parse_digits n : 0 <= n < TWO64 → parse_size_token (digits n) = Some n.
Proof.
  intros Hn. unfold parse_size_token, digits.
  assert (10 ^ Z.of_nat 20 = 100000000000000000000) as Hp by reflexivity.
  pose proof (from_chars_digits 20 n ltac:(lia) ltac:(rewrite Hp; lia) (proj2 Hn)) as Hf.
  destruct (digits_loop 20 n) as [|c l] eqn:E; [|exact Hf].
  cbn [digits_loop] in E. by apply app_nil in E as [_ ?].
Qed.

Lemma digits_not t n : 0 <= n → forallb is_digit t = false → tok_eqb (digits n) t = false.
Proof.
  intros Hn Ht. apply bool_decide_eq_false_2. intros <-. unfold digits in Ht. by rewrite digits_loop_digits in Ht.
Qed.

(** ** Lemmas: tokenizing a printed tree *)

Lemma digit_plain c : is_digit c = true → isspace c = false ∧ is_separator c = false.
Proof.
  destruct c as [[] [] [] [] [] [] [] []]; vm_compute; try done.
Qed.

(** The text ends, or a separator follows. *)
Definition word_ends (s : list ascii) : Prop := match s with [] => True | c :: _ => isspace c = false ∧ is_separator c = true end.

Lemma tokenize_word tmp w s :
  forallb is_digit w = true → tmp ++ w ≠ [] → word_ends s →
  tokenize_loop tmp (w ++ s) = (tmp ++ w) :: tokenize_loop [] s.
Proof.
  revert tmp. induction w as [|c w IH]; intros tmp Hw Hne Hs; simpl in *.
  - rewrite app_nil_r in *. destruct s as [|c s]; simpl; [by destruct tmp|].
    destruct Hs as [Hc Hsep]. rewrite Hc, Hsep. by destruct tmp.
  - apply andb_prop in Hw as [Hc Hw]. apply digit_plain in Hc as [-> ->].
    rewrite IH; [by rewrite <- app_assoc|done|by rewrite <- app_assoc|done].
Qed.

Lemma tokenize_sep c s : isspace c = false → is_separator c = true → tokenize_loop [] (c :: s) = [c] :: tokenize_loop [] s.
Proof. simpl. by intros -> ->. Qed.

Fixpoint leaves_nonneg (t : tree) : bool :=
  match t with Leaf n => 0 <=? n | Node cs => forallb leaves_nonneg cs end.

Lemma word_ends_sep c s : isspace c = false → is_separator c = true → word_ends (c :: s).
Proof. done. Qed.

Lemma tokenize_children cs rest :
  Forall (λ t, ∀ s, leaves_nonneg t = true → word_ends s →
    tokenize_loop [] (text_of t ++ s) = tokens_of t ++ tokenize_loop [] s) cs →
  forallb leaves_nonneg cs = true → word_ends rest →
  tokenize_loop [] (concat (sep_tokens (List.map tokens_of cs)) ++ rest) =
  sep_tokens (List.map tokens_of cs) ++ tokenize_loop [] rest.
Proof.
  intros Hcs. revert rest. induction Hcs as [|c cs Hc _ IH]; intros rest Hn Hr; [done|].
  simpl in Hn. apply andb_prop in Hn as [Hn1 Hn2]. destruct cs as [|c2 cs]; [by apply Hc|].
  cbn [List.map sep_tokens]. rewrite concat_app. cbn [concat]. rewrite <- !app_assoc.
  change (concat (tokens_of c)) with (text_of c). rewrite Hc by done. f_equal.
  cbn [tok String.list_ascii_of_string app]. rewrite tokenize_sep by done. f_equal. by apply IH.
Qed.

Lemma tokenize_tree t s :
  leaves_nonneg t = true → word_ends s → tokenize_loop [] (text_of t ++ s) = tokens_of t ++ tokenize_loop [] s.
Proof.
  revert s. induction t as [n|cs IH] using tree_nested_ind; intros s Hn Hs.
  - simpl in Hn. btests. unfold text_of. simpl. rewrite app_nil_r. apply tokenize_word; [|simpl|done].
    + by apply digits_loop_digits.
    + unfold digits. cbn [digits_loop]. intros [_ ?]%app_nil. done.
  - unfold text_of. cbn [tokens_of concat tok String.list_ascii_of_string app]. rewrite tokenize_sep by done. f_equal.
    rewrite concat_app. cbn [concat]. rewrite <- !app_assoc.
    rewrite (tokenize_children cs _ IH); [|done|done]. done.
Qed.

(** ** Lemmas: the loop on a printed tree *)

Definition no_colon (rest : list token) : Prop :=
  match rest with [] => True | c :: _ => tok_eqb c (tok ":") = false end.

Lemma skip_no_colon rest : no_colon rest → skip_optional_branch_length rest = rest.
Proof. destruct rest as [|c [|x rest]]; simpl; try done. by intros ->. Qed.

Lemma topo_leaf n rest s top stk :
  tp_stk s = top :: stk → leaves_ok (tp_cur_expanders s) (Leaf n) = true → num_local s < TWO64 → no_colon rest →
  topo_loop (digits n :: rest) s = topo_loop rest (add_leaf n top s).
Proof.
  intros Hstk Hl H64 Hc. simpl in Hl. btests. unfold num_local in H64.
  assert (∀ t, forallb is_digit t = false → tok_eqb (digits n) t = false) as Hne by (intros; apply digits_not; [lia|done]).
  assert (add_local_expander n s = (None, add_leaf n top s)) as Ha.
  { unfold add_local_expander, num_local. rewrite Hstk, (proj2 (Z.eqb_neq n 0)), (proj2 (Z.ltb_ge _ n)) by lia. simpl.
    destruct (tp_cur_expanders s !! Z.to_nat (n - 1)) as [[]|]; done. }
  cbn [topo_loop]. rewrite !Hne by done. cbn [andb orb]. rewrite parse_digits by lia. rewrite Ha, skip_no_colon by done.
  by destruct rest as [|c1 [|c2 [|c3 [|c4 rest]]]].
Qed.

Lemma add_tree_basic t top s :
  tp_stk (add_tree t top s) = tp_stk s ∧ tp_cur_expanders (add_tree t top s) = tp_cur_expanders s ∧
  tp_num_switches s <= tp_num_switches (add_tree t top s).
Proof.
  revert top s. induction t as [n|cs IH] using tree_nested_ind; intros top s; [simpl; split_and!; done || lia|].
  simpl. set (i := tp_num_switches s).
  assert (∀ s0, tp_cur_expanders (List.fold_left (λ s' c, add_tree c i s') cs s0) = tp_cur_expanders s0 ∧
    tp_num_switches s0 <= tp_num_switches (List.fold_left (λ s' c, add_tree c i s') cs s0)) as Hf.
  { induction IH as [|c cs Hc _ IHcs]; intros s0; simpl; [split; done || lia|].
    destruct (Hc i s0) as (_ & H2 & H3). destruct (IHcs (add_tree c i s0)) as [H4 H5]. split; [congruence|lia]. }
  destruct (Hf (open_child top s)) as [H1 H2]. simpl in *. fold i in H2. split_and!; [done|done|lia].
Qed.

(** The state in which a list of children is read. *)
Record reading (s : Topo) (top : Z) (stk : list Z) : Prop := {
  rd_stk : tp_stk s = top :: stk;
  rd_num : 0 < tp_num_switches s;
  rd_64 : num_local s < TWO64
}.

Lemma reading_add t s top stk i : reading s top stk → reading (add_tree t i s) top stk.
Proof.
  intros [H1 H2 H3]. destruct (add_tree_basic t i s) as (E1 & E2 & E3).
  split; [congruence|lia|unfold num_local in *; by rewrite E2].
Qed.

Definition reads (t : tree) : Prop :=
  ∀ rest s top stk, reading s top stk → leaves_ok (tp_cur_expanders s) t = true → no_colon rest →
    topo_loop (tokens_of t ++ rest) s = topo_loop rest (add_tree t top s).

Lemma read_children cs rest s top stk :
  Forall reads cs → reading s top stk → forallb (leaves_ok (tp_cur_expanders s)) cs = true → no_colon rest →
  topo_loop (sep_tokens (List.map tokens_of cs) ++ rest) s =
  topo_loop rest (List.fold_left (λ s' c, add_tree c top s') cs s).
Proof.
  intros Hcs. revert s. induction Hcs as [|c cs Hc _ IH]; intros s Hr Hl Hrest; [done|].
  simpl in Hl. apply andb_prop in Hl as [Hl1 Hl2]. destruct cs as [|c2 cs]; [by eapply Hc|].
  cbn [List.map sep_tokens]. rewrite <- app_assoc. rewrite (Hc _ s top stk) by done.
  cbn [app]. cbn [topo_loop]. simpl. apply IH; [by apply reading_add| |done].
  by rewrite (proj1 (proj2 (add_tree_basic c top s))).
Qed.

Lemma topo_open rest s top stk :
  tp_stk s = top :: stk → tp_num_switches s ≠ 0 → topo_loop (tok "(" :: rest) s = topo_loop rest (open_child top s).
Proof. intros Hs Hn. cbn [topo_loop]. rewrite (proj2 (Z.eqb_neq _ _) Hn), Hs. reflexivity. Qed.

Lemma topo_close rest s top stk :
  tp_stk s = top :: stk → topo_loop (tok ")" :: rest) s = topo_loop rest (set_stk stk s).
Proof. intros Hs. cbn [topo_loop]. rewrite Hs. reflexivity. Qed.

Lemma topo_semi s : topo_loop [tok ";"] s = (None, s).
Proof. reflexivity. Qed.

Lemma fold_tree_stk cs i s : tp_stk (List.fold_left (λ s' c, add_tree c i s') cs s) = tp_stk s.
Proof. revert s. induction cs as [|c cs IH]; intros s; simpl; [done|]. rewrite IH. apply add_tree_basic. Qed.

Lemma read_tree t : reads t.
Proof.
  induction t as [n|cs IH] using tree_nested_ind; intros rest s top stk Hr Hl Hc; pose proof Hr as [Hstk Hnum H64].
  { by apply (topo_leaf n rest s top stk). }
  cbn [tokens_of app]. rewrite (topo_open _ s top stk) by (done || lia). rewrite <- app_assoc. cbn [app].
  assert (reading (open_child top s) (tp_num_switches s) (tp_stk s)) as Hr' by (split; simpl; [done|lia|done]).
  rewrite (read_children cs (tok ")" :: rest) _ _ _ IH Hr'); [|done|done]. rewrite (topo_close _ _ (tp_num_switches s) (tp_stk s)).
  - done.
  - rewrite fold_tree_stk. done.
Qed.

(** ** Lemmas: validity of any construction *)

Definition endpoint_ok (s : Topo) (e : Endpoint) : Prop :=
  match e with
  | Local index => tp_cur_expanders s !! index = Some true
  | RemoteEp id node base cap => e ∈ tp_remote_expanders s
  end.

Record topo_ok (s : Topo) : Prop := {
  tk_ids : ∀ j, is_Some (tp_switches s !! j) → 0 <= j < Z.max 1 (tp_num_switches s);
  tk_root : is_Some (tp_switches s !! 0);
  tk_stk : ∀ i, i ∈ tp_stk s → is_Some (tp_switches s !! i);
  tk_children : ∀ i node j, tp_switches s !! i = Some node → j ∈ sn_switches node → i < j ∧ is_Some (tp_switches s !! j);
  tk_expanders : ∀ i node e, tp_switches s !! i = Some node → e ∈ sn_expanders node → endpoint_ok s e;
  tk_devices : ∀ i, is_Some (tp_device_map s !! i) ↔ 0 <= i < tp_num_end_points s;
  tk_device : ∀ i e, tp_device_map s !! i = Some e → endpoint_ok s e;
  tk_num : 0 <= tp_num_end_points s;
  tk_pos : 0 <= tp_num_switches s
}.

Lemma endpoint_ok_ext s s' e :
  tp_cur_expanders s' = tp_cur_expanders s → (∀ r, r ∈ tp_remote_expanders s → r ∈ tp_remote_expanders s') →
  endpoint_ok s e → endpoint_ok s' e.
Proof. intros Hc Hr. destruct e; simpl; [by rewrite Hc|apply Hr]. Qed.

Lemma attach_ok sw e s : topo_ok s → endpoint_ok s e → topo_ok (attach sw e s).
Proof.
  intros [Hi Hr Hs Hc He Hd Hdd Hn Hsw0] Hok.
  assert (∀ i, tp_switches (attach sw e s) !! i = (if decide (sw = i) then add_expander e else id) <$> tp_switches s !! i) as Hl.
  { intros i. simpl. case_decide as E; [subst; by rewrite lookup_alter_eq|].
    rewrite lookup_alter_ne by done. by destruct (_ !! i). }
  assert (∀ i, is_Some (tp_switches (attach sw e s) !! i) ↔ is_Some (tp_switches s !! i)) as Hsome
    by (intros i; rewrite Hl; apply fmap_is_Some).
  assert (∀ i node, tp_switches (attach sw e s) !! i = Some node → ∃ node0, tp_switches s !! i = Some node0 ∧
    sn_switches node = sn_switches node0 ∧ ∀ x, x ∈ sn_expanders node → x = e ∨ x ∈ sn_expanders node0) as Hback.
  { intros i node. rewrite Hl. destruct (tp_switches s !! i) as [node0|]; [|done]. simpl. case_decide; intros [= <-];
      (exists node0; split_and!; [done..|]); simpl; set_solver. }
  split; try done.
  - intros j. rewrite Hsome. apply Hi.
  - by rewrite Hsome.
  - intros i Hin. rewrite Hsome. by apply Hs.
  - intros i node j Hnode Hj. apply Hback in Hnode as (node0 & H0 & Hsw & _). rewrite Hsome, Hsw in *. by eapply Hc.
  - intros i node x Hnode Hx. apply Hback in Hnode as (node0 & H0 & _ & Hex). apply Hex in Hx as [->|Hx]; [done|].
    by eapply He.
Qed.

Lemma number_endpoint_ok e s : topo_ok s → endpoint_ok s e → topo_ok (number_endpoint e s).
Proof.
  intros [Hi Hr Hs Hc He Hd Hdd Hn Hsw0] Hok. split; try done; simpl; [| |lia].
  - intros i. destruct (decide (tp_num_end_points s = i)) as [<-|Hne].
    + rewrite lookup_insert_eq. split; [lia|]. intros _. by eexists.
    + rewrite lookup_insert_ne, Hd by done. lia.
  - intros i x. destruct (decide (tp_num_end_points s = i)) as [<-|Hne]; [rewrite lookup_insert_eq; by intros [= <-]|].
    rewrite lookup_insert_ne by done. apply Hdd.
Qed.

Lemma add_remote_ok e s : topo_ok s → topo_ok (add_remote e s).
Proof.
  intros [Hi Hr Hs Hc He Hd Hdd Hn Hsw0].
  assert (∀ x, endpoint_ok s x → endpoint_ok (add_remote e s) x) as Hx.
  { intros x. apply endpoint_ok_ext; [done|]. simpl. set_solver. }
  split; try done; simpl; [|naive_solver]. intros i node x Hnode Hin. eapply Hx, He; done.
Qed.

(** The remaining fields play no part in the invariant. *)
Lemma topo_ok_fields s s' :
  tp_cur_expanders s' = tp_cur_expanders s → tp_switches s' = tp_switches s →
  tp_num_switches s <= tp_num_switches s' → tp_num_end_points s' = tp_num_end_points s →
  tp_device_map s' = tp_device_map s → tp_remote_expanders s' = tp_remote_expanders s →
  (∀ i, i ∈ tp_stk s' → i ∈ tp_stk s ∨ i = 0) → topo_ok s → topo_ok s'.
Proof.
  intros Ecur Esw Enum Eend Edev Erem Estk [Hi Hr Hs Hc He Hd Hdd Hn Hsw0].
  assert (∀ x, endpoint_ok s x → endpoint_ok s' x) as Hx by (intros x; apply endpoint_ok_ext; [done|by rewrite Erem]).
  split; rewrite ?Esw, ?Eend, ?Edev; try done.
  - intros j Hj. apply Hi in Hj. lia.
  - intros i Hin. apply Estk in Hin as [Hin| ->]; [by apply Hs|done].
  - intros i node e Hnode Hin. by eapply Hx, He.
  - intros i e Hin. by eapply Hx, Hdd.
  - lia.
Qed.

Lemma open_child_ok top s :
  topo_ok s → top ∈ tp_stk s → tp_num_switches s ≠ 0 → topo_ok (open_child top s).
Proof.
  intros [Hi Hr Hs Hc He Hd Hdd Hn Hsw0] Htop Hnz. set (n := tp_num_switches s) in *.
  assert (tp_switches s !! n = None) as Hfresh.
  { apply eq_None_not_Some. intros Hx%Hi. lia. }
  assert (∀ i, i ≠ n → is_Some (tp_switches (open_child top s) !! i) ↔ is_Some (tp_switches s !! i)) as Hsome.
  { intros i Hne. simpl. rewrite lookup_insert_ne by done. destruct (decide (top = i)) as [<-|Hne'].
    - by rewrite lookup_alter_eq, fmap_is_Some.
    - by rewrite lookup_alter_ne. }
  assert (is_Some (tp_switches (open_child top s) !! n)) as Hnew by (simpl; rewrite lookup_insert_eq; by eexists).
  assert (∀ i node, tp_switches (open_child top s) !! i = Some node → (i = n ∧ node = empty_switch) ∨
    ∃ node0, i ≠ n ∧ tp_switches s !! i = Some node0 ∧ sn_expanders node = sn_expanders node0 ∧
      ∀ j, j ∈ sn_switches node → j = n ∨ j ∈ sn_switches node0) as Hback.
  { intros i node. simpl. fold n. destruct (decide (n = i)) as [<-|Hne]; [rewrite lookup_insert_eq; intros [= <-]; by left|].
    rewrite lookup_insert_ne by done. intros Hnode. right. destruct (decide (top = i)) as [<-|Hne'].
    - rewrite lookup_alter_eq in Hnode. apply fmap_Some in Hnode as (node0 & H0 & ->). exists node0.
      split_and!; [done..|]. simpl. set_solver.
    - rewrite lookup_alter_ne in Hnode by done. exists node. split_and!; [done..|]. auto. }
  assert (∀ i, is_Some (tp_switches s !! i) → i < n) as Hlt by (intros i Hx%Hi; lia).
  split; try done.
  - intros j Hj. simpl. fold n. destruct (decide (j = n)) as [->|Hne]; [lia|].
    rewrite Hsome in Hj by done. apply Hi in Hj. lia.
  - apply Hsome; [lia|done].
  - intros i Hin. simpl in Hin. apply elem_of_cons in Hin as [->|Hin]; [done|].
    apply Hs in Hin. apply Hlt in Hin as Hin'. apply Hsome; [lia|done].
  - intros i node j Hnode Hj. apply Hback in Hnode as [[Ei En]|(node0 & Hne & H0 & _ & Hsw)]; [subst; set_solver|].
    assert (i < n) by (apply Hlt; by rewrite H0). apply Hsw in Hj as [->|Hj]; [done|].
    destruct (Hc i node0 j H0 Hj) as [? Hj']. split; [done|]. apply Hlt in Hj' as ?. apply Hsome; [lia|done].
  - intros i node e Hnode Hx. apply Hback in Hnode as [[Ei En]|(node0 & Hne & H0 & Hex & _)]; [subst; set_solver|].
    rewrite Hex in Hx. by eapply He.
  - simpl. fold n. lia.
Qed.

Lemma add_local_ok n s : topo_ok s → topo_ok (add_local_expander n s).2.
Proof.
  intros Hs. unfold add_local_expander. destruct (tp_stk s); [done|]. destruct (_ || _); [done|].
  destruct (tp_cur_expanders s !! Z.to_nat (n - 1)) as [[]|] eqn:E; [|done..]. simpl.
  apply (topo_ok_fields (number_endpoint (Local (Z.to_nat (n - 1))) (attach z (Local (Z.to_nat (n - 1))) s))); try done; [by left|].
  by apply number_endpoint_ok; [apply attach_ok|].
Qed.

Lemma remote_leaf_ok v s : topo_ok s → topo_ok (remote_leaf v s).
Proof.
  intros Hs. unfold remote_leaf, add_remote_endpoint. set (e := RemoteEp _ _ _ _).
  assert (endpoint_ok (add_remote e s) e) as He by (simpl; set_solver).
  assert (topo_ok (add_remote e (number_endpoint e (attach 0 e s)))) as H1.
  { change (topo_ok (number_endpoint e (attach 0 e (add_remote e s)))).
    apply number_endpoint_ok; [apply attach_ok; [by apply add_remote_ok|done]|done]. }
  set (s1 := add_remote e (number_endpoint e (attach 0 e s))) in *. assert (topo_ok (match tp_stk s1 with
    | top :: _ => if top =? 0 then s1 else attach top e s1 | [] => s1 end)) as H2.
  { destruct (tp_stk s1) as [|top stk]; [exact H1|]. destruct (top =? 0); [exact H1|]. apply attach_ok; [exact H1|]. simpl. set_solver. }
  refine (topo_ok_fields _ _ _ _ _ _ _ _ _ H2); try done. by left.
Qed.

Lemma set_stk_ok stk top s : topo_ok s → tp_stk s = top :: stk → topo_ok (set_stk stk s).
Proof. intros Hs Hstk. apply (topo_ok_fields s); try done. simpl. rewrite Hstk. set_solver. Qed.

Lemma topo_loop_ok n tokens s : (length tokens ≤ n)%nat → topo_ok s → topo_ok (topo_loop tokens s).2.
Proof.
  revert tokens s. induction n as [|n IH]; intros tokens s Hlen Hs.
  { destruct tokens; [done|simpl in Hlen; lia]. }
  destruct tokens as [|token rest]; [done|]. simpl in Hlen.
  assert (length (skip_optional_branch_length rest) ≤ n)%nat as Hskip.
  { destruct rest as [|c [|x rest]]; simpl in *; try case_match; simpl; lia. }
  cbn [topo_loop]. case_match eqn:E1.
  { apply IH; [lia|]. refine (topo_ok_fields _ _ _ _ _ _ _ _ _ Hs); try done; [simpl; lia|by left]. }
  case_match eqn:E2.
  { destruct (tp_stk s) as [|top stk] eqn:Estk; [done|]. apply IH; [lia|]. apply open_child_ok; [done|rewrite Estk; set_solver|].
    simpl in E1. by apply Z.eqb_neq. }
  case_match; [destruct (tp_stk s) as [|top stk] eqn:Estk; [done|]; apply IH; [lia|]; by eapply set_stk_ok|].
  case_match; [apply IH; [lia|done]|].
  assert (∀ m k s1, add_local_expander m s = (k, s1) → topo_ok s1) as Hadd.
  { intros m k s1 Hm. change s1 with (k, s1).2. rewrite <- Hm. by apply add_local_ok. }
  set (named := if tok_eqb token (tok "CPU") then _ else _).
  assert (topo_ok named.2) as Hnamed.
  { unfold named. destruct (tok_eqb token (tok "CPU")); [by apply IH|]. destruct (tok_eqb token (tok "CXL")).
    - destruct (_ <=? _); [done|]. destruct (add_local_expander _ s) as [[e|] s1] eqn:Ea; [exact (Hadd _ _ _ Ea)|].
      apply IH; [done|]. refine (topo_ok_fields s1 _ _ _ _ _ _ _ _ (Hadd _ _ _ Ea)); try done. by left.
    - destruct (parse_size_token token); [|done].
      destruct (add_local_expander _ s) as [[e|] s1] eqn:Ea; [exact (Hadd _ _ _ Ea)|]. apply IH; [done|exact (Hadd _ _ _ Ea)]. }
  clearbody named. destruct rest as [|c1 [|node [|c2 [|x rest]]]]; try done. case_match; [|done].
  case_match; [|done]. apply IH; [simpl in Hlen; lia|]. by apply remote_leaf_ok.
Qed.

Lemma Topo_new_ok cur : topo_ok (Topo_new cur).
Proof.
  assert (∀ i node, tp_switches (Topo_new cur) !! i = Some node → i = 0 ∧ node = empty_switch) as Hsw.
  { intros i node Hj. simpl in Hj. apply lookup_singleton_Some in Hj as [<- <-]. done. }
  assert (is_Some (tp_switches (Topo_new cur) !! 0)) as H0 by by eexists.
  split; [|done| | | | | |done|done].
  - intros j [node Hj]. apply Hsw in Hj as [-> _]. simpl. lia.
  - intros i Hi. simpl in Hi. apply list_elem_of_singleton in Hi as ->. done.
  - intros i node j Hj. apply Hsw in Hj as [_ ->]. set_solver.
  - intros i node e Hj. apply Hsw in Hj as [_ ->]. set_solver.
  - intros i. simpl. rewrite lookup_empty. split; [by intros [??]|lia].
  - intros i e. simpl. by rewrite lookup_empty.
Qed.

Lemma leaves_ok_nonneg cur t : leaves_ok cur t = true → leaves_nonneg t = true.
Proof.
  induction t as [n|cs IH] using tree_nested_ind; simpl; [intros; btests; apply Z.leb_le; lia|].
  rewrite !forallb_forall. rewrite Forall_forall in IH. intros H c Hc. apply IH; [by apply list_elem_of_In|by apply H].
Qed.

(** ** Theorems *)

(** C36. Printing a tree of endpoints and constructing it gives the tree: the
    controller is its root, every switch has the leaves and the inner nodes of
    its tree in order, and every leaf is the expander of its number. *)
Theorem construct_roundtrip cur cs :
  leaves_ok cur (Node cs) = true → Z.of_nat (length cur) < TWO64 → 0 < num_leaves (Node cs) →
  ∃ s', construct_topo (text_of (Node cs) ++ tok ";") (Topo_new cur) = (None, s') ∧
    built (tp_switches s') 0 (tp_num_switches s') (Node cs) 0 ∧ tp_endpoints s' = num_leaves (Node cs).
Proof.
  intros Hl H64 Hn. unfold construct_topo, tokenize.
  rewrite tokenize_tree by (done || by eapply leaves_ok_nonneg).
  change (tokenize_loop [] (tok ";")) with [tok ";"]. change (begin_topo (Topo_new cur)) with (Topo_new cur).
  set (s0 := open_root (Topo_new cur)). cbn [tokens_of app].
  change (topo_loop (tok "(" :: ?l) (Topo_new cur)) with (topo_loop l s0).
  rewrite <- app_assoc. cbn [app].
  rewrite (read_children cs (tok ")" :: [tok ";"]) s0 0 []);
    [|by apply Forall_forall; intros; apply read_tree|by split|done|done].
  assert (ids_ok s0) as Hi.
  { intros j [node Hj]. simpl in *. apply lookup_singleton_Some in Hj as [<- _]. lia. }
  destruct (add_children_ok cs 0 s0 empty_switch []) as (H1 & Hstk & node & Hnode & He & Hin); try done.
  { apply Forall_forall. intros. apply add_tree_ok. }
  set (s1 := List.fold_left _ _ _) in *. rewrite (topo_close _ _ 0 []) by done. rewrite topo_semi.
  destruct H1 as [Hi1 Hn1 Hc1 He1 _]. simpl in He1.
  rewrite (proj2 (Z.eqb_neq _ _)) by (simpl in *; lia). cbn [andb]. eexists. split_and!; [reflexivity| |simpl in *; lia].
  rewrite built_Node. exists node. split_and!; [done|lia|simpl in *; lia|done|].
  eapply inner_frame; [| |done|exact Hin]; simpl; lia.
Qed.

(** Three expanders below two switches: (1,(2,3));. *)
Definition ex_children : list tree := [Leaf 1; Node [Leaf 2; Leaf 3]].

Lemma construct_roundtrip_witness :
  text_of (Node ex_children) ++ tok ";" = tok "(1,(2,3));" ∧
  ∃ s', construct_topo (text_of (Node ex_children) ++ tok ";") (Topo_new [true; true; true]) = (None, s') ∧
    built (tp_switches s') 0 (tp_num_switches s') (Node ex_children) 0 ∧ tp_endpoints s' = num_leaves (Node ex_children).
Proof.
  split; [reflexivity|]. apply (construct_roundtrip [true; true; true] ex_children); reflexivity.
Defined.

(** Whatever the text, and whether or not it is rejected, the construction
    leaves a forest below the controller (children have larger numbers than
    their parent), whose endpoints are all non-null local expanders or
    registered remote ones, and a device map that numbers them from 0 without
    gaps. *)
Theorem construct_valid text s : topo_ok s → topo_ok (construct_topo text s).2.
Proof.
  intros Hs. unfold construct_topo.
  assert (topo_ok (begin_topo s)) as Hb by (refine (topo_ok_fields s _ _ _ _ _ _ _ _ Hs); try done; simpl; set_solver).
  pose proof (topo_loop_ok _ (tokenize text) (begin_topo s) (Nat.le_refl _) Hb) as Hok.
  destruct (topo_loop (tokenize text) (begin_topo s)) as [[e|] s1]; [done|]. by destruct (_ && _).
Qed.

Lemma construct_valid_witness : topo_ok (construct_topo (tok "((1,R:7:0),2,9);") (Topo_new [true; true])).2.
Proof. apply (construct_valid (tok "((1,R:7:0),2,9);") (Topo_new [true; true])). apply Topo_new_ok. Defined.

(** ** Observations *)

(** A remote endpoint inside a child switch is also linked to the controller, so
    a traversal of the tree visits it twice. *)
Theorem remote_linked_twice :
  let s := (construct_topo (tok "(1,(R:7:0));") (Topo_new [true])).2 in
  sn_expanders <$> tp_switches s !! 0 = Some [Local 0; RemoteEp 1 7 7516192768 1073741824] ∧
  sn_expanders <$> tp_switches s !! 1 = Some [RemoteEp 1 7 7516192768 1073741824].
Proof. vm_compute. done. Qed.

(** Missing closing parentheses are not reported. *)
Theorem unclosed_accepted : (construct_topo (tok "((1,(2") (Topo_new [true; true])).1 = None.
Proof. vm_compute. done. Qed.
