(* ===== verification/Pooling.v ===== *)
(** * Capacity pooling in the controller and the server

    Models the part of [CXLController] (src/cxlcontroller.cpp) that owns the
    dynamic capacity device and the fabric device, and the requests of
    [ThreadPerConnectionServer] (src/main_server.cc) that reach it: the
    capacity management operations and [check_fabric_access], which every
    memory request passes.

    The fabric device keeps a raw pointer to the capacity device.  The program
    enables capacity before the fabric, once; enabling it again would leave
    that pointer dangling, which [enable_dcd] shows as [None]. *)

From stdpp Require Import pretty.
From S2P Require Import Prelude Float64 Dcd Gfam.

(** ** The controller *)

Record CapacityPool := {
  cp_expanders : list Z;                    (** [capacity] of each entry of [cur_expanders] *)
  cp_capacity : Z;
  cp_dramlatency : f64;
  cp_dcd : option DynamicCapacityDevice;
  cp_gfam : option GFAMDevice
}.

Definition set_dcd (d : DynamicCapacityDevice) (c : CapacityPool) : CapacityPool :=
  {| cp_expanders := cp_expanders c; cp_capacity := cp_capacity c; cp_dramlatency := cp_dramlatency c;
     cp_dcd := Some d; cp_gfam := cp_gfam c |}.

Definition set_gfam (g : GFAMDevice) (c : CapacityPool) : CapacityPool :=
  {| cp_expanders := cp_expanders c; cp_capacity := cp_capacity c; cp_dramlatency := cp_dramlatency c;
     cp_dcd := cp_dcd c; cp_gfam := Some g |}.

Definition enable_dcd (total_capacity_bytes granularity_bytes initial_capacity_bytes initial_tag : Z)
    (c : CapacityPool) : option CapacityPool :=
  match cp_gfam c with
  | Some _ => None
  | None =>
      let d := DynamicCapacityDevice_new total_capacity_bytes granularity_bytes in
      let d1 := if 0 <? initial_capacity_bytes
                then (add_capacity d 0 (Z.min initial_capacity_bytes total_capacity_bytes) initial_tag 0).2 else d in
      Some (set_dcd d1 c)
  end.

Definition dcd_add_capacity (requested_base size tag timestamp : Z) (c : CapacityPool)
    : DCDAllocationResult * CapacityPool :=
  match cp_dcd c with
  | None => ({| da_status := INVALID_REQUEST; da_base := 0; da_size := 0; da_tag := tag |}, c)
  | Some d => let '(r, d1) := add_capacity d requested_base size tag timestamp in (r, set_dcd d1 c)
  end.

Definition dcd_release_capacity (base size tag timestamp : Z) (c : CapacityPool) : DCDStatus * CapacityPool :=
  match cp_dcd c with
  | None => (INVALID_REQUEST, c)
  | Some d =>
      let '(status, d1) := release_capacity d base size tag timestamp in
      let c1 := set_dcd d1 c in
      match status, cp_gfam c with
      | OK, Some g => (status, set_gfam (revoke_extent g base size) c1)
      | _, _ => (status, c1)
      end
  end.

Definition dcd_is_allocated (c : CapacityPool) (addr size : Z) : bool :=
  match cp_dcd c with None => true | Some d => is_allocated d addr size end.

Definition get_dcd_stats (c : CapacityPool) : DCDStats :=
  match cp_dcd c with
  | None => {| ds_total_capacity := 0; ds_allocated_capacity := 0; ds_free_capacity := 0; ds_active_extents := 0;
               ds_allocation_requests := 0; ds_release_requests := 0; ds_failed_requests := 0 |}
  | Some d => Dcd.stats d
  end.

Definition MB : Z := 1048576.

(** The capacity that [enable_gfam] gives to a device of its own. *)
Definition total_bytes (c : CapacityPool) : Z :=
  let t := foldl (λ acc cap, acc +w (u64 cap *w MB)) 0 (cp_expanders c) in
  if t =? 0 then u64 (cp_capacity c) *w MB else t.

Definition register_hosts (num_hosts : Z) (g : GFAMDevice) : GFAMDevice :=
  foldl (λ g host, register_host g host (String.append "host" (pretty host))) g (seqZ 0 num_hosts).

Definition grant_extents (d : DynamicCapacityDevice) (num_hosts : Z) (g : GFAMDevice) : GFAMDevice :=
  foldl (λ g extent,
    foldl (λ g host, (grant_access (Some d) g host (de_base extent) (de_size extent) DCD_PERM_ALL).2) g (seqZ 0 num_hosts))
    g (active_extents d).

Definition enable_gfam (num_hosts : Z) (fabric_latency_ns bandwidth_gbps : f64) (c : CapacityPool) : option CapacityPool :=
  c1 ← (match cp_dcd c with
        | None => enable_dcd (total_bytes c) MB (total_bytes c) 1 c
        | Some _ => Some c
        end);
  d ← cp_dcd c1;
  Some (set_gfam (grant_extents d num_hosts (register_hosts num_hosts (GFAMDevice_new fabric_latency_ns bandwidth_gbps))) c1).

Definition gfam_grant_access (host_id base size permissions : Z) (c : CapacityPool) : DCDStatus * CapacityPool :=
  match cp_gfam c with
  | None => (INVALID_REQUEST, c)
  | Some g => let '(s, g1) := grant_access (cp_dcd c) g host_id base size permissions in (s, set_gfam g1 c)
  end.

Definition gfam_revoke_access (host_id base size : Z) (c : CapacityPool) : DCDStatus * CapacityPool :=
  match cp_gfam c with
  | None => (INVALID_REQUEST, c)
  | Some g => let '(s, g1) := revoke_access g host_id base size in (s, set_gfam g1 c)
  end.

Definition gfam_record_access `{CastUB} (host_id addr size : Z) (is_write is_atomic : bool) (timestamp : Z)
    (c : CapacityPool) : GFAMAccessResult * CapacityPool :=
  match cp_gfam c with
  | None => ({| ga_allowed := true; ga_status := OK; ga_latency_ns := f0 |}, c)
  | Some g =>
      let '(r, g1) := record_access (cp_dcd c) g host_id addr size is_write is_atomic timestamp in (r, set_gfam g1 c)
  end.

Definition get_gfam_stats (c : CapacityPool) : GFAMStats :=
  match cp_gfam c with
  | None => {| gs_hosts := 0; gs_mappings := 0; gs_shared_mappings := 0; gs_read_ops := 0; gs_write_ops := 0;
               gs_atomic_ops := 0; gs_denied_accesses := 0; gs_avg_access_latency_ns := f0 |}
  | Some g => Gfam.stats g
  end.

(** ** The server *)

Definition OP_DCD_ADD : Z := 8.
Definition OP_DCD_RELEASE : Z := 9.
Definition OP_DCD_QUERY : Z := 10.
Definition OP_GFAM_MAP : Z := 11.
Definition OP_GFAM_UNMAP : Z := 12.
Definition OP_GFAM_QUERY : Z := 13.

Record ServerRequest := {
  rq_op_type : Z; rq_addr : Z; rq_size : Z; rq_timestamp : Z; rq_value : Z; rq_expected : Z; rq_data : list Z
}.

(** [sr_data] is the 64-byte buffer. *)
Record ServerResponse := { sr_status : Z; sr_latency_ns : Z; sr_old_value : Z; sr_data : list Z }.

Definition status_code (s : DCDStatus) : Z :=
  match s with
  | OK => 0 | OUT_OF_CAPACITY => 1 | OVERLAP => 2 | NOT_FOUND => 3 | INVALID_REQUEST => 4 | ACCESS_DENIED => 5
  end.

(** [write_u64]: nothing happens past the end of the buffer. *)
Definition write_u64 (offset value : Z) (data : list Z) : list Z :=
  if offset + 8 <=? 64 then take (Z.to_nat offset) data ++ le_encode 8 value ++ drop (Z.to_nat (offset + 8)) data else data.

(** The first word of the response survives the second. *)
Lemma write_u64_first size tag data : le_decode (take 8 (write_u64 8 tag (write_u64 0 size data))) = u64 size.
Proof.
  unfold write_u64. simpl (0 + 8 <=? 64). simpl (8 + 8 <=? 64). cbn iota. rewrite <- le_word. f_equal.
Qed.

Definition is_capacity_management_op (op_type : Z) : bool :=
  (op_type =? OP_DCD_ADD) || (op_type =? OP_DCD_RELEASE) || (op_type =? OP_DCD_QUERY) || (op_type =? OP_GFAM_MAP) ||
  (op_type =? OP_GFAM_UNMAP) || (op_type =? OP_GFAM_QUERY).

(** The body of [handle_capacity_management_request], on the response it returns. *)
Definition handle_capacity_management_request `{CastUB} (thread_id : Z) (req : ServerRequest) (data : list Z)
    (c : CapacityPool) : ServerResponse * CapacityPool :=
  let lat := f64_to_u64 (cp_dramlatency c) in
  let resp s o d := {| sr_status := s; sr_latency_ns := lat; sr_old_value := o; sr_data := d |} in
  if rq_op_type req =? OP_DCD_ADD then
    let '(result, c1) := dcd_add_capacity (rq_addr req) (rq_size req) (rq_value req) (rq_timestamp req) c in
    let c2 := match da_status result, cp_gfam c1 with
              | OK, Some _ => (gfam_grant_access (u32 thread_id) (da_base result) (da_size result) DCD_PERM_ALL c1).2
              | _, _ => c1
              end in
    (resp (status_code (da_status result)) (da_base result)
       (write_u64 8 (da_tag result) (write_u64 0 (da_size result) data)), c2)
  else if rq_op_type req =? OP_DCD_RELEASE then
    let '(status, c1) := dcd_release_capacity (rq_addr req) (rq_size req) (rq_value req) (rq_timestamp req) c in
    (resp (status_code status) 0 data, c1)
  else if rq_op_type req =? OP_DCD_QUERY then
    let st := get_dcd_stats c in
    (resp 0 (ds_allocated_capacity st)
       (write_u64 24 (ds_failed_requests st) (write_u64 16 (ds_active_extents st)
          (write_u64 8 (ds_free_capacity st) (write_u64 0 (ds_total_capacity st) data)))), c)
  else if rq_op_type req =? OP_GFAM_MAP then
    let permissions := if rq_expected req =? 0 then DCD_PERM_ALL else u32 (rq_expected req) in
    let '(status, c1) := gfam_grant_access (u32 (rq_value req)) (rq_addr req) (rq_size req) permissions c in
    (resp (status_code status) 0 data, c1)
  else if rq_op_type req =? OP_GFAM_UNMAP then
    let '(status, c1) := gfam_revoke_access (u32 (rq_value req)) (rq_addr req) (rq_size req) c in
    (resp (status_code status) 0 data, c1)
  else if rq_op_type req =? OP_GFAM_QUERY then
    let st := get_gfam_stats c in
    (resp 0 (gs_hosts st)
       (write_u64 48 (f64_to_u64 (gs_avg_access_latency_ns st)) (write_u64 40 (gs_denied_accesses st)
          (write_u64 32 (gs_atomic_ops st) (write_u64 24 (gs_write_ops st) (write_u64 16 (gs_read_ops st)
             (write_u64 8 (gs_shared_mappings st) (write_u64 0 (gs_mappings st) data))))))), c)
  else (resp (status_code INVALID_REQUEST) 0 data, c).

(** The fabric latency, or the status of the refusal. *)
Definition check_fabric_access `{CastUB} (thread_id : Z) (req : ServerRequest) (is_write is_atomic : bool)
    (c : CapacityPool) : (f64 + DCDStatus) * CapacityPool :=
  if negb (dcd_is_allocated c (rq_addr req) (rq_size req)) then (inr NOT_FOUND, c)
  else
    let '(access, c1) :=
      gfam_record_access (u32 thread_id) (rq_addr req) (rq_size req) is_write is_atomic (rq_timestamp req) c in
    if ga_allowed access then (inl (ga_latency_ns access), c1) else (inr (ga_status access), c1).

(** ** Well-formedness and histories *)

Record pool_inv (c : CapacityPool) : Prop := {
  pi_dcd : ∀ d, cp_dcd c = Some d → dcd_inv d;
  pi_gfam : ∀ g, cp_gfam c = Some g → gfam_inv g;
  pi_order : is_Some (cp_gfam c) → is_Some (cp_dcd c)
}.

Definition req_ok (req : ServerRequest) : Prop := is_u64 (rq_addr req) ∧ is_u64 (rq_size req).

(** Start-up, then requests of any clients. *)
Inductive pool_step `{CastUB} (c : CapacityPool) : CapacityPool → Prop :=
  | pool_enable_dcd total gran initial tag c' :
      is_u64 total → is_u64 gran → is_u64 initial → enable_dcd total gran initial tag c = Some c' → pool_step c c'
  | pool_enable_gfam hosts lat bw c' : enable_gfam hosts lat bw c = Some c' → pool_step c c'
  | pool_manage thread req data :
      req_ok req → pool_step c (handle_capacity_management_request thread req data c).2
  | pool_access thread req w a : req_ok req → pool_step c (check_fabric_access thread req w a c).2.

Definition CapacityPool_new (expanders : list Z) (capacity : Z) (dramlatency : f64) : CapacityPool :=
  {| cp_expanders := expanders; cp_capacity := capacity; cp_dramlatency := dramlatency; cp_dcd := None; cp_gfam := None |}.

(** ** Lemmas: the invariant *)

Lemma foldl_inv {A B} (P : B → Prop) (f : B → A → B) l b :
  P b → (∀ b a, a ∈ l → P b → P (f b a)) → P (foldl f b l).
Proof.
  revert b. induction l as [|a l IH]; intros b Hb Hf; simpl; [done|].
  apply IH; [apply Hf; set_solver|]. intros b' a' Ha. apply Hf. set_solver.
Qed.

Lemma set_dcd_inv d c : pool_inv c → dcd_inv d → pool_inv (set_dcd d c).
Proof. intros [Hd Hg Ho] H. split; simpl; [by intros ? [= <-]|done|by eexists]. Qed.

Lemma set_gfam_inv g c : pool_inv c → gfam_inv g → is_Some (cp_dcd c) → pool_inv (set_gfam g c).
Proof. intros [Hd Hg Ho] H Hs. split; simpl; [done|by intros ? [= <-]|done]. Qed.

Lemma extent_u64 d e : dcd_inv d → e ∈ active_extents d → is_u64 (de_base e) ∧ is_u64 (de_size e).
Proof.
  intros Hi He%active_extents_elem. pose proof (inv_total d Hi). destruct (inv_extents d Hi e He) as (?&?&?&_).
  unfold is_u64 in *. lia.
Qed.

Lemma register_hosts_inv n g : gfam_inv g → gfam_inv (register_hosts n g).
Proof. intros Hg. unfold register_hosts. apply (foldl_inv gfam_inv); [done|]. intros. by apply register_host_inv. Qed.

Lemma grant_extents_inv d n g : dcd_inv d → gfam_inv g → gfam_inv (grant_extents d n g).
Proof.
  intros Hd Hg. unfold grant_extents. apply (foldl_inv gfam_inv); [done|]. intros g1 e He Hg1. apply extent_u64 in He as [??]; [|done].
  apply (foldl_inv gfam_inv); [done|]. intros g2 host _ Hg2. by apply (grant_access_inv (Some d)).
Qed.

Lemma enable_dcd_inv total gran initial tag c c' :
  pool_inv c → is_u64 total → is_u64 gran → is_u64 initial → enable_dcd total gran initial tag c = Some c' → pool_inv c'.
Proof.
  intros Hc Ht Hg Hi He. unfold enable_dcd in He. destruct (cp_gfam c); [done|]. simplify_eq.
  pose proof (dcd_new_inv total gran Ht Hg) as Hn. apply set_dcd_inv; [done|]. destruct (0 <? initial); [|done].
  eapply dcd_step_inv; [exact Hn|]. apply step_add; unfold is_u64 in *; lia.
Qed.

Lemma enable_gfam_inv n lat bw c c' : pool_inv c → enable_gfam n lat bw c = Some c' → pool_inv c'.
Proof.
  intros Hc He. unfold enable_gfam in He.
  destruct (match cp_dcd c with None => _ | Some _ => _ end) as [c1|] eqn:E1; simpl in He; [|done].
  assert (pool_inv c1) as Hc1.
  { destruct (cp_dcd c); [by simplify_eq|]. assert (is_u64 (total_bytes c)) as Ht.
    { unfold total_bytes. case_match; [apply u64_range|]. apply (foldl_inv is_u64); [done|]. intros. apply u64_range. }
    by eapply enable_dcd_inv; [| | | |exact E1]. }
  destruct (cp_dcd c1) as [d|] eqn:Ed; simpl in He; [|done]. simplify_eq.
  pose proof (pi_dcd c1 Hc1 d Ed) as Hd. apply set_gfam_inv; [done| |by rewrite Ed].
  apply grant_extents_inv; [done|]. apply register_hosts_inv, GFAMDevice_new_inv.
Qed.

Lemma dcd_add_inv base size tag ts c :
  pool_inv c → is_u64 base → is_u64 size → pool_inv (dcd_add_capacity base size tag ts c).2.
Proof.
  intros Hc Hb Hs. unfold dcd_add_capacity. destruct (cp_dcd c) as [d|] eqn:Ed; [|done].
  pose proof (dcd_step_inv d _ (pi_dcd c Hc d Ed) (step_add d base size tag ts Hb Hs)) as Hd.
  destruct (add_capacity d base size tag ts) as [r d1]. by apply set_dcd_inv.
Qed.

Lemma dcd_release_inv base size tag ts c :
  pool_inv c → is_u64 base → is_u64 size → pool_inv (dcd_release_capacity base size tag ts c).2.
Proof.
  intros Hc Hb Hs. unfold dcd_release_capacity. destruct (cp_dcd c) as [d|] eqn:Ed; [|done].
  pose proof (dcd_step_inv d _ (pi_dcd c Hc d Ed) (step_release d base size tag ts Hb Hs)) as Hd.
  destruct (release_capacity d base size tag ts) as [st d1]. simpl in Hd.
  assert (pool_inv (set_dcd d1 c)) as H1 by by apply set_dcd_inv.
  destruct (cp_gfam c) as [g|] eqn:Eg; [|by destruct st]. destruct st; try done.
  apply set_gfam_inv; [done|by apply revoke_extent_inv, Hc|by eexists].
Qed.

Lemma gfam_grant_inv host base size perms c :
  pool_inv c → is_u64 base → is_u64 size → pool_inv (gfam_grant_access host base size perms c).2.
Proof.
  intros Hc Hb Hs. unfold gfam_grant_access. destruct (cp_gfam c) as [g|] eqn:Eg; [|done].
  pose proof (pi_order c Hc ltac:(by eexists)) as Hd.
  assert (dcd_ok (cp_dcd c)) as Hok by (destruct (cp_dcd c) eqn:Ed; [by apply (pi_dcd c Hc)|done]).
  pose proof (grant_access_inv (cp_dcd c) g host base size perms Hok Hb Hs (pi_gfam c Hc g Eg)) as Hg.
  destruct (grant_access _ _ _ _ _ _) as [st g1]. by apply set_gfam_inv.
Qed.

Lemma gfam_record_inv `{CastUB} host addr size w a ts c :
  pool_inv c → pool_inv (gfam_record_access host addr size w a ts c).2.
Proof.
  intros Hc. unfold gfam_record_access. destruct (cp_gfam c) as [g|] eqn:Eg; [|done].
  pose proof (pi_order c Hc ltac:(by eexists)) as Hd.
  pose proof (record_access_inv (cp_dcd c) g host addr size w a ts (pi_gfam c Hc g Eg)) as Hg.
  destruct (record_access _ _ _ _ _ _ _ _) as [st g1]. by apply set_gfam_inv.
Qed.

Lemma manage_inv `{CastUB} thread req data c :
  pool_inv c → req_ok req → pool_inv (handle_capacity_management_request thread req data c).2.
Proof.
  intros Hc [Ha Hs]. unfold handle_capacity_management_request.
  destruct (_ =? OP_DCD_ADD).
  { pose proof (dcd_add_inv (rq_addr req) (rq_size req) (rq_value req) (rq_timestamp req) c Hc Ha Hs) as H1.
    destruct (dcd_add_capacity _ _ _ _ c) as [r c1] eqn:E. simpl in H1. simpl.
    destruct (da_status r) eqn:Est; try done. destruct (cp_gfam c1); [|done].
    unfold dcd_add_capacity in E. destruct (cp_dcd c) as [d|] eqn:Ed; [|by simplify_eq].
    pose proof (add_capacity_cases d _ _ (rq_value req) (rq_timestamp req) (pi_dcd c Hc d Ed) Ha Hs) as Ho.
    destruct (add_capacity _ _ _ _ _) as [r1 d1]. simplify_eq.
    destruct Ho as [(_ & _ & H2 & H3 & H4 & _)|[? _]]; [|done].
    pose proof (inv_total d (pi_dcd c Hc d Ed)). apply gfam_grant_inv; [done|unfold is_u64 in *; lia..]. }
  destruct (_ =? OP_DCD_RELEASE).
  { pose proof (dcd_release_inv (rq_addr req) (rq_size req) (rq_value req) (rq_timestamp req) c Hc Ha Hs) as H1.
    by destruct (dcd_release_capacity _ _ _ _ c). }
  destruct (_ =? OP_DCD_QUERY); [done|]. destruct (_ =? OP_GFAM_MAP).
  { pose proof (gfam_grant_inv (u32 (rq_value req)) (rq_addr req) (rq_size req)
      (if rq_expected req =? 0 then DCD_PERM_ALL else u32 (rq_expected req)) c Hc Ha Hs) as H1.
    by destruct (gfam_grant_access _ _ _ _ c). }
  destruct (_ =? OP_GFAM_UNMAP); [|by destruct (_ =? OP_GFAM_QUERY)].
  unfold gfam_revoke_access. destruct (cp_gfam c) as [g|] eqn:Eg; [|done].
  pose proof (revoke_access_inv g (u32 (rq_value req)) (rq_addr req) (rq_size req) (pi_gfam c Hc g Eg)) as Hg.
  destruct (revoke_access _ _ _ _) as [st g1]. apply set_gfam_inv; [done|done|]. apply Hc. by rewrite Eg.
Qed.

Lemma access_inv `{CastUB} thread req w a c : pool_inv c → pool_inv (check_fabric_access thread req w a c).2.
Proof.
  intros Hc. unfold check_fabric_access. destruct (negb _); [done|].
  pose proof (gfam_record_inv (u32 thread) (rq_addr req) (rq_size req) w a (rq_timestamp req) c Hc) as H1.
  destruct (gfam_record_access _ _ _ _ _ _ c) as [r c1]. by destruct (ga_allowed r).
Qed.

Lemma pool_new_inv es cap lat : pool_inv (CapacityPool_new es cap lat).
Proof. split; simpl; try done; by intros [??]. Qed.

Lemma pool_reachable_inv `{CastUB} es cap lat c :
  rtc pool_step (CapacityPool_new es cap lat) c → pool_inv c.
Proof.
  intros Hr. pose proof (pool_new_inv es cap lat) as H0. revert H0.
  induction Hr as [|c1 c2 c3 H12 _ IH]; [done|]. intros H1. apply IH.
  destruct H12 as [total gran initial tag c2 Ht Hg Hi He|hosts lt bw c2 He|thread req data Hq|thread req w a Hq].
  - by apply (enable_dcd_inv total gran initial tag c1).
  - by apply (enable_gfam_inv hosts lt bw c1).
  - by apply manage_inv.
  - by apply access_inv.
Qed.

(** *** Ranges without capacity *)

(** No active extent touches the bytes from [lo] to [hi]. *)
Definition closed (lo hi : Z) (d : DynamicCapacityDevice) : Prop :=
  ∀ e, e ∈ keep de_active (dcd_extents d) → de_base e + de_size e <= lo ∨ hi <= de_base e.

(** Requests of any clients that add no capacity between [lo] and [hi]. *)
Inductive request_elsewhere `{CastUB} (lo hi : Z) (c : CapacityPool) : CapacityPool → Prop :=
  | elsewhere_manage thread req data :
      req_ok req →
      (rq_op_type req = OP_DCD_ADD →
       let r := (dcd_add_capacity (rq_addr req) (rq_size req) (rq_value req) (rq_timestamp req) c).1 in
       da_status r = OK → da_base r + da_size r <= lo ∨ hi <= da_base r) →
      request_elsewhere lo hi c (handle_capacity_management_request thread req data c).2
  | elsewhere_access thread req w a : req_ok req → request_elsewhere lo hi c (check_fabric_access thread req w a c).2.

(** After a release nothing of the released range is allocated. *)
Lemma release_closes d base size tag ts d' :
  dcd_inv d → release_capacity d base size tag ts = (OK, d') → closed base (base + request_size d size) d'.
Proof.
  intros Hi Hr x Hx. pose proof (release_capacity_cases d base size tag ts) as Hc. rewrite Hr in Hc.
  destruct Hc as [(_ & l1 & e & l2 & He & Hact & Heb & Hes & Hd)|[? _]]; [|done].
  pose proof (inv_apart d Hi) as Hap. rewrite He, keep_app, keep_cons, Hact, pairwise_app in Hap.
  destruct Hap as (_ & [Hap2 _] & Hap4). rewrite Hd in Hx. simpl in Hx. rewrite keep_app, keep_cons in Hx. simpl in Hx.
  assert (extents_apart e x) as Hax.
  { apply elem_of_app in Hx as [Hx|Hx]; [apply extents_apart_sym, Hap4; set_solver|by apply Hap2]. }
  unfold extents_apart in Hax. lia.
Qed.

Lemma release_keeps_closed lo hi d base size tag ts : closed lo hi d → closed lo hi (release_capacity d base size tag ts).2.
Proof.
  intros Hc. pose proof (release_capacity_cases d base size tag ts) as Ho. destruct (release_capacity d base size tag ts) as [st d'].
  destruct Ho as [(_ & l1 & e & l2 & He & Hact & _ & _ & ->)|[_ ->]]; [|done]. intros x Hx. apply Hc. rewrite He. cbn [set_extents dcd_extents count_release snd] in Hx.
  rewrite keep_app, keep_cons in *. cbn [deactivate de_active] in Hx. rewrite Hact. set_solver.
Qed.

Lemma add_keeps_closed lo hi d base size tag ts :
  dcd_inv d → is_u64 base → is_u64 size → closed lo hi d →
  (let r := (add_capacity d base size tag ts).1 in da_status r = OK → da_base r + da_size r <= lo ∨ hi <= da_base r) →
  closed lo hi (add_capacity d base size tag ts).2.
Proof.
  intros Hi Hb Hs Hc Hr. pose proof (add_capacity_cases d base size tag ts Hi Hb Hs) as Ho. destruct (add_capacity d base size tag ts) as [r d'].
  cbn [fst snd] in *. destruct Ho as [(Hok & _ & _ & _ & _ & _ & _ & next & ->)|[_ ->]]; [|done].
  intros x Hx. cbn [set_extents dcd_extents count_request snd] in Hx. rewrite keep_app, elem_of_app, keep_cons in Hx. destruct Hx as [Hx|Hx]; [by apply Hc|].
  cbn [de_active] in Hx. apply list_elem_of_singleton in Hx as ->. by apply Hr.
Qed.

(** The pool has a capacity device that is closed between [lo] and [hi]. *)
Definition pool_closed (lo hi : Z) (c : CapacityPool) : Prop := ∃ d, cp_dcd c = Some d ∧ closed lo hi d.

Lemma grant_dcd host base size perms c : cp_dcd (gfam_grant_access host base size perms c).2 = cp_dcd c.
Proof. unfold gfam_grant_access. destruct (cp_gfam c); [|done]. by destruct (grant_access _ _ _ _ _ _). Qed.

Lemma access_dcd `{CastUB} thread req w a c : cp_dcd (check_fabric_access thread req w a c).2 = cp_dcd c.
Proof.
  unfold check_fabric_access, gfam_record_access. destruct (negb _); [done|]. destruct (cp_gfam c) as [g|]; [|done].
  destruct (record_access _ _ _ _ _ _ _ _) as [r g1]. by destruct (ga_allowed r).
Qed.

Lemma manage_closed `{CastUB} lo hi thread req data c :
  pool_inv c → req_ok req → pool_closed lo hi c →
  (rq_op_type req = OP_DCD_ADD →
   let r := (dcd_add_capacity (rq_addr req) (rq_size req) (rq_value req) (rq_timestamp req) c).1 in
   da_status r = OK → da_base r + da_size r <= lo ∨ hi <= da_base r) →
  pool_closed lo hi (handle_capacity_management_request thread req data c).2.
Proof.
  intros Hi [Ha Hs] (d & Hd & Hc) Hadd. unfold handle_capacity_management_request.
  destruct (Z.eqb_spec (rq_op_type req) OP_DCD_ADD) as [Hop|_].
  { specialize (Hadd Hop). unfold dcd_add_capacity in *. rewrite Hd in *.
    pose proof (add_keeps_closed lo hi d _ _ (rq_value req) (rq_timestamp req) (pi_dcd c Hi d Hd) Ha Hs Hc) as H1.
    destruct (add_capacity _ _ _ _ _) as [r d1]. cbn [fst snd] in *. exists d1. split; [|by apply H1].
    destruct (da_status r), (cp_gfam (set_dcd d1 c)); cbn [snd]; by rewrite ?grant_dcd. }
  destruct (_ =? OP_DCD_RELEASE).
  { unfold dcd_release_capacity. rewrite Hd. pose proof (release_keeps_closed lo hi d (rq_addr req) (rq_size req) (rq_value req) (rq_timestamp req) Hc) as H1.
    destruct (release_capacity _ _ _ _ _) as [st d1]. exists d1. by destruct st, (cp_gfam c). }
  destruct (_ =? OP_DCD_QUERY); [by exists d|]. destruct (_ =? OP_GFAM_MAP).
  { match goal with |- context [gfam_grant_access ?h ?b ?z ?p c] => pose proof (grant_dcd h b z p c) as H1; destruct (gfam_grant_access h b z p c) as [st c1] end.
    cbn in *. exists d. by rewrite H1. }
  destruct (_ =? OP_GFAM_UNMAP); [|by destruct (_ =? OP_GFAM_QUERY); exists d].
  unfold gfam_revoke_access. destruct (cp_gfam c); [|by exists d]. destruct (revoke_access _ _ _ _). by exists d.
Qed.

Lemma elsewhere_inv `{CastUB} lo hi c c' :
  rtc (request_elsewhere lo hi) c c' → pool_inv c → pool_closed lo hi c → pool_inv c' ∧ pool_closed lo hi c'.
Proof.
  induction 1 as [|c1 c2 c3 H12 _ IH]; [done|]. intros Hi Hc. destruct H12 as [thread req data Hq Hadd|thread req w a Hq]; apply IH.
  - by apply manage_inv.
  - by apply manage_closed.
  - by apply access_inv.
  - destruct Hc as (d & Hd & Hc). exists d. by rewrite access_dcd.
Qed.

(** A request that touches a closed range is refused. *)
Lemma closed_refuses `{CastUB} lo hi c thread req w a :
  pool_inv c → pool_closed lo hi c → req_ok req → rq_addr req < hi → lo < rq_addr req + rq_size req →
  check_fabric_access thread req w a c = (inr NOT_FOUND, c).
Proof.
  intros Hi (d & Hd & Hc) [Ha Hs] H1 H2. unfold check_fabric_access, dcd_is_allocated. rewrite Hd.
  assert (is_allocated d (rq_addr req) (rq_size req) = false) as ->; [|done].
  apply not_true_iff_false. rewrite is_allocated_iff by (done || by apply Hi). intros (Hpos & x & Hx & Hx1 & Hx2). specialize (Hc x Hx). lia.
Qed.

(** A successful add: every part of the new range is allocated. *)
Lemma add_allocates d base size tag ts r d1 :
  dcd_inv d → is_u64 base → is_u64 size → add_capacity d base size tag ts = (r, d1) → da_status r = OK →
  dcd_inv d1 ∧ is_u64 (da_base r) ∧ is_u64 (da_size r) ∧ 0 < da_size r ∧
  ∀ addr n, is_u64 addr → is_u64 n → 0 < n → da_base r <= addr → addr + n <= da_base r + da_size r →
    is_allocated d1 addr n = true.
Proof.
  intros Hd Hb Hs Ha Hok. pose proof (add_capacity_cases d base size tag ts Hd Hb Hs) as Ho.
  pose proof (dcd_step_inv d _ Hd (step_add d base size tag ts Hb Hs)) as Hd1. rewrite Ha in Ho, Hd1. simpl in Hd1.
  destruct Ho as [(_ & _ & Hb0 & Hsz0 & Hle & _ & _ & next & He)|[Hne _]]; [|done].
  pose proof (inv_total d Hd) as Ht. unfold is_u64 in Ht. split_and!; [done|unfold is_u64; lia..|done|].
  intros addr n Hau Hnu Hn H1 H2. apply is_allocated_iff; [done..|]. split; [done|]. eexists. split; [|split].
  - rewrite He, elem_of_keep. simpl. split; [|apply elem_of_app; right; by apply list_elem_of_singleton]. done.
  - done.
  - done.
Qed.

(** A mapping of the whole range with all permissions lets its host in. *)
Lemma mapped_check dcd g id base size addr n w a :
  is_u64 base → is_u64 size → is_u64 addr → is_u64 n →
  {| gm_host_id := id; gm_base := base; gm_size := size; gm_permissions := DCD_PERM_ALL |} ∈ gf_mappings g →
  host_is_active g id = true → dcd_allocated dcd addr n = true → 0 < n → base <= addr → addr + n <= base + size →
  check_access (D := DynamicCapacityDevice) dcd g id addr n w a = true.
Proof.
  intros Hb Hs Ha Hn Hm Hact Hal Hpos H1 H2. unfold check_access. rewrite Hal, Hact. simpl.
  apply existsb_exists_iff. eexists. split; [exact Hm|]. unfold mapping_allows, mapping_covers. simpl.
  rewrite Z.eqb_refl, (proj2 (range_contains_iff base size addr n Hb Hs Ha Hn)) by lia. by destruct w, a.
Qed.

(** The range lies in one active extent, and the host is active and mapped to all of
    it with the permissions of the operation. *)
Definition authorised (c : CapacityPool) (thread addr size : Z) (w a : bool) : Prop :=
  (∀ d, cp_dcd c = Some d → ∃ e, e ∈ keep de_active (dcd_extents d) ∧
     de_base e <= addr ∧ addr + size <= de_base e + de_size e) ∧
  (∀ g, cp_gfam c = Some g → host_is_active g (u32 thread) = true ∧
     ∃ m, m ∈ gf_mappings g ∧ gm_host_id m = u32 thread ∧ gm_base m <= addr ∧
       addr + size <= gm_base m + gm_size m ∧
       Z.land (gm_permissions m) (required_permissions w a) = required_permissions w a).

Lemma check_authorised `{CastUB} c thread req w a l c' :
  pool_inv c → req_ok req → check_fabric_access thread req w a c = (inl l, c') →
  authorised c thread (rq_addr req) (rq_size req) w a.
Proof.
  intros Hi [Ha Hs] Hc. unfold check_fabric_access in Hc.
  destruct (dcd_is_allocated c (rq_addr req) (rq_size req)) eqn:Hal; simpl in Hc; [|done]. split.
  - intros d Hd. unfold dcd_is_allocated in Hal. rewrite Hd in Hal.
    apply is_allocated_iff in Hal as (_ & e & ? & ? & ?); [eauto|by apply Hi|done..].
  - intros g Hg. unfold gfam_record_access in Hc. rewrite Hg in Hc.
    pose proof (record_access_cases (cp_dcd c) g (u32 thread) (rq_addr req) (rq_size req) w a (rq_timestamp req)) as Hrc.
    destruct (record_access _ _ _ _ _ _ _ _) as [r g1].
    destruct Hrc as [[_ [= -> _]]|(Hck & _)]; [by simplify_eq/=|].
    unfold check_access in Hck. destruct (dcd_allocated _ _ _); [|done]. simpl in Hck.
    destruct (host_is_active g (u32 thread)); [|done]. simpl in Hck. split; [done|].
    apply existsb_exists_iff in Hck as (m & Hm & Hall). exists m.
    unfold mapping_allows, mapping_covers in Hall. rewrite !andb_true_iff, Z.eqb_eq in Hall.
    destruct Hall as [[Hh Hcov] Hp]. destruct (gi_mappings g (pi_gfam c Hi g Hg) m Hm) as (_ & Hb & Hz & _).
    rewrite range_contains_iff in Hcov by done. apply Z.eqb_eq in Hp. tauto.
Qed.

(** A refusal carries an error status. *)
Lemma check_refused `{CastUB} c thread req w a st c' :
  check_fabric_access thread req w a c = (inr st, c') → status_code st ≠ 0.
Proof.
  unfold check_fabric_access. destruct (negb _); [by intros [= <- _]|]. unfold gfam_record_access. destruct (cp_gfam c) as [g|]; [|done].
  pose proof (record_access_cases (cp_dcd c) g (u32 thread) (rq_addr req) (rq_size req) w a (rq_timestamp req)) as Hrc.
  destruct (record_access _ _ _ _ _ _ _ _) as [r g1]. destruct Hrc as [[_ [= -> _]]|(_ & -> & _)]; [|done]. by intros [= <- _].
Qed.

(** ** A concrete pool: 1 MB in pages of 4 KB, two hosts *)

#[local] Instance ex_cast : CastUB := λ _, 0.

Definition ex_req (op addr size value : Z) : ServerRequest :=
  {| rq_op_type := op; rq_addr := addr; rq_size := size; rq_timestamp := 5; rq_value := value; rq_expected := 0;
     rq_data := replicate 64 0 |}.

Definition ex_words : list Z := replicate 64 0.
Definition ex_pool0 : CapacityPool := CapacityPool_new [] 1 (f64_of_Z 100).
Definition ex_pool1 : CapacityPool := default ex_pool0 (enable_dcd 1048576 4096 0 1 ex_pool0).
Definition ex_pool2 : CapacityPool := default ex_pool0 (enable_gfam 2 (f64_of_Z 100) (f64_of_Z 32) ex_pool1).

(** Host 1 adds 8000 bytes at a free place, under tag 9. *)
Definition ex_add : ServerRequest := ex_req OP_DCD_ADD UINT64_MAX 8000 9.
Definition ex_pool3 : CapacityPool := (handle_capacity_management_request 1 ex_add ex_words ex_pool2).2.

Definition ex_added : ServerResponse := (handle_capacity_management_request 1 ex_add ex_words ex_pool2).1.
Definition ex_gfam2 : GFAMDevice := default (GFAMDevice_new f0 f0) (cp_gfam ex_pool2).
Definition ex_dcd3 : DynamicCapacityDevice := default (DynamicCapacityDevice_new 0 0) (cp_dcd ex_pool3).

(** Host 0 releases the extent with the size that was asked for. *)
Definition ex_release : ServerRequest := ex_req OP_DCD_RELEASE 0 8000 9.
Definition ex_released : CapacityPool := (handle_capacity_management_request 0 ex_release ex_words ex_pool3).2.

(** Host 1 writes a cache line of it. *)
Definition ex_access : ServerRequest := ex_req 1 64 64 0.
Definition ex_latency : f64 := match (check_fabric_access 1 ex_access true false ex_pool3).1 with inl l => l | inr _ => f0 end.
Definition ex_pool4 : CapacityPool := (check_fabric_access 1 ex_access true false ex_pool3).2.

Lemma ex_pool2_reach : rtc pool_step ex_pool0 ex_pool2.
Proof.
  eapply rtc_l; [|eapply rtc_once].
  - apply (pool_enable_dcd ex_pool0 1048576 4096 0 1 ex_pool1); done.
  - apply (pool_enable_gfam ex_pool1 2 (f64_of_Z 100) (f64_of_Z 32) ex_pool2). vm_compute. reflexivity.
Qed.

Lemma ex_pool3_reach : rtc pool_step ex_pool0 ex_pool3.
Proof. eapply rtc_r; [exact ex_pool2_reach|]. by apply (pool_manage ex_pool2 1 ex_add ex_words). Qed.

(** ** Theorems *)

(** Every memory request that the fabric check lets through, after any history
    of start-up, capacity and memory requests, lies in one active extent of the
    capacity device, and its host is active and mapped to the whole range with
    the permissions of the operation. *)
Theorem fabric_access_safe `{CastUB} es cap lat c thread req w a l c' :
  rtc pool_step (CapacityPool_new es cap lat) c → req_ok req →
  check_fabric_access thread req w a c = (inl l, c') →
  authorised c thread (rq_addr req) (rq_size req) w a.
Proof. intros Hr. apply pool_reachable_inv in Hr as Hi. by apply check_authorised. Qed.

Lemma fabric_access_safe_witness :
  ∃ d, cp_dcd ex_pool3 = Some d ∧ ∃ e, e ∈ keep de_active (dcd_extents d) ∧ de_base e <= 64 ∧ 64 + 64 <= de_base e + de_size e.
Proof.
  assert (req_ok ex_access) as Hq by done.
  assert (check_fabric_access 1 ex_access true false ex_pool3 = (inl ex_latency, ex_pool4)) as E by (vm_compute; reflexivity).
  pose proof (fabric_access_safe [] 1 (f64_of_Z 100) ex_pool3 1 ex_access true false ex_latency ex_pool4
                ex_pool3_reach Hq E) as [H _].
  eexists. split; [|apply H]; vm_compute; reflexivity.
Defined.

(** A client that adds capacity can use it: when the response to an add request
    reports success, every read, write and atomic of that client inside the
    range of the response passes the fabric check. *)
Theorem add_then_access `{CastUB} es cap lat c thread req data resp c1 size g req' w a :
  rtc pool_step (CapacityPool_new es cap lat) c → req_ok req → rq_op_type req = OP_DCD_ADD → length data = 64%nat →
  cp_gfam c = Some g → host_is_active g (u32 thread) = true →
  handle_capacity_management_request thread req data c = (resp, c1) → sr_status resp = 0 → le_decode (take 8 (sr_data resp)) = size →
  req_ok req' → 0 < rq_size req' → sr_old_value resp <= rq_addr req' →
  rq_addr req' + rq_size req' <= sr_old_value resp + size →
  ∃ l c2, check_fabric_access thread req' w a c1 = (inl l, c2).
Proof.
  intros Hr [Ha Hs] Hop Hlen Hg Hact Hh Hst Hsz [Ha' Hs'] Hpos Hlo Hhi. apply pool_reachable_inv in Hr as Hi.
  unfold handle_capacity_management_request in Hh. rewrite Hop in Hh. simpl in Hh. unfold dcd_add_capacity in Hh.
  destruct (pi_order c Hi ltac:(by rewrite Hg)) as [d Hd]. rewrite Hd in Hh. pose proof (pi_dcd c Hi d Hd) as Hdi.
  destruct (add_capacity _ _ _ _ _) as [r d1] eqn:Ea. simpl in Hh.
  destruct (decide (da_status r = OK)) as [Eok|Hne]; [|destruct (da_status r); simplify_eq/=; done].
  apply add_allocates in Ea as (Hd1 & Hbu & Hsu & Hsp & Hal); [|done..].
  rewrite Eok, Hg in Hh. unfold gfam_grant_access in Hh. simpl in Hh. rewrite Hg in Hh.
  pose proof (grant_access_cases (Some d1) g (u32 thread) (da_base r) (da_size r) DCD_PERM_ALL) as Hgc.
  destruct (grant_access _ _ _ _ _ _) as [st g1] eqn:Eg. cbn [fst snd] in Hh. injection Hh as <- <-. cbn [sr_data sr_old_value] in *. subst size.
  rewrite write_u64_first, u64_small in Hhi by done.
  destruct Hgc as [[Hne _]|(_ & _ & _ & _ & Hhosts & Hm & _)].
  { exfalso. apply Hne. unfold grant_access in Eg. simpl in Eg. rewrite Hal, Hact in Eg by (done || lia). simpl in Eg.
    by destruct (update_first _ _ _); simplify_eq. }
  unfold check_fabric_access, dcd_is_allocated, gfam_record_access. simpl. rewrite Hal by done. simpl.
  pose proof (record_access_cases (Some d1) g1 (u32 thread) (rq_addr req') (rq_size req') w a (rq_timestamp req')) as Hrc.
  destruct (record_access _ _ _ _ _ _ _ _) as [r2 g2]. destruct Hrc as [[Hck _]|(_ & -> & _)]; [|eauto].
  rewrite (mapped_check (Some d1) g1 (u32 thread) (da_base r) (da_size r)) in Hck; try done.
  - unfold host_is_active in *. by rewrite Hhosts.
  - simpl. by apply Hal.
Qed.

Lemma add_then_access_witness :
  sr_old_value ex_added = 0 ∧ ∃ l c2, check_fabric_access 1 (ex_req 1 8000 128 0) true false ex_pool3 = (inl l, c2).
Proof.
  split; [by vm_compute|].
  assert (req_ok ex_add) as Hq by done. assert (req_ok (ex_req 1 8000 128 0)) as Hq' by done.
  assert (cp_gfam ex_pool2 = Some ex_gfam2) as Hg by (vm_compute; reflexivity).
  assert (handle_capacity_management_request 1 ex_add ex_words ex_pool2 = (ex_added, ex_pool3)) as Hh by (vm_compute; reflexivity).
  apply (add_then_access [] 1 (f64_of_Z 100) ex_pool2 1 ex_add ex_words ex_added ex_pool3 8192 ex_gfam2 (ex_req 1 8000 128 0)
           true false ex_pool2_reach Hq eq_refl eq_refl Hg ltac:(vm_compute; reflexivity) Hh);
    [vm_compute; reflexivity|vm_compute; reflexivity|exact Hq'|vm_compute; reflexivity|vm_compute; discriminate|vm_compute; discriminate].
Defined.


(** Two extents are added, the first one is released, host 1 maps it in vain and a third
    extent is added behind the second. *)
Definition ex_later : CapacityPool :=
  (handle_capacity_management_request 1 (ex_req OP_DCD_ADD 65536 4096 4) ex_words
    (handle_capacity_management_request 0 (ex_req OP_GFAM_MAP 0 8192 1) ex_words ex_released).2).2.


(** ** Observations *)

(** Host 1 keeps its mapping when the extent is released with the size it asked
    for, not the aligned one; when the capacity is added again by host 0, host 1
    may write to it without having been granted anything. *)
Theorem stale_mapping_regains_access :
  let c := (handle_capacity_management_request 0 (ex_req OP_DCD_ADD 0 8192 7) ex_words ex_released).2 in
  (check_fabric_access 1 (ex_req 1 64 64 0) true false c).1 = inl ex_latency.
Proof. vm_compute. reflexivity. Qed.
