(* ===== verification/ShmRing.v ===== *)
(** * Shared-memory request rings

    Models the request and response traffic of [ShmRingBuffer] and
    [ShmCommunicationManager] (include/shm_communication.h,
    src/shm_communication.cpp): a client process puts requests into its ring,
    the server process takes them out and answers.

    The two processes run concurrently without a lock.  [client_step] and
    [server_step] are the successive accesses of [send_request] and of the
    ring part of [wait_for_request] to the shared memory, one per step; a run
    interleaves them freely, together with arbitrary changes of the response
    fields by the other halves of the protocol.  Atomics are sequentially
    consistent; the copies of a request are single steps, and the theorem
    shows that the two sides never touch the same entry.

    [send_response] and [wait_for_response] are modelled as whole operations.
    [wait_for_request] and [wait_for_response] are the calls with a timeout of 0;
    with another timeout the code repeats them, once or until the time is over,
    after waiting on a semaphore, which carries no data. *)

From S2P Require Import Prelude.

(** ** Data *)

Record ShmRequest := {
  sq_op_type : Z; sq_addr : Z; sq_size : Z; sq_timestamp : Z; sq_value : Z; sq_expected : Z; sq_data : list Z
}.

Record ShmResponse := { sp_status : Z; sp_latency_ns : Z; sp_old_value : Z; sp_data : list Z }.

Record Entry := { request_ready : bool; response_ready : bool; request : ShmRequest; response : ShmResponse }.

Definition RING_SIZE : Z := 1024.

Record ShmRingBuffer := {
  head : Z;
  tail : Z;
  pending_count : Z;
  entries : list Entry;
  total_requests : Z;
  total_responses : Z
}.

(** *** Field updates *)

Definition set_head (h : Z) (r : ShmRingBuffer) : ShmRingBuffer :=
  {| head := h; tail := tail r; pending_count := pending_count r; entries := entries r;
     total_requests := total_requests r; total_responses := total_responses r |}.

Definition set_tail (t : Z) (r : ShmRingBuffer) : ShmRingBuffer :=
  {| head := head r; tail := t; pending_count := pending_count r; entries := entries r;
     total_requests := total_requests r; total_responses := total_responses r |}.

Definition add_pending (k : Z) (r : ShmRingBuffer) : ShmRingBuffer :=
  {| head := head r; tail := tail r; pending_count := u32 (pending_count r + k); entries := entries r;
     total_requests := total_requests r; total_responses := total_responses r |}.

Definition count_request (r : ShmRingBuffer) : ShmRingBuffer :=
  {| head := head r; tail := tail r; pending_count := pending_count r; entries := entries r;
     total_requests := total_requests r +w 1; total_responses := total_responses r |}.

Definition count_response (r : ShmRingBuffer) : ShmRingBuffer :=
  {| head := head r; tail := tail r; pending_count := pending_count r; entries := entries r;
     total_requests := total_requests r; total_responses := total_responses r +w 1 |}.

Definition upd_entry (i : Z) (f : Entry → Entry) (r : ShmRingBuffer) : ShmRingBuffer :=
  {| head := head r; tail := tail r; pending_count := pending_count r;
     entries := alter f (Z.to_nat i) (entries r);
     total_requests := total_requests r; total_responses := total_responses r |}.

Definition put_request (q : ShmRequest) (e : Entry) : Entry :=
  {| request_ready := request_ready e; response_ready := response_ready e; request := q; response := response e |}.
Definition set_request_ready (b : bool) (e : Entry) : Entry :=
  {| request_ready := b; response_ready := response_ready e; request := request e; response := response e |}.
Definition set_response_ready (b : bool) (e : Entry) : Entry :=
  {| request_ready := request_ready e; response_ready := b; request := request e; response := response e |}.
Definition put_response (p : ShmResponse) (e : Entry) : Entry :=
  {| request_ready := request_ready e; response_ready := response_ready e; request := request e; response := p |}.

(** [initialize]: the indices and flags are reset, the payloads are kept. *)
Definition initialize (r : ShmRingBuffer) : ShmRingBuffer :=
  {| head := 0; tail := 0; pending_count := 0;
     entries := (λ e, set_response_ready false (set_request_ready false e)) <$> entries r;
     total_requests := 0; total_responses := 0 |}.

(** ** send_request, one access per step *)

Inductive ClientPc :=
  | CIdle
  | CLoadTail (q : ShmRequest) (h : Z)     (** head loaded *)
  | CCopy (q : ShmRequest) (h : Z)         (** not full *)
  | CSetReady (q : ShmRequest) (h : Z)     (** request copied *)
  | CClear (q : ShmRequest) (h : Z)        (** request_ready set *)
  | CPublish (q : ShmRequest) (h : Z)      (** response_ready cleared *)
  | CCount.                                (** head stored *)

(** The client begins [send_request] with the load of its head. *)
Definition client_start (q : ShmRequest) (r : ShmRingBuffer) : ClientPc := CLoadTail q (head r).

Definition next_index (i : Z) : Z := (i + 1) mod RING_SIZE.

(** The result is given by the step that returns. *)
Definition client_step (pc : ClientPc) (r : ShmRingBuffer) : ClientPc * ShmRingBuffer * option bool :=
  match pc with
  | CIdle => (CIdle, r, None)
  | CLoadTail q h => if next_index h =? tail r then (CIdle, r, Some false) else (CCopy q h, r, None)
  | CCopy q h => (CSetReady q h, upd_entry h (put_request q) r, None)
  | CSetReady q h => (CClear q h, upd_entry h (set_request_ready true) r, None)
  | CClear q h => (CPublish q h, upd_entry h (set_response_ready false) r, None)
  | CPublish q h => (CCount, set_head (next_index h) r, None)
  | CCount => (CIdle, count_request (add_pending 1 r), Some true)
  end.

(** ** wait_for_request on one ring, one access per step *)

Inductive ServerPc :=
  | SIdle
  | SLoadHead (t : Z)                      (** tail loaded *)
  | STest (t : Z)                          (** not empty *)
  | SCopy (t : Z)                          (** request_ready seen *)
  | SClear (t : Z) (q : ShmRequest)        (** request copied *)
  | SPublish (t : Z) (q : ShmRequest)      (** request_ready cleared *)
  | SCount (q : ShmRequest).               (** tail stored *)

Definition server_start (r : ShmRingBuffer) : ServerPc := SLoadHead (tail r).

Definition server_step (pc : ServerPc) (r : ShmRingBuffer) : ServerPc * ShmRingBuffer * option ShmRequest :=
  match pc with
  | SIdle => (SIdle, r, None)
  | SLoadHead t => if t =? head r then (SIdle, r, None) else (STest t, r, None)
  | STest t =>
      match entries r !! Z.to_nat (t mod RING_SIZE) with
      | Some e => if request_ready e then (SCopy t, r, None) else (SIdle, r, None)
      | None => (SIdle, r, None)
      end
  | SCopy t =>
      match entries r !! Z.to_nat (t mod RING_SIZE) with
      | Some e => (SClear t (request e), r, None)
      | None => (SIdle, r, None)
      end
  | SClear t q => (SPublish t q, upd_entry (t mod RING_SIZE) (set_request_ready false) r, None)
  | SPublish t q => (SCount q, set_tail (next_index t) r, None)
  | SCount q => (SIdle, add_pending (-1) r, Some q)
  end.

(** ** Whole operations: one process alone *)

Fixpoint run_client (n : nat) (pc : ClientPc) (r : ShmRingBuffer) : option bool * ShmRingBuffer :=
  match n with
  | O => (None, r)
  | S n' => match client_step pc r with
            | (_, r1, Some b) => (Some b, r1)
            | (pc1, r1, None) => run_client n' pc1 r1
            end
  end.

(** [send_request]: six accesses after the first. *)
Definition send_request (q : ShmRequest) (r : ShmRingBuffer) : option bool * ShmRingBuffer :=
  run_client 6 (client_start q r) r.

Fixpoint run_server (n : nat) (pc : ServerPc) (r : ShmRingBuffer) : option ShmRequest * ShmRingBuffer :=
  match n with
  | O => (None, r)
  | S n' => match server_step pc r with
            | (_, r1, Some q) => (Some q, r1)
            | (SIdle, r1, None) => (None, r1)
            | (pc1, r1, None) => run_server n' pc1 r1
            end
  end.

(** The visit of one ring by [wait_for_request]. *)
Definition take_request (r : ShmRingBuffer) : option ShmRequest * ShmRingBuffer := run_server 6 (server_start r) r.

(** [send_response]: the first entry from the head on that is neither requested nor answered. *)
Fixpoint response_slot (n : nat) (h i : Z) (r : ShmRingBuffer) : option Z :=
  match n with
  | O => None
  | S n' =>
      let idx := (h + i) mod RING_SIZE in
      match entries r !! Z.to_nat idx with
      | Some e => if negb (request_ready e) && negb (response_ready e) then Some idx else response_slot n' h (i + 1) r
      | None => None
      end
  end.

Definition send_response (p : ShmResponse) (r : ShmRingBuffer) : bool * ShmRingBuffer :=
  match response_slot (Z.to_nat RING_SIZE) (head r) 0 r with
  | Some idx => (true, count_response (upd_entry idx (λ e, set_response_ready true (put_response p e)) r))
  | None => (false, r)
  end.

(** One scan of [wait_for_response]. *)
Fixpoint ready_slot (n : nat) (i : Z) (r : ShmRingBuffer) : option (Z * ShmResponse) :=
  match n with
  | O => None
  | S n' =>
      match entries r !! Z.to_nat i with
      | Some e => if response_ready e then Some (i, response e) else ready_slot n' (i + 1) r
      | None => None
      end
  end.

Definition wait_for_response (r : ShmRingBuffer) : option ShmResponse * ShmRingBuffer :=
  match ready_slot (Z.to_nat RING_SIZE) 0 r with
  | Some (i, p) => (Some p, upd_entry i (set_response_ready false) r)
  | None => (None, r)
  end.

(** ** The clients of the server *)

Record ShmCommunication := { connected : list bool; ring_buffers : list ShmRingBuffer }.

(** The scan of [wait_for_request] over the clients from [cid] on. *)
Fixpoint scan_clients (cid : nat) (conn : list bool) (rings : list ShmRingBuffer) : option (nat * ShmRequest) * list ShmRingBuffer :=
  match conn, rings with
  | c :: conn', r :: rings' =>
      if (c : bool) then
        match take_request r with
        | (Some q, r1) => (Some (cid, q), r1 :: rings')
        | (None, r1) => let '(res, rs) := scan_clients (S cid) conn' rings' in (res, r1 :: rs)
        end
      else let '(res, rs) := scan_clients (S cid) conn' rings' in (res, r :: rs)
  | _, _ => (None, rings)
  end.

Definition wait_for_request (c : ShmCommunication) : option (nat * ShmRequest) * ShmCommunication :=
  let '(res, rs) := scan_clients 1 (connected c) (ring_buffers c) in
  (res, {| connected := connected c; ring_buffers := rs |}).

(** [connect]: the first free slot; the client identifier is the index plus one. *)
Fixpoint free_slot (i : nat) (conn : list bool) : option nat :=
  match conn with
  | [] => None
  | c :: conn' => if (c : bool) then free_slot (S i) conn' else Some i
  end.

Definition connect (c : ShmCommunication) : option nat * ShmCommunication :=
  match free_slot 0 (connected c) with
  | Some i => (Some (S i), {| connected := <[i := true]> (connected c);
                              ring_buffers := alter initialize i (ring_buffers c) |})
  | None => (None, c)
  end.

Definition disconnect (client_id : nat) (c : ShmCommunication) : ShmCommunication :=
  if (1 <=? Z.of_nat client_id) && (Z.of_nat client_id <=? Z.of_nat (length (connected c)))
  then {| connected := <[(client_id - 1)%nat := false]> (connected c); ring_buffers := ring_buffers c |} else c.

(** The operations of one client on its own ring, and the reply of the server,
    with the checks of the client identifier; [client_id] is 0 when the client is
    not connected.  A ring index out of range cannot pass the checks of the
    server; a client only ever holds an identifier given by [connect]. *)
Definition with_ring {A : Type} (fail : A) (client_id : nat) (f : ShmRingBuffer → A * ShmRingBuffer)
    (c : ShmCommunication) : A * ShmCommunication :=
  match client_id with
  | O => (fail, c)
  | S i =>
      match ring_buffers c !! i with
      | Some r => let '(a, r') := f r in
          (a, {| connected := connected c; ring_buffers := <[i := r']> (ring_buffers c) |})
      | None => (fail, c)
      end
  end.

Definition comm_send_request (client_id : nat) (q : ShmRequest) : ShmCommunication → option bool * ShmCommunication :=
  with_ring (Some false) client_id (send_request q).

Definition comm_send_response (client_id : nat) (p : ShmResponse) : ShmCommunication → bool * ShmCommunication :=
  with_ring false client_id (send_response p).

Definition comm_wait_for_response (client_id : nat) : ShmCommunication → option ShmResponse * ShmCommunication :=
  with_ring None client_id wait_for_response.

(** [is_connected] of a client. *)
Definition is_connected (client_id : nat) (c : ShmCommunication) : bool :=
  match client_id with O => false | S i => default false (connected c !! i) end.

(** [get_stats]. *)
Record Stats := { st_total_requests : Z; st_total_responses : Z; st_active_clients : Z }.

Definition add_stats (st : Stats) (cr : bool * ShmRingBuffer) : Stats :=
  {| st_total_requests := st_total_requests st +w total_requests cr.2;
     st_total_responses := st_total_responses st +w total_responses cr.2;
     st_active_clients := if cr.1 then u32 (st_active_clients st + 1) else st_active_clients st |}.

Definition get_stats (c : ShmCommunication) : Stats :=
  List.fold_left add_stats (zip (connected c) (ring_buffers c))
    {| st_total_requests := 0; st_total_responses := 0; st_active_clients := 0 |}.

(** The server calls [wait_for_request] [n] times while nothing is sent. *)
Fixpoint drain (n : nat) (c : ShmCommunication) : list (nat * ShmRequest) * ShmCommunication :=
  match n with
  | O => ([], c)
  | S n' =>
      match wait_for_request c with
      | (Some x, c1) => let '(xs, c2) := drain n' c1 in (x :: xs, c2)
      | (None, c1) => ([], c1)
      end
  end.

(** ** Interleavings *)

Record Sys := {
  sy_ring : ShmRingBuffer;
  sy_client : ClientPc;
  sy_server : ServerPc;
  sy_sent : list ShmRequest;   (** published by the client, in order *)
  sy_got : list ShmRequest     (** taken by the server, in order *)
}.

Inductive sys_step (s : Sys) : Sys → Prop :=
  | step_send q :
      sy_client s = CIdle →
      sys_step s {| sy_ring := sy_ring s; sy_client := client_start q (sy_ring s); sy_server := sy_server s;
                    sy_sent := sy_sent s; sy_got := sy_got s |}
  | step_client pc r res :
      sy_client s ≠ CIdle → client_step (sy_client s) (sy_ring s) = (pc, r, res) →
      sys_step s {| sy_ring := r; sy_client := pc; sy_server := sy_server s;
                    sy_sent := sy_sent s ++ match sy_client s with CPublish q _ => [q] | _ => [] end;
                    sy_got := sy_got s |}
  | step_poll :
      sy_server s = SIdle →
      sys_step s {| sy_ring := sy_ring s; sy_client := sy_client s; sy_server := server_start (sy_ring s);
                    sy_sent := sy_sent s; sy_got := sy_got s |}
  | step_server pc r res :
      sy_server s ≠ SIdle → server_step (sy_server s) (sy_ring s) = (pc, r, res) →
      sys_step s {| sy_ring := r; sy_client := sy_client s; sy_server := pc; sy_sent := sy_sent s;
                    sy_got := sy_got s ++ match sy_server s with SPublish _ q => [q] | _ => [] end |}
  | step_response i b p :
      0 <= i → sys_step s {| sy_ring := upd_entry i (λ e, set_response_ready b (put_response p e)) (sy_ring s);
                    sy_client := sy_client s; sy_server := sy_server s; sy_sent := sy_sent s; sy_got := sy_got s |}.

(** A ring with its entries in place. *)
Definition ring_sized (r : ShmRingBuffer) : Prop := Z.of_nat (length (entries r)) = RING_SIZE.

Definition sys_start (r : ShmRingBuffer) : Sys :=
  {| sy_ring := initialize r; sy_client := CIdle; sy_server := SIdle; sy_sent := []; sy_got := [] |}.

(** ** Invariant *)

Definition slot (r : ShmRingBuffer) (i : Z) : option Entry := entries r !! Z.to_nat ((tail r + i) mod RING_SIZE).

Definition at_head (r : ShmRingBuffer) (P : Entry → Prop) : Prop := ∃ e, entries r !! Z.to_nat (head r) = Some e ∧ P e.

(** The number of requests between the indices. *)
Definition occupied (r : ShmRingBuffer) : Z := (head r - tail r) mod RING_SIZE.

Definition client_ok (r : ShmRingBuffer) (pc : ClientPc) : Prop :=
  match pc with
  | CIdle | CCount => True
  | CLoadTail _ h => h = head r
  | CCopy _ h => h = head r ∧ occupied r <= RING_SIZE - 2
  | CSetReady q h => h = head r ∧ occupied r <= RING_SIZE - 2 ∧ at_head r (λ e, request e = q)
  | CClear q h | CPublish q h =>
      h = head r ∧ occupied r <= RING_SIZE - 2 ∧ at_head r (λ e, request e = q ∧ request_ready e = true)
  end.

Definition server_ok (r : ShmRingBuffer) (q : list ShmRequest) (pc : ServerPc) : Prop :=
  match pc with
  | SIdle | SCount _ => True
  | SLoadHead t => t = tail r
  | STest t | SCopy t => t = tail r ∧ q ≠ []
  | SClear t x | SPublish t x => t = tail r ∧ ∃ q', q = x :: q'
  end.

(** The server has cleared the flag of the oldest entry and not yet moved on. *)
Definition clearing (pc : ServerPc) : bool := match pc with SPublish _ _ => true | _ => false end.

Record ring_inv (r : ShmRingBuffer) (q : list ShmRequest) (srv : ServerPc) : Prop := {
  ri_head : 0 <= head r < RING_SIZE;
  ri_tail : 0 <= tail r < RING_SIZE;
  ri_sized : ring_sized r;
  ri_length : Z.of_nat (length q) = occupied r;
  ri_queue : ∀ i x, q !! i = Some x → ∃ e, slot r (Z.of_nat i) = Some e ∧ request e = x ∧
    (request_ready e = true ∨ (i = 0%nat ∧ clearing srv = true))
}.

Definition pending_ok (s : Sys) (q : list ShmRequest) : Prop :=
  pending_count (sy_ring s) = u32 (Z.of_nat (length q) +
    (match sy_server s with SCount _ => 1 | _ => 0 end) - (match sy_client s with CCount => 1 | _ => 0 end)).

Record sys_inv (s : Sys) (q : list ShmRequest) : Prop := {
  si_ring : ring_inv (sy_ring s) q (sy_server s);
  si_client : client_ok (sy_ring s) (sy_client s);
  si_server : server_ok (sy_ring s) q (sy_server s);
  si_hist : sy_sent s = sy_got s ++ q;
  si_pending : pending_ok s q
}.

(** ** Lemmas: entries *)

Lemma upd_entry_lookup i f r k :
  entries (upd_entry i f r) !! k = if decide (Z.to_nat i = k) then f <$> entries r !! k else entries r !! k.
Proof. simpl. case_decide as E; [subst; apply list_lookup_alter_eq|by apply list_lookup_alter_ne]. Qed.

Lemma upd_entry_sized i f r : ring_sized r → ring_sized (upd_entry i f r).
Proof. unfold ring_sized. simpl. by rewrite length_alter. Qed.

(** The slots of the queue are not the head slot. *)
Lemma slot_not_head r i :
  0 <= head r < RING_SIZE → 0 <= tail r < RING_SIZE → 0 <= i < occupied r → (tail r + i) mod RING_SIZE ≠ head r.
Proof. unfold occupied, RING_SIZE. intros. mlia. Qed.

Lemma queue_index r q srv i x : ring_inv r q srv → q !! i = Some x → 0 <= Z.of_nat i < occupied r.
Proof. intros [_ _ _ Hl _] Hx. apply lookup_lt_Some in Hx. lia. Qed.

(** An update of the head slot, or one that keeps the request, keeps the queue. *)
Lemma upd_entry_inv r q srv j f :
  ring_inv r q srv → 0 <= j →
  j = head r ∨ (∀ e, request (f e) = request e ∧ (request_ready e = true → request_ready (f e) = true)) →
  ring_inv (upd_entry j f r) q srv.
Proof.
  intros Hi Hj Hf. pose proof Hi as [Hh Ht Hs Hl Hq]. split; try done; [by apply upd_entry_sized|].
  intros i x Hx. destruct (Hq i x Hx) as (e & He & Hreq & Hrdy). unfold slot in *. rewrite upd_entry_lookup. simpl.
  case_decide as E; [|by exists e]. destruct Hf as [->|Hf].
  - exfalso. apply (slot_not_head r (Z.of_nat i)); [done|done|by eapply queue_index|]. unfold RING_SIZE in *. mlia.
  - rewrite He. simpl. exists (f e). destruct (Hf e) as [H1 H2]. split_and!; [done|congruence|]. tauto.
Qed.

Lemma at_head_upd_other r j f P :
  0 <= j → j ≠ head r → 0 <= head r → at_head (upd_entry j f r) P ↔ at_head r P.
Proof.
  intros Hj Hne Hh. unfold at_head. simpl. rewrite list_lookup_alter_ne; [done|]. lia.
Qed.

Lemma at_head_upd r f (P Q : Entry → Prop) :
  at_head r P → (∀ e, P e → Q (f e)) → at_head (upd_entry (head r) f r) Q.
Proof.
  intros (e & He & HP) HQ. exists (f e). simpl. rewrite list_lookup_alter_eq, He. auto.
Qed.

Lemma head_entry r : 0 <= head r < RING_SIZE → ring_sized r → at_head r (λ _, True).
Proof.
  intros Hh Hs. unfold at_head, ring_sized in *. destruct (lookup_lt_is_Some_2 (entries r) (Z.to_nat (head r))) as [e He]; [lia|].
  eauto.
Qed.

(** Response traffic on any entry does not disturb the client. *)
Lemma client_ok_upd r j f pc :
  0 <= j → (∀ e, request (f e) = request e ∧ (request_ready e = true → request_ready (f e) = true)) →
  client_ok r pc → client_ok (upd_entry j f r) pc.
Proof.
  intros Hj Hf. assert (∀ P : Entry → Prop, (∀ e, P e → P (f e)) → at_head r P → at_head (upd_entry j f r) P) as Hat.
  { intros P HP (e & He & Hpe). unfold at_head. rewrite upd_entry_lookup. simpl.
    case_decide; [rewrite He; simpl|]; eauto. }
  destruct pc; simpl; try done; intros (? & ? & ?); split_and!; try done; eapply Hat; try done;
    intros e; simpl; destruct (Hf e) as [-> ?]; tauto.
Qed.

(** ** Lemmas: the client *)

(** Moving the head over a filled entry appends it to the queue. *)
Lemma publish_inv r q srv x :
  ring_inv r q srv → occupied r <= RING_SIZE - 2 → at_head r (λ e, request e = x ∧ request_ready e = true) →
  ring_inv (set_head (next_index (head r)) r) (q ++ [x]) srv.
Proof.
  intros [Rh Rt Rs Rl Rq] Hocc (e & He & Hx & Hrdy).
  assert (occupied (set_head (next_index (head r)) r) = occupied r + 1) as Ho.
  { unfold occupied, next_index, RING_SIZE in *. simpl. mlia. }
  split; simpl; [unfold next_index, RING_SIZE; mlia|done|done|rewrite length_app, Ho; simpl; lia|].
  intros i y Hy. apply lookup_app_Some in Hy as [Hy|[Hlen Hy]]; [by apply (Rq i y)|].
  apply list_lookup_singleton_Some in Hy as [Hi <-]. exists e. unfold slot. simpl. split_and!; [|done|by left].
  rewrite <- He. f_equal. f_equal. assert (Z.of_nat i = occupied r) as -> by lia. unfold occupied, RING_SIZE in *. mlia.
Qed.

Lemma server_ok_app r q srv x pc : server_ok r q pc → server_ok (set_head x r) (q ++ srv) pc.
Proof.
  destruct pc; simpl; try done; intros [-> H]; (split; [done|]).
  - by destruct q.
  - by destruct q.
  - destruct H as [q' ->]. by eexists.
  - destruct H as [q' ->]. by eexists.
Qed.

Lemma client_inv s q pc r res :
  sys_inv s q → client_step (sy_client s) (sy_ring s) = (pc, r, res) →
  ∃ q', sys_inv {| sy_ring := r; sy_client := pc; sy_server := sy_server s;
                   sy_sent := sy_sent s ++ match sy_client s with CPublish q _ => [q] | _ => [] end;
                   sy_got := sy_got s |} q'.
Proof.
  intros [Hr Hc Hs Hh Hp] Hst. pose proof Hr as [Rh Rt Rs Rl Rq]. destruct s as [r0 cl srv sent got]; simpl in *.
  destruct cl as [|x h|x h|x h|x h|x h|]; simpl in Hst, Hc.
  - simplify_eq. exists q. split; simpl; rewrite ?app_nil_r; first [done|exact Hp].
  - destruct (_ =? _) eqn:E; btests; simplify_eq; exists q; split; simpl; rewrite ?app_nil_r; try first [done|exact Hp].
    split; [done|]. unfold occupied, next_index, RING_SIZE in *. mlia.
  - destruct Hc as [-> Hocc]. simplify_eq. exists q.
    split; simpl; rewrite ?app_nil_r; try first [done|exact Hp|by apply upd_entry_inv; [|lia|left]].
    split_and!; [done|done|]. eapply at_head_upd; [by apply head_entry|done].
  - destruct Hc as (-> & Hocc & Hat). simplify_eq. exists q.
    split; simpl; rewrite ?app_nil_r; try first [done|exact Hp|by apply upd_entry_inv; [|lia|left]].
    split_and!; [done|done|]. by eapply at_head_upd; [exact Hat|].
  - destruct Hc as (-> & Hocc & Hat). simplify_eq. exists q.
    split; simpl; rewrite ?app_nil_r; try first [done|exact Hp|by apply upd_entry_inv; [|lia|left]].
    split_and!; [done|done|]. by eapply at_head_upd; [exact Hat|].
  - destruct Hc as (-> & Hocc & Hat). simplify_eq. exists (q ++ [x]).
    split; simpl; [by apply publish_inv|done|by apply server_ok_app|by rewrite <- app_assoc|].
    unfold pending_ok in *. simpl in *. rewrite Hp, length_app. simpl. f_equal. lia.
  - simplify_eq. exists q. split; simpl; rewrite ?app_nil_r; try done.
    unfold pending_ok in *. simpl in *. rewrite Hp. destruct srv; mlia.
Qed.

(** ** Lemmas: the server *)

(** The entry of the oldest request. *)
Lemma oldest_entry r x q srv :
  ring_inv r (x :: q) srv → ∃ e, entries r !! Z.to_nat (tail r mod RING_SIZE) = Some e ∧ request e = x ∧
    (clearing srv = false → request_ready e = true).
Proof.
  intros [_ _ _ _ Rq]. destruct (Rq 0%nat x eq_refl) as (e & He & Hx & Hr). unfold slot in He.
  rewrite Z.add_0_r in He. exists e. split_and!; [done|done|]. intros Hc. destruct Hr as [?|[_ ?]]; congruence.
Qed.

(** Clearing the flag of the oldest entry, and moving the tail over it. *)
Lemma clear_inv r x q srv t :
  ring_inv r (x :: q) srv → ring_inv (upd_entry (tail r mod RING_SIZE) (set_request_ready false) r) (x :: q) (SPublish t x).
Proof.
  intros [Rh Rt Rs Rl Rq]. split; try done; [by apply upd_entry_sized|]. intros i y Hy.
  pose proof (lookup_lt_Some _ _ _ Hy) as Hi.
  destruct (Rq i y Hy) as (e & He & Hreq & Hrdy). unfold slot in *. rewrite upd_entry_lookup. simpl. case_decide as E.
  - rewrite He. simpl. eexists. split_and!; [done|done|]. right. split; [|done].
    unfold occupied, RING_SIZE in *. destruct (decide (i = 0%nat)); [done|exfalso]. mlia.
  - exists e. split_and!; [done|done|]. left. destruct Hrdy as [?|[-> _]]; [done|]. exfalso. apply E. f_equal.
    unfold RING_SIZE. mlia.
Qed.

Lemma consume_inv r x q t srv :
  ring_inv r (x :: q) (SPublish t x) → clearing srv = false → ring_inv (set_tail (next_index (tail r)) r) q srv.
Proof.
  intros [Rh Rt Rs Rl Rq] Hsrv. simpl in Rl.
  assert (occupied (set_tail (next_index (tail r)) r) = occupied r - 1) as Ho.
  { unfold occupied, next_index, RING_SIZE in *. simpl. mlia. }
  split; simpl; [done|unfold next_index, RING_SIZE; mlia|done|lia|].
  intros i y Hy. destruct (Rq (S i) y Hy) as (e & He & Hreq & Hrdy). exists e. unfold slot in *. simpl.
  split_and!; [|done|left; by destruct Hrdy as [?|[? _]]]. rewrite <- He. f_equal. f_equal. unfold next_index, RING_SIZE. mlia.
Qed.

(** The head slot is not touched by the server. *)
Lemma client_ok_server r r' pc :
  head r' = head r → entries r' !! Z.to_nat (head r) = entries r !! Z.to_nat (head r) → occupied r' <= occupied r →
  client_ok r pc → client_ok r' pc.
Proof.
  intros Hh He Ho. assert (∀ P, at_head r P → at_head r' P) as Hat.
  { intros P (e & H1 & H2). exists e. by rewrite Hh, He. }
  destruct pc; simpl; rewrite ?Hh;
    first [done|intros (? & ? & ?); split_and!; [done|lia|by apply Hat]|intros [? ?]; split; [done|lia]].
Qed.

Lemma server_inv s q pc r res :
  sys_inv s q → server_step (sy_server s) (sy_ring s) = (pc, r, res) →
  ∃ q', sys_inv {| sy_ring := r; sy_client := sy_client s; sy_server := pc; sy_sent := sy_sent s;
                   sy_got := sy_got s ++ match sy_server s with SPublish _ q => [q] | _ => [] end |} q'.
Proof.
  intros [Hr Hc Hs Hh Hp] Hst. destruct s as [r0 cl srv sent got]; simpl in *.
  assert (∀ pc', clearing srv = false → clearing pc' = false → ring_inv r0 q pc') as Hpc.
  { intros pc' H1 H2. destruct Hr as [Rh Rt Rs Rl Rq]. split; try done. intros i x Hx.
    destruct (Rq i x Hx) as (e & He & Hreq & [Hrdy|[_ ?]]); [|congruence]. exists e. auto. }
  destruct srv as [|t|t|t|t x|t x|x]; simpl in Hst, Hs.
  - simplify_eq. exists q. split; simpl; rewrite ?app_nil_r; first [done|exact Hp].
  - subst t. destruct (_ =? _) eqn:E; btests; simplify_eq; exists q; split; simpl; rewrite ?app_nil_r;
      try first [done|exact Hp|by apply Hpc]. split; [done|]. destruct Hr as [Rh Rt _ Rl _]. destruct q; [|done].
    exfalso. simpl in Rl. unfold occupied, RING_SIZE in *. mlia.
  - destruct Hs as [-> Hq]. destruct q as [|x q]; [done|]. destruct (oldest_entry r0 x q _ Hr) as (e & He & _ & Hrdy).
    rewrite He, Hrdy in Hst by done. simplify_eq. exists (x :: q).
    split; simpl; rewrite ?app_nil_r; first [done|exact Hp|by apply Hpc].
  - destruct Hs as [-> Hq]. destruct q as [|x q]; [done|]. destruct (oldest_entry r0 x q _ Hr) as (e & He & Hx & _).
    rewrite He in Hst. simplify_eq. exists (request e :: q).
    split; simpl; rewrite ?app_nil_r; try first [done|exact Hp|by apply Hpc]. split; [done|by eexists].
  - destruct Hs as [-> [q' ->]]. simplify_eq. exists (x :: q'). pose proof Hr as [Rh Rt _ Rl _]. simpl in Rl.
    split; simpl; rewrite ?app_nil_r; try first [done|exact Hp|by eapply clear_inv].
    + apply (client_ok_server r0); [done| |apply Z.le_refl|exact Hc]. rewrite upd_entry_lookup. case_decide as E; [|done].
      exfalso. unfold occupied, RING_SIZE in *. mlia.
    + split; [done|by eexists].
  - destruct Hs as [-> [q' ->]]. simplify_eq. exists q'. pose proof Hr as [Rh Rt _ Rl _]. simpl in Rl.
    split; simpl; [by eapply consume_inv| |done|by rewrite <- app_assoc|].
    + apply (client_ok_server r0); [done|done| |exact Hc]. unfold occupied, next_index, RING_SIZE in *. simpl. mlia.
    + unfold pending_ok in *. simpl in *. rewrite Hp. f_equal. lia.
  - simplify_eq. exists q. split; simpl; rewrite ?app_nil_r; [|by destruct cl|done|done|].
    + destruct (Hpc SIdle eq_refl eq_refl) as [Rh Rt Rs Rl Rq]. by split.
    + unfold pending_ok in *. simpl in *. rewrite Hp. destruct cl; mlia.
Qed.

Lemma sys_step_inv s s' q : sys_inv s q → sys_step s s' → ∃ q', sys_inv s' q'.
Proof.
  intros Hi Hs. destruct Hs as [x Hc|pc r res Hne Hst|Hc|pc r res Hne Hst|i b p Hi0].
  - destruct s as [r0 cl srv sent got], Hi as [Hr H2 H3 H4 Hp]. simpl in *. subst cl. exists q.
    split; simpl; first [done|exact Hp].
  - by eapply client_inv.
  - destruct s as [r0 cl srv sent got], Hi as [Hr H2 H3 H4 Hp]. simpl in *. subst srv. exists q.
    split; simpl; first [done|exact Hp|by destruct Hr; split].
  - by eapply server_inv.
  - destruct s as [r0 cl srv sent got], Hi as [Hr H2 H3 H4 Hp]. simpl in *. exists q.
    assert (∀ e, request (set_response_ready b (put_response p e)) = request e ∧
      (request_ready e = true → request_ready (set_response_ready b (put_response p e)) = true)) as Hf by done.
    split; simpl; [by apply upd_entry_inv; [| |right]|by apply client_ok_upd| |done|exact Hp]. by destruct srv.
Qed.

(** ** Lemmas: whole operations *)

Lemma sys_start_inv r : ring_sized r → sys_inv (sys_start r) [].
Proof.
  intros Hs. split; [|done..]. split; [done|done| |done|done].
  unfold ring_sized in *. simpl. by rewrite length_fmap.
Qed.

Lemma sys_reachable_inv r s : ring_sized r → rtc sys_step (sys_start r) s → ∃ q, sys_inv s q.
Proof.
  intros Hs Hr. assert (∃ q, sys_inv (sys_start r) q) as H0 by (exists []; by apply sys_start_inv). revert H0.
  induction Hr as [|s1 s2 s3 H12 _ IH]; [done|]. intros [q Hq]. apply IH. by eapply sys_step_inv.
Qed.

Lemma ring_inv_counts r r' q srv :
  head r' = head r → tail r' = tail r → entries r' = entries r → ring_inv r q srv → ring_inv r' q srv.
Proof.
  intros Hh Ht He [Rh Rt Rs Rl Rq]. unfold ring_sized, occupied, slot in *. split; unfold ring_sized, occupied, slot; rewrite ?Hh, ?Ht, ?He; done.
Qed.

Lemma send_request_ok r q x :
  ring_inv r q SIdle → occupied r <= RING_SIZE - 2 → ∃ r', send_request x r = (Some true, r') ∧ ring_inv r' (q ++ [x]) SIdle.
Proof.
  intros Hi Ho. pose proof Hi as [Rh Rt Rs _ _]. unfold send_request, client_start. cbn [run_client client_step].
  rewrite (proj2 (Z.eqb_neq _ _)) by (unfold occupied, next_index, RING_SIZE in *; mlia).
  set (r1 := upd_entry (head r) (put_request x) r). set (r2 := upd_entry (head r) (set_request_ready true) r1).
  set (r3 := upd_entry (head r) (set_response_ready false) r2).
  eexists. split; [done|]. apply (ring_inv_counts (set_head (next_index (head r3)) r3)); [done..|]. apply publish_inv; [|done|].
  - by repeat (apply upd_entry_inv; [|simpl; lia|by left]).
  - apply (at_head_upd r2 _ (λ e, request e = x ∧ request_ready e = true)); [|done].
    apply (at_head_upd r1 _ (λ e, request e = x)); [|done].
    apply (at_head_upd r _ (λ _, True)); [by apply head_entry|done].
Qed.

Lemma send_request_full r q x : ring_inv r q SIdle → occupied r = RING_SIZE - 1 → send_request x r = (Some false, r).
Proof.
  intros [Rh Rt _ _ _] Ho. unfold send_request, client_start. cbn [run_client client_step].
  by rewrite (proj2 (Z.eqb_eq _ _)) by (unfold occupied, next_index, RING_SIZE in *; mlia).
Qed.

Lemma take_request_ok r q x :
  ring_inv r (x :: q) SIdle → ∃ r', take_request r = (Some x, r') ∧ ring_inv r' q SIdle.
Proof.
  intros Hi. pose proof Hi as [Rh Rt Rs Rl _]. simpl in Rl. destruct (oldest_entry r x q SIdle Hi) as (e & He & Hx & Hrdy).
  unfold take_request, server_start. cbn [run_server server_step].
  rewrite (proj2 (Z.eqb_neq _ _)) by (unfold occupied, RING_SIZE in *; mlia). cbn [run_server server_step].
  rewrite He, Hrdy by done. cbn [run_server server_step]. rewrite He, Hx. cbn [run_server server_step].
  set (r1 := upd_entry (tail r mod RING_SIZE) (set_request_ready false) r).
  eexists. split; [done|]. apply (ring_inv_counts (set_tail (next_index (tail r1)) r1)); [done..|].
  apply (consume_inv _ x q (tail r)); [by apply (clear_inv _ _ _ SIdle)|done].
Qed.

Lemma take_request_empty r : ring_inv r [] SIdle → take_request r = (None, r).
Proof.
  intros [Rh Rt _ Rl _]. simpl in Rl. unfold take_request, server_start. cbn [run_server server_step].
  by rewrite (proj2 (Z.eqb_eq _ _)) by (unfold occupied, RING_SIZE in *; mlia).
Qed.

(** ** Lemmas: the reply *)

(** No entry is requested or answered, and no request is queued. *)
Definition unflagged (e : Entry) : Prop := request_ready e = false ∧ response_ready e = false.

Definition quiet (r : ShmRingBuffer) : Prop := ring_inv r [] SIdle ∧ Forall unflagged (entries r).

(** The entries a process reads or writes in its next step. *)
Definition client_entry (pc : ClientPc) : option Z :=
  match pc with CCopy _ h | CSetReady _ h | CClear _ h => Some h | _ => None end.

Definition server_entry (pc : ServerPc) : option Z :=
  match pc with STest t | SCopy t | SClear t _ => Some (t mod RING_SIZE) | _ => None end.

Lemma initialize_quiet r : ring_sized r → quiet (initialize r).
Proof.
  intros Hs. split; [apply (sys_start_inv r Hs)|]. simpl. apply Forall_fmap, Forall_true. by intros [].
Qed.

Lemma upd_entry_other r i f j e :
  entries (upd_entry i f r) !! j = Some e → Z.to_nat i ≠ j → entries r !! j = Some e.
Proof. intros He Hne. rewrite upd_entry_lookup in He. by case_decide. Qed.

(** The first scanned entry that fits is the one found. *)
Lemma response_slot_first n r h :
  (0 < n)%nat → (∃ e, entries r !! Z.to_nat (h mod RING_SIZE) = Some e ∧ unflagged e) →
  response_slot n h 0 r = Some (h mod RING_SIZE).
Proof.
  intros Hn (e & He & H1 & H2). destruct n as [|n]; [lia|]. cbn [response_slot]. by rewrite Z.add_0_r, He, H1, H2.
Qed.

Lemma ready_slot_only n i k r p :
  (Z.to_nat i + n = length (entries r))%nat → 0 <= i <= k →
  (∀ j e, entries r !! j = Some e → response_ready e = true → j = Z.to_nat k) →
  (∃ e, entries r !! Z.to_nat k = Some e ∧ response_ready e = true ∧ response e = p) →
  ready_slot n i r = Some (k, p).
Proof.
  revert i. induction n as [|n IH]; intros i Hn Hi Honly (ek & Hek & Hr & Hp).
  - apply lookup_lt_Some in Hek. lia.
  - cbn [ready_slot]. destruct (lookup_lt_is_Some_2 (entries r) (Z.to_nat i)) as [e He]; [lia|]. rewrite He.
    destruct (response_ready e) eqn:E.
    + assert (i = k) as -> by (apply Honly in He; [lia|done]). rewrite He in Hek. by simplify_eq.
    + apply IH; [lia| |done|by eauto]. assert (i ≠ k) by (intros ->; congruence). lia.
Qed.

Lemma ready_slot_none n i r :
  (∀ j e, entries r !! j = Some e → response_ready e = false) → ready_slot n i r = None.
Proof.
  intros H. revert i. induction n as [|n IH]; intros i; [done|]. cbn [ready_slot].
  destruct (_ !! _) eqn:E; [|done]. by rewrite (H _ _ E).
Qed.

(** The effect of a send on a quiet ring, and of the take after it. *)
Lemma quiet_send_take r q :
  quiet r → ∃ r1 r2, send_request q r = (Some true, r1) ∧ take_request r1 = (Some q, r2) ∧ quiet r2.
Proof.
  intros [Hi Hq]. pose proof Hi as [Rh Rt Rs Rl _]. simpl in Rl.
  destruct (send_request_ok r [] q Hi) as (r1 & Hsend & Hi1); [unfold RING_SIZE; lia|].
  destruct (take_request_ok r1 [] q Hi1) as (r2 & Htake & Hi2).
  exists r1, r2. split_and!; [done|done|split; [done|]]. assert (tail r = head r) as Ht by (unfold occupied, RING_SIZE in *; mlia).
  unfold send_request, client_start in Hsend. cbn [run_client client_step] in Hsend.
  rewrite (proj2 (Z.eqb_neq _ _)) in Hsend by (unfold next_index, RING_SIZE in *; mlia).
  cbn [run_client client_step] in Hsend. simplify_eq. set (r1 := count_request _) in *. destruct (oldest_entry r1 q [] SIdle Hi1) as (e & He & _ & Hrdy).
  unfold take_request, server_start in Htake. cbn [run_server server_step] in Htake.
  assert (tail r1 =? head r1 = false) as Hne.
  { apply Z.eqb_neq. cbn. rewrite Ht. clear -Rh. unfold next_index, RING_SIZE in *. mlia. }
  rewrite Hne in Htake.
  cbn [run_server server_step] in Htake. rewrite He, Hrdy in Htake by done. cbn [run_server server_step] in Htake.
  rewrite He in Htake. cbn [run_server server_step] in Htake. simplify_eq. cbn [add_pending set_tail entries].
  apply Forall_lookup_2. intros j e' Hj. rewrite upd_entry_lookup in Hj.
  replace (tail r1 mod RING_SIZE) with (head r) in * by (simpl; unfold RING_SIZE in *; mlia).
  cbn [r1 count_request add_pending set_head entries] in Hj. rewrite !upd_entry_lookup in Hj.
  case_decide as E; [|by eapply Forall_lookup_1]. destruct (entries r !! j) as [e0|] eqn:E0; simpl in Hj; [|done].
  simplify_eq. done.
Qed.

(** The reply on a quiet ring is put at the head and found by the client. *)
Lemma quiet_reply r p :
  quiet r → ∃ r1 r2, send_response p r = (true, r1) ∧ wait_for_response r1 = (Some p, r2) ∧ quiet r2.
Proof.
  intros [Hi Hq]. pose proof Hi as [Rh Rt Rs _ _]. destruct (head_entry r Rh Rs) as (e & He & _).
  assert (head r mod RING_SIZE = head r) as Hm by (unfold RING_SIZE in *; mlia).
  unfold send_response. rewrite (response_slot_first _ r (head r));
    [|unfold RING_SIZE; lia|exists e; rewrite Hm; split; [done|by eapply Forall_lookup_1]].
  rewrite Hm. set (f := λ e, set_response_ready true (put_response p e)). eexists _, _. split; [done|].
  unfold wait_for_response. rewrite (ready_slot_only _ _ (head r) _ p).
  - split; [done|]. split.
    + apply (upd_entry_inv (count_response (upd_entry (head r) f r))); [|simpl; lia|by right].
      apply (ring_inv_counts (upd_entry (head r) f r)); [done..|]. apply upd_entry_inv; [done|lia|by right].
    + apply Forall_lookup_2. intros j e' Hj. rewrite upd_entry_lookup in Hj. cbn [count_response entries] in Hj.
      rewrite upd_entry_lookup in Hj. case_decide; [|by eapply Forall_lookup_1].
      destruct (entries r !! j) as [e0|] eqn:E0; simpl in Hj; [|done]. simplify_eq.
      destruct (Forall_lookup_1 _ _ _ _ Hq He). done.
  - cbn [count_response upd_entry entries]. rewrite length_alter. unfold ring_sized, RING_SIZE in *. lia.
  - lia.
  - cbn [count_response entries]. intros j e' Hj Hr. destruct (decide (Z.to_nat (head r) = j)); [done|].
    apply upd_entry_other in Hj; [|done]. destruct (Forall_lookup_1 _ _ _ _ Hq Hj). congruence.
  - cbn [count_response entries]. exists (f e). rewrite upd_entry_lookup, decide_True, He by done. done.
Qed.

(** ** Lemmas: all clients *)

(** The queued requests of the connected clients, from client [cid] on. *)
Fixpoint pending (cid : nat) (conn : list bool) (qs : list (list ShmRequest)) : list (nat * ShmRequest) :=
  match conn, qs with
  | c :: conn', q :: qs' => (if (c : bool) then pair cid <$> q else []) ++ pending (S cid) conn' qs'
  | _, _ => []
  end.

(** The rings of the connected clients hold the given queues. *)
Fixpoint rings_hold (conn : list bool) (rings : list ShmRingBuffer) (qs : list (list ShmRequest)) : Prop :=
  match conn, rings, qs with
  | c :: conn', r :: rings', q :: qs' => (c = true → ring_inv r q SIdle) ∧ rings_hold conn' rings' qs'
  | [], [], [] => True
  | _, _, _ => False
  end.

Definition comm_inv (c : ShmCommunication) (qs : list (list ShmRequest)) : Prop :=
  rings_hold (connected c) (ring_buffers c) qs.

Lemma scan_clients_none cid conn rings qs :
  rings_hold conn rings qs → pending cid conn qs = [] → scan_clients cid conn rings = (None, rings).
Proof.
  revert cid rings qs. induction conn as [|c conn IH]; intros cid [|r rings] [|q qs]; simpl; try done.
  intros [Hr Hh] Hp. apply app_eq_nil in Hp as [Hq Hp]. rewrite (IH (S cid) rings qs Hh Hp). destruct c; [|done].
  apply fmap_nil_inv in Hq as ->. by rewrite take_request_empty by auto.
Qed.

Lemma scan_clients_some cid conn rings qs y l :
  rings_hold conn rings qs → pending cid conn qs = y :: l →
  ∃ rings' qs', scan_clients cid conn rings = (Some y, rings') ∧ rings_hold conn rings' qs' ∧ pending cid conn qs' = l.
Proof.
  revert cid rings qs. induction conn as [|c conn IH]; intros cid [|r rings] [|q qs]; simpl; try done.
  intros [Hr Hh] Hp. destruct c; [destruct q as [|x q]|]; simpl in Hp.
  - rewrite take_request_empty by auto. destruct (IH (S cid) rings qs Hh Hp) as (rings' & qs' & Hs & Hh' & Hp').
    rewrite Hs. by exists (r :: rings'), ([] :: qs').
  - simplify_eq. destruct (take_request_ok r q x (Hr eq_refl)) as (r' & Ht & Hr'). rewrite Ht.
    by exists (r' :: rings), (q :: qs).
  - destruct (IH (S cid) rings qs Hh Hp) as (rings' & qs' & Hs & Hh' & Hp'). rewrite Hs.
    by exists (r :: rings'), (q :: qs').
Qed.

Lemma wait_for_request_none c qs :
  comm_inv c qs → pending 1 (connected c) qs = [] → wait_for_request c = (None, c).
Proof.
  intros Hi Hp. unfold wait_for_request. rewrite (scan_clients_none 1 _ _ qs Hi Hp). by destruct c.
Qed.

Lemma wait_for_request_some c qs y l :
  comm_inv c qs → pending 1 (connected c) qs = y :: l →
  ∃ c' qs', wait_for_request c = (Some y, c') ∧ comm_inv c' qs' ∧ pending 1 (connected c') qs' = l.
Proof.
  intros Hi Hp. destruct (scan_clients_some 1 _ _ qs y l Hi Hp) as (rings' & qs' & Hs & Hh & Hp').
  unfold wait_for_request. rewrite Hs. by eexists _, qs'.
Qed.

Lemma rings_hold_lookup conn rings qs i r :
  rings_hold conn rings qs → rings !! i = Some r → conn !! i = Some true → ∃ q, qs !! i = Some q ∧ ring_inv r q SIdle.
Proof.
  revert rings qs i. induction conn as [|c conn IH]; intros [|r0 rings] [|q qs] i; simpl; try done.
  intros [H1 H2] Hr Hc. destruct i as [|i]; simplify_eq/=; eauto.
Qed.

Lemma rings_hold_insert conn rings qs i r q :
  rings_hold conn rings qs → ring_inv r q SIdle → rings_hold conn (<[i := r]> rings) (<[i := q]> qs).
Proof.
  intros Hh Hr. revert rings qs i Hh. induction conn as [|c conn IH]; intros [|r0 rings] [|q0 qs] i; simpl; try done.
  intros [H1 H2]. destruct i as [|i]; simpl; auto.
Qed.

(** ** Theorems *)

(** C23. Under every interleaving of the client, the server and the response traffic,
    the server takes exactly the requests that were published, unchanged and in
    order; what it has not taken is what lies between the indices, and when both
    are idle the pending count is its number. *)
Theorem ring_fifo r s :
  ring_sized r → rtc sys_step (sys_start r) s →
  ∃ q, sy_sent s = sy_got s ++ q ∧ Z.of_nat (length q) = occupied (sy_ring s) ∧ Z.of_nat (length q) < RING_SIZE ∧
    (sy_client s = CIdle → sy_server s = SIdle → pending_count (sy_ring s) = Z.of_nat (length q)).
Proof.
  intros Hr Hs. destruct (sys_reachable_inv r s Hr Hs) as [q [[Rh Rt _ Rl _] _ _ Hh Hp]]. exists q.
  assert (Z.of_nat (length q) < RING_SIZE) by (rewrite Rl; unfold occupied, RING_SIZE; mlia).
  split_and!; [done|done|done|]. intros Hc Hv. unfold pending_ok in Hp. rewrite Hc, Hv in Hp. rewrite Hp.
  unfold RING_SIZE in *. rewrite u32_small; unfold is_u32; lia.
Qed.

(** The client and the server never access the same entry at the same time: the
    plain copies of a request into and out of an entry do not race. *)
Theorem ring_no_race r s i j :
  ring_sized r → rtc sys_step (sys_start r) s →
  client_entry (sy_client s) = Some i → server_entry (sy_server s) = Some j → i ≠ j.
Proof.
  intros Hr Hs Hc Hv. destruct (sys_reachable_inv r s Hr Hs) as [q [[Rh Rt _ Rl _] Hcl Hsv _ _]].
  assert (i = head (sy_ring s)) as -> by (destruct (sy_client s); simpl in *; simplify_eq; naive_solver).
  assert (j = tail (sy_ring s) mod RING_SIZE ∧ (0 < length q)%nat) as [-> Hq].
  { destruct (sy_server s); simpl in *; simplify_eq; destruct Hsv as [-> Hq]; (split; [done|]);
      first [by destruct q; simpl; [|lia]|destruct Hq as [q' ->]; simpl; lia]. }
  unfold occupied, RING_SIZE in *. mlia.
Qed.

(** On a quiet ring one call completes: the request is taken by the server as it was
    sent, the reply is received by the client as it was given, and the ring is quiet
    again for the next call. *)
Theorem call_roundtrip r q p :
  quiet r → ∃ r1 r2 r3 r4,
    send_request q r = (Some true, r1) ∧ take_request r1 = (Some q, r2) ∧
    send_response p r2 = (true, r3) ∧ wait_for_response r3 = (Some p, r4) ∧ quiet r4.
Proof.
  intros Hq. destruct (quiet_send_take r q Hq) as (r1 & r2 & H1 & H2 & H3).
  destruct (quiet_reply r2 p H3) as (r3 & r4 & H4 & H5 & H6). eauto 10.
Qed.

(** C32. Every queued request of a connected client is served: when nothing more is sent,
    as many calls of [wait_for_request] as there are queued requests return all of
    them, those of each client in the order they were sent, and the next call finds
    nothing. *)
Theorem drain_serves_all c qs :
  comm_inv c qs → ∃ c', drain (length (pending 1 (connected c) qs)) c = (pending 1 (connected c) qs, c') ∧
    wait_for_request c' = (None, c').
Proof.
  remember (pending 1 (connected c) qs) as l eqn:Hl. revert c qs Hl. induction l as [|y l IH]; intros c qs Hl Hi.
  - exists c. split; [done|]. by eapply wait_for_request_none.
  - destruct (wait_for_request_some c qs y l Hi) as (c1 & qs1 & Hw & Hi1 & Hp1); [done|].
    destruct (IH c1 qs1 (eq_sym Hp1) Hi1) as (c' & Hd & Hn). exists c'. simpl. by rewrite Hw, Hd.
Qed.

(** A send by a connected client fails exactly when 1023 requests of it are queued, and
    then changes nothing; else the request is queued behind the others. *)
Theorem send_request_bounded c qs i r qu x :
  comm_inv c qs → ring_buffers c !! i = Some r → connected c !! i = Some true → qs !! i = Some qu →
  if Z.of_nat (length qu) =? RING_SIZE - 1 then comm_send_request (S i) x c = (Some false, c)
  else ∃ c', comm_send_request (S i) x c = (Some true, c') ∧ comm_inv c' (<[i := qu ++ [x]]> qs).
Proof.
  intros Hi Hr Hc Hq. destruct (rings_hold_lookup _ _ _ i r Hi Hr Hc) as (q' & Hq' & Hri). simplify_eq.
  pose proof Hri as [Rh Rt _ Rl _]. unfold comm_send_request, with_ring. rewrite Hr. destruct (_ =? _) eqn:E; btests.
  - rewrite (send_request_full r qu x Hri) by lia. rewrite list_insert_id by done. by destruct c.
  - destruct (send_request_ok r qu x Hri) as (r' & Hs & Hr').
    { unfold occupied, RING_SIZE in *. mlia. }
    rewrite Hs. eexists. split; [done|]. by apply rings_hold_insert.
Qed.

(** ** Examples *)

Definition ex_request (a : Z) : ShmRequest :=
  {| sq_op_type := 0; sq_addr := a; sq_size := 64; sq_timestamp := 0; sq_value := 0; sq_expected := 0; sq_data := [] |}.

Definition ex_response (v : Z) : ShmResponse := {| sp_status := 0; sp_latency_ns := 10; sp_old_value := v; sp_data := [] |}.

Definition ex_entry : Entry :=
  {| request_ready := true; response_ready := true; request := ex_request 7; response := ex_response 7 |}.

Definition ex_ring : ShmRingBuffer :=
  {| head := 5; tail := 9; pending_count := 3; entries := replicate 1024 ex_entry; total_requests := 1; total_responses := 2 |}.

Lemma ex_ring_sized : ring_sized ex_ring.
Proof. unfold ring_sized. cbn [ex_ring entries]. by rewrite length_replicate. Qed.

(** A run of the protocol: one request sent, and the server about to copy it while
    the client copies the next one. *)
Definition run_sys (cs : list bool) (q : ShmRequest) : Sys → Sys :=
  λ s, List.fold_left (λ s b,
    if (b : bool) then
      match sy_client s with
      | CIdle => {| sy_ring := sy_ring s; sy_client := client_start q (sy_ring s); sy_server := sy_server s;
                    sy_sent := sy_sent s; sy_got := sy_got s |}
      | _ => let '(pc, r, _) := client_step (sy_client s) (sy_ring s) in
             {| sy_ring := r; sy_client := pc; sy_server := sy_server s;
                sy_sent := sy_sent s ++ match sy_client s with CPublish q _ => [q] | _ => [] end;
                sy_got := sy_got s |}
      end
    else
      match sy_server s with
      | SIdle => {| sy_ring := sy_ring s; sy_client := sy_client s; sy_server := server_start (sy_ring s);
                    sy_sent := sy_sent s; sy_got := sy_got s |}
      | _ => let '(pc, r, _) := server_step (sy_server s) (sy_ring s) in
             {| sy_ring := r; sy_client := sy_client s; sy_server := pc; sy_sent := sy_sent s;
                sy_got := sy_got s ++ match sy_server s with SPublish _ q => [q] | _ => [] end |}
      end) cs s.

Lemma run_sys_reachable cs q s : rtc sys_step s (run_sys cs q s).
Proof.
  revert s. induction cs as [|b cs IH]; intros s; [apply rtc_refl|]. eapply rtc_l; [|apply IH]. clear IH.
  destruct s as [r0 cl srv sent got], b; cbn [sy_client sy_server sy_ring].
  - destruct cl; [by apply step_send|..];
      match goal with |- context [client_step ?c r0] => destruct (client_step c r0) as [[pc r] res] eqn:Hst end;
      by eapply step_client.
  - destruct srv; [by apply step_poll|..];
      match goal with |- context [server_step ?c r0] => destruct (server_step c r0) as [[pc r] res] eqn:Hst end;
      by eapply step_server.
Qed.

Definition ex_schedule : list bool := [true; true; true; true; false; true; true; true; false; true; true; true; false; false].

Definition ex_sys : Sys := run_sys ex_schedule (ex_request 64) (sys_start ex_ring).

Lemma ring_fifo_witness :
  ∃ q, sy_sent ex_sys = sy_got ex_sys ++ q ∧ Z.of_nat (length q) = occupied (sy_ring ex_sys) ∧ Z.of_nat (length q) < RING_SIZE ∧
    (sy_client ex_sys = CIdle → sy_server ex_sys = SIdle → pending_count (sy_ring ex_sys) = Z.of_nat (length q)).
Proof. apply (ring_fifo ex_ring ex_sys); [apply ex_ring_sized|apply run_sys_reachable]. Defined.

(** In the example the client is about to copy its second request into entry 1 while
    the server copies the first one from entry 0. *)
Lemma ring_no_race_witness :
  client_entry (sy_client ex_sys) = Some 1 ∧ server_entry (sy_server ex_sys) = Some 0 ∧ (1 : Z) ≠ 0.
Proof.
  do 2 (split; [vm_compute; reflexivity|]). apply (ring_no_race ex_ring ex_sys);
    [apply ex_ring_sized|apply run_sys_reachable|vm_compute; reflexivity|vm_compute; reflexivity].
Defined.

Lemma call_roundtrip_witness :
  ∃ r1 r2 r3 r4,
    send_request (ex_request 64) (initialize ex_ring) = (Some true, r1) ∧ take_request r1 = (Some (ex_request 64), r2) ∧
    send_response (ex_response 1) r2 = (true, r3) ∧ wait_for_response r3 = (Some (ex_response 1), r4) ∧ quiet r4.
Proof. apply (call_roundtrip (initialize ex_ring)). apply initialize_quiet, ex_ring_sized. Defined.

(** Three clients, the second one not connected; the first has two requests queued. *)
Definition ex_comm : ShmCommunication :=
  let r := initialize ex_ring in
  let c := {| connected := [true; false; true]; ring_buffers := [r; r; r] |} in
  (comm_send_request 1 (ex_request 2) (comm_send_request 3 (ex_request 3) (comm_send_request 1 (ex_request 1) c).2).2).2.

Lemma with_ring_inv c qs i r qu x :
  comm_inv c qs → ring_buffers c !! i = Some r → connected c !! i = Some true → qs !! i = Some qu →
  Z.of_nat (length qu) < RING_SIZE - 1 → comm_inv (comm_send_request (S i) x c).2 (<[i := qu ++ [x]]> qs).
Proof.
  intros Hi Hr Hc Hq Hl. destruct (rings_hold_lookup _ _ _ i r Hi Hr Hc) as (q' & Hq' & Hri). simplify_eq.
  pose proof Hri as [Rh Rt _ Rl _]. unfold comm_send_request, with_ring. rewrite Hr.
  destruct (send_request_ok r qu x Hri) as (r' & Hs & Hr'); [unfold RING_SIZE in *; lia|].
  rewrite Hs. by apply rings_hold_insert.
Qed.

Lemma ex_comm_inv : comm_inv ex_comm [[ex_request 1; ex_request 2]; []; [ex_request 3]].
Proof.
  unfold ex_comm. set (r := initialize ex_ring).
  assert (ring_inv r [] SIdle) as Hr by apply (sys_start_inv ex_ring ex_ring_sized).
  set (c := {| connected := _; ring_buffers := _ |}).
  assert (comm_inv c [[]; []; []]) as H0 by (unfold comm_inv; cbn; tauto).
  pose proof (with_ring_inv c _ 0 r [] (ex_request 1) H0 eq_refl eq_refl eq_refl eq_refl) as H1.
  eapply (with_ring_inv _ _ 2 r [] (ex_request 3)) in H1; [|done..].
  by eapply (with_ring_inv _ _ 0 _ [ex_request 1] (ex_request 2)) in H1.
Qed.

Lemma drain_serves_all_witness :
  ∃ c', drain 3 ex_comm = ([(1%nat, ex_request 1); (1%nat, ex_request 2); (3%nat, ex_request 3)], c') ∧
    wait_for_request c' = (None, c').
Proof. exact (drain_serves_all ex_comm _ ex_comm_inv). Defined.

Definition ex_comm_ring : ShmRingBuffer := default ex_ring (ring_buffers ex_comm !! 2%nat).

Lemma send_request_bounded_witness :
  ∃ c', comm_send_request 3 (ex_request 9) ex_comm = (Some true, c') ∧
    comm_inv c' [[ex_request 1; ex_request 2]; []; [ex_request 3; ex_request 9]].
Proof.
  apply (send_request_bounded ex_comm _ 2 ex_comm_ring [ex_request 3] (ex_request 9) ex_comm_inv); reflexivity.
Defined.

(** ** Observation *)

(** A reply that is not yet received is lost by the next send: the reply is stored at
    the head, and [send_request] clears the reply flag of the entry at the head. *)
Lemma pipelined_response_lost :
  let r0 := (take_request (send_request (ex_request 1) (initialize ex_ring)).2).2 in
  let r1 := (send_response (ex_response 1) r0).2 in
  (wait_for_response r1).1 = Some (ex_response 1) ∧
  (wait_for_response (send_request (ex_request 2) r1).2).1 = None.
Proof. vm_compute. split; reflexivity. Qed.
