(* ===== verification/SharedMem.v ===== *)
(** * Shared memory manager

    Models [SharedMemoryManager] of include/shared_memory_manager.h and
    src/shared_memory_manager.cc: the bytes behind the simulated CXL memory,
    in a POSIX shared memory object or a file that is mapped ([SharedMemory],
    [FileMmap]) or in the SSD streaming backend ([SsdStream], by the model of
    SsdBackend).  Built with CXLMEMSIM_HAS_SSD_STREAMING_BACKEND.

    The operating system is outside of the sources: [OsEnv] is what
    [initialize] finds and the outcome of its calls, [sm_msync] the outcomes of
    the calls of [msync], in order (success when the list is empty).  A mapped
    access outside of the mapping is undefined behaviour and shown as [Fault].
    Pointers into the data area are offsets; a null pointer is [None].

    The specification is a flat memory: [mem] by offset of the data area, with
    [offset_of] the offset of an address, [get] and [put] the bytes of a range
    of addresses. *)

From S2P Require Import Prelude SsdBackend.

(** ** Data *)

Inductive CoherencyState := INVALID | SHARED | EXCLUSIVE | MODIFIED.

#[global] Instance CoherencyState_eq_dec : EqDecision CoherencyState.
Proof. solve_decision. Defined.

Record CachelineMetadata := {
  cm_state : CoherencyState;
  cm_sharers : gset Z;
  cm_owner : Z;
  cm_last_access_time : Z;
  cm_has_dirty_update : bool;
  cm_dirty_update_time : Z;
  cm_version : Z
}.

Definition CachelineMetadata_new : CachelineMetadata :=
  {| cm_state := INVALID; cm_sharers := ∅; cm_owner := -1; cm_last_access_time := 0;
     cm_has_dirty_update := false; cm_dirty_update_time := 0; cm_version := 0 |}.

Inductive BackingMode := SharedMemory | FileMmap | SsdStream.

#[global] Instance BackingMode_eq_dec : EqDecision BackingMode.
Proof. solve_decision. Defined.

Record SharedMemoryHeader := {
  sh_magic : Z;
  sh_version : Z;
  sh_total_size : Z;
  sh_data_offset : Z;
  sh_metadata_offset : Z;
  sh_num_cachelines : Z;
  sh_base_addr : Z
}.

Definition zero_header : SharedMemoryHeader :=
  {| sh_magic := 0; sh_version := 0; sh_total_size := 0; sh_data_offset := 0; sh_metadata_offset := 0;
     sh_num_cachelines := 0; sh_base_addr := 0 |}.

Record MemoryRegion := { mr_base_addr : Z; mr_size : Z; mr_allocated : bool }.

Definition MAGIC_NUMBER : Z := 0x43584C4D454D5348.
Definition FORMAT_VERSION : Z := 1.
Definition SHM_CACHELINE_SIZE : Z := 64.

(** [sizeof(SharedMemoryHeader)]: seven 8-byte fields. *)
Definition HEADER_BYTES : Z := 56.

Record SharedMemoryManager := {
  sm_shm_size : Z;
  sm_capacity_mb : Z;
  sm_backing_mode : BackingMode;
  sm_use_file_backing : bool;
  sm_ssd_config : SsdStreamingConfig;
  sm_ssd_backend : option SsdStreamingBackend;
  sm_header : option SharedMemoryHeader;
  sm_data_area : option (gmap Z Z);
  sm_metadata_cache : gmap Z CachelineMetadata;
  sm_regions : list MemoryRegion;
  sm_msync : list bool
}.

(** A shared memory object or file: its size, and the bytes after the header. *)
Record Segment := { sg_size : Z; sg_header : SharedMemoryHeader; sg_data : gmap Z Z }.

Record OsEnv := {
  os_existing : option Segment;             (** the object or file of that name *)
  os_create : bool;                         (** creating it, or opening the file *)
  os_truncate : bool;                       (** [ftruncate] *)
  os_map : bool;                            (** [mmap] *)
  os_ssd_open : bool;                       (** opening the backing file of the SSD backend *)
  os_ssd_disk : gmap Z (list Z);
  os_ssd_io : list IoOutcome;
  os_ssd_alloc : list bool;
  os_base_addr : option Z                   (** CXL_BASE_ADDR, parsed *)
}.

(** The outcome of an access. *)
Inductive Acc (A : Type) := Done (a : A) | Refused | Fault.
Arguments Done {A} _.
Arguments Refused {A}.
Arguments Fault {A}.

(** *** Field updates *)

Definition set_header (h : option SharedMemoryHeader) (s : SharedMemoryManager) : SharedMemoryManager :=
  {| sm_shm_size := sm_shm_size s; sm_capacity_mb := sm_capacity_mb s; sm_backing_mode := sm_backing_mode s;
     sm_use_file_backing := sm_use_file_backing s; sm_ssd_config := sm_ssd_config s;
     sm_ssd_backend := sm_ssd_backend s; sm_header := h; sm_data_area := sm_data_area s;
     sm_metadata_cache := sm_metadata_cache s; sm_regions := sm_regions s; sm_msync := sm_msync s |}.

Definition set_data (d : option (gmap Z Z)) (s : SharedMemoryManager) : SharedMemoryManager :=
  {| sm_shm_size := sm_shm_size s; sm_capacity_mb := sm_capacity_mb s; sm_backing_mode := sm_backing_mode s;
     sm_use_file_backing := sm_use_file_backing s; sm_ssd_config := sm_ssd_config s;
     sm_ssd_backend := sm_ssd_backend s; sm_header := sm_header s; sm_data_area := d;
     sm_metadata_cache := sm_metadata_cache s; sm_regions := sm_regions s; sm_msync := sm_msync s |}.

Definition set_backend (b : option SsdStreamingBackend) (s : SharedMemoryManager) : SharedMemoryManager :=
  {| sm_shm_size := sm_shm_size s; sm_capacity_mb := sm_capacity_mb s; sm_backing_mode := sm_backing_mode s;
     sm_use_file_backing := sm_use_file_backing s; sm_ssd_config := sm_ssd_config s;
     sm_ssd_backend := b; sm_header := sm_header s; sm_data_area := sm_data_area s;
     sm_metadata_cache := sm_metadata_cache s; sm_regions := sm_regions s; sm_msync := sm_msync s |}.

Definition set_metadata (m : gmap Z CachelineMetadata) (s : SharedMemoryManager) : SharedMemoryManager :=
  {| sm_shm_size := sm_shm_size s; sm_capacity_mb := sm_capacity_mb s; sm_backing_mode := sm_backing_mode s;
     sm_use_file_backing := sm_use_file_backing s; sm_ssd_config := sm_ssd_config s;
     sm_ssd_backend := sm_ssd_backend s; sm_header := sm_header s; sm_data_area := sm_data_area s;
     sm_metadata_cache := m; sm_regions := sm_regions s; sm_msync := sm_msync s |}.

Definition set_regions (r : list MemoryRegion) (s : SharedMemoryManager) : SharedMemoryManager :=
  {| sm_shm_size := sm_shm_size s; sm_capacity_mb := sm_capacity_mb s; sm_backing_mode := sm_backing_mode s;
     sm_use_file_backing := sm_use_file_backing s; sm_ssd_config := sm_ssd_config s;
     sm_ssd_backend := sm_ssd_backend s; sm_header := sm_header s; sm_data_area := sm_data_area s;
     sm_metadata_cache := sm_metadata_cache s; sm_regions := r; sm_msync := sm_msync s |}.

Definition set_msync (l : list bool) (s : SharedMemoryManager) : SharedMemoryManager :=
  {| sm_shm_size := sm_shm_size s; sm_capacity_mb := sm_capacity_mb s; sm_backing_mode := sm_backing_mode s;
     sm_use_file_backing := sm_use_file_backing s; sm_ssd_config := sm_ssd_config s;
     sm_ssd_backend := sm_ssd_backend s; sm_header := sm_header s; sm_data_area := sm_data_area s;
     sm_metadata_cache := sm_metadata_cache s; sm_regions := sm_regions s; sm_msync := l |}.

(** ** Construction *)

Definition default_ssd_config : SsdStreamingConfig :=
  {| sc_backing_path := EmptyString; sc_capacity_bytes := 0; sc_page_size := 4096; sc_io_chunk_size := 65536;
     sc_cache_pages := 4096; sc_read_ahead_pages := 16; sc_use_io_uring := true; sc_use_odirect := true |}.

Definition new_manager (capacity_mb : Z) (mode : BackingMode) (use_file : bool) (c : SsdStreamingConfig) (msync : list bool)
    : SharedMemoryManager :=
  {| sm_shm_size := capacity_mb *w 1024 *w 1024; sm_capacity_mb := capacity_mb; sm_backing_mode := mode;
     sm_use_file_backing := use_file; sm_ssd_config := c; sm_ssd_backend := None; sm_header := None;
     sm_data_area := None; sm_metadata_cache := ∅; sm_regions := []; sm_msync := msync |}.

Definition SharedMemoryManager_new (capacity_mb : Z) (msync : list bool) : SharedMemoryManager :=
  new_manager capacity_mb SharedMemory false default_ssd_config msync.

Definition SharedMemoryManager_file (capacity_mb : Z) (use_file : bool) (msync : list bool) : SharedMemoryManager :=
  new_manager capacity_mb (if use_file then FileMmap else SharedMemory) use_file default_ssd_config msync.

Definition with_capacity (cap : Z) (c : SsdStreamingConfig) : SsdStreamingConfig :=
  {| sc_backing_path := sc_backing_path c; sc_capacity_bytes := cap; sc_page_size := sc_page_size c;
     sc_io_chunk_size := sc_io_chunk_size c; sc_cache_pages := sc_cache_pages c;
     sc_read_ahead_pages := sc_read_ahead_pages c; sc_use_io_uring := sc_use_io_uring c;
     sc_use_odirect := sc_use_odirect c |}.

Definition SharedMemoryManager_ssd (capacity_mb : Z) (c : SsdStreamingConfig) (msync : list bool) : SharedMemoryManager :=
  new_manager capacity_mb SsdStream false
    (if sc_capacity_bytes c =? 0 then with_capacity (capacity_mb *w 1024 *w 1024) c else c) msync.

(** ** Initialization *)

Definition data_capacity_bytes (s : SharedMemoryManager) : Z :=
  if decide (sm_backing_mode s = SsdStream) then sc_capacity_bytes (sm_ssd_config s)
  else if sm_shm_size s <? HEADER_BYTES then 0 else sm_shm_size s - HEADER_BYTES.

Definition new_segment (size : Z) : Segment := {| sg_size := size; sg_header := zero_header; sg_data := ∅ |}.

(** An existing object of the right size is reused, else a new one is created. *)
Definition create_shared_memory (env : OsEnv) (s : SharedMemoryManager) : option Segment :=
  let created := if os_create env && os_truncate env then Some (new_segment (sm_shm_size s)) else None in
  match os_existing env with
  | Some g => if sg_size g =? sm_shm_size s then Some g else created
  | None => created
  end.

(** An existing file is cut or extended to the size; its bytes are kept. *)
Definition create_file_backing (env : OsEnv) (s : SharedMemoryManager) : option Segment :=
  if os_create env && os_truncate env then
    Some match os_existing env with
         | Some g => {| sg_size := sm_shm_size s; sg_header := sg_header g;
                        sg_data := filter (λ kv, kv.1 < sm_shm_size s - HEADER_BYTES) (sg_data g) |}
         | None => new_segment (sm_shm_size s)
         end
  else None.

(** The configuration handed to the backend: [uint32_t] where the backend has it. *)
Definition backend_config (c : SsdStreamingConfig) : SsdStreamingConfig :=
  {| sc_backing_path := sc_backing_path c; sc_capacity_bytes := sc_capacity_bytes c;
     sc_page_size := u32 (sc_page_size c); sc_io_chunk_size := u32 (sc_io_chunk_size c);
     sc_cache_pages := sc_cache_pages c; sc_read_ahead_pages := u32 (sc_read_ahead_pages c);
     sc_use_io_uring := sc_use_io_uring c; sc_use_odirect := sc_use_odirect c |}.

Definition create_ssd_streaming_backend (env : OsEnv) (s : SharedMemoryManager) : bool * SharedMemoryManager :=
  if decide (sc_backing_path (sm_ssd_config s) = EmptyString) then (false, s)
  else
    let b := SsdStreamingBackend_new (backend_config (sm_ssd_config s)) (os_ssd_disk env) (os_ssd_io env) (os_ssd_alloc env) in
    let '(ok, b') := SsdBackend.initialize (os_ssd_open env) b in
    (ok, set_backend (Some b') s).

(** The header is kept when it carries the magic number, except in SSD mode. *)
Definition initialize_header (env : OsEnv) (s : SharedMemoryManager) : SharedMemoryManager :=
  match sm_header s with
  | None => s
  | Some h =>
      if negb (bool_decide (sm_backing_mode s = SsdStream)) && (sh_magic h =? MAGIC_NUMBER) && (sh_version h =? FORMAT_VERSION)
      then s
      else
        let ssd := bool_decide (sm_backing_mode s = SsdStream) in
        set_header (Some
          {| sh_magic := MAGIC_NUMBER; sh_version := FORMAT_VERSION;
             sh_total_size := if ssd then sc_capacity_bytes (sm_ssd_config s) else sm_shm_size s;
             sh_data_offset := if ssd then 0 else HEADER_BYTES; sh_metadata_offset := 0;
             sh_num_cachelines := data_capacity_bytes s / SHM_CACHELINE_SIZE;
             sh_base_addr := default 0 (os_base_addr env) |}) s
  end.

Definition initialize_data_area (s : SharedMemoryManager) : SharedMemoryManager :=
  match sm_header s with
  | None => s
  | Some h =>
      let s1 := if bool_decide (sm_backing_mode s = SsdStream) then s
                else if negb (sh_magic h =? MAGIC_NUMBER) then set_data (Some ∅) s else s in
      set_regions [{| mr_base_addr := sh_base_addr h; mr_size := sh_num_cachelines h *w SHM_CACHELINE_SIZE;
                      mr_allocated := false |}] s1
  end.

Definition map_shared_memory (env : OsEnv) (g : Segment) (s : SharedMemoryManager) : bool * SharedMemoryManager :=
  if os_map env then (true, set_data (Some (sg_data g)) (set_header (Some (sg_header g)) s)) else (false, s).

Definition initialize (env : OsEnv) (s : SharedMemoryManager) : bool * SharedMemoryManager :=
  let finish s1 := (true, initialize_data_area (initialize_header env s1)) in
  if decide (sm_backing_mode s = SsdStream) then
    match create_ssd_streaming_backend env (set_data None (set_header (Some zero_header) s)) with
    | (true, s1) => finish s1
    | (false, s1) => (false, s1)
    end
  else
    match (if sm_use_file_backing s then create_file_backing env s else create_shared_memory env s) with
    | None => (false, s)
    | Some g => match map_shared_memory env g s with
                | (true, s1) => finish s1
                | (false, s1) => (false, s1)
                end
    end.

Definition set_base_addr (addr : Z) (s : SharedMemoryManager) : SharedMemoryManager :=
  match sm_header s with
  | None => s
  | Some h => set_header (Some {| sh_magic := sh_magic h; sh_version := sh_version h; sh_total_size := sh_total_size h;
                sh_data_offset := sh_data_offset h; sh_metadata_offset := sh_metadata_offset h;
                sh_num_cachelines := sh_num_cachelines h; sh_base_addr := addr |}) s
  end.

(** ** Addresses *)

Definition cacheline_to_index (s : SharedMemoryManager) (cacheline_addr : Z) : Z :=
  match sm_header s with
  | None => 0
  | Some h =>
      if sh_num_cachelines h =? 0 then 0
      else if sh_base_addr h =? 0 then (cacheline_addr / SHM_CACHELINE_SIZE) mod sh_num_cachelines h
      else (cacheline_addr -w sh_base_addr h) / SHM_CACHELINE_SIZE
  end.

Definition address_to_backend_offset (s : SharedMemoryManager) (addr access_size : Z) : option Z :=
  match sm_header s with
  | None => None
  | Some h =>
      if access_size =? 0 then None
      else
        let cacheline_addr := cl_align addr in
        let cacheline_offset := addr - cacheline_addr in
        if SHM_CACHELINE_SIZE <? cacheline_offset +w access_size then None
        else
          let index := cacheline_to_index s cacheline_addr in
          if sh_num_cachelines h <=? index then None
          else Some (index *w SHM_CACHELINE_SIZE +w cacheline_offset)
  end.

(** The offset of a line in the data area. *)
Definition get_cacheline_data (s : SharedMemoryManager) (cacheline_addr : Z) : option Z :=
  match sm_header s, sm_data_area s with
  | Some h, Some _ =>
      let index := cacheline_to_index s cacheline_addr in
      if sh_base_addr h =? 0 then Some (index *w SHM_CACHELINE_SIZE)
      else if cacheline_addr <? sh_base_addr h then None
      else if sh_num_cachelines h <=? index then None
      else Some (index *w SHM_CACHELINE_SIZE)
  | _, _ => None
  end.

Definition is_valid_address (s : SharedMemoryManager) (addr : Z) : bool :=
  match sm_header s with
  | None => false
  | Some h =>
      if sh_base_addr h =? 0 then true
      else (sh_base_addr h <=? addr) && (addr <? sh_base_addr h +w (sh_num_cachelines h *w SHM_CACHELINE_SIZE))
  end.

(** ** Access to the mapping *)

Fixpoint load_bytes (n : nat) (o : Z) (d : gmap Z Z) : list Z :=
  match n with O => [] | S n' => default 0 (d !! o) :: load_bytes n' (o + 1) d end.

Fixpoint store_bytes (bs : list Z) (o : Z) (d : gmap Z Z) : gmap Z Z :=
  match bs with [] => d | b :: bs' => store_bytes bs' (o + 1) (<[o := b]> d) end.

Definition in_mapping (s : SharedMemoryManager) (o n : Z) : bool := (0 <=? o) && (o + n <=? sm_shm_size s - HEADER_BYTES).

(** [memcpy] from and to the data area. *)
Definition copy_out (s : SharedMemoryManager) (o n : Z) : Acc (list Z) :=
  match sm_data_area s with
  | Some d => if in_mapping s o n then Done (load_bytes (Z.to_nat n) o d) else Fault
  | None => Fault
  end.

Definition copy_in (s : SharedMemoryManager) (o : Z) (bs : list Z) : Acc SharedMemoryManager :=
  match sm_data_area s with
  | Some d => if in_mapping s o (Z.of_nat (length bs)) then Done (set_data (Some (store_bytes bs o d)) s) else Fault
  | None => Fault
  end.

Definition msync (s : SharedMemoryManager) : bool * SharedMemoryManager :=
  match sm_msync s with [] => (true, s) | b :: l => (b, set_msync l s) end.

(** ** Reads and writes *)

(** The read of a range in modulo mapping, line by line. *)
Fixpoint read_lines (fuel : nat) (s : SharedMemoryManager) (current_addr size : Z) : Acc (list Z) :=
  match fuel with
  | O => Fault
  | S fuel' =>
      if size <=? 0 then Done []
      else
        let cacheline_addr := cl_align current_addr in
        let index := cacheline_to_index s cacheline_addr in
        let offset := current_addr - cacheline_addr in
        let n := Z.min size (SHM_CACHELINE_SIZE - offset) in
        match copy_out s (index *w SHM_CACHELINE_SIZE + offset) n with
        | Done bs => match read_lines fuel' s (current_addr +w n) (size - n) with
                     | Done rest => Done (bs ++ rest)
                     | e => e
                     end
        | e => e
        end
  end.

Fixpoint write_lines (fuel : nat) (s : SharedMemoryManager) (current_addr : Z) (data : list Z) : Acc SharedMemoryManager :=
  match fuel with
  | O => Fault
  | S fuel' =>
      match data with
      | [] => Done s
      | _ =>
          let cacheline_addr := cl_align current_addr in
          let index := cacheline_to_index s cacheline_addr in
          let offset := current_addr - cacheline_addr in
          let n := Z.min (Z.of_nat (length data)) (SHM_CACHELINE_SIZE - offset) in
          match copy_in s (index *w SHM_CACHELINE_SIZE + offset) (take (Z.to_nat n) data) with
          | Done s1 => write_lines fuel' s1 (current_addr +w n) (drop (Z.to_nat n) data)
          | e => e
          end
      end
  end.

(** The same in SSD mode, through the backend. *)
Fixpoint ssd_read_lines (fuel : nat) (s : SharedMemoryManager) (b : SsdStreamingBackend) (current_addr size : Z)
    : Acc (list Z) * SsdStreamingBackend :=
  match fuel with
  | O => (Fault, b)
  | S fuel' =>
      if size <=? 0 then (Done [], b)
      else
        let offset := current_addr - cl_align current_addr in
        let n := Z.min size (SHM_CACHELINE_SIZE - offset) in
        match address_to_backend_offset s current_addr n with
        | None => (Refused, b)
        | Some o =>
            match SsdBackend.read b o n with
            | (None, b1) => (Refused, b1)
            | (Some bs, b1) =>
                match ssd_read_lines fuel' s b1 (current_addr +w n) (size - n) with
                | (Done rest, b2) => (Done (bs ++ rest), b2)
                | r => r
                end
            end
        end
  end.

Fixpoint ssd_write_lines (fuel : nat) (s : SharedMemoryManager) (b : SsdStreamingBackend) (current_addr : Z) (data : list Z)
    : Acc unit * SsdStreamingBackend :=
  match fuel with
  | O => (Fault, b)
  | S fuel' =>
      match data with
      | [] => (Done tt, b)
      | _ =>
          let offset := current_addr - cl_align current_addr in
          let n := Z.min (Z.of_nat (length data)) (SHM_CACHELINE_SIZE - offset) in
          match address_to_backend_offset s current_addr n with
          | None => (Refused, b)
          | Some o =>
              match SsdBackend.write b o (take (Z.to_nat n) data) with
              | (false, b1) => (Refused, b1)
              | (true, b1) => ssd_write_lines fuel' s b1 (current_addr +w n) (drop (Z.to_nat n) data)
              end
          end
      end
  end.

Definition access_size_ok (size : Z) : bool := negb (size =? 0) && (size <=? SHM_CACHELINE_SIZE).

(** In modulo mapping any address is accepted. *)
Definition modulo_mapping (s : SharedMemoryManager) : bool :=
  match sm_header s with Some h => sh_base_addr h =? 0 | None => false end.

Definition read_cacheline (s : SharedMemoryManager) (addr size : Z) : Acc (list Z) * SharedMemoryManager :=
  if negb (access_size_ok size) then (Refused, s)
  else if decide (sm_backing_mode s = SsdStream) then
    match sm_ssd_backend s with
    | None => (Refused, s)
    | Some b => let '(r, b') := ssd_read_lines (S (Z.to_nat size)) s b addr size in (r, set_backend (Some b') s)
    end
  else if modulo_mapping s then (read_lines (S (Z.to_nat size)) s addr size, s)
  else
    match get_cacheline_data s (cl_align addr) with
    | None => (Refused, s)
    | Some line =>
        let offset := addr - cl_align addr in
        if SHM_CACHELINE_SIZE <? offset + size then (Refused, s) else (copy_out s (line + offset) size, s)
    end.

(** The end of a mapped write: [msync]. *)
Definition synced (s : SharedMemoryManager) : Acc unit * SharedMemoryManager :=
  let '(ok, s1) := msync s in (if ok then Done tt else Refused, s1).

Definition write_cacheline (s : SharedMemoryManager) (addr : Z) (data : list Z) : Acc unit * SharedMemoryManager :=
  let size := Z.of_nat (length data) in
  if negb (access_size_ok size) then (Refused, s)
  else if decide (sm_backing_mode s = SsdStream) then
    match sm_ssd_backend s with
    | None => (Refused, s)
    | Some b => let '(r, b') := ssd_write_lines (S (length data)) s b addr data in (r, set_backend (Some b') s)
    end
  else if modulo_mapping s then
    match write_lines (S (length data)) s addr data with
    | Done s1 => synced s1
    | Refused => (Refused, s)
    | Fault => (Fault, s)
    end
  else
    match get_cacheline_data s (cl_align addr) with
    | None => (Refused, s)
    | Some line =>
        let offset := addr - cl_align addr in
        if SHM_CACHELINE_SIZE <? offset + size then (Refused, s)
        else match copy_in s (line + offset) data with
             | Done s1 => synced s1
             | Refused => (Refused, s)
             | Fault => (Fault, s)
             end
    end.

(** ** Flush and hints *)

Definition flush (s : SharedMemoryManager) : bool * SharedMemoryManager :=
  if decide (sm_backing_mode s = SsdStream) then
    match sm_ssd_backend s with
    | None => (false, s)
    | Some b => let '(ok, b') := SsdBackend.flush b in (ok, set_backend (Some b') s)
    end
  else
    match sm_data_area s with
    | None => (true, s)
    | Some _ => if sm_shm_size s =? 0 then (true, s) else msync s
    end.

Definition flush_cacheline (s : SharedMemoryManager) (addr size : Z) : bool * SharedMemoryManager := flush s.

(** [prefetch], [evict_after], [pin] and [unpin]: only the SSD backend does anything. *)
Definition hint (op : SsdStreamingBackend → Z → Z → bool * SsdStreamingBackend) (s : SharedMemoryManager) (addr size : Z)
    : bool * SharedMemoryManager :=
  if decide (sm_backing_mode s = SsdStream) then
    match sm_ssd_backend s, address_to_backend_offset s addr 1 with
    | Some b, Some o => let '(ok, b') := op b o size in (ok, set_backend (Some b') s)
    | _, _ => (false, s)
    end
  else (true, s).

Definition prefetch : SharedMemoryManager → Z → Z → bool * SharedMemoryManager := hint SsdBackend.prefetch.
Definition evict_after : SharedMemoryManager → Z → Z → bool * SharedMemoryManager := hint SsdBackend.evict_after.
Definition pin : SharedMemoryManager → Z → Z → bool * SharedMemoryManager := hint SsdBackend.pin.
Definition unpin : SharedMemoryManager → Z → Z → bool * SharedMemoryManager := hint SsdBackend.unpin.

Definition set_streaming (enabled : bool) (s : SharedMemoryManager) : SharedMemoryManager :=
  if decide (sm_backing_mode s = SsdStream) then
    match sm_ssd_backend s with
    | Some b => if enabled then set_backend (Some (SsdBackend.set_streaming b 0 (data_capacity_bytes s)).2) s else s
    | None => s
    end
  else s.

(** ** Atomics

    64-bit little-endian words.  The read-modify-write of the mapped modes is
    one atomic instruction; in SSD mode the server holds its lock across it. *)

(** The current word, and the word stored over it; [None]: not stored. *)
Definition atomic_rmw (s : SharedMemoryManager) (addr : Z) (f : Z → option Z) : Acc Z * SharedMemoryManager :=
  let offset := addr - cl_align addr in
  if SHM_CACHELINE_SIZE <? offset + 8 then (Refused, s)
  else if decide (sm_backing_mode s = SsdStream) then
    match read_cacheline s addr 8 with
    | (Done bs, s1) =>
        match f (le_decode bs) with
        | None => (Done (le_decode bs), s1)
        | Some v =>
            match write_cacheline s1 addr (le_encode 8 v) with
            | (Done _, s2) => (Done (le_decode bs), s2)
            | (Refused, s2) => (Refused, s2)
            | (Fault, s2) => (Fault, s2)
            end
        end
    | (Refused, s1) => (Refused, s1)
    | (Fault, s1) => (Fault, s1)
    end
  else
    match get_cacheline_data s (cl_align addr) with
    | None => (Refused, s)
    | Some line =>
        match copy_out s (line + offset) 8 with
        | Done bs =>
            match f (le_decode bs) with
            | None => (Done (le_decode bs), s)
            | Some v =>
                match copy_in s (line + offset) (le_encode 8 v) with
                | Done s1 => (Done (le_decode bs), (flush_cacheline s1 addr 8).2)
                | Refused => (Refused, s)
                | Fault => (Fault, s)
                end
            end
        | Refused => (Refused, s)
        | Fault => (Fault, s)
        end
    end.

Definition atomic_fetch_add_uint64 (s : SharedMemoryManager) (addr value : Z) : Acc Z * SharedMemoryManager :=
  atomic_rmw s addr (λ old, Some (old +w value)).

Definition atomic_compare_exchange_uint64 (s : SharedMemoryManager) (addr expected desired : Z) : Acc Z * SharedMemoryManager :=
  atomic_rmw s addr (λ old, if old =? expected then Some desired else None).

(** ** Metadata, regions and statistics *)

Definition metadata_of (s : SharedMemoryManager) (cacheline_addr : Z) : CachelineMetadata :=
  default CachelineMetadata_new (sm_metadata_cache s !! cacheline_addr).

(** The entry is created when it is missing; the pointer is the key. *)
Definition get_cacheline_metadata (s : SharedMemoryManager) (cacheline_addr : Z) : SharedMemoryManager :=
  set_metadata (<[cacheline_addr := metadata_of s cacheline_addr]> (sm_metadata_cache s)) s.

Definition put_metadata (cacheline_addr : Z) (m : CachelineMetadata) (s : SharedMemoryManager) : SharedMemoryManager :=
  set_metadata (<[cacheline_addr := m]> (sm_metadata_cache s)) s.

Definition set_allocated (b : bool) (r : MemoryRegion) : MemoryRegion :=
  {| mr_base_addr := mr_base_addr r; mr_size := mr_size r; mr_allocated := b |}.

Definition region_fits (addr size : Z) (r : MemoryRegion) : bool :=
  (mr_base_addr r <=? addr) && (addr +w size <=? mr_base_addr r +w mr_size r) && negb (mr_allocated r).

Definition allocate_region (s : SharedMemoryManager) (addr size : Z) : bool * SharedMemoryManager :=
  match update_first (region_fits addr size) (set_allocated true) (sm_regions s) with
  | Some rs => (true, set_regions rs s)
  | None => (false, s)
  end.

Definition deallocate_region (s : SharedMemoryManager) (addr : Z) : bool * SharedMemoryManager :=
  match update_first (λ r, (mr_base_addr r =? addr) && mr_allocated r) (set_allocated false) (sm_regions s) with
  | Some rs => (true, set_regions rs s)
  | None => (false, s)
  end.

Record SharedMemoryInfo := { in_size : Z; in_base_addr : Z; in_num_cachelines : Z }.

Definition get_shm_info (s : SharedMemoryManager) : SharedMemoryInfo :=
  {| in_size := if decide (sm_backing_mode s = SsdStream) then data_capacity_bytes s else sm_shm_size s;
     in_base_addr := match sm_header s with Some h => sh_base_addr h | None => 0 end;
     in_num_cachelines := match sm_header s with Some h => sh_num_cachelines h | None => 0 end |}.

Record MemoryStats := { ms_total_capacity : Z; ms_used_memory : Z; ms_num_cachelines : Z; ms_active_cachelines : Z }.

Definition get_stats (s : SharedMemoryManager) : MemoryStats :=
  let active := Z.of_nat (size (sm_metadata_cache s)) in
  {| ms_total_capacity := sm_capacity_mb s *w 1024 *w 1024; ms_used_memory := active *w SHM_CACHELINE_SIZE;
     ms_num_cachelines := match sm_header s with Some h => sh_num_cachelines h | None => 0 end;
     ms_active_cachelines := active |}.

(** ** Specification: a flat memory *)

(** The byte at an offset of the data area. *)
Definition mem (s : SharedMemoryManager) (o : Z) : Z :=
  match sm_ssd_backend s, sm_data_area s with
  | Some b, _ => logical b o
  | None, Some d => default 0 (d !! o)
  | None, None => 0
  end.

(** The offset of an address; two addresses with the same offset alias. *)
Definition offset_of (s : SharedMemoryManager) (a : Z) : Z := cacheline_to_index s (cl_align a) * SHM_CACHELINE_SIZE + a mod SHM_CACHELINE_SIZE.

(** The bytes at [a], [a + 1], ... of a memory with offsets [off]. *)
Fixpoint get (off : Z → Z) (a : Z) (n : nat) (f : Z → Z) : list Z :=
  match n with O => [] | S n' => f (off a) :: get off (a +w 1) n' f end.

Fixpoint put (off : Z → Z) (a : Z) (bs : list Z) (f : Z → Z) : Z → Z :=
  match bs with [] => f | b :: bs' => put off (a +w 1) bs' (λ o, if o =? off a then b else f o) end.

(** ** Invariant of an initialized manager *)

Record shm_inv (s : SharedMemoryManager) : Prop := {
  iv_header : ∃ h, sm_header s = Some h ∧ 0 < sh_num_cachelines h ∧ sh_num_cachelines h * 64 < TWO64 ∧ is_u64 (sh_base_addr h) ∧
    (sm_backing_mode s ≠ SsdStream → HEADER_BYTES + sh_num_cachelines h * 64 <= sm_shm_size s) ∧
    (sm_backing_mode s = SsdStream → sh_num_cachelines h * 64 <= sc_capacity_bytes (sm_ssd_config s));
  iv_direct : sm_backing_mode s ≠ SsdStream → is_Some (sm_data_area s) ∧ sm_ssd_backend s = None;
  iv_ssd : sm_backing_mode s = SsdStream → ∃ b, sm_ssd_backend s = Some b ∧ sb_initialized b = true ∧ ssd_inv b ∧ quiet b
}.

(** ** Lemmas: ranges of addresses *)

Lemma addw_addw a i j : (a +w i) +w j = a +w (i + j).
Proof. unfold u64. rewrite Zplus_mod_idemp_l. f_equal. lia. Qed.

Lemma addw_0 a : is_u64 a → a +w 0 = a.
Proof. intros. rewrite Z.add_0_r. by apply u64_small. Qed.

Lemma get_length off a n f : length (get off a n f) = n.
Proof. revert a. induction n as [|n IH]; intros a; simpl; auto. Qed.

Lemma get_app off a n m f :
  is_u64 a → get off a (n + m) f = get off a n f ++ get off (a +w Z.of_nat n) m f.
Proof.
  revert a. induction n as [|n IH]; intros a Ha; simpl; [by rewrite addw_0|].
  rewrite IH by apply u64_range. rewrite addw_addw. repeat f_equal. lia.
Qed.

Lemma put_app off a bs cs f :
  is_u64 a → put off a (bs ++ cs) f = put off (a +w Z.of_nat (length bs)) cs (put off a bs f).
Proof.
  revert a f. induction bs as [|b bs IH]; intros a f Ha; simpl; [by rewrite addw_0|].
  rewrite IH by apply u64_range. rewrite addw_addw. repeat f_equal. lia.
Qed.

Lemma put_ext off a bs f g : (∀ o, f o = g o) → ∀ o, put off a bs f o = put off a bs g o.
Proof.
  revert a f g. induction bs as [|b bs IH]; intros a f g H; simpl; [done|].
  apply IH. intros o. by destruct (_ =? _).
Qed.

Lemma get_ext off a n f g : (∀ o, f o = g o) → get off a n f = get off a n g.
Proof. intros H. revert a. induction n as [|n IH]; intros a; simpl; [done|]. by rewrite H, IH. Qed.

(** The offset functions of the manager: contiguous within a line, and the
    position in the line is kept. *)
Class LineOffsets (off : Z → Z) := {
  off_line : ∀ a i, is_u64 a → 0 <= i → a mod 64 + i < 64 → off (a + i) = off a + i;
  off_mod : ∀ a, is_u64 a → off a mod 64 = a mod 64
}.

Lemma put_other off a bs f o :
  (∀ i, 0 <= i < Z.of_nat (length bs) → o ≠ off (a +w i)) → is_u64 a → put off a bs f o = f o.
Proof.
  revert a f. induction bs as [|b bs IH]; intros a f H Ha; simpl; [done|]. simpl in H.
  rewrite IH; [|intros i Hi; rewrite addw_addw; apply H; lia|apply u64_range].
  rewrite (proj2 (Z.eqb_neq _ _)); [done|]. rewrite <- (addw_0 a) by done. apply H. lia.
Qed.

(** Addresses less than a line apart do not alias. *)
Lemma off_distinct off `{LineOffsets off} a i j :
  0 <= i < 64 → 0 <= j < 64 → i ≠ j → off (a +w i) ≠ off (a +w j).
Proof.
  intros Hi Hj Hne Heq. pose proof (off_mod (a +w i) (u64_range _)) as H1. pose proof (off_mod (a +w j) (u64_range _)) as H2.
  rewrite Heq in H1. rewrite H1 in H2. unfold u64 in H2. mlia.
Qed.

Lemma get_put off `{LineOffsets off} a bs f :
  is_u64 a → Z.of_nat (length bs) <= 64 → get off a (length bs) (put off a bs f) = bs.
Proof.
  intros Ha. revert a f Ha. induction bs as [|b bs IH]; intros a f Ha Hl; simpl in *; [done|]. f_equal.
  - rewrite put_other; [by rewrite Z.eqb_refl| |apply u64_range]. intros i Hi. rewrite addw_addw.
    pose proof (off_distinct off a 0 (1 + i)) as Hd. rewrite addw_0 in Hd by done. apply Hd; lia.
  - apply IH; [apply u64_range|lia].
Qed.

(** A range that aliases no address of a write keeps its bytes. *)
Lemma get_put_other off a n b bs f :
  is_u64 a → is_u64 b →
  (∀ i j, 0 <= i < Z.of_nat n → 0 <= j < Z.of_nat (length bs) → off (a +w i) ≠ off (b +w j)) →
  get off a n (put off b bs f) = get off a n f.
Proof.
  intros Ha Hb. revert a Ha. induction n as [|n IH]; intros a Ha H; simpl; [done|]. f_equal.
  - apply put_other; [|done]. intros j Hj. rewrite <- (addw_0 a) by done. apply H; lia.
  - apply IH; [apply u64_range|]. intros i j Hi Hj. rewrite addw_addw. apply H; lia.
Qed.

(** ** Lemmas: the mapping *)

Lemma load_bytes_get off `{LineOffsets off} n a d :
  is_u64 a → a mod 64 + Z.of_nat n <= 64 → load_bytes n (off a) d = get off a n (λ o, default 0 (d !! o)).
Proof.
  revert a. induction n as [|n IH]; intros a Ha Hn; [done|]. cbn [load_bytes get]. f_equal.
  destruct n as [|n]; [done|]. assert (a + 1 < TWO64) by mlia.
  rewrite (u64_small (a + 1)) by mlia. rewrite <- (off_line a 1) by (done || lia). apply IH; mlia.
Qed.

Lemma store_bytes_put off `{LineOffsets off} bs a d o :
  is_u64 a → a mod 64 + Z.of_nat (length bs) <= 64 →
  default 0 (store_bytes bs (off a) d !! o) = put off a bs (λ o, default 0 (d !! o)) o.
Proof.
  revert a d. induction bs as [|b bs IH]; intros a d Ha Hn; [done|]. cbn [store_bytes put]. simpl in Hn.
  assert (∀ x, default 0 (<[off a := b]> d !! x) = (if x =? off a then b else default 0 (d !! x))) as Hi.
  { intros x. destruct (x =? off a) eqn:E; btests; [subst; by rewrite lookup_insert_eq|by rewrite lookup_insert_ne]. }
  destruct bs as [|c bs]; [apply Hi|]. assert (a + 1 < TWO64) by (simpl in Hn; mlia).
  rewrite (u64_small (a + 1)) by mlia. rewrite <- (off_line a 1) by (done || lia || (simpl in Hn; mlia)).
  rewrite IH by (simpl in Hn |- *; mlia). by apply put_ext.
Qed.

(** ** Lemmas: offsets of addresses *)

#[global] Instance offset_of_lines s : LineOffsets (offset_of s).
Proof.
  split.
  - intros a i Ha Hi Hl. unfold offset_of, SHM_CACHELINE_SIZE.
    assert (is_u64 (a + i)) as Hai by mlia.
    assert (cl_align (a + i) = cl_align a) as ->. { apply cl_align_same; [done|done|]. mlia. }
    mlia.
  - intros a Ha. unfold offset_of, SHM_CACHELINE_SIZE. mlia.
Qed.

Lemma line_position a : is_u64 a → a - cl_align a = a mod 64.
Proof. intros. rewrite cl_align_mod by done. lia. Qed.

(** What an access leaves alone. *)
Record kept (s s' : SharedMemoryManager) : Prop := {
  kp_inv : shm_inv s';
  kp_header : sm_header s' = sm_header s;
  kp_mode : sm_backing_mode s' = sm_backing_mode s;
  kp_meta : sm_metadata_cache s' = sm_metadata_cache s;
  kp_regions : sm_regions s' = sm_regions s;
  kp_info : get_shm_info s' = get_shm_info s
}.

Lemma kept_refl s : shm_inv s → kept s s.
Proof. by split. Qed.

Lemma kept_trans s1 s2 s3 : kept s1 s2 → kept s2 s3 → kept s1 s3.
Proof. intros [] []. split; congruence. Qed.

Lemma same_header_index s s' a : sm_header s' = sm_header s → cacheline_to_index s' a = cacheline_to_index s a.
Proof. unfold cacheline_to_index. by intros ->. Qed.

Lemma same_header_offset s s' a : sm_header s' = sm_header s → offset_of s' a = offset_of s a.
Proof. intros H. unfold offset_of. by rewrite (same_header_index s). Qed.

Lemma get_same_header s s' a n f : sm_header s' = sm_header s → get (offset_of s') a n f = get (offset_of s) a n f.
Proof.
  intros H. revert a. induction n as [|n IH]; intros a; simpl; [done|]. by rewrite IH, (same_header_offset s).
Qed.

Lemma put_same_header s s' a bs f o : sm_header s' = sm_header s → put (offset_of s') a bs f o = put (offset_of s) a bs f o.
Proof.
  intros H. revert a f. induction bs as [|b bs IH]; intros a f; simpl; [done|]. rewrite IH. by rewrite (same_header_offset s).
Qed.

(** ** Lemmas: mapped modes *)

Lemma modulo_index s a :
  shm_inv s → modulo_mapping s = true → is_u64 a →
  ∃ h, sm_header s = Some h ∧ 0 <= cacheline_to_index s a < sh_num_cachelines h ∧ sh_num_cachelines h * 64 < TWO64 ∧
    (sm_backing_mode s ≠ SsdStream → HEADER_BYTES + sh_num_cachelines h * 64 <= sm_shm_size s).
Proof.
  intros [(h & Hh & Hp & Hb & _ & Hd & _) _ _] Hm Ha. exists h. split; [done|]. unfold modulo_mapping in Hm. rewrite Hh in Hm.
  unfold cacheline_to_index. rewrite Hh, (proj2 (Z.eqb_neq _ _)), Hm by lia.
  split; [apply Z.mod_pos_bound; lia|done].
Qed.

Lemma in_mapping_line s h k x n :
  HEADER_BYTES + sh_num_cachelines h * 64 <= sm_shm_size s → 0 <= k < sh_num_cachelines h → 0 <= x → x + n <= 64 →
  in_mapping s (k * 64 + x) n = true.
Proof. intros. unfold in_mapping. apply andb_true_intro. split; apply Z.leb_le; lia. Qed.

Lemma direct_mem s : shm_inv s → sm_backing_mode s ≠ SsdStream →
  ∃ d, sm_data_area s = Some d ∧ sm_ssd_backend s = None ∧ ∀ o, mem s o = default 0 (d !! o).
Proof.
  intros Hi Hm. destruct (iv_direct s Hi Hm) as [[d Hd] Hb]. exists d. split_and!; [done|done|].
  intros o. unfold mem. by rewrite Hb, Hd.
Qed.

(** A mapped copy within one line. *)
Lemma copy_out_line s a n h :
  shm_inv s → sm_backing_mode s ≠ SsdStream → sm_header s = Some h → is_u64 a → 0 <= n → a mod 64 + n <= 64 →
  0 <= cacheline_to_index s (cl_align a) < sh_num_cachelines h →
  copy_out s (cacheline_to_index s (cl_align a) *w SHM_CACHELINE_SIZE + (a - cl_align a)) n =
    Done (get (offset_of s) a (Z.to_nat n) (mem s)).
Proof.
  intros Hi Hm Hh Ha Hn Hl Hx. pose proof Hi as [(h' & Hh' & _ & Hb & _ & Hd & _) _ _]. simplify_eq.
  destruct (direct_mem s Hi Hm) as (d & Hda & _ & Hmem). rewrite line_position by done.
  unfold SHM_CACHELINE_SIZE. rewrite u64_small by (unfold is_u64; lia).
  unfold copy_out. rewrite Hda, (in_mapping_line s h) by (auto; mlia). f_equal.
  rewrite (get_ext _ _ _ _ _ Hmem). rewrite <- (load_bytes_get (offset_of s)) by (done || lia).
  f_equal.
Qed.

Lemma set_data_kept s d :
  shm_inv s → sm_backing_mode s ≠ SsdStream → kept s (set_data (Some d) s).
Proof. intros [Hh Hd Hs] Hm. split; try done. split; try done. intros _. split; [by eexists|by apply Hd]. Qed.

Lemma copy_in_line s a bs h :
  shm_inv s → sm_backing_mode s ≠ SsdStream → sm_header s = Some h → is_u64 a → a mod 64 + Z.of_nat (length bs) <= 64 →
  0 <= cacheline_to_index s (cl_align a) < sh_num_cachelines h →
  ∃ s', copy_in s (cacheline_to_index s (cl_align a) *w SHM_CACHELINE_SIZE + (a - cl_align a)) bs = Done s' ∧
    kept s s' ∧ sm_msync s' = sm_msync s ∧ ∀ o, mem s' o = put (offset_of s) a bs (mem s) o.
Proof.
  intros Hi Hm Hh Ha Hl Hx. pose proof Hi as [(h' & Hh' & _ & Hb & _ & Hd & _) _ _]. simplify_eq.
  destruct (direct_mem s Hi Hm) as (d & Hda & Hbk & Hmem). rewrite line_position by done.
  unfold SHM_CACHELINE_SIZE. rewrite u64_small by (unfold is_u64; lia).
  unfold copy_in. rewrite Hda, (in_mapping_line s h) by (auto; mlia).
  eexists. split; [done|]. split; [by apply set_data_kept|]. split; [done|]. intros o.
  unfold mem at 1. cbn [set_data sm_ssd_backend sm_data_area]. rewrite Hbk.
  rewrite (put_ext _ _ _ _ _ Hmem). rewrite <- (store_bytes_put (offset_of s)) by done. done.
Qed.

Lemma read_lines_ok fuel s a n :
  shm_inv s → sm_backing_mode s ≠ SsdStream → modulo_mapping s = true → is_u64 a → 0 <= n < Z.of_nat fuel →
  read_lines fuel s a n = Done (get (offset_of s) a (Z.to_nat n) (mem s)).
Proof.
  intros Hi Hm Hmod. revert a n. induction fuel as [|fuel IH]; intros a n Ha Hn; [lia|]. cbn [read_lines].
  destruct (n <=? 0) eqn:E; btests; [by replace (Z.to_nat n) with 0%nat by lia|].
  destruct (modulo_index s (cl_align a) Hi Hmod) as (h & Hh & Hx & _); [by apply cl_align_u64|].
  pose proof (line_position a Ha) as Hpos. set (k := Z.min n (SHM_CACHELINE_SIZE - (a - cl_align a))).
  assert (0 < k <= n ∧ a mod 64 + k <= 64) as [Hk Hl] by (unfold k, SHM_CACHELINE_SIZE; rewrite Hpos; mlia).
  rewrite (copy_out_line s a k h) by (done || lia). rewrite IH by (apply u64_range || lia).
  f_equal. replace (Z.to_nat n) with (Z.to_nat k + Z.to_nat (n - k))%nat by lia.
  rewrite get_app by done. by rewrite Z2Nat.id by lia.
Qed.

Lemma write_lines_ok fuel s a bs :
  shm_inv s → sm_backing_mode s ≠ SsdStream → modulo_mapping s = true → is_u64 a → (length bs < fuel)%nat →
  ∃ s', write_lines fuel s a bs = Done s' ∧ kept s s' ∧ sm_msync s' = sm_msync s ∧
    ∀ o, mem s' o = put (offset_of s) a bs (mem s) o.
Proof.
  revert s a bs. induction fuel as [|fuel IH]; intros s a bs Hi Hm Hmod Ha Hn; [lia|]. cbn [write_lines].
  destruct bs as [|b bs0]; [exists s; split_and!; [done|by apply kept_refl|done|done]|]. set (bs := b :: bs0) in *.
  destruct (modulo_index s (cl_align a) Hi Hmod) as (h & Hh & Hx & _); [by apply cl_align_u64|].
  pose proof (line_position a Ha) as Hpos. set (k := Z.min (Z.of_nat (length bs)) (SHM_CACHELINE_SIZE - (a - cl_align a))).
  assert (0 < length bs)%nat by (simpl; lia).
  assert (0 < k <= Z.of_nat (length bs) ∧ a mod 64 + k <= 64) as [Hk Hl] by (unfold k, SHM_CACHELINE_SIZE; rewrite Hpos; mlia).
  assert (length (take (Z.to_nat k) bs) = Z.to_nat k) as Htk by (rewrite length_take; lia).
  destruct (copy_in_line s a (take (Z.to_nat k) bs) h) as (s1 & Hc & Hk1 & Hs1 & Hm1); [done..|rewrite Htk; lia|done|].
  rewrite Hc. assert (modulo_mapping s1 = true) by (unfold modulo_mapping; by rewrite (kp_header _ _ Hk1)).
  destruct (IH s1 (a +w k) (drop (Z.to_nat k) bs)) as (s2 & Hw & Hk2 & Hs2 & Hm2);
    [apply Hk1|by rewrite (kp_mode _ _ Hk1)|done|apply u64_range|rewrite length_drop; lia|].
  exists s2. split_and!; [done|by eapply kept_trans|congruence|]. intros o. rewrite Hm2.
  rewrite (put_same_header s) by apply Hk1. rewrite (put_ext _ _ _ _ _ Hm1).
  rewrite <- (take_drop (Z.to_nat k) bs) at 3. rewrite put_app by done. rewrite Htk, Z2Nat.id by lia. done.
Qed.

(** ** Lemmas: SSD mode *)

Lemma index_nonneg s a : 0 <= cacheline_to_index s a ∨ ∃ h, sm_header s = Some h ∧ sh_num_cachelines h < 0.
Proof.
  unfold cacheline_to_index. destruct (sm_header s) as [h|]; [|left; lia]. destruct (decide (sh_num_cachelines h < 0)); [eauto|left].
  destruct (_ =? 0) eqn:E; btests; [lia|]. destruct (_ =? 0) eqn:E2; btests.
  - apply Z.mod_pos_bound. lia.
  - unfold SHM_CACHELINE_SIZE. pose proof (u64_range (a - sh_base_addr h)). mlia.
Qed.

Lemma offset_nonneg s a : shm_inv s → 0 <= offset_of s a.
Proof.
  intros [(h & Hh & Hp & _) _ _]. unfold offset_of, SHM_CACHELINE_SIZE.
  destruct (index_nonneg s (cl_align a)) as [?|(h' & ? & ?)]; [mlia|simplify_eq; lia].
Qed.

Lemma put_ext_nonneg off a bs f g :
  (∀ o, 0 <= o → f o = g o) → ∀ o, 0 <= o → put off a bs f o = put off a bs g o.
Proof.
  revert a f g. induction bs as [|b bs IH]; intros a f g H; simpl; [done|].
  apply IH. intros o Ho. destruct (_ =? _); auto.
Qed.

Lemma get_ext_nonneg s a n f g :
  shm_inv s → (∀ o, 0 <= o → f o = g o) → get (offset_of s) a n f = get (offset_of s) a n g.
Proof.
  intros Hi H. revert a. induction n as [|n IH]; intros a; simpl; [done|]. rewrite IH, H; [done|by apply offset_nonneg].
Qed.

Lemma backend_offset s h a n o :
  shm_inv s → sm_header s = Some h → is_u64 a → 0 < n → a mod 64 + n <= 64 → address_to_backend_offset s a n = Some o →
  o = offset_of s a ∧ cacheline_to_index s (cl_align a) < sh_num_cachelines h ∧ is_u64 o.
Proof.
  intros Hi Hh Ha Hn Hl. pose proof Hi as [(h' & Hh' & Hp & Hb & _) _ _]. simplify_eq.
  unfold address_to_backend_offset. rewrite Hh, line_position by done. unfold SHM_CACHELINE_SIZE.
  destruct (n =? 0) eqn:En; btests; [lia|]. rewrite u64_small by mlia.
  destruct (64 <? _) eqn:E1; btests; [done|]. destruct (_ <=? _) eqn:E2; btests; [done|]. intros [= <-].
  destruct (index_nonneg s (cl_align a)) as [Hx|(h'' & ? & ?)]; [|simplify_eq; lia].
  rewrite (u64_small (_ * 64)) by mlia. rewrite u64_small by mlia. split_and!; [done|done|mlia].
Qed.

Lemma logical_range_get s b a n :
  is_u64 a → a mod 64 + Z.of_nat n <= 64 → logical_range b (offset_of s a) n = get (offset_of s) a n (logical b).
Proof.
  revert a. induction n as [|n IH]; intros a Ha Hl; [done|].
  replace (S n) with (1 + n)%nat by lia. rewrite logical_range_app. cbn [get]. unfold logical_range at 1. simpl.
  rewrite Z.add_0_r. f_equal. destruct n as [|n]; [done|].
  assert (a + 1 < TWO64) by mlia. rewrite (u64_small (a + 1)) by mlia.
  rewrite <- (off_line a 1) by (done || lia). apply IH; mlia.
Qed.

Lemma overlay_put s bs a f o :
  is_u64 a → a mod 64 + Z.of_nat (length bs) <= 64 → overlay f (offset_of s a) bs o = put (offset_of s) a bs f o.
Proof.
  revert a f. induction bs as [|b bs IH]; intros a f Ha Hl; [apply overlay_nil|]. cbn [put]. simpl in Hl.
  change (b :: bs) with ([b] ++ bs). rewrite <- overlay_app. simpl.
  assert (∀ x, overlay f (offset_of s a) [b] x = (if x =? offset_of s a then b else f x)) as Hb.
  { intros x. unfold overlay. simpl. destruct (x =? offset_of s a) eqn:E; btests.
    - subst. rewrite Z.sub_diag. by replace ((_ <=? _) && _) with true by lia.
    - destruct (_ && _) eqn:E2; btests; [lia|done]. }
  destruct bs as [|c bs]; [rewrite overlay_nil; apply Hb|]. assert (a + 1 < TWO64) by (simpl in Hl; mlia).
  rewrite (u64_small (a + 1)) by mlia. rewrite <- (off_line a 1) by (done || lia || (simpl in Hl; mlia)).
  rewrite IH by (simpl in Hl |- *; mlia). by apply put_ext.
Qed.

(** The backend between two calls. *)
Record backend_ok (b' : SsdStreamingBackend) : Prop := {
  bk_inv : ssd_inv b';
  bk_quiet : quiet b';
  bk_init : sb_initialized b' = true
}.

Lemma ssd_read_lines_ok fuel s h b a n r b' :
  shm_inv s → sm_header s = Some h → ssd_inv b → quiet b → sb_initialized b = true → is_u64 a → 0 <= n < Z.of_nat fuel → n <= 64 →
  ssd_read_lines fuel s b a n = (r, b') →
  r ≠ Fault ∧ backend_ok b' ∧ (∀ o, logical b' o = logical b o) ∧
  ∀ bs, r = Done bs → bs = get (offset_of s) a (Z.to_nat n) (logical b).
Proof.
  intros Hi Hh. revert b a n r b'. induction fuel as [|fuel IH]; intros b a n r b' Hb Hq Hin Ha Hn H64; [lia|]. cbn [ssd_read_lines].
  destruct (n <=? 0) eqn:E; btests.
  { intros [= <- <-]. replace (Z.to_nat n) with 0%nat by lia. split_and!; [done|by split|done|by intros bs [= <-]]. }
  pose proof (line_position a Ha) as Hpos. set (k := Z.min n (SHM_CACHELINE_SIZE - (a - cl_align a))).
  assert (0 < k <= n ∧ a mod 64 + k <= 64) as [Hk Hl] by (unfold k, SHM_CACHELINE_SIZE; rewrite Hpos; mlia).
  destruct (address_to_backend_offset s a k) as [o|] eqn:Eo; [|intros [= <- <-]; split_and!; [done|by split|done|done]].
  destruct (backend_offset s h a k o Hi Hh Ha) as (-> & _ & Hou); [lia|done|done|].
  destruct (SsdBackend.read b (offset_of s a) k) as [r1 b1] eqn:Er.
  destruct (SsdBackend.read_ok b (offset_of s a) k r1 b1 Hb Hq Hou) as [Hs Hbytes]; [mlia|done|].
  assert (∀ o, logical b1 o = logical b o) as Hlog by (intros o; by apply step_ok_logical).
  assert (ssd_inv b1 ∧ quiet b1 ∧ sb_initialized b1 = true) as (Hb1 & Hq1 & Hi1).
  { split_and!; [apply Hs|by eapply step_ok_quiet|by rewrite (ok_init _ _ Hs)]. }
  destruct r1 as [bs1|]; [|intros [= <- <-]; split_and!; [done|by split|done|done]].
  destruct (ssd_read_lines fuel s b1 (a +w k) (n - k)) as [r2 b2] eqn:E2.
  apply IH in E2 as (Hnf & Hbk & Hlog2 & Hbs2); [|done|done|done|apply u64_range|lia|lia].
  destruct r2 as [rest| |]; intros [= <- <-]; (split_and!; [done|done|intros o; by rewrite Hlog2, Hlog|]); [|done|done].
  intros bs [= <-]. rewrite (Hbytes bs1 eq_refl), (Hbs2 rest eq_refl), (logical_range_get s) by (done || lia).
  replace (Z.to_nat n) with (Z.to_nat k + Z.to_nat (n - k))%nat by lia.
  rewrite get_app by done. rewrite Z2Nat.id by lia. f_equal. by apply get_ext.
Qed.

(** A write through the backend stores a prefix of the data, all of it when it succeeds. *)
Lemma ssd_write_lines_ok fuel s h b a bs r b' :
  shm_inv s → sm_header s = Some h → ssd_inv b → quiet b → sb_initialized b = true → is_u64 a → (length bs < fuel)%nat →
  Z.of_nat (length bs) <= 64 → ssd_write_lines fuel s b a bs = (r, b') →
  r ≠ Fault ∧ backend_ok b' ∧ ∃ k, (k ≤ length bs)%nat ∧ (r = Done tt → k = length bs) ∧
    ∀ o, 0 <= o → logical b' o = put (offset_of s) a (take k bs) (logical b) o.
Proof.
  intros Hi Hh. revert b a bs r b'. induction fuel as [|fuel IH]; intros b a bs r b' Hb Hq Hin Ha Hn H64; [lia|]. cbn [ssd_write_lines].
  assert (backend_ok b ∧ ∀ o, 0 <= o → logical b o = put (offset_of s) a (take 0 bs) (logical b) o) as [Hb0 H0] by by split.
  destruct bs as [|x bs0]; [intros [= <- <-]; split_and!; [done|done|by exists 0%nat]|]. set (bs := x :: bs0) in *.
  pose proof (line_position a Ha) as Hpos. set (k := Z.min (Z.of_nat (length bs)) (SHM_CACHELINE_SIZE - (a - cl_align a))).
  assert (0 < length bs)%nat by (simpl; lia).
  assert (0 < k <= Z.of_nat (length bs) ∧ a mod 64 + k <= 64) as [Hk Hl] by (unfold k, SHM_CACHELINE_SIZE; rewrite Hpos; mlia).
  assert (length (take (Z.to_nat k) bs) = Z.to_nat k) as Htk by (rewrite length_take; lia).
  destruct (address_to_backend_offset s a k) as [o|] eqn:Eo;
    [|intros [= <- <-]; split_and!; [done|done|exists 0%nat; split_and!; [lia|done|done]]].
  destruct (backend_offset s h a k o Hi Hh Ha) as (-> & _ & Hou); [lia|done|done|].
  destruct (SsdBackend.write b (offset_of s a) (take (Z.to_nat k) bs)) as [ok b1] eqn:Ew.
  destruct (SsdBackend.write_ok b (offset_of s a) (take (Z.to_nat k) bs) ok b1 Hb Hq Hou) as (j & Hj & Hjk & Hw);
    [rewrite Htk; mlia|done|]. destruct Hw as [Wi _ Wn Wq Wl]. rewrite Htk in Hj, Hjk.
  assert (backend_ok b1) as Hb1 by (split; [done|auto|by rewrite Wn]).
  rewrite take_take in Wl. destruct ok.
  - destruct (ssd_write_lines fuel s b1 (a +w k) (drop (Z.to_nat k) bs)) as [r2 b2] eqn:E2. intros [= <- <-].
    apply IH in E2 as (Hnf & Hbk & m & Hm & Hmd & Hlog); [|done|auto|by rewrite Wn|apply u64_range|rewrite length_drop; lia..].
    rewrite length_drop in Hm, Hmd. split_and!; [done|done|]. exists (Z.to_nat k + m)%nat.
    split_and!; [lia|intros Hr; specialize (Hmd Hr); lia|]. intros o Ho. rewrite Hlog by done.
    assert (take (Z.to_nat k + m) bs = take (Z.to_nat k) bs ++ take m (drop (Z.to_nat k) bs)) as ->.
    { rewrite <- (take_drop (Z.to_nat k) bs) at 1. rewrite take_app, Htk. rewrite take_ge by lia. f_equal. f_equal. lia. }
    rewrite put_app by done. rewrite Htk, Z2Nat.id by lia. apply put_ext_nonneg; [|done]. intros o' Ho'. rewrite Wl by done.
    replace (j `min` Z.to_nat k)%nat with (Z.to_nat k) by (rewrite Hjk by done; lia).
    apply overlay_put; [done|]. rewrite Htk. lia.
  - intros [= <- <-]. split_and!; [done|done|]. exists j. split_and!; [lia|done|]. intros o Ho. rewrite Wl by done.
    replace (j `min` Z.to_nat k)%nat with j by lia. apply overlay_put; [done|]. rewrite length_take. lia.
Qed.

Lemma set_backend_kept s b : shm_inv s → sm_backing_mode s = SsdStream → backend_ok b → kept s (set_backend (Some b) s).
Proof.
  intros [Hh Hd Hs] Hm [B1 B2 B3]. split; try done. split; try done.
  intros _. exists b. split_and!; done.
Qed.

Lemma access_size_ok_iff n : is_u64 n → access_size_ok n = true ↔ 1 <= n <= 64.
Proof. unfold access_size_ok, SHM_CACHELINE_SIZE, is_u64. lia. Qed.

(** ** Lemmas: accesses *)

(** With a base address a line is found when it lies in the range of lines. *)
Lemma line_found s h a line :
  sm_header s = Some h → modulo_mapping s = false → get_cacheline_data s (cl_align a) = Some line →
  line = cacheline_to_index s (cl_align a) *w SHM_CACHELINE_SIZE ∧ cacheline_to_index s (cl_align a) < sh_num_cachelines h.
Proof.
  unfold get_cacheline_data, modulo_mapping. intros Hh. rewrite Hh. intros ->. destruct (sm_data_area s); [|done].
  repeat case_match; try done. intros [= <-]. btests. done.
Qed.

Lemma read_cacheline_ok s a n r s' :
  shm_inv s → is_u64 a → is_u64 n → read_cacheline s a n = (r, s') →
  r ≠ Fault ∧ kept s s' ∧ (∀ o, mem s' o = mem s o) ∧
  ∀ bs, r = Done bs → 1 <= n <= 64 ∧ bs = get (offset_of s) a (Z.to_nat n) (mem s).
Proof.
  intros Hi Ha Hn. unfold read_cacheline. destruct (access_size_ok n) eqn:Es; cbn [negb];
    [apply access_size_ok_iff in Es; [|done]|intros [= <- <-]; split_and!; [done|by apply kept_refl|done|done]].
  pose proof Hi as [(h & Hh & Hp & Hb & Hu & Hd & Hc) Hdir Hssd]. destruct (decide _) as [Hm|Hm].
  - destruct (Hssd Hm) as (b & Hbk & Hin & Hbi & Hbq). rewrite Hbk.
    destruct (ssd_read_lines _ s b a n) as [r1 b1] eqn:E. intros [= <- <-].
    apply (ssd_read_lines_ok _ s h) in E as (Hnf & Hok & Hlog & Hbs); [|done..|lia|lia].
    assert (∀ o, mem s o = logical b o) as Hmem by (intros o; unfold mem; by rewrite Hbk).
    split_and!; [done|by apply set_backend_kept|intros o; rewrite Hmem; apply Hlog|].
    intros bs ->. rewrite (Hbs bs eq_refl). split; [done|]. symmetry. by apply get_ext.
  - destruct (modulo_mapping s) eqn:Emod.
    + rewrite (read_lines_ok (S (Z.to_nat n)) s a n Hi Hm Emod Ha) by lia. intros [= <- <-].
      split_and!; [done|by apply kept_refl|done|by intros bs [= <-]].
    + destruct (get_cacheline_data s (cl_align a)) as [line|] eqn:El;
        [|intros [= <- <-]; split_and!; [done|by apply kept_refl|done|done]].
      destruct (line_found s h a line Hh Emod El) as [-> Hx]. rewrite line_position by done. unfold SHM_CACHELINE_SIZE at 1.
      destruct (64 <? _) eqn:E; btests; intros [= <- <-]; [split_and!; [done|by apply kept_refl|done|done]|].
      rewrite <- line_position, (copy_out_line s a n h) by (done || lia || (destruct (index_nonneg s (cl_align a)) as [?|(h' & ? & ?)]; simplify_eq; lia)).
      split_and!; [done|by apply kept_refl|done|by intros bs [= <-]].
Qed.

Lemma msync_kept s ok s' : shm_inv s → msync s = (ok, s') → kept s s' ∧ ∀ o, mem s' o = mem s o.
Proof.
  intros Hi. unfold msync. destruct (sm_msync s); intros [= <- <-]; [by split; [apply kept_refl|]|].
  destruct Hi as [H1 H2 H3]. by split.
Qed.

Lemma synced_kept s r s' :
  shm_inv s → synced s = (r, s') → r ≠ Fault ∧ kept s s' ∧ (∀ o, mem s' o = mem s o) ∧ (sm_msync s = [] → r = Done tt).
Proof.
  unfold synced. intros Hi. destruct (msync s) as [ok s1] eqn:E. intros [= <- <-].
  pose proof (msync_kept s ok s1 Hi E) as [H1 H2]. split_and!; [by destruct ok|done|done|].
  intros Hn. unfold msync in E. rewrite Hn in E. by simplify_eq.
Qed.

(** The memory after a write of a prefix of [bs]; all of it when the write succeeds. *)
Definition wrote_prefix (s s' : SharedMemoryManager) (a : Z) (bs : list Z) (ok : bool) : Prop :=
  ∃ k, (k ≤ length bs)%nat ∧ (ok = true → k = length bs) ∧
    ∀ o, 0 <= o → mem s' o = put (offset_of s) a (take k bs) (mem s) o.

Definition is_done {A} (r : Acc A) : bool := match r with Done _ => true | _ => false end.

Lemma wrote_nothing s s' a bs : (∀ o, mem s' o = mem s o) → wrote_prefix s s' a bs false.
Proof. intros H. exists 0%nat. split_and!; [lia|done|]. intros o _. apply H. Qed.

Lemma wrote_all s s' a bs ok : (∀ o, mem s' o = put (offset_of s) a bs (mem s) o) → wrote_prefix s s' a bs ok.
Proof. intros H. exists (length bs). split_and!; [lia|done|]. intros o _. by rewrite firstn_all. Qed.

Lemma write_cacheline_ok s a bs r s' :
  shm_inv s → is_u64 a → is_u64 (Z.of_nat (length bs)) → write_cacheline s a bs = (r, s') →
  r ≠ Fault ∧ kept s s' ∧ (is_done r = true → 1 <= Z.of_nat (length bs) <= 64) ∧ wrote_prefix s s' a bs (is_done r).
Proof.
  intros Hi Ha Hn. unfold write_cacheline. pose proof (kept_refl s Hi) as Hk0.
  assert (wrote_prefix s s a bs false) as Hw0 by by apply wrote_nothing.
  destruct (access_size_ok _) eqn:Es; cbn [negb]; [apply access_size_ok_iff in Es; [|done]|by intros [= <- <-]].
  pose proof Hi as [(h & Hh & Hp & Hb & Hu & Hd & Hc) Hdir Hssd]. destruct (decide _) as [Hm|Hm].
  - destruct (Hssd Hm) as (b & Hbk & Hin & Hbi & Hbq). rewrite Hbk.
    destruct (ssd_write_lines (S (length bs)) s b a bs) as [r1 b1] eqn:E. intros [= <- <-].
    apply (ssd_write_lines_ok _ s h) in E as (Hnf & Hok & k & Hk & Hkd & Hlog); [|done..|lia|lia].
    split_and!; [done|by apply set_backend_kept|done|]. exists k.
    split_and!; [done|intros Hr; apply Hkd; by destruct r1 as [[]| |]|]. intros o Ho. unfold mem at 1. simpl. rewrite Hlog by done.
    apply put_ext. intros o'. unfold mem. by rewrite Hbk.
  - destruct (modulo_mapping s) eqn:Emod.
    + destruct (write_lines_ok (S (length bs)) s a bs Hi Hm Emod Ha) as (s1 & Hw & Hk & Hms & Hmem); [lia|]. rewrite Hw.
      intros Hs. apply synced_kept in Hs as (Hnf & Hk2 & Hm2 & _); [|apply Hk].
      split_and!; [done|by eapply kept_trans|done|]. apply wrote_all. intros o. by rewrite Hm2.
    + destruct (get_cacheline_data s (cl_align a)) as [line|] eqn:El; [|by intros [= <- <-]].
      destruct (line_found s h a line Hh Emod El) as [-> Hx]. rewrite line_position by done. unfold SHM_CACHELINE_SIZE at 1.
      destruct (64 <? _) eqn:E; btests; [by intros [= <- <-]|].
      destruct (copy_in_line s a bs h) as (s1 & Hw & Hk & Hms & Hmem);
        [done..|lia|destruct (index_nonneg s (cl_align a)) as [?|(h' & ? & ?)]; simplify_eq; lia|].
      rewrite line_position in Hw by done. rewrite Hw.
      intros Hs. apply synced_kept in Hs as (Hnf & Hk2 & Hm2 & _); [|apply Hk].
      split_and!; [done|by eapply kept_trans|done|]. apply wrote_all. intros o. by rewrite Hm2.
Qed.

Lemma set_base_addr_inv a s : shm_inv s → is_u64 a → shm_inv (set_base_addr a s).
Proof.
  intros [(h & Hh & Hp & Hb & _ & Hd & Hc) Hdir Hssd] Ha. unfold set_base_addr. rewrite Hh. split; [|done|done]. eexists. split; [reflexivity|]. by split_and!.
Qed.

(** A mapped memory serves reads wherever it served a write of the same size. *)
Lemma mapped_read_served s a bs s1 s2 :
  shm_inv s → is_u64 a → (length bs ≤ 64)%nat → sm_backing_mode s ≠ SsdStream →
  write_cacheline s a bs = (Done (), s1) → kept s s2 → is_done (read_cacheline s2 a (Z.of_nat (length bs))).1 = true.
Proof.
  intros Hi Ha Hl Hm Hw [Hi2 Hh2 Hm2 _ _ _]. revert Hw. unfold write_cacheline, read_cacheline. destruct (access_size_ok _) eqn:Es; cbn [negb]; [|done].
  apply access_size_ok_iff in Es; [|unfold is_u64; lia]. pose proof Hi2 as [(h & Hh & Hp & _) Hdir _].
  assert (sm_backing_mode s2 ≠ SsdStream) as Hmode by congruence. destruct (Hdir Hmode) as [[d Hdata] _].
  assert (modulo_mapping s2 = modulo_mapping s) as Emap by (unfold modulo_mapping; by rewrite Hh2). rewrite Emap.
  destruct (decide (sm_backing_mode s = SsdStream)) as [?|_]; [done|]. destruct (decide (sm_backing_mode s2 = SsdStream)) as [?|_]; [done|].
  destruct (modulo_mapping s) eqn:Emod; intros Hw; [rewrite (read_lines_ok _ s2 a) by (done || lia); done|].
  destruct (get_cacheline_data s (cl_align a)) as [line|] eqn:El; [|done]. rewrite line_position in * by done. unfold SHM_CACHELINE_SIZE at 1 in Hw.
  destruct (64 <? _) eqn:E; btests; [done|].
  assert (get_cacheline_data s2 (cl_align a) = Some line) as El2.
  { revert El. unfold get_cacheline_data, cacheline_to_index. rewrite Hh2, Hdata. destruct (sm_header s); [|done]. by destruct (sm_data_area s). }
  rewrite El2. destruct (line_found s2 h a line Hh Emap El2) as [-> Hx]. rewrite (proj2 (Z.ltb_ge SHM_CACHELINE_SIZE _)) by (unfold SHM_CACHELINE_SIZE; lia).
  rewrite <- line_position, (copy_out_line s2 a _ h) by (done || lia || (destruct (index_nonneg s2 (cl_align a)) as [?|(h' & ? & ?)]; simplify_eq; lia)). done.
Qed.

(** What was written is there. *)
Lemma read_back s s1 a bs :
  shm_inv s → is_u64 a → (length bs ≤ 64)%nat → kept s s1 → wrote_prefix s s1 a bs true → get (offset_of s1) a (length bs) (mem s1) = bs.
Proof.
  intros Hi Ha Hl Hk (k & _ & Hkd & Hmem). rewrite Hkd, firstn_all in Hmem by done. rewrite (get_same_header s) by apply Hk.
  rewrite (get_ext_nonneg s _ _ _ _ Hi Hmem). apply get_put; [apply _|done|lia].
Qed.

Lemma flush_kept s ok s' : shm_inv s → flush s = (ok, s') → kept s s' ∧ ∀ o, mem s' o = mem s o.
Proof.
  intros Hi. unfold flush. pose proof (kept_refl s Hi) as Hk0. destruct (decide _) as [Hm|Hm].
  - destruct (iv_ssd s Hi Hm) as (b & Hbk & Hin & Hbi & Hbq). rewrite Hbk. destruct (SsdBackend.flush b) as [ok1 b1] eqn:E.
    intros [= <- <-].
    apply SsdBackend.flush_ok in E as [Ht _]; [|done|done].
    split; [apply set_backend_kept; [done|done|]; split; [apply Ht|by apply (tr_quiet _ _ Ht)|by rewrite (tr_init _ _ Ht)]|].
    intros o. unfold mem. simpl. rewrite Hbk. by apply transparent_logical.
  - destruct (sm_data_area s); [|by intros [= <- <-]]. destruct (_ =? 0); [by intros [= <- <-]|]. by apply msync_kept.
Qed.

Lemma hint_kept op s a n ok s' :
  shm_inv s → is_u64 a → is_u64 n → hint (run_range_op op) s a n = (ok, s') → kept s s' ∧ ∀ o, mem s' o = mem s o.
Proof.
  intros Hi Ha Hn. unfold hint. pose proof (kept_refl s Hi) as Hk0. destruct (decide _) as [Hm|Hm]; [|by intros [= <- <-]].
  destruct (iv_ssd s Hi Hm) as (b & Hbk & Hin & Hbi & Hbq). rewrite Hbk.
  destruct (address_to_backend_offset s a 1) as [o|] eqn:Eo; [|by intros [= <- <-]].
  destruct (iv_header s Hi) as (h & Hh & _). destruct (backend_offset s h a 1 o Hi Hh Ha) as (_ & _ & Hou); [lia|mlia|done|].
  destruct (run_range_op op b o n) as [ok1 b1] eqn:E. intros [= <- <-].
  apply range_op_ok in E as Ht; [|done..].
  split; [apply set_backend_kept; [done|done|]; split; [apply Ht|by apply (tr_quiet _ _ Ht)|by rewrite (tr_init _ _ Ht)]|].
  intros o'. unfold mem. simpl. rewrite Hbk. by apply transparent_logical.
Qed.

(** ** Lemmas: atomics *)

(** The word at an address. *)
Definition word (s : SharedMemoryManager) (a : Z) : Z := le_decode (get (offset_of s) a 8 (mem s)).

(** A mapped line of either addressing mode, as an index. *)
Lemma line_index s h a line :
  shm_inv s → sm_header s = Some h → is_u64 a → get_cacheline_data s (cl_align a) = Some line →
  line = cacheline_to_index s (cl_align a) *w SHM_CACHELINE_SIZE ∧ 0 <= cacheline_to_index s (cl_align a) < sh_num_cachelines h.
Proof.
  intros Hi Hh Ha El. destruct (modulo_mapping s) eqn:Emod.
  - destruct (modulo_index s (cl_align a) Hi Emod (cl_align_u64 a Ha)) as (h' & Hh' & Hx & _). simplify_eq. split; [|done].
    unfold get_cacheline_data, modulo_mapping in *. rewrite Hh in El, Emod. rewrite Emod in El. destruct (sm_data_area s); by simplify_eq.
  - destruct (line_found s h a line Hh Emod El) as [-> Hx]. split; [done|].
    pose proof Hi as [(h' & Hh' & Hp & _) _ _]. simplify_eq.
    destruct (index_nonneg s (cl_align a)) as [?|(h' & ? & ?)]; simplify_eq; lia.
Qed.

(** The result and the memory after an atomic; a refused one may have stored a
    prefix of a word in SSD mode. *)
Definition rmw_result (s s' : SharedMemoryManager) (a : Z) (f : Z → option Z) (r : Acc Z) : Prop :=
  match r with
  | Done old => old = word s a ∧
      ∀ o, 0 <= o → mem s' o = match f old with Some v => put (offset_of s) a (le_encode 8 v) (mem s) o | None => mem s o end
  | Refused => ∃ v, wrote_prefix s s' a (le_encode 8 v) false
  | Fault => False
  end.

Lemma atomic_rmw_ok s a f r s' :
  shm_inv s → is_u64 a → atomic_rmw s a f = (r, s') → kept s s' ∧ rmw_result s s' a f r.
Proof.
  intros Hi Ha. unfold atomic_rmw. pose proof (kept_refl s Hi) as Hk0.
  assert (rmw_result s s a f Refused) as Hr0 by (exists 0; by apply wrote_nothing).
  destruct (_ <? _) eqn:E64; btests; [by intros [= <- <-]|]. rewrite line_position in E64 by done. unfold SHM_CACHELINE_SIZE in E64.
  destruct (decide _) as [Hm|Hm].
  - destruct (read_cacheline s a 8) as [r1 s1] eqn:Er. apply read_cacheline_ok in Er as (Hnf & Hk & Hmem & Hbs); [|done..].
    destruct r1 as [bs| |]; [|intros [= <- <-]; split; [done|exists 0; by apply wrote_nothing]|done].
    destruct (Hbs bs eq_refl) as [_ ->]. change (Z.to_nat 8) with 8%nat. fold (word s a).
    destruct (f (word s a)) as [v|] eqn:Ef; [|intros [= <- <-]; split; [done|]; split; [done|]; by rewrite Ef].
    destruct (write_cacheline s1 a (le_encode 8 v)) as [r2 s2] eqn:Ew.
    apply write_cacheline_ok in Ew as (Hnf2 & Hk2 & _ & k & Hk8 & Hkd & Hw); [|apply Hk|done|by rewrite le_encode_length].
    assert (∀ o, 0 <= o → mem s2 o = put (offset_of s) a (take k (le_encode 8 v)) (mem s) o) as Hw'.
    { intros o Ho. rewrite Hw, (put_same_header s) by (done || apply Hk). by apply put_ext. }
    destruct r2 as [[]| |]; intros [= <- <-]; [|split; [by eapply kept_trans|]; exists v, k; by split_and!|done].
    split; [by eapply kept_trans|]. split; [done|]. intros o Ho. rewrite Ef, Hw', Hkd by done. by rewrite firstn_all.
  - destruct (get_cacheline_data s (cl_align a)) as [line|] eqn:El; [|by intros [= <- <-]].
    destruct (iv_header s Hi) as (h & Hh & _). destruct (line_index s h a line Hi Hh Ha El) as [-> Hx].
    rewrite (copy_out_line s a 8 h) by (done || lia). change (Z.to_nat 8) with 8%nat. fold (word s a).
    destruct (f (word s a)) as [v|] eqn:Ef; [|intros [= <- <-]; split; [done|]; split; [done|]; by rewrite Ef].
    destruct (copy_in_line s a (le_encode 8 v) h) as (s1 & Hw & Hk & Hms & Hmem); [done..|by rewrite le_encode_length|done|].
    rewrite Hw. destruct (flush_cacheline s1 a 8) as [ok s2] eqn:Efl. intros [= <- <-]. simpl.
    apply flush_kept in Efl as [Hk2 Hm2]; [|apply Hk]. split; [by eapply kept_trans|]. split; [done|].
    intros o _. by rewrite Ef, Hm2.
Qed.

Lemma word_put s s' a v :
  sm_header s' = sm_header s → shm_inv s → is_u64 a →
  (∀ o, 0 <= o → mem s' o = put (offset_of s) a (le_encode 8 v) (mem s) o) → word s' a = u64 v.
Proof.
  intros Hh Hi Ha Hm. unfold word. rewrite (get_same_header s) by done. rewrite (get_ext_nonneg s _ _ _ _ Hi Hm).
  rewrite <- (le_encode_length 8 v) at 1. rewrite (get_put (offset_of s)) by (done || by rewrite le_encode_length). apply le_word.
Qed.

(** ** Lemmas: initialization *)

(** An object or file that a manager of its size has initialized before, or that
    carries no header. *)
Definition segment_ok (g : Segment) : Prop :=
  let h := sg_header g in
  sh_magic h = MAGIC_NUMBER → sh_version h = FORMAT_VERSION →
  sh_num_cachelines h = (sg_size g - HEADER_BYTES) / SHM_CACHELINE_SIZE ∧ 0 < sh_num_cachelines h ∧ is_u64 (sh_base_addr h).

(** The environment a manager of [size] bytes can start in: a file that is reopened
    was not larger. *)
Definition env_ok (env : OsEnv) (use_file : bool) (size : Z) : Prop :=
  (∀ b, os_base_addr env = Some b → is_u64 b) ∧
  ∀ g, os_existing env = Some g → segment_ok g ∧ (use_file = true → sg_size g <= size).

Lemma header_after env s h0 :
  sm_header s = Some h0 → (∀ b, os_base_addr env = Some b → is_u64 b) →
  128 <= data_capacity_bytes s < TWO64 - 64 →
  (sm_backing_mode s ≠ SsdStream → data_capacity_bytes s = sm_shm_size s - HEADER_BYTES) →
  (sm_backing_mode s = SsdStream → data_capacity_bytes s = sc_capacity_bytes (sm_ssd_config s)) →
  (sm_backing_mode s ≠ SsdStream → sh_magic h0 = MAGIC_NUMBER → sh_version h0 = FORMAT_VERSION →
    0 < sh_num_cachelines h0 ∧ is_u64 (sh_base_addr h0) ∧ HEADER_BYTES + sh_num_cachelines h0 * 64 <= sm_shm_size s) →
  ∃ h, sm_header (initialize_header env s) = Some h ∧ 0 < sh_num_cachelines h ∧ sh_num_cachelines h * 64 < TWO64 ∧ is_u64 (sh_base_addr h) ∧
    (sm_backing_mode s ≠ SsdStream → HEADER_BYTES + sh_num_cachelines h * 64 <= sm_shm_size s) ∧
    (sm_backing_mode s = SsdStream → sh_num_cachelines h * 64 <= sc_capacity_bytes (sm_ssd_config s)).
Proof.
  intros Hh Hb Hd Hdir Hssd Hold. unfold initialize_header. rewrite Hh.
  assert (is_u64 (default 0 (os_base_addr env))) as Hbase by (destruct (os_base_addr env); simpl; [auto|done]).
  destruct (_ && _ && _) eqn:E.
  - apply andb_prop in E as [E1 E2]. apply andb_prop in E1 as [E0 E1]. btests. apply bool_decide_eq_false in E0.
    destruct (Hold E0 E1 E2) as (H1 & H2 & H3). pose proof (Hdir E0). exists h0. unfold HEADER_BYTES in *.
    split_and!; [done|done|lia|done|done|done].
  - eexists. split; [done|]. simpl. unfold SHM_CACHELINE_SIZE, HEADER_BYTES in *.
    split_and!; [mlia|mlia|done|intros Hm; specialize (Hdir Hm); mlia|intros Hm; specialize (Hssd Hm); mlia].
Qed.

Lemma initialize_header_frame env s :
  let s' := initialize_header env s in
  sm_backing_mode s' = sm_backing_mode s ∧ sm_data_area s' = sm_data_area s ∧ sm_ssd_backend s' = sm_ssd_backend s ∧
  sm_shm_size s' = sm_shm_size s ∧ sm_ssd_config s' = sm_ssd_config s.
Proof. unfold initialize_header. by destruct (sm_header s); [case_match|]. Qed.

Lemma initialize_data_frame s :
  let s' := initialize_data_area s in
  sm_header s' = sm_header s ∧ sm_backing_mode s' = sm_backing_mode s ∧ sm_ssd_backend s' = sm_ssd_backend s ∧
  sm_shm_size s' = sm_shm_size s ∧ sm_ssd_config s' = sm_ssd_config s ∧ (is_Some (sm_data_area s) → is_Some (sm_data_area s')).
Proof. unfold initialize_data_area. destruct (sm_header s) eqn:E; [|done]. by repeat case_match. Qed.

Lemma finish_inv env s h :
  sm_header (initialize_header env s) = Some h → 0 < sh_num_cachelines h ∧ sh_num_cachelines h * 64 < TWO64 ∧ is_u64 (sh_base_addr h) ∧
    (sm_backing_mode s ≠ SsdStream → HEADER_BYTES + sh_num_cachelines h * 64 <= sm_shm_size s) ∧
    (sm_backing_mode s = SsdStream → sh_num_cachelines h * 64 <= sc_capacity_bytes (sm_ssd_config s)) →
  (sm_backing_mode s ≠ SsdStream → is_Some (sm_data_area s) ∧ sm_ssd_backend s = None) →
  (sm_backing_mode s = SsdStream → ∃ b, sm_ssd_backend s = Some b ∧ sb_initialized b = true ∧ ssd_inv b ∧ quiet b) →
  shm_inv (initialize_data_area (initialize_header env s)).
Proof.
  intros Hh Hb Hdir Hssd. destruct (initialize_header_frame env s) as (A1 & A2 & A3 & A4 & A5).
  destruct (initialize_data_frame (initialize_header env s)) as (B1 & B2 & B3 & B4 & B5 & B6).
  split; rewrite B2, A1.
  - exists h. rewrite B1, B4, B5, A4, A5. done.
  - intros Hm. destruct (Hdir Hm). rewrite B3, A3. split; [apply B6; by rewrite A2|done].
  - intros Hm. rewrite B3, A3. auto.
Qed.

(** The capacity a manager is constructed with: at least a megabyte, no overflow;
    in SSD mode a configuration with machine-width fields. *)
Definition capacity_ok (cap : Z) (c : SsdStreamingConfig) (mode : BackingMode) : Prop :=
  1 <= cap ∧ cap * 1048576 < TWO64 - 64 ∧
  (mode = SsdStream → config_in c = true ∧ 128 <= sc_capacity_bytes c < TWO64 - 64).

Lemma new_manager_size cap mode file c ms :
  capacity_ok cap c mode → sm_shm_size (new_manager cap mode file c ms) = cap * 1048576.
Proof. intros (H1 & H2 & _). simpl. rewrite (u64_small (cap * 1024)) by mlia. rewrite u64_small by mlia. lia. Qed.

Lemma initialize_ssd_inv env cap c ms s' :
  capacity_ok cap c SsdStream → env_ok env false (cap * 1048576) →
  initialize env (new_manager cap SsdStream false c ms) = (true, s') → shm_inv s'.
Proof.
  intros Hc [Hb _]. pose proof Hc as (_ & _ & Hssd). destruct (Hssd eq_refl) as [Hin Hcap]. unfold initialize.
  rewrite decide_True by done. unfold create_ssd_streaming_backend. simpl. destruct (decide (sc_backing_path c = EmptyString)); [done|].
  destruct (SsdBackend.initialize _ _) as [ok b] eqn:E. destruct ok; [|done]. intros [= <-].
  assert (between_calls b ∧ sb_initialized b = true) as [[_ Hbc] Hini].
  { split; [|unfold SsdBackend.initialize in E; simpl in E; destruct (negb _); by simplify_eq].
    eapply SsdBackend.initialize_ok; [|exact E]. split; [|done]. simpl. unfold config_in in *. simpl.
    pose proof (u32_range (sc_page_size c)). pose proof (u32_range (sc_io_chunk_size c)).
    pose proof (u32_range (sc_read_ahead_pages c)). unfold is_u32 in *. lia. }
  rewrite Hini in Hbc. set (s1 := set_backend (Some b) _).
  destruct (header_after env s1 zero_header) as (h & Hh & Hrest); [done|done|done|done|done|done|].
  apply (finish_inv env s1 h Hh Hrest); [done|]. intros _. exists b. destruct Hbc. done.
Qed.

Lemma initialize_mapped_inv env cap mode file c ms s' :
  mode ≠ SsdStream → capacity_ok cap c mode → env_ok env file (cap * 1048576) →
  initialize env (new_manager cap mode file c ms) = (true, s') → shm_inv s'.
Proof.
  intros Hm Hc [Hb Hg]. pose proof (new_manager_size cap mode file c ms Hc) as Hsz. destruct Hc as (Hc1 & Hc2 & _).
  unfold initialize. set (s := new_manager cap mode file c ms) in *. rewrite decide_False by done.
  assert (∀ g, (if sm_use_file_backing s then create_file_backing env s else create_shared_memory env s) = Some g →
    sh_magic (sg_header g) = MAGIC_NUMBER → sh_version (sg_header g) = FORMAT_VERSION →
    0 < sh_num_cachelines (sg_header g) ∧ is_u64 (sh_base_addr (sg_header g)) ∧
    HEADER_BYTES + sh_num_cachelines (sg_header g) * 64 <= sm_shm_size s) as Hold.
  { intros g. change (sm_use_file_backing s) with file. unfold create_file_backing, create_shared_memory. rewrite Hsz. unfold HEADER_BYTES.
    destruct (os_existing env) as [g0|] eqn:E0; [destruct (Hg g0 eq_refl) as [Hok Hle]|];
      repeat case_match; intros Hsome; simplify_eq/=; intros M1 M2; try done; destruct (Hok M1 M2) as (N1 & N2 & N3);
      unfold SHM_CACHELINE_SIZE, HEADER_BYTES in *; btests; (split_and!; [done|done|]); try (specialize (Hle eq_refl)); mlia. }
  destruct (if sm_use_file_backing s then _ else _) as [g|] eqn:Eg; [|done]. specialize (Hold g eq_refl).
  unfold map_shared_memory. destruct (os_map env); [|done]. intros [= <-].
  set (s1 := set_data (Some (sg_data g)) (set_header (Some (sg_header g)) s)).
  assert (data_capacity_bytes s1 = sm_shm_size s1 - HEADER_BYTES) as Hcap.
  { unfold data_capacity_bytes. rewrite decide_False by done. change (sm_shm_size s1) with (sm_shm_size s). rewrite Hsz.
    unfold HEADER_BYTES. destruct (_ <? _) eqn:E; btests; [lia|done]. }
  destruct (header_after env s1 (sg_header g)) as (h & Hh & Hrest); [done|done| |done|done|by intros _|].
  { rewrite Hcap. change (sm_shm_size s1) with (sm_shm_size s). rewrite Hsz. unfold HEADER_BYTES. lia. }
  apply (finish_inv env s1 h Hh Hrest); [by split|done].
Qed.

(** ** Theorems *)

(** A manager that initializes is well formed in every backing mode: all of its lines
    lie inside the mapping or the backend, so no access can leave them. *)
Theorem shm_initialize_inv env cap mode file c ms s' :
  capacity_ok cap c mode → env_ok env file (cap * 1048576) → (mode = SsdStream → file = false) →
  initialize env (new_manager cap mode file c ms) = (true, s') → shm_inv s'.
Proof.
  intros Hc He Hf Hi. destruct (decide (mode = SsdStream)) as [->|Hm].
  - rewrite Hf in He, Hi by done. by eapply initialize_ssd_inv.
  - by eapply initialize_mapped_inv.
Qed.

(** C31. A read and a write stay inside of the memory.  A write that succeeds stores its
    bytes at the addresses from [a] on, which the next read of them returns, and
    changes no byte at another offset; a read changes nothing.  A write that fails
    stores at most a prefix. *)
Theorem shm_read_write s a bs r s1 r2 s2 :
  shm_inv s → is_u64 a → (length bs ≤ 64)%nat →
  write_cacheline s a bs = (r, s1) → read_cacheline s1 a (Z.of_nat (length bs)) = (r2, s2) →
  shm_inv s2 ∧ r ≠ Fault ∧ r2 ≠ Fault ∧ wrote_prefix s s1 a bs (is_done r) ∧ (∀ o, mem s2 o = mem s1 o) ∧
  (is_done r = true → ∀ x, r2 = Done x → x = bs).
Proof.
  intros Hi Ha Hl Hw Hr. apply write_cacheline_ok in Hw as (Hnf & Hk & Hn & Hp); [|done..|unfold is_u64; lia].
  apply read_cacheline_ok in Hr as (Hnf2 & Hk2 & Hm2 & Hbs); [|apply Hk|done|unfold is_u64; lia].
  split_and!; [apply Hk2|done|done|done|done|]. intros Hd x ->. destruct (Hbs x eq_refl) as [_ ->].
  rewrite Nat2Z.id. rewrite Hd in Hp. by apply (read_back s).
Qed.

(** Atomics: a successful fetch-and-add or compare-and-swap returns the word at the
    address and leaves the sum modulo 2^64, or the new word when the old one was the
    expected one, there; other bytes are kept. *)
Theorem shm_atomics s a f r s' :
  shm_inv s → is_u64 a → atomic_rmw s a f = (r, s') →
  shm_inv s' ∧ r ≠ Fault ∧ ∀ old, r = Done old →
    old = word s a ∧ word s' a = match f old with Some v => u64 v | None => old end ∧
    ∀ o, 0 <= o → (∀ i, 0 <= i < 8 → o ≠ offset_of s (a +w i)) → mem s' o = mem s o.
Proof.
  intros Hi Ha Hr. apply atomic_rmw_ok in Hr as [Hk Hres]; [|done..]. split; [apply Hk|]. split; [by destruct r|].
  intros old ->. destruct Hres as [-> Hm]. split; [done|]. destruct (f (word s a)) as [v|] eqn:Ef.
  - split; [by eapply word_put; [apply Hk|..]|]. intros o Ho Hne. rewrite Hm by done.
    apply put_other; [|done]. by rewrite le_encode_length.
  - split; [|by intros o Ho _; apply Hm]. unfold word. rewrite (get_same_header s) by apply Hk. f_equal. by apply get_ext_nonneg.
Qed.

(** ** Examples *)

Definition ex_env (g : option Segment) : OsEnv :=
  {| os_existing := g; os_create := true; os_truncate := true; os_map := true; os_ssd_open := true; os_ssd_disk := ∅;
     os_ssd_io := []; os_ssd_alloc := []; os_base_addr := None |}.

Definition ex_shm : SharedMemoryManager := (initialize (ex_env None) (SharedMemoryManager_new 1 [])).2.

Lemma ex_env_ok size : env_ok (ex_env None) false size.
Proof. by split. Qed.

Lemma ex_capacity_ok : capacity_ok 1 default_ssd_config SharedMemory.
Proof. by split_and!. Qed.

Lemma shm_initialize_inv_witness :
  initialize (ex_env None) (SharedMemoryManager_new 1 []) = (true, ex_shm) ∧ shm_inv ex_shm.
Proof.
  assert (initialize (ex_env None) (SharedMemoryManager_new 1 []) = (true, ex_shm)) as H by (vm_compute; reflexivity).
  split; [exact H|]. apply (shm_initialize_inv (ex_env None) 1 SharedMemory false default_ssd_config [] ex_shm);
    [exact ex_capacity_ok|apply ex_env_ok|discriminate|exact H].
Defined.

Lemma ex_shm_inv : shm_inv ex_shm.
Proof.
  apply (initialize_mapped_inv (ex_env None) 1 SharedMemory false default_ssd_config []);
    [discriminate|exact ex_capacity_ok|apply ex_env_ok|vm_compute; reflexivity].
Qed.

Definition ex_bytes : list Z := [1; 2; 3; 4; 5; 6; 7; 8].
Definition ex_shm_written : SharedMemoryManager := (write_cacheline ex_shm 60 ex_bytes).2.

(** A write across two lines. *)
Lemma shm_read_write_witness :
  (write_cacheline ex_shm 60 ex_bytes).1 = Done tt ∧
  ∀ x, (read_cacheline ex_shm_written 60 8).1 = Done x → x = ex_bytes.
Proof.
  split; [vm_compute; reflexivity|].
  refine (proj2 (proj2 (proj2 (proj2 (proj2 (shm_read_write ex_shm 60 ex_bytes (Done tt) ex_shm_written
    (read_cacheline ex_shm_written 60 8).1 (read_cacheline ex_shm_written 60 8).2 ex_shm_inv _ _ _ _))))) _).
  - done.
  - simpl. lia.
  - vm_compute. reflexivity.
  - apply surjective_pairing.
  - reflexivity.
Defined.

Lemma shm_atomics_witness :
  word ex_shm_written 56 = 289077004400066560 ∧
  word (atomic_fetch_add_uint64 ex_shm_written 56 UINT64_MAX).2 56 = 289077004400066559.
Proof.
  split; [vm_compute; reflexivity|].
  destruct (shm_atomics ex_shm_written 56 (λ old, Some (old +w UINT64_MAX))
    (Done 289077004400066560) (atomic_fetch_add_uint64 ex_shm_written 56 UINT64_MAX).2) as (_ & _ & Hw).
  - destruct (write_cacheline_ok ex_shm 60 ex_bytes (Done tt) ex_shm_written ex_shm_inv) as (_ & Hk & _); [done|done|vm_compute; reflexivity|].
    apply Hk.
  - done.
  - vm_compute. reflexivity.
  - destruct (Hw 289077004400066560 eq_refl) as (_ & Hv & _). exact Hv.
Defined.

(** ** Observations *)

(** A backing file that was initialized with a larger capacity and is reopened with
    a smaller one is cut, but its header is trusted: the lines that no longer exist
    are still accessed, outside of the mapping. *)
Definition ex_file_2mb : Segment :=
  {| sg_size := 2097152;
     sg_header := {| sh_magic := MAGIC_NUMBER; sh_version := FORMAT_VERSION; sh_total_size := 2097152; sh_data_offset := 56;
                     sh_metadata_offset := 0; sh_num_cachelines := 32767; sh_base_addr := 0 |};
     sg_data := ∅ |}.

Lemma reopened_smaller_faults :
  let s := (initialize (ex_env (Some ex_file_2mb)) (SharedMemoryManager_file 1 true [])).2 in
  is_valid_address s 1572864 = true ∧ (read_cacheline s 1572864 8).1 = Fault.
Proof. vm_compute. split; reflexivity. Qed.

(** [initialize_data_area] never clears the data area: [initialize_header] has
    always stored the magic number before. *)
Lemma data_area_never_cleared env s :
  sm_backing_mode s ≠ SsdStream → is_Some (sm_header s) →
  (sm_header (initialize_header env s) ≫= λ h, Some (sh_magic h)) = Some MAGIC_NUMBER ∧
  sm_data_area (initialize_data_area (initialize_header env s)) = sm_data_area s.
Proof.
  intros Hm [h Hh]. unfold initialize_header. rewrite Hh. rewrite bool_decide_false by done. cbn [negb andb].
  destruct (_ && _) eqn:E; [|by unfold initialize_data_area; simpl; rewrite bool_decide_false]. btests.
  rewrite Hh. simpl. split; [by f_equal|]. unfold initialize_data_area. rewrite Hh, bool_decide_false by done.
  by rewrite (proj2 (Z.eqb_eq _ _)).
Qed.
