(* ===== verification/Endpoint.v ===== *)
(** * CXL endpoints and switches

    Models [CXLMemExpander] and [CXLSwitch] (include/cxlendpoint.h,
    src/cxlendpoint.cpp) and [CXLController::record_cxl_access]
    (src/cxlcontroller.cpp).  An expander has a queue of requests, credits and
    requests in flight, the list of accesses it has seen ([occupation]) with
    two caches over it, counters and a bandwidth model.  Switches form a tree;
    expanders are shared between the tree and the controller, so they live in a
    store and the tree holds their positions.  Every position of a tree lies in
    the store: the null pointers that some methods skip do not occur in trees the
    topology builds.

    [double] is [f64]; [std::sort] is the stable [merge_sort]. *)

From S2P Require Import Prelude Float64.

(** ** Data *)

Record occupation_info := { oi_timestamp : Z; oi_address : Z; oi_access_count : Z }.

Record CXLRequest := {
  cr_timestamp : Z; cr_address : Z; cr_tid : Z; cr_is_read : bool; cr_is_write : bool;
  cr_issue_time : Z; cr_complete_time : Z
}.

Record BandwidthModelConfig := {
  bm_read_peak_gbps : f64;
  bm_write_peak_gbps : f64;
  bm_mixed_peak_gbps : f64;
  bm_knee_utilization : f64;
  bm_saturation_utilization : f64;
  bm_low_utilization_slope : f64;
  bm_max_penalty_ns : f64;
  bm_min_window_ns : Z;
  bm_calibrated_from_mlc : bool
}.

Record CXLMemExpanderEvent := { xe_load : Z; xe_store : Z; xe_migrate_in : Z; xe_migrate_out : Z; xe_hit_old : Z }.

Record CXLSwitchEvent := { se_load : Z; se_store : Z; se_conflict : Z }.

Record AddressRange := { ar_start : Z; ar_end : Z }.

Record CXLMemExpander := {
  xp_bandwidth_read : f64; xp_bandwidth_write : f64;
  xp_latency_read : f64; xp_latency_write : f64;
  xp_capacity : Z;
  xp_occupation : list occupation_info;
  xp_address_cache : gset Z;
  xp_cache_valid : bool;
  xp_counter : CXLMemExpanderEvent;
  xp_last_counter : CXLMemExpanderEvent;
  xp_bandwidth_model : BandwidthModelConfig;
  xp_request_queue : list CXLRequest;
  xp_read_credits : Z; xp_write_credits : Z;
  xp_in_flight_requests : gmap Z CXLRequest;
  xp_epoch : Z;
  xp_last_timestamp : Z;
  xp_id : Z;
  xp_address_ranges : list AddressRange
}.

Definition MAX_QUEUE_SIZE : Z := 64.
Definition FLIT_SIZE : Z := 66.
Definition DATA_FLIT : Z := 65.
Definition INITIAL_CREDITS : Z := 2.
Definition kCacheLineSize : Z := 64.

Definition frontend_latency : f64 := f64_of_Z 10.
Definition forward_latency : f64 := f64_of_Z 15.
Definition response_latency : f64 := f64_of_Z 20.

(** *** Field updates *)

Definition set_queue (q : list CXLRequest) (e : CXLMemExpander) : CXLMemExpander :=
  {| xp_bandwidth_read := xp_bandwidth_read e; xp_bandwidth_write := xp_bandwidth_write e;
     xp_latency_read := xp_latency_read e; xp_latency_write := xp_latency_write e; xp_capacity := xp_capacity e;
     xp_occupation := xp_occupation e; xp_address_cache := xp_address_cache e; xp_cache_valid := xp_cache_valid e;
     xp_counter := xp_counter e; xp_last_counter := xp_last_counter e; xp_bandwidth_model := xp_bandwidth_model e;
     xp_request_queue := q; xp_read_credits := xp_read_credits e; xp_write_credits := xp_write_credits e;
     xp_in_flight_requests := xp_in_flight_requests e; xp_epoch := xp_epoch e; xp_last_timestamp := xp_last_timestamp e;
     xp_id := xp_id e; xp_address_ranges := xp_address_ranges e |}.

Definition set_flow (rc wc : Z) (fl : gmap Z CXLRequest) (e : CXLMemExpander) : CXLMemExpander :=
  {| xp_bandwidth_read := xp_bandwidth_read e; xp_bandwidth_write := xp_bandwidth_write e;
     xp_latency_read := xp_latency_read e; xp_latency_write := xp_latency_write e; xp_capacity := xp_capacity e;
     xp_occupation := xp_occupation e; xp_address_cache := xp_address_cache e; xp_cache_valid := xp_cache_valid e;
     xp_counter := xp_counter e; xp_last_counter := xp_last_counter e; xp_bandwidth_model := xp_bandwidth_model e;
     xp_request_queue := xp_request_queue e; xp_read_credits := rc; xp_write_credits := wc;
     xp_in_flight_requests := fl; xp_epoch := xp_epoch e; xp_last_timestamp := xp_last_timestamp e;
     xp_id := xp_id e; xp_address_ranges := xp_address_ranges e |}.

Definition set_occupation (l : list occupation_info) (e : CXLMemExpander) : CXLMemExpander :=
  {| xp_bandwidth_read := xp_bandwidth_read e; xp_bandwidth_write := xp_bandwidth_write e;
     xp_latency_read := xp_latency_read e; xp_latency_write := xp_latency_write e; xp_capacity := xp_capacity e;
     xp_occupation := l; xp_address_cache := xp_address_cache e; xp_cache_valid := xp_cache_valid e;
     xp_counter := xp_counter e; xp_last_counter := xp_last_counter e; xp_bandwidth_model := xp_bandwidth_model e;
     xp_request_queue := xp_request_queue e; xp_read_credits := xp_read_credits e; xp_write_credits := xp_write_credits e;
     xp_in_flight_requests := xp_in_flight_requests e; xp_epoch := xp_epoch e; xp_last_timestamp := xp_last_timestamp e;
     xp_id := xp_id e; xp_address_ranges := xp_address_ranges e |}.

Definition set_caches (c : gset Z) (rs : list AddressRange) (v : bool) (e : CXLMemExpander) : CXLMemExpander :=
  {| xp_bandwidth_read := xp_bandwidth_read e; xp_bandwidth_write := xp_bandwidth_write e;
     xp_latency_read := xp_latency_read e; xp_latency_write := xp_latency_write e; xp_capacity := xp_capacity e;
     xp_occupation := xp_occupation e; xp_address_cache := c; xp_cache_valid := v;
     xp_counter := xp_counter e; xp_last_counter := xp_last_counter e; xp_bandwidth_model := xp_bandwidth_model e;
     xp_request_queue := xp_request_queue e; xp_read_credits := xp_read_credits e; xp_write_credits := xp_write_credits e;
     xp_in_flight_requests := xp_in_flight_requests e; xp_epoch := xp_epoch e; xp_last_timestamp := xp_last_timestamp e;
     xp_id := xp_id e; xp_address_ranges := rs |}.

Definition set_counters (c lc : CXLMemExpanderEvent) (e : CXLMemExpander) : CXLMemExpander :=
  {| xp_bandwidth_read := xp_bandwidth_read e; xp_bandwidth_write := xp_bandwidth_write e;
     xp_latency_read := xp_latency_read e; xp_latency_write := xp_latency_write e; xp_capacity := xp_capacity e;
     xp_occupation := xp_occupation e; xp_address_cache := xp_address_cache e; xp_cache_valid := xp_cache_valid e;
     xp_counter := c; xp_last_counter := lc; xp_bandwidth_model := xp_bandwidth_model e;
     xp_request_queue := xp_request_queue e; xp_read_credits := xp_read_credits e; xp_write_credits := xp_write_credits e;
     xp_in_flight_requests := xp_in_flight_requests e; xp_epoch := xp_epoch e; xp_last_timestamp := xp_last_timestamp e;
     xp_id := xp_id e; xp_address_ranges := xp_address_ranges e |}.

Definition set_clock (epoch ts : Z) (m : BandwidthModelConfig) (e : CXLMemExpander) : CXLMemExpander :=
  {| xp_bandwidth_read := xp_bandwidth_read e; xp_bandwidth_write := xp_bandwidth_write e;
     xp_latency_read := xp_latency_read e; xp_latency_write := xp_latency_write e; xp_capacity := xp_capacity e;
     xp_occupation := xp_occupation e; xp_address_cache := xp_address_cache e; xp_cache_valid := xp_cache_valid e;
     xp_counter := xp_counter e; xp_last_counter := xp_last_counter e; xp_bandwidth_model := m;
     xp_request_queue := xp_request_queue e; xp_read_credits := xp_read_credits e; xp_write_credits := xp_write_credits e;
     xp_in_flight_requests := xp_in_flight_requests e; xp_epoch := epoch; xp_last_timestamp := ts;
     xp_id := xp_id e; xp_address_ranges := xp_address_ranges e |}.

(** Adds to the counters: loads, stores, migrations in and out, refused requests. *)
Definition count (l s mi mo h : Z) (e : CXLMemExpander) : CXLMemExpander :=
  let c := xp_counter e in
  set_counters {| xe_load := xe_load c +w l; xe_store := xe_store c +w s; xe_migrate_in := xe_migrate_in c +w mi;
                  xe_migrate_out := xe_migrate_out c +w mo; xe_hit_old := xe_hit_old c +w h |} (xp_last_counter e) e.

Definition inc_load : CXLMemExpander → CXLMemExpander := count 1 0 0 0 0.
Definition inc_store : CXLMemExpander → CXLMemExpander := count 0 1 0 0 0.
Definition inc_hit_old : CXLMemExpander → CXLMemExpander := count 0 0 0 0 1.

Definition zero_event : CXLMemExpanderEvent :=
  {| xe_load := 0; xe_store := 0; xe_migrate_in := 0; xe_migrate_out := 0; xe_hit_old := 0 |}.

(** ** Bandwidth model *)

Definition default_bandwidth_model : BandwidthModelConfig :=
  {| bm_read_peak_gbps := f64_of_Z 50; bm_write_peak_gbps := f64_of_Z 50; bm_mixed_peak_gbps := f64_of_Z 50;
     bm_knee_utilization := flit 80 100; bm_saturation_utilization := flit 98 100; bm_low_utilization_slope := flit 5 100;
     bm_max_penalty_ns := f64_of_Z 5000; bm_min_window_ns := 100000; bm_calibrated_from_mlc := false |}.

(** The harmonic mean of the two peaks. *)
Definition mixed_peak (r w : f64) : f64 := (f64_of_Z 2 / ((f1 / r) + (f1 / w)))%f64.

Definition normalize_bandwidth_model (c : BandwidthModelConfig) : BandwidthModelConfig :=
  let milli := flit 1 1000 in
  let r := fmax milli (bm_read_peak_gbps c) in
  let w := fmax milli (bm_write_peak_gbps c) in
  let m := if fle (bm_mixed_peak_gbps c) f0 then mixed_peak r w else bm_mixed_peak_gbps c in
  let knee := fclamp (bm_knee_utilization c) (flit 10 100) (flit 95 100) in
  {| bm_read_peak_gbps := r; bm_write_peak_gbps := w; bm_mixed_peak_gbps := fmax milli m;
     bm_knee_utilization := knee;
     bm_saturation_utilization := fclamp (bm_saturation_utilization c) (knee + flit 1 100)%f64 (flit 995 1000);
     bm_low_utilization_slope := fclamp (bm_low_utilization_slope c) f0 f1;
     bm_max_penalty_ns := fmax f0 (bm_max_penalty_ns c);
     bm_min_window_ns := Z.max 1000 (bm_min_window_ns c);
     bm_calibrated_from_mlc := bm_calibrated_from_mlc c |}.

Definition interpolate_peak_bandwidth (m : BandwidthModelConfig) (read_ratio : f64) : f64 :=
  let mixed := bm_mixed_peak_gbps m in
  let half := flit 1 2 in
  if fle (flit 95 100) read_ratio then bm_read_peak_gbps m
  else if fle read_ratio (flit 5 100) then bm_write_peak_gbps m
  else if fle half read_ratio then
    let t := ((read_ratio - half) / half)%f64 in (mixed + t * (bm_read_peak_gbps m - mixed))%f64
  else
    let t := (read_ratio / half)%f64 in (bm_write_peak_gbps m + t * (mixed - bm_write_peak_gbps m))%f64.

(** The penalty before it is limited: below the knee linear, above it a queueing
    term, above saturation a term of the latency. *)
Definition raw_penalty (m : BandwidthModelConfig) (utilization transfer_ns base_latency_ns : f64) : f64 :=
  let milli := flit 1 1000 in
  let knee := bm_knee_utilization m in
  let sat := bm_saturation_utilization m in
  let p0 := (transfer_ns * utilization * bm_low_utilization_slope m)%f64 in
  let p1 := if flt knee utilization then
              let clipped := fmin utilization sat in
              let knee_span := fmax milli (sat - knee)%f64 in
              let knee_progress := ((clipped - knee) / knee_span)%f64 in
              let queue_multiplier := ((clipped / fmax milli (f1 - clipped)%f64) * knee_progress * knee_progress)%f64 in
              (p0 + transfer_ns * queue_multiplier)%f64
            else p0 in
  if flt sat utilization then (p1 + base_latency_ns * ((utilization - sat) / fmax milli (f1 - sat)))%f64 else p1.

Definition base_latency_ns (read_ratio read_latency_ns write_latency_ns : f64) : f64 :=
  (read_latency_ns * read_ratio + write_latency_ns * (f1 - read_ratio))%f64.

Definition penalty_cap (m : BandwidthModelConfig) (base : f64) : f64 := fmax (bm_max_penalty_ns m) (base * f64_of_Z 10)%f64.

Definition calculate_mlc_bandwidth_penalty (m : BandwidthModelConfig) (access_count first_timestamp last_timestamp : Z)
    (read_ratio read_latency_ns write_latency_ns : f64) : f64 :=
  if access_count =? 0 then f0
  else
    let observed_window := if first_timestamp <? last_timestamp then last_timestamp - first_timestamp else 0 in
    let window_ns := f64_of_Z (Z.max observed_window (bm_min_window_ns m)) in
    let observed_gbps := (f64_of_Z (access_count *w kCacheLineSize) / window_ns)%f64 in
    let peak_gbps := fmax (flit 1 1000) (interpolate_peak_bandwidth m read_ratio) in
    let utilization := (observed_gbps / peak_gbps)%f64 in
    if fle utilization f0 then f0
    else
      let transfer_ns := (f64_of_Z kCacheLineSize / peak_gbps)%f64 in
      let base := base_latency_ns read_ratio read_latency_ns write_latency_ns in
      fclamp (raw_penalty m utilization transfer_ns base) f0 (penalty_cap m base).

(** ** Construction *)

Definition CXLMemExpander_new (read_bw write_bw read_lat write_lat id capacity : Z) : CXLMemExpander :=
  let r := fmax (flit 1 1000) (f64_of_Z read_bw) in
  let w := fmax (flit 1 1000) (f64_of_Z write_bw) in
  {| xp_bandwidth_read := f64_of_Z read_bw; xp_bandwidth_write := f64_of_Z write_bw;
     xp_latency_read := f64_of_Z read_lat; xp_latency_write := f64_of_Z write_lat; xp_capacity := u64 capacity;
     xp_occupation := []; xp_address_cache := ∅; xp_cache_valid := false;
     xp_counter := zero_event; xp_last_counter := zero_event;
     xp_bandwidth_model :=
       {| bm_read_peak_gbps := r; bm_write_peak_gbps := w; bm_mixed_peak_gbps := mixed_peak r w;
          bm_knee_utilization := bm_knee_utilization default_bandwidth_model;
          bm_saturation_utilization := bm_saturation_utilization default_bandwidth_model;
          bm_low_utilization_slope := bm_low_utilization_slope default_bandwidth_model;
          bm_max_penalty_ns := bm_max_penalty_ns default_bandwidth_model;
          bm_min_window_ns := bm_min_window_ns default_bandwidth_model;
          bm_calibrated_from_mlc := bm_calibrated_from_mlc default_bandwidth_model |};
     xp_request_queue := []; xp_read_credits := INITIAL_CREDITS; xp_write_credits := INITIAL_CREDITS;
     xp_in_flight_requests := ∅; xp_epoch := 0; xp_last_timestamp := 0; xp_id := id; xp_address_ranges := [] |}.

Definition configure_bandwidth_model (c : BandwidthModelConfig) (e : CXLMemExpander) : CXLMemExpander :=
  set_clock (xp_epoch e) (xp_last_timestamp e) (normalize_bandwidth_model c) e.

Definition set_epoch (epoch : Z) (e : CXLMemExpander) : CXLMemExpander :=
  set_clock epoch (xp_last_timestamp e) (xp_bandwidth_model e) e.

(** ** Queue, credits and pipeline *)

Definition queue_size (e : CXLMemExpander) : Z := Z.of_nat (length (xp_request_queue e)).

Definition can_accept_request (e : CXLMemExpander) : bool := queue_size e <? MAX_QUEUE_SIZE.

Definition has_credits (is_read : bool) (e : CXLMemExpander) : bool :=
  0 <? (if is_read then xp_read_credits e else xp_write_credits e).

Definition consume_credit (is_read : bool) (e : CXLMemExpander) : CXLMemExpander :=
  if is_read then set_flow (xp_read_credits e -w 1) (xp_write_credits e) (xp_in_flight_requests e) e
  else set_flow (xp_read_credits e) (xp_write_credits e -w 1) (xp_in_flight_requests e) e.

Definition release_credit (is_read : bool) (e : CXLMemExpander) : CXLMemExpander :=
  if is_read then
    if xp_read_credits e <? INITIAL_CREDITS
    then set_flow (xp_read_credits e +w 1) (xp_write_credits e) (xp_in_flight_requests e) e else e
  else
    if xp_write_credits e <? INITIAL_CREDITS
    then set_flow (xp_read_credits e) (xp_write_credits e +w 1) (xp_in_flight_requests e) e else e.

Definition calculate_congestion_delay (e : CXLMemExpander) : f64 :=
  let queue_utilization := (f64_of_Z (queue_size e) / f64_of_Z MAX_QUEUE_SIZE)%f64 in
  if flt queue_utilization (flit 1 2) then f0
  else if flt queue_utilization (flit 8 10) then ((queue_utilization - flit 1 2) * f64_of_Z 20)%f64
  else (f64_of_Z 6 + (queue_utilization - flit 8 10) * f64_of_Z 100)%f64.

Definition calculate_protocol_overhead (data_size : Z) : f64 :=
  let num_flits := (data_size + FLIT_SIZE - 1) / FLIT_SIZE in
  (f64_of_Z (num_flits * DATA_FLIT) * flit 1 10)%f64.

Definition calculate_pipeline_latency (e : CXLMemExpander) (is_read : bool) : f64 :=
  (((((f0 + frontend_latency) + forward_latency) + (if is_read then xp_latency_read e else xp_latency_write e))
    + response_latency) + calculate_protocol_overhead 64 + calculate_congestion_delay e)%f64.

Section with_casts.
Context `{CastUB}.

Definition issued (current_time : Z) (e : CXLMemExpander) (r : CXLRequest) : CXLRequest :=
  {| cr_timestamp := cr_timestamp r; cr_address := cr_address r; cr_tid := cr_tid r; cr_is_read := cr_is_read r;
     cr_is_write := cr_is_write r; cr_issue_time := current_time;
     cr_complete_time := f64_to_u64 (f64_of_Z current_time + calculate_pipeline_latency e (cr_is_read r))%f64 |}.

(** Completed requests release their credit. *)
Definition completed (current_time : Z) (m : gmap Z CXLRequest) : list CXLRequest :=
  List.filter (λ r, bool_decide (cr_complete_time r <= current_time)) (snd <$> map_to_list m).

Definition remaining (current_time : Z) (m : gmap Z CXLRequest) : gmap Z CXLRequest :=
  filter (λ kv, ¬ cr_complete_time kv.2 <= current_time) m.

Definition complete_requests (current_time : Z) (e : CXLMemExpander) : CXLMemExpander :=
  let m := xp_in_flight_requests e in
  let e1 := List.fold_left (λ e r, release_credit (cr_is_read r) e) (completed current_time m) e in
  set_flow (xp_read_credits e1) (xp_write_credits e1) (remaining current_time m) e1.

(** New requests are issued from the front of the queue, at most [n]. *)
Fixpoint issue_requests (n : nat) (current_time : Z) (e : CXLMemExpander) : CXLMemExpander :=
  match n, xp_request_queue e with
  | S n', req :: rest =>
      if (Z.of_nat (size (xp_in_flight_requests e)) <? MAX_QUEUE_SIZE / 2) && has_credits (cr_is_read req) e then
        let e1 := consume_credit (cr_is_read req) e in
        let req' := issued current_time e1 req in
        issue_requests n' current_time
          (set_queue rest (set_flow (xp_read_credits e1) (xp_write_credits e1)
             (<[cr_address req := req']> (xp_in_flight_requests e1)) e1))
      else e
  | _, _ => e
  end.

Definition process_queued_requests (current_time : Z) (e : CXLMemExpander) : CXLMemExpander :=
  let e1 := complete_requests current_time e in
  issue_requests (length (xp_request_queue e1)) current_time e1.

(** ** Address caches *)

Definition invalidate_cache (e : CXLMemExpander) : CXLMemExpander :=
  set_caches (xp_address_cache e) (xp_address_ranges e) false e.

Definition addresses (l : list occupation_info) : list Z := oi_address <$> l.

Definition update_address_cache (e : CXLMemExpander) : CXLMemExpander :=
  if xp_cache_valid e then e
  else set_caches (list_to_set (addresses (xp_occupation e))) (xp_address_ranges e) true e.

Definition occ_le (a b : occupation_info) : Prop := oi_address a <= oi_address b.

#[global] Instance occ_le_dec : RelDecision occ_le.
Proof. intros a b. unfold occ_le. apply _. Defined.

(** Consecutive addresses are merged into ranges. *)
Fixpoint merge_ranges (current : AddressRange) (l : list Z) : list AddressRange :=
  match l with
  | [] => [current]
  | a :: l' =>
      if a =? ar_end current +w 1 then merge_ranges {| ar_start := ar_start current; ar_end := a |} l'
      else current :: merge_ranges {| ar_start := a; ar_end := a |} l'
  end.

Definition ranges_of (l : list Z) : list AddressRange :=
  match l with [] => [] | a :: l' => merge_ranges {| ar_start := a; ar_end := a |} l' end.

Definition update_range_cache (e : CXLMemExpander) : CXLMemExpander :=
  if xp_cache_valid e then e
  else
    let occ := merge_sort occ_le (xp_occupation e) in
    set_caches (xp_address_cache e) (ranges_of (addresses occ)) true (set_occupation occ e).

(** [std::lower_bound] on the ranges: the first that does not end before the address. *)
Fixpoint lower_bound (addr : Z) (rs : list AddressRange) : option AddressRange :=
  match rs with
  | [] => None
  | r :: rs' => if ar_end r <? addr then lower_bound addr rs' else Some r
  end.

Definition in_ranges (addr : Z) (rs : list AddressRange) : bool :=
  match lower_bound addr rs with
  | Some r => (ar_start r <=? addr) && (addr <=? ar_end r)
  | None => false
  end.

Definition is_address_local (addr : Z) (e : CXLMemExpander) : bool * CXLMemExpander :=
  let e1 := if xp_cache_valid e then e else update_range_cache e in
  (in_ranges addr (xp_address_ranges e1), e1).

(** ** Accesses *)

(** The first entry of an address is removed. *)
Fixpoint erase_first (addr : Z) (l : list occupation_info) : option (list occupation_info) :=
  match l with
  | [] => None
  | o :: l' => if oi_address o =? addr then Some l' else (o ::.) <$> erase_first addr l'
  end.

Definition later (ts : Z) (e : CXLMemExpander) : CXLMemExpander :=
  set_clock (xp_epoch e) (Z.max (xp_last_timestamp e) ts) (xp_bandwidth_model e) e.

Definition push_request (r : CXLRequest) (e : CXLMemExpander) : CXLMemExpander :=
  set_queue (xp_request_queue e ++ [r]) e.

Definition note_access (ts addr n : Z) (e : CXLMemExpander) : CXLMemExpander :=
  set_occupation (xp_occupation e ++ [{| oi_timestamp := ts; oi_address := addr; oi_access_count := n |}]) e.

Definition cache_address (addr : Z) (e : CXLMemExpander) : CXLMemExpander :=
  set_caches ({[addr]} ∪ xp_address_cache e) (xp_address_ranges e) (xp_cache_valid e) e.

(** [insert]: 0 refused or another endpoint, 1 store, 2 load.  The request that is
    queued is a write, and a read when the address was seen before; its issue and
    completion times are set when it is issued. *)
Definition insert (timestamp tid phys_addr index : Z) (e : CXLMemExpander) : Z * CXLMemExpander :=
  if negb (index =? xp_id e) then (0, e)
  else
    let e1 := process_queued_requests timestamp (later timestamp e) in
    if phys_addr =? 0 then (1, inc_store e1)
    else if negb (can_accept_request e1) then (0, inc_hit_old e1)
    else
      let req (rd : bool) := {| cr_timestamp := timestamp; cr_address := phys_addr; cr_tid := tid; cr_is_read := rd;
                                cr_is_write := negb rd; cr_issue_time := 0; cr_complete_time := 0 |} in
      let found := if decide (phys_addr ∈ xp_address_cache e1) then erase_first phys_addr (xp_occupation e1) else None in
      match found with
      | Some occ => (2, inc_load (note_access timestamp phys_addr 0 (set_occupation occ (push_request (req true) e1))))
      | None => (1, inc_store (cache_address phys_addr (note_access timestamp phys_addr 0 (push_request (req false) e1))))
      end.

Definition record_access (timestamp tid phys_addr index : Z) (is_write : bool) (e : CXLMemExpander) : Z * CXLMemExpander :=
  if negb (index =? xp_id e) then (0, e)
  else
    let e1 := process_queued_requests timestamp (later timestamp e) in
    if negb (can_accept_request e1) then (0, inc_hit_old e1)
    else
      let req := {| cr_timestamp := timestamp; cr_address := phys_addr; cr_tid := tid; cr_is_read := negb is_write;
                    cr_is_write := is_write; cr_issue_time := timestamp; cr_complete_time := timestamp |} in
      let e2 := push_request req e1 in
      let e3 := set_occupation (default (xp_occupation e2) (erase_first phys_addr (xp_occupation e2))) e2 in
      let e4 := invalidate_cache (cache_address phys_addr (note_access timestamp phys_addr (if is_write then 0 else 1) e3)) in
      if is_write then (1, inc_store e4) else (2, inc_load e4).

Definition touch_occ (ts : Z) (o : occupation_info) : occupation_info :=
  {| oi_timestamp := ts; oi_address := oi_address o; oi_access_count := oi_access_count o +w 1 |}.

(** The entries of the address, and those of the range after it. *)
Definition delete_entry (addr len : Z) (e : CXLMemExpander) : CXLMemExpander :=
  let touch_if (p : occupation_info → bool) o := if p o then touch_occ (xp_last_timestamp e) o else o in
  let at_addr o := oi_address o =? addr in
  let in_range o := (addr <=? oi_address o) && (oi_address o <=? addr +w len) && negb (oi_address o =? addr) in
  let occ1 := touch_if at_addr <$> xp_occupation e in
  let occ2 := touch_if in_range <$> occ1 in
  let modified := existsb at_addr (xp_occupation e) || existsb in_range occ1 in
  let e1 := inc_load (set_occupation occ2 e) in
  if modified then invalidate_cache e1 else e1.

(** The accesses of the last 100000 ns; the subtraction wraps before that. *)
Definition get_access (timestamp : Z) (e : CXLMemExpander) : list (Z * Z) * CXLMemExpander :=
  ((λ o, (oi_timestamp o, oi_address o)) <$> List.filter (λ o, timestamp -w 100000 <? oi_timestamp o) (xp_occupation e),
   set_counters (xp_counter e) (xp_counter e) e).

(** [free_stats] erases each entry by a coin flip; the flips are arguments. *)
Fixpoint flip_erase (flips : list bool) (l : list occupation_info) : list occupation_info :=
  match l, flips with
  | o :: l', b :: flips' => if (b : bool) then flip_erase flips' l' else o :: flip_erase flips' l'
  | _, _ => l
  end.

Definition free_stats (flips : list bool) (e : CXLMemExpander) : CXLMemExpander :=
  let occ := flip_erase flips (xp_occupation e) in
  let e1 := set_occupation occ e in
  if Nat.eqb (length occ) (length (xp_occupation e)) then e1 else invalidate_cache e1.

(** ** Latency and bandwidth *)

(** The loop of [calculate_latency]: total latency, accesses, last timestamp. *)
Fixpoint latency_loop (dramlatency : f64) (elem : list (Z * Z)) (total : f64) (n last : Z) (e : CXLMemExpander)
    : f64 * Z * CXLMemExpander :=
  match elem with
  | [] => (total, n, e)
  | (timestamp, addr) :: elem' =>
      match is_address_local addr e with
      | (false, e1) => latency_loop dramlatency elem' total n last e1
      | (true, e1) =>
          let full := calculate_pipeline_latency e1 true in
          let current :=
            if decide (is_Some (xp_in_flight_requests e1 !! addr)) then (xp_latency_read e1 * flit 3 10)%f64
            else if (0 <? last) && (timestamp -w last <? 100) then
              let overlap_ratio := (f1 - f64_of_Z (timestamp -w last) / f64_of_Z 100)%f64 in
              (full - full * overlap_ratio * flit 1 2)%f64
            else full in
          latency_loop dramlatency elem' (total + (current + dramlatency * flit 1 10))%f64 (n + 1) timestamp e1
      end
  end.

Definition calculate_latency (elem : list (Z * Z)) (dramlatency : f64) (e : CXLMemExpander) : f64 * CXLMemExpander :=
  match List.rev elem with
  | [] => (f0, e)
  | back :: _ =>
      let e1 := update_address_cache (process_queued_requests back.1 e) in
      let '(total, n, e2) := latency_loop dramlatency elem f0 0 0 e1 in
      let total := if queue_size e2 <? MAX_QUEUE_SIZE / 4 then (total * flit 9 10)%f64 else total in
      (if 0 <? n then (total / f64_of_Z n)%f64 else f0, e2)
  end.

(** Local accesses of a list, with their first and last timestamps. *)
Fixpoint local_window (elem : list (Z * Z)) (n first last : Z) (e : CXLMemExpander) : Z * Z * Z * CXLMemExpander :=
  match elem with
  | [] => (n, first, last, e)
  | (timestamp, addr) :: elem' =>
      match is_address_local addr e with
      | (true, e1) => local_window elem' (n + 1) (Z.min first timestamp) (Z.max last timestamp) e1
      | (false, e1) => local_window elem' n first last e1
      end
  end.

Definition ratio_of (read_ops write_ops : f64) : f64 :=
  let total := (read_ops + write_ops)%f64 in if flt f0 total then (read_ops / total)%f64 else f1.

Definition calculate_bandwidth (elem : list (Z * Z)) (e : CXLMemExpander) : f64 * CXLMemExpander :=
  match elem with
  | [] => (f0, e)
  | _ =>
      let '(n, first, last, e1) := local_window elem 0 UINT64_MAX 0 e in
      if n =? 0 then (f0, e1)
      else
        let c := xp_counter e1 in
        let read_ops := f64_of_Z (xe_load c +w xe_hit_old c) in
        let write_ops := f64_of_Z (xe_store c +w xe_migrate_in c +w xe_migrate_out c) in
        (calculate_mlc_bandwidth_penalty (xp_bandwidth_model e1) n first last (ratio_of read_ops write_ops)
           (xp_latency_read e1) (xp_latency_write e1), e1)
  end.

End with_casts.

(** ** Switches *)

Record SwitchData := {
  sd_id : Z;
  sd_expanders : list nat;
  sd_counter : CXLSwitchEvent;
  sd_bandwidth_model : BandwidthModelConfig;
  sd_epoch : Z;
  sd_last_timestamp : Z;
  sd_congestion_latency : f64
}.

Inductive CXLSwitch := Switch (d : SwitchData) (switches : list CXLSwitch).

Definition CXLSwitch_new (id : Z) (expanders : list nat) (switches : list CXLSwitch) : CXLSwitch :=
  Switch {| sd_id := id; sd_expanders := expanders; sd_counter := {| se_load := 0; se_store := 0; se_conflict := 0 |};
            sd_bandwidth_model := normalize_bandwidth_model default_bandwidth_model; sd_epoch := 0;
            sd_last_timestamp := 0; sd_congestion_latency := flit 2 100 |} switches.

Definition sw_count (l s : Z) (d : SwitchData) : SwitchData :=
  let c := sd_counter d in
  {| sd_id := sd_id d; sd_expanders := sd_expanders d;
     sd_counter := {| se_load := se_load c +w l; se_store := se_store c +w s; se_conflict := se_conflict c |};
     sd_bandwidth_model := sd_bandwidth_model d; sd_epoch := sd_epoch d; sd_last_timestamp := sd_last_timestamp d;
     sd_congestion_latency := sd_congestion_latency d |}.

Definition sw_model (m : BandwidthModelConfig) (d : SwitchData) : SwitchData :=
  {| sd_id := sd_id d; sd_expanders := sd_expanders d; sd_counter := sd_counter d; sd_bandwidth_model := m;
     sd_epoch := sd_epoch d; sd_last_timestamp := sd_last_timestamp d; sd_congestion_latency := sd_congestion_latency d |}.

(** The counter of a switch after a child has taken an access: 1 store, 2 load. *)
Definition count_access (ret : Z) (d : SwitchData) : SwitchData :=
  if ret =? 1 then sw_count 0 1 d else if ret =? 2 then sw_count 1 0 d else d.

Definition accepted (ret : Z) : bool := (ret =? 1) || (ret =? 2).

Notation Store := (list CXLMemExpander).

(** The expanders of a switch are offered an access in order. *)
Fixpoint offer_expanders (op : CXLMemExpander → Z * CXLMemExpander) (xs : list nat) (st : Store) : Z * Store :=
  match xs with
  | [] => (0, st)
  | x :: xs' =>
      match st !! x with
      | None => offer_expanders op xs' st
      | Some e => let '(ret, e') := op e in
          let st' := <[x := e']> st in
          if accepted ret then (ret, st') else offer_expanders op xs' st'
      end
  end.

(** The children are offered the access in order. *)
Section offer_list.
Context (f : CXLSwitch → Store → Z * CXLSwitch * Store).

Fixpoint offer_list (sws : list CXLSwitch) (st : Store) : Z * list CXLSwitch * Store :=
  match sws with
  | [] => (0, [], st)
  | s :: sws' =>
      let '(ret, s', st') := f s st in
      if accepted ret then (ret, s' :: sws', st')
      else let '(ret2, sws2, st2) := offer_list sws' st' in (ret2, s' :: sws2, st2)
  end.
End offer_list.

(** [CXLSwitch::insert] and [CXLSwitch::record_access]: the expanders, then the
    child switches, until one takes the access. *)
Fixpoint offer (op : CXLMemExpander → Z * CXLMemExpander) (sw : CXLSwitch) (st : Store) : Z * CXLSwitch * Store :=
  match sw with
  | Switch d switches =>
      let '(ret, st1) := offer_expanders op (sd_expanders d) st in
      if accepted ret then (ret, Switch (count_access ret d) switches, st1)
      else
        let '(ret2, sws2, st2) := offer_list (offer op) switches st1 in
        (ret2, Switch (count_access ret2 d) sws2, st2)
  end.

Section with_casts_switch.
Context `{CastUB}.

Definition sw_insert (timestamp tid phys_addr index : Z) : CXLSwitch → Store → Z * CXLSwitch * Store :=
  offer (insert timestamp tid phys_addr index).

Definition sw_record_access (timestamp tid phys_addr index : Z) (is_write : bool) : CXLSwitch → Store → Z * CXLSwitch * Store :=
  offer (record_access timestamp tid phys_addr index is_write).

(** *** Traversals *)

(** An operation on every expander of a switch, in order; results are added up by [add]. *)
Fixpoint each_expander {A : Type} (op : CXLMemExpander → A * CXLMemExpander) (add : A → A → A) (xs : list nat) (acc : A) (st : Store)
    : A * Store :=
  match xs with
  | [] => (acc, st)
  | x :: xs' =>
      match st !! x with
      | None => each_expander op add xs' acc st
      | Some e => let '(a, e') := op e in each_expander op add xs' (add acc a) (<[x := e']> st)
      end
  end.

(** The expanders, then the children; [own] is the contribution of the switch itself. *)
Fixpoint traverse {A : Type} (own : SwitchData → CXLSwitch → Store → A * Store) (op : CXLMemExpander → A * CXLMemExpander) (add : A → A → A)
    (sw : CXLSwitch) (st : Store) : A * Store :=
  match sw with
  | Switch d switches =>
      let '(a0, st0) := own d sw st in
      let '(a1, st1) := each_expander op add (sd_expanders d) a0 st0 in
      (fix go (sws : list CXLSwitch) (acc : A) (st : Store) : A * Store :=
         match sws with
         | [] => (acc, st)
         | s :: sws' => let '(a, st') := traverse own op add s st in go sws' (add acc a) st'
         end) switches a1 st1
  end.

Definition nothing {A : Type} (zero : A) (d : SwitchData) (sw : CXLSwitch) (st : Store) : A * Store := (zero, st).

Definition sw_delete_entry (addr len : Z) (sw : CXLSwitch) (st : Store) : Store :=
  (traverse (nothing tt) (λ e, (tt, delete_entry addr len e)) (λ _ _, tt) sw st).2.

Definition sw_get_access (timestamp : Z) : CXLSwitch → Store → list (Z * Z) * Store :=
  traverse (nothing []) (get_access timestamp) app.

Definition sw_calculate_latency (elem : list (Z * Z)) (dramlatency : f64) : CXLSwitch → Store → f64 * Store :=
  traverse (nothing f0) (calculate_latency elem dramlatency) fadd.

(** [contains_address] stops at the first expander that has the address. *)
Fixpoint any_local (addr : Z) (xs : list nat) (st : Store) : bool * Store :=
  match xs with
  | [] => (false, st)
  | x :: xs' =>
      match st !! x with
      | None => any_local addr xs' st
      | Some e => let '(b, e') := is_address_local addr e in
          let st' := <[x := e']> st in if (b : bool) then (true, st') else any_local addr xs' st'
      end
  end.

Fixpoint contains_address (addr : Z) (sw : CXLSwitch) (st : Store) : bool * Store :=
  match sw with
  | Switch d switches =>
      let '(b, st1) := any_local addr (sd_expanders d) st in
      if (b : bool) then (true, st1)
      else
        (fix go (sws : list CXLSwitch) (st : Store) : bool * Store :=
           match sws with
           | [] => (false, st)
           | s :: sws' => let '(b, st') := contains_address addr s st in if (b : bool) then (true, st') else go sws' st'
           end) switches st1
  end.

Fixpoint contained_window (sw : CXLSwitch) (elem : list (Z * Z)) (n first last : Z) (st : Store) : Z * Z * Z * Store :=
  match elem with
  | [] => (n, first, last, st)
  | (timestamp, addr) :: elem' =>
      match contains_address addr sw st with
      | (true, st1) => contained_window sw elem' (n + 1) (Z.min first timestamp) (Z.max last timestamp) st1
      | (false, st1) => contained_window sw elem' n first last st1
      end
  end.

(** The penalty of the switch itself in [CXLSwitch::calculate_bandwidth]. *)
Definition switch_penalty (elem : list (Z * Z)) (d : SwitchData) (sw : CXLSwitch) (st : Store) : f64 * Store :=
  match elem with
  | [] => (f0, st)
  | _ =>
      let '(n, first, last, st1) := contained_window sw elem 0 UINT64_MAX 0 st in
      if 0 <? n then
        let c := sd_counter d in
        let read_ops := f64_of_Z (se_load c) in
        let write_ops := f64_of_Z (se_store c +w se_conflict c) in
        let lat := sd_congestion_latency d in
        ((f0 + calculate_mlc_bandwidth_penalty (sd_bandwidth_model d) n first last (ratio_of read_ops write_ops)
                 lat (lat * flit 3 2))%f64, st1)
      else (f0, st1)
  end.

Definition sw_calculate_bandwidth (elem : list (Z * Z)) : CXLSwitch → Store → f64 * Store :=
  traverse (switch_penalty elem) (calculate_bandwidth elem) fadd.

End with_casts_switch.

Fixpoint sw_configure_bandwidth_model (c : BandwidthModelConfig) (sw : CXLSwitch) : CXLSwitch :=
  match sw with
  | Switch d switches => Switch (sw_model (normalize_bandwidth_model c) d) (sw_configure_bandwidth_model c <$> switches)
  end.

(** ** The controller: accesses of the server *)

Record Controller := {
  cn_switch : CXLSwitch;
  cn_store : Store;
  cn_cur_expanders : list nat;
  cn_remote : Z                 (** [counter.remote] *)
}.

Section with_casts_controller.
Context `{CastUB}.

(** The first of the current expanders with the identifier. *)
Fixpoint find_expander (id : Z) (xs : list nat) (st : Store) : option (nat * CXLMemExpander) :=
  match xs with
  | [] => None
  | x :: xs' =>
      match st !! x with
      | Some e => if xp_id e =? id then Some (x, e) else find_expander id xs' st
      | None => find_expander id xs' st
      end
  end.

Definition endpoint_id (c : Controller) : Z :=
  match cn_cur_expanders c with
  | x :: _ => match cn_store c !! x with Some e => xp_id e | None => 0 end
  | [] => 0
  end.

Definition record_cxl_access (timestamp tid addr : Z) (is_write : bool) (c : Controller) : Controller :=
  let id := endpoint_id c in
  let '(ret, sw, st) := sw_record_access timestamp tid addr id is_write (cn_switch c) (cn_store c) in
  let st' := if ret =? 0 then
               match find_expander id (cn_cur_expanders c) st with
               | Some (x, e) => <[x := (record_access timestamp tid addr id is_write e).2]> st
               | None => st
               end
             else st in
  {| cn_switch := sw; cn_store := st'; cn_cur_expanders := cn_cur_expanders c; cn_remote := cn_remote c +w 1 |}.

End with_casts_controller.

(** ** Lemmas: address ranges *)

Lemma merge_ranges_spec addr l : ∀ cur,
  ar_start cur <= ar_end cur → is_u64 (ar_end cur) → Forall is_u64 l → StronglySorted Z.le (ar_end cur :: l) →
  in_ranges addr (merge_ranges cur l) = true ↔ ar_start cur <= addr <= ar_end cur ∨ addr ∈ l.
Proof.
  induction l as [|a l IH]; intros cur Hc Hu Hl Hs; cbn [merge_ranges].
  - unfold in_ranges. cbn [lower_bound]. destruct (ar_end cur <? addr) eqn:E; btests; [|rewrite andb_true_iff, !Z.leb_le]; set_solver by lia.
  - apply StronglySorted_inv in Hs as [Hs Hle]. apply Forall_cons in Hle as [Ha Hle]. apply Forall_cons in Hl as [Hau Hl].
    destruct (a =? ar_end cur +w 1) eqn:E; btests.
    + assert (a = ar_end cur + 1) as Ha' by mlia.
      rewrite IH; [|simpl; lia|done|done|done]. cbn [ar_start ar_end]. rewrite elem_of_cons. split; intros [?|?]; [|auto|lia|]; [|].
      * destruct (decide (addr = a)); [auto|left; lia].
      * destruct H; [left; lia|auto].
    + assert (in_ranges addr (cur :: merge_ranges {| ar_start := a; ar_end := a |} l) =
        if ar_end cur <? addr then in_ranges addr (merge_ranges {| ar_start := a; ar_end := a |} l)
        else (ar_start cur <=? addr) && (addr <=? ar_end cur)) as ->.
      { unfold in_ranges. cbn [lower_bound]. by destruct (_ <? _). }
      destruct (ar_end cur <? addr) eqn:E2; btests.
      * rewrite IH; [|simpl; lia|done|done|done]. cbn [ar_start ar_end]. rewrite elem_of_cons. split; [intros [?|?]|intros [?|[?|?]]]; auto; lia.
      * rewrite andb_true_iff, !Z.leb_le. rewrite elem_of_cons. split; [tauto|]. intros [?|[?|Hin]]; [lia|lia|].
        apply (proj1 (Forall_forall _ _) Hle) in Hin. lia.
Qed.

Lemma ranges_of_spec addr l :
  Forall is_u64 l → StronglySorted Z.le l → in_ranges addr (ranges_of l) = true ↔ addr ∈ l.
Proof.
  intros Hu Hs. destruct l as [|a l]; [set_solver|]. apply Forall_cons in Hu as [Ha Hu]. cbn [ranges_of].
  rewrite merge_ranges_spec by (done || (simpl; lia)). cbn [ar_start ar_end]. rewrite elem_of_cons.
  split; intros [?|?]; auto; left; lia.
Qed.

#[global] Instance occ_le_trans : Transitive occ_le.
Proof. intros a b c. unfold occ_le. lia. Qed.

#[global] Instance occ_le_total : Total occ_le.
Proof. intros a b. unfold occ_le. lia. Qed.

Lemma sorted_addresses l : StronglySorted Z.le (addresses (merge_sort occ_le l)).
Proof.
  pose proof (StronglySorted_merge_sort occ_le l) as Hs. unfold addresses.
  induction Hs as [|o k Hk IH Hle]; simpl; constructor; [done|]. apply Forall_fmap. done.
Qed.

(** The addresses an expander has seen. *)
Definition seen (e : CXLMemExpander) : list Z := addresses (xp_occupation e).

Lemma is_address_local_spec addr e :
  xp_cache_valid e = false → Forall is_u64 (seen e) →
  (is_address_local addr e).1 = true ↔ addr ∈ seen e.
Proof.
  intros Hv Hu. unfold is_address_local. rewrite Hv. cbn [fst]. unfold update_range_cache. rewrite Hv. simpl.
  assert (addresses (merge_sort occ_le (xp_occupation e)) ≡ₚ seen e) as Hp by (unfold seen, addresses; by rewrite merge_sort_Permutation).
  rewrite ranges_of_spec; [by rewrite Hp|by rewrite Hp|apply sorted_addresses].
Qed.

(** ** Lemmas: requests in flight *)

Definition is_dir (rd : bool) (r : CXLRequest) : bool := bool_decide (cr_is_read r = rd).

(** The number of reads, or of writes, in flight. *)
Definition flights (rd : bool) (m : gmap Z CXLRequest) : Z :=
  Z.of_nat (length (List.filter (is_dir rd) (snd <$> map_to_list m))).

Lemma filter_perm {A} (f : A → bool) (l k : list A) : l ≡ₚ k → List.filter f l ≡ₚ List.filter f k.
Proof. intros Hp. induction Hp; simpl; repeat case_match; eauto using Permutation. Qed.

Lemma flights_nonneg rd m : 0 <= flights rd m.
Proof. unfold flights. lia. Qed.

Lemma flights_new rd m k r :
  m !! k = None → flights rd (<[k := r]> m) = flights rd m + (if is_dir rd r then 1 else 0).
Proof.
  intros Hk. unfold flights. rewrite (Permutation_length (filter_perm _ _ _ (fmap_Permutation snd _ _ (map_to_list_insert m k r Hk)))).
  rewrite fmap_cons. cbn [List.filter snd]. destruct (is_dir rd r); cbn [length]; lia.
Qed.

Lemma flights_delete rd m k : flights rd (delete k m) <= flights rd m.
Proof.
  destruct (m !! k) as [r|] eqn:E; [|by rewrite delete_id].
  pose proof (flights_new rd (delete k m) k r (lookup_delete_eq m k)) as H. rewrite insert_delete_eq, insert_id in H by done.
  destruct (is_dir rd r); lia.
Qed.

(** A request that replaces one of the same address does not add to the others. *)
Lemma flights_insert rd m k r : flights rd (<[k := r]> m) <= flights rd m + (if is_dir rd r then 1 else 0).
Proof.
  rewrite <- insert_delete_eq. rewrite flights_new by apply lookup_delete_eq. pose proof (flights_delete rd m k). lia.
Qed.

Lemma filter_filter_length {A} (f g : A → bool) (l : list A) :
  (length (List.filter f (List.filter g l)) + length (List.filter f (List.filter (λ x, negb (g x)) l)) = length (List.filter f l))%nat.
Proof.
  induction l as [|x l IH]; simpl; [done|]. destruct (g x) eqn:Eg; simpl; destruct (f x) eqn:Ef; simpl; lia.
Qed.

Lemma filter_to_list (P : CXLRequest → Prop) `{∀ r, Decision (P r)} (m : gmap Z CXLRequest) :
  (snd <$> map_to_list (filter (λ kv, P kv.2) m)) ≡ₚ List.filter (λ r, bool_decide (P r)) (snd <$> map_to_list m).
Proof.
  assert (map_to_list (filter (λ kv, P kv.2) m) ≡ₚ filter (λ kv, P kv.2) (map_to_list m)) as ->.
  { apply NoDup_Permutation; [apply NoDup_map_to_list|apply NoDup_filter, NoDup_map_to_list|].
    intros [k r]. rewrite list_elem_of_filter, !elem_of_map_to_list, map_lookup_filter_Some. simpl. tauto. }
  induction (map_to_list m) as [|[k r] l IH]; simpl; [done|]. case_bool_decide; simpl.
  - rewrite filter_cons_True by done. simpl. by rewrite IH.
  - rewrite filter_cons_False by done. done.
Qed.

(** ** Invariant: queue and credits *)

Record flow_inv (e : CXLMemExpander) : Prop := {
  fi_queue : queue_size e <= MAX_QUEUE_SIZE;
  fi_read : 0 <= xp_read_credits e ∧ xp_read_credits e + flights true (xp_in_flight_requests e) <= INITIAL_CREDITS;
  fi_write : 0 <= xp_write_credits e ∧ xp_write_credits e + flights false (xp_in_flight_requests e) <= INITIAL_CREDITS
}.

(** Only the queue, the credits and the requests in flight change. *)
Definition flow_only (e e' : CXLMemExpander) : Prop :=
  ∃ q rc wc fl, e' = set_queue q (set_flow rc wc fl e).

Lemma flow_only_refl e : flow_only e e.
Proof. exists (xp_request_queue e), (xp_read_credits e), (xp_write_credits e), (xp_in_flight_requests e). by destruct e. Qed.

Lemma flow_only_trans e1 e2 e3 : flow_only e1 e2 → flow_only e2 e3 → flow_only e1 e3.
Proof. intros (q & rc & wc & fl & ->) (q' & rc' & wc' & fl' & ->). by exists q', rc', wc', fl'. Qed.

Lemma release_credit_flow rd e :
  ∃ rc wc, release_credit rd e = set_flow rc wc (xp_in_flight_requests e) e ∧
    (0 <= xp_read_credits e <= 2 → xp_read_credits e <= rc <= 2 ∧ rc <= xp_read_credits e + (if rd then 1 else 0)) ∧
    (0 <= xp_write_credits e <= 2 → xp_write_credits e <= wc <= 2 ∧ wc <= xp_write_credits e + (if rd then 0 else 1)).
Proof.
  unfold release_credit, INITIAL_CREDITS. destruct rd.
  - destruct (_ <? _) eqn:E; btests; [exists (xp_read_credits e +w 1), (xp_write_credits e)|exists (xp_read_credits e), (xp_write_credits e)];
      (split_and!; [by destruct e|intros ?|intros ?]); rewrite ?u64_small by mlia; lia.
  - destruct (_ <? _) eqn:E; btests; [exists (xp_read_credits e), (xp_write_credits e +w 1)|exists (xp_read_credits e), (xp_write_credits e)];
      (split_and!; [by destruct e|intros ?|intros ?]); rewrite ?u64_small by mlia; lia.
Qed.

Definition count_dir (rd : bool) (l : list CXLRequest) : Z := Z.of_nat (length (List.filter (is_dir rd) l)).

Lemma count_dir_cons rd r l : count_dir rd (r :: l) = (if decide (cr_is_read r = rd) then 1 else 0) + count_dir rd l.
Proof. unfold count_dir, is_dir. cbn [List.filter]. case_bool_decide; case_decide; try done; cbn [length]; lia. Qed.

Lemma release_all_flow fin e :
  0 <= xp_read_credits e <= 2 → 0 <= xp_write_credits e <= 2 →
  ∃ rc wc, List.fold_left (λ e r, release_credit (cr_is_read r) e) fin e = set_flow rc wc (xp_in_flight_requests e) e ∧
    0 <= rc <= 2 ∧ rc <= xp_read_credits e + count_dir true fin ∧ 0 <= wc <= 2 ∧ wc <= xp_write_credits e + count_dir false fin.
Proof.
  revert e. induction fin as [|r fin IH]; intros e Hr Hw; simpl.
  - exists (xp_read_credits e), (xp_write_credits e). unfold count_dir. simpl. split_and!; [by destruct e|lia..].
  - destruct (release_credit_flow (cr_is_read r) e) as (rc1 & wc1 & -> & H1 & H2). specialize (H1 Hr). specialize (H2 Hw).
    destruct (IH (set_flow rc1 wc1 (xp_in_flight_requests e) e)) as (rc & wc & Heq & B1 & B2 & B3 & B4); [simpl; lia|simpl; lia|].
    rewrite !count_dir_cons. simpl in B2, B4. exists rc, wc. rewrite Heq.
    split_and!; try done; try lia; destruct (cr_is_read r); simpl in *; lia.
Qed.

Lemma flights_remaining rd t m : flights rd (remaining t m) + count_dir rd (completed t m) = flights rd m.
Proof.
  unfold flights, count_dir, completed. set (all := snd <$> map_to_list m).
  assert ((snd <$> map_to_list (remaining t m)) ≡ₚ List.filter (λ r, bool_decide (¬ cr_complete_time r <= t)) all) as Hp
    by exact (filter_to_list (λ r, ¬ cr_complete_time r <= t) m).
  rewrite (Permutation_length (filter_perm (is_dir rd) _ _ Hp)).
  rewrite <- (filter_filter_length (is_dir rd) (λ r, bool_decide (cr_complete_time r <= t)) all).
  rewrite (List.filter_ext (λ r, bool_decide (¬ cr_complete_time r <= t)) (λ r, negb (bool_decide (cr_complete_time r <= t))))
    by (intros r; by rewrite <- bool_decide_not).
  lia.
Qed.

Lemma complete_requests_inv t e : flow_inv e → flow_inv (complete_requests t e) ∧ flow_only e (complete_requests t e) ∧
  xp_request_queue (complete_requests t e) = xp_request_queue e.
Proof.
  intros [Hq [Hr1 Hr2] [Hw1 Hw2]]. unfold complete_requests, INITIAL_CREDITS in *. set (m := xp_in_flight_requests e) in *.
  pose proof (flights_nonneg true m). pose proof (flights_nonneg false m).
  pose proof (flights_remaining true t m). pose proof (flights_remaining false t m).
  destruct (release_all_flow (completed t m) e) as (rc & wc & -> & B1 & B2 & B3 & B4); [lia|lia|].
  cbn [set_flow xp_read_credits xp_write_credits]. split; [|split; [|done]].
  - split; [done|unfold INITIAL_CREDITS; simpl; lia|
      unfold INITIAL_CREDITS; simpl; lia].
  - exists (xp_request_queue e), rc, wc, (remaining t m). by destruct e.
Qed.

Lemma issue_requests_inv `{CastUB} n t e :
  flow_inv e → flow_inv (issue_requests n t e) ∧ flow_only e (issue_requests n t e) ∧
  (length (xp_request_queue (issue_requests n t e)) ≤ length (xp_request_queue e))%nat.
Proof.
  revert e. induction n as [|n IH]; intros e Hi; [by split_and!; [|apply flow_only_refl|]|].
  cbn [issue_requests]. destruct (xp_request_queue e) as [|req rest] eqn:Eq; [split_and!; [done|apply flow_only_refl|by rewrite Eq]|].
  destruct (_ && _) eqn:E; [|split_and!; [done|apply flow_only_refl|by rewrite Eq]]. apply andb_prop in E as [_ Ecr].
  destruct Hi as [Hq [Hr1 Hr2] [Hw1 Hw2]]. unfold has_credits in Ecr. unfold INITIAL_CREDITS in *.
  pose proof (flights_nonneg true (xp_in_flight_requests e)). pose proof (flights_nonneg false (xp_in_flight_requests e)).
  set (e1 := consume_credit (cr_is_read req) e). set (req' := issued t e1 req). set (m' := <[cr_address req := req']> (xp_in_flight_requests e1)).
  set (e2 := set_queue rest (set_flow (xp_read_credits e1) (xp_write_credits e1) m' e1)).
  assert (xp_in_flight_requests e1 = xp_in_flight_requests e) as Hm by (unfold e1, consume_credit; by destruct (cr_is_read req)).
  assert (∀ rd, flights rd m' <= flights rd (xp_in_flight_requests e) + (if decide (cr_is_read req = rd) then 1 else 0)) as Hfl.
  { intros rd. unfold m'. rewrite Hm. pose proof (flights_insert rd (xp_in_flight_requests e) (cr_address req) req') as Hfi.
    unfold is_dir in Hfi. cbn [req' issued cr_is_read] in Hfi. by case_bool_decide; case_decide. }
  pose proof (Hfl true) as Hft. pose proof (Hfl false) as Hff.
  assert (flow_inv e2) as Hi2.
  { unfold queue_size, MAX_QUEUE_SIZE in Hq. rewrite Eq in Hq. simpl in Hq.
    split; [unfold queue_size, MAX_QUEUE_SIZE; simpl; lia| |]; cbn [e2 set_queue set_flow xp_read_credits xp_write_credits xp_in_flight_requests];
      unfold e1, consume_credit, INITIAL_CREDITS; destruct (cr_is_read req); simpl in *; btests; rewrite ?u64_small by mlia; lia. }
  destruct (IH e2 Hi2) as (R1 & R2 & R3). split_and!; [done| |simpl in *; lia]. eapply flow_only_trans; [|exact R2].
  exists rest, (xp_read_credits e1), (xp_write_credits e1), m'. unfold e2, e1, consume_credit. by destruct (cr_is_read req), e.
Qed.

Lemma process_queued_inv `{CastUB} t e :
  flow_inv e → flow_inv (process_queued_requests t e) ∧ flow_only e (process_queued_requests t e).
Proof.
  intros Hi. destruct (complete_requests_inv t e Hi) as (H1 & H2 & _).
  destruct (issue_requests_inv (length (xp_request_queue (complete_requests t e))) t _ H1) as (H3 & H4 & _).
  split; [done|by eapply flow_only_trans].
Qed.

(** The operations of an expander. *)
Inductive expander_step `{CastUB} (e : CXLMemExpander) : CXLMemExpander → Prop :=
  | xs_insert ts tid a i : expander_step e (insert ts tid a i e).2
  | xs_record ts tid a i w : expander_step e (record_access ts tid a i w e).2
  | xs_delete a n : expander_step e (delete_entry a n e)
  | xs_get_access ts : expander_step e (get_access ts e).2
  | xs_free flips : expander_step e (free_stats flips e)
  | xs_latency elem d : expander_step e (calculate_latency elem d e).2
  | xs_bandwidth elem : expander_step e (calculate_bandwidth elem e).2
  | xs_configure c : expander_step e (configure_bandwidth_model c e)
  | xs_epoch n : expander_step e (set_epoch n e).

(** Operations that leave the queue, the credits and the requests in flight alone. *)
Definition same_flow (e e' : CXLMemExpander) : Prop :=
  xp_request_queue e' = xp_request_queue e ∧ xp_read_credits e' = xp_read_credits e ∧
  xp_write_credits e' = xp_write_credits e ∧ xp_in_flight_requests e' = xp_in_flight_requests e.

Lemma same_flow_trans e1 e2 e3 : same_flow e1 e2 → same_flow e2 e3 → same_flow e1 e3.
Proof. intros (?&?&?&?) (?&?&?&?). split_and!; congruence. Qed.

Lemma same_flow_inv e e' : same_flow e e' → flow_inv e → flow_inv e'.
Proof. intros (H1 & H2 & H3 & H4) [Hq Hr Hw]. split; unfold queue_size in *; by rewrite ?H1, ?H2, ?H3, ?H4. Qed.

Lemma is_local_flow a e : same_flow e (is_address_local a e).2.
Proof. unfold is_address_local, update_range_cache. destruct (xp_cache_valid e) eqn:E; by rewrite ?E. Qed.

Lemma latency_loop_flow d elem total n last e : same_flow e (latency_loop d elem total n last e).2.
Proof.
  revert total n last e. induction elem as [|[ts a] elem IH]; intros total n last e; cbn [latency_loop]; [done|].
  pose proof (is_local_flow a e) as Hl. destruct (is_address_local a e) as [[] e1];
    (eapply same_flow_trans; [exact Hl|apply IH]).
Qed.

Lemma local_window_flow elem n f l e : same_flow e (local_window elem n f l e).2.
Proof.
  revert n f l e. induction elem as [|[ts a] elem IH]; intros n f l e; cbn [local_window]; [done|].
  pose proof (is_local_flow a e) as Hl. destruct (is_address_local a e) as [[] e1];
    (eapply same_flow_trans; [exact Hl|apply IH]).
Qed.

(** Every operation is a step of the queue, possibly with one request pushed, and
    changes that do not touch the flow. *)
Lemma expander_step_cases `{CastUB} e e' :
  expander_step e e' →
  ∃ e1 e2, same_flow e e1 ∧ (e2 = e1 ∨ ∃ t, e2 = process_queued_requests t e1) ∧
    (same_flow e2 e' ∨ can_accept_request e2 = true ∧ ∃ r, same_flow (push_request r e2) e').
Proof.
  intros Hs. destruct Hs as [ts tid a i|ts tid a i w|a n|ts|flips|elem d|elem|c|n].
  - unfold insert. destruct (negb _); [exists e, e; by split_and!; [|left|left]|].
    set (e2 := process_queued_requests ts (later ts e)). exists (later ts e), e2. split_and!; [done|right; by eexists|].
    destruct (a =? 0); [by left|]. destruct (can_accept_request e2) eqn:Ec; cbn [negb]; [right|by left].
    split; [done|]. by case_match; eexists.
  - unfold record_access. destruct (negb _); [exists e, e; by split_and!; [|left|left]|].
    set (e2 := process_queued_requests ts (later ts e)). exists (later ts e), e2. split_and!; [done|right; by eexists|].
    destruct (can_accept_request e2) eqn:Ec; cbn [negb]; [right|by left]. split; [done|]. by destruct w; eexists.
  - exists e, e. split_and!; [done|by left|left]. unfold delete_entry. by case_match.
  - exists e, e. by split_and!; [|left|left].
  - exists e, e. split_and!; [done|by left|left]. unfold free_stats. by case_match.
  - unfold calculate_latency. destruct (List.rev elem) as [|back l]; [exists e, e; by split_and!; [|left|left]|].
    set (e2 := process_queued_requests back.1 e). exists e, e2. split_and!; [done|right; by eexists|left].
    destruct (latency_loop _ _ _ _ _ _) as [[total n] e3] eqn:El.
    assert (same_flow e2 (update_address_cache e2)) as Hu by (unfold update_address_cache; by case_match).
    pose proof (latency_loop_flow d elem f0 0 0 (update_address_cache e2)) as Hl. rewrite El in Hl.
    by eapply same_flow_trans.
  - exists e, e. split_and!; [done|by left|left]. unfold calculate_bandwidth. destruct elem as [|x elem]; [done|].
    pose proof (local_window_flow (x :: elem) 0 UINT64_MAX 0 e) as Hl.
    destruct (local_window _ _ _ _ _) as [[[n f] l] e1]. by case_match.
  - exists e, e. by split_and!; [|left|left].
  - exists e, e. by split_and!; [|left|left].
Qed.

Lemma push_request_inv r e : flow_inv e → can_accept_request e = true → flow_inv (push_request r e).
Proof.
  intros [Hq Hr Hw] Hc. split; [|done|done]. unfold can_accept_request, queue_size in *. btests. simpl. rewrite length_app. simpl.
  unfold MAX_QUEUE_SIZE in *. lia.
Qed.

Lemma expander_step_inv `{CastUB} e e' : expander_step e e' → flow_inv e → flow_inv e'.
Proof.
  intros Hs Hi. destruct (expander_step_cases e e' Hs) as (e1 & e2 & H1 & H2 & H3).
  apply (same_flow_inv _ _ H1) in Hi. assert (flow_inv e2) as Hi2.
  { destruct H2 as [->|[t ->]]; [done|by apply process_queued_inv]. }
  destruct H3 as [H3|[Hc [r H3]]]; [by apply (same_flow_inv _ _ H3)|]. by apply (same_flow_inv _ _ H3), push_request_inv.
Qed.

Lemma expander_new_inv a b c d i k : flow_inv (CXLMemExpander_new a b c d i k).
Proof. split; done. Qed.

Lemma expander_reachable_inv `{CastUB} e e' : rtc expander_step e e' → flow_inv e → flow_inv e'.
Proof. induction 1; eauto using expander_step_inv. Qed.

Lemma flights_total m : flights true m + flights false m = Z.of_nat (size m).
Proof.
  assert (∀ l, count_dir true l + count_dir false l = Z.of_nat (length l)) as H.
  { induction l as [|r l IH]; [done|]. rewrite !count_dir_cons. cbn [length]. destruct (cr_is_read r); simpl in *; lia. }
  rewrite <- length_map_to_list, <- (length_fmap snd). apply H.
Qed.

(** ** Lemmas: exhausted credits *)

(** The first request is a read, no read credit is left and none is in flight, and
    the queue is full. *)
Record stuck (e : CXLMemExpander) : Prop := {
  sk_credits : xp_read_credits e = 0 ∧ 0 <= xp_write_credits e <= 2;
  sk_flights : flights true (xp_in_flight_requests e) = 0;
  sk_head : ∃ r q, xp_request_queue e = r :: q ∧ cr_is_read r = true;
  sk_full : queue_size e = MAX_QUEUE_SIZE
}.

Lemma same_flow_stuck e e' : same_flow e e' → stuck e → stuck e'.
Proof. intros (H1 & H2 & H3 & H4) [Hc Hf Hh Hq]. split; unfold queue_size in *; by rewrite ?H1, ?H2, ?H3, ?H4. Qed.

Lemma process_stuck `{CastUB} t e : stuck e → stuck (process_queued_requests t e).
Proof.
  intros [[Hr Hw] Hf (r & q & Hq & Hrd) Hfull]. unfold process_queued_requests.
  assert (stuck (complete_requests t e) ∧ xp_request_queue (complete_requests t e) = r :: q) as [Hs Hqq].
  { unfold complete_requests. set (m := xp_in_flight_requests e) in *. pose proof (flights_remaining true t m).
    pose proof (flights_nonneg true (remaining t m)).
    assert (0 <= count_dir true (completed t m)) by (unfold count_dir; lia).
    destruct (release_all_flow (completed t m) e) as (rc & wc & -> & B1 & B2 & B3 & B4); [lia|lia|].
    cbn [set_flow xp_read_credits xp_write_credits]. split; [|done].
    split; [simpl; lia|simpl; lia|by exists r, q|done]. }
  rewrite Hqq. cbn [length issue_requests]. rewrite Hqq. unfold has_credits. rewrite Hrd, (proj1 (sk_credits _ Hs)).
  by rewrite andb_false_r.
Qed.

Lemma expander_step_stuck `{CastUB} e e' : expander_step e e' → stuck e → stuck e'.
Proof.
  intros Hs Hi. destruct (expander_step_cases e e' Hs) as (e1 & e2 & H1 & H2 & H3).
  apply (same_flow_stuck _ _ H1) in Hi. assert (stuck e2) as Hi2.
  { destruct H2 as [->|[t ->]]; [done|by apply process_stuck]. }
  destruct H3 as [H3|[Hc _]]; [by apply (same_flow_stuck _ _ H3)|].
  exfalso. unfold can_accept_request in Hc. rewrite (sk_full _ Hi2) in Hc. done.
Qed.

Lemma stuck_refuses `{CastUB} e ts tid a w :
  stuck e → (record_access ts tid a (xp_id e) w e).1 = 0 ∧ (a ≠ 0 → (insert ts tid a (xp_id e) e).1 = 0).
Proof.
  intros Hs. assert (stuck (process_queued_requests ts (later ts e))) as Hp by by apply process_stuck, (same_flow_stuck e).
  assert (can_accept_request (process_queued_requests ts (later ts e)) = false) as Hc.
  { unfold can_accept_request. by rewrite (sk_full _ Hp). }
  unfold record_access, insert. rewrite Z.eqb_refl, Hc. cbn [negb]. split; [done|]. intros Ha.
  by rewrite (proj2 (Z.eqb_neq _ _) Ha).
Qed.

(** ** Lemmas: the tree *)

Section switch_induction.
Context (P : CXLSwitch → Prop) (Hnode : ∀ d sws, Forall P sws → P (Switch d sws)).

Fixpoint switch_nested_ind (sw : CXLSwitch) : P sw :=
  match sw with
  | Switch d sws => Hnode d sws ((fix go (l : list CXLSwitch) : Forall P l :=
      match l with
      | [] => Forall_nil_2 P
      | s :: l' => Forall_cons_2 P s l' (switch_nested_ind s) (go l')
      end) sws)
  end.
End switch_induction.

(** The positions of the expanders below a switch. *)
Fixpoint positions (sw : CXLSwitch) : list nat :=
  match sw with Switch d sws => sd_expanders d ++ concat (List.map positions sws) end.

(** The counters of the switches above an expander count one access. *)
Fixpoint count_path (x : nat) (ret : Z) (sw : CXLSwitch) : CXLSwitch :=
  match sw with
  | Switch d sws =>
      Switch (if decide (x ∈ sd_expanders d ++ concat (List.map positions sws)) then count_access ret d else d)
        (List.map (count_path x ret) sws)
  end.

Lemma count_path_other x ret sw : x ∉ positions sw → count_path x ret sw = sw.
Proof.
  induction sw as [d sws IH] using switch_nested_ind. cbn [positions count_path]. intros Hx. rewrite decide_False by done.
  f_equal. assert (x ∉ concat (List.map positions sws)) as Hc by set_solver. clear Hx.
  induction IH as [|s sws Hs _ IHs]; simpl in *; [done|]. rewrite Hs, IHs by set_solver. done.
Qed.

Lemma count_path_0 x sw : count_path x 0 sw = sw.
Proof.
  induction sw as [d sws IH] using switch_nested_ind. cbn [count_path]. f_equal; [by case_decide|].
  induction IH as [|s sws Hs _ IHs]; simpl; [done|]. by rewrite Hs, IHs.
Qed.

(** An operation that passes on the expanders of a part of the tree. *)
Definition passes (op : CXLMemExpander → Z * CXLMemExpander) (xs : list nat) (st : Store) : Prop :=
  ∀ y e, y ∈ xs → st !! y = Some e → op e = (0, e).

Lemma offer_expanders_pass op xs st : passes op xs st → offer_expanders op xs st = (0, st).
Proof.
  intros Hp. induction xs as [|y xs IH]; simpl; [done|].
  assert (passes op xs st) as Hp' by (intros z e Hz; apply Hp; set_solver).
  destruct (st !! y) as [e|] eqn:E; [|by apply IH]. rewrite (Hp y e) by set_solver.
  simpl. rewrite list_insert_id by done. by apply IH.
Qed.

Lemma offer_list_pass f sws st : Forall (λ s, f s st = (0, s, st)) sws → offer_list f sws st = (0, sws, st).
Proof. induction 1 as [|s sws Hs _ IH]; simpl; [done|]. by rewrite Hs, IH. Qed.

Lemma offer_pass op sw st : passes op (positions sw) st → offer op sw st = (0, sw, st).
Proof.
  induction sw as [d sws IH] using switch_nested_ind. cbn [positions offer]. intros Hp.
  rewrite offer_expanders_pass by (intros y e Hy; apply Hp; set_solver). simpl.
  rewrite offer_list_pass; [done|].
  assert (passes op (concat (List.map positions sws)) st) as Hc by (intros y e Hy; apply Hp; set_solver). clear Hp.
  induction IH as [|s sws Hs _ IHs]; constructor.
  - apply Hs. intros y e Hy. apply Hc. simpl. set_solver.
  - apply IHs. intros y e Hy. apply Hc. simpl. set_solver.
Qed.

(** The one expander that may take an access. *)
Section one_expander.
Context (op : CXLMemExpander → Z * CXLMemExpander) (x : nat) (e e' : CXLMemExpander) (ret : Z).
Context (Hop : op e = (ret, e')) (Hret : accepted ret = false → ret = 0).

(** Every other position passes. *)
Definition others_pass (xs : list nat) (st : Store) : Prop := ∀ y e, y ∈ xs → y ≠ x → st !! y = Some e → op e = (0, e).

Lemma others_pass_incl xs ys st : (∀ y, y ∈ ys → y ∈ xs) → others_pass xs st → others_pass ys st.
Proof. intros Hi Hp y f Hy. apply Hp. auto. Qed.

(** Where the expander does not occur, everything passes, also after the access. *)
Lemma passes_after xs st : x ∉ xs → others_pass xs st → passes op xs (<[x := e']> st).
Proof.
  intros Hx Hp y f Hy. rewrite list_lookup_insert_ne by (intros ->; done). apply Hp; [done|]. intros ->. done.
Qed.

Lemma passes_before xs st : x ∉ xs → others_pass xs st → passes op xs st.
Proof. intros Hx Hp y f Hy. apply Hp; [done|]. intros ->. done. Qed.

Lemma offer_expanders_one xs st :
  st !! x = Some e → others_pass xs st → NoDup xs → x ∈ xs → offer_expanders op xs st = (ret, <[x := e']> st).
Proof.
  intros Hx Hp Hn Hin. induction xs as [|y xs IH]; [set_solver|]. apply NoDup_cons in Hn as [Hy Hn]. cbn [offer_expanders].
  destruct (decide (y = x)) as [->|Hne].
  - rewrite Hx, Hop. destruct (accepted ret) eqn:Ea; [done|]. rewrite (Hret eq_refl). rewrite offer_expanders_pass; [done|].
    apply passes_after; [done|]. eapply others_pass_incl; [|exact Hp]. set_solver.
  - assert (others_pass xs st) as Hp' by (eapply others_pass_incl; [|exact Hp]; set_solver).
    destruct (st !! y) as [f|] eqn:E; [|apply IH; set_solver]. rewrite (Hp y f) by set_solver. simpl.
    rewrite list_insert_id by done. apply IH; set_solver.
Qed.

Lemma offer_list_one sws st :
  st !! x = Some e → others_pass (concat (List.map positions sws)) st → NoDup (concat (List.map positions sws)) →
  x ∈ concat (List.map positions sws) →
  Forall (λ s, others_pass (positions s) st → NoDup (positions s) → x ∈ positions s →
    offer op s st = (ret, count_path x ret s, <[x := e']> st)) sws →
  offer_list (offer op) sws st = (ret, List.map (count_path x ret) sws, <[x := e']> st).
Proof.
  intros Hx Hp Hn Hin Hall. induction Hall as [|s sws Hs _ IH]; simpl in *; [set_solver|].
  apply NoDup_app in Hn as (N1 & N2 & N3). destruct (decide (x ∈ positions s)) as [Hs1|Hs1].
  - rewrite Hs by (done || (eapply others_pass_incl; [|exact Hp]; set_solver)).
    assert (x ∉ concat (List.map positions sws)) as Hrest by auto.
    assert (List.map (count_path x ret) sws = sws) as ->.
    { clear -Hrest. induction sws as [|s sws IH]; simpl in *; [done|].
      rewrite count_path_other by set_solver. f_equal. apply IH. set_solver. }
    destruct (accepted ret) eqn:Ea; [done|]. rewrite (Hret eq_refl), offer_list_pass; [done|].
    assert (passes op (concat (List.map positions sws)) (<[x := e']> st)) as Hc.
    { apply passes_after; [done|]. eapply others_pass_incl; [|exact Hp]. set_solver. }
    clear -Hc. induction sws as [|s sws IH]; constructor; simpl in *.
    + apply offer_pass. intros y f Hy. apply Hc. set_solver.
    + apply IH. intros y f Hy. apply Hc. set_solver.
  - rewrite offer_pass by (apply passes_before; [done|]; eapply others_pass_incl; [|exact Hp]; set_solver). simpl.
    rewrite IH; [|eapply others_pass_incl; [|exact Hp]; set_solver|done|set_solver].
    by rewrite count_path_other.
Qed.

Lemma offer_one sw st :
  st !! x = Some e → others_pass (positions sw) st → NoDup (positions sw) → x ∈ positions sw →
  offer op sw st = (ret, count_path x ret sw, <[x := e']> st).
Proof.
  intros Hx. induction sw as [d sws IH] using switch_nested_ind. intros Hp Hn Hin. pose proof Hn as Hnd. cbn [positions] in *.
  apply NoDup_app in Hn as (N1 & N2 & N3). cbn [offer count_path]. rewrite decide_True by done.
  destruct (decide (x ∈ sd_expanders d)) as [Hd|Hd].
  - rewrite offer_expanders_one by (done || (eapply others_pass_incl; [|exact Hp]; set_solver)).
    assert (x ∉ concat (List.map positions sws)) as Hrest by auto.
    assert (List.map (count_path x ret) sws = sws) as ->.
    { clear -Hrest. induction sws as [|s sws IH]; simpl in *; [done|].
      rewrite count_path_other by set_solver. f_equal. apply IH. set_solver. }
    destruct (accepted ret) eqn:Ea; [done|]. rewrite (Hret eq_refl), offer_list_pass; [done|].
    assert (passes op (concat (List.map positions sws)) (<[x := e']> st)) as Hc.
    { apply passes_after; [done|]. eapply others_pass_incl; [|exact Hp]. set_solver. }
    clear -Hc. induction sws as [|s sws IH]; constructor; simpl in *.
    + apply offer_pass. intros y f Hy. apply Hc. set_solver.
    + apply IH. intros y f Hy. apply Hc. set_solver.
  - rewrite offer_expanders_pass by (apply passes_before; [done|]; eapply others_pass_incl; [|exact Hp]; set_solver). simpl.
    rewrite offer_list_one; [done|done| |done|set_solver|].
    + eapply others_pass_incl; [|exact Hp]. set_solver.
    + exact IH.
Qed.
End one_expander.

(** ** Lemmas: one access *)

Section one_access.
Context `{CastUB}.

Lemma record_access_other ts tid a i w e : i ≠ xp_id e → record_access ts tid a i w e = (0, e).
Proof. intros Hi. unfold record_access. by rewrite (proj2 (Z.eqb_neq _ _) Hi). Qed.

Lemma record_access_ret ts tid a i w e :
  accepted (record_access ts tid a i w e).1 = false → (record_access ts tid a i w e).1 = 0.
Proof. unfold record_access. repeat case_match; done. Qed.

Lemma release_all_id l e : xp_id (List.fold_left (λ e r, release_credit (cr_is_read r) e) l e) = xp_id e.
Proof. revert e. induction l as [|r l IH]; intros e; simpl; [done|]. rewrite IH. unfold release_credit. by repeat case_match. Qed.

Lemma issue_requests_id n t e : xp_id (issue_requests n t e) = xp_id e.
Proof.
  revert e. induction n as [|n IH]; intros e; cbn [issue_requests]; [done|]. repeat case_match; try done.
  rewrite IH. unfold consume_credit. by case_match.
Qed.

Lemma release_all_occupation l e :
  xp_occupation (List.fold_left (λ e r, release_credit (cr_is_read r) e) l e) = xp_occupation e.
Proof. revert e. induction l as [|r l IH]; intros e; simpl; [done|]. rewrite IH. unfold release_credit. by repeat case_match. Qed.

Lemma issue_requests_occupation n t e : xp_occupation (issue_requests n t e) = xp_occupation e.
Proof.
  revert e. induction n as [|n IH]; intros e; cbn [issue_requests]; [done|]. repeat case_match; try done.
  rewrite IH. unfold consume_credit. by case_match.
Qed.

Lemma process_queued_id t e : xp_id (process_queued_requests t e) = xp_id e.
Proof.
  unfold process_queued_requests. rewrite issue_requests_id. unfold complete_requests. cbn [set_flow xp_id]. apply release_all_id.
Qed.

Lemma record_access_id ts tid a i w e : xp_id (record_access ts tid a i w e).2 = xp_id e.
Proof.
  unfold record_access. destruct (negb (i =? _)); [done|].
  assert (xp_id (process_queued_requests ts (later ts e)) = xp_id e) as Hi by by rewrite process_queued_id.
  repeat case_match; simpl; rewrite Hi; done.
Qed.

Lemma process_queued_occupation t e : xp_occupation (process_queued_requests t e) = xp_occupation e.
Proof.
  unfold process_queued_requests. rewrite issue_requests_occupation. unfold complete_requests. cbn [set_flow xp_occupation].
  apply release_all_occupation.
Qed.

Lemma erase_first_seen a l l' : erase_first a l = Some l' → ∀ b, b ∈ addresses l ↔ b = a ∨ b ∈ addresses l'.
Proof.
  revert l'. induction l as [|o l IH]; intros l'; cbn [erase_first]; [done|]. destruct (oi_address o =? a) eqn:E.
  - intros [= ->] b. btests. subst a. unfold addresses. rewrite fmap_cons. set_solver.
  - intros (l1 & Hl & ->)%fmap_Some b. specialize (IH l1 Hl b). unfold addresses in *. rewrite !fmap_cons. set_solver.
Qed.

(** An access that was taken invalidates the cache and adds its address to those seen. *)
Lemma record_access_seen ts tid a w e ret e1 :
  record_access ts tid a (xp_id e) w e = (ret, e1) → accepted ret = true →
  xp_cache_valid e1 = false ∧ ∀ b, b ∈ seen e1 ↔ b = a ∨ b ∈ seen e.
Proof.
  unfold record_access. rewrite Z.eqb_refl. cbn [negb]. set (e0 := process_queued_requests ts (later ts e)).
  assert (xp_occupation e0 = xp_occupation e) as Ho by by unfold e0; rewrite process_queued_occupation.
  destruct (can_accept_request e0); cbn [negb]; [|by intros [= <- <-]].
  assert (∀ b, b ∈ addresses (default (xp_occupation e) (erase_first a (xp_occupation e)) ++
    [{| oi_timestamp := ts; oi_address := a; oi_access_count := if w then 0 else 1 |}]) ↔ b = a ∨ b ∈ seen e) as Hb.
  { intros b. unfold addresses. rewrite fmap_app. unfold seen. fold (addresses (xp_occupation e)).
    destruct (erase_first a (xp_occupation e)) as [l|] eqn:E; cbn [default].
    - rewrite (erase_first_seen _ _ _ E). unfold addresses. set_solver.
    - unfold addresses. set_solver. }
  destruct w; intros [= <- <-] _; (split; [done|]); intros b; unfold seen; simpl; rewrite Ho; apply Hb.
Qed.
End one_access.

(** The identifiers of the expanders differ. *)
Definition distinct_ids (st : Store) : Prop := ∀ x y e f, st !! x = Some e → st !! y = Some f → xp_id e = xp_id f → x = y.

Lemma distinct_ids_nodup st : NoDup (xp_id <$> st) → distinct_ids st.
Proof.
  intros Hn x y e f Hx Hy Hi. eapply (NoDup_lookup _ _ _ _ Hn); rewrite list_lookup_fmap; [by rewrite Hx|by rewrite Hy; simpl; rewrite Hi].
Qed.

(** ** Correctness *)

(** C38. The flow control of an expander stays within its bounds over any sequence of
    operations: the queue never holds more than 64 requests, the credits of each
    direction stay between 0 and 2, and with the requests in flight they never
    exceed 2, so that at most 4 requests are in flight. *)
Theorem expander_bounds `{CastUB} rb wb rl wl i k e :
  rtc expander_step (CXLMemExpander_new rb wb rl wl i k) e →
  queue_size e <= MAX_QUEUE_SIZE ∧
  0 <= xp_read_credits e <= INITIAL_CREDITS ∧ 0 <= xp_write_credits e <= INITIAL_CREDITS ∧
  xp_read_credits e + xp_write_credits e + Z.of_nat (size (xp_in_flight_requests e)) <= 4.
Proof.
  intros Hr. destruct (expander_reachable_inv _ _ Hr (expander_new_inv rb wb rl wl i k)) as [Hq Hrd Hwr].
  pose proof (flights_total (xp_in_flight_requests e)).
  pose proof (flights_nonneg true (xp_in_flight_requests e)). pose proof (flights_nonneg false (xp_in_flight_requests e)).
  unfold INITIAL_CREDITS in *. split_and!; lia.
Qed.

(** The penalty of the bandwidth model is never negative and never above its cap,
    whatever the counts, timestamps, ratio and latencies are, for every
    configuration after normalisation. *)
Theorem penalty_bounded c n first last ratio rl wl :
  let m := normalize_bandwidth_model c in
  let p := calculate_mlc_bandwidth_penalty m n first last ratio rl wl in
  flt p f0 = false ∧ flt (penalty_cap m (base_latency_ns ratio rl wl)) p = false.
Proof.
  cbn zeta. set (m := normalize_bandwidth_model c). set (cap := penalty_cap m (base_latency_ns ratio rl wl)).
  assert (flt cap f0 = false) as Hcap.
  { assert (fnn cap) as Hc by (apply fmax_nn_l; simpl; by apply fmax_nn_l). by destruct cap as [| [] | | [] ??]. }
  unfold calculate_mlc_bandwidth_penalty. destruct (n =? 0); [done|]. destruct (fle _ f0); [done|].
  fold cap. generalize (raw_penalty m). intros raw. match goal with |- context [raw ?a ?b ?c] => generalize (raw a b c) end. intros p.
  unfold fclamp. destruct (flt p f0) eqn:E0; [done|]. destruct (flt cap p) eqn:E1; [|done]. by rewrite flt_irrefl.
Qed.

(** After an expander has taken an access, a lookup says that an address is local
    exactly when it is that address or one the expander had seen: replacing the
    entry of the address, sorting the accesses and merging neighbouring lines into
    ranges loses nothing and adds nothing. *)
Theorem record_access_local `{CastUB} ts tid a w e ret e1 addr :
  record_access ts tid a (xp_id e) w e = (ret, e1) → accepted ret = true → is_u64 a → Forall is_u64 (seen e) →
  ((is_address_local addr e1).1 = true ↔ addr = a ∨ addr ∈ seen e).
Proof.
  intros Hr Ha Hu Hs. destruct (record_access_seen ts tid a w e ret e1 Hr Ha) as [Hv Hp].
  rewrite is_address_local_spec by (rewrite ?Forall_forall; rewrite Forall_forall in Hs; set_solver). apply Hp.
Qed.

(** An access of the server changes exactly the endpoint it is for, the counters of
    exactly the switches on the way to it, and the counter of the controller; a
    refused access changes no switch, and is offered to the endpoint a second time. *)
Theorem record_cxl_access_path `{CastUB} ts tid a w c x xs e :
  cn_cur_expanders c = x :: xs → cn_store c !! x = Some e →
  x ∈ positions (cn_switch c) → NoDup (positions (cn_switch c)) → distinct_ids (cn_store c) →
  let '(ret, e1) := record_access ts tid a (xp_id e) w e in
  record_cxl_access ts tid a w c =
    {| cn_switch := count_path x ret (cn_switch c);
       cn_store := <[x := if ret =? 0 then (record_access ts tid a (xp_id e) w e1).2 else e1]> (cn_store c);
       cn_cur_expanders := x :: xs; cn_remote := cn_remote c +w 1 |}.
Proof.
  intros Hcur Hx Hin Hn Hd. destruct (record_access ts tid a (xp_id e) w e) as [ret e1] eqn:Er.
  assert (endpoint_id c = xp_id e) as Hid by (unfold endpoint_id; by rewrite Hcur, Hx).
  unfold record_cxl_access. rewrite Hid. unfold sw_record_access.
  rewrite (offer_one _ x e e1 ret); [|done| |done| |done|done].
  - rewrite Hcur. f_equal. destruct (ret =? 0) eqn:E0; [|done]. cbn [find_expander].
    assert (xp_id e1 = xp_id e) as Hi by (change e1 with (ret, e1).2; rewrite <- Er; apply record_access_id).
    rewrite list_lookup_insert_eq by (by eapply lookup_lt_Some). rewrite Hi, Z.eqb_refl. by rewrite list_insert_insert_eq.
  - intros Ha. pose proof (record_access_ret ts tid a (xp_id e) w e) as Hz. rewrite Er in Hz. by apply Hz.
  - intros y f Hy Hne Hf. apply record_access_other. intros He. apply Hne. by eapply Hd.
Qed.

(** ** Concrete runs *)

#[local] Instance ex_cast : CastUB := λ _, 0.

Definition ex_expander (id : Z) : CXLMemExpander := CXLMemExpander_new 50 50 150 200 id 1024.

Lemma expander_bounds_witness :
  rtc expander_step (ex_expander 0) (record_access 10 1 4096 0 true (record_access 5 1 4096 0 false (ex_expander 0)).2).2 ∧
  queue_size (record_access 10 1 4096 0 true (record_access 5 1 4096 0 false (ex_expander 0)).2).2 <= 64.
Proof.
  assert (rtc expander_step (ex_expander 0) (record_access 10 1 4096 0 true (record_access 5 1 4096 0 false (ex_expander 0)).2).2)
    as Hr by (eapply rtc_l; [apply (xs_record _ 5 1 4096 0 false)|]; apply rtc_once, xs_record).
  split; [exact Hr|]. exact (proj1 (expander_bounds 50 50 150 200 0 1024 _ Hr)).
Defined.

Lemma record_access_local_witness :
  accepted (record_access 5 1 4096 0 false (ex_expander 0)).1 = true ∧
  (is_address_local 4096 (record_access 5 1 4096 0 false (ex_expander 0)).2).1 = true.
Proof.
  split; [vm_compute; reflexivity|].
  refine (proj2 (record_access_local 5 1 4096 false (ex_expander 0) _ _ 4096 (surjective_pairing _) _ _ _) _).
  - vm_compute. reflexivity.
  - vm_compute. split; congruence.
  - constructor.
  - left. reflexivity.
Defined.

(** Two endpoints behind two switches below a root. *)
Definition ex_tree : CXLSwitch := CXLSwitch_new 0 [] [CXLSwitch_new 1 [0%nat] []; CXLSwitch_new 2 [1%nat] []].

Definition ex_controller : Controller :=
  {| cn_switch := ex_tree; cn_store := [ex_expander 7; ex_expander 8]; cn_cur_expanders := [1%nat; 0%nat]; cn_remote := 0 |}.

Lemma record_cxl_access_path_witness :
  cn_cur_expanders ex_controller = [1%nat; 0%nat] ∧
  cn_switch (record_cxl_access 5 1 4096 false ex_controller) = count_path 1 2 ex_tree.
Proof.
  split; [reflexivity|].
  pose proof (record_cxl_access_path 5 1 4096 false ex_controller 1%nat [0%nat] (ex_expander 8)) as Hp.
  destruct (record_access 5 1 4096 (xp_id (ex_expander 8)) false (ex_expander 8)) as [ret e1] eqn:E.
  rewrite Hp.
  - vm_compute in E. injection E as <- _. reflexivity.
  - reflexivity.
  - reflexivity.
  - vm_compute. set_solver.
  - vm_compute. repeat constructor; set_solver.
  - apply distinct_ids_nodup. vm_compute. repeat constructor; set_solver.
Defined.

(** ** Observations *)

(** Reads of one line that overlap in flight share one entry of
    [in_flight_requests_], so all but the last never give their credit back.  Two
    reads and a write of one line, taken at one time, leave no read credit and no
    read in flight; 64 further reads fill the queue. *)
Definition ex_leak : CXLMemExpander :=
  Nat.iter 64 (λ e, (record_access 0 1 4096 0 false e).2)
    (record_access 0 1 4096 0 true (Nat.iter 2 (λ e, (record_access 0 1 4096 0 false e).2) (ex_expander 0))).2.

Lemma leak_stuck : stuck ex_leak.
Proof.
  split; [vm_compute; split; [reflexivity|split; discriminate]|vm_compute; reflexivity| |vm_compute; reflexivity].
  destruct (xp_request_queue ex_leak) as [|r q] eqn:E; [by vm_compute in E|]. exists r, q. split; [done|].
  assert (from_option cr_is_read false (head (xp_request_queue ex_leak)) = true) as Hh by (vm_compute; reflexivity).
  by rewrite E in Hh.
Qed.

(** From then on every access is refused, whatever time passes and whatever else is called. *)
Lemma leak_stuck_forever e ts tid a w :
  rtc expander_step ex_leak e → (record_access ts tid a (xp_id e) w e).1 = 0.
Proof.
  intros Hr. assert (stuck e) as Hs; [|by apply stuck_refuses].
  assert (∀ e1 e2, rtc expander_step e1 e2 → stuck e1 → stuck e2) as Hk by (induction 1; eauto using expander_step_stuck).
  eapply Hk; [exact Hr|apply leak_stuck].
Qed.

(** [calculate_latency] first calls [update_address_cache], which marks both caches
    valid; the ranges are then not rebuilt, and an address that was seen counts as
    remote: the latency of the epoch is 0, where it is positive when the ranges are
    rebuilt first. *)
Lemma latency_of_stale_ranges :
  let e := (record_access 5 1 4096 0 false (ex_expander 0)).2 in
  (calculate_latency [(5, 4096)] (f64_of_Z 80) e).1 = f0 ∧
  flt f0 (calculate_latency [(5, 4096)] (f64_of_Z 80) (is_address_local 4096 e).2).1 = true.
Proof. vm_compute. split; reflexivity. Qed.
