(* ===== verification/Server.v ===== *)
(** * The memory server

    Models the request handling of [ThreadPerConnectionServer]
    (src/main_server.cc): the coherency state of cachelines, reads, writes,
    atomics and fences, back invalidation, the label storage area, range
    notifications and the dispatch of TCP frames and of shared memory requests.
    It composes the components below it: the backing memory (SharedMem), the
    capacity and fabric checks (Pooling), the topology counters (Endpoint) and
    the request rings (ShmRing).

    A request is one step: the handlers hold [memory_mutex] (or the mutex of the
    label storage area) around everything that depends on earlier requests.
    Logging is left out.  [Env] is what a request meets outside of the program:
    the clock, allocation, what a failed read left in its buffer.  [None] is a
    handler that does not return: an access outside of a buffer, an allocation
    that throws, or a loop that has not ended after [ev_fuel] iterations.

    The specification is the flat memory of SharedMem. *)

From S2P Require Import Prelude Float64 Endpoint ShmRing Dcd Gfam Pooling SsdBackend SharedMem.

(** ** Data *)

Definition OP_READ : Z := 0.
Definition OP_WRITE : Z := 1.
Definition OP_GET_SHM_INFO : Z := 2.
Definition OP_ATOMIC_FAA : Z := 3.
Definition OP_ATOMIC_CAS : Z := 4.
Definition OP_FENCE : Z := 5.
Definition OP_LSA_READ : Z := 6.
Definition OP_LSA_WRITE : Z := 7.
Definition OP_BI_ENABLE : Z := 14.
Definition OP_BI_DISABLE : Z := 15.
Definition OP_BI_INVALIDATE : Z := 16.
Definition OP_BI_WRITEBACK : Z := 17.
Definition OP_BI_QUERY : Z := 18.
Definition OP_RANGE_READ : Z := 19.
Definition OP_RANGE_WRITE : Z := 20.
Definition OP_MAX : Z := OP_RANGE_WRITE.

Record BackInvalidationEntry := {
  be_cacheline_addr : Z;
  be_source_thread_id : Z;
  be_timestamp : Z;
  be_dirty_data : list Z
}.

(** The statistics of the server. *)
Inductive Counter :=
  | total_reads | total_writes | total_atomic_faa | total_atomic_cas | total_atomic_cas_success | total_fences
  | coherency_invalidations | coherency_downgrades | back_invalidations | bi_enable_requests | bi_disable_requests
  | bi_invalidate_requests | bi_writeback_requests | total_latency_ns.

#[global] Instance Counter_eq_dec : EqDecision Counter.
Proof. solve_decision. Defined.

Definition Counters : Type := Counter → Z.

Definition bump (c : Counter) (n : Z) (st : Counters) : Counters := λ c', if decide (c' = c) then st c' +w n else st c'.

Record Server := {
  sv_shm : SharedMemoryManager;
  sv_pool : CapacityPool;
  sv_tree : Controller;
  sv_active_requests : Z;
  sv_total_bandwidth_used : Z;
  sv_last_reset : Z;
  sv_back_invalidation_queue : gmap Z (list BackInvalidationEntry);
  sv_bi_enabled_clients : gset Z;
  sv_stats : Counters;
  sv_lsa_data : gmap Z Z;                   (** zero where nothing was written *)
  sv_lsa_size : Z
}.

Record Env := {
  ev_now_write : Z;                         (** [steady_clock::now] in [handle_write_coherency], in ns *)
  ev_now : Z;                               (** the same in [calculate_congestion_factor] *)
  ev_alloc : Z → bool;                      (** can the label storage area get that size? *)
  ev_partial : list Z;                      (** what a failed read left in [resp.data] *)
  ev_dirty : list Z;                        (** what a failed read left in [dirty_data] *)
  ev_fuel : nat                             (** iterations of the loop of OP_BI_INVALIDATE *)
}.

(** *** Field updates *)

Definition set_shm (m : SharedMemoryManager) (s : Server) : Server :=
  {| sv_shm := m; sv_pool := sv_pool s; sv_tree := sv_tree s; sv_active_requests := sv_active_requests s;
     sv_total_bandwidth_used := sv_total_bandwidth_used s; sv_last_reset := sv_last_reset s;
     sv_back_invalidation_queue := sv_back_invalidation_queue s; sv_bi_enabled_clients := sv_bi_enabled_clients s;
     sv_stats := sv_stats s; sv_lsa_data := sv_lsa_data s; sv_lsa_size := sv_lsa_size s |}.

Definition set_pool (p : CapacityPool) (s : Server) : Server :=
  {| sv_shm := sv_shm s; sv_pool := p; sv_tree := sv_tree s; sv_active_requests := sv_active_requests s;
     sv_total_bandwidth_used := sv_total_bandwidth_used s; sv_last_reset := sv_last_reset s;
     sv_back_invalidation_queue := sv_back_invalidation_queue s; sv_bi_enabled_clients := sv_bi_enabled_clients s;
     sv_stats := sv_stats s; sv_lsa_data := sv_lsa_data s; sv_lsa_size := sv_lsa_size s |}.

Definition set_tree (t : Controller) (s : Server) : Server :=
  {| sv_shm := sv_shm s; sv_pool := sv_pool s; sv_tree := t; sv_active_requests := sv_active_requests s;
     sv_total_bandwidth_used := sv_total_bandwidth_used s; sv_last_reset := sv_last_reset s;
     sv_back_invalidation_queue := sv_back_invalidation_queue s; sv_bi_enabled_clients := sv_bi_enabled_clients s;
     sv_stats := sv_stats s; sv_lsa_data := sv_lsa_data s; sv_lsa_size := sv_lsa_size s |}.

(** The fields of [congestion_info]. *)
Definition set_congestion (active bandwidth reset : Z) (s : Server) : Server :=
  {| sv_shm := sv_shm s; sv_pool := sv_pool s; sv_tree := sv_tree s; sv_active_requests := active;
     sv_total_bandwidth_used := bandwidth; sv_last_reset := reset;
     sv_back_invalidation_queue := sv_back_invalidation_queue s; sv_bi_enabled_clients := sv_bi_enabled_clients s;
     sv_stats := sv_stats s; sv_lsa_data := sv_lsa_data s; sv_lsa_size := sv_lsa_size s |}.

(** The back invalidation queue, its clients and the statistics. *)
Definition set_queue (q : gmap Z (list BackInvalidationEntry)) (s : Server) : Server :=
  {| sv_shm := sv_shm s; sv_pool := sv_pool s; sv_tree := sv_tree s; sv_active_requests := sv_active_requests s;
     sv_total_bandwidth_used := sv_total_bandwidth_used s; sv_last_reset := sv_last_reset s;
     sv_back_invalidation_queue := q; sv_bi_enabled_clients := sv_bi_enabled_clients s;
     sv_stats := sv_stats s; sv_lsa_data := sv_lsa_data s; sv_lsa_size := sv_lsa_size s |}.

Definition set_clients (cl : gset Z) (s : Server) : Server :=
  {| sv_shm := sv_shm s; sv_pool := sv_pool s; sv_tree := sv_tree s; sv_active_requests := sv_active_requests s;
     sv_total_bandwidth_used := sv_total_bandwidth_used s; sv_last_reset := sv_last_reset s;
     sv_back_invalidation_queue := sv_back_invalidation_queue s; sv_bi_enabled_clients := cl;
     sv_stats := sv_stats s; sv_lsa_data := sv_lsa_data s; sv_lsa_size := sv_lsa_size s |}.

Definition set_stats (st : Counters) (s : Server) : Server :=
  {| sv_shm := sv_shm s; sv_pool := sv_pool s; sv_tree := sv_tree s; sv_active_requests := sv_active_requests s;
     sv_total_bandwidth_used := sv_total_bandwidth_used s; sv_last_reset := sv_last_reset s;
     sv_back_invalidation_queue := sv_back_invalidation_queue s; sv_bi_enabled_clients := sv_bi_enabled_clients s;
     sv_stats := st; sv_lsa_data := sv_lsa_data s; sv_lsa_size := sv_lsa_size s |}.

Definition set_lsa (d : gmap Z Z) (n : Z) (s : Server) : Server :=
  {| sv_shm := sv_shm s; sv_pool := sv_pool s; sv_tree := sv_tree s; sv_active_requests := sv_active_requests s;
     sv_total_bandwidth_used := sv_total_bandwidth_used s; sv_last_reset := sv_last_reset s;
     sv_back_invalidation_queue := sv_back_invalidation_queue s; sv_bi_enabled_clients := sv_bi_enabled_clients s;
     sv_stats := sv_stats s; sv_lsa_data := d; sv_lsa_size := n |}.

Definition inc (c : Counter) (n : Z) (s : Server) : Server := set_stats (bump c n (sv_stats s)) s.

(** The server after its constructor and [start]. *)
Definition Server_new (m : SharedMemoryManager) (p : CapacityPool) (t : Controller) (now : Z) : Server :=
  {| sv_shm := m; sv_pool := p; sv_tree := t; sv_active_requests := 0; sv_total_bandwidth_used := 0; sv_last_reset := now;
     sv_back_invalidation_queue := ∅; sv_bi_enabled_clients := ∅; sv_stats := λ _, 0; sv_lsa_data := ∅;
     sv_lsa_size := 262144 |}.

(** A cacheline with a new coherency state. *)
Definition with_state (st : CoherencyState) (sharers : gset Z) (owner : Z) (i : CachelineMetadata) : CachelineMetadata :=
  {| cm_state := st; cm_sharers := sharers; cm_owner := owner; cm_last_access_time := cm_last_access_time i;
     cm_has_dirty_update := cm_has_dirty_update i; cm_dirty_update_time := cm_dirty_update_time i; cm_version := cm_version i |}.

Definition with_dirty (b : bool) (t : Z) (i : CachelineMetadata) : CachelineMetadata :=
  {| cm_state := cm_state i; cm_sharers := cm_sharers i; cm_owner := cm_owner i; cm_last_access_time := cm_last_access_time i;
     cm_has_dirty_update := b; cm_dirty_update_time := t; cm_version := cm_version i |}.

Definition with_time (t : Z) (i : CachelineMetadata) : CachelineMetadata :=
  {| cm_state := cm_state i; cm_sharers := cm_sharers i; cm_owner := cm_owner i; cm_last_access_time := t;
     cm_has_dirty_update := cm_has_dirty_update i; cm_dirty_update_time := cm_dirty_update_time i; cm_version := cm_version i |}.

Definition with_version (i : CachelineMetadata) : CachelineMetadata :=
  {| cm_state := cm_state i; cm_sharers := cm_sharers i; cm_owner := cm_owner i; cm_last_access_time := cm_last_access_time i;
     cm_has_dirty_update := cm_has_dirty_update i; cm_dirty_update_time := cm_dirty_update_time i;
     cm_version := cm_version i +w 1 |}.

(** ** Coherency of a cacheline *)

Definition exclusive (i : CachelineMetadata) : bool :=
  match cm_state i with EXCLUSIVE | MODIFIED => true | _ => false end.

Definition invalidate_sharers (requesting_thread : Z) (info : CachelineMetadata) (st : Counters) : Counters :=
  let count st (sharer : Z) := if sharer =? requesting_thread then st else bump coherency_invalidations 1 st in
  let st1 := List.fold_left count (elements (cm_sharers info)) st in
  if negb (cm_owner info =? -1) && negb (cm_owner info =? requesting_thread)
  then bump coherency_invalidations 1 st1 else st1.

Definition downgrade_owner (requesting_thread : Z) (info : CachelineMetadata) (st : Counters) : Counters :=
  if negb (cm_owner info =? -1) && negb (cm_owner info =? requesting_thread)
  then bump coherency_downgrades 1 st else st.

Definition handle_read_coherency (thread_id : Z) (info : CachelineMetadata) (st : Counters) : CachelineMetadata * Counters :=
  match cm_state info with
  | INVALID | SHARED => (with_state SHARED ({[thread_id]} ∪ cm_sharers info) (cm_owner info) info, st)
  | EXCLUSIVE | MODIFIED =>
      (with_state SHARED ({[thread_id]} ∪ ({[cm_owner info]} ∪ cm_sharers info)) (-1) info, downgrade_owner thread_id info st)
  end.

Definition handle_write_coherency (now thread_id : Z) (info : CachelineMetadata) (st : Counters) : CachelineMetadata * Counters :=
  match cm_state info with
  | INVALID => (with_state MODIFIED (cm_sharers info) thread_id info, st)
  | SHARED => (with_dirty true (u64 now) (with_state MODIFIED ∅ thread_id info), invalidate_sharers thread_id info st)
  | EXCLUSIVE | MODIFIED =>
      let info1 := with_state MODIFIED (cm_sharers info) thread_id info in
      if cm_owner info =? thread_id then (info1, st)
      else (with_dirty true (u64 now) info1, invalidate_sharers thread_id info st)
  end.

(** ** Back invalidation *)

Definition register_back_invalidation (cacheline_addr source_thread_id : Z) (dirty_data : list Z) (timestamp : Z) (s : Server)
    : Server :=
  let q := sv_back_invalidation_queue s in
  let entry := {| be_cacheline_addr := cacheline_addr; be_source_thread_id := source_thread_id;
                  be_timestamp := timestamp; be_dirty_data := dirty_data |} in
  set_queue (<[cacheline_addr := default [] (q !! cacheline_addr) ++ [entry]]> q) s.

(** The loop over the pending entries of a line. *)
Fixpoint apply_entries (entries : list BackInvalidationEntry) (cacheline_addr : Z) (had : bool) (info : CachelineMetadata)
    (m : SharedMemoryManager) (st : Counters) : option (bool * CachelineMetadata * SharedMemoryManager * Counters) :=
  match entries with
  | [] => Some (had, info, m, st)
  | entry :: rest =>
      match be_dirty_data entry with
      | [] =>
          let info1 := with_version (with_time (Z.max (cm_last_access_time info) (be_timestamp entry))
                         (with_state INVALID ∅ (-1) info)) in
          apply_entries rest cacheline_addr true info1 m (bump back_invalidations 1 st)
      | dirty =>
          if cm_last_access_time info <? be_timestamp entry then
            match write_cacheline m cacheline_addr dirty with
            | (Done _, m1) =>
                apply_entries rest cacheline_addr true (with_dirty false (be_timestamp entry) info) m1 (bump back_invalidations 1 st)
            | (Refused, m1) => apply_entries rest cacheline_addr had info m1 st
            | (Fault, _) => None
            end
          else apply_entries rest cacheline_addr had info m st
      end
  end.

Definition check_and_apply_back_invalidations (cacheline_addr : Z) (info : CachelineMetadata) (s : Server)
    : option (bool * CachelineMetadata * Server) :=
  match sv_back_invalidation_queue s !! cacheline_addr with
  | None | Some [] => Some (false, info, s)
  | Some entries =>
      '(had, info1, m, st) ← apply_entries entries cacheline_addr false info (sv_shm s) (sv_stats s);
      Some (had, info1, set_queue (delete cacheline_addr (sv_back_invalidation_queue s)) (set_stats st (set_shm m s)))
  end.

(** ** Congestion and latency *)

Section with_casts.
Context `{CastUB}.

Definition enter (s : Server) : Server :=
  set_congestion (sv_active_requests s + 1) (sv_total_bandwidth_used s) (sv_last_reset s) s.

Definition leave (s : Server) : Server :=
  set_congestion (sv_active_requests s - 1) (sv_total_bandwidth_used s) (sv_last_reset s) s.

(** Bandwidth is forgotten after a second; times are in ns. *)
Definition calculate_congestion_factor (now : Z) (s : Server) : f64 * Server :=
  let s1 := if 1000 <? Z.quot (now - sv_last_reset s) 1000000 then set_congestion (sv_active_requests s) 0 now s else s in
  let factor := (f1 + (f64_of_Z (sv_active_requests s1) / f64_of_Z 10) * flit 1 10)%f64 in
  (if 64 * 1024 * 1024 * 1024 <? sv_total_bandwidth_used s1 then (factor * flit 3 2)%f64 else factor, s1).

Definition update_congestion_stats (bytes_transferred : Z) (s : Server) : Server :=
  set_congestion (sv_active_requests s) (sv_total_bandwidth_used s +w bytes_transferred) (sv_last_reset s) s.

Definition calculate_total_latency (base_latency : Z) (congestion_factor : f64) (had_coherency_miss : bool) (size : Z) : Z :=
  let latency := (f64_of_Z base_latency * congestion_factor)%f64 in
  let latency1 := if had_coherency_miss then (latency + f64_of_Z 50)%f64 else latency in
  f64_to_u64 (latency1 + f64_of_Z size / f64_of_Z 64)%f64.

Definition zero_data : list Z := replicate 64 0.

Definition response (status latency old : Z) (data : list Z) : ServerResponse :=
  {| sr_status := status; sr_latency_ns := latency; sr_old_value := old; sr_data := data |}.

(** The latency of a request that was served; [base_latency] is converted to an integer. *)
Definition congested_latency (env : Env) (base_latency : f64) (miss : bool) (size : Z) (s : Server) : Z * Server :=
  let '(factor, s1) := calculate_congestion_factor (ev_now env) s in
  (calculate_total_latency (f64_to_u64 base_latency) factor miss size, update_congestion_stats size s1).

(** The end of a memory request that was served. *)
Definition served (env : Env) (base_latency : f64) (miss : bool) (size : Z) (data : list Z) (s : Server) : ServerResponse * Server :=
  let '(total_latency, s1) := congested_latency env base_latency miss size s in
  (response 0 total_latency 0 data, inc total_latency_ns total_latency (leave s1)).

Definition record_access_stats (thread_id : Z) (req : ServerRequest) (is_write : bool) (s : Server) : Server :=
  set_tree (record_cxl_access (rq_timestamp req) (u64 thread_id) (rq_addr req) is_write (sv_tree s)) s.

(** The metadata of a line is changed through its pointer. *)
Definition put_info (line : Z) (info : CachelineMetadata) (s : Server) : Server := set_shm (put_metadata line info (sv_shm s)) s.

(** ** Reads and writes *)

Definition range_valid (m : SharedMemoryManager) (addr size : Z) : bool :=
  negb (UINT64_MAX - (size - 1) <? addr) && is_valid_address m addr && is_valid_address m (addr +w size -w 1).

Definition handle_read (env : Env) (thread_id : Z) (req : ServerRequest) (base_latency : f64) (s : Server)
    : option (ServerResponse * Server) :=
  let line := cl_align (rq_addr req) in
  let s1 := set_shm (get_cacheline_metadata (sv_shm s) line) s in
  '(had, info1, s2) ← check_and_apply_back_invalidations line (metadata_of (sv_shm s1) line) s1;
  let miss := exclusive info1 && negb (cm_owner info1 =? -1) && negb (cm_owner info1 =? thread_id) in
  let '(info2, st) := handle_read_coherency thread_id info1 (sv_stats s2) in
  match read_cacheline (sv_shm s2) (rq_addr req) (rq_size req) with
  | (Done bs, m) =>
      let s3 := record_access_stats thread_id req false (inc total_reads 1 (set_stats st (set_shm m s2))) in
      let s4 := put_info line (with_time (rq_timestamp req) info2) s3 in
      Some (served env base_latency (miss || had) (rq_size req) (bs ++ drop (length bs) zero_data) s4)
  | (Refused, m) => Some (response 1 0 0 (ev_partial env), leave (put_info line info2 (set_stats st (set_shm m s2))))
  | (Fault, _) => None
  end.

(** The threads that held a line before a write. *)
Definition threads_to_invalidate (thread_id : Z) (info : CachelineMetadata) : gset Z :=
  match cm_state info with
  | SHARED => cm_sharers info
  | EXCLUSIVE | MODIFIED => if cm_owner info =? thread_id then ∅ else {[cm_owner info]}
  | INVALID => ∅
  end.

Definition write_miss (thread_id : Z) (info : CachelineMetadata) : bool :=
  match cm_state info with
  | SHARED => bool_decide (cm_sharers info ≠ ∅)
  | EXCLUSIVE | MODIFIED => negb (cm_owner info =? thread_id)
  | INVALID => false
  end.

(** One entry for every other thread that held the line. *)
Definition register_all (threads : gset Z) (line thread_id : Z) (dirty : list Z) (timestamp : Z) (s : Server) : Server :=
  List.fold_left (λ s t, if t =? thread_id then s else register_back_invalidation line thread_id dirty timestamp s)
    (elements threads) s.

(** After a write: the line is flushed, read back (only for the log), and the threads
    that held it get an entry with the bytes that were written. *)
Definition after_write (env : Env) (thread_id : Z) (req : ServerRequest) (threads : gset Z) (s : Server) : option Server :=
  let m1 := (flush_cacheline (sv_shm s) (rq_addr req) (rq_size req)).2 in
  match read_cacheline m1 (rq_addr req) (rq_size req) with
  | (Fault, _) => None
  | (_, m2) =>
      if decide (threads = ∅) then Some (set_shm m2 s)
      else
        match read_cacheline m2 (rq_addr req) (rq_size req) with
        | (Fault, _) => None
        | (r, m3) =>
            let dirty := match r with Done bs => bs | _ => resize (Z.to_nat (rq_size req)) 0 (ev_dirty env) end in
            Some (register_all threads (cl_align (rq_addr req)) thread_id dirty (rq_timestamp req) (set_shm m3 s))
        end
  end.

Definition handle_write (env : Env) (thread_id : Z) (req : ServerRequest) (base_latency : f64) (s : Server)
    : option (ServerResponse * Server) :=
  let line := cl_align (rq_addr req) in
  let s1 := set_shm (get_cacheline_metadata (sv_shm s) line) s in
  let info := metadata_of (sv_shm s1) line in
  let threads := threads_to_invalidate thread_id info in
  let '(info1, st) := handle_write_coherency (ev_now_write env) thread_id info (sv_stats s1) in
  match write_cacheline (sv_shm s1) (rq_addr req) (take (Z.to_nat (rq_size req)) (rq_data req)) with
  | (Done _, m) =>
      s2 ← after_write env thread_id req threads (set_stats st (set_shm m s1));
      let s3 := record_access_stats thread_id req true (inc total_writes 1 s2) in
      Some (served env base_latency (write_miss thread_id info) (rq_size req) zero_data
              (put_info line (with_time (rq_timestamp req) info1) s3))
  | (Refused, m) => Some (response 1 0 0 zero_data, leave (put_info line info1 (set_stats st (set_shm m s1))))
  | (Fault, _) => None
  end.

(** ** Atomics and fences *)

(** The line is owned by the thread after an atomic that stored. *)
Definition owned (thread_id timestamp : Z) (info : CachelineMetadata) : CachelineMetadata :=
  with_version (with_state MODIFIED ∅ thread_id (with_time timestamp info)).

(** The end of an atomic that was served; a fence lacks the last 20 ns. *)
Definition atomic_served (env : Env) (base_latency : f64) (extra old_value : Z) (s : Server) : ServerResponse * Server :=
  let '(latency, s1) := congested_latency env base_latency true 8 s in
  let total_latency := latency +w extra in
  (response 0 total_latency old_value zero_data, inc total_latency_ns total_latency (leave s1)).

(** The operation under the lock. *)
Definition atomic_body (env : Env) (thread_id : Z) (req : ServerRequest) (base_latency : f64) (s : Server)
    : option (ServerResponse * Server) :=
  let line := cl_align (rq_addr req) in
  let s1 := set_shm (get_cacheline_metadata (sv_shm s) line) s in
  let info := metadata_of (sv_shm s1) line in
  let failed m := Some (response 1 0 0 zero_data, leave (set_shm m s1)) in
  if rq_op_type req =? OP_ATOMIC_FAA then
    match atomic_fetch_add_uint64 (sv_shm s1) (rq_addr req) (rq_value req) with
    | (Done old, m) =>
        Some (atomic_served env base_latency 20 old
                (inc total_atomic_faa 1 (put_info line (owned thread_id (rq_timestamp req) info) (set_shm m s1))))
    | (Refused, m) => failed m
    | (Fault, _) => None
    end
  else if rq_op_type req =? OP_ATOMIC_CAS then
    match atomic_compare_exchange_uint64 (sv_shm s1) (rq_addr req) (rq_expected req) (rq_value req) with
    | (Done actual, m) =>
        let success := actual =? rq_expected req in
        let info1 := if success then owned thread_id (rq_timestamp req) info else with_time (rq_timestamp req) info in
        let s2 := put_info line info1 (set_shm m s1) in
        let s3 := if success then inc total_atomic_cas_success 1 s2 else s2 in
        Some (atomic_served env base_latency 20 actual (inc total_atomic_cas 1 s3))
    | (Refused, m) => failed m
    | (Fault, _) => None
    end
  else if rq_op_type req =? OP_FENCE then
    Some (atomic_served env base_latency 0 0 (inc total_fences 1 (set_shm (flush (sv_shm s1)).2 s1)))
  else failed (sv_shm s1).

Definition set_size (n : Z) (req : ServerRequest) : ServerRequest :=
  {| rq_op_type := rq_op_type req; rq_addr := rq_addr req; rq_size := n; rq_timestamp := rq_timestamp req;
     rq_value := rq_value req; rq_expected := rq_expected req; rq_data := rq_data req |}.

(** A refusal of the fabric. *)
Definition denied (status : DCDStatus) (s : Server) : ServerResponse :=
  response (status_code status) (f64_to_u64 (cp_dramlatency (sv_pool s))) 0 zero_data.

Definition handle_atomic_request (env : Env) (thread_id : Z) (req : ServerRequest) (s : Server) : option (ServerResponse * Server) :=
  let base_latency := (cp_dramlatency (sv_pool s) + f64_of_Z 20)%f64 in
  let s1 := enter s in
  if rq_op_type req =? OP_FENCE then atomic_body env thread_id req base_latency s1
  else
    let req1 := if (rq_size req =? 0) || (8 <? rq_size req) then set_size 8 req else req in
    let '(access, p) := check_fabric_access thread_id req1 true true (sv_pool s1) in
    let s2 := set_pool p s1 in
    match access with
    | inr status => Some (denied status s2, leave s2)
    | inl fabric_latency =>
        if negb (range_valid (sv_shm s2) (rq_addr req1) (rq_size req1)) then Some (response 1 0 0 zero_data, leave s2)
        else atomic_body env thread_id req1 (base_latency + fabric_latency)%f64 s2
    end.

(** ** Back invalidation requests *)

Definition is_bi_op (op_type : Z) : bool :=
  (op_type =? OP_BI_ENABLE) || (op_type =? OP_BI_DISABLE) || (op_type =? OP_BI_INVALIDATE) ||
  (op_type =? OP_BI_WRITEBACK) || (op_type =? OP_BI_QUERY).

(** The loop over the lines below [end_]: the lines that were registered. *)
Fixpoint invalidate_lines (fuel : nat) (line end_ thread_id timestamp lines : Z) (s : Server) : option (Z * Server) :=
  if line <? end_ then
    match fuel with
    | O => None
    | S fuel' => invalidate_lines fuel' (line +w SHM_CACHELINE_SIZE) end_ thread_id timestamp (lines + 1)
                   (register_back_invalidation line thread_id [] timestamp s)
    end
  else Some (lines, s).

Definition bi_invalidate (env : Env) (thread_id : Z) (req : ServerRequest) (s : Server) : option (ServerResponse * Server) :=
  let dram := cp_dramlatency (sv_pool s) in
  let size := if rq_size req =? 0 then SHM_CACHELINE_SIZE else rq_size req in
  let end_ := rq_addr req +w size in
  if end_ <? rq_addr req then Some (response 1 (f64_to_u64 dram) 0 zero_data, s)
  else
    '(lines, s1) ← invalidate_lines (ev_fuel env) (cl_align (rq_addr req)) end_ thread_id (rq_timestamp req) 0 s;
    Some (response 0 (f64_to_u64 (dram + f64_of_Z (lines *w 5)))%f64 lines zero_data, inc bi_invalidate_requests lines s1).

Definition bi_writeback (thread_id : Z) (req : ServerRequest) (s : Server) : option (ServerResponse * Server) :=
  let dram := cp_dramlatency (sv_pool s) in
  let size := Z.min (if rq_size req =? 0 then SHM_CACHELINE_SIZE else rq_size req) 64 in
  let line := cl_align (rq_addr req) in
  let dirty_data := take (Z.to_nat size) (rq_data req) in
  let failed := response 1 (f64_to_u64 dram) 0 zero_data in
  if negb (range_valid (sv_shm s) (rq_addr req) size) then Some (failed, s)
  else
    let m0 := get_cacheline_metadata (sv_shm s) line in
    let info := metadata_of m0 line in
    match write_cacheline m0 (rq_addr req) dirty_data with
    | (Done _, m1) =>
        let m2 := put_metadata line (owned thread_id (rq_timestamp req) info) m1 in
        let s1 := set_shm (flush_cacheline m2 (rq_addr req) size).2 s in
        Some (response 0 (f64_to_u64 (dram + f64_of_Z 20))%f64 size zero_data,
              inc bi_writeback_requests 1 (register_back_invalidation line thread_id dirty_data (rq_timestamp req) s1))
    | (Refused, m1) => Some (failed, set_shm m1 s)
    | (Fault, _) => None
    end.

Definition handle_bi_request (env : Env) (thread_id : Z) (req : ServerRequest) (s : Server) : option (ServerResponse * Server) :=
  let lat := f64_to_u64 (cp_dramlatency (sv_pool s)) in
  let clients s := Z.of_nat (size (sv_bi_enabled_clients s)) in
  if rq_op_type req =? OP_BI_ENABLE then
    let s1 := inc bi_enable_requests 1 (set_clients ({[thread_id]} ∪ sv_bi_enabled_clients s) s) in
    Some (response 0 lat (clients s1) zero_data, s1)
  else if rq_op_type req =? OP_BI_DISABLE then
    let s1 := inc bi_disable_requests 1 (set_clients (sv_bi_enabled_clients s ∖ {[thread_id]}) s) in
    Some (response 0 lat (clients s1) zero_data, s1)
  else if rq_op_type req =? OP_BI_INVALIDATE then bi_invalidate env thread_id req s
  else if rq_op_type req =? OP_BI_WRITEBACK then bi_writeback thread_id req s
  else if rq_op_type req =? OP_BI_QUERY then
    Some (response 0 lat (clients s)
            (write_u64 32 (sv_stats s bi_writeback_requests) (write_u64 24 (sv_stats s bi_invalidate_requests)
               (write_u64 16 (sv_stats s bi_disable_requests) (write_u64 8 (sv_stats s bi_enable_requests)
                  (write_u64 0 (sv_stats s back_invalidations) zero_data))))), s)
  else Some (response 1 lat 0 zero_data, s).

(** ** Range notifications and the label storage area *)

(** A range of size 0 is answered with success, unchecked. *)
Definition handle_range (env : Env) (thread_id : Z) (req : ServerRequest) (s : Server) : option (ServerResponse * Server) :=
  let is_write := rq_op_type req =? OP_RANGE_WRITE in
  if rq_size req =? 0 then Some (response 0 0 0 zero_data, s)
  else
    let '(access, p) := check_fabric_access thread_id req is_write false (sv_pool s) in
    let s1 := set_pool p s in
    match access with
    | inr status => Some (denied status s1, s1)
    | inl fabric_latency =>
        let base := (cp_dramlatency (sv_pool s1) + fabric_latency)%f64 in
        let '(latency, s2) := congested_latency env base false (rq_size req) (enter s1) in
        let s3 := inc (if is_write then total_writes else total_reads) 1 (inc total_latency_ns latency s2) in
        Some (response 0 latency 0 zero_data, leave (record_access_stats thread_id req is_write s3))
    end.

Definition lsa_read (req : ServerRequest) (s : Server) : option (ServerResponse * Server) :=
  let clamped := Z.min (rq_size req) 64 in
  if rq_addr req +w clamped <=? sv_lsa_size s then
    if (0 <? clamped) && (sv_lsa_size s <? rq_addr req + clamped) then None
    else
      let bs := load_bytes (Z.to_nat clamped) (rq_addr req) (sv_lsa_data s) in
      Some (response 0 0 0 (bs ++ drop (length bs) zero_data), s)
  else Some (response 1 0 0 zero_data, s).

Definition lsa_write (env : Env) (req : ServerRequest) (s : Server) : option (ServerResponse * Server) :=
  let clamped := Z.min (rq_size req) 64 in
  let new_size := rq_addr req +w clamped in
  let grow := sv_lsa_size s <? new_size in
  if grow && negb (ev_alloc env new_size) then None
  else
    let size := if grow then new_size else sv_lsa_size s in
    if (0 <? clamped) && (size <? rq_addr req + clamped) then None
    else
      let d := store_bytes (take (Z.to_nat clamped) (rq_data req)) (rq_addr req) (sv_lsa_data s) in
      Some (response 0 0 0 zero_data, set_lsa d size s).

(** ** Dispatch *)

(** A request for memory: every operation that is not a read is a write. *)
Definition handle_memory_request (env : Env) (thread_id : Z) (req : ServerRequest) (s : Server) : option (ServerResponse * Server) :=
  let req1 := if (rq_size req =? 0) || (SHM_CACHELINE_SIZE <? rq_size req) then set_size SHM_CACHELINE_SIZE req else req in
  let '(access, p) := check_fabric_access thread_id req1 (rq_op_type req1 =? OP_WRITE) false (sv_pool s) in
  let s1 := set_pool p s in
  match access with
  | inr status => Some (denied status s1, s1)
  | inl fabric_latency =>
      if negb (range_valid (sv_shm s1) (rq_addr req1) (rq_size req1)) then Some (response 1 0 0 zero_data, s1)
      else
        let base := (cp_dramlatency (sv_pool s1) + fabric_latency)%f64 in
        if rq_op_type req1 =? OP_READ then handle_read env thread_id req1 base (enter s1)
        else handle_write env thread_id req1 base (enter s1)
  end.

Definition is_atomic_op (op_type : Z) : bool :=
  (op_type =? OP_ATOMIC_FAA) || (op_type =? OP_ATOMIC_CAS) || (op_type =? OP_FENCE).

Definition handle_request (env : Env) (thread_id : Z) (req : ServerRequest) (s : Server) : option (ServerResponse * Server) :=
  let op := rq_op_type req in
  if is_atomic_op op then handle_atomic_request env thread_id req s
  else if is_capacity_management_op op then
    let '(resp, p) := handle_capacity_management_request thread_id req zero_data (sv_pool s) in Some (resp, set_pool p s)
  else if is_bi_op op then handle_bi_request env thread_id req s
  else if (op =? OP_RANGE_READ) || (op =? OP_RANGE_WRITE) then handle_range env thread_id req s
  else if op =? OP_LSA_READ then lsa_read req s
  else if op =? OP_LSA_WRITE then lsa_write env req s
  else handle_memory_request env thread_id req s.

(** ** Transports *)

(** What [handle_client] sends for a frame. *)
Inductive Frame := Reply (resp : ServerResponse) | ShmInfo (info : SharedMemoryInfo) | Disconnect.

(** One iteration of [handle_client], for a complete request. *)
Definition handle_frame (env : Env) (thread_id : Z) (req : ServerRequest) (s : Server) : option (Frame * Server) :=
  let op := rq_op_type req in
  if OP_MAX <? op then Some (Disconnect, s)
  else if op =? OP_GET_SHM_INFO then Some (ShmInfo (get_shm_info (sv_shm s)), s)
  else
    let clamp := ((op =? OP_READ) || (op =? OP_WRITE) || (op =? OP_LSA_READ) || (op =? OP_LSA_WRITE)) && (64 <? rq_size req) in
    '(resp, s1) ← handle_request env thread_id (if clamp then set_size 64 req else req) s;
    Some (Reply resp, s1).

Definition server_request (q : ShmRequest) : ServerRequest :=
  {| rq_op_type := sq_op_type q; rq_addr := sq_addr q; rq_size := sq_size q; rq_timestamp := sq_timestamp q;
     rq_value := sq_value q; rq_expected := sq_expected q; rq_data := sq_data q |}.

Definition shm_response (p : ServerResponse) : ShmResponse :=
  {| sp_status := sr_status p; sp_latency_ns := sr_latency_ns p; sp_old_value := sr_old_value p; sp_data := sr_data p |}.

(** The information request over a ring: three words in the data of the response. *)
Definition info_response (i : SharedMemoryInfo) : ShmResponse :=
  {| sp_status := 0; sp_latency_ns := 0; sp_old_value := 0;
     sp_data := le_encode 8 (in_base_addr i) ++ le_encode 8 (in_size i) ++ le_encode 8 (in_num_cachelines i) ++ replicate 40 0 |}.

(** The answer to a ring request, by [handle_shm_requests]. *)
Definition answer (env : Env) (client : Z) (q : ShmRequest) (s : Server) : option (ShmResponse * Server) :=
  if sq_op_type q =? OP_GET_SHM_INFO then Some (info_response (get_shm_info (sv_shm s)), s)
  else
    '(resp, s1) ← handle_request env client (server_request q) s;
    Some (shm_response resp, s1).

(** One iteration of [handle_shm_requests]; the flag says if a request was served. *)
Definition handle_shm_requests (env : Env) (c : ShmCommunication) (s : Server) : option (bool * ShmCommunication * Server) :=
  match wait_for_request c with
  | (None, c1) => Some (false, c1, s)
  | (Some (client, q), c1) =>
      '(p, s1) ← answer env (Z.of_nat client) q s;
      Some (true, (comm_send_response client p c1).2, s1)
  end.

End with_casts.

(** ** Specification: a flat memory *)

Definition same_mem (s s' : Server) : Prop := ∀ o, 0 <= o → mem (sv_shm s') o = mem (sv_shm s) o.

(** Bytes are stored at an address, and nothing else changes. *)
Definition stored (a : Z) (bs : list Z) (s s' : Server) : Prop :=
  ∀ o, 0 <= o → mem (sv_shm s') o = put (offset_of (sv_shm s)) a bs (mem (sv_shm s)) o.

(** At most a part of the bytes is stored: what is left of a failed write. *)
Definition stored_part (a : Z) (bs : list Z) (s s' : Server) : Prop := ∃ k, (k ≤ length bs)%nat ∧ stored a (take k bs) s s'.

(** The size of an access after clamping. *)
Definition clamped_size (req : ServerRequest) : Z :=
  if (rq_size req =? 0) || (SHM_CACHELINE_SIZE <? rq_size req) then SHM_CACHELINE_SIZE else rq_size req.

(** Operations that leave the memory alone. *)
Definition is_passive_op (op : Z) : bool :=
  (op =? OP_FENCE) || is_capacity_management_op op || (op =? OP_BI_ENABLE) || (op =? OP_BI_DISABLE) ||
  (op =? OP_BI_INVALIDATE) || (op =? OP_BI_QUERY) || (op =? OP_RANGE_READ) || (op =? OP_RANGE_WRITE) ||
  (op =? OP_LSA_READ) || (op =? OP_LSA_WRITE).

(** What a request does to the memory, and what it returns of it. *)
Definition mem_effect (req : ServerRequest) (resp : ServerResponse) (s s' : Server) : Prop :=
  let op := rq_op_type req in
  let a := rq_addr req in
  let n := Z.to_nat (clamped_size req) in
  let m := sv_shm s in
  if is_passive_op op then same_mem s s'
  else if op =? OP_READ then
    same_mem s s' ∧ (sr_status resp = 0 → take n (sr_data resp) = get (offset_of m) a n (mem m))
  else if op =? OP_ATOMIC_FAA then
    if sr_status resp =? 0
    then sr_old_value resp = word m a ∧ stored a (le_encode 8 (word m a +w rq_value req)) s s'
    else ∃ v, stored_part a (le_encode 8 v) s s'
  else if op =? OP_ATOMIC_CAS then
    if sr_status resp =? 0
    then sr_old_value resp = word m a ∧
         (if word m a =? rq_expected req then stored a (le_encode 8 (rq_value req)) s s' else same_mem s s')
    else ∃ v, stored_part a (le_encode 8 v) s s'
  else
    if sr_status resp =? 0 then stored a (take n (rq_data req)) s s' else stored_part a (take n (rq_data req)) s s'.

(** ** Invariant *)

(** One writer or many readers; [EXCLUSIVE] is never used. *)
Definition line_ok (i : CachelineMetadata) : Prop :=
  match cm_state i with
  | INVALID => cm_owner i = -1 ∧ cm_sharers i = ∅
  | SHARED => cm_owner i = -1 ∧ cm_sharers i ≠ ∅
  | EXCLUSIVE => False
  | MODIFIED => 0 <= cm_owner i ∧ cm_sharers i = ∅
  end.

Definition last_access (m : SharedMemoryManager) (line : Z) : Z := cm_last_access_time (metadata_of m line).

Definition wf_request (req : ServerRequest) : Prop :=
  is_u64 (rq_addr req) ∧ is_u64 (rq_size req) ∧ length (rq_data req) = 64%nat.

(** The request is not older than the last access of its line. *)
Definition in_order (s : Server) (req : ServerRequest) : Prop :=
  last_access (sv_shm s) (cl_align (rq_addr req)) <= rq_timestamp req.

(** The lemmas hold for every history; what depends on the order of the timestamps is
    stated for histories in which the timestamps of a line do not go back ([timely]). *)
Section histories.
Context (timely : bool).

(** A pending entry with data is not newer than the last access of its line, when the
    timestamps do not go back. *)
Definition entry_ok (m : SharedMemoryManager) (a : Z) (e : BackInvalidationEntry) : Prop :=
  is_u64 (Z.of_nat (length (be_dirty_data e))) ∧
  (timely = true → be_dirty_data e ≠ [] → be_timestamp e <= last_access m a).

Record server_inv (s : Server) : Prop := {
  si_shm : shm_inv (sv_shm s);
  si_pool : pool_inv (sv_pool s);
  si_lines : ∀ a, line_ok (metadata_of (sv_shm s) a);
  si_queue : ∀ a es e, sv_back_invalidation_queue s !! a = Some es → e ∈ es → entry_ok (sv_shm s) a e
}.

(** ** Lemmas: metadata *)

Lemma set_metadata_inv x m : shm_inv m → shm_inv (set_metadata x m).
Proof. intros [H1 H2 H3]. by split. Qed.

Lemma metadata_of_put a i m b : metadata_of (put_metadata a i m) b = if decide (b = a) then i else metadata_of m b.
Proof.
  unfold metadata_of, put_metadata. simpl. case_decide as Hb; [subst; by rewrite lookup_insert_eq|by rewrite lookup_insert_ne].
Qed.

Lemma metadata_of_get a m b : metadata_of (get_cacheline_metadata m a) b = metadata_of m b.
Proof.
  unfold get_cacheline_metadata. fold (put_metadata a (metadata_of m a) m). rewrite metadata_of_put. by case_decide; subst.
Qed.

Lemma kept_metadata m m' a : kept m m' → metadata_of m' a = metadata_of m a.
Proof. intros Hk. unfold metadata_of. by rewrite (kp_meta _ _ Hk). Qed.

Lemma new_line_ok : line_ok CachelineMetadata_new.
Proof. done. Qed.

(** ** Lemmas: frames *)

(** What the invariant and the memory depend on. *)
Definition same_core (s s' : Server) : Prop :=
  sv_shm s' = sv_shm s ∧ sv_pool s' = sv_pool s ∧ sv_back_invalidation_queue s' = sv_back_invalidation_queue s.

Lemma same_core_trans s1 s2 s3 : same_core s1 s2 → same_core s2 s3 → same_core s1 s3.
Proof. unfold same_core. intuition congruence. Qed.

Lemma same_core_inv s s' : same_core s s' → server_inv s → server_inv s'.
Proof. intros (H1 & H2 & H3) [I1 I2 I3 I4]. split; rewrite ?H1, ?H2, ?H3; done. Qed.

Lemma served_core `{CastUB} env base miss n data s :
  same_core s (served env base miss n data s).2 ∧
  sr_status (served env base miss n data s).1 = 0 ∧ sr_data (served env base miss n data s).1 = data ∧
  sv_active_requests (served env base miss n data s).2 = sv_active_requests s - 1.
Proof. unfold served, congested_latency, calculate_congestion_factor. by repeat case_match; simplify_eq. Qed.

Lemma atomic_served_core `{CastUB} env base extra old s :
  same_core s (atomic_served env base extra old s).2 ∧
  sr_status (atomic_served env base extra old s).1 = 0 ∧ sr_old_value (atomic_served env base extra old s).1 = old ∧
  sv_active_requests (atomic_served env base extra old s).2 = sv_active_requests s - 1.
Proof. unfold atomic_served, congested_latency, calculate_congestion_factor. by repeat case_match; simplify_eq. Qed.

(** The state of a line is replaced over a memory that has changed. *)
Lemma put_info_inv line i m s s' :
  server_inv s → shm_inv m → (∀ a, metadata_of m a = metadata_of (sv_shm s) a) → line_ok i →
  (timely = true → last_access (sv_shm s) line <= cm_last_access_time i) →
  sv_shm s' = put_metadata line i m → sv_pool s' = sv_pool s →
  (∀ a es e, sv_back_invalidation_queue s' !! a = Some es → e ∈ es →
     (∃ es', sv_back_invalidation_queue s !! a = Some es' ∧ e ∈ es') ∨
     a = line ∧ is_u64 (Z.of_nat (length (be_dirty_data e))) ∧ be_timestamp e <= cm_last_access_time i) →
  server_inv s'.
Proof.
  intros [I1 I2 I3 I4] Hm Hmeta Hi Ht Hs Hp Hq. split; [rewrite Hs; by apply set_metadata_inv|by rewrite Hp| |].
  - intros a. rewrite Hs, metadata_of_put. case_decide; [done|]. by rewrite Hmeta.
  - intros a es e He Hin. unfold entry_ok, last_access. rewrite Hs, metadata_of_put.
    destruct (Hq a es e He Hin) as [(es' & He' & Hin')|(-> & Hn & Hle)]; [|by rewrite decide_True].
    destruct (I4 a es' e He' Hin') as [Hn Hle]. split; [done|]. intros Hty Hd. specialize (Hle Hty Hd). specialize (Ht Hty).
    unfold last_access in *. case_decide; [subst; lia|by rewrite Hmeta].
Qed.

(** ** Lemmas: coherency *)

Lemma handle_read_coherency_ok t i st :
  line_ok i → let i' := (handle_read_coherency t i st).1 in
  line_ok i' ∧ cm_last_access_time i' = cm_last_access_time i ∧ cm_state i' = SHARED ∧ t ∈ cm_sharers i' ∧
  (∀ x, x ∈ cm_sharers i ∨ x = cm_owner i ∧ exclusive i = true → x ∈ cm_sharers i').
Proof.
  unfold line_ok, handle_read_coherency, exclusive. destruct (cm_state i); simpl; intros Hi; split_and!; set_solver.
Qed.

Lemma handle_write_coherency_ok now t i st :
  0 <= t → line_ok i → let i' := (handle_write_coherency now t i st).1 in
  line_ok i' ∧ cm_last_access_time i' = cm_last_access_time i ∧ cm_state i' = MODIFIED ∧ cm_owner i' = t.
Proof.
  unfold line_ok, handle_write_coherency. intros Ht. destruct (cm_state i); simpl; [by intros [_ ->]|done|done|].
  destruct (cm_owner i =? t) eqn:E; simpl; intros [_ ->]; split_and!; done.
Qed.

Lemma owned_ok t ts i : 0 <= t → line_ok (owned t ts i).
Proof. by intros Ht. Qed.

(** ** Lemmas: back invalidation *)

(** The entries of a line are applied; those that are not newer than the line change
    no memory. *)
Lemma apply_entries_ok es line had i m st :
  line_ok i → shm_inv m → is_u64 line →
  (∀ e, e ∈ es → is_u64 (Z.of_nat (length (be_dirty_data e))) ∧
     (timely = true → be_dirty_data e ≠ [] → be_timestamp e <= cm_last_access_time i)) →
  ∃ had' i' m' st', apply_entries es line had i m st = Some (had', i', m', st') ∧ line_ok i' ∧ kept m m' ∧
    cm_last_access_time i <= cm_last_access_time i' ∧ (timely = true → m' = m).
Proof.
  revert had i m st. induction es as [|e es IH]; intros had i m st Hi Hm Hu He; cbn [apply_entries].
  { exists had, i, m, st. by split_and!. }
  destruct (He e ltac:(set_solver)) as [Hn Hle].
  destruct (be_dirty_data e) as [|b bs] eqn:Ed.
  - destruct (IH true (with_version (with_time (Z.max (cm_last_access_time i) (be_timestamp e)) (with_state INVALID ∅ (-1) i)))
      m (bump back_invalidations 1 st)) as (h' & i' & m' & st' & -> & Hi' & Hk & Hle' & Hsame); [done|done|done| |].
    + intros e' Hin. destruct (He e' ltac:(set_solver)) as [Hn' Ht']. split; [done|]. intros Hty Hd. simpl. specialize (Ht' Hty Hd). lia.
    + exists h', i', m', st'. split_and!; try done. simpl in Hle'. lia.
  - assert (∀ e, e ∈ es → is_u64 (Z.of_nat (length (be_dirty_data e))) ∧
      (timely = true → be_dirty_data e ≠ [] → be_timestamp e <= cm_last_access_time i)) as Hes by (intros e' Hin; apply He; set_solver).
    destruct (_ <? _) eqn:E; [|by apply IH]. btests.
    assert (timely ≠ true) as Hty by (intros Hty; specialize (Hle Hty ltac:(done)); lia).
    destruct (write_cacheline m line (b :: bs)) as [r m1] eqn:Ew. apply write_cacheline_ok in Ew as (Hnf & Hk & _); [|done..].
    destruct r as [u| |]; [|..|done].
    + destruct (IH true (with_dirty false (be_timestamp e) i) m1 (bump back_invalidations 1 st))
        as (h' & i' & m' & st' & -> & Hi' & Hk' & Hle' & _); [done|apply Hk|done|done|].
      exists h', i', m', st'. split_and!; try done. by eapply kept_trans.
    + destruct (IH had i m1 st) as (h' & i' & m' & st' & -> & Hi' & Hk' & Hle' & _); [done|apply Hk|done|done|].
      exists h', i', m', st'. split_and!; try done. by eapply kept_trans.
Qed.

Lemma check_and_apply_ok line i s :
  server_inv s → i = metadata_of (sv_shm s) line → is_u64 line →
  ∃ had i' s', check_and_apply_back_invalidations line i s = Some (had, i', s') ∧
    line_ok i' ∧ cm_last_access_time i <= cm_last_access_time i' ∧
    kept (sv_shm s) (sv_shm s') ∧ (timely = true → sv_shm s' = sv_shm s) ∧ sv_pool s' = sv_pool s ∧ sv_active_requests s' = sv_active_requests s ∧
    ∀ a es, sv_back_invalidation_queue s' !! a = Some es → sv_back_invalidation_queue s !! a = Some es ∧ (a = line → es = []).
Proof.
  intros Hi -> Hu. unfold check_and_apply_back_invalidations. pose proof (si_lines s Hi line) as Hl.
  pose proof (kept_refl _ (si_shm s Hi)) as Hk0.
  destruct (sv_back_invalidation_queue s !! line) as [[|e es]|] eqn:Eq.
  - exists false, (metadata_of (sv_shm s) line), s. split_and!; try done. intros a es' Ha. split; [done|]. intros ->. congruence.
  - destruct (apply_entries_ok (e :: es) line false (metadata_of (sv_shm s) line) (sv_shm s) (sv_stats s) Hl (si_shm s Hi) Hu)
      as (had & i' & m' & st' & -> & Hi' & Hk & Hle & Hsame).
    { intros e' Hin. by apply (si_queue s Hi line (e :: es) e'). }
    simpl. eexists _, _, _. split; [done|]. split_and!; try done. simpl. intros a es' Ha.
    destruct (decide (a = line)) as [->|Hne]; [by rewrite lookup_delete_eq in Ha|]. by rewrite lookup_delete_ne in Ha.
  - exists false, (metadata_of (sv_shm s) line), s. split_and!; try done. intros a es' Ha. split; [done|]. intros ->. congruence.
Qed.

(** ** Lemmas: handlers *)

(** What every handler keeps; [n] requests have left. *)
Record handled (n : Z) (s s' : Server) : Prop := {
  hd_inv : server_inv s';
  hd_header : sm_header (sv_shm s') = sm_header (sv_shm s);
  hd_active : sv_active_requests s' = sv_active_requests s - n
}.

Lemma handled_trans n k s1 s2 s3 : handled n s1 s2 → handled k s2 s3 → handled (n + k) s1 s3.
Proof. intros [A1 A2 A3] [B1 B2 B3]. split; [done|congruence|lia]. Qed.

Lemma handled_core n s s1 s2 : handled 0 s s1 → same_core s1 s2 → sv_active_requests s2 = sv_active_requests s1 - n → handled n s s2.
Proof.
  intros [A1 A2 A3] Hc Ha. split; [by eapply same_core_inv|by rewrite (proj1 Hc)|lia].
Qed.

Lemma fetch_metadata_ok line s :
  server_inv s → let s1 := set_shm (get_cacheline_metadata (sv_shm s) line) s in
  handled 0 s s1 ∧ metadata_of (sv_shm s1) line = metadata_of (sv_shm s) line.
Proof.
  intros Hi. split; [|apply metadata_of_get]. split; [|done|simpl; lia].
  apply (put_info_inv line (metadata_of (sv_shm s) line) (sv_shm s) s); try done; [apply Hi|apply Hi|]. eauto.
Qed.

Section handlers.
Context `{CastUB}.

Lemma handle_read_ok env t req base s :
  server_inv s → 0 <= t → is_u64 (rq_addr req) → is_u64 (rq_size req) → (timely = true → in_order s req) →
  ∃ resp s', handle_read env t req base s = Some (resp, s') ∧ handled 1 s s' ∧ (timely = true → same_mem s s' ∧
    (sr_status resp = 0 → let n := Z.to_nat (rq_size req) in
       take n (sr_data resp) = get (offset_of (sv_shm s)) (rq_addr req) n (mem (sv_shm s)))).
Proof.
  intros Hi Ht Ha Hn Ho. unfold handle_read. set (line := cl_align (rq_addr req)).
  destruct (fetch_metadata_ok line s Hi) as [Hf Hl]. set (s1 := set_shm (get_cacheline_metadata (sv_shm s) line) s) in *.
  destruct (check_and_apply_ok line _ s1 (hd_inv _ _ _ Hf) eq_refl (cl_align_u64 _ Ha)) as (had & i1 & s2 & -> & Hi1 & Hle & Hk1 & Es & Ep & Ea & Hq).
  cbn [mbind option_bind]. pose proof (handle_read_coherency_ok t i1 (sv_stats s2) Hi1) as (Hi2 & Hl2 & _).
  destruct (handle_read_coherency t i1 (sv_stats s2)) as [i2 st]. cbn [fst] in Hi2, Hl2.
  destruct (read_cacheline (sv_shm s2) (rq_addr req) (rq_size req)) as [r m] eqn:Er.
  apply read_cacheline_ok in Er as (Hnf & Hk2 & Hmem & Hbs); [|apply Hk1|done|done]. pose proof (kept_trans _ _ _ Hk1 Hk2) as Hk.
  assert (∀ i s', line_ok i → (timely = true → last_access (sv_shm s) line <= cm_last_access_time i) → sv_shm s' = put_metadata line i m →
    sv_pool s' = sv_pool s → sv_back_invalidation_queue s' = sv_back_invalidation_queue s2 →
    sv_active_requests s' = sv_active_requests s → handled 0 s s') as Hput.
  { intros i s' Hok Hli E1 E2 E3 E4. split; [|by rewrite E1; simpl; rewrite (kp_header _ _ Hk)|lia].
    apply (put_info_inv line i m s1 s' (hd_inv _ _ _ Hf)); [apply Hk|intros a; by apply kept_metadata|done| |done|done|].
    - unfold last_access in *. by rewrite Hl.
    - rewrite E3. intros a es e He Hin. left. exists es. split; [|done]. by apply Hq. }
  destruct r as [bs| |]; [|eexists _, _; split; [done|]|done].
  - destruct (Hbs bs eq_refl) as [_ Hb]. eexists _, _. split; [by rewrite <- surjective_pairing|].
    set (s4 := put_info line (with_time (rq_timestamp req) i2) _).
    destruct (served_core env base (exclusive i1 && negb (cm_owner i1 =? -1) && negb (cm_owner i1 =? t) || had) (rq_size req)
      (bs ++ drop (length bs) zero_data) s4) as (Hc & _ & Hd & Hact).
    split; [|intros Hty; specialize (Es Hty); split].
    + eapply handled_core; [|exact Hc|exact Hact]. apply (Hput (with_time (rq_timestamp req) i2)); try done.
    + intros o _. rewrite (proj1 Hc). transitivity (mem m o); [done|]. by rewrite Hmem, Es.
    + intros _. rewrite Hd. rewrite Hb, Es. rewrite take_app_length'; [done|]. by rewrite get_length.
  - split; [|intros Hty; specialize (Es Hty); split; [|done]].
    + eapply (handled_core 1); [apply (Hput i2 (put_info line i2 (set_stats st (set_shm m s2)))); try done|by split_and!|done].
      intros _. rewrite Hl2. unfold last_access. rewrite <- Hl. done.
    + intros o _. transitivity (mem m o); [done|]. by rewrite Hmem, Es.
Qed.

(** The entries after a registration: the old ones, and new ones of the line. *)
Definition queued_more (line ts : Z) (s s' : Server) : Prop :=
  sv_shm s' = sv_shm s ∧ sv_pool s' = sv_pool s ∧ sv_active_requests s' = sv_active_requests s ∧
  ∀ a es e, sv_back_invalidation_queue s' !! a = Some es → e ∈ es →
    (∃ es', sv_back_invalidation_queue s !! a = Some es' ∧ e ∈ es') ∨
    a = line ∧ is_u64 (Z.of_nat (length (be_dirty_data e))) ∧ be_timestamp e = ts.

Lemma queued_more_refl line ts s : queued_more line ts s s.
Proof. split_and!; eauto. Qed.

Lemma queued_more_trans line ts s1 s2 s3 : queued_more line ts s1 s2 → queued_more line ts s2 s3 → queued_more line ts s1 s3.
Proof.
  intros (A1 & A2 & A3 & A4) (B1 & B2 & B3 & B4). split_and!; [congruence..|]. intros a es e He Hin.
  destruct (B4 a es e He Hin) as [(es' & He' & Hin')|?]; eauto.
Qed.

Lemma register_more line t dirty ts s : is_u64 (Z.of_nat (length dirty)) → queued_more line ts s (register_back_invalidation line t dirty ts s).
Proof.
  intros Hn. split_and!; [done..|]. intros a es e. simpl. destruct (decide (a = line)) as [->|Hne].
  - rewrite lookup_insert_eq. intros [= <-] [Hin|Hin]%elem_of_app.
    + left. destruct (sv_back_invalidation_queue s !! line) as [es'|]; [eauto|by apply elem_of_nil in Hin].
    + right. apply list_elem_of_singleton in Hin as ->. done.
  - rewrite lookup_insert_ne by done. eauto.
Qed.

Lemma register_all_more threads line t dirty ts s :
  is_u64 (Z.of_nat (length dirty)) → queued_more line ts s (register_all threads line t dirty ts s).
Proof.
  intros Hn. unfold register_all. generalize (elements threads). intros l. revert s. induction l as [|x l IH]; intros s; simpl; [apply queued_more_refl|].
  destruct (x =? t); [apply IH|]. eapply queued_more_trans; [by apply register_more|apply IH].
Qed.

Lemma after_write_ok env t req threads s :
  shm_inv (sv_shm s) → is_u64 (rq_addr req) → is_u64 (rq_size req) →
  ∃ s' m, after_write env t req threads s = Some s' ∧ kept (sv_shm s) m ∧ (∀ o, mem m o = mem (sv_shm s) o) ∧
    queued_more (cl_align (rq_addr req)) (rq_timestamp req) (set_shm m s) s'.
Proof.
  intros Hi Ha Hn. unfold after_write. destruct (flush_cacheline (sv_shm s) (rq_addr req) (rq_size req)) as [ok m1] eqn:Ef.
  apply flush_kept in Ef as [K1 M1]; [|done]. cbn [snd].
  destruct (read_cacheline m1 (rq_addr req) (rq_size req)) as [r2 m2] eqn:E2.
  apply read_cacheline_ok in E2 as (Hnf2 & K2 & M2 & _); [|apply K1|done|done].
  pose proof (kept_trans _ _ _ K1 K2) as K12.
  assert (∀ o, mem m2 o = mem (sv_shm s) o) as M12 by (intros o; by rewrite M2).
  destruct r2 as [bs2| |]; [| |done]; (destruct (decide (threads = ∅));
    [exists (set_shm m2 s), m2; refine (conj _ (conj _ (conj _ _))); [done|done|done|apply queued_more_refl]|];
    destruct (read_cacheline m2 (rq_addr req) (rq_size req)) as [r3 m3] eqn:E3;
    apply read_cacheline_ok in E3 as (Hnf3 & K3 & M3 & B3); [|apply K2|done|done];
    destruct r3 as [bs3| |]; [| |done]; (eexists _, m3; refine (conj _ (conj _ (conj _ _)));
    [done|by eapply kept_trans|intros o; by rewrite M3|apply register_all_more;
     first [rewrite length_resize|rewrite (proj2 (B3 _ eq_refl)), get_length]; by rewrite Z2Nat.id by apply Hn])).
Qed.

Lemma handle_write_ok env t req base s :
  server_inv s → 0 <= t → wf_request req → 1 <= rq_size req <= 64 → (timely = true → in_order s req) →
  ∃ resp s', handle_write env t req base s = Some (resp, s') ∧ handled 1 s s' ∧
    let bs := take (Z.to_nat (rq_size req)) (rq_data req) in
    if sr_status resp =? 0 then stored (rq_addr req) bs s s' else stored_part (rq_addr req) bs s s'.
Proof.
  intros Hi Ht (Ha & Hn & Hd) Hsz Ho. unfold handle_write. set (line := cl_align (rq_addr req)).
  destruct (fetch_metadata_ok line s Hi) as [Hf Hl]. set (s1 := set_shm (get_cacheline_metadata (sv_shm s) line) s) in *.
  set (i := metadata_of (sv_shm s1) line).
  assert (line_ok i) as Hio by apply (si_lines s1 (hd_inv _ _ _ Hf)).
  pose proof (handle_write_coherency_ok (ev_now_write env) t i (sv_stats s1) Ht Hio) as (Hi1 & Hl1 & _).
  destruct (handle_write_coherency (ev_now_write env) t i (sv_stats s1)) as [i1 st]. cbn [fst] in Hi1, Hl1.
  set (bs := take (Z.to_nat (rq_size req)) (rq_data req)).
  assert (Z.of_nat (length bs) = rq_size req) as Hbl by (unfold bs; rewrite length_take; lia).
  destruct (write_cacheline (sv_shm s1) (rq_addr req) bs) as [r m] eqn:Ew.
  apply write_cacheline_ok in Ew as (Hnf & Hk & _ & k & Hkl & Hkd & Hmem); [|apply Hf|done|by rewrite Hbl].
  assert (∀ i s' m', line_ok i → (timely = true → last_access (sv_shm s) line <= cm_last_access_time i) → kept m m' → sv_shm s' = put_metadata line i m' →
    sv_pool s' = sv_pool s → sv_active_requests s' = sv_active_requests s →
    (∀ a es e, sv_back_invalidation_queue s' !! a = Some es → e ∈ es →
      (∃ es', sv_back_invalidation_queue s !! a = Some es' ∧ e ∈ es') ∨
      a = line ∧ is_u64 (Z.of_nat (length (be_dirty_data e))) ∧ be_timestamp e <= cm_last_access_time i) →
    handled 0 s s') as Hput.
  { intros i' s' m' Hok Hli Hk' E1 E2 E4 Hq. pose proof (kept_trans _ _ _ Hk Hk') as Hkk.
    split; [|by rewrite E1; simpl; rewrite (kp_header _ _ Hkk)|lia].
    apply (put_info_inv line i' m' s1 s' (hd_inv _ _ _ Hf)); [apply Hkk|intros a; by apply kept_metadata|done| |done|done|].
    - unfold last_access in *. by rewrite Hl.
    - exact Hq. }
  destruct r as [u| |]; [|eexists _, _; split; [done|]|done].
  - destruct (after_write_ok env t req (threads_to_invalidate t i) (set_stats st (set_shm m s1)) (kp_inv _ _ Hk) Ha Hn)
      as (s2 & m2 & -> & Hk2 & Hm2 & (Q1 & Q2 & Q3 & Q4)). cbn [mbind option_bind].
    eexists _, _. split; [by rewrite <- surjective_pairing|]. set (s4 := put_info line _ _).
    destruct (served_core env base (write_miss t i) (rq_size req) zero_data s4) as (Hc & Hst & _ & Hact).
    split.
    + eapply handled_core; [|exact Hc|exact Hact]. apply (Hput (with_time (rq_timestamp req) i1) s4 m2); try done.
      * simpl. by rewrite Q1.
      * simpl. intros a es e He Hin. destruct (Q4 a es e He Hin) as [?|(-> & Hu & ->)]; [by left|by right].
    + cbn zeta. rewrite Hst, Z.eqb_refl. intros o Hpos. rewrite (proj1 Hc). simpl. rewrite Q1. transitivity (mem m2 o); [done|]. rewrite Hm2. simpl. rewrite Hmem by done.
      rewrite (Hkd eq_refl), firstn_all. done.
  - split.
    + eapply (handled_core 1); [apply (Hput i1 (put_info line i1 (set_stats st (set_shm m s1))) m); try done|by split_and!|done].
      * intros _. rewrite Hl1. unfold last_access. by rewrite <- Hl.
      * by apply kept_refl, Hk.
      * simpl. eauto.
    + exists k. split; [done|]. intros o Hpos. apply Hmem. done.
Qed.

(** A line that a thread takes over, after an access that kept the metadata. *)
Lemma take_over_ok line i m s :
  server_inv s → kept (sv_shm (set_shm (get_cacheline_metadata (sv_shm s) line) s)) m → line_ok i →
  (timely = true → last_access (sv_shm s) line <= cm_last_access_time i) → handled 0 s (put_info line i (set_shm m s)).
Proof.
  intros Hi Hk Hok Ht. destruct (fetch_metadata_ok line s Hi) as [Hf Hl]. split; [|by simpl; rewrite (kp_header _ _ Hk)|simpl; lia].
  eapply (put_info_inv line i m _ _ (hd_inv _ _ _ Hf)); [apply Hk|intros a; by apply kept_metadata|done| |done|done|].
  - unfold last_access in *. by rewrite Hl.
  - simpl. eauto.
Qed.

(** The memory is replaced by one that kept the metadata. *)
Lemma replace_shm_ok line m s :
  server_inv s → kept (sv_shm (set_shm (get_cacheline_metadata (sv_shm s) line) s)) m → handled 0 s (set_shm m s).
Proof.
  intros Hi Hk. destruct (fetch_metadata_ok line s Hi) as [Hf Hl]. split; [|by simpl; rewrite (kp_header _ _ Hk)|simpl; lia].
  destruct (hd_inv _ _ _ Hf) as [I1 I2 I3 I4]. split; [apply Hk|done| |].
  - intros a. simpl. rewrite (kept_metadata _ _ a Hk). apply I3.
  - intros a es e He Hin. unfold entry_ok, last_access. simpl. rewrite (kept_metadata _ _ a Hk). by eapply I4.
Qed.

Definition atomic_op (req : ServerRequest) : Z → option Z :=
  if rq_op_type req =? OP_ATOMIC_FAA then λ old, Some (old +w rq_value req)
  else λ old, if old =? rq_expected req then Some (rq_value req) else None.

Lemma atomic_done_ok env base extra old line i m s s4 :
  server_inv s → kept (get_cacheline_metadata (sv_shm s) line) m → line_ok i → (timely = true → last_access (sv_shm s) line <= cm_last_access_time i) →
  same_core (put_info line i (set_shm m s)) s4 → sv_active_requests s4 = sv_active_requests s →
  let r := atomic_served env base extra old s4 in
  handled 1 s r.2 ∧ sr_status r.1 = 0 ∧ sr_old_value r.1 = old ∧ ∀ o, mem (sv_shm r.2) o = mem m o.
Proof.
  intros Hi Hk Hok Ht Hc4 Ha4. destruct (atomic_served_core env base extra old s4) as (Hc & Hst & Hold & Hact).
  refine (conj _ (conj Hst (conj Hold _))); [|intros o; by rewrite (proj1 Hc), (proj1 Hc4)].
  eapply handled_core; [|exact Hc|exact Hact]. apply (handled_core 0 s (put_info line i (set_shm m s))); [|done|simpl; lia].
  by apply take_over_ok.
Qed.

Lemma atomic_refused_ok line a f m s :
  server_inv s → kept (get_cacheline_metadata (sv_shm s) line) m → rmw_result (get_cacheline_metadata (sv_shm s) line) m a f Refused →
  let s' := leave (set_shm m (set_shm (get_cacheline_metadata (sv_shm s) line) s)) in
  handled 1 s s' ∧ ∃ v, stored_part a (le_encode 8 v) s s'.
Proof.
  intros Hi Hk (v & k & Hkl & _ & Hm). split; [|exists v, k; split; [done|exact Hm]].
  eapply (handled_core 1); [by apply (replace_shm_ok line m s)|by split_and!|done].
Qed.

(** What an atomic returns and stores. *)
Definition atomic_effect (req : ServerRequest) (resp : ServerResponse) (s s' : Server) : Prop :=
  if sr_status resp =? 0 then
    sr_old_value resp = word (sv_shm s) (rq_addr req) ∧
    match atomic_op req (word (sv_shm s) (rq_addr req)) with
    | Some v => stored (rq_addr req) (le_encode 8 v) s s'
    | None => same_mem s s'
    end
  else ∃ v, stored_part (rq_addr req) (le_encode 8 v) s s'.

Lemma faa_body_ok env t req base s :
  server_inv s → 0 <= t → is_u64 (rq_addr req) → (timely = true → in_order s req) → rq_op_type req = OP_ATOMIC_FAA →
  ∃ resp s', atomic_body env t req base s = Some (resp, s') ∧ handled 1 s s' ∧ atomic_effect req resp s s'.
Proof.
  intros Hi Ht Ha Ho Hop. unfold atomic_body, atomic_effect, atomic_op. set (line := cl_align (rq_addr req)).
  destruct (fetch_metadata_ok line s Hi) as [Hf Hl]. set (s1 := set_shm (get_cacheline_metadata (sv_shm s) line) s) in *.
  rewrite Hop. simpl (OP_ATOMIC_FAA =? _). cbn iota. destruct (atomic_fetch_add_uint64 _ _ _) as [r m] eqn:Er.
  apply atomic_rmw_ok in Er as [Hk Hr]; [|apply Hf|done]. destruct r as [old| |]; [| |done].
  - destruct Hr as [-> Hm]. eexists _, _. split; [by rewrite <- surjective_pairing|]. set (s4 := inc _ _ _).
    destruct (atomic_done_ok env base 20 (word (sv_shm s1) (rq_addr req)) line
      (owned t (rq_timestamp req) (metadata_of (sv_shm s1) line)) m s s4) as (Hh & Hst & Hold & Hmm); try done.
    split; [exact Hh|]. rewrite Hst, Hold, Z.eqb_refl. split; [done|]. intros o Hpos. rewrite Hmm. by apply Hm.
  - destruct (atomic_refused_ok line _ _ m s Hi Hk Hr) as [Hh He]. eexists _, _. split; [done|]. by split.
Qed.

Lemma cas_body_ok env t req base s :
  server_inv s → 0 <= t → is_u64 (rq_addr req) → (timely = true → in_order s req) → rq_op_type req = OP_ATOMIC_CAS →
  ∃ resp s', atomic_body env t req base s = Some (resp, s') ∧ handled 1 s s' ∧ atomic_effect req resp s s'.
Proof.
  intros Hi Ht Ha Ho Hop. unfold atomic_body, atomic_effect, atomic_op. set (line := cl_align (rq_addr req)).
  destruct (fetch_metadata_ok line s Hi) as [Hf Hl]. set (s1 := set_shm (get_cacheline_metadata (sv_shm s) line) s) in *.
  rewrite Hop. simpl (OP_ATOMIC_CAS =? _). cbn iota. destruct (atomic_compare_exchange_uint64 _ _ _ _) as [r m] eqn:Er.
  apply atomic_rmw_ok in Er as [Hk Hr]; [|apply Hf|done]. destruct r as [old| |]; [| |done].
  - destruct Hr as [-> Hm]. eexists _, _. split; [by rewrite <- surjective_pairing|]. set (s4 := inc _ _ _).
    pose proof (si_lines s1 (hd_inv _ _ _ Hf) line) as Hio.
    destruct (atomic_done_ok env base 20 (word (sv_shm s1) (rq_addr req)) line
      (if word (sv_shm s1) (rq_addr req) =? rq_expected req then owned t (rq_timestamp req) (metadata_of (sv_shm s1) line)
       else with_time (rq_timestamp req) (metadata_of (sv_shm s1) line)) m s s4) as (Hh & Hst & Hold & Hmm).
    1,2: done.
    1-4: by unfold s4; destruct (word (sv_shm s1) (rq_addr req) =? rq_expected req).
    split; [exact Hh|]. rewrite Hst, Hold, Z.eqb_refl. split; [done|].
    change (word (sv_shm s) (rq_addr req)) with (word (sv_shm s1) (rq_addr req)).
    destruct (_ =? rq_expected req); intros o Hpos; rewrite Hmm; by apply Hm.
  - destruct (atomic_refused_ok line _ _ m s Hi Hk Hr) as [Hh He]. eexists _, _. split; [done|]. by split.
Qed.

Lemma fence_body_ok env t req base s :
  server_inv s → rq_op_type req = OP_FENCE →
  ∃ resp s', atomic_body env t req base s = Some (resp, s') ∧ handled 1 s s' ∧ same_mem s s'.
Proof.
  intros Hi Hop. unfold atomic_body. set (line := cl_align (rq_addr req)).
  destruct (fetch_metadata_ok line s Hi) as [Hf Hl]. set (s1 := set_shm (get_cacheline_metadata (sv_shm s) line) s) in *.
  rewrite Hop. simpl (OP_FENCE =? _). cbn iota. destruct (flush (sv_shm s1)) as [ok m] eqn:Ef. cbn [snd].
  apply flush_kept in Ef as [Hk Hm]; [|apply Hf]. eexists _, _. split; [by rewrite <- surjective_pairing|].
  set (s4 := inc _ _ _). destruct (atomic_served_core env base 0 0 s4) as (Hc & _ & _ & Hact).
  split; [|intros o _; rewrite (proj1 Hc); apply Hm]. eapply handled_core; [|exact Hc|exact Hact].
  eapply (handled_core 0); [by apply (replace_shm_ok line m s)|by split_and!|simpl; lia].
Qed.

Lemma enter_ok s : server_inv s → handled (-1) s (enter s).
Proof. intros Hi. split; [by apply (same_core_inv s)|done|simpl; lia]. Qed.

Lemma set_pool_ok p s : server_inv s → pool_inv p → handled 0 s (set_pool p s).
Proof. intros [I1 I2 I3 I4] Hp. split; [by split|done|simpl; lia]. Qed.

Lemma core_ok s s' : server_inv s → same_core s s' → sv_active_requests s' = sv_active_requests s → handled 0 s s' ∧ same_mem s s'.
Proof.
  intros Hi Hc Ha. split; [|by intros o _; rewrite (proj1 Hc)]. split; [by apply (same_core_inv s)|by rewrite (proj1 Hc)|lia].
Qed.

Lemma clamped_size_bounds req : is_u64 (rq_size req) → 1 <= clamped_size req <= 64.
Proof. unfold clamped_size, SHM_CACHELINE_SIZE, is_u64. intros Hn. destruct (_ || _) eqn:E; lia. Qed.

(** Lines that are registered without data. *)
Lemma invalidate_lines_ok fuel line end_ t ts n s k s' :
  server_inv s → invalidate_lines fuel line end_ t ts n s = Some (k, s') → handled 0 s s' ∧ sv_shm s' = sv_shm s.
Proof.
  revert line n s. induction fuel as [|fuel IH]; intros line n s Hi; cbn [invalidate_lines];
    (destruct (line <? end_); [|intros [= _ <-]; split; [split; [done|done|lia]|done]]); [done|].
  intros Hr. apply IH in Hr as [Hh Hs].
  - split; [|done]. destruct Hh as [A1 A2 A3]. by split.
  - destruct Hi as [I1 I2 I3 I4]. split; [done|done|done|]. simpl. intros a es e He Hin.
    destruct (decide (a = line)) as [->|Hne]; [|rewrite lookup_insert_ne in He by done; by eapply I4].
    rewrite lookup_insert_eq in He. injection He as <-. apply elem_of_app in Hin as [Hin|Hin].
    + destruct (sv_back_invalidation_queue s !! line) as [es'|] eqn:Eq; [by eapply I4|by apply elem_of_nil in Hin].
    + apply list_elem_of_singleton in Hin as ->. done.
Qed.

Lemma bi_writeback_ok t req s :
  server_inv s → 0 <= t → wf_request req → (timely = true → in_order s req) →
  ∃ resp s', bi_writeback t req s = Some (resp, s') ∧ handled 0 s s' ∧
    let bs := take (Z.to_nat (clamped_size req)) (rq_data req) in
    if sr_status resp =? 0 then stored (rq_addr req) bs s s' else stored_part (rq_addr req) bs s s'.
Proof.
  intros Hi Ht (Ha & Hn & Hd) Ho. unfold bi_writeback.
  assert (Z.min (if rq_size req =? 0 then SHM_CACHELINE_SIZE else rq_size req) 64 = clamped_size req) as ->.
  { unfold clamped_size, SHM_CACHELINE_SIZE in *. pose proof (proj1 Hn). destruct (_ =? 0) eqn:E1, (64 <? _) eqn:E2; simpl; lia. }
  pose proof (clamped_size_bounds req Hn) as Hsz. set (line := cl_align (rq_addr req)).
  set (bs := take (Z.to_nat (clamped_size req)) (rq_data req)).
  destruct (negb (range_valid _ _ _)).
  { eexists _, _. split; [done|]. split; [split; [done|done|lia]|]. exists 0%nat. split; [lia|]. done. }
  destruct (fetch_metadata_ok line s Hi) as [Hf Hl].
  assert (Z.of_nat (length bs) = clamped_size req) as Hbl by (unfold bs; rewrite length_take; lia).
  destruct (write_cacheline _ (rq_addr req) bs) as [r m] eqn:Ew.
  apply write_cacheline_ok in Ew as (Hnf & Hk & _ & k & Hkl & Hkd & Hmem); [|apply Hf|done|rewrite Hbl; unfold is_u64; lia].
  destruct r as [u| |]; [|eexists _, _; split; [done|]; split; [by apply (replace_shm_ok line m s)|by exists k]|done].
  set (i := owned t (rq_timestamp req) (metadata_of (get_cacheline_metadata (sv_shm s) line) line)).
  pose proof (take_over_ok line i m s Hi Hk (owned_ok _ _ _ Ht) Ho) as Htk.
  destruct (flush_cacheline (put_metadata line i m) _ _) as [ok m2] eqn:Ef.
  apply flush_kept in Ef as [Hk2 Hm2]; [|apply (si_shm _ (hd_inv _ _ _ Htk))].
  eexists _, _. split; [done|]. split.
  - destruct (register_more line t bs (rq_timestamp req) (set_shm m2 s)) as (Q1 & Q2 & Q3 & Q4); [rewrite Hbl; unfold is_u64; lia|]. destruct Htk as [[I1 I2 I3 I4] A2 A3].
    split; [|by simpl; rewrite (kp_header _ _ Hk2)|done]. split; [apply Hk2|done| |].
    + intros a. simpl. rewrite (kept_metadata _ _ a Hk2). apply I3.
    + intros a es e He Hin. unfold entry_ok, last_access. simpl. rewrite (kept_metadata _ _ a Hk2).
      destruct (Q4 a es e He Hin) as [(es' & He' & Hin')|(-> & Hu & ->)]; [by apply (I4 a es' e He' Hin')|].
      rewrite metadata_of_put, decide_True by done. done.
  - simpl. intros o Hpos. rewrite Hm2. transitivity (mem m o); [done|]. rewrite Hmem, (Hkd eq_refl), firstn_all by done. done.
Qed.

Lemma check_fabric_ok t req w a s r p :
  server_inv s → check_fabric_access t req w a (sv_pool s) = (r, p) → handled 0 s (set_pool p s).
Proof. intros Hi Hc. apply set_pool_ok; [done|]. change p with (r, p).2. rewrite <- Hc. apply access_inv, Hi. Qed.

Lemma unchanged_part a bs s s' : same_mem s s' → stored_part a bs s s'.
Proof. intros Hm. exists 0%nat. split; [lia|]. intros o Ho. by apply Hm. Qed.

(** A request for memory returns; it reads or stores only what it may access. *)
Lemma memory_request_ok env t req s :
  server_inv s → 0 <= t → wf_request req → (timely = true → in_order s req) →
  ∃ resp s', handle_memory_request env t req s = Some (resp, s') ∧ handled 0 s s' ∧
    (sr_status resp = 0 → authorised (sv_pool s) t (rq_addr req) (clamped_size req) (rq_op_type req =? OP_WRITE) false) ∧
    let n := Z.to_nat (clamped_size req) in let bs := take n (rq_data req) in
    if rq_op_type req =? OP_READ then
      timely = true →
      same_mem s s' ∧ (sr_status resp = 0 → take n (sr_data resp) = get (offset_of (sv_shm s)) (rq_addr req) n (mem (sv_shm s)))
    else if sr_status resp =? 0 then stored (rq_addr req) bs s s' else stored_part (rq_addr req) bs s s'.
Proof.
  intros Hi Ht (Ha & Hn & Hd) Ho. unfold handle_memory_request. pose proof (clamped_size_bounds req Hn) as Hsz.
  set (req1 := if _ || _ then set_size SHM_CACHELINE_SIZE req else req).
  assert (rq_size req1 = clamped_size req ∧ rq_addr req1 = rq_addr req ∧ rq_op_type req1 = rq_op_type req ∧
    rq_data req1 = rq_data req ∧ rq_timestamp req1 = rq_timestamp req) as (E1 & E2 & E3 & E4 & E5).
  { unfold req1, clamped_size. by destruct (_ || _). }
  assert (is_u64 (clamped_size req)) as Hcu by (unfold is_u64; lia).
  destruct (check_fabric_access t req1 _ false (sv_pool s)) as [access p] eqn:Ec.
  pose proof (check_fabric_ok _ _ _ _ s _ _ Hi Ec) as Hp.
  destruct access as [lat|st].
  - apply check_authorised in Ec; [|apply Hi|by split; rewrite ?E1, ?E2]. rewrite E1, E2, E3 in *.
    destruct (negb (range_valid _ _ _)).
    { eexists _, _. split; [done|]. split; [done|]. split; [done|]. destruct (_ =? OP_READ); [done|]. by apply unchanged_part. }
    pose proof (handled_trans _ _ _ _ _ Hp (enter_ok _ (hd_inv _ _ _ Hp))) as He.
    assert (timely = true → in_order (enter (set_pool p s)) req1) as Ho1 by (unfold in_order; by rewrite E2, E5).
    destruct (rq_op_type req =? OP_READ) eqn:Eop.
    + destruct (handle_read_ok env t req1 (cp_dramlatency (sv_pool (set_pool p s)) + lat)%f64 _ (hd_inv _ _ _ He) Ht)
        as (resp & s' & -> & Hh & Hm); [by rewrite E2|by rewrite E1|done|].
      exists resp, s'. split; [done|]. split; [apply (handled_trans _ _ _ _ _ He Hh)|]. split; [done|].
      cbn zeta. rewrite <- E1, <- E2. exact Hm.
    + destruct (handle_write_ok env t req1 (cp_dramlatency (sv_pool (set_pool p s)) + lat)%f64 _ (hd_inv _ _ _ He) Ht)
        as (resp & s' & -> & Hh & Hm); [by split_and!; rewrite ?E1, ?E2, ?E4|by rewrite E1|done|].
      exists resp, s'. split; [done|]. split; [apply (handled_trans _ _ _ _ _ He Hh)|]. split; [done|].
      cbn zeta. rewrite <- E1, <- E2, <- E4. exact Hm.
  - apply check_refused in Ec. eexists _, _. split; [done|]. split; [done|]. cbn [sr_status denied response]. split; [done|].
    rewrite (proj2 (Z.eqb_neq _ _) Ec). destruct (_ =? OP_READ); [done|]. by apply unchanged_part.
Qed.

Lemma atomic_request_ok env t req s :
  server_inv s → 0 <= t → wf_request req → (timely = true → in_order s req) → is_atomic_op (rq_op_type req) = true →
  ∃ resp s', handle_atomic_request env t req s = Some (resp, s') ∧ handled 0 s s' ∧
    if rq_op_type req =? OP_FENCE then same_mem s s' else atomic_effect req resp s s'.
Proof.
  intros Hi Ht (Ha & Hn & Hd) Ho Hop. unfold handle_atomic_request. pose proof (enter_ok s Hi) as He.
  destruct (rq_op_type req =? OP_FENCE) eqn:Ef; btests.
  { destruct (fence_body_ok env t req (cp_dramlatency (sv_pool s) + f64_of_Z 20)%f64 _ (hd_inv _ _ _ He) Ef) as (resp & s' & -> & Hh & Hm).
    exists resp, s'. split; [done|]. split; [apply (handled_trans _ _ _ _ _ He Hh)|done]. }
  set (req1 := if _ || _ then set_size 8 req else req).
  assert (rq_addr req1 = rq_addr req ∧ rq_op_type req1 = rq_op_type req ∧ rq_timestamp req1 = rq_timestamp req ∧
    atomic_effect req1 = atomic_effect req) as (E2 & E3 & E5 & E6) by (unfold req1; by destruct (_ || _)).
  destruct (check_fabric_access t req1 true true _) as [access p] eqn:Ec.
  pose proof (handled_trans _ _ _ _ _ He (check_fabric_ok _ _ _ _ _ _ _ (hd_inv _ _ _ He) Ec)) as Hp.
  assert (handled 0 s (leave (set_pool p (enter s)))) as Hleave.
  { destruct Hp as [A1 A2 A3]. split; [by apply (same_core_inv (set_pool p (enter s)))|done|simpl; lia]. }
  assert (∃ v, stored_part (rq_addr req) (le_encode 8 v) s (leave (set_pool p (enter s)))) as Hun.
  { exists 0. by apply unchanged_part. }
  destruct access as [lat|st].
  - destruct (negb (range_valid _ _ _)); [eexists _, _; split; [done|]; split; [done|]; exact Hun|].
    assert (timely = true → in_order (set_pool p (enter s)) req1) as Ho1 by (unfold in_order; by rewrite E2, E5).
    set (base := (cp_dramlatency (sv_pool s) + f64_of_Z 20 + lat)%f64).
    assert (∃ resp s', atomic_body env t req1 base (set_pool p (enter s)) = Some (resp, s') ∧
      handled 1 (set_pool p (enter s)) s' ∧ atomic_effect req1 resp (set_pool p (enter s)) s') as (resp & s' & -> & Hh & Hm).
    { destruct (rq_op_type req =? OP_ATOMIC_FAA) eqn:E; btests.
      - apply faa_body_ok; [apply Hp|done|by rewrite E2|done|by rewrite E3].
      - apply cas_body_ok; [apply Hp|done|by rewrite E2|done|]. rewrite E3. unfold is_atomic_op, OP_ATOMIC_FAA, OP_ATOMIC_CAS, OP_FENCE in *. lia. }
    exists resp, s'. split; [done|]. split; [apply (handled_trans _ _ _ _ _ Hp Hh)|]. rewrite <- E6. exact Hm.
  - apply check_refused in Ec. eexists _, _. split; [done|]. split; [done|]. unfold atomic_effect. cbn [sr_status denied response].
    rewrite (proj2 (Z.eqb_neq _ _) Ec). exact Hun.
Qed.

Lemma range_ok env t req s resp s' :
  server_inv s → handle_range env t req s = Some (resp, s') → handled 0 s s' ∧ same_mem s s'.
Proof.
  intros Hi. unfold handle_range. destruct (rq_size req =? 0); [intros [= _ <-]; by apply core_ok|].
  destruct (check_fabric_access _ _ _ _ _) as [access p] eqn:Ec. pose proof (check_fabric_ok _ _ _ _ s _ _ Hi Ec) as Hp.
  destruct access as [lat|st]; [|intros [= _ <-]; by split].
  unfold congested_latency. destruct (calculate_congestion_factor (ev_now env) (enter (set_pool p s))) as [fac s2] eqn:Ef.
  intros [= _ <-].
  assert (same_core (set_pool p s) s2 ∧ sv_active_requests s2 = sv_active_requests s + 1) as [Hc Ha].
  { apply (f_equal snd) in Ef. unfold calculate_congestion_factor in Ef. cbn [snd] in Ef. subst s2. by destruct (1000 <? _). }
  split; [|intros o _; simpl; by rewrite (proj1 Hc)].
  eapply (handled_core 0); [exact Hp|exact Hc|]. simpl. lia.
Qed.

Lemma lsa_ok env req s resp s' :
  server_inv s → lsa_read req s = Some (resp, s') ∨ lsa_write env req s = Some (resp, s') → handled 0 s s' ∧ same_mem s s'.
Proof.
  intros Hi. unfold lsa_read, lsa_write. intros [Hr|Hr].
  - destruct (_ <=? sv_lsa_size s); [destruct (_ && _); [done|]|]; injection Hr as _ <-; by apply core_ok.
  - destruct (_ && negb _); [done|]. destruct (_ && _); [done|]. injection Hr as _ <-. by apply core_ok.
Qed.

Lemma bi_passive_ok env t req s resp s' :
  server_inv s → rq_op_type req ≠ OP_BI_WRITEBACK → handle_bi_request env t req s = Some (resp, s') →
  handled 0 s s' ∧ same_mem s s'.
Proof.
  intros Hi Hop. unfold handle_bi_request. destruct (_ =? OP_BI_ENABLE); [intros [= _ <-]; by apply core_ok|].
  destruct (_ =? OP_BI_DISABLE); [intros [= _ <-]; by apply core_ok|].
  destruct (_ =? OP_BI_INVALIDATE).
  - unfold bi_invalidate. destruct (_ <? rq_addr req); [intros [= _ <-]; by apply core_ok|].
    destruct (invalidate_lines _ _ _ _ _ _ _) as [[k s1]|] eqn:El; [|done]. intros [= _ <-].
    apply invalidate_lines_ok in El as [Hh Hs]; [|done]. split; [|intros o _; simpl; by rewrite Hs].
    eapply (handled_core 0); [exact Hh|by split_and!|simpl; lia].
  - rewrite (proj2 (Z.eqb_neq _ _) Hop). destruct (_ =? OP_BI_QUERY); intros [= _ <-]; by apply core_ok.
Qed.

(** Every request keeps the invariant and has its effect on the memory; a read applies
    the pending entries of its line, which change nothing when the timestamps do not
    go back. *)
Lemma request_ok env t req s resp s' :
  server_inv s → 0 <= t → wf_request req → (timely = true → in_order s req) → handle_request env t req s = Some (resp, s') →
  handled 0 s s' ∧ ((rq_op_type req = OP_READ → timely = true) → mem_effect req resp s s').
Proof.
  intros Hi Ht Hw Ho. unfold handle_request, mem_effect. set (op := rq_op_type req).
  destruct (is_atomic_op op) eqn:Eat.
  { destruct (atomic_request_ok env t req s Hi Ht Hw Ho Eat) as (resp1 & s1 & -> & Hh & Hm). intros [= <- <-]. split; [done|]. intros _.
    fold op in Hm. unfold is_atomic_op in Eat. destruct (op =? OP_FENCE) eqn:Ef; [apply Z.eqb_eq in Ef; by rewrite Ef|].
    unfold atomic_effect, atomic_op in Hm. fold op in Hm.
    destruct (op =? OP_ATOMIC_FAA) eqn:E1; [apply Z.eqb_eq in E1; rewrite E1; exact Hm|].
    destruct (op =? OP_ATOMIC_CAS) eqn:E2; [|done]. apply Z.eqb_eq in E2. rewrite E2. simpl. destruct (_ =? 0); [|done].
    by destruct (_ =? rq_expected req). }
  destruct (is_capacity_management_op op) eqn:Ecap.
  { destruct (handle_capacity_management_request _ _ _ _) as [r p] eqn:Ec. intros [= _ <-].
    assert (is_passive_op op = true) as -> by (unfold is_passive_op; rewrite Ecap; by rewrite orb_true_r).
    split; [|done]. apply set_pool_ok; [done|]. change p with (r, p).2. rewrite <- Ec. destruct Hw as (Ha & Hn & _).
    apply manage_inv; [apply Hi|by split]. }
  destruct (is_bi_op op) eqn:Ebi.
  { destruct (decide (op = OP_BI_WRITEBACK)) as [Ewb|Hne].
    - unfold handle_bi_request. fold op. rewrite Ewb. simpl (OP_BI_WRITEBACK =? _). cbn iota.
      destruct (bi_writeback_ok t req s Hi Ht Hw Ho) as (resp1 & s1 & -> & Hh & Hm). intros [= <- <-]. by split.
    - intros Hr. apply bi_passive_ok in Hr as [Hh Hm]; [|done|done]. split; [done|].
      assert (is_passive_op op = true) as ->; [|done].
      unfold is_bi_op in Ebi. unfold is_passive_op. rewrite !orb_true_iff in *. rewrite !Z.eqb_eq in *. tauto. }
  destruct ((op =? OP_RANGE_READ) || (op =? OP_RANGE_WRITE)) eqn:Er.
  { intros Hr. apply range_ok in Hr as [Hh Hm]; [|done]. split; [done|].
    assert (is_passive_op op = true) as ->; [|done]. unfold is_passive_op. rewrite !orb_true_iff in *. tauto. }
  destruct (op =? OP_LSA_READ) eqn:El1; [|destruct (op =? OP_LSA_WRITE) eqn:El2].
  - intros Hr. destruct (lsa_ok env req s resp s' Hi (or_introl Hr)) as [Hh Hm]. split; [done|]. apply Z.eqb_eq in El1. by rewrite El1.
  - intros Hr. destruct (lsa_ok env req s resp s' Hi (or_intror Hr)) as [Hh Hm]. split; [done|]. apply Z.eqb_eq in El2. by rewrite El2.
  - destruct (memory_request_ok env t req s Hi Ht Hw Ho) as (resp1 & s1 & -> & Hh & _ & Hm). intros [= <- <-]. split; [done|]. intros Hrd. fold op in Hm, Hrd.
    unfold is_atomic_op, is_bi_op in Eat, Ebi. btests.
    assert (is_passive_op op = false) as -> by (unfold is_passive_op; rewrite Ecap; by rewrite !orb_false_iff, !Z.eqb_neq).
    destruct (op =? OP_READ) eqn:Erd; [apply Hm, Hrd; by apply Z.eqb_eq|]. by rewrite !(proj2 (Z.eqb_neq _ _)) by done.
Qed.
End handlers.

(** ** Histories *)

Lemma server_new_inv m p t now :
  shm_inv m → sm_metadata_cache m = ∅ → pool_inv p → server_inv (Server_new m p t now).
Proof.
  intros Hm Hc Hp. split; [done|done| |done]. intros a. unfold metadata_of. simpl. rewrite Hc. apply new_line_ok.
Qed.

(** A request of a client.  [server_step false] is any request; with
    [server_step true] the timestamps of the requests for a line do not go back,
    which the server does not check. *)
Inductive server_step `{CastUB} (s : Server) : Server → Prop :=
  | server_request_step env t req resp s' :
      0 <= t → wf_request req → (timely = true → in_order s req) → handle_request env t req s = Some (resp, s') → server_step s s'.

Lemma server_steps_handled `{CastUB} s s' : rtc server_step s s' → server_inv s → handled 0 s s'.
Proof.
  induction 1 as [s|s1 s2 s3 [env t req resp s2' Ht Hw Ho Hr] _ IH]; intros Hi; [split; [done|done|lia]|].
  destruct (request_ok env t req s1 resp s2' Hi Ht Hw Ho Hr) as [Hh _].
  apply (handled_trans 0 0 _ _ _ Hh). apply IH, Hh.
Qed.
End histories.

(** A request that stores nothing: reads and the passive operations. *)
Inductive reading_step `{CastUB} (s : Server) : Server → Prop :=
  | server_reading_step env t req resp s' :
      0 <= t → wf_request req → in_order s req → is_passive_op (rq_op_type req) || (rq_op_type req =? OP_READ) = true →
      handle_request env t req s = Some (resp, s') → reading_step s s'.

Lemma reading_steps_ok `{CastUB} s s' : rtc reading_step s s' → server_inv true s → handled true 0 s s' ∧ same_mem s s'.
Proof.
  induction 1 as [s|s1 s2 s3 [env t req resp s2' Ht Hw Ho Hop Hr] _ IH]; intros Hi; [split; [split; [done|done|lia]|done]|].
  destruct (request_ok true env t req s1 resp s2' Hi Ht Hw (λ _, Ho) Hr) as [Hh Hm]. specialize (Hm (λ _, eq_refl)).
  destruct (IH (hd_inv _ _ _ _ Hh)) as [Hh2 Hm2]. split; [by apply (handled_trans _ 0 0 _ _ _ Hh)|].
  assert (same_mem s1 s2') as Hm1; [|intros o Hpos; by rewrite Hm2, Hm1].
  unfold mem_effect in Hm. destruct (is_passive_op _); [done|]. simpl in Hop. rewrite Hop in Hm. apply Hm.
Qed.

(** ** Lemmas: the rings *)

Lemma scan_one cid conn rings i r r1 q :
  rings !! i = Some r → conn !! i = Some true → take_request r = (Some q, r1) →
  (∀ j r', rings !! j = Some r' → j ≠ i → take_request r' = (None, r')) →
  scan_clients cid conn rings = (Some ((cid + i)%nat, q), <[i := r1]> rings).
Proof.
  revert cid rings i. induction conn as [|c conn IH]; intros cid [|r' rings] [|i]; simpl; try done.
  - intros [= ->] [= ->] Ht _. rewrite Ht. by rewrite Nat.add_0_r.
  - intros Hr Hc Ht Ho. rewrite (IH (S cid) rings i Hr Hc Ht) by (intros j r2 Hj Hne; apply (Ho (S j)); [done|lia]).
    replace (S cid + i)%nat with (cid + S i)%nat by lia. rewrite (Ho 0%nat r' eq_refl) by lia. by destruct c.
Qed.

(** ** Lemmas: the label storage area *)

Lemma store_bytes_before bs o d x : x < o → store_bytes bs o d !! x = d !! x.
Proof.
  revert o d. induction bs as [|b bs IH]; intros o d Hx; simpl; [done|]. rewrite IH by lia. by rewrite lookup_insert_ne by lia.
Qed.

Lemma load_store bs o d : load_bytes (length bs) o (store_bytes bs o d) = bs.
Proof.
  revert o d. induction bs as [|b bs IH]; intros o d; simpl; [done|]. rewrite IH. f_equal.
  rewrite store_bytes_before by lia. by rewrite lookup_insert_eq.
Qed.

(** ** Lemmas: the loop of OP_BI_INVALIDATE *)

(** Lines from [line] on that start below [end_]. *)
Definition lines_below (line end_ : Z) : Z := Z.max 0 ((end_ - line + 63) / 64).

Definition empty_entry (t ts a : Z) : BackInvalidationEntry :=
  {| be_cacheline_addr := a; be_source_thread_id := t; be_timestamp := ts; be_dirty_data := [] |}.

(** Away from the top of the address space the loop ends, and every line of the
    range has got an entry. *)
Lemma invalidate_lines_run fuel line end_ t ts n s :
  0 <= line → line mod 64 = 0 → end_ <= TWO64 - 64 → (Z.to_nat (lines_below line end_) ≤ fuel)%nat →
  ∃ s', invalidate_lines fuel line end_ t ts n s = Some (n + lines_below line end_, s') ∧
    ∀ a, sv_back_invalidation_queue s' !! a =
      if decide (line <= a < end_ ∧ a mod 64 = 0) then Some (default [] (sv_back_invalidation_queue s !! a) ++ [empty_entry t ts a])
      else sv_back_invalidation_queue s !! a.
Proof.
  revert line n s. induction fuel as [|fuel IH]; intros line n s H0 Hm He Hf; cbn [invalidate_lines];
    (destruct (line <? end_) eqn:El; btests;
     [|exists s; split; [do 2 f_equal; unfold lines_below; mlia|intros a; rewrite decide_False by lia; done]]);
    [unfold lines_below in Hf; mlia|].
  assert (lines_below line end_ = 1 + lines_below (line + 64) end_) as Hl by (unfold lines_below; mlia).
  unfold SHM_CACHELINE_SIZE. rewrite (u64_small (line + 64)) by mlia.
  destruct (IH (line + 64) (n + 1) (register_back_invalidation line t [] ts s)) as (s' & -> & Hq); [lia|mlia|done|unfold lines_below in *; mlia|].
  exists s'. split; [do 2 f_equal; lia|]. intros a. rewrite Hq. simpl.
  destruct (decide (a = line)) as [->|Hne].
  - rewrite decide_False by lia. rewrite decide_True by lia. by rewrite lookup_insert_eq.
  - rewrite lookup_insert_ne by done. destruct (decide (line + 64 <= a < end_ ∧ a mod 64 = 0)) as [Hd|Hd].
    + by rewrite decide_True by lia.
    + rewrite decide_False; [done|]. intros Hd'. apply Hd. mlia.
Qed.

(** When the range reaches into the last line, the line counter wraps to 0 and the
    loop never ends. *)
Lemma invalidate_lines_top fuel line end_ t ts n s :
  is_u64 line → line mod 64 = 0 → TWO64 - 64 < end_ < TWO64 → invalidate_lines fuel line end_ t ts n s = None.
Proof.
  revert line n s. induction fuel as [|fuel IH]; intros line n s Hu Hm He; cbn [invalidate_lines];
    (assert (line <? end_ = true) as -> by mlia); [done|]. apply IH; [apply u64_range|unfold SHM_CACHELINE_SIZE; mlia|done].
Qed.

(** ** Correctness *)

(** C6. Every request, by any client and after any history of requests, acts on the flat
    memory as its operation says: a write or a write-back that reports success
    stores exactly its bytes, a fetch-add and a compare-and-swap return the old word
    and store the new one, a failed request stores at most a part of its bytes, and
    every other operation leaves the memory alone.  A read that reports success
    returns the bytes of the memory and stores nothing, provided that no request of
    the history, the read included, is older than the last access of its line: the
    server does not check this, and without it a read applies stale back
    invalidations ([stale_back_invalidation]). *)
Theorem server_refines_memory `{CastUB} timely m p tree now s env t req resp s' :
  shm_inv m → sm_metadata_cache m = ∅ → pool_inv p → rtc (server_step timely) (Server_new m p tree now) s →
  (rq_op_type req = OP_READ → timely = true) →
  0 <= t → wf_request req → (timely = true → in_order s req) → handle_request env t req s = Some (resp, s') →
  mem_effect req resp s s'.
Proof.
  intros Hm Hc Hp Hr Hrd Ht Hw Ho Hq.
  pose proof (server_steps_handled _ _ _ Hr (server_new_inv timely m p tree now Hm Hc Hp)) as Hh.
  by apply (request_ok timely env t req s resp s' (hd_inv _ _ _ _ Hh)).
Qed.

(** C7. After any history of requests, with any timestamps, every cacheline has one
    writer or any number of readers: a modified line has an owner and no sharer, a
    shared line has sharers and no owner, and the exclusive state never occurs.  No
    request is left in the congestion count. *)
Theorem server_coherent `{CastUB} m p tree now s a :
  shm_inv m → sm_metadata_cache m = ∅ → pool_inv p → rtc (server_step false) (Server_new m p tree now) s →
  line_ok (metadata_of (sv_shm s) a) ∧ sv_active_requests s = 0.
Proof.
  intros Hm Hc Hp Hr. pose proof (server_steps_handled _ _ _ Hr (server_new_inv false m p tree now Hm Hc Hp)) as Hh.
  split; [apply (si_lines _ s (hd_inv _ _ _ _ Hh))|apply (hd_active _ _ _ _ Hh)].
Qed.

(** A write is read back by every client: after a write that reported success and any
    number of requests that store nothing, a read of the range that reports success
    returns the bytes of the write, when the timestamps of a line do not go back. *)
Theorem server_write_read `{CastUB} s0 s env t w resp s1 s2 env' t' r resp' s3 :
  server_inv true s0 → rtc (server_step true) s0 s →
  0 <= t → wf_request w → in_order s w → rq_op_type w = OP_WRITE → handle_request env t w s = Some (resp, s1) → sr_status resp = 0 →
  rtc reading_step s1 s2 →
  0 <= t' → wf_request r → in_order s2 r → rq_op_type r = OP_READ → rq_addr r = rq_addr w → clamped_size r = clamped_size w →
  handle_request env' t' r s2 = Some (resp', s3) → sr_status resp' = 0 →
  take (Z.to_nat (clamped_size w)) (sr_data resp') = take (Z.to_nat (clamped_size w)) (rq_data w).
Proof.
  intros Hi Hr Ht Hw Ho Hop Hq Hst Hrs Ht' Hw' Ho' Hop' Ha Hn Hq' Hst'.
  pose proof (server_steps_handled _ _ _ Hr Hi) as Hh.
  destruct (request_ok true env t w s resp s1 (hd_inv _ _ _ _ Hh) Ht Hw (λ _, Ho) Hq) as [Hh1 Hm1].
  destruct (reading_steps_ok _ _ Hrs (hd_inv _ _ _ _ Hh1)) as [Hh2 Hm2].
  destruct (request_ok true env' t' r s2 resp' s3 (hd_inv _ _ _ _ Hh2) Ht' Hw' (λ _, Ho') Hq') as [Hh3 Hm3].
  specialize (Hm1 (λ _, eq_refl)). specialize (Hm3 (λ _, eq_refl)).
  unfold mem_effect in Hm1, Hm3. rewrite Hop, Hst in Hm1. rewrite Hop' in Hm3. cbn in Hm1, Hm3.
  destruct Hm3 as [_ Hd]. specialize (Hd Hst'). rewrite Hn, Ha in Hd. rewrite Hd.
  set (bs := take (Z.to_nat (clamped_size w)) (rq_data w)) in *. destruct Hw as (Hwa & Hwn & Hwd).
  pose proof (clamped_size_bounds w Hwn) as Hsz.
  assert (length bs = Z.to_nat (clamped_size w)) as Hbl by (unfold bs; rewrite length_take; lia).
  rewrite (get_same_header (sv_shm s)) by (rewrite (hd_header _ _ _ _ Hh2); apply Hh1).
  rewrite (get_ext_nonneg (sv_shm s) _ _ _ (put (offset_of (sv_shm s)) (rq_addr w) bs (mem (sv_shm s))));
    [|apply (hd_inv _ _ _ _ Hh)|intros o Hpos; by rewrite Hm2, Hm1].
  rewrite <- Hbl. apply (get_put (offset_of (sv_shm s))); [done|]. lia.
Qed.

(** A request for memory always returns: no state and no request makes a read or a
    write touch anything outside of the backing memory.  It reports success only
    for a range that lies in one active extent and is mapped for the client with
    the permissions of the operation. *)
Theorem memory_request_authorised `{CastUB} m p tree now s env t req :
  shm_inv m → sm_metadata_cache m = ∅ → pool_inv p → rtc (server_step false) (Server_new m p tree now) s →
  0 <= t → wf_request req → rq_op_type req = OP_READ ∨ rq_op_type req = OP_WRITE →
  ∃ resp s', handle_request env t req s = Some (resp, s') ∧
    (sr_status resp = 0 → authorised (sv_pool s) t (rq_addr req) (clamped_size req) (rq_op_type req =? OP_WRITE) false).
Proof.
  intros Hm Hc Hp Hr Ht Hw Hop. pose proof (server_steps_handled _ _ _ Hr (server_new_inv false m p tree now Hm Hc Hp)) as Hh.
  destruct (memory_request_ok false env t req s (hd_inv _ _ _ _ Hh) Ht Hw) as (resp & s' & He & _ & Hauth & _); [done|].
  exists resp, s'. split; [|done]. unfold handle_request. by destruct Hop as [-> | ->].
Qed.

(** A back invalidation of a range that does not reach the last line of the address
    space ends, after one iteration per line: it reports the number of lines the
    range touches, and every one of them has the entry pending, behind the entries
    it had. *)
Theorem bi_invalidate_terminates `{CastUB} env t req s :
  is_u64 (rq_addr req) → 0 < rq_size req → rq_addr req + rq_size req <= TWO64 - 64 → rq_op_type req = OP_BI_INVALIDATE →
  let start := cl_align (rq_addr req) in let end_ := rq_addr req + rq_size req in
  (Z.to_nat (lines_below start end_) ≤ ev_fuel env)%nat →
  ∃ resp s', handle_request env t req s = Some (resp, s') ∧ sr_status resp = 0 ∧ sr_old_value resp = lines_below start end_ ∧
    ∀ a, start <= a < end_ → a mod 64 = 0 → sv_back_invalidation_queue s' !! a =
      Some (default [] (sv_back_invalidation_queue s !! a) ++ [empty_entry t (rq_timestamp req) a]).
Proof.
  cbn zeta. intros Ha Hn Hend Hop Hf. pose proof (cl_align_le (rq_addr req) Ha) as Hal.
  assert (cl_align (rq_addr req) mod 64 = 0) as Hmod by (rewrite cl_align_mod by done; mlia).
  destruct (invalidate_lines_run (ev_fuel env) (cl_align (rq_addr req)) (rq_addr req + rq_size req) t (rq_timestamp req) 0 s)
    as (s1 & Hl & Hq); [lia|done|lia|done|].
  unfold handle_request, handle_bi_request. rewrite Hop. cbn -[bi_invalidate]. unfold bi_invalidate.
  rewrite (proj2 (Z.eqb_neq _ 0)) by lia. rewrite u64_small by mlia. rewrite (proj2 (Z.ltb_ge _ _)) by lia. rewrite Hl.
  cbn [mbind option_bind]. eexists _, _. split; [done|]. split; [done|]. split; [done|].
  intros a Hb Hm. simpl. by rewrite Hq, decide_True.
Qed.

(** A call over the shared memory rings returns what the server answers: when the
    rings are quiet, a connected client that sends a request, and for which one
    round of the server runs, receives the answer of the server to that request,
    and all rings are quiet again. *)
Theorem ring_call_served `{CastUB} env c i q s p s' :
  Forall ShmRing.quiet (ring_buffers c) → connected c !! i = Some true → is_Some (ring_buffers c !! i) →
  answer env (Z.of_nat (S i)) q s = Some (p, s') →
  ∃ c1 c2 c3, comm_send_request (S i) q c = (Some true, c1) ∧ handle_shm_requests env c1 s = Some (true, c2, s') ∧
    comm_wait_for_response (S i) c2 = (Some p, c3) ∧ Forall ShmRing.quiet (ring_buffers c3) ∧ connected c3 = connected c.
Proof.
  intros Hq Hc [r Hr] Ha. pose proof (lookup_lt_Some _ _ _ Hr) as Hlt.
  pose proof (Forall_lookup_1 _ _ _ _ Hq Hr) as Hqr. cbn beta in Hqr.
  destruct (quiet_send_take r q Hqr) as (r1 & r2 & H1 & H2 & H3). destruct (quiet_reply r2 p H3) as (r3 & r4 & H4 & H5 & H6).
  unfold comm_send_request, with_ring. rewrite Hr, H1. eexists _, _, _. split; [done|].
  unfold handle_shm_requests, wait_for_request. cbn [connected ring_buffers].
  rewrite (scan_one 1 (connected c) (<[i := r1]> (ring_buffers c)) i r1 r2 q); [|by apply list_lookup_insert_eq|done|done|].
  - cbn [Nat.add]. rewrite Ha. cbn [mbind option_bind]. split; [done|]. unfold comm_send_response, comm_wait_for_response, with_ring.
    cbn [ring_buffers connected]. rewrite list_insert_insert_eq, list_lookup_insert_eq by done. rewrite H4. cbn [snd ring_buffers connected].
    rewrite list_insert_insert_eq, list_lookup_insert_eq by done. rewrite H5. split; [done|]. cbn [ring_buffers connected].
    rewrite list_insert_insert_eq. split; [|done]. by apply Forall_insert.
  - intros j r' Hj Hne. rewrite list_lookup_insert_ne in Hj by done. apply take_request_empty.
    by apply (Forall_lookup_1 _ _ _ _ Hq Hj).
Qed.

(** What is written to the label storage area is read back by every client. *)
Theorem lsa_roundtrip `{CastUB} env t w s resp s1 env' t' r :
  wf_request w → rq_op_type w = OP_LSA_WRITE → handle_request env t w s = Some (resp, s1) →
  rq_op_type r = OP_LSA_READ → rq_addr r = rq_addr w → rq_size r = rq_size w →
  ∃ resp', handle_request env' t' r s1 = Some (resp', s1) ∧ sr_status resp' = 0 ∧
    let n := Z.to_nat (Z.min (rq_size w) 64) in take n (sr_data resp') = take n (rq_data w).
Proof.
  intros (Ha & Hn & Hd) Hw Hq Hr Era Ern. unfold handle_request in *. rewrite Hw in Hq. rewrite Hr. cbn -[lsa_read lsa_write] in *.
  unfold lsa_read, lsa_write in *. rewrite Era, Ern. set (c := Z.min (rq_size w) 64) in *.
  assert (0 <= c <= 64) as Hc by (unfold c, is_u64 in *; lia).
  assert (length (take (Z.to_nat c) (rq_data w)) = Z.to_nat c) as Hlen by (rewrite length_take; lia).
  destruct (_ && negb _); [done|]. set (sz := if _ <? rq_addr w +w c then _ else _) in *.
  destruct (_ && (sz <? _)) eqn:Eb; [done|]. injection Hq as _ <-. cbn [sv_lsa_size sv_lsa_data set_lsa].
  assert (rq_addr w +w c <= sz) as Hle by (unfold sz; destruct (_ <? _) eqn:E; btests; lia).
  rewrite (proj2 (Z.leb_le _ _) Hle), Eb. eexists. split; [done|]. split; [done|]. cbn [sr_data response].
  cbn zeta. set (bs := take (Z.to_nat c) (rq_data w)) in *.
  pose proof (load_store bs (rq_addr w) (sv_lsa_data s)) as Hls. rewrite Hlen in Hls. rewrite Hls. by apply take_app_length'.
Qed.

(** ** Concrete runs *)

#[local] Instance ex_cast : CastUB := λ _, 0.

Definition ex_now : Env :=
  {| ev_now_write := 1000; ev_now := 2000; ev_alloc := λ n, n <? 1048576; ev_partial := []; ev_dirty := []; ev_fuel := 10 |}.

(** 1 MB of memory, the pool of 1 MB with two hosts of which host 1 has added two
    pages, and the tree of two endpoints. *)
Definition ex_server : Server := Server_new ex_shm ex_pool3 ex_controller 0.

Definition ex_request (op addr size ts : Z) (data : list Z) : ServerRequest :=
  {| rq_op_type := op; rq_addr := addr; rq_size := size; rq_timestamp := ts; rq_value := 5; rq_expected := 0;
     rq_data := data ++ replicate (64 - length data) 0 |}.

Definition ex_run (t : Z) (req : ServerRequest) (s : Server) : Server := from_option snd s (handle_request ex_now t req s).
Definition ex_reply (t : Z) (req : ServerRequest) (s : Server) : ServerResponse :=
  from_option fst (response 255 0 0 []) (handle_request ex_now t req s).

Lemma ex_handled t req s :
  match handle_request ex_now t req s with Some _ => true | None => false end = true →
  handle_request ex_now t req s = Some (ex_reply t req s, ex_run t req s).
Proof. unfold ex_reply, ex_run. by destruct (handle_request ex_now t req s) as [[a b]|]. Qed.

Lemma ex_server_inv : server_inv true ex_server.
Proof. apply server_new_inv; [exact ex_shm_inv|vm_compute; reflexivity|]. apply (pool_reachable_inv [] 1 (f64_of_Z 100)), ex_pool3_reach. Qed.

Definition ex_write : ServerRequest := ex_request OP_WRITE 100 8 10 [1; 2; 3; 4; 5; 6; 7; 8].
Definition ex_read : ServerRequest := ex_request OP_READ 100 8 20 [].
Definition ex_server1 : Server := ex_run 1 ex_write ex_server.
Definition ex_server2 : Server := ex_run 1 ex_read ex_server1.

Lemma ex_write_step timely : server_step timely ex_server ex_server1.
Proof.
  apply (server_request_step _ _ ex_now 1 ex_write (ex_reply 1 ex_write ex_server)); [lia|done|intros _; vm_compute; discriminate|].
  apply ex_handled. vm_compute. reflexivity.
Qed.

Lemma server_refines_memory_witness :
  sr_status (ex_reply 1 ex_read ex_server1) = 0 ∧ mem_effect ex_read (ex_reply 1 ex_read ex_server1) ex_server1 ex_server2.
Proof.
  split; [vm_compute; reflexivity|].
  apply (server_refines_memory true ex_shm ex_pool3 ex_controller 0 ex_server1 ex_now 1 ex_read).
  - exact ex_shm_inv.
  - vm_compute. reflexivity.
  - apply (pool_reachable_inv [] 1 (f64_of_Z 100)), ex_pool3_reach.
  - apply rtc_once, ex_write_step.
  - reflexivity.
  - lia.
  - done.
  - intros _. vm_compute. discriminate.
  - apply ex_handled. vm_compute. reflexivity.
Defined.

(** A server without capacity management: every access is allowed.  Thread 1 reads a
    line, thread 2 writes to it with timestamp 50, and thread 3, whose clock is
    behind, with timestamp 20. *)
Definition ex_open : Server := Server_new ex_shm ex_pool0 ex_controller 0.
Definition ex_read1 : ServerRequest := ex_request OP_READ 64 8 5 [].
Definition ex_write2 : ServerRequest := ex_request OP_WRITE 68 4 50 [9; 9; 9; 9].
Definition ex_write3 : ServerRequest := ex_request OP_WRITE 64 4 20 [7; 7; 7; 7].
Definition ex_open1 : Server := ex_run 1 ex_read1 ex_open.
Definition ex_open2 : Server := ex_run 2 ex_write2 ex_open1.
Definition ex_stale : Server := ex_run 3 ex_write3 ex_open2.

Lemma ex_step t req s :
  0 <= t → wf_request req → match handle_request ex_now t req s with Some _ => true | None => false end = true →
  server_step false s (ex_run t req s).
Proof. intros Ht Hw Hh. apply (server_request_step _ _ ex_now t req (ex_reply t req s)); [done..|]. by apply ex_handled. Qed.

Lemma ex_stale_steps : rtc (server_step false) ex_open ex_stale.
Proof.
  eapply rtc_l; [apply (ex_step 1 ex_read1); [lia|done|vm_compute; reflexivity]|].
  eapply rtc_l; [apply (ex_step 2 ex_write2); [lia|done|vm_compute; reflexivity]|].
  apply rtc_once, (ex_step 3 ex_write3); [lia|done|vm_compute; reflexivity].
Qed.

Lemma server_coherent_witness :
  cm_state (metadata_of (sv_shm ex_stale) 64) = MODIFIED ∧ cm_owner (metadata_of (sv_shm ex_stale) 64) = 3 ∧
  line_ok (metadata_of (sv_shm ex_stale) 64).
Proof.
  split; [vm_compute; reflexivity|]. split; [vm_compute; reflexivity|].
  refine (proj1 (server_coherent ex_shm ex_pool0 ex_controller 0 ex_stale 64 ex_shm_inv _ _ ex_stale_steps)).
  - vm_compute. reflexivity.
  - apply pool_new_inv.
Defined.

Lemma server_write_read_witness :
  sr_status (ex_reply 1 ex_read ex_server1) = 0 ∧ take 8 (sr_data (ex_reply 1 ex_read ex_server1)) = [1; 2; 3; 4; 5; 6; 7; 8].
Proof.
  split; [vm_compute; reflexivity|].
  refine (server_write_read ex_server ex_server ex_now 1 ex_write (ex_reply 1 ex_write ex_server) ex_server1 ex_server1 ex_now 1 ex_read
    (ex_reply 1 ex_read ex_server1) ex_server2 ex_server_inv (rtc_refl _ _) _ _ _ eq_refl _ _ (rtc_refl _ _) _ _ _ eq_refl eq_refl eq_refl _ _).
  - lia.
  - done.
  - vm_compute. discriminate.
  - apply ex_handled. vm_compute. reflexivity.
  - vm_compute. reflexivity.
  - lia.
  - done.
  - vm_compute. discriminate.
  - apply ex_handled. vm_compute. reflexivity.
  - vm_compute. reflexivity.
Defined.

(** Host 0 is not mapped to the pages of host 1. *)
Lemma memory_request_authorised_witness :
  sr_status (ex_reply 0 ex_read ex_server1) = 5 ∧
  ∃ resp s', handle_request ex_now 0 ex_read ex_server1 = Some (resp, s') ∧
    (sr_status resp = 0 → authorised (sv_pool ex_server1) 0 100 8 false false).
Proof.
  split; [vm_compute; reflexivity|].
  apply (memory_request_authorised ex_shm ex_pool3 ex_controller 0 ex_server1 ex_now 0 ex_read).
  - exact ex_shm_inv.
  - vm_compute. reflexivity.
  - apply (pool_reachable_inv [] 1 (f64_of_Z 100)), ex_pool3_reach.
  - apply rtc_once, ex_write_step.
  - lia.
  - done.
  - left. reflexivity.
Defined.

Definition ex_invalidate : ServerRequest := ex_request OP_BI_INVALIDATE 100 100 30 [].

Lemma bi_invalidate_terminates_witness :
  lines_below 64 200 = 3 ∧ ∃ resp s', handle_request ex_now 1 ex_invalidate ex_server1 = Some (resp, s') ∧ sr_status resp = 0 ∧
    sr_old_value resp = 3 ∧ ∀ a, 64 <= a < 200 → a mod 64 = 0 → sv_back_invalidation_queue s' !! a =
      Some (default [] (sv_back_invalidation_queue ex_server1 !! a) ++ [empty_entry 1 30 a]).
Proof.
  split; [reflexivity|]. apply (bi_invalidate_terminates ex_now 1 ex_invalidate ex_server1).
  - done.
  - vm_compute. reflexivity.
  - vm_compute. discriminate.
  - reflexivity.
  - vm_compute. lia.
Defined.

Definition ex_lsa_write : ServerRequest := ex_request OP_LSA_WRITE 262140 8 0 [1; 2; 3; 4; 5; 6; 7; 8].
Definition ex_lsa_read : ServerRequest := ex_request OP_LSA_READ 262140 8 0 [].

(** A write across the end of the label storage area makes it grow. *)
Lemma lsa_roundtrip_witness :
  sv_lsa_size (ex_run 1 ex_lsa_write ex_server) = 262148 ∧
  ∃ resp', handle_request ex_now 0 ex_lsa_read (ex_run 1 ex_lsa_write ex_server) = Some (resp', ex_run 1 ex_lsa_write ex_server) ∧
    sr_status resp' = 0 ∧ take 8 (sr_data resp') = [1; 2; 3; 4; 5; 6; 7; 8].
Proof.
  split; [vm_compute; reflexivity|].
  apply (lsa_roundtrip ex_now 1 ex_lsa_write ex_server (ex_reply 1 ex_lsa_write ex_server)).
  - done.
  - reflexivity.
  - apply ex_handled. vm_compute. reflexivity.
  - reflexivity.
  - reflexivity.
  - reflexivity.
Defined.

Definition ex_comm : ShmCommunication :=
  {| connected := [false; true]; ring_buffers := [ShmRing.initialize ex_ring; ShmRing.initialize ex_ring] |}.

Lemma ex_comm_quiet : Forall ShmRing.quiet (ring_buffers ex_comm).
Proof.
  pose proof (initialize_quiet ex_ring ex_ring_sized) as Hq.
  apply Forall_cons_2; [exact Hq|]. apply Forall_cons_2; [exact Hq|]. apply Forall_nil_2.
Qed.

Definition ex_shm_request (op addr size : Z) : ShmRequest :=
  {| sq_op_type := op; sq_addr := addr; sq_size := size; sq_timestamp := 40; sq_value := 5; sq_expected := 0;
     sq_data := replicate 64 7 |}.

(** The second client fetches and adds. *)
Lemma ring_call_served_witness :
  sp_old_value (from_option fst (info_response (get_shm_info ex_shm))
    (answer ex_now 2 (ex_shm_request OP_ATOMIC_FAA 104 8) (Server_new (sv_shm ex_server1) ex_pool0 ex_controller 0))) = 134678021 ∧
  ∃ c1 c2 c3 p s', comm_send_request 2 (ex_shm_request OP_ATOMIC_FAA 104 8) ex_comm = (Some true, c1) ∧
    handle_shm_requests ex_now c1 (Server_new (sv_shm ex_server1) ex_pool0 ex_controller 0) = Some (true, c2, s') ∧
    comm_wait_for_response 2 c2 = (Some p, c3).
Proof.
  split; [vm_compute; reflexivity|]. set (s := Server_new (sv_shm ex_server1) ex_pool0 ex_controller 0).
  assert (match answer ex_now 2 (ex_shm_request OP_ATOMIC_FAA 104 8) s with Some _ => true | None => false end = true)
    as Hs by (vm_compute; reflexivity).
  destruct (answer ex_now 2 (ex_shm_request OP_ATOMIC_FAA 104 8) s) as [[p s']|] eqn:E; [|discriminate Hs].
  destruct (ring_call_served ex_now ex_comm 1 (ex_shm_request OP_ATOMIC_FAA 104 8) s p s') as (c1 & c2 & c3 & H1 & H2 & H3 & _).
  - exact ex_comm_quiet.
  - reflexivity.
  - eexists. reflexivity.
  - exact E.
  - exists c1, c2, c3, p, s'. split; [exact H1|]. split; [exact H2|exact H3].
Defined.

(** ** Observations *)

(** Back invalidation writes stale data when timestamps go back: in [ex_stale] the next
    read applies the entry of thread 2, at the start of the line, and returns 9s
    for bytes 0 to 3, which nobody wrote there. *)
Lemma stale_back_invalidation :
  get (offset_of (sv_shm ex_stale)) 64 8 (mem (sv_shm ex_stale)) = [7; 7; 7; 7; 9; 9; 9; 9] ∧
  take 8 (sr_data (ex_reply 1 (ex_request OP_READ 64 8 60 []) ex_stale)) = [9; 9; 9; 9; 9; 9; 9; 9].
Proof. vm_compute. split; reflexivity. Qed.

(** The bound of the label storage area is computed modulo 2^64: a read just below the
    top of the address space passes it and reads outside of the buffer. *)
Lemma lsa_bound_wraps : handle_request ex_now 1 (ex_request OP_LSA_READ (UINT64_MAX - 3) 8 0 []) ex_open = None.
Proof. vm_compute. reflexivity. Qed.

(** A back invalidation that reaches into the last line of the address space never ends. *)
Lemma bi_invalidate_diverges env t ts s :
  handle_request env t (ex_request OP_BI_INVALIDATE (TWO64 - 64) 63 ts []) s = None.
Proof.
  unfold handle_request, handle_bi_request, bi_invalidate. cbn -[invalidate_lines cl_align u64].
  change (_ <? _) with false. cbn iota. by rewrite invalidate_lines_top by (vm_compute; intuition congruence).
Qed.

(** Over the rings an unknown operation is a write that needs only the permission to
    read: client 1, mapped read-only to the pages of host 0, is refused a write, and
    stores with operation 21. *)
Definition ex_read_only : Server :=
  ex_run 0 {| rq_op_type := OP_GFAM_MAP; rq_addr := 0; rq_size := 8192; rq_timestamp := 6; rq_value := 1;
              rq_expected := DCD_PERM_READ; rq_data := zero_data |}
    (ex_run 0 ex_add (Server_new ex_shm ex_pool2 ex_controller 0)).

Lemma unknown_op_writes :
  sp_status (from_option fst (info_response (get_shm_info ex_shm)) (answer ex_now 1 (ex_shm_request OP_WRITE 128 8) ex_read_only)) = 5 ∧
  match answer ex_now 1 (ex_shm_request 21 128 8) ex_read_only with
  | Some (p, s') => sp_status p = 0 ∧ get (offset_of (sv_shm s')) 128 8 (mem (sv_shm s')) = replicate 8 7
  | None => False
  end.
Proof. vm_compute. split; [reflexivity|split; reflexivity]. Qed.

(** A range notification of size 0 is answered with success without any check. *)
Lemma empty_range_unchecked env t addr ts s :
  handle_request env t (ex_request OP_RANGE_WRITE addr 0 ts []) s = Some (response 0 0 0 zero_data, s).
Proof. done. Qed.
