(* ===== verification/DistMsg.v ===== *)
(** * Messages between the nodes of a distributed server

    Models [DistributedMessageManager] (src/distributed_server.cpp,
    include/distributed_server.h): the segment that the nodes of a cluster
    share, with a status entry per node and a message queue per ordered pair of
    nodes, and the manager of each node, which sends, polls and dispatches
    messages and matches responses with the requests that wait for them.

    The payload of a message is a union of C structures; it is modelled as its
    256 bytes, with the offsets of the packed structures, because a message is
    read as another member than it was written as when identifiers collide.
    The methods are modelled as whole operations; [worker_step] splits
    [dequeue_message] into its accesses to show what two workers of a node do
    to each other.  [None] is undefined behaviour: an index outside of an array,
    a remainder by 0, or what a handler does not survive.

    What a node does with a message is an interface, [Handlers]. *)

From S2P Require Import Prelude.

(** ** Constants *)

Definition DIST_MAX_NODES : Z := 16.
Definition DIST_MSG_QUEUE_SIZE : Z := 4096.
Definition DIST_CACHELINE_SIZE : Z := 64.
Definition DIST_SHM_MAGIC : Z := 0x4458544D454D5348.
Definition DIST_SHM_VERSION : Z := 1.

Definition DIST_MSG_NONE : Z := 0.
Definition DIST_MSG_NODE_REGISTER : Z := 1.
Definition DIST_MSG_NODE_DEREGISTER : Z := 2.
Definition DIST_MSG_NODE_HEARTBEAT : Z := 3.
Definition DIST_MSG_NODE_ACK : Z := 4.
Definition DIST_MSG_READ_REQ : Z := 10.
Definition DIST_MSG_READ_RESP : Z := 11.
Definition DIST_MSG_WRITE_REQ : Z := 12.
Definition DIST_MSG_WRITE_RESP : Z := 13.
Definition DIST_MSG_ATOMIC_FAA_REQ : Z := 20.
Definition DIST_MSG_ATOMIC_FAA_RESP : Z := 21.
Definition DIST_MSG_ATOMIC_CAS_REQ : Z := 22.
Definition DIST_MSG_ATOMIC_CAS_RESP : Z := 23.
Definition DIST_MSG_FENCE_REQ : Z := 24.
Definition DIST_MSG_FENCE_RESP : Z := 25.
Definition DIST_MSG_INVALIDATE : Z := 30.
Definition DIST_MSG_INVALIDATE_ACK : Z := 31.
Definition DIST_MSG_DOWNGRADE : Z := 32.
Definition DIST_MSG_DOWNGRADE_ACK : Z := 33.
Definition DIST_MSG_DIR_QUERY : Z := 41.
Definition DIST_MSG_DIR_RESPONSE : Z := 42.

Definition NODE_STATE_UNKNOWN : Z := 0.
Definition NODE_STATE_INITIALIZING : Z := 1.
Definition NODE_STATE_READY : Z := 2.
Definition NODE_STATE_BUSY : Z := 3.
Definition NODE_STATE_DRAINING : Z := 4.
Definition NODE_STATE_OFFLINE : Z := 5.

(** ** Messages *)

(** Bytes of a buffer, and a buffer with some bytes replaced ([memcpy]). *)
Definition get_bytes (off n : nat) (p : list Z) : list Z := take n (drop off p).
Definition set_bytes (off : nat) (bs p : list Z) : list Z := take off p ++ bs ++ drop (off + length bs) p.

(** An integer field of a packed structure. *)
Record Field := fld { f_off : nat; f_len : nat }.

Definition get_field (f : Field) (p : list Z) : Z := le_decode (get_bytes (f_off f) (f_len f) p) mod 256 ^ Z.of_nat (f_len f).
Definition set_field (f : Field) (v : Z) (p : list Z) : list Z := set_bytes (f_off f) (le_encode (f_len f) v) p.

(** [dist_mem_payload_t] *)
Definition mem_addr : Field := fld 0 8.
Definition mem_size : Field := fld 8 8.
Definition mem_value : Field := fld 16 8.
Definition mem_expected : Field := fld 24 8.
Definition mem_latency_ns : Field := fld 32 8.
Definition mem_client_id : Field := fld 40 4.
Definition mem_status : Field := fld 44 4.
Definition mem_data : nat := 56.

(** [dist_node_payload_t] *)
Definition node_node_id : Field := fld 0 4.
Definition node_node_state : Field := fld 4 4.
Definition node_memory_base : Field := fld 8 8.
Definition node_memory_size : Field := fld 16 8.
Definition node_num_cachelines : Field := fld 24 8.
Definition node_port : Field := fld 32 4.
Definition node_flags : Field := fld 36 4.
Definition node_hostname : nat := 40.

(** [dist_coherency_payload_t] *)
Definition coherency_cacheline_addr : Field := fld 0 8.

Record dist_msg_header := {
  msg_type : Z;
  msg_id : Z;
  src_node_id : Z;
  dst_node_id : Z;
  timestamp : Z;
  payload_size : Z;
  msg_flags : Z
}.

Record dist_message := { header : dist_msg_header; payload : list Z }.

Definition zero_payload : list Z := replicate 256 0.

Definition zero_message : dist_message :=
  {| header := {| msg_type := 0; msg_id := 0; src_node_id := 0; dst_node_id := 0; timestamp := 0; payload_size := 0; msg_flags := 0 |};
     payload := zero_payload |}.

(** A message as the code builds it: zeroed, then the fields of the header that it sets. *)
Definition message (type id src dst ts : Z) (p : list Z) : dist_message :=
  {| header := {| msg_type := type; msg_id := id; src_node_id := src; dst_node_id := dst; timestamp := ts;
                  payload_size := 0; msg_flags := 0 |};
     payload := p |}.

Definition set_msg_type (t : Z) (m : dist_message) : dist_message :=
  {| header := {| msg_type := t; msg_id := msg_id (header m); src_node_id := src_node_id (header m);
                  dst_node_id := dst_node_id (header m); timestamp := timestamp (header m);
                  payload_size := payload_size (header m); msg_flags := msg_flags (header m) |};
     payload := payload m |}.

Definition upd_payload (f : list Z → list Z) (m : dist_message) : dist_message :=
  {| header := header m; payload := f (payload m) |}.

(** ** The shared segment *)

Record dist_node_queue := {
  q_head : Z;
  q_tail : Z;
  q_msg_count : Z;
  q_capacity : Z;
  q_total_sent : Z;
  q_total_received : Z;
  q_total_dropped : Z;
  q_messages : gmap Z dist_message          (** zeroed where nothing was written *)
}.

Record dist_node_status := {
  ns_node_id : Z;
  ns_state : Z;
  ns_last_heartbeat : Z;
  ns_memory_base : Z;
  ns_memory_size : Z;
  ns_active_connections : Z;
  ns_flags : Z;
  ns_hostname : list Z
}.

Record dist_shm_header := {
  g_magic : Z;
  g_version : Z;
  g_num_nodes : Z;
  g_coordinator_node : Z;
  g_global_epoch : Z;
  g_system_ready : Z;
  g_shutdown_requested : Z;
  g_nodes : list dist_node_status;
  g_queues : list dist_node_queue
}.

Definition set_queues (qs : list dist_node_queue) (g : dist_shm_header) : dist_shm_header :=
  {| g_magic := g_magic g; g_version := g_version g; g_num_nodes := g_num_nodes g; g_coordinator_node := g_coordinator_node g;
     g_global_epoch := g_global_epoch g; g_system_ready := g_system_ready g; g_shutdown_requested := g_shutdown_requested g;
     g_nodes := g_nodes g; g_queues := qs |}.

Definition set_nodes (num : Z) (ns : list dist_node_status) (g : dist_shm_header) : dist_shm_header :=
  {| g_magic := g_magic g; g_version := g_version g; g_num_nodes := num; g_coordinator_node := g_coordinator_node g;
     g_global_epoch := g_global_epoch g; g_system_ready := g_system_ready g; g_shutdown_requested := g_shutdown_requested g;
     g_nodes := ns; g_queues := g_queues g |}.

Definition zero_status : dist_node_status :=
  {| ns_node_id := 0; ns_state := 0; ns_last_heartbeat := 0; ns_memory_base := 0; ns_memory_size := 0;
     ns_active_connections := 0; ns_flags := 0; ns_hostname := replicate 32 0 |}.

Definition new_queue : dist_node_queue :=
  {| q_head := 0; q_tail := 0; q_msg_count := 0; q_capacity := DIST_MSG_QUEUE_SIZE; q_total_sent := 0; q_total_received := 0;
     q_total_dropped := 0; q_messages := ∅ |}.

(** The segment as [initialize] leaves it. *)
Definition initialized_header (local_node_id : Z) : dist_shm_header :=
  {| g_magic := DIST_SHM_MAGIC; g_version := DIST_SHM_VERSION; g_num_nodes := 0; g_coordinator_node := local_node_id;
     g_global_epoch := 0; g_system_ready := 0; g_shutdown_requested := 0;
     g_nodes := replicate 16 zero_status; g_queues := replicate 256 new_queue |}.

(** ** The manager of a node *)

Record PendingRequest := {
  pr_response : dist_message;               (** what [response] points to *)
  pr_completed : bool
}.

Record Manager := {
  mm_local_node_id : Z;
  mm_mapped : bool;                         (** [shm_header_] is not null *)
  mm_is_coordinator : bool;
  mm_handlers : gset Z;                     (** the types with a handler *)
  mm_next_msg_id : Z;
  mm_pending_requests : gmap Z PendingRequest
}.

Definition set_pending (p : gmap Z PendingRequest) (m : Manager) : Manager :=
  {| mm_local_node_id := mm_local_node_id m; mm_mapped := mm_mapped m; mm_is_coordinator := mm_is_coordinator m;
     mm_handlers := mm_handlers m; mm_next_msg_id := mm_next_msg_id m; mm_pending_requests := p |}.

Definition Manager_new (node_id : Z) : Manager :=
  {| mm_local_node_id := node_id; mm_mapped := false; mm_is_coordinator := false; mm_handlers := ∅;
     mm_next_msg_id := 1; mm_pending_requests := ∅ |}.

(** The results of the system calls of [initialize]. *)
Record ShmEnv := { se_open : bool; se_truncate : bool; se_mmap : bool }.

(** The object with the name of the segment before and after; [None]: there is none. *)
Definition initialize (env : ShmEnv) (create_new : bool) (g : option dist_shm_header) (m : Manager)
    : bool * option dist_shm_header * Manager :=
  if create_new && negb (se_open env) then (false, None, m)
  else if create_new && negb (se_truncate env) then (false, None, m)
  else if negb create_new && (negb (se_open env) || bool_decide (g = None)) then (false, g, m)
  else if negb (se_mmap env) then (false, if create_new then None else g, m)
  else
    (true, Some (initialized_header (mm_local_node_id m)),
     {| mm_local_node_id := mm_local_node_id m; mm_mapped := true; mm_is_coordinator := true; mm_handlers := mm_handlers m;
        mm_next_msg_id := mm_next_msg_id m; mm_pending_requests := mm_pending_requests m |}).

Definition set_handlers (h : gset Z) (m : Manager) : Manager :=
  {| mm_local_node_id := mm_local_node_id m; mm_mapped := mm_mapped m; mm_is_coordinator := mm_is_coordinator m; mm_handlers := h;
     mm_next_msg_id := mm_next_msg_id m; mm_pending_requests := mm_pending_requests m |}.

Definition register_handler (type : Z) (m : Manager) : Manager := set_handlers ({[type]} ∪ mm_handlers m) m.
Definition unregister_handler (type : Z) (m : Manager) : Manager := set_handlers (mm_handlers m ∖ {[type]}) m.

(** [cleanup]: every manager that was initialized removes the name of the segment. *)
Definition cleanup (g : option dist_shm_header) (m : Manager) : option dist_shm_header * Manager :=
  (if mm_is_coordinator m then None else g,
   {| mm_local_node_id := mm_local_node_id m; mm_mapped := false; mm_is_coordinator := mm_is_coordinator m; mm_handlers := mm_handlers m;
      mm_next_msg_id := mm_next_msg_id m; mm_pending_requests := mm_pending_requests m |}).

Definition generate_msg_id (m : Manager) : Z * Manager :=
  (mm_next_msg_id m,
   {| mm_local_node_id := mm_local_node_id m; mm_mapped := mm_mapped m; mm_is_coordinator := mm_is_coordinator m; mm_handlers := mm_handlers m;
      mm_next_msg_id := u32 (mm_next_msg_id m + 1); mm_pending_requests := mm_pending_requests m |}).

(** ** Node status *)

Record DistNodeInfo := {
  ni_node_id : Z;
  ni_hostname : list Z;
  ni_state : Z;
  ni_memory_base : Z;
  ni_memory_size : Z;
  ni_last_heartbeat : Z
}.

(** [strncpy] of a string without its terminator into the first [n] bytes of an array. *)
Definition strncpy (n : nat) (s a : list Z) : list Z := take n (s ++ replicate n 0) ++ drop n a.

Definition register_node (now : Z) (info : DistNodeInfo) (m : Manager) (g : dist_shm_header) : bool * dist_shm_header :=
  if negb (mm_mapped m) || (DIST_MAX_NODES <=? ni_node_id info) then (false, g)
  else
    let register (st : dist_node_status) :=
      {| ns_node_id := ni_node_id info; ns_state := NODE_STATE_READY; ns_last_heartbeat := u64 now;
         ns_memory_base := ni_memory_base info; ns_memory_size := ni_memory_size info; ns_active_connections := 0; ns_flags := 0;
         ns_hostname := strncpy 31 (ni_hostname info) (ns_hostname st) |} in
    (true, set_nodes (u32 (g_num_nodes g + 1)) (alter register (Z.to_nat (ni_node_id info)) (g_nodes g)) g).

Definition set_status (state heartbeat : Z) (st : dist_node_status) : dist_node_status :=
  {| ns_node_id := ns_node_id st; ns_state := state; ns_last_heartbeat := heartbeat; ns_memory_base := ns_memory_base st;
     ns_memory_size := ns_memory_size st; ns_active_connections := ns_active_connections st; ns_flags := ns_flags st;
     ns_hostname := ns_hostname st |}.

Definition deregister_node (node_id : Z) (m : Manager) (g : dist_shm_header) : bool * dist_shm_header :=
  if negb (mm_mapped m) || (DIST_MAX_NODES <=? node_id) then (false, g)
  else (true, set_nodes (u32 (g_num_nodes g - 1)) (alter (set_status NODE_STATE_OFFLINE 0) (Z.to_nat node_id) (g_nodes g)) g).

Definition status_of (g : dist_shm_header) (node_id : Z) : dist_node_status := default zero_status (g_nodes g !! Z.to_nat node_id).

Definition is_node_active (m : Manager) (g : dist_shm_header) (node_id : Z) : bool :=
  if negb (mm_mapped m) || (DIST_MAX_NODES <=? node_id) then false
  else (ns_state (status_of g node_id) =? NODE_STATE_READY) || (ns_state (status_of g node_id) =? NODE_STATE_BUSY).

(** The identifiers [0 .. DIST_MAX_NODES - 1]. *)
Definition node_ids : list Z := seqZ 0 DIST_MAX_NODES.

Definition get_active_nodes (m : Manager) (g : dist_shm_header) : list Z := keep (is_node_active m g) node_ids.

(** ** Message queues *)

Definition message_at (q : dist_node_queue) (i : Z) : dist_message := default zero_message (q_messages q !! i).

Definition queue_push (msg : dist_message) (q : dist_node_queue) : option (bool * dist_node_queue) :=
  if q_capacity q =? 0 then None
  else
    let head := q_head q in
    let next_head := u32 (head + 1) mod q_capacity q in
    if next_head =? q_tail q then
      Some (false, {| q_head := head; q_tail := q_tail q; q_msg_count := q_msg_count q; q_capacity := q_capacity q;
                      q_total_sent := q_total_sent q; q_total_received := q_total_received q;
                      q_total_dropped := q_total_dropped q +w 1; q_messages := q_messages q |})
    else if DIST_MSG_QUEUE_SIZE <=? head then None
    else
      Some (true, {| q_head := next_head; q_tail := q_tail q; q_msg_count := u32 (q_msg_count q + 1); q_capacity := q_capacity q;
                     q_total_sent := q_total_sent q +w 1; q_total_received := q_total_received q;
                     q_total_dropped := q_total_dropped q; q_messages := <[head := msg]> (q_messages q) |}).

Definition queue_pop (q : dist_node_queue) : option (option dist_message * dist_node_queue) :=
  let tail := q_tail q in
  if q_head q =? tail then Some (None, q)
  else if (DIST_MSG_QUEUE_SIZE <=? tail) || (q_capacity q =? 0) then None
  else
    Some (Some (message_at q tail),
          {| q_head := q_head q; q_tail := u32 (tail + 1) mod q_capacity q; q_msg_count := u32 (q_msg_count q - 1);
             q_capacity := q_capacity q; q_total_sent := q_total_sent q; q_total_received := q_total_received q +w 1;
             q_total_dropped := q_total_dropped q; q_messages := q_messages q |}).

Definition queue_index (src dst : Z) : nat := Z.to_nat (u32 (src * DIST_MAX_NODES + dst)).

Definition enqueue_message (m : Manager) (dst_node : Z) (msg : dist_message) (g : dist_shm_header)
    : option (bool * dist_shm_header) :=
  if negb (mm_mapped m) || (DIST_MAX_NODES <=? dst_node) then Some (false, g)
  else
    let i := queue_index (mm_local_node_id m) dst_node in
    q ← g_queues g !! i; '(ok, q1) ← queue_push msg q; Some (ok, set_queues (<[i := q1]> (g_queues g)) g).

Definition dequeue_message (m : Manager) (src_node : Z) (g : dist_shm_header) : option (option dist_message * dist_shm_header) :=
  if negb (mm_mapped m) || (DIST_MAX_NODES <=? src_node) then Some (None, g)
  else
    let i := queue_index src_node (mm_local_node_id m) in
    q ← g_queues g !! i; '(r, q1) ← queue_pop q; Some (r, set_queues (<[i := q1]> (g_queues g)) g).

Definition send_message (m : Manager) (dst_node : Z) (msg : dist_message) (g : dist_shm_header) : option (bool * dist_shm_header) :=
  enqueue_message m dst_node msg g.

Fixpoint send_all (m : Manager) (msg : dist_message) (nodes : list Z) (all_success : bool) (g : dist_shm_header)
    : option (bool * dist_shm_header) :=
  match nodes with
  | [] => Some (all_success, g)
  | node_id :: rest =>
      if node_id =? mm_local_node_id m then send_all m msg rest all_success g
      else '(ok, g1) ← send_message m node_id msg g; send_all m msg rest (all_success && ok) g1
  end.

Definition broadcast_message (m : Manager) (msg : dist_message) (g : dist_shm_header) : option (bool * dist_shm_header) :=
  send_all m msg (get_active_nodes m g) true g.

(** ** Requests that wait for a response

    [send_message_wait_response] up to its wait, and after the wait: the
    response, or nothing when the time was over.  Identifiers of one manager
    repeat after 2^32 of them, so an entry belongs to one request. *)

Definition request_begin (m : Manager) (dst_node : Z) (req resp : dist_message) (g : dist_shm_header)
    : option (bool * Manager * dist_shm_header) :=
  let id := msg_id (header req) in
  let pending := {| pr_response := resp; pr_completed := false |} in
  let m1 := set_pending (<[id := pending]> (mm_pending_requests m)) m in
  '(ok, g1) ← send_message m1 dst_node req g;
  Some (ok, if (ok : bool) then m1 else set_pending (delete id (mm_pending_requests m1)) m1, g1).

Definition request_end (m : Manager) (id : Z) : option dist_message * Manager :=
  (match mm_pending_requests m !! id with
   | Some p => if pr_completed p then Some (pr_response p) else None
   | None => None
   end, set_pending (delete id (mm_pending_requests m)) m).

(** ** Dispatch *)

(** What a message meets outside of the program: the clock of
    [process_message] and that of its handler, and what a read that fails
    leaves in the response. *)
Record MsgEnv := { me_now : Z; me_handler_now : Z; me_partial : list Z }.

(** The handlers of a node with state [S]: from the message and the response
    under construction to the response. *)
Class Handlers (S : Type) := handler : Z → option (MsgEnv → dist_message → dist_message → S → option (dist_message * S)).

Record View (S : Type) := mkView { v_shm : dist_shm_header; v_mgr : Manager; v_node : S }.
Arguments mkView {S} _ _ _.
Arguments v_shm {S} _.
Arguments v_mgr {S} _.
Arguments v_node {S} _.

(** The zeroed response with its header. *)
Definition response_to (env : MsgEnv) (m : Manager) (msg : dist_message) : dist_message :=
  message DIST_MSG_NONE (msg_id (header msg)) (mm_local_node_id m) (src_node_id (header msg)) (u64 (me_now env)) zero_payload.

(** [handlers_.find(type)] *)
Definition registered {S} `{Handlers S} (m : Manager) (type : Z)
    : option (MsgEnv → dist_message → dist_message → S → option (dist_message * S)) :=
  if bool_decide (type ∈ mm_handlers m) then handler type else None.

Definition process_message {S} `{Handlers S} (env : MsgEnv) (msg : dist_message) (v : View S) : option (View S) :=
  let m := v_mgr v in
  match mm_pending_requests m !! msg_id (header msg) with
  | Some _ =>
      let pending := {| pr_response := msg; pr_completed := true |} in
      Some (mkView (v_shm v) (set_pending (<[msg_id (header msg) := pending]> (mm_pending_requests m)) m) (v_node v))
  | None =>
      match registered m (msg_type (header msg)) with
      | None => Some v
      | Some f =>
          '(resp, s1) ← f env msg (response_to env m msg) (v_node v);
          if msg_type (header resp) =? DIST_MSG_NONE then Some (mkView (v_shm v) m s1)
          else '(_, g1) ← send_message m (src_node_id (header msg)) resp (v_shm v); Some (mkView g1 m s1)
      end
  end.

(** The inner loop of [poll_messages]; [n] messages may still be processed. *)
Fixpoint poll_node {S} `{Handlers S} (env : nat → MsgEnv) (src_node : Z) (n : nat) (v : View S) : option (nat * View S) :=
  match n with
  | O => Some (O, v)
  | Datatypes.S n' =>
      '(r, g1) ← dequeue_message (v_mgr v) src_node (v_shm v);
      match r with
      | None => Some (n, mkView g1 (v_mgr v) (v_node v))
      | Some msg => v1 ← process_message (env n) msg (mkView g1 (v_mgr v) (v_node v)); poll_node env src_node n' v1
      end
  end.

Fixpoint poll_nodes {S} `{Handlers S} (env : nat → MsgEnv) (nodes : list Z) (n : nat) (v : View S) : option (nat * View S) :=
  match nodes with
  | [] => Some (n, v)
  | src_node :: rest =>
      if (src_node =? mm_local_node_id (v_mgr v)) || negb (is_node_active (v_mgr v) (v_shm v) src_node) then poll_nodes env rest n v
      else '(n1, v1) ← poll_node env src_node n v; poll_nodes env rest n1 v1
  end.

(** [poll_messages]: the number of messages processed, and the state after. *)
Definition poll_messages {S} `{Handlers S} (env : nat → MsgEnv) (max_messages : nat) (v : View S) : option (nat * View S) :=
  '(n, v1) ← poll_nodes env node_ids max_messages v; Some ((max_messages - n)%nat, v1).

(** ** Heartbeats and statistics *)

Definition send_heartbeat (now : Z) (m : Manager) (g : dist_shm_header) : option (Manager * dist_shm_header) :=
  if negb (mm_mapped m) then Some (m, g)
  else
    let i := Z.to_nat (mm_local_node_id m) in
    st ← g_nodes g !! i;
    let st1 := set_status (ns_state st) (u64 now) st in
    let g1 := set_nodes (g_num_nodes g) (<[i := st1]> (g_nodes g)) g in
    let '(id, m1) := generate_msg_id m in
    let hb_msg := message DIST_MSG_NODE_HEARTBEAT id (mm_local_node_id m) 0 (ns_last_heartbeat st1)
      (set_field node_memory_size (ns_memory_size st1) (set_field node_memory_base (ns_memory_base st1)
        (set_field node_node_state (ns_state st1) (set_field node_node_id (mm_local_node_id m) zero_payload)))) in
    '(_, g2) ← broadcast_message m1 hb_msg g1; Some (m1, g2).

Record MsgStats := { st_messages_sent : Z; st_messages_received : Z; st_messages_dropped : Z; st_avg_latency_ns : Z }.

Definition get_stats (m : Manager) (g : dist_shm_header) : MsgStats :=
  if negb (mm_mapped m) then {| st_messages_sent := 0; st_messages_received := 0; st_messages_dropped := 0; st_avg_latency_ns := 0 |}
  else {| st_messages_sent := foldl (λ acc q, acc +w q_total_sent q) 0 (g_queues g);
          st_messages_received := foldl (λ acc q, acc +w q_total_received q) 0 (g_queues g);
          st_messages_dropped := foldl (λ acc q, acc +w q_total_dropped q) 0 (g_queues g); st_avg_latency_ns := 0 |}.

(** ** The accesses of a worker

    [dequeue_message] as the two workers of a node run it: the steps of one
    are its accesses to the queue, and they interleave with those of the other. *)

Inductive WorkerPc :=
  | WLoadHead
  | WLoadTail (head : Z)
  | WCopy (tail : Z)
  | WStoreTail (tail : Z) (msg : dist_message)
  | WCount (msg : dist_message)
  | WReceived (msg : dist_message)
  | WDone (r : option dist_message).

Definition worker_step (pc : WorkerPc) (q : dist_node_queue) : WorkerPc * dist_node_queue :=
  let upd tail count received :=
    {| q_head := q_head q; q_tail := tail; q_msg_count := count; q_capacity := q_capacity q; q_total_sent := q_total_sent q;
       q_total_received := received; q_total_dropped := q_total_dropped q; q_messages := q_messages q |} in
  match pc with
  | WLoadHead => (WLoadTail (q_head q), q)
  | WLoadTail head => (if head =? q_tail q then WDone None else WCopy (q_tail q), q)
  | WCopy tail => (WStoreTail tail (message_at q tail), q)
  | WStoreTail tail msg => (WCount msg, upd (u32 (tail + 1) mod q_capacity q) (q_msg_count q) (q_total_received q))
  | WCount msg => (WReceived msg, upd (q_tail q) (u32 (q_msg_count q - 1)) (q_total_received q))
  | WReceived msg => (WDone (Some msg), upd (q_tail q) (q_msg_count q) (q_total_received q +w 1))
  | WDone r => (WDone r, q)
  end.

(** Two workers under a schedule: [true] is a step of the first. *)
Fixpoint run_workers (schedule : list bool) (w1 w2 : WorkerPc) (q : dist_node_queue) : WorkerPc * WorkerPc * dist_node_queue :=
  match schedule with
  | [] => (w1, w2, q)
  | true :: rest => let '(w1', q') := worker_step w1 q in run_workers rest w1' w2 q'
  | false :: rest => let '(w2', q') := worker_step w2 q in run_workers rest w1 w2' q'
  end.

(** ** Specification: channels

    The segment is a FIFO channel per ordered pair of nodes. *)

(** The number of messages that wait in a queue, and the messages. *)
Definition q_length (q : dist_node_queue) : Z := (q_head q - q_tail q) mod DIST_MSG_QUEUE_SIZE.

Definition q_contents (q : dist_node_queue) : list dist_message :=
  (λ i, message_at q ((q_tail q + i) mod DIST_MSG_QUEUE_SIZE)) <$> seqZ 0 (q_length q).

Definition chan (g : dist_shm_header) (src dst : Z) : list dist_message :=
  default [] (q_contents <$> g_queues g !! queue_index src dst).

Record queue_ok (q : dist_node_queue) : Prop := {
  qo_capacity : q_capacity q = DIST_MSG_QUEUE_SIZE;
  qo_head : 0 <= q_head q < DIST_MSG_QUEUE_SIZE;
  qo_tail : 0 <= q_tail q < DIST_MSG_QUEUE_SIZE;
  qo_count : q_msg_count q = q_length q;
  qo_received : is_u64 (q_total_received q);
  qo_sent : q_total_sent q = q_total_received q +w q_length q
}.

Record seg_inv (g : dist_shm_header) : Prop := {
  si_nodes : length (g_nodes g) = 16%nat;
  si_queues : length (g_queues g) = 256%nat;
  si_ok : Forall queue_ok (g_queues g)
}.

Definition is_node (n : Z) : Prop := 0 <= n < DIST_MAX_NODES.

(** ** Lemmas: bytes *)

Lemma get_bytes_length off n p : (off + n ≤ length p)%nat → length (get_bytes off n p) = n.
Proof. intros H. unfold get_bytes. rewrite length_take, length_drop. lia. Qed.

Lemma set_bytes_length off bs p : (off + length bs ≤ length p)%nat → length (set_bytes off bs p) = length p.
Proof. intros H. unfold set_bytes. rewrite !length_app, length_take, length_drop. lia. Qed.

Lemma get_set_bytes off n bs p : n = length bs → (off ≤ length p)%nat → get_bytes off n (set_bytes off bs p) = bs.
Proof.
  intros -> H. unfold get_bytes, set_bytes. rewrite drop_app_length' by (rewrite length_take; lia). by apply take_app_length'.
Qed.

Lemma set_bytes_lookup off bs p i :
  (off + length bs ≤ length p)%nat → (i < off ∨ off + length bs ≤ i)%nat → set_bytes off bs p !! i = p !! i.
Proof.
  intros H Hi. unfold set_bytes. destruct (decide (i < off)%nat).
  - rewrite lookup_app_l by (rewrite length_take; lia). by apply lookup_take_lt.
  - rewrite lookup_app_r, length_take by (rewrite length_take; lia). rewrite lookup_app_r, lookup_drop by lia. f_equal. lia.
Qed.

Lemma get_set_bytes_other off n off' bs p :
  (off' + length bs ≤ length p)%nat → (off + n ≤ off' ∨ off' + length bs ≤ off)%nat →
  get_bytes off n (set_bytes off' bs p) = get_bytes off n p.
Proof.
  intros H Ho. unfold get_bytes. apply list_eq. intros i. destruct (decide (i < n)%nat).
  - rewrite !lookup_take_lt, !lookup_drop by done. apply set_bytes_lookup; lia.
  - rewrite !lookup_take_ge by lia. done.
Qed.

Lemma set_field_length f v p : (f_off f + f_len f ≤ length p)%nat → length (set_field f v p) = length p.
Proof. intros H. apply set_bytes_length. by rewrite le_encode_length. Qed.

Lemma get_set_field f v p : (f_off f + f_len f ≤ length p)%nat → get_field f (set_field f v p) = v mod 256 ^ Z.of_nat (f_len f).
Proof.
  intros H. unfold get_field, set_field. rewrite get_set_bytes by (rewrite ?le_encode_length; lia || done). rewrite le_decode_encode. apply Zmod_mod.
Qed.

Lemma get_set_field_other f f' v p :
  (f_off f' + f_len f' ≤ length p)%nat → (f_off f + f_len f ≤ f_off f' ∨ f_off f' + f_len f' ≤ f_off f)%nat →
  get_field f (set_field f' v p) = get_field f p.
Proof. intros H Ho. unfold get_field, set_field. by rewrite get_set_bytes_other by (rewrite ?le_encode_length; done). Qed.

(** The same for buffers of 256 bytes, with conditions that evaluate. *)
Definition fits (f : Field) : bool := (f_off f + f_len f <=? 256)%nat.
Definition apart (f f' : Field) : bool := ((f_off f + f_len f <=? f_off f') || (f_off f' + f_len f' <=? f_off f))%nat.

Lemma set_field_256 f v p : fits f = true → length p = 256%nat → length (set_field f v p) = 256%nat.
Proof. intros Hf%Nat.leb_le Hp. by rewrite set_field_length by lia. Qed.

Lemma set_bytes_256 off bs p : (off + length bs ≤ 256)%nat → length p = 256%nat → length (set_bytes off bs p) = 256%nat.
Proof. intros Hb Hp. by rewrite set_bytes_length by lia. Qed.

Lemma field_same f v p : fits f = true → length p = 256%nat → get_field f (set_field f v p) = v mod 256 ^ Z.of_nat (f_len f).
Proof. intros Hf%Nat.leb_le Hp. apply get_set_field. lia. Qed.

Lemma field_other f f' v p : apart f f' = true → fits f' = true → length p = 256%nat → get_field f (set_field f' v p) = get_field f p.
Proof.
  intros Ha Hf%Nat.leb_le Hp. apply get_set_field_other; [lia|]. apply orb_prop in Ha as [?%Nat.leb_le|?%Nat.leb_le]; lia.
Qed.

Lemma bytes_other off n f v p :
  (f_off f + f_len f ≤ off)%nat → fits f = true → length p = 256%nat → get_bytes off n (set_field f v p) = get_bytes off n p.
Proof. intros Ha Hf%Nat.leb_le Hp. unfold set_field. apply get_set_bytes_other; rewrite le_encode_length; lia. Qed.

(** A payload: 256 bytes, the last of them zero; the client of a memory request is a node. *)
Record payload_ok (p : list Z) : Prop := {
  po_length : length p = 256%nat;
  po_last : p !! 255%nat = Some 0;
  po_client : get_field mem_client_id p ≠ UINT32_MAX
}.

Lemma zero_payload_ok : payload_ok zero_payload.
Proof. by split. Qed.

Lemma payload_set_bytes off bs p :
  (off + length bs ≤ 40 ∨ 44 ≤ off)%nat → (off + length bs ≤ 255)%nat → payload_ok p → payload_ok (set_bytes off bs p).
Proof.
  intros Ho Hb [Hl H0 Hc]. split; [rewrite set_bytes_length; lia|rewrite set_bytes_lookup; [done|lia|lia]|].
  unfold get_field. rewrite get_set_bytes_other; [done|lia|simpl; lia].
Qed.

(** The fields whose change keeps a payload well formed, apart from the client. *)
Definition plain_field (f : Field) : bool := ((f_off f + f_len f <=? 40) || (44 <=? f_off f))%nat && (f_off f + f_len f <=? 255)%nat.

Lemma payload_set_field f v p : plain_field f = true → payload_ok p → payload_ok (set_field f v p).
Proof.
  unfold plain_field. intros [Hf Hb%Nat.leb_le]%andb_prop Hp. apply payload_set_bytes; [|by rewrite le_encode_length|done].
  rewrite le_encode_length. apply orb_prop in Hf as [?%Nat.leb_le|?%Nat.leb_le]; lia.
Qed.

Lemma payload_set_client v p : u32 v ≠ UINT32_MAX → payload_ok p → payload_ok (set_field mem_client_id v p).
Proof.
  intros Hv [Hl H0 _]. split; [rewrite set_field_length; simpl; lia|unfold set_field; rewrite set_bytes_lookup; [done|simpl; lia|simpl; lia]|].
  rewrite get_set_field by (simpl; lia). done.
Qed.

#[export] Hint Resolve zero_payload_ok payload_set_field : cxl.
#[export] Hint Extern 1 (plain_field _ = true) => reflexivity : cxl.
#[export] Hint Resolve set_field_256 set_bytes_256 po_length : cxl.
#[export] Hint Extern 1 (fits _ = true) => reflexivity : cxl.
#[export] Hint Extern 1 (apart _ _ = true) => reflexivity : cxl.

(** Evaluates the fields of a payload under updates. *)
Ltac payload_simpl :=
  repeat (rewrite field_other by auto 20 with cxl); rewrite ?field_same by auto 20 with cxl.

(** ** Lemmas: queues *)

Lemma q_length_bound q : 0 <= q_length q < DIST_MSG_QUEUE_SIZE.
Proof. apply Z.mod_pos_bound. done. Qed.

Lemma q_contents_length q : length (q_contents q) = Z.to_nat (q_length q).
Proof. unfold q_contents. by rewrite length_fmap, length_seqZ. Qed.

Lemma q_contents_ext q q' :
  q_tail q' = q_tail q → q_length q' = q_length q →
  (∀ i, 0 <= i < q_length q → message_at q' ((q_tail q + i) mod DIST_MSG_QUEUE_SIZE) = message_at q ((q_tail q + i) mod DIST_MSG_QUEUE_SIZE)) →
  q_contents q' = q_contents q.
Proof.
  intros Ht Hl Hm. unfold q_contents. rewrite Ht, Hl. apply list_fmap_ext. intros k i [-> Hk]%lookup_seqZ. apply Hm. lia.
Qed.

Lemma queue_push_full msg q :
  queue_ok q → q_length q = DIST_MSG_QUEUE_SIZE - 1 →
  ∃ q', queue_push msg q = Some (false, q') ∧ queue_ok q' ∧ q_contents q' = q_contents q.
Proof.
  intros [Hc Hh Ht Hn Hr Hs] Hl. unfold queue_push. rewrite Hc. unfold q_length, DIST_MSG_QUEUE_SIZE in *. cbn [Z.eqb].
  assert (u32 (q_head q + 1) mod 4096 = q_tail q) as -> by mlia. rewrite Z.eqb_refl.
  eexists. split; [reflexivity|]. split; [by split|by apply q_contents_ext].
Qed.

Lemma queue_push_ok msg q :
  queue_ok q → q_length q < DIST_MSG_QUEUE_SIZE - 1 →
  ∃ q', queue_push msg q = Some (true, q') ∧ queue_ok q' ∧ q_contents q' = q_contents q ++ [msg].
Proof.
  intros [Hc Hh Ht Hn Hr Hs] Hl. pose proof (q_length_bound q) as Hb. unfold queue_push. rewrite Hc.
  unfold DIST_MSG_QUEUE_SIZE in *. cbn [Z.eqb].
  assert (u32 (q_head q + 1) mod 4096 ≠ q_tail q) as Hne%Z.eqb_neq by (unfold q_length, DIST_MSG_QUEUE_SIZE in *; mlia).
  rewrite Hne. destruct (4096 <=? q_head q) eqn:E; btests; [lia|]. eexists. split; [reflexivity|].
  set (q' := Build_dist_node_queue _ _ _ _ _ _ _ _).
  assert (q_length q' = q_length q + 1) as Hl' by (unfold q', q_length, DIST_MSG_QUEUE_SIZE in *; simpl; mlia).
  split.
  - split; [done|unfold DIST_MSG_QUEUE_SIZE; simpl; mlia|done|rewrite Hl'; simpl; rewrite Hn; mlia|done|].
    rewrite Hl'. simpl. rewrite Hs. mlia.
  - unfold q_contents. rewrite Hl'. rewrite seqZ_app, fmap_app by lia. f_equal.
    + apply list_fmap_ext. intros k i [-> Hk]%lookup_seqZ. unfold message_at, q'. simpl.
      rewrite lookup_insert_ne; [done|]. unfold q_length, DIST_MSG_QUEUE_SIZE in *. mlia.
    + rewrite Z.add_0_l, (seqZ_cons (q_length q) 1) by lia. change (seqZ _ (Z.pred 1)) with (@nil Z). cbn [fmap list_fmap].
      unfold message_at, q'. cbn [q_tail q_messages].
      assert ((q_tail q + q_length q) mod DIST_MSG_QUEUE_SIZE = q_head q) as -> by (unfold q_length, DIST_MSG_QUEUE_SIZE in *; mlia).
      by rewrite lookup_insert_eq.
Qed.

Lemma queue_pop_empty q : queue_ok q → q_contents q = [] → queue_pop q = Some (None, q).
Proof.
  intros [Hc Hh Ht Hn Hr Hs] He. apply (f_equal length) in He. rewrite q_contents_length in He. simpl in He. unfold queue_pop.
  assert (q_head q = q_tail q) as -> by (pose proof (q_length_bound q); unfold q_length, DIST_MSG_QUEUE_SIZE in *; mlia).
  by rewrite Z.eqb_refl.
Qed.

Lemma queue_pop_ok q msg rest :
  queue_ok q → q_contents q = msg :: rest → ∃ q', queue_pop q = Some (Some msg, q') ∧ queue_ok q' ∧ q_contents q' = rest.
Proof.
  intros [Hc Hh Ht Hn Hr Hs] He. pose proof (q_length_bound q) as Hb.
  assert (0 < q_length q) as Hl by (apply (f_equal length) in He; rewrite q_contents_length in He; simpl in He; lia).
  unfold q_contents in He. rewrite seqZ_cons in He by done. simpl in He. injection He as Hm Hrest. rewrite Z.add_0_r, Z.mod_small in Hm by done.
  unfold queue_pop. rewrite Hc. unfold DIST_MSG_QUEUE_SIZE in *.
  destruct (q_head q =? q_tail q) eqn:E; btests; [unfold q_length, DIST_MSG_QUEUE_SIZE in *; mlia|].
  destruct (4096 <=? q_tail q) eqn:E2; btests; [lia|]. simpl. rewrite Hm. eexists. split; [reflexivity|].
  set (q' := Build_dist_node_queue _ _ _ _ _ _ _ _).
  assert (q_length q' = q_length q - 1) as Hl' by (unfold q', q_length, DIST_MSG_QUEUE_SIZE in *; simpl; mlia).
  split.
  - split; [done|done|unfold DIST_MSG_QUEUE_SIZE; simpl; mlia|rewrite Hl'; simpl; rewrite Hn; mlia|apply u64_range|].
    rewrite Hl'. simpl. rewrite Hs. unfold u64. rewrite Zplus_mod_idemp_l. f_equal. lia.
  - unfold q_contents. rewrite Hl'. rewrite <- Hrest. replace (q_length q - 1) with (Z.pred (q_length q)) by lia.
    rewrite <- (fmap_add_seqZ 1 0), <- list_fmap_compose. apply list_fmap_ext. intros k i [-> Hk]%lookup_seqZ.
    unfold message_at, q', compose, DIST_MSG_QUEUE_SIZE. simpl. do 2 f_equal. mlia.
Qed.

(** ** Lemmas: the segment *)

Lemma queue_index_node s d : is_node s → is_node d → queue_index s d = Z.to_nat (s * 16 + d) ∧ (queue_index s d < 256)%nat.
Proof. unfold is_node, queue_index, DIST_MAX_NODES. intros Hs Hd. rewrite u32_small by mlia. lia. Qed.

Lemma queue_index_inj s d s' d' :
  is_node s → is_node d → is_node s' → is_node d' → queue_index s d = queue_index s' d' → s = s' ∧ d = d'.
Proof.
  intros Hs Hd Hs' Hd'. rewrite (proj1 (queue_index_node s d Hs Hd)), (proj1 (queue_index_node s' d' Hs' Hd')).
  unfold is_node, DIST_MAX_NODES in *. lia.
Qed.

Lemma queue_of g s d : seg_inv g → is_node s → is_node d → ∃ q, g_queues g !! queue_index s d = Some q ∧ queue_ok q ∧ chan g s d = q_contents q.
Proof.
  intros [_ Hl Hq] Hs Hd. destruct (queue_index_node s d Hs Hd) as [_ Hi].
  destruct (lookup_lt_is_Some_2 (g_queues g) (queue_index s d)) as [q Hlk]; [lia|].
  exists q. split_and!; [done|by eapply Forall_lookup_1|]. unfold chan. by rewrite Hlk.
Qed.

(** A segment with the queue of a pair of nodes replaced. *)
Lemma set_queue_inv g i q : seg_inv g → queue_ok q → seg_inv (set_queues (<[i := q]> (g_queues g)) g).
Proof. intros [Hn Hl Hq] Hok. split; cbn [g_nodes g_queues set_queues]; [done|by rewrite length_insert|by apply Forall_insert]. Qed.

Lemma chan_set_queue g a b q q0 s d :
  is_node a → is_node b → is_node s → is_node d → g_queues g !! queue_index a b = Some q0 →
  chan (set_queues (<[queue_index a b := q]> (g_queues g)) g) s d = if (s =? a) && (d =? b) then q_contents q else chan g s d.
Proof.
  intros Ha Hb Hs Hd Hlk. unfold chan. cbn [g_queues set_queues]. destruct ((s =? a) && (d =? b)) eqn:E; btests.
  - subst. rewrite list_lookup_insert_eq; [done|]. by eapply lookup_lt_Some.
  - rewrite list_lookup_insert_ne; [done|]. intros Heq. apply queue_index_inj in Heq as [-> ->]; [|done..].
    by rewrite !Z.eqb_refl in E.
Qed.

(** A message was put into the channel from [l] to [dst], or dropped. *)
Record sent (ok : bool) (l dst : Z) (msg : dist_message) (g g' : dist_shm_header) : Prop := {
  sn_inv : seg_inv g';
  sn_nodes : g_nodes g' = g_nodes g;
  sn_chan : ∀ s d, is_node s → is_node d →
    chan g' s d = if ok && ((s =? l) && (d =? dst)) then chan g s d ++ [msg] else chan g s d
}.

(** Channels hold at most one message less than the size of their ring. *)
Definition has_room (g : dist_shm_header) (l dst : Z) : bool := Z.of_nat (length (chan g l dst)) <? DIST_MSG_QUEUE_SIZE - 1.

Lemma enqueue_sent m dst msg g :
  seg_inv g → is_node (mm_local_node_id m) → 0 <= dst →
  ∃ ok g', enqueue_message m dst msg g = Some (ok, g') ∧ sent ok (mm_local_node_id m) dst msg g g' ∧
    ok = mm_mapped m && (dst <? DIST_MAX_NODES) && has_room g (mm_local_node_id m) dst.
Proof.
  intros Hi Hl Hd. unfold enqueue_message. destruct (mm_mapped m); cbn [negb orb andb];
    [|exists false, g; split_and!; [done|by split|done]].
  destruct (DIST_MAX_NODES <=? dst) eqn:E; btests.
  { exists false, g. destruct (dst <? DIST_MAX_NODES) eqn:E2; btests; [lia|]. split_and!; [done|by split|done]. }
  assert (is_node dst) as Hn by (unfold is_node; lia). destruct (dst <? DIST_MAX_NODES) eqn:E2; btests; [|lia]. cbn [andb].
  destruct (queue_of g (mm_local_node_id m) dst Hi Hl Hn) as (q & Hlk & Hq & Hch). rewrite Hlk. cbn [mbind option_bind].
  assert (has_room g (mm_local_node_id m) dst = (q_length q <? DIST_MSG_QUEUE_SIZE - 1)) as ->.
  { unfold has_room. rewrite Hch, q_contents_length. pose proof (q_length_bound q). by rewrite Z2Nat.id by lia. }
  destruct (q_length q <? DIST_MSG_QUEUE_SIZE - 1) eqn:El; btests.
  - destruct (queue_push_ok msg q Hq El) as (q' & -> & Hq' & Hc). cbn [mbind option_bind]. eexists _, _. split; [reflexivity|].
    split; [|done]. split; [by apply set_queue_inv|done|]. intros s d Hs Hd'. rewrite (chan_set_queue g _ _ q' q) by done. cbn [andb].
    destruct (_ && _) eqn:E3; btests; [|done]. subst. by rewrite Hc, Hch.
  - destruct (queue_push_full msg q Hq) as (q' & -> & Hq' & Hc); [pose proof (q_length_bound q); lia|].
    cbn [mbind option_bind]. eexists _, _. split; [reflexivity|].
    split; [|done]. split; [by apply set_queue_inv|done|]. intros s d Hs Hd'. rewrite (chan_set_queue g _ _ q' q) by done. cbn [andb].
    destruct (_ && _) eqn:E3; btests; [|done]. subst. by rewrite Hc, Hch.
Qed.

(** The oldest message was taken out of the channel from [src] to [l]. *)
Record taken (r : option dist_message) (src l : Z) (g g' : dist_shm_header) : Prop := {
  tk_inv : seg_inv g';
  tk_nodes : g_nodes g' = g_nodes g;
  tk_msg : r = head (chan g src l);
  tk_chan : ∀ s d, is_node s → is_node d → chan g' s d = if (s =? src) && (d =? l) then tail (chan g s d) else chan g s d
}.

Lemma dequeue_taken m src g :
  seg_inv g → is_node (mm_local_node_id m) → is_node src → mm_mapped m = true →
  ∃ r g', dequeue_message m src g = Some (r, g') ∧ taken r src (mm_local_node_id m) g g'.
Proof.
  intros Hi Hl Hs Hm. unfold dequeue_message. rewrite Hm. cbn [negb orb].
  destruct (DIST_MAX_NODES <=? src) eqn:E; btests; [unfold is_node in Hs; lia|].
  destruct (queue_of g src (mm_local_node_id m) Hi Hs Hl) as (q & Hlk & Hq & Hch). rewrite Hlk. cbn [mbind option_bind].
  destruct (q_contents q) as [|msg rest] eqn:Ec.
  - rewrite queue_pop_empty by done. cbn [mbind option_bind]. eexists _, _. split; [reflexivity|]. split; [by apply set_queue_inv|done|by rewrite Hch|].
    intros s d Hs' Hd'. rewrite (chan_set_queue g _ _ q q) by done. destruct (_ && _) eqn:E3; btests; [|done]. subst. by rewrite Hch, Ec.
  - destruct (queue_pop_ok q msg rest Hq Ec) as (q' & -> & Hq' & Hc). cbn [mbind option_bind]. eexists _, _. split; [reflexivity|].
    split; [by apply set_queue_inv|done|by rewrite Hch|].
    intros s d Hs' Hd'. rewrite (chan_set_queue g _ _ q' q) by done. destruct (_ && _) eqn:E3; btests; [|done]. subst. by rewrite Hch.
Qed.

Lemma forallb_ext_elem {A} (f h : A → bool) l : (∀ x, x ∈ l → f x = h x) → forallb f l = forallb h l.
Proof. induction l as [|x l IH]; intros E; [done|]. simpl. rewrite E, IH by set_solver. done. Qed.

(** What [send_all] did: every listed node but the sender got the message, if its channel had room. *)
Lemma send_all_sent m msg nodes ok g :
  seg_inv g → is_node (mm_local_node_id m) → mm_mapped m = true → NoDup nodes → Forall is_node nodes →
  ∃ ok' g', send_all m msg nodes ok g = Some (ok', g') ∧ seg_inv g' ∧ g_nodes g' = g_nodes g ∧
    ok' = ok && forallb (λ n, (n =? mm_local_node_id m) || has_room g (mm_local_node_id m) n) nodes ∧
    ∀ s d, is_node s → is_node d →
      chan g' s d = if (s =? mm_local_node_id m) && bool_decide (d ∈ nodes) && negb (d =? mm_local_node_id m) && has_room g (mm_local_node_id m) d
                    then chan g s d ++ [msg] else chan g s d.
Proof.
  intros Hi Hl Hm. revert ok g Hi. induction nodes as [|n nodes IH]; intros ok g Hi Hnd Hns; cbn [send_all forallb].
  { exists ok, g. split_and!; [done..|by rewrite andb_true_r|]. intros s d _ _. by rewrite andb_false_r. }
  apply NoDup_cons in Hnd as [Hni Hnd]. apply Forall_cons in Hns as [Hn Hns]. set (l := mm_local_node_id m) in *.
  destruct (n =? l) eqn:E; btests; cbn [orb].
  - subst n. destruct (IH ok g Hi Hnd Hns) as (ok' & g' & -> & Hi' & Hns' & -> & Hc). exists (ok && forallb (λ n, (n =? l) || has_room g l n) nodes), g'.
    split_and!; [done..|]. intros s d Hs Hd. rewrite Hc by done. destruct (d =? l) eqn:Ed; btests; [by rewrite !andb_false_r|].
    by rewrite (bool_decide_ext (d ∈ nodes) (d ∈ l :: nodes)) by set_solver.
  - destruct (enqueue_sent m n msg g Hi Hl) as (b & g1 & He & [Hi1 Hn1 Hc1] & Hb); [apply Hn|]. unfold send_message. rewrite He. cbn [mbind option_bind].
    rewrite Hm in Hb. replace (n <? DIST_MAX_NODES) with true in Hb by (symmetry; apply Z.ltb_lt, Hn). cbn [andb] in Hb. fold l in Hb, Hc1.
    assert (∀ d, is_node d → d ≠ n → has_room g1 l d = has_room g l d) as Hroom.
    { intros d Hd Hne. unfold has_room. rewrite Hc1 by done. apply Z.eqb_neq in Hne. by rewrite Hne, !andb_false_r. }
    destruct (IH (ok && b) g1 Hi1 Hnd Hns) as (ok' & g' & -> & Hi' & Hns' & -> & Hc). eexists _, g'. split_and!; [done..|congruence| |].
    + rewrite <- andb_assoc, Hb. do 2 f_equal. apply forallb_ext_elem. intros x Hx. fold l.
      rewrite Hroom; [done|by eapply Forall_forall|set_solver].
    + intros s d Hs Hd. rewrite Hc by done. rewrite Hc1 by done. destruct (s =? l) eqn:Es; cbn [andb]; [|by rewrite andb_false_r].
      destruct (decide (d = n)) as [->|Hne].
      * rewrite bool_decide_false by done. rewrite bool_decide_true by set_solver. apply Z.eqb_neq in E. rewrite E, Z.eqb_refl, <- Hb.
        cbn [andb negb]. by rewrite andb_true_r.
      * rewrite Hroom by done. rewrite (bool_decide_ext (d ∈ nodes) (d ∈ n :: nodes)) by set_solver. 
        apply Z.eqb_neq in Hne. by rewrite Hne, andb_false_r.
Qed.

Lemma node_ids_nodes : NoDup node_ids ∧ Forall is_node node_ids.
Proof.
  split; [apply NoDup_seqZ|]. apply Forall_forall. intros n Hn%elem_of_seqZ. unfold is_node. lia.
Qed.

Lemma elem_of_node_ids n : n ∈ node_ids ↔ is_node n.
Proof. unfold node_ids. rewrite elem_of_seqZ. unfold is_node. lia. Qed.

Lemma active_nodes_ok m g : NoDup (get_active_nodes m g) ∧ Forall is_node (get_active_nodes m g).
Proof.
  destruct node_ids_nodes as [Hn Hf]. split.
  - unfold get_active_nodes, keep. by apply NoDup_filter.
  - apply Forall_forall. intros n [_ Hn']%elem_of_keep. by rewrite Forall_forall in Hf; apply Hf.
Qed.

(** ** Lemmas: dispatch *)

Record msg_ok (msg : dist_message) : Prop := {
  mo_id : is_u32 (msg_id (header msg));
  mo_src : is_node (src_node_id (header msg));
  mo_payload : payload_ok (payload msg)
}.

Definition env_ok (env : MsgEnv) : Prop := length (me_partial env) = 64%nat.

Definition seg_msgs (g : dist_shm_header) : Prop := ∀ s d, is_node s → is_node d → Forall msg_ok (chan g s d).

(** What the handlers of a node promise to its manager: on states with [P]
    they are defined, keep [P], and build a message with the given identifier. *)
Class HandlersOk (S : Type) `{Handlers S} (P : S → Prop) := handler_ok : ∀ t f env msg resp s,
  handler t = Some f → env_ok env → msg_ok msg → msg_ok resp → P s →
  ∃ resp' s', f env msg resp s = Some (resp', s') ∧ P s' ∧ msg_ok resp' ∧ msg_id (header resp') = msg_id (header resp).

Record view_inv {S} (P : S → Prop) (v : View S) : Prop := {
  vi_seg : seg_inv (v_shm v);
  vi_msgs : seg_msgs (v_shm v);
  vi_node : is_node (mm_local_node_id (v_mgr v));
  vi_mapped : mm_mapped (v_mgr v) = true;
  vi_state : P (v_node v)
}.

(** What the processing of messages leaves alone; the channels from other
    nodes are [ch] afterwards, those from the node itself may have grown. *)
Record processed {S} (ch : Z → Z → list dist_message) (v v' : View S) : Prop := {
  pc_nodes : g_nodes (v_shm v') = g_nodes (v_shm v);
  pc_local : mm_local_node_id (v_mgr v') = mm_local_node_id (v_mgr v);
  pc_mapped : mm_mapped (v_mgr v') = mm_mapped (v_mgr v);
  pc_next : mm_next_msg_id (v_mgr v') = mm_next_msg_id (v_mgr v);
  pc_chan : ∀ s d, is_node s → is_node d → s ≠ mm_local_node_id (v_mgr v) → chan (v_shm v') s d = ch s d
}.

Lemma response_to_ok env m msg : is_node (mm_local_node_id m) → msg_ok msg → msg_ok (response_to env m msg).
Proof. intros Hl [Hi _ _]. split; [done|done|apply zero_payload_ok]. Qed.

Lemma sent_msgs ok l dst msg g g' : sent ok l dst msg g g' → seg_msgs g → msg_ok msg → seg_msgs g'.
Proof.
  intros [_ _ Hc] Hm Hok s d Hs Hd. rewrite Hc by done. destruct (_ && _); [|by apply Hm]. apply Forall_app. split; [by apply Hm|by constructor].
Qed.

Lemma process_ok {S} `{HandlersOk S P} env msg v :
  view_inv P v → msg_ok msg → env_ok env → ∃ v', process_message env msg v = Some v' ∧ view_inv P v' ∧ processed (chan (v_shm v)) v v'.
Proof.
  intros [Hs Hm Hn Hmp HP] Hok He. unfold process_message.
  destruct (mm_pending_requests (v_mgr v) !! _); [by eexists; split; [done|]; split; split|].
  unfold registered. destruct (bool_decide _); [|by eexists; split; [done|]; split; split].
  destruct (handler (msg_type (header msg))) as [f|] eqn:Ef; [|by eexists; split; [done|]; split; split].
  destruct (handler_ok _ f env msg (response_to env (v_mgr v) msg) (v_node v) Ef He Hok) as (resp & s' & -> & HP' & Hr & _);
    [by apply response_to_ok|done|]. cbn [mbind option_bind].
  destruct (_ =? DIST_MSG_NONE); [by eexists; split; [done|]; split; split|]. unfold send_message.
  destruct (enqueue_sent (v_mgr v) (src_node_id (header msg)) resp (v_shm v) Hs Hn) as (ok & g' & -> & Hsent & _); [apply Hok|].
  cbn [mbind option_bind]. eexists. split; [done|]. pose proof (sent_msgs _ _ _ _ _ _ Hsent Hm Hr) as Hm'. destruct Hsent as [Hi Hns Hc].
  split; [by split|]. split; [done..|]. intros s d Hs' Hd Hne. simpl. rewrite Hc by done. apply Z.eqb_neq in Hne. by rewrite Hne, andb_false_r.
Qed.

Lemma processed_trans {S} c1 c2 (v1 v2 v3 : View S) : processed c1 v1 v2 → processed c2 v2 v3 → processed c2 v1 v3.
Proof. intros [? ? ? ? Hc] [? ? ? ? Hc']. split; try congruence. intros s d Hs Hd Hne. apply Hc'; congruence. Qed.

Lemma processed_ext {S} c1 c2 (v v' : View S) :
  processed c1 v v' → (∀ s d, is_node s → is_node d → s ≠ mm_local_node_id (v_mgr v) → c1 s d = c2 s d) → processed c2 v v'.
Proof. intros [? ? ? ? Hc] He. split; [done..|]. intros s d Hs Hd Hne. rewrite Hc by done. by apply He. Qed.

Lemma processed_refl {S} (v : View S) : processed (chan (v_shm v)) v v.
Proof. by split. Qed.

(** A message is taken out of a channel. *)
Lemma dequeue_ok {S} (P : S → Prop) v src :
  view_inv P v → is_node src →
  ∃ r g', dequeue_message (v_mgr v) src (v_shm v) = Some (r, g') ∧ taken r src (mm_local_node_id (v_mgr v)) (v_shm v) g' ∧
    view_inv P (mkView g' (v_mgr v) (v_node v)) ∧ (∀ msg, r = Some msg → msg_ok msg).
Proof.
  intros [Hs Hm Hn Hmp HP] Hsrc. destruct (dequeue_taken (v_mgr v) src (v_shm v) Hs Hn Hsrc Hmp) as (r & g' & He & Ht).
  exists r, g'. split_and!; [done|done| |].
  - destruct Ht as [Hi Hns Hr Hc]. split; [done| |done..]. intros s d Hs' Hd. simpl. rewrite Hc by done. destruct (_ && _); [|by apply Hm].
    pose proof (Hm s d Hs' Hd) as Hf. destruct Hf; by simpl.
  - intros msg ->. pose proof (tk_msg _ _ _ _ _ Ht) as Hh. pose proof (Hm src _ Hsrc Hn) as Hf. destruct Hf; simplify_eq/=. done.
Qed.

(** The channels after up to [n] messages from [src] to [l] were taken. *)
Definition drained (src l : Z) (n : nat) (ch : Z → Z → list dist_message) (s d : Z) : list dist_message :=
  if (s =? src) && (d =? l) then drop n (ch s d) else ch s d.

Lemma poll_node_ok {S} `{HandlersOk S P} env src n v :
  (∀ k, env_ok (env k)) → view_inv P v → is_node src → src ≠ mm_local_node_id (v_mgr v) →
  ∃ v', poll_node env src n v = Some ((n - length (chan (v_shm v) src (mm_local_node_id (v_mgr v))))%nat, v') ∧ view_inv P v' ∧
    processed (drained src (mm_local_node_id (v_mgr v)) n (chan (v_shm v))) v v'.
Proof.
  intros Henv. revert v. induction n as [|n IH]; intros v Hv Hsrc Hne; cbn [poll_node].
  { exists v. split; [done|]. split; [done|]. eapply processed_ext; [apply processed_refl|]. intros s d _ _ _. unfold drained. by destruct (_ && _). }
  destruct (dequeue_ok P v src Hv Hsrc) as (r & g' & -> & [Hi Hns Hr Hc] & Hv1 & Hok). cbn [mbind option_bind].
  set (l := mm_local_node_id (v_mgr v)) in *. destruct r as [msg|].
  - destruct (process_ok (env (Datatypes.S n)) msg _ Hv1 (Hok msg eq_refl) (Henv _)) as (v1 & -> & Hv2 & Hp). cbn [mbind option_bind].
    assert (mm_local_node_id (v_mgr v1) = l) as Hl by apply (pc_local _ _ _ Hp).
    destruct (IH v1 Hv2 Hsrc) as (v' & He & Hv' & Hp'); [by rewrite Hl|]. rewrite Hl in *.
    assert (∀ s d, is_node s → is_node d → s ≠ l → chan (v_shm v1) s d = if (s =? src) && (d =? l) then tail (chan (v_shm v) s d) else chan (v_shm v) s d)
      as Hc1 by (intros s d Hs Hd Hsl; rewrite (pc_chan _ _ _ Hp) by done; by apply Hc).
    exists v'. split_and!; [|done|].
    + rewrite He. do 2 f_equal. rewrite Hc1, !Z.eqb_refl by (done || apply Hv). cbn [andb]. destruct (chan (v_shm v) src l); [done|simpl; lia].
    + eapply processed_ext; [eapply processed_trans; [|exact Hp']|].
      * split; [etrans; [apply (pc_nodes _ _ _ Hp)|done]|done|apply (pc_mapped _ _ _ Hp)|apply (pc_next _ _ _ Hp)|reflexivity].
      * intros s d Hs Hd Hsl. unfold drained. rewrite Hc1 by done. destruct (_ && _); [|done]. destruct (chan (v_shm v) s d); [by destruct n|done].
  - destruct (chan (v_shm v) src l) as [|? ?] eqn:Ec; [|done]. exists (mkView g' (v_mgr v) (v_node v)). split_and!; [done|done|]. split; [done..|].
    intros s d Hs Hd Hsl. simpl. rewrite Hc by done. unfold drained. destruct (_ && _) eqn:E; btests; [|done]. subst. by rewrite Ec.
Qed.

(** The nodes that [poll_messages] polls, and the number of their messages. *)
Definition polled (m : Manager) (g : dist_shm_header) (s : Z) : bool := negb (s =? mm_local_node_id m) && is_node_active m g s.

Fixpoint waiting (m : Manager) (g : dist_shm_header) (nodes : list Z) : nat :=
  match nodes with
  | [] => 0
  | s :: rest => (if polled m g s then length (chan g s (mm_local_node_id m)) else 0) + waiting m g rest
  end%nat.

Lemma polled_same m m' g g' s :
  mm_local_node_id m' = mm_local_node_id m → mm_mapped m' = mm_mapped m → g_nodes g' = g_nodes g → polled m' g' s = polled m g s.
Proof. intros H1 H2 H3. unfold polled, is_node_active, status_of. by rewrite H1, H2, H3. Qed.

Lemma waiting_same m m' g g' nodes :
  mm_local_node_id m' = mm_local_node_id m → mm_mapped m' = mm_mapped m → g_nodes g' = g_nodes g →
  (∀ s, s ∈ nodes → polled m g s = true → chan g' s (mm_local_node_id m) = chan g s (mm_local_node_id m)) →
  waiting m' g' nodes = waiting m g nodes.
Proof.
  intros H1 H2 H3. induction nodes as [|s nodes IH]; intros Hc; [done|]. cbn [waiting]. rewrite (polled_same m m' g g') by done.
  rewrite IH by set_solver. f_equal. destruct (polled m g s) eqn:E; [|done]. rewrite H1, Hc; [done|set_solver|done].
Qed.

Lemma polled_other m g s : polled m g s = true → s ≠ mm_local_node_id m.
Proof. unfold polled. intros [H _]%andb_prop. by apply negb_true_iff, Z.eqb_neq in H. Qed.

(** After a poll of [nodes] with room for [n] messages: their channels to the
    node have lost messages at the front, all of them when [n] is enough. *)
Record emptied {S} (nodes : list Z) (n : nat) (v v' : View S) : Prop := {
  em_ids : processed (chan (v_shm v')) v v';
  em_suffix : ∀ s d, is_node s → is_node d → s ≠ mm_local_node_id (v_mgr v) → ∃ k, chan (v_shm v') s d = drop k (chan (v_shm v) s d);
  em_other : ∀ s d, is_node s → is_node d → s ≠ mm_local_node_id (v_mgr v) →
    d ≠ mm_local_node_id (v_mgr v) ∨ s ∉ nodes ∨ polled (v_mgr v) (v_shm v) s = false → chan (v_shm v') s d = chan (v_shm v) s d;
  em_all : (waiting (v_mgr v) (v_shm v) nodes ≤ n)%nat → ∀ s, s ∈ nodes → polled (v_mgr v) (v_shm v) s = true →
    chan (v_shm v') s (mm_local_node_id (v_mgr v)) = []
}.

Lemma poll_nodes_ok {S} `{HandlersOk S P} env nodes n v :
  (∀ k, env_ok (env k)) → view_inv P v → NoDup nodes → Forall is_node nodes →
  ∃ v', poll_nodes env nodes n v = Some ((n - waiting (v_mgr v) (v_shm v) nodes)%nat, v') ∧ view_inv P v' ∧ emptied nodes n v v'.
Proof.
  intros Henv. revert n v. induction nodes as [|x nodes IH]; intros n v Hv Hnd Hns; cbn [poll_nodes waiting].
  { exists v. split; [by rewrite Nat.sub_0_r|]. split; [done|]. split; [by split|intros; by exists 0%nat|done|set_solver]. }
  apply NoDup_cons in Hnd as [Hni Hnd]. apply Forall_cons in Hns as [Hx Hns]. set (l := mm_local_node_id (v_mgr v)) in *.
  assert ((x =? l) || negb (is_node_active (v_mgr v) (v_shm v) x) = negb (polled (v_mgr v) (v_shm v) x)) as ->
    by (unfold polled; fold l; by destruct (x =? l), (is_node_active _ _ _)).
  destruct (polled (v_mgr v) (v_shm v) x) eqn:Ep; cbn [negb].
  - assert (x ≠ l) as Hxl by by apply (polled_other _ _ _ Ep).
    destruct (poll_node_ok env x n v Henv Hv Hx Hxl) as (v1 & -> & Hv1 & Hp1). cbn [mbind option_bind]. fold l in Hp1 |- *.
    pose proof Hp1 as [Hn1 Hl1 Hm1 _ Hc1]. fold l in Hc1, Hl1.
    destruct (IH (n - length (chan (v_shm v) x l))%nat v1 Hv1 Hnd Hns) as (v' & -> & Hv' & [Hids Hsuf Hoth Hall]).
    rewrite Hl1 in *.
    assert (waiting (v_mgr v1) (v_shm v1) nodes = waiting (v_mgr v) (v_shm v) nodes) as Hw.
    { apply waiting_same; [done..|]. intros s Hs Hps. rewrite Hc1; [|by eapply Forall_forall|apply Hv|by apply (polled_other _ _ _ Hps)].
      unfold drained. destruct (s =? x) eqn:E; btests; [by subst|done]. }
    assert (∀ s, polled (v_mgr v1) (v_shm v1) s = polled (v_mgr v) (v_shm v) s) as Hps by (intros; by apply polled_same).
    exists v'. split; [rewrite Hw; do 2 f_equal; lia|]. split; [done|]. split.
    + eapply processed_trans; [exact Hp1|done].
    + intros s d Hs Hd Hsl. destruct (Hsuf s d Hs Hd Hsl) as [k ->]. rewrite Hc1 by done. unfold drained.
      destruct (_ && _); [|by exists k]. rewrite drop_drop. by eexists.
    + intros s d Hs Hd Hsl Hor. fold l in Hor. rewrite Hoth by (done || rewrite Hps; set_solver). rewrite Hc1 by done. unfold drained.
      destruct (s =? x) eqn:E1, (d =? l) eqn:E2; cbn [andb]; btests; try done. subst. destruct Hor as [?|[?|?]]; [done|set_solver|congruence].
    + intros Hle s [->|Hs]%elem_of_cons Hpol; cbn [waiting] in Hle; rewrite Ep in Hle; fold l in Hle |- *.
      * destruct (Hsuf x l Hx (vi_node _ _ Hv) Hxl) as [k ->]. rewrite Hc1 by (done || apply (vi_node _ _ Hv)). unfold drained.
        rewrite !Z.eqb_refl. cbn [andb]. rewrite (drop_ge (chan _ _ _)) by lia. by rewrite drop_nil.
      * apply Hall; [rewrite Hw; lia|done|by rewrite Hps].
  - destruct (IH n v Hv Hnd Hns) as (v' & -> & Hv' & [Hids Hsuf Hoth Hall]). exists v'. split; [by rewrite Nat.add_0_l|]. split; [done|]. split; [done..| |].
    + intros s d Hs Hd Hsl Hor. apply Hoth; [done..|]. destruct Hor as [?|[?|?]]; [by left|right; left; set_solver|by right; right].
    + intros Hle s [->|Hs]%elem_of_cons Hpol; [congruence|]. cbn [waiting] in Hle. rewrite Ep in Hle. by apply Hall.
Qed.

(** ** Lemmas: polls of a quiet node *)

Lemma set_queues_same g i q : g_queues g !! i = Some q → set_queues (<[i := q]> (g_queues g)) g = g.
Proof. intros H. rewrite list_insert_id by done. by destruct g. Qed.

Lemma dequeue_empty m src g :
  seg_inv g → is_node (mm_local_node_id m) → is_node src → mm_mapped m = true → chan g src (mm_local_node_id m) = [] →
  dequeue_message m src g = Some (None, g).
Proof.
  intros Hi Hl Hs Hm Hc. unfold dequeue_message. rewrite Hm. cbn [negb orb].
  destruct (DIST_MAX_NODES <=? src) eqn:E; btests; [unfold is_node in Hs; lia|].
  destruct (queue_of g src _ Hi Hs Hl) as (q & Hlk & Hq & Hch). rewrite Hlk. cbn [mbind option_bind].
  rewrite queue_pop_empty by congruence. cbn [mbind option_bind]. by rewrite set_queues_same.
Qed.

Lemma poll_idle {S} `{Handlers S} env nodes n (v : View S) :
  seg_inv (v_shm v) → is_node (mm_local_node_id (v_mgr v)) → mm_mapped (v_mgr v) = true → Forall is_node nodes →
  (∀ s, s ∈ nodes → polled (v_mgr v) (v_shm v) s = true → chan (v_shm v) s (mm_local_node_id (v_mgr v)) = []) →
  poll_nodes env nodes n v = Some (n, v).
Proof.
  intros Hi Hl Hm. induction nodes as [|x nodes IH]; intros Hns Hc; [done|]. apply Forall_cons in Hns as [Hx Hns]. cbn [poll_nodes].
  assert (poll_nodes env nodes n v = Some (n, v)) as Hr by (apply IH; [done|set_solver]).
  destruct (_ || _) eqn:E; [done|]. assert (polled (v_mgr v) (v_shm v) x = true) as Hp.
  { unfold polled. apply orb_false_elim in E as [-> ->%negb_false_iff]. done. }
  destruct n as [|n]; cbn [poll_node]; [done|]. rewrite dequeue_empty by (done || (apply Hc; [set_solver|done])). by destruct v.
Qed.

(** A poll that meets one message processes it and nothing else. *)
Lemma poll_one {S} `{Handlers S} env nodes n src (v v1 : View S) g1 msg :
  seg_inv (v_shm v) → is_node (mm_local_node_id (v_mgr v)) → mm_mapped (v_mgr v) = true → NoDup nodes → Forall is_node nodes →
  src ∈ nodes → polled (v_mgr v) (v_shm v) src = true →
  (∀ s, s ∈ nodes → s ≠ src → polled (v_mgr v) (v_shm v) s = true → chan (v_shm v) s (mm_local_node_id (v_mgr v)) = []) →
  dequeue_message (v_mgr v) src (v_shm v) = Some (Some msg, g1) →
  process_message (env (Datatypes.S n)) msg (mkView g1 (v_mgr v) (v_node v)) = Some v1 →
  seg_inv (v_shm v1) → mm_local_node_id (v_mgr v1) = mm_local_node_id (v_mgr v) → mm_mapped (v_mgr v1) = true →
  (∀ s, is_node s → s ≠ mm_local_node_id (v_mgr v) → chan (v_shm v1) s (mm_local_node_id (v_mgr v)) = []) →
  poll_nodes env nodes (Datatypes.S n) v = Some (n, v1).
Proof.
  intros Hi Hl Hm Hnd Hns Hin Hp Hoth Hdq Hpr Hi1 Hl1 Hm1 Hc1. induction nodes as [|x nodes IH]; [set_solver|].
  apply Forall_cons in Hns as [Hx Hns]. apply NoDup_cons in Hnd as [Hni Hnd]. cbn [poll_nodes].
  assert ((x =? mm_local_node_id (v_mgr v)) || negb (is_node_active (v_mgr v) (v_shm v) x) = negb (polled (v_mgr v) (v_shm v) x)) as ->
    by (unfold polled; by destruct (x =? _), (is_node_active _ _ _)).
  destruct (decide (x = src)) as [->|Hne].
  - rewrite Hp. cbn [negb poll_node]. rewrite Hdq. cbn [mbind option_bind]. rewrite Hpr. cbn [mbind option_bind].
    assert (poll_node env src n v1 = Some (n, v1)) as ->.
    { destruct n as [|n]; cbn [poll_node]; [done|]. rewrite dequeue_empty; [by destruct v1|done|by rewrite Hl1|done|done|]. rewrite Hl1. apply Hc1; [done|].
      by apply (polled_other _ _ _ Hp). }
    cbn [mbind option_bind]. apply poll_idle; [done|by rewrite Hl1|done|done|]. rewrite Hl1. intros s Hs Hps. apply Hc1; [by eapply Forall_forall|].
    rewrite <- Hl1. by apply (polled_other _ _ _ Hps).
  - destruct (polled (v_mgr v) (v_shm v) x) eqn:Ep; cbn [negb]; [|apply IH; [done..|set_solver|set_solver]].
    cbn [poll_node]. rewrite dequeue_empty by (done || (apply Hoth; [set_solver|done|done])). cbn [mbind option_bind].
    destruct v. apply IH; [done..|set_solver|set_solver].
Qed.

(** ** Lemmas: a request and its response *)

(** No message waits for node [n]. *)
Definition idle (g : dist_shm_header) (n : Z) : Prop := ∀ s, is_node s → s ≠ n → chan g s n = [].

(** The same nodes and messages. *)
Record same_net (g g' : dist_shm_header) : Prop := {
  sm_inv : seg_inv g';
  sm_nodes : g_nodes g' = g_nodes g;
  sm_chan : ∀ s d, is_node s → is_node d → chan g' s d = chan g s d
}.

(** The manager of node [n], at work. *)
Definition manages (m : Manager) (n : Z) : Prop := mm_local_node_id m = n ∧ is_node n ∧ mm_mapped m = true.

(** One message waits at an otherwise idle node. *)
Lemma poll_single {S} `{Handlers S} env n src dst msg g g0 m (s : S) v1 :
  seg_inv g → manages m dst → is_node src → src ≠ dst → is_node_active m g src = true →
  idle g0 dst → (∀ x d, is_node x → is_node d → chan g x d = if (x =? src) && (d =? dst) then [msg] else chan g0 x d) →
  (∀ g1, taken (Some msg) src dst g g1 → process_message (env (Datatypes.S n)) msg (mkView g1 m s) = Some (v1 g1) ∧
    seg_inv (v_shm (v1 g1)) ∧ mm_local_node_id (v_mgr (v1 g1)) = dst ∧ mm_mapped (v_mgr (v1 g1)) = true ∧ idle (v_shm (v1 g1)) dst) →
  ∃ g1, taken (Some msg) src dst g g1 ∧ poll_messages env (Datatypes.S n) (mkView g m s) = Some (1%nat, v1 g1).
Proof.
  intros Hi (Hl & Hd & Hm) Hs Hne Ha Hidle Hc Hproc. destruct node_ids_nodes as [Hnd Hns].
  destruct (dequeue_taken m src g Hi) as (r & g1 & Hdq & Ht); [by rewrite Hl|done|done|]. rewrite Hl in Ht.
  assert (r = Some msg) as ->. { rewrite (tk_msg _ _ _ _ _ Ht), Hc, !Z.eqb_refl by done. done. }
  destruct (Hproc g1 Ht) as (Hp & Hi1 & Hl1 & Hm1 & Hidle1). exists g1. split; [done|]. unfold poll_messages.
  rewrite (poll_one env node_ids n src (mkView g m s) (v1 g1) g1 msg); cbn [v_shm v_mgr v_node mbind option_bind]; rewrite ?Hl; try done.
  - do 2 f_equal. lia.
  - by apply elem_of_node_ids.
  - unfold polled. rewrite Hl, Ha. apply Z.eqb_neq in Hne. by rewrite Hne.
  - intros x Hx Hxs Hpx. assert (is_node x) by by apply elem_of_node_ids. rewrite Hc by done. apply Z.eqb_neq in Hxs. rewrite Hxs. cbn [andb].
    apply Hidle; [done|]. rewrite <- Hl. by apply (polled_other _ _ _ Hpx).
Qed.

Definition completed (msg : dist_message) : PendingRequest := {| pr_response := msg; pr_completed := true |}.

(** The messages of [g0], and one more on the way from [src] to [dst]. *)
Record one_more (src dst : Z) (msg : dist_message) (g0 g : dist_shm_header) : Prop := {
  om_inv : seg_inv g;
  om_nodes : g_nodes g = g_nodes g0;
  om_chan : ∀ x d, is_node x → is_node d → chan g x d = if (x =? src) && (d =? dst) then [msg] else chan g0 x d
}.

Lemma active_same m g g' n : g_nodes g' = g_nodes g → is_node_active m g' n = is_node_active m g n.
Proof. intros H. unfold is_node_active, status_of. by rewrite H. Qed.

(** A send over an empty channel. *)
Lemma send_one m l dst msg g g0 :
  seg_inv g → manages m l → is_node dst → chan g l dst = [] → g_nodes g = g_nodes g0 →
  (∀ x d, is_node x → is_node d → ¬ (x = l ∧ d = dst) → chan g x d = chan g0 x d) →
  ∃ g', send_message m dst msg g = Some (true, g') ∧ one_more l dst msg g0 g'.
Proof.
  intros Hi (Hl & Hn & Hm) Hd He Hns Hc. destruct (enqueue_sent m dst msg g Hi) as (ok & g1 & Hs & [Hi1 Hn1 Hc1] & Hok); [by rewrite Hl|apply Hd|].
  rewrite Hl in Hok, Hc1. assert (ok = true) as ->.
  { rewrite Hok, Hm. unfold has_room. rewrite He. simpl. destruct (dst <? DIST_MAX_NODES) eqn:E; btests; [done|]. unfold is_node in Hd. lia. }
  exists g1. split; [done|]. split; [done|congruence|]. intros x d Hx Hd'. rewrite Hc1 by done. cbn [andb].
  destruct ((x =? l) && (d =? dst)) eqn:E; [apply andb_prop in E as [->%Z.eqb_eq ->%Z.eqb_eq]; by rewrite He|]. apply Hc; [done..|]. intros [-> ->]. by rewrite !Z.eqb_refl in E.
Qed.

(** The peer handles the request and answers. *)
Lemma peer_answers {S} `{Handlers S} env n a b mb (sb sb' : S) g g1 req f resp :
  manages mb b → is_node a → a ≠ b → idle g a → idle g b → is_node_active mb g a = true → one_more a b req g g1 →
  src_node_id (header req) = a → mm_pending_requests mb !! msg_id (header req) = None → registered mb (msg_type (header req)) = Some f →
  f (env (Datatypes.S n)) req (response_to (env (Datatypes.S n)) mb req) sb = Some (resp, sb') → msg_type (header resp) ≠ DIST_MSG_NONE →
  ∃ g2, poll_messages env (Datatypes.S n) (mkView g1 mb sb) = Some (1%nat, mkView g2 mb sb') ∧ one_more b a resp g g2.
Proof.
  intros Hmb Ha Hab Hia Hib Hact [Hi1 Hn1 Hc1] Hsrc Hpend Hh Hf Hty. pose proof Hmb as (Hlb & Hb & Hm).
  assert (∀ g', taken (Some req) a b g1 g' → ∃ g2, send_message mb a resp g' = Some (true, g2) ∧ one_more b a resp g g2) as Hsend.
  { intros g' [Hi' Hn' _ Hc']. apply send_one; [done|done|done| |congruence|].
    - rewrite Hc', Hc1 by done. rewrite !(proj2 (Z.eqb_neq b a)) by done. by apply Hia.
    - intros x d Hx Hd _. rewrite Hc', Hc1 by done.
      destruct ((x =? a) && (d =? b)) eqn:E; [apply andb_prop in E as [->%Z.eqb_eq ->%Z.eqb_eq]; by rewrite Hib|done]. }
  destruct (poll_single env n a b req g1 g mb sb (λ g', mkView (default g' (snd <$> send_message mb a resp g')) mb sb')) as (g1' & Ht & Hpoll); try done.
  - by rewrite (active_same _ g).
  - intros g' Ht. destruct (Hsend g' Ht) as (g2 & Hs & [Hi2 _ Hc2]). unfold process_message. cbn [v_mgr v_shm v_node].
    rewrite Hpend, Hh, Hf. cbn [mbind option_bind]. apply Z.eqb_neq in Hty. rewrite Hty, Hsrc, Hs. simpl. split_and!; [done..|].
    intros x Hx Hxb. cbn [v_shm]. rewrite Hc2 by done. apply Z.eqb_neq in Hab as Hba. rewrite Z.eqb_sym in Hba. rewrite Hba, andb_false_r. by apply Hib.
  - destruct (Hsend g1' Ht) as (g2 & Hs & Ho). rewrite Hs in Hpoll. by exists g2.
Qed.

(** The caller takes the response for its request. *)
Lemma caller_completes {S} `{Handlers S} env n a b ma (sa : S) g g2 resp :
  manages ma a → is_node b → a ≠ b → idle g a → is_node_active ma g b = true → one_more b a resp g g2 →
  is_Some (mm_pending_requests ma !! msg_id (header resp)) →
  ∃ g3, poll_messages env (Datatypes.S n) (mkView g2 ma sa) =
    Some (1%nat, mkView g3 (set_pending (<[msg_id (header resp) := completed resp]> (mm_pending_requests ma)) ma) sa) ∧ same_net g g3.
Proof.
  intros Hma Hb Hab Hia Hact [Hi2 Hn2 Hc2] [p Hp]. pose proof Hma as (Hla & Ha & Hm).
  destruct (poll_single env n b a resp g2 g ma sa (λ g', mkView g' (set_pending (<[msg_id (header resp) := completed resp]> (mm_pending_requests ma)) ma) sa))
    as (g3 & [Hi3 Hn3 _ Hc3] & Hpoll); try done.
  - by rewrite (active_same _ g).
  - intros g' [Hi' Hn' _ Hc']. unfold process_message. cbn [v_mgr v_shm v_node]. rewrite Hp. split_and!; [done..|].
    intros x Hx Hxa. cbn [v_shm]. rewrite Hc', Hc2 by done. rewrite !Z.eqb_refl, !andb_true_r. destruct (x =? b); [done|]. by apply Hia.
  - exists g3. split; [done|]. split; [done|congruence|]. intros x d Hx Hd. rewrite Hc3, Hc2 by done.
    destruct ((x =? b) && (d =? a)) eqn:E; [apply andb_prop in E as [->%Z.eqb_eq ->%Z.eqb_eq]; by rewrite Hia|done].
Qed.

(** The request reaches the handler of [b] and its response the caller at [a];
    nothing else happens to either node, and no message is left over. *)
Lemma request_served {S} `{Handlers S} env env' n n' a b ma mb (sa sb sb' : S) g req resp0 f resp :
  seg_inv g → manages ma a → manages mb b → a ≠ b → idle g a → idle g b →
  is_node_active ma g b = true → is_node_active mb g a = true →
  src_node_id (header req) = a → mm_pending_requests mb !! msg_id (header req) = None →
  registered mb (msg_type (header req)) = Some f →
  f (env (Datatypes.S n)) req (response_to (env (Datatypes.S n)) mb req) sb = Some (resp, sb') →
  msg_type (header resp) ≠ DIST_MSG_NONE → msg_id (header resp) = msg_id (header req) →
  ∃ ma1 g1 g2 ma2 g3,
    request_begin ma b req resp0 g = Some (true, ma1, g1) ∧
    poll_messages env (Datatypes.S n) (mkView g1 mb sb) = Some (1%nat, mkView g2 mb sb') ∧
    poll_messages env' (Datatypes.S n') (mkView g2 ma1 sa) = Some (1%nat, mkView g3 ma2 sa) ∧
    request_end ma2 (msg_id (header req)) = (Some resp, set_pending (delete (msg_id (header req)) (mm_pending_requests ma)) ma) ∧
    same_net g g3.
Proof.
  intros Hi Hma Hmb Hab Hia Hib Hactb Hacta Hsrc Hpend Hh Hf Hty Hid. set (id := msg_id (header req)) in *.
  set (ma1 := set_pending (<[id := {| pr_response := resp0; pr_completed := false |}]> (mm_pending_requests ma)) ma).
  destruct (send_one ma1 a b req g g Hi) as (g1 & Hs & Ho1); [apply Hma|apply Hmb|apply Hib; [apply Hma|done]|done|done|].
  destruct (peer_answers env n a b mb sb sb' g g1 req f resp) as (g2 & Hpoll & Ho2); try done; [apply Hma|].
  destruct (caller_completes env' n' a b ma1 sa g g2 resp) as (g3 & Hpoll' & Hsame); try done; [apply Hmb|rewrite Hid; simpl; by rewrite lookup_insert_eq|].
  exists ma1, g1, g2. eexists _, g3. split_and!; [|exact Hpoll|exact Hpoll'| |done].
  - unfold request_begin. fold id. fold ma1. by rewrite Hs.
  - unfold request_end. rewrite Hid. simpl. rewrite lookup_insert_eq. simpl. by rewrite !delete_insert_eq.
Qed.

(** ** Runs of the managers *)

Inductive seg_step (g : dist_shm_header) : dist_shm_header → Prop :=
  | step_enqueue m n dst msg ok g' : manages m n → 0 <= dst → enqueue_message m dst msg g = Some (ok, g') → seg_step g g'
  | step_dequeue m n src r g' : manages m n → is_node src → dequeue_message m src g = Some (r, g') → seg_step g g'
  | step_register m n now info ok g' : manages m n → register_node now info m g = (ok, g') → seg_step g g'
  | step_deregister m n x ok g' : manages m n → deregister_node x m g = (ok, g') → seg_step g g'
  | step_heartbeat m n now m' g' : manages m n → send_heartbeat now m g = Some (m', g') → seg_step g g'
  | step_initialize m env b ok g' m' : initialize env b (Some g) m = (ok, Some g', m') → seg_step g g'.

Lemma initialized_inv k : seg_inv (initialized_header k).
Proof. split; [done|done|]. apply Forall_replicate. by split. Qed.

Lemma set_nodes_inv num ns g : seg_inv g → length ns = length (g_nodes g) → seg_inv (set_nodes num ns g).
Proof. intros [Hn Hl Hq] He. split; [simpl; congruence|done..]. Qed.

Lemma register_inv now info m g ok g' : seg_inv g → register_node now info m g = (ok, g') → seg_inv g' ∧ g_queues g' = g_queues g.
Proof.
  intros Hi. unfold register_node. destruct (_ || _); intros [= <- <-]; [done|]. split; [|done]. apply set_nodes_inv; [done|]. apply length_alter.
Qed.

Lemma deregister_inv x m g ok g' : seg_inv g → deregister_node x m g = (ok, g') → seg_inv g' ∧ g_queues g' = g_queues g.
Proof.
  intros Hi. unfold deregister_node. destruct (_ || _); intros [= <- <-]; [done|]. split; [|done]. apply set_nodes_inv; [done|]. apply length_alter.
Qed.

Lemma broadcast_ok m n msg g :
  seg_inv g → manages m n → ∃ ok g', broadcast_message m msg g = Some (ok, g') ∧ seg_inv g' ∧ g_nodes g' = g_nodes g ∧
    ok = forallb (λ d, (d =? n) || has_room g n d) (get_active_nodes m g) ∧
    ∀ s d, is_node s → is_node d →
      chan g' s d = if (s =? n) && is_node_active m g d && negb (d =? n) && has_room g n d then chan g s d ++ [msg] else chan g s d.
Proof.
  intros Hi (<- & Hn & Hm). destruct (active_nodes_ok m g) as [Hnd Hns].
  destruct (send_all_sent m msg (get_active_nodes m g) true g Hi) as (ok & g' & He & Hi' & Hn' & -> & Hc); [done..|].
  eexists _, g'. split_and!; [exact He|done..|]. intros s d Hs Hd. rewrite Hc by done.
  assert (bool_decide (d ∈ get_active_nodes m g) = is_node_active m g d) as ->; [|done].
  destruct (is_node_active m g d) eqn:E; [apply bool_decide_eq_true|apply bool_decide_eq_false]; unfold get_active_nodes; rewrite elem_of_keep.
  - split; [done|by apply elem_of_node_ids].
  - rewrite E. by intros [? _].
Qed.

(** A heartbeat refreshes the entry of its node and is sent to the active nodes. *)
Lemma heartbeat_ok now m n g :
  seg_inv g → manages m n → ∃ g' msg, send_heartbeat now m g = Some ((generate_msg_id m).2, g') ∧ seg_inv g' ∧ (is_u32 (mm_next_msg_id m) → msg_ok msg) ∧
    (∀ x, ns_state (status_of g' x) = ns_state (status_of g x)) ∧
    ∀ s d, is_node s → is_node d → chan g' s d = chan g s d ∨ s = n ∧ d ≠ n ∧ chan g' s d = chan g s d ++ [msg].
Proof.
  intros Hi Hm. pose proof Hm as (Hl & Hn & Hmp). unfold send_heartbeat. rewrite Hmp, Hl. cbn [negb].
  destruct (lookup_lt_is_Some_2 (g_nodes g) (Z.to_nat n)) as [st Hst]; [rewrite (si_nodes _ Hi); unfold is_node, DIST_MAX_NODES in Hn; lia|].
  rewrite Hst. cbn [mbind option_bind generate_msg_id snd].
  set (g1 := set_nodes _ _ g). set (msg := message _ _ _ _ _ _). set (m1 := Build_Manager _ _ _ _ _ _).
  assert (seg_inv g1) as Hi1 by (apply set_nodes_inv; [done|by rewrite length_insert]).
  destruct (broadcast_ok m1 n msg g1 Hi1) as (ok & g' & -> & Hi' & Hn' & _ & Hc); [done|]. cbn [mbind option_bind].
  exists g', msg. split_and!; [done|done| | |].
  - intros Hid. split; [done|done|]. unfold msg. cbn [payload message]. auto 10 with cxl.
  - intros x. unfold status_of. rewrite Hn'. subst g1. cbn [g_nodes set_nodes]. destruct (decide (Z.to_nat x = Z.to_nat n)) as [->|Hne].
    + rewrite list_lookup_insert_eq, Hst by (by eapply lookup_lt_Some). done.
    + by rewrite list_lookup_insert_ne.
  - intros s d Hs Hd. rewrite Hc by done. change (chan g1) with (chan g). destruct (s =? n) eqn:E1; [|by left]. destruct (d =? n) eqn:E2; [left; cbn [negb]; by rewrite !andb_false_r|].
    btests. destruct (_ && _); [by right|by left].
Qed.

Lemma seg_step_inv g g' : seg_inv g → seg_step g g' → seg_inv g'.
Proof.
  intros Hi [m n dst msg ok g1 (Hl & Hn & Hm) Hd He|m n src r g1 (Hl & Hn & Hm) Hs He|m n now info ok g1 _ He|m n x ok g1 _ He|m n now m' g1 Hm He
    |m env b ok g1 m' He].
  - destruct (enqueue_sent m dst msg g Hi) as (? & ? & He' & [? _ _] & _); [by rewrite Hl|done|]. by simplify_eq.
  - destruct (dequeue_taken m src g Hi) as (? & ? & He' & [? _ _ _]); [by rewrite Hl|done|done|]. by simplify_eq.
  - by eapply register_inv.
  - by eapply deregister_inv.
  - destruct (heartbeat_ok now m n g Hi Hm) as (? & ? & He' & ? & _). by simplify_eq.
  - unfold initialize in He. repeat case_match; simplify_eq; try done. apply initialized_inv.
Qed.

Lemma seg_reachable k g : rtc seg_step (initialized_header k) g → seg_inv g.
Proof.
  intros Hr. pose proof (initialized_inv k) as Hi. induction Hr as [|g0 g1 g2 Hs _ IH]; [done|]. by eapply IH, seg_step_inv.
Qed.

(** The number of messages in the queues. *)
Definition in_flight (g : dist_shm_header) : Z := zsum ((λ q, Z.of_nat (length (q_contents q))) <$> g_queues g).

Lemma sent_total qs :
  Forall queue_ok qs →
  u64 (zsum (q_total_sent <$> qs)) = u64 (zsum (q_total_received <$> qs) + zsum ((λ q, Z.of_nat (length (q_contents q))) <$> qs)).
Proof.
  induction 1 as [|q qs Hq _ IH]; [done|]. rewrite !fmap_cons, !zsum_cons. rewrite (qo_sent q Hq), q_contents_length.
  pose proof (q_length_bound q) as Hb. rewrite Z2Nat.id by lia. unfold u64 in *.
  rewrite Zplus_mod_idemp_l. rewrite <- Zplus_mod_idemp_r, IH, Zplus_mod_idemp_r. f_equal. lia.
Qed.

(** ** Theorems *)

(** C22. After any run of the managers of a cluster, the segment behaves as one FIFO
    channel per ordered pair of nodes: [enqueue_message] appends the message to
    its channel exactly when fewer than 4095 messages wait there and changes
    no channel otherwise, [dequeue_message] takes out the oldest message of
    its channel if there is one, neither touches another channel, and neither
    indexes outside of the segment. *)
Theorem channels_refine k g m n :
  rtc seg_step (initialized_header k) g → manages m n →
  (∀ dst msg, is_node dst → ∃ g', enqueue_message m dst msg g = Some (has_room g n dst, g') ∧
    ∀ s d, is_node s → is_node d →
      chan g' s d = if has_room g n dst && ((s =? n) && (d =? dst)) then chan g s d ++ [msg] else chan g s d) ∧
  (∀ src, is_node src → ∃ g', dequeue_message m src g = Some (head (chan g src n), g') ∧
    ∀ s d, is_node s → is_node d → chan g' s d = if (s =? src) && (d =? n) then tail (chan g s d) else chan g s d).
Proof.
  intros Hi%seg_reachable (<- & Hn & Hm). split.
  - intros dst msg Hd. destruct (enqueue_sent m dst msg g Hi Hn) as (ok & g' & He & [_ _ Hc] & Hok); [apply Hd|].
    rewrite Hm in Hok. replace (dst <? DIST_MAX_NODES) with true in Hok by (symmetry; apply Z.ltb_lt, Hd). cbn [andb] in Hok. subst ok. by exists g'.
  - intros src Hs. destruct (dequeue_taken m src g Hi Hn Hs Hm) as (r & g' & He & [_ _ -> Hc]). by exists g'.
Qed.

(** The statistics account for every message: after any run of the managers,
    what was sent is what was received and what still waits, and no queue
    holds more than 4095 messages. *)
Theorem messages_conserved k g m n :
  rtc seg_step (initialized_header k) g → manages m n →
  st_messages_sent (get_stats m g) = st_messages_received (get_stats m g) +w in_flight g ∧
  ∀ s d, is_node s → is_node d → Z.of_nat (length (chan g s d)) <= DIST_MSG_QUEUE_SIZE - 1.
Proof.
  intros Hi%seg_reachable (_ & _ & Hm). unfold get_stats. rewrite Hm. cbn [negb st_messages_sent st_messages_received]. split.
  - rewrite !foldl_addw by done. rewrite !Z.add_0_l, sent_total by apply Hi. unfold u64, in_flight. by rewrite Zplus_mod_idemp_l.
  - intros s d Hs Hd. destruct (queue_of g s d Hi Hs Hd) as (q & _ & _ & ->). rewrite q_contents_length.
    pose proof (q_length_bound q). lia.
Qed.

(** A broadcast reaches every active node but the sender whose channel has
    room, once, and reports success exactly when all had room. *)
Theorem broadcast_reaches k g m n msg :
  rtc seg_step (initialized_header k) g → manages m n →
  ∃ ok g', broadcast_message m msg g = Some (ok, g') ∧
    (ok = true ↔ ∀ d, is_node d → is_node_active m g d = true → d ≠ n → has_room g n d = true) ∧
    ∀ s d, is_node s → is_node d →
      chan g' s d = if (s =? n) && is_node_active m g d && negb (d =? n) && has_room g n d then chan g s d ++ [msg] else chan g s d.
Proof.
  intros Hi%seg_reachable Hm. destruct (broadcast_ok m n msg g Hi Hm) as (ok & g' & He & _ & _ & -> & Hc). eexists _, g'. split_and!; [done| |done].
  rewrite forallb_forall. setoid_rewrite <- list_elem_of_In. unfold get_active_nodes. setoid_rewrite elem_of_keep. setoid_rewrite elem_of_node_ids.
  split.
  - intros H d Hd Ha Hne. specialize (H d (conj Ha Hd)). apply Z.eqb_neq in Hne. by rewrite Hne in H.
  - intros H d [Ha Hd]. destruct (d =? n) eqn:E; [done|]. btests. by rewrite H.
Qed.

(** [poll_messages] never fails: whatever the handlers do, as long as they keep
    their promise, it processes as many of the waiting messages as it may,
    and all of them when they are at most [max_messages]; nothing is left then. *)
Theorem poll_drains {S} `{HandlersOk S P} env max_messages v :
  (∀ i, env_ok (env i)) → view_inv P v →
  ∃ v', poll_messages env max_messages v = Some (min max_messages (waiting (v_mgr v) (v_shm v) node_ids), v') ∧ view_inv P v' ∧
    ((waiting (v_mgr v) (v_shm v) node_ids ≤ max_messages)%nat →
      ∀ s, is_node s → polled (v_mgr v) (v_shm v) s = true → chan (v_shm v') s (mm_local_node_id (v_mgr v)) = []).
Proof.
  intros Henv Hv. destruct node_ids_nodes as [Hnd Hns]. destruct (poll_nodes_ok env node_ids max_messages v Henv Hv Hnd Hns) as (v' & He & Hv' & Hem).
  exists v'. unfold poll_messages. rewrite He. cbn [mbind option_bind]. split_and!; [do 2 f_equal; lia|done|].
  intros Hle s Hs%elem_of_node_ids Hp. by apply (em_all _ _ _ _ Hem).
Qed.

(** A request between two active nodes for which no other message waits is
    answered: the peer handles it once, the caller gets the response that the
    handler built, and no message is left over.  The handlers are only known
    by their interface. *)
Theorem request_answered {S} `{HandlersOk S P} env env' n n' a b ma mb (sa sb : S) g req resp0 f :
  seg_inv g → manages ma a → manages mb b → a ≠ b → idle g a → idle g b →
  is_node_active ma g b = true → is_node_active mb g a = true → P sb → (∀ i, env_ok (env i)) → msg_ok req →
  src_node_id (header req) = a → mm_pending_requests mb !! msg_id (header req) = None → registered mb (msg_type (header req)) = Some f →
  ∃ resp sb', f (env (Datatypes.S n)) req (response_to (env (Datatypes.S n)) mb req) sb = Some (resp, sb') ∧ P sb' ∧
    (msg_type (header resp) ≠ DIST_MSG_NONE → ∃ ma1 g1 g2 ma2 g3,
      request_begin ma b req resp0 g = Some (true, ma1, g1) ∧
      poll_messages env (Datatypes.S n) (mkView g1 mb sb) = Some (1%nat, mkView g2 mb sb') ∧
      poll_messages env' (Datatypes.S n') (mkView g2 ma1 sa) = Some (1%nat, mkView g3 ma2 sa) ∧
      (request_end ma2 (msg_id (header req))).1 = Some resp ∧ same_net g g3).
Proof.
  intros Hi Hma Hmb Hab Hia Hib Hactb Hacta HP Henv Hreq Hsrc Hpend Hreg.
  assert (handler (msg_type (header req)) = Some f) as Hf by (unfold registered in Hreg; by destruct (bool_decide _)).
  destruct (handler_ok _ f (env (Datatypes.S n)) req (response_to (env (Datatypes.S n)) mb req) sb Hf (Henv _) Hreq) as (resp & sb' & He & HP' & Hr & Hid);
    [apply response_to_ok; [destruct Hmb as (-> & ? & _)|]; done|done|].
  exists resp, sb'. split_and!; [done|done|]. intros Hty.
  destruct (request_served env env' n n' a b ma mb sa sb sb' g req resp0 f resp) as (ma1 & g1 & g2 & ma2 & g3 & H1 & H2 & H3 & H4 & H5); try done.
  exists ma1, g1, g2, ma2, g3. split_and!; [done..|by rewrite H4|done].
Qed.

(** ** Examples *)

Definition ex_mgr (n : Z) : Manager :=
  {| mm_local_node_id := n; mm_mapped := true; mm_is_coordinator := true; mm_handlers := {[DIST_MSG_READ_REQ]};
     mm_next_msg_id := 1; mm_pending_requests := ∅ |}.

Definition ex_info (n : Z) : DistNodeInfo :=
  {| ni_node_id := n; ni_hostname := []; ni_state := NODE_STATE_READY; ni_memory_base := n * 1048576; ni_memory_size := 1048576; ni_last_heartbeat := 0 |}.

(** A cluster of the nodes 0 and 1. *)
Definition ex_seg : dist_shm_header :=
  (register_node 0 (ex_info 1) (ex_mgr 1) (register_node 0 (ex_info 0) (ex_mgr 0) (initialized_header 0)).2).2.

Definition ex_message (id src : Z) : dist_message := message DIST_MSG_READ_REQ id src 0 0 zero_payload.

(** The cluster after node 0 sent two messages to node 1. *)
Definition ex_send (id : Z) (g : dist_shm_header) : dist_shm_header := default g (snd <$> enqueue_message (ex_mgr 0) 1 (ex_message id 0) g).
Definition ex_busy : dist_shm_header := ex_send 8 (ex_send 7 ex_seg).

Lemma ex_manages n : is_node n → manages (ex_mgr n) n.
Proof. done. Qed.

Lemma ex_seg_reach : rtc seg_step (initialized_header 0) ex_seg.
Proof.
  eapply rtc_l; [by eapply (step_register _ (ex_mgr 0) 0 0 (ex_info 0)); [apply ex_manages|apply surjective_pairing]|].
  eapply rtc_l; [by eapply (step_register _ (ex_mgr 1) 1 0 (ex_info 1)); [apply ex_manages|apply surjective_pairing]|]. apply rtc_refl.
Qed.

Lemma ex_send_step id g : rtc seg_step (initialized_header 0) g → rtc seg_step (initialized_header 0) (ex_send id g).
Proof.
  intros Hr. eapply rtc_r; [done|]. pose proof (seg_reachable 0 g Hr) as Hi.
  destruct (enqueue_sent (ex_mgr 0) 1 (ex_message id 0) g Hi) as (ok & g' & He & _); [done|done|].
  unfold ex_send. rewrite He. by eapply (step_enqueue _ (ex_mgr 0) 0); [apply ex_manages|..|exact He].
Qed.

Lemma ex_busy_reach : rtc seg_step (initialized_header 0) ex_busy.
Proof. apply ex_send_step, ex_send_step, ex_seg_reach. Qed.

Lemma channels_refine_witness :
  manages (ex_mgr 0) 0 ∧ msg_id ∘ header <$> chan ex_busy 0 1 = [7; 8] ∧
  ∃ g', dequeue_message (ex_mgr 1) 0 ex_busy = Some (head (chan ex_busy 0 1), g') ∧
    ∀ s d, is_node s → is_node d → chan g' s d = if (s =? 0) && (d =? 1) then tail (chan ex_busy s d) else chan ex_busy s d.
Proof.
  split_and!; [done|by vm_compute|]. apply (channels_refine 0 ex_busy (ex_mgr 1) 1); [exact ex_busy_reach|done|done].
Defined.

Lemma messages_conserved_witness :
  in_flight ex_busy = 2 ∧ st_messages_sent (get_stats (ex_mgr 0) ex_busy) = st_messages_received (get_stats (ex_mgr 0) ex_busy) +w 2.
Proof.
  split; [by vm_compute|]. change 2 with (in_flight ex_busy). apply (messages_conserved 0 ex_busy (ex_mgr 0) 0); [exact ex_busy_reach|done].
Defined.

Lemma broadcast_reaches_witness :
  get_active_nodes (ex_mgr 0) ex_busy = [0; 1] ∧ ∃ ok g', broadcast_message (ex_mgr 0) (ex_message 9 0) ex_busy = Some (ok, g') ∧
    (ok = true ↔ ∀ d, is_node d → is_node_active (ex_mgr 0) ex_busy d = true → d ≠ 0 → has_room ex_busy 0 d = true) ∧
    ∀ s d, is_node s → is_node d →
      chan g' s d = if (s =? 0) && is_node_active (ex_mgr 0) ex_busy d && negb (d =? 0) && has_room ex_busy 0 d
                    then chan ex_busy s d ++ [ex_message 9 0] else chan ex_busy s d.
Proof. split; [by vm_compute|]. apply (broadcast_reaches 0); [exact ex_busy_reach|done]. Defined.

(** Handlers that count the read requests and answer them. *)
#[local] Instance ex_handlers : Handlers Z :=
  λ t, if t =? DIST_MSG_READ_REQ then Some (λ _ _ resp s, Some (set_msg_type DIST_MSG_READ_RESP resp, s + 1)) else None.

#[local] Instance ex_handlers_ok : HandlersOk Z (λ _, True).
Proof.
  intros t f env msg resp s Hf He Hm Hr _. unfold handler, ex_handlers in Hf. case_match; simplify_eq.
  eexists _, _. split; [done|]. split; [done|]. split; [|done]. destruct Hr. by split.
Qed.

Definition ex_env (_ : nat) : MsgEnv := {| me_now := 5; me_handler_now := 6; me_partial := replicate 64 0 |}.

Lemma ex_msg_env_ok i : env_ok (ex_env i).
Proof. done. Qed.

(** The queues from the nodes other than 0 to any node are empty in the example. *)
Lemma ex_seg_chan s d : is_node s → is_node d → chan ex_seg s d = [].
Proof.
  intros Hs Hd. unfold chan. destruct (queue_index_node s d Hs Hd) as [_ Hi]. change (g_queues ex_seg) with (replicate 256 new_queue).
  by rewrite lookup_replicate_2.
Qed.

Lemma ex_busy_chan s d : is_node s → is_node d → chan ex_busy s d = if (s =? 0) && (d =? 1) then [ex_message 7 0; ex_message 8 0] else [].
Proof.
  intros Hs Hd. pose proof (seg_reachable 0 _ ex_seg_reach) as Hi.
  destruct (enqueue_sent (ex_mgr 0) 1 (ex_message 7 0) ex_seg Hi) as (ok & g1 & He & [Hi1 _ Hc] & Hok); [done|done|].
  destruct (enqueue_sent (ex_mgr 0) 1 (ex_message 8 0) g1 Hi1) as (ok2 & g2 & He2 & [Hi2 _ Hc2] & Hok2); [done|done|].
  assert (ex_send 7 ex_seg = g1) as E1 by (unfold ex_send; by rewrite He).
  assert (ex_send 8 g1 = g2) as E2 by (unfold ex_send; by rewrite He2). unfold ex_busy. rewrite E1, E2.
  unfold has_room in Hok, Hok2. cbn [mm_local_node_id ex_mgr] in Hok, Hok2. rewrite (ex_seg_chan 0 1) in Hok by done. cbn in Hok. subst ok.
  rewrite (Hc 0 1), (ex_seg_chan 0 1) in Hok2 by done. cbn in Hok2. subst ok2. rewrite Hc2, Hc, ex_seg_chan by done. cbn [andb mm_local_node_id ex_mgr].
  by destruct ((s =? 0) && (d =? 1)).
Qed.

Definition ex_view : View Z := mkView ex_busy (ex_mgr 1) 40.

Lemma ex_view_inv : view_inv (λ _, True) ex_view.
Proof.
  split; [by apply (seg_reachable 0), ex_busy_reach| |done..]. intros s d Hs Hd. cbn [v_shm ex_view]. rewrite ex_busy_chan by done.
  destruct (_ && _); repeat constructor; by vm_compute.
Qed.

Lemma poll_drains_witness :
  waiting (v_mgr ex_view) (v_shm ex_view) node_ids = 2%nat ∧
  ∃ v', poll_messages ex_env 100 ex_view = Some (min 100 (waiting (v_mgr ex_view) (v_shm ex_view) node_ids), v') ∧ view_inv (λ _, True) v' ∧
    ((waiting (v_mgr ex_view) (v_shm ex_view) node_ids ≤ 100)%nat → ∀ s, is_node s → polled (v_mgr ex_view) (v_shm ex_view) s = true →
      chan (v_shm v') s (mm_local_node_id (v_mgr ex_view)) = []).
Proof. split; [by vm_compute|]. apply (poll_drains (P := λ _, True)); [exact ex_msg_env_ok|exact ex_view_inv]. Defined.

Lemma request_answered_witness :
  idle ex_seg 0 ∧ idle ex_seg 1 ∧ is_node_active (ex_mgr 0) ex_seg 1 = true ∧ is_node_active (ex_mgr 1) ex_seg 0 = true ∧
  ∃ resp (sb' : Z), Some (set_msg_type DIST_MSG_READ_RESP (response_to (ex_env 100) (ex_mgr 1) (ex_message 7 0)), 41) = Some (resp, sb') ∧ True ∧
    (msg_type (header resp) ≠ DIST_MSG_NONE → ∃ ma1 g1 g2 ma2 g3,
      request_begin (ex_mgr 0) 1 (ex_message 7 0) zero_message ex_seg = Some (true, ma1, g1) ∧
      poll_messages ex_env 100 (mkView g1 (ex_mgr 1) 40) = Some (1%nat, mkView g2 (ex_mgr 1) sb') ∧
      poll_messages ex_env 100 (mkView g2 ma1 50) = Some (1%nat, mkView g3 ma2 50) ∧
      (request_end ma2 7).1 = Some resp ∧ same_net ex_seg g3).
Proof.
  assert (idle ex_seg 0) as H0 by (intros s Hs _; by apply ex_seg_chan).
  assert (idle ex_seg 1) as H1 by (intros s Hs _; by apply ex_seg_chan).
  refine (conj H0 (conj H1 (conj _ (conj _ _)))); [by vm_compute|by vm_compute|].
  apply (request_answered (P := λ _, True) ex_env ex_env 99 99 0 1 (ex_mgr 0) (ex_mgr 1) 50 40 ex_seg (ex_message 7 0) zero_message
    (λ _ _ resp s, Some (set_msg_type DIST_MSG_READ_RESP resp, s + 1))); try done.
  by apply (seg_reachable 0), ex_seg_reach.
Defined.

(** ** Observations *)

(** A worker that is not disturbed does what [dequeue_message] does. *)
Lemma worker_alone q r q' w :
  queue_ok q → queue_pop q = Some (r, q') → run_workers (replicate 6 true) WLoadHead w q = (WDone r, w, q').
Proof.
  intros Hq Hp. unfold queue_pop in Hp. simpl. destruct (q_head q =? q_tail q); simplify_eq/=; [done|]. by destruct (_ || _); simplify_eq/=.
Qed.

(** Two workers of a node can both process the oldest message: nothing makes
    the load of the tail and its update one step.  The count of messages is
    then decremented twice. *)
Theorem two_workers_duplicate q msg rest :
  queue_ok q → q_contents q = msg :: rest →
  ∃ schedule q', run_workers schedule WLoadHead WLoadHead q = (WDone (Some msg), WDone (Some msg), q') ∧
    q_contents q' = rest ∧ q_msg_count q' = u32 (q_msg_count q - 2).
Proof.
  intros Hq Hc. destruct (queue_pop_ok q msg rest Hq Hc) as (q1 & Hp & _ & Hc1). unfold queue_pop in Hp.
  destruct (q_head q =? q_tail q) eqn:E; [by simplify_eq|]. destruct (_ || _); [done|]. injection Hp as Hm Hq1. subst q1.
  exists [true; false; true; false; true; false; true; false; true; false; true; false]. simpl. rewrite E. simpl. rewrite Hm. eexists. split; [done|]. split.
  - rewrite <- Hc1. by apply q_contents_ext.
  - simpl. mlia.
Qed.

Lemma two_workers_duplicate_witness : ∃ q, queue_ok q ∧ q_contents q = [ex_message 7 0; ex_message 8 0] ∧
  ∃ schedule q', run_workers schedule WLoadHead WLoadHead q = (WDone (Some (ex_message 7 0)), WDone (Some (ex_message 7 0)), q') ∧
    q_contents q' = [ex_message 8 0] ∧ q_msg_count q' = u32 (q_msg_count q - 2).
Proof.
  destruct (queue_of ex_busy 0 1) as (q & _ & Hq & Hc); [by apply (seg_reachable 0), ex_busy_reach|done|done|]. rewrite ex_busy_chan in Hc by done.
  exists q. split_and!; [done|done|]. by apply two_workers_duplicate.
Defined.

(** A node that opens the segment of a running cluster resets it: no node is
    registered any more and the messages on the way are gone. *)
Theorem join_resets_cluster env g m g' m' :
  initialize env false (Some g) m = (true, Some g', m') → get_active_nodes m' g' = [] ∧ in_flight g' = 0 ∧ mm_is_coordinator m' = true.
Proof.
  unfold initialize. cbn [andb negb]. destruct (_ || _); [done|]. destruct (negb _); [done|]. intros [= <- <-]. split_and!; by vm_compute.
Qed.

Lemma join_resets_cluster_witness :
  get_active_nodes (ex_mgr 1) ex_busy = [0; 1] ∧
  let r := initialize {| se_open := true; se_truncate := true; se_mmap := true |} false (Some ex_busy) (Manager_new 2) in
  get_active_nodes r.2 (initialized_header 2) = [] ∧ in_flight (initialized_header 2) = 0 ∧ mm_is_coordinator r.2 = true.
Proof.
  split; [by vm_compute|].
  by apply (join_resets_cluster {| se_open := true; se_truncate := true; se_mmap := true |} ex_busy (Manager_new 2)).
Defined.
