(* ===== verification/DistServer.v ===== *)
(** * The distributed memory server

    Models [DistributedMemoryServer] (src/distributed_server.cpp,
    include/distributed_server.h) over its shared-memory transport: the
    memory of a cluster is split among its nodes, a node serves the requests of
    its clients from its own memory or forwards them to the home node of the
    address, and answers the requests of the other nodes.  It composes the
    message managers (DistMsg), the backing memory (SharedMem), the coherency
    engine (Coherency) and the address decoder (HdmDecoder).

    A node runs several threads.  A step is a whole method call, except that
    an operation that waits for a response is two steps, before and after the
    wait; what the threads of all nodes do in between is a run of [cluster_step].
    The TCP and RDMA transports are not modelled: without a connection every
    remote access takes the path over shared memory that is modelled here.
    The model starts with an initialized node, so the engine and the decoder
    are there.  The engine and the controller share one LogP model, which is
    the one of the engine here.

    [None] is undefined behaviour or an exception. *)

From stdpp Require Import pretty.
From S2P Require Import Prelude Float64 Fabric HdmDecoder CacheState Coherency SsdBackend SharedMem DistMsg.

(** ** Data *)

Inductive NodeCounter := local_reads | local_writes | remote_reads | remote_writes | forwarded_requests | coherency_messages.

#[global] Instance NodeCounter_eq_dec : EqDecision NodeCounter.
Proof. solve_decision. Defined.

Record Node := {
  nd_node_id : Z;
  nd_tcp_port : Z;
  nd_local_memory : SharedMemoryManager;
  nd_coherency : CoherencyEngine;
  nd_hdm_decoder : HDMDecoder;
  nd_dramlatency : f64;
  nd_nodes : gmap Z DistNodeInfo;
  nd_running : bool;
  nd_state : Z;
  nd_lsa_data : gmap Z Z;                   (** zero where nothing was written *)
  nd_lsa_size : Z;
  nd_stats : NodeCounter → Z
}.

(** *** Field updates *)

Definition set_memory (m : SharedMemoryManager) (nd : Node) : Node :=
  {| nd_node_id := nd_node_id nd; nd_tcp_port := nd_tcp_port nd; nd_local_memory := m; nd_coherency := nd_coherency nd;
     nd_hdm_decoder := nd_hdm_decoder nd; nd_dramlatency := nd_dramlatency nd; nd_nodes := nd_nodes nd; nd_running := nd_running nd;
     nd_state := nd_state nd; nd_lsa_data := nd_lsa_data nd; nd_lsa_size := nd_lsa_size nd; nd_stats := nd_stats nd |}.

Definition set_coherency (ce : CoherencyEngine) (nd : Node) : Node :=
  {| nd_node_id := nd_node_id nd; nd_tcp_port := nd_tcp_port nd; nd_local_memory := nd_local_memory nd; nd_coherency := ce;
     nd_hdm_decoder := nd_hdm_decoder nd; nd_dramlatency := nd_dramlatency nd; nd_nodes := nd_nodes nd; nd_running := nd_running nd;
     nd_state := nd_state nd; nd_lsa_data := nd_lsa_data nd; nd_lsa_size := nd_lsa_size nd; nd_stats := nd_stats nd |}.

Definition set_decoder (d : HDMDecoder) (nd : Node) : Node :=
  {| nd_node_id := nd_node_id nd; nd_tcp_port := nd_tcp_port nd; nd_local_memory := nd_local_memory nd; nd_coherency := nd_coherency nd;
     nd_hdm_decoder := d; nd_dramlatency := nd_dramlatency nd; nd_nodes := nd_nodes nd; nd_running := nd_running nd;
     nd_state := nd_state nd; nd_lsa_data := nd_lsa_data nd; nd_lsa_size := nd_lsa_size nd; nd_stats := nd_stats nd |}.

Definition set_registry (r : gmap Z DistNodeInfo) (nd : Node) : Node :=
  {| nd_node_id := nd_node_id nd; nd_tcp_port := nd_tcp_port nd; nd_local_memory := nd_local_memory nd; nd_coherency := nd_coherency nd;
     nd_hdm_decoder := nd_hdm_decoder nd; nd_dramlatency := nd_dramlatency nd; nd_nodes := r; nd_running := nd_running nd;
     nd_state := nd_state nd; nd_lsa_data := nd_lsa_data nd; nd_lsa_size := nd_lsa_size nd; nd_stats := nd_stats nd |}.

Definition set_running (r : bool) (st : Z) (nd : Node) : Node :=
  {| nd_node_id := nd_node_id nd; nd_tcp_port := nd_tcp_port nd; nd_local_memory := nd_local_memory nd; nd_coherency := nd_coherency nd;
     nd_hdm_decoder := nd_hdm_decoder nd; nd_dramlatency := nd_dramlatency nd; nd_nodes := nd_nodes nd; nd_running := r;
     nd_state := st; nd_lsa_data := nd_lsa_data nd; nd_lsa_size := nd_lsa_size nd; nd_stats := nd_stats nd |}.

Definition set_lsa (d : gmap Z Z) (n : Z) (nd : Node) : Node :=
  {| nd_node_id := nd_node_id nd; nd_tcp_port := nd_tcp_port nd; nd_local_memory := nd_local_memory nd; nd_coherency := nd_coherency nd;
     nd_hdm_decoder := nd_hdm_decoder nd; nd_dramlatency := nd_dramlatency nd; nd_nodes := nd_nodes nd; nd_running := nd_running nd;
     nd_state := nd_state nd; nd_lsa_data := d; nd_lsa_size := n; nd_stats := nd_stats nd |}.

Definition inc (c : NodeCounter) (nd : Node) : Node :=
  {| nd_node_id := nd_node_id nd; nd_tcp_port := nd_tcp_port nd; nd_local_memory := nd_local_memory nd; nd_coherency := nd_coherency nd;
     nd_hdm_decoder := nd_hdm_decoder nd; nd_dramlatency := nd_dramlatency nd; nd_nodes := nd_nodes nd; nd_running := nd_running nd;
     nd_state := nd_state nd; nd_lsa_data := nd_lsa_data nd; nd_lsa_size := nd_lsa_size nd;
     nd_stats := λ c', if decide (c' = c) then nd_stats nd c' +w 1 else nd_stats nd c' |}.

Section with_casts.
Context `{CastUB}.

(** [static_cast<uint64_t>(controller_->dramlatency)] *)
Definition dram_ns (nd : Node) : Z := f64_to_u64 (nd_dramlatency nd).

(** ** Coherency *)

Definition coherency_request (addr requesting_node : Z) (is_write : bool) (ts : Z) : CoherencyRequest :=
  {| rq_addr := addr; rq_requesting_node := requesting_node; rq_requesting_head := 0; rq_is_write := is_write; rq_timestamp := ts |}.

Definition ensure_coherency_for_read (now addr requesting_node : Z) (nd : Node) : bool * Node :=
  let '(resp, ce) := process_read (nd_coherency nd) (coherency_request addr requesting_node false (u64 now)) in
  (rs_success resp, set_coherency ce nd).

Definition ensure_coherency_for_write (now addr requesting_node : Z) (nd : Node) : bool * Node :=
  let '(resp, ce) := process_write (nd_coherency nd) (coherency_request addr requesting_node true (u64 now)) in
  (rs_success resp, set_coherency ce nd).

(** ** Handlers of the messages of other nodes *)

(** [write_cacheline] of the first [size] bytes of a buffer of 64. *)
Definition write_buffer (m : SharedMemoryManager) (addr size : Z) (data : list Z) : Acc unit * SharedMemoryManager :=
  if SHM_CACHELINE_SIZE <? size then (Refused, m) else write_cacheline m addr (take (Z.to_nat size) data).

Definition handle_read_request (env : MsgEnv) (req resp : dist_message) (nd : Node) : option (dist_message * Node) :=
  let p := payload req in
  let resp1 := set_msg_type DIST_MSG_READ_RESP resp in
  let addr := get_field mem_addr p in
  let nd1 := (ensure_coherency_for_read (me_handler_now env) addr (get_field mem_client_id p) nd).2 in
  match read_cacheline (nd_local_memory nd1) addr (get_field mem_size p) with
  | (Done bs, m) =>
      let nd2 := set_memory m nd1 in
      Some (upd_payload (λ q, set_field mem_latency_ns (dram_ns nd2) (set_field mem_status 0 (set_bytes mem_data bs q))) resp1,
            inc local_reads nd2)
  | (Refused, m) => Some (upd_payload (λ q, set_field mem_status 1 (set_bytes mem_data (me_partial env) q)) resp1, set_memory m nd1)
  | (Fault, _) => None
  end.

Definition handle_write_request (env : MsgEnv) (req resp : dist_message) (nd : Node) : option (dist_message * Node) :=
  let p := payload req in
  let resp1 := set_msg_type DIST_MSG_WRITE_RESP resp in
  let addr := get_field mem_addr p in
  let nd1 := (ensure_coherency_for_write (me_handler_now env) addr (get_field mem_client_id p) nd).2 in
  match write_buffer (nd_local_memory nd1) addr (get_field mem_size p) (get_bytes mem_data 64 p) with
  | (Done _, m) =>
      let nd2 := set_memory m nd1 in
      Some (upd_payload (λ q, set_field mem_latency_ns (dram_ns nd2 +w 50) (set_field mem_status 0 q)) resp1, inc local_writes nd2)
  | (Refused, m) => Some (upd_payload (set_field mem_status 1) resp1, set_memory m nd1)
  | (Fault, _) => None
  end.

Definition handle_atomic_request (env : MsgEnv) (req resp : dist_message) (nd : Node) : option (dist_message * Node) :=
  let p := payload req in
  let addr := get_field mem_addr p in
  let is_faa := msg_type (header req) =? DIST_MSG_ATOMIC_FAA_REQ in
  let resp1 := set_msg_type (if is_faa then DIST_MSG_ATOMIC_FAA_RESP else DIST_MSG_ATOMIC_CAS_RESP) resp in
  let nd1 := (ensure_coherency_for_write (me_handler_now env) addr (src_node_id (header req)) nd).2 in
  match if is_faa then atomic_fetch_add_uint64 (nd_local_memory nd1) addr (get_field mem_value p)
        else atomic_compare_exchange_uint64 (nd_local_memory nd1) addr (get_field mem_expected p) (get_field mem_value p) with
  | (Done old_value, m) =>
      let nd2 := set_memory m nd1 in
      Some (upd_payload (λ q, set_field mem_latency_ns (dram_ns nd2 +w 20) (set_field mem_status 0 (set_field mem_value old_value q))) resp1, nd2)
  | (Refused, m) => Some (upd_payload (set_field mem_status 1) resp1, set_memory m nd1)
  | (Fault, _) => None
  end.

Definition handle_fence_request (env : MsgEnv) (req resp : dist_message) (nd : Node) : option (dist_message * Node) :=
  let '(ok, m) := flush (nd_local_memory nd) in
  let nd1 := set_memory m nd in
  Some (upd_payload (λ q, set_field mem_latency_ns (dram_ns nd1) (set_field mem_status (if (ok : bool) then 0 else 1) q))
          (set_msg_type DIST_MSG_FENCE_RESP resp), nd1).

Definition handle_coherency_request (env : MsgEnv) (req resp : dist_message) (nd : Node) : option (dist_message * Node) :=
  let nd1 := inc coherency_messages nd in
  let cacheline_addr := get_field coherency_cacheline_addr (payload req) in
  if msg_type (header req) =? DIST_MSG_INVALIDATE then
    Some (upd_payload (set_field coherency_cacheline_addr cacheline_addr) (set_msg_type DIST_MSG_INVALIDATE_ACK resp),
          set_coherency (handle_remote_invalidate (nd_coherency nd1) cacheline_addr (src_node_id (header req))) nd1)
  else if msg_type (header req) =? DIST_MSG_DOWNGRADE then
    Some (upd_payload (set_field coherency_cacheline_addr cacheline_addr) (set_msg_type DIST_MSG_DOWNGRADE_ACK resp),
          set_coherency (handle_remote_downgrade (nd_coherency nd1) cacheline_addr (src_node_id (header req))) nd1)
  else Some (resp, nd1).

(** The C string at the start of a buffer; [None]: it does not end there. *)
Fixpoint c_string (bs : list Z) : option (list Z) :=
  match bs with [] => None | b :: rest => if b =? 0 then Some [] else (b ::.) <$> c_string rest end.

Definition set_info (state heartbeat : Z) (i : DistNodeInfo) : DistNodeInfo :=
  {| ni_node_id := ni_node_id i; ni_hostname := ni_hostname i; ni_state := state; ni_memory_base := ni_memory_base i;
     ni_memory_size := ni_memory_size i; ni_last_heartbeat := heartbeat |}.

Definition handle_node_message (env : MsgEnv) (req resp : dist_message) (nd : Node) : option (dist_message * Node) :=
  let p := payload req in
  if msg_type (header req) =? DIST_MSG_NODE_REGISTER then
    hostname ← c_string (drop node_hostname p);
    let info := {| ni_node_id := get_field node_node_id p; ni_hostname := hostname; ni_state := get_field node_node_state p;
                   ni_memory_base := get_field node_memory_base p; ni_memory_size := get_field node_memory_size p; ni_last_heartbeat := 0 |} in
    Some (set_msg_type DIST_MSG_NODE_ACK resp, set_registry (<[ni_node_id info := info]> (nd_nodes nd)) nd)
  else if msg_type (header req) =? DIST_MSG_NODE_HEARTBEAT then
    let update := set_info (get_field node_node_state p) (timestamp (header req)) in
    Some (set_msg_type DIST_MSG_NONE resp, set_registry (alter update (get_field node_node_id p) (nd_nodes nd)) nd)
  else Some (resp, nd).

Definition handle_dir_query (env : MsgEnv) (req resp : dist_message) (nd : Node) : option (dist_message * Node) :=
  Some (upd_payload (set_field coherency_cacheline_addr (get_field coherency_cacheline_addr (payload req)))
          (set_msg_type DIST_MSG_DIR_RESPONSE resp), nd).

#[export] Instance node_handlers : Handlers Node := λ t,
  if t =? DIST_MSG_READ_REQ then Some handle_read_request
  else if t =? DIST_MSG_WRITE_REQ then Some handle_write_request
  else if (t =? DIST_MSG_ATOMIC_FAA_REQ) || (t =? DIST_MSG_ATOMIC_CAS_REQ) then Some handle_atomic_request
  else if t =? DIST_MSG_FENCE_REQ then Some handle_fence_request
  else if (t =? DIST_MSG_INVALIDATE) || (t =? DIST_MSG_DOWNGRADE) then Some handle_coherency_request
  else if (t =? DIST_MSG_NODE_REGISTER) || (t =? DIST_MSG_NODE_HEARTBEAT) then Some handle_node_message
  else if t =? DIST_MSG_DIR_QUERY then Some handle_dir_query
  else None.

Definition handled_types : list Z :=
  [DIST_MSG_READ_REQ; DIST_MSG_WRITE_REQ; DIST_MSG_ATOMIC_FAA_REQ; DIST_MSG_ATOMIC_CAS_REQ; DIST_MSG_FENCE_REQ; DIST_MSG_INVALIDATE;
   DIST_MSG_DOWNGRADE; DIST_MSG_NODE_REGISTER; DIST_MSG_NODE_HEARTBEAT; DIST_MSG_DIR_QUERY].

Definition setup_message_handlers (m : Manager) : Manager := List.fold_left (λ m t, register_handler t m) handled_types m.

(** ** Routing *)

Definition get_node_for_address (nd : Node) (addr : Z) : Z := get_home_node (nd_hdm_decoder nd) addr.

Definition is_local_address (nd : Node) (addr : Z) : bool :=
  let i := get_shm_info (nd_local_memory nd) in (in_base_addr i <=? addr) && (addr <? in_base_addr i +w in_size i).

(** Does [read] or [write] serve the access here?  Addresses that no range contains
    are.  Atomics are only served here when the decoder names this node. *)
Definition served_here (nd : Node) (addr : Z) : bool :=
  (get_node_for_address nd addr =? nd_node_id nd) || is_local_address nd addr || (get_node_for_address nd addr =? UINT32_MAX).

(** [CXLController::calculate_logp_latency] *)
Definition calculate_logp_latency (src_node dst_node ts : Z) (nd : Node) : f64 * Node :=
  if src_node =? dst_node then (f0, nd)
  else
    let ce := nd_coherency nd in
    let '(lat, lm) := message_latency (default LogPModel_default (ce_logp ce)) ts dst_node in
    (lat, set_coherency (with_env (Some lm) (ce_links ce) ce) nd).

(** ** Reads and writes

    What an operation meets outside of the program: the clock for its
    message and for the engine, and the stack where it puts a response. *)

Record OpEnv := { oe_now : Z; oe_coherency_now : Z; oe_stack : dist_message; oe_alloc : Z → bool; oe_partial : list Z }.

(** An operation has returned, or waits for the response to its request.
    [Refused] is the return value -1. *)
Inductive Call (A : Type) :=
  | Returned (r : Acc A)
  | Waits (target_node : Z) (req : dist_message).
Arguments Returned {A} _.
Arguments Waits {A} _ _.

(** A request with a new identifier. *)
Definition new_request (type target now : Z) (p : list Z) (m : Manager) (nd : Node) : dist_message * Manager :=
  let '(id, m1) := generate_msg_id m in (message type id (nd_node_id nd) target (u64 now) p, m1).

Definition send_request {A} (env : OpEnv) (target : Z) (req : dist_message) (v : View Node) : option (Call A * View Node) :=
  '(ok, m, g) ← request_begin (v_mgr v) target req (oe_stack env) (v_shm v);
  Some (if (ok : bool) then Waits target req else Returned Refused, mkView g m (v_node v)).

Definition read_payload (addr size node : Z) : list Z :=
  set_field mem_client_id node (set_field mem_size size (set_field mem_addr addr zero_payload)).

Definition forward_read (env : OpEnv) (target_node addr size : Z) (v : View Node) : option (Call (list Z * Z) * View Node) :=
  let nd := inc remote_reads (inc forwarded_requests (v_node v)) in
  let '(req, m) := new_request DIST_MSG_READ_REQ target_node (oe_now env) (read_payload addr size (nd_node_id nd)) (v_mgr v) nd in
  send_request env target_node req (mkView (v_shm v) m nd).

(** The network latency is added to the latency that the home node reports. *)
Definition network_latency (req : dist_message) (target_node : Z) (resp : dist_message) (nd : Node) : Z * Node :=
  let '(logp_lat, nd1) := calculate_logp_latency (nd_node_id nd) target_node (timestamp (header req)) nd in
  (get_field mem_latency_ns (payload resp) +w f64_to_u64 logp_lat, nd1).

Definition forward_read_end (target_node size : Z) (req : dist_message) (v : View Node) : option (Acc (list Z * Z) * View Node) :=
  let '(r, m) := request_end (v_mgr v) (msg_id (header req)) in
  match r with
  | None => Some (Refused, mkView (v_shm v) m (v_node v))
  | Some resp =>
      if negb (get_field mem_status (payload resp) =? 0) then Some (Refused, mkView (v_shm v) m (v_node v))
      else if 64 <? size then None
      else
        let '(lat, nd1) := network_latency req target_node resp (v_node v) in
        Some (Done (get_bytes mem_data (Z.to_nat size) (payload resp), lat), mkView (v_shm v) m nd1)
  end.

Definition local_read (env : OpEnv) (addr size : Z) (nd : Node) : option (Acc (list Z * Z) * Node) :=
  let nd1 := (ensure_coherency_for_read (oe_coherency_now env) addr (nd_node_id nd) nd).2 in
  match read_cacheline (nd_local_memory nd1) addr size with
  | (Done bs, m) => let nd2 := set_memory m nd1 in Some (Done (bs, dram_ns nd2), inc local_reads nd2)
  | (Refused, m) => Some (Refused, set_memory m nd1)
  | (Fault, _) => None
  end.

Definition read (env : OpEnv) (addr size : Z) (v : View Node) : option (Call (list Z * Z) * View Node) :=
  let nd := v_node v in
  if served_here nd addr then
    '(r, nd1) ← local_read env addr size nd; Some (Returned r, mkView (v_shm v) (v_mgr v) nd1)
  else forward_read env (get_node_for_address nd addr) addr size v.

Definition forward_write (env : OpEnv) (target_node addr : Z) (data : list Z) (v : View Node) : option (Call Z * View Node) :=
  let nd := inc remote_writes (inc forwarded_requests (v_node v)) in
  let size := Z.of_nat (length data) in
  if 64 <? size then None
  else
    let '(req, m) := new_request DIST_MSG_WRITE_REQ target_node (oe_now env)
                       (set_bytes mem_data data (read_payload addr size (nd_node_id nd))) (v_mgr v) nd in
    send_request env target_node req (mkView (v_shm v) m nd).

Definition forward_write_end (target_node : Z) (req : dist_message) (v : View Node) : Acc Z * View Node :=
  let '(r, m) := request_end (v_mgr v) (msg_id (header req)) in
  match r with
  | None => (Refused, mkView (v_shm v) m (v_node v))
  | Some resp =>
      if negb (get_field mem_status (payload resp) =? 0) then (Refused, mkView (v_shm v) m (v_node v))
      else let '(lat, nd1) := network_latency req target_node resp (v_node v) in (Done lat, mkView (v_shm v) m nd1)
  end.

Definition local_write (env : OpEnv) (addr : Z) (data : list Z) (nd : Node) : option (Acc Z * Node) :=
  let nd1 := (ensure_coherency_for_write (oe_coherency_now env) addr (nd_node_id nd) nd).2 in
  match write_cacheline (nd_local_memory nd1) addr data with
  | (Done _, m) => let nd2 := set_memory m nd1 in Some (Done (dram_ns nd2 +w 50), inc local_writes nd2)
  | (Refused, m) => Some (Refused, set_memory m nd1)
  | (Fault, _) => None
  end.

Definition write (env : OpEnv) (addr : Z) (data : list Z) (v : View Node) : option (Call Z * View Node) :=
  let nd := v_node v in
  if served_here nd addr then
    '(r, nd1) ← local_write env addr data nd; Some (Returned r, mkView (v_shm v) (v_mgr v) nd1)
  else forward_write env (get_node_for_address nd addr) addr data v.

(** ** Atomics and fences *)

(** [atomic_faa] and [atomic_cas], up to the wait. *)
Definition atomic_begin (env : OpEnv) (type addr : Z) (p : list Z) (v : View Node) : option (Call Z * View Node) :=
  let nd := v_node v in
  let target_node := get_node_for_address nd addr in
  let '(req, m) := new_request type target_node (oe_now env) p (v_mgr v) nd in
  if target_node =? nd_node_id nd then
    let env' := {| me_now := oe_now env; me_handler_now := oe_coherency_now env; me_partial := oe_partial env |} in
    '(resp, nd1) ← handle_atomic_request env' req (oe_stack env) nd;
    Some (Returned (if negb (get_field mem_status (payload resp) =? 0) then Refused else Done (get_field mem_value (payload resp))),
          mkView (v_shm v) m nd1)
  else send_request env target_node req (mkView (v_shm v) m nd).

Definition atomic_faa (env : OpEnv) (addr value : Z) : View Node → option (Call Z * View Node) :=
  atomic_begin env DIST_MSG_ATOMIC_FAA_REQ addr (set_field mem_value value (set_field mem_addr addr zero_payload)).

Definition atomic_cas (env : OpEnv) (addr expected desired : Z) : View Node → option (Call Z * View Node) :=
  atomic_begin env DIST_MSG_ATOMIC_CAS_REQ addr
    (set_field mem_value desired (set_field mem_expected expected (set_field mem_addr addr zero_payload))).

Definition atomic_end (req : dist_message) (v : View Node) : Acc Z * View Node :=
  let '(r, m) := request_end (v_mgr v) (msg_id (header req)) in
  (match r with
   | None => Refused
   | Some resp => if negb (get_field mem_status (payload resp) =? 0) then Refused else Done (get_field mem_value (payload resp))
   end, mkView (v_shm v) m (v_node v)).

Definition fence (env : OpEnv) (v : View Node) : option (View Node) :=
  let nd := v_node v in
  let nd1 := set_memory (flush (nd_local_memory nd)).2 nd in
  let '(fence_msg, m) := new_request DIST_MSG_FENCE_REQ 0 (oe_now env) zero_payload (v_mgr v) nd1 in
  '(_, g) ← broadcast_message m fence_msg (v_shm v); Some (mkView g m nd1).

(** ** Label storage area *)

Definition lsa_read (offset size : Z) (nd : Node) : option (Acc (list Z)) :=
  if nd_lsa_size nd <? offset +w size then Some Refused
  else if (0 <? size) && (nd_lsa_size nd <? offset + size) then None
  else Some (Done (load_bytes (Z.to_nat size) offset (nd_lsa_data nd))).

Definition lsa_write (env : OpEnv) (offset : Z) (data : list Z) (nd : Node) : option Node :=
  let size := Z.of_nat (length data) in
  let new_size := offset +w size in
  let grow := nd_lsa_size nd <? new_size in
  if grow && negb (oe_alloc env new_size) then None
  else
    let n := if grow then new_size else nd_lsa_size nd in
    if (0 <? size) && (n <? offset + size) then None else Some (set_lsa (store_bytes data offset (nd_lsa_data nd)) n nd).

(** ** Cluster membership *)

Definition add_remote_node (info : DistNodeInfo) (nd : Node) : Node := set_registry (<[ni_node_id info := info]> (nd_nodes nd)) nd.

Definition remove_remote_node (node_id : Z) (v : View Node) : bool * View Node :=
  let nd := set_registry (delete node_id (nd_nodes (v_node v))) (v_node v) in
  let '(ok, g) := deregister_node node_id (v_mgr v) (v_shm v) in (ok, mkView g (v_mgr v) nd).

Definition get_cluster_nodes (nd : Node) : list DistNodeInfo := snd <$> map_to_list (nd_nodes nd).

(** One round of [heartbeat_loop]: [now] is the clock of [send_heartbeat], [now'] that of the check. *)
Definition check_node (now node_id : Z) (id : Z) (i : DistNodeInfo) : DistNodeInfo :=
  if id =? node_id then i
  else if (10000000000 <? u64 now -w ni_last_heartbeat i) && negb (ni_state i =? NODE_STATE_OFFLINE)
  then set_info NODE_STATE_OFFLINE (ni_last_heartbeat i) i else i.

Definition heartbeat_round (now now' : Z) (v : View Node) : option (View Node) :=
  '(m, g) ← send_heartbeat now (v_mgr v) (v_shm v);
  let nd := v_node v in
  Some (mkView g m (set_registry (map_imap (λ id i, Some (check_node now' (nd_node_id nd) id i)) (nd_nodes nd)) nd)).

Definition leave_cluster (now : Z) (v : View Node) : option (View Node) :=
  let nd := v_node v in
  let '(dereg_msg, m) := new_request DIST_MSG_NODE_DEREGISTER 65535 now (set_field node_node_id (nd_node_id nd) zero_payload) (v_mgr v) nd in
  '(_, g) ← broadcast_message m dereg_msg (v_shm v); Some (mkView (deregister_node (nd_node_id nd) m g).2 m nd).

(** ** Start and stop *)

Definition start (nd : Node) : bool * Node :=
  if nd_running nd then (true, nd)
  else if negb (nd_state nd =? NODE_STATE_READY) then (false, nd) else (true, set_running true (nd_state nd) nd).

Definition stop (v : View Node) : View Node :=
  let nd := v_node v in
  if negb (nd_running nd) then v
  else mkView (deregister_node (nd_node_id nd) (v_mgr v) (v_shm v)).2 (v_mgr v) (set_running false NODE_STATE_OFFLINE nd).

Definition bytes_of_string (s : string) : list Z := (λ a, Z.of_N (Ascii.N_of_ascii a)) <$> String.list_ascii_of_string s.

(** ["node" + std::to_string(node_id_)] *)
Definition hostname_of (node_id : Z) : list Z := bytes_of_string ("node" +:+ pretty node_id).

(** The entry of a node for the registry. *)
Definition own_info (node_id : Z) (mem : SharedMemoryManager) (now : Z) : DistNodeInfo :=
  {| ni_node_id := node_id; ni_hostname := hostname_of node_id; ni_state := NODE_STATE_READY;
     ni_memory_base := in_base_addr (get_shm_info mem); ni_memory_size := in_size (get_shm_info mem); ni_last_heartbeat := u64 now |}.

Record InitEnv := { ie_os : OsEnv; ie_shm : ShmEnv; ie_now : Z; ie_msync : list bool }.

(** What the constructor is given; [cf_ssd] is the streaming configuration of the
    node when that has a path. *)
Record NodeConfig := {
  cf_node_id : Z; cf_capacity_mb : Z; cf_tcp_port : Z; cf_dram : f64; cf_logp : LogPModel; cf_ssd : option SsdStreamingConfig
}.

Definition local_manager (env : InitEnv) (c : NodeConfig) : SharedMemoryManager :=
  match cf_ssd c with
  | Some ssd =>
      SharedMemoryManager_ssd (cf_capacity_mb c)
        (if sc_capacity_bytes ssd =? 0 then with_capacity (cf_capacity_mb c *w 1048576) ssd else ssd) (ie_msync env)
  | None => SharedMemoryManager_new (cf_capacity_mb c) (ie_msync env)
  end.

(** The first part of [initialize], up to the segment of the messages: the local
    memory and the message manager.  [g] is the object with the name of the segment,
    before and after. *)
Definition prepare_node (env : InitEnv) (c : NodeConfig) (g : option dist_shm_header)
    : option dist_shm_header * option (SharedMemoryManager * Manager) :=
  match SharedMem.initialize (ie_os env) (local_manager env c) with
  | (false, _) => (g, None)
  | (true, mem0) =>
      let mem := SharedMem.set_base_addr (u64 (cf_node_id c * cf_capacity_mb c * 1048576)) mem0 in
      match DistMsg.initialize (ie_shm env) (cf_node_id c =? 0) g (Manager_new (cf_node_id c)) with
      | (true, Some g1, m1) => (Some g1, Some (mem, m1))
      | (_, g1, _) => (g1, None)
      end
  end.

(** The rest of [initialize] with the shared-memory transport: the node registers,
    sets up its handlers and configures its controller. *)
Definition enrol_node (env : InitEnv) (c : NodeConfig) (mem : SharedMemoryManager) (m1 : Manager) (g1 : dist_shm_header)
    : dist_shm_header * option (View Node) :=
  match register_node (ie_now env) (own_info (cf_node_id c) mem (ie_now env)) m1 g1 with
  | (false, g2) => (g2, None)
  | (true, g2) =>
      let m2 := setup_message_handlers m1 in
      let num_nodes := Z.max (Z.of_nat (length (get_active_nodes m2 g2))) 2 in
      let cfg := {| lc_L := f64_of_Z 150; lc_o_s := f64_of_Z 20; lc_o_r := f64_of_Z 20; lc_g := f64_of_Z 4; lc_P := num_nodes |} in
      let info := get_shm_info mem in
      (g2, Some (mkView g2 m2
        {| nd_node_id := cf_node_id c; nd_tcp_port := cf_tcp_port c; nd_local_memory := mem;
           nd_coherency := CoherencyEngine_new (cf_node_id c) (Some (reconfigure (cf_logp c) cfg)) 16;
           nd_hdm_decoder := add_range (HDMDecoder_new RANGE_BASED) (in_base_addr info) (in_size info) (cf_node_id c) false;
           nd_dramlatency := cf_dram c; nd_nodes := ∅; nd_running := false; nd_state := NODE_STATE_READY; nd_lsa_data := ∅;
           nd_lsa_size := 262144; nd_stats := λ _, 0 |}))
  end.

(** [initialize] of a node that starts alone. *)
Definition initialize_node (env : InitEnv) (c : NodeConfig) (g : option dist_shm_header) : option dist_shm_header * option (View Node) :=
  match prepare_node env c g with
  | (Some g1, Some (mem, m1)) => let '(g2, v) := enrol_node env c mem m1 g1 in (Some g2, v)
  | (g1, _) => (g1, None)
  end.

(** [join_cluster]: the manager is replaced by a new one, without handlers, and
    the old one removes its segment.  [coordinator] is the object with the
    name of the coordinator's segment, [same_name] when the node used it already. *)
Definition join_cluster (env : InitEnv) (same_name : bool) (coordinator : option dist_shm_header) (v : View Node)
    : option (bool * option dist_shm_header * View Node) :=
  let nd := v_node v in
  let named := if same_name then (cleanup coordinator (v_mgr v)).1 else coordinator in
  match DistMsg.initialize (ie_shm env) false named (Manager_new (nd_node_id nd)) with
  | (true, Some g1, m1) =>
      let info := own_info (nd_node_id nd) (nd_local_memory nd) 0 in
      match register_node (ie_now env) info m1 g1 with
      | (false, g2) => Some (false, Some g2, mkView g2 m1 nd)
      | (true, g2) =>
          let p := set_bytes node_hostname (strncpy 23 (ni_hostname info) (replicate 23 0))
            (set_field node_port (nd_tcp_port nd) (set_field node_num_cachelines (ni_memory_size info / DIST_CACHELINE_SIZE)
              (set_field node_memory_size (ni_memory_size info) (set_field node_memory_base (ni_memory_base info)
                (set_field node_node_state (ni_state info) (set_field node_node_id (ni_node_id info) zero_payload)))))) in
          let '(reg_msg, m2) := new_request DIST_MSG_NODE_REGISTER 0 (ie_now env) p m1 nd in
          '(_, g3) ← send_message m2 0 reg_msg g2; Some (true, Some g3, mkView g3 m2 nd)
      end
  | (_, g1, m1) => Some (false, g1, mkView (v_shm v) m1 nd)
  end.

(** ** Clients

    One request of [handle_tcp_client] that was received completely; sockets
    are not modelled. *)

Record DistServerRequest := {
  dq_op_type : Z; dq_addr : Z; dq_size : Z; dq_timestamp : Z; dq_value : Z; dq_expected : Z; dq_data : list Z
}.

Record DistServerResponse := { dp_status : Z; dp_latency_ns : Z; dp_old_value : Z; dp_data : list Z }.

Definition DIST_OP_READ : Z := 0.
Definition DIST_OP_WRITE : Z := 1.
Definition DIST_OP_GET_SHM_INFO : Z := 2.
Definition DIST_OP_ATOMIC_FAA : Z := 3.
Definition DIST_OP_ATOMIC_CAS : Z := 4.
Definition DIST_OP_FENCE : Z := 5.
Definition DIST_OP_LSA_READ : Z := 6.
Definition DIST_OP_LSA_WRITE : Z := 7.

Definition reply (status latency old : Z) (data : list Z) : DistServerResponse :=
  {| dp_status := status; dp_latency_ns := latency; dp_old_value := old; dp_data := data ++ drop (length data) (replicate 64 0) |}.

Definition read_reply (r : Acc (list Z * Z)) : DistServerResponse :=
  match r with Done (bs, lat) => reply 0 lat 0 bs | _ => reply 1 0 0 [] end.

Definition write_reply (r : Acc Z) : DistServerResponse := match r with Done lat => reply 0 lat 0 [] | _ => reply 1 0 0 [] end.

Definition faa_reply (r : Acc Z) : DistServerResponse := match r with Done old => reply 0 0 old [] | _ => reply 1 0 0 [] end.

Definition cas_reply (expected : Z) (r : Acc Z) : DistServerResponse :=
  match r with Done old => reply (if old =? expected then 0 else 1) 0 old [] | _ => reply 1 0 0 [] end.

Inductive Answer := Answered (resp : DistServerResponse) | Forwarded (target_node : Z) (req : dist_message).

Definition answer {A} (f : Acc A → DistServerResponse) (c : Call A) : Answer :=
  match c with Returned r => Answered (f r) | Waits t req => Forwarded t req end.

Definition clamped (req : DistServerRequest) : Z := Z.min (dq_size req) 64.

Definition client_data (req : DistServerRequest) : list Z := take (Z.to_nat (clamped req)) (dq_data req).

Definition info_data (m : SharedMemoryManager) : list Z :=
  let i := get_shm_info m in le_encode 8 (in_base_addr i) ++ le_encode 8 (in_size i) ++ le_encode 8 (in_num_cachelines i).

Definition client_request (env : OpEnv) (req : DistServerRequest) (v : View Node) : option (Answer * View Node) :=
  let op := dq_op_type req in
  if op =? DIST_OP_READ then '(c, v1) ← read env (dq_addr req) (clamped req) v; Some (answer read_reply c, v1)
  else if op =? DIST_OP_WRITE then '(c, v1) ← write env (dq_addr req) (client_data req) v; Some (answer write_reply c, v1)
  else if op =? DIST_OP_ATOMIC_FAA then
    '(c, v1) ← atomic_faa env (dq_addr req) (dq_value req) v; Some (answer faa_reply c, v1)
  else if op =? DIST_OP_ATOMIC_CAS then
    '(c, v1) ← atomic_cas env (dq_addr req) (dq_expected req) (dq_value req) v; Some (answer (cas_reply (dq_expected req)) c, v1)
  else if op =? DIST_OP_FENCE then v1 ← fence env v; Some (Answered (reply 0 0 0 []), v1)
  else if op =? DIST_OP_LSA_READ then
    r ← lsa_read (dq_addr req) (clamped req) (v_node v);
    Some (Answered (match r with Done bs => reply 0 0 0 bs | _ => reply 1 0 0 [] end), v)
  else if op =? DIST_OP_LSA_WRITE then
    nd ← lsa_write env (dq_addr req) (client_data req) (v_node v); Some (Answered (reply 0 0 0 []), mkView (v_shm v) (v_mgr v) nd)
  else if op =? DIST_OP_GET_SHM_INFO then Some (Answered (reply 0 0 0 (info_data (nd_local_memory (v_node v)))), v)
  else Some (Answered (reply 1 0 0 []), v).

(** After the wait for the response to [msg]. *)
Definition client_response (req : DistServerRequest) (target_node : Z) (msg : dist_message) (v : View Node)
    : option (DistServerResponse * View Node) :=
  let op := dq_op_type req in
  if op =? DIST_OP_READ then '(r, v1) ← forward_read_end target_node (clamped req) msg v; Some (read_reply r, v1)
  else if op =? DIST_OP_WRITE then let '(r, v1) := forward_write_end target_node msg v in Some (write_reply r, v1)
  else if op =? DIST_OP_ATOMIC_FAA then let '(r, v1) := atomic_end msg v in Some (faa_reply r, v1)
  else let '(r, v1) := atomic_end msg v in Some (cas_reply (dq_expected req) r, v1).

Record NodeStats := {
  sn_local_reads : Z; sn_local_writes : Z; sn_remote_reads : Z; sn_remote_writes : Z; sn_forwarded_requests : Z;
  sn_coherency_messages : Z; sn_active_connections : Z
}.

Definition node_stats (client_threads : Z) (nd : Node) : NodeStats :=
  {| sn_local_reads := nd_stats nd local_reads; sn_local_writes := nd_stats nd local_writes; sn_remote_reads := nd_stats nd remote_reads;
     sn_remote_writes := nd_stats nd remote_writes; sn_forwarded_requests := nd_stats nd forwarded_requests;
     sn_coherency_messages := nd_stats nd coherency_messages; sn_active_connections := client_threads |}.

End with_casts.

(** ** Invariant of a node *)

Record node_inv (n : Z) (nd : Node) : Prop := {
  nv_id : nd_node_id nd = n;
  nv_node : is_node n;
  nv_memory : shm_inv (nd_local_memory nd);
  nv_engine : engine_inv (nd_coherency nd);
  nv_local : ce_local_node_id (nd_coherency nd) = n;
  nv_route : Forall (λ t, 0 <= t) (targets (nd_hdm_decoder nd));
  nv_lsa : 262144 <= nd_lsa_size nd < TWO64
}.

(** What serving a request leaves alone. *)
Record served (nd nd' : Node) : Prop := {
  sv_id : nd_node_id nd' = nd_node_id nd;
  sv_decoder : nd_hdm_decoder nd' = nd_hdm_decoder nd;
  sv_dram : nd_dramlatency nd' = nd_dramlatency nd;
  sv_lsa : nd_lsa_size nd' = nd_lsa_size nd;
  sv_memory : kept (nd_local_memory nd) (nd_local_memory nd');
  sv_engine : engine_inv (nd_coherency nd');
  sv_local : ce_local_node_id (nd_coherency nd') = ce_local_node_id (nd_coherency nd)
}.

Definition same_memory (nd nd' : Node) : Prop := ∀ o, 0 <= o → mem (nd_local_memory nd') o = mem (nd_local_memory nd) o.

(** ** Lemmas: the parts of a node *)

Lemma served_refl n nd : node_inv n nd → served nd nd.
Proof. intros [_ _ Hm He _ _ _]. split; [done..|by apply kept_refl|done|done]. Qed.

Lemma served_trans nd1 nd2 nd3 : served nd1 nd2 → served nd2 nd3 → served nd1 nd3.
Proof. intros [? ? ? ? Hk ? ?] [? ? ? ? Hk' ? ?]. split; [congruence..|by eapply kept_trans|done|congruence]. Qed.

Lemma served_inv n nd nd' : node_inv n nd → served nd nd' → node_inv n nd'.
Proof. intros [Hi Hn _ _ Hl Hr Hs] [? ? ? ? Hk ? ?]. split; [congruence|done|apply Hk|done|congruence|congruence|congruence]. Qed.

Lemma get_field_range f p : 0 <= get_field f p < 256 ^ Z.of_nat (f_len f).
Proof. apply Z.mod_pos_bound. lia. Qed.

Lemma get_field_u64 f p : f_len f = 8%nat → is_u64 (get_field f p).
Proof. intros Hl. pose proof (get_field_range f p) as H. rewrite Hl in H. exact H. Qed.

Lemma node_not_max n : is_node n → n ≠ UINT32_MAX.
Proof. unfold is_node, DIST_MAX_NODES, UINT32_MAX. lia. Qed.

Lemma ensure_read_ok `{CastUB} now addr c n nd :
  node_inv n nd → is_u64 addr → c ≠ UINT32_MAX →
  served nd (ensure_coherency_for_read now addr c nd).2 ∧ nd_local_memory (ensure_coherency_for_read now addr c nd).2 = nd_local_memory nd.
Proof.
  intros [_ _ Hm He _ _ _] Ha Hc. unfold ensure_coherency_for_read. destruct (process_read _ _) as [r ce] eqn:E. split; [|done].
  split; [done..|by apply kept_refl| |]; cbn [nd_coherency set_coherency snd]; change ce with (r, ce).2; rewrite <- E.
  - by apply process_read_inv.
  - by apply engine_step_local, step_read.
Qed.

Lemma ensure_write_ok `{CastUB} now addr c n nd :
  node_inv n nd → is_u64 addr → c ≠ UINT32_MAX →
  served nd (ensure_coherency_for_write now addr c nd).2 ∧ nd_local_memory (ensure_coherency_for_write now addr c nd).2 = nd_local_memory nd.
Proof.
  intros [_ _ Hm He _ _ _] Ha Hc. unfold ensure_coherency_for_write. destruct (process_write _ _) as [r ce] eqn:E. split; [|done].
  split; [done..|by apply kept_refl| |]; cbn [nd_coherency set_coherency snd]; change ce with (r, ce).2; rewrite <- E.
  - by apply process_write_inv.
  - by apply engine_step_local, step_write.
Qed.

Lemma set_memory_served nd m : kept (nd_local_memory nd) m → engine_inv (nd_coherency nd) → served nd (set_memory m nd).
Proof. by split. Qed.

Lemma inc_served c n nd : node_inv n nd → served nd (inc c nd).
Proof. intros [_ _ Hm He _ _ _]. split; [done..|by apply kept_refl|done|done]. Qed.

Lemma registry_served r n nd : node_inv n nd → served nd (set_registry r nd).
Proof. intros [_ _ Hm He _ _ _]. split; [done..|by apply kept_refl|done|done]. Qed.

Lemma write_buffer_ok m a size data r m' :
  shm_inv m → is_u64 a → 0 <= size → length data = 64%nat → write_buffer m a size data = (r, m') →
  r ≠ Fault ∧ kept m m' ∧ wrote_prefix m m' a (take (Z.to_nat size) data) (is_done r) ∧ (is_done r = true → 1 <= size <= 64).
Proof.
  intros Hi Ha Hs Hd. unfold write_buffer, SHM_CACHELINE_SIZE. destruct (64 <? size) eqn:E; btests.
  - intros [= <- <-]. split_and!; [done|by apply kept_refl|by apply wrote_nothing|done].
  - intros Hw. assert (length (take (Z.to_nat size) data) = Z.to_nat size) as Hl by (rewrite length_take; lia).
    apply write_cacheline_ok in Hw as (Hnf & Hk & Hsz & Hp); [|done..|rewrite Hl; unfold is_u64; lia].
    split_and!; [done..|]. intros Hr. specialize (Hsz Hr). rewrite Hl in Hsz. lia.
Qed.

(** ** Lemmas: what the home node does

    The effect of the handlers, in terms of the memory of the node.  [answers]
    is what they promise of the response. *)

Definition answers (resp resp' : dist_message) (type : Z) : Prop :=
  msg_ok resp' ∧ msg_id (header resp') = msg_id (header resp) ∧ msg_type (header resp') = type.

Definition status_of_msg (m : dist_message) : Z := get_field mem_status (payload m).

Lemma answers_upd resp type f :
  msg_ok resp → (payload_ok (payload resp) → payload_ok (f (payload resp))) → answers resp (upd_payload f (set_msg_type type resp)) type.
Proof. intros [Hi Hs Hp] Hf. split_and!; [|done|done]. split; [done|done|]. by apply Hf. Qed.

Lemma home_read_ok `{CastUB} env req resp n nd :
  node_inv n nd → env_ok env → msg_ok req → msg_ok resp →
  let addr := get_field mem_addr (payload req) in
  let size := get_field mem_size (payload req) in
  let rd := read_cacheline (nd_local_memory nd) addr size in
  ∃ resp' nd', handle_read_request env req resp nd = Some (resp', nd') ∧ answers resp resp' DIST_MSG_READ_RESP ∧ served nd nd' ∧
    nd_local_memory nd' = rd.2 ∧ same_memory nd nd' ∧
    match rd.1 with
    | Done bs => status_of_msg resp' = 0 ∧ length bs = Z.to_nat size ∧ get_bytes mem_data (length bs) (payload resp') = bs ∧
        get_field mem_latency_ns (payload resp') = dram_ns nd
    | _ => status_of_msg resp' = 1
    end.
Proof.
  intros Hn He Hq Hr addr size rd. unfold handle_read_request. fold addr. fold size.
  assert (is_u64 addr ∧ is_u64 size) as [Ha Hs] by (split; by apply get_field_u64).
  destruct (ensure_read_ok (me_handler_now env) addr (get_field mem_client_id (payload req)) n nd Hn Ha) as [Hsv Hm]; [apply Hq|].
  set (nd1 := (ensure_coherency_for_read _ _ _ _).2) in *. rewrite Hm. subst rd. destruct (read_cacheline _ addr size) as [r m] eqn:E.
  pose proof (po_length _ (mo_payload _ Hr)) as Hlen.
  pose proof E as (Hnf & Hk & Hmem & Hbs)%read_cacheline_ok; [|apply Hn|done|done]. cbn [fst snd].
  assert (served nd (set_memory m nd1)) as Hsv1 by (eapply served_trans; [exact Hsv|]; apply set_memory_served; [by rewrite Hm|apply Hsv]).
  destruct r as [bs| |]; [| |done].
  - destruct (Hbs bs eq_refl) as [Hsz Hget]. assert (length bs = Z.to_nat size) as Hlb by (rewrite Hget; apply get_length).
    assert (mem_data + length bs ≤ 256)%nat as Hfit by (unfold mem_data; lia).
    eexists _, _. split; [reflexivity|]. cbn [payload upd_payload set_msg_type]. unfold status_of_msg. split_and!.
    + apply answers_upd; [done|]. intros Hp. apply payload_set_field, payload_set_field, payload_set_bytes; [done|done|unfold mem_data; lia..|done].
    + eapply served_trans; [exact Hsv1|]. eapply inc_served, served_inv; [exact Hn|exact Hsv1].
    + done.
    + intros o Ho. apply Hmem.
    + cbn [payload upd_payload set_msg_type]. by payload_simpl.
    + done.
    + rewrite !bytes_other by (auto with cxl; unfold mem_data; simpl; lia). apply get_set_bytes; [done|unfold mem_data; lia].
    + payload_simpl. unfold dram_ns. cbn [set_memory nd_dramlatency]. rewrite (sv_dram _ _ Hsv). apply u64_small, f64_to_u64_range.
  - eexists _, _. split; [reflexivity|]. split_and!; [|done|done|intros o Ho; apply Hmem|].
    + apply answers_upd; [done|]. intros Hp. apply payload_set_field, payload_set_bytes; [done|unfold mem_data; lia|rewrite He; unfold mem_data; lia|done].
    + unfold status_of_msg. cbn [payload upd_payload set_msg_type]. rewrite field_same; [done|done|].
      apply set_bytes_256; [rewrite He; unfold mem_data; lia|done].
Qed.

Lemma home_write_ok `{CastUB} env req resp n nd :
  node_inv n nd → msg_ok req → msg_ok resp →
  let addr := get_field mem_addr (payload req) in
  let wr := write_buffer (nd_local_memory nd) addr (get_field mem_size (payload req)) (get_bytes mem_data 64 (payload req)) in
  ∃ resp' nd', handle_write_request env req resp nd = Some (resp', nd') ∧ answers resp resp' DIST_MSG_WRITE_RESP ∧ served nd nd' ∧
    nd_local_memory nd' = wr.2 ∧
    if is_done wr.1 then status_of_msg resp' = 0 ∧ get_field mem_latency_ns (payload resp') = dram_ns nd +w 50 else status_of_msg resp' = 1.
Proof.
  intros Hn Hq Hr addr wr. unfold handle_write_request. fold addr. assert (is_u64 addr) as Ha by by apply get_field_u64.
  destruct (ensure_write_ok (me_handler_now env) addr (get_field mem_client_id (payload req)) n nd Hn Ha) as [Hsv Hm]; [apply Hq|].
  set (nd1 := (ensure_coherency_for_write _ _ _ _).2) in *. rewrite Hm. subst wr. destruct (write_buffer _ addr _ _) as [r m] eqn:E.
  pose proof (po_length _ (mo_payload _ Hr)) as Hlen.
  pose proof E as (Hnf & Hk & _ & _)%write_buffer_ok;
    [|apply Hn|done|apply get_field_range|apply get_bytes_length; rewrite (po_length _ (mo_payload _ Hq)); unfold mem_data; lia]. cbn [fst snd].
  assert (served nd (set_memory m nd1)) as Hsv1 by (eapply served_trans; [exact Hsv|]; apply set_memory_served; [by rewrite Hm|apply Hsv]).
  destruct r as [[]| |]; [| |done]; cbn [is_done]; eexists _, _; (split; [reflexivity|]); (split; [apply answers_upd; auto with cxl|]).
  - split; [eapply served_trans; [exact Hsv1|]; eapply inc_served, served_inv; [exact Hn|exact Hsv1]|]. split; [done|].
    unfold status_of_msg. cbn [payload upd_payload set_msg_type]. payload_simpl. split; [done|].
    unfold dram_ns. cbn [set_memory nd_dramlatency]. rewrite (sv_dram _ _ Hsv). apply u64_small, u64_range.
  - split; [done|]. split; [done|]. unfold status_of_msg. cbn [payload upd_payload set_msg_type]. by payload_simpl.
Qed.

(** The read-modify-write that an atomic request asks for. *)
Definition rmw_of (req : dist_message) (m : SharedMemoryManager) : Acc Z * SharedMemoryManager :=
  let p := payload req in
  if msg_type (header req) =? DIST_MSG_ATOMIC_FAA_REQ then atomic_fetch_add_uint64 m (get_field mem_addr p) (get_field mem_value p)
  else atomic_compare_exchange_uint64 m (get_field mem_addr p) (get_field mem_expected p) (get_field mem_value p).

Lemma handle_atomic_ok `{CastUB} env req resp n nd :
  node_inv n nd → is_node (src_node_id (header req)) → length (payload resp) = 256%nat →
  ∃ resp' nd', handle_atomic_request env req resp nd = Some (resp', nd') ∧
    (msg_ok resp → answers resp resp' (if msg_type (header req) =? DIST_MSG_ATOMIC_FAA_REQ then DIST_MSG_ATOMIC_FAA_RESP else DIST_MSG_ATOMIC_CAS_RESP)) ∧
    served nd nd' ∧ nd_local_memory nd' = (rmw_of req (nd_local_memory nd)).2 ∧
    match (rmw_of req (nd_local_memory nd)).1 with
    | Done old => status_of_msg resp' = 0 ∧ get_field mem_value (payload resp') = u64 old
    | _ => status_of_msg resp' = 1
    end.
Proof.
  intros Hn Hsrc Hlen. unfold handle_atomic_request, rmw_of. set (addr := get_field mem_addr (payload req)).
  assert (is_u64 addr) as Ha by by apply get_field_u64.
  destruct (ensure_write_ok (me_handler_now env) addr (src_node_id (header req)) n nd Hn Ha) as [Hsv Hm]; [by apply node_not_max|].
  set (nd1 := (ensure_coherency_for_write _ _ _ _).2) in *. rewrite Hm. set (rm := if _ =? _ then _ else _). destruct rm as [r m] eqn:E.
  assert (r ≠ Fault ∧ kept (nd_local_memory nd) m) as [Hnf Hk].
  { subst rm. assert (∀ f, atomic_rmw (nd_local_memory nd) addr f = (r, m) → r ≠ Fault ∧ kept (nd_local_memory nd) m) as Hrmw.
    { intros f [Hk Hres]%atomic_rmw_ok; [|apply Hn|done]. split; [by intros ->|done]. }
    destruct (_ =? _); by eapply Hrmw. }
  assert (served nd (set_memory m nd1)) as Hsv1 by (eapply served_trans; [exact Hsv|]; apply set_memory_served; [by rewrite Hm|apply Hsv]).
  cbn [fst snd]. destruct r as [old| |]; [| |done]; eexists _, _; (split; [reflexivity|]); (split; [intros Hr; apply answers_upd; auto with cxl|]);
    (split; [done|]); (split; [done|]); unfold status_of_msg; cbn [payload upd_payload set_msg_type]; [split|]; by payload_simpl.
Qed.

Lemma c_string_ends bs i : bs !! i = Some 0 → is_Some (c_string bs).
Proof.
  revert i. induction bs as [|b bs IH]; intros i; [done|]. destruct i as [|i]; simpl; [intros [= ->]; done|].
  intros [s Hs]%IH. destruct (b =? 0); [done|]. rewrite Hs. by eexists.
Qed.

Lemma handle_coherency_ok `{CastUB} env req resp n nd :
  node_inv n nd → msg_ok req → msg_ok resp →
  ∃ resp' nd', handle_coherency_request env req resp nd = Some (resp', nd') ∧ msg_ok resp' ∧ msg_id (header resp') = msg_id (header resp) ∧
    served nd nd' ∧ nd_local_memory nd' = nd_local_memory nd.
Proof.
  intros Hn Hq Hr. unfold handle_coherency_request. pose proof (inc_served coherency_messages n nd Hn) as Hsv.
  assert (∀ ce, engine_inv ce → ce_local_node_id ce = ce_local_node_id (nd_coherency nd) → served nd (set_coherency ce (inc coherency_messages nd))) as Hce by (intros ce Hce Hl; destruct Hsv; by split).
  assert (∀ t v, msg_ok (upd_payload (set_field coherency_cacheline_addr v) (set_msg_type t resp))) as Hmsg
    by (intros t v; apply (answers_upd resp t); auto with cxl).
  destruct (_ =? DIST_MSG_INVALIDATE); [|destruct (_ =? DIST_MSG_DOWNGRADE)]; eexists _, _; (split; [reflexivity|]).
  - split_and!; [apply Hmsg|done|apply Hce; [apply handle_remote_invalidate_inv; [apply Hn|by apply get_field_u64]|by apply engine_step_local, step_invalidate, get_field_u64]|done].
  - split_and!; [apply Hmsg|done|apply Hce; [apply handle_remote_downgrade_inv; [simpl; rewrite (nv_local _ _ Hn); apply node_not_max, Hn|apply Hn|by apply get_field_u64]|by apply engine_step_local, step_downgrade, get_field_u64]|done].
  - by split_and!.
Qed.

Lemma handle_node_ok env req resp n nd :
  node_inv n nd → msg_ok req → msg_ok resp →
  ∃ resp' nd', handle_node_message env req resp nd = Some (resp', nd') ∧ msg_ok resp' ∧ msg_id (header resp') = msg_id (header resp) ∧
    served nd nd' ∧ nd_local_memory nd' = nd_local_memory nd.
Proof.
  intros Hn Hq Hr. unfold handle_node_message.
  assert (∀ t, msg_ok (set_msg_type t resp)) as Hmsg by (intros t; destruct Hr; by split).
  destruct (_ =? DIST_MSG_NODE_REGISTER); [|destruct (_ =? DIST_MSG_NODE_HEARTBEAT)].
  - destruct (c_string_ends (drop node_hostname (payload req)) 215) as [s Hs].
    { rewrite lookup_drop. apply (po_last _ (mo_payload _ Hq)). }
    rewrite Hs. cbn [mbind option_bind]. eexists _, _. split; [reflexivity|]. split_and!; [apply Hmsg|done|by eapply registry_served|done].
  - eexists _, _. split; [reflexivity|]. split_and!; [apply Hmsg|done|by eapply registry_served|done].
  - eexists _, _. split; [reflexivity|]. split_and!; [done|done|by eapply served_refl|done].
Qed.

Lemma handle_fence_ok `{CastUB} env req resp n nd :
  node_inv n nd → msg_ok resp →
  ∃ resp' nd', handle_fence_request env req resp nd = Some (resp', nd') ∧ answers resp resp' DIST_MSG_FENCE_RESP ∧ served nd nd' ∧ same_memory nd nd'.
Proof.
  intros Hn Hr. unfold handle_fence_request. destruct (flush _) as [ok m] eqn:E. apply flush_kept in E as [Hk Hm]; [|apply Hn].
  eexists _, _. split; [reflexivity|]. split_and!; [apply answers_upd; auto with cxl|apply set_memory_served; [done|apply Hn]|]. intros o _. apply Hm.
Qed.

(** The handlers keep what the manager relies on. *)
#[export] Instance node_handlers_ok `{CastUB} n : HandlersOk Node (node_inv n).
Proof.
  intros t f env msg resp nd Hf He Hq Hr Hn. unfold handler, node_handlers in Hf.
  assert (∀ (x : option (dist_message * Node)) (P : dist_message → Node → Prop),
    (∃ resp' nd', x = Some (resp', nd') ∧ P resp' nd') →
    (∀ resp' nd', P resp' nd' → msg_ok resp' ∧ msg_id (header resp') = msg_id (header resp) ∧ served nd nd') →
    ∃ resp' nd', x = Some (resp', nd') ∧ node_inv n nd' ∧ msg_ok resp' ∧ msg_id (header resp') = msg_id (header resp)) as Hgen.
  { intros x P (resp' & nd' & -> & HP) Himp. destruct (Himp _ _ HP) as (? & ? & ?). exists resp', nd'. split_and!; [done|by eapply served_inv|done..]. }
  repeat match type of Hf with context [if ?b then _ else _] => destruct b eqn:?; [injection Hf as <-|] end; [..|done];
    [eapply Hgen; [by eapply home_read_ok|]|eapply Hgen; [by eapply home_write_ok|]
    |eapply Hgen; [eapply handle_atomic_ok; [done|apply Hq|apply (mo_payload _ Hr)]|]
    |eapply Hgen; [by eapply handle_fence_ok|]|eapply Hgen; [by eapply handle_coherency_ok|]|eapply Hgen; [by eapply handle_node_ok|]|].
  1-6: intros resp' nd'; unfold answers; tauto.
  eexists _, nd. split; [reflexivity|]. split; [done|]. split; [|done]. apply (answers_upd resp DIST_MSG_DIR_RESPONSE); auto with cxl.
Qed.

(** ** Clusters *)

Record Cluster := { cl_shm : dist_shm_header; cl_hosts : gmap Z (Manager * Node) }.

Definition view_of (n : Z) (C : Cluster) : option (View Node) := '(m, nd) ← cl_hosts C !! n; Some (mkView (cl_shm C) m nd).

Definition put_view (n : Z) (v : View Node) (C : Cluster) : Cluster :=
  {| cl_shm := v_shm v; cl_hosts := <[n := (v_mgr v, v_node v)]> (cl_hosts C) |}.

(** *** Nodes that start together

    Each node clears the segment when it opens it, so that only the registrations
    that come after the last opening stay.  First all nodes open the segment, one
    after the other, and then they enrol. *)

Fixpoint prepare_all `{CastUB} (cs : list (InitEnv * NodeConfig)) (g : option dist_shm_header)
    : option (list (InitEnv * NodeConfig * (SharedMemoryManager * Manager)) * option dist_shm_header) :=
  match cs with
  | [] => Some ([], g)
  | (env, c) :: rest =>
      match prepare_node env c g with
      | (g1, Some p) => '(l, g2) ← prepare_all rest g1; Some ((env, c, p) :: l, g2)
      | _ => None
      end
  end.

Fixpoint enrol_all `{CastUB} (l : list (InitEnv * NodeConfig * (SharedMemoryManager * Manager))) (C : Cluster) : option Cluster :=
  match l with
  | [] => Some C
  | (env, c, (mem, m)) :: rest =>
      match (enrol_node env c mem m (cl_shm C)).2 with
      | Some v => enrol_all rest (put_view (cf_node_id c) v C)
      | None => None
      end
  end.

(** *** Calls *)

(** The other node and then the caller poll their messages. *)
Definition exchange `{CastUB} (env env' : nat → MsgEnv) (a b : Z) (C : Cluster) : option Cluster :=
  vb ← view_of b C; '(_, vb1) ← poll_messages env 100 vb;
  let C1 := put_view b vb1 C in
  va ← view_of a C1; '(_, va1) ← poll_messages env' 100 va; Some (put_view a va1 C1).

(** A client request that no other step disturbs. *)
Definition call `{CastUB} (env : OpEnv) (menv menv' : nat → MsgEnv) (a : Z) (req : DistServerRequest) (C : Cluster)
    : option (DistServerResponse * Cluster) :=
  va ← view_of a C; '(ans, va1) ← client_request env req va;
  let C1 := put_view a va1 C in
  match ans with
  | Answered resp => Some (resp, C1)
  | Forwarded b msg =>
      C2 ← exchange menv menv' a b C1; va2 ← view_of a C2;
      '(resp, va3) ← client_response req b msg va2; Some (resp, put_view a va3 C2)
  end.

(** *** Specification: one memory

    What the operation of a request does to a memory, and its response but for
    the latency: the status, the old value and the data. *)

Definition pad (bs : list Z) : list Z := bs ++ drop (length bs) (replicate 64 0).

Definition direct (req : DistServerRequest) (m : SharedMemoryManager) : Z * Z * list Z * SharedMemoryManager :=
  if dq_op_type req =? DIST_OP_READ then
    let '(r, m1) := read_cacheline m (dq_addr req) (clamped req) in
    (match r with Done bs => (0, 0, pad bs) | _ => (1, 0, pad []) end, m1)
  else if dq_op_type req =? DIST_OP_WRITE then
    let '(r, m1) := write_cacheline m (dq_addr req) (client_data req) in (if is_done r then 0 else 1, 0, pad [], m1)
  else if dq_op_type req =? DIST_OP_ATOMIC_FAA then
    let '(r, m1) := atomic_fetch_add_uint64 m (dq_addr req) (dq_value req) in
    (match r with Done old => (0, u64 old, pad []) | _ => (1, 0, pad []) end, m1)
  else
    let '(r, m1) := atomic_compare_exchange_uint64 m (dq_addr req) (dq_expected req) (dq_value req) in
    (match r with Done old => (if u64 old =? dq_expected req then 0 else 1, u64 old, pad []) | _ => (1, 0, pad []) end, m1).

Definition response_of (resp : DistServerResponse) : Z * Z * list Z := (dp_status resp, dp_old_value resp, dp_data resp).

Definition is_access (req : DistServerRequest) : bool := (dq_op_type req =? DIST_OP_READ) || (dq_op_type req =? DIST_OP_WRITE).
Definition is_atomic (req : DistServerRequest) : bool :=
  (dq_op_type req =? DIST_OP_ATOMIC_FAA) || (dq_op_type req =? DIST_OP_ATOMIC_CAS).

(** The node whose memory a request is for. *)
Definition home (req : DistServerRequest) (nd : Node) : Z :=
  if is_access req && served_here nd (dq_addr req) then nd_node_id nd else get_node_for_address nd (dq_addr req).

Definition wf_request (req : DistServerRequest) : Prop :=
  is_u64 (dq_addr req) ∧ is_u64 (dq_size req) ∧ is_u64 (dq_value req) ∧ is_u64 (dq_expected req) ∧ length (dq_data req) = 64%nat.

Definition op_env_ok (env : OpEnv) : Prop := length (payload (oe_stack env)) = 256%nat.

(** *** Invariants *)

Record host_ok (n : Z) (m : Manager) (nd : Node) : Prop := {
  ho_manages : manages m n;
  ho_next : is_u32 (mm_next_msg_id m);
  ho_node : node_inv n nd
}.

Record cluster_inv (C : Cluster) : Prop := {
  cv_seg : seg_inv (cl_shm C);
  cv_msgs : seg_msgs (cl_shm C);
  cv_hosts : ∀ n m nd, cl_hosts C !! n = Some (m, nd) → host_ok n m nd
}.

(** All nodes are registered and serve, no message is on the way and no operation waits. *)
Record quiet (C : Cluster) : Prop := {
  qt_inv : cluster_inv C;
  qt_chan : ∀ s d, is_node s → is_node d → chan (cl_shm C) s d = [];
  qt_active : ∀ n m nd, cl_hosts C !! n = Some (m, nd) →
    ns_state (status_of (cl_shm C) n) = NODE_STATE_READY ∨ ns_state (status_of (cl_shm C) n) = NODE_STATE_BUSY;
  qt_hosts : ∀ n m nd, cl_hosts C !! n = Some (m, nd) → mm_pending_requests m = ∅ ∧ list_to_set handled_types ⊆ mm_handlers m
}.

(** ** Lemmas: operations of a node *)

Lemma local_read_ok `{CastUB} env addr size n nd :
  node_inv n nd → is_u64 addr → is_u64 size →
  let rd := read_cacheline (nd_local_memory nd) addr size in
  ∃ nd', local_read env addr size nd = Some (match rd.1 with Done bs => Done (bs, dram_ns nd) | _ => Refused end, nd') ∧
    served nd nd' ∧ nd_local_memory nd' = rd.2.
Proof.
  intros Hn Ha Hs rd. unfold local_read.
  destruct (ensure_read_ok (oe_coherency_now env) addr (nd_node_id nd) n nd Hn Ha) as [Hsv Hm];
    [rewrite (nv_id _ _ Hn); apply node_not_max, Hn|].
  set (nd1 := (ensure_coherency_for_read _ _ _ _).2) in *. rewrite Hm. subst rd. destruct (read_cacheline _ addr size) as [r m] eqn:E.
  pose proof E as (Hnf & Hk & _ & _)%read_cacheline_ok; [|apply Hn|done|done]. cbn [fst snd].
  assert (served nd (set_memory m nd1)) as Hsv1 by (eapply served_trans; [exact Hsv|]; apply set_memory_served; [by rewrite Hm|apply Hsv]).
  destruct r as [bs| |]; [| |done].
  - exists (inc local_reads (set_memory m nd1)). split_and!; [|eapply served_trans; [exact Hsv1|]; eapply inc_served, served_inv; [exact Hn|exact Hsv1]|done].
    unfold dram_ns. cbn [nd_dramlatency set_memory]. by rewrite (sv_dram _ _ Hsv).
  - by exists (set_memory m nd1).
Qed.

Lemma local_write_ok `{CastUB} env addr data n nd :
  node_inv n nd → is_u64 addr → (length data ≤ 64)%nat →
  let wr := write_cacheline (nd_local_memory nd) addr data in
  ∃ nd', local_write env addr data nd = Some (match wr.1 with Done _ => Done (dram_ns nd +w 50) | _ => Refused end, nd') ∧
    served nd nd' ∧ nd_local_memory nd' = wr.2.
Proof.
  intros Hn Ha Hs wr. unfold local_write.
  destruct (ensure_write_ok (oe_coherency_now env) addr (nd_node_id nd) n nd Hn Ha) as [Hsv Hm];
    [rewrite (nv_id _ _ Hn); apply node_not_max, Hn|].
  set (nd1 := (ensure_coherency_for_write _ _ _ _).2) in *. rewrite Hm. subst wr. destruct (write_cacheline _ addr data) as [r m] eqn:E.
  pose proof E as (Hnf & Hk & _ & _)%write_cacheline_ok; [|apply Hn|done|unfold is_u64; lia]. cbn [fst snd].
  assert (served nd (set_memory m nd1)) as Hsv1 by (eapply served_trans; [exact Hsv|]; apply set_memory_served; [by rewrite Hm|apply Hsv]).
  destruct r as [[]| |]; [| |done].
  - exists (inc local_writes (set_memory m nd1)). split_and!; [|eapply served_trans; [exact Hsv1|]; eapply inc_served, served_inv; [exact Hn|exact Hsv1]|done].
    unfold dram_ns. cbn [nd_dramlatency set_memory]. by rewrite (sv_dram _ _ Hsv).
  - by exists (set_memory m nd1).
Qed.

Lemma logp_served `{CastUB} src dst ts n nd :
  node_inv n nd → served nd (calculate_logp_latency src dst ts nd).2 ∧ nd_local_memory (calculate_logp_latency src dst ts nd).2 = nd_local_memory nd.
Proof.
  intros Hn. unfold calculate_logp_latency. destruct (src =? dst); [split; [by eapply served_refl|done]|]. destruct (message_latency _ _ _) as [l lm].
  split; [|done]. destruct Hn as [_ _ Hm [H1 H2 H3] _ _ _]. split; [done|done|done|done|by apply kept_refl|by split|done].
Qed.

(** ** Lemmas: a call to another node *)

Lemma quiet_active C n m nd m' a : quiet C → cl_hosts C !! n = Some (m, nd) → manages m' a → is_node_active m' (cl_shm C) n = true.
Proof.
  intros Hq Hh (_ & _ & Hm). pose proof (qt_active C Hq n m nd Hh) as Hact. pose proof (cv_hosts C (qt_inv C Hq) n m nd Hh) as [(_ & Hn & _) _ _].
  unfold is_node_active. rewrite Hm. cbn [negb orb]. destruct (DIST_MAX_NODES <=? n) eqn:E; btests; [unfold is_node in Hn; lia|].
  destruct Hact as [-> | ->]; done.
Qed.

Lemma generate_manages m n : manages m n → manages (generate_msg_id m).2 n.
Proof. done. Qed.

Lemma set_pending_same m : set_pending (mm_pending_requests m) m = m.
Proof. by destruct m. Qed.

(** The cluster after [a] and the nodes it called have changed. *)
Record answered (C C' : Cluster) (a b : Z) (ma : Manager) (nda : Node) (ndb : Node) : Prop := {
  an_quiet : quiet C';
  an_a : cl_hosts C' !! a = Some (ma, nda);
  an_b : ∃ mb, cl_hosts C' !! b = Some (mb, ndb);
  an_other : ∀ x, x ≠ a → x ≠ b → cl_hosts C' !! x = cl_hosts C !! x
}.

Lemma quiet_put C C' a b ma nda mb ndb ma0 nda0 ndb0 :
  quiet C → cl_hosts C !! a = Some (ma0, nda0) → cl_hosts C !! b = Some (mb, ndb0) → a ≠ b →
  same_net (cl_shm C) (cl_shm C') → cl_hosts C' !! a = Some (ma, nda) → cl_hosts C' !! b = Some (mb, ndb) →
  (∀ x, x ≠ a → x ≠ b → cl_hosts C' !! x = cl_hosts C !! x) →
  host_ok a ma nda → node_inv b ndb → mm_pending_requests ma = ∅ → mm_handlers ma = mm_handlers ma0 → quiet C'.
Proof.
  intros Hq Ha Hb Hab [Hi Hns Hc] Ha' Hb' Hx Hok Hnb Hp Hh. pose proof (qt_inv C Hq) as Hcv.
  assert (∀ n m nd, cl_hosts C' !! n = Some (m, nd) → ∃ m0 nd0, cl_hosts C !! n = Some (m0, nd0) ∧ host_ok n m nd ∧
    mm_pending_requests m = ∅ ∧ mm_handlers m = mm_handlers m0) as Hhosts.
  { intros n m nd Hn. destruct (decide (n = a)) as [->|Hna]; [rewrite Ha' in Hn; injection Hn as <- <-; by eexists _, _|]. destruct (decide (n = b)) as [->|Hnb'].
    - rewrite Hb' in Hn. injection Hn as <- <-. exists mb, ndb0. split_and!; [done| |by eapply (qt_hosts C Hq)|done]. destruct (cv_hosts C Hcv b mb ndb0 Hb) as [? ? _]. by split.
    - rewrite Hx in Hn by done. exists m, nd. split_and!; [done|by eapply cv_hosts|by eapply (qt_hosts C Hq)|done]. }
  split.
  - split; [done| |intros n m nd Hn; by destruct (Hhosts n m nd Hn) as (? & ? & _ & ? & _)]. intros s d Hs Hd. rewrite Hc, (qt_chan C Hq) by done. done.
  - intros s d Hs Hd. by rewrite Hc, (qt_chan C Hq).
  - intros n m nd Hn. destruct (Hhosts n m nd Hn) as (m0 & nd0 & H0 & _). unfold status_of. rewrite Hns. by eapply (qt_active C Hq).
  - intros n m nd Hn. destruct (Hhosts n m nd Hn) as (m0 & nd0 & H0 & _ & ? & ->). split; [done|]. by eapply (qt_hosts C Hq).
Qed.

Lemma next_id_ok a m nd : host_ok a m nd → ∀ nd', node_inv a nd' → host_ok a (generate_msg_id m).2 nd'.
Proof. intros [Hm Hn _] nd' Hnd. split; [done|apply u32_range|done]. Qed.

(** The request of an operation at [a] is answered by [b]. *)
Lemma call_forwarded `{CastUB} {A} env menv menv' C a b ma nda nda1 nda2 mb ndb ndb' msg f resp req (fr : Acc A → DistServerResponse) rep :
  quiet C → cl_hosts C !! a = Some (ma, nda) → cl_hosts C !! b = Some (mb, ndb) → a ≠ b →
  msg_id (header msg) = mm_next_msg_id ma → src_node_id (header msg) = a →
  registered mb (msg_type (header msg)) = Some f →
  f (menv 100%nat) msg (response_to (menv 100%nat) mb msg) ndb = Some (resp, ndb') → msg_type (header resp) ≠ DIST_MSG_NONE →
  msg_id (header resp) = msg_id (header msg) → served ndb ndb' → node_inv a nda2 →
  client_request env req (mkView (cl_shm C) ma nda) =
    ('(c, v1) ← send_request env b msg (mkView (cl_shm C) (generate_msg_id ma).2 nda1); Some (answer fr c, v1)) →
  (∀ g m2, request_end m2 (msg_id (header msg)) = (Some resp, (generate_msg_id ma).2) →
    client_response req b msg (mkView g m2 nda1) = Some (rep, mkView g (generate_msg_id ma).2 nda2)) →
  ∃ C', call env menv menv' a req C = Some (rep, C') ∧ answered C C' a b (generate_msg_id ma).2 nda2 ndb'.
Proof.
  intros Hq Ha Hb Hab Hid Hsrc Hreg Hf Hty Hrid Hsv Hnd2 Heq Hresp. set (ma' := (generate_msg_id ma).2) in *. pose proof (qt_inv C Hq) as Hcv.
  pose proof (cv_hosts C Hcv a ma nda Ha) as Hoka. pose proof (cv_hosts C Hcv b mb ndb Hb) as [Hmb _ Hnb].
  assert (mm_pending_requests ma = ∅) as Hpa by by eapply (qt_hosts C Hq).
  assert (mm_pending_requests mb = ∅) as Hpb by by eapply (qt_hosts C Hq).
  assert (manages ma' a) as Hma by apply Hoka.
  destruct (request_served menv menv' 99 99 a b ma' mb nda1 ndb ndb' (cl_shm C) msg (oe_stack env) f resp)
    as (ma1 & g1 & g2 & ma2 & g3 & Hbeg & Hpoll & Hpoll' & Hend & Hsame); try done;
    [apply Hcv|intros s Hs _; by apply (qt_chan C Hq); [|apply Hma]|intros s Hs _; by apply (qt_chan C Hq); [|apply Hmb]
    |by eapply quiet_active|by eapply quiet_active|by rewrite Hpb|].
  assert (mm_pending_requests ma' = ∅) as Hpa' by done.
  rewrite Hpa', delete_empty, <- Hpa', set_pending_same in Hend.
  unfold call, view_of. rewrite Ha. cbn [mbind option_bind]. rewrite Heq. unfold send_request. cbn [v_mgr v_shm v_node]. rewrite Hbeg.
  cbn [mbind option_bind answer]. unfold exchange, view_of, put_view. cbn [cl_hosts cl_shm v_mgr v_shm v_node].
  rewrite lookup_insert_ne, Hb by done. cbn [mbind option_bind]. rewrite Hpoll. cbn [mbind option_bind v_mgr v_shm v_node].
  rewrite lookup_insert_ne, lookup_insert_eq by done. cbn [mbind option_bind]. rewrite Hpoll'. cbn [mbind option_bind v_mgr v_shm v_node cl_hosts cl_shm].
  rewrite lookup_insert_eq. cbn [mbind option_bind]. rewrite (Hresp g3 ma2 Hend). cbn [mbind option_bind v_mgr v_shm v_node]. eexists. split; [reflexivity|].
  set (C' := Build_Cluster _ _). assert (cl_hosts C' !! a = Some (ma', nda2)) as Ha' by (subst C'; simpl; by rewrite lookup_insert_eq).
  assert (cl_hosts C' !! b = Some (mb, ndb')) as Hb' by (subst C'; simpl; by rewrite !(lookup_insert_ne _ a b), lookup_insert_eq).
  assert (∀ x, x ≠ a → x ≠ b → cl_hosts C' !! x = cl_hosts C !! x) as Hx by (intros x Hxa Hxb; subst C'; simpl; by rewrite !lookup_insert_ne).
  split; [|done|by exists mb|done].
  eapply (quiet_put C C' a b ma' nda2 mb ndb' ma nda ndb); try done; [by eapply next_id_ok|by eapply served_inv].
Qed.

(** What a request did to the cluster: [m] is the memory of node [h] afterwards,
    no other memory has changed, and no node routes addresses differently. *)
Record applied (C C' : Cluster) (h : Z) (m : SharedMemoryManager) : Prop := {
  ap_quiet : quiet C';
  ap_home : ∃ mh nd, cl_hosts C' !! h = Some (mh, nd) ∧ nd_local_memory nd = m;
  ap_hosts : ∀ x mx nd, cl_hosts C !! x = Some (mx, nd) → ∃ mx' nd', cl_hosts C' !! x = Some (mx', nd') ∧
    nd_node_id nd' = nd_node_id nd ∧ nd_hdm_decoder nd' = nd_hdm_decoder nd ∧ (x ≠ h → nd_local_memory nd' = nd_local_memory nd)
}.

Lemma answered_applied C C' a b ma ma' nda nda' mb ndb ndb' :
  cl_hosts C !! a = Some (ma, nda) → cl_hosts C !! b = Some (mb, ndb) → a ≠ b → answered C C' a b ma' nda' ndb' →
  served nda nda' → nd_local_memory nda' = nd_local_memory nda → served ndb ndb' → applied C C' b (nd_local_memory ndb').
Proof.
  intros Ha Hb Hab [Hq Ha' [mb' Hb'] Hx] [Hia Hda _ _ _ _ _] Hma [Hib Hdb _ _ _ _ _]. split; [done|by eexists _, _|].
  intros x mx nd Hl. destruct (decide (x = a)) as [->|Hxa]; [simplify_eq; by eexists _, _|].
  destruct (decide (x = b)) as [->|Hxb]; [simplify_eq; by eexists _, _|]. exists mx, nd. by rewrite Hx.
Qed.

(** A step of one node without messages. *)
Lemma local_applied C a ma ma' nda nda' :
  quiet C → cl_hosts C !! a = Some (ma, nda) → served nda nda' → host_ok a ma' nda' →
  mm_pending_requests ma' = mm_pending_requests ma → mm_handlers ma' = mm_handlers ma →
  applied C (put_view a (mkView (cl_shm C) ma' nda') C) a (nd_local_memory nda').
Proof.
  intros Hq Ha Hsv Hok Hp Hh. pose proof (qt_inv C Hq) as Hcv.
  assert (∀ n m nd, cl_hosts (put_view a (mkView (cl_shm C) ma' nda') C) !! n = Some (m, nd) →
    host_ok n m nd ∧ ∃ m0 nd0, cl_hosts C !! n = Some (m0, nd0) ∧ mm_pending_requests m = mm_pending_requests m0 ∧ mm_handlers m = mm_handlers m0) as Hhosts.
  { intros n m nd. unfold put_view. cbn [cl_hosts v_mgr v_node]. intros [[<- [= <- <-]]|[Hne Hn]]%lookup_insert_Some; [split; [done|by eexists _, _]|].
    split; [by eapply cv_hosts|by exists m, nd]. }
  split.
  - split; [split; [apply Hcv|apply Hcv|intros n m nd Hn; by apply Hhosts]|apply Hq| |].
    + intros n m nd Hn. destruct (Hhosts n m nd Hn) as (_ & m0 & nd0 & H0 & _). by eapply (qt_active C Hq).
    + intros n m nd Hn. destruct (Hhosts n m nd Hn) as (_ & m0 & nd0 & H0 & -> & ->). by eapply (qt_hosts C Hq).
  - exists ma', nda'. split; [|done]. unfold put_view. simpl. by rewrite lookup_insert_eq.
  - intros x mx nd Hl. unfold put_view. cbn [cl_hosts v_mgr v_node]. destruct (decide (x = a)) as [->|Hne].
    + rewrite lookup_insert_eq. simplify_eq. eexists _, _. split; [done|]. by destruct Hsv.
    + rewrite lookup_insert_ne by done. by exists mx, nd.
Qed.

Lemma registered_handled `{CastUB} C n m nd t :
  quiet C → cl_hosts C !! n = Some (m, nd) → t ∈ handled_types → registered m t = handler (S := Node) t.
Proof.
  intros Hq Hh Ht. destruct (qt_hosts C Hq n m nd Hh) as [_ Hs]. unfold registered. rewrite bool_decide_true; [done|]. apply Hs. by apply elem_of_list_to_set.
Qed.

Lemma read_payload_fields addr size n :
  is_u64 addr → is_u64 size → is_node n →
  let p := read_payload addr size n in
  payload_ok p ∧ get_field mem_addr p = addr ∧ get_field mem_size p = size ∧ get_field mem_client_id p = n.
Proof.
  intros Ha Hs Hn p. assert (is_u32 n) as Hn32 by (unfold is_node, DIST_MAX_NODES, is_u32 in *; lia).
  split_and!.
  - apply payload_set_client; [rewrite u32_small by done; by apply node_not_max|auto with cxl].
  - unfold p, read_payload. payload_simpl. by apply u64_small.
  - unfold p, read_payload. payload_simpl. by apply u64_small.
  - unfold p, read_payload. payload_simpl. by apply u32_small.
Qed.

Lemma clamped_range req : wf_request req → is_u64 (clamped req) ∧ clamped req <= 64.
Proof. intros (_ & Hs & _). unfold clamped, is_u64 in *. lia. Qed.

Lemma client_data_length req : wf_request req → Z.of_nat (length (client_data req)) = clamped req.
Proof. intros Hw. pose proof (clamped_range req Hw) as [? ?]. destruct Hw as (_ & Hs & _ & _ & Hd). unfold client_data, is_u64 in *. rewrite length_take. lia. Qed.

(** ** Lemmas: requests, by operation *)

Section requests.
Context `{CastUB} (env : OpEnv) (menv menv' : nat → MsgEnv) (C : Cluster) (a : Z) (ma : Manager) (nda : Node) (req : DistServerRequest).
Hypothesis Hq : quiet C.
Hypothesis Ha : cl_hosts C !! a = Some (ma, nda).
Hypothesis Hw : wf_request req.
Hypothesis Hmenv : ∀ i, env_ok (menv i).

(** The request is carried out on the memory of node [h]. *)
Definition transparent (h : Z) (ndh : Node) : Prop := ∃ resp C', call env menv menv' a req C = Some (resp, C') ∧
  response_of resp = (direct req (nd_local_memory ndh)).1 ∧ applied C C' h (direct req (nd_local_memory ndh)).2.

Lemma host_a : host_ok a ma nda.
Proof using Hq Ha. eapply cv_hosts; [apply Hq|done]. Qed.

Lemma id_a : nd_node_id nda = a.
Proof using Hq Ha. apply host_a. Qed.

Lemma counted_a c c' : node_inv a (inc c (inc c' nda)) ∧ served nda (inc c (inc c' nda)).
Proof using Hq Ha.
  pose proof host_a as [_ _ Hn]. pose proof (inc_served c' a nda Hn) as H1.
  assert (served nda (inc c (inc c' nda))) as H2 by (eapply served_trans; [exact H1|]; by eapply inc_served, served_inv). split; [by eapply served_inv|done].
Qed.

Lemma read_here : dq_op_type req = DIST_OP_READ → served_here nda (dq_addr req) = true → transparent a nda.
Proof using Hq Ha Hw.
  intros Hop Hh. pose proof host_a as [Hm Hnx Hn]. pose proof (clamped_range req Hw) as [Hsz _]. pose proof Hw as (Had & _).
  destruct (local_read_ok env (dq_addr req) (clamped req) a nda Hn Had Hsz) as (nd' & He & Hsv & Hmem).
  unfold transparent, call, view_of. rewrite Ha. cbn [mbind option_bind]. unfold client_request, direct. rewrite Hop. cbn [Z.eqb].
  unfold read. cbn [v_node v_mgr v_shm]. change (0 =? DIST_OP_READ) with true. cbn iota. rewrite Hh, He. cbn [mbind option_bind answer].
  eexists _, _. split; [reflexivity|]. destruct (read_cacheline _ _ _) as [r m]. cbn [fst snd] in Hmem |- *. subst m. split; [by destruct r|].
  apply (local_applied C a ma ma nda nd'); try done. split; [done|done|by eapply served_inv].
Qed.

Lemma write_here : dq_op_type req = DIST_OP_WRITE → served_here nda (dq_addr req) = true → transparent a nda.
Proof using Hq Ha Hw.
  intros Hop Hh. pose proof host_a as [Hm Hnx Hn]. pose proof (clamped_range req Hw) as [_ Hsz]. pose proof Hw as (Had & _).
  pose proof (client_data_length req Hw) as Hlen.
  destruct (local_write_ok env (dq_addr req) (client_data req) a nda Hn Had) as (nd' & He & Hsv & Hmem); [lia|].
  unfold transparent, call, view_of. rewrite Ha. cbn [mbind option_bind]. unfold client_request, direct. rewrite Hop.
  change (DIST_OP_WRITE =? DIST_OP_READ) with false. change (DIST_OP_WRITE =? DIST_OP_WRITE) with true. cbn iota.
  unfold write. cbn [v_node v_mgr v_shm]. rewrite Hh, He. cbn [mbind option_bind answer].
  eexists _, _. split; [reflexivity|]. destruct (write_cacheline _ _ _) as [r m]. cbn [fst snd] in Hmem |- *. subst m. split; [by destruct r|].
  apply (local_applied C a ma ma nda nd'); try done. split; [done|done|by eapply served_inv].
Qed.

(** The message of an atomic, and its reply. *)
Definition atomic_type : Z := if dq_op_type req =? DIST_OP_ATOMIC_FAA then DIST_MSG_ATOMIC_FAA_REQ else DIST_MSG_ATOMIC_CAS_REQ.

Definition atomic_payload : list Z :=
  if dq_op_type req =? DIST_OP_ATOMIC_FAA then set_field mem_value (dq_value req) (set_field mem_addr (dq_addr req) zero_payload)
  else set_field mem_value (dq_value req) (set_field mem_expected (dq_expected req) (set_field mem_addr (dq_addr req) zero_payload)).

Definition atomic_reply : Acc Z → DistServerResponse :=
  if dq_op_type req =? DIST_OP_ATOMIC_FAA then faa_reply else cas_reply (dq_expected req).

Definition atomic_result (r : Acc Z) : Acc Z := match r with Done old => Done (u64 old) | _ => Refused end.

Lemma is_atomic_cases : is_atomic req = true → dq_op_type req = DIST_OP_ATOMIC_FAA ∨ dq_op_type req = DIST_OP_ATOMIC_CAS.
Proof using. unfold is_atomic. intros [?%Z.eqb_eq|?%Z.eqb_eq]%orb_prop; auto. Qed.

Lemma atomic_client v : is_atomic req = true →
  client_request env req v = ('(c, v1) ← atomic_begin env atomic_type (dq_addr req) atomic_payload v; Some (answer atomic_reply c, v1)).
Proof using. intros [Hop|Hop]%is_atomic_cases; unfold client_request, atomic_type, atomic_payload, atomic_reply; by rewrite Hop. Qed.

Lemma atomic_response b msg v : is_atomic req = true →
  client_response req b msg v = let '(r, v1) := atomic_end msg v in Some (atomic_reply r, v1).
Proof using. intros [Hop|Hop]%is_atomic_cases; unfold client_response, atomic_reply; by rewrite Hop. Qed.

(** The message asks for the operation of the request. *)
Lemma atomic_direct id src dst ts m : is_atomic req = true →
  let rm := rmw_of (message atomic_type id src dst ts atomic_payload) m in
  direct req m = (response_of (atomic_reply (atomic_result rm.1)), rm.2) ∧ payload_ok atomic_payload.
Proof using Hw.
  destruct Hw as (Had & _ & Hv & Hx & _). intros [Hop|Hop]%is_atomic_cases; unfold rmw_of, atomic_type, atomic_payload, atomic_reply, direct; rewrite Hop;
    (split; [|by auto 10 with cxl]); cbn [header payload message msg_type];
    change (DIST_OP_ATOMIC_FAA =? DIST_OP_READ) with false; change (DIST_OP_ATOMIC_FAA =? DIST_OP_WRITE) with false;
    change (DIST_OP_ATOMIC_CAS =? DIST_OP_READ) with false; change (DIST_OP_ATOMIC_CAS =? DIST_OP_WRITE) with false;
    change (DIST_OP_ATOMIC_CAS =? DIST_OP_ATOMIC_FAA) with false; change (DIST_OP_ATOMIC_FAA =? DIST_OP_ATOMIC_FAA) with true; cbn iota.
  - change (DIST_MSG_ATOMIC_FAA_REQ =? DIST_MSG_ATOMIC_FAA_REQ) with true. cbn iota.
    replace (get_field mem_addr _) with (dq_addr req) by (payload_simpl; symmetry; by apply u64_small).
    replace (get_field mem_value _) with (dq_value req) by (payload_simpl; symmetry; by apply u64_small).
    destruct (atomic_fetch_add_uint64 _ _ _) as [r m1]. by destruct r.
  - change (DIST_MSG_ATOMIC_CAS_REQ =? DIST_MSG_ATOMIC_FAA_REQ) with false. cbn iota.
    replace (get_field mem_addr _) with (dq_addr req) by (payload_simpl; symmetry; by apply u64_small).
    replace (get_field mem_value _) with (dq_value req) by (payload_simpl; symmetry; by apply u64_small).
    replace (get_field mem_expected _) with (dq_expected req) by (payload_simpl; symmetry; by apply u64_small).
    destruct (atomic_compare_exchange_uint64 _ _ _ _) as [r m1]. by destruct r.
Qed.

Lemma atomic_here : is_atomic req = true → op_env_ok env → get_node_for_address nda (dq_addr req) = a → transparent a nda.
Proof using Hq Ha Hw.
  intros Hat Henv Hh. pose proof host_a as [Hm Hnx Hn]. unfold transparent, call, view_of. rewrite Ha. cbn [mbind option_bind].
  rewrite atomic_client by done. unfold atomic_begin. cbn [v_node v_mgr v_shm]. rewrite Hh, id_a. unfold new_request. cbn [generate_msg_id]. rewrite id_a, Z.eqb_refl.
  set (msg := message _ _ _ _ _ _). set (env' := Build_MsgEnv _ _ _).
  destruct (atomic_direct (mm_next_msg_id ma) a a (u64 (oe_now env)) (nd_local_memory nda) Hat) as [Hd _]. fold msg in Hd. rewrite Hd.
  destruct (handle_atomic_ok env' msg (oe_stack env) a nda Hn) as (resp & nd' & -> & _ & Hsv & Hmem & Hres); [apply Hn|done|]. cbn [mbind option_bind answer].
  eexists _, _. split; [reflexivity|]. cbn [fst snd]. rewrite <- Hmem. unfold status_of_msg in Hres. split.
  - destruct ((rmw_of msg (nd_local_memory nda)).1); [destruct Hres as [-> ->]|rewrite Hres|rewrite Hres]; done.
  - apply (local_applied C a ma (generate_msg_id ma).2 nda nd'); try done. by eapply next_id_ok, served_inv; [apply host_a|..].
Qed.

Section remote.
Context (b : Z) (mb : Manager) (ndb : Node).
Hypothesis Hb : cl_hosts C !! b = Some (mb, ndb).
Hypothesis Hhome : get_node_for_address nda (dq_addr req) = b.
Hypothesis Hab : a ≠ b.

Lemma node_b : node_inv b ndb.
Proof using Hq Hb. eapply ho_node, cv_hosts; [apply Hq|done]. Qed.

(** The header and the payload of a request make a message. *)
Lemma request_msg_ok type ts p : payload_ok p → msg_ok (message type (mm_next_msg_id ma) a b ts p).
Proof using Hq Ha. intros Hp. pose proof host_a as [(_ & Hna & _) Hn _]. by split. Qed.

Lemma response_msg_ok msg : msg_ok msg → msg_ok (response_to (menv 100%nat) mb msg).
Proof using Hq Hb. apply response_to_ok. destruct (cv_hosts C (qt_inv C Hq) b mb ndb Hb) as [(-> & Hn & _) _ _]. done. Qed.

(** The exchange of a request of type [t] for its response. *)
Lemma remote_applied {A} t ts p f resp ndb' nda1 nda2 (fr : Acc A → DistServerResponse) rep :
  let msg := message t (mm_next_msg_id ma) a b ts p in
  t ∈ handled_types → handler t = Some f → f (menv 100%nat) msg (response_to (menv 100%nat) mb msg) ndb = Some (resp, ndb') →
  msg_id (header resp) = mm_next_msg_id ma → msg_type (header resp) ≠ DIST_MSG_NONE → served ndb ndb' →
  served nda nda2 → nd_local_memory nda2 = nd_local_memory nda →
  client_request env req (mkView (cl_shm C) ma nda) =
    ('(c, v1) ← send_request env b msg (mkView (cl_shm C) (generate_msg_id ma).2 nda1); Some (answer fr c, v1)) →
  (∀ g m2, request_end m2 (mm_next_msg_id ma) = (Some resp, (generate_msg_id ma).2) →
    client_response req b msg (mkView g m2 nda1) = Some (rep, mkView g (generate_msg_id ma).2 nda2)) →
  ∃ C', call env menv menv' a req C = Some (rep, C') ∧ applied C C' b (nd_local_memory ndb').
Proof using Hq Ha Hb Hab.
  intros msg Ht Hh Hf Hid Hty Hsv Hs2 Hm2 Heq Hr.
  destruct (call_forwarded env menv menv' C a b ma nda nda1 nda2 mb ndb ndb' msg f resp req fr rep) as (C' & Hc & Han); try done.
  - by rewrite (registered_handled C b mb ndb).
  - eapply served_inv; [apply host_a|done].
  - exists C'. split; [done|]. by eapply (answered_applied C C' a b ma (generate_msg_id ma).2 nda nda2 mb ndb ndb').
Qed.

Lemma latency_served msg resp nda1 :
  node_inv a nda1 → served nda nda1 → nd_local_memory nda1 = nd_local_memory nda →
  served nda (network_latency msg b resp nda1).2 ∧ nd_local_memory (network_latency msg b resp nda1).2 = nd_local_memory nda.
Proof using.
  intros Hn Hsv Hm. destruct (logp_served (nd_node_id nda1) b (timestamp (header msg)) a nda1 Hn) as [H1 H2]. unfold network_latency.
  destruct (calculate_logp_latency _ _ _ _) as [l nd2]. cbn [snd] in *. split; [by eapply served_trans|congruence].
Qed.

Lemma read_remote : dq_op_type req = DIST_OP_READ → served_here nda (dq_addr req) = false → transparent b ndb.
Proof using Hq Ha Hw Hmenv Hb Hhome Hab.
  intros Hop Hh. pose proof Hw as (Had & _). pose proof (clamped_range req Hw) as [Hsz H64].
  destruct (counted_a remote_reads forwarded_requests) as [Hn1 Hsv1]. set (nda1 := inc _ _) in *.
  destruct (read_payload_fields (dq_addr req) (clamped req) a Had Hsz) as (Hp & Hpa & Hps & _); [apply host_a|].
  set (p := read_payload (dq_addr req) (clamped req) a) in *. set (msg := message DIST_MSG_READ_REQ (mm_next_msg_id ma) a b (u64 (oe_now env)) p).
  pose proof (request_msg_ok DIST_MSG_READ_REQ (u64 (oe_now env)) p Hp : msg_ok msg) as Hmsg.
  destruct (home_read_ok (menv 100%nat) msg _ b ndb node_b (Hmenv _) Hmsg (response_msg_ok msg Hmsg))
    as (resp & ndb' & Hf & (_ & Hrid & Hty) & Hsv & Hmem & _ & Hres). cbn [payload msg message] in Hmem, Hres. rewrite Hpa, Hps in Hmem, Hres.
  assert (client_request env req (mkView (cl_shm C) ma nda) =
    ('(c, v1) ← send_request env b msg (mkView (cl_shm C) (generate_msg_id ma).2 nda1); Some (answer read_reply c, v1))) as Heq.
  { unfold client_request. rewrite Hop. change (DIST_OP_READ =? DIST_OP_READ) with true. cbn iota. unfold read. cbn [v_node v_mgr v_shm]. rewrite Hh, Hhome.
    unfold forward_read. cbn [v_node v_mgr v_shm]. fold nda1. unfold new_request. cbn [generate_msg_id]. by rewrite (nv_id _ _ Hn1). }
  pose proof (λ nda2 rep, remote_applied DIST_MSG_READ_REQ (u64 (oe_now env)) p handle_read_request resp ndb' nda1 nda2 read_reply rep) as Hcall.
  cbn zeta in Hcall. fold msg in Hcall. unfold transparent, direct. rewrite Hop. change (DIST_OP_READ =? DIST_OP_READ) with true. cbn iota.
  destruct (read_cacheline (nd_local_memory ndb) (dq_addr req) (clamped req)) as [r m]. cbn [fst snd] in Hmem, Hres |- *. subst m.
  destruct (latency_served msg resp nda1 Hn1 Hsv1 eq_refl) as [Hl1 Hl2].
  assert (∀ nda2 r0, served nda nda2 → nd_local_memory nda2 = nd_local_memory nda →
    (∀ g m2, request_end m2 (mm_next_msg_id ma) = (Some resp, (generate_msg_id ma).2) →
      forward_read_end b (clamped req) msg (mkView g m2 nda1) = Some (r0, mkView g (generate_msg_id ma).2 nda2)) →
    ∃ C', call env menv menv' a req C = Some (read_reply r0, C') ∧ applied C C' b (nd_local_memory ndb')) as Hgo.
  { intros nda2 r0 Hs2 Hm2 Hr. apply (Hcall nda2); try done; [set_solver|by rewrite Hty|]. intros g m2 He. unfold client_response. rewrite Hop.
    change (DIST_OP_READ =? DIST_OP_READ) with true. cbn iota. by rewrite (Hr g m2 He). }
  assert (status_of_msg resp = 1 → ∃ C', call env menv menv' a req C = Some (read_reply Refused, C') ∧ applied C C' b (nd_local_memory ndb')) as Href.
  { intros Hst. apply (Hgo nda1); try done. intros g m2 He. unfold forward_read_end. cbn [v_mgr v_shm v_node header msg message msg_id]. rewrite He.
    unfold status_of_msg in Hst. by rewrite Hst. }
  destruct r as [bs| |]; [|by destruct (Href Hres) as (C' & Hc & Hap); eexists _, C'..].
  destruct Hres as (Hst & Hlb & Hdata & _). destruct (Hgo _ (Done (bs, (network_latency msg b resp nda1).1)) Hl1 Hl2) as (C' & Hc & Hap); [|by eexists _, C'].
  intros g m2 He. unfold forward_read_end. cbn [v_mgr v_shm v_node header msg message msg_id]. rewrite He. unfold status_of_msg in Hst. rewrite Hst. cbn [negb Z.eqb].
  destruct (64 <? clamped req) eqn:E; btests; [lia|]. rewrite <- Hlb, Hdata. by destruct (network_latency _ _ _ _).
Qed.

Lemma write_payload_fields data q :
  (length data ≤ 64)%nat → payload_ok q →
  payload_ok (set_bytes mem_data data q) ∧ (∀ f, (f_off f + f_len f ≤ mem_data)%nat → get_field f (set_bytes mem_data data q) = get_field f q) ∧
  ∀ m addr, write_buffer m addr (Z.of_nat (length data)) (get_bytes mem_data 64 (set_bytes mem_data data q)) = write_cacheline m addr data.
Proof using.
  intros Hd Hp. pose proof (po_length _ Hp) as Hl. split_and!.
  - apply payload_set_bytes; [unfold mem_data; lia|unfold mem_data; lia|done].
  - intros f Hf. unfold get_field. rewrite get_set_bytes_other; [done|unfold mem_data; lia|by left].
  - intros m addr. unfold write_buffer, SHM_CACHELINE_SIZE. destruct (64 <? _) eqn:E; btests; [lia|]. rewrite Nat2Z.id. f_equal.
    unfold get_bytes. rewrite take_take, Nat.min_l by done. apply get_set_bytes; [done|unfold mem_data; lia].
Qed.

Lemma write_remote : dq_op_type req = DIST_OP_WRITE → served_here nda (dq_addr req) = false → transparent b ndb.
Proof using Hq Ha Hw Hmenv Hb Hhome Hab.
  intros Hop Hh. pose proof Hw as (Had & _). pose proof (clamped_range req Hw) as [Hsz H64]. pose proof (client_data_length req Hw) as Hlen.
  destruct (counted_a remote_writes forwarded_requests) as [Hn1 Hsv1]. set (nda1 := inc _ _) in *.
  destruct (read_payload_fields (dq_addr req) (clamped req) a Had Hsz) as (Hp0 & Hpa & Hps & _); [apply host_a|].
  destruct (write_payload_fields (client_data req) _ ltac:(lia) Hp0) as (Hp & Hpf & Hwb).
  set (p := set_bytes mem_data (client_data req) (read_payload (dq_addr req) (clamped req) a)) in *.
  set (msg := message DIST_MSG_WRITE_REQ (mm_next_msg_id ma) a b (u64 (oe_now env)) p).
  pose proof (request_msg_ok DIST_MSG_WRITE_REQ (u64 (oe_now env)) p Hp : msg_ok msg) as Hmsg.
  destruct (home_write_ok (menv 100%nat) msg _ b ndb node_b Hmsg (response_msg_ok msg Hmsg))
    as (resp & ndb' & Hf & (_ & Hrid & Hty) & Hsv & Hmem & Hres). cbn [payload msg message] in Hmem, Hres.
  rewrite (Hpf mem_addr), (Hpf mem_size), Hpa, Hps, <- Hlen, Hwb in Hmem, Hres by (unfold mem_data; simpl; lia).
  assert (client_request env req (mkView (cl_shm C) ma nda) =
    ('(c, v1) ← send_request env b msg (mkView (cl_shm C) (generate_msg_id ma).2 nda1); Some (answer write_reply c, v1))) as Heq.
  { unfold client_request. rewrite Hop. change (DIST_OP_WRITE =? DIST_OP_READ) with false. change (DIST_OP_WRITE =? DIST_OP_WRITE) with true. cbn iota.
    unfold write. cbn [v_node v_mgr v_shm]. rewrite Hh, Hhome. unfold forward_write. cbn [v_node v_mgr v_shm]. fold nda1.
    destruct (64 <? _) eqn:E; btests; [lia|]. unfold new_request. cbn [generate_msg_id]. by rewrite (nv_id _ _ Hn1), Hlen. }
  pose proof (λ nda2 rep, remote_applied DIST_MSG_WRITE_REQ (u64 (oe_now env)) p handle_write_request resp ndb' nda1 nda2 write_reply rep) as Hcall.
  cbn zeta in Hcall. fold msg in Hcall. unfold transparent, direct. rewrite Hop.
  change (DIST_OP_WRITE =? DIST_OP_READ) with false. change (DIST_OP_WRITE =? DIST_OP_WRITE) with true. cbn iota.
  destruct (write_cacheline (nd_local_memory ndb) (dq_addr req) (client_data req)) as [r m]. cbn [fst snd] in Hmem, Hres |- *. subst m.
  destruct (latency_served msg resp nda1 Hn1 Hsv1 eq_refl) as [Hl1 Hl2].
  assert (∀ nda2 r0, served nda nda2 → nd_local_memory nda2 = nd_local_memory nda →
    (∀ g m2, request_end m2 (mm_next_msg_id ma) = (Some resp, (generate_msg_id ma).2) →
      forward_write_end b msg (mkView g m2 nda1) = (r0, mkView g (generate_msg_id ma).2 nda2)) →
    ∃ C', call env menv menv' a req C = Some (write_reply r0, C') ∧ applied C C' b (nd_local_memory ndb')) as Hgo.
  { intros nda2 r0 Hs2 Hm2 Hr. apply (Hcall nda2); try done; [set_solver|by rewrite Hty|]. intros g m2 He. unfold client_response. rewrite Hop.
    change (DIST_OP_WRITE =? DIST_OP_READ) with false. change (DIST_OP_WRITE =? DIST_OP_WRITE) with true. cbn iota. by rewrite (Hr g m2 He). }
  destruct (is_done r) eqn:Er.
  - destruct Hres as [Hst _]. destruct (Hgo _ (Done (network_latency msg b resp nda1).1) Hl1 Hl2) as (C' & Hc & Hap); [|by eexists _, C'].
    intros g m2 He. unfold forward_write_end. cbn [v_mgr v_shm v_node header msg message msg_id]. rewrite He. unfold status_of_msg in Hst. rewrite Hst.
    cbn [negb Z.eqb]. by destruct (network_latency _ _ _ _).
  - destruct (Hgo nda1 Refused) as (C' & Hc & Hap); [done|done| |by eexists _, C'].
    intros g m2 He. unfold forward_write_end. cbn [v_mgr v_shm v_node header msg message msg_id]. rewrite He. unfold status_of_msg in Hres. by rewrite Hres.
Qed.

Lemma atomic_remote : is_atomic req = true → transparent b ndb.
Proof using Hq Ha Hw Hmenv Hb Hhome Hab.
  intros Hat. pose proof host_a as [Hm Hnx Hn].
  set (msg := message atomic_type (mm_next_msg_id ma) a b (u64 (oe_now env)) atomic_payload).
  destruct (atomic_direct (mm_next_msg_id ma) a b (u64 (oe_now env)) (nd_local_memory ndb) Hat) as [Hd Hp]. fold msg in Hd.
  pose proof (request_msg_ok atomic_type (u64 (oe_now env)) atomic_payload Hp : msg_ok msg) as Hmsg. pose proof (response_msg_ok msg Hmsg) as Hr0.
  destruct (handle_atomic_ok (menv 100%nat) msg (response_to (menv 100%nat) mb msg) b ndb node_b) as (resp & ndb' & Hf & Hans & Hsv & Hmem & Hres);
    [apply host_a|apply (mo_payload _ Hr0)|]. destruct (Hans Hr0) as (_ & Hrid & Hty).
  destruct (remote_applied atomic_type (u64 (oe_now env)) atomic_payload handle_atomic_request resp ndb' nda nda atomic_reply
    (atomic_reply (atomic_result (rmw_of msg (nd_local_memory ndb)).1))) as (C' & Hc & Hap); try done.
  - unfold atomic_type. destruct (is_atomic_cases Hat) as [-> | ->]; set_solver.
  - unfold atomic_type. destruct (is_atomic_cases Hat) as [-> | ->]; done.
  - rewrite Hty. by destruct (_ =? _).
  - by eapply served_refl.
  - rewrite atomic_client by done. unfold atomic_begin. cbn [v_node v_mgr v_shm]. rewrite Hhome, id_a. unfold new_request. cbn [generate_msg_id].
    rewrite id_a. destruct (b =? a) eqn:E; [btests; congruence|done].
  - intros g m2 He. rewrite atomic_response by done. unfold atomic_end. cbn [v_mgr v_shm v_node header msg message msg_id]. rewrite He.
    unfold status_of_msg in Hres. destruct ((rmw_of msg (nd_local_memory ndb)).1); [destruct Hres as [-> ->]|rewrite Hres|rewrite Hres]; done.
  - unfold transparent. rewrite Hd. cbn [fst snd]. rewrite <- Hmem. by eexists _, C'.
Qed.

End remote.

End requests.

(** ** Any interleaving *)

Section with_casts_steps.
Context `{CastUB}.

(** What every step of a node may rely on. *)
Record view_ok (n : Z) (v : View Node) : Prop := {
  vo_seg : seg_inv (v_shm v);
  vo_msgs : seg_msgs (v_shm v);
  vo_host : host_ok n (v_mgr v) (v_node v)
}.

(** The requests that reach undefined behaviour: on the label storage area, with an
    offset whose sum with the size wraps around, or with a write that makes the area
    grow when no memory can be had. *)
Definition lsa_undefined (env : OpEnv) (req : DistServerRequest) (nd : Node) : Prop :=
  let end_ := dq_addr req + clamped req in
  dq_op_type req = DIST_OP_LSA_READ ∧ TWO64 <= end_ ∨
  dq_op_type req = DIST_OP_LSA_WRITE ∧ (TWO64 <= end_ ∨ nd_lsa_size nd < end_ ∧ oe_alloc env end_ = false).

(** One step of a thread of a node: the part of an operation up to its wait,
    the part after it, a poll, or a change of the cluster. *)
Inductive node_step (v : View Node) : View Node → Prop :=
  | ns_poll env max k v' : (∀ i, env_ok (env i)) → poll_messages env max v = Some (k, v') → node_step v v'
  | ns_request env req ans v' : op_env_ok env → wf_request req → client_request env req v = Some (ans, v') → node_step v v'
  | ns_response req b msg resp v' : wf_request req → client_response req b msg v = Some (resp, v') → node_step v v'
  | ns_heartbeat now now' v' : heartbeat_round now now' v = Some v' → node_step v v'
  | ns_leave now v' : leave_cluster now v = Some v' → node_step v v'
  | ns_stop : node_step v (stop v)
  | ns_remove n : node_step v (remove_remote_node n v).2
  | ns_add info : node_step v (mkView (v_shm v) (v_mgr v) (add_remote_node info (v_node v)))
  | ns_start : node_step v (mkView (v_shm v) (v_mgr v) (start (v_node v)).2)
  | ns_route base size t remote : 0 <= t →
      node_step v (mkView (v_shm v) (v_mgr v) (set_decoder (add_range (nd_hdm_decoder (v_node v)) base size t remote) (v_node v))).

Inductive cluster_step (C : Cluster) : Cluster → Prop :=
  | cs_node n v v' : view_of n C = Some v → node_step v v' → cluster_step C (put_view n v' C).

(** *** Lemmas *)

Lemma view_served n v nd : view_ok n v → served (v_node v) nd → view_ok n (mkView (v_shm v) (v_mgr v) nd).
Proof. intros [Hs Hm [? ? ?]] Hsv. split; [done..|]. split; [done..|]. by eapply served_inv. Qed.

Lemma view_node_inv n v nd : view_ok n v → node_inv n nd → view_ok n (mkView (v_shm v) (v_mgr v) nd).
Proof. intros [Hs Hm [? ? ?]] Hn. by split. Qed.

Lemma view_next n v : view_ok n v → view_ok n (mkView (v_shm v) (generate_msg_id (v_mgr v)).2 (v_node v)).
Proof. intros [Hs Hm Hh]. split; [done..|]. eapply next_id_ok; [done|apply Hh]. Qed.

Lemma view_pending n v p : view_ok n v → view_ok n (mkView (v_shm v) (set_pending p (v_mgr v)) (v_node v)).
Proof. intros [Hs Hm [? ? ?]]. by split. Qed.

Lemma home_nonneg n nd addr : node_inv n nd → 0 <= get_node_for_address nd addr.
Proof.
  intros Hn. unfold get_node_for_address. pose proof (get_home_node_target (nd_hdm_decoder nd) addr) as Hin.
  apply elem_of_cons in Hin as [->|Hin]; [done|]. pose proof (nv_route _ _ Hn) as Hr. rewrite Forall_forall in Hr. by apply Hr.
Qed.

(** A message of a node, with the identifier that comes next. *)
Lemma own_msg_ok n v t d now p : view_ok n v → payload_ok p → msg_ok (new_request t d now p (v_mgr v) (v_node v)).1.
Proof. intros [_ _ [_ Hn [Hid Hnode _ _ _ _]]] Hp. split; simpl; [done|by rewrite Hid|done]. Qed.

Lemma send_request_view {A} env target req n v :
  view_ok n v → msg_ok req → 0 <= target → ∃ (c : Call A) v', send_request env target req v = Some (c, v') ∧ view_ok n v'.
Proof.
  intros Hv Hq Ht. unfold send_request, request_begin, send_message. set (p := <[_ := _]> _). set (m1 := set_pending p (v_mgr v)).
  pose proof (view_pending n v p Hv) as [Hs Hm Hh]. cbn [v_shm v_mgr v_node] in Hs, Hm, Hh. fold m1 in Hh.
  destruct (ho_manages _ _ _ Hh) as (Hl & Hnode & _).
  destruct (enqueue_sent m1 target req (v_shm v) Hs) as (ok & g' & -> & Hsent & _); [by rewrite Hl|done|]. cbn [mbind option_bind].
  pose proof (sent_msgs _ _ _ _ _ _ Hsent Hm Hq) as Hm'. destruct Hsent as [Hi _ _].
  eexists _, _. split; [reflexivity|]. destruct Hh as [? ? ?]. split; [done..|]. by destruct ok; split.
Qed.

Lemma broadcast_view n v t d now p :
  view_ok n v → payload_ok p →
  let '(msg, m) := new_request t d now p (v_mgr v) (v_node v) in
  ∃ ok g', broadcast_message m msg (v_shm v) = Some (ok, g') ∧ view_ok n (mkView g' m (v_node v)).
Proof.
  intros Hv Hp. pose proof (own_msg_ok n v t d now p Hv Hp) as Hmsg. pose proof (view_next n v Hv) as [Hs Hm Hh].
  unfold new_request in *. cbn [generate_msg_id] in *. set (msg := message _ _ _ _ _ _) in *.
  destruct (broadcast_ok (generate_msg_id (v_mgr v)).2 n msg (v_shm v)) as (ok & g' & He & Hi & _ & _ & Hc); [done|apply Hh|].
  exists ok, g'. split; [done|]. split; [done| |done]. intros s d' Hs' Hd. cbn [v_shm]. rewrite Hc by done. destruct (_ && _); [|by apply Hm].
  apply Forall_app. split; [by apply Hm|by constructor].
Qed.

Lemma nodes_view n v g : view_ok n v → seg_inv g → g_queues g = g_queues (v_shm v) → view_ok n (mkView g (v_mgr v) (v_node v)).
Proof. intros [Hs Hm Hh] Hi Hq. split; [done| |done]. intros s d Hs' Hd. unfold chan in *. cbn [v_shm]. rewrite Hq. by apply Hm. Qed.

Lemma read_payload_ok n v addr size : view_ok n v → payload_ok (read_payload addr size (nd_node_id (v_node v))).
Proof.
  intros [_ _ [_ _ [Hid Hn _ _ _ _ _]]]. apply payload_set_client; [|auto with cxl]. rewrite Hid, u32_small by (unfold is_node, DIST_MAX_NODES, is_u32 in *; lia).
  by apply node_not_max.
Qed.

(** Lets the message of an operation go out with a new identifier. *)
Lemma forward_view {A} env target t p n v :
  view_ok n v → payload_ok p → 0 <= target →
  let '(req, m) := new_request t target (oe_now env) p (v_mgr v) (v_node v) in
  ∃ (c : Call A) v', send_request env target req (mkView (v_shm v) m (v_node v)) = Some (c, v') ∧ view_ok n v'.
Proof.
  intros Hv Hp Ht. pose proof (own_msg_ok n v t target (oe_now env) p Hv Hp) as Hmsg. pose proof (view_next n v Hv) as Hv1.
  unfold new_request in *. cbn [generate_msg_id fst snd] in *. by eapply send_request_view in Hv1.
Qed.

Lemma read_view env addr size n v :
  view_ok n v → is_u64 addr → is_u64 size → ∃ c v', read env addr size v = Some (c, v') ∧ view_ok n v'.
Proof.
  intros Hv Ha Hs. pose proof (ho_node _ _ _ (vo_host _ _ Hv)) as Hn. unfold read. destruct (served_here _ _).
  - destruct (local_read_ok env addr size n (v_node v) Hn Ha Hs) as (nd' & -> & Hsv & _). cbn [mbind option_bind]. eexists _, _. split; [reflexivity|]. by apply view_served.
  - unfold forward_read. set (nd := inc _ _).
    assert (view_ok n (mkView (v_shm v) (v_mgr v) nd)) as Hv1 by (apply view_served; [done|]; eapply served_trans; eapply inc_served; [done|by eapply served_inv, inc_served]).
    apply (forward_view env (get_node_for_address (v_node v) addr) DIST_MSG_READ_REQ _ n _ Hv1); [by eapply (read_payload_ok n (mkView _ _ nd))|by eapply home_nonneg].
Qed.

Lemma write_view env addr data n v :
  view_ok n v → is_u64 addr → (length data ≤ 64)%nat → ∃ c v', write env addr data v = Some (c, v') ∧ view_ok n v'.
Proof.
  intros Hv Ha Hs. pose proof (ho_node _ _ _ (vo_host _ _ Hv)) as Hn. unfold write. destruct (served_here _ _).
  - destruct (local_write_ok env addr data n (v_node v) Hn Ha Hs) as (nd' & -> & Hsv & _). cbn [mbind option_bind]. eexists _, _. split; [reflexivity|]. by apply view_served.
  - unfold forward_write. set (nd := inc _ _). destruct (64 <? _) eqn:E; btests; [lia|].
    assert (view_ok n (mkView (v_shm v) (v_mgr v) nd)) as Hv1 by (apply view_served; [done|]; eapply served_trans; eapply inc_served; [done|by eapply served_inv, inc_served]).
    apply (forward_view env (get_node_for_address (v_node v) addr) DIST_MSG_WRITE_REQ _ n _ Hv1); [|by eapply home_nonneg].
    apply payload_set_bytes; [unfold mem_data; lia..|]. by eapply (read_payload_ok n (mkView _ _ nd)).
Qed.

Lemma atomic_view env t addr p n v :
  view_ok n v → op_env_ok env → payload_ok p → ∃ c v', atomic_begin env t addr p v = Some (c, v') ∧ view_ok n v'.
Proof.
  intros Hv He Hp. pose proof (ho_node _ _ _ (vo_host _ _ Hv)) as Hn. unfold atomic_begin.
  pose proof (forward_view (A := Z) env (get_node_for_address (v_node v) addr) t p n v Hv Hp (home_nonneg n _ addr Hn)) as Hf.
  unfold new_request in *. cbn [generate_msg_id] in *. set (req := message _ _ _ _ _ _) in *. destruct (_ =? nd_node_id _); [|exact Hf].
  destruct (handle_atomic_ok {| me_now := oe_now env; me_handler_now := oe_coherency_now env; me_partial := oe_partial env |} req (oe_stack env) n (v_node v) Hn)
    as (resp & nd' & -> & _ & Hsv & _); [cbn; rewrite (nv_id _ _ Hn); apply Hn|done|].
  cbn [mbind option_bind]. eexists _, _. split; [reflexivity|]. by apply (view_served n _ nd' (view_next n v Hv)).
Qed.

Lemma fence_view env n v : view_ok n v → ∃ v', fence env v = Some v' ∧ view_ok n v'.
Proof.
  intros Hv. pose proof (ho_node _ _ _ (vo_host _ _ Hv)) as Hn. unfold fence. destruct (flush _) as [ok m] eqn:E.
  apply flush_kept in E as [Hk _]; [|apply Hn]. cbn [snd].
  pose proof (view_served n v _ Hv (set_memory_served (v_node v) m Hk (nv_engine _ _ Hn))) as Hv1.
  pose proof (broadcast_view n _ DIST_MSG_FENCE_REQ 0 (oe_now env) zero_payload Hv1 zero_payload_ok) as Hb.
  unfold new_request in *. cbn [generate_msg_id v_mgr v_shm v_node] in *. destruct Hb as (b & g' & -> & Hv2). cbn [mbind option_bind]. by eexists.
Qed.

Lemma lsa_view n v d k : view_ok n v → 262144 <= k < TWO64 → view_ok n (mkView (v_shm v) (v_mgr v) (set_lsa d k (v_node v))).
Proof. intros Hv Hk. apply view_node_inv; [done|]. by destruct Hv as [_ _ [_ _ []]]. Qed.

Lemma lsa_wraps offset size : is_u64 offset → 0 <= size <= 64 → TWO64 <= offset + size → 0 <= offset +w size < 64 ∧ 0 < size.
Proof.
  intros Ho Hs Hb. split; [|unfold is_u64 in *; lia]. unfold u64. rewrite <- (Z_mod_plus_full _ (-1)), Z.mod_small; unfold is_u64 in *; lia.
Qed.

(** The area has at least 256 KB, so that a sum that wraps around passes the bound. *)
Lemma lsa_read_ok offset size nd :
  is_u64 offset → 0 <= size <= 64 → 262144 <= nd_lsa_size nd < TWO64 →
  lsa_read offset size nd = if TWO64 <=? offset + size then None
    else Some (if nd_lsa_size nd <? offset + size then Refused else Done (load_bytes (Z.to_nat size) offset (nd_lsa_data nd))).
Proof.
  intros Ho Hs Hn. unfold lsa_read. destruct (TWO64 <=? offset + size) eqn:E; btests.
  - destruct (lsa_wraps offset size Ho Hs E) as [Hw Hp]. rewrite (proj2 (Z.ltb_ge _ _)) by lia.
    by rewrite (proj2 (Z.ltb_lt 0 size)), (proj2 (Z.ltb_lt _ (offset + size))) by lia.
  - rewrite u64_small by (unfold is_u64 in *; lia). destruct (_ <? _); [done|]. by rewrite andb_false_r.
Qed.

Lemma lsa_write_ok env offset data nd :
  is_u64 offset → (length data ≤ 64)%nat → 262144 <= nd_lsa_size nd < TWO64 →
  let end_ := offset + Z.of_nat (length data) in
  lsa_write env offset data nd = if (TWO64 <=? end_) || (nd_lsa_size nd <? end_) && negb (oe_alloc env end_) then None
    else Some (set_lsa (store_bytes data offset (nd_lsa_data nd)) (Z.max (nd_lsa_size nd) end_) nd).
Proof.
  intros Ho Hs Hn e. unfold lsa_write. fold e. destruct (TWO64 <=? e) eqn:E; btests.
  - destruct (lsa_wraps offset (Z.of_nat (length data)) Ho ltac:(lia) E) as [Hw Hp]. fold e in Hw. rewrite (proj2 (Z.ltb_ge (nd_lsa_size nd) (u64 e))) by lia. cbn [andb orb].
    by rewrite (proj2 (Z.ltb_lt 0 _)), (proj2 (Z.ltb_lt _ e)) by lia.
  - rewrite u64_small by (unfold is_u64, e in *; lia). fold e. cbn [orb].
    destruct (nd_lsa_size nd <? e) eqn:El; btests; cbn [andb].
    + destruct (negb _); [done|]. rewrite Z.ltb_irrefl, andb_false_r. by rewrite Z.max_r by lia.
    + rewrite (proj2 (Z.ltb_ge (nd_lsa_size nd) e)) by done. rewrite andb_false_r. by rewrite Z.max_l by lia.
Qed.

(** A result that is missing exactly when [U] holds, and is good. *)
Definition yields {A} (U : Prop) (x : option (A * View Node)) (n : Z) : Prop :=
  (x = None ↔ U) ∧ ∀ r v', x = Some (r, v') → view_ok n v'.

Lemma yields_intro {A} U (x : option (A * View Node)) n : ¬ U → (∃ r v', x = Some (r, v') ∧ view_ok n v') → yields U x n.
Proof. intros HU (r & v' & -> & Hv). split; [done|]. intros r' v'' [= <- <-]. done. Qed.

Lemma yields_map {A B} U (f : A → B) (x : option (A * View Node)) n : yields U x n → yields U ('(c, v1) ← x; Some (f c, v1)) n.
Proof.
  intros [HU Hx]. destruct x as [[c v1]|]; cbn [mbind option_bind]; split; [split; [done|by intros ?%HU]| |split; [intros _; by apply HU|done]|done]. intros r v' [= <- <-]. by eapply Hx.
Qed.

(** A request of a client. *)
Lemma client_request_ok env req n v :
  view_ok n v → op_env_ok env → wf_request req → yields (lsa_undefined env req (v_node v)) (client_request env req v) n.
Proof.
  intros Hv He Hw. pose proof Hw as (Had & _ & Hval & Hexp & Hd). pose proof (clamped_range req Hw) as [Hsz H64]. pose proof (client_data_length req Hw) as Hlen.
  pose proof (nv_lsa _ _ (ho_node _ _ _ (vo_host _ _ Hv))) as Hls.
  assert (dq_op_type req ≠ DIST_OP_LSA_READ → dq_op_type req ≠ DIST_OP_LSA_WRITE → ¬ lsa_undefined env req (v_node v)) as Hdef by (unfold lsa_undefined; tauto).
  unfold client_request.
  destruct (_ =? DIST_OP_READ) eqn:E0; btests; [apply yields_map, yields_intro; [apply Hdef; by rewrite E0|by apply read_view]|].
  destruct (_ =? DIST_OP_WRITE) eqn:E1; btests; [apply yields_map, yields_intro; [apply Hdef; by rewrite E1|apply write_view; [done..|lia]]|].
  destruct (_ =? DIST_OP_ATOMIC_FAA) eqn:E2; btests; [apply yields_map, yields_intro; [apply Hdef; by rewrite E2|apply atomic_view; auto with cxl]|].
  destruct (_ =? DIST_OP_ATOMIC_CAS) eqn:E3; btests; [apply yields_map, yields_intro; [apply Hdef; by rewrite E3|apply atomic_view; auto with cxl]|].
  destruct (_ =? DIST_OP_FENCE) eqn:E4; btests.
  { apply yields_intro; [apply Hdef; by rewrite E4|]. destruct (fence_view env n v Hv) as (v' & -> & Hv'). cbn [mbind option_bind]. by eexists _, v'. }
  destruct (_ =? DIST_OP_LSA_READ) eqn:E5; btests.
  { rewrite lsa_read_ok by (done || unfold is_u64 in *; lia). unfold lsa_undefined. rewrite E5. destruct (TWO64 <=? _) eqn:E; btests; cbn [mbind option_bind].
    - split; [split; [by left|done]|done].
    - split; [split; [done|intros [[_ ?]|[? _]]; [lia|done]]|]. by intros r v' [= <- <-]. }
  destruct (_ =? DIST_OP_LSA_WRITE) eqn:E6; btests.
  { rewrite lsa_write_ok by (done || lia). rewrite Hlen. unfold lsa_undefined. rewrite E6. set (e := dq_addr req + clamped req).
    destruct (TWO64 <=? e) eqn:E; btests; cbn [orb mbind option_bind]; [by split; [split; [by right; split; [|left]|]|]|].
    destruct (nd_lsa_size (v_node v) <? e) eqn:El, (oe_alloc env e) eqn:Ea; btests; cbn [andb negb mbind option_bind];
      (split; [split; [try done|try done]|try done]); try (intros r v' [= <- <-]; apply lsa_view; [done|lia]);
      try (intros [[? _]|[_ [?|[? ?]]]]; [done|lia|congruence || lia]). by right; split; [|right]. }
  destruct (_ =? DIST_OP_GET_SHM_INFO); (apply yields_intro; [by apply Hdef|by eexists _, v]).
Qed.

(** The response to a request of a client. *)
Lemma client_response_ok req b msg n v :
  view_ok n v → wf_request req → ∃ resp v', client_response req b msg v = Some (resp, v') ∧ view_ok n v'.
Proof.
  intros Hv Hw. pose proof (clamped_range req Hw) as [Hsz H64].
  pose proof (view_pending n v (delete (msg_id (header msg)) (mm_pending_requests (v_mgr v))) Hv) as Hv1. set (m1 := set_pending _ _) in Hv1.
  assert (∀ msg' resp, view_ok n (mkView (v_shm v) m1 (network_latency msg' b resp (v_node v)).2)) as Hv2.
  { intros msg' resp. pose proof (ho_node _ _ _ (vo_host _ _ Hv)) as Hn. unfold network_latency.
    destruct (logp_served (nd_node_id (v_node v)) b (timestamp (header msg')) n (v_node v) Hn) as [Hsv _]. destruct (calculate_logp_latency _ _ _ _) as [lat nd1].
    by apply (view_served n _ nd1 Hv1). }
  unfold client_response, forward_read_end, forward_write_end, atomic_end, request_end. fold m1. destruct (64 <? _) eqn:E; btests; [lia|].
  destruct (mm_pending_requests (v_mgr v) !! _) as [p|]; [destruct (pr_completed p)|];
    repeat match goal with |- context [network_latency ?x ?y ?z ?w] => specialize (Hv2 x z); destruct (network_latency x y z w) as [lat nd1] end;
    repeat (match goal with |- context [if ?c then _ else _] => destruct c end; cbn [mbind option_bind]); by eexists _, _.
Qed.

Lemma poll_view env max n v : view_ok n v → (∀ i, env_ok (env i)) → ∃ k v', poll_messages env max v = Some (k, v') ∧ view_ok n v'.
Proof.
  intros [Hs Hm [(Hl & Hn & Hmp) Hnx Hnd]] He. unfold poll_messages.
  destruct (poll_nodes_ok (P := node_inv n) env node_ids max v) as (v' & -> & Hv' & Hem);
    [done|split; [done..| |done|done]; by rewrite Hl|apply node_ids_nodes..|].
  cbn [mbind option_bind]. eexists _, v'. split; [reflexivity|]. destruct Hv' as [? ? ? ? ?]. destruct Hem as [[? Hl' Hmp' Hnx' _] _ _ _].
  split; [done..|]. split; [split_and!; congruence|by rewrite Hnx'|done].
Qed.

Lemma heartbeat_view now now' n v : view_ok n v → ∃ v', heartbeat_round now now' v = Some v' ∧ view_ok n v'.
Proof.
  intros Hv. pose proof (vo_host _ _ Hv) as Hh. unfold heartbeat_round.
  destruct (heartbeat_ok now (v_mgr v) n (v_shm v) (vo_seg _ _ Hv) (ho_manages _ _ _ Hh)) as (g' & msg & -> & Hi & Hok & _ & Hc). cbn [mbind option_bind].
  eexists. split; [reflexivity|]. specialize (Hok (ho_next _ _ _ Hh)).
  split; [done| |]; cbn [v_shm v_mgr v_node].
  - intros s d Hs Hd. destruct (Hc s d Hs Hd) as [->|(_ & _ & ->)]; [by apply Hv|]. apply Forall_app. split; [by apply Hv|by constructor].
  - eapply next_id_ok; [done|]. eapply served_inv; [apply Hh|]. eapply registry_served, Hh.
Qed.

Lemma deregister_view x n v : view_ok n v → view_ok n (mkView (deregister_node x (v_mgr v) (v_shm v)).2 (v_mgr v) (v_node v)).
Proof.
  intros Hv. destruct (deregister_node _ _ _) as [ok g'] eqn:E. apply deregister_inv in E as [Hi Hq]; [|apply Hv]. by apply nodes_view.
Qed.

Lemma leave_view now n v : view_ok n v → ∃ v', leave_cluster now v = Some v' ∧ view_ok n v'.
Proof.
  intros Hv. unfold leave_cluster.
  pose proof (broadcast_view n v DIST_MSG_NODE_DEREGISTER 65535 now (set_field node_node_id (nd_node_id (v_node v)) zero_payload) Hv) as Hb.
  unfold new_request in *. cbn [generate_msg_id] in *. destruct Hb as (ok & g' & -> & Hv1); [auto with cxl|]. cbn [mbind option_bind].
  eexists. split; [reflexivity|]. by apply (deregister_view (nd_node_id (v_node v)) n _ Hv1).
Qed.

Lemma route_view base size t remote n v :
  view_ok n v → 0 <= t →
  view_ok n (mkView (v_shm v) (v_mgr v) (set_decoder (add_range (nd_hdm_decoder (v_node v)) base size t remote) (v_node v))).
Proof.
  intros Hv Ht. apply view_node_inv; [done|]. destruct Hv as [_ _ [_ _ [? ? ? ? ? Hr ?]]]. split; [done..| |done].
  unfold targets in *. cbn [nd_hdm_decoder set_decoder add_range hd_ranges hd_interleave]. rewrite fmap_app. simpl.
  apply Forall_app in Hr as [Hr1 Hr2]. rewrite !Forall_app. split_and!; [done|by constructor|done].
Qed.

(** Every step of a node keeps what the steps rely on. *)
Lemma step_view n v v' : node_step v v' → view_ok n v → view_ok n v'.
Proof.
  intros Hst Hv. pose proof (ho_node _ _ _ (vo_host _ _ Hv)) as Hn. destruct Hst as
    [env max k v' He Hp|env req ans v' He Hw Hc|req b msg resp v' Hw Hc|now now' v' Hb|now v' Hb| |x|info| |base size t remote Ht].
  - destruct (poll_view env max n v Hv He) as (? & ? & Hp' & ?). by simplify_eq.
  - by eapply (client_request_ok env req n v Hv He Hw).
  - destruct (client_response_ok req b msg n v Hv Hw) as (? & ? & Hc' & ?). by simplify_eq.
  - destruct (heartbeat_view now now' n v Hv) as (? & Hb' & ?). by simplify_eq.
  - destruct (leave_view now n v Hv) as (? & Hb' & ?). by simplify_eq.
  - unfold stop. destruct (negb _); [done|]. apply (view_node_inv n _ _ (deregister_view (nd_node_id (v_node v)) n v Hv)). by destruct Hn.
  - pose proof (deregister_view x n v Hv) as Hv1. unfold remove_remote_node. destruct (deregister_node _ _ _) as [ok g']. cbn [snd] in *.
    apply (view_served n _ _ Hv1). by eapply registry_served.
  - apply view_served; [done|]. by eapply registry_served.
  - unfold start. destruct (nd_running _); [by destruct v|]. destruct (negb _); [by destruct v|]. apply view_node_inv; [done|]. by destruct Hn.
  - by apply route_view.
Qed.

Lemma view_of_ok n C v : cluster_inv C → view_of n C = Some v → view_ok n v.
Proof.
  intros [Hs Hm Hh]. unfold view_of. destruct (cl_hosts C !! n) as [[m nd]|] eqn:E; [|done]. cbn [mbind option_bind]. intros [= <-].
  split; [done..|]. by apply Hh.
Qed.

Lemma put_view_inv n C v : cluster_inv C → view_ok n v → cluster_inv (put_view n v C).
Proof.
  intros [Hs Hm Hh] [Hs' Hm' Hh']. split; [done..|]. intros x m nd. unfold put_view. cbn [cl_hosts]. destruct (decide (x = n)) as [->|Hne].
  - rewrite lookup_insert_eq. by intros [= <- <-].
  - rewrite lookup_insert_ne by done. apply Hh.
Qed.

Lemma cluster_run_inv C C' : rtc cluster_step C C' → cluster_inv C → cluster_inv C'.
Proof.
  induction 1 as [|C C1 C2 [n v v' Hv Hst] _ IH]; [done|]. intros Hi. apply IH, put_view_inv; [done|]. eapply step_view; [done|]. by eapply view_of_ok.
Qed.

End with_casts_steps.

(** ** Lemmas: requests in sequence *)

Lemma response_status resp x : response_of resp = x → dp_status resp = x.1.1 ∧ dp_data resp = x.2.
Proof. intros <-. done. Qed.

Lemma direct_kept req m : shm_inv m → wf_request req → kept m (direct req m).2.
Proof.
  intros Hi Hw. pose proof (clamped_range req Hw) as [Hsz H64]. pose proof (client_data_length req Hw) as Hlen. destruct Hw as (Ha & _). unfold direct.
  destruct (_ =? DIST_OP_READ). { destruct (read_cacheline _ _ _) eqn:E. by apply read_cacheline_ok in E as (_ & Hk & _). }
  destruct (_ =? DIST_OP_WRITE). { destruct (write_cacheline _ _ _) eqn:E. apply write_cacheline_ok in E as (_ & Hk & _); [done..|by rewrite Hlen]. }
  destruct (_ =? DIST_OP_ATOMIC_FAA); [destruct (atomic_fetch_add_uint64 _ _ _) eqn:E|destruct (atomic_compare_exchange_uint64 _ _ _ _) eqn:E];
    by apply atomic_rmw_ok in E as [Hk _].
Qed.

(** Nodes route as they did. *)
Lemma home_same req nd nd' :
  nd_node_id nd' = nd_node_id nd → nd_hdm_decoder nd' = nd_hdm_decoder nd →
  get_shm_info (nd_local_memory nd') = get_shm_info (nd_local_memory nd) → home req nd' = home req nd.
Proof.
  intros Hi Hd Hh. unfold home, served_here, is_local_address, get_node_for_address. by rewrite Hi, Hd, Hh.
Qed.

Lemma applied_host C C' h mh ndh req x mx nd :
  quiet C → wf_request req → cl_hosts C !! h = Some (mh, ndh) → applied C C' h (direct req (nd_local_memory ndh)).2 →
  cl_hosts C !! x = Some (mx, nd) →
  ∃ mx' nd', cl_hosts C' !! x = Some (mx', nd') ∧ (∀ req', home req' nd' = home req' nd).
Proof.
  intros Hq Hw Hh [_ (mh' & ndh' & Hh' & Hm) Hx] Hl. destruct (Hx x mx nd Hl) as (mx' & nd' & Hl' & Hid & Hdec & Hmem). exists mx', nd'.
  split; [done|]. intros req'. apply home_same; [done..|]. destruct (decide (x = h)) as [->|Hne]; [|by rewrite Hmem].
  rewrite Hl in Hh. injection Hh as -> ->. rewrite Hl' in Hh'. injection Hh' as -> ->. rewrite Hm. apply direct_kept; [|done].
  eapply nv_memory, ho_node, cv_hosts; [apply Hq|done].
Qed.

(** A request reaches the memory of its home, wherever it is made. *)
Lemma request_reaches `{CastUB} env menv menv' C a ma nda req mh ndh :
  quiet C → cl_hosts C !! a = Some (ma, nda) → wf_request req → op_env_ok env → (∀ i, env_ok (menv i)) →
  is_access req || is_atomic req = true → cl_hosts C !! home req nda = Some (mh, ndh) →
  transparent env menv menv' C a req (home req nda) ndh.
Proof.
  intros Hq Ha Hw He Hm Hop Hh. assert (nd_node_id nda = a) as Hid by by eapply id_a. unfold home in *.
  assert (is_atomic req = true → is_access req = false) as Hex.
  { unfold is_access. intros [Ho|Ho]%is_atomic_cases; by rewrite Ho. }
  destruct (is_access req) eqn:Eacc; cbn [orb andb] in *.
  - destruct (served_here nda (dq_addr req)) eqn:Es.
    + rewrite Hid in *. rewrite Ha in Hh. injection Hh as <- <-.
      apply orb_prop in Eacc as [Eo%Z.eqb_eq|Eo%Z.eqb_eq]; [by eapply read_here|by eapply write_here].
    + set (b := get_node_for_address nda (dq_addr req)) in *. assert (a ≠ b) as Hab.
      { intros Hab. unfold served_here in Es. fold b in Es. by rewrite <- Hab, Hid, Z.eqb_refl in Es. }
      apply orb_prop in Eacc as [Eo%Z.eqb_eq|Eo%Z.eqb_eq]; [by eapply read_remote|by eapply write_remote].
  - set (b := get_node_for_address nda (dq_addr req)) in *. destruct (decide (a = b)) as [Hab|Hab]; [|by eapply atomic_remote].
    rewrite <- Hab in *. rewrite Ha in Hh. injection Hh as <- <-. by eapply atomic_here.
Qed.

(** The same request as a read. *)
Definition as_read (req : DistServerRequest) : DistServerRequest :=
  {| dq_op_type := DIST_OP_READ; dq_addr := dq_addr req; dq_size := dq_size req; dq_timestamp := dq_timestamp req; dq_value := dq_value req;
     dq_expected := dq_expected req; dq_data := dq_data req |}.

Lemma as_read_wf req : wf_request req → wf_request (as_read req).
Proof. done. Qed.

Lemma as_read_home req nd : dq_op_type req = DIST_OP_WRITE → home (as_read req) nd = home req nd.
Proof. intros Hop. unfold home, is_access. by rewrite Hop. Qed.

(** The bytes of a memory are as they were. *)
Definition same_bytes (m m' : SharedMemoryManager) : Prop := kept m m' ∧ ∀ o, mem m' o = mem m o.

Lemma direct_read_same req m : shm_inv m → wf_request req → dq_op_type req = DIST_OP_READ → same_bytes m (direct req m).2.
Proof.
  intros Hi Hw Hop. pose proof (clamped_range req Hw) as [Hsz _]. destruct Hw as (Ha & _). unfold direct. rewrite Hop, Z.eqb_refl.
  destruct (read_cacheline _ _ _) as [r m1] eqn:E. apply read_cacheline_ok in E as (_ & Hk & Hm & _); [by split|done..].
Qed.

(** Reading back, in one memory whose bytes stay as they were written. *)
Lemma direct_write_read req m m' :
  shm_inv m → wf_request req → dq_op_type req = DIST_OP_WRITE → (direct req m).1.1.1 = 0 → same_bytes (direct req m).2 m' →
  let rd := direct (as_read req) m' in
  (rd.1.1.1 = 0 → rd.1.2 = pad (client_data req)) ∧ (sm_backing_mode m ≠ SsdStream → rd.1.1.1 = 0).
Proof.
  intros Hi Hw Hop. pose proof (clamped_range req Hw) as [Hsz H64]. pose proof (client_data_length req Hw) as Hlen. pose proof Hw as (Ha & _).
  unfold direct. rewrite Hop. change (DIST_OP_WRITE =? DIST_OP_READ) with false. change (DIST_OP_WRITE =? DIST_OP_WRITE) with true.
  change (dq_op_type (as_read req) =? DIST_OP_READ) with true. change (dq_addr (as_read req)) with (dq_addr req).
  change (clamped (as_read req)) with (clamped req). cbn iota.
  destruct (write_cacheline m (dq_addr req) (client_data req)) as [r m1] eqn:E. cbn [fst snd]. destruct r as [[]| |]; [|done|done]. intros _ [Hk' Hm'].
  pose proof E as (_ & Hk & _ & Hp)%write_cacheline_ok; [|done..|by rewrite Hlen]. pose proof (kept_trans _ _ _ Hk Hk') as Hkk.
  pose proof (mapped_read_served m (dq_addr req) (client_data req) m1 m' Hi Ha ltac:(lia)) as Hserved. rewrite Hlen in Hserved.
  destruct (read_cacheline m' (dq_addr req) (clamped req)) as [r2 m2] eqn:E2. pose proof E2 as (_ & _ & _ & Hbs)%read_cacheline_ok; [|apply Hk'|done|done].
  cbn [fst snd] in *. split.
  - destruct r2 as [bs| |]; [|done|done]. intros _. cbn [snd]. f_equal. destruct (Hbs bs eq_refl) as [_ ->]. rewrite <- Hlen, Nat2Z.id.
    apply (read_back m); [done|done|lia|done|]. destruct Hp as (k & Hkl & Hkd & Hmem). exists k. split_and!; [done..|]. intros o Ho. rewrite Hm'. by apply Hmem.
  - intros Hm. specialize (Hserved Hm E Hkk). by destruct r2.
Qed.

(** A request of a client that no other step disturbs and that stores nothing in the
    memory of node [h]: a read, or a request with another home. *)
Inductive other_call `{CastUB} (h : Z) (C : Cluster) : Cluster → Prop :=
  | oc_call env menv menv' a ma nda req mh ndh resp C' :
      cl_hosts C !! a = Some (ma, nda) → wf_request req → op_env_ok env → (∀ i, env_ok (menv i)) → is_access req || is_atomic req = true →
      cl_hosts C !! home req nda = Some (mh, ndh) → dq_op_type req = DIST_OP_READ ∨ home req nda ≠ h →
      call env menv menv' a req C = Some (resp, C') → other_call h C C'.

(** The nodes route as they did, and the bytes of node [h] are as they were. *)
Definition undisturbed (h : Z) (C C' : Cluster) : Prop :=
  quiet C' ∧ ∀ x mx nd, cl_hosts C !! x = Some (mx, nd) → ∃ mx' nd', cl_hosts C' !! x = Some (mx', nd') ∧
    (∀ req, home req nd' = home req nd) ∧ (x = h → same_bytes (nd_local_memory nd) (nd_local_memory nd')).

Lemma host_memory C x mx nd : quiet C → cl_hosts C !! x = Some (mx, nd) → shm_inv (nd_local_memory nd).
Proof. intros Hq Hx. eapply nv_memory, ho_node, cv_hosts; [apply Hq|done]. Qed.

Lemma other_call_undisturbed `{CastUB} h C C' : quiet C → other_call h C C' → undisturbed h C C'.
Proof.
  intros Hq [env menv menv' a ma nda req mh ndh resp C1 Ha Hw He Hm Hop Hh Hrd Hcall].
  destruct (request_reaches env menv menv' C a ma nda req mh ndh Hq Ha Hw He Hm Hop Hh) as (resp1 & C2 & Hcall' & _ & Hap).
  rewrite Hcall in Hcall'. injection Hcall' as <- <-. split; [apply Hap|]. intros x mx nd Hx.
  destruct (applied_host C C1 _ mh ndh req x mx nd Hq Hw Hh Hap Hx) as (mx' & nd' & Hx' & Hroute). exists mx', nd'. split; [done|]. split; [done|]. intros ->.
  pose proof (host_memory _ _ _ _ Hq Hx) as Hi. destruct Hap as [_ (mh' & ndh' & Hh' & Hmem) Hhosts].
  destruct (decide (home req nda = h)) as [Heq|Hne].
  - rewrite Heq in *. rewrite Hx in Hh. injection Hh as <- <-. rewrite Hx' in Hh'. injection Hh' as <- <-. rewrite Hmem.
    destruct Hrd as [Hrd|Hrd]; [by apply direct_read_same|done].
  - destruct (Hhosts h mx nd Hx) as (mx2 & nd2 & Hx2 & _ & _ & Hsame). rewrite Hx' in Hx2. injection Hx2 as <- <-. rewrite Hsame by congruence.
    split; [by apply kept_refl|done].
Qed.

Lemma other_calls_undisturbed `{CastUB} h C C' : rtc (other_call h) C C' → quiet C → undisturbed h C C'.
Proof.
  induction 1 as [C|C C1 C2 Hc _ IH]; intros Hq.
  - split; [done|]. intros x mx nd Hx. exists mx, nd. split; [done|]. split; [done|]. intros _. split; [|done]. by eapply kept_refl, host_memory.
  - destruct (other_call_undisturbed h C C1 Hq Hc) as [Hq1 H1]. destruct (IH Hq1) as [Hq2 H2]. split; [done|]. intros x mx nd Hx.
    destruct (H1 x mx nd Hx) as (m1 & nd1 & Hx1 & Hr1 & Hb1). destruct (H2 x m1 nd1 Hx1) as (m2 & nd2 & Hx2 & Hr2 & Hb2).
    exists m2, nd2. split; [done|]. split; [intros req; by rewrite Hr2|]. intros Hxh. destruct (Hb1 Hxh) as [K1 B1], (Hb2 Hxh) as [K2 B2].
    split; [by eapply kept_trans|]. intros o. by rewrite B2.
Qed.

(** ** Lemmas: a node that starts *)

Lemma poll_none `{CastUB} env nodes n (v : View Node) :
  (∀ x, x ∈ nodes → polled (v_mgr v) (v_shm v) x = false) → poll_nodes env nodes n v = Some (n, v).
Proof.
  induction nodes as [|x nodes IH]; intros Hp; cbn [poll_nodes]; [done|]. assert (polled (v_mgr v) (v_shm v) x = false) as Hx by (apply Hp; set_solver).
  assert ((x =? mm_local_node_id (v_mgr v)) || negb (is_node_active (v_mgr v) (v_shm v) x) = true) as ->.
  { revert Hx. unfold polled. by destruct (x =? _), (is_node_active _ _ _). }
  apply IH. set_solver.
Qed.

Definition node_capacity_ok (capacity_mb : Z) (ssd : option SsdStreamingConfig) : Prop :=
  match ssd with
  | None => capacity_ok capacity_mb default_ssd_config SharedMemory
  | Some c => sc_capacity_bytes c ≠ 0 ∧ capacity_ok capacity_mb c SsdStream
  end.

Lemma initialized_chan k s d : is_node s → is_node d → chan (initialized_header k) s d = [].
Proof.
  intros Hs Hd. unfold chan, initialized_header. cbn [g_queues]. destruct (_ !! _) as [q|] eqn:E; [|done].
  apply list_elem_of_lookup_2, elem_of_replicate in E as [-> _]. done.
Qed.

Lemma nodes_chan g g' s d : g_queues g' = g_queues g → chan g' s d = chan g s d.
Proof. intros Hq. unfold chan. by rewrite Hq. Qed.

Lemma register_handlers ts m :
  ∃ h, List.fold_left (λ m t, register_handler t m) ts m = set_handlers h m ∧ list_to_set ts ∪ mm_handlers m ⊆ h.
Proof.
  revert m. induction ts as [|t ts IH]; intros m; cbn [List.fold_left].
  - exists (mm_handlers m). split; [by destruct m|set_solver].
  - destruct (IH (register_handler t m)) as (h & -> & Hh). exists h. split; [done|]. cbn [register_handler set_handlers mm_handlers] in Hh. set_solver.
Qed.

Lemma setup_handlers m : ∃ h, setup_message_handlers m = set_handlers h m ∧ list_to_set handled_types ⊆ h.
Proof. destruct (register_handlers handled_types m) as (h & He & Hh). exists h. split; [exact He|set_solver]. Qed.

(** The range of a node alone sends every address to the node itself. *)
Lemma own_range_only d base size n addr nd :
  nd_hdm_decoder nd = add_range (HDMDecoder_new RANGE_BASED) base size n d → nd_node_id nd = n → served_here nd addr = true.
Proof.
  intros Hd Hn. unfold served_here, get_node_for_address. pose proof (get_home_node_target (nd_hdm_decoder nd) addr) as Ht.
  rewrite Hd in Ht at 2. cbn in Ht. rewrite Hn. apply elem_of_cons in Ht as [->|Ht]; [by rewrite Z.eqb_refl, !orb_true_r|].
  apply list_elem_of_singleton in Ht as ->. by rewrite Z.eqb_refl.
Qed.

Lemma register_self now info m g :
  manages m (ni_node_id info) → seg_inv g →
  ∃ g', register_node now info m g = (true, g') ∧ seg_inv g' ∧ g_queues g' = g_queues g ∧ ns_state (status_of g' (ni_node_id info)) = NODE_STATE_READY.
Proof.
  intros (_ & Hn & Hm) Hi. destruct (register_node now info m g) as [ok g'] eqn:E. pose proof E as [Hi' Hq]%register_inv; [|done].
  revert E. unfold register_node. rewrite Hm. cbn [negb orb]. destruct (_ <=? _) eqn:El; btests; [unfold is_node in Hn; lia|]. intros [= <- <-].
  eexists. split_and!; [reflexivity|done..|]. unfold status_of, set_nodes. cbn [g_nodes]. rewrite list_lookup_alter_eq.
  destruct (lookup_lt_is_Some_2 (g_nodes g) (Z.to_nat (ni_node_id info))) as [st ->]; [rewrite (si_nodes _ Hi); unfold is_node, DIST_MAX_NODES in Hn; lia|]. done.
Qed.

Lemma register_other now info m g x :
  is_node x → is_node (ni_node_id info) → x ≠ ni_node_id info → status_of (register_node now info m g).2 x = status_of g x.
Proof.
  intros Hx Hn Hne. unfold register_node. destruct (_ || _); [done|]. unfold status_of, set_nodes. cbn [snd g_nodes].
  by rewrite list_lookup_alter_ne by (unfold is_node in *; lia).
Qed.

Lemma initialized_status k x : status_of (initialized_header k) x = zero_status.
Proof.
  unfold status_of, initialized_header. cbn [g_nodes]. destruct (replicate 16 zero_status !! Z.to_nat x) as [st|] eqn:E; [|done].
  by apply list_elem_of_lookup_2, elem_of_replicate in E as [-> _].
Qed.

(** The configuration of a node is valid and the calls to the system succeed. *)
Record start_ok (env : InitEnv) (c : NodeConfig) : Prop := {
  so_node : is_node (cf_node_id c);
  so_capacity : node_capacity_ok (cf_capacity_mb c) (cf_ssd c);
  so_os : SharedMem.env_ok (ie_os env) false (cf_capacity_mb c * 1048576);
  so_memory : (SharedMem.initialize (ie_os env) (local_manager env c)).1 = true;
  so_shm : se_open (ie_shm env) = true ∧ se_truncate (ie_shm env) = true ∧ se_mmap (ie_shm env) = true
}.

(** A node that has opened the segment. *)
Record prepared (env : InitEnv) (c : NodeConfig) (mem : SharedMemoryManager) (m : Manager) : Prop := {
  pp_node : is_node (cf_node_id c);
  pp_memory : shm_inv mem;
  pp_manages : manages m (cf_node_id c);
  pp_next : mm_next_msg_id m = 1;
  pp_pending : mm_pending_requests m = ∅
}.

Lemma node_memory_ok env c mem :
  node_capacity_ok (cf_capacity_mb c) (cf_ssd c) → SharedMem.env_ok (ie_os env) false (cf_capacity_mb c * 1048576) →
  SharedMem.initialize (ie_os env) (local_manager env c) = (true, mem) → shm_inv mem.
Proof.
  unfold local_manager. intros Hc He. destruct (cf_ssd c) as [ssd|]; cbn in Hc.
  - destruct Hc as [Hne%Z.eqb_neq Hc]. rewrite Hne. unfold SharedMemoryManager_ssd. rewrite Hne. by apply initialize_ssd_inv.
  - by apply initialize_mapped_inv.
Qed.

(** The first node creates the segment, the others find it. *)
Lemma prepare_ok env c g :
  start_ok env c → cf_node_id c = 0 ∨ is_Some g →
  ∃ mem m, prepare_node env c g = (Some (initialized_header (cf_node_id c)), Some (mem, m)) ∧ prepared env c mem m.
Proof.
  intros [Hn Hc He Hmem (Ho & Ht & Hmm)] Hg. unfold prepare_node. destruct (SharedMem.initialize _ _) as [ok mem0] eqn:Em. cbn [fst] in Hmem. subst ok.
  pose proof (set_base_addr_inv (u64 (cf_node_id c * cf_capacity_mb c * 1048576)) mem0 (node_memory_ok env c mem0 Hc He Em) (u64_range _)) as Hi.
  unfold DistMsg.initialize. rewrite Ho, Ht, Hmm. rewrite !andb_false_r. cbn [negb].
  assert (negb (cf_node_id c =? 0) && (false || bool_decide (g = None)) = false) as ->.
  { destruct Hg as [->|[g0 ->]]; [done|]. by rewrite andb_false_r. }
  eexists _, _. split; [reflexivity|]. by split.
Qed.

Lemma prepare_all_ok `{CastUB} cs g :
  Forall (λ p, start_ok p.1 p.2) cs → match cs with (_, c) :: _ => cf_node_id c = 0 ∨ is_Some g | [] => ∃ k, g = Some (initialized_header k) end →
  ∃ l k, prepare_all cs g = Some (l, Some (initialized_header k)) ∧ l.*1 = cs ∧ Forall (λ p, prepared p.1.1 p.1.2 p.2.1 p.2.2) l.
Proof.
  intros Hok. revert g. induction Hok as [|[env c] cs Hc Hok IH]; intros g Hg; cbn [prepare_all]; [destruct Hg as [k ->]; by exists [], k|].
  destruct (prepare_ok env c g Hc Hg) as (mem & m & -> & Hp). destruct (IH (Some (initialized_header (cf_node_id c)))) as (l & k & -> & Hl & Hpl).
  - destruct cs as [|[env' c'] cs]; [by eexists|by right].
  - cbn [mbind option_bind]. eexists _, k. split; [reflexivity|]. cbn. rewrite Hl. split; [done|]. by constructor.
Qed.

(** A node that enrols among nodes that are at rest. *)
Lemma enrol_ok `{CastUB} env c mem m g :
  prepared env c mem m → seg_inv g →
  ∃ g' m' nd, (enrol_node env c mem m g).2 = Some (mkView g' m' nd) ∧ host_ok (cf_node_id c) m' nd ∧ seg_inv g' ∧ g_queues g' = g_queues g ∧
    ns_state (status_of g' (cf_node_id c)) = NODE_STATE_READY ∧
    (∀ x, is_node x → x ≠ cf_node_id c → status_of g' x = status_of g x) ∧
    mm_pending_requests m' = ∅ ∧ list_to_set handled_types ⊆ mm_handlers m' ∧ ∀ addr, served_here nd addr = true.
Proof.
  intros [Hn Hmem Hm Hnx Hp] Hi. unfold enrol_node. set (info := own_info _ _ _).
  pose proof (λ x Hx Hne, register_other (ie_now env) info m g x Hx Hn Hne) as Hoth.
  destruct (register_self (ie_now env) info m g Hm Hi) as (g2 & Hreg & Hi2 & Hq2 & Hst). rewrite Hreg in *. cbn [snd] in *.
  destruct (setup_handlers m) as (hs & -> & Hhs). eexists _, _, _. split; [reflexivity|].
  split_and!; [|done|done|done|done|by destruct m|done|intros addr; by eapply own_range_only].
  split; [by destruct m|cbn; by rewrite Hnx|]. split; [done|done|done|apply CoherencyEngine_new_inv|done| |done]. cbn. repeat constructor. apply Hn.
Qed.

(** The nodes that have enrolled are at rest, and the others are not registered. *)
Record forming (C : Cluster) : Prop := {
  fo_quiet : quiet C;
  fo_nodes : ∀ n m nd, cl_hosts C !! n = Some (m, nd) → is_node n ∧ ns_state (status_of (cl_shm C) n) = NODE_STATE_READY ∧ ∀ addr, served_here nd addr = true;
  fo_others : ∀ n, is_node n → cl_hosts C !! n = None → status_of (cl_shm C) n = zero_status
}.

Lemma empty_forming k : forming {| cl_shm := initialized_header k; cl_hosts := ∅ |}.
Proof.
  split; [split; [split|..]|..]; cbn [cl_shm cl_hosts]; try (intros n m nd Hl; by rewrite lookup_empty in Hl).
  - apply initialized_inv.
  - intros s d Hs Hd. cbn [cl_shm]. by rewrite initialized_chan.
  - apply initialized_chan.
  - intros n _ _. apply initialized_status.
Qed.

Lemma enrol_forming `{CastUB} env c mem m C :
  prepared env c mem m → forming C → cl_hosts C !! cf_node_id c = None →
  ∃ v, (enrol_node env c mem m (cl_shm C)).2 = Some v ∧ forming (put_view (cf_node_id c) v C).
Proof.
  intros Hp [Hq Hns Hot] Hnew. pose proof (qt_inv _ Hq) as Hcv. destruct (enrol_ok env c mem m (cl_shm C) Hp (cv_seg _ Hcv))
    as (g' & m' & nd & Hen & Hho & Hsi & Hqu & Hst & Hsame & Hpe & Hha & Hse). exists (mkView g' m' nd). split; [done|].
  assert (∀ s d, is_node s → is_node d → chan g' s d = []) as Hch by (intros s d Hs Hd; rewrite (nodes_chan (cl_shm C)) by done; by apply (qt_chan _ Hq)).
  assert (∀ n mn ndn, cl_hosts (put_view (cf_node_id c) (mkView g' m' nd) C) !! n = Some (mn, ndn) →
    n = cf_node_id c ∧ mn = m' ∧ ndn = nd ∨ n ≠ cf_node_id c ∧ cl_hosts C !! n = Some (mn, ndn)) as Hcase.
  { intros n mn ndn. unfold put_view. cbn [cl_hosts v_mgr v_node]. intros [[<- [= <- <-]]|[Hne Hl]]%lookup_insert_Some; [by left|by right]. }
  assert (∀ n mn ndn, cl_hosts (put_view (cf_node_id c) (mkView g' m' nd) C) !! n = Some (mn, ndn) →
    is_node n ∧ ns_state (status_of g' n) = NODE_STATE_READY ∧ ∀ addr, served_here ndn addr = true) as Hns'.
  { intros n mn ndn [(-> & -> & ->)|[Hne Hl]]%Hcase; [split_and!; [apply Hp|done|done]|].
    destruct (Hns n mn ndn Hl) as (Hn & Hs & Hv). by rewrite Hsame. }
  split; [split; [split|..]|..]; cbn [cl_shm put_view v_shm]; try done.
  - intros s d Hs Hd. by rewrite Hch.
  - intros n mn ndn [(-> & -> & ->)|[Hne Hl]]%Hcase; [done|]. by apply (cv_hosts _ Hcv).
  - intros n mn ndn Hl. left. by eapply Hns'.
  - intros n mn ndn [(-> & -> & ->)|[Hne Hl]]%Hcase; [done|]. by eapply (qt_hosts _ Hq).
  - intros n Hn Hl. cbn [cl_hosts put_view] in Hl. apply lookup_insert_None in Hl as [Hl Hne]. rewrite Hsame by done. by apply Hot.
Qed.

Lemma enrol_all_forming `{CastUB} l C :
  Forall (λ p, prepared p.1.1 p.1.2 p.2.1 p.2.2) l → NoDup ((λ p, cf_node_id p.1.2) <$> l) →
  (∀ p, p ∈ l → cl_hosts C !! cf_node_id p.1.2 = None) → forming C →
  ∃ C', enrol_all l C = Some C' ∧ forming C' ∧
    ∀ n, is_Some (cl_hosts C' !! n) ↔ is_Some (cl_hosts C !! n) ∨ n ∈ (λ p, cf_node_id p.1.2) <$> l.
Proof.
  intros Hp. revert C. induction Hp as [|[[env c] [mem m]] l Hpc Hp IH]; intros C Hnd Hfree HC; cbn [enrol_all].
  { exists C. split; [done|]. split; [done|]. intros n. cbn. set_solver. }
  rewrite fmap_cons in Hnd. apply NoDup_cons in Hnd as [Hnew Hnd]. cbn [fst snd] in *.
  destruct (enrol_forming env c mem m C Hpc HC) as (v & -> & HC1); [by apply (Hfree (env, c, (mem, m))); left|].
  destruct (IH (put_view (cf_node_id c) v C) Hnd) as (C' & -> & HC' & Hdom); [|done|].
  - intros p Hin. cbn [cl_hosts put_view]. rewrite lookup_insert_ne; [apply Hfree; by right|]. intros Heq. apply Hnew. apply list_elem_of_fmap. by exists p.
  - exists C'. split; [done|]. split; [done|]. intros n. rewrite Hdom, fmap_cons, elem_of_cons. cbn [cl_hosts put_view fst snd].
    destruct (decide (n = cf_node_id c)) as [->|Hne]; [rewrite lookup_insert_eq; naive_solver|rewrite lookup_insert_ne by done; naive_solver].
Qed.

(** Nodes learn the range of another node. *)
Lemma quiet_route `{CastUB} C n v base size t remote :
  quiet C → view_of n C = Some v → 0 <= t →
  quiet (put_view n (mkView (v_shm v) (v_mgr v) (set_decoder (add_range (nd_hdm_decoder (v_node v)) base size t remote) (v_node v))) C).
Proof.
  intros Hq Hv Ht. pose proof (qt_inv _ Hq) as Hcv. pose proof (route_view base size t remote n v (view_of_ok n C v Hcv Hv) Ht) as Hok.
  unfold view_of in Hv. destruct (cl_hosts C !! n) as [[m nd]|] eqn:En; [|done]. injection Hv as <-. cbn [v_shm v_mgr v_node] in *.
  split; [by apply put_view_inv|apply Hq|..]; intros x mx ndx; unfold put_view; cbn [cl_hosts v_mgr v_node];
    intros [[<- [= <- <-]]|[Hne Hl]]%lookup_insert_Some; by (eapply (qt_active C Hq) || eapply (qt_hosts C Hq)).
Qed.

(** ** Theorems *)


(** C2. In a cluster at rest that serves one request after another, a write that succeeds
    through any node is seen through every node that has the same home for the
    address, after any number of further requests that are reads or have another
    home: a read that succeeds returns the bytes that were written, and it does
    succeed unless the home keeps its memory on an SSD. *)
Theorem cluster_write_read `{CastUB} env menv menv' C a ma nda c mc ndc req mh ndh :
  quiet C → cl_hosts C !! a = Some (ma, nda) → cl_hosts C !! c = Some (mc, ndc) → wf_request req → dq_op_type req = DIST_OP_WRITE →
  op_env_ok env → (∀ i, env_ok (menv i)) → home req nda = home req ndc → cl_hosts C !! home req nda = Some (mh, ndh) →
  ∃ resp C1, call env menv menv' a req C = Some (resp, C1) ∧ quiet C1 ∧
    (dp_status resp = 0 → ∀ C2, rtc (other_call (home req nda)) C1 C2 →
     ∃ resp' C3, call env menv menv' c (as_read req) C2 = Some (resp', C3) ∧ quiet C3 ∧
      (dp_status resp' = 0 → dp_data resp' = pad (client_data req)) ∧
      (sm_backing_mode (nd_local_memory ndh) ≠ SsdStream → dp_status resp' = 0)).
Proof.
  intros Hq Ha Hc Hw Hop He Hm Hhome Hh.
  destruct (request_reaches env menv menv' C a ma nda req mh ndh Hq Ha Hw He Hm) as (resp & C1 & Hcall & Hr & Hap); [unfold is_access; by rewrite Hop|done|].
  destruct (applied_host C C1 _ mh ndh req c mc ndc Hq Hw Hh Hap Hc) as (mc' & ndc' & Hc' & Hroute). pose proof Hap as [Hq1 (mh' & ndh' & Hh' & Hmem) _].
  exists resp, C1. split; [done|]. split; [done|]. intros Hst C2 Hrest. apply response_status in Hr as [Hs0 _]. rewrite Hs0 in Hst.
  destruct (other_calls_undisturbed _ _ _ Hrest Hq1) as [Hq2 Hund].
  destruct (Hund c mc' ndc' Hc') as (mc2 & ndc2 & Hc2 & Hr2 & _). destruct (Hund _ mh' ndh' Hh') as (mh2 & ndh2 & Hh2 & _ & Hb2).
  assert (home (as_read req) ndc2 = home req nda) as Hhome2 by by rewrite Hr2, Hroute, as_read_home.
  destruct (request_reaches env menv menv' C2 c mc2 ndc2 (as_read req) mh2 ndh2 Hq2 Hc2 (as_read_wf req Hw) He Hm) as (resp' & C3 & Hcall' & Hr' & Hap');
    [done|by rewrite Hhome2|].
  exists resp', C3. split; [done|]. split; [apply Hap'|]. apply response_status in Hr' as [-> ->].
  apply direct_write_read; [exact (host_memory _ _ _ _ Hq Hh)|done|done|done|]. rewrite <- Hmem. by apply Hb2.
Qed.

(** C3. Safety of every interleaving: whatever the nodes of a well-formed cluster do, in
    any order, its segment, its managers and its nodes stay well formed; polls,
    responses, heartbeats and departures never reach undefined behaviour, and a
    request of a client reaches it exactly when it reads or writes the label storage
    area at an offset whose sum with the size wraps around, or makes that area grow
    when no memory can be had ([lsa_undefined]). *)
Theorem cluster_safe `{CastUB} C C' n v :
  cluster_inv C → rtc cluster_step C C' → view_of n C' = Some v →
  cluster_inv C' ∧
  (∀ env max, (∀ i, env_ok (env i)) → is_Some (poll_messages env max v)) ∧
  (∀ env req, op_env_ok env → wf_request req → client_request env req v = None ↔ lsa_undefined env req (v_node v)) ∧
  (∀ req b msg, wf_request req → is_Some (client_response req b msg v)) ∧
  (∀ now now', is_Some (heartbeat_round now now' v)) ∧ (∀ now, is_Some (leave_cluster now v)).
Proof.
  intros Hi Hr Hv. apply cluster_run_inv in Hr; [|done]. pose proof (view_of_ok n C' v Hr Hv) as Hok. split_and!; [done|..].
  - intros env max He. destruct (poll_view env max n v Hok He) as (? & ? & -> & _). done.
  - intros env req He Hw. by apply (client_request_ok env req n v Hok He Hw).
  - intros req b msg Hw. destruct (client_response_ok req b msg n v Hok Hw) as (? & ? & -> & _). done.
  - intros now now'. destruct (heartbeat_view now now' n v Hok) as (? & -> & _). done.
  - intros now. destruct (leave_view now n v Hok) as (? & -> & _). done.
Qed.

(** C40. Nodes whose starts overlap form a cluster: when node 0 and then the others
    open the segment, each of them clearing it, before the first one registers, and
    they then enrol in any order, the calls to the system succeeding, all of them
    become nodes of one cluster at rest, as [call_transparent] needs it: every node
    sees exactly these nodes as active, no message is on the way, and all of them
    handle every kind of request.  Reads and writes of a node stay in its own memory
    until ranges of other nodes are added. *)
Theorem cluster_forms `{CastUB} env0 c0 cs g :
  Forall (λ p, start_ok p.1 p.2) ((env0, c0) :: cs) → cf_node_id c0 = 0 → NoDup ((λ p, cf_node_id p.2) <$> (env0, c0) :: cs) →
  let ids := (λ p, cf_node_id p.2) <$> (env0, c0) :: cs in
  ∃ l g1, prepare_all ((env0, c0) :: cs) g = Some (l, Some g1) ∧ l.*1 = (env0, c0) :: cs ∧
    ∀ l', l' ≡ₚ l → ∃ C, enrol_all l' {| cl_shm := g1; cl_hosts := ∅ |} = Some C ∧ quiet C ∧
      (∀ n, is_Some (cl_hosts C !! n) ↔ n ∈ ids) ∧
      ∀ n m nd, cl_hosts C !! n = Some (m, nd) →
        (∀ x, is_node x → is_node_active m (cl_shm C) x = bool_decide (x ∈ ids)) ∧ ∀ addr, served_here nd addr = true.
Proof.
  intros Hok H0 Hnd ids. destruct (prepare_all_ok ((env0, c0) :: cs) g Hok) as (l & k & Hpr & Hl & Hp); [by left|].
  exists l, (initialized_header k). split; [done|]. split; [done|]. intros l' Hl'.
  assert ((λ p, cf_node_id p.1.2) <$> l = ids) as Hids by (unfold ids; by rewrite <- Hl, <- list_fmap_compose).
  assert ((λ p, cf_node_id p.1.2) <$> l' ≡ₚ ids) as Hids' by (by rewrite Hl', Hids).
  destruct (enrol_all_forming l' {| cl_shm := initialized_header k; cl_hosts := ∅ |}) as (C & HC & [Hq Hns Hot] & Hdom);
    [by rewrite Hl'|by rewrite Hids'|by intros|apply empty_forming|].
  assert (∀ n, is_Some (cl_hosts C !! n) ↔ n ∈ ids) as Hdom'.
  { intros n. rewrite Hdom, Hids'. cbn [cl_hosts]. rewrite lookup_empty. split; [intros [[? ?]|?]; done|by right]. }
  exists C. split; [done|]. split; [done|]. split; [done|]. intros n m nd Hn. split; [|by apply (Hns n m nd)]. intros x Hx.
  destruct (ho_manages _ _ _ (cv_hosts _ (qt_inv _ Hq) n m nd Hn)) as (_ & _ & Hmap). unfold is_node_active. rewrite Hmap.
  rewrite (proj2 (Z.leb_gt DIST_MAX_NODES x)) by (unfold is_node in Hx; lia). cbn [negb orb].
  destruct (cl_hosts C !! x) as [[mx ndx]|] eqn:Ex.
  - destruct (Hns x mx ndx Ex) as (_ & -> & _). rewrite bool_decide_true; [done|]. apply Hdom'. by rewrite Ex.
  - rewrite (Hot x Hx Ex). rewrite bool_decide_false; [done|]. intros Hin%Hdom'. rewrite Ex in Hin. by destruct Hin.
Qed.

(** Failure detection: a round of heartbeats marks another node as offline
    when its last heartbeat is not from the last ten seconds, a heartbeat
    that is newer than the clock the round has read included; it changes
    nothing else in the registry. *)
Theorem heartbeat_detects `{CastUB} now now' n v id i :
  view_ok n v → nd_nodes (v_node v) !! id = Some i → is_u64 now' → is_u64 (ni_last_heartbeat i) → ni_last_heartbeat i < now' + 2 ^ 63 →
  ∃ v' i', heartbeat_round now now' v = Some v' ∧ nd_nodes (v_node v') !! id = Some i' ∧
    i' = set_info (ni_state i') (ni_last_heartbeat i) i ∧
    ni_state i' = if decide (id ≠ n ∧ ¬ (0 <= now' - ni_last_heartbeat i <= 10000000000)) then NODE_STATE_OFFLINE else ni_state i.
Proof.
  intros Hv Hi Hn Hl Hlt. pose proof (ho_node _ _ _ (vo_host _ _ Hv)) as Hnd. unfold heartbeat_round.
  destruct (heartbeat_ok now (v_mgr v) n (v_shm v) (vo_seg _ _ Hv) (ho_manages _ _ _ (vo_host _ _ Hv))) as (g' & msg & -> & _). cbn [mbind option_bind].
  eexists _, (check_node now' n id i). split; [reflexivity|]. cbn [v_node set_registry nd_nodes]. rewrite map_lookup_imap, Hi, (nv_id _ _ Hnd).
  split; [done|]. unfold check_node. rewrite (u64_small now') by done. assert ((10000000000 <? now' -w ni_last_heartbeat i) =
    bool_decide (¬ (0 <= now' - ni_last_heartbeat i <= 10000000000))) as ->.
  { destruct (decide (ni_last_heartbeat i <= now')) as [Hle|Hgt].
    - rewrite u64_small by (unfold is_u64 in *; lia). destruct (_ <? _) eqn:E; btests; symmetry; [apply bool_decide_true|apply bool_decide_false]; lia.
    - rewrite bool_decide_true by lia. apply Z.ltb_lt. unfold u64. rewrite <- (Z_mod_plus_full _ 1), Z.mod_small by (unfold is_u64 in *; lia). unfold is_u64 in *. lia. }
  destruct (id =? n) eqn:Eid; btests; [rewrite decide_False by tauto; by destruct i|].
  destruct (bool_decide _) eqn:E; [apply bool_decide_eq_true in E; rewrite decide_True by tauto|apply bool_decide_eq_false in E; rewrite decide_False by tauto];
    cbn [andb]; [|by destruct i]. destruct (ni_state i =? NODE_STATE_OFFLINE) eqn:Es; btests; [by destruct i|done].
Qed.

(** ** Examples *)

#[local] Instance ex_node_cast : CastUB := λ _, 0.

Definition ex_init_env : InitEnv :=
  {| ie_os := SharedMem.ex_env None; ie_shm := {| se_open := true; se_truncate := true; se_mmap := true |}; ie_now := 3; ie_msync := [] |}.

(** Two nodes with a megabyte each, whose starts overlap; node 1 enrols first. *)
Definition ex_config (n : Z) : NodeConfig :=
  {| cf_node_id := n; cf_capacity_mb := 1; cf_tcp_port := 9990 + n; cf_dram := f64_of_Z 110; cf_logp := LogPModel_new LogPConfig_default; cf_ssd := None |}.

Definition ex_starts : list (InitEnv * NodeConfig) := [(ex_init_env, ex_config 0); (ex_init_env, ex_config 1)].

Definition ex_formed : Cluster :=
  let C0 := {| cl_shm := initialized_header 1; cl_hosts := ∅ |} in
  match prepare_all ex_starts None with Some (l, Some g) => default C0 (enrol_all (reverse l) {| cl_shm := g; cl_hosts := ∅ |}) | _ => C0 end.

(** Each node learns the range of the other one. *)
Definition ex_route (n : Z) (C : Cluster) : Cluster :=
  match view_of n C with
  | Some v => put_view n (mkView (v_shm v) (v_mgr v)
      (set_decoder (add_range (nd_hdm_decoder (v_node v)) ((1 - n) * 1048576) 1048576 (1 - n) true) (v_node v))) C
  | None => C
  end.

Definition ex_cluster : Cluster := ex_route 1 (ex_route 0 ex_formed).

(** A node that has not started. *)
Definition ex_new_node (n : Z) : Node :=
  {| nd_node_id := n; nd_tcp_port := 9990 + n; nd_local_memory := SharedMemoryManager_new 1 []; nd_coherency := CoherencyEngine_new n None 16;
     nd_hdm_decoder := HDMDecoder_new RANGE_BASED; nd_dramlatency := f64_of_Z 110; nd_nodes := ∅; nd_running := false; nd_state := 0;
     nd_lsa_data := ∅; nd_lsa_size := 262144; nd_stats := λ _, 0 |}.

Definition ex_manager (n : Z) : Manager := from_option fst (Manager_new n) (cl_hosts ex_cluster !! n).
Definition ex_node (n : Z) : Node := from_option snd (ex_new_node n) (cl_hosts ex_cluster !! n).

Definition ex_op_env : OpEnv := {| oe_now := 5; oe_coherency_now := 6; oe_stack := zero_message; oe_alloc := λ _, true; oe_partial := replicate 64 0 |}.
Definition ex_msg_env : nat → MsgEnv := λ _, {| me_now := 7; me_handler_now := 8; me_partial := replicate 64 0 |}.

(** Eight bytes for the memory of node 1. *)
Definition ex_remote_write : DistServerRequest :=
  {| dq_op_type := DIST_OP_WRITE; dq_addr := 1048640; dq_size := 8; dq_timestamp := 0; dq_value := 0; dq_expected := 0;
     dq_data := ex_bytes ++ replicate 56 0 |}.

Lemma ex_start_ok n : 0 <= n <= 2 → start_ok ex_init_env (ex_config n).
Proof.
  intros Hn. split; [unfold is_node, DIST_MAX_NODES; cbn; lia|exact ex_capacity_ok|apply SharedMem.ex_env_ok| |done]. by vm_compute.
Qed.

Lemma ex_starts_ok : Forall (λ p, start_ok p.1 p.2) ex_starts.
Proof. apply Forall_cons_2; [by apply ex_start_ok|]. apply Forall_cons_2; [by apply ex_start_ok|]. apply Forall_nil_2. Qed.

Lemma ex_formed_quiet : quiet ex_formed ∧ ∀ n, is_Some (cl_hosts ex_formed !! n) ↔ n = 0 ∨ n = 1.
Proof.
  unfold ex_formed. destruct (prepare_all_ok ex_starts None ex_starts_ok) as (l & k & -> & Hl & Hp); [by left|].
  assert ((λ p, cf_node_id p.1.2) <$> reverse l = [1; 0]) as Hids.
  { assert ((λ p, cf_node_id p.1.2) <$> l = (λ p, cf_node_id p.2) <$> ex_starts) as Hs by (by rewrite <- Hl, <- list_fmap_compose).
    by rewrite fmap_reverse, Hs. }
  destruct (enrol_all_forming (reverse l) {| cl_shm := initialized_header k; cl_hosts := ∅ |}) as (C & -> & [Hq _ _] & Hdom);
    [by apply Forall_reverse|rewrite Hids; apply NoDup_cons; split; [set_solver|apply NoDup_singleton]|done|apply empty_forming|].
  cbn [default from_option]. split; [exact Hq|]. intros n. rewrite Hdom, Hids. cbn [cl_hosts]. rewrite lookup_empty. split; [intros [[? ?]|?]; [done|set_solver]|set_solver].
Qed.

Lemma ex_route_quiet n C : quiet C → 0 <= 1 - n → quiet (ex_route n C).
Proof. intros Hq Hn. unfold ex_route. destruct (view_of n C) as [v|] eqn:E; [|done]. by apply quiet_route. Qed.

Lemma ex_route_hosts n C x : is_Some (cl_hosts C !! x) → is_Some (cl_hosts (ex_route n C) !! x).
Proof.
  intros Hx. unfold ex_route. destruct (view_of n C); [|done]. cbn [cl_hosts put_view]. destruct (decide (x = n)) as [->|Hne];
    [by rewrite lookup_insert_eq|by rewrite lookup_insert_ne].
Qed.

Lemma ex_quiet : quiet ex_cluster.
Proof. apply ex_route_quiet; [|done]. apply ex_route_quiet; [|done]. apply ex_formed_quiet. Qed.

Lemma ex_host n : n = 0 ∨ n = 1 → cl_hosts ex_cluster !! n = Some (ex_manager n, ex_node n).
Proof.
  intros Hn. unfold ex_manager, ex_node. destruct (ex_route_hosts 1 (ex_route 0 ex_formed) n) as [[m nd] Hl].
  - apply ex_route_hosts. by apply ex_formed_quiet.
  - unfold ex_cluster. by rewrite Hl.
Qed.

Lemma ex_remote_write_wf : wf_request ex_remote_write.
Proof. by vm_compute. Qed.


(** An atomic on the memory of node 0, made through node 1. *)
Definition ex_other_atomic : DistServerRequest :=
  {| dq_op_type := DIST_OP_ATOMIC_FAA; dq_addr := 128; dq_size := 8; dq_timestamp := 0; dq_value := 5; dq_expected := 0; dq_data := replicate 64 0 |}.

Lemma ex_other_atomic_wf : wf_request ex_other_atomic.
Proof. by vm_compute. Qed.

Lemma ex_cluster_env_ok i : env_ok (ex_msg_env i).
Proof. done. Qed.

(** Node 0 writes to the memory of node 1; after an atomic on the memory of node 0
    node 1 reads the bytes. *)
Lemma cluster_write_read_witness :
  ∃ resp C1 resp1 C2 resp' C3, call ex_op_env ex_msg_env ex_msg_env 0 ex_remote_write ex_cluster = Some (resp, C1) ∧ dp_status resp = 0 ∧
    call ex_op_env ex_msg_env ex_msg_env 1 ex_other_atomic C1 = Some (resp1, C2) ∧ dp_status resp1 = 0 ∧
    call ex_op_env ex_msg_env ex_msg_env 1 (as_read ex_remote_write) C2 = Some (resp', C3) ∧
    dp_status resp' = 0 ∧ dp_data resp' = ex_bytes ++ replicate 56 0.
Proof.
  assert (home ex_remote_write (ex_node 0) = 1) as Hh by by vm_compute.
  destruct (cluster_write_read ex_op_env ex_msg_env ex_msg_env ex_cluster 0 (ex_manager 0) (ex_node 0) 1 (ex_manager 1) (ex_node 1) ex_remote_write
    (ex_manager 1) (ex_node 1)) as (resp & C1 & H1 & H2 & H3);
    [exact ex_quiet|apply ex_host; auto|apply ex_host; auto|exact ex_remote_write_wf|done|done|done|by vm_compute|rewrite Hh; apply ex_host; auto|].
  assert (match call ex_op_env ex_msg_env ex_msg_env 0 ex_remote_write ex_cluster with
    | Some (resp, C1) => (dp_status resp =? 0) && match call ex_op_env ex_msg_env ex_msg_env 1 ex_other_atomic C1 with
        | Some (resp1, _) => dp_status resp1 =? 0 | None => false end &&
        match cl_hosts C1 !! 0, cl_hosts C1 !! 1 with Some _, Some (_, n1) => home ex_other_atomic n1 =? 0 | _, _ => false end
    | None => false end = true) as Hrun by by vm_compute.
  rewrite H1 in Hrun. apply andb_prop in Hrun as [[Hs Hc]%andb_prop Hn]. apply Z.eqb_eq in Hs.
  destruct (call ex_op_env ex_msg_env ex_msg_env 1 ex_other_atomic C1) as [[resp1 C2]|] eqn:E1; [|done]. apply Z.eqb_eq in Hc.
  destruct (cl_hosts C1 !! 0) as [[m0 n0]|] eqn:E0; [|done]. destruct (cl_hosts C1 !! 1) as [[m1 n1]|] eqn:En1; [|done]. apply Z.eqb_eq in Hn.
  destruct (H3 Hs C2) as (resp' & C3 & H4 & _ & H5 & H6).
  { apply rtc_once. rewrite Hh. apply (oc_call 1 C1 ex_op_env ex_msg_env ex_msg_env 1 m1 n1 ex_other_atomic m0 n0 resp1).
    - exact En1.
    - exact ex_other_atomic_wf.
    - reflexivity.
    - intros i. apply ex_cluster_env_ok.
    - reflexivity.
    - rewrite Hn. exact E0.
    - right. rewrite Hn. discriminate.
    - exact E1. }
  exists resp, C1, resp1, C2, resp', C3. split; [exact H1|]. split; [exact Hs|]. split; [exact E1|]. split; [exact Hc|]. split; [exact H4|].
  assert (dp_status resp' = 0) as Hst by (apply H6; by vm_compute). split; [exact Hst|]. exact (H5 Hst).
Defined.

Definition ex_view (n : Z) : View Node := mkView (cl_shm ex_cluster) (ex_manager n) (ex_node n).

Lemma ex_view_of n : n = 0 ∨ n = 1 → view_of n ex_cluster = Some (ex_view n).
Proof. intros Hn. unfold view_of. by rewrite ex_host. Qed.

Lemma ex_view_ok n : n = 0 ∨ n = 1 → view_ok n (ex_view n).
Proof. intros Hn. eapply view_of_ok; [apply ex_quiet|by apply ex_view_of]. Qed.

(** A read of the label storage area across the end of the address space. *)
Definition ex_wrapping : DistServerRequest :=
  {| dq_op_type := DIST_OP_LSA_READ; dq_addr := UINT64_MAX; dq_size := 8; dq_timestamp := 0; dq_value := 0; dq_expected := 0; dq_data := replicate 64 0 |}.

Lemma ex_wrapping_wf : wf_request ex_wrapping.
Proof. by vm_compute. Qed.

(** Node 0 has forwarded its request and node 1 has not yet polled. *)
Lemma cluster_safe_witness :
  ∃ C' v, rtc cluster_step ex_cluster C' ∧ view_of 1 C' = Some v ∧ cluster_inv C' ∧ is_Some (poll_messages ex_msg_env 100 v) ∧
    client_request ex_op_env ex_remote_write v ≠ None ∧ client_request ex_op_env ex_wrapping v = None.
Proof.
  destruct (client_request ex_op_env ex_remote_write (ex_view 0)) as [[ans v0]|] eqn:E.
  - set (C' := put_view 0 v0 ex_cluster). set (v := mkView (v_shm v0) (ex_manager 1) (ex_node 1)).
    assert (rtc cluster_step ex_cluster C') as Hr.
    { apply rtc_once. eapply cs_node; [by apply ex_view_of; left|]. eapply ns_request; [|exact ex_remote_write_wf|exact E]. reflexivity. }
    assert (view_of 1 C' = Some v) as Hv.
    { unfold view_of, C', put_view. cbn [cl_hosts cl_shm]. rewrite lookup_insert_ne by discriminate. by rewrite ex_host by (by right). }
    destruct (cluster_safe ex_cluster C' 1 v (qt_inv _ ex_quiet) Hr Hv) as (Hi & Hp & Hc & _).
    exists C', v. split; [exact Hr|]. split; [exact Hv|]. split; [exact Hi|]. split; [apply Hp, ex_cluster_env_ok|]. split.
    + intros Hn. apply Hc in Hn; [|reflexivity|exact ex_remote_write_wf]. by destruct Hn as [[? _]|[? _]].
    + apply Hc; [reflexivity|exact ex_wrapping_wf|]. left. split; [reflexivity|]. vm_compute. discriminate.
  - exfalso. destruct (client_request_ok ex_op_env ex_remote_write 0 (ex_view 0)) as [[Hd _] _];
      [by apply ex_view_ok; left|reflexivity|exact ex_remote_write_wf|]. by destruct (Hd E) as [[? _]|[? _]].
Defined.

(** Node 2 takes part as well; the nodes enrol in the order 2, 0, 1. *)
Lemma cluster_forms_witness :
  let cs := [(ex_init_env, ex_config 0); (ex_init_env, ex_config 1); (ex_init_env, ex_config 2)] in
  ∃ l C, prepare_all cs None = Some (l, Some (initialized_header 2)) ∧ quiet C ∧ (∀ n, is_Some (cl_hosts C !! n) ↔ n ∈ [0; 1; 2]) ∧
    (p2 ← l !! 2%nat; p0 ← l !! 0%nat; p1 ← l !! 1%nat; enrol_all [p2; p0; p1] {| cl_shm := initialized_header 2; cl_hosts := ∅ |}) = Some C.
Proof.
  intros cs. destruct (cluster_forms ex_init_env (ex_config 0) [(ex_init_env, ex_config 1); (ex_init_env, ex_config 2)] None)
    as (l & g1 & Hpr & Hl & Hen).
  - repeat (apply Forall_cons_2; [apply ex_start_ok; cbn; lia|]). apply Forall_nil_2.
  - reflexivity.
  - cbn. by apply (bool_decide_eq_true_1 (NoDup [0; 1; 2])).
  - assert (length l = 3%nat) as Hlen by (rewrite <- (length_fmap fst), Hl; done). destruct l as [|p0 [|p1 [|p2 [|]]]]; try discriminate Hlen.
    destruct (Hen [p2; p0; p1]) as (C & HC & Hq & Hdom & _).
    { rewrite (Permutation_app_comm [p2] [p0; p1]). reflexivity. }
    assert (snd <$> prepare_all cs None = Some (Some (initialized_header 2))) as Hg by (by vm_compute). unfold cs in Hg. rewrite Hpr in Hg. injection Hg as ->.
    exists [p0; p1; p2], C. split; [exact Hpr|]. split; [exact Hq|]. split; [exact Hdom|]. exact HC.
Defined.

(** What node [n] starts with when the segment exists already. *)
Definition ex_start (n : Z) : option dist_shm_header * option (View Node) := initialize_node ex_init_env (ex_config n) (Some ex_seg).

(** Node 1 has heard from node 0 at time 7; at time 6 of its own clock that is not yet so. *)
Definition ex_hearing : View Node := mkView (cl_shm ex_cluster) (ex_manager 1) (add_remote_node (set_info NODE_STATE_READY 7 (ex_info 0)) (ex_node 1)).

Lemma heartbeat_detects_witness :
  ∃ v' i', heartbeat_round 5 6 ex_hearing = Some v' ∧ nd_nodes (v_node v') !! 0 = Some i' ∧ ni_state i' = NODE_STATE_OFFLINE.
Proof.
  destruct (heartbeat_detects 5 6 1 ex_hearing 0 (set_info NODE_STATE_READY 7 (ex_info 0))) as (v' & i' & H1 & H2 & _ & H3); [|done|done|done|done|].
  - apply (view_served 1 (ex_view 1)); [by apply ex_view_ok; right|]. eapply registry_served, (ho_node _ _ _ (vo_host _ _ (ex_view_ok 1 ltac:(by right)))).
  - exists v', i'. split; [exact H1|]. split; [exact H2|]. rewrite H3. by vm_compute.
Defined.

(** ** Observations *)

(** A manager takes every message with the identifier of a request that waits
    for the response, and all managers count from 1.  So when two nodes read from
    each other, both reads succeed with zeros, and neither is served. *)
Theorem crossed_reads `{CastUB} env n v req p b ts addr size k :
  mm_pending_requests (v_mgr v) !! msg_id (header req) = Some p → 0 <= k <= 64 →
  let msg := message DIST_MSG_READ_REQ (msg_id (header req)) b n ts (read_payload addr size b) in
  ∃ v1 lat v2, process_message env msg v = Some v1 ∧ v_shm v1 = v_shm v ∧ v_node v1 = v_node v ∧
    forward_read_end b k req v1 = Some (Done (replicate (Z.to_nat k) 0, lat), v2).
Proof.
  intros Hp Hk msg. unfold process_message. change (msg_id (header msg)) with (msg_id (header req)). rewrite Hp.
  set (pend := <[_ := _]> _). exists (mkView (v_shm v) (set_pending pend (v_mgr v)) (v_node v)).
  assert (pend !! msg_id (header req) = Some {| pr_response := msg; pr_completed := true |}) as Hl by apply lookup_insert_eq.
  unfold forward_read_end, request_end. cbn [v_mgr v_shm v_node set_pending mm_pending_requests]. rewrite Hl. cbn [pr_completed pr_response].
  assert (get_field mem_status (payload msg) = 0) as ->.
  { change (payload msg) with (read_payload addr size b). unfold read_payload. by payload_simpl. }
  destruct (64 <? k) eqn:E; btests; [lia|]. cbn [negb Z.eqb]. destruct (network_latency _ _ _ _) as [lat nd1].
  eexists lat, _. split; [reflexivity|]. split; [reflexivity|]. split; [reflexivity|]. do 3 f_equal.
  change (payload msg) with (read_payload addr size b). unfold read_payload.
  rewrite !bytes_other by (auto 10 with cxl; unfold mem_data; simpl; lia). unfold get_bytes, zero_payload.
  rewrite drop_replicate, take_replicate. do 2 f_equal. unfold mem_data. lia.
Qed.

(** Node 0 waits for the answer to its first message; the first message of node 1 arrives. *)
Lemma crossed_reads_witness :
  let req := message DIST_MSG_READ_REQ 1 0 1 5 (read_payload 1048640 8 0) in
  let v := mkView ex_seg (set_pending {[ 1 := {| pr_response := zero_message; pr_completed := false |} ]} (ex_manager 0)) (ex_node 0) in
  ∃ v1 lat v2, process_message (ex_msg_env 0%nat) (message DIST_MSG_READ_REQ 1 1 0 5 (read_payload 64 8 1)) v = Some v1 ∧ v_shm v1 = v_shm v ∧
    v_node v1 = v_node v ∧ forward_read_end 1 8 req v1 = Some (Done (replicate 8 0, lat), v2).
Proof.
  intros req v. apply (crossed_reads (ex_msg_env 0%nat) 0 v req {| pr_response := zero_message; pr_completed := false |} 1 5 64 8 8); [done|lia].
Defined.

(** A node that starts resets the segment and registers only itself.  Until
    another node registers again it polls none of them, so what they send it
    waits, and their requests time out. *)
Theorem started_node_deaf `{CastUB} env c g g' v menv max g1 :
  is_node (cf_node_id c) → initialize_node env c g = (g', Some v) → g_nodes g1 = g_nodes (v_shm v) →
  poll_messages menv max (mkView g1 (v_mgr v) (v_node v)) = Some (0%nat, mkView g1 (v_mgr v) (v_node v)).
Proof.
  intros Hn. unfold initialize_node, prepare_node. destruct (SharedMem.initialize _ _) as [ok mem0]. destruct ok; [|by destruct g]. set (mem := SharedMem.set_base_addr _ _).
  destruct (DistMsg.initialize _ _ _ _) as [[ok g0] m1] eqn:Ei. destruct ok; [|by destruct g0]. destruct g0 as [g0|]; [|done].
  assert (g0 = initialized_header (cf_node_id c) ∧ manages m1 (cf_node_id c)) as (-> & Hm).
  { unfold DistMsg.initialize in Ei. repeat case_match; simplify_eq. done. }
  unfold enrol_node. set (info := own_info _ _ _). pose proof (λ x Hx Hne, register_other (ie_now env) info m1 (initialized_header (cf_node_id c)) x Hx Hn Hne) as Hoth.
  destruct (register_self (ie_now env) info m1 _ Hm (initialized_inv (cf_node_id c))) as (g2 & Hreg & _). rewrite Hreg in *. cbn [snd] in Hoth.
  intros [= <- <-] Hg. cbn [v_mgr v_shm v_node] in *. destruct (setup_handlers m1) as (hs & -> & _). set (m := set_handlers hs m1).
  assert (manages m (cf_node_id c)) as Hm' by (by destruct m1). unfold poll_messages. rewrite poll_none; [cbn [mbind option_bind]; by rewrite Nat.sub_diag|].
  intros x Hx%elem_of_node_ids. unfold polled. cbn [v_mgr v_shm]. destruct Hm' as (-> & _ & Hmp). destruct (x =? cf_node_id c) eqn:E; btests; [done|]. cbn [negb andb].
  unfold is_node_active. rewrite Hmp. destruct (_ || _); [done|].
  assert (status_of g1 x = zero_status) as ->; [|done]. rewrite <- (initialized_status (cf_node_id c) x), <- (Hoth x Hx E). unfold status_of. by rewrite Hg.
Qed.

Lemma started_node_deaf_witness :
  match ex_start 1 with
  | (_, Some v) => poll_messages ex_msg_env 100 (mkView (ex_send 7 (v_shm v)) (v_mgr v) (v_node v)) = Some (0%nat, mkView (ex_send 7 (v_shm v)) (v_mgr v) (v_node v))
  | _ => False
  end.
Proof.
  destruct (ex_start 1) as [g' [v|]] eqn:E; [|by vm_compute in E].
  apply (started_node_deaf ex_init_env (ex_config 1) (Some ex_seg) g' v ex_msg_env 100 (ex_send 7 (v_shm v)));
    [done|exact E|]. vm_compute in E. by simplify_eq.
Defined.
