(* ===== verification/Pgas.v ===== *)
(** * Slots in shared memory: the PGAS mode of the server

    Models [init_pgas_shm] and [poll_pgas_shm_requests] of
    [ThreadPerConnectionServer] (src/main_server.cc) with the protocol of
    include/cxl_backend.h, and the client of tests/test_back_invalidation.cpp.
    Each client owns one of 64 slots; it fills the slot, sets its request type
    and waits for a status.  Four workers scan all slots, claim a request by a
    compare-and-swap on its type and serve it from a table of cachelines with
    metadata, or from the SSD backend.

    [serve_slot] is the work on a claimed slot up to the store of its status.
    [worker_step] and [client_step] are the accesses to a slot that the two
    sides order by: loads and stores of the request type and of the status and
    the compare-and-swap; what lies between two of them is one step.  Workers
    that serve requests for the same line at the same time race on its bytes;
    here a request is served in one step.  Sizes that the guest changes while its
    request is served are not modelled.

    [None] is undefined behaviour. *)

From S2P Require Import Prelude Float64 Endpoint Dcd Gfam Pooling SsdBackend SharedMem Server.

(** ** Data *)

Definition CXL_SHM_MAX_SLOTS : nat := 64.

Definition CXL_SHM_REQ_NONE : Z := 0.
Definition CXL_SHM_REQ_READ : Z := 1.
Definition CXL_SHM_REQ_WRITE : Z := 2.
Definition CXL_SHM_REQ_ATOMIC_FAA : Z := 3.
Definition CXL_SHM_REQ_ATOMIC_CAS : Z := 4.
Definition CXL_SHM_REQ_FENCE : Z := 5.
Definition CXL_SHM_REQ_DCD_ADD : Z := 10.
Definition CXL_SHM_REQ_DCD_RELEASE : Z := 11.
Definition CXL_SHM_REQ_DCD_QUERY : Z := 12.
Definition CXL_SHM_REQ_GFAM_MAP : Z := 13.
Definition CXL_SHM_REQ_GFAM_UNMAP : Z := 14.
Definition CXL_SHM_REQ_GFAM_QUERY : Z := 15.

Definition CXL_SHM_RESP_NONE : Z := 0.
Definition CXL_SHM_RESP_OK : Z := 1.
Definition CXL_SHM_RESP_ERROR : Z := 2.

Definition CXL_CACHE_INVALID : Z := 0.
Definition CXL_CACHE_MODIFIED : Z := 3.

Record EntryMetadata := {
  em_cache_state : Z; em_owner_id : Z; em_sharers_bitmap : Z; em_access_count : Z; em_last_access_time : Z;
  em_virtual_addr : Z; em_physical_addr : Z; em_version : Z; em_flags : Z
}.

Record PGASMemoryEntry := { pe_data : list Z; pe_metadata : EntryMetadata }.

Record cxl_shm_slot := {
  req_type : Z; resp_status : Z; addr : Z; size : Z; value : Z; expected : Z; latency_ns : Z; timestamp : Z;
  data : list Z                             (** 64 bytes *)
}.

(** The server in this mode; [pg_entries] is absent with the SSD backend. *)
Record Pgas := {
  pg_server : Server;
  pg_memory_size : Z;
  pg_entries : option (list PGASMemoryEntry);
  pg_slots : list cxl_shm_slot
}.

(** *** Field updates *)

Definition set_server (s : Server) (p : Pgas) : Pgas :=
  {| pg_server := s; pg_memory_size := pg_memory_size p; pg_entries := pg_entries p; pg_slots := pg_slots p |}.

Definition set_entries (es : option (list PGASMemoryEntry)) (p : Pgas) : Pgas :=
  {| pg_server := pg_server p; pg_memory_size := pg_memory_size p; pg_entries := es; pg_slots := pg_slots p |}.

Definition set_slots (sl : list cxl_shm_slot) (p : Pgas) : Pgas :=
  {| pg_server := pg_server p; pg_memory_size := pg_memory_size p; pg_entries := pg_entries p; pg_slots := sl |}.

Definition set_type (t : Z) (s : cxl_shm_slot) : cxl_shm_slot :=
  {| req_type := t; resp_status := resp_status s; addr := addr s; size := size s; value := value s; expected := expected s;
     latency_ns := latency_ns s; timestamp := timestamp s; data := data s |}.

Definition set_resp (r : Z) (s : cxl_shm_slot) : cxl_shm_slot :=
  {| req_type := req_type s; resp_status := r; addr := addr s; size := size s; value := value s; expected := expected s;
     latency_ns := latency_ns s; timestamp := timestamp s; data := data s |}.

(** The fields of a response but for its status. *)
Definition set_result (v lat : Z) (d : list Z) (s : cxl_shm_slot) : cxl_shm_slot :=
  {| req_type := req_type s; resp_status := resp_status s; addr := addr s; size := size s; value := v; expected := expected s;
     latency_ns := lat; timestamp := timestamp s; data := d |}.

Definition zero_slot : cxl_shm_slot :=
  {| req_type := CXL_SHM_REQ_NONE; resp_status := CXL_SHM_RESP_NONE; addr := 0; size := 0; value := 0; expected := 0; latency_ns := 0;
     timestamp := 0; data := replicate 64 0 |}.

(** ** Start *)

Definition use_storage_backend (s : Server) : bool := bool_decide (sm_backing_mode (sv_shm s) = SsdStream).

Definition initial_entry (i : nat) : PGASMemoryEntry :=
  {| pe_data := replicate 64 0;
     pe_metadata := {| em_cache_state := CXL_CACHE_INVALID; em_owner_id := 255; em_sharers_bitmap := 0; em_access_count := 0;
       em_last_access_time := 0; em_virtual_addr := 0; em_physical_addr := u64 (Z.of_nat i * 64); em_version := 0; em_flags := 0 |} |}.

(** [os_ok]: the calls to the operating system succeed; the region that they map
    holds the table ([num_cachelines * sizeof(PGASMemoryEntry)] does not wrap). *)
Definition init_pgas_shm (os_ok : bool) (memory_size : Z) (s : Server) : option Pgas :=
  if negb os_ok then None
  else
    let num_cachelines := memory_size / 64 in
    Some {| pg_server := s; pg_memory_size := memory_size;
            pg_entries := if use_storage_backend s then None else Some (initial_entry <$> seq 0 (Z.to_nat num_cachelines));
            pg_slots := replicate CXL_SHM_MAX_SLOTS zero_slot |}.

(** ** Requests *)

Section with_casts_pgas.
Context `{CastUB}.

(** The fabric latency, or nothing when the access is not allowed. *)
Definition check_pgas_fabric_access (i : Z) (slot : cxl_shm_slot) (is_write is_atomic : bool) (access_size : Z) (c : CapacityPool)
    : option f64 * CapacityPool :=
  let access_size := if access_size =? 0 then 64 else access_size in
  if negb (dcd_is_allocated c (addr slot) access_size) then (None, c)
  else
    let '(access, c1) := gfam_record_access (u32 i) (addr slot) access_size is_write is_atomic (timestamp slot) c in
    (if ga_allowed access then Some (ga_latency_ns access) else None, c1).

(** [update] of the metadata of the line of a slot, where there is a table. *)
Definition touch_entry (line : nat) (update : EntryMetadata → EntryMetadata) (p : Pgas) : Pgas :=
  set_entries (alter (λ e, {| pe_data := pe_data e; pe_metadata := update (pe_metadata e) |}) line <$> pg_entries p) p.

Definition put_entry_data (line : nat) (d : list Z) (p : Pgas) : Pgas :=
  set_entries (alter (λ e, {| pe_data := d; pe_metadata := pe_metadata e |}) line <$> pg_entries p) p.

Definition accessed (ts : Z) (m : EntryMetadata) : EntryMetadata :=
  {| em_cache_state := em_cache_state m; em_owner_id := em_owner_id m; em_sharers_bitmap := em_sharers_bitmap m;
     em_access_count := u32 (em_access_count m + 1); em_last_access_time := ts; em_virtual_addr := em_virtual_addr m;
     em_physical_addr := em_physical_addr m; em_version := em_version m; em_flags := em_flags m |}.

Definition modified (m : EntryMetadata) : EntryMetadata :=
  {| em_cache_state := CXL_CACHE_MODIFIED; em_owner_id := em_owner_id m; em_sharers_bitmap := em_sharers_bitmap m;
     em_access_count := em_access_count m; em_last_access_time := em_last_access_time m; em_virtual_addr := em_virtual_addr m;
     em_physical_addr := em_physical_addr m; em_version := u32 (em_version m + 1); em_flags := em_flags m |}.

Definition counted (m : EntryMetadata) : EntryMetadata :=
  {| em_cache_state := em_cache_state m; em_owner_id := em_owner_id m; em_sharers_bitmap := em_sharers_bitmap m;
     em_access_count := u32 (em_access_count m + 1); em_last_access_time := em_last_access_time m; em_virtual_addr := em_virtual_addr m;
     em_physical_addr := em_physical_addr m; em_version := em_version m; em_flags := em_flags m |}.

Definition versioned (m : EntryMetadata) : EntryMetadata :=
  {| em_cache_state := em_cache_state m; em_owner_id := em_owner_id m; em_sharers_bitmap := em_sharers_bitmap m;
     em_access_count := em_access_count m; em_last_access_time := em_last_access_time m; em_virtual_addr := em_virtual_addr m;
     em_physical_addr := em_physical_addr m; em_version := u32 (em_version m + 1); em_flags := em_flags m |}.

Definition line_of (slot : cxl_shm_slot) : nat := Z.to_nat (addr slot / 64).
Definition offset_in (slot : cxl_shm_slot) : Z := addr slot mod 64.

Definition copy_size (p : Pgas) (slot : cxl_shm_slot) : Z :=
  let n := Z.min (size slot) 64 in
  if use_storage_backend (pg_server p) then n else Z.min n (64 - offset_in slot).

Definition base_latency (p : Pgas) : f64 := cp_dramlatency (sv_pool (pg_server p)).

(** [overwrite n bs d]: the bytes [bs] at offset [n] of a buffer. *)
Definition overwrite (n : nat) (bs d : list Z) : list Z := take n d ++ bs ++ drop (n + length bs) d.

(** What a request leaves: the status that is to be stored, if any, the count
    for [processed], the slot and the server. *)
Record Outcome := { oc_resp : option Z; oc_processed : nat; oc_slot : cxl_shm_slot; oc_state : Pgas }.

Definition failed (slot : cxl_shm_slot) (p : Pgas) : option Outcome :=
  Some {| oc_resp := Some CXL_SHM_RESP_ERROR; oc_processed := 1; oc_slot := slot; oc_state := p |}.

Definition succeeded (slot : cxl_shm_slot) (p : Pgas) : option Outcome :=
  Some {| oc_resp := Some CXL_SHM_RESP_OK; oc_processed := 1; oc_slot := slot; oc_state := p |}.

Definition with_pool (c : CapacityPool) (p : Pgas) : Pgas := set_server (set_pool c (pg_server p)) p.
Definition with_shm (m : SharedMemoryManager) (p : Pgas) : Pgas := set_server (set_shm m (pg_server p)) p.
Definition count (c : Counter) (p : Pgas) : Pgas := set_server (inc c 1 (pg_server p)) p.
Definition record (i : Z) (slot : cxl_shm_slot) (is_write : bool) (p : Pgas) : Pgas :=
  set_server (set_tree (record_cxl_access (timestamp slot) i (addr slot) is_write (sv_tree (pg_server p))) (pg_server p)) p.

(** [partial] is what a read of the backend that fails leaves in the slot. *)
Definition serve_read (partial : list Z) (i : Z) (slot : cxl_shm_slot) (p : Pgas) : option Outcome :=
  let n := copy_size p slot in
  let '(access, c) := check_pgas_fabric_access i slot false false n (sv_pool (pg_server p)) in
  let p1 := with_pool c p in
  match access with
  | None => failed slot p1
  | Some fabric =>
      let p2 := touch_entry (line_of slot) (accessed (timestamp slot)) p1 in
      let finish bs p3 :=
        succeeded (set_result (value slot) (f64_to_u64 (base_latency p + fabric)%f64) (overwrite 0 bs (data slot)) slot)
          (record i slot false (count total_reads p3)) in
      match pg_entries p with
      | Some es =>
          e ← es !! line_of slot; finish (take (Z.to_nat n) (drop (Z.to_nat (offset_in slot)) (pe_data e))) p2
      | None =>
          match read_cacheline (sv_shm (pg_server p)) (addr slot) n with
          | (Done bs, m) => finish bs (with_shm m p2)
          | (Refused, m) => failed (set_result (value slot) (latency_ns slot) partial slot) (with_shm m p2)
          | (Fault, _) => None
          end
      end
  end.

Definition serve_write (i : Z) (slot : cxl_shm_slot) (p : Pgas) : option Outcome :=
  let n := copy_size p slot in
  let '(access, c) := check_pgas_fabric_access i slot true false n (sv_pool (pg_server p)) in
  let p1 := with_pool c p in
  match access with
  | None => failed slot p1
  | Some fabric =>
      let bs := take (Z.to_nat n) (data slot) in
      let finish p2 :=
        succeeded (set_result (value slot) (f64_to_u64 (base_latency p + fabric)%f64) (data slot) slot)
          (record i slot true (count total_writes (touch_entry (line_of slot) (modified ∘ accessed (timestamp slot)) p2))) in
      match pg_entries p with
      | Some es => e ← es !! line_of slot; finish (put_entry_data (line_of slot) (overwrite (Z.to_nat (offset_in slot)) bs (pe_data e)) p1)
      | None =>
          match write_cacheline (sv_shm (pg_server p)) (addr slot) bs with
          | (Done _, m) => finish (with_shm m p1)
          | (Refused, m) => failed slot (with_shm m p1)
          | (Fault, _) => None
          end
      end
  end.

(** An atomic: [new] is the word to store, if one is.  Words that are not
    aligned are served too, as on x86. *)
Definition serve_atomic (c : Counter) (new : Z → option Z) (mark : EntryMetadata → EntryMetadata) (i : Z) (slot : cxl_shm_slot) (p : Pgas)
    : option Outcome :=
  let '(access, pool) := check_pgas_fabric_access i slot true true 8 (sv_pool (pg_server p)) in
  let p1 := with_pool pool p in
  match access with
  | None => failed slot p1
  | Some fabric =>
      if pg_memory_size p / 64 *w 64 <? addr slot +w 8 then failed slot p1
      else
        let finish old p2 :=
          succeeded (set_result old (f64_to_u64 (base_latency p + fabric)%f64) (overwrite 0 (le_encode 8 old) (data slot)) slot)
            (count c (touch_entry (line_of slot) mark p2)) in
        match pg_entries p with
        | Some es =>
            if 64 <? offset_in slot + 8 then failed slot p1
            else
              e ← es !! line_of slot;
              let o := Z.to_nat (offset_in slot) in
              let old := le_decode (take 8 (drop o (pe_data e))) in
              finish old match new old with
                         | Some v => put_entry_data (line_of slot) (overwrite o (le_encode 8 v) (pe_data e)) p1
                         | None => p1
                         end
        | None =>
            match atomic_rmw (sv_shm (pg_server p)) (addr slot) new with
            | (Done old, m) => finish old (with_shm m p1)
            | (Refused, m) => failed slot (with_shm m p1)
            | (Fault, _) => None
            end
        end
  end.

Definition serve_faa (i : Z) (slot : cxl_shm_slot) (p : Pgas) : option Outcome :=
  serve_atomic total_atomic_faa (λ old, Some (old +w value slot)) (modified ∘ counted) i slot p.

Definition serve_cas (i : Z) (slot : cxl_shm_slot) (p : Pgas) : option Outcome :=
  serve_atomic total_atomic_cas (λ old, if old =? expected slot then Some (value slot) else None) (versioned ∘ counted) i slot p.

Definition serve_fence (slot : cxl_shm_slot) (p : Pgas) : option Outcome :=
  let '(ok, m) := if use_storage_backend (pg_server p) then flush (sv_shm (pg_server p)) else (true, sv_shm (pg_server p)) in
  let p1 := with_shm m p in
  if ok then succeeded (set_result (value slot) 0 (data slot) slot) (count total_fences p1) else failed slot p1.

(** *** Capacity management *)

Definition status_resp (st : DCDStatus) : Z := match st with OK => CXL_SHM_RESP_OK | _ => CXL_SHM_RESP_ERROR end.

Definition managed (resp v : Z) (d : list Z) (slot : cxl_shm_slot) (p : Pgas) : option Outcome :=
  Some {| oc_resp := Some resp; oc_processed := 1; oc_slot := set_result v (f64_to_u64 (base_latency p)) d slot; oc_state := p |}.

Definition serve_management (i req : Z) (slot : cxl_shm_slot) (p : Pgas) : option Outcome :=
  let c := sv_pool (pg_server p) in
  if req =? CXL_SHM_REQ_DCD_ADD then
    let '(result, c1) := dcd_add_capacity (addr slot) (size slot) (value slot) (timestamp slot) c in
    let c2 := match da_status result, cp_gfam c1 with
              | OK, Some _ => (gfam_grant_access (u32 i) (da_base result) (da_size result) DCD_PERM_ALL c1).2
              | _, _ => c1
              end in
    managed (status_resp (da_status result)) (da_base result) (write_u64 8 (da_tag result) (write_u64 0 (da_size result) (data slot))) slot (with_pool c2 p)
  else if req =? CXL_SHM_REQ_DCD_RELEASE then
    let '(st, c1) := dcd_release_capacity (addr slot) (size slot) (value slot) (timestamp slot) c in
    managed (status_resp st) (value slot) (data slot) slot (with_pool c1 p)
  else if req =? CXL_SHM_REQ_DCD_QUERY then
    let st := get_dcd_stats c in
    managed CXL_SHM_RESP_OK (ds_allocated_capacity st)
      (write_u64 24 (ds_failed_requests st) (write_u64 16 (ds_active_extents st)
        (write_u64 8 (ds_free_capacity st) (write_u64 0 (ds_total_capacity st) (data slot))))) slot p
  else if req =? CXL_SHM_REQ_GFAM_MAP then
    let permissions := if expected slot =? 0 then DCD_PERM_ALL else u32 (expected slot) in
    let '(st, c1) := gfam_grant_access (u32 (value slot)) (addr slot) (size slot) permissions c in
    managed (status_resp st) (value slot) (data slot) slot (with_pool c1 p)
  else if req =? CXL_SHM_REQ_GFAM_UNMAP then
    let '(st, c1) := gfam_revoke_access (u32 (value slot)) (addr slot) (size slot) c in
    managed (status_resp st) (value slot) (data slot) slot (with_pool c1 p)
  else
    let st := get_gfam_stats c in
    managed CXL_SHM_RESP_OK (gs_hosts st)
      (write_u64 48 (f64_to_u64 (gs_avg_access_latency_ns st)) (write_u64 40 (gs_denied_accesses st)
        (write_u64 32 (gs_atomic_ops st) (write_u64 24 (gs_write_ops st) (write_u64 16 (gs_read_ops st)
          (write_u64 8 (gs_shared_mappings st) (write_u64 0 (gs_mappings st) (data slot)))))))) slot p.

(** *** A claimed slot *)

Definition serve_slot (partial : list Z) (i req : Z) (slot : cxl_shm_slot) (p : Pgas) : option Outcome :=
  if pg_memory_size p / 64 <=? addr slot / 64 then
    Some {| oc_resp := Some CXL_SHM_RESP_ERROR; oc_processed := 0; oc_slot := slot; oc_state := p |}
  else if req =? CXL_SHM_REQ_READ then serve_read partial i slot p
  else if req =? CXL_SHM_REQ_WRITE then serve_write i slot p
  else if req =? CXL_SHM_REQ_ATOMIC_FAA then serve_faa i slot p
  else if req =? CXL_SHM_REQ_ATOMIC_CAS then serve_cas i slot p
  else if req =? CXL_SHM_REQ_FENCE then serve_fence slot p
  else if (CXL_SHM_REQ_DCD_ADD <=? req) && (req <=? CXL_SHM_REQ_GFAM_QUERY) then serve_management i req slot p
  else Some {| oc_resp := None; oc_processed := 0; oc_slot := slot; oc_state := p |}.

(** *** A scan of all slots by one worker that nobody disturbs *)

Definition answer_slot (o : Outcome) : cxl_shm_slot :=
  match oc_resp o with Some r => set_resp r (oc_slot o) | None => oc_slot o end.

Fixpoint poll_slots (partial : list Z) (ids : list nat) (processed : nat) (p : Pgas) : option (nat * Pgas) :=
  match ids with
  | [] => Some (processed, p)
  | i :: rest =>
      slot ← pg_slots p !! i;
      if req_type slot =? CXL_SHM_REQ_NONE then poll_slots partial rest processed p
      else
        o ← serve_slot partial (Z.of_nat i) (req_type slot) (set_type CXL_SHM_REQ_NONE slot) p;
        poll_slots partial rest (processed + oc_processed o)%nat (set_slots (<[i := answer_slot o]> (pg_slots (oc_state o))) (oc_state o))
  end.

Definition poll_pgas_shm_requests (partial : list Z) (p : Pgas) : option (nat * Pgas) :=
  poll_slots partial (seq 0 (length (pg_slots p))) 0 p.

End with_casts_pgas.

(** ** Workers and clients

    What a client stores in its slot: each group of fields may be left as it is. *)
Record Query := { q_type : Z; q_args : option (Z * Z * Z); q_words : option (Z * Z); q_data : option (list Z) }.

Definition read_shm (a n now : Z) : Query := {| q_type := CXL_SHM_REQ_READ; q_args := Some (a, n, u64 now); q_words := None; q_data := None |}.
Definition write_shm (a : Z) (d : list Z) (n now : Z) : Query :=
  {| q_type := CXL_SHM_REQ_WRITE; q_args := Some (a, n, u64 now); q_words := None; q_data := Some (take (Z.to_nat (Z.min n 64)) d) |}.
Definition fence_shm : Query := {| q_type := CXL_SHM_REQ_FENCE; q_args := None; q_words := None; q_data := None |}.

Definition query_ok (q : Query) : Prop :=
  q_type q ≠ CXL_SHM_REQ_NONE ∧ match q_args q with Some (a, n, _) => is_u64 a ∧ is_u64 n | None => True end ∧
  match q_data q with Some bs => (length bs ≤ 64)%nat | None => True end.

Definition fill (q : Query) (s : cxl_shm_slot) : cxl_shm_slot :=
  let '(a, n, ts) := default (addr s, size s, timestamp s) (q_args q) in
  let '(v, e) := default (value s, expected s) (q_words q) in
  {| req_type := req_type s; resp_status := resp_status s; addr := a; size := n; value := v; expected := e; latency_ns := latency_ns s;
     timestamp := ts; data := match q_data q with Some bs => overwrite 0 bs (data s) | None => data s end |}.

(** A client: it waits until its slot is free, fills it, sets the type, waits for
    a status, takes the response and clears the status and the type.  Each wait
    has a number of retries left. *)
Inductive ClientPc :=
  | CIdle | CWait (q : Query) (retries : Z) | CFill (q : Query) | CSubmit (q : Query) | CAwait (q : Query) (retries : Z)
  | CTake | CClearStatus | CClearType.

Definition WAIT_RETRIES : Z := 1000.
Definition AWAIT_RETRIES : Z := 10000.

(** A worker: it loads the type of slot [i], claims the slot, serves it and
    stores the status. *)
Inductive WorkerPc := WScan (i : nat) | WClaim (i : nat) (req : Z) | WServe (i : nat) (req : Z) | WRespond (i : nat) (r : Z).

(** What the sides do with slot [i]: its contents when it was submitted, when it
    was claimed with the outcome, and when its response was taken; or the client
    has given up waiting for a response. *)
Inductive Event :=
  | Submitted (i : nat) (s : cxl_shm_slot)
  | Handled (i : nat) (req : Z) (s : cxl_shm_slot) (resp : option Z) (s' : cxl_shm_slot)
  | Taken (i : nat) (s : cxl_shm_slot)
  | GaveUp (i : nat).

Record System := { sy_pgas : Pgas; sy_workers : list WorkerPc; sy_clients : list ClientPc }.

Definition put_slot (i : nat) (s : cxl_shm_slot) (p : Pgas) : Pgas := set_slots (<[i := s]> (pg_slots p)) p.

(** The slot after [i]; the scan starts again after the last one. *)
Definition next_slot (p : Pgas) (i : nat) : nat := if decide (S i < length (pg_slots p))%nat then S i else 0%nat.

(** When the wait for the status times out, a read or a write returns and leaves its
    request in the slot; a fence clears the slot. *)
Definition client_step (i : nat) (c : ClientPc) (s : cxl_shm_slot) : ClientPc * cxl_shm_slot * option Event :=
  match c with
  | CIdle => (CIdle, s, None)
  | CWait q retries =>
      (if negb (req_type s =? CXL_SHM_REQ_NONE) && (0 <? retries) then CWait q (retries - 1)
       else if retries =? 0 then CIdle else CFill q, s, None)
  | CFill q => (CSubmit q, fill q s, None)
  | CSubmit q => let s1 := set_type (q_type q) s in (CAwait q AWAIT_RETRIES, s1, Some (Submitted i s1))
  | CAwait q retries =>
      if (resp_status s =? CXL_SHM_RESP_NONE) && (0 <? retries) then (CAwait q (retries - 1), s, None)
      else if retries =? 0 then (if q_type q =? CXL_SHM_REQ_FENCE then CClearStatus else CIdle, s, Some (GaveUp i))
      else (CTake, s, None)
  | CTake => (CClearStatus, s, Some (Taken i s))
  | CClearStatus => (CClearType, set_resp CXL_SHM_RESP_NONE s, None)
  | CClearType => (CIdle, set_type CXL_SHM_REQ_NONE s, None)
  end.

Section with_casts_workers.
Context `{CastUB}.

Definition worker_step (partial : list Z) (w : WorkerPc) (p : Pgas) : option (WorkerPc * Pgas * option Event) :=
  match w with
  | WScan i =>
      s ← pg_slots p !! i;
      Some (if req_type s =? CXL_SHM_REQ_NONE then WScan (next_slot p i) else WClaim i (req_type s), p, None)
  | WClaim i req =>
      s ← pg_slots p !! i;
      if req_type s =? req then Some (WServe i req, put_slot i (set_type CXL_SHM_REQ_NONE s) p, None)
      else Some (WScan (next_slot p i), p, None)
  | WServe i req =>
      s ← pg_slots p !! i;
      o ← serve_slot partial (Z.of_nat i) req s p;
      Some (match oc_resp o with Some r => WRespond i r | None => WScan (next_slot p i) end,
            put_slot i (oc_slot o) (oc_state o), Some (Handled i req s (oc_resp o) (answer_slot o)))
  | WRespond i r =>
      s ← pg_slots p !! i; Some (WScan (next_slot p i), put_slot i (set_resp r s) p, None)
  end.

(** One step of a worker, of a client, or a new call of an idle client. *)
Inductive sys_step (y : System) : option Event → System → Prop :=
  | sys_worker partial k w w' p' e :
      length partial = 64%nat → sy_workers y !! k = Some w → worker_step partial w (sy_pgas y) = Some (w', p', e) →
      sys_step y e {| sy_pgas := p'; sy_workers := <[k := w']> (sy_workers y); sy_clients := sy_clients y |}
  | sys_client i c c' s s' e :
      sy_clients y !! i = Some c → pg_slots (sy_pgas y) !! i = Some s → client_step i c s = (c', s', e) →
      sys_step y e {| sy_pgas := put_slot i s' (sy_pgas y); sy_workers := sy_workers y; sy_clients := <[i := c']> (sy_clients y) |}
  | sys_call i q :
      sy_clients y !! i = Some CIdle → query_ok q →
      sys_step y None {| sy_pgas := sy_pgas y; sy_workers := sy_workers y; sy_clients := <[i := CWait q WAIT_RETRIES]> (sy_clients y) |}.

Definition num_workers : nat := 4.

(** The workers of the server, with a client for each slot. *)
Definition run_pgas_shm_mode (p : Pgas) : System :=
  {| sy_pgas := p; sy_workers := replicate num_workers (WScan 0); sy_clients := replicate CXL_SHM_MAX_SLOTS CIdle |}.

(** A run and the events in it, the last one first. *)
Inductive run (y0 : System) : list Event → System → Prop :=
  | run_start : run y0 [] y0
  | run_step es y e y' : run y0 es y → sys_step y e y' → run y0 (match e with Some ev => ev :: es | None => es end) y'.

End with_casts_workers.

(** ** Specification: a flat memory

    The bytes behind the slots, in the table or in the backend, and where the
    byte of an address is. *)

Definition table_byte (es : list PGASMemoryEntry) (o : Z) : Z :=
  default 0 (e ← es !! Z.to_nat (o / 64); pe_data e !! Z.to_nat (o mod 64)).

Definition pg_mem (p : Pgas) : Z → Z :=
  match pg_entries p with Some es => table_byte es | None => mem (sv_shm (pg_server p)) end.

Definition pg_off (p : Pgas) : Z → Z :=
  match pg_entries p with Some _ => id | None => offset_of (sv_shm (pg_server p)) end.

Definition pg_word (p : Pgas) (a : Z) : Z := le_decode (get (pg_off p) a 8 (pg_mem p)).

Record slot_ok (s : cxl_shm_slot) : Prop := {
  so_addr : is_u64 (addr s);
  so_size : is_u64 (size s);
  so_data : length (data s) = 64%nat
}.

Record pgas_inv (p : Pgas) : Prop := {
  pv_size : is_u64 (pg_memory_size p) ∧ pg_memory_size p < TWO64 - 64;
  pv_pool : pool_inv (sv_pool (pg_server p));
  pv_table : ∀ es, pg_entries p = Some es → use_storage_backend (pg_server p) = false ∧
    Z.of_nat (length es) = pg_memory_size p / 64 ∧ Forall (λ e, length (pe_data e) = 64%nat) es;
  pv_backend : pg_entries p = None → use_storage_backend (pg_server p) = true ∧ shm_inv (sv_shm (pg_server p))
}.

(** What a request promises of the memory and of its response. *)
Definition effect (req : Z) (slot : cxl_shm_slot) (p : Pgas) (o : Outcome) : Prop :=
  let m' := pg_mem (oc_state o) in
  let n := Z.to_nat (copy_size p slot) in
  let same := ∀ x, 0 <= x → m' x = pg_mem p x in
  let stores bs := ∀ x, 0 <= x → m' x = put (pg_off p) (addr slot) bs (pg_mem p) x in
  let ok := bool_decide (oc_resp o = Some CXL_SHM_RESP_OK) in
  let atomic new :=
    if ok then value (oc_slot o) = pg_word p (addr slot) ∧ match new (pg_word p (addr slot)) with Some v => stores (le_encode 8 v) | None => same end
    else ∃ v k, stores (take k (le_encode 8 v)) in
  if req =? CXL_SHM_REQ_READ then same ∧ (ok = true → take n (data (oc_slot o)) = get (pg_off p) (addr slot) n (pg_mem p))
  else if req =? CXL_SHM_REQ_WRITE then ∃ k, (ok = true → k = n) ∧ stores (take k (take n (data slot)))
  else if req =? CXL_SHM_REQ_ATOMIC_FAA then atomic (λ old, Some (old +w value slot))
  else if req =? CXL_SHM_REQ_ATOMIC_CAS then atomic (λ old, if old =? expected slot then Some (value slot) else None)
  else same.

(** ** Lemmas: the table *)

#[export] Instance id_offsets : LineOffsets id.
Proof. split; [done|done]. Qed.

Lemma put_id a bs f x :
  0 <= a → a + Z.of_nat (length bs) < TWO64 →
  put id a bs f x = if decide (a <= x < a + Z.of_nat (length bs)) then default 0 (bs !! Z.to_nat (x - a)) else f x.
Proof.
  revert a f. induction bs as [|b bs IH]; intros a f Ha Hl; cbn [put length] in *.
  { rewrite decide_False by lia. done. }
  replace (a +w 1) with (a + 1) by (symmetry; apply u64_small; unfold is_u64; lia). rewrite IH by lia. unfold id. destruct (decide (x = a)) as [->|Hne].
  - rewrite decide_False by lia. rewrite decide_True by lia. by rewrite Z.eqb_refl, Z.sub_diag.
  - destruct (decide (a + 1 <= x < a + 1 + Z.of_nat (length bs))) as [Hin|Hout].
    + rewrite decide_True by lia. by replace (Z.to_nat (x - a)) with (S (Z.to_nat (x - (a + 1)))) by lia.
    + rewrite decide_False by lia. apply Z.eqb_neq in Hne. by rewrite Hne.
Qed.

Lemma get_id a n f k :
  0 <= a → a + Z.of_nat n < TWO64 → (k < n)%nat → get id a n f !! k = Some (f (a + Z.of_nat k)).
Proof.
  revert a k. induction n as [|n IH]; intros a k Ha Hl Hk; [lia|]. cbn [get]. destruct k as [|k]; [by rewrite Z.add_0_r|].
  cbn [lookup list_lookup]. replace (a +w 1) with (a + 1) by (symmetry; apply u64_small; unfold is_u64; lia).
  rewrite IH by lia. do 2 f_equal. lia.
Qed.

Lemma overwrite_length n bs d : (n + length bs ≤ length d)%nat → length (overwrite n bs d) = length d.
Proof. intros Hl. unfold overwrite. rewrite !length_app, length_take, length_drop. lia. Qed.

Lemma overwrite_lookup n bs d k :
  (n + length bs ≤ length d)%nat →
  overwrite n bs d !! k = if decide (n ≤ k < n + length bs)%nat then bs !! (k - n)%nat else d !! k.
Proof.
  intros Hl. unfold overwrite. rewrite lookup_app. destruct (decide (k < n)%nat) as [Hk|Hk].
  - rewrite decide_False by lia. rewrite lookup_take_lt by lia. destruct (d !! k) eqn:E; [done|]. apply lookup_ge_None in E. lia.
  - rewrite lookup_take_ge by lia. rewrite length_take, Nat.min_l by lia. destruct (decide _) as [Hin|Hout].
    + rewrite lookup_app_l by lia. done.
    + rewrite lookup_app_r, lookup_drop by lia. f_equal. lia.
Qed.

Lemma line_split a : 0 <= a → a = 64 * (a / 64) + a mod 64 ∧ 0 <= a mod 64 < 64 ∧ 0 <= a / 64.
Proof. intros Ha. split; [apply Z.div_mod; lia|]. split; [apply Z.mod_pos_bound; lia|apply Z.div_pos; lia]. Qed.

(** The bytes of one line. *)
Lemma table_get es a n e :
  0 <= a → a mod 64 + Z.of_nat n <= 64 → a + 64 < TWO64 → es !! Z.to_nat (a / 64) = Some e → length (pe_data e) = 64%nat →
  take n (drop (Z.to_nat (a mod 64)) (pe_data e)) = get id a n (table_byte es).
Proof.
  intros Ha Hn Hb He Hl. destruct (line_split a Ha) as (Hdm & Hm & Hd). apply list_eq. intros k. destruct (decide (k < n)%nat) as [Hk|Hk].
  - rewrite lookup_take_lt, lookup_drop by done. rewrite get_id by lia. unfold table_byte.
    assert ((a + Z.of_nat k) / 64 = a / 64) as -> by (symmetry; apply (Z.div_unique _ 64 _ (a mod 64 + Z.of_nat k)); lia).
    assert ((a + Z.of_nat k) mod 64 = a mod 64 + Z.of_nat k) as -> by (symmetry; apply (Z.mod_unique _ 64 (a / 64)); lia).
    rewrite He. cbn [mbind option_bind]. replace (Z.to_nat (a mod 64 + Z.of_nat k)) with (Z.to_nat (a mod 64) + k)%nat by lia.
    destruct (pe_data e !! _) eqn:E; [done|]. apply lookup_ge_None in E. lia.
  - rewrite lookup_take_ge by lia. symmetry. apply lookup_ge_None. rewrite get_length. lia.
Qed.

Lemma table_put es a bs e f x :
  0 <= a → a mod 64 + Z.of_nat (length bs) <= 64 → a + 64 < TWO64 → es !! Z.to_nat (a / 64) = Some e → length (pe_data e) = 64%nat → 0 <= x →
  f e = {| pe_data := overwrite (Z.to_nat (a mod 64)) bs (pe_data e); pe_metadata := pe_metadata e |} →
  table_byte (alter f (Z.to_nat (a / 64)) es) x = put id a bs (table_byte es) x.
Proof.
  intros Ha Hn Hb He Hl Hx Hf. destruct (line_split a Ha) as (Hdm & Hm & Hd). destruct (line_split x Hx) as (Hdx & Hmx & Hdx').
  rewrite put_id by lia. unfold table_byte at 1. destruct (decide (x / 64 = a / 64)) as [Hq|Hq].
  - rewrite Hq, list_lookup_alter_eq, He. cbn [fmap option_fmap option_map mbind option_bind]. rewrite Hf. cbn [pe_data].
    rewrite overwrite_lookup by lia. destruct (decide (a <= x < a + Z.of_nat (length bs))) as [Hin|Hout].
    + rewrite decide_True by lia. do 2 f_equal. lia.
    + rewrite decide_False by lia. unfold table_byte. by rewrite Hq, He.
  - rewrite list_lookup_alter_ne by lia. rewrite decide_False; [done|]. intros Hin. apply Hq. symmetry. apply (Z.div_unique _ 64 _ (a mod 64 + (x - a))); lia.
Qed.

Lemma table_touch es line f x : (∀ e, pe_data (f e) = pe_data e) → table_byte (alter f line es) x = table_byte es x.
Proof.
  intros Hf. unfold table_byte. destruct (decide (line = Z.to_nat (x / 64))) as [->|Hne]; [|by rewrite list_lookup_alter_ne].
  rewrite list_lookup_alter_eq. destruct (es !! _); [|done]. cbn [fmap option_fmap option_map mbind option_bind]. by rewrite Hf.
Qed.

(** ** Lemmas: what a request changes *)

Record kept_by (p p' : Pgas) : Prop := {
  kb_inv : pgas_inv p';
  kb_slots : pg_slots p' = pg_slots p;
  kb_size : pg_memory_size p' = pg_memory_size p;
  kb_storage : use_storage_backend (pg_server p') = use_storage_backend (pg_server p);
  kb_off : ∀ x, pg_off p' x = pg_off p x
}.

Definition same_bytes (p p' : Pgas) : Prop := ∀ x, 0 <= x → pg_mem p' x = pg_mem p x.

Lemma kept_by_refl p : pgas_inv p → kept_by p p.
Proof. by split. Qed.

Lemma kept_by_trans p1 p2 p3 : kept_by p1 p2 → kept_by p2 p3 → kept_by p1 p3.
Proof. intros [] []. split; [done|congruence..|]. intros x. etrans; eauto. Qed.

Lemma pool_kept c p : pgas_inv p → pool_inv c → kept_by p (with_pool c p).
Proof. intros [Hs Hp Ht Hb] Hc. split; [by split|done..]. Qed.

Lemma count_kept c p : pgas_inv p → kept_by p (count c p).
Proof. intros [Hs Hp Ht Hb]. split; [by split|done..]. Qed.

Lemma record_kept `{CastUB} i slot w p : pgas_inv p → kept_by p (record i slot w p).
Proof. intros [Hs Hp Ht Hb]. split; [by split|done..]. Qed.

(** Lines of the table that keep their size. *)
Lemma alter_kept line f p :
  pgas_inv p → (∀ e, length (pe_data e) = 64%nat → length (pe_data (f e)) = 64%nat) → kept_by p (set_entries (alter f line <$> pg_entries p) p).
Proof.
  intros [Hs Hp Ht Hb] Hf. destruct p as [sv n [es|] sl]; cbn in *; [|by split]. split; [|done..]. split; [done|done| |done]. cbn.
  intros es' [= <-]. destruct (Ht es eq_refl) as (Hu & Hl & Hall). split; [done|]. rewrite length_alter. split; [done|].
  apply Forall_alter; [done|]. intros e _ He. by apply Hf.
Qed.

Lemma touch_kept line u p : pgas_inv p → kept_by p (touch_entry line u p) ∧ same_bytes p (touch_entry line u p).
Proof.
  intros Hi. split; [by apply alter_kept|]. intros x Hx. unfold touch_entry, pg_mem. destruct p as [sv n [es|] sl]; cbn; [by apply table_touch|done].
Qed.

Lemma shm_kept m p : pgas_inv p → pg_entries p = None → kept (sv_shm (pg_server p)) m → kept_by p (with_shm m p).
Proof.
  intros [Hs Hp Ht Hb] Hn Hk. destruct (Hb Hn) as [Hu Hm]. assert (use_storage_backend (pg_server (with_shm m p)) = use_storage_backend (pg_server p)) as Hst
    by (unfold use_storage_backend; cbn; by rewrite (kp_mode _ _ Hk)).
  split; [split; [done|done|cbn; by rewrite Hn|]|done|done|done|].
  - intros _. rewrite Hst. split; [done|apply Hk].
  - intros x. unfold pg_off. cbn. rewrite Hn. by apply same_header_offset, Hk.
Qed.

(** The request for the pool that stands for the access of a slot. *)
Definition access_request (slot : cxl_shm_slot) (n : Z) : ServerRequest :=
  {| rq_op_type := 0; rq_addr := addr slot; rq_size := if n =? 0 then 64 else n; rq_timestamp := timestamp slot; rq_value := 0; rq_expected := 0; rq_data := [] |}.

Lemma access_check `{CastUB} i slot w a n c :
  check_pgas_fabric_access i slot w a n c =
    (match (check_fabric_access i (access_request slot n) w a c).1 with inl l => Some l | inr _ => None end, (check_fabric_access i (access_request slot n) w a c).2).
Proof.
  unfold check_pgas_fabric_access, check_fabric_access. cbn [access_request rq_addr rq_size rq_timestamp].
  destruct (negb _); [done|]. destruct (gfam_record_access _ _ _ _ _ _ _) as [r c1]. by destruct (ga_allowed r).
Qed.

(** The access of a slot was allowed. *)
Definition allowed (p : Pgas) (i : Z) (slot : cxl_shm_slot) (n : Z) (w a : bool) : Prop :=
  authorised (sv_pool (pg_server p)) i (addr slot) (if n =? 0 then 64 else n) w a.

Lemma access_ok `{CastUB} i slot w a n p r c :
  pgas_inv p → slot_ok slot → is_u64 n → check_pgas_fabric_access i slot w a n (sv_pool (pg_server p)) = (r, c) →
  kept_by p (with_pool c p) ∧ (is_Some r → allowed p i slot n w a).
Proof.
  intros Hi Hs Hn. rewrite access_check. pose proof (access_inv i (access_request slot n) w a _ (pv_pool p Hi)) as Hc.
  destruct (check_fabric_access _ _ _ _ _) as [x c1] eqn:E. intros [= <- <-]. split; [by apply pool_kept|]. destruct x as [l|]; [|by intros []].
  intros _. apply (check_authorised _ _ (access_request slot n) _ _ l c1); [apply Hi| |done].
  split; cbn; [apply Hs|]. destruct (n =? 0); [done|done].
Qed.

Lemma copy_size_range p slot : pgas_inv p → slot_ok slot → 0 <= copy_size p slot <= 64 ∧ copy_size p slot <= size slot.
Proof.
  intros Hi [Ha Hs _]. unfold copy_size, offset_in. pose proof (Z.mod_pos_bound (addr slot) 64). unfold is_u64 in *. destruct (use_storage_backend _); lia.
Qed.

Lemma copy_size_line p slot es : pgas_inv p → slot_ok slot → pg_entries p = Some es → addr slot mod 64 + copy_size p slot <= 64.
Proof.
  intros Hi [Ha Hs _] He. destruct (pv_table p Hi es He) as (Hu & _). unfold copy_size, offset_in. rewrite Hu.
  pose proof (Z.mod_pos_bound (addr slot) 64). lia.
Qed.

(** The line of a slot in the table. *)
Lemma slot_line p slot es :
  pgas_inv p → slot_ok slot → pg_entries p = Some es → addr slot / 64 < pg_memory_size p / 64 →
  addr slot + 64 < TWO64 ∧ ∃ e, es !! line_of slot = Some e ∧ length (pe_data e) = 64%nat.
Proof.
  intros Hi [Ha _ _] He Hlt. destruct (pv_table p Hi es He) as (_ & Hl & Hall). destruct (pv_size p Hi) as [Hm Hmx].
  destruct (line_split (addr slot)) as (Hdm & Hmod & Hdiv); [apply Ha|]. destruct (line_split (pg_memory_size p)) as (Hdm' & Hmod' & _); [apply Hm|].
  split; [lia|]. destruct (lookup_lt_is_Some_2 es (line_of slot)) as [e Hlk]; [unfold line_of; lia|]. exists e. split; [done|].
  by eapply (proj1 (Forall_lookup _ _) Hall).
Qed.

(** ** Lemmas: requests *)

(** The types of requests that the server answers. *)
Definition is_known (req : Z) : bool := ((1 <=? req) && (req <=? 5)) || ((10 <=? req) && (req <=? 15)).

(** What every request leaves, and its effect. *)
Record serves (req i : Z) (slot : cxl_shm_slot) (p : Pgas) (o : Outcome) : Prop := {
  sr_kept : kept_by p (oc_state o);
  sr_slot : slot_ok (oc_slot o) ∧ req_type (oc_slot o) = req_type slot ∧ resp_status (oc_slot o) = resp_status slot;
  sr_effect : effect req slot p o;
  sr_answer : is_known req = true → oc_resp o = Some CXL_SHM_RESP_OK ∨ oc_resp o = Some CXL_SHM_RESP_ERROR
}.

(** The parts of the slot that the server may change. *)
Lemma result_ok v lat d slot :
  slot_ok slot → length d = 64%nat →
  slot_ok (set_result v lat d slot) ∧ req_type (set_result v lat d slot) = req_type slot ∧ resp_status (set_result v lat d slot) = resp_status slot.
Proof. by intros [Ha Hs _] Hd. Qed.

Lemma overwrite_front bs d : (length bs ≤ length d)%nat → take (length bs) (overwrite 0 bs d) = bs.
Proof. intros Hl. unfold overwrite. change (take 0 d) with (@nil Z). cbn [app]. apply take_app_length. Qed.

Lemma finish_read_ok `{CastUB} i slot lat bs p p3 n :
  slot_ok slot → kept_by p p3 → same_bytes p p3 → n = Z.to_nat (copy_size p slot) → (n ≤ 64)%nat → bs = get (pg_off p) (addr slot) n (pg_mem p) →
  ∃ o, succeeded (set_result (value slot) lat (overwrite 0 bs (data slot)) slot) (record i slot false (count total_reads p3)) = Some o ∧
    serves CXL_SHM_REQ_READ i slot p o.
Proof.
  intros Hs Hk Hm Hn H64 Hbs. assert (length bs = n) as Hl by (rewrite Hbs; apply get_length). eexists. split; [reflexivity|]. split.
  - eapply kept_by_trans; [exact Hk|]. eapply kept_by_trans; [apply (count_kept total_reads), Hk|]. apply record_kept, (count_kept total_reads), Hk.
  - cbn [oc_slot]. apply result_ok; [done|]. rewrite overwrite_length; [apply Hs|]. rewrite (so_data _ Hs). lia.
  - unfold effect. cbn [Z.eqb oc_state oc_resp oc_slot set_result data]. split; [exact Hm|]. intros _. rewrite <- Hn, <- Hl, overwrite_front; [by rewrite Hbs, get_length|].
    rewrite (so_data _ Hs). lia.
  - by left.
Qed.

Lemma failed_ok req i slot slot' p p1 :
  kept_by p p1 → same_bytes p p1 → slot_ok slot' ∧ req_type slot' = req_type slot ∧ resp_status slot' = resp_status slot →
  ∃ o, failed slot' p1 = Some o ∧ serves req i slot p o.
Proof.
  intros Hk Hm Hs. eexists. split; [reflexivity|]. split; [done|done| |by right]. unfold effect. cbn [oc_resp oc_state oc_slot].
  rewrite bool_decide_false by done. assert (∀ v, ∃ k, ∀ x, 0 <= x → pg_mem p1 x = put (pg_off p) (addr slot) (take k (le_encode 8 v)) (pg_mem p) x) as Hput
    by (intros v; by exists 0%nat).
  destruct (_ =? CXL_SHM_REQ_READ); [by split|]. destruct (_ =? CXL_SHM_REQ_WRITE); [by exists 0%nat|].
  destruct (_ =? CXL_SHM_REQ_ATOMIC_FAA); [by exists 0, 0%nat|]. destruct (_ =? CXL_SHM_REQ_ATOMIC_CAS); [by exists 0, 0%nat|]. exact Hm.
Qed.

Lemma serve_read_ok `{CastUB} partial i slot p :
  pgas_inv p → slot_ok slot → length partial = 64%nat → addr slot / 64 < pg_memory_size p / 64 →
  ∃ o, serve_read partial i slot p = Some o ∧ serves CXL_SHM_REQ_READ i slot p o ∧
    (oc_resp o = Some CXL_SHM_RESP_OK → allowed p i slot (copy_size p slot) false false).
Proof.
  intros Hi Hs Hpl Hlt. unfold serve_read. pose proof (copy_size_range p slot Hi Hs) as [Hn _]. set (n := copy_size p slot) in *.
  destruct (check_pgas_fabric_access _ _ _ _ _ _) as [access c] eqn:E. apply access_ok in E as [Hk Hal]; [|done|done|unfold is_u64; lia].
  assert (same_bytes p (with_pool c p)) as Hm by done.
  destruct access as [fabric|].
  2: { destruct (failed_ok CXL_SHM_REQ_READ i slot slot p _ Hk Hm) as (o & Ho & Hsv); [done|]. exists o. split; [done|]. split; [done|]. injection Ho as <-. done. }
  specialize (Hal ltac:(by eexists)).
  destruct (touch_kept (line_of slot) (accessed (timestamp slot)) (with_pool c p) (kb_inv _ _ Hk)) as [Hk2 Hm2]. set (p2 := touch_entry _ _ _) in *.
  assert (kept_by p p2) as Hk2' by by eapply kept_by_trans. assert (same_bytes p p2) as Hm2' by exact Hm2.
  destruct (pg_entries p) as [es|] eqn:Ee.
  - destruct (slot_line p slot es Hi Hs Ee Hlt) as (Hb & e & He & Hlen). rewrite He. cbn [mbind option_bind].
    pose proof (copy_size_line p slot es Hi Hs Ee) as Hline. fold n in Hline.
    destruct (finish_read_ok i slot (f64_to_u64 (base_latency p + fabric)%f64) (take (Z.to_nat n) (drop (Z.to_nat (offset_in slot)) (pe_data e))) p p2 (Z.to_nat n))
      as (o & Ho & Hsv); [done|done|done|done|lia| |by exists o].
    unfold pg_off, pg_mem. rewrite Ee. apply table_get; [apply Hs|lia|done|done|done].
  - destruct (pv_backend p Hi Ee) as [Hst Hshm]. destruct (read_cacheline _ _ _) as [r m] eqn:Er.
    apply read_cacheline_ok in Er as (Hnf & Hkm & Hmem & Hbs); [|done|apply Hs|unfold is_u64; lia].
    assert (kept_by p (with_shm m p2)) as Hk3.
    { eapply kept_by_trans; [exact Hk2'|]. apply shm_kept; [apply Hk2'|unfold p2, touch_entry; cbn; by rewrite Ee|done]. }
    assert (same_bytes p (with_shm m p2)) as Hm3 by (intros x Hx; unfold pg_mem, p2, touch_entry; cbn; rewrite Ee; cbn; apply Hmem).
    destruct r as [bs| |]; [| |done].
    + destruct (Hbs bs eq_refl) as [_ Hget].
      destruct (finish_read_ok i slot (f64_to_u64 (base_latency p + fabric)%f64) bs p (with_shm m p2) (Z.to_nat n)) as (o & Ho & Hsv);
        [done|done|done|done|lia| |by exists o]. unfold pg_off, pg_mem. by rewrite Ee.
    + destruct (failed_ok CXL_SHM_REQ_READ i slot (set_result (value slot) (latency_ns slot) partial slot) p _ Hk3 Hm3) as (o & Ho & Hsv);
        [by apply result_ok|by exists o].
Qed.

(** New bytes for the line of a slot. *)
Lemma entry_stored p slot es e bs :
  pgas_inv p → slot_ok slot → pg_entries p = Some es → es !! line_of slot = Some e → length (pe_data e) = 64%nat → addr slot + 64 < TWO64 →
  addr slot mod 64 + Z.of_nat (length bs) <= 64 → ∀ c, pool_inv c →
  let p' := put_entry_data (line_of slot) (overwrite (Z.to_nat (offset_in slot)) bs (pe_data e)) (with_pool c p) in
  kept_by p p' ∧ ∀ x, 0 <= x → pg_mem p' x = put (pg_off p) (addr slot) bs (pg_mem p) x.
Proof.
  intros Hi Hs He Hlk Hlen Hb Hfit c Hc p'. pose proof (Z.mod_pos_bound (addr slot) 64 ltac:(lia)) as Hmod. split.
  - eapply kept_by_trans; [by apply (pool_kept c)|]. apply (alter_kept (line_of slot)); [by apply pool_kept|]. intros e' _. cbn [pe_data].
    rewrite overwrite_length; [done|]. unfold offset_in. lia.
  - intros x Hx. unfold p', put_entry_data, pg_mem, pg_off. cbn. rewrite He. cbn. apply (table_put _ _ _ e); [apply Hs|done..].
Qed.

Lemma finish_write_ok `{CastUB} i slot lat p p2 n :
  slot_ok slot → kept_by p p2 → n = Z.to_nat (copy_size p slot) →
  (∀ x, 0 <= x → pg_mem p2 x = put (pg_off p) (addr slot) (take n (data slot)) (pg_mem p) x) →
  ∃ o, succeeded (set_result (value slot) lat (data slot) slot)
      (record i slot true (count total_writes (touch_entry (line_of slot) (modified ∘ accessed (timestamp slot)) p2))) = Some o ∧
    serves CXL_SHM_REQ_WRITE i slot p o.
Proof.
  intros Hs Hk Hn Hm. eexists. split; [reflexivity|]. destruct (touch_kept (line_of slot) (modified ∘ accessed (timestamp slot)) p2 (kb_inv _ _ Hk)) as [Hk3 Hm3]. split.
  - eapply kept_by_trans; [exact Hk|]. eapply kept_by_trans; [exact Hk3|]. eapply kept_by_trans; [apply (count_kept total_writes), Hk3|].
    apply record_kept, (count_kept total_writes), Hk3.
  - cbn [oc_slot]. apply result_ok; [done|apply Hs].
  - unfold effect. cbn [Z.eqb oc_state oc_resp oc_slot]. change (CXL_SHM_REQ_WRITE =? CXL_SHM_REQ_READ) with false. change (CXL_SHM_REQ_WRITE =? CXL_SHM_REQ_WRITE) with true.
    cbn iota. exists n. rewrite <- Hn. split; [done|]. intros x Hx. rewrite take_take, Nat.min_id. etrans; [by apply Hm3|by apply Hm].
  - by left.
Qed.

Lemma serve_write_ok `{CastUB} i slot p :
  pgas_inv p → slot_ok slot → addr slot / 64 < pg_memory_size p / 64 →
  ∃ o, serve_write i slot p = Some o ∧ serves CXL_SHM_REQ_WRITE i slot p o ∧
    (oc_resp o = Some CXL_SHM_RESP_OK → allowed p i slot (copy_size p slot) true false).
Proof.
  intros Hi Hs Hlt. unfold serve_write. pose proof (copy_size_range p slot Hi Hs) as [Hn _]. set (n := copy_size p slot) in *.
  destruct (check_pgas_fabric_access _ _ _ _ _ _) as [access c] eqn:E. apply access_ok in E as [Hk Hal]; [|done|done|unfold is_u64; lia].
  assert (same_bytes p (with_pool c p)) as Hm by done.
  destruct access as [fabric|].
  2: { destruct (failed_ok CXL_SHM_REQ_WRITE i slot slot p _ Hk Hm) as (o & Ho & Hsv); [done|]. exists o. split; [done|]. split; [done|]. injection Ho as <-. done. }
  specialize (Hal ltac:(by eexists)). set (lat := f64_to_u64 _). set (bs := take (Z.to_nat n) (data slot)).
  assert (length bs = Z.to_nat n) as Hlb by (unfold bs; rewrite length_take, (so_data _ Hs); lia).
  destruct (pg_entries p) as [es|] eqn:Ee.
  - destruct (slot_line p slot es Hi Hs Ee Hlt) as (Hb & e & He & Hlen). rewrite He. cbn [mbind option_bind].
    pose proof (copy_size_line p slot es Hi Hs Ee) as Hline. fold n in Hline.
    destruct (entry_stored p slot es e bs Hi Hs Ee He Hlen Hb ltac:(lia) c (pv_pool _ (kb_inv _ _ Hk))) as [Hk2 Hm2].
    destruct (finish_write_ok i slot lat p _ (Z.to_nat n) Hs Hk2 eq_refl Hm2) as (o & Ho & Hsv). by exists o.
  - destruct (pv_backend p Hi Ee) as [Hst Hshm]. destruct (write_cacheline _ _ _) as [r m] eqn:Er.
    apply write_cacheline_ok in Er as (Hnf & Hkm & _ & k & Hkl & Hkd & Hmem); [|done|apply Hs|rewrite Hlb; unfold is_u64; lia].
    assert (kept_by p (with_shm m (with_pool c p))) as Hk3 by (eapply kept_by_trans; [exact Hk|]; apply shm_kept; [apply Hk|done|done]).
    assert (∀ x, 0 <= x → pg_mem (with_shm m (with_pool c p)) x = put (pg_off p) (addr slot) (take k bs) (pg_mem p) x) as Hm3
      by (intros x Hx; unfold pg_mem, pg_off; cbn; rewrite Ee; by apply Hmem).
    destruct r as [[]| |]; [| |done].
    + rewrite (Hkd eq_refl), firstn_all in Hm3. destruct (finish_write_ok i slot lat p _ (Z.to_nat n) Hs Hk3 eq_refl Hm3) as (o & Ho & Hsv). by exists o.
    + eexists. split; [reflexivity|]. split; [|done]. split; [exact Hk3|done| |by right]. unfold effect. cbn [oc_state oc_resp oc_slot].
      change (CXL_SHM_REQ_WRITE =? CXL_SHM_REQ_READ) with false. change (CXL_SHM_REQ_WRITE =? CXL_SHM_REQ_WRITE) with true. cbn iota.
      exists k. split; [by rewrite bool_decide_false|]. exact Hm3.
Qed.

(** The word that a request reads and the one it stores. *)
Definition new_word (req : Z) (slot : cxl_shm_slot) (old : Z) : option Z :=
  if req =? CXL_SHM_REQ_ATOMIC_FAA then Some (old +w value slot) else if old =? expected slot then Some (value slot) else None.

Lemma atomic_effect `{CastUB} req i slot p p2 c mark lat old :
  slot_ok slot → kept_by p p2 → req = CXL_SHM_REQ_ATOMIC_FAA ∨ req = CXL_SHM_REQ_ATOMIC_CAS → old = pg_word p (addr slot) →
  (∀ x, 0 <= x → pg_mem p2 x = match new_word req slot old with Some v => put (pg_off p) (addr slot) (le_encode 8 v) (pg_mem p) x | None => pg_mem p x end) →
  ∃ o, succeeded (set_result old lat (overwrite 0 (le_encode 8 old) (data slot)) slot) (count c (touch_entry (line_of slot) mark p2)) = Some o ∧
    serves req i slot p o.
Proof.
  intros Hs Hk Hreq Hold Hm. eexists. split; [reflexivity|]. destruct (touch_kept (line_of slot) mark p2 (kb_inv _ _ Hk)) as [Hk3 Hm3]. split.
  - eapply kept_by_trans; [exact Hk|]. eapply kept_by_trans; [exact Hk3|]. apply (count_kept c), Hk3.
  - cbn [oc_slot]. apply result_ok; [done|]. rewrite overwrite_length; [apply Hs|]. rewrite le_encode_length, (so_data _ Hs). lia.
  - assert (∀ x, 0 <= x → pg_mem (count c (touch_entry (line_of slot) mark p2)) x =
      match new_word req slot old with Some v => put (pg_off p) (addr slot) (le_encode 8 v) (pg_mem p) x | None => pg_mem p x end) as Hm4
      by (intros x Hx; etrans; [by apply Hm3|by apply Hm]).
    unfold effect. cbn [oc_state oc_resp oc_slot set_result value]. rewrite bool_decide_true by done.
    destruct Hreq as [-> | ->]; unfold new_word in Hm4; cbn [Z.eqb]; (split; [done|]); rewrite <- Hold; [exact Hm4|]. by destruct (old =? expected slot).
  - by left.
Qed.

Lemma serve_atomic_ok `{CastUB} req c mark i slot p :
  pgas_inv p → slot_ok slot → addr slot / 64 < pg_memory_size p / 64 → req = CXL_SHM_REQ_ATOMIC_FAA ∨ req = CXL_SHM_REQ_ATOMIC_CAS →
  ∃ o, serve_atomic c (new_word req slot) mark i slot p = Some o ∧ serves req i slot p o ∧
    (oc_resp o = Some CXL_SHM_RESP_OK → allowed p i slot 8 true true).
Proof.
  intros Hi Hs Hlt Hreq. unfold serve_atomic.
  destruct (check_pgas_fabric_access _ _ _ _ _ _) as [access pool] eqn:E. apply access_ok in E as [Hk Hal]; [|done..].
  assert (same_bytes p (with_pool pool p)) as Hm by done.
  assert (∀ p1, kept_by p p1 → same_bytes p p1 → ∃ o, failed slot p1 = Some o ∧ serves req i slot p o ∧ (oc_resp o = Some CXL_SHM_RESP_OK → allowed p i slot 8 true true)) as Hfail.
  { intros p1 Hk1 Hm1. destruct (failed_ok req i slot slot p p1 Hk1 Hm1) as (o & Ho & Hsv); [done|]. exists o. split; [done|]. split; [done|]. injection Ho as <-. done. }
  destruct access as [fabric|]; [|by apply Hfail]. specialize (Hal ltac:(by eexists)). set (lat := f64_to_u64 _).
  destruct (_ <? _); [by apply Hfail|]. destruct (pg_entries p) as [es|] eqn:Ee.
  - destruct (64 <? offset_in slot + 8) eqn:E8; btests; [by apply Hfail|].
    destruct (slot_line p slot es Hi Hs Ee Hlt) as (Hb & e & He & Hlen). rewrite He. cbn [mbind option_bind].
    set (old := le_decode _). assert (old = pg_word p (addr slot)) as Hold.
    { unfold old, pg_word. f_equal. unfold pg_off, pg_mem. rewrite Ee. apply (table_get es (addr slot) 8 e); [apply Hs|unfold offset_in in E8; lia|done..]. }
    destruct (new_word req slot old) as [v|] eqn:Ev.
    + destruct (entry_stored p slot es e (le_encode 8 v) Hi Hs Ee He Hlen Hb) with (c := pool) as [Hk2 Hm2];
        [rewrite le_encode_length; unfold offset_in in E8; lia|apply Hk|].
      destruct (atomic_effect req i slot p _ c mark lat old Hs Hk2 Hreq Hold) as (o & Ho & Hsv); [by rewrite Ev|]. by exists o.
    + destruct (atomic_effect req i slot p _ c mark lat old Hs Hk Hreq Hold) as (o & Ho & Hsv); [by rewrite Ev|]. by exists o.
  - destruct (pv_backend p Hi Ee) as [Hst Hshm]. destruct (atomic_rmw _ _ _) as [r m] eqn:Er.
    apply atomic_rmw_ok in Er as [Hkm Hres]; [|done|apply Hs].
    assert (kept_by p (with_shm m (with_pool pool p))) as Hk3 by (eapply kept_by_trans; [exact Hk|]; apply shm_kept; [apply Hk|done|done]).
    destruct r as [old| |]; cbn in Hres; [| |done].
    + destruct Hres as [Hold Hmem]. destruct (atomic_effect req i slot p (with_shm m (with_pool pool p)) c mark lat old Hs Hk3 Hreq) as (o & Ho & Hsv); [..|by exists o].
      * rewrite Hold. unfold pg_word, pg_off, pg_mem. by rewrite Ee.
      * intros x Hx. unfold pg_mem, pg_off. cbn. rewrite Ee. by apply Hmem.
    + destruct Hres as (v & k & _ & _ & Hmem). eexists. split; [reflexivity|]. split; [|done]. split; [exact Hk3|done| |by right]. unfold effect. cbn [oc_state oc_resp oc_slot].
      rewrite bool_decide_false by done. assert (∃ v k, ∀ x, 0 <= x → pg_mem (with_shm m (with_pool pool p)) x = put (pg_off p) (addr slot) (take k (le_encode 8 v)) (pg_mem p) x) as Hput
        by (exists v, k; intros x Hx; unfold pg_mem, pg_off; cbn; rewrite Ee; by apply Hmem).
      by destruct Hreq as [-> | ->].
Qed.

Lemma other_effect req slot p o : CXL_SHM_REQ_ATOMIC_CAS < req → same_bytes p (oc_state o) → effect req slot p o.
Proof.
  unfold CXL_SHM_REQ_ATOMIC_CAS. intros Hr Hm. unfold effect, CXL_SHM_REQ_READ, CXL_SHM_REQ_WRITE, CXL_SHM_REQ_ATOMIC_FAA, CXL_SHM_REQ_ATOMIC_CAS.
  rewrite !(proj2 (Z.eqb_neq _ _)) by lia. exact Hm.
Qed.

Lemma serve_fence_ok i slot p : pgas_inv p → slot_ok slot → ∃ o, serve_fence slot p = Some o ∧ serves CXL_SHM_REQ_FENCE i slot p o.
Proof.
  intros Hi Hs. unfold serve_fence. destruct (pg_entries p) as [es|] eqn:Ee.
  - destruct (pv_table p Hi es Ee) as [-> _]. assert (kept_by p (with_shm (sv_shm (pg_server p)) p)) as Hk.
    { destruct Hi as [H1 H2 H3 H4]. split; [by split|done..]. }
    eexists. split; [reflexivity|]. split; [|by apply result_ok; [|apply Hs]|by apply other_effect|by left].
    eapply kept_by_trans; [exact Hk|]. apply (count_kept total_fences), Hk.
  - destruct (pv_backend p Hi Ee) as [-> Hshm]. destruct (flush _) as [ok m] eqn:Ef. apply flush_kept in Ef as [Hkm Hmem]; [|done].
    pose proof (shm_kept m p Hi Ee Hkm) as Hk. assert (same_bytes p (with_shm m p)) as Hm by (intros x Hx; unfold pg_mem; cbn; rewrite Ee; apply Hmem).
    destruct ok; [|by apply failed_ok]. eexists. split; [reflexivity|]. split; [|by apply result_ok; [|apply Hs]|by apply other_effect|by left].
    eapply kept_by_trans; [exact Hk|]. apply (count_kept total_fences), Hk.
Qed.

Lemma write_u64_length o v d : 0 <= o → length d = 64%nat → length (write_u64 o v d) = 64%nat.
Proof.
  intros Ho Hd. unfold write_u64. destruct (_ <=? 64) eqn:E; btests; [|done]. rewrite !length_app, length_take, length_drop, le_encode_length. lia.
Qed.

Lemma with_pool_same p : with_pool (sv_pool (pg_server p)) p = p.
Proof. by destruct p as [[] ? ? ?]. Qed.

(** The same request over TCP; the operations there count from 8. *)
Definition tcp_request (req : Z) (slot : cxl_shm_slot) : ServerRequest :=
  {| rq_op_type := req - 2; rq_addr := addr slot; rq_size := size slot; rq_timestamp := timestamp slot; rq_value := value slot;
     rq_expected := expected slot; rq_data := [] |}.

Definition is_management (req : Z) : Prop := CXL_SHM_REQ_DCD_ADD <= req <= CXL_SHM_REQ_GFAM_QUERY.

(** The requests that return a word. *)
Definition returns_value (req : Z) : bool :=
  (req =? CXL_SHM_REQ_DCD_ADD) || (req =? CXL_SHM_REQ_DCD_QUERY) || (req =? CXL_SHM_REQ_GFAM_QUERY).

(** Evaluates the tests of the type of a request. *)
Ltac eval_tests :=
  repeat match goal with
  | |- context [Z.eqb (Zpos ?a - 2) ?b] => let v := eval vm_compute in (Z.eqb (Zpos a - 2) b) in change (Z.eqb (Zpos a - 2) b) with v
  | |- context [Z.eqb (Zpos ?a) ?b] => let v := eval vm_compute in (Z.eqb (Zpos a) b) in change (Z.eqb (Zpos a) b) with v
  end; cbn iota; cbn [fst snd sr_status sr_old_value sr_data].

Lemma management_tcp `{CastUB} i req slot p :
  is_management req →
  let r := handle_capacity_management_request i (tcp_request req slot) (data slot) (sv_pool (pg_server p)) in
  serve_management i req slot p =
    managed (if sr_status r.1 =? 0 then CXL_SHM_RESP_OK else CXL_SHM_RESP_ERROR) (if returns_value req then sr_old_value r.1 else value slot)
      (sr_data r.1) slot (with_pool r.2 p).
Proof.
  unfold is_management, CXL_SHM_REQ_DCD_ADD, CXL_SHM_REQ_GFAM_QUERY. intros Hr.
  assert (req = 10 ∨ req = 11 ∨ req = 12 ∨ req = 13 ∨ req = 14 ∨ req = 15) as Hc by lia.
  unfold serve_management, handle_capacity_management_request, tcp_request. cbn [rq_op_type rq_addr rq_size rq_timestamp rq_value rq_expected].
  destruct Hc as [->|[->|[->|[->|[->| ->]]]]]; eval_tests.
  - destruct (dcd_add_capacity _ _ _ _ _) as [r c1]. cbn [fst snd sr_status sr_old_value sr_data]. f_equal. by destruct (da_status r).
  - destruct (dcd_release_capacity _ _ _ _ _) as [r c1]. cbn [fst snd sr_status sr_old_value sr_data]. f_equal. by destruct r.
  - by rewrite with_pool_same.
  - destruct (gfam_grant_access _ _ _ _ _) as [r c1]. cbn [fst snd sr_status sr_old_value sr_data]. f_equal. by destruct r.
  - destruct (gfam_revoke_access _ _ _ _) as [r c1]. cbn [fst snd sr_status sr_old_value sr_data]. f_equal. by destruct r.
  - by rewrite with_pool_same.
Qed.

Lemma management_data `{CastUB} thread req d c :
  length d = 64%nat → length (sr_data (handle_capacity_management_request thread req d c).1) = 64%nat.
Proof.
  intros Hd. unfold handle_capacity_management_request.
  destruct (_ =? OP_DCD_ADD). { destruct (dcd_add_capacity _ _ _ _ _). cbn [fst sr_data]. by repeat apply write_u64_length. }
  destruct (_ =? OP_DCD_RELEASE). { by destruct (dcd_release_capacity _ _ _ _ _). }
  destruct (_ =? OP_DCD_QUERY). { cbn [fst sr_data]. by repeat apply write_u64_length. }
  destruct (_ =? OP_GFAM_MAP). { by destruct (gfam_grant_access _ _ _ _ _). }
  destruct (_ =? OP_GFAM_UNMAP). { by destruct (gfam_revoke_access _ _ _ _). }
  destruct (_ =? OP_GFAM_QUERY); [|done]. cbn [fst sr_data]. by repeat apply write_u64_length.
Qed.

Lemma serve_management_ok `{CastUB} i req slot p :
  is_management req → pgas_inv p → slot_ok slot → ∃ o, serve_management i req slot p = Some o ∧ serves req i slot p o.
Proof.
  intros Hr Hi Hs. rewrite management_tcp by done. set (r := handle_capacity_management_request _ _ _ _). eexists. split; [reflexivity|]. split.
  - apply pool_kept; [done|]. apply manage_inv; [apply Hi|]. split; apply Hs.
  - apply result_ok; [done|]. apply management_data, Hs.
  - apply other_effect; [|done]. unfold is_management, CXL_SHM_REQ_DCD_ADD, CXL_SHM_REQ_ATOMIC_CAS in *. lia.
  - intros _. cbn. destruct (_ =? 0); [by left|by right].
Qed.

(** Requests that access memory, with the size and the kind of their access. *)
Definition access_of (req : Z) (p : Pgas) (slot : cxl_shm_slot) : option (Z * bool * bool) :=
  if req =? CXL_SHM_REQ_READ then Some (copy_size p slot, false, false)
  else if req =? CXL_SHM_REQ_WRITE then Some (copy_size p slot, true, false)
  else if (req =? CXL_SHM_REQ_ATOMIC_FAA) || (req =? CXL_SHM_REQ_ATOMIC_CAS) then Some (8, true, true) else None.

Lemma serve_slot_ok `{CastUB} partial i req slot p :
  pgas_inv p → slot_ok slot → length partial = 64%nat →
  ∃ o, serve_slot partial i req slot p = Some o ∧ serves req i slot p o ∧
    (oc_resp o = Some CXL_SHM_RESP_OK → match access_of req p slot with Some (n, w, a) => allowed p i slot n w a | None => True end) ∧
    (is_known req = false → addr slot / 64 < pg_memory_size p / 64 → oc_resp o = None) ∧ oc_resp o ≠ Some CXL_SHM_RESP_NONE.
Proof.
  intros Hi Hs Hpl. assert (∀ o, serves req i slot p o → is_known req = true → oc_resp o ≠ Some CXL_SHM_RESP_NONE) as Hne
    by (intros o Hsv Hk; by destruct (sr_answer _ _ _ _ _ Hsv Hk) as [-> | ->]).
  unfold serve_slot. destruct (_ <=? _) eqn:Elt; btests.
  { destruct (failed_ok req i slot slot p p (kept_by_refl p Hi)) as (o & Ho & [Hk Hsl Hef Han]); [done|done|]. injection Ho as <-.
    eexists. split; [reflexivity|]. split_and!; [by split|done|lia|done]. }
  unfold access_of, is_known. destruct (req =? CXL_SHM_REQ_READ) eqn:E1; [apply Z.eqb_eq in E1 as ->|apply Z.eqb_neq in E1].
  { destruct (serve_read_ok partial i slot p Hi Hs Hpl Elt) as (o & -> & Hsv & Hal). exists o. split_and!; [done..|discriminate|by apply Hne]. }
  destruct (req =? CXL_SHM_REQ_WRITE) eqn:E2; [apply Z.eqb_eq in E2 as ->|apply Z.eqb_neq in E2].
  { destruct (serve_write_ok i slot p Hi Hs Elt) as (o & -> & Hsv & Hal). exists o. split_and!; [done..|discriminate|by apply Hne]. }
  destruct (req =? CXL_SHM_REQ_ATOMIC_FAA) eqn:E3; [apply Z.eqb_eq in E3 as ->|apply Z.eqb_neq in E3].
  { destruct (serve_atomic_ok CXL_SHM_REQ_ATOMIC_FAA total_atomic_faa (modified ∘ counted) i slot p Hi Hs Elt) as (o & Ho & Hsv & Hal); [by left|]. exists o. split_and!; [done..|discriminate|by apply Hne]. }
  destruct (req =? CXL_SHM_REQ_ATOMIC_CAS) eqn:E4; [apply Z.eqb_eq in E4 as ->|apply Z.eqb_neq in E4].
  { destruct (serve_atomic_ok CXL_SHM_REQ_ATOMIC_CAS total_atomic_cas (versioned ∘ counted) i slot p Hi Hs Elt) as (o & Ho & Hsv & Hal); [by right|]. exists o. split_and!; [done..|discriminate|by apply Hne]. }
  cbn [orb]. destruct (req =? CXL_SHM_REQ_FENCE) eqn:E5; [apply Z.eqb_eq in E5 as ->|apply Z.eqb_neq in E5].
  { destruct (serve_fence_ok i slot p Hi Hs) as (o & -> & Hsv). exists o. split_and!; [done..|discriminate|by apply Hne]. }
  unfold CXL_SHM_REQ_READ, CXL_SHM_REQ_WRITE, CXL_SHM_REQ_ATOMIC_FAA, CXL_SHM_REQ_ATOMIC_CAS, CXL_SHM_REQ_FENCE in *.
  destruct ((CXL_SHM_REQ_DCD_ADD <=? req) && (req <=? CXL_SHM_REQ_GFAM_QUERY)) eqn:E6.
  { apply andb_prop in E6 as [H1 H2]. btests. destruct (serve_management_ok i req slot p) as (o & -> & Hsv); [by split|done|done|]. unfold CXL_SHM_REQ_DCD_ADD, CXL_SHM_REQ_GFAM_QUERY in *.
    exists o. split_and!; [done|done|done|lia|apply Hne; [done|]]. unfold is_known. lia. }
  eexists. split; [reflexivity|]. assert (is_known req = false) as Hk.
  { unfold is_known. unfold CXL_SHM_REQ_DCD_ADD, CXL_SHM_REQ_GFAM_QUERY in E6. rewrite E6, orb_false_r. destruct (1 <=? req) eqn:?, (req <=? 5) eqn:?; btests; try done. lia. }
  split_and!; [|done|done|done]. split; [by apply kept_by_refl|done| |by rewrite Hk]. unfold effect.
  unfold CXL_SHM_REQ_READ, CXL_SHM_REQ_WRITE, CXL_SHM_REQ_ATOMIC_FAA, CXL_SHM_REQ_ATOMIC_CAS. rewrite !(proj2 (Z.eqb_neq _ _)) by done. done.
Qed.

(** ** The protocol of a slot

    As long as the client has not given up, each request is handled once, as it was
    submitted, and the response that the client takes is the one of its request. *)

#[global] Instance cxl_shm_slot_eq_dec : EqDecision cxl_shm_slot.
Proof. solve_decision. Defined.

Inductive Phase := Idle | Pending (s : cxl_shm_slot) | Replied (s : cxl_shm_slot) | Lost.

Definition ev_slot (e : Event) : nat := match e with Submitted i _ | Handled i _ _ _ _ | Taken i _ | GaveUp i => i end.

Definition gave_up (i : nat) (es : list Event) : bool := existsb (λ e, match e with GaveUp j => Nat.eqb j i | _ => false end) es.

Definition advance (ph : Phase) (e : Event) : option Phase :=
  match ph, e with
  | Idle, Submitted _ s => Some (Pending s)
  | Pending s, Handled _ req s1 resp s2 =>
      if decide (req = req_type s ∧ s1 = set_type CXL_SHM_REQ_NONE s) then Some (if resp is Some _ then Replied s2 else Lost) else None
  | Replied s, Taken _ s1 => if decide (s1 = s) then Some Idle else None
  | _, _ => None
  end.

(** The phase of slot [i] after some events; [None]: they break the protocol. *)
Fixpoint phase (i : nat) (es : list Event) : option Phase :=
  match es with
  | [] => Some Idle
  | e :: rest => ph ← phase i rest; if decide (ev_slot e = i) then advance ph e else Some ph
  end.

(** *** Invariant *)

Definition serving (w : WorkerPc) : option nat := match w with WServe i _ | WRespond i _ => Some i | _ => None end.
Definition worker_slot (w : WorkerPc) : nat := match w with WScan i | WClaim i _ | WServe i _ | WRespond i _ => i end.

(** The worker that has claimed slot [i]. *)
Definition worker_at (ws : list WorkerPc) (i : nat) (w : option WorkerPc) : Prop :=
  match w with
  | None => ∀ k w', ws !! k = Some w' → serving w' ≠ Some i
  | Some w => serving w = Some i ∧ ∃ k, ws !! k = Some w ∧ ∀ k' w', ws !! k' = Some w' → serving w' = Some i → k' = k
  end.

(** The state of a slot whose client awaits a status. *)
Inductive in_service (i : nat) (s : cxl_shm_slot) : option WorkerPc → Phase → Prop :=
  | sv_pending : req_type s ≠ CXL_SHM_REQ_NONE → resp_status s = CXL_SHM_RESP_NONE → in_service i s None (Pending s)
  | sv_claimed s0 : s = set_type CXL_SHM_REQ_NONE s0 → resp_status s = CXL_SHM_RESP_NONE →
      in_service i s (Some (WServe i (req_type s0))) (Pending s0)
  | sv_responds r : r ≠ CXL_SHM_RESP_NONE → req_type s = CXL_SHM_REQ_NONE → resp_status s = CXL_SHM_RESP_NONE →
      in_service i s (Some (WRespond i r)) (Replied (set_resp r s))
  | sv_replied : req_type s = CXL_SHM_REQ_NONE → resp_status s ≠ CXL_SHM_RESP_NONE → in_service i s None (Replied s)
  | sv_lost : req_type s = CXL_SHM_REQ_NONE → resp_status s = CXL_SHM_RESP_NONE → in_service i s None Lost.

Definition slot_inv (i : nat) (c : ClientPc) (s : cxl_shm_slot) (w : option WorkerPc) (ph : Phase) : Prop :=
  match c with
  | CAwait _ _ => in_service i s w ph
  | CTake => ph = Replied s ∧ req_type s = CXL_SHM_REQ_NONE ∧ w = None
  | CClearStatus => ph = Idle ∧ req_type s = CXL_SHM_REQ_NONE ∧ w = None
  | _ => ph = Idle ∧ req_type s = CXL_SHM_REQ_NONE ∧ resp_status s = CXL_SHM_RESP_NONE ∧ w = None
  end.

Definition worker_ok (n : nat) (w : WorkerPc) : Prop :=
  (worker_slot w < n)%nat ∧ match w with WClaim _ req => req ≠ CXL_SHM_REQ_NONE | _ => True end.

Definition client_query (c : ClientPc) : Prop := 
  match c with CWait q retries | CAwait q retries => query_ok q ∧ 0 <= retries | CFill q | CSubmit q => query_ok q | _ => True end.

Record system_inv (es : list Event) (y : System) : Prop := {
  yi_pgas : pgas_inv (sy_pgas y);
  yi_slots : Forall slot_ok (pg_slots (sy_pgas y));
  yi_workers : Forall (worker_ok (length (pg_slots (sy_pgas y)))) (sy_workers y);
  yi_clients : length (sy_clients y) = length (pg_slots (sy_pgas y)) ∧ Forall client_query (sy_clients y);
  yi_slot : ∀ i c s, sy_clients y !! i = Some c → pg_slots (sy_pgas y) !! i = Some s → gave_up i es = false →
    ∃ w ph, worker_at (sy_workers y) i w ∧ phase i es = Some ph ∧ slot_inv i c s w ph
}.

(** *** Lemmas: workers *)

Lemma worker_at_other ws k w w' i o :
  ws !! k = Some w → serving w ≠ Some i → serving w' ≠ Some i → worker_at ws i o → worker_at (<[k := w']> ws) i o.
Proof.
  intros Hk Hw Hw'. destruct o as [x|]; cbn.
  - intros (Hx & k0 & Hk0 & Hu). split; [done|]. assert (k ≠ k0) as Hne by congruence. exists k0. split; [by rewrite list_lookup_insert_ne|].
    intros k' x' [(-> & <- & _)|[_ Hl]]%list_lookup_insert_Some Hs; [done|by eapply Hu].
  - intros Hn k' x' [(-> & <- & _)|[_ Hl]]%list_lookup_insert_Some; [done|by eapply Hn].
Qed.

Lemma worker_at_enter ws k w' i :
  (k < length ws)%nat → serving w' = Some i → worker_at ws i None → worker_at (<[k := w']> ws) i (Some w').
Proof.
  intros Hk Hw' Hn. split; [done|]. exists k. split; [by apply list_lookup_insert_eq|].
  intros k' x' [(-> & _)|[_ Hl]]%list_lookup_insert_Some Hs; [done|]. by apply Hn in Hl.
Qed.

Lemma worker_at_move ws k w w' i :
  ws !! k = Some w → serving w' = Some i → worker_at ws i (Some w) → worker_at (<[k := w']> ws) i (Some w').
Proof.
  intros Hk Hw' (Hw & k0 & Hk0 & Hu). assert (k = k0) as <- by by eapply Hu. split; [done|]. exists k.
  split; [apply list_lookup_insert_eq; by eapply lookup_lt_Some|].
  intros k' x' [(-> & _)|[_ Hl]]%list_lookup_insert_Some Hs; [done|by eapply Hu].
Qed.

Lemma worker_at_leave ws k w w' i :
  ws !! k = Some w → serving w' ≠ Some i → worker_at ws i (Some w) → worker_at (<[k := w']> ws) i None.
Proof.
  intros Hk Hw' (Hw & k0 & Hk0 & Hu). assert (k = k0) as <- by by eapply Hu.
  intros k' x' [(-> & <- & _)|[Hne Hl]]%list_lookup_insert_Some; [done|]. intros Hs. apply Hne. symmetry. by eapply Hu.
Qed.

(** A worker at its slot is the one that has claimed it. *)
Lemma worker_at_self ws k w i o : ws !! k = Some w → serving w = Some i → worker_at ws i o → o = Some w.
Proof.
  intros Hk Hs. destruct o as [x|]; cbn; [|intros Hn; by apply Hn in Hk]. intros (Hx & k0 & Hk0 & Hu). assert (k = k0) as <- by by eapply Hu. congruence.
Qed.

Lemma phase_other i e es ph : phase i es = Some ph → ev_slot e ≠ i → phase i (e :: es) = Some ph.
Proof. intros Hp Hne. cbn. rewrite Hp. cbn. by rewrite decide_False. Qed.

Lemma phase_self i e es ph ph' : phase i es = Some ph → ev_slot e = i → advance ph e = Some ph' → phase i (e :: es) = Some ph'.
Proof. intros Hp He Ha. cbn. rewrite Hp. cbn. by rewrite decide_True. Qed.

(** *** Lemmas: clients *)

Lemma fill_ok q s : query_ok q → slot_ok s → slot_ok (fill q s) ∧ req_type (fill q s) = req_type s ∧ resp_status (fill q s) = resp_status s.
Proof.
  intros (_ & Ha & Hd) [H1 H2 H3]. unfold fill. destruct (q_args q) as [[[a n] ts]|]; cbn; destruct (q_words q) as [[v e]|]; cbn;
    (split; [|done]); (split; cbn; [apply Ha || done|apply Ha || done|]); (destruct (q_data q) as [bs|]; [|done]); rewrite overwrite_length; lia.
Qed.

Lemma set_type_ok t s : slot_ok s → slot_ok (set_type t s).
Proof. intros [H1 H2 H3]. by split. Qed.

Lemma set_resp_ok r s : slot_ok s → slot_ok (set_resp r s).
Proof. intros [H1 H2 H3]. by split. Qed.

Lemma put_slot_inv i s p : pgas_inv p → pgas_inv (put_slot i s p).
Proof. intros [H1 H2 H3 H4]. by split. Qed.

#[local] Hint Resolve set_type_ok set_resp_ok put_slot_inv : core.

(** *** Steps *)

Definition event_list (e : option Event) (es : list Event) : list Event := match e with Some ev => ev :: es | None => es end.

Lemma gave_up_before i e es : gave_up i (event_list e es) = false → gave_up i es = false.
Proof. destruct e as [ev|]; [|done]. cbn. intros [_ Hg]%orb_false_iff. done. Qed.

(** A step changes the state of one slot only. *)
Lemma update_inv es y p' ws' e i c' s' :
  system_inv es y → pgas_inv p' → pg_slots p' = <[i := s']> (pg_slots (sy_pgas y)) → slot_ok s' →
  Forall (worker_ok (length (pg_slots (sy_pgas y)))) ws' → client_query c' →
  (∀ j o, j ≠ i → worker_at (sy_workers y) j o → worker_at ws' j o) → (∀ ev, e = Some ev → ev_slot ev = i) →
  (gave_up i (event_list e es) = false →
   ∃ w ph, worker_at ws' i w ∧ phase i (event_list e es) = Some ph ∧ slot_inv i c' s' w ph) →
  system_inv (event_list e es) {| sy_pgas := p'; sy_workers := ws'; sy_clients := <[i := c']> (sy_clients y) |}.
Proof.
  intros [Hp Hs Hw [Hcl Hcq] Hsl] Hp' Hps Hs' Hw' Hc' Hwo He Hi. split; cbn; rewrite ?Hps, ?length_insert.
  - done.
  - by apply Forall_insert.
  - done.
  - split; [done|]. by apply Forall_insert.
  - intros j c s [(<- & <- & _)|[Hne Hc]]%list_lookup_insert_Some.
    + intros [(_ & <- & _)|[? _]]%list_lookup_insert_Some; [exact Hi|done].
    + rewrite list_lookup_insert_ne by done. intros Hsj Hgu. destruct (Hsl j c s Hc Hsj (gave_up_before j e es Hgu)) as (w & ph & Hwa & Hph & Hin).
      exists w, ph. split; [by apply Hwo|]. split; [|done]. destruct e as [ev|]; [|done]. apply phase_other; [done|]. by rewrite (He ev).
Qed.

(** A step of the client of slot [i], as its state allows. *)
Lemma client_slot_step i c s c' s' e es w ph :
  client_step i c s = (c', s', e) → client_query c → gave_up i (event_list e es) = false → phase i es = Some ph → slot_inv i c s w ph →
  ∃ ph', phase i (event_list e es) = Some ph' ∧ slot_inv i c' s' w ph'.
Proof.
  intros Hst Hq Hg Hph Hin. destruct c as [|q n|q|q|q n| | |]; cbn in Hst.
  5: { destruct (resp_status s =? _) eqn:E, (0 <? n) eqn:En, (n =? 0) eqn:E0; cbn in Hst; injection Hst as <- <- <-; btests;
         try (exfalso; destruct Hq; lia); try (cbn in Hg; by rewrite Nat.eqb_refl in Hg); exists ph; (split; [done|]); [exact Hin|].
       by destruct Hin as [? | ? ? | ? ? ? | |]. }
  all: injection Hst as <- <- <-; cbn [event_list].
  - by exists ph.
  - exists ph. split; [done|]. destruct (negb _ && _); [done|]. by destruct (_ =? _).
  - exists ph. split; [done|]. destruct q as [t [[[a k] ts]|] [[v x]|] d]; exact Hin.
  - destruct Hin as (-> & Ht & Hr & ->). eexists. split; [by eapply phase_self|]. by apply sv_pending; [apply Hq|].
  - destruct Hin as (-> & Ht & ->). exists Idle. split; [|done]. eapply phase_self; [done|done|]. cbn. by rewrite decide_True.
  - destruct Hin as (-> & Ht & ->). by exists Idle.
  - destruct Hin as (-> & Ht & Hr & ->). by exists Idle.
Qed.

Lemma client_step_event i c s c' s' e ev : client_step i c s = (c', s', e) → e = Some ev → ev_slot ev = i.
Proof. intros Hst ->. destruct c; cbn in Hst; simplify_eq; try done. by repeat case_match; simplify_eq. Qed.

Lemma client_step_ok i c s c' s' e :
  client_step i c s = (c', s', e) → client_query c → slot_ok s → slot_ok s' ∧ client_query c'.
Proof.
  intros Hst Hq Hs. destruct c as [|q n|q|q|q n| | |]; cbn in Hst.
  5: { destruct (_ && _) eqn:E; [|destruct (n =? 0)]; injection Hst as <- <- <-; (split; [done|]); cbn in *; [split; [apply Hq|lia]| |done].
       by destruct (q_type q =? _). }
  all: injection Hst as <- <- <-; split; try done; auto.
  - destruct (_ && _) eqn:E; [cbn in *; split; [apply Hq|lia]|]. destruct (_ =? 0); [done|]. apply Hq.
  - by apply fill_ok.
Qed.

Lemma client_preserves es y i c s c' s' e :
  system_inv es y → sy_clients y !! i = Some c → pg_slots (sy_pgas y) !! i = Some s → client_step i c s = (c', s', e) →
  system_inv (event_list e es) {| sy_pgas := put_slot i s' (sy_pgas y); sy_workers := sy_workers y; sy_clients := <[i := c']> (sy_clients y) |}.
Proof.
  intros Hy Hc Hs Hst. pose proof (proj1 (Forall_lookup _ _) (proj2 (yi_clients _ _ Hy)) i c Hc) as Hq.
  pose proof (proj1 (Forall_lookup _ _) (yi_slots _ _ Hy) i s Hs) as Hso. destruct (client_step_ok _ _ _ _ _ _ Hst Hq Hso) as [Hs' Hq'].
  apply update_inv with (s' := s'); [done|apply put_slot_inv, Hy|done|done|apply Hy|done|done|intros ev; by eapply client_step_event|].
  intros Hg. destruct (yi_slot _ _ Hy i c s Hc Hs (gave_up_before _ _ _ Hg)) as (w & ph & Hw & Hph & Hin).
  destruct (client_slot_step _ _ _ _ _ _ _ _ _ Hst Hq Hg Hph Hin) as (ph' & Hph' & Hin'). by exists w, ph'.
Qed.

(** What a worker finds at its slot, and what it leaves; [own_slot] is the part that
    holds as long as the client of the slot has not given up. *)
Record at_slot (y : System) (k : nat) (w : WorkerPc) (c : ClientPc) (s : cxl_shm_slot) : Prop := {
  at_worker : sy_workers y !! k = Some w ∧ worker_ok (length (pg_slots (sy_pgas y))) w;
  at_client : sy_clients y !! worker_slot w = Some c ∧ client_query c;
  at_here : pg_slots (sy_pgas y) !! worker_slot w = Some s ∧ slot_ok s
}.

Definition own_slot (es : list Event) (y : System) (w : WorkerPc) (c : ClientPc) (s : cxl_shm_slot) (o : option WorkerPc) (ph : Phase) : Prop :=
  worker_at (sy_workers y) (worker_slot w) o ∧ phase (worker_slot w) es = Some ph ∧ slot_inv (worker_slot w) c s o ph.

Lemma worker_finds es y k w :
  system_inv es y → sy_workers y !! k = Some w →
  ∃ c s, at_slot y k w c s ∧ (gave_up (worker_slot w) es = false → ∃ o ph, own_slot es y w c s o ph).
Proof.
  intros [Hp Hs Hw [Hcl Hcq] Hsl] Hk. pose proof (proj1 (Forall_lookup _ _) Hw k w Hk) as [Hlt Hwk].
  destruct (lookup_lt_is_Some_2 (pg_slots (sy_pgas y)) (worker_slot w) Hlt) as [s Hsi].
  destruct (lookup_lt_is_Some_2 (sy_clients y) (worker_slot w)) as [c Hci]; [lia|].
  exists c, s. split; [|intros Hg; by destruct (Hsl _ c s Hci Hsi Hg) as (o & ph & ?); exists o, ph].
  split; [by split|split; [done|]|split; [done|]].
  - by apply (proj1 (Forall_lookup _ _) Hcq _ c Hci).
  - by apply (proj1 (Forall_lookup _ _) Hs _ s Hsi).
Qed.

Lemma worker_update es y k w c s w' p' s' e :
  system_inv es y → at_slot y k w c s → (gave_up (worker_slot w) es = false → ∃ o ph, own_slot es y w c s o ph) →
  pgas_inv p' → pg_slots p' = <[worker_slot w := s']> (pg_slots (sy_pgas y)) → slot_ok s' →
  worker_ok (length (pg_slots (sy_pgas y))) w' → (serving w' = None ∨ serving w' = Some (worker_slot w)) →
  (∀ ev, e = Some ev → ev_slot ev = worker_slot w) →
  (∀ o ph, own_slot es y w c s o ph → ∃ o' ph', worker_at (<[k := w']> (sy_workers y)) (worker_slot w) o' ∧
     phase (worker_slot w) (event_list e es) = Some ph' ∧ slot_inv (worker_slot w) c s' o' ph') →
  system_inv (event_list e es) {| sy_pgas := p'; sy_workers := <[k := w']> (sy_workers y); sy_clients := sy_clients y |}.
Proof.
  intros Hy [[Hk _] [Hc Hq] _] Hown Hp' Hps Hs' Hw' Hsv He Hi. rewrite <- (list_insert_id (sy_clients y) (worker_slot w) c) by done.
  apply update_inv with (s' := s'); [done|done|done|done| |done| |done|].
  - apply Forall_insert; [apply Hy|done].
  - intros j o' Hj Hwa. eapply worker_at_other; [done| | |done]; [destruct w; cbn in *; congruence|destruct Hsv as [-> | ->]; congruence].
  - intros Hg. destruct (Hown (gave_up_before _ _ _ Hg)) as (o & ph & Ho). by apply (Hi o ph).
Qed.

Lemma next_slot_lt p i : (0 < length (pg_slots p))%nat → (next_slot p i < length (pg_slots p))%nat.
Proof. intros Hl. unfold next_slot. by case_decide. Qed.

(** A worker that goes on scanning. *)
Lemma scan_ok p i w : (worker_slot w < length (pg_slots p))%nat → worker_ok (length (pg_slots p)) (WScan (next_slot p i)).
Proof. intros Hl. split; [|done]. apply next_slot_lt. lia. Qed.

#[local] Hint Resolve scan_ok : core.

Section with_casts_steps.
Context `{CastUB}.

Lemma scan_preserves partial es y k i w' p' e :
  system_inv es y → sy_workers y !! k = Some (WScan i) → worker_step partial (WScan i) (sy_pgas y) = Some (w', p', e) →
  system_inv (event_list e es) {| sy_pgas := p'; sy_workers := <[k := w']> (sy_workers y); sy_clients := sy_clients y |}.
Proof.
  intros Hy Hk. destruct (worker_finds es y k _ Hy Hk) as (c & s & Hat & Hown). pose proof Hat as [[_ [Hlt _]] _ [Hs Hso]].
  cbn [worker_step worker_slot] in *. rewrite Hs. cbn [mbind option_bind]. intros Hst. set (w1 := if _ =? _ then _ else _) in Hst. injection Hst as <- <- <-.
  assert (serving w1 = None ∧ worker_ok (length (pg_slots (sy_pgas y))) w1) as [Hsv Hok].
  { unfold w1. destruct (_ =? _) eqn:E; btests; [|by split_and!]. split; [done|]. by apply (scan_ok _ _ (WScan i)). }
  eapply (worker_update es y k); [done|exact Hat|exact Hown|apply Hy|by rewrite list_insert_id|done|done|by left|done|].
  intros o ph (Hwa & Hph & Hin). exists o, ph. split_and!; [|done|done]. eapply worker_at_other; [done|done|by rewrite Hsv|done].
Qed.

Lemma claim_preserves partial es y k i req w' p' e :
  system_inv es y → sy_workers y !! k = Some (WClaim i req) → worker_step partial (WClaim i req) (sy_pgas y) = Some (w', p', e) →
  system_inv (event_list e es) {| sy_pgas := p'; sy_workers := <[k := w']> (sy_workers y); sy_clients := sy_clients y |}.
Proof.
  intros Hy Hk. destruct (worker_finds es y k _ Hy Hk) as (c & s & Hat & Hown). pose proof Hat as [[_ [Hlt Hreq]] _ [Hs Hso]].
  cbn [worker_step worker_slot] in *. rewrite Hs. cbn [mbind option_bind]. destruct (_ =? _) eqn:E; btests; intros [= <- <- <-].
  - eapply (worker_update es y k); [done|exact Hat|exact Hown|apply put_slot_inv, Hy|done|auto|by split|by right|done|].
    intros o ph (Hwa & Hph & Hin). cbn [worker_slot] in *.
    assert ((∃ q n, c = CAwait q n) ∧ o = None ∧ ph = Pending s ∧ resp_status s = CXL_SHM_RESP_NONE) as ((q & n & ->) & -> & -> & Hr).
    { destruct c; cbn in Hin; try (by destruct Hin as (_ & ? & _); congruence). destruct Hin as [? ? | s0 Es ? | | |]; [by split; [do 2 eexists|]| |congruence..].
      by rewrite Es in E. }
    subst req. exists (Some (WServe i (req_type s))), (Pending s). split_and!; [|done|by apply sv_claimed].
    apply worker_at_enter; [by eapply lookup_lt_Some|done|done].
  - eapply (worker_update es y k); [done|exact Hat|exact Hown|apply Hy|by rewrite list_insert_id|done|by apply (scan_ok _ _ (WScan i))|by left|done|].
    intros o ph (Hwa & Hph & Hin). exists o, ph. split_and!; [|done|done]. by eapply worker_at_other.
Qed.

(** The slot of a request that a worker has claimed holds it as it was submitted. *)
Lemma served_slot es y k i req c s o ph :
  sy_workers y !! k = Some (WServe i req) → own_slot es y (WServe i req) c s o ph →
  o = Some (WServe i req) ∧ (∃ q n, c = CAwait q n) ∧ resp_status s = CXL_SHM_RESP_NONE ∧
  ∃ s0, req = req_type s0 ∧ s = set_type CXL_SHM_REQ_NONE s0 ∧ ph = Pending s0.
Proof.
  intros Hk (Hwa & _ & Hin). pose proof (worker_at_self _ _ _ _ _ Hk eq_refl Hwa) as Ho. cbn [worker_slot] in *. subst o. split; [done|].
  destruct c; cbn in Hin; try (destruct_and? Hin; discriminate). inversion Hin as [| s0 Es Hr Ei Ep | | |]. split_and!; [by do 2 eexists|done|by exists s0].
Qed.

Lemma serve_preserves partial es y k i req w' p' e :
  length partial = 64%nat → system_inv es y → sy_workers y !! k = Some (WServe i req) →
  worker_step partial (WServe i req) (sy_pgas y) = Some (w', p', e) →
  system_inv (event_list e es) {| sy_pgas := p'; sy_workers := <[k := w']> (sy_workers y); sy_clients := sy_clients y |}.
Proof.
  intros Hpl Hy Hk. destruct (worker_finds es y k _ Hy Hk) as (c & s & Hat & Hown). pose proof Hat as [[_ [Hlt _]] _ [Hs Hso]].
  destruct (serve_slot_ok partial (Z.of_nat i) req s (sy_pgas y) (yi_pgas _ _ Hy) Hso Hpl) as (u & Hu & [Hkp (Hso' & Ht' & Hr') _ _] & _ & _ & Hne).
  cbn [worker_step worker_slot] in *. rewrite Hs. cbn [mbind option_bind]. rewrite Hu. cbn [mbind option_bind]. intros Hst.
  set (w1 := match oc_resp u with Some _ => _ | None => _ end) in Hst. set (p1 := put_slot _ _ _) in Hst. set (ev := Handled _ _ _ _ _) in Hst. injection Hst as <- <- <-.
  assert (worker_ok (length (pg_slots (sy_pgas y))) w1 ∧ (serving w1 = None ∨ serving w1 = Some i)) as [Hok Hsv].
  { unfold w1. destruct (oc_resp u); split; [by split|by right|by apply (scan_ok _ _ (WScan i))|by left]. }
  eapply (worker_update es y k); [done|exact Hat|exact Hown|apply put_slot_inv, Hkp|cbn; by rewrite (kb_slots _ _ Hkp)|done|done|done|by intros ? [= <-]|].
  intros o ph Ho. destruct (served_slot _ _ _ _ _ _ _ _ _ Hk Ho) as (-> & (q & n & ->) & Hr & s0 & -> & Es & ->). destruct Ho as (Hwa & Hph & _).
  assert (req_type s = CXL_SHM_REQ_NONE) as Hty by by rewrite Es.
  cbn [worker_slot event_list] in *. exists (if oc_resp u is Some r then Some (WRespond i r) else None), (if oc_resp u is Some _ then Replied (answer_slot u) else Lost).
  split_and!.
  - unfold w1. destruct (oc_resp u); [by eapply worker_at_move|by eapply worker_at_leave].
  - eapply phase_self; [done|done|]. cbn. by rewrite decide_True.
  - unfold answer_slot. destruct (oc_resp u) as [r|]; [apply sv_responds|apply sv_lost]; congruence.
Qed.

Lemma respond_preserves partial es y k i r w' p' e :
  system_inv es y → sy_workers y !! k = Some (WRespond i r) → worker_step partial (WRespond i r) (sy_pgas y) = Some (w', p', e) →
  system_inv (event_list e es) {| sy_pgas := p'; sy_workers := <[k := w']> (sy_workers y); sy_clients := sy_clients y |}.
Proof.
  intros Hy Hk. destruct (worker_finds es y k _ Hy Hk) as (c & s & Hat & Hown). pose proof Hat as [[_ [Hlt _]] _ [Hs Hso]].
  cbn [worker_step worker_slot] in *. rewrite Hs. cbn [mbind option_bind]. intros [= <- <- <-].
  eapply (worker_update es y k); [done|exact Hat|exact Hown|apply put_slot_inv, Hy|done|auto|by apply (scan_ok _ _ (WScan i))|by left|done|].
  intros o ph (Hwa & Hph & Hin). cbn [worker_slot] in *. pose proof (worker_at_self _ _ _ _ _ Hk eq_refl Hwa) as ->.
  destruct c; cbn in Hin; try (destruct_and? Hin; discriminate). inversion Hin as [| | r' Hr Ht Hn Ei Ep | |]; subst.
  exists None, (Replied (set_resp r s)). split_and!; [by eapply worker_at_leave|done|by apply sv_replied].
Qed.

Lemma system_preserved es y e y' : system_inv es y → sys_step y e y' → system_inv (event_list e es) y'.
Proof.
  intros Hy [partial k w w' p' e' Hpl Hk Hst | i c c' s s' e' Hc Hs Hst | i q Hc Hq].
  - destruct w; [by eapply scan_preserves|by eapply claim_preserves|by eapply serve_preserves|by eapply respond_preserves].
  - by eapply client_preserves.
  - destruct (lookup_lt_is_Some_2 (pg_slots (sy_pgas y)) i) as [s Hs]; [rewrite <- (proj1 (yi_clients _ _ Hy)); by eapply lookup_lt_Some|].
    apply (update_inv es y _ _ None i (CWait q WAIT_RETRIES) s); [done|apply Hy|by rewrite list_insert_id|by apply (proj1 (Forall_lookup _ _) (yi_slots _ _ Hy) i)|apply Hy|by split|done|done|].
    intros Hg. destruct (yi_slot _ _ Hy i _ s Hc Hs Hg) as (w & ph & Hw & Hph & Hin). by exists w, ph.
Qed.

Lemma run_inv es0 y0 es y : system_inv es0 y0 → run y0 es y → system_inv (es ++ es0) y.
Proof. intros H0. induction 1 as [|es y e y' _ IH Hst]; [done|]. apply (system_preserved _ y e y') in IH; [|done]. by destruct e. Qed.

Lemma run_start_inv y0 es y : system_inv [] y0 → run y0 es y → system_inv es y.
Proof. intros H0 Hr. rewrite <- (app_nil_r es). by eapply run_inv. Qed.

(** The start: four workers and a client for each slot. *)
Lemma pgas_init_inv memory_size s p :
  is_u64 memory_size → memory_size < 2 ^ 62 → pool_inv (sv_pool s) → (use_storage_backend s = true → shm_inv (sv_shm s)) →
  init_pgas_shm true memory_size s = Some p → pgas_inv p ∧ pg_slots p = replicate CXL_SHM_MAX_SLOTS zero_slot.
Proof.
  intros Hu Hm Hp Hb [= <-]. split; [|done]. split; cbn [pg_memory_size pg_server pg_entries].
  - split; [done|]. lia.
  - done.
  - destruct (use_storage_backend s); [done|]. intros es [= <-]. split; [done|]. split.
    + rewrite length_fmap, length_seq. destruct Hu. apply Z2Nat.id, Z.div_pos; lia.
    + apply Forall_fmap, Forall_true. intros k. by apply (length_replicate 64).
  - destruct (use_storage_backend s); [|done]. intros _. split; [done|]. by apply Hb.
Qed.

Lemma zero_slot_ok : slot_ok zero_slot.
Proof. by split. Qed.

Lemma start_system_inv p : pgas_inv p → pg_slots p = replicate CXL_SHM_MAX_SLOTS zero_slot → system_inv [] (run_pgas_shm_mode p).
Proof.
  intros Hp Hs. split; cbn [run_pgas_shm_mode sy_pgas sy_workers sy_clients]; rewrite ?Hs.
  - done.
  - apply Forall_replicate, zero_slot_ok.
  - rewrite length_replicate. apply Forall_replicate. by split; [apply Nat.lt_0_succ|].
  - split; [by rewrite !length_replicate|]. by apply Forall_replicate.
  - intros i c sl [-> _]%lookup_replicate_1 [-> _]%lookup_replicate_1 _. exists None, Idle. split; [|done].
    by intros k w [-> _]%lookup_replicate_1.
Qed.

(** *** What a step does to the memory *)

Record handles (i : nat) (req : Z) (sl : cxl_shm_slot) (resp : option Z) (sl' : cxl_shm_slot) (p p' : Pgas) (o : Outcome) : Prop := {
  hd_serves : serves req (Z.of_nat i) sl p o;
  hd_slot : slot_ok sl;
  hd_allowed : resp = Some CXL_SHM_RESP_OK → match access_of req p sl with Some (n, w, a) => allowed p (Z.of_nat i) sl n w a | None => True end;
  hd_answer : resp = oc_resp o ∧ sl' = answer_slot o;
  hd_after : p' = put_slot i (oc_slot o) (oc_state o)
}.

(** A step handles one request, or leaves all but the slots as it was. *)
Lemma step_memory es y e y' :
  system_inv es y → sys_step y e y' →
  match e with
  | Some (Handled i req sl resp sl') => ∃ o, handles i req sl resp sl' (sy_pgas y) (sy_pgas y') o
  | _ => sy_pgas y' = set_slots (pg_slots (sy_pgas y')) (sy_pgas y)
  end.
Proof.
  intros Hy Hst. assert (∀ q : Pgas, q = set_slots (pg_slots q) q) as Heta by by intros [].
  destruct Hst as [partial k w w' p' e' Hpl Hk Hst | i c c' sl sl' e' Hc Hs Hst | i q Hc Hq].
  - destruct (worker_finds es y k w Hy Hk) as (c & sl & [_ _ [Hs Hso]] & _). destruct w as [i|i req|i req|i r]; cbn [worker_step worker_slot sy_pgas] in *.
    + rewrite Hs in Hst. cbn [mbind option_bind] in Hst. injection Hst as _ <- <-. apply Heta.
    + rewrite Hs in Hst. cbn [mbind option_bind] in Hst. destruct (_ =? _); injection Hst as _ <- <-; [done|apply Heta].
    + rewrite Hs in Hst. cbn [mbind option_bind] in Hst.
      destruct (serve_slot_ok partial (Z.of_nat i) req sl (sy_pgas y) (yi_pgas _ _ Hy) Hso Hpl) as (u & Hu & Hsv & Hal & _).
      rewrite Hu in Hst. cbn [mbind option_bind] in Hst. injection Hst as _ <- <-. exists u. by split.
    + rewrite Hs in Hst. cbn [mbind option_bind] in Hst. by injection Hst as _ <- <-.
  - destruct c; cbn in Hst; simplify_eq; cbn; try done. by repeat case_match; simplify_eq.
  - apply Heta.
Qed.

Lemma step_offsets es y e y' :
  system_inv es y → sys_step y e y' →
  (∀ x, pg_off (sy_pgas y') x = pg_off (sy_pgas y) x) ∧ pg_memory_size (sy_pgas y') = pg_memory_size (sy_pgas y) ∧
  use_storage_backend (pg_server (sy_pgas y')) = use_storage_backend (pg_server (sy_pgas y)) ∧ length (sy_clients y') = length (sy_clients y).
Proof.
  intros Hy Hst. pose proof (step_memory _ _ _ _ Hy Hst) as Hm. split_and!.
  4: { by destruct Hst; cbn; rewrite ?length_insert. }
  all: destruct e as [[| i req sl resp sl' | |]|]; [by rewrite Hm| |by rewrite Hm..]; destruct Hm as (o & [[Hk _ _ _] _ _ _ ->]); apply Hk.
Qed.

Lemma run_clients y0 es y : system_inv [] y0 → run y0 es y → length (sy_clients y) = length (sy_clients y0).
Proof.
  intros H0. induction 1 as [|es y e y' Hr IH Hst]; [done|]. rewrite <- IH. by eapply step_offsets; [eapply run_start_inv|].
Qed.

(** *** Reading back *)

Lemma pg_off_nonneg p a : pgas_inv p → is_u64 a → 0 <= pg_off p a.
Proof.
  intros [_ _ _ Hb] Ha. unfold pg_off. destruct (pg_entries p); [apply Ha|]. by apply offset_nonneg, Hb.
Qed.

Lemma pg_get_ext p p' a n f g :
  pgas_inv p → is_u64 a → (∀ x, pg_off p' x = pg_off p x) → (∀ o, 0 <= o → f o = g o) → get (pg_off p') a n f = get (pg_off p) a n g.
Proof.
  intros Hi Ha Ho Hfg. revert a Ha. induction n as [|n IH]; intros a Ha; simpl; [done|].
  rewrite IH, Ho, Hfg; [done|by apply pg_off_nonneg|apply u64_range].
Qed.

#[export] Instance pg_off_lines p : LineOffsets (pg_off p).
Proof. unfold pg_off. destruct (pg_entries p); apply _. Qed.

(** Requests that store nothing. *)
Definition loads (req : Z) : bool := negb ((CXL_SHM_REQ_WRITE <=? req) && (req <=? CXL_SHM_REQ_ATOMIC_CAS)).
Definition quiet (e : Event) : Prop := match e with Handled _ req _ _ _ => loads req = true | _ => True end.

Lemma loads_effect req sl p o : loads req = true → effect req sl p o → same_bytes p (oc_state o).
Proof.
  unfold loads, effect, CXL_SHM_REQ_READ, CXL_SHM_REQ_WRITE, CXL_SHM_REQ_ATOMIC_FAA, CXL_SHM_REQ_ATOMIC_CAS. intros Hl.
  destruct (req =? 1); [by intros [? _]|]. rewrite !(proj2 (Z.eqb_neq _ _)) by lia. done.
Qed.

Lemma quiet_step es y e y' :
  system_inv es y → sys_step y e y' → (∀ ev, e = Some ev → quiet ev) → same_bytes (sy_pgas y) (sy_pgas y').
Proof.
  intros Hy Hst Hq. pose proof (step_memory _ _ _ _ Hy Hst) as Hm. destruct e as [[| i req sl resp sl' | |]|]; [by rewrite Hm| |by rewrite Hm..].
  destruct Hm as (o & [[_ _ Hef _] _ _ _ ->]). apply (loads_effect req sl); [exact (Hq _ eq_refl)|exact Hef].
Qed.

Lemma quiet_run es0 y0 es y :
  system_inv es0 y0 → run y0 es y → Forall quiet es →
  same_bytes (sy_pgas y0) (sy_pgas y) ∧ (∀ x, pg_off (sy_pgas y) x = pg_off (sy_pgas y0) x) ∧
  use_storage_backend (pg_server (sy_pgas y)) = use_storage_backend (pg_server (sy_pgas y0)).
Proof.
  intros H0. induction 1 as [|es y e y' Hr IH Hst]; intros Hq; [done|]. pose proof (run_inv _ _ _ _ H0 Hr) as Hy.
  assert (Forall quiet es ∧ ∀ ev, e = Some ev → quiet ev) as [Hq1 Hq2].
  { destruct e; [|done]. apply Forall_cons in Hq as [? ?]. split; [done|]. by intros ? [= <-]. }
  destruct (IH Hq1) as (Hs & Ho & Hu). destruct (step_offsets _ _ _ _ Hy Hst) as (Ho' & _ & Hu' & _). split_and!.
  - intros x Hx. rewrite (quiet_step _ _ _ _ Hy Hst Hq2 x Hx). by apply Hs.
  - intros x. by rewrite Ho', Ho.
  - congruence.
Qed.

(** What a successful write leaves, and what a successful read returns. *)
Lemma slot_written i sl sl' p p' o :
  pgas_inv p → handles i CXL_SHM_REQ_WRITE sl (Some CXL_SHM_RESP_OK) sl' p p' o →
  let n := Z.to_nat (copy_size p sl) in get (pg_off p') (addr sl) n (pg_mem p') = take n (data sl).
Proof.
  intros Hi [[Hk _ (k & Hkn & Hst) _] Hso _ [Hr _] ->] n. pose proof (copy_size_range p sl Hi Hso) as Hc.
  rewrite (Hkn (bool_decide_eq_true_2 _ (eq_sym Hr))) in Hst. fold n in Hst. rewrite take_take, Nat.min_id in Hst.
  change (pg_off (put_slot i (oc_slot o) (oc_state o))) with (pg_off (oc_state o)). change (pg_mem (put_slot i (oc_slot o) (oc_state o))) with (pg_mem (oc_state o)).
  rewrite (pg_get_ext p _ _ _ _ _ Hi (so_addr _ Hso) (kb_off _ _ Hk) Hst).
  assert (length (take n (data sl)) = n) as Hl by (rewrite length_take, (so_data _ Hso); lia).
  rewrite <- Hl at 1. apply get_put; [apply _|apply Hso|lia].
Qed.

Lemma answer_data o : data (answer_slot o) = data (oc_slot o).
Proof. unfold answer_slot. by destruct (oc_resp o). Qed.

Lemma slot_read i sl sl' p p' o :
  handles i CXL_SHM_REQ_READ sl (Some CXL_SHM_RESP_OK) sl' p p' o →
  let n := Z.to_nat (copy_size p sl) in take n (data sl') = get (pg_off p) (addr sl) n (pg_mem p).
Proof. intros [[_ _ [_ Hv] _] _ _ [Hr ->] _] n. rewrite answer_data. apply Hv. by apply bool_decide_eq_true_2. Qed.

(** *** A scan *)

Definition scanned (sl sl' : cxl_shm_slot) (num_lines : Z) : Prop :=
  if req_type sl =? CXL_SHM_REQ_NONE then sl' = sl
  else req_type sl' = CXL_SHM_REQ_NONE ∧
    (is_known (req_type sl) = true → resp_status sl' = CXL_SHM_RESP_OK ∨ resp_status sl' = CXL_SHM_RESP_ERROR) ∧
    (is_known (req_type sl) = false → addr sl / 64 < num_lines → resp_status sl' = resp_status sl).

Lemma serve_scanned partial i sl p :
  pgas_inv p → slot_ok sl → length partial = 64%nat → req_type sl ≠ CXL_SHM_REQ_NONE →
  ∃ o, serve_slot partial i (req_type sl) (set_type CXL_SHM_REQ_NONE sl) p = Some o ∧
    kept_by p (oc_state o) ∧ slot_ok (answer_slot o) ∧ scanned sl (answer_slot o) (pg_memory_size p / 64).
Proof.
  intros Hi Hs Hpl Hne. destruct (serve_slot_ok partial i (req_type sl) (set_type CXL_SHM_REQ_NONE sl) p Hi (set_type_ok _ _ Hs) Hpl)
    as (o & Ho & [Hk (Hso & Ht & Hr) _ Han] & _ & Hun & _).
  exists o. split; [done|]. split; [done|]. unfold scanned. rewrite (proj2 (Z.eqb_neq _ _) Hne). split_and!.
  - unfold answer_slot. destruct (oc_resp o); auto.
  - unfold answer_slot. by destruct (oc_resp o).
  - intros Hkn. unfold answer_slot. by destruct (Han Hkn) as [-> | ->]; [left|right].
  - intros Hkn Hlt. unfold answer_slot. by rewrite (Hun Hkn Hlt).
Qed.

Lemma poll_slots_ok partial ids n p :
  length partial = 64%nat → NoDup ids → Forall (λ i, (i < length (pg_slots p))%nat) ids → pgas_inv p → Forall slot_ok (pg_slots p) →
  ∃ k p', poll_slots partial ids n p = Some (k, p') ∧ pgas_inv p' ∧ Forall slot_ok (pg_slots p') ∧
    pg_memory_size p' = pg_memory_size p ∧ length (pg_slots p') = length (pg_slots p) ∧
    ∀ i sl, pg_slots p !! i = Some sl → ∃ sl', pg_slots p' !! i = Some sl' ∧ (if decide (i ∈ ids) then scanned sl sl' (pg_memory_size p / 64) else sl' = sl).
Proof.
  intros Hpl Hnd. revert n p. induction Hnd as [|i ids Hni Hnd IH]; intros n p Hlt Hi Hs; cbn [poll_slots].
  { exists n, p. split_and!; [done..|]. intros i sl Hl. exists sl. by rewrite decide_False by set_solver. }
  apply Forall_cons in Hlt as [Hlt Hlts]. destruct (lookup_lt_is_Some_2 _ _ Hlt) as [sl Hsl]. rewrite Hsl. cbn [mbind option_bind].
  pose proof (proj1 (Forall_lookup _ _) Hs i sl Hsl) as Hso. destruct (req_type sl =? CXL_SHM_REQ_NONE) eqn:E.
  - destruct (IH n p Hlts Hi Hs) as (k & p' & Hp & Hi' & Hs' & Hm & Hl & Hall). exists k, p'. split_and!; [done..|].
    intros j sl1 Hj. destruct (Hall j sl1 Hj) as (sl' & Hsl' & Hd). exists sl'. split; [done|]. destruct (decide (j = i)) as [->|Hne].
    + rewrite decide_False in Hd by done. rewrite decide_True by set_solver. simplify_eq. unfold scanned. by rewrite E.
    + destruct (decide (j ∈ ids)); [rewrite decide_True by set_solver|rewrite decide_False by set_solver]; done.
  - apply Z.eqb_neq in E. destruct (serve_scanned partial (Z.of_nat i) sl p Hi Hso Hpl E) as (o & -> & Hk & Hao & Hsc). cbn [mbind option_bind].
    set (p1 := set_slots _ _). assert (pg_slots p1 = <[i := answer_slot o]> (pg_slots p)) as Hp1 by (unfold p1; cbn; by rewrite (kb_slots _ _ Hk)).
    destruct (IH (n + oc_processed o)%nat p1) as (k & p' & Hp & Hi' & Hs' & Hm & Hl & Hall);
      [by rewrite Hp1, length_insert|destruct (kb_inv _ _ Hk); by split|rewrite Hp1; by apply Forall_insert|].
    exists k, p'. split_and!; [done|done|done|rewrite Hm; apply Hk|by rewrite Hl, Hp1, length_insert|]. intros j sl1 Hj.
    assert (pg_memory_size p1 = pg_memory_size p) as Hm1 by apply Hk. rewrite Hm1 in Hall. destruct (decide (j = i)) as [->|Hne].
    + destruct (Hall i (answer_slot o)) as (sl' & Hsl' & Hd); [rewrite Hp1; by apply list_lookup_insert_eq|].
      rewrite decide_False in Hd by done. exists sl'. rewrite decide_True by set_solver. simplify_eq. done.
    + destruct (Hall j sl1) as (sl' & Hsl' & Hd); [by rewrite Hp1, list_lookup_insert_ne|]. exists sl'. split; [done|].
      destruct (decide (j ∈ ids)); [rewrite decide_True by set_solver|rewrite decide_False by set_solver]; done.
Qed.

End with_casts_steps.

(** *** Schedules *)

Inductive Action := Work (k : nat) | Act (i : nat) | Call (i : nat) (q : Query).

Section with_casts_play.
Context `{CastUB}.

Definition perform (partial : list Z) (a : Action) (y : System) : option (option Event * System) :=
  match a with
  | Work k =>
      w ← sy_workers y !! k; '(w', p', e) ← worker_step partial w (sy_pgas y);
      Some (e, {| sy_pgas := p'; sy_workers := <[k := w']> (sy_workers y); sy_clients := sy_clients y |})
  | Act i =>
      c ← sy_clients y !! i; s ← pg_slots (sy_pgas y) !! i;
      let '(c', s', e) := client_step i c s in
      Some (e, {| sy_pgas := put_slot i s' (sy_pgas y); sy_workers := sy_workers y; sy_clients := <[i := c']> (sy_clients y) |})
  | Call i q =>
      c ← sy_clients y !! i;
      match c with
      | CIdle => Some (None, {| sy_pgas := sy_pgas y; sy_workers := sy_workers y; sy_clients := <[i := CWait q WAIT_RETRIES]> (sy_clients y) |})
      | _ => None
      end
  end.

Fixpoint play (partial : list Z) (l : list Action) (es : list Event) (y : System) : option (list Event * System) :=
  match l with
  | [] => Some (es, y)
  | a :: rest => '(e, y') ← perform partial a y; play partial rest (event_list e es) y'
  end.

Definition action_ok (a : Action) : Prop := match a with Call _ q => query_ok q | _ => True end.

Lemma perform_step partial a y e y' :
  length partial = 64%nat → action_ok a → perform partial a y = Some (e, y') → sys_step y e y'.
Proof.
  intros Hpl Ha Hp. destruct a as [k|i|i q]; cbn in Hp.
  - destruct (sy_workers y !! k) as [w|] eqn:Hk; [|done]. cbn in Hp. destruct (worker_step _ _ _) as [[[w' p'] e']|] eqn:Hst; [|done]. injection Hp as <- <-.
    by eapply sys_worker.
  - destruct (sy_clients y !! i) as [c|] eqn:Hc; [|done]. cbn in Hp. destruct (pg_slots _ !! i) as [sl|] eqn:Hs; [|done]. cbn in Hp.
    destruct (client_step i c sl) as [[c' sl'] e'] eqn:Hst. injection Hp as <- <-. by eapply sys_client.
  - destruct (sy_clients y !! i) as [[]|] eqn:Hc; cbn in Hp; try done. injection Hp as <- <-. by apply sys_call.
Qed.

Lemma play_run partial l y0 es y es' y' :
  length partial = 64%nat → Forall action_ok l → run y0 es y → play partial l es y = Some (es', y') → run y0 es' y'.
Proof.
  intros Hpl Hl. revert es y. induction Hl as [|a l Ha Hl IH]; intros es y Hr; cbn [play]; [by intros [= <- <-]|].
  destruct (perform partial a y) as [[e y1]|] eqn:Hp; [|done]. cbn. apply IH. eapply run_step; [done|]. by eapply perform_step.
Qed.

End with_casts_play.

(** ** Theorems *)

(** The server has started with a valid pool and, where it uses it, a valid backend. *)
Definition pgas_started (memory_size : Z) (s : Server) (p : Pgas) : Prop :=
  is_u64 memory_size ∧ memory_size < 2 ^ 62 ∧ pool_inv (sv_pool s) ∧ (use_storage_backend s = true → shm_inv (sv_shm s)) ∧
  init_pgas_shm true memory_size s = Some p.

Section with_casts_theorems.
Context `{CastUB}.

Lemma started_inv memory_size s p :
  pgas_started memory_size s p → system_inv [] (run_pgas_shm_mode p) ∧ length (pg_slots p) = CXL_SHM_MAX_SLOTS.
Proof.
  intros (Hu & Hm & Hp & Hb & Hi). destruct (pgas_init_inv _ _ _ Hu Hm Hp Hb Hi) as [Hpi Hs]. split; [by apply start_system_inv|].
  by rewrite Hs, length_replicate.
Qed.

Lemma reached_inv memory_size s p es y : pgas_started memory_size s p → run (run_pgas_shm_mode p) es y → system_inv es y.
Proof. intros Hst. by apply run_start_inv, (started_inv memory_size s p). Qed.

(** C4. In every interleaving of the four workers and the clients, the events of each
    slot whose client has not given up waiting for a response (after 10000 polls)
    follow the protocol, whatever the clients of the other slots do: a submitted
    request is handled once, with the contents that its client stored, and the
    response that the client then takes is the one of that request.  A client at
    rest has no request outstanding. *)
Theorem pgas_exactly_once memory_size s p es y i :
  pgas_started memory_size s p → run (run_pgas_shm_mode p) es y → (i < CXL_SHM_MAX_SLOTS)%nat → gave_up i es = false →
  ∃ c sl ph, sy_clients y !! i = Some c ∧ pg_slots (sy_pgas y) !! i = Some sl ∧ phase i es = Some ph ∧
    (c = CIdle → ph = Idle) ∧ (c = CTake → ph = Replied sl).
Proof.
  intros Hst Hr Hlt Hg. pose proof (reached_inv _ _ _ _ _ Hst Hr) as Hy. pose proof (run_clients _ _ _ (proj1 (started_inv _ _ _ Hst)) Hr) as Hl.
  cbn [run_pgas_shm_mode sy_clients] in Hl. rewrite length_replicate in Hl.
  destruct (lookup_lt_is_Some_2 (sy_clients y) i) as [c Hc]; [lia|].
  destruct (lookup_lt_is_Some_2 (pg_slots (sy_pgas y)) i) as [sl Hs]; [rewrite <- (proj1 (yi_clients _ _ Hy)); lia|].
  destruct (yi_slot _ _ Hy i c sl Hc Hs Hg) as (w & ph & _ & Hph & Hin). exists c, sl, ph. split_and!; [done..| |]; intros ->; by destruct Hin.
Qed.

(** As long as the client of a slot has not given up, at most one worker serves the
    slot at a time, and only while the client waits for the status: the plain accesses of the two sides to the fields of the slot
    and of two workers never overlap. *)
Theorem pgas_no_race memory_size s p es y k w i :
  pgas_started memory_size s p → run (run_pgas_shm_mode p) es y → gave_up i es = false → sy_workers y !! k = Some w → serving w = Some i →
  (∃ q n, sy_clients y !! i = Some (CAwait q n)) ∧ ∀ k' w', sy_workers y !! k' = Some w' → serving w' = Some i → k' = k.
Proof.
  intros Hst Hr Hg Hk Hsv. pose proof (reached_inv _ _ _ _ _ Hst Hr) as Hy. destruct (worker_finds _ _ _ _ Hy Hk) as (c & sl & [_ [Hc _] _] & Hown).
  assert (worker_slot w = i) as Hi by (destruct w; cbn in *; congruence). rewrite Hi in *. destruct (Hown Hg) as (o & ph & Hwa & _ & Hin). rewrite Hi in *.
  pose proof (worker_at_self _ _ _ _ _ Hk Hsv Hwa) as ->. split.
  - destruct c; cbn in Hin; try (destruct_and? Hin; discriminate). by do 2 eexists.
  - intros k' w' Hk' Hs'. destruct Hwa as (_ & k0 & _ & Hu). rewrite (Hu k' w') by done. symmetry. by eapply Hu.
Qed.

(** C5. The server refines a flat memory: a step that handles a request changes the
    memory and answers as [effect] states for its type, and every other step
    leaves all bytes. *)
Theorem pgas_refines_memory memory_size s p es y e y' :
  pgas_started memory_size s p → run (run_pgas_shm_mode p) es y → sys_step y e y' →
  pgas_inv (sy_pgas y') ∧
  match e with
  | Some (Handled i req sl resp sl') =>
      ∃ o, effect req sl (sy_pgas y) o ∧ resp = oc_resp o ∧ sl' = answer_slot o ∧ pg_mem (sy_pgas y') = pg_mem (oc_state o)
  | _ => pg_mem (sy_pgas y') = pg_mem (sy_pgas y)
  end.
Proof.
  intros Hst Hr Hs. pose proof (reached_inv _ _ _ _ _ Hst Hr) as Hy. split; [by apply (system_preserved _ _ _ _ Hy Hs)|].
  pose proof (step_memory _ _ _ _ Hy Hs) as Hm. destruct e as [[| i req sl resp sl' | |]|]; [by rewrite Hm| |by rewrite Hm..].
  destruct Hm as (o & [[_ _ Hef _] _ _ [-> ->] ->]). by exists o.
Qed.

(** A request that accesses memory is answered with success only if the fabric
    allowed its host the whole access. *)
Theorem pgas_authorised memory_size s p es y i req sl sl' y' n w a :
  pgas_started memory_size s p → run (run_pgas_shm_mode p) es y → sys_step y (Some (Handled i req sl (Some CXL_SHM_RESP_OK) sl')) y' →
  access_of req (sy_pgas y) sl = Some (n, w, a) → allowed (sy_pgas y) (Z.of_nat i) sl n w a.
Proof.
  intros Hst Hr Hs Hac. pose proof (reached_inv _ _ _ _ _ Hst Hr) as Hy. destruct (step_memory _ _ _ _ Hy Hs) as (o & Hh).
  pose proof (hd_allowed _ _ _ _ _ _ _ _ Hh eq_refl) as Hal. by rewrite Hac in Hal.
Qed.

(** The bytes of a successful write are the ones that any client reads at that
    address, as long as no other write or atomic operation is handled between
    them, whatever else the workers and the clients do. *)
Theorem pgas_write_read memory_size s p es y0 i sl sl' y1 es' y2 j rl rl' y3 :
  pgas_started memory_size s p → run (run_pgas_shm_mode p) es y0 →
  sys_step y0 (Some (Handled i CXL_SHM_REQ_WRITE sl (Some CXL_SHM_RESP_OK) sl')) y1 → run y1 es' y2 → Forall quiet es' →
  sys_step y2 (Some (Handled j CXL_SHM_REQ_READ rl (Some CXL_SHM_RESP_OK) rl')) y3 → addr rl = addr sl → size rl = size sl →
  let n := Z.to_nat (copy_size (sy_pgas y0) sl) in take n (data rl') = take n (data sl).
Proof.
  intros Hst Hr0 Hw Hr1 Hq Hrd Ha Hsz n. pose proof (reached_inv _ _ _ _ _ Hst Hr0) as H0. pose proof (system_preserved _ _ _ _ H0 Hw) as H1.
  pose proof (run_inv _ _ _ _ H1 Hr1) as H2. destruct (step_memory _ _ _ _ H0 Hw) as (o & Ho). destruct (step_memory _ _ _ _ H2 Hrd) as (o' & Ho').
  destruct (quiet_run _ _ _ _ H1 Hr1 Hq) as (Hm & Hof & Hu). destruct (step_offsets _ _ _ _ H0 Hw) as (_ & _ & Hu0 & _).
  assert (copy_size (sy_pgas y2) rl = copy_size (sy_pgas y0) sl) as Hc by (unfold copy_size, offset_in; by rewrite Hu, Hu0, Ha, Hsz).
  pose proof (slot_read _ _ _ _ _ _ Ho') as Hv. cbn zeta in Hv. rewrite Hc, Ha in Hv. fold n in Hv. rewrite Hv.
  rewrite (pg_get_ext (sy_pgas y1) (sy_pgas y2) _ _ _ (pg_mem (sy_pgas y1))); [by eapply slot_written; [apply H0|]|apply H1|apply (hd_slot _ _ _ _ _ _ _ _ Ho)|done|done].
Qed.

(** A scan that nobody disturbs ends and answers every request of a known type,
    with success or an error; a request of another type for an existing line is
    cleared and never answered, and free slots are left alone. *)
Theorem pgas_poll_serves_all partial p :
  length partial = 64%nat → pgas_inv p → Forall slot_ok (pg_slots p) →
  ∃ processed p', poll_pgas_shm_requests partial p = Some (processed, p') ∧ pgas_inv p' ∧
    ∀ i sl, pg_slots p !! i = Some sl → ∃ sl', pg_slots p' !! i = Some sl' ∧ scanned sl sl' (pg_memory_size p / 64).
Proof.
  intros Hpl Hi Hs. destruct (poll_slots_ok partial (seq 0 (length (pg_slots p))) 0 p) as (k & p' & Hp & Hi' & _ & _ & _ & Hall);
    [done|apply NoDup_seq|apply Forall_forall; intros x [_ ?]%elem_of_seq; lia|done|done|].
  exists k, p'. split; [done|]. split; [done|]. intros i sl Hl. destruct (Hall i sl Hl) as (sl' & Hsl' & Hd). exists sl'. split; [done|].
  rewrite decide_True in Hd; [done|]. apply elem_of_seq. apply lookup_lt_Some in Hl. lia.
Qed.

(** Capacity management through a slot does to the pool what the same request over
    TCP does, and answers with its status, word and data. *)
Theorem pgas_management_agrees partial i req sl p :
  is_management req → addr sl / 64 < pg_memory_size p / 64 →
  let r := handle_capacity_management_request i (tcp_request req sl) (data sl) (sv_pool (pg_server p)) in
  ∃ o, serve_slot partial i req sl p = Some o ∧ sv_pool (pg_server (oc_state o)) = r.2 ∧
    oc_resp o = Some (if sr_status r.1 =? 0 then CXL_SHM_RESP_OK else CXL_SHM_RESP_ERROR) ∧ data (oc_slot o) = sr_data r.1 ∧
    (returns_value req = true → value (oc_slot o) = sr_old_value r.1).
Proof.
  intros Hr Hlt r. pose proof (management_tcp i req sl p Hr) as Hm. fold r in Hm.
  assert (serve_slot partial i req sl p = serve_management i req sl p) as ->.
  { unfold is_management, CXL_SHM_REQ_DCD_ADD, CXL_SHM_REQ_GFAM_QUERY in Hr. unfold serve_slot. rewrite (proj2 (Z.leb_gt _ _) Hlt).
    unfold CXL_SHM_REQ_READ, CXL_SHM_REQ_WRITE, CXL_SHM_REQ_ATOMIC_FAA, CXL_SHM_REQ_ATOMIC_CAS, CXL_SHM_REQ_FENCE, CXL_SHM_REQ_DCD_ADD, CXL_SHM_REQ_GFAM_QUERY.
    rewrite !(proj2 (Z.eqb_neq _ _)) by lia. rewrite (proj2 (Z.leb_le 10 req)), (proj2 (Z.leb_le req 15)) by lia. done. }
  rewrite Hm. eexists. split; [reflexivity|]. split_and!; [done|done|done|]. cbn. by intros ->.
Qed.

End with_casts_theorems.

(** ** Examples *)

#[local] Instance ex_slot_cast : CastUB := λ _, 0.

Definition ex_garbage : list Z := replicate 64 0.
Definition ex_pgas_server : Server := Server_new ex_shm ex_pool0 ex_controller 0.
Definition ex_pgas : Pgas :=
  {| pg_server := ex_pgas_server; pg_memory_size := 128; pg_entries := Some (initial_entry <$> seq 0 2); pg_slots := replicate CXL_SHM_MAX_SLOTS zero_slot |}.

Lemma ex_pgas_started : pgas_started 128 ex_pgas_server ex_pgas.
Proof. unfold pgas_started, is_u64. split_and!; [lia|lia|lia|apply pool_new_inv|discriminate|reflexivity]. Qed.

(** The requests of a client up to its wait, the work on slot [i] of a worker that
    scans it, and the rest of the call of a client. *)
Definition ex_submit (i : nat) (q : Query) : list Action := [Call i q; Act i; Act i; Act i].
Definition ex_finish (i : nat) : list Action := replicate 5 (Act i).

Definition ex_write_query : Query := write_shm 8 [1; 2; 3; 4; 5; 6; 7; 8] 8 0.
Definition ex_read_query : Query := read_shm 8 8 1.

Definition ex_play (l : list Action) (es : list Event) (y : System) : list Event * System := default (es, y) (play ex_garbage l es y).

(** Client 0 writes and client 1 reads; workers 0 and 1 see the request of slot 0,
    and worker 0 claims it. *)
Definition ex_actions0 : list Action := ex_submit 0 ex_write_query ++ ex_submit 1 ex_read_query ++ [Work 0; Work 1; Work 0].
Definition ex_events0 : list Event := (ex_play ex_actions0 [] (run_pgas_shm_mode ex_pgas)).1.
Definition ex_system0 : System := (ex_play ex_actions0 [] (run_pgas_shm_mode ex_pgas)).2.
Definition ex_system1 : System := (ex_play [Work 0] [] ex_system0).2.

(** Worker 1 fails to claim slot 0 and goes on to slot 1, which it claims. *)
Definition ex_actions1 : list Action := [Work 1; Work 1; Work 1; Work 0; Act 0].
Definition ex_events1 : list Event := (ex_play ex_actions1 [] ex_system1).1.
Definition ex_system2 : System := (ex_play ex_actions1 [] ex_system1).2.
Definition ex_system3 : System := (ex_play [Work 1] [] ex_system2).2.

Definition ex_slot (i : nat) (y : System) : cxl_shm_slot := default zero_slot (pg_slots (sy_pgas y) !! i).

Lemma ex_queries_ok : query_ok ex_write_query ∧ query_ok ex_read_query.
Proof. unfold query_ok, is_u64. cbn. split_and!; first [done|lia|vm_compute; lia|vm_compute; discriminate]. Qed.

Lemma ex_actions_ok : Forall action_ok ex_actions0 ∧ Forall action_ok ex_actions1.
Proof.
  unfold ex_actions0, ex_actions1. cbn. split; repeat (apply Forall_cons_2; [first [exact I|apply ex_queries_ok]|]); apply Forall_nil_2.
Qed.

(** Only whether a schedule can run is computed, not its states. *)
Lemma ex_play_run l y : Forall action_ok l → (if play ex_garbage l [] y then true else false) = true → run y (ex_play l [] y).1 (ex_play l [] y).2.
Proof.
  intros Hl. unfold ex_play. destruct (play ex_garbage l [] y) as [[es y']|] eqn:Hp; [intros _|done]. by apply (play_run ex_garbage l y [] y); [| |apply run_start|].
Qed.

Lemma ex_play_step a y e : action_ok a → fst <$> perform ex_garbage a y = Some (Some e) → sys_step y (Some e) (ex_play [a] [] y).2.
Proof.
  intros Ha. unfold ex_play. cbn [play]. destruct (perform ex_garbage a y) as [[e' y']|] eqn:Hp; [|done]. intros [= ->]. cbn.
  by apply (perform_step ex_garbage a).
Qed.

Lemma ex_run0 : run (run_pgas_shm_mode ex_pgas) ex_events0 ex_system0.
Proof. apply ex_play_run; [apply ex_actions_ok|]. by vm_compute. Qed.

Lemma ex_run1 : run ex_system1 ex_events1 ex_system2.
Proof. apply ex_play_run; [apply ex_actions_ok|]. by vm_compute. Qed.

Definition ex_written : Event :=
  Handled 0 CXL_SHM_REQ_WRITE (ex_slot 0 ex_system0) (Some CXL_SHM_RESP_OK) (set_resp CXL_SHM_RESP_OK (ex_slot 0 ex_system1)).
Definition ex_fetched : Event :=
  Handled 1 CXL_SHM_REQ_READ (ex_slot 1 ex_system2) (Some CXL_SHM_RESP_OK) (set_resp CXL_SHM_RESP_OK (ex_slot 1 ex_system3)).

Lemma ex_step0 : sys_step ex_system0 (Some ex_written) ex_system1.
Proof. apply (ex_play_step (Work 0)); [exact I|by vm_compute]. Qed.

Lemma ex_step2 : sys_step ex_system2 (Some ex_fetched) ex_system3.
Proof. apply (ex_play_step (Work 1)); [exact I|by vm_compute]. Qed.

(** *** Witnesses *)

(** Both clients are served, and client 0 has its response. *)
Definition ex_actions : list Action := ex_actions0 ++ [Work 0] ++ ex_actions1.
Definition ex_events : list Event := (ex_play ex_actions [] (run_pgas_shm_mode ex_pgas)).1.
Definition ex_system : System := (ex_play ex_actions [] (run_pgas_shm_mode ex_pgas)).2.

Lemma ex_run_all : run (run_pgas_shm_mode ex_pgas) ex_events ex_system.
Proof.
  apply ex_play_run; [|by vm_compute]. destruct ex_actions_ok as [H0 H1]. apply Forall_app_2; [exact H0|]. apply Forall_app_2; [|exact H1].
  by apply Forall_cons_2; [|apply Forall_nil_2].
Qed.

Lemma pgas_exactly_once_witness :
  match ex_events with
  | [Handled 0 req _ (Some _) _; Submitted 1 _; Submitted 0 _] => req = CXL_SHM_REQ_WRITE
  | _ => False
  end ∧
  sy_clients ex_system !! 0%nat = Some CTake ∧ resp_status (ex_slot 0 ex_system) = CXL_SHM_RESP_OK ∧
  ∃ c sl ph, sy_clients ex_system !! 0%nat = Some c ∧ pg_slots (sy_pgas ex_system) !! 0%nat = Some sl ∧ phase 0 ex_events = Some ph ∧
    (c = CIdle → ph = Idle) ∧ (c = CTake → ph = Replied sl).
Proof.
  split; [by vm_compute|]. split; [by vm_compute|]. split; [by vm_compute|].
  apply (pgas_exactly_once 128 ex_pgas_server ex_pgas ex_events ex_system 0); [apply ex_pgas_started|apply ex_run_all| |by vm_compute].
  unfold CXL_SHM_MAX_SLOTS. lia.
Defined.

Lemma pgas_no_race_witness :
  sy_workers ex_system0 !! 1%nat = Some (WClaim 0 CXL_SHM_REQ_WRITE) ∧
  (∃ q n, sy_clients ex_system0 !! 0%nat = Some (CAwait q n)) ∧ ∀ k' w', sy_workers ex_system0 !! k' = Some w' → serving w' = Some 0%nat → k' = 0%nat.
Proof.
  split; [by vm_compute|].
  apply (pgas_no_race 128 ex_pgas_server ex_pgas ex_events0 ex_system0 0 (WServe 0 CXL_SHM_REQ_WRITE) 0);
    [apply ex_pgas_started|apply ex_run0|by vm_compute|by vm_compute|done].
Defined.

Lemma pgas_refines_memory_witness :
  get (pg_off (sy_pgas ex_system1)) 8 8 (pg_mem (sy_pgas ex_system1)) = [1; 2; 3; 4; 5; 6; 7; 8] ∧
  pgas_inv (sy_pgas ex_system1) ∧
  ∃ o, effect CXL_SHM_REQ_WRITE (ex_slot 0 ex_system0) (sy_pgas ex_system0) o ∧ Some CXL_SHM_RESP_OK = oc_resp o ∧
    set_resp CXL_SHM_RESP_OK (ex_slot 0 ex_system1) = answer_slot o ∧ pg_mem (sy_pgas ex_system1) = pg_mem (oc_state o).
Proof.
  split; [by vm_compute|].
  exact (pgas_refines_memory 128 ex_pgas_server ex_pgas ex_events0 ex_system0 (Some ex_written) ex_system1 ex_pgas_started ex_run0 ex_step0).
Defined.

Lemma pgas_authorised_witness :
  access_of CXL_SHM_REQ_WRITE (sy_pgas ex_system0) (ex_slot 0 ex_system0) = Some (8, true, false) ∧
  allowed (sy_pgas ex_system0) 0 (ex_slot 0 ex_system0) 8 true false.
Proof.
  split; [by vm_compute|].
  apply (pgas_authorised 128 ex_pgas_server ex_pgas ex_events0 ex_system0 0 CXL_SHM_REQ_WRITE (ex_slot 0 ex_system0)
    (set_resp CXL_SHM_RESP_OK (ex_slot 0 ex_system1)) ex_system1 8 true false); [apply ex_pgas_started|apply ex_run0|apply ex_step0|by vm_compute].
Defined.

Lemma pgas_write_read_witness :
  let n := Z.to_nat (copy_size (sy_pgas ex_system0) (ex_slot 0 ex_system0)) in
  n = 8%nat ∧ take n (data (set_resp CXL_SHM_RESP_OK (ex_slot 1 ex_system3))) = take n (data (ex_slot 0 ex_system0)).
Proof.
  split; [by vm_compute|].
  refine (pgas_write_read 128 ex_pgas_server ex_pgas ex_events0 ex_system0 0 (ex_slot 0 ex_system0) _ ex_system1 ex_events1 ex_system2
    1 (ex_slot 1 ex_system2) _ ex_system3 ex_pgas_started ex_run0 ex_step0 ex_run1 _ ex_step2 _ _); [|by vm_compute..].
  assert (ex_events1 = []) as -> by by vm_compute. apply Forall_nil_2.
Defined.

(** A read, a request of type READ_META and a request out of range. *)
Definition ex_pending (t a : Z) : cxl_shm_slot := set_type t (fill (read_shm a 8 0) zero_slot).
Definition ex_scan : Pgas := set_slots [ex_pending CXL_SHM_REQ_READ 8; ex_pending 6 0; ex_pending CXL_SHM_REQ_READ 128; zero_slot] ex_pgas.

Lemma ex_scan_inv : pgas_inv ex_scan ∧ Forall slot_ok (pg_slots ex_scan).
Proof.
  destruct ex_pgas_started as (Hu & Hm & Hp & Hb & Hi). destruct (pgas_init_inv _ _ _ Hu Hm Hp Hb Hi) as [[H1 H2 H3 H4] _]. split; [by split|].
  cbn. repeat (apply Forall_cons_2; [split; cbn; unfold is_u64; first [lia|done]|]). apply Forall_nil_2.
Qed.

Lemma pgas_poll_serves_all_witness :
  (λ r, (r.1, resp_status <$> pg_slots r.2)) <$> poll_pgas_shm_requests ex_garbage ex_scan =
    Some (1%nat, [CXL_SHM_RESP_OK; CXL_SHM_RESP_NONE; CXL_SHM_RESP_ERROR; CXL_SHM_RESP_NONE]) ∧
  ∃ processed p', poll_pgas_shm_requests ex_garbage ex_scan = Some (processed, p') ∧ pgas_inv p' ∧
    ∀ i sl, pg_slots ex_scan !! i = Some sl → ∃ sl', pg_slots p' !! i = Some sl' ∧ scanned sl sl' (pg_memory_size ex_scan / 64).
Proof. split; [by vm_compute|]. apply (pgas_poll_serves_all ex_garbage ex_scan); [done|apply ex_scan_inv|apply ex_scan_inv]. Defined.

Definition ex_capacity : Pgas := set_server (Server_new ex_shm ex_pool2 ex_controller 0) (set_slots [ex_pending CXL_SHM_REQ_DCD_ADD 0] ex_pgas).

Lemma pgas_management_agrees_witness :
  let sl := ex_pending CXL_SHM_REQ_DCD_ADD 0 in
  let r := handle_capacity_management_request 0 (tcp_request CXL_SHM_REQ_DCD_ADD sl) (data sl) (sv_pool (pg_server ex_capacity)) in
  sr_status r.1 = 0 ∧
  ∃ o, serve_slot ex_garbage 0 CXL_SHM_REQ_DCD_ADD sl ex_capacity = Some o ∧ sv_pool (pg_server (oc_state o)) = r.2 ∧
    oc_resp o = Some (if sr_status r.1 =? 0 then CXL_SHM_RESP_OK else CXL_SHM_RESP_ERROR) ∧ data (oc_slot o) = sr_data r.1 ∧
    (returns_value CXL_SHM_REQ_DCD_ADD = true → value (oc_slot o) = sr_old_value r.1).
Proof.
  split; [by vm_compute|]. apply (pgas_management_agrees ex_garbage 0 CXL_SHM_REQ_DCD_ADD (ex_pending CXL_SHM_REQ_DCD_ADD 0) ex_capacity).
  - unfold is_management, CXL_SHM_REQ_DCD_ADD, CXL_SHM_REQ_GFAM_QUERY. lia.
  - by vm_compute.
Defined.

(** *** Observations *)

(** Memory holds bytes at address 8.  Client 0 reads address 8 and gives up before
    the answer, after 10000 polls of the status; then it reads address 72, of the
    other line, and takes the answer of its first request, while the second one is
    still pending. *)
Definition ex_table : Pgas := put_entry_data 0 (overwrite 8 [1; 2; 3; 4; 5; 6; 7; 8] (replicate 64 0)) ex_pgas.
Definition ex_polls : list Action := replicate (Z.to_nat (AWAIT_RETRIES + 1)) (Act 0).
Definition ex_given_up : System := (ex_play (ex_submit 0 ex_read_query ++ [Work 0; Work 0] ++ ex_polls) [] (run_pgas_shm_mode ex_table)).2.
Definition ex_second_read : list Action := ex_submit 0 (read_shm 72 8 2) ++ [Act 0; Act 0].

Theorem timeout_takes_stale :
  sy_clients ex_given_up !! 0%nat = Some CIdle ∧
  let y := (ex_play [Work 0; Work 0] [] ex_given_up).2 in
  let '(es, y') := ex_play ex_second_read [] y in
  match es with
  | [Taken i sl; Submitted j sl'] =>
      i = 0%nat ∧ j = 0%nat ∧ addr sl = 72 ∧ resp_status sl = CXL_SHM_RESP_OK ∧ req_type sl = CXL_SHM_REQ_READ ∧ take 8 (data sl) = [1; 2; 3; 4; 5; 6; 7; 8] ∧
      get (pg_off (sy_pgas y')) 72 8 (pg_mem (sy_pgas y')) = replicate 8 0
  | _ => False
  end.
Proof. vm_compute. by repeat split. Qed.

(** An automatic placement (address UINT64_MAX), which the same request over TCP
    is granted, is answered with an error: the address is out of range. *)
Theorem automatic_placement_refused :
  let sl := ex_pending CXL_SHM_REQ_DCD_ADD UINT64_MAX in
  sr_status (handle_capacity_management_request 0 (tcp_request CXL_SHM_REQ_DCD_ADD sl) (data sl) (sv_pool (pg_server ex_capacity))).1 = 0 ∧
  oc_resp <$> serve_slot ex_garbage 0 CXL_SHM_REQ_DCD_ADD sl ex_capacity = Some (Some CXL_SHM_RESP_ERROR).
Proof. split; by vm_compute. Qed.

(** A write that crosses a line is answered with success, but the table gets only
    the bytes of the first line. *)
Theorem crossing_write_truncated :
  let sl := set_type CXL_SHM_REQ_WRITE (fill (write_shm 60 [1; 2; 3; 4; 5; 6; 7; 8] 8 0) zero_slot) in
  (λ o, (oc_resp o, get id 60 8 (pg_mem (oc_state o)))) <$> serve_slot ex_garbage 0 CXL_SHM_REQ_WRITE sl ex_pgas =
    Some (Some CXL_SHM_RESP_OK, [1; 2; 3; 4; 0; 0; 0; 0]).
Proof. by vm_compute. Qed.
