(* ===== verification/Trace.v ===== *)
(** * Instruction traces

    Models the reader and the writers of O3PipeView traces: [trim],
    [parseGroup], [parseInParallel] and [generateDelayedTrace] (src/rob.cc) and
    [Rob::saveInstructionTrace] (src/rob.cpp).  The reader splits a file at
    white space, gathers the words from one fetch header to the next into a
    group, and lets four threads parse the groups; the results are sorted by
    their cycle.  Text is [list ascii].

    [None] in the reader is an exception that ends the program, and undefined
    behaviour; in the writers, an overflow of [long long]. *)

From Stdlib Require Import Ascii.
From S2P Require Import Prelude Topology.

(** ** Data *)

Record InstructionGroup := {
  address : Z;
  cycleCount : Z;
  fetchTimestamp : Z;
  retireTimestamp : Z;
  instruction : token
}.

(** [long long] *)
Definition is_i64 (z : Z) : Prop := - 2 ^ 63 <= z < 2 ^ 63.
Definition i64 (z : Z) : Z := (z + 2 ^ 63) mod 2 ^ 64 - 2 ^ 63.
Definition fits (z : Z) : bool := (- 2 ^ 63 <=? z) && (z <? 2 ^ 63).

(** ** Text *)

(** The words of a stream: [operator>>] on [std::string]. *)
Fixpoint words_loop (tmp : token) (s : list ascii) : list token :=
  match s with
  | [] => flush_tmp tmp
  | c :: s' => if isspace c then flush_tmp tmp ++ words_loop [] s' else words_loop (tmp ++ [c]) s'
  end.

Definition words (s : list ascii) : list token := words_loop [] s.

Definition colon : ascii := ":".

(** Repeated [std::getline] up to [':']: the last field is dropped when empty. *)
Fixpoint fields_loop (tmp : token) (s : token) : list token :=
  match s with
  | [] => flush_tmp tmp
  | c :: s' => if bool_decide (c = colon) then tmp :: fields_loop [] s' else fields_loop (tmp ++ [c]) s'
  end.

Definition fields (s : token) : list token := fields_loop [] s.

(** [s.rfind(p, 0) == 0] *)
Fixpoint starts_with (p s : token) : bool :=
  match p, s with
  | [], _ => true
  | c :: p', d :: s' => bool_decide (c = d) && starts_with p' s'
  | _, [] => false
  end.

(** [s.find(p) != npos] *)
Fixpoint contains (p s : token) : bool :=
  starts_with p s || match s with [] => false | _ :: s' => contains p s' end.

Definition tolower (c : ascii) : ascii :=
  let n := nat_of_ascii c in if ((65 <=? n) && (n <=? 90))%nat then ascii_of_nat (n + 32) else c.

Fixpoint drop_spaces (s : token) : token :=
  match s with c :: s' => if isspace c then drop_spaces s' else s | [] => [] end.

(** [end--] on an empty string is undefined. *)
Definition trim (s : token) : option token :=
  match s with [] => None | _ => Some (rev (drop_spaces (rev (drop_spaces s)))) end.

(** The digits in front of [t]. *)
Fixpoint read_number (acc : Z) (t : token) : Z :=
  match t with
  | [] => acc
  | c :: t' => match digit_of c with Some d => read_number (acc * 10 + d) t' | None => acc end
  end.

Definition sign_of (t : token) : bool * token :=
  match t with c :: t' => if bool_decide (c = "-"%char) then (true, t') else if bool_decide (c = "+"%char) then (false, t') else (false, t) | [] => (false, t) end.

(** [std::stoull]: white space, a sign and digits; the rest is ignored. *)
Definition stoull (t : token) : option Z :=
  let '(negative, t1) := sign_of (drop_spaces t) in
  match t1 with
  | c :: _ =>
      if is_digit c then
        let v := read_number 0 t1 in
        if v <? TWO64 then Some (if negative then u64 (- v) else v) else None
      else None
  | [] => None
  end.

(** ** Reader *)

Definition FETCH : token := tok "O3PipeView:fetch:".
Definition STAGE : token := tok "O3PipeView:".
Definition ADDRESS : token := tok "O3PipeView:address:".
Definition RETIRE : token := tok "O3PipeView:retire:".

(** The first line that is a fetch header, and the lines after it. *)
Fixpoint fetch_header (group : list token) : option (token * list token) :=
  match group with
  | [] => None
  | line :: rest => if starts_with FETCH line then Some (line, rest) else fetch_header rest
  end.

(** [fetchTimestamp] and [cycleCount] *)
Definition header_numbers (header : token) : Z * Z :=
  let tokens := fields header in
  match tokens !! 2%nat, tokens !! 5%nat with
  | Some t, Some c => match stoull t, stoull c with Some t, Some c => (i64 t, i64 c) | _, _ => (0, 0) end
  | _, _ => (0, 0)
  end.

Fixpoint instruction_text (inst : token) (lines : list token) : option token :=
  match lines with
  | [] => Some inst
  | line :: rest =>
      if starts_with STAGE line then instruction_text inst rest
      else t ← trim line; instruction_text (match inst with [] => t | _ => inst ++ " "%char :: t end) rest
  end.

(** The number in the third field of the last line with the prefix and enough fields. *)
Fixpoint override (prefix : token) (enough : nat) (v : Z) (group : list token) : option Z :=
  match group with
  | [] => Some v
  | line :: rest =>
      if starts_with prefix line then
        let tokens := fields line in
        match tokens !! 2%nat with
        | Some t => if (enough <=? length tokens)%nat then n ← stoull t; override prefix enough (i64 n) rest else override prefix enough v rest
        | None => override prefix enough v rest
        end
      else override prefix enough v rest
  end.

(** Without a fetch header the address is not initialised; nobody looks at it. *)
Definition parseGroup (group : list token) : option InstructionGroup :=
  match fetch_header group with
  | None => Some {| address := 0; cycleCount := 0; fetchTimestamp := 0; retireTimestamp := 0; instruction := [] |}
  | Some (header, rest) =>
      let '(fetch, cycle) := header_numbers header in
      inst ← instruction_text [] rest;
      addr ← override ADDRESS 3 0 group;
      retire ← override RETIRE 5 0 group;
      Some {| address := addr; cycleCount := cycle; fetchTimestamp := fetch; retireTimestamp := retire; instruction := inst |}
  end.

(** The groups that the producer makes of the words. *)
Fixpoint groups_loop (groupLines : list token) (ws : list token) : list (list token) :=
  let finish := match groupLines with [] => [] | _ => [groupLines] end in
  match ws with
  | [] => finish
  | line :: rest =>
      if starts_with FETCH line then finish ++ groups_loop [line] rest else groups_loop (groupLines ++ [line]) rest
  end.

Definition groups_of (file : list ascii) : list (list token) := groups_loop [] (words file).

(** ** Threads of the reader *)

Inductive Worker := Waiting | Parsing (group : list token) | Finished.

Record Reader := {
  rd_todo : list (list token);            (** groups that the producer has not pushed yet *)
  rd_queue : list (list token);           (** [groupsQueue] *)
  rd_done : bool;
  rd_workers : list Worker;
  rd_instructions : list InstructionGroup
}.

Definition numThreads : nat := 4.

Definition start_reader (file : list ascii) : Reader :=
  {| rd_todo := groups_of file; rd_queue := []; rd_done := false; rd_workers := replicate numThreads Waiting; rd_instructions := [] |}.

Definition set_worker (k : nat) (w : Worker) (q : list (list token)) (ins : list InstructionGroup) (r : Reader) : Reader :=
  {| rd_todo := rd_todo r; rd_queue := q; rd_done := rd_done r; rd_workers := <[k := w]> (rd_workers r); rd_instructions := ins |}.

(** What [parseWorker] appends to the results. *)
Definition result_of (ins : InstructionGroup) : list InstructionGroup := if retireTimestamp ins =? 0 then [] else [ins].

(** The exception of a group that does not parse ends the program: there is no
    step of its thread. *)
Inductive reader_step (r : Reader) : Reader → Prop :=
  | push_group g rest :
      rd_todo r = g :: rest →
      reader_step r {| rd_todo := rest; rd_queue := rd_queue r ++ [g]; rd_done := rd_done r; rd_workers := rd_workers r; rd_instructions := rd_instructions r |}
  | set_done :
      rd_todo r = [] → rd_done r = false →
      reader_step r {| rd_todo := []; rd_queue := rd_queue r; rd_done := true; rd_workers := rd_workers r; rd_instructions := rd_instructions r |}
  | take_group k g rest :
      rd_workers r !! k = Some Waiting → rd_queue r = g :: rest → reader_step r (set_worker k (Parsing g) rest (rd_instructions r) r)
  | leave k :
      rd_workers r !! k = Some Waiting → rd_queue r = [] → rd_done r = true → reader_step r (set_worker k Finished [] (rd_instructions r) r)
  | parse_group k g ins :
      rd_workers r !! k = Some (Parsing g) → parseGroup g = Some ins →
      reader_step r (set_worker k Waiting (rd_queue r) (rd_instructions r ++ result_of ins) r).

(** All threads have been joined. *)
Definition joined (r : Reader) : Prop := rd_todo r = [] ∧ rd_done r = true ∧ Forall (λ w, w = Finished) (rd_workers r).

(** [std::sort] by cycle: some sorted permutation. *)
Definition by_cycle (a b : InstructionGroup) : Prop := cycleCount a <= cycleCount b.
Definition sorts (l sorted : list InstructionGroup) : Prop := sorted ≡ₚ l ∧ StronglySorted by_cycle sorted.

(** [parseInParallel]: a run of the threads, then the sort. *)
Definition parseInParallel (file : list ascii) (instructions : list InstructionGroup) : Prop :=
  ∃ r, rtc reader_step (start_reader file) r ∧ joined r ∧ sorts (rd_instructions r) instructions.

(** ** Writers *)

Definition newline : ascii := ascii_of_nat 10.

Definition dec (z : Z) : token := if z <? 0 then "-"%char :: digits (- z) else digits z.

Definition hex_char (d : Z) : ascii := ascii_of_nat (Z.to_nat (if d <? 10 then 48 + d else 87 + d)).
Fixpoint hex_loop (fuel : nat) (n : Z) : token :=
  match fuel with
  | O => []
  | S fuel' => (if n <? 16 then [] else hex_loop fuel' (n / 16)) ++ [hex_char (n mod 16)]
  end.

(** [std::hex]: the bits of a [long long]; sixteen digits are enough. *)
Definition hex (z : Z) : token := hex_loop 16 (u64 z).

(** No time of the stages overflows. *)
Definition writable (ins : InstructionGroup) : bool :=
  fits (fetchTimestamp ins + 1500) && fits (retireTimestamp ins - 500) && ((address ins =? 0) || fits (retireTimestamp ins + 1000)).

(** One instruction; [is_load] decides the kind of a memory access. *)
Definition trace_of (is_load : token → bool) (ins : InstructionGroup) : option token :=
  let fetchTS := fetchTimestamp ins in
  let retireTS := retireTimestamp ins in
  if writable ins then
    Some (tok "O3PipeView:fetch:" ++ dec fetchTS ++ tok ":0x" ++ hex (address ins) ++ tok ":0:" ++ dec (cycleCount ins) ++ tok ":  " ++ instruction ins ++ [newline] ++
          tok "O3PipeView:decode:" ++ dec (fetchTS + 500) ++ [newline] ++
          tok "O3PipeView:rename:" ++ dec (fetchTS + 1000) ++ [newline] ++
          tok "O3PipeView:dispatch:" ++ dec (fetchTS + 1500) ++ [newline] ++
          tok "O3PipeView:issue:" ++ dec (fetchTS + 1500) ++ [newline] ++
          tok "O3PipeView:complete:" ++ dec (retireTS - 500) ++ [newline] ++
          if address ins =? 0 then tok "O3PipeView:retire:" ++ dec retireTS ++ tok ":store:0" ++ [newline]
          else tok "O3PipeView:retire:" ++ dec retireTS ++ tok ":" ++ tok (if is_load (instruction ins) then "load" else "store") ++ tok ":" ++
                 dec (retireTS + 1000) ++ [newline] ++
               tok "O3PipeView:address:" ++ dec (address ins) ++ [newline])
  else None.

Fixpoint trace_text (is_load : token → bool) (l : list InstructionGroup) : option token :=
  match l with
  | [] => Some []
  | ins :: rest => t ← trace_of is_load ins; ts ← trace_text is_load rest; Some (t ++ ts)
  end.

Definition delayed_is_load (text : token) : bool :=
  let instrLower := tolower <$> text in contains (tok "ld") instrLower || contains (tok "load") instrLower || contains (tok "mov_r_m") instrLower.

Definition saved_is_load (text : token) : bool := contains (tok "ld") text || contains (tok "load") text.

(** The contents of the output file, which could be opened. *)
Definition generateDelayedTrace (instructions : list InstructionGroup) : option token := trace_text delayed_is_load instructions.

Definition saveInstructionTrace (instructions : list InstructionGroup) (append : bool) (file : token) : option token :=
  t ← trace_text saved_is_load (keep (λ ins, negb (retireTimestamp ins =? 0)) instructions);
  Some (if append then file ++ t else t).

(** ** Lemmas: words and fields *)

Definition solid (c : ascii) : bool := negb (isspace c) && negb (bool_decide (c = colon)).
Definition unspaced (w : token) : Prop := forallb (λ c, negb (isspace c)) w = true.

Lemma words_space tmp a c b : isspace c = true → words_loop tmp (a ++ c :: b) = words_loop tmp a ++ words b.
Proof.
  intros Hc. revert tmp. induction a as [|d a IH]; intros tmp; simpl; [by rewrite Hc|].
  destruct (isspace d); [by rewrite IH, app_assoc|apply IH].
Qed.

Lemma words_unspaced tmp w : unspaced w → words_loop tmp w = flush_tmp (tmp ++ w).
Proof.
  revert tmp. induction w as [|c w IH]; intros tmp Hw; simpl; [by rewrite app_nil_r|].
  apply andb_prop in Hw as [Hc Hw]. destruct (isspace c); [done|]. rewrite IH by done. by rewrite <- app_assoc.
Qed.

Lemma words_cons w c b : unspaced w → w ≠ [] → isspace c = true → words (w ++ c :: b) = w :: words b.
Proof. intros Hw Hne Hc. unfold words. rewrite words_space, words_unspaced by done. by destruct w. Qed.

Lemma words_line t w b : unspaced w → t ++ w ≠ [] → unspaced t → words (t ++ w ++ [newline] ++ b) = (t ++ w) :: words b.
Proof.
  intros Hw Hne Ht. rewrite app_assoc. apply words_cons; [|done|done]. unfold unspaced. rewrite forallb_app. by rewrite Ht, Hw.
Qed.

Lemma fields_colon tmp w s : forallb solid w = true → fields_loop tmp (w ++ colon :: s) = (tmp ++ w) :: fields_loop [] s.
Proof.
  revert tmp. induction w as [|c w IH]; intros tmp Hw; simpl; [by rewrite app_nil_r|].
  apply andb_prop in Hw as [Hc Hw]. apply andb_prop in Hc as [_ Hc]. destruct (bool_decide _); [done|]. rewrite IH by done. by rewrite <- app_assoc.
Qed.

Lemma fields_end tmp w : forallb solid w = true → fields_loop tmp w = flush_tmp (tmp ++ w).
Proof.
  revert tmp. induction w as [|c w IH]; intros tmp Hw; simpl; [by rewrite app_nil_r|].
  apply andb_prop in Hw as [Hc Hw]. apply andb_prop in Hc as [_ Hc]. destruct (bool_decide _); [done|]. rewrite IH by done. by rewrite <- app_assoc.
Qed.

Lemma solid_unspaced w : forallb solid w = true → unspaced w.
Proof.
  unfold unspaced. induction w as [|c w IH]; [done|]. simpl. unfold solid at 1. intros [[H1 _]%andb_prop H2]%andb_prop. by rewrite H1, IH.
Qed.

Lemma starts_with_app p s : starts_with p (p ++ s) = true.
Proof. induction p as [|c p IH]; [done|]. simpl. by rewrite bool_decide_eq_true_2. Qed.

Lemma starts_with_longer p q s : starts_with (p ++ q) s = true → starts_with p s = true.
Proof.
  revert s. induction p as [|c p IH]; intros [|d s]; simpl; [done|done|done|]. intros [-> Hs]%andb_prop. by apply IH.
Qed.

(** ** Lemmas: numbers *)

Lemma i64_u64 z : is_i64 z → i64 (u64 z) = z.
Proof. unfold is_i64, i64, u64. intros Hz. rewrite Zplus_mod_idemp_l, Z.mod_small; lia. Qed.

Lemma fits_i64 z : fits z = true ↔ is_i64 z.
Proof. unfold fits, is_i64. rewrite andb_true_iff, Z.leb_le, Z.ltb_lt. done. Qed.

Lemma digits_solid n : 0 <= n → forallb solid (digits n) = true.
Proof.
  intros Hn. pose proof (digits_loop_digits 20 n Hn) as Hd. unfold digits. apply forallb_forall. intros c Hc.
  apply (proj1 (forallb_forall _ _) Hd) in Hc. destruct (digit_plain c Hc) as [H1 H2]. unfold solid. rewrite H1.
  destruct (bool_decide (c = colon)) eqn:E; [|done]. apply bool_decide_eq_true in E as ->. done.
Qed.

Lemma dec_solid z : forallb solid (dec z) = true.
Proof. unfold dec. destruct (z <? 0) eqn:E; btests; [simpl|]; apply digits_solid; lia. Qed.

Lemma digits_nonempty n : ∃ c t, digits n = c :: t.
Proof. unfold digits. destruct (digits_loop 20 n) as [|c t] eqn:E; [|by exists c, t]. cbn [digits_loop] in E. by apply app_nil in E as [_ ?]. Qed.

Lemma dec_nonempty z : dec z ≠ [].
Proof. unfold dec. destruct (_ <? _); [done|]. by destruct (digits_nonempty z) as (c & t & ->). Qed.

Lemma hex_char_solid d : 0 <= d < 16 → solid (hex_char d) = true.
Proof.
  intros Hd. assert (d = 0 ∨ d = 1 ∨ d = 2 ∨ d = 3 ∨ d = 4 ∨ d = 5 ∨ d = 6 ∨ d = 7 ∨ d = 8 ∨ d = 9 ∨ d = 10 ∨ d = 11 ∨ d = 12 ∨ d = 13 ∨ d = 14 ∨ d = 15) as Hc by lia.
  repeat destruct Hc as [->|Hc]; try done. by subst.
Qed.

Lemma hex_loop_solid fuel n : 0 <= n → forallb solid (hex_loop fuel n) = true.
Proof.
  revert n. induction fuel as [|fuel IH]; intros n Hn; [done|]. cbn [hex_loop]. rewrite forallb_app. apply andb_true_intro. split.
  - destruct (n <? 16); [done|]. apply IH, Z.div_pos; lia.
  - simpl. rewrite hex_char_solid; [done|]. apply Z.mod_pos_bound. lia.
Qed.

Lemma hex_solid z : forallb solid (hex z) = true.
Proof. apply hex_loop_solid. apply u64_range. Qed.

Lemma from_chars_read acc t v : from_chars acc t = Some v → read_number acc t = v.
Proof.
  revert acc. induction t as [|c t IH]; intros acc; simpl; [by intros [= <-]|]. destruct (digit_of c); [|done].
  destruct (_ <? _); [apply IH|done].
Qed.

Lemma read_digits n : 0 <= n < TWO64 → read_number 0 (digits n) = n ∧ ∃ c t, digits n = c :: t ∧ is_digit c = true.
Proof.
  intros Hn. pose proof (parse_digits n Hn) as Hp. destruct (digits_nonempty n) as (c & t & E). rewrite E in *. split; [by apply from_chars_read|].
  exists c, t. split; [done|]. pose proof (digits_loop_digits 20 n ltac:(lia)) as Hd. fold (digits n) in Hd. rewrite E in Hd. by apply andb_prop in Hd as [? _].
Qed.

Lemma digit_no_sign c : is_digit c = true → isspace c = false ∧ bool_decide (c = "-"%char) = false ∧ bool_decide (c = "+"%char) = false.
Proof. intros Hd. split_and!; [by apply digit_plain|..]; apply bool_decide_eq_false_2; intros ->; done. Qed.

Lemma stoull_dec z : is_i64 z → stoull (dec z) = Some (u64 z).
Proof.
  unfold is_i64. intros Hz. unfold stoull, dec. destruct (z <? 0) eqn:E; btests.
  - change (sign_of (drop_spaces ("-"%char :: digits (- z)))) with (true, digits (- z)). cbn iota beta. destruct (read_digits (- z)) as (Hr & c & t & Et & Hc); [lia|]. rewrite Et in *. rewrite Hc, Hr, (proj2 (Z.ltb_lt _ _)) by lia.
    by rewrite Z.opp_involutive.
  - destruct (read_digits z) as (Hr & c & t & Et & Hc); [lia|]. rewrite Et in *. destruct (digit_no_sign c Hc) as (H1 & H2 & H3).
    cbn [drop_spaces sign_of]. rewrite H1. cbn [sign_of]. rewrite H2, H3, Hc, Hr, (proj2 (Z.ltb_lt _ _)) by lia. f_equal. symmetry. apply u64_small. split; lia.
Qed.

(** ** Lemmas: a printed instruction *)

Fixpoint join (ws : list token) : token :=
  match ws with
  | [] => []
  | w :: rest => match rest with [] => w | _ => w ++ " "%char :: join rest end
  end.

(** The words of an instruction text: they are no stage of the trace. *)
Definition plain (w : token) : Prop := unspaced w ∧ w ≠ [] ∧ starts_with STAGE w = false.

#[global] Instance plain_dec w : Decision (plain w).
Proof. unfold plain, unspaced. apply _. Defined.

(** What a printed instruction keeps: numbers of their width, a text without
    superfluous white space, and a time of retirement. *)
Record printable (ins : InstructionGroup) : Prop := {
  pr_address : is_i64 (address ins);
  pr_cycle : is_i64 (cycleCount ins);
  pr_fetch : is_i64 (fetchTimestamp ins);
  pr_retire : is_i64 (retireTimestamp ins) ∧ retireTimestamp ins ≠ 0;
  pr_text : instruction ins = join (words (instruction ins)) ∧ Forall plain (words (instruction ins))
}.

Definition header_word (ins : InstructionGroup) : token :=
  tok "O3PipeView:fetch:" ++ dec (fetchTimestamp ins) ++ tok ":0x" ++ hex (address ins) ++ tok ":0:" ++ dec (cycleCount ins) ++ [colon].

Definition stage_words (is_load : token → bool) (ins : InstructionGroup) : list token :=
  let fetchTS := fetchTimestamp ins in
  let retireTS := retireTimestamp ins in
  [tok "O3PipeView:decode:" ++ dec (fetchTS + 500); tok "O3PipeView:rename:" ++ dec (fetchTS + 1000);
   tok "O3PipeView:dispatch:" ++ dec (fetchTS + 1500); tok "O3PipeView:issue:" ++ dec (fetchTS + 1500);
   tok "O3PipeView:complete:" ++ dec (retireTS - 500)] ++
  if address ins =? 0 then [tok "O3PipeView:retire:" ++ dec retireTS ++ tok ":store:0"]
  else [tok "O3PipeView:retire:" ++ dec retireTS ++ tok ":" ++ tok (if is_load (instruction ins) then "load" else "store") ++ tok ":" ++ dec (retireTS + 1000);
        tok "O3PipeView:address:" ++ dec (address ins)].

Definition trace_words (is_load : token → bool) (ins : InstructionGroup) : list token :=
  header_word ins :: words (instruction ins) ++ stage_words is_load ins.

Lemma unspaced_app a b : unspaced a → unspaced b → unspaced (a ++ b).
Proof. unfold unspaced. rewrite forallb_app. by intros -> ->. Qed.

Lemma dec_unspaced z : unspaced (dec z).
Proof. apply solid_unspaced, dec_solid. Qed.

(** Closed text without white space, and texts that are made of it. *)
Ltac spaceless :=
  repeat match goal with |- unspaced (_ ++ _) => apply unspaced_app end;
  match goal with
  | |- unspaced (dec _) => apply dec_unspaced
  | |- unspaced (hex _) => apply solid_unspaced, hex_solid
  | |- unspaced (tok (if ?b then _ else _)) => destruct b; vm_compute; reflexivity
  | |- unspaced _ => vm_compute; reflexivity
  | |- _ => discriminate
  end.

Lemma header_unspaced ins : unspaced (header_word ins).
Proof. unfold header_word. spaceless. Qed.

Lemma words_trace is_load ins t rest :
  trace_of is_load ins = Some t → words (t ++ rest) = trace_words is_load ins ++ words rest.
Proof.
  unfold trace_of. destruct (writable ins); [|done]. intros Ht. apply (inj Some) in Ht. subst t. unfold trace_words, stage_words.
  assert (∀ b, words (tok "O3PipeView:fetch:" ++ dec (fetchTimestamp ins) ++ tok ":0x" ++ hex (address ins) ++ tok ":0:" ++ dec (cycleCount ins) ++
    tok ":  " ++ instruction ins ++ [newline] ++ b) = header_word ins :: words (instruction ins) ++ words b) as Hh.
  { intros b. transitivity (words (header_word ins ++ " "%char :: " "%char :: instruction ins ++ newline :: b)).
    - f_equal. unfold header_word. by rewrite <- !app_assoc.
    - rewrite words_cons; [|apply header_unspaced|done|done]. f_equal. change (words (" "%char :: ?x)) with (words x). by apply words_space. }
  rewrite <- !app_assoc. rewrite Hh. rewrite <- (app_comm_cons _ _ (header_word ins)), <- app_assoc. do 2 f_equal.
  rewrite !words_line by spaceless. cbn [app]. do 5 f_equal. destruct (address ins =? 0).
  - rewrite <- !app_assoc. rewrite (app_assoc (dec _)), words_line; [done|spaceless..].
  - rewrite <- !app_assoc. transitivity (words (tok "O3PipeView:retire:" ++ (dec (retireTimestamp ins) ++ tok ":" ++ tok (if is_load (instruction ins) then "load" else "store") ++
      tok ":" ++ dec (retireTimestamp ins + 1000)) ++ [newline] ++ tok "O3PipeView:address:" ++ dec (address ins) ++ [newline] ++ rest)).
    { apply (f_equal words). rewrite <- !app_assoc. cbn [app]. by rewrite <- !app_assoc. }
    rewrite words_line; [|spaceless..].
    by rewrite words_line by spaceless.
Qed.

Lemma stage_prefix p s : starts_with STAGE (STAGE ++ p ++ s) = true.
Proof. apply starts_with_app. Qed.

Lemma stage_words_stage is_load ins : Forall (λ w, starts_with STAGE w = true ∧ starts_with FETCH w = false) (stage_words is_load ins).
Proof. unfold stage_words. destruct (_ =? 0); repeat (apply Forall_cons_2; [by split|]); apply Forall_nil_2. Qed.

Lemma plain_not_fetch w : plain w → starts_with FETCH w = false.
Proof.
  intros (_ & _ & Hs). destruct (starts_with FETCH w) eqn:E; [|done]. change FETCH with (STAGE ++ tok "fetch:") in E.
  apply starts_with_longer in E. congruence.
Qed.

Lemma drop_spaces_id w : unspaced w → drop_spaces w = w.
Proof. destruct w as [|c w]; [done|]. unfold unspaced. simpl. intros [H _]%andb_prop. by destruct (isspace c). Qed.

Lemma unspaced_rev w : unspaced w → unspaced (rev w).
Proof. unfold unspaced. rewrite !forallb_forall. intros Hw c Hc. apply Hw. by apply in_rev. Qed.

Lemma trim_plain w : plain w → trim w = Some w.
Proof.
  intros (Hu & Hne & _). unfold trim. destruct w as [|c w]; [done|]. rewrite (drop_spaces_id (c :: w)) by done.
  rewrite drop_spaces_id by by apply unspaced_rev. by rewrite rev_involutive.
Qed.

Lemma instruction_stages inst ls : Forall (λ w, starts_with STAGE w = true) ls → instruction_text inst ls = Some inst.
Proof. induction 1 as [|w ls Hw _ IH]; [done|]. cbn [instruction_text]. by rewrite Hw. Qed.

Lemma instruction_words inst ws ls :
  Forall plain ws → Forall (λ w, starts_with STAGE w = true) ls → inst ≠ [] →
  instruction_text inst (ws ++ ls) = Some (match ws with [] => inst | _ => inst ++ " "%char :: join ws end).
Proof.
  intros Hws Hls. revert inst. induction Hws as [|w ws Hw Hws IH]; intros inst Hne; cbn [app instruction_text]; [by apply instruction_stages|].
  pose proof Hw as (_ & Hwn & Hst). rewrite Hst, trim_plain by done. cbn [mbind option_bind]. destruct inst as [|c inst]; [done|].
  rewrite IH by done. f_equal. destruct ws as [|w' ws]; [done|]. by rewrite <- app_assoc.
Qed.

Lemma instruction_joined ws ls :
  Forall plain ws → Forall (λ w, starts_with STAGE w = true) ls → instruction_text [] (ws ++ ls) = Some (join ws).
Proof.
  intros Hws Hls. destruct Hws as [|w ws Hw Hws]; cbn [app instruction_text]; [by apply instruction_stages|].
  pose proof Hw as (_ & Hwn & Hst). rewrite Hst, trim_plain by done. cbn [mbind option_bind]. rewrite instruction_words by done.
  by destruct ws.
Qed.

Lemma override_skip prefix n v ls ls' :
  Forall (λ w, starts_with prefix w = false) ls → override prefix n v (ls ++ ls') = override prefix n v ls'.
Proof. induction 1 as [|w ls Hw _ IH]; [done|]. cbn [app override]. by rewrite Hw. Qed.

Lemma override_other prefix n v w ls : starts_with prefix w = false → override prefix n v (w :: ls) = override prefix n v ls.
Proof. intros Hw. cbn [override]. by rewrite Hw. Qed.

Lemma plain_not_prefix p w : plain w → starts_with (STAGE ++ p) w = false.
Proof.
  intros (_ & _ & Hs). apply not_true_is_false. intros E%starts_with_longer. congruence.
Qed.

Lemma header_numbers_printed ins : is_i64 (fetchTimestamp ins) → is_i64 (cycleCount ins) → header_numbers (header_word ins) = (fetchTimestamp ins, cycleCount ins).
Proof.
  intros Hf Hc. unfold header_numbers, fields, header_word.
  change (fields_loop [] (tok "O3PipeView:fetch:" ++ ?x)) with (tok "O3PipeView" :: tok "fetch" :: fields_loop [] x).
  change (tok ":0x") with (colon :: tok "0x"). change (tok ":0:") with (colon :: tok "0" ++ [colon]). rewrite <- !app_comm_cons.
  rewrite fields_colon by apply dec_solid. rewrite app_assoc, fields_colon; [|rewrite forallb_app, hex_solid; done].
  rewrite <- app_assoc. cbn [app]. rewrite (fields_colon [] (tok "0")) by done. rewrite fields_colon by apply dec_solid.
  cbn [app lookup list_lookup]. rewrite !stoull_dec by done. by rewrite !i64_u64.
Qed.

Lemma override_address v z ls : is_i64 z → override ADDRESS 3 v ((tok "O3PipeView:address:" ++ dec z) :: ls) = override ADDRESS 3 z ls.
Proof.
  intros Hz. cbn [override]. change (starts_with ADDRESS (tok "O3PipeView:address:" ++ dec z)) with true. cbn iota. unfold fields.
  change (fields_loop [] (tok "O3PipeView:address:" ++ dec z)) with (tok "O3PipeView" :: tok "address" :: fields_loop [] (dec z)).
  rewrite fields_end by apply dec_solid. cbn [app]. destruct (dec z) as [|c t] eqn:E; [by apply dec_nonempty in E|].
  cbn [flush_tmp lookup list_lookup length Nat.leb]. rewrite <- E, stoull_dec by done. cbn [mbind option_bind]. by rewrite i64_u64.
Qed.

(** A line of retirement: the time, the kind of access and another time. *)
Lemma override_retire v z kind x ls :
  is_i64 z → forallb solid kind = true → forallb solid x = true → x ≠ [] →
  override RETIRE 5 v ((tok "O3PipeView:retire:" ++ dec z ++ colon :: kind ++ colon :: x) :: ls) = override RETIRE 5 z ls.
Proof.
  intros Hz Hk Hx Hne. cbn [override]. change (starts_with RETIRE (tok "O3PipeView:retire:" ++ ?y)) with true. cbn iota. unfold fields.
  change (fields_loop [] (tok "O3PipeView:retire:" ++ ?y)) with (tok "O3PipeView" :: tok "retire" :: fields_loop [] y).
  rewrite !fields_colon by first [apply dec_solid|done]. rewrite fields_end by done. cbn [app]. destruct x as [|c x]; [done|].
  cbn [flush_tmp lookup list_lookup length Nat.leb]. rewrite stoull_dec by done. cbn [mbind option_bind]. by rewrite i64_u64.
Qed.

Lemma group_address is_load ins : printable ins → override ADDRESS 3 0 (trace_words is_load ins) = Some (address ins).
Proof.
  intros [Ha _ _ _ [_ Hw]]. unfold trace_words, stage_words. change ADDRESS with (STAGE ++ tok "address:").
  rewrite app_comm_cons, (override_skip _ _ _ (header_word ins :: words (instruction ins))).
  2: { apply Forall_cons_2; [done|]. eapply Forall_impl; [exact Hw|]. intros w Hp. by apply plain_not_prefix. }
  rewrite override_skip; [|repeat (apply Forall_cons_2; [done|]); apply Forall_nil_2].
  destruct (address ins =? 0) eqn:E; btests; [by rewrite E|]. rewrite override_other by done.
  change (STAGE ++ tok "address:") with ADDRESS. by apply override_address.
Qed.

Lemma group_retire is_load ins : printable ins → override RETIRE 5 0 (trace_words is_load ins) = Some (retireTimestamp ins).
Proof.
  intros [_ _ _ [Hr _] [_ Hw]]. unfold trace_words, stage_words. change RETIRE with (STAGE ++ tok "retire:").
  rewrite app_comm_cons, (override_skip _ _ _ (header_word ins :: words (instruction ins))).
  2: { apply Forall_cons_2; [done|]. eapply Forall_impl; [exact Hw|]. intros w Hp. by apply plain_not_prefix. }
  rewrite override_skip; [|repeat (apply Forall_cons_2; [done|]); apply Forall_nil_2]. change (STAGE ++ tok "retire:") with RETIRE.
  destruct (address ins =? 0).
  - change (tok ":store:0") with (colon :: tok "store" ++ colon :: tok "0"). by rewrite override_retire.
  - change (tok ":" ++ ?x) with (colon :: x). change (tok ":" ++ ?x) with (colon :: x).
    rewrite override_retire; [done|done|by destruct (is_load _)|apply dec_solid|apply dec_nonempty].
Qed.

Lemma parse_printed is_load ins : printable ins → parseGroup (trace_words is_load ins) = Some ins.
Proof.
  intros Hp. pose proof Hp as [Ha Hc Hf _ [Ht Hw]]. unfold parseGroup.
  rewrite group_address, group_retire by done.
  unfold trace_words. cbn [fetch_header]. change (starts_with FETCH (header_word ins)) with true. cbn iota. rewrite header_numbers_printed by done.
  rewrite instruction_joined; [|done|eapply Forall_impl; [apply stage_words_stage|]; by intros w [? _]]. cbn [mbind option_bind].
  rewrite <- Ht. by destruct ins.
Qed.

(** *** A printed trace *)

Lemma groups_rest cur ws rest :
  Forall (λ w, starts_with FETCH w = false) ws → groups_loop cur (ws ++ rest) = groups_loop (cur ++ ws) rest.
Proof.
  intros Hws. revert cur. induction Hws as [|w ws Hw _ IH]; intros cur; [by rewrite app_nil_r|]. cbn [app groups_loop]. rewrite Hw, IH.
  by rewrite <- app_assoc.
Qed.

Lemma words_printed is_load l t : trace_text is_load l = Some t → words t = l ≫= trace_words is_load.
Proof.
  revert t. induction l as [|ins l IH]; intros t; cbn [trace_text]; [by intros [= <-]|].
  destruct (trace_of is_load ins) as [t1|] eqn:E; [|done]. cbn [mbind option_bind]. destruct (trace_text is_load l) as [t2|]; [|done].
  cbn. intros Ht. apply (inj Some) in Ht. subst t. rewrite (words_trace is_load ins t1 t2 E). by rewrite (IH t2).
Qed.

Lemma groups_printed is_load l cur :
  Forall printable l → groups_loop cur (l ≫= trace_words is_load) = (match cur with [] => [] | _ => [cur] end) ++ (trace_words is_load <$> l).
Proof.
  intros Hl. revert cur. induction Hl as [|ins l Hp Hl IH]; intros cur; [by rewrite app_nil_r|]. cbn [mbind list_bind fmap list_fmap].
  unfold trace_words at 1. cbn [app groups_loop]. change (starts_with FETCH (header_word ins)) with true. cbn iota. f_equal.
  rewrite groups_rest.
  - rewrite IH. done.
  - apply Forall_app_2.
    + eapply Forall_impl; [apply (pr_text ins Hp)|]. apply plain_not_fetch.
    + eapply Forall_impl; [apply stage_words_stage|]. by intros w [_ ?].
Qed.

Lemma trace_groups is_load l t : Forall printable l → trace_text is_load l = Some t → groups_of t = trace_words is_load <$> l.
Proof. intros Hl Ht. unfold groups_of. rewrite (words_printed is_load l t Ht). by rewrite groups_printed. Qed.

(** ** Lemmas: the threads of the reader *)

#[global] Instance by_cycle_dec : RelDecision by_cycle.
Proof. intros a b. unfold by_cycle. apply _. Defined.

#[global] Instance by_cycle_total : Total by_cycle.
Proof. intros a b. unfold by_cycle. lia. Qed.

#[global] Instance by_cycle_trans : Transitive by_cycle.
Proof. intros a b c. unfold by_cycle. lia. Qed.

(** What one group adds to the results. *)
Definition parsed (g : list token) : list InstructionGroup := match parseGroup g with Some ins => result_of ins | None => [] end.

(** One thread that reads the file alone. *)
Definition read_trace (file : list ascii) : list InstructionGroup := merge_sort by_cycle (groups_of file ≫= parsed).

Definition in_hand (w : Worker) : list (list token) := match w with Parsing g => [g] | _ => [] end.

(** The groups that are still on their way. *)
Definition on_the_way (r : Reader) : list (list token) := (rd_workers r ≫= in_hand) ++ rd_queue r ++ rd_todo r.

Definition is_finished (w : Worker) : Prop := w = Finished.

Record reader_inv (all : list (list token)) (r : Reader) : Prop := {
  ri_results : rd_instructions r ++ (on_the_way r ≫= parsed) ≡ₚ all ≫= parsed;
  ri_groups : ∀ g, g ∈ on_the_way r → g ∈ all;
  ri_done : rd_done r = true → rd_todo r = [];
  ri_left : ∀ k, rd_workers r !! k = Some Finished → rd_queue r = [] ∧ rd_done r = true;
  ri_workers : length (rd_workers r) = numThreads
}.

Lemma insert_bind {A B} (f : A → list B) (l : list A) k x y : l !! k = Some x → (<[k := y]> l ≫= f) ++ f x ≡ₚ (l ≫= f) ++ f y.
Proof.
  revert k. induction l as [|a l IH]; intros [|k] Hk; [done|done|..]; cbn in *.
  - injection Hk as ->. rewrite <- !app_assoc, (app_assoc (f x)), (Permutation_app_comm (f x ++ _)), (Permutation_app_comm (f x)). done.
  - rewrite <- !app_assoc. f_equiv. by apply IH.
Qed.

Lemma start_reader_inv file : reader_inv (groups_of file) (start_reader file).
Proof. split; [done|done|done| |done]. intros k Hk. by apply lookup_replicate_1 in Hk as [? _]. Qed.

(** Where the groups of a worker go. *)
Lemma hands_update r k w w' q :
  rd_workers r !! k = Some w → in_hand w ++ rd_queue r ≡ₚ in_hand w' ++ q → (<[k := w']> (rd_workers r) ≫= in_hand) ++ q ++ rd_todo r ≡ₚ on_the_way r.
Proof.
  intros Hk Hq. pose proof (insert_bind in_hand (rd_workers r) k w w' Hk) as Hp. unfold on_the_way. rewrite !app_assoc. f_equiv.
  apply (Permutation_app_inv_l (in_hand w)). rewrite app_assoc, (Permutation_app_comm (in_hand w)), Hp, <- app_assoc, <- Hq.
  rewrite !app_assoc. f_equiv. apply Permutation_app_comm.
Qed.

Lemma bind_perm {A B} (f : A → list B) l k : l ≡ₚ k → l ≫= f ≡ₚ k ≫= f.
Proof. by intros ->. Qed.

(** A worker moves on: the results and the groups on the way are the same together. *)
Lemma worker_moved all r k w q ins :
  reader_inv all r → ins ++ (on_the_way (set_worker k w q ins r) ≫= parsed) ≡ₚ rd_instructions r ++ (on_the_way r ≫= parsed) →
  (∀ g, g ∈ on_the_way (set_worker k w q ins r) → g ∈ on_the_way r) →
  (w = Finished → q = [] ∧ rd_done r = true) → (rd_queue r = [] → q = []) → reader_inv all (set_worker k w q ins r).
Proof.
  intros [Hres Hgr Hdone Hleft Hw] Hp Hin Hf Hq. split; cbn [set_worker rd_instructions rd_done rd_todo rd_workers rd_queue].
  - by rewrite Hp.
  - intros g Hg. by apply Hgr, Hin.
  - done.
  - intros k' [(_ & E & _)|[_ Hk']]%list_lookup_insert_Some; [by apply Hf|]. destruct (Hleft k' Hk') as [Hq' Hd]. split; [by apply Hq|done].
  - by rewrite length_insert.
Qed.

(** The producer moves a group, or says that it is done. *)
Lemma producer_moved all r todo q d :
  reader_inv all r → q ++ todo = rd_queue r ++ rd_todo r → (d = true → todo = []) → (rd_done r = true → d = true ∧ q = rd_queue r) →
  reader_inv all {| rd_todo := todo; rd_queue := q; rd_done := d; rd_workers := rd_workers r; rd_instructions := rd_instructions r |}.
Proof.
  intros [Hres Hgr Hdone Hleft Hw] Hq Hd Hr. unfold on_the_way in *.
  split; unfold on_the_way; cbn [rd_instructions rd_done rd_todo rd_workers rd_queue]; rewrite ?Hq; [done|done|done| |done].
  intros k Hk. destruct (Hleft k Hk) as [Hq0 Hd0]. destruct (Hr Hd0) as [-> ->]. done.
Qed.

Lemma reader_preserved all r r' : reader_inv all r → reader_step r r' → reader_inv all r'.
Proof.
  intros Hi Hst. destruct Hst as [g rest Ht | Ht Hd | k g rest Hk Hq | k Hk Hq Hd | k g ins Hk Hp].
  - apply producer_moved; [done|by rewrite Ht, <- app_assoc| |]; intros Hd; apply (ri_done _ _ Hi) in Hd; congruence.
  - apply producer_moved; [done|by rewrite Ht|done|congruence].
  - assert (on_the_way (set_worker k (Parsing g) rest (rd_instructions r) r) ≡ₚ on_the_way r) as Heq by (apply (hands_update r k Waiting); [done|by rewrite Hq]).
    apply worker_moved; [done|by rewrite (bind_perm _ _ _ Heq)|by intros x; rewrite Heq|done|congruence].
  - assert (on_the_way (set_worker k Finished [] (rd_instructions r) r) ≡ₚ on_the_way r) as Heq by (apply (hands_update r k Waiting); [done|by rewrite Hq]).
    apply worker_moved; [done|by rewrite (bind_perm _ _ _ Heq)|by intros x; rewrite Heq|done|done].
  - assert (g :: on_the_way (set_worker k Waiting (rd_queue r) (rd_instructions r ++ result_of ins) r) ≡ₚ on_the_way r) as Heq.
    { unfold on_the_way. cbn [set_worker rd_workers rd_queue rd_todo]. change (g :: ?l) with ([g] ++ l). rewrite app_assoc. f_equiv.
      rewrite Permutation_app_comm. by rewrite (insert_bind in_hand _ _ _ Waiting Hk), app_nil_r. }
    apply worker_moved; [done| | |done|done].
    + rewrite <- (bind_perm _ _ _ Heq). cbn [mbind list_bind]. unfold parsed at 2. rewrite Hp. by rewrite <- app_assoc.
    + intros x Hx. rewrite <- Heq. apply elem_of_cons. by right.
Qed.

Lemma reader_reached file r : rtc reader_step (start_reader file) r → reader_inv (groups_of file) r.
Proof.
  intros Hr. pose proof (start_reader_inv file) as Hi. induction Hr as [|r0 r1 r2 Hst _ IH]; [done|]. by apply IH, (reader_preserved _ r0).
Qed.

(** When all threads are done, everything has been parsed. *)
Lemma joined_results all r : reader_inv all r → joined r → rd_instructions r ≡ₚ all ≫= parsed.
Proof.
  intros [Hres _ _ Hleft Hw] (Ht & _ & Hf). rewrite <- Hres. assert (on_the_way r = []) as ->; [|by rewrite app_nil_r].
  unfold on_the_way. rewrite Ht. assert (rd_workers r ≫= in_hand = []) as ->.
  { clear -Hf. induction Hf as [|w ws -> _ IH]; [done|]. exact IH. }
  destruct (lookup_lt_is_Some_2 (rd_workers r) 0) as [w Hk]; [rewrite Hw; unfold numThreads; lia|].
  rewrite (proj1 (Forall_lookup _ _) Hf 0%nat w Hk) in Hk. by destruct (Hleft 0%nat Hk) as [-> _].
Qed.

(** *** Steps that are left *)

Definition weight (w : Worker) : nat := match w with Finished => 0 | Waiting => 1 | Parsing _ => 2 end.
Definition steps_left (r : Reader) : nat :=
  3 * length (rd_todo r) + 2 * length (rd_queue r) + (if rd_done r then 0 else 1) + sum_list_with weight (rd_workers r).

Lemma weight_insert ws k w w' : ws !! k = Some w → (sum_list_with weight (<[k := w']> ws) + weight w = sum_list_with weight ws + weight w')%nat.
Proof.
  revert k. induction ws as [|x ws IH]; intros [|k] Hk; [done|done|..].
  - injection Hk as ->. cbn. lia.
  - change (<[S k := w']> (x :: ws)) with (x :: <[k := w']> ws). cbn [sum_list_with]. specialize (IH k Hk). lia.
Qed.

Lemma reader_decreases r r' : reader_step r r' → (steps_left r' < steps_left r)%nat.
Proof.
  unfold steps_left. intros Hst. destruct Hst as [g rest Ht | Ht Hd | k g rest Hk Hq | k Hk Hq Hd | k g ins Hk Hp];
    cbn [set_worker rd_todo rd_queue rd_done rd_workers].
  - rewrite Ht, length_app. cbn. lia.
  - rewrite Hd. cbn. lia.
  - pose proof (weight_insert _ _ _ (Parsing g) Hk). rewrite Hq. cbn in *. lia.
  - pose proof (weight_insert _ _ _ Finished Hk). cbn in *. lia.
  - pose proof (weight_insert _ _ _ Waiting Hk). cbn in *. lia.
Qed.

Lemma reader_progress all r :
  Forall (λ g, is_Some (parseGroup g)) all → reader_inv all r → joined r ∨ ∃ r', reader_step r r'.
Proof.
  intros Hall Hi. destruct (rd_todo r) as [|g rest] eqn:Ht; [|right; eexists; by eapply push_group].
  destruct (rd_done r) eqn:Hd; [|right; eexists; by apply set_done].
  destruct (decide (Exists (λ w, weight w ≠ 0%nat) (rd_workers r))) as [Hex|Hn].
  - right. apply Exists_exists in Hex as (w & [k Hk]%list_elem_of_lookup & Hw). destruct w as [|g|]; [|..|done].
    + destruct (rd_queue r) as [|g rest] eqn:Hq; eexists; [by eapply leave|by eapply take_group].
    + assert (g ∈ all) as Hg.
      { apply (ri_groups _ _ Hi). unfold on_the_way. apply elem_of_app. left. apply list_elem_of_bind. exists (Parsing g).
        split; [by apply list_elem_of_singleton|]. by eapply list_elem_of_lookup_2. }
      destruct (proj1 (Forall_forall _ _) Hall g Hg) as [ins Hp]. eexists. by eapply parse_group.
  - left. split_and!; [done..|]. apply not_Exists_Forall in Hn; [|apply _]. eapply Forall_impl; [exact Hn|]. intros [] H; [..|done]; exfalso; apply H; discriminate.
Qed.

Lemma reader_finishes all r :
  Forall (λ g, is_Some (parseGroup g)) all → reader_inv all r → ∃ r', rtc reader_step r r' ∧ joined r'.
Proof.
  intros Hall. remember (steps_left r) as n eqn:Hn. revert r Hn. induction (lt_wf n) as [n _ IH]. intros r -> Hi.
  destruct (reader_progress all r Hall Hi) as [Hj|[r' Hst]]; [by exists r|].
  destruct (IH (steps_left r') (reader_decreases r r' Hst) r' eq_refl (reader_preserved all r r' Hi Hst)) as (r2 & Hr & Hj).
  exists r2. split; [by eapply rtc_l|done].
Qed.

Lemma steps_bound n r r' : nsteps reader_step n r r' → (n + steps_left r' ≤ steps_left r)%nat.
Proof. induction 1 as [|n r r1 r2 Hst _ IH]; [lia|]. apply reader_decreases in Hst. lia. Qed.

(** Sorting by distinct cycles has one result. *)
Lemma sorted_unique l k :
  NoDup (cycleCount <$> l) → l ≡ₚ k → StronglySorted by_cycle l → StronglySorted by_cycle k → l = k.
Proof.
  intros Hn Hp Hl Hk. apply (StronglySorted_unique_strong by_cycle); [|done..]. intros x y Hx Hy Hxy Hyx. rewrite <- Hp in Hy.
  apply list_elem_of_lookup in Hx as [i Hi]. apply list_elem_of_lookup in Hy as [j Hj].
  assert (i = j) as ->; [|congruence]. eapply (NoDup_lookup _ i j (cycleCount x) Hn); rewrite list_lookup_fmap; [by rewrite Hi|].
  rewrite Hj. cbn. f_equal. unfold by_cycle in *. lia.
Qed.

Lemma reads_sequential file l :
  NoDup (cycleCount <$> (groups_of file ≫= parsed)) → parseInParallel file l → l = read_trace file.
Proof.
  intros Hn (r & Hr & Hj & Hp & Hs). pose proof (joined_results _ _ (reader_reached file r Hr) Hj) as Hres. unfold read_trace.
  apply sorted_unique; [|by rewrite Hp, Hres, merge_sort_Permutation|done|apply StronglySorted_merge_sort; apply _].
  assert (l ≡ₚ groups_of file ≫= parsed) as -> by by rewrite Hp, Hres. done.
Qed.

Lemma reads_some file :
  Forall (λ g, is_Some (parseGroup g)) (groups_of file) → parseInParallel file (read_trace file).
Proof.
  intros Hall. destruct (reader_finishes _ _ Hall (start_reader_inv file)) as (r & Hr & Hj). exists r. split; [done|]. split; [done|].
  pose proof (joined_results _ _ (reader_reached file r Hr) Hj) as Hres. unfold read_trace. split; [by rewrite merge_sort_Permutation, Hres|].
  apply StronglySorted_merge_sort; apply _.
Qed.

Lemma parsed_printed is_load l : Forall printable l → (trace_words is_load <$> l) ≫= parsed = l.
Proof.
  induction 1 as [|ins l Hp _ IH]; [done|]. cbn [fmap list_fmap mbind list_bind]. unfold parsed at 1. rewrite parse_printed by done.
  unfold result_of. rewrite (proj2 (Z.eqb_neq _ _)) by apply Hp. cbn [app]. f_equal. exact IH.
Qed.

(** A text of this form reads back as its instructions. *)
Lemma printed_reads is_load l t l' :
  Forall printable l → StronglySorted by_cycle l → NoDup (cycleCount <$> l) → trace_text is_load l = Some t → parseInParallel t l' ↔ l' = l.
Proof.
  intros Hl Hs Hn Ht. pose proof (trace_groups is_load l t Hl Ht) as Hg. pose proof (parsed_printed is_load l Hl) as Hp.
  assert (read_trace t = l) as Hr.
  { unfold read_trace. rewrite Hg, Hp. symmetry. apply sorted_unique; [done|by rewrite merge_sort_Permutation|done|apply StronglySorted_merge_sort; apply _]. }
  split.
  - intros Hpar. rewrite <- Hr. apply reads_sequential; [|done]. by rewrite Hg, Hp.
  - intros ->. rewrite <- Hr. apply reads_some. rewrite Hg. apply Forall_fmap. eapply Forall_impl; [exact Hl|].
    intros ins Hi. cbn. rewrite parse_printed by done. done.
Qed.

(** *** What is read can be written *)

Lemma words_loop_good tmp s : unspaced tmp → Forall (λ w, unspaced w ∧ w ≠ []) (words_loop tmp s).
Proof.
  assert (∀ t, unspaced t → Forall (λ w, unspaced w ∧ w ≠ []) (flush_tmp t)) as Hf by (intros [|c t] Ht; repeat constructor; done).
  revert tmp. induction s as [|c s IH]; intros tmp Ht; cbn [words_loop]; [by apply Hf|]. destruct (isspace c) eqn:E.
  - apply Forall_app_2; [by apply Hf|by apply IH].
  - apply IH, unspaced_app; [done|]. unfold unspaced. cbn. by rewrite E.
Qed.

Lemma groups_loop_good (P : token → Prop) cur ws : Forall P cur → Forall P ws → Forall (Forall P) (groups_loop cur ws).
Proof.
  intros Hc Hw. revert cur Hc. induction Hw as [|w ws Hw _ IH]; intros cur Hc; cbn [groups_loop].
  - destruct cur; repeat constructor; by inversion Hc.
  - destruct (starts_with FETCH w); [apply Forall_app_2; [destruct cur; repeat constructor; by inversion Hc|by apply IH; constructor]|].
    apply IH, Forall_app_2; [done|by constructor].
Qed.

Lemma words_join ws : Forall plain ws → words (join ws) = ws.
Proof.
  induction 1 as [|w ws (Hu & Hne & _) _ IH]; [done|]. cbn [join]. destruct ws as [|w' ws].
  - unfold words. rewrite words_unspaced by done. by destruct w.
  - rewrite words_cons by done. f_equal. exact IH.
Qed.

(** The text is made of the words that are no stages. *)
Lemma instruction_text_words lines inst t :
  Forall (λ w, unspaced w ∧ w ≠ []) lines → instruction_text inst lines = Some t →
  ∃ ws, Forall plain ws ∧ t = match inst, ws with [], _ => join ws | _, [] => inst | _, _ => inst ++ " "%char :: join ws end.
Proof.
  intros Hl. revert inst. induction Hl as [|w lines [Hu Hne] Hl IH]; intros inst; cbn [instruction_text].
  - intros [= <-]. exists []. split; [done|]. by destruct inst.
  - destruct (starts_with STAGE w) eqn:E; [apply IH|]. rewrite trim_plain by done. cbn [mbind option_bind]. intros Ht.
    destruct (IH _ Ht) as (ws & Hws & ->). exists (w :: ws). split; [by constructor|]. cbn [join].
    destruct inst as [|c inst], w as [|d w], ws as [|w' ws]; try done. cbn [app]. f_equal. by rewrite <- app_assoc.
Qed.

Lemma i64_range z : is_i64 (i64 z).
Proof. unfold is_i64, i64. pose proof (Z.mod_pos_bound (z + 2 ^ 63) (2 ^ 64) ltac:(lia)). lia. Qed.

Lemma override_range prefix n v group z : override prefix n v group = Some z → is_i64 v → is_i64 z.
Proof.
  revert v. induction group as [|line group IH]; intros v; cbn [override]; [by intros [= <-]|].
  destruct (starts_with prefix line); [|apply IH]. destruct (fields line !! 2%nat) as [t|]; [|apply IH]. destruct (_ <=? _)%nat; [|apply IH].
  destruct (stoull t) as [m|]; [|done]. cbn. intros Ho _. apply (IH (i64 m)); [done|apply i64_range].
Qed.

Lemma header_numbers_range h : is_i64 (header_numbers h).1 ∧ is_i64 (header_numbers h).2.
Proof.
  unfold header_numbers. destruct (fields h !! 2%nat) as [t|]; [|by split]. destruct (fields h !! 5%nat) as [c|]; [|by split].
  destruct (stoull t), (stoull c); (split; [apply i64_range || done..]).
Qed.

Lemma fetch_header_rest group h rest P : fetch_header group = Some (h, rest) → Forall P group → Forall P rest.
Proof.
  induction group as [|w group IH]; [done|]. cbn [fetch_header]. destruct (starts_with FETCH w); [intros [= <- <-]; by intros [_ ?]%Forall_cons|].
  intros Hh [_ Hg]%Forall_cons. by apply IH.
Qed.

Lemma parsed_printable g ins :
  Forall (λ w, unspaced w ∧ w ≠ []) g → parseGroup g = Some ins → retireTimestamp ins ≠ 0 → printable ins.
Proof.
  intros Hg. unfold parseGroup. destruct (fetch_header g) as [[h rest]|] eqn:Eh; [|by intros [= <-]].
  pose proof (header_numbers_range h) as [Hf Hc]. destruct (header_numbers h) as [f c]. cbn in Hf, Hc.
  destruct (instruction_text [] rest) as [t|] eqn:Et; [|done]. destruct (override ADDRESS 3 0 g) as [a|] eqn:Ea; [|done].
  destruct (override RETIRE 5 0 g) as [x|] eqn:Er; [|done]. cbn. intros [= <-] Hr. cbn in Hr.
  destruct (instruction_text_words rest [] t) as (ws & Hws & ->); [by eapply fetch_header_rest|done|].
  split; cbn; [by eapply override_range|done|done|split; [by eapply override_range|done]|]. by rewrite words_join.
Qed.

Lemma reads_printable file l : parseInParallel file l → Forall printable l ∧ StronglySorted by_cycle l.
Proof.
  intros (r & Hr & Hj & Hp & Hs). split; [|done]. pose proof (joined_results _ _ (reader_reached file r Hr) Hj) as Hres.
  apply Forall_forall. intros ins Hin. rewrite Hp, Hres in Hin. apply list_elem_of_bind in Hin as (g & Hin & Hg).
  assert (Forall (Forall (λ w, unspaced w ∧ w ≠ [])) (groups_of file)) as Hall by (apply groups_loop_good; [done|by apply words_loop_good]).
  pose proof (proj1 (Forall_forall _ _) Hall g Hg) as Hgood. unfold parsed in Hin. destruct (parseGroup g) as [i|] eqn:E; [|by apply elem_of_nil in Hin].
  unfold result_of in Hin. destruct (_ =? 0) eqn:Ez; [by apply elem_of_nil in Hin|]. apply list_elem_of_singleton in Hin as ->. btests.
  by apply (parsed_printable g).
Qed.

(** ** Theorems *)

(** Four threads read what one thread would read: when the instructions have
    distinct cycles, every interleaving of the producer and the threads, and
    every sort, gives the same list; when all groups parse, there is one. *)
Theorem parallel_reads_trace file l :
  Forall (λ g, is_Some (parseGroup g)) (groups_of file) → NoDup (cycleCount <$> (groups_of file ≫= parsed)) →
  parseInParallel file l ↔ l = read_trace file.
Proof. intros Hall Hn. split; [by apply reads_sequential|]. intros ->. by apply reads_some. Qed.

(** The threads of the reader end: no run is longer than three steps for each
    group and five more, and no run gets stuck before all threads are joined. *)
Theorem reader_terminates file n r :
  Forall (λ g, is_Some (parseGroup g)) (groups_of file) → nsteps reader_step n (start_reader file) r →
  (n ≤ 3 * length (groups_of file) + 5)%nat ∧ (joined r ∨ ∃ r', reader_step r r').
Proof.
  intros Hall Hr. split.
  - apply steps_bound in Hr. unfold steps_left, start_reader, numThreads in *. cbn in Hr. lia.
  - apply (reader_progress (groups_of file)); [done|]. apply reader_reached. by eapply rtc_nsteps_2.
Qed.

(** C17. A written trace reads back: the instructions of a trace that
    [generateDelayedTrace] writes are what [parseInParallel] reads from it, in
    every interleaving. *)
Theorem trace_roundtrip l t l' :
  Forall printable l → StronglySorted by_cycle l → NoDup (cycleCount <$> l) → generateDelayedTrace l = Some t →
  parseInParallel t l' ↔ l' = l.
Proof. apply printed_reads. Qed.

(** ** Examples *)

Definition ex_ins (a c f r : Z) (text : string) : InstructionGroup :=
  {| address := a; cycleCount := c; fetchTimestamp := f; retireTimestamp := r; instruction := tok text |}.

Definition ex_load : InstructionGroup := ex_ins 140737354362576 1686 816000 820000 "MOV_R_M : ld rax, [rbx]".
Definition ex_add : InstructionGroup := ex_ins 0 1687 816500 820500 "ADD_R_R".
Definition ex_instructions : list InstructionGroup := [ex_load; ex_add].
Definition ex_file : token := default [] (generateDelayedTrace ex_instructions).

Lemma ex_printable : Forall printable ex_instructions.
Proof.
  repeat (apply Forall_cons_2; [split; [cbn; unfold is_i64; lia..|by vm_compute|]|]); [..|apply Forall_nil_2].
  all: split; [by vm_compute|]. all: refine (bool_decide_unpack _ _); by vm_compute.
Qed.

Lemma ex_sorted : StronglySorted by_cycle ex_instructions ∧ NoDup (cycleCount <$> ex_instructions).
Proof.
  split; [|refine (bool_decide_unpack _ _); by vm_compute]. repeat constructor. unfold by_cycle. cbn. lia.
Qed.

Lemma ex_groups : Forall (λ g, is_Some (parseGroup g)) (groups_of ex_file) ∧ NoDup (cycleCount <$> (groups_of ex_file ≫= parsed)).
Proof.
  rewrite (trace_groups delayed_is_load ex_instructions ex_file ex_printable) by by vm_compute. split.
  - apply Forall_fmap. eapply Forall_impl; [apply ex_printable|]. intros ins Hi. cbn. rewrite parse_printed by done. done.
  - rewrite parsed_printed by apply ex_printable. apply ex_sorted.
Qed.

Lemma trace_roundtrip_witness :
  take 55 ex_file = tok "O3PipeView:fetch:816000:0x7ffff8036ed0:0:1686:  MOV_R_M" ∧ (parseInParallel ex_file ex_instructions ↔ ex_instructions = ex_instructions).
Proof.
  split; [by vm_compute|]. apply (trace_roundtrip ex_instructions ex_file ex_instructions); [apply ex_printable|apply ex_sorted|apply ex_sorted|by vm_compute].
Defined.

Lemma parallel_reads_trace_witness :
  length (groups_of ex_file) = 2%nat ∧ (parseInParallel ex_file (read_trace ex_file) ↔ read_trace ex_file = read_trace ex_file).
Proof. split; [by vm_compute|]. apply (parallel_reads_trace ex_file); [apply ex_groups|apply ex_groups]. Defined.

Lemma reader_terminates_witness :
  (0 ≤ 3 * length (groups_of ex_file) + 5)%nat ∧ (joined (start_reader ex_file) ∨ ∃ r', reader_step (start_reader ex_file) r').
Proof. apply (reader_terminates ex_file 0 (start_reader ex_file)); [apply ex_groups|apply nsteps_O]. Defined.

(** ** Observations *)

(** A line of retirement whose time is not a number raises an exception that no
    thread catches, while the same in a fetch header counts as zero. *)
Theorem bad_retire_ends_program :
  parseGroup (words (tok "O3PipeView:fetch:5:0x0:0:7: NOP O3PipeView:retire:x:store:0")) = None ∧
  cycleCount <$> parseGroup (words (tok "O3PipeView:fetch:x:0x0:0:7: NOP O3PipeView:retire:9:store:0")) = Some 0.
Proof. by vm_compute. Qed.

(** The two writers disagree on what is a load. *)
Theorem writers_disagree : delayed_is_load (tok "MOV_R_M") = true ∧ saved_is_load (tok "MOV_R_M") = false.
Proof. by vm_compute. Qed.
