(* ===== verification/Rob.v ===== *)
(** * Reorder buffer and trace simulation

    Models [Rob] (include/rob.h, src/rob.cpp) and the simulation of [main]
    (src/rob.cc): the instructions of a trace are issued to a buffer of 512
    entries, which retires up to four of them from its front in a tick and
    delays those that access memory by what the controller answers; then the
    trace is written.  [issue] stores a copy of the instruction.

    The buffer reaches the controller through the interface [Timing]; what its
    theorems need of it is [TimingOk].  The counters are [int64_t]; they wrap here
    where C++ leaves an overflow undefined, after 2^63 cycles.  Latencies of
    instructions that access no memory, [totalLatency_] and [last_latency] are not
    used by the code. *)

From Stdlib Require Import Ascii SpecFloat.
From S2P Require Import Prelude Float64 Topology Trace.

(** ** The controller *)

Class Timing (C : Type) := {
  tm_insert : Z → Z → Z → Z → Z → C → option C;        (** timestamp, thread, physical and virtual address, index *)
  tm_insert_lbrs : Z → Z → C → option C;               (** timestamp, thread; 32 empty branch records *)
  tm_get_access : Z → C → list (Z * Z) * C;
  tm_calculate_latency : list (Z * Z) → f64 → C → f64 * C
}.

Class TimingOk (C : Type) `{Timing C} (inv : C → Prop) := {
  tm_insert_ok ts tid pa va i c : inv c → ∃ c', tm_insert ts tid pa va i c = Some c' ∧ inv c';
  tm_insert_lbrs_ok ts tid c : inv c → ∃ c', tm_insert_lbrs ts tid c = Some c' ∧ inv c';
  tm_get_access_ok ts c : inv c → inv (tm_get_access ts c).2;
  tm_calculate_latency_ok l d c : inv c → inv (tm_calculate_latency l d c).2
}.

(** The same for a controller that takes a limited number of accesses: [inv k c]
    holds of the controller [c] after the access with index [k]. *)
Class TimingWithin (C : Type) `{Timing C} (inv : Z → C → Prop) (limit : Z) := {
  tw_insert_ok ts tid pa va k c : inv k c → 0 <= k < limit → ∃ c', tm_insert ts tid pa va (k + 1) c = Some c' ∧ inv (k + 1) c';
  tw_insert_lbrs_ok ts tid k c : inv k c → ∃ c', tm_insert_lbrs ts tid c = Some c' ∧ inv k c';
  tw_get_access_ok ts k c : inv k c → inv k (tm_get_access ts c).2;
  tw_calculate_latency_ok l d k c : inv k c → inv k (tm_calculate_latency l d c).2
}.

#[export] Instance timing_unlimited (C : Type) `{Timing C} (inv : C → Prop) (limit : Z) `{!TimingOk C inv} : TimingWithin C (λ _, inv) limit.
Proof.
  split; [intros ts tid pa va k c Hi _; by apply tm_insert_ok|intros ts tid k c; apply tm_insert_lbrs_ok|
    intros ts k c; apply tm_get_access_ok|intros l d k c; apply tm_calculate_latency_ok].
Qed.

(** Nothing is asked of a controller in no state. *)
#[export] Instance timing_nowhere (C : Type) `{Timing C} : TimingWithin C (λ _ _, False) 0.
Proof. by split. Qed.

Section with_timing.
Context `{CastUB} {C : Type} `{Timing C}.

(** ** The buffer *)

Record Rob := {
  queue_ : list InstructionGroup;
  maxSize_ : nat;
  stallCount_ : Z;
  stallEventCount_ : Z;
  cur_latency : Z;
  currentCycle_ : Z;
  rb_counter : Z;                        (** [counter] *)
  controller_ : C
}.

Definition Rob_new (c : C) (size : nat) (cycle : Z) : Rob :=
  {| queue_ := []; maxSize_ := size; stallCount_ := 0; stallEventCount_ := 0; cur_latency := 0; currentCycle_ := cycle;
     rb_counter := 0; controller_ := c |}.

Definition set_queue (q : list InstructionGroup) (r : Rob) : Rob :=
  {| queue_ := q; maxSize_ := maxSize_ r; stallCount_ := stallCount_ r; stallEventCount_ := stallEventCount_ r;
     cur_latency := cur_latency r; currentCycle_ := currentCycle_ r; rb_counter := rb_counter r; controller_ := controller_ r |}.

Definition set_controller (c : C) (r : Rob) : Rob :=
  {| queue_ := queue_ r; maxSize_ := maxSize_ r; stallCount_ := stallCount_ r; stallEventCount_ := stallEventCount_ r;
     cur_latency := cur_latency r; currentCycle_ := currentCycle_ r; rb_counter := rb_counter r; controller_ := c |}.

Definition set_times (lat cycle : Z) (r : Rob) : Rob :=
  {| queue_ := queue_ r; maxSize_ := maxSize_ r; stallCount_ := stallCount_ r; stallEventCount_ := stallEventCount_ r;
     cur_latency := lat; currentCycle_ := cycle; rb_counter := rb_counter r; controller_ := controller_ r |}.

Definition add_stalls (n events : Z) (r : Rob) : Rob :=
  {| queue_ := queue_ r; maxSize_ := maxSize_ r; stallCount_ := i64 (stallCount_ r + n); stallEventCount_ := i64 (stallEventCount_ r + events);
     cur_latency := cur_latency r; currentCycle_ := currentCycle_ r; rb_counter := rb_counter r; controller_ := controller_ r |}.

Definition count_access (r : Rob) : Rob :=
  {| queue_ := queue_ r; maxSize_ := maxSize_ r; stallCount_ := stallCount_ r; stallEventCount_ := stallEventCount_ r;
     cur_latency := cur_latency r; currentCycle_ := currentCycle_ r; rb_counter := rb_counter r + 1; controller_ := controller_ r |}.

Definition size_of (r : Rob) : Z := Z.of_nat (length (queue_ r)).

(** [static_cast<int64_t>(x)] *)
Definition f64_to_i64 (x : f64) : Z :=
  match ftrunc x with Some z => if fits z then z else i64 (cast_ub x) | None => i64 (cast_ub x) end.

Definition issue (ins : InstructionGroup) (r : Rob) : option (bool * Rob) :=
  if (maxSize_ r <=? length (queue_ r))%nat then Some (false, add_stalls 1 1 r)
  else
    let r1 := set_queue (queue_ r ++ [ins]) r in
    if address ins =? 0 then Some (true, r1)
    else
      let r2 := count_access r1 in
      c1 ← tm_insert (u64 (retireTimestamp ins)) 0 (u64 (address ins)) 0 (rb_counter r2) (controller_ r2);
      c2 ← tm_insert_lbrs (u64 (retireTimestamp ins)) 1 c1;
      Some (true, set_controller c2 r2).

(** What a memory access costs when [size] instructions are in the buffer. *)
Definition pipeline_factor (size : Z) : f64 := fmin (flit 7 10) (flit 9 10 - f64_of_Z size * flit 5 100)%f64.

Definition scaled_latency (base : f64) (size : Z) : f64 :=
  let b := (base * flit 8 100)%f64 in if 1 <? size then (b * pipeline_factor size)%f64 else b.

Definition delayed (ins : InstructionGroup) (n : Z) : InstructionGroup :=
  {| address := address ins; cycleCount := cycleCount ins; fetchTimestamp := fetchTimestamp ins;
     retireTimestamp := i64 (retireTimestamp ins + n); instruction := instruction ins |}.

(** The first look at the memory access at the front of the buffer. *)
Definition start_access (ins : InstructionGroup) (r : Rob) : InstructionGroup * Rob :=
  let '(allAccess, c1) := tm_get_access (u64 (retireTimestamp ins)) (controller_ r) in
  let '(baseLatency, c2) := tm_calculate_latency allAccess (f64_of_Z 80) c1 in
  let lat := f64_to_i64 (fmax f1 (scaled_latency baseLatency (size_of r))) in
  let stalls := i64 (stallCount_ r + lat) in
  (delayed ins lat, set_times lat (i64 (currentCycle_ r + lat)) (add_stalls lat (if Z.rem stalls 2 =? 0 then 1 else 0) (set_controller c2 r))).

(** Can the instruction at the front retire?  It is changed in the buffer. *)
Definition canRetire (ins : InstructionGroup) (r : Rob) : bool * InstructionGroup * Rob :=
  if address ins =? 0 then (true, ins, r)
  else
    let '(ins1, r1) := if cur_latency r =? 0 then start_access ins r else (ins, set_times 1 (i64 (currentCycle_ r + 1)) r) in
    let waitTime := u64 (currentCycle_ r1 - cycleCount ins1) in
    if waitTime <? u64 (Z.quot (cur_latency r1) 2) then (false, ins1, add_stalls 1 1 r1)
    else (true, ins1, set_times 0 (currentCycle_ r1) r1).

Definition MAX_RETIRE_PER_CYCLE : nat := 4.

Fixpoint retire_loop (n : nat) (r : Rob) : Rob :=
  match n, queue_ r with
  | S n', ins :: rest =>
      let '(ok, ins', r') := canRetire ins r in
      if ok then retire_loop n' (set_queue rest r') else set_queue (ins' :: rest) r'
  | _, _ => r
  end.

Definition tick (r : Rob) : Rob := retire_loop MAX_RETIRE_PER_CYCLE (set_times (cur_latency r) (i64 (currentCycle_ r + 1)) r).

(** The first of five instructions after the front that accesses no memory leaves
    the buffer; [None]: the front of an empty buffer. *)
Fixpoint erase_plain (n : nat) (q : list InstructionGroup) : option (list InstructionGroup) :=
  match n, q with
  | S n', ins :: rest => if address ins =? 0 then Some rest else rest' ← erase_plain n' rest; Some (ins :: rest')
  | _, _ => None
  end.

Definition tryAlternativeRetire (r : Rob) : option (bool * Rob) :=
  match queue_ r with
  | [] => None
  | front :: rest =>
      match erase_plain 5 rest with
      | Some rest' => Some (true, set_queue (front :: rest') r)
      | None => Some (false, add_stalls 1 1 r)
      end
  end.

(** ** The simulation *)

(** [while (!issued)]: a full buffer has room after two ticks. *)
Fixpoint issue_loop (fuel : nat) (ins : InstructionGroup) (r : Rob) : option Rob :=
  match fuel with
  | O => None
  | S fuel' => '(issued, r1) ← issue ins r; if (issued : bool) then Some r1 else issue_loop fuel' ins (tick r1)
  end.

Definition issue_fuel : nat := 3.

(** [while (!rob.queue_.empty())]: an instruction retires after at most two ticks. *)
Fixpoint drain_loop (fuel : nat) (r : Rob) : option Rob :=
  match queue_ r, fuel with
  | [], _ => Some r
  | _, O => None
  | _, S fuel' => drain_loop fuel' (tick r)
  end.

(** The instructions from index [idx] on, with interim saves of all
    [instructions] to the output file when [interval] is positive. *)
Fixpoint simulate_loop (interval : Z) (instructions : list InstructionGroup) (idx : Z) (todo : list InstructionGroup) (r : Rob) (file : token)
    : option (Rob * token) :=
  match todo with
  | [] => Some (r, file)
  | ins :: rest =>
      r1 ← issue_loop issue_fuel ins r;
      let r2 := tick r1 in
      file' ← if (0 <? interval) && (0 <? idx) && (idx mod interval =? 0) then saveInstructionTrace instructions true file else Some file;
      simulate_loop interval instructions (idx + 1) rest r2 file'
  end.

(** [main] after the trace was read: the state of the buffer and the output
    file, which held [old]. *)
Definition simulate (interval : Z) (instructions : list InstructionGroup) (c : C) (old : token) : option (Rob * token) :=
  let rob := Rob_new c 512 1687 in
  '(r1, file) ← simulate_loop interval instructions 0 instructions rob (if 0 <? interval then [] else old);
  r2 ← drain_loop (2 * length (queue_ r1)) r1;
  file' ← if 0 <? interval then saveInstructionTrace instructions true file else generateDelayedTrace instructions;
  Some (r2, file').

End with_timing.

#[global] Arguments Rob C : clear implicits.

(** ** Lemmas: retirement *)

(** What the buffer keeps of an instruction: all but its time of retirement. *)
Definition key (ins : InstructionGroup) : Z * Z * Z * token := (address ins, cycleCount ins, fetchTimestamp ins, instruction ins).

Section lemmas.
Context `{Hcast : CastUB} {C : Type} `{Htm : Timing C} (inv : Z → C → Prop) (limit : Z) {Hok : TimingWithin C inv limit}.
Implicit Types r : Rob C.

Definition holds (r : Rob C) : Prop := inv (rb_counter r) (controller_ r).

(** The memory accesses among instructions. *)
Definition accesses_of (l : list InstructionGroup) : Z := Z.of_nat (length (keep (λ ins, negb (address ins =? 0)) l)).

Record retire_frame (r r' : Rob C) : Prop := {
  rf_queue : queue_ r' = queue_ r;
  rf_size : maxSize_ r' = maxSize_ r;
  rf_counter : rb_counter r' = rb_counter r;
  rf_inv : holds r → holds r'
}.

Lemma start_access_frame ins r : retire_frame r (start_access ins r).2 ∧ key (start_access ins r).1 = key ins.
Proof.
  unfold start_access. destruct (tm_get_access _ _) as [l c1] eqn:E1. destruct (tm_calculate_latency _ _ _) as [b c2] eqn:E2. split; [|done].
  split; [done|done|done|]. unfold holds. cbn. intros Hi. pose proof (tw_get_access_ok (u64 (retireTimestamp ins)) _ _ Hi) as H1. rewrite E1 in H1. cbn in H1.
  pose proof (tw_calculate_latency_ok l (f64_of_Z 80) _ _ H1) as H2. by rewrite E2 in H2.
Qed.

Lemma canRetire_frame ins r ok ins' r' : canRetire ins r = (ok, ins', r') → retire_frame r r' ∧ key ins' = key ins.
Proof.
  unfold canRetire. destruct (address ins =? 0); [by intros [= <- <- <-]|].
  destruct (if cur_latency r =? 0 then start_access ins r else _) as [ins1 r1] eqn:E. intros Hr.
  assert (retire_frame r r1 ∧ key ins1 = key ins) as [[H1 H2 Hn H3] Hk].
  { destruct (_ =? 0); [|by injection E as <- <-]. pose proof (start_access_frame ins r) as Hs. by rewrite E in Hs. }
  destruct (_ <? _); injection Hr as <- <- <-; by split.
Qed.

(** An instruction that cannot retire was not looked at before, and will retire
    at the next look. *)
Lemma canRetire_stalls ins r ins' r' : canRetire ins r = (false, ins', r') → cur_latency r = 0 ∧ cur_latency r' ≠ 0.
Proof.
  unfold canRetire. destruct (address ins =? 0); [done|]. destruct (cur_latency r =? 0) eqn:E; btests.
  - destruct (start_access ins r) as [ins1 r1]. destruct (_ <? _) eqn:Ew; [|done]. intros [= <- <-]. split; [done|]. cbn. btests. intros Hz. rewrite Hz in Ew.
    pose proof (u64_range (currentCycle_ r1 - cycleCount ins1)). change (u64 (Z.quot 0 2)) with 0 in Ew. unfold is_u64 in *. lia.
  - destruct (_ <? _) eqn:Ew; [|done]. btests. cbn [set_times cur_latency currentCycle_] in Ew. pose proof (u64_range (i64 (currentCycle_ r + 1) - cycleCount ins)).
    change (u64 (Z.quot 1 2)) with 0 in Ew. unfold is_u64 in *. lia.
Qed.

Record retires (n : nat) (r r' : Rob C) : Prop := {
  rt_order : ∃ k, (k ≤ n)%nat ∧ key <$> queue_ r' = drop k (key <$> queue_ r);
  rt_size : maxSize_ r' = maxSize_ r;
  rt_counter : rb_counter r' = rb_counter r;
  rt_inv : holds r → holds r'
}.

Lemma retires_length n r r' : retires n r r' → (length (queue_ r') ≤ length (queue_ r))%nat.
Proof. intros [(k & _ & Hk) _ _ _]. apply (f_equal length) in Hk. rewrite length_drop, !length_fmap in Hk. lia. Qed.

Lemma retire_loop_retires n r : retires n r (retire_loop n r).
Proof.
  revert r. induction n as [|n IH]; intros r; cbn [retire_loop]; [by split; [exists 0%nat|..]|].
  destruct (queue_ r) as [|ins rest] eqn:Hq; [by split; [exists 0%nat; split; [lia|]|..]|].
  destruct (canRetire ins r) as [[ok ins'] r'] eqn:Hc. destruct (canRetire_frame _ _ _ _ _ Hc) as [[H1 H2 Hn H3] Hk]. destruct ok.
  - destruct (IH (set_queue rest r')) as [(k & Hkn & Ho) Hs Hn' Hi]. split; [|by rewrite Hs|by rewrite Hn'|by intros; apply Hi, H3].
    exists (S k). split; [lia|]. rewrite Ho, Hq. done.
  - split; [|done|done|done]. exists 0%nat. split; [lia|]. cbn. rewrite Hq. cbn. by rewrite Hk.
Qed.

Lemma retire_loop_moves n r :
  queue_ r ≠ [] → (length (queue_ (retire_loop (S n) r)) < length (queue_ r))%nat ∨ (cur_latency r = 0 ∧ cur_latency (retire_loop (S n) r) ≠ 0).
Proof.
  intros Hne. cbn [retire_loop]. destruct (queue_ r) as [|ins rest] eqn:Hq; [done|]. destruct (canRetire ins r) as [[ok ins'] r'] eqn:Hc.
  destruct ok; [left|right; by apply canRetire_stalls in Hc]. pose proof (retires_length _ _ _ (retire_loop_retires n (set_queue rest r'))) as Hl. cbn in *. lia.
Qed.

Lemma tick_retires r : retires MAX_RETIRE_PER_CYCLE r (tick r).
Proof. unfold tick. by destruct (retire_loop_retires MAX_RETIRE_PER_CYCLE (set_times (cur_latency r) (i64 (currentCycle_ r + 1)) r)). Qed.

Lemma tick_moves r :
  queue_ r ≠ [] → (length (queue_ (tick r)) < length (queue_ r))%nat ∨ (cur_latency r = 0 ∧ cur_latency (tick r) ≠ 0).
Proof. intros Hne. by apply (retire_loop_moves 3 (set_times (cur_latency r) (i64 (currentCycle_ r + 1)) r)). Qed.

(** The ticks that empty the buffer. *)
Definition ticks_left (r : Rob C) : nat := 2 * length (queue_ r) - (if cur_latency r =? 0 then 0 else 1).

Lemma tick_decreases r : queue_ r ≠ [] → (ticks_left (tick r) < ticks_left r)%nat.
Proof.
  intros Hne. assert (0 < length (queue_ r))%nat by (destruct (queue_ r); [done|simpl; lia]).
  pose proof (retires_length _ _ _ (tick_retires r)). unfold ticks_left. destruct (tick_moves r Hne) as [Hlt|[H1 H2]].
  - destruct (cur_latency (tick r) =? 0), (cur_latency r =? 0); lia.
  - rewrite (proj2 (Z.eqb_eq _ _) H1), (proj2 (Z.eqb_neq _ _) H2). lia.
Qed.

Lemma drain_empties fuel r :
  (ticks_left r ≤ fuel)%nat → holds r → ∃ r', drain_loop fuel r = Some r' ∧ queue_ r' = [] ∧ rb_counter r' = rb_counter r ∧ holds r'.
Proof.
  revert r. induction fuel as [|fuel IH]; intros r Hf Hi; cbn [drain_loop].
  - destruct (queue_ r) eqn:Hq; [by exists r|]. unfold ticks_left in Hf. rewrite Hq in Hf. destruct (_ =? _); simpl in Hf; lia.
  - destruct (queue_ r) eqn:Hq; [by exists r|]. destruct (tick_retires r) as [_ _ Hc Hi']. rewrite <- Hc. apply IH; [|by apply Hi'].
    assert (queue_ r ≠ []) as Hne by by rewrite Hq. pose proof (tick_decreases r Hne). lia.
Qed.

(** ** Lemmas: issue *)

Lemma issue_room ins r :
  (length (queue_ r) < maxSize_ r)%nat → 0 <= rb_counter r → rb_counter r + accesses_of [ins] <= limit → holds r →
  ∃ r', issue ins r = Some (true, r') ∧ queue_ r' = queue_ r ++ [ins] ∧ maxSize_ r' = maxSize_ r ∧
        rb_counter r' = rb_counter r + accesses_of [ins] ∧ holds r'.
Proof.
  intros Hl H0 Hn Hi. unfold issue. rewrite (proj2 (Nat.leb_gt _ _) Hl). unfold accesses_of in *. rewrite keep_cons in *.
  destruct (address ins =? 0); cbn [negb length] in *.
  { eexists. split_and!; try done. change (keep _ []) with (@nil InstructionGroup). cbn. lia. }
  change (keep _ []) with (@nil InstructionGroup) in *. cbn [length] in *.
  destruct (tw_insert_ok (u64 (retireTimestamp ins)) 0 (u64 (address ins)) 0 (rb_counter r) (controller_ r) Hi) as (c1 & E1 & Hi1); [lia|].
  cbn. rewrite E1. cbn. destruct (tw_insert_lbrs_ok (u64 (retireTimestamp ins)) 1 _ c1 Hi1) as (c2 & -> & Hi2). by eexists.
Qed.

Lemma issue_full ins r : (maxSize_ r ≤ length (queue_ r))%nat → issue ins r = Some (false, add_stalls 1 1 r).
Proof. intros Hl. unfold issue. by rewrite (proj2 (Nat.leb_le _ _) Hl). Qed.

(** The loop around [issue] adds the instruction after at most two ticks. *)
Lemma issue_loop_issues ins r :
  (0 < maxSize_ r)%nat → (length (queue_ r) ≤ maxSize_ r)%nat → 0 <= rb_counter r → rb_counter r + accesses_of [ins] <= limit → holds r →
  ∃ r', issue_loop issue_fuel ins r = Some r' ∧ (length (queue_ r') ≤ maxSize_ r')%nat ∧ maxSize_ r' = maxSize_ r ∧
        rb_counter r' = rb_counter r + accesses_of [ins] ∧ holds r'.
Proof.
  intros Hm Hl H0 Hn Hi. assert (∀ fuel r1, maxSize_ r1 = maxSize_ r → rb_counter r1 = rb_counter r → (length (queue_ r1) < maxSize_ r)%nat → holds r1 →
    ∃ r', issue_loop (S fuel) ins r1 = Some r' ∧ (length (queue_ r') ≤ maxSize_ r')%nat ∧ maxSize_ r' = maxSize_ r ∧
          rb_counter r' = rb_counter r + accesses_of [ins] ∧ holds r') as Hroom.
  { intros fuel r1 Hs1 Hc1 Hl1 Hi1. destruct (issue_room ins r1) as (r' & E & Hq & Hs & Hc & Hi'); [lia|lia|lia|done|]. exists r'. cbn [issue_loop]. rewrite E. cbn.
    split; [done|]. rewrite Hq, length_app. simpl. split_and!; [lia|congruence|congruence|done]. }
  destruct (decide (length (queue_ r) < maxSize_ r)%nat) as [Hlt|Hge]; [by apply Hroom|]. unfold issue_fuel. cbn [issue_loop]. rewrite issue_full by lia. cbn [mbind option_bind].
  set (r1 := add_stalls 1 1 r). assert (queue_ r1 ≠ []) as Hne by (cbn; destruct (queue_ r); [simpl in *; lia|done]).
  pose proof (tick_retires r1) as [_ Hs1 Hc1 Hi1]. pose proof (retires_length _ _ _ (tick_retires r1)) as Hl1. change (maxSize_ r1) with (maxSize_ r) in Hs1. change (queue_ r1) with (queue_ r) in Hl1. specialize (Hi1 Hi).
  destruct (decide (length (queue_ (tick r1)) < maxSize_ r)%nat) as [Hlt|Hge']; [by apply (Hroom 1%nat)|].
  destruct (tick_moves r1 Hne) as [Hlt|[_ Hcur]]; [change (queue_ r1) with (queue_ r) in Hlt; lia|]. rewrite issue_full by lia. cbn [mbind option_bind].
  set (r2 := add_stalls 1 1 (tick r1)). assert (queue_ r2 ≠ []) as Hne2 by (change (queue_ (tick r1) ≠ []); intros E; apply Hge'; rewrite E; simpl; lia).
  pose proof (tick_retires r2) as [_ Hs2 Hc2 Hi2]. change (maxSize_ r2) with (maxSize_ (tick r1)) in Hs2. apply (Hroom 0%nat); [congruence|by rewrite Hc2| |by apply Hi2].
  destruct (tick_moves r2 Hne2) as [Hlt|[Hz _]]; [change (queue_ r2) with (queue_ (tick r1)) in Hlt; lia|done].
Qed.

(** ** Lemmas: the simulation *)

Lemma trace_text_writable is_load l : Forall (λ ins, writable ins = true) l → is_Some (trace_text is_load l).
Proof.
  induction 1 as [|ins l Hw _ [t IH]]; [done|]. cbn [trace_text]. unfold trace_of. rewrite Hw, IH. by eexists.
Qed.

Lemma save_writable l append file : Forall (λ ins, writable ins = true) l → is_Some (saveInstructionTrace l append file).
Proof.
  intros Hl. unfold saveInstructionTrace. destruct (trace_text_writable saved_is_load (keep (λ ins, negb (retireTimestamp ins =? 0)) l)) as [t ->]; [|by eexists].
  apply Forall_forall. intros ins [_ Hin]%elem_of_keep. by apply (proj1 (Forall_forall _ _) Hl).
Qed.

Lemma accesses_of_cons ins l : accesses_of (ins :: l) = accesses_of [ins] + accesses_of l.
Proof. unfold accesses_of. rewrite !keep_cons. change (keep _ []) with (@nil InstructionGroup). destruct (negb _); cbn [length]; lia. Qed.

Lemma simulate_loop_runs interval l idx todo r file :
  Forall (λ ins, writable ins = true) l → (0 < maxSize_ r)%nat → (length (queue_ r) ≤ maxSize_ r)%nat →
  0 <= rb_counter r → rb_counter r + accesses_of todo <= limit → holds r →
  ∃ r' file', simulate_loop interval l idx todo r file = Some (r', file') ∧ rb_counter r' = rb_counter r + accesses_of todo ∧ holds r'.
Proof.
  intros Hl. revert idx r file. induction todo as [|ins todo IH]; intros idx r file Hm Hq H0 Hn Hi; cbn [simulate_loop].
  { exists r, file. split_and!; [done| |done]. change (accesses_of []) with 0. lia. }
  rewrite accesses_of_cons in *. assert (0 <= accesses_of [ins] ∧ 0 <= accesses_of todo) as [Ha Ht] by (unfold accesses_of; lia).
  destruct (issue_loop_issues ins r Hm Hq H0 ltac:(lia) Hi) as (r1 & -> & Hq1 & Hs1 & Hc1 & Hi1). cbn [mbind option_bind].
  pose proof (tick_retires r1) as [_ Hs2 Hc2 Hi2]. pose proof (retires_length _ _ _ (tick_retires r1)) as Hl2.
  assert (∃ f, (if (0 <? interval) && (0 <? idx) && (idx mod interval =? 0) then saveInstructionTrace l true file else Some file) = Some f) as [f ->].
  { destruct (_ && _); [|by eexists]. destruct (save_writable l true file Hl) as [f Hf]. by exists f. }
  cbn [mbind option_bind]. destruct (IH (idx + 1) (tick r1) f) as (r' & file' & -> & Hc & Hi'); [lia|lia|lia|lia|by apply Hi2|].
  exists r', file'. split_and!; [done|lia|done].
Qed.

(** *** The output file *)

(** The number of interim saves. *)
Fixpoint saves (interval idx : Z) (n : nat) : nat :=
  match n with
  | O => 0
  | S n' => (if (0 <? idx) && (idx mod interval =? 0) then 1 else 0) + saves interval (idx + 1) n'
  end.

Lemma saves_count interval idx n :
  0 < interval → 1 <= idx → Z.of_nat (saves interval idx n) = (idx + Z.of_nat n - 1) / interval - (idx - 1) / interval.
Proof.
  intros Hk. revert idx. induction n as [|n IH]; intros idx Hi; cbn [saves]; [replace (idx + Z.of_nat 0 - 1) with (idx - 1) by lia; lia|].
  rewrite Nat2Z.inj_add, IH, (proj2 (Z.ltb_lt 0 idx)) by lia. cbn [andb].
  replace (idx + 1 + Z.of_nat n - 1) with (idx + Z.of_nat (S n) - 1) by lia. replace (idx + 1 - 1) with idx by lia.
  assert (Z.of_nat (if idx mod interval =? 0 then 1%nat else 0%nat) = idx / interval - (idx - 1) / interval) as ->; [|lia].
  pose proof (Z.div_mod idx interval ltac:(lia)) as Hd. pose proof (Z.mod_pos_bound idx interval Hk) as Hm. destruct (idx mod interval =? 0) eqn:E; btests.
  - rewrite <- (Z.div_unique_pos (idx - 1) interval (idx / interval - 1) (interval - 1)); [lia|lia|]. rewrite Z.mul_sub_distr_l. lia.
  - rewrite <- (Z.div_unique_pos (idx - 1) interval (idx / interval) (idx mod interval - 1)); lia.
Qed.

Lemma simulate_loop_file interval l idx todo r file r' file' t :
  trace_text saved_is_load (keep (λ ins, negb (retireTimestamp ins =? 0)) l) = Some t → 0 < interval →
  simulate_loop interval l idx todo r file = Some (r', file') → file' = file ++ concat (replicate (saves interval idx (length todo)) t).
Proof.
  intros Ht Hk. revert idx r file. induction todo as [|ins todo IH]; intros idx r file; cbn [simulate_loop]; [intros [= <- <-]; by rewrite app_nil_r|].
  destruct (issue_loop issue_fuel ins r) as [r1|]; [|done]. cbn [mbind option_bind length saves]. rewrite (proj2 (Z.ltb_lt 0 interval) Hk). cbn [andb].
  destruct ((0 <? idx) && (idx mod interval =? 0)).
  - unfold saveInstructionTrace. rewrite Ht. cbn [mbind option_bind]. intros Hs. apply IH in Hs as ->. cbn. by rewrite app_assoc.
  - cbn [mbind option_bind]. intros Hs. by apply IH in Hs as ->.
Qed.

Lemma simulate_loop_quiet interval l idx todo r file r' file' :
  interval <= 0 → simulate_loop interval l idx todo r file = Some (r', file') → file' = file.
Proof.
  intros Hk. revert idx r file. induction todo as [|ins todo IH]; intros idx r file; cbn [simulate_loop]; [by intros [= <- <-]|].
  destruct (issue_loop issue_fuel ins r) as [r1|]; [|done]. cbn [mbind option_bind]. rewrite (proj2 (Z.ltb_ge 0 interval) Hk). cbn [andb mbind option_bind]. apply IH.
Qed.

(** The whole simulation returns, over every controller whose calls return. *)
Lemma simulate_returns interval l c old :
  inv 0 c → accesses_of l <= limit → Forall (λ ins, writable ins = true) l →
  ∃ r file, simulate interval l c old = Some (r, file) ∧ queue_ r = [] ∧ rb_counter r = accesses_of l ∧ inv (accesses_of l) (controller_ r).
Proof.
  intros Hi Hn Hl. unfold simulate.
  destruct (simulate_loop_runs interval l 0 l (Rob_new c 512 1687) (if 0 <? interval then [] else old) Hl) as (r1 & f1 & -> & Hc1 & Hi1);
    [cbn [Rob_new maxSize_]; lia|cbn [Rob_new maxSize_ queue_ length]; lia|done|done|done|]. cbn [mbind option_bind].
  destruct (drain_empties (2 * length (queue_ r1)) r1) as (r2 & -> & Hq & Hc2 & Hi2); [unfold ticks_left; lia|done|]. cbn [mbind option_bind].
  cbn in Hc1. rewrite <- Hc2 in Hc1. unfold holds in Hi2. rewrite Hc1 in Hi2.
  destruct (0 <? interval).
  - destruct (save_writable l true f1 Hl) as [f ->]. by exists r2, f.
  - destruct (trace_text_writable delayed_is_load l Hl) as [t Ht]. unfold generateDelayedTrace. rewrite Ht. by exists r2, t.
Qed.

End lemmas.

(** ** Lemmas: signs of doubles *)

(** Zeros, negative numbers and NaN. *)
Definition fnp (x : f64) : Prop :=
  match x with
  | S754_infinity s | S754_finite s _ _ => s = true
  | S754_zero _ | S754_nan => True
  end.

Lemma binary_round_aux_np m e l : 0 <= m → fnp (binary_round_aux 53 1024 true m e l).
Proof.
  intros H. unfold binary_round_aux. pose proof (shr_fexp_nonneg m e l H) as H1. destruct (shr_fexp 53 1024 m e l) as [mrs e'] eqn:?. simpl in H1.
  pose proof (shr_fexp_nonneg _ e' loc_Exact (round_nearest_even_nonneg (shr_m mrs) (loc_of_shr_record mrs) H1)) as H2.
  case_match. simpl in H2. repeat case_match; simpl; done.
Qed.

Lemma fmul_np x y : fnn x → fnp y → fnp (x * y)%f64.
Proof.
  destruct x as [| [] | | [] ??], y as [| [] | | [] ??]; simpl; try done. intros _ _. by apply binary_round_aux_np.
Qed.

Lemma fmax_np x : fnp x → fmax f1 x = f1.
Proof.
  intros Hx. unfold fmax. assert (flt f1 x = false) as ->; [|done]. by destruct x as [[]| [] | | [] ??].
Qed.

Lemma crowded_factor size : 18 <= size <= 512 → fnp (pipeline_factor size).
Proof.
  intros Hs. assert (In size (seqZ 18 495)) as Hin by (apply list_elem_of_In, elem_of_seqZ; lia).
  assert (forallb (λ n, match pipeline_factor n with S754_infinity s | S754_finite s _ _ => s | _ => true end) (seqZ 18 495) = true) as Hc by by vm_compute.
  apply (proj1 (forallb_forall _ _) Hc) in Hin. clear Hc. by destruct (pipeline_factor size).
Qed.

(** ** Runs of the buffer *)

Section runs.
Context `{Hcast : CastUB} {C : Type} `{Htm : Timing C}.

(** The instructions that were issued, in order, and the buffer. *)
Inductive rob_run (c : C) (size : nat) (cycle : Z) : list InstructionGroup → Rob C → Prop :=
  | run_new : rob_run c size cycle [] (Rob_new c size cycle)
  | run_issue issued r ins r' : rob_run c size cycle issued r → issue ins r = Some (true, r') → rob_run c size cycle (issued ++ [ins]) r'
  | run_full issued r ins r' : rob_run c size cycle issued r → issue ins r = Some (false, r') → rob_run c size cycle issued r'
  | run_tick issued r : rob_run c size cycle issued r → rob_run c size cycle issued (tick r).

Lemma issue_result ins r ok r' :
  issue ins r = Some (ok, r') → maxSize_ r' = maxSize_ r ∧
    if ok then queue_ r' = queue_ r ++ [ins] ∧ (length (queue_ r) < maxSize_ r)%nat else queue_ r' = queue_ r.
Proof.
  unfold issue. destruct (_ <=? _)%nat eqn:E; [by intros [= <- <-]|]. apply Nat.leb_gt in E. destruct (address ins =? 0); [by intros [= <- <-]|].
  destruct (tm_insert _ _ _ _ _ _) as [c1|]; [|done]. cbn. destruct (tm_insert_lbrs _ _ _) as [c2|]; [|done]. by intros [= <- <-].
Qed.

End runs.

(** ** Theorems *)

Section theorems.
Context `{Hcast : CastUB} {C : Type} `{Htm : Timing C} (inv : C → Prop) {Hok : TimingOk C inv}.

(** Over every controller whose calls return, the simulation of a trace ends and
    leaves the buffer empty: a full buffer has room after two ticks, and every
    instruction retires after at most two. *)
Theorem rob_terminates interval l c old :
  inv c → Forall (λ ins, writable ins = true) l →
  ∃ r file, simulate interval l c old = Some (r, file) ∧ queue_ r = [] ∧ inv (controller_ r).
Proof.
  intros Hi Hl. destruct (simulate_returns (λ _, inv) (accesses_of l) interval l c old Hi ltac:(lia) Hl) as (r & file & Hs & Hq & _ & Hr). by exists r, file.
Qed.

End theorems.

Section order.
Context `{Hcast : CastUB} {C : Type} `{Htm : Timing C}.

(** C39. Instructions leave the buffer in the order in which they were issued, and it
    never holds more than its size: whatever the controller answers, the buffer is
    always the end of the sequence of issued instructions. *)
Theorem rob_in_order c size cycle issued r :
  rob_run c size cycle issued r → ∃ k, key <$> queue_ r = drop k (key <$> issued) ∧ (length (queue_ r) ≤ size)%nat.
Proof.
  intros Hr. assert (maxSize_ r = size ∧ ∃ k, key <$> queue_ r = drop k (key <$> issued) ∧ (length (queue_ r) ≤ size)%nat) as [_ ?]; [|done].
  induction Hr as [|issued r ins r' _ [Hs (k & Hk & Hl)] Hiss|issued r ins r' _ [Hs (k & Hk & Hl)] Hiss|issued r _ [Hs (k & Hk & Hl)]].
  - split; [done|]. exists 0%nat. split; [done|]. cbn. lia.
  - apply issue_result in Hiss as (Hs' & Hq & Hlt). split; [congruence|]. rewrite Hq, !fmap_app, length_app, Hk. cbn [length].
    destruct (decide (k ≤ length issued)%nat) as [Hle|Hgt].
    + exists k. split; [|lia]. rewrite drop_app_le; [done|]. by rewrite length_fmap.
    + exists (length issued). split; [|lia]. rewrite drop_ge by (rewrite length_fmap; lia). by rewrite drop_app_length' by by rewrite length_fmap.
  - apply issue_result in Hiss as (Hs' & Hq). split; [congruence|]. exists k. by rewrite Hq.
  - pose proof (tick_retires (λ _ _, False) 0 r) as Ht. pose proof (retires_length _ _ _ _ Ht). destruct Ht as [(j & _ & Hj) Hs' _ _].
    split; [congruence|]. exists (k + j)%nat. split; [|lia]. by rewrite Hj, Hk, drop_drop.
Qed.

End order.

Section trace_theorems.
Context `{Hcast : CastUB} {C : Type} `{Htm : Timing C}.

(** The trace that is written after a simulation is the trace that was read,
    whatever the controller answers: reading it gives the same instructions with
    the same times. *)
Theorem delayed_trace_unchanged file l c old r t l' :
  parseInParallel file l → NoDup (cycleCount <$> l) → simulate 0 l c old = Some (r, t) → parseInParallel t l' ↔ l' = l.
Proof.
  intros Hp Hn. unfold simulate. destruct (simulate_loop _ _ _ _ _ _) as [[r1 f]|]; [|done]. cbn [mbind option_bind].
  destruct (drain_loop _ r1) as [r2|]; [|done]. cbn [mbind option_bind]. change (0 <? 0) with false. cbn iota.
  destruct (generateDelayedTrace l) as [t'|] eqn:Ht; [|done]. cbn. intros [= _ <-]. destruct (reads_printable file l Hp) as [Hpr Hs]. by apply (printed_reads delayed_is_load l).
Qed.

(** With interim saves every save appends the whole trace: the output holds each
    instruction once for every save and once more. *)
Theorem interim_saves_repeat interval l c old r file t :
  0 < interval → l ≠ [] → trace_text saved_is_load (keep (λ ins, negb (retireTimestamp ins =? 0)) l) = Some t →
  simulate interval l c old = Some (r, file) → file = concat (replicate (S (Z.to_nat ((Z.of_nat (length l) - 1) / interval))) t).
Proof.
  intros Hk Hne Ht. unfold simulate. destruct (simulate_loop _ _ _ _ _ _) as [[r1 f]|] eqn:E; [|done]. cbn [mbind option_bind].
  destruct (drain_loop _ r1) as [r2|]; [|done]. cbn [mbind option_bind]. rewrite (proj2 (Z.ltb_lt 0 interval) Hk) in *.
  eapply simulate_loop_file in E; [|done|done]. unfold saveInstructionTrace. rewrite Ht. cbn [mbind option_bind]. intros Hr. apply (inj Some) in Hr as [= _ <-]. rewrite E. cbn [app].
  assert (saves interval 0 (length l) = Z.to_nat ((Z.of_nat (length l) - 1) / interval)) as ->.
  { destruct l as [|ins l]; [done|]. cbn [length saves]. change (0 <? 0) with false. cbn [andb Nat.add].
    pose proof (saves_count interval 1 (length l) Hk ltac:(lia)) as Hc. rewrite (Z.div_small (1 - 1)) in Hc by lia.
    replace (Z.of_nat (S (length l)) - 1) with (1 + Z.of_nat (length l) - 1) by lia. change (0 + 1) with 1. lia. }
  rewrite replicate_S_end, concat_app. cbn [concat]. by rewrite app_nil_r.
Qed.

(** With 18 or more instructions in the buffer a memory access costs one cycle,
    however long it takes: the factor for overlapping accesses is not positive. *)
Theorem crowded_access_free ins r :
  18 <= size_of r <= 512 →
  fnn (tm_calculate_latency (tm_get_access (u64 (retireTimestamp ins)) (controller_ r)).1 (f64_of_Z 80)
         (tm_get_access (u64 (retireTimestamp ins)) (controller_ r)).2).1 →
  cur_latency (start_access ins r).2 = 1 ∧ retireTimestamp (start_access ins r).1 = i64 (retireTimestamp ins + 1).
Proof.
  intros Hs Hb. unfold start_access. destruct (tm_get_access _ _) as [acc c1]. cbn [fst snd] in Hb. destruct (tm_calculate_latency _ _ _) as [b c2]. cbn [fst] in Hb.
  assert (fmax f1 (scaled_latency b (size_of r)) = f1) as ->.
  { apply fmax_np. unfold scaled_latency. rewrite (proj2 (Z.ltb_lt 1 _)) by lia. apply fmul_np; [|by apply crowded_factor]. apply fmul_nn; [exact Hb|]. vm_compute. reflexivity. }
  by split.
Qed.

End trace_theorems.

(** ** Examples *)

#[local] Instance ex_rob_cast : CastUB := λ _, 0.

(** A memory that remembers its accesses and takes 100 ns for each of them. *)
#[local] Instance ex_timing : Timing (list (Z * Z)) := {|
  tm_insert ts _ pa _ _ c := Some ((ts, pa) :: c);
  tm_insert_lbrs _ _ c := Some c;
  tm_get_access _ c := (c, c);
  tm_calculate_latency l _ c := (f64_of_Z (100 * Z.of_nat (length l)), c)
|}.

#[local] Instance ex_timing_ok : TimingOk (list (Z * Z)) (λ _, True).
Proof. split; [by eexists|by eexists|done|done]. Qed.

Lemma ex_writable : Forall (λ ins, writable ins = true) ex_instructions.
Proof. repeat (apply Forall_cons_2; [by vm_compute|]). apply Forall_nil_2. Qed.

Lemma rob_terminates_witness :
  (λ r, (stallCount_ r.1, currentCycle_ r.1)) <$> simulate 0 ex_instructions [] [] = Some (8, 1697) ∧
  ∃ r file, simulate 0 ex_instructions [] [] = Some (r, file) ∧ queue_ r = [] ∧ True.
Proof. split; [by vm_compute|]. apply (rob_terminates (λ _, True) 0 ex_instructions [] []); [done|apply ex_writable]. Defined.

Definition ex_full : Rob (list (Z * Z)) :=
  default (Rob_new [] 2 0) (snd <$> (('(_, r) ← issue ex_load (Rob_new [] 2 0); issue ex_add r))).

(** A full buffer refuses the third instruction; after two ticks it is empty and takes it. *)
Definition ex_reissued : Rob (list (Z * Z)) := default (Rob_new [] 2 0) (snd <$> issue ex_add (tick (tick (add_stalls 1 1 ex_full)))).

Lemma ex_full_run : rob_run [] 2 0 [ex_load; ex_add] ex_full.
Proof.
  apply (run_issue [] 2 0 [ex_load] (default (Rob_new [] 2 0) (snd <$> issue ex_load (Rob_new [] 2 0))) ex_add); [|by vm_compute].
  apply (run_issue [] 2 0 [] (Rob_new [] 2 0) ex_load); [apply run_new|by vm_compute].
Qed.

Lemma rob_in_order_witness :
  length (queue_ ex_full) = 2%nat ∧ queue_ ex_reissued = [ex_add] ∧
  ∃ k, key <$> queue_ ex_reissued = drop k (key <$> [ex_load; ex_add; ex_add]) ∧ (length (queue_ ex_reissued) ≤ 2)%nat.
Proof.
  split; [by vm_compute|]. split; [by vm_compute|]. apply (rob_in_order [] 2 0 [ex_load; ex_add; ex_add] ex_reissued).
  apply (run_issue [] 2 0 [ex_load; ex_add] (tick (tick (add_stalls 1 1 ex_full))) ex_add); [|by vm_compute].
  apply run_tick, run_tick, (run_full [] 2 0 [ex_load; ex_add] ex_full ex_add); [apply ex_full_run|by vm_compute].
Defined.

Definition ex_simulated : Rob (list (Z * Z)) * token := default (Rob_new [] 2 0, []) (simulate 0 ex_instructions [] []).

Lemma delayed_trace_unchanged_witness :
  0 < stallCount_ ex_simulated.1 ∧ (parseInParallel ex_simulated.2 ex_instructions ↔ ex_instructions = ex_instructions).
Proof.
  split; [by vm_compute|]. apply (delayed_trace_unchanged ex_file ex_instructions [] [] ex_simulated.1); [|apply ex_sorted|by vm_compute].
  apply (printed_reads delayed_is_load ex_instructions); [apply ex_printable|apply ex_sorted|apply ex_sorted|by vm_compute|done].
Defined.

Definition ex_long : list InstructionGroup := replicate 5 ex_add.
Definition ex_saved : token := default [] (trace_text saved_is_load ex_long).

Lemma interim_saves_repeat_witness :
  (default (Rob_new [] 2 0, []) (simulate 2 ex_long [] [])).2 = concat (replicate (S (Z.to_nat ((5 - 1) / 2))) ex_saved).
Proof.
  apply (interim_saves_repeat 2 ex_long [] [] (default (Rob_new [] 2 0, []) (simulate 2 ex_long [] [])).1); [lia|done|by vm_compute|by vm_compute].
Defined.

Definition ex_crowded : Rob (list (Z * Z)) := set_queue (replicate 20 ex_load) (Rob_new (replicate 50 (0, 0)) 512 0).

Lemma crowded_access_free_witness :
  (tm_calculate_latency (replicate 50 (0, 0)) (f64_of_Z 80) (replicate 50 (0, 0))).1 = f64_of_Z 5000 ∧
  cur_latency (start_access ex_load ex_crowded).2 = 1 ∧ retireTimestamp (start_access ex_load ex_crowded).1 = i64 (retireTimestamp ex_load + 1).
Proof. split; [by vm_compute|]. apply (crowded_access_free ex_load ex_crowded); [vm_compute; by split|by vm_compute]. Defined.
