(* ===== verification/Policy.v ===== *)
(** * Policies of the controller

    Models the state of [CXLController] (include/cxlcontroller.h) that samples of
    a running program change, and the policies for allocation, migration, paging
    and caching (include/policy.h, src/policy.cpp).  A policy reads the controller
    and changes its own state; [FIFOPolicy] changes the cache of the controller.

    [std::map] is visited in the order of its keys ([in_order]).  Where the order
    of an [std::unordered_map] shows, it is that of [map_to_list]: in the order of
    migration lists, and in which of several oldest cache entries is dropped.

    [None] is undefined behaviour or a loop that does not end. *)

From Stdlib Require Import SpecFloat.
From S2P Require Import Prelude Float64 LruCache Endpoint.

(** ** The controller *)

Record lbr := { lb_from : Z; lb_to : Z; lb_flags : Z }.

Record rob_info := { ri_m_count : gmap Z Z; ri_llcm_base : Z; ri_llcm_count : Z; ri_ins_count : Z }.

Record thread_info := { ti_rob : rob_info; ti_llcm_type : list Z; ti_llcm_type_rob : list Z }.

(** [CXLCounter]; the counter of remote accesses is [cn_remote]. *)
Record CXLCounter := { ct_local : Z; ct_hitm : Z; ct_backinv : Z }.

Record Core := {
  co_tree : Controller;                  (** the switches, the expanders and [counter.remote] *)
  co_counter : CXLCounter;
  co_capacity : Z;                       (** [int] *)
  co_page_type : page_type;
  co_occupation : gmap Z occupation_info;
  co_last_index : Z;
  co_latency_lat : f64;
  co_bandwidth_lat : f64;
  co_dramlatency : f64;
  co_ring_buffer : list lbr;
  co_thread_map : gmap Z thread_info;
  co_lru_cache : LRUCache;
  co_request_counter : Z                 (** the static variable of [insert] *)
}.

(** The constructor: no switch and no expander exist yet, so the epoch that it is
    given reaches none of them. *)
Definition CXLController_new (capacity : Z) (pt : page_type) (dramlatency : f64) : Core :=
  {| co_tree := {| cn_switch := CXLSwitch_new 0 [] []; cn_store := []; cn_cur_expanders := []; cn_remote := 0 |};
     co_counter := {| ct_local := 0; ct_hitm := 0; ct_backinv := 0 |}; co_capacity := capacity; co_page_type := pt;
     co_occupation := ∅; co_last_index := 0; co_latency_lat := f0; co_bandwidth_lat := f0; co_dramlatency := dramlatency;
     co_ring_buffer := []; co_thread_map := ∅; co_lru_cache := LRUCache_new (32 * 1024 * 1024 / 64); co_request_counter := 0 |}.

Definition set_tree (t : Controller) (c : Core) : Core :=
  {| co_tree := t; co_counter := co_counter c; co_capacity := co_capacity c; co_page_type := co_page_type c;
     co_occupation := co_occupation c; co_last_index := co_last_index c; co_latency_lat := co_latency_lat c;
     co_bandwidth_lat := co_bandwidth_lat c; co_dramlatency := co_dramlatency c; co_ring_buffer := co_ring_buffer c;
     co_thread_map := co_thread_map c; co_lru_cache := co_lru_cache c; co_request_counter := co_request_counter c |}.

Definition root (c : Core) : SwitchData := match cn_switch (co_tree c) with Switch d _ => d end.
Definition children (c : Core) : list CXLSwitch := match cn_switch (co_tree c) with Switch _ sws => sws end.
Definition co_last_timestamp (c : Core) : Z := sd_last_timestamp (root c).

(** The entries of [occupation] in the order of their keys. *)
Definition key_le (a b : Z * occupation_info) : Prop := a.1 <= b.1.

#[global] Instance key_le_dec : RelDecision key_le.
Proof. intros a b. unfold key_le. apply _. Defined.

Definition in_order (m : gmap Z occupation_info) : list (Z * occupation_info) := merge_sort key_le (map_to_list m).

Definition occupied_addresses (c : Core) : list Z := (λ e, oi_address e.2) <$> in_order (co_occupation c).

Definition per_size (pt : page_type) : Z :=
  match pt with CACHELINE => 64 | PAGE => 4096 | HUGEPAGE_2M => 2 * 1024 * 1024 | HUGEPAGE_1G => 1024 * 1024 * 1024 end.

(** [n * per_size / 1024 / 1024] *)
Definition megabytes (n : nat) (pt : page_type) : Z := (Z.of_nat n *w per_size pt) / 1024 / 1024.

Definition expander_at (c : Core) (i : nat) : option CXLMemExpander :=
  x ← cn_cur_expanders (co_tree c) !! i; cn_store (co_tree c) !! x.

(** The expanders of the controller by index. *)
Definition cur_expanders (c : Core) : option (list CXLMemExpander) := mapM (λ x, cn_store (co_tree c) !! x) (cn_cur_expanders (co_tree c)).

Definition has_room (pt : page_type) (e : CXLMemExpander) : bool := megabytes (length (xp_occupation e)) pt <? xp_capacity e.

(** The local memory is less than 90 percent full. *)
Definition local_room (c : Core) : bool :=
  flt (f64_of_Z (megabytes (size (co_occupation c)) (co_page_type c))) (f64_of_Z (co_capacity c) * flit 9 10)%f64.

(** ** Allocation *)

(** [percentage] is a vector of doubles that hold integers. *)
Record InterleavePolicy := { ip_last_remote : Z; ip_all_size : Z; ip_percentage : list Z }.

Inductive AllocationPolicy :=
  | AllocBase
  | Interleave (p : InterleavePolicy)
  | NUMA (latency_scores : list f64).

Section with_casts_policy.
Context `{CastUB}.

(** [int(x)] *)
Definition f64_to_int (x : f64) : Z :=
  match ftrunc x with
  | Some z => if (-2147483648 <=? z) && (z <=? 2147483647) then z else cast_ub x
  | None => cast_ub x
  end.

Definition shares (es : list CXLMemExpander) : list Z :=
  let to_store := (λ e, f1 / xp_latency_write e)%f64 <$> es in
  (λ i, f64_to_int (i / foldl fadd f0 to_store * f64_of_Z 10)%f64) <$> to_store.

(** The index whose share contains [last_remote]; undefined past the last one. *)
Fixpoint pick (percentage : list Z) (index : nat) (sum last_remote : Z) : option nat :=
  match percentage with
  | [] => None
  | p :: ps => if last_remote <? sum + p then Some index else pick ps (S index) (sum + p) last_remote
  end.

(** The turns from the label [next] on; the number of turns is bounded by [fuel].
    Before [last_remote] reaches zero the loop over the shares is not entered. *)
Fixpoint interleave_next (fuel : nat) (room : nat → option bool) (percentage : list Z) (all_size last_remote : Z) : option (nat * Z) :=
  match fuel with
  | O => None
  | S fuel' =>
      let last' := Z.rem (last_remote + 1) all_size in
      if last' <? 0 then Some (O, last')
      else
        index ← pick percentage 0 0 last'; ok ← room index;
        if (ok : bool) then Some (index, last') else interleave_next fuel' room percentage all_size last'
  end.

Definition expander_room (c : Core) (i : nat) : option bool := e ← expander_at c i; Some (has_room (co_page_type c) e).

(** The shares are computed when there are none. *)
Definition with_shares (p : InterleavePolicy) (c : Core) : option InterleavePolicy :=
  match ip_percentage p with
  | [] => es ← cur_expanders c;
          Some {| ip_last_remote := ip_last_remote p; ip_all_size := zsum (shares es); ip_percentage := shares es |}
  | _ => Some p
  end.

(** -1 is the local memory, else the index of an expander.  After [all_size] turns
    every position was tried, so more turns change nothing. *)
Definition interleave_compute_once (p : InterleavePolicy) (c : Core) : option (Z * InterleavePolicy) :=
  if local_room c then Some (-1, p)
  else
    p1 ← with_shares p c;
    if ip_all_size p1 =? 0 then Some (-1, p1)
    else
      '(index, last') ← interleave_next (Z.to_nat (ip_all_size p1)) (expander_room c) (ip_percentage p1) (ip_all_size p1) (ip_last_remote p1);
      Some (Z.of_nat index, {| ip_last_remote := last'; ip_all_size := ip_all_size p1; ip_percentage := ip_percentage p1 |}).

Definition latency_score (e : CXLMemExpander) : f64 :=
  (f1 / (flit 7 10 * xp_latency_read e + flit 3 10 * xp_latency_write e))%f64.

Definition current_score (pt : page_type) (score : f64) (e : CXLMemExpander) : f64 :=
  (score * (f1 - f64_of_Z (Z.of_nat (length (xp_occupation e)) *w per_size pt) / f64_of_Z (xp_capacity e *w 1024 *w 1024)))%f64.

(** The expander with room and the best score, from index [i] on; a score that is
    missing is read out of range. *)
Fixpoint best_node (pt : page_type) (es : list CXLMemExpander) (scores : list f64) (i best : Z) (best_score : f64) : option Z :=
  match es with
  | [] => Some best
  | e :: es' =>
      if negb (has_room pt e) then best_node pt es' (tail scores) (i + 1) best best_score
      else
        match scores with
        | [] => None
        | s :: scores' =>
            let current := current_score pt s e in
            if flt best_score current then best_node pt es' scores' (i + 1) i current else best_node pt es' scores' (i + 1) best best_score
        end
  end.

Fixpoint first_room (pt : page_type) (es : list CXLMemExpander) (i : Z) : Z :=
  match es with [] => -1 | e :: es' => if has_room pt e then i else first_room pt es' (i + 1) end.

Definition numa_compute_once (latency_scores : list f64) (c : Core) : option (Z * list f64) :=
  if local_room c then Some (-1, latency_scores)
  else
    es ← cur_expanders c;
    let scores := match latency_scores with [] => latency_score <$> es | _ => latency_scores end in
    best ← best_node (co_page_type c) es scores 0 (-1) (f64_of_Z (-1));
    Some (if best =? -1 then first_room (co_page_type c) es 0 else best, scores).

Definition allocate (p : AllocationPolicy) (c : Core) : option (Z * AllocationPolicy) :=
  match p with
  | AllocBase => Some (0, p)
  | Interleave q => '(i, q') ← interleave_compute_once q c; Some (i, Interleave q')
  | NUMA s => '(i, s') ← numa_compute_once s c; Some (i, NUMA s')
  end.

(** ** Migration *)

(** [access_count[addr]++] *)
Definition record_access (m : gmap Z Z) (addr : Z) : gmap Z Z := <[addr := default 0 (m !! addr) +w 1]> m.

(** [access_count[addr]] creates the entry. *)
Definition touch (m : gmap Z Z) (addr : Z) : gmap Z Z := <[addr := default 0 (m !! addr)]> m.

Record FrequencyMigration := { fm_access_count : gmap Z Z; fm_hot : Z; fm_cold : Z; fm_last_cleanup : Z; fm_interval : Z }.
Record LoadBalancing := { lb_threshold : f64; lb_interval : Z; lb_last_migration : Z }.
Record Locality := { ly_pattern : gmap Z (list Z); ly_threshold : Z; ly_page_size : Z }.

Inductive MigrationPolicy :=
  | MigrationBase
  | HeatAware (access_count : gmap Z Z) (hot_threshold : Z)
  | FrequencyBased (p : FrequencyMigration)
  | LoadBased (p : LoadBalancing)
  | LocalityBased (p : Locality)
  | LifetimeBased (lifetime_threshold : Z)
  | Hybrid (policies : list MigrationPolicy).

(** A policy migrates when its list is not empty. *)
Definition some_list {A : Type} (l : list A) : Z := match l with [] => 0 | _ => 1 end.

Definition heat_list (counts : gmap Z Z) (hot : Z) (c : Core) : list (Z * Z) :=
  (λ e, (e.1, per_size (co_page_type c))) <$> keep (λ e, hot <? e.2) (map_to_list counts).

(** The expanders of the root are collected twice. *)
Definition collected (c : Core) : list CXLMemExpander :=
  omap (λ x, cn_store (co_tree c) !! x) (sd_expanders (root c) ++ positions (cn_switch (co_tree c))).

(** Cold data of the local memory and hot data of the expanders. *)
Definition frequency_list (p : FrequencyMigration) (c : Core) : list (Z * Z) * FrequencyMigration :=
  let cold := occupied_addresses c in
  let hot := collected c ≫= seen in
  let n a := default 0 (fm_access_count p !! a) in
  ((λ a, (a, per_size (co_page_type c))) <$> keep (λ a, n a <? fm_cold p) cold ++ keep (λ a, fm_hot p <? n a) hot,
   {| fm_access_count := foldl touch (fm_access_count p) (cold ++ hot); fm_hot := fm_hot p; fm_cold := fm_cold p;
      fm_last_cleanup := fm_last_cleanup p; fm_interval := fm_interval p |}).

Definition frequency_compute_once (p : FrequencyMigration) (c : Core) : Z * FrequencyMigration :=
  let counts := foldl record_access (fm_access_count p) (occupied_addresses c) in
  let now := co_last_timestamp c in
  let cleanup := fm_interval p <? now -w fm_last_cleanup p in
  let '(l, p') := frequency_list {| fm_access_count := if cleanup then ∅ else counts; fm_hot := fm_hot p; fm_cold := fm_cold p;
                                    fm_last_cleanup := if cleanup then now else fm_last_cleanup p; fm_interval := fm_interval p |} c in
  (some_list l, p').

Definition load_of (e : CXLMemExpander) : Z := xe_load (xp_counter e) +w xe_store (xp_counter e).

(** [std::max_element]: the first of the greatest. *)
Definition max_load (e : CXLMemExpander) (es : list CXLMemExpander) : CXLMemExpander :=
  foldl (λ m x, if load_of m <? load_of x then x else m) e es.

(** [std::min_element]: the first of the least. *)
Definition min_load (e : CXLMemExpander) (es : list CXLMemExpander) : CXLMemExpander :=
  foldl (λ m x, if load_of x <? load_of m then x else m) e es.

Definition load_list (c : Core) : list (Z * Z) :=
  match collected c with [] => [] | e :: es => (λ a, (a, per_size (co_page_type c))) <$> take 5 (seen (max_load e es)) end.

Definition load_compute_once (p : LoadBalancing) (c : Core) : Z * LoadBalancing :=
  let now := co_last_timestamp c in
  if now -w lb_last_migration p <? lb_interval p then (0, p)
  else
    match collected c with
    | [] => (0, p)
    | e :: es =>
        let highest := load_of (max_load e es) in
        let lowest := load_of (min_load e es) in
        if (0 <? highest) && flt (lb_threshold p) (f64_of_Z (highest -w lowest) / f64_of_Z highest)%f64
        then (1, {| lb_threshold := lb_threshold p; lb_interval := lb_interval p; lb_last_migration := now |})
        else (0, p)
    end.

Definition page_of (page_size addr : Z) : Z := Z.land addr (u64 (Z.lnot (page_size - 1))).

(** The last hundred accesses of each page are kept. *)
Definition record_pattern (page_size : Z) (m : gmap Z (list Z)) (addr : Z) : gmap Z (list Z) :=
  let page := page_of page_size addr in
  let l := default [] (m !! page) ++ [addr] in
  <[page := if (100 <? length l)%nat then tail l else l]> m.

(** Some address of the page was accessed [pattern_threshold] times. *)
Definition has_locality_pattern (threshold : Z) (l : list Z) : bool :=
  existsb (λ addr, threshold <=? Z.of_nat (length (keep (Z.eqb addr) l))) l.

Definition locality_list (p : Locality) (c : Core) : list (Z * Z) :=
  let in_controller page := existsb (λ a, page_of (ly_page_size p) a =? page) (occupied_addresses c) in
  (λ e, (e.1, ly_page_size p)) <$>
    keep (λ e, has_locality_pattern (ly_threshold p) e.2 && negb (in_controller e.1)) (map_to_list (ly_pattern p)).

Definition locality_compute_once (p : Locality) (c : Core) : Z * Locality :=
  let p' := {| ly_pattern := foldl (record_pattern (ly_page_size p)) (ly_pattern p) (occupied_addresses c);
               ly_threshold := ly_threshold p; ly_page_size := ly_page_size p |} in
  (some_list (locality_list p' c), p').

Definition lifetime_list (threshold : Z) (c : Core) : list (Z * Z) :=
  (λ e, (oi_address e.2, per_size (co_page_type c))) <$>
    keep (λ e, threshold <? co_last_timestamp c -w e.1) (in_order (co_occupation c)).

(** [MigrationPolicy::get_migration_list] is not virtual: a call through a pointer
    to the base class gives its list, which is empty, whatever the policy is. *)
Definition get_migration_list (p : MigrationPolicy) (c : Core) : list (Z * Z) := [].

Fixpoint migrate_once (p : MigrationPolicy) (c : Core) : Z * MigrationPolicy :=
  match p with
  | MigrationBase => (some_list (get_migration_list p c), p)
  | HeatAware counts hot =>
      let counts' := foldl record_access counts (occupied_addresses c) in (some_list (heat_list counts' hot c), HeatAware counts' hot)
  | FrequencyBased q => let '(r, q') := frequency_compute_once q c in (r, FrequencyBased q')
  | LoadBased q => let '(r, q') := load_compute_once q c in (r, LoadBased q')
  | LocalityBased q => let '(r, q') := locality_compute_once q c in (r, LocalityBased q')
  | LifetimeBased threshold => (some_list (lifetime_list threshold c), p)
  | Hybrid ps =>
      let '(r, ps') := (fix go (l : list MigrationPolicy) (result : Z) : Z * list MigrationPolicy :=
        match l with
        | [] => (result, [])
        | q :: l' => let '(r, q') := migrate_once q c in let '(rs, qs) := go l' (Z.lor result r) in (rs, q' :: qs)
        end) ps 0 in
      (r, Hybrid ps')
  end.

(** ** Paging *)

Record PageTableAware := {
  pt_va_pa_cache : gmap Z Z; pt_latency_local : Z; pt_latency_remote : Z; pt_hit : Z; pt_miss : Z; pt_total : Z;
  pt_last_cleanup : Z; pt_interval : Z
}.

Inductive PagingPolicy := PagingBase | HugePage (p : HugePagePolicy) | PageTable (p : PageTableAware).

Definition set_table (m : gmap Z Z) (hits misses cleanup : Z) (p : PageTableAware) : PageTableAware :=
  {| pt_va_pa_cache := m; pt_latency_local := pt_latency_local p; pt_latency_remote := pt_latency_remote p;
     pt_hit := pt_hit p +w hits; pt_miss := pt_miss p +w misses; pt_total := pt_total p +w (hits + misses);
     pt_last_cleanup := cleanup; pt_interval := pt_interval p |}.

Definition page_table_walk (p : PageTableAware) (virt_addr phys_addr : Z) (is_remote : bool) : Z * PageTableAware :=
  match pt_va_pa_cache p !! virt_addr with
  | Some _ => (0, set_table (pt_va_pa_cache p) 1 0 (pt_last_cleanup p) p)
  | None =>
      (if is_remote then pt_latency_remote p else pt_latency_local p,
       set_table (<[virt_addr := phys_addr]> (pt_va_pa_cache p)) 0 1 (pt_last_cleanup p) p)
  end.

Definition page_walk (p : PagingPolicy) (virt_addr phys_addr : Z) (is_remote : bool) (pt : page_type) : option (Z * PagingPolicy) :=
  match p with
  | PagingBase => Some (0, p)
  | HugePage h => '(lat, h') ← check_page_table_walk h virt_addr phys_addr is_remote pt; Some (lat, HugePage h')
  | PageTable t => let '(lat, t') := page_table_walk t virt_addr phys_addr is_remote in Some (lat, PageTable t')
  end.

(** The page size that the occupation suggests: 0 as it is, 1 two megabytes, 2 one gigabyte. *)
Definition huge_page_compute_once (c : Core) : Z * page_type :=
  let l := occupied_addresses c in
  let unique_pages g := remove_dups (page_base 12 <$> keep (λ a, page_base 21 a =? g) l) in
  let potential := keep (λ g, (64 <? length (unique_pages g))%nat) (remove_dups (page_base 21 <$> l)) in
  let gb a := page_base 30 (page_base 21 a) in
  if (3 <? length potential)%nat then (1, HUGEPAGE_2M)
  else if existsb (λ a, 16384 <? Z.of_nat (length (keep (λ b, gb b =? gb a) l))) l then (2, HUGEPAGE_1G)
  else (0, co_page_type c).

(** [shuffle] is the order in which the random engine puts the keys. *)
Definition page_table_compute_once (shuffle : list Z → list Z) (p : PageTableAware) (c : Core) : Z * PageTableAware :=
  let now := co_last_timestamp c in
  if pt_interval p <? now -w pt_last_cleanup p then (1, set_table ∅ 0 0 now p)
  else
    let m := pt_va_pa_cache p in
    let n := Z.of_nat (size m) in
    let hit_rate := if 0 <? pt_total p then (f64_of_Z (pt_hit p) / f64_of_Z (pt_total p))%f64 else f0 in
    if flt hit_rate (flit 7 10) && (n <? 10000) then (0, p)
    else if flt (flit 9 10) hit_rate && (1000 <? n)
    then (2, set_table (foldl (λ m k, delete k m) m (take (Z.to_nat (n / 10)) (shuffle (map_to_list m).*1))) 0 0 (pt_last_cleanup p) p)
    else (0, p).

(** ** Caching *)

Record FrequencyInvalidation := { fi_access_count : gmap Z Z; fi_threshold : Z; fi_last_cleanup : Z; fi_interval : Z }.

Inductive CachingPolicy := CachingBase | FIFO | FrequencyCaching (p : FrequencyInvalidation).

Definition set_counts (m : gmap Z Z) (cleanup : Z) (p : FrequencyInvalidation) : FrequencyInvalidation :=
  {| fi_access_count := m; fi_threshold := fi_threshold p; fi_last_cleanup := cleanup; fi_interval := fi_interval p |}.

Definition should_cache (p : CachingPolicy) (addr : Z) : bool * CachingPolicy :=
  match p with
  | CachingBase => (true, p)
  | FIFO => (false, p)
  | FrequencyCaching q => (true, FrequencyCaching (set_counts (record_access (fi_access_count q) addr) (fi_last_cleanup q) q))
  end.

Definition should_invalidate (p : FrequencyInvalidation) (addr : Z) : bool :=
  match fi_access_count p !! addr with Some n => n <? fi_threshold p | None => false end.

Definition frequency_invalidation_list (p : FrequencyInvalidation) (c : Core) : list Z * FrequencyInvalidation :=
  let now := co_last_timestamp c in
  (keep (should_invalidate p) (map_to_list (lc_cache (co_lru_cache c))).*1,
   if fi_interval p <? now -w fi_last_cleanup p then set_counts ∅ now p else p).

Definition get_invalidation_list (p : CachingPolicy) (c : Core) : list Z * CachingPolicy :=
  match p with
  | CachingBase => ([], p)
  | FIFO => (occupied_addresses c, p)
  | FrequencyCaching q => let '(l, q') := frequency_invalidation_list q c in (l, FrequencyCaching q')
  end.

(** The address with the least timestamp below 2^64 - 1, or zero. *)
Definition oldest (m : gmap Z LRUCacheEntry) : Z :=
  (foldl (λ best e, if ce_timestamp e.2 <? best.2 then (e.1, ce_timestamp e.2) else best) (0, UINT64_MAX) (map_to_list m)).1.

Definition fifo_compute_once (c : Core) : option (Z * LRUCache) :=
  let lru := co_lru_cache c in
  if (u64 (co_capacity c) <=? megabytes (size (lc_cache lru)) (co_page_type c)) && negb (oldest (lc_cache lru) =? 0)
  then '(_, lru') ← remove lru (oldest (lc_cache lru)); Some (1, lru')
  else Some (0, lru).

Definition cache_once (p : CachingPolicy) (c : Core) : option (Z * CachingPolicy * LRUCache) :=
  match p with
  | CachingBase => Some (0, p, co_lru_cache c)
  | FIFO => '(r, lru) ← fifo_compute_once c; Some (r, p, lru)
  | FrequencyCaching q => let '(l, q') := frequency_invalidation_list q c in Some (some_list l, FrequencyCaching q', co_lru_cache c)
  end.

End with_casts_policy.

(** ** Lemmas: shares *)

Lemma zsum_take_le ps i : Forall (λ p, 0 <= p) ps → 0 <= zsum (take i ps) <= zsum ps.
Proof.
  intros Hps. revert i. induction Hps as [|p ps Hp _ IH]; intros [|i]; simpl; try lia.
  - specialize (IH O). simpl in IH. lia.
  - specialize (IH i). lia.
Qed.

(** The positions of share [i] are [p] numbers from the sum of the shares before it. *)
Lemma pick_share ps i p x : ∀ k sum,
  Forall (λ p, 0 <= p) ps → ps !! i = Some p → sum + zsum (take i ps) <= x < sum + zsum (take i ps) + p →
  pick ps k sum x = Some (k + i)%nat.
Proof.
  revert i. induction ps as [|q ps IH]; intros [|i] k sum Hps Hi Hx; simplify_eq/=.
  - destruct (x <? sum + p) eqn:E; btests; [f_equal; lia|lia].
  - apply Forall_cons in Hps as [Hq Hps]. pose proof (zsum_take_le ps i Hps). destruct (x <? sum + q) eqn:E; btests; [lia|].
    rewrite (IH i (S k) (sum + q)) by (done || lia). f_equal. lia.
Qed.

Lemma pick_some ps x : ∀ k sum,
  Forall (λ p, 0 <= p) ps → sum <= x < sum + zsum ps →
  ∃ i p, pick ps k sum x = Some (k + i)%nat ∧ ps !! i = Some p ∧ 0 < p ∧ sum + zsum (take i ps) <= x < sum + zsum (take i ps) + p.
Proof.
  induction ps as [|q ps IH]; intros k sum Hps Hx; simpl in *; [lia|]. apply Forall_cons in Hps as [Hq Hps].
  destruct (x <? sum + q) eqn:E; btests.
  - exists O, q. simpl. split_and!; try done; try lia. f_equal. lia.
  - destruct (IH (S k) (sum + q) Hps ltac:(lia)) as (i & p & Hp & Hi & H0 & Hr). exists (S i), p. simpl.
    split_and!; try done; try lia. rewrite Hp. f_equal. lia.
Qed.

#[global] Instance keep_perm {A : Type} (f : A → bool) : Proper ((≡ₚ) ==> (≡ₚ)) (keep f).
Proof. intros l k Hl. unfold keep. by rewrite Hl. Qed.

Lemma keep_none {A} (f : A → bool) l : (∀ x, x ∈ l → f x = false) → keep f l = [].
Proof.
  intros Hf. destruct (keep f l) as [|x k] eqn:E; [done|]. exfalso.
  assert (x ∈ keep f l) as [Ht Hx]%elem_of_keep by (rewrite E; set_solver). rewrite Hf in Ht; done.
Qed.

Section shares.
Context (ps : list Z) (Hps : Forall (λ p, 0 <= p) ps) (all : Z) (Hall : zsum ps <= all <= zsum ps) (Hpos : 0 < all).
Context (room : nat → option bool).

(** The share of a position. *)
Definition owner (x : Z) : nat := default O (pick ps 0 0 x).

Lemma owner_share x : 0 <= x < all → pick ps 0 0 x = Some (owner x) ∧ ∃ p, ps !! owner x = Some p ∧ 0 < p.
Proof.
  intros Hx. destruct (pick_some ps x 0 0 Hps ltac:(lia)) as (i & p & Hp & Hi & H0 & _).
  unfold owner. rewrite Hp. simpl. eauto.
Qed.

Lemma owner_eq i p x : ps !! i = Some p → 0 <= x < all →
  owner x = i ↔ zsum (take i ps) <= x < zsum (take i ps) + p.
Proof.
  intros Hi Hx. split.
  - intros Ho. destruct (pick_some ps x 0 0 Hps ltac:(lia)) as (j & q & Hp & Hj & H0 & Hr).
    unfold owner in Ho. rewrite Hp in Ho. simpl in Ho. subst j. simplify_eq. lia.
  - intros Hr. unfold owner. rewrite (pick_share ps i p x 0 0) by (done || lia). done.
Qed.

Lemma next_turn last : 0 <= last < all → Z.rem (last + 1) all = (last + 1) mod all.
Proof. intros. apply Z.rem_mod_nonneg; lia. Qed.

Lemma interleave_next_S fuel last : 0 <= last < all →
  interleave_next (S fuel) room ps all last =
    (let x := (last + 1) mod all in ok ← room (owner x); if (ok : bool) then Some (owner x, x) else interleave_next fuel room ps all x).
Proof.
  intros Hl. cbn [interleave_next]. rewrite next_turn by done. pose proof (Z.mod_pos_bound (last + 1) all Hpos).
  destruct (_ <? 0) eqn:E; btests; [lia|]. destruct (owner_share ((last + 1) mod all)) as [-> _]; [lia|]. done.
Qed.

Lemma interleave_next_room fuel last i last' :
  0 <= last < all → interleave_next fuel room ps all last = Some (i, last') →
  room i = Some true ∧ (∃ p, ps !! i = Some p ∧ 0 < p) ∧ 0 <= last' < all.
Proof.
  revert last. induction fuel as [|fuel IH]; intros last Hl Hn; [done|]. rewrite interleave_next_S in Hn by done.
  pose proof (Z.mod_pos_bound (last + 1) all Hpos) as Hx. simpl in Hn.
  destruct (room (owner _)) as [[]|] eqn:E; simplify_eq/=; [|by apply IH in Hn].
  split_and!; try done; try lia. by apply owner_share.
Qed.

Lemma interleave_next_tries (Hroom : ∀ i, (i < length ps)%nat → is_Some (room i)) fuel last k :
  0 <= last < all → interleave_next fuel room ps all last = None → 1 <= k <= Z.of_nat fuel →
  room (owner ((last + k) mod all)) = Some false.
Proof.
  revert last k. induction fuel as [|fuel IH]; intros last k Hl Hn Hk; [lia|]. rewrite interleave_next_S in Hn by done.
  pose proof (Z.mod_pos_bound (last + 1) all Hpos) as Hx. simpl in Hn.
  destruct (owner_share _ Hx) as (_ & p & Hp & _). destruct (Hroom (owner ((last + 1) mod all))) as [b Hb]; [by eapply lookup_lt_Some|].
  rewrite Hb in Hn. destruct b; simplify_eq/=. destruct (decide (k = 1)) as [->|]; [done|].
  specialize (IH _ (k - 1) Hx Hn ltac:(lia)). rewrite Z.add_mod_idemp_l in IH by lia.
  by replace (last + 1 + (k - 1)) with (last + k) in IH by lia.
Qed.

Lemma interleave_next_finds (Hroom : ∀ i, (i < length ps)%nat → is_Some (room i)) last i p :
  0 <= last < all → ps !! i = Some p → 0 < p → room i = Some true → is_Some (interleave_next (Z.to_nat all) room ps all last).
Proof.
  intros Hl Hi Hp Hr. destruct (interleave_next _ _ _ _ _) eqn:E; [done|]. exfalso.
  set (t := zsum (take i ps)). pose proof (zsum_take_le ps i Hps).
  assert (t + p <= all) as Ht.
  { pose proof (zsum_take_le ps (S i) Hps) as Hs. rewrite (take_S_r _ _ p Hi), zsum_app in Hs. simpl in Hs. unfold t. lia. }
  pose proof (Z.mod_pos_bound (t - last - 1) all Hpos).
  pose proof (interleave_next_tries Hroom _ last ((t - last - 1) mod all + 1) Hl E ltac:(lia)) as Hf.
  replace ((last + ((t - last - 1) mod all + 1)) mod all) with t in Hf; [|].
  - rewrite (proj2 (owner_eq i p t Hi ltac:(lia))) in Hf by lia. congruence.
  - replace (last + ((t - last - 1) mod all + 1)) with (last + 1 + (t - last - 1) mod all) by lia.
    rewrite Z.add_mod_idemp_r by lia. replace (last + 1 + (t - last - 1)) with t by lia. symmetry. apply Z.mod_small. lia.
Qed.

(** One round visits every position once. *)
Lemma round_perm last : 0 <= last < all → (λ k, (last + k) mod all) <$> seqZ 1 all ≡ₚ seqZ 0 all.
Proof.
  intros Hl. apply NoDup_Permutation; [|apply NoDup_seqZ|].
  - apply NoDup_fmap_2_strong; [|apply NoDup_seqZ]. intros a b Ha%elem_of_seqZ Hb%elem_of_seqZ He.
    assert ((b - a) mod all = 0) as Hm.
    { replace (b - a) with ((last + b) - (last + a)) by lia. rewrite Zminus_mod, He, Z.sub_diag. apply Z.mod_0_l. lia. }
    apply Z.mod_divide in Hm as [q Hq]; [|lia]. assert (q = 0) by nia. lia.
  - intros x. rewrite elem_of_seqZ, list_elem_of_fmap. split.
    + intros (k & -> & _). pose proof (Z.mod_pos_bound (last + k) all Hpos). lia.
    + intros Hx. exists ((x - last - 1) mod all + 1). pose proof (Z.mod_pos_bound (x - last - 1) all Hpos).
      split; [|rewrite elem_of_seqZ; lia].
      replace (last + ((x - last - 1) mod all + 1)) with (last + 1 + (x - last - 1) mod all) by lia.
      rewrite Z.add_mod_idemp_r by lia. replace (last + 1 + (x - last - 1)) with x by lia. symmetry. apply Z.mod_small. lia.
Qed.

Lemma round_share last i p : 0 <= last < all → ps !! i = Some p →
  Z.of_nat (length (keep (λ k, Nat.eqb (owner ((last + k) mod all)) i) (seqZ 1 all))) = p.
Proof.
  intros Hl Hi. set (f := λ x, Nat.eqb (owner x) i).
  change (Z.of_nat (length (keep (λ k, f ((last + k) mod all)) (seqZ 1 all))) = p).
  assert (0 <= p) as Hp by (rewrite Forall_lookup in Hps; by eapply Hps).
  assert (length (keep (λ k, f ((last + k) mod all)) (seqZ 1 all)) = length (keep f (seqZ 0 all))) as ->.
  { rewrite <- (round_perm last Hl). clear. induction (seqZ 1 all) as [|x l IH]; [done|].
    rewrite fmap_cons, !keep_cons. destruct (f _); simpl; by rewrite IH. }
  set (t := zsum (take i ps)). pose proof (zsum_take_le ps i Hps) as Ht.
  assert (t + p <= all) as Htp.
  { pose proof (zsum_take_le ps (S i) Hps) as Hs. rewrite (take_S_r _ _ p Hi), zsum_app in Hs. simpl in Hs. unfold t. lia. }
  replace all with (t + (p + (all - t - p))) by lia. rewrite !seqZ_app, !keep_app by lia.
  rewrite (keep_none f (seqZ 0 t)), (keep_all f (seqZ (0 + t) p)), (keep_none f (seqZ (0 + t + p) _)).
  - simpl. rewrite app_nil_r, length_seqZ. lia.
  - intros x Hx%elem_of_seqZ. apply Nat.eqb_neq. rewrite (owner_eq i p) by (done || lia). fold t. lia.
  - intros x Hx%elem_of_seqZ. apply Nat.eqb_eq. rewrite (owner_eq i p) by (done || lia). fold t. lia.
  - intros x Hx%elem_of_seqZ. apply Nat.eqb_neq. rewrite (owner_eq i p) by (done || lia). fold t. lia.
Qed.

End shares.

(** ** Lemmas: scores *)

Lemma flt_trans x y z : flt x y = true → flt y z = true → flt x z = true.
Proof.
  unfold flt, SFltb, SFcompare. intros Hxy Hyz.
  destruct x as [[] | [] | | [] m1 e1], y as [[] | [] | | [] m2 e2], z as [[] | [] | | [] m3 e3]; try done.
  all: change (Pos.compare_cont Eq ?a ?b) with (Pos.compare a b) in *; revert Hxy Hyz.
  all: destruct (Z.compare_spec e1 e2), (Z.compare_spec e2 e3), (Z.compare_spec e1 e3); try lia; try done.
  all: destruct (Pos.compare_spec m1 m2), (Pos.compare_spec m2 m3), (Pos.compare_spec m1 m3); simpl; try lia; done.
Qed.

(** A candidate does not beat the best score if it does not beat an earlier one. *)
Lemma not_beaten best best' s : flt best s = false → best = best' ∨ flt best best' = true → flt best' s = false.
Proof. intros Hs [<-|Hb]; [done|]. destruct (flt best' s) eqn:E; [|done]. by rewrite (flt_trans _ _ _ Hb E) in Hs. Qed.

Section best.
Context (pt : page_type).

(** The node that [best_node] returns: the one it starts with, or one with room, and
    none with room beats it. *)
Lemma best_node_spec es : ∀ scores i best bs,
  length scores = length es →
  ∃ best' bs', best_node pt es scores i best bs = Some best' ∧ (bs = bs' ∨ flt bs bs' = true) ∧
    (best' = best ∧ bs' = bs ∨ ∃ j e s, best' = i + Z.of_nat j ∧ es !! j = Some e ∧ scores !! j = Some s ∧ has_room pt e = true ∧
       bs' = current_score pt s e) ∧
    (∀ j e s, es !! j = Some e → scores !! j = Some s → has_room pt e = true → flt bs' (current_score pt s e) = false).
Proof.
  induction es as [|e es IH]; intros [|s scores] i best bs Hlen; simplify_eq/=.
  { exists best, bs. split_and!; auto. intros j e s. by rewrite lookup_nil. }
  set (cur := current_score pt s e) in *.
  assert (∀ best1 bs1, (has_room pt e = true → flt bs1 cur = false) → (bs = bs1 ∨ flt bs bs1 = true) →
    (best1 = best ∧ bs1 = bs ∨ best1 = i ∧ bs1 = cur ∧ has_room pt e = true) →
    ∃ best' bs', best_node pt es scores (i + 1) best1 bs1 = Some best' ∧ (bs = bs' ∨ flt bs bs' = true) ∧
      (best' = best ∧ bs' = bs ∨ ∃ j e' s', best' = i + Z.of_nat j ∧ (e :: es) !! j = Some e' ∧ (s :: scores) !! j = Some s' ∧
         has_room pt e' = true ∧ bs' = current_score pt s' e') ∧
      (∀ j e' s', (e :: es) !! j = Some e' → (s :: scores) !! j = Some s' → has_room pt e' = true → flt bs' (current_score pt s' e') = false)) as Hgo.
  { intros best1 bs1 Hcur Hle Hb. destruct (IH scores (i + 1) best1 bs1 ltac:(done)) as (best' & bs' & Hn & Hle' & Hb' & Hmax).
    exists best', bs'. split_and!; [done| | |].
    - destruct Hle as [<-|Hle], Hle' as [<-|Hle']; auto. right. by eapply flt_trans.
    - destruct Hb' as [[-> ->]|(j & e' & s' & -> & He & Hs & Hr & ->)].
      + destruct Hb as [?|(-> & -> & Hr)]; [by left|]. right. exists O, e, s. split_and!; auto. lia.
      + right. exists (S j), e', s'. split_and!; auto. lia.
    - intros [|j] e' s' He Hs Hr; simplify_eq/=; [|by eapply Hmax]. by eapply not_beaten; [apply Hcur|]. }
  destruct (has_room pt e) eqn:Er; simpl; [|apply Hgo; auto; done].
  destruct (flt bs cur) eqn:Ec; apply Hgo; auto. intros _. apply flt_irrefl.
Qed.

Lemma first_room_spec es : ∀ i, (first_room pt es i = -1 ∧ Forall (λ e, has_room pt e = false) es) ∨
  (∃ j e, first_room pt es i = i + Z.of_nat j ∧ es !! j = Some e ∧ has_room pt e = true).
Proof.
  induction es as [|e es IH]; intros i; simpl; [by left|]. destruct (has_room pt e) eqn:E.
  - right. exists O, e. split_and!; auto. lia.
  - destruct (IH (i + 1)) as [[-> Hf]|(j & e' & -> & He & Hr)]; [left; by split; [|constructor]|].
    right. exists (S j), e'. split_and!; auto. lia.
Qed.

End best.

(** ** Properties *)

Record interleave_ok (p : InterleavePolicy) : Prop := {
  io_shares : Forall (λ s, 0 <= s) (ip_percentage p);
  io_all : ip_all_size p = zsum (ip_percentage p);
  io_last : 0 <= ip_last_remote p < ip_all_size p
}.

Section interleave.
Context `{Hcast : CastUB} (c : Core) (Hlocal : local_room c = false).

Lemma interleave_step p : interleave_ok p →
  interleave_compute_once p c =
    ('(index, last') ← interleave_next (Z.to_nat (ip_all_size p)) (expander_room c) (ip_percentage p) (ip_all_size p) (ip_last_remote p);
     Some (Z.of_nat index, {| ip_last_remote := last'; ip_all_size := ip_all_size p; ip_percentage := ip_percentage p |})).
Proof.
  intros [Hs Ha Hl]. unfold interleave_compute_once, with_shares. rewrite Hlocal.
  destruct (ip_percentage p) as [|q qs] eqn:E; simpl in *; [lia|]. rewrite E.
  destruct (ip_all_size p =? 0) eqn:E0; btests; [lia|done].
Qed.

Lemma room_defined p : (∀ i, (i < length (ip_percentage p))%nat → is_Some (expander_at c i)) →
  ∀ i, (i < length (ip_percentage p))%nat → is_Some (expander_room c i).
Proof. intros Hd i Hi. unfold expander_room. destruct (Hd i Hi) as [e ->]. by eexists. Qed.

(** [n] allocations in a row, the controller being unchanged. *)
Fixpoint allocations (n : nat) (p : InterleavePolicy) : option (list Z * InterleavePolicy) :=
  match n with
  | O => Some ([], p)
  | S n' => '(i, p1) ← interleave_compute_once p c; '(l, p2) ← allocations n' p1; Some (i :: l, p2)
  end.

Definition at_turn (p : InterleavePolicy) (last : Z) : InterleavePolicy :=
  {| ip_last_remote := last; ip_all_size := ip_all_size p; ip_percentage := ip_percentage p |}.

Lemma allocations_round p (n : nat) :
  interleave_ok p → (∀ i, (i < length (ip_percentage p))%nat → expander_room c i = Some true) →
  allocations n p =
    Some ((λ k, Z.of_nat (owner (ip_percentage p) ((ip_last_remote p + k) mod ip_all_size p))) <$> seqZ 1 (Z.of_nat n),
          at_turn p ((ip_last_remote p + Z.of_nat n) mod ip_all_size p)).
Proof.
  revert p. induction n as [|n IH]; intros p Hok Hr.
  { pose proof (io_last _ Hok). unfold at_turn. simpl. rewrite Z.add_0_r, Z.mod_small by done. by destruct p. }
  pose proof Hok as [Hs Ha Hl]. cbn [allocations]. rewrite (interleave_step p Hok).
  destruct (Z.to_nat (ip_all_size p)) as [|f] eqn:E; [lia|].
  rewrite (interleave_next_S _ Hs (ip_all_size p) ltac:(lia) ltac:(lia)) by done. cbn zeta. set (x := (ip_last_remote p + 1) mod ip_all_size p).
  assert (0 <= x < ip_all_size p) as Hx by (apply Z.mod_pos_bound; lia).
  destruct (owner_share (ip_percentage p) Hs (ip_all_size p) ltac:(lia) x Hx) as (_ & q & Hq & _).
  rewrite Hr by (by eapply lookup_lt_Some). cbn [mbind option_bind]. change {| ip_last_remote := x; ip_all_size := _; ip_percentage := _ |} with (at_turn p x).
  rewrite (IH (at_turn p x)) by (done || split; done). cbn [mbind option_bind at_turn ip_last_remote ip_all_size ip_percentage].
  do 2 f_equal.
  - rewrite Nat2Z.inj_succ, (seqZ_cons 1 (Z.succ _)), fmap_cons by lia. f_equal. rewrite Z.pred_succ.
    change (Z.succ 1) with (1 + 1). rewrite <- (fmap_add_seqZ 1 1), <- list_fmap_compose. apply list_fmap_ext. intros k z _. simpl. do 2 f_equal.
    unfold x. rewrite Z.add_mod_idemp_l by lia. f_equal. lia.
  - unfold at_turn. f_equal. unfold x. rewrite Z.add_mod_idemp_l by lia. f_equal. lia.
Qed.

End interleave.


(** While the local memory is full and every expander has room, one round of allocations
    gives each expander exactly the share that the code has computed for it, and then
    the policy is where it was. *)
Theorem interleave_fair `{CastUB} c p :
  local_room c = false → interleave_ok p → (∀ i, (i < length (ip_percentage p))%nat → expander_room c i = Some true) →
  ∃ l, allocations c (Z.to_nat (ip_all_size p)) p = Some (l, p) ∧
    ∀ i share, ip_percentage p !! i = Some share → Z.of_nat (length (keep (Z.eqb (Z.of_nat i)) l)) = share.
Proof.
  intros Hloc Hok Hr. pose proof Hok as [Hs Ha Hl]. rewrite (allocations_round c Hloc p _ Hok Hr). rewrite Z2Nat.id by lia.
  eexists. split.
  - do 2 f_equal. unfold at_turn. rewrite <- Zplus_mod_idemp_r, Z.mod_same, Z.add_0_r, Z.mod_small by lia. by destruct p.
  - intros i q Hq. rewrite <- (round_share _ Hs (ip_all_size p) ltac:(lia) ltac:(lia) (ip_last_remote p) i q Hl Hq). f_equal.
    generalize (seqZ 1 (ip_all_size p)). intros l. induction l as [|k l IH]; [done|]. rewrite fmap_cons, !keep_cons.
    replace (Z.of_nat i =? _) with (Nat.eqb (owner (ip_percentage p) ((ip_last_remote p + k) mod ip_all_size p)) i)
      by (apply eq_true_iff_eq; rewrite Nat.eqb_eq, Z.eqb_eq; lia).
    destruct (Nat.eqb _ _); simpl; by rewrite IH.
Qed.

(** NUMA allocation once the local memory is 90 percent full: the local memory is
    returned exactly when no expander has room; else an expander with room is, and no
    other one with room and a score above -1 beats its score. *)
Theorem numa_best `{CastUB} c scores es :
  local_room c = false → cur_expanders c = Some es → scores = [] ∨ length scores = length es →
  ∃ i scores', numa_compute_once scores c = Some (i, scores') ∧ length scores' = length es ∧
    (i = -1 ∧ Forall (λ e, has_room (co_page_type c) e = false) es ∨
     ∃ e s, 0 <= i ∧ es !! Z.to_nat i = Some e ∧ scores' !! Z.to_nat i = Some s ∧ has_room (co_page_type c) e = true ∧
       ∀ j e' s', es !! j = Some e' → scores' !! j = Some s' → has_room (co_page_type c) e' = true →
         flt (f64_of_Z (-1)) (current_score (co_page_type c) s' e') = true →
         flt (current_score (co_page_type c) s e) (current_score (co_page_type c) s' e') = false).
Proof.
  intros Hloc Hes Hlen. unfold numa_compute_once. rewrite Hloc, Hes. cbn [mbind option_bind]. generalize (f64_of_Z (-1)). intros m1.
  set (ss := match scores with [] => _ | _ => _ end).
  assert (length ss = length es) as Hss.
  { destruct Hlen as [->|Hlen]; [apply length_fmap|]. unfold ss. destruct scores; [apply length_fmap|done]. }
  destruct (best_node_spec (co_page_type c) es ss 0 (-1) m1 Hss) as (b & bs & -> & _ & Hb & Hmax). cbn [mbind option_bind].
  eexists _, ss. split_and!; [done|done|]. destruct Hb as [[-> ->]|(j & e & s & -> & He & Hs & Hr & ->)].
  - simpl. destruct (first_room_spec (co_page_type c) es 0) as [[-> Hf]|(j & e & -> & He & Hr)]; [by left|]. right.
    rewrite Z.add_0_l, Nat2Z.id. destruct (lookup_lt_is_Some_2 ss j) as [s Hs]; [rewrite Hss; by eapply lookup_lt_Some|].
    exists e, s. split_and!; try done; [lia|]. intros j' e' s' He' Hs' Hr' Hb. by rewrite (Hmax j' e' s') in Hb.
  - right. destruct (0 + Z.of_nat j =? -1) eqn:E; btests; [lia|]. rewrite Z.add_0_l, Nat2Z.id. exists e, s. split_and!; try done; [lia|].
    intros j' e' s' He' Hs' Hr' _. by apply (Hmax j').
Qed.

(** ** Witnesses *)

#[local] Instance ex_policy_cast : CastUB := λ _, 0.

Definition ex_policy_expander (write_latency id : Z) : CXLMemExpander := CXLMemExpander_new 50 50 150 write_latency id 1024.

(** No local memory and expanders with the write latencies [l] below the controller. *)
Definition ex_policy_core (l : list Z) : Core :=
  let xs := seq 0 (length l) in
  set_tree {| cn_switch := CXLSwitch_new 0 xs []; cn_store := imap (λ i w, ex_policy_expander w (Z.of_nat i)) l; cn_cur_expanders := xs;
              cn_remote := 0 |} (CXLController_new 0 PAGE f0).

Definition ex_interleave : InterleavePolicy := {| ip_last_remote := 0; ip_all_size := 7; ip_percentage := [3; 3; 1] |}.

Lemma ex_interleave_ok : interleave_ok ex_interleave.
Proof. split; simpl; [repeat constructor; lia|done|lia]. Qed.


Lemma interleave_fair_witness :
  local_room (ex_policy_core [200; 200; 400]) = false ∧
  ∃ l, allocations (ex_policy_core [200; 200; 400]) 7 ex_interleave = Some (l, ex_interleave) ∧ length (keep (Z.eqb 1) l) = 3%nat.
Proof.
  assert (local_room (ex_policy_core [200; 200; 400]) = false) as Hl by (vm_compute; reflexivity).
  split; [exact Hl|].
  destruct (interleave_fair (ex_policy_core [200; 200; 400]) ex_interleave Hl ex_interleave_ok) as (l & Ha & Hk).
  - intros i Hi. simpl in Hi. destruct i as [|[|[|i]]]; [vm_compute; reflexivity..|lia].
  - exists l. split; [exact Ha|]. apply Nat2Z.inj. exact (Hk 1%nat 3 eq_refl).
Defined.

Lemma numa_best_witness :
  local_room (ex_policy_core [200; 400]) = false ∧ ∃ i s, numa_compute_once [] (ex_policy_core [200; 400]) = Some (i, s).
Proof.
  assert (local_room (ex_policy_core [200; 400]) = false) as Hl by (vm_compute; reflexivity).
  split; [exact Hl|].
  destruct (numa_best (ex_policy_core [200; 400]) [] [ex_policy_expander 200 0; ex_policy_expander 400 1] Hl) as (i & s & Hn & _).
  - reflexivity.
  - by left.
  - exists i, s. exact Hn.
Defined.

(** ** Observations *)

(** Two expanders of 200 ns and one of 400 ns get the shares 3, 3 and 1: four tenths
    and two tenths are rounded down as doubles before they are cut. *)
Lemma documented_shares :
  shares [ex_policy_expander 200 0; ex_policy_expander 200 1; ex_policy_expander 400 2] = [3; 3; 1].
Proof. vm_compute. reflexivity. Qed.

(** With eleven equal expanders all shares are zero: no expander is ever used, even
    when there is no local memory left and all of them are empty. *)
Lemma eleven_expanders_unused :
  fst <$> interleave_compute_once {| ip_last_remote := 0; ip_all_size := 0; ip_percentage := [] |} (ex_policy_core (replicate 11 200)) = Some (-1) ∧
  local_room (ex_policy_core (replicate 11 200)) = false.
Proof. split; vm_compute; reflexivity. Qed.

(** When the counts are cleaned up, the list that [compute_once] finds is lost: the
    list is computed again for the invalidation, from the cleared counts. *)
Lemma cleanup_drops_invalidations p c :
  fi_interval p <? co_last_timestamp c -w fi_last_cleanup p = true →
  (frequency_invalidation_list (frequency_invalidation_list p c).2 c).1 = [].
Proof.
  intros Hc. unfold frequency_invalidation_list at 2. rewrite Hc. unfold frequency_invalidation_list. cbn [fst snd].
  apply keep_none. intros a _. unfold should_invalidate. simpl. by rewrite lookup_empty.
Qed.
