(* ===== verification/Growth.v ===== *)
(** * Growth of the expanders

    How many entries the operations of the tree of switches (src/cxlendpoint.cpp)
    can add to an expander: an access adds at most one for each place at which the
    topology lists the expander, all other operations none.  With it, the condition
    under which interleaved allocation (src/policy.cpp) returns for a number of
    accesses to come ([interleave_fits]). *)

From Stdlib Require Import SpecFloat.
From S2P Require Import Prelude Float64 LruCache Endpoint Policy.

(** ** Expanders *)

(** At most [k] entries more, and what the policies read of the expander is the same. *)
Record grows (k : nat) (e e' : CXLMemExpander) : Prop := {
  gw_write : xp_latency_write e' = xp_latency_write e;
  gw_capacity : xp_capacity e' = xp_capacity e;
  gw_entries : (length (xp_occupation e') ≤ length (xp_occupation e) + k)%nat
}.

Lemma grows_refl e : grows 0 e e.
Proof. split; (done || lia). Qed.

Lemma grows_trans j k e1 e2 e3 : grows j e1 e2 → grows k e2 e3 → grows (j + k) e1 e3.
Proof. intros [] []. split; [congruence|congruence|lia]. Qed.

Lemma grows_mono j k e e' : (j ≤ k)%nat → grows j e e' → grows k e e'.
Proof. intros H []. split; (done || lia). Qed.

Lemma release_all_grows l e : grows 0 e (List.fold_left (λ e r, release_credit (cr_is_read r) e) l e).
Proof.
  revert e. induction l as [|r l IH]; intros e; [apply grows_refl|]. cbn [List.fold_left]. apply (grows_trans 0 0 e (release_credit (cr_is_read r) e)); [|apply IH].
  unfold release_credit. repeat case_match; split; (done || simpl; lia).
Qed.

Section with_casts_growth.
Context `{CastUB}.

Lemma issue_requests_grows n t e : grows 0 e (issue_requests n t e).
Proof.
  revert e. induction n as [|n IH]; intros e; cbn [issue_requests]; [apply grows_refl|].
  destruct (xp_request_queue e); [apply grows_refl|]. case_match; [|apply grows_refl].
  match goal with |- grows 0 e (issue_requests n t ?x) => apply (grows_trans 0 0 e x); [|apply IH] end.
  unfold consume_credit. case_match; split; (done || simpl; lia).
Qed.

Lemma process_grows t e : grows 0 e (process_queued_requests t e).
Proof.
  unfold process_queued_requests. apply (grows_trans 0 0 e (complete_requests t e)); [|apply issue_requests_grows].
  destruct (release_all_grows (completed t (xp_in_flight_requests e)) e). by split.
Qed.

Lemma erase_first_length a l l' : erase_first a l = Some l' → length l = S (length l').
Proof.
  revert l'. induction l as [|o l IH]; intros l'; cbn [erase_first]; [done|]. destruct (_ =? a); [by intros [= ->]|].
  destruct (erase_first a l) as [r|]; [|done]. intros [= <-]. cbn. f_equal. by apply IH.
Qed.

Lemma insert_grows ts tid a i e : grows 1 e (insert ts tid a i e).2.
Proof.
  unfold insert. destruct (negb _); [apply (grows_mono 0); [lia|apply grows_refl]|].
  assert (grows 0 e (process_queued_requests ts (later ts e))) as H1 by (destruct (process_grows ts (later ts e)); by split).
  set (e1 := process_queued_requests _ _) in *. apply (grows_trans 0 1 e e1); [done|]. clearbody e1.
  destruct (a =? 0); [split; (done || simpl; lia)|]. destruct (negb _); [split; (done || simpl; lia)|].
  destruct (if decide _ then _ else _) as [occ|] eqn:Hf; split; try done; simpl; rewrite length_app; simpl; [|lia].
  case_decide; [|done]. apply erase_first_length in Hf. lia.
Qed.

End with_casts_growth.

Lemma is_local_grows a e : grows 0 e (is_address_local a e).2.
Proof.
  unfold is_address_local, update_range_cache. destruct (xp_cache_valid e) eqn:E; cbn [snd]; [apply grows_refl|].
  rewrite ?E. split; try done. simpl. rewrite (merge_sort_Permutation occ_le). lia.
Qed.

Lemma latency_loop_grows `{CastUB} d elem total n last e : grows 0 e (latency_loop d elem total n last e).2.
Proof.
  revert total n last e. induction elem as [|[ts a] elem IH]; intros total n last e; cbn [latency_loop]; [apply grows_refl|].
  pose proof (is_local_grows a e) as Hl. destruct (is_address_local a e) as [[] e1]; (apply (grows_trans 0 0 e e1); [exact Hl|apply IH]).
Qed.

Lemma local_window_grows elem n f l e : grows 0 e (local_window elem n f l e).2.
Proof.
  revert n f l e. induction elem as [|[ts a] elem IH]; intros n f l e; cbn [local_window]; [apply grows_refl|].
  pose proof (is_local_grows a e) as Hl. destruct (is_address_local a e) as [[] e1]; (apply (grows_trans 0 0 e e1); [exact Hl|apply IH]).
Qed.

Lemma update_address_grows e : grows 0 e (update_address_cache e).
Proof. unfold update_address_cache. destruct (xp_cache_valid e); split; (done || simpl; lia). Qed.

Lemma latency_grows `{CastUB} elem d e : grows 0 e (calculate_latency elem d e).2.
Proof.
  unfold calculate_latency. destruct (List.rev elem) as [|b l]; [apply grows_refl|].
  match goal with |- context [latency_loop d elem f0 0 0 ?x] => pose proof (latency_loop_grows d elem f0 0 0 x) as Hl;
    destruct (latency_loop d elem f0 0 0 x) as [[t n] e2] end. cbn [snd] in *.
  apply (grows_trans 0 0 _ _ _ (process_grows b.1 e)), (grows_trans 0 0 _ _ _ (update_address_grows _)), Hl.
Qed.

Lemma bandwidth_grows elem e : grows 0 e (calculate_bandwidth elem e).2.
Proof.
  unfold calculate_bandwidth. destruct elem as [|x elem]; [apply grows_refl|].
  pose proof (local_window_grows (x :: elem) 0 UINT64_MAX 0 e) as Hl. destruct (local_window _ _ _ _ _) as [[[n f] l] e1]. cbn [snd] in *.
  by destruct (n =? 0).
Qed.

Lemma get_access_grows ts e : grows 0 e (get_access ts e).2.
Proof. split; (done || simpl; lia). Qed.

(** ** Stores *)

(** The occurrences of a position in a list. *)
Definition times (x : nat) (xs : list nat) : nat := length (keep (Nat.eqb x) xs).

Lemma times_cons x y xs : times x (y :: xs) = ((if Nat.eqb x y then 1 else 0) + times x xs)%nat.
Proof. unfold times. rewrite keep_cons. by destruct (Nat.eqb x y). Qed.

Lemma times_app x xs ys : times x (xs ++ ys) = (times x xs + times x ys)%nat.
Proof. unfold times. by rewrite keep_app, length_app. Qed.

(** Expander [x] of a store has grown by at most [f x]. *)
Definition grown (f : nat → nat) (st st' : list CXLMemExpander) : Prop :=
  length st' = length st ∧ ∀ x e, st !! x = Some e → ∃ e', st' !! x = Some e' ∧ grows (f x) e e'.

Definition nowhere : nat → nat := λ _, 0%nat.

Lemma grown_refl st : grown nowhere st st.
Proof. split; [done|]. intros x e He. exists e. split; [done|apply grows_refl]. Qed.

Lemma grown_trans f g h st1 st2 st3 : grown f st1 st2 → grown g st2 st3 → (∀ x, f x + g x ≤ h x)%nat → grown h st1 st3.
Proof.
  intros [Hl1 H1] [Hl2 H2] Hh. split; [congruence|]. intros x e He. destruct (H1 x e He) as (e2 & He2 & Hg1). destruct (H2 x e2 He2) as (e3 & He3 & Hg2).
  exists e3. split; [done|]. eapply grows_mono; [apply Hh|]. by eapply grows_trans.
Qed.

Lemma grown_quiet st1 st2 st3 : grown nowhere st1 st2 → grown nowhere st2 st3 → grown nowhere st1 st3.
Proof. intros H1 H2. by eapply grown_trans. Qed.

Lemma grown_mono f g st st' : grown f st st' → (∀ x, f x ≤ g x)%nat → grown g st st'.
Proof. intros H Hg. eapply grown_trans; [exact H|apply grown_refl|]. intros x. unfold nowhere. specialize (Hg x). lia. Qed.

Lemma grown_insert k st x e e' : st !! x = Some e → grows k e e' → grown (λ y, if Nat.eqb y x then k else 0%nat) st (<[x := e']> st).
Proof.
  intros Hx He. split; [apply length_insert|]. intros y d Hd. destruct (Nat.eqb_spec y x) as [->|Hne].
  - exists e'. rewrite list_lookup_insert_eq by (by eapply lookup_lt_Some). by simplify_eq.
  - exists d. rewrite list_lookup_insert_ne by done. split; [done|apply grows_refl].
Qed.

Lemma grown_insert_quiet st x e e' : st !! x = Some e → grows 0 e e' → grown nowhere st (<[x := e']> st).
Proof. intros Hx He. eapply grown_mono; [by eapply grown_insert|]. intros y. unfold nowhere. destruct (Nat.eqb y x); lia. Qed.

(** ** Trees *)

Lemma offer_expanders_grown op xs : (∀ e, grows 1 e (op e).2) → ∀ st, grown (λ x, times x xs) st (offer_expanders op xs st).2.
Proof.
  intros Hop. induction xs as [|x xs IH]; intros st; cbn [offer_expanders]; [apply grown_refl|].
  destruct (st !! x) as [e|] eqn:He.
  - specialize (Hop e). destruct (op e) as [ret e']. cbn [snd] in Hop. pose proof (grown_insert _ _ _ _ _ He Hop) as H1. destruct (accepted ret).
    + eapply grown_mono; [exact H1|]. intros y. cbn beta. rewrite times_cons. lia.
    + eapply grown_trans; [exact H1|apply IH|]. intros y. cbn beta. by rewrite times_cons.
  - eapply grown_mono; [apply IH|]. intros y. cbn beta. rewrite times_cons. lia.
Qed.

Lemma count_access_expanders ret d : sd_expanders (count_access ret d) = sd_expanders d.
Proof. unfold count_access. by repeat case_match. Qed.

Lemma offer_list_grown f sws :
  Forall (λ s, ∀ st, grown (λ x, times x (positions s)) st (f s st).2 ∧ positions (f s st).1.2 = positions s) sws →
  ∀ st, grown (λ x, times x (concat (List.map positions sws))) st (offer_list f sws st).2 ∧
        List.map positions (offer_list f sws st).1.2 = List.map positions sws.
Proof.
  induction 1 as [|s sws Hs _ IH]; intros st; cbn [offer_list List.map concat]; [by split; [apply grown_refl|]|].
  destruct (Hs st) as [H1 H2]. destruct (f s st) as [[ret s'] st']. cbn [fst snd] in *. destruct (accepted ret).
  - split; [|cbn; by rewrite H2]. eapply grown_mono; [exact H1|]. intros x. cbn beta. rewrite times_app. lia.
  - destruct (IH st') as [H3 H4]. destruct (offer_list f sws st') as [[ret2 sws2] st2]. cbn [fst snd List.map] in *.
    split; [|by rewrite H2, H4]. eapply grown_trans; [exact H1|exact H3|]. intros x. cbn beta. by rewrite times_app.
Qed.

(** An access adds an entry for each place of an expander at most. *)
Lemma offer_grown op sw : (∀ e, grows 1 e (op e).2) →
  ∀ st, grown (λ x, times x (positions sw)) st (offer op sw st).2 ∧ positions (offer op sw st).1.2 = positions sw.
Proof.
  intros Hop. induction sw as [d sws IH] using switch_nested_ind. intros st. cbn [offer positions].
  pose proof (offer_expanders_grown op (sd_expanders d) Hop st) as H1. destruct (offer_expanders _ _ _) as [ret st1]. cbn [snd] in H1.
  destruct (accepted ret); cbn [fst snd positions].
  - rewrite count_access_expanders. split; [|done]. eapply grown_mono; [exact H1|]. intros x. cbn beta. rewrite times_app. lia.
  - destruct (offer_list_grown (offer op) sws IH st1) as [H2 H3]. destruct (offer_list _ _ _) as [[ret2 sws2] st2]. cbn [fst snd positions] in *.
    rewrite count_access_expanders, H3. split; [|done]. eapply grown_trans; [exact H1|exact H2|]. intros x. cbn beta. by rewrite times_app.
Qed.

Lemma each_grown {A} (op : CXLMemExpander → A * CXLMemExpander) add xs :
  (∀ e, grows 0 e (op e).2) → ∀ acc st, grown nowhere st (each_expander op add xs acc st).2.
Proof.
  intros Hop. induction xs as [|x xs IH]; intros acc st; cbn [each_expander]; [apply grown_refl|]. destruct (st !! x) as [e|] eqn:He; [|apply IH].
  specialize (Hop e). destruct (op e) as [a e']. eapply grown_quiet; [by eapply grown_insert_quiet|apply IH].
Qed.

Lemma traverse_grown {A} (own : SwitchData → CXLSwitch → list CXLMemExpander → A * list CXLMemExpander) op add sw :
  (∀ d s st, grown nowhere st (own d s st).2) → (∀ e, grows 0 e (op e).2) → ∀ st, grown nowhere st (traverse own op add sw st).2.
Proof.
  intros Hown Hop. induction sw as [d sws IH] using switch_nested_ind. intros st. cbn [traverse].
  pose proof (Hown d (Switch d sws) st) as H0. destruct (own d (Switch d sws) st) as [a0 st0]. cbn [snd] in H0.
  pose proof (each_grown op add (sd_expanders d) Hop a0 st0) as H1. destruct (each_expander _ _ _ _ _) as [a1 st1]. cbn [snd] in H1.
  eapply grown_quiet; [exact (grown_quiet _ _ _ H0 H1)|]. clear H0 H1. revert a1 st1.
  induction IH as [|s sws Hs _ IHs]; intros acc st1; [apply grown_refl|].
  specialize (Hs st1). destruct (traverse own op add s st1) as [a st']. cbn [snd] in Hs. eapply grown_quiet; [exact Hs|apply IHs].
Qed.

Lemma any_local_grown addr xs : ∀ st, grown nowhere st (any_local addr xs st).2.
Proof.
  induction xs as [|x xs IH]; intros st; cbn [any_local]; [apply grown_refl|]. destruct (st !! x) as [e|] eqn:He; [|apply IH].
  pose proof (is_local_grows addr e) as Hg. destruct (is_address_local addr e) as [[] e']; cbn [snd] in *; pose proof (grown_insert_quiet _ _ _ _ He Hg) as H1;
    [exact H1|]. eapply grown_quiet; [exact H1|apply IH].
Qed.

Lemma contains_address_grown addr sw : ∀ st, grown nowhere st (contains_address addr sw st).2.
Proof.
  induction sw as [d sws IH] using switch_nested_ind. intros st. cbn [contains_address].
  pose proof (any_local_grown addr (sd_expanders d) st) as H1. destruct (any_local _ _ _) as [[] st1]; [done|]. cbn [snd] in H1.
  eapply grown_quiet; [exact H1|]. clear H1 st. revert st1. induction IH as [|s sws Hs _ IHs]; intros st; [apply grown_refl|].
  specialize (Hs st). destruct (contains_address addr s st) as [[] st']; [done|]. cbn [snd] in Hs. eapply grown_quiet; [exact Hs|apply IHs].
Qed.

Lemma contained_window_grown sw elem : ∀ n f l st, grown nowhere st (contained_window sw elem n f l st).2.
Proof.
  induction elem as [|[ts a] elem IH]; intros n f l st; cbn [contained_window]; [apply grown_refl|].
  pose proof (contains_address_grown a sw st) as H1. destruct (contains_address a sw st) as [[] st1]; (eapply grown_quiet; [exact H1|apply IH]).
Qed.

Lemma sw_bandwidth_grown elem sw st : grown nowhere st (sw_calculate_bandwidth elem sw st).2.
Proof.
  apply traverse_grown; [|apply bandwidth_grows]. intros d s st1. unfold switch_penalty. destruct elem as [|x elem]; [apply grown_refl|].
  pose proof (contained_window_grown s (x :: elem) 0 UINT64_MAX 0 st1) as H1. destruct (contained_window _ _ _ _ _ _) as [[[n f] l] st2]. cbn [snd] in *.
  by destruct (0 <? n).
Qed.

(** ** The controller *)

(** The controller after at most [n] accesses. *)
Record filled (n : nat) (c c' : Core) : Prop := {
  fl_page : co_page_type c' = co_page_type c;
  fl_cur : cn_cur_expanders (co_tree c') = cn_cur_expanders (co_tree c);
  fl_places : positions (cn_switch (co_tree c')) = positions (cn_switch (co_tree c));
  fl_store : grown (λ x, n * times x (positions (cn_switch (co_tree c))))%nat (cn_store (co_tree c)) (cn_store (co_tree c'))
}.

Lemma filled_refl c : filled 0 c c.
Proof. split; try done. apply grown_refl. Qed.

Lemma filled_trans m n c1 c2 c3 : filled m c1 c2 → filled n c2 c3 → filled (m + n) c1 c3.
Proof.
  intros [H1 H2 H3 H4] [H5 H6 H7 H8]. split; try congruence. eapply grown_trans; [exact H4|exact H8|]. intros x. cbn beta. rewrite H3. lia.
Qed.

Lemma filled_mono m n c c' : (m ≤ n)%nat → filled m c c' → filled n c c'.
Proof. intros H [H1 H2 H3 H4]. split; try done. eapply grown_mono; [exact H4|]. intros x. cbn beta. by apply Nat.mul_le_mono_r. Qed.

Lemma filled_quiet c1 c2 c3 n : filled 0 c1 c2 → filled n c2 c3 → filled n c1 c3.
Proof. apply (filled_trans 0 n). Qed.

(** Expander [e] at position [x] has room for [n] accesses more. *)
Definition fits_more (n : nat) (c : Core) (x : nat) (e : CXLMemExpander) : Prop :=
  (Z.of_nat (length (xp_occupation e)) + Z.of_nat n * Z.of_nat (times x (positions (cn_switch (co_tree c))))) * per_size (co_page_type c) / 1024 / 1024
    < xp_capacity e.

Lemma megabytes_mono pt (n : nat) (m : Z) : Z.of_nat n <= m → megabytes n pt <= m * per_size pt / 1024 / 1024.
Proof.
  intros H. unfold megabytes. assert (0 < per_size pt) by (destruct pt; done). repeat apply Z.div_le_mono; try lia.
  transitivity (Z.of_nat n * per_size pt); [apply Z.mod_le; [nia|done]|nia].
Qed.

Lemma fits_room n c x e : fits_more n c x e → has_room (co_page_type c) e = true.
Proof.
  intros H. unfold has_room. apply Z.ltb_lt. eapply Z.le_lt_trans; [|exact H]. apply megabytes_mono. lia.
Qed.

Lemma fits_later m n c c' x e e' :
  filled m c c' → cn_store (co_tree c) !! x = Some e → cn_store (co_tree c') !! x = Some e' → fits_more (m + n) c x e → fits_more n c' x e'.
Proof.
  intros [H1 _ H3 [_ H4]] He He' Hf. destruct (H4 x e He) as (e1 & He1 & [_ Hc Hn]). assert (e1 = e') as -> by congruence.
  unfold fits_more in *. rewrite Hc, H1, H3. eapply Z.le_lt_trans; [|exact Hf]. assert (0 < per_size (co_page_type c)) by (by destruct (co_page_type c)).
  repeat apply Z.div_le_mono; try lia. apply Z.mul_le_mono_nonneg_r; [lia|]. nia.
Qed.

Section interleaving.
Context `{CastUB}.

(** The shares that the policy has or will compute. *)
Definition shares_of (p : InterleavePolicy) (es : list CXLMemExpander) : list Z :=
  match ip_percentage p with [] => shares es | ps => ps end.

Lemma shares_of_ne p es : ip_percentage p ≠ [] → shares_of p es = ip_percentage p.
Proof. intros Hp. unfold shares_of. by destruct (ip_percentage p). Qed.

(** Interleaved allocation returns for [n] accesses: no share is negative, and one of the
    expanders with a positive share has room for all of them, if there is one. *)
Record interleave_fits (n : nat) (c : Core) (p : InterleavePolicy) : Prop := {
  it_turn : ip_last_remote p = 0 ∨ ip_percentage p ≠ [] ∧ 0 <= ip_last_remote p < ip_all_size p;
  it_all : ip_percentage p ≠ [] → ip_all_size p = zsum (ip_percentage p);
  it_room : ∃ es, cur_expanders c = Some es ∧ length (shares_of p es) = length es ∧ Forall (λ s, 0 <= s) (shares_of p es) ∧
    (zsum (shares_of p es) = 0 ∨ ∃ i x e share, cn_cur_expanders (co_tree c) !! i = Some x ∧ cn_store (co_tree c) !! x = Some e ∧
       shares_of p es !! i = Some share ∧ 0 < share ∧ fits_more n c x e)
}.

Lemma filled_expanders m c c' es : filled m c c' → cur_expanders c = Some es →
  ∃ es', cur_expanders c' = Some es' ∧ xp_latency_write <$> es' = xp_latency_write <$> es.
Proof.
  intros [_ Hcur _ [_ Hst]]. unfold cur_expanders. rewrite Hcur. clear Hcur. revert es. induction (cn_cur_expanders (co_tree c)) as [|x xs IH]; intros es He; cbn [mapM] in *.
  { injection He as <-. by exists []. }
  destruct (cn_store (co_tree c) !! x) as [e|] eqn:Ex; [|done]. cbn [mbind option_bind] in He. destruct (mapM _ xs) as [es1|] eqn:Em; [|done]. injection He as <-.
  destruct (Hst x e Ex) as (e' & -> & [Hw _ _]). destruct (IH es1 eq_refl) as (es' & -> & Hes). exists (e' :: es'). split; [done|]. cbn. by rewrite Hw, Hes.
Qed.

Lemma shares_ext es es' : xp_latency_write <$> es' = xp_latency_write <$> es → shares es' = shares es.
Proof.
  intros He. unfold shares. assert ((λ e, f1 / xp_latency_write e)%f64 <$> es' = (λ e, f1 / xp_latency_write e)%f64 <$> es) as ->; [|done].
  change (λ e, (f1 / xp_latency_write e)%f64) with ((λ w, f1 / w)%f64 ∘ xp_latency_write). by rewrite !list_fmap_compose, He.
Qed.

Lemma interleave_fits_later m n c c' p : filled m c c' → interleave_fits (m + n) c p → interleave_fits n c' p.
Proof.
  intros Hf [Ht Ha (es & He & Hl & Hs & Hr)]. destruct (filled_expanders m c c' es Hf He) as (es' & He' & Hw).
  assert (shares_of p es' = shares_of p es) as Hsh by (unfold shares_of; destruct (ip_percentage p); [by apply shares_ext|done]).
  split; [done|done|]. exists es'. rewrite Hsh, He'. split; [done|]. split; [|split; [done|]].
  - rewrite Hl. apply (f_equal length) in Hw. by rewrite !length_fmap in Hw.
  - destruct Hr as [Hr|(i & x & e & share & Hx & Hst & Hi & Hp & Hm)]; [by left|right].
    destruct (fl_store _ _ _ Hf) as [_ Hg]. destruct (Hg x e Hst) as (e' & Hst' & _). exists i, x, e', share. rewrite (fl_cur _ _ _ Hf).
    split_and!; try done. by eapply fits_later.
Qed.

Lemma cur_expander_at c es i : cur_expanders c = Some es → (i < length es)%nat → is_Some (expander_at c i).
Proof.
  intros He Hi. unfold cur_expanders in He. destruct (lookup_lt_is_Some_2 es i Hi) as [e Hei]. pose proof He as Hm. apply mapM_Some in Hm.
  destruct (Forall2_lookup_r _ _ _ _ _ Hm Hei) as (x & Hx & Hs). exists e. unfold expander_at. by rewrite Hx.
Qed.

Lemma with_shares_fits n c p : interleave_fits n c p →
  ∃ p1, with_shares p c = Some p1 ∧ interleave_fits n c p1 ∧ ip_all_size p1 = zsum (ip_percentage p1) ∧
        (ip_all_size p1 ≠ 0 → ip_percentage p1 ≠ []).
Proof.
  intros Hf. pose proof Hf as [Ht Ha (es & He & Hl & Hs & Hr)]. unfold with_shares. destruct (ip_percentage p) as [|q qs] eqn:Ep.
  - rewrite He. cbn [mbind option_bind]. eexists. split; [done|]. unfold shares_of in *. rewrite Ep in *.
    destruct Ht as [Ht|[Ht _]]; [|done]. split; [|split; [done|cbn; by destruct (shares es)]]. split; cbn; [by left|done|].
    exists es. unfold shares_of. cbn. destruct (shares es) as [|s ss] eqn:Es; by rewrite ?Es.
  - exists p. split; [done|]. split; [done|]. rewrite Ep in *. split; [by apply Ha|done].
Qed.

(** Allocation returns, also the last of [n] times. *)
Lemma interleave_returns n c p : interleave_fits n c p → ∃ i p', interleave_compute_once p c = Some (i, p') ∧ interleave_fits n c p'.
Proof.
  intros Hf. unfold interleave_compute_once. destruct (local_room c); [by eexists _, _|].
  destruct (with_shares_fits n c p Hf) as (p1 & -> & Hf1 & Ha1 & Hne). cbn [mbind option_bind].
  destruct (Z.eqb_spec (ip_all_size p1) 0) as [_|Hn0]; [by eexists _, _|]. specialize (Hne Hn0).
  destruct Hf1 as [Ht Ha (es & He & Hl & Hs & Hr)].
  rewrite (shares_of_ne p1 es Hne) in *.
  pose proof (zsum_take_le (ip_percentage p1) 0 Hs) as Hpos. cbn in Hpos. assert (0 <= ip_last_remote p1 < ip_all_size p1) as Hlast by (destruct Ht as [->|[_ ?]]; lia).
  destruct Hr as [Hr|(i & x & e & share & Hx & Hst & Hi & Hp & Hm)]; [lia|].
  assert (∀ j, (j < length (ip_percentage p1))%nat → is_Some (expander_room c j)) as Hdef.
  { intros j Hj. unfold expander_room. destruct (cur_expander_at c es j He ltac:(lia)) as [d ->]. by eexists. }
  assert (expander_room c i = Some true) as Hroom by (unfold expander_room, expander_at; rewrite Hx; cbn; rewrite Hst; cbn; by rewrite (fits_room n c x e)).
  destruct (interleave_next_finds (ip_percentage p1) Hs (ip_all_size p1) ltac:(lia) ltac:(lia) (expander_room c) Hdef (ip_last_remote p1) i share Hlast Hi Hp Hroom)
    as [[j last'] Hn]. rewrite Hn. cbn [mbind option_bind]. eexists _, _. split; [done|].
  apply interleave_next_room in Hn as (_ & _ & Hl'); try done; try lia. split; [by right|done|]. exists es. rewrite shares_of_ne by done. cbn [ip_percentage].
  split_and!; try done. right. by exists i, x, e, share.
Qed.

End interleaving.
