(* ===== verification/Sampler.v ===== *)
(** * Samples of a running program

    Models what [CXLController] (src/cxlcontroller.cpp) does with the samples of a
    program: memory accesses ([insert] of an address, with [perform_migration] and
    [perform_back_invalidation]) and branch records ([insert] of branch records and
    [insert_one], with [get_endpoint_rob_latency] and [calculate_congestion] of
    src/cxlendpoint.cpp).  The state is that of Policy.v with the policies; the
    decoder of the distributed mode is not configured ([hdm_decoder_] is null), so
    an access goes where the allocation policy says.

    [None] is undefined behaviour (the front of an empty queue, a null policy) or an
    allocation that does not end.  The timestamps of one call are added with the
    wrap-around of [uint64_t]; the counts of a thread are [int64_t] and far from
    their bounds. *)

From Stdlib Require Import SpecFloat.
From S2P Require Import Prelude Float64 LruCache Endpoint Policy Growth.

(** ** State *)

Record Sampler := {
  sm_core : Core;
  sm_allocation : AllocationPolicy;
  sm_migration : option MigrationPolicy;
  sm_paging : option PagingPolicy;
  sm_caching : option CachingPolicy
}.

Definition set_core (c : Core) (s : Sampler) : Sampler :=
  {| sm_core := c; sm_allocation := sm_allocation s; sm_migration := sm_migration s; sm_paging := sm_paging s; sm_caching := sm_caching s |}.

Definition set_caching (p : option CachingPolicy) (s : Sampler) : Sampler :=
  {| sm_core := sm_core s; sm_allocation := sm_allocation s; sm_migration := sm_migration s; sm_paging := sm_paging s; sm_caching := p |}.

Definition set_migration (p : option MigrationPolicy) (s : Sampler) : Sampler :=
  {| sm_core := sm_core s; sm_allocation := sm_allocation s; sm_migration := p; sm_paging := sm_paging s; sm_caching := sm_caching s |}.

Definition set_placing (a : AllocationPolicy) (p : option PagingPolicy) (s : Sampler) : Sampler :=
  {| sm_core := sm_core s; sm_allocation := a; sm_migration := sm_migration s; sm_paging := p; sm_caching := sm_caching s |}.

Definition set_lru (l : LRUCache) (c : Core) : Core :=
  {| co_tree := co_tree c; co_counter := co_counter c; co_capacity := co_capacity c; co_page_type := co_page_type c;
     co_occupation := co_occupation c; co_last_index := co_last_index c; co_latency_lat := co_latency_lat c;
     co_bandwidth_lat := co_bandwidth_lat c; co_dramlatency := co_dramlatency c; co_ring_buffer := co_ring_buffer c;
     co_thread_map := co_thread_map c; co_lru_cache := l; co_request_counter := co_request_counter c |}.

Definition set_counter (k : CXLCounter) (c : Core) : Core :=
  {| co_tree := co_tree c; co_counter := k; co_capacity := co_capacity c; co_page_type := co_page_type c;
     co_occupation := co_occupation c; co_last_index := co_last_index c; co_latency_lat := co_latency_lat c;
     co_bandwidth_lat := co_bandwidth_lat c; co_dramlatency := co_dramlatency c; co_ring_buffer := co_ring_buffer c;
     co_thread_map := co_thread_map c; co_lru_cache := co_lru_cache c; co_request_counter := co_request_counter c |}.

Definition set_local (m : gmap Z occupation_info) (c : Core) : Core :=
  {| co_tree := co_tree c; co_counter := co_counter c; co_capacity := co_capacity c; co_page_type := co_page_type c;
     co_occupation := m; co_last_index := co_last_index c; co_latency_lat := co_latency_lat c;
     co_bandwidth_lat := co_bandwidth_lat c; co_dramlatency := co_dramlatency c; co_ring_buffer := co_ring_buffer c;
     co_thread_map := co_thread_map c; co_lru_cache := co_lru_cache c; co_request_counter := co_request_counter c |}.

Definition set_lats (lat bw : f64) (c : Core) : Core :=
  {| co_tree := co_tree c; co_counter := co_counter c; co_capacity := co_capacity c; co_page_type := co_page_type c;
     co_occupation := co_occupation c; co_last_index := co_last_index c; co_latency_lat := lat;
     co_bandwidth_lat := bw; co_dramlatency := co_dramlatency c; co_ring_buffer := co_ring_buffer c;
     co_thread_map := co_thread_map c; co_lru_cache := co_lru_cache c; co_request_counter := co_request_counter c |}.

Definition set_threads (ring : list lbr) (m : gmap Z thread_info) (c : Core) : Core :=
  {| co_tree := co_tree c; co_counter := co_counter c; co_capacity := co_capacity c; co_page_type := co_page_type c;
     co_occupation := co_occupation c; co_last_index := co_last_index c; co_latency_lat := co_latency_lat c;
     co_bandwidth_lat := co_bandwidth_lat c; co_dramlatency := co_dramlatency c; co_ring_buffer := ring;
     co_thread_map := m; co_lru_cache := co_lru_cache c; co_request_counter := co_request_counter c |}.

Definition set_index (last_index requests : Z) (c : Core) : Core :=
  {| co_tree := co_tree c; co_counter := co_counter c; co_capacity := co_capacity c; co_page_type := co_page_type c;
     co_occupation := co_occupation c; co_last_index := last_index; co_latency_lat := co_latency_lat c;
     co_bandwidth_lat := co_bandwidth_lat c; co_dramlatency := co_dramlatency c; co_ring_buffer := co_ring_buffer c;
     co_thread_map := co_thread_map c; co_lru_cache := co_lru_cache c; co_request_counter := requests |}.

Definition add_counts (local hitm backinv : Z) (c : Core) : Core :=
  let k := co_counter c in
  set_counter {| ct_local := ct_local k +w local; ct_hitm := ct_hitm k +w hitm; ct_backinv := ct_backinv k +w backinv |} c.

(** [counter.remote] and the tree are in one record. *)
Definition set_switch (sw : CXLSwitch) (st : list CXLMemExpander) (c : Core) : Core :=
  set_tree {| cn_switch := sw; cn_store := st; cn_cur_expanders := cn_cur_expanders (co_tree c); cn_remote := cn_remote (co_tree c) |} c.

Definition inc_remote (c : Core) : Core :=
  let t := co_tree c in
  set_tree {| cn_switch := cn_switch t; cn_store := cn_store t; cn_cur_expanders := cn_cur_expanders t; cn_remote := cn_remote t +w 1 |} c.

Definition set_last_timestamp (ts : Z) (sw : CXLSwitch) : CXLSwitch :=
  match sw with
  | Switch d sws =>
      Switch {| sd_id := sd_id d; sd_expanders := sd_expanders d; sd_counter := sd_counter d; sd_bandwidth_model := sd_bandwidth_model d;
                sd_epoch := sd_epoch d; sd_last_timestamp := ts; sd_congestion_latency := sd_congestion_latency d |} sws
  end.

(** [thread_map[tid]] creates a thread with zero counts. *)
Definition new_thread : thread_info :=
  {| ti_rob := {| ri_m_count := ∅; ri_llcm_base := 0; ri_llcm_count := 0; ri_ins_count := 0 |}; ti_llcm_type := []; ti_llcm_type_rob := [] |}.

Definition thread_of (tid : Z) (c : Core) : thread_info := default new_thread (co_thread_map c !! tid).

(** [t_info.llcm_type.push(n)] *)
Definition push_type (tid n : Z) (c : Core) : Core :=
  let t := thread_of tid c in
  set_threads (co_ring_buffer c)
    (<[tid := {| ti_rob := ti_rob t; ti_llcm_type := ti_llcm_type t ++ [n]; ti_llcm_type_rob := ti_llcm_type_rob t |}]> (co_thread_map c)) c.

(** [std::map::emplace] keeps an entry that is there. *)
Definition emplace (k : Z) (o : occupation_info) (m : gmap Z occupation_info) : gmap Z occupation_info :=
  match m !! k with Some _ => m | None => <[k := o]> m end.

(** ** Back invalidation *)

(** The entries of an address are erased from an expander; their number. *)
Definition erase_all (addr : Z) (e : CXLMemExpander) : Z * CXLMemExpander :=
  let rest := keep (λ o, negb (oi_address o =? addr)) (xp_occupation e) in
  (Z.of_nat (length (xp_occupation e)) - Z.of_nat (length rest), set_occupation rest e).

Definition invalidate_in_expanders (addr : Z) (c : Core) : Core :=
  let '(n, st) := traverse (nothing 0) (erase_all addr) Z.add (cn_switch (co_tree c)) (cn_store (co_tree c)) in
  add_counts 0 0 n (set_switch (cn_switch (co_tree c)) st c).

Fixpoint invalidate_all (l : list Z) (c : Core) : option Core :=
  match l with
  | [] => Some c
  | addr :: l' =>
      '(removed, lru) ← remove (co_lru_cache c) addr;
      let c1 := add_counts 0 0 (if (removed : bool) then 1 else 0) (set_lru lru c) in
      invalidate_all l' (invalidate_in_expanders addr c1)
  end.

Definition perform_back_invalidation (s : Sampler) : option Sampler :=
  match sm_caching s with
  | None => Some s
  | Some p => let '(l, p') := get_invalidation_list p (sm_core s) in
              c ← invalidate_all l (sm_core s); Some (set_caching (Some p') (set_core c s))
  end.

(** ** Migration *)

Definition has_address (addr : Z) (o : occupation_info) : bool := oi_address o =? addr.

(** To the first expander of the controller. *)
Definition move_out (addr : Z) (c : Core) : Core :=
  match sd_expanders (root c), find_first (λ e, has_address addr e.2) (in_order (co_occupation c)) with
  | x :: _, Some (k, info) =>
      let st := alter (λ e, count 0 0 1 0 0 (set_occupation (xp_occupation e ++ [info]) e)) x (cn_store (co_tree c)) in
      set_local (delete k (co_occupation c)) (set_switch (cn_switch (co_tree c)) st c)
  | _, _ => c
  end.

(** The first expander below the controller that has the address. *)
Definition source_of (addr : Z) (c : Core) : option nat :=
  find_first (λ x, match cn_store (co_tree c) !! x with Some e => existsb (has_address addr) (xp_occupation e) | None => false end)
    (sd_expanders (root c) ++ positions (cn_switch (co_tree c))).

Definition move_in (addr : Z) (x : nat) (c : Core) : Core :=
  match cn_store (co_tree c) !! x with
  | None => c
  | Some e =>
      match find_first (has_address addr) (xp_occupation e), erase_first addr (xp_occupation e) with
      | Some info, Some rest =>
          set_local (emplace (co_last_timestamp c) info (co_occupation c))
            (set_switch (cn_switch (co_tree c)) (<[x := set_occupation rest (count 0 0 0 1 0 e)]> (cn_store (co_tree c))) c)
      | _, _ => c
      end
  end.

Definition migrate (addr : Z) (c : Core) : Core :=
  if existsb (λ e, has_address addr e.2) (in_order (co_occupation c)) then move_out addr c
  else match source_of addr c with Some x => move_in addr x c | None => c end.

Definition migrate_list (l : list (Z * Z)) (c : Core) : Core := foldl (λ c e, migrate e.1 c) c l.

Definition perform_migration (s : Sampler) : Sampler :=
  match sm_migration s with
  | None => s
  | Some p => set_core (migrate_list (get_migration_list p (sm_core s)) (sm_core s)) s
  end.

(** ** A memory access *)

Section with_casts_sampler.
Context `{CastUB}.

(** [res &= f(...)]: only an odd result keeps [res]. *)
Definition and_res (res : bool) (ret : Z) : bool := res && Z.odd ret.

(** Every child switch is offered the access. *)
Fixpoint insert_switches (op : CXLSwitch → list CXLMemExpander → Z * CXLSwitch * list CXLMemExpander) (sws : list CXLSwitch) (res : bool)
    (st : list CXLMemExpander) : bool * list CXLSwitch * list CXLMemExpander :=
  match sws with
  | [] => (res, [], st)
  | s :: sws' => let '(ret, s1, st1) := op s st in
                 let '(res2, sws2, st2) := insert_switches op sws' (and_res res ret) st1 in (res2, s1 :: sws2, st2)
  end.

Fixpoint insert_expanders (op : CXLMemExpander → Z * CXLMemExpander) (xs : list nat) (res : bool) (st : list CXLMemExpander)
    : bool * list CXLMemExpander :=
  match xs with
  | [] => (res, st)
  | x :: xs' => match st !! x with
                | None => insert_expanders op xs' res st
                | Some e => let '(ret, e1) := op e in insert_expanders op xs' (and_res res ret) (<[x := e1]> st)
                end
  end.

Definition insert_remote (ts tid phys_addr index : Z) (res : bool) (c : Core) : bool * Core :=
  let '(res1, sws, st1) := insert_switches (sw_insert ts tid phys_addr index) (children c) res (cn_store (co_tree c)) in
  let '(res2, st2) := insert_expanders (insert ts tid phys_addr index) (sd_expanders (root c)) res1 st1 in
  (res2, set_switch (Switch (root c) sws) st2 c).

(** The page-table walk, when there is a paging policy; its latency is added. *)
Definition check_walk (virt_addr phys_addr : Z) (is_remote : bool) (p : option PagingPolicy) (c : Core) : option (Z * option PagingPolicy * Core) :=
  match p with
  | None => Some (0, None, c)
  | Some q => '(lat, q') ← page_walk q virt_addr phys_addr is_remote (co_page_type c);
              Some (lat, Some q', if 0 <? lat then set_lats (co_latency_lat c + f64_of_Z lat)%f64 (co_bandwidth_lat c) c else c)
  end.

Definition update_cache (addr ts : Z) (c : Core) : option Core := l ← put (co_lru_cache c) addr addr ts; Some (set_lru l c).

(** [occupation_info{phys_addr, 1, ts}]: the fields are timestamp, address and
    access count, in this order. *)
Definition access_local (ts ptw tid phys_addr : Z) (c : Core) : option Core :=
  let o := {| oi_timestamp := phys_addr; oi_address := 1; oi_access_count := ts +w ptw |} in
  update_cache phys_addr ts (push_type tid 0 (add_counts 1 0 0 (set_local (emplace ts o (co_occupation c)) c))).

Definition access_remote (ts ptw tid phys_addr index : Z) (res : bool) (s : Sampler) : option (bool * Sampler) :=
  let '(res', c1) := insert_remote (ts +w ptw) tid phys_addr index res (inc_remote (sm_core s)) in
  let c2 := push_type tid 1 c1 in
  match sm_caching s with
  | None => None
  | Some p => let '(b, p') := should_cache p phys_addr in
              c3 ← (if (b : bool) then update_cache phys_addr ts c2 else Some c2);
              Some (res', set_caching (Some p') (set_core c3 s))
  end.

(** One turn of the loop of [insert]. *)
Definition access (ts tid phys_addr virt_addr : Z) (res : bool) (s : Sampler) : option (bool * Sampler) :=
  '(cached, lru) ← get (co_lru_cache (sm_core s)) phys_addr ts;
  let c := set_lru lru (sm_core s) in
  match cached with
  | Some _ => Some (res, set_core (push_type tid 0 (add_counts 0 1 0 c)) s)
  | None =>
      '(index, a) ← allocate (sm_allocation s) c;
      '(ptw, p, c1) ← check_walk virt_addr phys_addr (negb (index =? -1)) (sm_paging s) c;
      let s1 := set_placing a p (set_core c1 s) in
      if index =? -1 then c2 ← access_local ts ptw tid phys_addr c1; Some (res, set_core c2 s1)
      else access_remote ts ptw tid phys_addr index res s1
  end.

Fixpoint accesses (n : nat) (step now tid phys_addr virt_addr : Z) (res : bool) (s : Sampler) : option (bool * Sampler) :=
  match n with
  | O => Some (res, s)
  | S n' => let now' := now +w step in
            '(res', s') ← access now' tid phys_addr virt_addr res s; accesses n' step now' tid phys_addr virt_addr res' s'
  end.

Definition positive (r : Z) : bool := 0 <? r.

(** Every thousand requests. *)
Definition run_migration (s : Sampler) : Sampler :=
  match sm_migration s with
  | None => s
  | Some p => let '(r, p') := migrate_once p (sm_core s) in
              let s1 := set_migration (Some p') s in if positive r then perform_migration s1 else s1
  end.

Definition run_caching (s : Sampler) : option Sampler :=
  match sm_caching s with
  | None => Some s
  | Some p => '(r, p', lru) ← cache_once p (sm_core s);
              let s1 := set_caching (Some p') (set_core (set_lru lru (sm_core s)) s) in
              if positive r then perform_back_invalidation s1 else Some s1
  end.

Definition insert_sample (timestamp tid phys_addr virt_addr index : Z) (s : Sampler) : option (bool * Sampler) :=
  let c := sm_core s in
  let c0 := set_threads (co_ring_buffer c) (<[tid := thread_of tid c]> (co_thread_map c)) c in
  let n := index - co_last_index c in
  let step := if 0 <? n then (timestamp -w co_last_timestamp c) / n else 0 in
  '(res, s1) ← accesses (Z.to_nat n) step (co_last_timestamp c) tid phys_addr virt_addr true (set_core c0 s);
  let requests := co_request_counter (sm_core s1) + n in
  s2 ← (if 1000 <=? requests then run_caching (run_migration s1) else Some s1);
  let c2 := sm_core s2 in
  let c3 := set_index (if 0 <? index then index else co_last_index c2) (if 1000 <=? requests then 0 else requests) c2 in
  Some (res, set_core (set_switch (set_last_timestamp timestamp (cn_switch (co_tree c3))) (cn_store (co_tree c3)) c3) s2).

End with_casts_sampler.

(** ** Branch records *)

Definition ROB_SIZE : Z := 512.

(** [LBR_DATA_MASK] and [LBR_INS_MASK] *)
Definition llcm_of (l : lbr) : Z := Z.shiftr (Z.land (lb_flags l) 3) 0.
Definition ins_of (l : lbr) : Z := Z.shiftr (Z.land (lb_flags l) 0xfffffff0000) 16.

(** [m_count[k] += n] *)
Definition add_type (k n : Z) (m : gmap Z Z) : gmap Z Z := <[k := default 0 (m !! k) + n]> m.

Definition set_window (m : gmap Z Z) (base llcm ins : Z) (t : thread_info) : thread_info :=
  {| ti_rob := {| ri_m_count := m; ri_llcm_base := base; ri_llcm_count := llcm; ri_ins_count := ins |};
     ti_llcm_type := ti_llcm_type t; ti_llcm_type_rob := ti_llcm_type_rob t |}.

Definition set_types (types in_rob : list Z) (t : thread_info) : thread_info :=
  {| ti_rob := ti_rob t; ti_llcm_type := types; ti_llcm_type_rob := in_rob |}.

(** The misses of a record take the types of the oldest accesses, 0 if there is none. *)
Fixpoint enter_types (n : nat) (t : thread_info) : thread_info :=
  match n with
  | O => t
  | S n' =>
      let '(k, rest) := match ti_llcm_type t with [] => (0, []) | k :: rest => (k, rest) end in
      let r := ti_rob t in
      enter_types n' (set_types rest (ti_llcm_type_rob t ++ [k])
        (set_window (add_type k 1 (ri_m_count r)) (ri_llcm_base r) (ri_llcm_count r) (ri_ins_count r) t))
  end.

Fixpoint leave_types (n : nat) (t : thread_info) : option thread_info :=
  match n with
  | O => Some t
  | S n' =>
      match ti_llcm_type_rob t with
      | [] => None
      | k :: rest =>
          let r := ti_rob t in
          leave_types n' (set_types (ti_llcm_type t) rest
            (set_window (add_type k (-1) (ri_m_count r)) (ri_llcm_base r) (ri_llcm_count r) (ri_ins_count r) t))
      end
  end.

(** The oldest records of the ring buffer leave while the window is too large. *)
Fixpoint shrink (ring : list lbr) (t : thread_info) : option (list lbr * thread_info) :=
  if ROB_SIZE <? ri_ins_count (ti_rob t) then
    match ring with
    | [] => None
    | l :: ring' =>
        let r := ti_rob t in
        t' ← leave_types (Z.to_nat (llcm_of l))
               (set_window (ri_m_count r) (ri_llcm_base r + llcm_of l) (ri_llcm_count r - llcm_of l) (ri_ins_count r - ins_of l) t);
        shrink ring' t'
    end
  else Some (ring, t).

Definition insert_one (l : lbr) (ring : list lbr) (t : thread_info) : option (list lbr * thread_info) :=
  let t1 := enter_types (Z.to_nat (llcm_of l)) t in
  let r := ti_rob t1 in
  shrink (ring ++ [l]) (set_window (ri_m_count r) (ri_llcm_base r) (ri_llcm_count r + llcm_of l) (ri_ins_count r + ins_of l) t1).

(** The records up to the first whose [from] is zero. *)
Fixpoint insert_records (tid : Z) (lbrs : list lbr) (c : Core) : option Core :=
  match lbrs with
  | [] => Some c
  | l :: lbrs' =>
      if lb_from l =? 0 then Some c
      else '(ring, t) ← insert_one l (co_ring_buffer c) (thread_of tid c);
           insert_records tid lbrs' (set_threads ring (<[tid := t]> (co_thread_map c)) c)
  end.

(** ** Latency of an endpoint *)

Definition remote_ratio (m : gmap Z Z) : f64 :=
  match m !! 0, m !! 1 with
  | Some local, Some remote => if 0 <? local + remote then (f64_of_Z remote / f64_of_Z (local + remote))%f64 else f0
  | _, _ => f0
  end.

Definition llc_miss_ratio (r : rob_info) : f64 :=
  if 0 <? ri_ins_count r then (f64_of_Z (ri_llcm_count r) / f64_of_Z (ri_ins_count r))%f64 else f0.

(** What one access costs. *)
Definition rob_access (r : rob_info) (base dramlatency : f64) : f64 :=
  let l1 := if fle (f64_of_Z ROB_SIZE * flit 8 10)%f64 (f64_of_Z (ri_ins_count r))
            then (base * (f1 + llc_miss_ratio r * flit 1 2))%f64 else base in
  let l2 := match ri_m_count r !! 1 with
            | Some n => if 0 <? n then (l1 * (f1 + remote_ratio (ri_m_count r) * flit 3 10))%f64 else l1
            | None => l1
            end in
  (l2 + dramlatency * (remote_ratio (ri_m_count r) + flit 1 10))%f64.

(** The accesses that the endpoint has are skipped. *)
Fixpoint rob_loop (accesses : list (Z * Z)) (r : rob_info) (base dramlatency total : f64) (n : Z) (e : CXLMemExpander) : f64 * Z * CXLMemExpander :=
  match accesses with
  | [] => (total, n, e)
  | (_, addr) :: l =>
      match is_address_local addr e with
      | (true, e1) => rob_loop l r base dramlatency total n e1
      | (false, e1) => rob_loop l r base dramlatency (total + rob_access r base dramlatency)%f64 (n + 1) e1
      end
  end.

Definition get_endpoint_rob_latency (accesses : list (Z * Z)) (t : thread_info) (dramlatency : f64) (e : CXLMemExpander) : f64 * CXLMemExpander :=
  let base := ((xp_latency_read e + xp_latency_write e) / f64_of_Z 2)%f64 in
  let '(total, n, e1) := rob_loop accesses (ti_rob t) base dramlatency f0 0 (update_address_cache e) in
  (if 0 <? n then (total / f64_of_Z n)%f64 else f0, e1).

(** ** Congestion *)

(** The scan of the sorted timestamps: a timestamp close to the next one is replaced
    by the last, which leaves the list; the conflicts are counted. *)
Fixpoint scan (fuel : nat) (before rest : list Z) (conflicts : nat) : nat * list Z :=
  match fuel, rest with
  | S fuel', a :: b :: rest' =>
      if b -w a <? 2000 then scan fuel' before (default b (last (b :: rest')) :: removelast (b :: rest')) (S conflicts)
      else scan fuel' (before ++ [a]) (b :: rest') conflicts
  | _, _ => (conflicts, before ++ rest)
  end.

Definition access_le (a b : Z * bool) : Prop := a.1 < b.1 ∨ a.1 = b.1 ∧ (a.2 = false ∨ b.2 = true).

#[global] Instance access_le_dec : RelDecision access_le.
Proof. intros a b. unfold access_le. apply _. Defined.

(** Accesses of one address: read after read, read and write, write after write. *)
Fixpoint address_conflicts (congestion_latency : f64) (l : list (Z * bool)) (latency : f64) (conflicts : nat) : f64 * nat :=
  match l with
  | a :: ((b :: _) as l') =>
      if b.1 -w a.1 <? 2000 then
        if a.2 || b.2 then address_conflicts congestion_latency l' (latency + congestion_latency * (if a.2 && b.2 then f64_of_Z 2 else flit 3 2))%f64 (S conflicts)
        else address_conflicts congestion_latency l' (latency + congestion_latency * flit 1 2)%f64 conflicts
      else address_conflicts congestion_latency l' latency conflicts
  | _ => (latency, conflicts)
  end.

(** The entries of the expanders of a switch that are newer than the epoch. *)
Definition recent (d : SwitchData) (st : list CXLMemExpander) : list occupation_info :=
  let current_time := u64 (sd_last_timestamp d - sd_epoch d * 1000) in
  keep (λ o, current_time <? oi_timestamp o) (omap (λ x, st !! x) (sd_expanders d) ≫= xp_occupation).

Definition by_address (l : list occupation_info) : gmap Z (list (Z * bool)) :=
  foldl (λ m o, <[oi_address o := default [] (m !! oi_address o) ++ [(oi_timestamp o, oi_access_count o =? 0)]]> m) ∅ l.

Definition inc_conflicts (n : nat) (d : SwitchData) : SwitchData :=
  let k := sd_counter d in
  {| sd_id := sd_id d; sd_expanders := sd_expanders d;
     sd_counter := {| se_load := se_load k; se_store := se_store k; se_conflict := se_conflict k +w Z.of_nat n |};
     sd_bandwidth_model := sd_bandwidth_model d; sd_epoch := sd_epoch d; sd_last_timestamp := sd_last_timestamp d;
     sd_congestion_latency := sd_congestion_latency d |}.

(** The switch itself, after its children gave a latency and timestamps. *)
Definition own_congestion (d : SwitchData) (st : list CXLMemExpander) (latency : f64) (timestamps : list Z) : f64 * list Z * SwitchData :=
  let mine := recent d st in
  let sorted := merge_sort Z.le (timestamps ++ (oi_timestamp <$> mine)) in
  let '(n, rest) := scan (length sorted) [] sorted 0 in
  let latency1 := Nat.iter n (λ x, x + sd_congestion_latency d)%f64 latency in
  let '(latency2, n2) := foldl (λ acc e, address_conflicts (sd_congestion_latency d) (merge_sort access_le e.2) acc.1 acc.2) (latency1, n)
    (map_to_list (by_address mine)) in
  (latency2, rest, inc_conflicts n2 d).

Fixpoint calculate_congestion (sw : CXLSwitch) (st : list CXLMemExpander) : f64 * list Z * CXLSwitch :=
  match sw with
  | Switch d sws =>
      let '(latency, timestamps, sws') := (fix go (l : list CXLSwitch) (latency : f64) (timestamps : list Z) : f64 * list Z * list CXLSwitch :=
        match l with
        | [] => (latency, timestamps, [])
        | s :: l' => let '(lat, con, s') := calculate_congestion s st in
                     let '(latency', timestamps', l2) := go l' (latency + lat)%f64 (timestamps ++ con) in (latency', timestamps', s' :: l2)
        end) sws f0 [] in
      let '(latency', rest, d') := own_congestion d st latency timestamps in (latency', rest, Switch d' sws')
  end.

(** ** A sample of branch records *)

(** The latencies of what the controller has seen so far. *)
Definition account `{CastUB} (timestamp : Z) (t : thread_info) (c : Core) : Core :=
  let sw := cn_switch (co_tree c) in
  let '(all_access, st1) := sw_get_access timestamp sw (cn_store (co_tree c)) in
  let '(total, st2) := each_expander (get_endpoint_rob_latency all_access t (co_dramlatency c)) fadd (positions sw) f0 st1 in
  let '(congestion, _, sw') := calculate_congestion sw st2 in
  let '(bandwidth, st3) := sw_calculate_bandwidth all_access sw' st2 in
  set_lats (co_latency_lat c + fmax (total + congestion) f0)%f64 (co_bandwidth_lat c + fmax bandwidth f0)%f64 (set_switch sw' st3 c).

Definition insert_lbrs `{CastUB} (timestamp tid : Z) (lbrs : list lbr) (c : Core) : option Core :=
  c1 ← insert_records tid lbrs c;
  let t := thread_of tid c1 in
  Some (account timestamp t (set_threads (co_ring_buffer c1) (<[tid := t]> (co_thread_map c1)) c1)).

(** ** Lemmas: the tree *)

(** A traversal that changes every expander below a switch by an idempotent function. *)
Section idempotent.
Context {A : Type} (op : CXLMemExpander → A * CXLMemExpander) (add : A → A → A) (zero : A).
Context (Hidem : ∀ e, (op (op e).2).2 = (op e).2).

Definition changed (xs : list nat) (x : nat) (e : CXLMemExpander) : CXLMemExpander := if decide (x ∈ xs) then (op e).2 else e.

Lemma changed_app xs ys x e : changed (xs ++ ys) x e = changed ys x (changed xs x e).
Proof.
  unfold changed. repeat case_decide; try done; rewrite ?Hidem; try done; set_solver.
Qed.

Lemma changed_cons y xs x e : changed (y :: xs) x e = changed xs x (changed [y] x e).
Proof. exact (changed_app [y] xs x e). Qed.

Lemma each_changed xs : ∀ acc st x, (each_expander op add xs acc st).2 !! x = changed xs x <$> st !! x.
Proof.
  induction xs as [|y xs IH]; intros acc st x; cbn [each_expander snd].
  { destruct (st !! x); [|done]. simpl. unfold changed. by rewrite decide_False by set_solver. }
  destruct (st !! y) as [e|] eqn:E.
  - destruct (op e) as [a e'] eqn:Eo. rewrite IH. destruct (decide (x = y)) as [->|Hne].
    + rewrite list_lookup_insert_eq by (by eapply lookup_lt_Some). rewrite E. simpl. rewrite changed_cons. do 2 f_equal.
      unfold changed. rewrite decide_True by set_solver. by rewrite Eo.
    + rewrite list_lookup_insert_ne by done. destruct (st !! x) as [e1|]; [|done]. simpl. rewrite changed_cons. do 2 f_equal.
      unfold changed. by rewrite decide_False by set_solver.
  - rewrite IH. destruct (st !! x) as [e1|] eqn:Ex; [|done]. simpl. rewrite changed_cons. do 2 f_equal.
    unfold changed. rewrite decide_False; [done|]. intros ->%list_elem_of_singleton. congruence.
Qed.

Lemma traverse_changed sw : ∀ st x, (traverse (nothing zero) op add sw st).2 !! x = changed (positions sw) x <$> st !! x.
Proof.
  induction sw as [d sws IH] using switch_nested_ind. intros st x. cbn [traverse positions nothing].
  destruct (each_expander op add (sd_expanders d) zero st) as [a1 st1] eqn:E1.
  pose proof (each_changed (sd_expanders d) zero st x) as H1. rewrite E1 in H1. simpl in H1.
  assert (changed (sd_expanders d ++ concat (List.map positions sws)) x <$> st !! x = changed (concat (List.map positions sws)) x <$> st1 !! x) as ->.
  { rewrite H1. destruct (st !! x); [|done]. simpl. by rewrite changed_app. }
  clear H1 E1 st. revert a1 st1. induction IH as [|s sws Hs _ IHs]; intros acc st.
  { cbn [snd]. destruct (st !! x); [|done]. simpl. unfold changed. by rewrite decide_False by set_solver. }
  cbn [List.map concat]. specialize (Hs st x). destruct (traverse _ op add s st) as [a st'] eqn:Es. simpl in Hs.
  rewrite IHs, Hs. destruct (st !! x); [|done]. simpl. by rewrite changed_app.
Qed.

End idempotent.

(** Operations that leave the number of expanders and the shape of the tree. *)
Lemma each_length {A} (op : CXLMemExpander → A * CXLMemExpander) add xs : ∀ acc st, length (each_expander op add xs acc st).2 = length st.
Proof.
  induction xs as [|x xs IH]; intros acc st; cbn [each_expander]; [done|]. destruct (st !! x); [|done].
  destruct (op _). rewrite IH. apply length_insert.
Qed.

Lemma traverse_length {A} (own : SwitchData → CXLSwitch → list CXLMemExpander → A * list CXLMemExpander) op add sw :
  (∀ d s st, length (own d s st).2 = length st) → ∀ st, length (traverse own op add sw st).2 = length st.
Proof.
  intros Hown. induction sw as [d sws IH] using switch_nested_ind. intros st. cbn [traverse].
  pose proof (Hown d (Switch d sws) st) as H0. destruct (own d (Switch d sws) st) as [a0 st0]. simpl in H0.
  pose proof (each_length op add (sd_expanders d) a0 st0) as H1. destruct (each_expander _ _ _ _ _) as [a1 st1]. simpl in H1.
  rewrite <- H0, <- H1. clear H0 H1 st st0 a0. revert a1 st1. induction IH as [|s sws Hs _ IHs]; intros acc st; [done|].
  specialize (Hs st). destruct (traverse own op add s st) as [a st']. simpl in Hs. rewrite IHs. done.
Qed.

Lemma offer_expanders_length op xs : ∀ st, length (offer_expanders op xs st).2 = length st.
Proof.
  induction xs as [|x xs IH]; intros st; cbn [offer_expanders]; [done|]. destruct (st !! x); [|done].
  destruct (op _). destruct (accepted _); [|rewrite IH]; apply length_insert.
Qed.

Lemma offer_length op sw : ∀ st, length (offer op sw st).2 = length st.
Proof.
  induction sw as [d sws IH] using switch_nested_ind. intros st. cbn [offer].
  pose proof (offer_expanders_length op (sd_expanders d) st) as H1. destruct (offer_expanders _ _ _) as [ret st1]. simpl in H1.
  destruct (accepted ret); [done|]. rewrite <- H1. clear H1 st ret.
  enough (length (offer_list (offer op) sws st1).2 = length st1) as Hl by (by destruct (offer_list _ _ _) as [[??]?]).
  revert st1. induction IH as [|s sws Hs _ IHs]; intros st; [done|]. cbn [offer_list].
  specialize (Hs st). destruct (offer op s st) as [[r s'] st']. simpl in Hs. destruct (accepted r); [done|].
  specialize (IHs st'). destruct (offer_list _ _ _) as [[??]?]. simpl in *. lia.
Qed.

Lemma insert_switches_length op sws res : (∀ s st, length (op s st).2 = length st) → ∀ st, length (insert_switches op sws res st).2 = length st.
Proof.
  intros Hop. revert res. induction sws as [|s sws IH]; intros res st; cbn [insert_switches]; [done|].
  specialize (Hop s st). destruct (op s st) as [[r s'] st']. simpl in Hop. specialize (IH (and_res res r) st').
  destruct (insert_switches _ _ _ _) as [[??]?]. simpl in *. lia.
Qed.

Lemma insert_expanders_length op xs : ∀ res st, length (insert_expanders op xs res st).2 = length st.
Proof.
  induction xs as [|x xs IH]; intros res st; cbn [insert_expanders]; [done|]. destruct (st !! x); [|done].
  destruct (op _). rewrite IH. apply length_insert.
Qed.

(** ** Lemmas: back invalidation *)

Definition erased (addr : Z) (e : CXLMemExpander) : CXLMemExpander := (erase_all addr e).2.

Lemma keep_idemp {A} (f : A → bool) l : keep f (keep f l) = keep f l.
Proof. apply keep_all. by intros x [Hx _]%elem_of_keep. Qed.

Lemma erased_idemp addr e : erased addr (erased addr e) = erased addr e.
Proof. unfold erased, erase_all. cbn [snd]. change (xp_occupation (set_occupation ?l e)) with l. by rewrite keep_idemp. Qed.

(** The number of entries in the expanders. *)
Definition entries (st : list CXLMemExpander) : Z := zsum ((λ e, Z.of_nat (length (xp_occupation e))) <$> st).

Lemma zsum_insert l i x y : l !! i = Some x → zsum (<[i := y]> l) = zsum l - x + y.
Proof.
  revert i. induction l as [|a l IH]; intros [|i] Hi; simplify_eq/=; [lia|]. rewrite (IH _ Hi). lia.
Qed.

Lemma entries_insert st x e e' :
  st !! x = Some e → entries (<[x := e']> st) = entries st - Z.of_nat (length (xp_occupation e)) + Z.of_nat (length (xp_occupation e')).
Proof. intros Hx. unfold entries. rewrite list_fmap_insert. apply zsum_insert. by rewrite list_lookup_fmap, Hx. Qed.

Lemma each_erased addr xs : ∀ acc st,
  let '(n, st') := each_expander (erase_all addr) Z.add xs acc st in n = acc + entries st - entries st'.
Proof.
  induction xs as [|x xs IH]; intros acc st; cbn [each_expander]; [lia|]. destruct (st !! x) as [e|] eqn:E; [|apply IH].
  unfold erase_all at 1. match goal with |- context [each_expander _ _ xs ?a ?s] => specialize (IH a s) end.
  destruct (each_expander _ _ _ _ _) as [n st']. rewrite (entries_insert _ _ _ _ E) in IH.
  change (xp_occupation (set_occupation ?l e)) with l in IH. lia.
Qed.

Lemma traverse_erased addr sw : ∀ st,
  let '(n, st') := traverse (nothing 0) (erase_all addr) Z.add sw st in n = entries st - entries st'.
Proof.
  induction sw as [d sws IH] using switch_nested_ind. intros st. cbn [traverse nothing].
  pose proof (each_erased addr (sd_expanders d) 0 st) as H1. destruct (each_expander _ _ _ _ _) as [a1 st1].
  assert (a1 = entries st - entries st1) as Ha by lia. clear H1. revert a1 st1 Ha.
  induction IH as [|s sws Hs _ IHs]; intros acc st1 Ha; [lia|].
  specialize (Hs st1). destruct (traverse _ _ _ s st1) as [a st']. apply IHs. lia.
Qed.

(** What an invalidation changes: the cache, the expanders and the counter of back
    invalidations. *)
Definition invalidated (c c' : Core) : Prop :=
  ∃ lru st k, c' = set_counter k (set_lru lru (set_switch (cn_switch (co_tree c)) st c)) ∧
    length st = length (cn_store (co_tree c)) ∧
    u64 (ct_local k) = u64 (ct_local (co_counter c)) ∧ u64 (ct_hitm k) = u64 (ct_hitm (co_counter c)).

Lemma invalidated_refl c : invalidated c c.
Proof. exists (co_lru_cache c), (cn_store (co_tree c)), (co_counter c). split_and!; try done. by destruct c as [[]]. Qed.

Lemma invalidated_trans c1 c2 c3 : invalidated c1 c2 → invalidated c2 c3 → invalidated c1 c3.
Proof.
  intros (l1 & st1 & k1 & -> & H1 & Hl1 & Hh1) (l2 & st2 & k2 & -> & H2 & Hl2 & Hh2). exists l2, st2, k2. simpl in *.
  split_and!; [reflexivity|congruence..].
Qed.

(** The entries of an expander after the addresses of a list were invalidated. *)
Definition without_all (l : list Z) (occ : list occupation_info) : list occupation_info :=
  keep (λ o, negb (existsb (Z.eqb (oi_address o)) l)) occ.

Lemma keep_keep {A} (f g : A → bool) l : keep f (keep g l) = keep (λ x, g x && f x) l.
Proof.
  induction l as [|x l IH]; [done|]. rewrite !keep_cons. destruct (g x); [|done]. rewrite keep_cons, IH. done.
Qed.

Lemma keep_ext {A} (f g : A → bool) l : (∀ x, f x = g x) → keep f l = keep g l.
Proof. intros Hfg. induction l as [|x l IH]; [done|]. by rewrite !keep_cons, Hfg, IH. Qed.

Lemma without_all_cons a l occ : without_all (a :: l) occ = without_all l (keep (λ o, negb (oi_address o =? a)) occ).
Proof. unfold without_all. rewrite keep_keep. apply keep_ext. intros o. apply negb_orb. Qed.

Lemma without_all_nil occ : without_all [] occ = occ.
Proof. by apply keep_all. Qed.

Definition cached_entries (c : Core) : Z := lru_size (co_lru_cache c).

Record invalidation (l : list Z) (c c' : Core) : Prop := {
  iv_frame : invalidated c c';
  iv_lru : lru_ok (co_lru_cache c');
  iv_recency : recency (co_lru_cache c') = foldl (λ r a, spec_drop a r) (recency (co_lru_cache c)) l;
  iv_store x e : cn_store (co_tree c) !! x = Some e → ∃ e', cn_store (co_tree c') !! x = Some e' ∧
    xp_occupation e' = (if decide (x ∈ positions (cn_switch (co_tree c))) then without_all l (xp_occupation e) else xp_occupation e);
  iv_count : u64 (ct_backinv (co_counter c')) = ct_backinv (co_counter c) +w
    (cached_entries c - cached_entries c' + entries (cn_store (co_tree c)) - entries (cn_store (co_tree c')))
}.

Lemma invalidation_nil c : lru_ok (co_lru_cache c) → invalidation [] c c.
Proof.
  intros Hok. split; try done; [apply invalidated_refl| |].
  - intros x e Hx. exists e. split; [done|]. case_decide; [|done]. by rewrite without_all_nil.
  - f_equal. lia.
Qed.

Lemma invalidation_cons a l c c1 c' : invalidation [a] c c1 → invalidation l c1 c' → invalidation (a :: l) c c'.
Proof.
  intros [Hf1 _ Hr1 Hs1 Hn1] [Hf2 Hl2 Hr2 Hs2 Hn2]. pose proof Hf1 as (lru & st & k & Hc1 & _).
  split; try done; [by eapply invalidated_trans|by rewrite Hr2, Hr1| |].
  - intros x e Hx. destruct (Hs1 x e Hx) as (e1 & Hx1 & Ho1). destruct (Hs2 x e1 Hx1) as (e2 & Hx2 & Ho2). exists e2. split; [done|].
    rewrite Ho2, Ho1. assert (cn_switch (co_tree c1) = cn_switch (co_tree c)) as -> by (by subst c1).
    destruct (decide _); [|done]. by rewrite !without_all_cons, without_all_nil.
  - rewrite Hn2. unfold u64 in *. rewrite <- Zplus_mod_idemp_l, Hn1, Zplus_mod_idemp_l. f_equal. lia.
Qed.

Lemma lru_size_recency c : lru_ok c → lru_size c = Z.of_nat (length (recency c)).
Proof. intros Hok. rewrite lru_size_keys by done. unfold recency. by rewrite length_fmap. Qed.

(** A key that is dropped was there once or not at all. *)
Lemma drop_length a (l : spec) : NoDup l.*1 →
  Z.of_nat (length (spec_drop a l)) = Z.of_nat (length l) - (if bool_decide (a ∈ l.*1) then 1 else 0).
Proof.
  intros Hnd. rewrite <- !(length_fmap fst), spec_drop_fst. case_bool_decide as Ha.
  - pose proof (without_length a _ Hnd Ha). lia.
  - rewrite without_notin by done. lia.
Qed.

Lemma recency_keys c : (recency c).*1 = il_keys (lc_lru c).
Proof. unfold recency. rewrite <- list_fmap_compose. rewrite (list_fmap_ext _ id); [apply list_fmap_id|done]. Qed.

Lemma invalidation_one a c : lru_ok (co_lru_cache c) →
  ∃ lru, remove (co_lru_cache c) a = Some (contains (co_lru_cache c) a, lru) ∧
    invalidation [a] c (invalidate_in_expanders a (add_counts 0 0 (if contains (co_lru_cache c) a then 1 else 0) (set_lru lru c))).
Proof.
  intros Hok. destruct (remove_ok _ a Hok) as (lru & Hr & Hok' & _ & Hrec). exists lru. split; [done|].
  unfold invalidate_in_expanders. cbn [add_counts set_counter set_lru co_tree]. set (sw := cn_switch (co_tree c)). set (st := cn_store (co_tree c)).
  pose proof (traverse_erased a sw st) as Hn.
  pose proof (traverse_length (nothing 0) (erase_all a) Z.add sw ltac:(done) st) as Hlen.
  pose proof (traverse_changed (erase_all a) Z.add 0 (erased_idemp a) sw st) as Hst.
  destruct (traverse _ _ _ sw st) as [n st']. simpl in Hlen, Hst.
  split; try done.
  - eexists lru, st', _. split_and!; [reflexivity|done|..]; simpl; rewrite !u64_idemp, ?Z.add_0_r; apply u64_idemp.
  - intros x e Hx. fold st in Hx. exists (changed (erase_all a) (positions sw) x e). simpl. rewrite Hst, Hx. split; [done|].
    unfold changed. fold sw. case_decide; [|done]. by rewrite without_all_cons, without_all_nil.
  - unfold cached_entries. cbn [add_counts set_lru co_counter set_switch set_tree set_counter co_tree cn_store co_lru_cache ct_backinv].
    rewrite (lru_size_recency _ Hok), (lru_size_recency lru Hok'), Hrec, drop_length, recency_keys by (by apply recency_nodup).
    fold st. unfold u64. rewrite Zmod_mod, Zplus_mod_idemp_l. f_equal. rewrite Hn.
    assert (contains (co_lru_cache c) a = bool_decide (a ∈ il_keys (lc_lru (co_lru_cache c)))) as ->
      by (apply bool_decide_ext; apply Hok). case_bool_decide; lia.
Qed.

Lemma invalidate_all_spec l : ∀ c, lru_ok (co_lru_cache c) → ∃ c', invalidate_all l c = Some c' ∧ invalidation l c c'.
Proof.
  induction l as [|a l IH]; intros c Hok; [exists c; split; [done|by apply invalidation_nil]|].
  cbn [invalidate_all]. destruct (invalidation_one a c Hok) as (lru & -> & Hone). cbn [mbind option_bind].
  destruct (IH _ (iv_lru _ _ _ Hone)) as (c' & -> & Hl). exists c'. split; [done|]. by eapply invalidation_cons.
Qed.

(** ** Lemmas: migration *)

(** The entries of the local memory and of the expanders. *)
Definition all_entries (c : Core) : list occupation_info := (map_to_list (co_occupation c)).*2 ++ (cn_store (co_tree c) ≫= xp_occupation).

Lemma bind_insert {A B} (f : A → list B) (l : list A) x a b :
  l !! x = Some a → ∃ rest, l ≫= f ≡ₚ f a ++ rest ∧ <[x := b]> l ≫= f ≡ₚ f b ++ rest.
Proof.
  intros Hx. exists ((take x l ≫= f) ++ (drop (S x) l ≫= f)).
  rewrite insert_take_drop by (by eapply lookup_lt_Some). rewrite <- (take_drop_middle l x a Hx) at 1.
  rewrite !bind_app, !bind_cons. split; rewrite !(assoc (++)); by rewrite (comm (++) (take x l ≫= f)).
Qed.

Lemma list_alter_insert {A} (f : A → A) (l : list A) x a : l !! x = Some a → alter f x l = <[x := f a]> l.
Proof. revert x. induction l as [|b l IH]; intros [|x] Hx; simplify_eq/=; [done|]. f_equal. by apply IH. Qed.

Lemma erase_first_split addr l info rest :
  find_first (has_address addr) l = Some info → erase_first addr l = Some rest → l ≡ₚ info :: rest.
Proof.
  revert rest. induction l as [|o l IH]; intros rest Hf He; [done|]. cbn [find_first erase_first] in *.
  unfold has_address at 1 in Hf. destruct (oi_address o =? addr); [by simplify_eq|].
  destruct (erase_first addr l) as [r|]; simplify_eq/=. rewrite (IH r) by done. by apply Permutation_swap.
Qed.

Lemma in_order_elem m k o : (k, o) ∈ in_order m ↔ m !! k = Some o.
Proof. unfold in_order. by rewrite merge_sort_Permutation, elem_of_map_to_list. Qed.

Lemma move_out_conserves addr c :
  Forall (λ x, (x < length (cn_store (co_tree c)))%nat) (sd_expanders (root c)) → all_entries (move_out addr c) ≡ₚ all_entries c.
Proof.
  intros Hxs. unfold move_out. destruct (sd_expanders (root c)) as [|x xs]; [done|]. apply Forall_cons in Hxs as [Hx _].
  destruct (find_first _ _) as [[k info]|] eqn:Ef; [|done]. apply find_first_Some in Ef as [Hin _]. apply in_order_elem in Hin.
  apply lookup_lt_is_Some in Hx as [e He]. unfold all_entries. cbn [set_local set_switch set_tree co_occupation co_tree cn_store].
  rewrite (list_alter_insert _ _ _ _ He).
  destruct (bind_insert xp_occupation _ x e (count 0 0 1 0 0 (set_occupation (xp_occupation e ++ [info]) e)) He) as (rest & H1 & H2).
  rewrite H1, H2. rewrite <- (insert_delete_id _ _ _ Hin) at 2. rewrite map_to_list_insert by apply lookup_delete_eq.
  rewrite fmap_cons. simpl. rewrite <- (assoc (++)). simpl. rewrite (assoc (++)). by rewrite <- Permutation_middle, <- (assoc (++)).
Qed.

Lemma move_in_conserves addr x c :
  co_occupation c !! co_last_timestamp c = None → all_entries (move_in addr x c) ≡ₚ all_entries c.
Proof.
  intros Hfree. unfold move_in. destruct (cn_store (co_tree c) !! x) as [e|] eqn:He; [|done].
  destruct (find_first _ _) as [info|] eqn:Ef; [|done]. destruct (erase_first _ _) as [rest|] eqn:Ee; [|done].
  pose proof (erase_first_split _ _ _ _ Ef Ee) as Hs. unfold all_entries. cbn [set_local set_switch set_tree co_occupation co_tree cn_store].
  unfold emplace. rewrite Hfree. rewrite map_to_list_insert by done.
  destruct (bind_insert xp_occupation _ x e (set_occupation rest (count 0 0 0 1 0 e)) He) as (others & H1 & H2).
  rewrite H1, H2, Hs. simpl. by rewrite <- Permutation_middle.
Qed.

Lemma migrate_all_entries addr c :
  Forall (λ x, (x < length (cn_store (co_tree c)))%nat) (sd_expanders (root c)) → co_occupation c !! co_last_timestamp c = None →
  all_entries (migrate addr c) ≡ₚ all_entries c.
Proof.
  intros Hxs Hfree. unfold migrate. destruct (existsb _ _); [by apply move_out_conserves|].
  destruct (source_of addr c); [by apply move_in_conserves|done].
Qed.

(** ** Lemmas: the window of branch records *)

Definition sum_ins (ring : list lbr) : Z := zsum (ins_of <$> ring).
Definition sum_llcm (ring : list lbr) : Z := zsum (llcm_of <$> ring).

Lemma llcm_range l : 0 <= llcm_of l <= 3.
Proof.
  unfold llcm_of. rewrite Z.shiftr_0_r. pose proof (Z.land_ones (lb_flags l) 2 ltac:(lia)) as Hl. change (Z.ones 2) with 3 in Hl. rewrite Hl.
  pose proof (Z.mod_pos_bound (lb_flags l) (2 ^ 2) ltac:(lia)). lia.
Qed.

Lemma ins_nonneg l : 0 <= ins_of l.
Proof. unfold ins_of. apply Z.shiftr_nonneg, Z.land_nonneg. lia. Qed.

Lemma sum_ins_nonneg ring : 0 <= sum_ins ring.
Proof. apply zsum_nonneg, Forall_fmap, Forall_true. intros l. apply ins_nonneg. Qed.

(** The counts of a thread describe the records of the ring buffer. *)
Record window (ring : list lbr) (t : thread_info) : Prop := {
  wd_ins : ri_ins_count (ti_rob t) = sum_ins ring;
  wd_llcm : ri_llcm_count (ti_rob t) = sum_llcm ring;
  wd_types : Z.of_nat (length (ti_llcm_type_rob t)) = sum_llcm ring;
  wd_count k : default 0 (ri_m_count (ti_rob t) !! k) = Z.of_nat (length (keep (Z.eqb k) (ti_llcm_type_rob t)))
}.

Lemma add_type_lookup k n m j : default 0 (add_type k n m !! j) = default 0 (m !! j) + (if j =? k then n else 0).
Proof.
  unfold add_type. destruct (j =? k) eqn:E; btests; [subst; by rewrite lookup_insert_eq|].
  rewrite lookup_insert_ne by done. lia.
Qed.

Definition types_counted (t : thread_info) : Prop :=
  ∀ k, default 0 (ri_m_count (ti_rob t) !! k) = Z.of_nat (length (keep (Z.eqb k) (ti_llcm_type_rob t))).

(** The parts of a thread that the types do not change. *)
Definition same_sums (t t' : thread_info) : Prop :=
  ri_ins_count (ti_rob t') = ri_ins_count (ti_rob t) ∧ ri_llcm_count (ti_rob t') = ri_llcm_count (ti_rob t) ∧
  ri_llcm_base (ti_rob t') = ri_llcm_base (ti_rob t).

Lemma enter_types_spec n : ∀ t, types_counted t →
  types_counted (enter_types n t) ∧ same_sums t (enter_types n t) ∧ length (ti_llcm_type_rob (enter_types n t)) = (length (ti_llcm_type_rob t) + n)%nat.
Proof.
  induction n as [|n IH]; intros t Ht; cbn [enter_types]; [by split_and!; [|split_and!|lia]|].
  destruct (match ti_llcm_type t with [] => (0, []) | k :: rest => (k, rest) end) as [k rest].
  match goal with |- context [enter_types n ?t1] => destruct (IH t1) as (Hc & (H1 & H2 & H3) & Hl) end.
  - intros j. cbn [set_types set_window ti_rob ri_m_count ti_llcm_type_rob]. rewrite add_type_lookup, Ht, keep_app, length_app, keep_cons.
    destruct (j =? k); simpl; lia.
  - split_and!; [done|split_and!; [exact H1|exact H2|exact H3]|]. rewrite Hl. simpl. rewrite length_app. simpl. lia.
Qed.

Lemma leave_types_spec n : ∀ t, types_counted t → (n <= length (ti_llcm_type_rob t))%nat →
  ∃ t', leave_types n t = Some t' ∧ types_counted t' ∧ same_sums t t' ∧ length (ti_llcm_type_rob t') = (length (ti_llcm_type_rob t) - n)%nat.
Proof.
  induction n as [|n IH]; intros t Ht Hn; cbn [leave_types].
  { exists t. split_and!; [done|done|by split_and!|lia]. }
  destruct (ti_llcm_type_rob t) as [|k rest] eqn:E; simpl in Hn; [lia|].
  match goal with |- context [leave_types n ?t1] => destruct (IH t1) as (t' & Hl & Hc & (H1 & H2 & H3) & Hlen) end.
  - intros j. cbn [set_types set_window ti_rob ri_m_count ti_llcm_type_rob]. rewrite add_type_lookup, Ht, E, keep_cons.
    destruct (j =? k); simpl; lia.
  - simpl. lia.
  - exists t'. split_and!; [done|done|split_and!; [exact H1|exact H2|exact H3]|]. rewrite Hlen. simpl. lia.
Qed.

(** Shrinking drops the shortest prefix that leaves at most 512 instructions. *)
Lemma shrink_spec ring : ∀ t, window ring t →
  ∃ dropped ring' t', shrink ring t = Some (ring', t') ∧ ring = dropped ++ ring' ∧ window ring' t' ∧ sum_ins ring' <= ROB_SIZE ∧
    (∀ l, last dropped = Some l → ROB_SIZE < ins_of l + sum_ins ring').
Proof.
  induction ring as [|l ring IH]; intros t [Hi Hl Ht Hc]; cbn [shrink]; destruct (ROB_SIZE <? _) eqn:E; btests.
  - exfalso. rewrite Hi in E. unfold sum_ins, ROB_SIZE in E. simpl in E. lia.
  - exists [], [], t. by split_and!.
  - pose proof (llcm_range l). unfold sum_llcm, sum_ins in *. rewrite fmap_cons, zsum_cons in *.
    assert (0 <= zsum (llcm_of <$> ring)) by (apply zsum_nonneg, Forall_fmap, Forall_true; intros; apply llcm_range).
    match goal with |- context [leave_types ?n ?t0] =>
      destruct (leave_types_spec n t0) as (t1 & -> & Hc1 & (H1 & H2 & H3) & Hlen); [exact Hc|simpl; lia|] end.
    cbn [mbind option_bind]. simpl in H1, H2, Hlen.
    destruct (IH t1) as (dropped & ring' & t' & -> & -> & Hw & Hs & Hd); [split; unfold sum_ins, sum_llcm; [lia|lia|lia|exact Hc1]|].
    exists (l :: dropped), ring', t'. split_and!; try done. intros l' Hlast. destruct dropped as [|d dropped]; [|by apply Hd].
    simpl in Hlast. simplify_eq. simpl in Hi. unfold sum_ins. lia.
  - exists [], (l :: ring), t. split_and!; try done. rewrite <- Hi. lia.
Qed.

Lemma insert_one_spec l ring t : window ring t →
  ∃ dropped ring' t', insert_one l ring t = Some (ring', t') ∧ ring ++ [l] = dropped ++ ring' ∧ window ring' t' ∧ sum_ins ring' <= ROB_SIZE ∧
    (∀ l', last dropped = Some l' → ROB_SIZE < ins_of l' + sum_ins ring').
Proof.
  intros [Hi Hl Ht Hc]. unfold insert_one. destruct (enter_types_spec (Z.to_nat (llcm_of l)) t Hc) as (Hc1 & (H1 & H2 & _) & Hlen).
  apply shrink_spec. pose proof (llcm_range l). unfold sum_ins, sum_llcm in *. split; unfold sum_ins, sum_llcm; simpl;
    rewrite ?fmap_app, ?zsum_app; simpl; [lia|lia|lia|exact Hc1].
Qed.

(** ** Lemmas: memory accesses *)

(** What the accesses of a sample do not change. *)
Record framed (c c' : Core) : Prop := {
  fr_page : co_page_type c' = co_page_type c;
  fr_index : co_last_index c' = co_last_index c;
  fr_requests : co_request_counter c' = co_request_counter c;
  fr_ring : co_ring_buffer c' = co_ring_buffer c;
  fr_root : root c' = root c;
  fr_cur : cn_cur_expanders (co_tree c') = cn_cur_expanders (co_tree c);
  fr_store : length (cn_store (co_tree c')) = length (cn_store (co_tree c))
}.

Lemma framed_refl c : framed c c.
Proof. by split. Qed.

Lemma framed_trans c1 c2 c3 : framed c1 c2 → framed c2 c3 → framed c1 c3.
Proof. intros [] []. split; congruence. Qed.

(** Accesses that went to memory, and hits in the cache. *)
Definition misses (c : Core) : Z := u64 (ct_local (co_counter c) + cn_remote (co_tree c)).
Definition hits (c : Core) : Z := u64 (ct_hitm (co_counter c)).

Lemma put_contains c k v ts c' : lru_ok c → put c k v ts = Some c' → lru_ok c' ∧ contains c' k = true.
Proof.
  intros Hok Hp. destruct (put_ok c k v ts Hok) as (c1 & Hp1 & Hok1 & _ & Hr). rewrite Hp1 in Hp. simplify_eq. split; [done|].
  apply bool_decide_eq_true_2, (lo_dom _ Hok1). rewrite <- recency_keys, Hr. simpl. set_solver.
Qed.

Lemma get_contains c k ts r c' : lru_ok c → get c k ts = Some (r, c') →
  lru_ok c' ∧ (contains c k = true ∧ is_Some r ∧ contains c' k = true ∨ contains c k = false ∧ r = None ∧ c' = c).
Proof.
  intros Hok Hg. destruct (get_ok c k ts Hok) as (r1 & c1 & Hg1 & Hok1 & _ & _). rewrite Hg1 in Hg. simplify_eq. split; [done|].
  unfold contains. unfold get in Hg1. destruct (lc_cache c !! k) as [e|] eqn:E; [left|right; by simplify_eq].
  destruct (il_unlink _ _); simplify_eq/=. rewrite lookup_insert_eq. by split_and!.
Qed.

Definition caches (s : Sampler) : Prop := match sm_caching s with Some CachingBase | Some (FrequencyCaching _) => True | _ => False end.

(** An entry of the local memory that [insert] makes. *)
Definition local_entry (o : occupation_info) : Prop := oi_address o = 1.

Definition entries_local (c : Core) : Prop := map_Forall (λ _, local_entry) (co_occupation c).

(** What an access does, when it is defined. *)
Record accessed `{CastUB} (pa : Z) (s s' : Sampler) : Prop := {
  ac_frame : framed (sm_core s) (sm_core s');
  ac_lru : lru_ok (co_lru_cache (sm_core s'));
  ac_migration : sm_migration s' = sm_migration s;
  ac_hit : contains (co_lru_cache (sm_core s)) pa = true → misses (sm_core s') = misses (sm_core s) ∧ hits (sm_core s') = hits (sm_core s) +w 1;
  ac_miss : contains (co_lru_cache (sm_core s)) pa = false → misses (sm_core s') = misses (sm_core s) +w 1 ∧ hits (sm_core s') = hits (sm_core s);
  ac_caches : caches s → caches s' ∧ contains (co_lru_cache (sm_core s')) pa = true;
  ac_local : entries_local (sm_core s) → entries_local (sm_core s')
}.

Section accesses.
Context `{Hcast : CastUB}.

Lemma emplace_local k o m : local_entry o → map_Forall (λ _, local_entry) m → map_Forall (λ _, local_entry) (emplace k o m).
Proof. intros Ho Hm. unfold emplace. destruct (m !! k); [done|]. by apply map_Forall_insert_2. Qed.

Lemma counts_added a b d c : u64 (ct_local (co_counter (add_counts a b d c))) = u64 (ct_local (co_counter c) + a) ∧
  hits (add_counts a b d c) = u64 (ct_hitm (co_counter c) + b).
Proof. unfold hits, add_counts. simpl. by rewrite !u64_idemp. Qed.

Lemma u64_add_l x y : u64 (u64 x + y) = u64 (x + y).
Proof. apply Zplus_mod_idemp_l. Qed.

Lemma u64_add_r x y : u64 (x + u64 y) = u64 (x + y).
Proof. apply Zplus_mod_idemp_r. Qed.

Lemma insert_remote_framed ts tid pa i res c res' c' : insert_remote ts tid pa i res c = (res', c') →
  framed c c' ∧ co_lru_cache c' = co_lru_cache c ∧ co_counter c' = co_counter c ∧ cn_remote (co_tree c') = cn_remote (co_tree c) ∧
  co_occupation c' = co_occupation c ∧ co_latency_lat c' = co_latency_lat c.
Proof.
  unfold insert_remote. intros Hi.
  pose proof (insert_switches_length (sw_insert ts tid pa i) (children c) res (offer_length _) (cn_store (co_tree c))) as H1.
  destruct (insert_switches _ _ _ _) as [[r1 sws] st1]. simpl in H1.
  pose proof (insert_expanders_length (insert ts tid pa i) (sd_expanders (root c)) r1 st1) as H2.
  destruct (insert_expanders _ _ _ _) as [r2 st2]. simpl in H2. simplify_eq. split_and!; try done. split; try done. simpl. lia.
Qed.

Lemma check_walk_framed va pa rem p c lat p' c' : check_walk va pa rem p c = Some (lat, p', c') →
  framed c c' ∧ co_lru_cache c' = co_lru_cache c ∧ co_counter c' = co_counter c ∧ co_tree c' = co_tree c ∧ co_occupation c' = co_occupation c.
Proof.
  unfold check_walk. destruct p as [q|]; intros Hw; [|by simplify_eq].
  destruct (page_walk _ _ _ _ _) as [[l q']|]; [|done]. cbn [mbind option_bind] in Hw. destruct (0 <? l); by simplify_eq.
Qed.

Lemma access_local_spec ts ptw tid pa c c' : lru_ok (co_lru_cache c) → access_local ts ptw tid pa c = Some c' →
  framed c c' ∧ lru_ok (co_lru_cache c') ∧ contains (co_lru_cache c') pa = true ∧ misses c' = misses c +w 1 ∧ hits c' = hits c ∧
  (entries_local c → entries_local c').
Proof.
  intros Hok. unfold access_local, update_cache. intros Ha.
  match type of Ha with context [put ?l ?k ?v ?t] => destruct (put l k v t) as [l1|] eqn:Ep end; [|done]. simplify_eq/=.
  apply put_contains in Ep as [Hok' Hc]; [|done]. split_and!; try done.
  - unfold misses. simpl. rewrite !u64_add_l. f_equal. lia.
  - unfold hits. simpl. by rewrite Z.add_0_r, !u64_idemp.
  - by apply emplace_local.
Qed.

Lemma access_remote_spec ts ptw tid pa i res s res' s' : lru_ok (co_lru_cache (sm_core s)) → access_remote ts ptw tid pa i res s = Some (res', s') →
  framed (sm_core s) (sm_core s') ∧ lru_ok (co_lru_cache (sm_core s')) ∧ misses (sm_core s') = misses (sm_core s) +w 1 ∧
  hits (sm_core s') = hits (sm_core s) ∧ sm_migration s' = sm_migration s ∧ sm_allocation s' = sm_allocation s ∧ sm_paging s' = sm_paging s ∧
  (caches s → caches s' ∧ contains (co_lru_cache (sm_core s')) pa = true) ∧ co_occupation (sm_core s') = co_occupation (sm_core s).
Proof.
  intros Hok. unfold access_remote. destruct (insert_remote _ _ _ _ _ _) as [r1 c1] eqn:Ei.
  apply insert_remote_framed in Ei as (Hf & Hl & Hc & Hr & Ho & _).
  assert (framed (sm_core s) c1) as Hf1 by (eapply framed_trans; [|exact Hf]; by split).
  assert (misses c1 = misses (sm_core s) +w 1 ∧ hits c1 = hits (sm_core s)) as [Hm Hh].
  { unfold misses, hits. rewrite Hc, Hr. simpl. split; [|done]. rewrite u64_add_r, u64_add_l. f_equal. lia. }
  destruct (sm_caching s) as [p|] eqn:Ep; [|done]. destruct (should_cache p pa) as [b p'] eqn:Es.
  assert (match p with FIFO => b = false | _ => b = true ∧ p' ≠ FIFO end) as Hb by (destruct p; simpl in Es; by simplify_eq).
  destruct b; unfold update_cache; intros Ha.
  - destruct (put _ _ _ _) as [l1|] eqn:Eput; [|done]. simplify_eq/=. apply put_contains in Eput as [Hok' Hcon]; [|simpl; by rewrite Hl].
    split_and!; try done; [by destruct Hf1|]. intros _. split; [|done]. unfold caches. simpl. destruct p; try done; by destruct Hb, p'.
  - simplify_eq/=. split_and!; try done; [by destruct Hf1|by rewrite Hl|]. unfold caches. rewrite Ep. destruct p; try done; by destruct Hb.
Qed.

Lemma access_spec ts tid pa va res s res' s' : lru_ok (co_lru_cache (sm_core s)) → access ts tid pa va res s = Some (res', s') → accessed pa s s'.
Proof.
  intros Hok. unfold access. destruct (get _ pa ts) as [[r lru]|] eqn:Eg; [|done]. cbn [mbind option_bind].
  apply get_contains in Eg as [Hlru [(Hc & [v ->] & Hc')|(Hc & -> & ->)]]; [|..|done].
  - intros Ha. simplify_eq. split; try done.
    + intros _. split; [|by unfold hits; simpl; rewrite u64_idemp, u64_add_l]. unfold misses. simpl. by rewrite Z.add_0_r, u64_add_l.
    + by rewrite Hc.
  - assert (set_lru (co_lru_cache (sm_core s)) (sm_core s) = sm_core s) as -> by (by destruct (sm_core s)).
    destruct (allocate _ _) as [[i a]|]; [|done]. cbn [mbind option_bind].
    destruct (check_walk _ _ _ _ _) as [[[lat p] c1]|] eqn:Ew; [|done]. cbn [mbind option_bind].
    apply check_walk_framed in Ew as (Hf & Hl1 & Hk1 & Ht1 & Ho1).
    assert (misses c1 = misses (sm_core s) ∧ hits c1 = hits (sm_core s)) as [Hm Hh] by (unfold misses, hits; by rewrite Hk1, Ht1).
    destruct (i =? -1).
    + destruct (access_local _ _ _ _ _) as [c2|] eqn:Ea; [|done]. intros Hs. simplify_eq/=.
      apply access_local_spec in Ea as (Hf2 & Hok2 & Hcon & Hm2 & Hh2 & Hl2); [|by rewrite Hl1].
      split; try done; simpl; [by eapply framed_trans|by rewrite Hc|by rewrite Hm2, Hh2, Hm, Hh|].
      intros He. apply Hl2. unfold entries_local. by rewrite Ho1.
    + intros Hs. apply access_remote_spec in Hs as (Hf2 & Hok2 & Hm2 & Hh2 & Hmig & _ & _ & Hcon & Ho2); [|simpl; by rewrite Hl1]. simpl in *.
      split; try done; [by eapply framed_trans|by rewrite Hc|by rewrite Hm2, Hh2, Hm, Hh|]. unfold entries_local. by rewrite Ho2, Ho1.
Qed.

(** *** Accesses that are always defined *)

(** The policy returns for [n] accesses: always for the base class and for NUMA, and with
    room for interleaving. *)
Definition allocation_ok (n : nat) (c : Core) (a : AllocationPolicy) : Prop :=
  match a with
  | AllocBase => True
  | Interleave p => interleave_fits n c p
  | NUMA scores => scores = [] ∨ length scores = length (cn_cur_expanders (co_tree c))
  end.

Lemma allocation_later m n c c' a : filled m c c' → allocation_ok (m + n) c a → allocation_ok n c' a.
Proof. intros Hf. destruct a; simpl; [done|by apply interleave_fits_later|by rewrite (fl_cur _ _ _ Hf)]. Qed.

Definition paging_ok (p : option PagingPolicy) : Prop := match p with Some (HugePage h) => hp_ok h | _ => True end.

(** A controller that takes [n] accesses. *)
Record sampler_ok (n : nat) (s : Sampler) : Prop := {
  so_lru : lru_ok (co_lru_cache (sm_core s));
  so_cur : Forall (λ x, (x < length (cn_store (co_tree (sm_core s))))%nat) (cn_cur_expanders (co_tree (sm_core s)));
  so_allocation : allocation_ok n (sm_core s) (sm_allocation s);
  so_paging : paging_ok (sm_paging s);
  so_caching : is_Some (sm_caching s)
}.

Lemma cur_expanders_total c : Forall (λ x, (x < length (cn_store (co_tree c)))%nat) (cn_cur_expanders (co_tree c)) →
  ∃ es, cur_expanders c = Some es ∧ length es = length (cn_cur_expanders (co_tree c)).
Proof.
  intros Hx. unfold cur_expanders. destruct (mapM_is_Some_2 (λ x, cn_store (co_tree c) !! x) (cn_cur_expanders (co_tree c))) as [es He].
  { eapply Forall_impl; [exact Hx|]. intros x. apply lookup_lt_is_Some_2. }
  exists es. split; [done|]. symmetry. by eapply length_mapM.
Qed.

Lemma allocate_total n c a : Forall (λ x, (x < length (cn_store (co_tree c)))%nat) (cn_cur_expanders (co_tree c)) → allocation_ok n c a →
  ∃ i a', allocate a c = Some (i, a') ∧ allocation_ok n c a'.
Proof.
  intros Hx Ha. destruct a as [|p|scores]; simpl in *; [by eexists _, _| |].
  { destruct (interleave_returns n c p Ha) as (i & p' & -> & Hp'). by eexists _, _. }
  unfold numa_compute_once.
  destruct (local_room c); [by eexists _, _|]. destruct (cur_expanders_total c Hx) as (es & -> & Hlen). cbn [mbind option_bind].
  set (ss := match scores with [] => _ | _ => _ end).
  assert (length ss = length es) as Hss by (destruct Ha as [->|Ha]; [apply length_fmap|unfold ss; destruct scores; [apply length_fmap|lia]]).
  destruct (best_node_spec (co_page_type c) es ss 0 (-1) (f64_of_Z (-1)) Hss) as (b & bs & -> & _). cbn [mbind option_bind].
  eexists _, _. split; [done|]. right. lia.
Qed.

Lemma check_walk_total va pa rem p c : paging_ok p → ∃ lat p' c', check_walk va pa rem p c = Some (lat, p', c') ∧ paging_ok p'.
Proof.
  intros Hp. destruct p as [[|h|t]|]; simpl in *; [by eexists _, _, _| | |by eexists _, _, _].
  - destruct (walk_ok h va pa rem (co_page_type c) Hp) as (lat & h' & -> & Hh & _). by eexists _, _, _.
  - unfold check_walk, page_walk. destruct (page_table_walk t va pa rem) as [lat t']. by eexists _, _, _.
Qed.

Lemma update_cache_total pa ts c : lru_ok (co_lru_cache c) → ∃ c', update_cache pa ts c = Some c'.
Proof. intros Hok. unfold update_cache. destruct (put_ok _ pa pa ts Hok) as (l & -> & _). by eexists. Qed.

Lemma framed_cur c c' : framed c c' → Forall (λ x, (x < length (cn_store (co_tree c)))%nat) (cn_cur_expanders (co_tree c)) →
  Forall (λ x, (x < length (cn_store (co_tree c')))%nat) (cn_cur_expanders (co_tree c')).
Proof. intros Hf. by rewrite (fr_cur _ _ Hf), (fr_store _ _ Hf). Qed.

Lemma access_remote_total ts ptw tid pa i res s : lru_ok (co_lru_cache (sm_core s)) → is_Some (sm_caching s) →
  ∃ res' s', access_remote ts ptw tid pa i res s = Some (res', s') ∧ is_Some (sm_caching s').
Proof.
  intros Hok [p Hp]. unfold access_remote. destruct (insert_remote _ _ _ _ _ _) as [r1 c1] eqn:Ei. rewrite Hp.
  apply insert_remote_framed in Ei as (_ & Hl & _). destruct (should_cache p pa) as [[] p']; [|by eexists _, _].
  destruct (update_cache_total pa ts (push_type tid 1 c1)) as [c2 ->]; [simpl; by rewrite Hl|]. by eexists _, _.
Qed.

(** *** Entries that an access adds *)

Lemma insert_switches_grown op sws :
  Forall (λ s, ∀ st, grown (λ x, times x (positions s)) st (op s st).2 ∧ positions (op s st).1.2 = positions s) sws →
  ∀ res st, grown (λ x, times x (concat (List.map positions sws))) st (insert_switches op sws res st).2 ∧
            List.map positions (insert_switches op sws res st).1.2 = List.map positions sws.
Proof.
  induction 1 as [|s sws Hs _ IH]; intros res st; cbn [insert_switches List.map concat]; [by split; [apply grown_refl|]|].
  destruct (Hs st) as [H1 H2]. destruct (op s st) as [[ret s'] st']. cbn [fst snd] in *.
  destruct (IH (and_res res ret) st') as [H3 H4]. destruct (insert_switches op sws _ st') as [[res2 sws2] st2]. cbn [fst snd List.map] in *.
  split; [|by rewrite H2, H4]. eapply grown_trans; [exact H1|exact H3|]. intros x. cbn beta. by rewrite times_app.
Qed.

Lemma insert_expanders_grown op xs : (∀ e, grows 1 e (op e).2) → ∀ res st, grown (λ x, times x xs) st (insert_expanders op xs res st).2.
Proof.
  intros Hop. induction xs as [|x xs IH]; intros res st; cbn [insert_expanders]; [apply grown_refl|].
  destruct (st !! x) as [e|] eqn:He.
  - specialize (Hop e). destruct (op e) as [ret e']. eapply grown_trans; [by eapply grown_insert|apply IH|]. intros y. cbn beta. by rewrite times_cons.
  - eapply grown_mono; [apply IH|]. intros y. cbn beta. rewrite times_cons. lia.
Qed.

Lemma insert_remote_filled ts tid pa i res c : filled 1 c (insert_remote ts tid pa i res c).2.
Proof.
  unfold insert_remote. destruct (insert_switches_grown (sw_insert ts tid pa i) (children c)) with (res := res) (st := cn_store (co_tree c)) as [H1 H2].
  { apply Forall_forall. intros s _ st. apply offer_grown. intros e. apply insert_grows. }
  destruct (insert_switches _ _ _ _) as [[res1 sws] st1]. cbn [fst snd] in *.
  pose proof (insert_expanders_grown (insert ts tid pa i) (sd_expanders (root c)) (insert_grows ts tid pa i) res1 st1) as H3.
  destruct (insert_expanders _ _ _ _) as [res2 st2]. cbn [fst snd] in *. split; try done; simpl.
  - rewrite H2. unfold root, children. by destruct (cn_switch (co_tree c)).
  - eapply grown_trans; [exact H1|exact H3|]. intros x. cbn beta. unfold root, children. destruct (cn_switch (co_tree c)) as [d sws0]. cbn [positions].
    rewrite times_app. lia.
Qed.

Lemma same_tree_filled c c' : co_tree c' = co_tree c → co_page_type c' = co_page_type c → filled 0 c c'.
Proof. intros Ht Hp. split; rewrite ?Ht; try done. apply grown_refl. Qed.

Lemma check_walk_filled va pa rem p c lat p' c' : check_walk va pa rem p c = Some (lat, p', c') → filled 0 c c'.
Proof.
  unfold check_walk. destruct p as [q|]; [|intros [= <- <- <-]; apply filled_refl]. destruct (page_walk _ _ _ _ _) as [[l q']|]; [|done].
  intros [= <- <- <-]. by apply same_tree_filled; destruct (0 <? l).
Qed.

Lemma update_cache_filled pa ts c c' : update_cache pa ts c = Some c' → filled 0 c c'.
Proof. unfold update_cache. destruct (put _ _ _ _); [|done]. intros [= <-]. by apply same_tree_filled. Qed.

Lemma access_remote_filled ts ptw tid pa i res s res' s' :
  access_remote ts ptw tid pa i res s = Some (res', s') → filled 1 (sm_core s) (sm_core s').
Proof.
  unfold access_remote. pose proof (insert_remote_filled (ts +w ptw) tid pa i res (inc_remote (sm_core s))) as H1.
  destruct (insert_remote _ _ _ _ _ _) as [r1 c1]. cbn [snd] in H1. destruct (sm_caching s) as [p|]; [|done].
  destruct (should_cache p pa) as [b p']. intros Hs. assert (filled 1 (sm_core s) (push_type tid 1 c1)) as H2 by (by destruct H1).
  destruct b; [|by simplify_eq/=]. destruct (update_cache _ _ _) as [c2|] eqn:E; [|done]. simplify_eq/=.
  apply update_cache_filled in E. by apply (filled_trans 1 0 _ _ _ H2 E).
Qed.

Lemma access_filled ts tid pa va res s res' s' : access ts tid pa va res s = Some (res', s') → filled 1 (sm_core s) (sm_core s').
Proof.
  unfold access. destruct (get _ _ _) as [[r lru]|]; [|done]. cbn [mbind option_bind]. destruct r.
  { intros Hs. simplify_eq/=. apply (filled_mono 0); [lia|]. by apply same_tree_filled. }
  destruct (allocate _ _) as [[i a]|]; [|done]. cbn [mbind option_bind].
  destruct (check_walk _ _ _ _ _) as [[[lat p] c1]|] eqn:Ew; [|done]. cbn [mbind option_bind]. apply check_walk_filled in Ew.
  assert (filled 0 (sm_core s) c1) as Hc by (by destruct Ew). destruct (i =? -1).
  - unfold access_local. destruct (update_cache _ _ _) as [c2|] eqn:E; [|done]. intros Hs. simplify_eq/=. apply update_cache_filled in E.
    apply (filled_mono 0); [lia|]. apply (filled_quiet _ _ _ _ Hc). by destruct E.
  - intros Hs. apply access_remote_filled in Hs. by apply (filled_quiet _ _ _ _ Hc).
Qed.

Lemma access_total n ts tid pa va res s : sampler_ok (S n) s → ∃ res' s', access ts tid pa va res s = Some (res', s') ∧ sampler_ok n s'.
Proof.
  intros Hs. pose proof Hs as [Hok Hx Ha Hp Hc].
  assert (∃ res' s', access ts tid pa va res s = Some (res', s') ∧ allocation_ok (S n) (sm_core s) (sm_allocation s') ∧ paging_ok (sm_paging s') ∧
    is_Some (sm_caching s')) as (res' & s' & Hacc & Ha' & Hp' & Hc').
  { unfold access. destruct (get_ok _ pa ts Hok) as (r & lru & Hg & Hlru & _). rewrite Hg. cbn [mbind option_bind]. destruct r; [by eexists _, _|].
    destruct (allocate_total (S n) (set_lru lru (sm_core s)) (sm_allocation s) Hx) as (i & a & -> & Ha').
    { by apply (allocation_later 0 (S n) (sm_core s)); [apply same_tree_filled|]. }
    cbn [mbind option_bind]. assert (allocation_ok (S n) (sm_core s) a) as Ha2 by (by apply (allocation_later 0 (S n) (set_lru lru (sm_core s))); [apply same_tree_filled|]).
    destruct (check_walk_total va pa (negb (i =? -1)) (sm_paging s) (set_lru lru (sm_core s)) Hp) as (lat & p & c1 & Hw & Hp'). rewrite Hw.
    cbn [mbind option_bind]. apply check_walk_framed in Hw as (_ & Hl & _). simpl in Hl. destruct (i =? -1).
    - unfold access_local. match goal with |- context [update_cache ?a ?b ?c] => destruct (update_cache_total a b c) as [c2 ->]; [simpl; by rewrite Hl|] end.
      by eexists _, _.
    - match goal with |- context [access_remote ?a ?b ?d ?e ?f ?g ?h] => destruct (access_remote_total a b d e f g h) as (r' & s' & Hr & Hc') end;
        [simpl; by rewrite Hl|done|]. rewrite Hr. exists r', s'.
      apply access_remote_spec in Hr as (_ & _ & _ & _ & _ & -> & -> & _); [by split_and!|simpl; by rewrite Hl]. }
  exists res', s'. split; [done|]. pose proof (access_filled _ _ _ _ _ _ _ _ Hacc) as Hfl. apply access_spec in Hacc as Hspec; [|done].
  split; [apply Hspec|by eapply framed_cur, Hx; apply Hspec|by apply (allocation_later 1 n (sm_core s))|done|done].
Qed.

(** What a batch of accesses to one address does. *)
Record batch (pa n : Z) (s s' : Sampler) : Prop := {
  bt_frame : framed (sm_core s) (sm_core s');
  bt_lru : lru_ok (co_lru_cache (sm_core s'));
  bt_migration : sm_migration s' = sm_migration s;
  bt_counts : u64 (misses (sm_core s') + hits (sm_core s')) = u64 (misses (sm_core s) + hits (sm_core s) + n);
  bt_caches : caches s → caches s' ∧ let m := if contains (co_lru_cache (sm_core s)) pa then 0 else Z.min 1 n in
    misses (sm_core s') = misses (sm_core s) +w m ∧ hits (sm_core s') = hits (sm_core s) +w (n - m) ∧
    (contains (co_lru_cache (sm_core s)) pa = true ∨ 0 < n → contains (co_lru_cache (sm_core s')) pa = true);
  bt_local : entries_local (sm_core s) → entries_local (sm_core s')
}.

Lemma u64_misses c : u64 (misses c) = misses c.
Proof. apply u64_idemp. Qed.

Lemma u64_hits c : u64 (hits c) = hits c.
Proof. apply u64_idemp. Qed.

Lemma batch_nil pa s : lru_ok (co_lru_cache (sm_core s)) → batch pa 0 s s.
Proof.
  intros Hok. split; try done; [f_equal; lia|]. intros Hc. split; [done|]. change (Z.min 1 0) with 0.
  destruct (contains _ _); cbn zeta; rewrite !Z.add_0_r, u64_misses, u64_hits; (split_and!; [done..|]; intros [?|?]; [done|lia]).
Qed.

Lemma batch_cons pa n s s1 s' : 0 <= n → accessed pa s s1 → batch pa n s1 s' → batch pa (n + 1) s s'.
Proof.
  intros Hn [Hf Hl Hm Hhit Hmiss Hc Hloc] [Hf' Hl' Hm' Hn' Hc' Hloc']. split; [by eapply framed_trans|done|congruence| | |by auto].
  - rewrite Hn'. destruct (contains _ _); [destruct Hhit as [-> ->]|destruct Hmiss as [-> ->]]; try done.
    + rewrite <- Z.add_assoc, <- (u64_add_r _ (_ + n)), u64_add_l, u64_add_r. f_equal. lia.
    + rewrite <- Z.add_assoc, u64_add_l. f_equal. lia.
  - intros Hs. destruct (Hc Hs) as [Hs1 Hin]. destruct (Hc' Hs1) as (Hs' & Hm1 & Hh1 & Hin'). rewrite Hin in Hm1, Hh1, Hin'. split; [done|].
    rewrite Z.min_l by lia. cbn zeta. destruct (contains (co_lru_cache (sm_core s)) pa).
    + destruct Hhit as [Hm2 Hh2]; [done|]. rewrite Hm1, Hh1, Hm2, Hh2, u64_add_l. split_and!; [done|f_equal; lia|auto].
    + destruct Hmiss as [Hm2 Hh2]; [done|]. rewrite Hm1, Hh1, Hm2, Hh2, u64_add_l. split_and!; [f_equal; lia|f_equal; lia|auto].
Qed.

Lemma accesses_spec n : ∀ step now tid pa va res s, lru_ok (co_lru_cache (sm_core s)) →
  ∀ res' s', accesses n step now tid pa va res s = Some (res', s') → batch pa (Z.of_nat n) s s'.
Proof.
  induction n as [|n IH]; intros step now tid pa va res s Hok res' s' Ha; cbn [accesses] in Ha; [simplify_eq; by apply batch_nil|].
  destruct (access _ _ _ _ _ _) as [[r1 s1]|] eqn:E1; [|done]. cbn [mbind option_bind] in Ha. apply access_spec in E1; [|done].
  rewrite Nat2Z.inj_succ. eapply batch_cons; [lia|exact E1|]. eapply IH; [apply E1|exact Ha].
Qed.

Lemma accesses_total n k : ∀ step now tid pa va res s, sampler_ok (n + k) s →
  ∃ res' s', accesses n step now tid pa va res s = Some (res', s') ∧ sampler_ok k s'.
Proof.
  induction n as [|n IH]; intros step now tid pa va res s Hs; cbn [accesses]; [by eexists _, _|].
  destruct (access_total (n + k) (now +w step) tid pa va res s Hs) as (r1 & s1 & -> & Hs1). cbn [mbind option_bind]. by apply IH.
Qed.

(** *** The work of every thousand requests *)

Lemma invalidated_framed c c' : invalidated c c' → framed c c' ∧ misses c' = misses c ∧ hits c' = hits c ∧ co_occupation c' = co_occupation c.
Proof.
  intros (lru & st & k & -> & Hlen & Hl & Hh). split; [by split; try done; destruct c as [[[]]]|].
  unfold misses, hits. simpl. split_and!; [|done|done]. by rewrite <- u64_add_l, Hl, u64_add_l.
Qed.

(** The work of the policies leaves what was counted. *)
Record worked (s s' : Sampler) : Prop := {
  wk_frame : framed (sm_core s) (sm_core s');
  wk_lru : lru_ok (co_lru_cache (sm_core s'));
  wk_misses : misses (sm_core s') = misses (sm_core s);
  wk_hits : hits (sm_core s') = hits (sm_core s);
  wk_occupation : co_occupation (sm_core s') = co_occupation (sm_core s);
  wk_allocation : sm_allocation s' = sm_allocation s;
  wk_paging : sm_paging s' = sm_paging s;
  wk_caching : is_Some (sm_caching s) → is_Some (sm_caching s');
  wk_filled : filled 0 (sm_core s) (sm_core s')
}.

Lemma worked_trans s1 s2 s3 : worked s1 s2 → worked s2 s3 → worked s1 s3.
Proof. intros [] []. split; try congruence; [by eapply framed_trans|auto|by eapply filled_quiet]. Qed.

Lemma keep_shorter {A} (f : A → bool) l : (length (keep f l) ≤ length l)%nat.
Proof. induction l as [|x l IH]; [done|]. rewrite keep_cons. destruct (f x); simpl; lia. Qed.

Lemma erase_all_grows addr e : grows 0 e (erase_all addr e).2.
Proof. split; try done. simpl. rewrite Nat.add_0_r. apply keep_shorter. Qed.

Lemma invalidate_all_filled l : ∀ c c', invalidate_all l c = Some c' → filled 0 c c'.
Proof.
  induction l as [|a l IH]; intros c c'; cbn [invalidate_all]; [intros [= <-]; apply filled_refl|].
  destruct (remove _ _) as [[rm lru]|]; [|done]. cbn [mbind option_bind]. intros Hi. apply IH in Hi. apply (filled_quiet _ _ _ _) with (2 := Hi).
  unfold invalidate_in_expanders. match goal with |- context [traverse ?own ?op ?add ?sw ?st] =>
    pose proof (traverse_grown own op add sw ltac:(intros; apply grown_refl) (erase_all_grows a) st) as Hg;
    destruct (traverse own op add sw st) as [n st'] end. by split.
Qed.

Lemma worked_refl s : lru_ok (co_lru_cache (sm_core s)) → worked s s.
Proof. intros Hok. split; try done. apply filled_refl. Qed.

Lemma back_invalidation_worked s : lru_ok (co_lru_cache (sm_core s)) → ∃ s', perform_back_invalidation s = Some s' ∧ worked s s'.
Proof.
  intros Hok. unfold perform_back_invalidation. destruct (sm_caching s) as [p|] eqn:Ep; [|exists s; split; [done|by apply worked_refl]].
  destruct (get_invalidation_list p (sm_core s)) as [l p']. destruct (invalidate_all_spec l _ Hok) as (c & Hc & Hi). rewrite Hc. cbn [mbind option_bind].
  eexists. split; [done|]. destruct (invalidated_framed _ _ (iv_frame _ _ _ Hi)) as (Hf & Hm & Hh & Ho). split; try done; [apply Hi|].
  by eapply invalidate_all_filled.
Qed.

(** The list of every migration policy is empty when it is read through the base class. *)
Lemma perform_migration_same s : perform_migration s = s.
Proof. unfold perform_migration. destruct s as [c a [p|] g k]; done. Qed.

Lemma run_migration_worked s : lru_ok (co_lru_cache (sm_core s)) → worked s (run_migration s) ∧ sm_core (run_migration s) = sm_core s.
Proof.
  intros Hok. unfold run_migration. destruct (sm_migration s) as [p|]; [|split; [by apply worked_refl|done]].
  destruct (migrate_once p (sm_core s)) as [r p']. rewrite perform_migration_same.
  destruct (positive r); (split; [|done]); (split; try done; apply filled_refl).
Qed.

Lemma cache_once_total p c : lru_ok (co_lru_cache c) → ∃ r p' lru, cache_once p c = Some (r, p', lru) ∧ lru_ok lru.
Proof.
  intros Hok. destruct p as [| |q]; simpl; [by eexists _, _, _| |by destruct (frequency_invalidation_list q c); eexists _, _, _].
  unfold fifo_compute_once. destruct (_ && _); [|by eexists _, _, _].
  destruct (remove_ok _ (oldest (lc_cache (co_lru_cache c))) Hok) as (lru & -> & Hl & _). by eexists _, _, _.
Qed.

Lemma run_caching_worked s : lru_ok (co_lru_cache (sm_core s)) → ∃ s', run_caching s = Some s' ∧ worked s s'.
Proof.
  intros Hok. unfold run_caching. destruct (sm_caching s) as [p|] eqn:Ep; [|exists s; split; [done|by apply worked_refl]].
  destruct (cache_once_total p (sm_core s) Hok) as (r & p' & lru & -> & Hl). cbn [mbind option_bind].
  match goal with |- context [perform_back_invalidation ?x] => set (s1 := x) end.
  assert (worked s s1) as H1 by (split; try done; by apply same_tree_filled).
  destruct (positive r); [|by exists s1]. destruct (back_invalidation_worked s1 Hl) as (s2 & -> & H2). exists s2. split; [done|].
  by eapply worked_trans.
Qed.

Lemma worked_ok n s s' : worked s s' → sampler_ok n s → sampler_ok n s'.
Proof.
  intros [Hf Hl _ _ _ Ha Hp Hc Hfl] [_ Hx Hao Hpo Hco]. split; [done|by eapply framed_cur| |by rewrite Hp|auto].
  rewrite Ha. by apply (allocation_later 0 n (sm_core s)).
Qed.

(** *** A sample *)

(** The accesses of a sample: one for each index since the last one. *)
Definition sample_size (index : Z) (c : Core) : Z := Z.max 0 (index - co_last_index c).

Definition started (tid : Z) (s : Sampler) : Sampler :=
  let c := sm_core s in set_core (set_threads (co_ring_buffer c) (<[tid := thread_of tid c]> (co_thread_map c)) c) s.

Lemma set_last_timestamp_root ts sw d sws : sw = Switch d sws →
  ∃ d', set_last_timestamp ts sw = Switch d' sws ∧ sd_last_timestamp d' = ts ∧ sd_expanders d' = sd_expanders d.
Proof. intros ->. by eexists. Qed.

(** A sample is a batch of accesses, then the work of the policies, then the new index
    and timestamp. *)
Lemma sample_split ts tid pa va index s res s' :
  lru_ok (co_lru_cache (sm_core s)) → insert_sample ts tid pa va index s = Some (res, s') →
  ∃ s1 s2 requests, batch pa (sample_size index (sm_core s)) (started tid s) s1 ∧ (s2 = s1 ∨ worked s1 s2) ∧
    let c := set_index (if 0 <? index then index else co_last_index (sm_core s2)) requests (sm_core s2) in
    s' = set_core (set_switch (set_last_timestamp ts (cn_switch (co_tree c))) (cn_store (co_tree c)) c) s2.
Proof.
  intros Hok Hi. unfold insert_sample in Hi. fold (started tid s) in Hi.
  destruct (accesses _ _ _ _ _ _ _ _) as [[r1 s1]|] eqn:Ea; [|done]. cbn [mbind option_bind] in Hi.
  apply accesses_spec in Ea; [|exact Hok]. replace (Z.of_nat (Z.to_nat _)) with (sample_size index (sm_core s)) in Ea by (unfold sample_size; lia).
  destruct (1000 <=? _).
  - destruct (run_migration_worked s1 (bt_lru _ _ _ _ Ea)) as [Hw Hc].
    destruct (run_caching_worked (run_migration s1)) as (s2 & Hr & Hw2); [rewrite Hc; apply Ea|]. rewrite Hr in Hi. simplify_eq/=.
    exists s1, s2, 0. split_and!; [done|right; by eapply worked_trans|done].
  - simplify_eq/=. exists s1, s1, (co_request_counter (sm_core s1) + (index - co_last_index (sm_core s))). by split_and!; [|left|].
Qed.

Lemma finished_core ts i n s : let c := set_index i n (sm_core s) in
  let s' := set_core (set_switch (set_last_timestamp ts (cn_switch (co_tree c))) (cn_store (co_tree c)) c) s in
  misses (sm_core s') = misses (sm_core s) ∧ hits (sm_core s') = hits (sm_core s) ∧ co_last_index (sm_core s') = i ∧
  co_last_timestamp (sm_core s') = ts ∧ co_occupation (sm_core s') = co_occupation (sm_core s) ∧ (∀ k, sampler_ok k s → sampler_ok k s').
Proof.
  intros c s'. assert (filled 0 (sm_core s) (sm_core s')) as Hf by (split; try done; simpl; [by destruct (cn_switch _)|apply grown_refl]).
  split_and!; try done; [simpl; unfold co_last_timestamp, root; simpl; by destruct (cn_switch _)|].
  intros k [Hl Hx Ha Hp Hc]. split; try done. by apply (allocation_later 0 k (sm_core s)).
Qed.

Lemma sample_index ts tid pa va index s res s' : lru_ok (co_lru_cache (sm_core s)) → insert_sample ts tid pa va index s = Some (res, s') →
  co_last_index (sm_core s') = if 0 <? index then index else co_last_index (sm_core s).
Proof.
  intros Hl Hi. apply sample_split in Hi as (s1 & s2 & n & Hb & Hw & ->); [|done].
  destruct (finished_core ts (if 0 <? index then index else co_last_index (sm_core s2)) n s2) as (_ & _ & -> & _).
  assert (co_last_index (sm_core s2) = co_last_index (sm_core s)) as ->; [|done].
  pose proof (fr_index _ _ (bt_frame _ _ _ _ Hb)) as H1. destruct Hw as [->|Hw]; [done|]. by rewrite (fr_index _ _ (wk_frame _ _ Hw)).
Qed.

Lemma sample_total k ts tid pa va index s : sampler_ok (Z.to_nat (sample_size index (sm_core s)) + k) s →
  ∃ res s', insert_sample ts tid pa va index s = Some (res, s') ∧ sampler_ok k s'.
Proof.
  intros Hs. unfold insert_sample. fold (started tid s). set (n := Z.to_nat (index - co_last_index (sm_core s))).
  assert (sampler_ok (n + k) (started tid s)) as Hs0.
  { replace n with (Z.to_nat (sample_size index (sm_core s))) by (unfold n, sample_size; lia). destruct Hs as [Hl Hx Ha Hp Hc]. split; try done.
    by apply (allocation_later 0 _ (sm_core s)); [apply same_tree_filled|]. }
  match goal with |- context [accesses n ?st ?now tid pa va true _] =>
    destruct (accesses_total n k st now tid pa va true _ Hs0) as (r1 & s1 & -> & Hs1) end. cbn [mbind option_bind].
  destruct (run_migration_worked s1 (so_lru _ _ Hs1)) as [Hw Hc].
  destruct (run_caching_worked (run_migration s1)) as (s2 & Hr & Hw2); [rewrite Hc; apply Hs1|].
  destruct (1000 <=? _); [rewrite Hr|]; cbn [mbind option_bind]; (eexists _, _; split; [done|]); apply finished_core;
    [eapply worked_ok; [|exact Hs1]; by eapply worked_trans|done].
Qed.

End accesses.

(** *** Records of a sample *)

(** The records that are taken. *)
Fixpoint taken (lbrs : list lbr) : list lbr :=
  match lbrs with [] => [] | l :: lbrs' => if lb_from l =? 0 then [] else l :: taken lbrs' end.

Lemma sum_ins_app r1 r2 : sum_ins (r1 ++ r2) = sum_ins r1 + sum_ins r2.
Proof. unfold sum_ins. by rewrite fmap_app, zsum_app. Qed.

(** The records that stay are the longest end of all records with at most 512 instructions. *)
Definition longest_end (all ring : list lbr) : Prop :=
  ∃ dropped, all = dropped ++ ring ∧ sum_ins ring <= ROB_SIZE ∧ ∀ l, last dropped = Some l → ROB_SIZE < ins_of l + sum_ins ring.

Lemma longest_end_trans all rest r1 r2 : longest_end all r1 → longest_end (r1 ++ rest) r2 → longest_end (all ++ rest) r2.
Proof.
  intros (d1 & -> & H1 & Hm1) (d2 & Hr & H2 & Hm2). exists (d1 ++ d2). split_and!; [by rewrite <- !(assoc (++)), Hr|done|].
  intros l Hl. destruct d2 as [|x d2]; [|apply Hm2; by rewrite last_app_cons in Hl].
  simpl in Hr. rewrite app_nil_r in Hl. apply Hm1 in Hl. rewrite <- Hr, sum_ins_app. pose proof (sum_ins_nonneg rest). lia.
Qed.

Lemma thread_of_set tid t ring c : thread_of tid (set_threads ring (<[tid := t]> (co_thread_map c)) c) = t.
Proof. unfold thread_of. simpl. by rewrite lookup_insert_eq. Qed.

Lemma insert_records_spec tid lbrs : ∀ c, window (co_ring_buffer c) (thread_of tid c) → sum_ins (co_ring_buffer c) <= ROB_SIZE →
  ∃ ring m, insert_records tid lbrs c = Some (set_threads ring m c) ∧ window ring (default new_thread (m !! tid)) ∧
    longest_end (co_ring_buffer c ++ taken lbrs) ring.
Proof.
  induction lbrs as [|l lbrs IH]; intros c Hw Hs; cbn [insert_records taken]; [|destruct (lb_from l =? 0)].
  1,2: exists (co_ring_buffer c), (co_thread_map c); split_and!; [by destruct c|done|rewrite app_nil_r; by exists []].
  destruct (insert_one_spec l _ _ Hw) as (d & ring & t & -> & Hd & Hw' & Hs' & Hm). cbn [mbind option_bind].
  match goal with |- context [insert_records tid lbrs ?c1] => destruct (IH c1) as (ring2 & m2 & -> & Hw2 & Hl2) end.
  - by rewrite thread_of_set.
  - done.
  - exists ring2, m2. split_and!; [done|done|]. change (l :: taken lbrs) with ([l] ++ taken lbrs). rewrite (assoc (++)).
    eapply longest_end_trans; [|exact Hl2]. by exists d.
Qed.

Lemma any_local_length addr xs : ∀ st, length (any_local addr xs st).2 = length st.
Proof.
  induction xs as [|x xs IH]; intros st; cbn [any_local]; [done|]. destruct (st !! x); [|done].
  destruct (is_address_local addr _) as [[] e']; [|rewrite IH]; apply length_insert.
Qed.

Lemma contains_address_length addr sw : ∀ st, length (contains_address addr sw st).2 = length st.
Proof.
  induction sw as [d sws IH] using switch_nested_ind. intros st. cbn [contains_address].
  pose proof (any_local_length addr (sd_expanders d) st) as H1. destruct (any_local _ _ _) as [[] st1]; [done|]. simpl in H1.
  rewrite <- H1. clear H1 st. revert st1. induction IH as [|s sws Hs _ IHs]; intros st; [done|].
  specialize (Hs st). destruct (contains_address addr s st) as [[] st']; [done|]. simpl in Hs. rewrite IHs. done.
Qed.

Lemma contained_window_length sw elem : ∀ n f l st, length (contained_window sw elem n f l st).2 = length st.
Proof.
  induction elem as [|[ts a] elem IH]; intros n f l st; cbn [contained_window]; [done|].
  pose proof (contains_address_length a sw st) as H1. destruct (contains_address a sw st) as [[] st1]; by rewrite IH.
Qed.

Lemma bandwidth_length elem sw st : length (sw_calculate_bandwidth elem sw st).2 = length st.
Proof.
  apply traverse_length. intros d s st1. unfold switch_penalty. destruct elem; [done|].
  match goal with |- context [contained_window ?s ?e ?n ?f ?l ?st] => pose proof (contained_window_length s e n f l st) as H1;
    destruct (contained_window s e n f l st) as [[[n1 f1] l1] st2] end. simpl in H1. by destruct (0 <? n1).
Qed.

Lemma fmax_zero_nn x : fnn (fmax x f0).
Proof. unfold fmax, flt, SFltb. destruct x as [|[]| |[] m e]; simpl; done. Qed.

(** What a sample of branch records does to the controller. *)
Record records_taken (tid : Z) (lbrs : list lbr) (c c' : Core) : Prop := {
  rt_window : window (co_ring_buffer c') (thread_of tid c');
  rt_end : longest_end (co_ring_buffer c ++ taken lbrs) (co_ring_buffer c');
  rt_latency : fnn (co_latency_lat c) → fnn (co_latency_lat c');
  rt_bandwidth : fnn (co_bandwidth_lat c) → fnn (co_bandwidth_lat c');
  rt_lru : co_lru_cache c' = co_lru_cache c;
  rt_cur : cn_cur_expanders (co_tree c') = cn_cur_expanders (co_tree c);
  rt_store : length (cn_store (co_tree c')) = length (cn_store (co_tree c))
}.

Lemma account_spec `{CastUB} ts t c :
  (fnn (co_latency_lat c) → fnn (co_latency_lat (account ts t c))) ∧ (fnn (co_bandwidth_lat c) → fnn (co_bandwidth_lat (account ts t c))) ∧
  co_lru_cache (account ts t c) = co_lru_cache c ∧ co_ring_buffer (account ts t c) = co_ring_buffer c ∧
  co_thread_map (account ts t c) = co_thread_map c ∧ cn_cur_expanders (co_tree (account ts t c)) = cn_cur_expanders (co_tree c) ∧
  length (cn_store (co_tree (account ts t c))) = length (cn_store (co_tree c)).
Proof.
  unfold account. set (sw := cn_switch (co_tree c)).
  pose proof (traverse_length (nothing []) (get_access ts) app sw ltac:(done) (cn_store (co_tree c))) as H1. fold (sw_get_access ts) in H1.
  destruct (sw_get_access ts sw _) as [accs st1]. simpl in H1.
  match goal with |- context [each_expander ?op fadd ?xs f0 st1] => pose proof (each_length op fadd xs f0 st1) as H2;
    destruct (each_expander op fadd xs f0 st1) as [total st2] end. simpl in H2.
  destruct (calculate_congestion sw st2) as [[cong ts'] sw'].
  pose proof (bandwidth_length accs sw' st2) as H3. destruct (sw_calculate_bandwidth accs sw' st2) as [bw st3]. simpl in H3.
  split_and!; try done; simpl; [intros Hl; apply fadd_nn; [done|apply fmax_zero_nn]..|lia].
Qed.

Lemma rob_loop_grows l r base d total n e : grows 0 e (rob_loop l r base d total n e).2.
Proof.
  revert total n e. induction l as [|[ts a] l IH]; intros total n e; cbn [rob_loop]; [apply grows_refl|].
  pose proof (is_local_grows a e) as Hl. destruct (is_address_local a e) as [[] e1]; (apply (grows_trans 0 0 e e1); [exact Hl|apply IH]).
Qed.

Lemma rob_latency_grows l t d e : grows 0 e (get_endpoint_rob_latency l t d e).2.
Proof.
  unfold get_endpoint_rob_latency. match goal with |- context [rob_loop l ?r ?b d f0 0 ?x] => pose proof (rob_loop_grows l r b d f0 0 x) as Hl;
    destruct (rob_loop l r b d f0 0 x) as [[t' n] e1] end. cbn [snd] in *. apply (grows_trans 0 0 _ _ _ (update_address_grows e) Hl).
Qed.

Lemma own_congestion_expanders d st lat ts : sd_expanders (own_congestion d st lat ts).2 = sd_expanders d.
Proof. unfold own_congestion. destruct (scan _ _ _ _). by destruct (foldl _ _ _). Qed.

Lemma congestion_places sw st : positions (calculate_congestion sw st).2 = positions sw.
Proof.
  induction sw as [d sws IH] using switch_nested_ind. cbn [calculate_congestion].
  match goal with |- context [match ?x with _ => _ end] => assert (List.map positions x.2 = List.map positions sws) as Hm end.
  { generalize f0 as lat. generalize (@nil Z) as ts. induction IH as [|s sws Hs _ IHs]; intros ts lat; [done|].
    destruct (calculate_congestion s st) as [[l1 c1] s1]. cbn [snd] in Hs. specialize (IHs (ts ++ c1) (lat + l1)%f64).
    match goal with |- context [match ?x with _ => _ end] => destruct x as [[l2 t2] sws2] end. cbn [snd List.map] in *. by rewrite Hs, IHs. }
  match goal with |- context [match ?x with _ => _ end] => destruct x as [[lat ts] sws'] end. cbn [snd] in Hm.
  pose proof (own_congestion_expanders d st lat ts) as Hd. destruct (own_congestion d st lat ts) as [[lat' rest] d']. cbn [snd positions] in *. by rewrite Hd, Hm.
Qed.

Lemma account_filled `{CastUB} ts t c : filled 0 c (account ts t c).
Proof.
  unfold account. set (sw := cn_switch (co_tree c)).
  pose proof (traverse_grown (nothing []) (get_access ts) app sw (λ _ _ st, grown_refl st) (get_access_grows ts) (cn_store (co_tree c))) as H1.
  fold (sw_get_access ts) in H1. destruct (sw_get_access ts sw _) as [accs st1]. cbn [snd] in H1.
  pose proof (each_grown (get_endpoint_rob_latency accs t (co_dramlatency c)) fadd (positions sw) (rob_latency_grows accs t _) f0 st1) as H2.
  destruct (each_expander _ fadd _ f0 st1) as [total st2]. cbn [snd] in H2.
  pose proof (congestion_places sw st2) as H4. destruct (calculate_congestion sw st2) as [[cong ts'] sw']. cbn [snd] in H4.
  pose proof (sw_bandwidth_grown accs sw' st2) as H3. destruct (sw_calculate_bandwidth accs sw' st2) as [bw st3]. cbn [snd] in H3.
  split; try done. simpl. exact (grown_quiet _ _ _ (grown_quiet _ _ _ H1 H2) H3).
Qed.

Lemma insert_lbrs_spec `{CastUB} ts tid lbrs c : window (co_ring_buffer c) (thread_of tid c) → sum_ins (co_ring_buffer c) <= ROB_SIZE →
  ∃ c', insert_lbrs ts tid lbrs c = Some c' ∧ records_taken tid lbrs c c'.
Proof.
  intros Hw Hs. unfold insert_lbrs. destruct (insert_records_spec tid lbrs c Hw Hs) as (ring & m & -> & Hw' & He). cbn [mbind option_bind].
  set (t := thread_of tid _). set (c2 := set_threads _ _ _). destruct (account_spec ts t c2) as (Hlat & Hbw & Hl & Hr & Hm & Hx & Hn).
  eexists. split; [done|]. split; try done.
  - rewrite Hr. unfold thread_of. rewrite Hm. simpl. by rewrite lookup_insert_eq.
  - by rewrite Hr.
Qed.

(** The scan of the timestamps removes one of them for each conflict, keeps the last one,
    and ends within as many turns as there are timestamps. *)
Lemma scan_counts fuel : ∀ before rest k, (length rest <= fuel)%nat →
  let '(n, out) := scan fuel before rest k in
  (n + length out = k + length before + length rest)%nat ∧ (rest ≠ [] → out ≠ []) ∧
  ∀ fuel', (fuel <= fuel')%nat → scan fuel' before rest k = (n, out).
Proof.
  induction fuel as [|fuel IH]; intros before rest k Hf.
  { destruct rest; [|simpl in Hf; lia]. simpl. rewrite app_nil_r. split_and!; [lia|done|]. intros [|f] _; simpl; by rewrite app_nil_r. }
  destruct rest as [|a [|b rest]].
  1,2: cbn [scan]; split_and!; [rewrite length_app; simpl; lia|by destruct before|intros [|f] Hf'; [lia|done]].
  cbn [scan]. set (l := b :: rest) in *. assert (length (removelast l) = length rest) as Hr by (rewrite removelast_take, length_take; simpl; lia).
  destruct (b -w a <? 2000) eqn:E.
  - specialize (IH before (default b (last l) :: removelast l) (S k)). destruct (scan fuel _ _ _) as [n out].
    destruct IH as (H1 & H2 & H3); [simpl in *; lia|]. split_and!; [simpl in *; lia|intros _; by apply H2|].
    intros [|f] Hf'; [lia|]. unfold l. cbn [scan]. fold l. rewrite E. apply H3. lia.
  - specialize (IH (before ++ [a]) l k). destruct (scan fuel _ _ _) as [n out].
    destruct IH as (H1 & H2 & H3); [simpl in *; lia|]. rewrite length_app in H1. split_and!; [simpl in *; lia|intros _; by apply H2|].
    intros [|f] Hf'; [lia|]. unfold l. cbn [scan]. fold l. rewrite E. apply H3. lia.
Qed.

(** ** Properties *)

(** C18. A sample is always handled by a controller that takes its accesses ([sampler_ok]):
    it has a caching policy and no decoder, and allocates by the base class, by NUMA, or
    interleaved with room for them.  Every access since the last index is counted exactly
    once, as local, remote or a hit in the cache, also when the policies run; the index
    and timestamp of the sample are kept; and [k] accesses more can follow, if there
    was room for them. *)
Theorem sample_counted `{CastUB} k ts tid pa va index s :
  sampler_ok (Z.to_nat (sample_size index (sm_core s)) + k) s →
  ∃ res s', insert_sample ts tid pa va index s = Some (res, s') ∧ sampler_ok k s' ∧
    u64 (misses (sm_core s') + hits (sm_core s')) = u64 (misses (sm_core s) + hits (sm_core s) + sample_size index (sm_core s)) ∧
    co_last_index (sm_core s') = (if 0 <? index then index else co_last_index (sm_core s)) ∧ co_last_timestamp (sm_core s') = ts.
Proof.
  intros Hs. destruct (sample_total k ts tid pa va index s Hs) as (res & s' & Hi & Hs'). exists res, s'.
  split; [done|]. split; [done|]. split; [|split; [eapply sample_index; [apply Hs|exact Hi]|]];
    apply sample_split in Hi as (s1 & s2 & n & Hb & Hw & ->); try apply Hs;
    destruct (finished_core ts (if 0 <? index then index else co_last_index (sm_core s2)) n s2) as (Hm & Hh & _ & Ht & _); [|done].
  rewrite Hm, Hh. destruct Hw as [->|Hw]; [|rewrite (wk_misses _ _ Hw), (wk_hits _ _ Hw)]; apply (bt_counts _ _ _ _ Hb).
Qed.

(** With a caching policy that keeps lines, a sample goes to memory at most once: once if
    the line is not in the cache, and all its other accesses are hits. *)
Theorem sample_one_miss `{CastUB} ts tid pa va index s :
  sampler_ok (Z.to_nat (sample_size index (sm_core s))) s → caches s →
  ∃ res s', insert_sample ts tid pa va index s = Some (res, s') ∧
    let m := if contains (co_lru_cache (sm_core s)) pa then 0 else Z.min 1 (sample_size index (sm_core s)) in
    misses (sm_core s') = misses (sm_core s) +w m ∧ hits (sm_core s') = hits (sm_core s) +w (sample_size index (sm_core s) - m).
Proof.
  intros Hs Hc. rewrite <- (Nat.add_0_r (Z.to_nat _)) in Hs. destruct (sample_total 0 ts tid pa va index s Hs) as (res & s' & Hi & Hs'). exists res, s'. split; [done|].
  apply sample_split in Hi as (s1 & s2 & n & Hb & Hw & ->); [|apply Hs].
  destruct (finished_core ts (if 0 <? index then index else co_last_index (sm_core s2)) n s2) as (-> & -> & _).
  destruct (bt_caches _ _ _ _ Hb Hc) as (_ & Hm & Hh & _).
  destruct Hw as [->|Hw]; [|rewrite (wk_misses _ _ Hw), (wk_hits _ _ Hw)]; by split.
Qed.

(** Back invalidation is always defined: the listed lines leave the cache and all
    expanders below the controller, every other line stays in its place, and the counter
    of back invalidations grows by what was removed. *)
Theorem back_invalidation_exact c l :
  lru_ok (co_lru_cache c) →
  ∃ c', invalidate_all l c = Some c' ∧ lru_ok (co_lru_cache c') ∧
    recency (co_lru_cache c') = foldl (λ r a, spec_drop a r) (recency (co_lru_cache c)) l ∧
    (∀ x e, cn_store (co_tree c) !! x = Some e → ∃ e', cn_store (co_tree c') !! x = Some e' ∧
       xp_occupation e' = if decide (x ∈ positions (cn_switch (co_tree c))) then without_all l (xp_occupation e) else xp_occupation e) ∧
    u64 (ct_backinv (co_counter c')) = ct_backinv (co_counter c) +w
      (lru_size (co_lru_cache c) - lru_size (co_lru_cache c') + entries (cn_store (co_tree c)) - entries (cn_store (co_tree c'))).
Proof.
  intros Hok. destruct (invalidate_all_spec l c Hok) as (c' & Hc' & [_ Hl Hr Hs Hn]). by exists c'.
Qed.

(** Moving an address between the local memory and the expanders keeps all entries, while
    no local entry has the current timestamp. *)
Theorem migrate_conserves addr c :
  Forall (λ x, (x < length (cn_store (co_tree c)))%nat) (sd_expanders (root c)) → co_occupation c !! co_last_timestamp c = None →
  all_entries (migrate addr c) ≡ₚ all_entries c.
Proof. apply migrate_all_entries. Qed.

(** C27. While one thread is sampled (the ring buffer is shared by all of them and the
    counts are not), a sample of branch records is always handled: the records in the
    ring buffer are then the longest end of all records with at most 512 instructions,
    the counts of the thread are exactly those of these records, and the latencies of
    the controller do not become negative. *)
Theorem window_exact `{CastUB} ts tid lbrs c :
  window (co_ring_buffer c) (thread_of tid c) → sum_ins (co_ring_buffer c) <= ROB_SIZE →
  ∃ c', insert_lbrs ts tid lbrs c = Some c' ∧ window (co_ring_buffer c') (thread_of tid c') ∧
    longest_end (co_ring_buffer c ++ taken lbrs) (co_ring_buffer c') ∧
    (fnn (co_latency_lat c) → fnn (co_latency_lat c')) ∧ (fnn (co_bandwidth_lat c) → fnn (co_bandwidth_lat c')).
Proof. intros Hw Hs. destruct (insert_lbrs_spec ts tid lbrs c Hw Hs) as (c' & Hc & []). by exists c'. Qed.

(** ** Witnesses *)

#[local] Instance ex_sampler_cast : CastUB := λ _, 0.

(** Two expanders below one switch, and no local memory. *)
Definition ex_sampled_core : Core :=
  set_tree {| cn_switch := CXLSwitch_new 0 [] [CXLSwitch_new 1 [0%nat; 1%nat] []]; cn_store := [ex_policy_expander 200 0; ex_policy_expander 400 1];
              cn_cur_expanders := [0%nat; 1%nat]; cn_remote := 0 |} (CXLController_new 0 PAGE (f64_of_Z 110)).

(** The policies of the trace simulator (src/rob.cc), with a page-table walk. *)
Definition ex_fresh_interleave : InterleavePolicy := {| ip_last_remote := 0; ip_all_size := 0; ip_percentage := [] |}.

Definition ex_sampler : Sampler :=
  {| sm_core := ex_sampled_core; sm_allocation := Interleave ex_fresh_interleave; sm_migration := Some MigrationBase;
     sm_paging := Some (HugePage (HugePagePolicy_new 100 300)); sm_caching := Some CachingBase |}.

(** The expanders have a gigabyte each. *)
Lemma ex_interleave_fits n : Z.of_nat n < 262144 → interleave_fits n ex_sampled_core ex_fresh_interleave.
Proof.
  intros Hn. split; [by left|done|]. exists [ex_policy_expander 200 0; ex_policy_expander 400 1].
  assert (shares_of ex_fresh_interleave [ex_policy_expander 200 0; ex_policy_expander 400 1] = [6; 3]) as -> by (vm_compute; reflexivity).
  split_and!; [vm_compute; reflexivity|done|repeat constructor; lia|]. right. exists 0%nat, 0%nat, (ex_policy_expander 200 0), 6. split_and!; try done.
  unfold fits_more. change (length _) with 0%nat. change (times _ _) with 1%nat. change (per_size _) with 4096. change (xp_capacity _) with 1024.
  apply Z.div_lt_upper_bound; [done|]. apply Z.div_lt_upper_bound; [done|]. lia.
Qed.

Lemma ex_sampler_ok n : Z.of_nat n < 262144 → sampler_ok n ex_sampler.
Proof.
  intros Hn. split; [apply LRUCache_new_ok; vm_compute; split; congruence|simpl; repeat constructor| |apply HugePagePolicy_new_ok|by eexists].
  by apply ex_interleave_fits.
Qed.

Lemma sample_counted_witness :
  sampler_ok (Z.to_nat (sample_size 5 (sm_core ex_sampler)) + 100) ex_sampler ∧
  ∃ res s', insert_sample 1000 7 4096 65536 5 ex_sampler = Some (res, s') ∧ sampler_ok 100 s' ∧ co_last_index (sm_core s') = 5.
Proof.
  assert (sampler_ok (Z.to_nat (sample_size 5 (sm_core ex_sampler)) + 100) ex_sampler) as Hs by (apply ex_sampler_ok; vm_compute; reflexivity).
  split; [exact Hs|]. destruct (sample_counted 100 1000 7 4096 65536 5 ex_sampler Hs) as (res & s' & Hi & Hs' & _ & Hx & _).
  exists res, s'. split; [exact Hi|]. split; [exact Hs'|exact Hx].
Defined.

Lemma sample_one_miss_witness :
  caches ex_sampler ∧
  ∃ res s', insert_sample 1000 7 4096 65536 5 ex_sampler = Some (res, s') ∧ misses (sm_core s') = 1 ∧ hits (sm_core s') = 4.
Proof.
  assert (sampler_ok (Z.to_nat (sample_size 5 (sm_core ex_sampler))) ex_sampler) as Hs by (apply ex_sampler_ok; vm_compute; reflexivity).
  split; [exact I|]. destruct (sample_one_miss 1000 7 4096 65536 5 ex_sampler Hs I) as (res & s' & Hi & Hm & Hh).
  exists res, s'. split; [exact Hi|]. split; [exact Hm|exact Hh].
Defined.

(** An expander that has the address 64 twice and the address 128. *)
Definition ex_full_expander (id : Z) : CXLMemExpander :=
  note_access 3 128 0 (note_access 2 64 0 (note_access 1 64 0 (ex_policy_expander 200 id))).

Definition ex_occupied_core : Core :=
  set_tree {| cn_switch := CXLSwitch_new 0 [] [CXLSwitch_new 1 [0%nat] []]; cn_store := [ex_full_expander 0]; cn_cur_expanders := [0%nat];
              cn_remote := 0 |} (CXLController_new 0 PAGE (f64_of_Z 110)).

Lemma ex_occupied_lru : lru_ok (co_lru_cache ex_occupied_core).
Proof. apply LRUCache_new_ok. vm_compute. split; congruence. Qed.

Lemma back_invalidation_exact_witness :
  lru_ok (co_lru_cache ex_occupied_core) ∧
  ∃ c' e', invalidate_all [64] ex_occupied_core = Some c' ∧ cn_store (co_tree c') !! 0%nat = Some e' ∧ seen e' = [128].
Proof.
  split; [apply ex_occupied_lru|]. destruct (back_invalidation_exact ex_occupied_core [64] ex_occupied_lru) as (c' & Hc & _ & _ & Hs & _).
  destruct (Hs 0%nat (ex_full_expander 0) eq_refl) as (e' & He & Ho). exists c', e'. split; [exact Hc|]. split; [exact He|].
  unfold seen. rewrite Ho. vm_compute. reflexivity.
Defined.

Lemma migrate_conserves_witness :
  co_occupation ex_occupied_core !! co_last_timestamp ex_occupied_core = None ∧
  length (all_entries ex_occupied_core) = 3%nat ∧ all_entries (migrate 64 ex_occupied_core) ≡ₚ all_entries ex_occupied_core.
Proof.
  split; [reflexivity|]. split; [reflexivity|]. apply migrate_conserves; [simpl; constructor|reflexivity].
Defined.

(** A record of [n] instructions and [m] misses. *)
Definition ex_record (n m : Z) : lbr := {| lb_from := 1; lb_to := 2; lb_flags := n * 65536 + m |}.

Lemma ex_window tid : window (co_ring_buffer ex_sampled_core) (thread_of tid ex_sampled_core).
Proof. by split. Qed.

Lemma window_exact_witness :
  sum_ins (co_ring_buffer ex_sampled_core) <= ROB_SIZE ∧
  ∃ c', insert_lbrs 1000 7 [ex_record 300 1; ex_record 200 2; ex_record 100 3] ex_sampled_core = Some c' ∧
    longest_end [ex_record 300 1; ex_record 200 2; ex_record 100 3] (co_ring_buffer c').
Proof.
  split; [vm_compute; congruence|].
  destruct (window_exact 1000 7 [ex_record 300 1; ex_record 200 2; ex_record 100 3] ex_sampled_core (ex_window 7)) as (c' & Hc & _ & He & _).
  - vm_compute. congruence.
  - exists c'. split; [exact Hc|exact He].
Defined.

(** ** Observations *)

(** No migration policy ever moves anything: the controller asks for the list through the
    base class, whose function is not virtual. *)
Lemma migration_never_moves s : sm_core (run_migration s) = sm_core s.
Proof.
  unfold run_migration. destruct (sm_migration s) as [p|]; [|done]. destruct (migrate_once p (sm_core s)) as [r p'].
  rewrite perform_migration_same. by destruct (positive r).
Qed.

(** Two entries that are moved to the local memory in one call have the same key there:
    the second one is erased from its expander and kept nowhere. *)
Lemma second_migration_lost :
  length (all_entries ex_occupied_core) = 3%nat ∧ length (all_entries (migrate_list [(64, 4096); (128, 4096)] ex_occupied_core)) = 2%nat.
Proof. split; vm_compute; reflexivity. Qed.

(** Every entry that [insert] makes in the local memory has the address 1, whatever was
    accessed, so these are the only addresses that the FIFO policy invalidates. *)
Lemma local_entries_address_one `{CastUB} ts tid pa va index s res s' :
  lru_ok (co_lru_cache (sm_core s)) → entries_local (sm_core s) → insert_sample ts tid pa va index s = Some (res, s') →
  entries_local (sm_core s') ∧ ∀ a, a ∈ (get_invalidation_list FIFO (sm_core s')).1 → a = 1.
Proof.
  intros Hok Hl Hi. apply sample_split in Hi as (s1 & s2 & n & Hb & Hw & Hs'); [|done].
  assert (entries_local (sm_core s')) as Hl'.
  { unfold entries_local. cbn zeta in Hs'. subst s'. change (co_occupation (sm_core (set_core ?c s2))) with (co_occupation (sm_core s2)).
    pose proof (bt_local _ _ _ _ Hb Hl) as H1. destruct Hw as [->|Hw]; [exact H1|]. by rewrite (wk_occupation _ _ Hw). }
  split; [done|]. intros a. simpl. unfold occupied_addresses. intros ([k o] & -> & Hin)%list_elem_of_fmap.
  apply in_order_elem in Hin. exact (Hl' _ _ Hin).
Qed.

(** The ring buffer is shared by the threads, the counts are not: when a thread drops the
    record of another one, it takes from its own empty queue. *)
Lemma two_threads_undefined :
  is_Some (insert_records 1 [ex_record 500 3] ex_sampled_core ≫= insert_records 2 [ex_record 100 0]) ∧
  insert_records 1 [ex_record 500 3] ex_sampled_core ≫= insert_records 2 [ex_record 100 0; ex_record 500 0] = None.
Proof. split; [refine (bool_decide_unpack _ _); by vm_compute|by vm_compute]. Qed.

(** Accesses that the endpoint has cost nothing, those it does not have are its latency. *)
Lemma own_accesses_skipped :
  (get_endpoint_rob_latency [(3, 128)] new_thread f0 (is_address_local 64 (ex_full_expander 0)).2).1 = f0 ∧
  flt f0 (get_endpoint_rob_latency [(3, 256)] new_thread f0 (is_address_local 64 (ex_full_expander 0)).2).1 = true.
Proof. split; vm_compute; reflexivity. Qed.
