(* ===== verification/RobRun.v ===== *)
(** * Traces on the controller

    Joins the trace simulator (src/rob.cc, src/rob.cpp) and the controller
    (src/cxlcontroller.cpp): the controller of Sampler.v is the [Timing] that the
    reorder buffer of Rob.v calls, so the theorems of both hold of the program.

    [Rob::issue] inserts the access with thread 0 and then a sample of 32 branch
    records that are all zero with thread 1; [Rob::canRetire] asks for the accesses
    and their latency. *)

From S2P Require Import Prelude Float64 LruCache Endpoint Policy Growth Sampler Topology Trace Rob.

Section run.
Context `{Hcast : CastUB}.

Definition empty_records : list lbr := replicate 32 {| lb_from := 0; lb_to := 0; lb_flags := 0 |}.

Definition on_tree {A : Type} (op : CXLSwitch → list CXLMemExpander → A * list CXLMemExpander) (s : Sampler) : A * Sampler :=
  let t := co_tree (sm_core s) in
  let '(a, st) := op (cn_switch t) (cn_store t) in (a, set_core (set_switch (cn_switch t) st (sm_core s)) s).

#[export] Instance sampler_timing : Timing Sampler := {|
  tm_insert ts tid pa va index s := snd <$> insert_sample ts tid pa va index s;
  tm_insert_lbrs ts tid s := c ← insert_lbrs ts tid empty_records (sm_core s); Some (set_core c s);
  tm_get_access ts s := on_tree (sw_get_access ts) s;
  tm_calculate_latency l d s := on_tree (sw_calculate_latency l d) s
|}.

Lemma on_tree_core {A} (op : CXLSwitch → list CXLMemExpander → A * list CXLMemExpander) s :
  (∀ sw st, grown nowhere st (op sw st).2) →
  let s' := (on_tree op s).2 in filled 0 (sm_core s) (sm_core s') ∧ co_lru_cache (sm_core s') = co_lru_cache (sm_core s) ∧
    co_last_index (sm_core s') = co_last_index (sm_core s) ∧ ∃ c, s' = set_core c s.
Proof.
  intros Hop. unfold on_tree. specialize (Hop (cn_switch (co_tree (sm_core s))) (cn_store (co_tree (sm_core s)))).
  destruct (op _ _) as [a st]. cbn [snd] in *. split; [by split|]. split_and!; [done|done|by eexists].
Qed.

Lemma empty_records_taken ts tid c : ∃ c', insert_lbrs ts tid empty_records c = Some c' ∧ filled 0 c c' ∧
  co_lru_cache c' = co_lru_cache c ∧ co_last_index c' = co_last_index c.
Proof.
  unfold insert_lbrs. change (insert_records tid empty_records c) with (Some c). cbn [mbind option_bind].
  set (c2 := set_threads _ _ c). eexists. split; [done|]. destruct (account_filled ts (thread_of tid c) c2) as [H1 H2 H3 H4].
  split; [by split|]. unfold account. repeat case_match. done.
Qed.

(** A core that has not grown takes the same accesses. *)
Lemma quiet_ok n c s : filled 0 (sm_core s) c → co_lru_cache c = co_lru_cache (sm_core s) → sampler_ok n s → sampler_ok n (set_core c s).
Proof.
  intros Hf Hl [Hlru Hx Ha Hp Hc]. split; simpl; try done; [by rewrite Hl| |by apply (allocation_later 0 n (sm_core s))].
  rewrite (fl_cur _ _ _ Hf). destruct (fl_store _ _ _ Hf) as [-> _]. done.
Qed.

(** The controller after the access with index [k] of at most [limit]. *)
Definition ready (limit k : Z) (s : Sampler) : Prop := sampler_ok (Z.to_nat (limit - k)) s ∧ co_last_index (sm_core s) = k.

Lemma quiet_ready limit k c s :
  filled 0 (sm_core s) c → co_lru_cache c = co_lru_cache (sm_core s) → co_last_index c = co_last_index (sm_core s) → ready limit k s → ready limit k (set_core c s).
Proof. intros Hf Hl Hi [Hs Hk]. split; [by apply quiet_ok|simpl; congruence]. Qed.

#[export] Instance sampler_timing_within limit : TimingWithin Sampler (ready limit) limit.
Proof.
  split.
  - intros ts tid pa va k s [Hs Hk] Hlt. assert (sample_size (k + 1) (sm_core s) = 1) as Hn by (unfold sample_size; lia).
    destruct (sample_total (Z.to_nat (limit - (k + 1))) ts tid pa va (k + 1) s) as (r & s' & Hi & Hs').
    { rewrite Hn. replace (Z.to_nat 1 + Z.to_nat (limit - (k + 1)))%nat with (Z.to_nat (limit - k)) by lia. done. }
    exists s'. simpl. rewrite Hi. split; [done|]. split; [done|]. rewrite (sample_index _ _ _ _ _ _ _ _ (so_lru _ _ Hs) Hi).
    by rewrite (proj2 (Z.ltb_lt _ _)) by lia.
  - intros ts tid k s Hs. destruct (empty_records_taken ts tid (sm_core s)) as (c' & Hc & Hf & Hl & Hi). exists (set_core c' s).
    unfold tm_insert_lbrs, sampler_timing. rewrite Hc. split; [done|]. by apply quiet_ready.
  - intros ts k s Hs. destruct (on_tree_core (sw_get_access ts) s) as (Hf & Hl & Hi & c & Hc).
    { intros sw st. apply traverse_grown; [intros; apply grown_refl|apply get_access_grows]. }
    cbn [tm_get_access sampler_timing]. rewrite Hc in *. by apply quiet_ready.
  - intros l d k s Hs. destruct (on_tree_core (sw_calculate_latency l d) s) as (Hf & Hl & Hi & c & Hc).
    { intros sw st. apply traverse_grown; [intros; apply grown_refl|apply latency_grows]. }
    cbn [tm_calculate_latency sampler_timing]. rewrite Hc in *. by apply quiet_ready.
Qed.

End run.

(** C13. The trace simulator on a controller that has taken no access yet ends for every trace
    that can be written, with an empty reorder buffer: with base or NUMA allocation, and
    with the interleaved allocation that [main] chooses when one of the expanders with a
    positive share has room for all the memory accesses of the trace ([sampler_ok]),
    whatever the topology and the migration, paging and caching policies are.  (An
    allocation that finds no room does not return.) *)
Theorem trace_run_ends `{CastUB} interval l s old :
  sampler_ok (Z.to_nat (accesses_of l)) s → co_last_index (sm_core s) = 0 → accesses_of l < 2147483648 → Forall (λ ins, writable ins = true) l →
  ∃ r file, simulate interval l s old = Some (r, file) ∧ queue_ r = [] ∧ rb_counter r = accesses_of l ∧ sampler_ok 0 (controller_ r).
Proof.
  intros Hs Hk _ Hl. destruct (simulate_returns (ready (accesses_of l)) (accesses_of l) interval l s old) as (r & file & Hsim & Hq & Hc & [Hr _]);
    [split; [by rewrite Z.sub_0_r|done]|lia|done|]. rewrite Z.sub_diag in Hr. by exists r, file.
Qed.

(** ** Witness *)

#[local] Instance ex_run_cast : CastUB := λ _, 0.

(** Interleaved allocation to two expanders of one gigabyte, as [main] builds it. *)
Lemma trace_run_ends_witness :
  sampler_ok (Z.to_nat (accesses_of ex_instructions)) ex_sampler ∧
  ∃ r file, simulate 0 ex_instructions ex_sampler [] = Some (r, file) ∧ queue_ r = [] ∧ rb_counter r = 1.
Proof.
  assert (sampler_ok (Z.to_nat (accesses_of ex_instructions)) ex_sampler) as Hs by (apply ex_sampler_ok; vm_compute; reflexivity).
  split; [exact Hs|]. destruct (trace_run_ends 0 ex_instructions ex_sampler [] Hs) as (r & file & Hsim & Hq & Hc & _);
    [reflexivity|vm_compute; reflexivity|apply ex_writable|].
  exists r, file. split; [exact Hsim|]. split; [exact Hq|exact Hc].
Defined.
