(* ===== verification/Bytes.v ===== *)
(** * Bytes of memory

    Memory that is reached through pointers: a map from addresses to bytes, in
    which a byte that was never written is 0, with accesses to single bytes,
    blocks and little-endian words.  The MPI shim and the guest transport of
    GPU commands use it. *)

From S2P Require Import Prelude.

(** ** Accesses *)

Abbreviation Mem := (gmap Z Z).

Definition ld8 (m : Mem) (a : Z) : Z := default 0 (m !! a).
Definition st8 (a v : Z) (m : Mem) : Mem := <[a := v]> m.

Fixpoint ld_bytes (m : Mem) (a : Z) (n : nat) : list Z :=
  match n with O => [] | S n' => ld8 m a :: ld_bytes m (a + 1) n' end.

Fixpoint st_bytes (a : Z) (bs : list Z) (m : Mem) : Mem :=
  match bs with [] => m | b :: bs' => st_bytes (a + 1) bs' (st8 a b m) end.

(** 8-byte accesses. *)
Definition ld64 (m : Mem) (a : Z) : Z := le_decode (ld_bytes m a 8).
Definition st64 (a v : Z) (m : Mem) : Mem := st_bytes a (le_encode 8 v) m.

Definition mem_ok (m : Mem) : Prop := ∀ a, 0 <= ld8 m a < 256.

(** The byte that a block [bs] at [a] holds at [x]. *)
Definition byte_at (a : Z) (bs : list Z) (x : Z) : option Z := if x <? a then None else bs !! Z.to_nat (x - a).

(** ** Lemmas *)

Lemma ld8_st8 a v m x : ld8 (st8 a v m) x = if x =? a then v else ld8 m x.
Proof.
  unfold ld8, st8. destruct (Z.eqb_spec x a) as [->|]; [by rewrite lookup_insert_eq|].
  by rewrite lookup_insert_ne by done.
Qed.

Lemma ld8_st_bytes a bs m x : ld8 (st_bytes a bs m) x = default (ld8 m x) (byte_at a bs x).
Proof.
  revert a m. induction bs as [|b bs IH]; intros a m; cbn [st_bytes].
  - unfold byte_at. case_match; done.
  - rewrite IH, ld8_st8. unfold byte_at. destruct (Z.eqb_spec x a) as [->|Hne].
    + rewrite (proj2 (Z.ltb_lt a (a + 1))), (proj2 (Z.ltb_ge a a)) by lia. by rewrite Z.sub_diag.
    + destruct (Z.ltb_spec x a).
      * by rewrite (proj2 (Z.ltb_lt x (a + 1))) by lia.
      * rewrite (proj2 (Z.ltb_ge x (a + 1))) by lia.
        replace (Z.to_nat (x - a)) with (S (Z.to_nat (x - (a + 1)))) by lia. done.
Qed.

Lemma ld_bytes_length m a n : length (ld_bytes m a n) = n.
Proof. revert a. induction n as [|n IH]; intros a; cbn; auto. Qed.

Lemma ld_bytes_lookup m a n i : (i < n)%nat → ld_bytes m a n !! i = Some (ld8 m (a + Z.of_nat i)).
Proof.
  revert a i. induction n as [|n IH]; intros a [|i] Hi; try lia.
  - cbn. by rewrite Z.add_0_r.
  - change (ld_bytes m (a + 1) n !! i = Some (ld8 m (a + Z.of_nat (S i)))). rewrite (IH (a + 1) i) by lia. do 2 f_equal. lia.
Qed.

Lemma le_encode_decode bs : Forall (λ b, 0 <= b < 256) bs → le_encode (length bs) (le_decode bs) = bs.
Proof.
  induction 1 as [|b bs Hb _ IH]; [done|]. cbn [length le_decode le_encode].
  rewrite (Z.mul_comm 256), Z_mod_plus_full, Z.mod_small by done.
  rewrite Z.div_add, Z.div_small, Z.add_0_l by done. by rewrite IH.
Qed.

Lemma ld_bytes_range m a n : mem_ok m → Forall (λ b, 0 <= b < 256) (ld_bytes m a n).
Proof. intros Hm. revert a. induction n as [|n IH]; intros a; constructor; auto. Qed.

Lemma st_bytes_ok a bs m : mem_ok m → Forall (λ b, 0 <= b < 256) bs → mem_ok (st_bytes a bs m).
Proof.
  intros Hm Hb x. rewrite ld8_st_bytes. unfold byte_at. case_match; cbn; [apply Hm|].
  destruct (bs !! _) eqn:E; cbn; [|apply Hm]. rewrite Forall_lookup in Hb. by eapply Hb.
Qed.

Lemma empty_mem_ok : mem_ok ∅.
Proof. intros a. unfold ld8. rewrite lookup_empty. cbn. lia. Qed.

Lemma ld_st_bytes a bs m : ld_bytes (st_bytes a bs m) a (length bs) = bs.
Proof.
  apply list_eq. intros k. destruct (decide (k < length bs)%nat) as [Hk|Hk].
  - rewrite ld_bytes_lookup by done. rewrite ld8_st_bytes. unfold byte_at. rewrite (proj2 (Z.ltb_ge _ _)) by lia.
    replace (Z.to_nat (a + Z.of_nat k - a)) with k by lia. by destruct (lookup_lt_is_Some_2 bs k Hk) as [b ->].
  - rewrite !lookup_ge_None_2; [done|lia|rewrite ld_bytes_length; lia].
Qed.

Lemma st_bytes_below a bs m x : x < a → ld8 (st_bytes a bs m) x = ld8 m x.
Proof. intros H. rewrite ld8_st_bytes. unfold byte_at. by rewrite (proj2 (Z.ltb_lt _ _)). Qed.

Lemma ld_bytes_take mem a k n : (k ≤ n)%nat → take k (ld_bytes mem a n) = ld_bytes mem a k.
Proof. revert a k. induction n as [|n IH]; intros a [|k] Hk; [done|lia|done|]. cbn. f_equal. apply IH. lia. Qed.

Lemma ld_bytes_sub mem a (k n : nat) m : (k + n ≤ m)%nat → ld_bytes mem (a + Z.of_nat k) n = take n (drop k (ld_bytes mem a m)).
Proof.
  intros Hk. apply list_eq. intros i. destruct (decide (i < n)%nat) as [Hi|Hi].
  - rewrite ld_bytes_lookup, lookup_take_lt, lookup_drop, ld_bytes_lookup by lia. do 2 f_equal. lia.
  - rewrite !lookup_ge_None_2; [done| |].
    + rewrite length_take, length_drop, ld_bytes_length. lia.
    + rewrite ld_bytes_length. lia.
Qed.

Lemma st_bytes_other a bs m x n : (x + Z.of_nat n <= a) → ld_bytes (st_bytes a bs m) x n = ld_bytes m x n.
Proof.
  intros H. apply list_eq. intros i. destruct (decide (i < n)%nat) as [Hi|Hi].
  - rewrite !ld_bytes_lookup by done. rewrite ld8_st_bytes. unfold byte_at. by rewrite (proj2 (Z.ltb_lt _ _)) by lia.
  - rewrite !lookup_ge_None_2; [done|rewrite ld_bytes_length; lia..].
Qed.

