(* ===== verification/MpiShim.v ===== *)
(** * The MPI shim: memory of the CXL region

    Models the base of src/workloads/gromacs/mpi_cxl_shim.c, a library that is
    loaded before MPI and lets the ranks of one node exchange data through a
    mapped CXL region: the copy loops that avoid vector instructions and the
    hooks of [memset], [memcpy] and [memmove], remotable pointers, the
    allocator, the initialisation of the region and the registration of ranks.

    A process has its own [cxl_mem_t]; the region [Shm] is shared.  Header and
    mailboxes are records, the bytes after them are a map from offsets.
    Outside the region, memory is a [Mem].  [NULL] is 0. *)

From S2P Require Import Prelude Bytes.

(** ** Copies without vector instructions *)

Fixpoint copy_words (fuel : nat) (d s n : Z) (m : Mem) : Z * Z * Z * Mem :=
  match fuel with
  | O => (d, s, n, m)
  | S fuel' =>
      if 8 <=? n then copy_words fuel' (d + 8) (s + 8) (n - 8) (st64 d (ld64 m s) m) else (d, s, n, m)
  end.

Fixpoint copy_bytes (fuel : nat) (d s n : Z) (m : Mem) : Mem :=
  match fuel with
  | O => m
  | S fuel' => if 0 <? n then copy_bytes fuel' (d + 1) (s + 1) (n - 1) (st8 d (ld8 m s) m) else m
  end.

Definition cxl_safe_memcpy (dst src n : Z) (m : Mem) : Mem :=
  let '(d, s, n, m) := copy_words (Z.to_nat n) dst src n m in copy_bytes (Z.to_nat n) d s n m.

Definition fill8 (c : Z) : Z :=
  let f := c mod 256 in
  let f := Z.lor f (u64 (Z.shiftl f 8)) in
  let f := Z.lor f (u64 (Z.shiftl f 16)) in
  Z.lor f (u64 (Z.shiftl f 32)).

Fixpoint set_words (fuel : nat) (d v n : Z) (m : Mem) : Z * Z * Mem :=
  match fuel with
  | O => (d, n, m)
  | S fuel' => if 8 <=? n then set_words fuel' (d + 8) v (n - 8) (st64 d v m) else (d, n, m)
  end.

Fixpoint set_bytes (fuel : nat) (d c n : Z) (m : Mem) : Mem :=
  match fuel with
  | O => m
  | S fuel' => if 0 <? n then set_bytes fuel' (d + 1) c (n - 1) (st8 d (c mod 256) m) else m
  end.

Definition cxl_safe_memset (dst c n : Z) (m : Mem) : Mem :=
  let '(d, n, m) := set_words (Z.to_nat n) dst (fill8 c) n m in set_bytes (Z.to_nat n) d c n m.

(** [while (n--) *--d = *--s] *)
Fixpoint move_back (fuel : nat) (d s n : Z) (m : Mem) : Mem :=
  match fuel with
  | O => m
  | S fuel' => if n =? 0 then m else move_back fuel' (d - 1) (s - 1) (n - 1) (st8 (d - 1) (ld8 m (s - 1)) m)
  end.

(** What libc's functions do. *)
Definition libc_memset (s c n : Z) (m : Mem) : Mem := st_bytes s (replicate (Z.to_nat n) (c mod 256)) m.
Definition libc_memmove (dst src n : Z) (m : Mem) : Mem := st_bytes dst (ld_bytes m src (Z.to_nat n)) m.

(** ** The state of a process *)

Definition CXL_MAX_RANKS : Z := 256.
Definition CXL_MSG_QUEUE_SIZE : Z := 64.
Definition CXL_MSG_MAX_INLINE_SIZE : Z := 256.
Definition CXL_ALIGNMENT : Z := 4096.
Definition CXL_RPTR_NULL : Z := u64 (-1).
Definition CXL_SHM_MAGIC : Z := 4852845105625746688.
Definition CXL_SHM_VERSION : Z := 1.

Record cxl_mem_t := {
  g_base : Z; g_size : Z; g_used : Z;
  g_initialized : bool;
  g_dax : bool;                 (** [type] is "dax" *)
  g_header : bool;              (** [header] is set *)
  g_my_rank : Z; g_world_size : Z; g_max_ranks : Z;
  g_cxl_comm_enabled : bool; g_all_ranks_local : bool
}.

Definition g_cxl : cxl_mem_t :=
  {| g_base := 0; g_size := 0; g_used := 0; g_initialized := false; g_dax := false; g_header := false;
     g_my_rank := -1; g_world_size := 0; g_max_ranks := CXL_MAX_RANKS;
     g_cxl_comm_enabled := false; g_all_ranks_local := false |}.

(** ** Remotable pointers *)

Definition ptr_to_rptr (g : cxl_mem_t) (ptr : Z) : Z :=
  if (ptr =? 0) || (g_base g =? 0) then CXL_RPTR_NULL
  else if (ptr <? g_base g) || (g_base g +w g_size g <=? ptr) then CXL_RPTR_NULL
  else ptr -w g_base g.

Definition rptr_to_ptr (g : cxl_mem_t) (rptr : Z) : Z :=
  if (rptr =? CXL_RPTR_NULL) || (g_base g =? 0) then 0
  else if g_size g <=? rptr then 0
  else g_base g +w rptr.

Definition is_cxl_ptr (g : cxl_mem_t) (ptr : Z) : bool :=
  if (ptr =? 0) || (g_base g =? 0) || negb (g_initialized g) then false
  else (g_base g <=? ptr) && (ptr <? g_base g +w g_size g).

(** ** The hooks of the memory functions *)

Definition memset (in_dlsym : bool) (g : cxl_mem_t) (s c n : Z) (m : Mem) : Mem :=
  if in_dlsym || is_cxl_ptr g s then cxl_safe_memset s c n m else libc_memset s c n m.

Definition memcpy (in_dlsym : bool) (g : cxl_mem_t) (dst src n : Z) (m : Mem) : Mem :=
  if in_dlsym || is_cxl_ptr g dst || is_cxl_ptr g src then cxl_safe_memcpy dst src n m
  else libc_memmove dst src n m.

Definition memmove (in_dlsym : bool) (g : cxl_mem_t) (dst src n : Z) (m : Mem) : Mem :=
  if in_dlsym || is_cxl_ptr g dst || is_cxl_ptr g src then
    if (dst <? src) || (src + n <=? dst) then cxl_safe_memcpy dst src n m
    else move_back (Z.to_nat n) (dst + n) (src + n) n m
  else libc_memmove dst src n m.

(** ** The shared region *)

Definition CXL_MSG_EMPTY : Z := 0.
Definition CXL_MSG_READY : Z := 1.
Definition CXL_MSG_READING : Z := 2.
Definition CXL_MSG_CONSUMED : Z := 3.

Record cxl_msg_t := {
  ms_state : Z; ms_source_rank : Z; ms_tag : Z; ms_count : Z; ms_datatype_size : Z;
  ms_data_rptr : Z; ms_data_size : Z;
  ms_inline_data : list Z;      (** 256 bytes *)
  ms_is_inline : Z
}.

Record cxl_rank_mailbox_t := {
  mb_head : Z; mb_tail : Z; mb_active : Z; mb_rank : Z;
  mb_hostname : list Z;         (** 64 bytes *)
  mb_pid : Z;
  mb_messages : list cxl_msg_t  (** 64 messages *)
}.

Record cxl_shm_header_t := {
  h_magic : Z; h_version : Z; h_num_ranks : Z; h_alloc_offset : Z; h_total_size : Z; h_initialized : Z;
  h_init_state : Z; h_coll_generation : Z;
  h_coll_barrier_count : Z; h_coll_barrier_sense : Z; h_coll_phase : Z; h_coll_max_ranks : Z;
  h_coll_data_rptr : list Z     (** one for each of 256 ranks *)
}.

(** The mapped region: header, mailboxes, and all bytes by offset. *)
Record Shm := { sh_header : cxl_shm_header_t; sh_mailboxes : list cxl_rank_mailbox_t; sh_mem : Mem }.

(** Sizes of the structures with their alignment to cache lines. *)
Definition sizeof_header : Z := 64 + CXL_MAX_RANKS * 8.
Definition sizeof_msg : Z := 320.
Definition sizeof_mailbox : Z := 128 + CXL_MSG_QUEUE_SIZE * sizeof_msg.
Definition CXL_HEADER_SIZE : Z := sizeof_header + CXL_MAX_RANKS * sizeof_mailbox.

(** What [cxl_safe_memset] to 0 makes of the structures. *)
Definition zero_msg : cxl_msg_t :=
  {| ms_state := CXL_MSG_EMPTY; ms_source_rank := 0; ms_tag := 0; ms_count := 0; ms_datatype_size := 0;
     ms_data_rptr := 0; ms_data_size := 0; ms_inline_data := replicate (Z.to_nat CXL_MSG_MAX_INLINE_SIZE) 0; ms_is_inline := 0 |}.
Definition zero_mailbox : cxl_rank_mailbox_t :=
  {| mb_head := 0; mb_tail := 0; mb_active := 0; mb_rank := 0; mb_hostname := replicate 64 0; mb_pid := 0;
     mb_messages := replicate (Z.to_nat CXL_MSG_QUEUE_SIZE) zero_msg |}.

Definition null_rptrs : list Z := replicate (Z.to_nat CXL_MAX_RANKS) CXL_RPTR_NULL.

Definition set_header (h : cxl_shm_header_t) (sh : Shm) : Shm :=
  {| sh_header := h; sh_mailboxes := sh_mailboxes sh; sh_mem := sh_mem sh |}.
Definition set_mailboxes (mbs : list cxl_rank_mailbox_t) (sh : Shm) : Shm :=
  {| sh_header := sh_header sh; sh_mailboxes := mbs; sh_mem := sh_mem sh |}.
Definition set_mem (m : Mem) (sh : Shm) : Shm :=
  {| sh_header := sh_header sh; sh_mailboxes := sh_mailboxes sh; sh_mem := m |}.

Definition set_alloc_offset (o : Z) (h : cxl_shm_header_t) : cxl_shm_header_t :=
  {| h_magic := h_magic h; h_version := h_version h; h_num_ranks := h_num_ranks h; h_alloc_offset := o;
     h_total_size := h_total_size h; h_initialized := h_initialized h; h_init_state := h_init_state h;
     h_coll_generation := h_coll_generation h; h_coll_barrier_count := h_coll_barrier_count h;
     h_coll_barrier_sense := h_coll_barrier_sense h; h_coll_phase := h_coll_phase h;
     h_coll_max_ranks := h_coll_max_ranks h; h_coll_data_rptr := h_coll_data_rptr h |}.
Definition set_num_ranks (n : Z) (h : cxl_shm_header_t) : cxl_shm_header_t :=
  {| h_magic := h_magic h; h_version := h_version h; h_num_ranks := n; h_alloc_offset := h_alloc_offset h;
     h_total_size := h_total_size h; h_initialized := h_initialized h; h_init_state := h_init_state h;
     h_coll_generation := h_coll_generation h; h_coll_barrier_count := h_coll_barrier_count h;
     h_coll_barrier_sense := h_coll_barrier_sense h; h_coll_phase := h_coll_phase h;
     h_coll_max_ranks := h_coll_max_ranks h; h_coll_data_rptr := h_coll_data_rptr h |}.
Definition set_coll_data_rptr (l : list Z) (h : cxl_shm_header_t) : cxl_shm_header_t :=
  {| h_magic := h_magic h; h_version := h_version h; h_num_ranks := h_num_ranks h; h_alloc_offset := h_alloc_offset h;
     h_total_size := h_total_size h; h_initialized := h_initialized h; h_init_state := h_init_state h;
     h_coll_generation := h_coll_generation h; h_coll_barrier_count := h_coll_barrier_count h;
     h_coll_barrier_sense := h_coll_barrier_sense h; h_coll_phase := h_coll_phase h;
     h_coll_max_ranks := h_coll_max_ranks h; h_coll_data_rptr := l |}.
Definition set_init_state (s : Z) (h : cxl_shm_header_t) : cxl_shm_header_t :=
  {| h_magic := h_magic h; h_version := h_version h; h_num_ranks := h_num_ranks h; h_alloc_offset := h_alloc_offset h;
     h_total_size := h_total_size h; h_initialized := h_initialized h; h_init_state := s;
     h_coll_generation := h_coll_generation h; h_coll_barrier_count := h_coll_barrier_count h;
     h_coll_barrier_sense := h_coll_barrier_sense h; h_coll_phase := h_coll_phase h;
     h_coll_max_ranks := h_coll_max_ranks h; h_coll_data_rptr := h_coll_data_rptr h |}.

(** ** Initialisation *)

(** The mapping: its address, size and kind, or what [base] is left at when
    no segment can be opened or mapped. *)
Inductive Mapping := NotMapped (base : Z) | Mapped (base cxl_size : Z) (dax : bool).

(** What the process finds: the mapping, whether CXL_DAX_RESET is set, and
    the region as it is at each look while another process initialises it. *)
Record Env := { env_map : Mapping; env_reset : bool; env_seen : nat → Shm }.

Definition round_up (size : Z) : Z := Z.land (size +w (CXL_ALIGNMENT - 1)) (u64 (Z.lnot (CXL_ALIGNMENT - 1))).

(** The look at which the wait for the initialiser ends: at most 2000. *)
Fixpoint await_init (seen : nat → Shm) (fuel k : nat) : nat :=
  match fuel with
  | O => k
  | S fuel' => if h_init_state (sh_header (seen k)) =? 2 then k else await_init seen fuel' (S k)
  end.

(** Lines 943 to 977: the region is set up. *)
Definition init_structures (cxl_size required_size max_usable_ranks : Z) (sh : Shm) : Shm :=
  {| sh_header :=
       {| h_magic := CXL_SHM_MAGIC; h_version := CXL_SHM_VERSION; h_num_ranks := 0;
          h_alloc_offset := round_up required_size; h_total_size := cxl_size; h_initialized := 1;
          h_init_state := 2; h_coll_generation := 0; h_coll_barrier_count := 0; h_coll_barrier_sense := 0;
          h_coll_phase := 0; h_coll_max_ranks := u32 max_usable_ranks; h_coll_data_rptr := null_rptrs |};
     sh_mailboxes := replicate (Z.to_nat max_usable_ranks) zero_mailbox; sh_mem := sh_mem sh |}.

(** Whether this process must initialise, and the region as it is then. *)
Definition claim_init (e : Env) (sh : Shm) : bool * Shm :=
  if env_reset e then (true, sh)
  else if h_magic (sh_header sh) =? CXL_SHM_MAGIC then (false, sh)
  else
    let expected := h_init_state (sh_header sh) in
    if expected =? 0 then (true, set_header (set_init_state 1 (sh_header sh)) sh)
    else if expected =? 1 then
      let k := await_init (env_seen e) 2000 0 in
      let sh := env_seen e (S k) in
      (negb (h_init_state (sh_header sh) =? 2), sh)
    else (false, sh).

(** The state of the process with a mapping. *)
Definition with_mapping (base cxl_size used : Z) (ok dax : bool) (max_ranks : Z) (g : cxl_mem_t) : cxl_mem_t :=
  {| g_base := base; g_size := cxl_size; g_used := used; g_initialized := ok; g_dax := dax; g_header := true;
     g_my_rank := g_my_rank g; g_world_size := g_world_size g; g_max_ranks := max_ranks;
     g_cxl_comm_enabled := g_cxl_comm_enabled g; g_all_ranks_local := g_all_ranks_local g |}.

Definition set_base (base : Z) (g : cxl_mem_t) : cxl_mem_t :=
  {| g_base := base; g_size := g_size g; g_used := g_used g; g_initialized := g_initialized g; g_dax := g_dax g;
     g_header := g_header g; g_my_rank := g_my_rank g; g_world_size := g_world_size g; g_max_ranks := g_max_ranks g;
     g_cxl_comm_enabled := g_cxl_comm_enabled g; g_all_ranks_local := g_all_ranks_local g |}.

Definition max_usable_ranks (cxl_size : Z) : Z :=
  if cxl_size <? CXL_HEADER_SIZE then i32 ((cxl_size -w sizeof_header) / sizeof_mailbox) else CXL_MAX_RANKS.

Definition required_size (cxl_size : Z) : Z :=
  if cxl_size <? CXL_HEADER_SIZE then sizeof_header +w u64 (max_usable_ranks cxl_size) *w sizeof_mailbox else CXL_HEADER_SIZE.

Definition init_cxl_memory (e : Env) (g : cxl_mem_t) (sh : Shm) : cxl_mem_t * Shm :=
  if g_initialized g then (g, sh)
  else match env_map e with
  | NotMapped base => (set_base base g, sh)
  | Mapped base cxl_size dax =>
      if max_usable_ranks cxl_size <? 1 then (with_mapping base cxl_size CACHELINE_SIZE false dax (g_max_ranks g) g, sh)
      else
        let '(need_init, sh) := claim_init e sh in
        let sh := if need_init then init_structures cxl_size (required_size cxl_size) (max_usable_ranks cxl_size) sh else sh in
        (with_mapping base cxl_size (h_alloc_offset (sh_header sh)) true dax (max_usable_ranks cxl_size) g, sh)
  end.

(** ** Registration of a rank

    [reset_shared] is what every rank does before the barrier of MPI and
    [enter_rank] what it does after it. *)

Definition set_rank (rank world_size : Z) (g : cxl_mem_t) : cxl_mem_t :=
  {| g_base := g_base g; g_size := g_size g; g_used := g_used g; g_initialized := g_initialized g; g_dax := g_dax g;
     g_header := g_header g; g_my_rank := rank; g_world_size := world_size; g_max_ranks := g_max_ranks g;
     g_cxl_comm_enabled := g_cxl_comm_enabled g; g_all_ranks_local := g_all_ranks_local g |}.
Definition set_comm_enabled (b : bool) (g : cxl_mem_t) : cxl_mem_t :=
  {| g_base := g_base g; g_size := g_size g; g_used := g_used g; g_initialized := g_initialized g; g_dax := g_dax g;
     g_header := g_header g; g_my_rank := g_my_rank g; g_world_size := g_world_size g; g_max_ranks := g_max_ranks g;
     g_cxl_comm_enabled := b; g_all_ranks_local := g_all_ranks_local g |}.
Definition set_all_ranks_local (b : bool) (g : cxl_mem_t) : cxl_mem_t :=
  {| g_base := g_base g; g_size := g_size g; g_used := g_used g; g_initialized := g_initialized g; g_dax := g_dax g;
     g_header := g_header g; g_my_rank := g_my_rank g; g_world_size := g_world_size g; g_max_ranks := g_max_ranks g;
     g_cxl_comm_enabled := g_cxl_comm_enabled g; g_all_ranks_local := b |}.

Definition can_register (rank : Z) (g : cxl_mem_t) : bool :=
  negb (negb (g_initialized g) || negb (g_header g) || (rank <? 0) || (g_max_ranks g <=? rank)).

(** [memset] of the first [max_ranks] mailboxes. *)
Definition clear_mailboxes (max_ranks : Z) (mbs : list cxl_rank_mailbox_t) : list cxl_rank_mailbox_t :=
  replicate (Z.to_nat max_ranks) zero_mailbox ++ drop (Z.to_nat max_ranks) mbs.

Definition reset_shared (rank world_size : Z) (g : cxl_mem_t) (sh : Shm) : Shm :=
  let h := sh_header sh in
  {| sh_header :=
       {| h_magic := h_magic h; h_version := h_version h; h_num_ranks := 0; h_alloc_offset := CXL_HEADER_SIZE;
          h_total_size := h_total_size h; h_initialized := h_initialized h; h_init_state := h_init_state h;
          h_coll_generation := if rank =? 0 then u32 (h_coll_generation h + 1) else h_coll_generation h;
          h_coll_barrier_count := 0; h_coll_barrier_sense := 0; h_coll_phase := 0; h_coll_max_ranks := u32 world_size;
          h_coll_data_rptr := null_rptrs |};
     sh_mailboxes := clear_mailboxes (g_max_ranks g) (sh_mailboxes sh); sh_mem := sh_mem sh |}.

Definition enter_mailbox (rank pid : Z) (host : list Z) (mb : cxl_rank_mailbox_t) : cxl_rank_mailbox_t :=
  {| mb_head := 0; mb_tail := 0; mb_active := 1; mb_rank := u32 rank; mb_hostname := take 64 host; mb_pid := u32 pid;
     mb_messages := mb_messages mb |}.

Definition enter_rank (rank pid : Z) (host : list Z) (sh : Shm) : Shm :=
  {| sh_header := set_num_ranks (u32 (h_num_ranks (sh_header sh) + 1)) (sh_header sh);
     sh_mailboxes := alter (enter_mailbox rank pid host) (Z.to_nat rank) (sh_mailboxes sh); sh_mem := sh_mem sh |}.

(** The state of a process that has registered; [direct]: CXL_DIRECT is set. *)
Definition registered (rank world_size : Z) (direct : bool) (g : cxl_mem_t) : cxl_mem_t :=
  set_comm_enabled (direct || g_dax g) (set_rank rank world_size g).

(** The two halves for a rank: nothing happens when it cannot register. *)
Definition register_reset (rank world_size : Z) (g : cxl_mem_t) (sh : Shm) : Shm :=
  if can_register rank g then reset_shared rank world_size g sh else sh.
Definition register_enter (rank world_size pid : Z) (host : list Z) (direct : bool) (g : cxl_mem_t) (sh : Shm) : cxl_mem_t * Shm :=
  if can_register rank g then (registered rank world_size direct g, enter_rank rank pid host sh) else (g, sh).

(** For a rank that has no mailbox in the region the code reads past its end;
    here it is not available. *)
Definition cxl_rank_available (g : cxl_mem_t) (sh : Shm) (rank : Z) : bool :=
  if negb (g_initialized g) || negb (g_header g) || (rank <? 0) || (CXL_MAX_RANKS <=? rank) then false
  else match sh_mailboxes sh !! Z.to_nat rank with Some mb => negb (mb_active mb =? 0) | None => false end.

(** The end of the hook of [MPI_Init], after its barrier. *)
Definition find_local (size : Z) (g : cxl_mem_t) (sh : Shm) : cxl_mem_t :=
  if g_initialized g && g_cxl_comm_enabled g then
    set_all_ranks_local (forallb (λ r, cxl_rank_available g sh r) (seqZ 0 size)) g
  else g.

(** What the hook of [MPI_Finalize] does to the region before it is unmapped. *)
Definition leave_mailbox (mb : cxl_rank_mailbox_t) : cxl_rank_mailbox_t :=
  {| mb_head := mb_head mb; mb_tail := mb_tail mb; mb_active := 0; mb_rank := mb_rank mb; mb_hostname := mb_hostname mb;
     mb_pid := mb_pid mb; mb_messages := mb_messages mb |}.
Definition leave (g : cxl_mem_t) (sh : Shm) : Shm :=
  if g_initialized g && g_header g && (0 <=? g_my_rank g) then
    {| sh_header := set_num_ranks (u32 (h_num_ranks (sh_header sh) - 1)) (sh_header sh);
       sh_mailboxes := alter leave_mailbox (Z.to_nat (g_my_rank g)) (sh_mailboxes sh); sh_mem := sh_mem sh |}
  else sh.

(** ** Allocation *)

Definition set_used (used : Z) (g : cxl_mem_t) : cxl_mem_t :=
  {| g_base := g_base g; g_size := g_size g; g_used := used; g_initialized := g_initialized g; g_dax := g_dax g;
     g_header := g_header g; g_my_rank := g_my_rank g; g_world_size := g_world_size g; g_max_ranks := g_max_ranks g;
     g_cxl_comm_enabled := g_cxl_comm_enabled g; g_all_ranks_local := g_all_ranks_local g |}.

(** The atomic accesses of an allocation: take [size] bytes, and give them
    back when they do not fit. *)
Definition fetch_add_offset (size offset : Z) : Z := offset +w size.
Definition fetch_sub_offset (size offset : Z) : Z := offset -w size.
Definition fits (lim old_offset size : Z) : bool := negb (lim <? old_offset +w size).

(** [allocate_cxl_memory] of an initialised process, run without
    interference: the new state and the pointer, [NULL] when out of memory. *)
Definition allocate_cxl_memory (size : Z) (g : cxl_mem_t) (sh : Shm) : cxl_mem_t * Shm * Z :=
  let size := round_up size in
  if g_header g then
    let old_offset := h_alloc_offset (sh_header sh) in
    let taken := fetch_add_offset size old_offset in
    if fits (g_size g) old_offset size then
      (set_used (old_offset +w size) g, set_header (set_alloc_offset taken (sh_header sh)) sh, g_base g +w old_offset)
    else (g, set_header (set_alloc_offset (fetch_sub_offset size taken) (sh_header sh)) sh, 0)
  else if g_size g <? g_used g +w size then (g, sh, 0)
  else (set_used (g_used g +w size) g, sh, g_base g +w g_used g).

Definition allocate_cxl_rptr (size : Z) (g : cxl_mem_t) (sh : Shm) : cxl_mem_t * Shm * Z :=
  let '(g, sh, ptr) := allocate_cxl_memory size g sh in (g, sh, ptr_to_rptr g ptr).

(** ** Buffers of collective operations *)

Definition cxl_collective_register_buffer (rank buf : Z) (g : cxl_mem_t) (sh : Shm) : Shm :=
  if negb (g_header g) || (rank <? 0) || (CXL_MAX_RANKS <=? rank) then sh
  else
    let h := sh_header sh in
    set_header (set_coll_data_rptr (<[Z.to_nat rank := ptr_to_rptr g buf]> (h_coll_data_rptr h)) h) sh.

Definition cxl_collective_get_buffer (rank : Z) (g : cxl_mem_t) (sh : Shm) : Z :=
  if negb (g_header g) || (rank <? 0) || (CXL_MAX_RANKS <=? rank) then 0
  else rptr_to_ptr g (default CXL_RPTR_NULL (h_coll_data_rptr (sh_header sh) !! Z.to_nat rank)).

(** ** Concurrent allocations

    The processes of the node allocate at the same time.  [Take] is the
    [atomic_fetch_add] of an allocation with the test that follows it,
    [GiveBack] the [atomic_fetch_sub] of one that did not fit. *)

Record Heap := {
  hp_offset : Z;
  hp_pending : list Z;          (** sizes still to be given back *)
  hp_blocks : list (Z * Z)      (** offset and size of what was handed out *)
}.

Inductive HeapAction := Take (size : Z) | GiveBack (i : nat).

Definition heap_step (lim : Z) (a : HeapAction) (h : Heap) : option Heap :=
  match a with
  | Take size =>
      let size := round_up size in
      let old_offset := hp_offset h in
      if fits lim old_offset size then
        Some {| hp_offset := fetch_add_offset size old_offset; hp_pending := hp_pending h; hp_blocks := (old_offset, size) :: hp_blocks h |}
      else Some {| hp_offset := fetch_add_offset size old_offset; hp_pending := size :: hp_pending h; hp_blocks := hp_blocks h |}
  | GiveBack i =>
      size ← hp_pending h !! i;
      Some {| hp_offset := fetch_sub_offset size (hp_offset h); hp_pending := delete i (hp_pending h); hp_blocks := hp_blocks h |}
  end.

(** Runs in which at most one allocation is being given back at any time. *)
Inductive quiet_run (lim : Z) : Heap → list HeapAction → Heap → Prop :=
| quiet_nil h : quiet_run lim h [] h
| quiet_step h a h1 l h2 :
    heap_step lim a h = Some h1 → (length (hp_pending h1) ≤ 1)%nat → quiet_run lim h1 l h2 → quiet_run lim h (a :: l) h2.

Fixpoint heap_run (lim : Z) (l : list HeapAction) (h : Heap) : option Heap :=
  match l with [] => Some h | a :: l' => h1 ← heap_step lim a h; heap_run lim l' h1 end.

Definition empty_heap (start : Z) : Heap := {| hp_offset := start; hp_pending := []; hp_blocks := [] |}.

Definition action_ok (a : HeapAction) : Prop := match a with Take size => 0 <= size < 4611686018427383808 | GiveBack _ => True end.

(** ** Copies: lemmas *)

(** [m'] is [m] with the [n] bytes at [s] copied to [d]. *)
Definition copied (m : Mem) (d s n : Z) (m' : Mem) : Prop :=
  ∀ x, ld8 m' x = if (d <=? x) && (x <? d + n) then ld8 m (s + (x - d)) else ld8 m x.

(** [m'] is [m] with the [n] bytes at [d] set to [b]. *)
Definition filled (m : Mem) (d b n : Z) (m' : Mem) : Prop :=
  ∀ x, ld8 m' x = if (d <=? x) && (x <? d + n) then b else ld8 m x.

(** Storing a loaded block copies it. *)
Lemma st_ld_copied m d s n : copied m d s (Z.of_nat n) (st_bytes d (ld_bytes m s n) m).
Proof.
  intros x. rewrite ld8_st_bytes. unfold byte_at.
  destruct (Z.ltb_spec x d), (Z.leb_spec d x); try lia; [done|]. cbn [andb].
  destruct (Z.ltb_spec x (d + Z.of_nat n)).
  - rewrite ld_bytes_lookup by lia. cbn. f_equal. lia.
  - rewrite lookup_ge_None_2 by (rewrite ld_bytes_length; lia). done.
Qed.

Lemma word_copied m d s : mem_ok m → copied m d s 8 (st64 d (ld64 m s) m).
Proof.
  intros Hm. unfold st64, ld64. pose proof (le_encode_decode _ (ld_bytes_range m s 8 Hm)) as He.
  rewrite ld_bytes_length in He. rewrite He. apply (st_ld_copied m d s 8).
Qed.

Lemma byte_copied m d s : copied m d s 1 (st8 d (ld8 m s) m).
Proof. apply (st_ld_copied m d s 1). Qed.

Lemma copied_ok m d s n m' : mem_ok m → copied m d s n m' → mem_ok m'.
Proof. intros Hm Hc x. rewrite Hc. case_match; apply Hm. Qed.

(** Copying forwards, [k] bytes and then the others, when the source is not
    overwritten before it is read. *)
Lemma copied_forward m d s k n m1 m2 :
  0 <= k <= n → d <= s ∨ s + n <= d →
  copied m d s k m1 → copied m1 (d + k) (s + k) (n - k) m2 → copied m d s n m2.
Proof.
  intros Hk Hds H1 H2 x. rewrite H2, H1, H1.
  repeat match goal with |- context [?a <=? ?b] => destruct (Z.leb_spec a b) | |- context [?a <? ?b] => destruct (Z.ltb_spec a b) end;
    cbn [andb]; try lia; try done; f_equal; lia.
Qed.

Lemma copied_backward m d s n m1 m2 :
  0 < n → s <= d → copied m (d + n - 1) (s + n - 1) 1 m1 → copied m1 d s (n - 1) m2 → copied m d s n m2.
Proof.
  intros Hn Hds H1 H2 x. rewrite H2, H1, H1.
  repeat match goal with |- context [?a <=? ?b] => destruct (Z.leb_spec a b) | |- context [?a <? ?b] => destruct (Z.ltb_spec a b) end;
    cbn [andb]; try lia; try done; f_equal; lia.
Qed.

Lemma copied_none m d s n : n <= 0 → copied m d s n m.
Proof. intros Hn x. destruct (Z.leb_spec d x), (Z.ltb_spec x (d + n)); cbn; try lia; done. Qed.

Lemma copy_bytes_copied fuel d s n m :
  d <= s ∨ s + n <= d → n <= Z.of_nat fuel → copied m d s n (copy_bytes fuel d s n m).
Proof.
  revert d s n m. induction fuel as [|fuel IH]; intros d s n m Hds Hf; cbn [copy_bytes].
  - apply copied_none. lia.
  - destruct (Z.ltb_spec 0 n); [|apply copied_none; lia].
    apply (copied_forward m d s 1 n (st8 d (ld8 m s) m)); [lia|done|apply byte_copied|apply IH; lia].
Qed.

(** The word loop copies a prefix and leaves less than a word. *)
Lemma copy_words_copied fuel d s n m d' s' n' m' :
  mem_ok m → d <= s ∨ s + n <= d → 0 <= n <= Z.of_nat fuel → copy_words fuel d s n m = (d', s', n', m') →
  d' = d + (n - n') ∧ s' = s + (n - n') ∧ 0 <= n' <= n ∧ copied m d s (n - n') m'.
Proof.
  revert d s n m. induction fuel as [|fuel IH]; intros d s n m Hm Hds Hn; cbn [copy_words].
  - intros [= <- <- <- <-]. split_and!; [lia..|apply copied_none; lia].
  - destruct (Z.leb_spec 8 n); intros Hc.
    + pose proof (word_copied m d s Hm) as Hw.
      apply IH in Hc as (-> & -> & Hn' & Hc); [|by eapply copied_ok|lia..]. split_and!; [lia..|].
      apply (copied_forward m d s 8 (n - n') (st64 d (ld64 m s) m)); [lia|lia|done|].
      by replace (n - n' - 8) with (n - 8 - n') by lia.
    + simplify_eq. split_and!; [lia..|apply copied_none; lia].
Qed.

Lemma safe_memcpy_copied d s n m :
  mem_ok m → d <= s ∨ s + n <= d → 0 <= n → copied m d s n (cxl_safe_memcpy d s n m).
Proof.
  intros Hm Hds Hn. unfold cxl_safe_memcpy. destruct (copy_words _ d s n m) as [[[d' s'] n'] m'] eqn:Ec.
  apply copy_words_copied in Ec as (-> & -> & Hn' & Hc); [|done|done|lia].
  apply (copied_forward m d s (n - n') n m'); [lia|done|done|].
  replace (n - (n - n')) with n' by lia. apply copy_bytes_copied; lia.
Qed.

Lemma move_back_copied fuel d s n m :
  s <= d → 0 <= n <= Z.of_nat fuel → copied m d s n (move_back fuel (d + n) (s + n) n m).
Proof.
  revert n m. induction fuel as [|fuel IH]; intros n m Hds Hn; cbn [move_back].
  - apply copied_none. lia.
  - destruct (Z.eqb_spec n 0); [apply copied_none; lia|].
    apply (copied_backward m d s n (st8 (d + n - 1) (ld8 m (s + n - 1)) m)); [lia|done|apply byte_copied|].
    replace (d + n - 1) with (d + (n - 1)) by lia. replace (s + n - 1) with (s + (n - 1)) by lia. apply IH; lia.
Qed.

Lemma libc_copied d s n m : 0 <= n → copied m d s n (libc_memmove d s n m).
Proof. intros Hn. unfold libc_memmove. pose proof (st_ld_copied m d s (Z.to_nat n)) as H. by rewrite Z2Nat.id in H. Qed.

Lemma copied_unique m d s n m1 m2 x : copied m d s n m1 → copied m d s n m2 → ld8 m1 x = ld8 m2 x.
Proof. intros H1 H2. by rewrite H1, H2. Qed.

(** The eight bytes of the fill word are all the low byte of [c]. *)
Lemma fill8_bytes c : le_encode 8 (fill8 c) = replicate 8 (c mod 256).
Proof.
  assert (Forall (λ b, le_encode 8 (fill8 b) = replicate 8 b) (seqZ 0 256)) as Hall.
  { refine (bool_decide_unpack _ _). by vm_compute. }
  rewrite Forall_forall in Hall. specialize (Hall (c mod 256)).
  unfold fill8 in *. rewrite Z.mod_mod in Hall by done. apply Hall. apply elem_of_seqZ. pose proof (Z.mod_pos_bound c 256). lia.
Qed.

Lemma replicate_filled m d b n : filled m d b (Z.of_nat n) (st_bytes d (replicate n b) m).
Proof.
  intros x. rewrite ld8_st_bytes. unfold byte_at.
  destruct (Z.ltb_spec x d), (Z.leb_spec d x); try lia; [done|]. cbn [andb].
  destruct (Z.ltb_spec x (d + Z.of_nat n)).
  - by rewrite lookup_replicate_2 by lia.
  - by rewrite lookup_ge_None_2 by (rewrite length_replicate; lia).
Qed.

Lemma filled_none m d b n : n <= 0 → filled m d b n m.
Proof. intros Hn x. destruct (Z.leb_spec d x), (Z.ltb_spec x (d + n)); cbn; try lia; done. Qed.

Lemma filled_forward m d b k n m1 m2 :
  0 <= k <= n → filled m d b k m1 → filled m1 (d + k) b (n - k) m2 → filled m d b n m2.
Proof.
  intros Hk H1 H2 x. rewrite H2, H1.
  repeat match goal with |- context [?a <=? ?b] => destruct (Z.leb_spec a b) | |- context [?a <? ?b] => destruct (Z.ltb_spec a b) end;
    cbn [andb]; try lia; done.
Qed.

Lemma set_bytes_filled fuel d c n m : n <= Z.of_nat fuel → filled m d (c mod 256) n (set_bytes fuel d c n m).
Proof.
  revert d n m. induction fuel as [|fuel IH]; intros d n m Hf; cbn [set_bytes]; [apply filled_none; lia|].
  destruct (Z.ltb_spec 0 n); [|apply filled_none; lia].
  apply (filled_forward m d _ 1 n (st8 d (c mod 256) m)); [lia|apply (replicate_filled m d _ 1)|apply IH; lia].
Qed.

Lemma set_words_filled fuel d c n m d' n' m' :
  0 <= n <= Z.of_nat fuel → set_words fuel d (fill8 c) n m = (d', n', m') →
  d' = d + (n - n') ∧ 0 <= n' <= n ∧ filled m d (c mod 256) (n - n') m'.
Proof.
  revert d n m. induction fuel as [|fuel IH]; intros d n m Hn; cbn [set_words].
  - intros [= <- <- <-]. split_and!; [lia..|apply filled_none; lia].
  - destruct (Z.leb_spec 8 n); intros Hc.
    + apply IH in Hc as (-> & Hn' & Hc); [|lia]. split_and!; [lia..|].
      apply (filled_forward m d _ 8 (n - n') (st64 d (fill8 c) m)); [lia|unfold st64; rewrite fill8_bytes; apply (replicate_filled m d _ 8)|].
      by replace (n - n' - 8) with (n - 8 - n') by lia.
    + simplify_eq. split_and!; [lia..|apply filled_none; lia].
Qed.

Lemma safe_memset_filled d c n m : 0 <= n → filled m d (c mod 256) n (cxl_safe_memset d c n m).
Proof.
  intros Hn. unfold cxl_safe_memset. destruct (set_words _ d (fill8 c) n m) as [[d' n'] m'] eqn:Ec.
  apply set_words_filled in Ec as (-> & Hn' & Hc); [|lia].
  apply (filled_forward m d _ (n - n') n m'); [lia|done|].
  replace (n - (n - n')) with n' by lia. apply set_bytes_filled. lia.
Qed.

(** C30. The hook of [memmove] moves exactly the bytes libc's function moves, for
    every overlap of source and destination and on both paths: forwards by
    words, backwards by bytes. *)
Theorem memmove_exact in_dlsym g dst src n m (Hm : mem_ok m) (Hn : 0 <= n) x :
  ld8 (memmove in_dlsym g dst src n m) x = ld8 (libc_memmove dst src n m) x.
Proof.
  apply (copied_unique m dst src n); [|by apply libc_copied]. unfold memmove.
  case_match; [|by apply libc_copied].
  destruct (Z.ltb_spec dst src), (Z.leb_spec (src + n) dst); cbn [orb];
    first [apply safe_memcpy_copied; lia || done|apply move_back_copied; lia].
Qed.

(** The hook of [memset] sets exactly the bytes libc's function sets. *)
Theorem memset_exact in_dlsym g s c n m (Hn : 0 <= n) x :
  ld8 (memset in_dlsym g s c n m) x = ld8 (libc_memset s c n m) x.
Proof.
  unfold memset. case_match; [|done]. rewrite safe_memset_filled by done.
  unfold libc_memset. rewrite replicate_filled. by rewrite Z2Nat.id.
Qed.

(** ** Remotable pointers: lemmas *)

(** A process that has mapped the region: the mapping ends below 2^63. *)
Record mapped (g : cxl_mem_t) : Prop := {
  mp_base : 0 < g_base g;
  mp_size : 0 <= g_size g;
  mp_end : g_base g + g_size g < 9223372036854775808;
  mp_init : g_initialized g = true;
  mp_header : g_header g = true
}.

Lemma ptr_to_rptr_in g p : mapped g → g_base g <= p < g_base g + g_size g → ptr_to_rptr g p = p - g_base g.
Proof.
  intros [Hb Hs He _ _] Hp. unfold ptr_to_rptr. rewrite (u64_small (g_base g + g_size g)) by mlia.
  rewrite (proj2 (Z.eqb_neq p 0)), (proj2 (Z.eqb_neq (g_base g) 0)) by lia.
  rewrite (proj2 (Z.ltb_ge _ _)), (proj2 (Z.leb_gt _ _)) by lia. apply u64_small. mlia.
Qed.

Lemma rptr_to_ptr_in g r : mapped g → 0 <= r < g_size g → rptr_to_ptr g r = g_base g + r.
Proof.
  intros [Hb Hs He _ _] Hr. unfold rptr_to_ptr, CXL_RPTR_NULL. rewrite (proj2 (Z.eqb_neq r _)) by mlia.
  rewrite (proj2 (Z.eqb_neq (g_base g) 0)), (proj2 (Z.leb_gt _ _)) by lia. apply u64_small. mlia.
Qed.

Lemma ptr_to_rptr_null g : ptr_to_rptr g 0 = CXL_RPTR_NULL.
Proof. done. Qed.

Lemma rptr_to_ptr_null g : rptr_to_ptr g CXL_RPTR_NULL = 0.
Proof. unfold rptr_to_ptr. by rewrite Z.eqb_refl. Qed.

(** A pointer that one process makes remotable is, in every process that maps
    the region, the pointer to the same offset; a pointer outside the region
    becomes the null pointer everywhere. *)
Theorem rptr_shared g g' p (Hg : mapped g) (Hg' : mapped g') (Hsize : g_size g' = g_size g) :
  if is_cxl_ptr g p then rptr_to_ptr g' (ptr_to_rptr g p) = g_base g' + (p - g_base g)
  else rptr_to_ptr g' (ptr_to_rptr g p) = 0.
Proof.
  unfold is_cxl_ptr. rewrite (mp_init g Hg). rewrite (u64_small (g_base g + g_size g)) by (destruct Hg; mlia).
  destruct (Z.eqb_spec p 0) as [->|Hp]; [rewrite ptr_to_rptr_null; apply rptr_to_ptr_null|].
  destruct (Z.eqb_spec (g_base g) 0); [destruct Hg; lia|]. cbn [orb negb].
  destruct (Z.leb_spec (g_base g) p), (Z.ltb_spec p (g_base g + g_size g)); cbn [andb].
  { rewrite ptr_to_rptr_in, rptr_to_ptr_in by (done || lia). done. }
  all: assert (ptr_to_rptr g p = CXL_RPTR_NULL) as -> by
    (unfold ptr_to_rptr; rewrite (u64_small (g_base g + g_size g)) by (destruct Hg; mlia);
     destruct (Z.eqb_spec p 0), (Z.eqb_spec (g_base g) 0), (Z.ltb_spec p (g_base g)), (Z.leb_spec (g_base g + g_size g) p); cbn; (done || lia));
    apply rptr_to_ptr_null.
Qed.

(** ** Allocation: lemmas *)

Lemma round_up_eq size : 0 <= size → size < TWO64 - 4096 → round_up size = (size + 4095) / 4096 * 4096.
Proof.
  intros H0 H1. unfold round_up, CXL_ALIGNMENT. rewrite u64_small by mlia.
  change (u64 (Z.lnot (4096 - 1))) with (Z.ldiff (Z.ones 64) (Z.ones 12)).
  change (4096 - 1) with 4095.
  rewrite Z.ldiff_land, Z.land_assoc, Z.land_ones by lia. change (2 ^ 64) with TWO64. rewrite Z.mod_small by lia.
  rewrite <- Z.ldiff_land, Z.ldiff_ones_r by lia. rewrite Z.shiftl_mul_pow2, Z.shiftr_div_pow2 by lia. done.
Qed.

Lemma round_up_bounds size : 0 <= size → size < TWO64 - 4096 → size <= round_up size < size + 4096 ∧ round_up size mod 4096 = 0.
Proof. intros H0 H1. rewrite round_up_eq by done. mlia. Qed.

Definition disjoint (b c : Z * Z) : Prop := b.1 + b.2 <= c.1 ∨ c.1 + c.2 <= b.1.

(** What is handed out ends at [top]; what is pending lies above the limit. *)
Record heap_at (lim top offset : Z) (pending : list Z) : Prop := {
  ha_top : 0 <= top <= lim;
  ha_lim : lim < 4611686018427387904;
  ha_offset : offset = top + zsum pending;
  ha_pending : pending = [] ∨ ∃ size, pending = [size] ∧ lim < top + size ∧ size < 4611686018427387904
}.

Lemma fits_eq lim old size : 0 <= old → 0 <= size → old + size < TWO64 → fits lim old size = (old + size <=? lim).
Proof.
  intros. unfold fits. rewrite u64_small by mlia.
  destruct (Z.ltb_spec lim (old + size)), (Z.leb_spec (old + size) lim); cbn; lia || done.
Qed.

(** An allocation that fits is at [top]; then nothing was pending. *)
Lemma take_fits lim top offset pending size :
  heap_at lim top offset pending → 0 <= size < 4611686018427387904 → fits lim offset size = true →
  pending = [] ∧ offset = top ∧ top + size <= lim ∧ heap_at lim (top + size) (fetch_add_offset size offset) [].
Proof.
  intros [Ht Hl -> Hp] Hs Hf. destruct Hp as [->|(sz & -> & Hsz & Hb)]; change (zsum []) with 0 in *; rewrite ?zsum_cons in *.
  - rewrite Z.add_0_r in *. rewrite fits_eq in Hf by lia. btests. split_and!; [done..|lia|].
    unfold fetch_add_offset. rewrite u64_small by mlia. split; [lia|done|cbn; lia|by left].
  - change (zsum []) with 0 in *. rewrite fits_eq in Hf by lia. btests. lia.
Qed.

(** One that does not fit leaves the heap as it was, with one more pending. *)
Lemma take_misses lim top offset size :
  heap_at lim top offset [] → 0 <= size < 4611686018427387904 → fits lim offset size = false →
  heap_at lim top (fetch_add_offset size offset) [size].
Proof.
  intros [Ht Hl -> Hp] Hs Hf. change (zsum []) with 0 in *. rewrite Z.add_0_r in *. rewrite fits_eq in Hf by lia. btests.
  unfold fetch_add_offset. rewrite u64_small by mlia. split; [done|done|rewrite zsum_cons; change (zsum []) with 0; lia|].
  right. exists size. split_and!; [done|lia..].
Qed.

Lemma give_back lim top offset size : heap_at lim top offset [size] → heap_at lim top (fetch_sub_offset size offset) [].
Proof.
  intros [Ht Hl -> Hp]. rewrite zsum_cons. change (zsum []) with 0. unfold fetch_sub_offset.
  rewrite u64_small by mlia. split; [done|done|cbn; lia|by left].
Qed.

Lemma mod_64_add top size start : top mod 64 = start mod 64 → size mod 4096 = 0 → (top + size) mod 64 = start mod 64.
Proof. intros. Z.to_euclidean_division_equations. lia. Qed.

Record heap_inv (start lim : Z) (h : Heap) : Prop := {
  hi_at : ∃ top, heap_at lim top (hp_offset h) (hp_pending h) ∧ start <= top ∧ top mod 64 = start mod 64 ∧
                 Forall (λ b, start <= b.1 ∧ 0 <= b.2 ∧ b.1 + b.2 <= top) (hp_blocks h);
  hi_disjoint : pairwise disjoint (hp_blocks h);
  hi_aligned : Forall (λ b, b.1 mod 64 = start mod 64) (hp_blocks h)
}.

Lemma heap_step_inv start lim a h h' :
  heap_inv start lim h → action_ok a → heap_step lim a h = Some h' → (length (hp_pending h') ≤ 1)%nat → heap_inv start lim h'.
Proof.
  intros [(top & Hat & Hst & Hmod & Hin) Hd Hal] Ha Hs Hq. destruct a as [size|i]; cbn [heap_step] in Hs.
  - cbn [action_ok] in Ha. pose proof (round_up_bounds size) as [Hr Hrm]; [lia..|].
    destruct (fits lim (hp_offset h) (round_up size)) eqn:Ef; simplify_eq/=.
    + assert (0 <= round_up size < 4611686018427387904) as Hsz by lia. destruct (take_fits _ _ _ _ _ Hat Hsz Ef) as (Hp & Ho & Hle & Hat'). rewrite Hp, Ho in *.
      split; cbn.
      * exists (top + round_up size). split_and!; [done|lia|by apply mod_64_add|]. constructor; [cbn; lia|].
        eapply Forall_impl; [exact Hin|]. intros b (? & ? & ?). split_and!; lia.
      * split; [|done]. intros b Hb. right. rewrite Forall_forall in Hin. apply Hin in Hb. cbn. lia.
      * by constructor.
    + destruct (hp_pending h) as [|sz l]; [|cbn in Hq; lia]. split; cbn; [|done..].
      exists top. split_and!; [|done..]. apply take_misses; [done|lia|done].
  - destruct (hp_pending h) as [|sz l] eqn:Ep; [done|]. destruct l as [|? ?]; [|destruct Hat as [_ _ _ [?|(? & ? & _)]]; naive_solver].
    destruct i as [|i]; cbn in Hs; simplify_eq/=. split; cbn; [|done..]. exists top. split_and!; [by apply give_back|done..].
Qed.

Lemma quiet_run_inv start lim h l h' : heap_inv start lim h → Forall action_ok l → quiet_run lim h l h' → heap_inv start lim h'.
Proof.
  intros Hi Hl Hr. induction Hr as [|h a h1 l h2 Hs Hq _ IH]; [done|].
  apply Forall_cons in Hl as [? ?]. eauto using heap_step_inv.
Qed.

Lemma empty_heap_inv start lim : 0 <= start <= lim → lim < 4611686018427387904 → heap_inv start lim (empty_heap start).
Proof.
  intros Hs Hl. split; cbn; [|done|done]. exists start. split_and!; [|lia|done|done].
  split; [lia|done|cbn; lia|by left].
Qed.

(** Processes that allocate concurrently get blocks that do not overlap, lie
    between the start of the data and the end of the region and keep the
    alignment of the start to cache lines, as long as at most one failed
    allocation is being given back at a time. *)
Theorem heap_disjoint start lim l h (Hs : 0 <= start <= lim) (Hlim : lim < 4611686018427387904)
    (Hl : Forall action_ok l) (Hr : quiet_run lim (empty_heap start) l h) :
  pairwise disjoint (hp_blocks h) ∧
  Forall (λ b, start <= b.1 ∧ b.1 + b.2 <= lim ∧ b.1 mod 64 = start mod 64) (hp_blocks h).
Proof.
  apply (quiet_run_inv start) in Hr as [(top & Hat & _ & _ & Hin) Hd Ha]; [|by apply empty_heap_inv|done].
  split; [done|]. rewrite Forall_forall in *. intros b Hb. pose proof (ha_top _ _ _ _ Hat).
  specialize (Hin b Hb). specialize (Ha b Hb). cbn in *. split_and!; lia.
Qed.

(** Two failed allocations that overlap are enough to hand out bytes twice:
    the first one is given back below the second one. *)
Lemma give_back_race :
  let p := 4096 in
  hp_blocks <$> heap_run (5 * p) [Take (6 * p); Take p; GiveBack 1; Take (2 * p); GiveBack 0; Take (2 * p)] (empty_heap 0)
    = Some [(2 * p, 2 * p); (p, 2 * p)].
Proof. done. Qed.

(** *** Allocation without interference *)

(** An allocation hands out the bytes at the offset and moves the offset, or
    returns [NULL] and leaves the region as it is. *)
Lemma allocate_spec size g sh :
  mapped g → 0 <= size < 4611686018427383808 → 0 <= h_alloc_offset (sh_header sh) < 4611686018427387904 →
  let o := h_alloc_offset (sh_header sh) in
  allocate_cxl_memory size g sh =
    if o + round_up size <=? g_size g then
      (set_used (o + round_up size) g, set_header (set_alloc_offset (o + round_up size) (sh_header sh)) sh, g_base g + o)
    else (g, sh, 0).
Proof.
  intros Hg Hs Ho o. destruct (round_up_bounds size) as [Hr _]; [lia..|]. unfold allocate_cxl_memory, fetch_add_offset, fetch_sub_offset.
  rewrite (mp_header g Hg). fold o. rewrite fits_eq by (unfold o; lia).
  rewrite (u64_small (o + round_up size)) by (unfold o; mlia).
  destruct (Z.leb_spec (o + round_up size) (g_size g)).
  - rewrite (u64_small (g_base g + o)) by (destruct Hg; unfold o in *; mlia). done.
  - rewrite (u64_small (o + round_up size - round_up size)) by (unfold o; mlia). do 2 f_equal.
    destruct sh as [h mbs m]. unfold set_header, o. cbn. f_equal. destruct h; unfold set_alloc_offset; cbn in *. f_equal. lia.
Qed.

(** Registration restarts the heap behind the mailboxes of 256 ranks, whatever
    fits: in a region that is smaller no allocation ever succeeds. *)
Lemma small_region_exhausted size g sh :
  mapped g → 0 <= size < 4611686018427383808 → h_alloc_offset (sh_header sh) = CXL_HEADER_SIZE → g_size g < CXL_HEADER_SIZE →
  allocate_cxl_memory size g sh = (g, sh, 0).
Proof.
  intros Hg Hs Ho Hsm. change CXL_HEADER_SIZE with 5277760 in *. rewrite allocate_spec by (done || lia).
  destruct (round_up_bounds size) as [Hr _]; [lia..|]. by rewrite (proj2 (Z.leb_gt _ _)) by lia.
Qed.

(** It also is not on a page, which initialisation rounds it to. *)
Lemma registered_offset_unaligned : CXL_HEADER_SIZE mod CXL_ALIGNMENT = 2112.
Proof. done. Qed.

(** ** Initialisation and registration *)

Definition smallest_region : Z := sizeof_header + sizeof_mailbox.

Lemma max_usable_bounds cxl_size :
  is_u64 cxl_size →
  if cxl_size <? smallest_region then max_usable_ranks cxl_size < 1
  else 1 <= max_usable_ranks cxl_size <= CXL_MAX_RANKS ∧
       required_size cxl_size = sizeof_header + max_usable_ranks cxl_size * sizeof_mailbox ∧ required_size cxl_size <= cxl_size.
Proof.
  intros Hc. unfold required_size, max_usable_ranks.
  change smallest_region with 22720. change CXL_HEADER_SIZE with 5277760. change sizeof_header with 2112. change sizeof_mailbox with 20608.
  change CXL_MAX_RANKS with 256. unfold i32, u32, u64, is_u64 in *.
  destruct (Z.ltb_spec cxl_size 22720), (Z.ltb_spec cxl_size 5277760); try lia.
  - assert ((cxl_size - 2112) mod TWO64 / 20608 = 0 ∨ (cxl_size - 2112) mod TWO64 / 20608 = 895125391775502) as [-> | ->];
      [Z.to_euclidean_division_equations; lia|done..].
  - assert (1 <= (cxl_size - 2112) mod TWO64 / 20608 <= 255 ∧ (cxl_size - 2112) mod TWO64 = cxl_size - 2112) as [Hq Hm];
      [Z.to_euclidean_division_equations; lia|].
    rewrite (Z.mod_small ((cxl_size - 2112) mod TWO64 / 20608)) by lia. rewrite (proj2 (Z.ltb_lt _ 2147483648)) by lia.
    rewrite (Z.mod_small ((cxl_size - 2112) mod TWO64 / 20608) TWO64) by lia.
    rewrite (Z.mod_small (_ * 20608)), (Z.mod_small (2112 + _)) by lia. split_and!; try lia.
    rewrite Hm. Z.to_euclidean_division_equations. lia.
Qed.

(** For every size of the region, initialisation succeeds exactly when the
    header and one mailbox fit, and then the mailboxes of all ranks that may
    register lie in the region.  A process that sets the region up leaves
    empty mailboxes and a heap that starts behind them on a page; one that
    does not leaves the region as it found it. *)
Theorem init_fits e g sh base cxl_size dax (Hg : g_initialized g = false) (Hm : env_map e = Mapped base cxl_size dax) (Hc : is_u64 cxl_size) :
  let '(g', sh') := init_cxl_memory e g sh in
  let need := (claim_init e sh).1 in
  let seen := (claim_init e sh).2 in
  g_initialized g' = negb (cxl_size <? smallest_region) ∧
  (g_initialized g' = true →
     g_base g' = base ∧ g_size g' = cxl_size ∧ 1 <= g_max_ranks g' <= CXL_MAX_RANKS ∧
     sizeof_header + g_max_ranks g' * sizeof_mailbox <= cxl_size ∧
     (if need then
        sh_mailboxes sh' = replicate (Z.to_nat (g_max_ranks g')) zero_mailbox ∧ h_magic (sh_header sh') = CXL_SHM_MAGIC ∧
        h_alloc_offset (sh_header sh') mod CXL_ALIGNMENT = 0 ∧
        sizeof_header + g_max_ranks g' * sizeof_mailbox <= h_alloc_offset (sh_header sh') ∧ sh_mem sh' = sh_mem seen
      else sh' = seen) ∧
     g_used g' = h_alloc_offset (sh_header sh')).
Proof.
  unfold init_cxl_memory. rewrite Hg, Hm. pose proof (max_usable_bounds cxl_size Hc) as Hb.
  destruct (cxl_size <? smallest_region).
  { rewrite (proj2 (Z.ltb_lt _ _)) by done. done. }
  destruct Hb as (Hmax & Hreq & Hle). rewrite (proj2 (Z.ltb_ge _ _)) by lia.
  destruct (claim_init e sh) as [[] seen]; cbn; split_and!; try done; intros _; split_and!; try done; try lia.
  all: assert (0 <= required_size cxl_size < TWO64 - 4096) as [Hr0 Hr1] by
    (rewrite Hreq; change CXL_MAX_RANKS with 256 in *; change sizeof_header with 2112; change sizeof_mailbox with 20608; lia).
  - by apply round_up_bounds.
  - rewrite <- Hreq. by apply round_up_bounds.
Qed.

(** *** Registration of all ranks *)

Definition reset_all (n : Z) (order : list Z) (gs : Z → cxl_mem_t) (sh : Shm) : Shm :=
  foldl (λ sh r, register_reset r n (gs r) sh) sh order.
Definition enter_all (n : Z) (direct : bool) (pids : Z → Z) (hosts : Z → list Z) (order : list Z) (gs : Z → cxl_mem_t) (sh : Shm) : Shm :=
  foldl (λ sh r, (register_enter r n (pids r) (hosts r) direct (gs r) sh).2) sh order.

(** A process that has initialised a region with mailboxes for [n] ranks. *)
Definition ready_for (n : Z) (g : cxl_mem_t) : Prop := mapped g ∧ n <= g_max_ranks g ∧ g_max_ranks g <= CXL_MAX_RANKS.

Lemma can_register_ready n g r : ready_for n g → 0 <= r < n → can_register r g = true.
Proof.
  intros [[_ _ _ Hi Hh] [Hn _]] Hr. unfold can_register. rewrite Hi, Hh.
  rewrite (proj2 (Z.ltb_ge _ _)), (proj2 (Z.leb_gt _ _)) by lia. done.
Qed.

(** The region when the ranks of [entered] have registered, of [n] ranks. *)
Record registering (n : Z) (pids : Z → Z) (hosts : Z → list Z) (entered : list Z) (sh : Shm) : Prop := {
  rg_count : h_num_ranks (sh_header sh) = Z.of_nat (length entered);
  rg_offset : h_alloc_offset (sh_header sh) = CXL_HEADER_SIZE;
  rg_rptrs : h_coll_data_rptr (sh_header sh) = null_rptrs;
  rg_mailbox r : 0 <= r < n →
    sh_mailboxes sh !! Z.to_nat r = Some (if decide (r ∈ entered) then enter_mailbox r (pids r) (hosts r) zero_mailbox else zero_mailbox)
}.

Lemma reset_registering n pids hosts g r sh :
  ready_for n g → 0 <= r < n → registering n pids hosts [] (register_reset r n g sh).
Proof.
  intros Hg Hr. unfold register_reset. rewrite (can_register_ready n) by done. destruct Hg as [_ [Hn _]].
  split; [done..|]. intros k Hk. cbn. unfold clear_mailboxes.
  rewrite lookup_app_l by (rewrite length_replicate; lia). by apply lookup_replicate_2; lia.
Qed.

Lemma enter_registering n pids hosts direct g r l sh :
  ready_for n g → n <= CXL_MAX_RANKS → 0 <= r < n → r ∉ l → Forall (λ k, 0 <= k < n) l → NoDup l →
  registering n pids hosts l sh → registering n pids hosts (l ++ [r]) (register_enter r n (pids r) (hosts r) direct g sh).2.
Proof.
  intros Hg Hn Hr Hl Hrange Hnd [Hc Ho Hp Hm]. unfold register_enter. rewrite (can_register_ready n) by done. cbn.
  assert (Z.of_nat (length l) <= n) as Hlen.
  { assert (length l ≤ length (seqZ 0 n))%nat as Hlen.
    { apply submseteq_length, NoDup_submseteq; [done|]. intros k Hk. rewrite Forall_forall in Hrange. apply elem_of_seqZ. apply Hrange in Hk. lia. }
    rewrite length_seqZ in Hlen. lia. }
  split; cbn.
  - rewrite Hc, length_app. cbn. change CXL_MAX_RANKS with 256 in *. rewrite u32_small by mlia. lia.
  - done.
  - done.
  - intros k Hk. destruct (decide (k = r)) as [->|Hne].
    + rewrite list_lookup_alter_eq, Hm by done. rewrite decide_False by done. rewrite decide_True by set_solver. done.
    + rewrite list_lookup_alter_ne by lia. rewrite Hm by done.
      destruct (decide (k ∈ l)); [rewrite decide_True by set_solver|rewrite decide_False by set_solver]; done.
Qed.

Lemma enter_all_registering n direct pids hosts gs todo l sh :
  (∀ r, 0 <= r < n → ready_for n (gs r)) → n <= CXL_MAX_RANKS → NoDup (l ++ todo) → Forall (λ k, 0 <= k < n) (l ++ todo) →
  registering n pids hosts l sh → registering n pids hosts (l ++ todo) (enter_all n direct pids hosts todo gs sh).
Proof.
  intros Hg Hn. revert l sh. induction todo as [|r todo IH]; intros l sh Hnd Hrange Hreg; [by rewrite app_nil_r|].
  assert (0 <= r < n) as Hr by (rewrite Forall_forall in Hrange; apply Hrange; set_solver).
  replace (l ++ r :: todo) with ((l ++ [r]) ++ todo) in * by by rewrite <- app_assoc.
  apply IH; [done|done|]. apply NoDup_app in Hnd as (Hnd & _ & _). apply NoDup_app in Hnd as (Hnd & Hl & _).
  apply Forall_app in Hrange as [[Hrange _]%Forall_app _].
  apply enter_registering; [auto|done..| |done|done|done]. intros Hin. by apply (Hl r Hin), list_elem_of_singleton.
Qed.

Lemma reset_all_registering n pids hosts gs order sh :
  (∀ r, 0 <= r < n → ready_for n (gs r)) → order ≠ [] → Forall (λ r, 0 <= r < n) order →
  registering n pids hosts [] (reset_all n order gs sh).
Proof.
  intros Hg Hne Hr. destruct (exists_last Hne) as (l & r & ->). unfold reset_all. rewrite foldl_app. cbn [foldl].
  apply Forall_app in Hr as [_ [Hr _]%Forall_cons]. apply reset_registering; auto.
Qed.

(** When all ranks of a node register, each resetting the region before the
    barrier and entering itself after it, in any order on both sides, then
    every rank has an empty mailbox and is available, the count of ranks is
    exact, no buffer is registered, and every process finds all ranks local. *)
Theorem registration_complete n direct pids hosts gs order1 order2 sh
    (Hn : 1 <= n <= CXL_MAX_RANKS) (Hg : ∀ r, 0 <= r < n → ready_for n (gs r))
    (H1 : order1 ≡ₚ seqZ 0 n) (H2 : order2 ≡ₚ seqZ 0 n) :
  let sh' := enter_all n direct pids hosts order2 gs (reset_all n order1 gs sh) in
  h_num_ranks (sh_header sh') = n ∧ h_coll_data_rptr (sh_header sh') = null_rptrs ∧
  ∀ r, 0 <= r < n →
    sh_mailboxes sh' !! Z.to_nat r = Some (enter_mailbox r (pids r) (hosts r) zero_mailbox) ∧
    let g := registered r n direct (gs r) in
    g_all_ranks_local (find_local n g sh') = g_cxl_comm_enabled g || g_all_ranks_local (gs r).
Proof.
  intros sh'.
  assert (registering n pids hosts order2 sh') as [Hc Ho Hp Hm].
  { apply (enter_all_registering n direct pids hosts gs order2 []); [done|lia|rewrite H2; apply NoDup_seqZ| |].
    - rewrite H2. apply Forall_forall. intros k Hk%elem_of_seqZ. lia.
    - apply reset_all_registering; [done| |rewrite H1; apply Forall_forall; intros k Hk%elem_of_seqZ; lia].
      intros ->. apply Permutation_length in H1. rewrite length_seqZ in H1. cbn in H1. lia. }
  assert (∀ r, 0 <= r < n → sh_mailboxes sh' !! Z.to_nat r = Some (enter_mailbox r (pids r) (hosts r) zero_mailbox)) as Hall.
  { intros r Hr. rewrite Hm by done. rewrite decide_True; [done|]. rewrite H2. apply elem_of_seqZ. lia. }
  split_and!; [rewrite Hc, H2, length_seqZ; lia|done|]. intros r Hr. split; [by apply Hall|]. cbn zeta.
  unfold find_local. destruct (Hg r Hr) as [[_ _ _ Hi Hh] _]. cbn. rewrite Hi. destruct (direct || g_dax (gs r)) eqn:Ed; cbn; [|done].
  apply forallb_forall. intros k Hk%list_elem_of_In%elem_of_seqZ. unfold cxl_rank_available. cbn. rewrite Hi, Hh.
  rewrite (proj2 (Z.ltb_ge _ _)), (proj2 (Z.leb_gt _ _)) by lia. cbn. by rewrite Hall by lia.
Qed.

(** ** Witnesses *)

Definition small_process : cxl_mem_t :=
  {| g_base := 1048576; g_size := 8388608; g_used := 0; g_initialized := true; g_dax := true; g_header := true;
     g_my_rank := 0; g_world_size := 2; g_max_ranks := 256; g_cxl_comm_enabled := true; g_all_ranks_local := true |}.

Definition zero_header : cxl_shm_header_t :=
  {| h_magic := 0; h_version := 0; h_num_ranks := 0; h_alloc_offset := 0; h_total_size := 0; h_initialized := 0;
     h_init_state := 0; h_coll_generation := 0; h_coll_barrier_count := 0; h_coll_barrier_sense := 0; h_coll_phase := 0;
     h_coll_max_ranks := 0; h_coll_data_rptr := [] |}.

(** Fresh DAX memory. *)
Definition fresh_region : Shm := {| sh_header := zero_header; sh_mailboxes := []; sh_mem := ∅ |}.

Lemma small_process_mapped : mapped small_process.
Proof. by split. Qed.

Lemma memmove_exact_witness :
  let m := st_bytes 1048576 [1; 2; 3; 4; 5; 6; 7; 8; 9; 10] ∅ in
  mem_ok m ∧ ld8 (memmove false small_process 1048579 1048576 9 m) 1048583 = ld8 (libc_memmove 1048579 1048576 9 m) 1048583.
Proof.
  intros m. assert (mem_ok m) as Hm by (apply st_bytes_ok; [apply empty_mem_ok|repeat constructor; lia]).
  split; [done|]. apply (memmove_exact false small_process 1048579 1048576 9 m Hm). lia.
Defined.

Lemma memset_exact_witness :
  ld8 (memset true small_process 1048576 511 13 ∅) 1048588 = ld8 (libc_memset 1048576 511 13 ∅) 1048588 ∧
  ld8 (libc_memset 1048576 511 13 ∅) 1048588 = 255.
Proof. split; [apply (memset_exact true small_process 1048576 511 13 ∅); lia|reflexivity]. Defined.

Lemma rptr_shared_witness :
  let g' := set_base 4096 small_process in
  rptr_to_ptr g' (ptr_to_rptr small_process 1048600) = 4120.
Proof.
  intros g'. assert (mapped g') as Hg' by by split.
  exact (rptr_shared small_process g' 1048600 small_process_mapped Hg' eq_refl).
Defined.

Lemma heap_disjoint_witness :
  let h := {| hp_offset := 8192; hp_pending := []; hp_blocks := [(4096, 4096); (0, 4096)] |} in
  quiet_run 8192 (empty_heap 0) [Take 100; Take 9000; GiveBack 0; Take 4096] h ∧ pairwise disjoint (hp_blocks h).
Proof.
  intros h. assert (quiet_run 8192 (empty_heap 0) [Take 100; Take 9000; GiveBack 0; Take 4096] h) as Hr.
  { do 4 (eapply quiet_step; [reflexivity|cbn; lia|]). apply quiet_nil. }
  split; [done|]. apply (heap_disjoint 0 8192 [Take 100; Take 9000; GiveBack 0; Take 4096] h); [lia|lia|repeat constructor; cbn; lia|done].
Defined.

Lemma init_fits_witness :
  let e := {| env_map := Mapped 1048576 1000000 true; env_reset := false; env_seen := λ _, fresh_region |} in
  g_max_ranks (init_cxl_memory e g_cxl fresh_region).1 = 48 ∧
  sizeof_header + 48 * sizeof_mailbox <= 1000000.
Proof.
  intros e. split; [reflexivity|].
  pose proof (init_fits e g_cxl fresh_region 1048576 1000000 true eq_refl eq_refl) as H.
  specialize (H ltac:(by split)). destruct H as [_ H]. destruct (H eq_refl) as (_ & _ & _ & Hle & _). exact Hle.
Defined.

Lemma registration_complete_witness :
  let gs := λ _ : Z, small_process in
  let sh' := enter_all 2 false id (λ _, []) [1; 0] gs (reset_all 2 [0; 1] gs fresh_region) in
  h_num_ranks (sh_header sh') = 2.
Proof.
  intros gs sh'. apply (registration_complete 2 false id (λ _, []) gs [0; 1] [1; 0] fresh_region).
  - by split.
  - intros r _. split; [apply small_process_mapped|done].
  - done.
  - constructor.
Defined.
