(* ===== verification/MpiMailbox.v ===== *)
(** * The MPI shim: messages through mailboxes

    Models [cxl_send] and [cxl_recv] of src/workloads/gromacs/mpi_cxl_shim.c.
    Every rank has a mailbox in the region, a ring of 64 messages that any
    rank of the node appends to and the owner takes messages from, in any
    order, by source and tag.  A message of at most 256 bytes lies in its
    slot, a longer one in a block of the shared heap.

    A sending process ([SendPc]) and the receiving process ([RecvPc]) are
    state machines whose steps are the atomic accesses of the code: loads of
    [head], [tail] and the states of slots, the fetch-and-add of [head], the
    compare-and-swap of a state.  What lies between two of them is one step: a
    sender fills its slot, and allocates and fills its block, in one step; the
    receiver reads a slot that it has marked in one step.  [sys_step] lets any
    process make its next step, so a list of actions is an interleaving.  The
    cache flushes of CXL_CACHE_COHERENCE are not modelled: memory is
    sequentially consistent.

    [sy_hist] and [sy_got] record, for each position of the ring, who claimed
    it with which message and what was received; no step depends on them. *)

From S2P Require Import Prelude Bytes MpiShim.

(** ** Slots of a mailbox *)

(** The arguments of [cxl_send] and of [cxl_recv]. *)
Record Post := { po_buf : list Z; po_tag : Z; po_source : Z }.
Record Want := { wa_max : Z; wa_source : Z; wa_tag : Z }.

Definition data_size (p : Post) : Z := Z.of_nat (length (po_buf p)).

Definition slot (i : Z) : nat := Z.to_nat (i mod CXL_MSG_QUEUE_SIZE).
Definition get_msg (msgs : list cxl_msg_t) (i : Z) : cxl_msg_t := default zero_msg (msgs !! slot i).
Definition put_msg (f : cxl_msg_t → cxl_msg_t) (i : Z) (msgs : list cxl_msg_t) : list cxl_msg_t := alter f (slot i) msgs.

Definition set_state (s : Z) (m : cxl_msg_t) : cxl_msg_t :=
  {| ms_state := s; ms_source_rank := ms_source_rank m; ms_tag := ms_tag m; ms_count := ms_count m;
     ms_datatype_size := ms_datatype_size m; ms_data_rptr := ms_data_rptr m; ms_data_size := ms_data_size m;
     ms_inline_data := ms_inline_data m; ms_is_inline := ms_is_inline m |}.

Definition fill_meta (p : Post) (m : cxl_msg_t) : cxl_msg_t :=
  {| ms_state := ms_state m; ms_source_rank := u32 (po_source p); ms_tag := u32 (po_tag p); ms_count := ms_count m;
     ms_datatype_size := ms_datatype_size m; ms_data_rptr := ms_data_rptr m; ms_data_size := data_size p;
     ms_inline_data := ms_inline_data m; ms_is_inline := ms_is_inline m |}.

Definition fill_inline (p : Post) (m : cxl_msg_t) : cxl_msg_t :=
  {| ms_state := ms_state m; ms_source_rank := ms_source_rank m; ms_tag := ms_tag m; ms_count := ms_count m;
     ms_datatype_size := ms_datatype_size m; ms_data_rptr := CXL_RPTR_NULL; ms_data_size := ms_data_size m;
     ms_inline_data := po_buf p ++ drop (length (po_buf p)) (ms_inline_data m); ms_is_inline := 1 |}.

Definition fill_remote (rptr : Z) (m : cxl_msg_t) : cxl_msg_t :=
  {| ms_state := ms_state m; ms_source_rank := ms_source_rank m; ms_tag := ms_tag m; ms_count := ms_count m;
     ms_datatype_size := ms_datatype_size m; ms_data_rptr := rptr; ms_data_size := ms_data_size m;
     ms_inline_data := ms_inline_data m; ms_is_inline := 0 |}.

(** The tests of the scan on source and tag; a negative one is a wildcard. *)
Definition matches (w : Want) (source_rank tag : Z) : bool :=
  negb ((0 <=? wa_source w) && negb (source_rank =? u32 (wa_source w))) &&
  negb ((0 <=? wa_tag w) && negb (tag =? u32 (wa_tag w))).

(** ** Processes *)

Inductive SendPc :=
| SIdle
| STail (p : Post)                        (** about to load [tail] *)
| SHead (p : Post) (tail : Z)             (** about to load [head] and test for a full queue *)
| SClaim (p : Post)                       (** about to claim a position *)
| SWait (p : Post) (i retries : Z)        (** waits for the slot to be empty *)
| STest (p : Post) (i : Z)                (** about to load the state once more *)
| SFill (p : Post) (i : Z)
| SGiveBack (i size : Z)                  (** no memory for a long message *)
| SPublish (p : Post) (i : Z).            (** about to mark the message ready *)

Inductive RecvPc :=
| RIdle
| RTail (w : Want)                        (** about to load [tail] *)
| RHead (w : Want) (tail : Z)             (** about to load [head] *)
| RScan (w : Want) (tail head i : Z)      (** about to look at position [i] *)
| RCas (w : Want) (tail head i : Z)       (** about to mark it as being read *)
| RCopy (w : Want) (tail head i : Z)
| RConsume (tail head i : Z)              (** about to mark it consumed *)
| RAdvance (tail head : Z)                (** frees consumed slots from the tail *)
| RStore (tail : Z).                      (** about to store [tail] *)

(** Who claimed a position, and what became of it. *)
Inductive Hist := HClaimed (s : nat) | HPosted (s : nat) (p : Post) | HAbandoned (s : nat).

(** A message that was received: its position, the arguments of the call, the
    bytes copied and [actual_size]. *)
Record Receipt := { rc_pos : Z; rc_want : Want; rc_buf : list Z; rc_size : Z }.

Record Sys := {
  sy_mb : cxl_rank_mailbox_t;
  sy_mem : Mem;
  sy_offset : Z;                          (** [alloc_offset] of the header *)
  sy_senders : list SendPc;
  sy_recv : RecvPc;
  sy_hist : gmap Z Hist;
  sy_got : list Receipt
}.

Inductive Action := StartSend (s : nat) (p : Post) | StepSend (s : nat) | StartRecv (w : Want) | StepRecv.

Definition set_head (h : Z) (mb : cxl_rank_mailbox_t) : cxl_rank_mailbox_t :=
  {| mb_head := h; mb_tail := mb_tail mb; mb_active := mb_active mb; mb_rank := mb_rank mb; mb_hostname := mb_hostname mb;
     mb_pid := mb_pid mb; mb_messages := mb_messages mb |}.
Definition set_tail (t : Z) (mb : cxl_rank_mailbox_t) : cxl_rank_mailbox_t :=
  {| mb_head := mb_head mb; mb_tail := t; mb_active := mb_active mb; mb_rank := mb_rank mb; mb_hostname := mb_hostname mb;
     mb_pid := mb_pid mb; mb_messages := mb_messages mb |}.
Definition set_msgs (l : list cxl_msg_t) (mb : cxl_rank_mailbox_t) : cxl_rank_mailbox_t :=
  {| mb_head := mb_head mb; mb_tail := mb_tail mb; mb_active := mb_active mb; mb_rank := mb_rank mb; mb_hostname := mb_hostname mb;
     mb_pid := mb_pid mb; mb_messages := l |}.

Definition sy_msgs (y : Sys) : list cxl_msg_t := mb_messages (sy_mb y).
Definition sy_head (y : Sys) : Z := mb_head (sy_mb y).
Definition sy_tail (y : Sys) : Z := mb_tail (sy_mb y).

(** Updates of the shared state. *)
Definition with_mb (mb : cxl_rank_mailbox_t) (y : Sys) : Sys :=
  {| sy_mb := mb; sy_mem := sy_mem y; sy_offset := sy_offset y; sy_senders := sy_senders y; sy_recv := sy_recv y;
     sy_hist := sy_hist y; sy_got := sy_got y |}.
Definition with_heap (m : Mem) (o : Z) (y : Sys) : Sys :=
  {| sy_mb := sy_mb y; sy_mem := m; sy_offset := o; sy_senders := sy_senders y; sy_recv := sy_recv y;
     sy_hist := sy_hist y; sy_got := sy_got y |}.
Definition with_hist (i : Z) (h : Hist) (y : Sys) : Sys :=
  {| sy_mb := sy_mb y; sy_mem := sy_mem y; sy_offset := sy_offset y; sy_senders := sy_senders y; sy_recv := sy_recv y;
     sy_hist := <[i := h]> (sy_hist y); sy_got := sy_got y |}.
Definition with_send (s : nat) (pc : SendPc) (y : Sys) : Sys :=
  {| sy_mb := sy_mb y; sy_mem := sy_mem y; sy_offset := sy_offset y; sy_senders := <[s := pc]> (sy_senders y); sy_recv := sy_recv y;
     sy_hist := sy_hist y; sy_got := sy_got y |}.
Definition with_recv (pc : RecvPc) (y : Sys) : Sys :=
  {| sy_mb := sy_mb y; sy_mem := sy_mem y; sy_offset := sy_offset y; sy_senders := sy_senders y; sy_recv := pc;
     sy_hist := sy_hist y; sy_got := sy_got y |}.
Definition with_got (r : Receipt) (y : Sys) : Sys :=
  {| sy_mb := sy_mb y; sy_mem := sy_mem y; sy_offset := sy_offset y; sy_senders := sy_senders y; sy_recv := sy_recv y;
     sy_hist := sy_hist y; sy_got := r :: sy_got y |}.
Definition edit (f : cxl_msg_t → cxl_msg_t) (i : Z) (y : Sys) : Sys :=
  with_mb (set_msgs (put_msg f i (sy_msgs y)) (sy_mb y)) y.

Definition state_of (i : Z) (y : Sys) : Z := ms_state (get_msg (sy_msgs y) i).

(** [cxl_send]: the next step of the sender [s], whose process is [g]. *)
Definition send_step (g : cxl_mem_t) (s : nat) (pc : SendPc) (y : Sys) : Sys :=
  match pc with
  | SIdle => y
  | STail p => with_send s (SHead p (sy_tail y)) y
  | SHead p tail => with_send s (if CXL_MSG_QUEUE_SIZE <=? sy_head y -w tail then SIdle else SClaim p) y
  | SClaim p =>
      let i := sy_head y in
      with_send s (SWait p i 0) (with_hist i (HClaimed s) (with_mb (set_head (i +w 1) (sy_mb y)) y))
  | SWait p i retries =>
      with_send s (if negb (state_of i y =? CXL_MSG_EMPTY) && (retries <? 10000) then SWait p i (retries + 1) else STest p i) y
  | STest p i =>
      if negb (state_of i y =? CXL_MSG_EMPTY) then with_send s SIdle (with_hist i (HAbandoned s) y)
      else with_send s (SFill p i) y
  | SFill p i =>
      let y := edit (fill_meta p) i y in
      if data_size p <=? CXL_MSG_MAX_INLINE_SIZE then with_send s (SPublish p i) (edit (fill_inline p) i y)
      else
        let size := round_up (data_size p) in
        let old_offset := sy_offset y in
        let taken := fetch_add_offset size old_offset in
        if fits (g_size g) old_offset size then
          let rptr := ptr_to_rptr g (g_base g +w old_offset) in
          with_send s (SPublish p i) (edit (fill_remote rptr) i (with_heap (st_bytes old_offset (po_buf p) (sy_mem y)) taken y))
        else with_send s (SGiveBack i size) (with_heap (sy_mem y) taken y)
  | SGiveBack i size =>
      with_send s SIdle (with_hist i (HAbandoned s) (with_heap (sy_mem y) (fetch_sub_offset size (sy_offset y)) y))
  | SPublish p i => with_send s SIdle (with_hist i (HPosted s p) (edit (set_state CXL_MSG_READY) i y))
  end.

(** The bytes that are copied out of a message, [None] for an invalid pointer. *)
Definition read_msg (g : cxl_mem_t) (max_size : Z) (m : cxl_msg_t) (mem : Mem) : option (list Z) :=
  let copy_size := Z.to_nat (Z.min (ms_data_size m) max_size) in
  if negb (ms_is_inline m =? 0) then Some (take copy_size (ms_inline_data m))
  else
    let src_ptr := rptr_to_ptr g (ms_data_rptr m) in
    if src_ptr =? 0 then None else Some (ld_bytes mem (src_ptr - g_base g) copy_size).

(** [cxl_recv]: the next step of the receiver, whose process is [g]. *)
Definition recv_step (g : cxl_mem_t) (pc : RecvPc) (y : Sys) : Sys :=
  match pc with
  | RIdle => y
  | RTail w => with_recv (RHead w (sy_tail y)) y
  | RHead w tail => with_recv (if sy_head y <=? tail then RIdle else RScan w tail (sy_head y) tail) y
  | RScan w tail head i =>
      if i <? head then
        let m := get_msg (sy_msgs y) i in
        if negb (ms_state m =? CXL_MSG_READY) then with_recv (RScan w tail head (i + 1)) y
        else if matches w (ms_source_rank m) (ms_tag m) then with_recv (RCas w tail head i) y
        else with_recv (RScan w tail head (i + 1)) y
      else with_recv RIdle y
  | RCas w tail head i =>
      if state_of i y =? CXL_MSG_READY then with_recv (RCopy w tail head i) (edit (set_state CXL_MSG_READING) i y)
      else with_recv (RScan w tail head (i + 1)) y
  | RCopy w tail head i =>
      let m := get_msg (sy_msgs y) i in
      match read_msg g (wa_max w) m (sy_mem y) with
      | Some buf => with_recv (RConsume tail head i) (with_got {| rc_pos := i; rc_want := w; rc_buf := buf; rc_size := ms_data_size m |} y)
      | None => with_recv (RScan w tail head (i + 1)) (edit (set_state CXL_MSG_READY) i y)
      end
  | RConsume tail head i =>
      with_recv (if i =? tail then RAdvance tail head else RIdle) (edit (set_state CXL_MSG_CONSUMED) i y)
  | RAdvance tail head =>
      if (tail <? head) && (state_of tail y =? CXL_MSG_CONSUMED) then
        with_recv (RAdvance (tail + 1) head) (edit (set_state CXL_MSG_EMPTY) tail y)
      else with_recv (RStore tail) y
  | RStore tail => with_recv RIdle (with_mb (set_tail tail (sy_mb y)) y)
  end.

(** A call of [cxl_send] and of [cxl_recv], up to its first access. *)
Definition start_send (g : cxl_mem_t) (p : Post) (y : Sys) : SendPc :=
  if negb (g_cxl_comm_enabled g) || (mb_active (sy_mb y) =? 0) then SIdle else STail p.
Definition start_recv (g : cxl_mem_t) (w : Want) : RecvPc :=
  if negb (g_cxl_comm_enabled g) || (g_my_rank g <? 0) then RIdle else RTail w.

(** One step of a sender or of the receiver of one mailbox.  The heap is moved by
    these senders only: what the senders of other mailboxes, the windows and the
    hooks of memory allocate is not interleaved here. *)
Definition sys_step (gs : nat → cxl_mem_t) (gr : cxl_mem_t) (a : Action) (y : Sys) : option Sys :=
  match a with
  | StartSend s p => match sy_senders y !! s with Some SIdle => Some (with_send s (start_send (gs s) p y) y) | _ => None end
  | StepSend s => match sy_senders y !! s with Some SIdle | None => None | Some pc => Some (send_step (gs s) s pc y) end
  | StartRecv w => match sy_recv y with RIdle => Some (with_recv (start_recv gr w) y) | _ => None end
  | StepRecv => match sy_recv y with RIdle => None | pc => Some (recv_step gr pc y) end
  end.

Fixpoint sys_run (gs : nat → cxl_mem_t) (gr : cxl_mem_t) (l : list Action) (y : Sys) : option Sys :=
  match l with [] => Some y | a :: l' => y1 ← sys_step gs gr a y; sys_run gs gr l' y1 end.

(** A registered mailbox with [n] senders, all idle. *)
Definition start_sys (n : nat) (mb : cxl_rank_mailbox_t) (mem : Mem) (offset : Z) : Sys :=
  {| sy_mb := mb; sy_mem := mem; sy_offset := offset; sy_senders := replicate n SIdle; sy_recv := RIdle; sy_hist := ∅; sy_got := [] |}.

(** ** Slots: lemmas *)

Lemma slot_lt i : (slot i < 64)%nat.
Proof. unfold slot, CXL_MSG_QUEUE_SIZE. pose proof (Z.mod_pos_bound i 64). lia. Qed.

(** Positions less than 64 apart have different slots. *)
Lemma slot_ne i j : i ≠ j → - 64 < i - j < 64 → slot i ≠ slot j.
Proof.
  unfold slot, CXL_MSG_QUEUE_SIZE. intros Hne Hd He.
  pose proof (Z.mod_pos_bound i 64). pose proof (Z.mod_pos_bound j 64).
  assert (i mod 64 = j mod 64) as Hm by lia. Z.to_euclidean_division_equations. lia.
Qed.

Lemma get_put_eq f i msgs : length msgs = 64%nat → get_msg (put_msg f i msgs) i = f (get_msg msgs i).
Proof.
  intros Hl. unfold get_msg, put_msg. destruct (lookup_lt_is_Some_2 msgs (slot i)) as [m Hm]; [rewrite Hl; apply slot_lt|].
  rewrite list_lookup_alter_eq, Hm. done.
Qed.

Lemma get_put_ne f i j msgs : i ≠ j → - 64 < i - j < 64 → get_msg (put_msg f i msgs) j = get_msg msgs j.
Proof. intros Hne Hd. unfold get_msg, put_msg. by rewrite list_lookup_alter_ne by by apply slot_ne. Qed.

Lemma put_length f i msgs : length (put_msg f i msgs) = length msgs.
Proof. apply length_alter. Qed.

(** ** The invariant *)

Definition pc_pos (pc : SendPc) : option Z :=
  match pc with
  | SWait _ i _ | STest _ i | SFill _ i | SGiveBack i _ | SPublish _ i => Some i
  | _ => None
  end.

Definition pc_pending (pc : SendPc) : option Z := match pc with SGiveBack _ size => Some size | _ => None end.

Definition owner (h : Hist) : nat := match h with HClaimed s | HPosted s _ | HAbandoned s => s end.

Definition wanted (w : Want) (p : Post) : bool := matches w (u32 (po_source p)) (u32 (po_tag p)).

(** The tail as the receiver will store it. *)
Definition next_tail (tail : Z) (pc : RecvPc) : Z := match pc with RAdvance t _ | RStore t => t | _ => tail end.

(** The state that a position of the ring must have. *)
Definition reading (i : Z) (pc : RecvPc) : bool := match pc with RCopy _ _ _ j | RConsume _ _ j => i =? j | _ => false end.
Definition expected (hist : gmap Z Hist) (got : list Z) (pc : RecvPc) (i : Z) : Z :=
  match hist !! i with
  | Some (HPosted _ _) =>
      if reading i pc then CXL_MSG_READING else if decide (i ∈ got) then CXL_MSG_CONSUMED else CXL_MSG_READY
  | _ => CXL_MSG_EMPTY
  end.

(** A slot carries a message; a block lies below [top]. *)
Definition carries (mem : Mem) (top : Z) (m : cxl_msg_t) (p : Post) : Prop :=
  ms_source_rank m = u32 (po_source p) ∧ ms_tag m = u32 (po_tag p) ∧ ms_data_size m = data_size p ∧
  if data_size p <=? CXL_MSG_MAX_INLINE_SIZE then ms_is_inline m = 1 ∧ take (length (po_buf p)) (ms_inline_data m) = po_buf p
  else ms_is_inline m = 0 ∧ 0 <= ms_data_rptr m ∧ ms_data_rptr m + data_size p <= top ∧
       ld_bytes mem (ms_data_rptr m) (length (po_buf p)) = po_buf p.

(** Positions: all below [t] are received, those from [t] to [head] claimed. *)
Record window_ok (head tail t : Z) (hist : gmap Z Hist) (got : list Z) : Prop := {
  wi_order : 0 <= tail ∧ tail <= t ∧ t <= head;
  wi_claimed i : is_Some (hist !! i) ↔ 0 <= i < head;
  wi_below i : 0 <= i < t → i ∈ got;
  wi_got i : i ∈ got → ∃ s p, hist !! i = Some (HPosted s p);
  wi_once : NoDup got
}.

(** Senders and the positions they hold; a sender's position is its last. *)
Record senders_ok (senders : list SendPc) (hist : gmap Z Hist) : Prop := {
  se_holds s pc i : senders !! s = Some pc → pc_pos pc = Some i → hist !! i = Some (HClaimed s);
  se_held s i : hist !! i = Some (HClaimed s) → ∃ pc, senders !! s = Some pc ∧ pc_pos pc = Some i;
  se_last s i j h : hist !! i = Some (HClaimed s) → i < j → hist !! j = Some h → owner h ≠ s;
  se_size s pc : senders !! s = Some pc →
    match pc with STail p | SHead p _ | SClaim p | SWait p _ _ | STest p _ | SFill p _ | SPublish p _ => data_size p < 4611686018427383808 | _ => True end
}.

Record slots_ok (msgs : list cxl_msg_t) (t head : Z) (hist : gmap Z Hist) (got : list Z) (pc : RecvPc) : Prop := {
  sl_length : length msgs = 64%nat;
  sl_state i : t <= i < head → ms_state (get_msg msgs i) = expected hist got pc i;
  sl_free i : head <= i < t + 64 → ms_state (get_msg msgs i) = CXL_MSG_EMPTY
}.

Record data_ok (msgs : list cxl_msg_t) (mem : Mem) (top : Z) (hist : gmap Z Hist) (got : list Z) (senders : list SendPc) : Prop := {
  da_inline i : length (ms_inline_data (get_msg msgs i)) = 256%nat;
  da_posted i s p : hist !! i = Some (HPosted s p) → i ∉ got → carries mem top (get_msg msgs i) p;
  da_filled s p i : senders !! s = Some (SPublish p i) → carries mem top (get_msg msgs i) p
}.

(** What the scan has passed: a message it should have taken was posted only
    after [head] was loaded, and its sender has claimed no other position
    below [head]. *)
Definition passed (w : Want) (t head i : Z) (hist : gmap Z Hist) (got : list Z) : Prop :=
  ∀ k s p, t <= k < i → k ∉ got → hist !! k = Some (HPosted s p) → wanted w p = true →
  ∀ j h, k < j < head → hist !! j = Some h → owner h ≠ s.

Definition recv_ok (pc : RecvPc) (head tail : Z) (hist : gmap Z Hist) (got : list Z) : Prop :=
  match pc with
  | RIdle | RTail _ => True
  | RHead _ t => t = tail
  | RScan w t h i => t = tail ∧ t <= i <= h ∧ h <= head ∧ passed w t h i hist got
  | RCas w t h i | RCopy w t h i =>
      t = tail ∧ t <= i < h ∧ h <= head ∧ passed w t h i hist got ∧ i ∉ got ∧
      ∃ s p, hist !! i = Some (HPosted s p) ∧ wanted w p = true
  | RConsume t h i => t = tail ∧ t <= i < h ∧ h <= head ∧ i ∈ got
  | RAdvance t h => t <= h ∧ h <= head
  | RStore t => True
  end.

(** Two messages of a sender with the same source and tag are received in the
    order in which they were sent. *)
Definition order_ok (hist : gmap Z Hist) (got : list Z) : Prop :=
  ∀ i j s p q, i < j → hist !! i = Some (HPosted s p) → hist !! j = Some (HPosted s q) →
  po_source p = po_source q → po_tag p = po_tag q → j ∈ got → i ∈ got.

(** Every receipt is of the message that was posted there. *)
Definition receipt_ok (hist : gmap Z Hist) (r : Receipt) : Prop :=
  ∃ s p, hist !! rc_pos r = Some (HPosted s p) ∧ wanted (rc_want r) p = true ∧ rc_size r = data_size p ∧
         rc_buf r = take (Z.to_nat (Z.min (data_size p) (wa_max (rc_want r)))) (po_buf p).

Definition got_pos (y : Sys) : list Z := rc_pos <$> sy_got y.
Definition pending (y : Sys) : list Z := omap pc_pending (sy_senders y).

Record inv (lim : Z) (y : Sys) : Prop := {
  in_window : window_ok (sy_head y) (sy_tail y) (next_tail (sy_tail y) (sy_recv y)) (sy_hist y) (got_pos y);
  in_senders : senders_ok (sy_senders y) (sy_hist y);
  in_slots : slots_ok (sy_msgs y) (next_tail (sy_tail y) (sy_recv y)) (sy_head y) (sy_hist y) (got_pos y) (sy_recv y);
  in_data : ∃ top, heap_at lim top (sy_offset y) (pending y) ∧
                   data_ok (sy_msgs y) (sy_mem y) top (sy_hist y) (got_pos y) (sy_senders y);
  in_recv : recv_ok (sy_recv y) (sy_head y) (sy_tail y) (sy_hist y) (got_pos y);
  in_order : order_ok (sy_hist y) (got_pos y);
  in_receipts : Forall (receipt_ok (sy_hist y)) (sy_got y)
}.

(** The ring is not overrun, [head] does not wrap, and at most one allocation
    is being given back. *)
Definition calm (y : Sys) : Prop :=
  sy_head y <= sy_tail y + 64 ∧ sy_head y < UINT64_MAX ∧ (length (pending y) ≤ 1)%nat.

(** ** Steps that change only the place of a process *)

(** Computes the parts of a state after an update. *)
Ltac sys_cbn := cbn; unfold sy_tail, sy_head, sy_msgs, got_pos, pending in *; cbn in *.

Definition pc_size_ok (pc : SendPc) : Prop :=
  match pc with
  | STail p | SHead p _ | SClaim p | SWait p _ _ | STest p _ | SFill p _ | SPublish p _ => data_size p < 4611686018427383808
  | _ => True
  end.

Definition is_publish (pc : SendPc) : bool := match pc with SPublish _ _ => true | _ => false end.

Lemma senders_split (l : list SendPc) s pc pc' :
  l !! s = Some pc →
  l = take s l ++ pc :: drop (S s) l ∧ <[s := pc']> l = take s l ++ pc' :: drop (S s) l.
Proof.
  intros H. split; [by rewrite take_drop_middle|]. apply insert_take_drop. by eapply lookup_lt_Some.
Qed.

(** The pending sizes when a sender moves. *)
Lemma pending_move (l : list SendPc) s pc pc' :
  l !! s = Some pc →
  ∃ l1 l2, omap pc_pending l = l1 ++ option_list (pc_pending pc) ++ l2 ∧
           omap pc_pending (<[s := pc']> l) = l1 ++ option_list (pc_pending pc') ++ l2.
Proof.
  intros H. destruct (senders_split l s pc pc' H) as [H1 ->].
  exists (omap pc_pending (take s l)), (omap pc_pending (drop (S s) l)).
  split; [rewrite H1 at 1|]; rewrite omap_app; f_equal; cbn; by destruct (pc_pending _).
Qed.

Lemma pending_same (l : list SendPc) s pc pc' :
  l !! s = Some pc → pc_pending pc' = pc_pending pc → omap pc_pending (<[s := pc']> l) = omap pc_pending l.
Proof. intros H He. destruct (pending_move l s pc pc' H) as (l1 & l2 & -> & ->). by rewrite He. Qed.

Lemma senders_local senders hist s pc pc' :
  senders_ok senders hist → senders !! s = Some pc → pc_pos pc' = pc_pos pc → pc_size_ok pc' → senders_ok (<[s := pc']> senders) hist.
Proof.
  intros [Hh Hd Hl Hz] Hs Hp Hk. pose proof (lookup_lt_Some _ _ _ Hs) as Hlt. split.
  - intros s1 pc1 i [(-> & -> & _)|[_ H1]]%list_lookup_insert_Some Hi; [|by eapply Hh]. eapply Hh; [done|congruence].
  - intros s1 i (pc1 & H1 & Hi)%Hd. destruct (decide (s1 = s)) as [->|Hne]; [exists pc'|exists pc1].
    + rewrite list_lookup_insert_eq by done. split; [done|]. simplify_eq. congruence.
    + by rewrite list_lookup_insert_ne by done.
  - done.
  - intros s1 pc1 [(-> & -> & _)|[_ H1]]%list_lookup_insert_Some; [done|by eapply Hz].
Qed.

Lemma data_senders msgs mem top hist got senders s pc :
  data_ok msgs mem top hist got senders → is_publish pc = false → data_ok msgs mem top hist got (<[s := pc]> senders).
Proof.
  intros [Hi Hp Hf] Hn. split; [done|done|]. intros s1 p i [(-> & -> & _)|[_ H1]]%list_lookup_insert_Some; [done|by eapply Hf].
Qed.

Lemma send_local lim y s pc pc' :
  inv lim y → sy_senders y !! s = Some pc → pc_pos pc' = pc_pos pc → pc_pending pc' = pc_pending pc → pc_size_ok pc' →
  is_publish pc' = false → inv lim (with_send s pc' y).
Proof.
  intros [Hw Hs Hl (top & Hh & Hd) Hr Ho Hc] Hpc Hp Hn Hz Hb. split; try done.
  - by eapply senders_local.
  - exists top. split; [|by apply data_senders]. unfold pending. cbn. by erewrite pending_same.
Qed.

(** Receiver: a step between places that neither read a slot nor free one. *)
Lemma recv_local lim y pc' :
  inv lim y → next_tail (sy_tail y) pc' = next_tail (sy_tail y) (sy_recv y) → (∀ i, reading i pc' = reading i (sy_recv y)) →
  recv_ok pc' (sy_head y) (sy_tail y) (sy_hist y) (got_pos y) → inv lim (with_recv pc' y).
Proof.
  intros [Hw Hs [Hl Hst Hfr] Hd Hr Ho Hc] Ht Hrd Hok.
  split; sys_cbn; rewrite ?Ht; try done.
  split; [done| |done]. intros i Hi. rewrite Hst by done. unfold expected. by rewrite Hrd.
Qed.

(** ** Steps of senders *)

(** The places of the receiver depend on the history below [head] only. *)
Lemma recv_ok_claim pc head tail hist got s :
  recv_ok pc head tail hist got → recv_ok pc (head + 1) tail (<[head := HClaimed s]> hist) got.
Proof.
  assert (∀ w t h i, i <= h → h <= head → passed w t h i hist got → passed w t h i (<[head := HClaimed s]> hist) got) as Hp.
  { intros w t h i Hi Hh Hp k s1 p Hk Hg Hk1 Hw j o Hj Ho. rewrite lookup_insert_ne in Hk1, Ho by lia. by eapply (Hp k s1 p). }
  destruct pc as [| | |w t h i|w t h i|w t h i| | |]; cbn; intros H; try done; try (intuition lia).
  - destruct H as (-> & Hi & Hh & Hpa). split_and!; try lia. apply Hp; [lia..|done].
  - destruct H as (-> & Hi & Hh & Hpa & Hg & s1 & p & H1 & H2). split_and!; try lia; [apply Hp; [lia..|done]|done|].
    exists s1, p. by rewrite lookup_insert_ne by lia.
  - destruct H as (-> & Hi & Hh & Hpa & Hg & s1 & p & H1 & H2). split_and!; try lia; [apply Hp; [lia..|done]|done|].
    exists s1, p. by rewrite lookup_insert_ne by lia.
Qed.

Lemma receipt_insert hist r i h :
  receipt_ok hist r → (∀ s p, hist !! i ≠ Some (HPosted s p)) → receipt_ok (<[i := h]> hist) r.
Proof.
  intros (s & p & H & Hr) Hn. exists s, p. split; [|done]. rewrite lookup_insert_ne; [done|]. intros ->. by eapply Hn.
Qed.

Lemma claim_inv lim y s p g :
  inv lim y → sy_senders y !! s = Some (SClaim p) → sy_head y < UINT64_MAX → sy_head y < sy_tail y + 64 →
  inv lim (send_step g s (SClaim p) y) ∧ sy_head (send_step g s (SClaim p) y) = sy_head y + 1.
Proof.
  intros [Hw Hs Hl (top & Hh & Hd) Hr Ho Hc] Hpc Hmax Hroom. destruct Hw as [Hord Hcl Hbe Hgo Hon].
  assert (sy_hist y !! sy_head y = None) as Hnew.
  { apply eq_None_not_Some. intros ?%Hcl. lia. }
  assert (sy_head y +w 1 = sy_head y + 1) as Hu by (apply u64_small; unfold UINT64_MAX in *; mlia).
  split; [|cbn; by rewrite Hu]. pose proof (lookup_lt_Some _ _ _ Hpc) as Hlt.
  destruct Hs as [Hsh Hsd Hsl Hsz]. destruct Hl as [Hll Hls Hlf].
  split; sys_cbn; rewrite ?Hu.
  - split; [lia| |done| |done].
    + intros i. rewrite lookup_insert_is_Some, Hcl. lia.
    + intros i Hi. destruct (Hgo i Hi) as (s1 & p1 & H1). exists s1, p1. rewrite lookup_insert_ne; [done|]. intros <-. congruence.
  - split.
    + intros s1 pc1 i [(<- & <- & _)|[Hne H1]]%list_lookup_insert_Some Hi; cbn in *; [simplify_eq; by rewrite lookup_insert_eq|].
      rewrite lookup_insert_ne; [by eapply Hsh|]. intros <-. pose proof (Hsh _ _ _ H1 Hi). congruence.
    + intros s1 i [[<- [= <-]]|[Hne H1]]%lookup_insert_Some; [exists (SWait p (mb_head (sy_mb y)) 0); by rewrite list_lookup_insert_eq|].
      destruct (Hsd s1 i H1) as (pc1 & H2 & H3). exists pc1. split; [|done]. rewrite list_lookup_insert_ne; [done|]. intros <-. by simplify_eq.
    + intros s1 i j h [[<- [= <-]]|[Hne H1]]%lookup_insert_Some Hij Hj.
      * rewrite lookup_insert_ne in Hj by lia. assert (is_Some (sy_hist y !! j)) as H%Hcl by eauto. lia.
      * apply lookup_insert_Some in Hj as [[<- <-]|[_ Hj]]; [|by eapply Hsl]. cbn. intros ->.
        destruct (Hsd s1 i H1) as (pc1 & H2 & H3). by simplify_eq.
    + intros s1 pc1 [(<- & <- & _)|[_ H1]]%list_lookup_insert_Some; [|by eapply Hsz]. cbn. by apply (Hsz s (SClaim p)).
  - split; [done| |intros i Hi; apply Hlf; lia]. intros i Hi. unfold expected. destruct (decide (i = mb_head (sy_mb y))) as [->|Hne].
    + rewrite lookup_insert_eq. apply Hlf. lia.
    + rewrite lookup_insert_ne by done. apply Hls. lia.
  - exists top. split; [by erewrite pending_same|]. apply data_senders; [|done]. destruct Hd as [Hi Hp Hf]. split; [done| |done].
    intros i s1 p1 [[_ ?]|[_ H1]]%lookup_insert_Some; [done|by eapply Hp].
  - by apply recv_ok_claim.
  - intros i j s1 p1 p2 Hij [[_ ?]|[_ H1]]%lookup_insert_Some; [done|]. intros [[_ ?]|[_ H2]]%lookup_insert_Some; [done|]. by eapply Ho.
  - eapply Forall_impl; [exact Hc|]. intros r Hr1. apply receipt_insert; [done|]. intros s1 p1. by rewrite Hnew.
Qed.

(** The slot that a sender holds is empty and in the window. *)
Lemma held_pos lim y s pc i :
  inv lim y → sy_senders y !! s = Some pc → pc_pos pc = Some i →
  sy_hist y !! i = Some (HClaimed s) ∧ next_tail (sy_tail y) (sy_recv y) <= i < sy_head y ∧ i ∉ got_pos y ∧
  state_of i y = CXL_MSG_EMPTY.
Proof.
  intros [[Hord Hcl Hbe Hgo _] [Hsh _ _ _] [_ Hst _] _ _ _ _] Hpc Hi. pose proof (Hsh _ _ _ Hpc Hi) as Hh.
  assert (i ∉ got_pos y) as Hg by (intros (? & ? & ?)%Hgo; congruence).
  assert (0 <= i < sy_head y) as Hr by (apply Hcl; eauto).
  assert (next_tail (sy_tail y) (sy_recv y) <= i) by (apply Z.nlt_ge; intros ?; apply Hg, Hbe; lia).
  split_and!; [done|lia|lia|done|]. unfold state_of. rewrite Hst by lia. unfold expected. by rewrite Hh.
Qed.

Lemma carries_mono mem mem' top top' m p :
  carries mem top m p → top <= top' → (∀ a, 0 <= a < top → ld8 mem' a = ld8 mem a) → carries mem' top' m p.
Proof.
  intros (H1 & H2 & H3 & H4) Ht Hm. split_and!; [done..|]. case_match; [done|]. destruct H4 as (H4 & H5 & H6 & H7).
  split_and!; [done..|lia|]. rewrite <- H7 at 2. apply list_eq. intros k.
  destruct (decide (k < length (po_buf p))%nat) as [Hk|Hk].
  - rewrite !ld_bytes_lookup by done. rewrite Hm; [done|]. unfold data_size in *. lia.
  - rewrite !lookup_ge_None_2 by (rewrite ld_bytes_length; lia). done.
Qed.

Lemma get_put_any f i j msgs :
  length msgs = 64%nat → get_msg (put_msg f i msgs) j = f (get_msg msgs j) ∨ get_msg (put_msg f i msgs) j = get_msg msgs j.
Proof.
  intros Hl. destruct (decide (slot i = slot j)) as [He|He].
  - left. assert (put_msg f i msgs = put_msg f j msgs) as -> by (unfold put_msg; by rewrite He). by apply get_put_eq.
  - right. unfold get_msg, put_msg. by rewrite list_lookup_alter_ne by done.
Qed.

(** Steps in which a sender fills the slot it holds, and its block. *)
Lemma fill_inv lim y s pc pc' i f mem' off' :
  inv lim y → sy_head y <= sy_tail y + 64 → sy_senders y !! s = Some pc → pc_pos pc = Some i → pc_pos pc' = Some i → pc_size_ok pc' →
  (∀ m, ms_state (f m) = ms_state m) → (∀ m, length (ms_inline_data m) = 256%nat → length (ms_inline_data (f m)) = 256%nat) →
  (∀ top, heap_at lim top (sy_offset y) (pending y) →
     ∃ top', heap_at lim top' off' (omap pc_pending (<[s := pc']> (sy_senders y))) ∧ top <= top' ∧
             (∀ a, 0 <= a < top → ld8 mem' a = ld8 (sy_mem y) a) ∧
             (∀ p m, pc' = SPublish p i → length (ms_inline_data m) = 256%nat → carries mem' top' (f m) p)) →
  inv lim (with_send s pc' (edit f i (with_heap mem' off' y))).
Proof.
  intros Hinv Hcalm Hpc Hi Hi' Hz Hfs Hfl Hheap. destruct (held_pos lim y s pc i Hinv Hpc Hi) as (Hh & Hr & Hg & Hst0).
  destruct Hinv as [Hw Hs [Hl Hst Hfr] (top & Hat & [Hdi Hdp Hdf]) Hrv Ho Hc]. destruct (Hheap top Hat) as (top' & Hat' & Hle & Hmem & Hcar).
  pose proof (lookup_lt_Some _ _ _ Hpc) as Hlt. pose proof (wi_order _ _ _ _ _ Hw) as Hord.
  split; sys_cbn; try done.
  - eapply senders_local; [done..|congruence|done].
  - split; [by rewrite put_length| |].
    + intros j Hj. destruct (decide (i = j)) as [<-|Hne]; [rewrite get_put_eq, Hfs by done|rewrite get_put_ne by lia]; by apply Hst.
    + intros j Hj. rewrite get_put_ne by lia. by apply Hfr.
  - exists top'. split; [done|]. split.
    + intros j. destruct (get_put_any f i j (mb_messages (sy_mb y))) as [-> | ->]; auto.
    + intros j s1 p1 Hj Hjg. assert (i ≠ j) by congruence.
      assert (0 <= j < mb_head (sy_mb y)) by (apply (wi_claimed _ _ _ _ _ Hw); eauto).
      assert (¬ j < next_tail (mb_tail (sy_mb y)) (sy_recv y)) by (intros ?; apply Hjg, (wi_below _ _ _ _ _ Hw); lia).
      rewrite get_put_ne by lia. eapply carries_mono; [by eapply Hdp|done..].
    + intros s1 p1 j [(<- & -> & _)|[Hne H1]]%list_lookup_insert_Some.
      * cbn in Hi'. injection Hi' as ->. rewrite get_put_eq by done. by apply Hcar.
      * pose proof (se_holds _ _ Hs _ _ j H1 eq_refl) as Hj1. assert (i ≠ j) by congruence.
        assert (0 <= j < mb_head (sy_mb y)) by (apply (wi_claimed _ _ _ _ _ Hw); eauto).
        assert (¬ j < next_tail (mb_tail (sy_mb y)) (sy_recv y)).
        { intros ?. destruct (wi_got _ _ _ _ _ Hw j) as (? & ? & ?); [apply (wi_below _ _ _ _ _ Hw); lia|congruence]. }
        rewrite get_put_ne by lia. eapply carries_mono; [by eapply Hdf|done..].
Qed.

(** *** The end of a claim *)

Section settle.
Context (senders : list SendPc) (hist : gmap Z Hist) (s : nat) (pc : SendPc) (i : Z) (h : Hist).
Hypothesis (Hs : senders_ok senders hist) (Hpc : senders !! s = Some pc) (Hi : pc_pos pc = Some i).
Hypothesis (Hown : owner h = s) (Hnc : ∀ s', h ≠ HClaimed s').

Lemma settle_claimed : hist !! i = Some (HClaimed s).
Proof using Hs Hpc Hi. by eapply se_holds. Qed.

Lemma senders_settle : senders_ok (<[s := SIdle]> senders) (<[i := h]> hist).
Proof using All.
  pose proof settle_claimed as Hc. pose proof (lookup_lt_Some _ _ _ Hpc). destruct Hs as [Hsh Hsd Hsl Hsz]. split.
  - intros s1 pc1 j [(_ & <- & _)|[Hne H1]]%list_lookup_insert_Some Hj; [done|]. pose proof (Hsh _ _ _ H1 Hj).
    rewrite lookup_insert_ne by congruence. done.
  - intros s1 j [[_ ->]|[Hne H1]]%lookup_insert_Some; [by destruct (Hnc s1)|]. destruct (Hsd s1 j H1) as (pc1 & H2 & H3).
    exists pc1. rewrite list_lookup_insert_ne; [done|]. intros <-. simplify_eq.
  - intros s1 k j o [[_ ->]|[Hne H1]]%lookup_insert_Some Hj; [by destruct (Hnc s1)|].
    intros [[<- <-]|[_ H2]]%lookup_insert_Some; [|by eapply Hsl]. rewrite Hown. by apply (Hsl s1 k i (HClaimed s)).
  - intros s1 pc1 [(_ & <- & _)|[_ H1]]%list_lookup_insert_Some; [done|by eapply Hsz].
Qed.

Lemma window_settle head tail t got : window_ok head tail t hist got → window_ok head tail t (<[i := h]> hist) got.
Proof using Hs Hpc Hi.
  pose proof settle_claimed as Hc. intros [Hord Hcl Hbe Hgo Hon]. split; [done| |done| |done].
  - intros j. rewrite lookup_insert_is_Some, Hcl. split; [intros [<-|[_ ?]]; [apply Hcl; eauto|done]|].
    intros ?. destruct (decide (i = j)); auto.
  - intros j (s1 & p & Hj)%Hgo. exists s1, p. rewrite lookup_insert_ne by congruence. done.
Qed.

Lemma passed_settle w t hd k got : passed w t hd k hist got → passed w t hd k (<[i := h]> hist) got.
Proof using All.
  pose proof settle_claimed as Hc. intros Hp k1 s1 p Hk Hg.
  assert (∀ j o, (<[i := h]> hist) !! j = Some o → ∃ o', hist !! j = Some o' ∧ owner o' = owner o) as Hold.
  { intros j o [[<- <-]|[_ H1]]%lookup_insert_Some; eauto. }
  intros [[<- He]|[Hne H1]]%lookup_insert_Some Hw j o Hj (o' & Ho & <-)%Hold.
  - rewrite He in Hown. cbn in Hown. subst s1. eapply (se_last _ _ Hs s i j); [done|lia|done].
  - by eapply (Hp k1 s1 p).
Qed.

Lemma recv_settle rpc head tail got : recv_ok rpc head tail hist got → recv_ok rpc head tail (<[i := h]> hist) got.
Proof using All.
  pose proof settle_claimed as Hc. destruct rpc as [| | |w t hd k|w t hd k|w t hd k| | |]; cbn; intros H; try done.
  - destruct H as (-> & ? & ? & ?). split_and!; try lia. by apply passed_settle.
  - destruct H as (-> & ? & ? & ? & ? & s1 & p & H1 & H2). split_and!; try lia; [by apply passed_settle|done|].
    exists s1, p. by rewrite lookup_insert_ne by congruence.
  - destruct H as (-> & ? & ? & ? & ? & s1 & p & H1 & H2). split_and!; try lia; [by apply passed_settle|done|].
    exists s1, p. by rewrite lookup_insert_ne by congruence.
Qed.

Lemma order_settle got : i ∉ got → order_ok hist got → order_ok (<[i := h]> hist) got.
Proof using All.
  pose proof settle_claimed as Hc. intros Hg Ho k j s1 p q Hkj [[<- Hk]|[Hne Hk]]%lookup_insert_Some;
    intros [[<- Hj]|[Hne' Hj]]%lookup_insert_Some ? ? Hgot.
  - lia.
  - rewrite Hk in Hown. cbn in Hown. subst s1. by destruct (se_last _ _ Hs s i j _ Hc Hkj Hj).
  - done.
  - by eapply (Ho k j).
Qed.

Lemma receipts_settle got : Forall (receipt_ok hist) got → Forall (receipt_ok (<[i := h]> hist)) got.
Proof using Hs Hpc Hi.
  pose proof settle_claimed as Hc. intros Hf. eapply Forall_impl; [exact Hf|]. intros r Hr.
  apply receipt_insert; [done|]. intros s1 p. congruence.
Qed.
End settle.

(** The receiver never reads a position that is still claimed. *)
Lemma reading_posted lim y i : inv lim y → reading i (sy_recv y) = true → ∃ s p, sy_hist y !! i = Some (HPosted s p).
Proof.
  intros [[_ _ _ Hgo _] _ _ _ Hr _ _] Hrd. destruct (sy_recv y); cbn in *; try done; apply Z.eqb_eq in Hrd as ->.
  - destruct Hr as (_ & _ & _ & _ & _ & s & p & H & _). eauto.
  - destruct Hr as (_ & _ & _ & H). by apply Hgo.
Qed.

Lemma ready_inv lim y s p i g :
  inv lim y → sy_head y <= sy_tail y + 64 → sy_senders y !! s = Some (SPublish p i) → inv lim (send_step g s (SPublish p i) y).
Proof.
  intros Hinv Hcalm Hpc. destruct (held_pos lim y s _ i Hinv Hpc eq_refl) as (Hh & Hr & Hg & _).
  pose proof (reading_posted lim y i Hinv) as Hrd.
  destruct Hinv as [Hw Hs [Hl Hst Hfr] (top & Hat & [Hdi Hdp Hdf]) Hrv Ho Hc].
  pose proof (wi_order _ _ _ _ _ Hw) as Hord. sys_cbn.
  assert (Hsettle := senders_settle _ _ s _ i (HPosted s p) Hs Hpc eq_refl eq_refl ltac:(done)).
  split; sys_cbn.
  - by eapply window_settle.
  - done.
  - split; [by rewrite put_length| |].
    + intros j Hj. unfold expected. destruct (decide (i = j)) as [<-|Hne].
      * rewrite get_put_eq, lookup_insert_eq by done. destruct (reading i (sy_recv y)); [destruct Hrd as (? & ? & ?); [done|congruence]|].
        by rewrite decide_False.
      * rewrite get_put_ne by lia. rewrite lookup_insert_ne by done. by apply Hst.
    + intros j Hj. rewrite get_put_ne by lia. by apply Hfr.
  - exists top. split; [by erewrite pending_same|]. apply data_senders; [|done]. split.
    + intros j. destruct (get_put_any (set_state CXL_MSG_READY) i j (mb_messages (sy_mb y))) as [-> | ->]; [done|apply Hdi..].
    + intros j s1 p1 [[<- [= <- <-]]|[Hne Hj]]%lookup_insert_Some Hjg.
      * rewrite get_put_eq by done. apply (Hdf s p i Hpc).
      * assert (0 <= j < mb_head (sy_mb y)) by (apply (wi_claimed _ _ _ _ _ Hw); eauto).
        assert (¬ j < next_tail (mb_tail (sy_mb y)) (sy_recv y)) by (intros ?; apply Hjg, (wi_below _ _ _ _ _ Hw); lia).
        rewrite get_put_ne by lia. by eapply Hdp.
    + intros s1 p1 j H1. destruct (get_put_any (set_state CXL_MSG_READY) i j (mb_messages (sy_mb y))) as [-> | ->]; [done|apply (Hdf s1 p1 j H1)..].
  - by eapply recv_settle.
  - by eapply order_settle.
  - by eapply receipts_settle.
Qed.

Lemma give_back_inv lim y s i size g :
  inv lim y → sy_senders y !! s = Some (SGiveBack i size) → inv lim (send_step g s (SGiveBack i size) y).
Proof.
  intros Hinv Hpc. destruct (held_pos lim y s _ i Hinv Hpc eq_refl) as (Hh & Hr & Hg & _).
  destruct Hinv as [Hw Hs [Hl Hst Hfr] (top & Hat & [Hdi Hdp Hdf]) Hrv Ho Hc].
  assert (Hsettle := senders_settle _ _ s _ i (HAbandoned s) Hs Hpc eq_refl eq_refl ltac:(done)).
  split; sys_cbn.
  - by eapply window_settle.
  - done.
  - split; [done| |done]. intros j Hj. rewrite Hst by done. unfold expected.
    destruct (decide (i = j)) as [<-|Hne]; [by rewrite lookup_insert_eq, Hh|by rewrite lookup_insert_ne].
  - exists top. split.
    + destruct (pending_move _ s _ SIdle Hpc) as (l1 & l2 & He & ->). rewrite He in Hat. cbn in *.
      pose proof (ha_pending _ _ _ _ Hat) as [Hp|(sz & Hp & _)]; [by destruct l1|].
      assert (l1 = [] ∧ l2 = [] ∧ sz = size) as (-> & -> & ->) by (destruct l1 as [|? [|? ?]], l2; by simplify_eq/=).
      by apply give_back.
    + apply data_senders; [|done]. split; [done| |done]. intros j s1 p1 [[_ ?]|[_ Hj]]%lookup_insert_Some; [done|by eapply Hdp].
  - by eapply recv_settle.
  - by eapply order_settle.
  - by eapply receipts_settle.
Qed.

(** *** Filling a slot *)

Lemma alter_twice {A} (f1 f2 : A → A) k (l : list A) : alter f2 k (alter f1 k l) = alter (f2 ∘ f1) k l.
Proof. revert k. induction l as [|x l IH]; intros [|k]; [done..|]. cbn. f_equal. apply IH. Qed.

Lemma edit_edit f1 f2 i y : edit f2 i (edit f1 i y) = edit (f2 ∘ f1) i y.
Proof. unfold edit, with_mb, set_msgs, sy_msgs. cbn. f_equal. f_equal. apply alter_twice. Qed.

Lemma fill_inline_carries mem top p m :
  length (ms_inline_data m) = 256%nat → data_size p <= 256 → carries mem top (fill_inline p (fill_meta p m)) p.
Proof.
  intros Hl Hd. split_and!; [done..|]. change CXL_MSG_MAX_INLINE_SIZE with 256. rewrite (proj2 (Z.leb_le _ _)) by done.
  split; [done|]. cbn. by rewrite take_app_length.
Qed.

Lemma fill_remote_carries mem a top p m :
  256 < data_size p → 0 <= a → a + data_size p <= top → carries (st_bytes a (po_buf p) mem) top (fill_remote a (fill_meta p m)) p.
Proof.
  intros Hd Ha Ht. split_and!; [done..|]. change CXL_MSG_MAX_INLINE_SIZE with 256. rewrite (proj2 (Z.leb_gt _ _)) by done.
  split_and!; [done..|]. apply ld_st_bytes.
Qed.

(** The step of a sender that fills its slot. *)
Lemma fill_step_inv g y s p i :
  mapped g → g_size g < 4611686018427387904 → inv (g_size g) y → sy_head y <= sy_tail y + 64 →
  sy_senders y !! s = Some (SFill p i) → (length (pending (send_step g s (SFill p i) y)) ≤ 1)%nat →
  inv (g_size g) (send_step g s (SFill p i) y).
Proof.
  intros Hg Hlim Hinv Hcalm Hpc Hquiet. pose proof (se_size _ _ (in_senders _ _ Hinv) _ _ Hpc) as Hz. cbn in Hz.
  assert (0 <= data_size p) as Hd0 by (unfold data_size; lia). destruct (round_up_bounds (data_size p)) as [Hru _]; [lia..|].
  cbn [send_step] in *. change CXL_MSG_MAX_INLINE_SIZE with 256 in *. destruct (Z.leb_spec (data_size p) 256) as [Hsm|Hbig].
  - rewrite edit_edit. assert (y = with_heap (sy_mem y) (sy_offset y) y) as Hy by by destruct y. rewrite Hy.
    eapply (fill_inv (g_size g) _ s (SFill p i) (SPublish p i) i (fill_inline p ∘ fill_meta p)); try done.
    + intros m Hm. cbn. rewrite length_app, length_drop, Hm. unfold data_size in *. lia.
    + intros top Hat. exists top. split_and!; [|lia|done|intros p1 m [= <-] Hm; by apply fill_inline_carries].
      unfold pending in Hat. cbn in *. by erewrite pending_same.
  - change (sy_offset (edit (fill_meta p) i y)) with (sy_offset y) in *. change (sy_mem (edit (fill_meta p) i y)) with (sy_mem y) in *.
    destruct (fits (g_size g) (sy_offset y) (round_up (data_size p))) eqn:Ef.
    + change (with_heap ?m ?o (edit ?f ?j ?z)) with (edit f j (with_heap m o z)) in *. rewrite edit_edit.
      eapply (fill_inv (g_size g) _ s (SFill p i) (SPublish p i) i); try done.
      intros top Hat. destruct (take_fits _ _ _ _ (round_up (data_size p)) Hat ltac:(lia) Ef) as (Hp & Ho & Hle & Hat').
      pose proof (ha_top _ _ _ _ Hat) as Htop.
      exists (top + round_up (data_size p)). split_and!; [|lia|intros a Ha; apply st_bytes_below; lia|].
      * erewrite pending_same by done. unfold pending in Hp. by rewrite Hp.
      * intros p1 m [= <-] _. cbn [compose]. rewrite Ho. destruct Hg as [Hb Hs He Hgi Hgh].
        rewrite (u64_small (g_base g + top)) by mlia. rewrite ptr_to_rptr_in by (split || lia; (done || lia)).
        replace (g_base g + top - g_base g) with top by lia. apply fill_remote_carries; lia.
    + change (with_heap ?m ?o (edit ?f ?j ?z)) with (edit f j (with_heap m o z)) in *.
      eapply (fill_inv (g_size g) _ s (SFill p i) (SGiveBack i _) i); try done.
      intros top Hat. exists top. split_and!; [|lia|done|done].
      destruct (pending_move _ s _ (SGiveBack i (round_up (data_size p))) Hpc) as (l1 & l2 & He & He').
      unfold pending in Hquiet, Hat. cbn in Hquiet. rewrite He' in *. rewrite He in Hat. cbn in *.
      assert (l1 = [] ∧ l2 = []) as [-> ->] by (destruct l1 as [|? [|? ?]], l2; cbn in Hquiet; rewrite ?length_app in Hquiet; cbn in Hquiet; first [done|lia]).
      apply take_misses; [done|lia|done].
Qed.

(** Every step of a sender keeps the invariant while the system is calm. *)
Lemma send_step_inv g s pc y :
  mapped g → g_size g < 4611686018427387904 → inv (g_size g) y → sy_senders y !! s = Some pc →
  calm y → calm (send_step g s pc y) → inv (g_size g) (send_step g s pc y).
Proof.
  intros Hg Hlim Hinv Hpc (Hc1 & Hc2 & _) (Hc1' & _ & Hc3'). pose proof (se_size _ _ (in_senders _ _ Hinv) _ _ Hpc) as Hz.
  pose proof (wi_order _ _ _ _ _ (in_window _ _ Hinv)) as Hord. destruct pc as [|p|p t|p|p i r|p i|p i|i size|p i].
  - done.
  - by eapply send_local.
  - cbn [send_step]. case_match; by eapply send_local.
  - apply claim_inv; [done..|]. unfold sy_head, sy_tail in *. cbn in Hc1'. unfold sy_head in Hc1'.
    rewrite (u64_small (mb_head (sy_mb y) + 1)) in Hc1' by (unfold UINT64_MAX in *; mlia). lia.
  - cbn [send_step]. case_match; by eapply send_local.
  - cbn [send_step]. destruct (held_pos _ y s _ i Hinv Hpc eq_refl) as (_ & _ & _ & ->). by eapply send_local.
  - by apply fill_step_inv.
  - by apply give_back_inv.
  - by apply ready_inv.
Qed.

(** ** Steps of the receiver *)

Lemma data_mark msgs mem top hist got senders v i :
  length msgs = 64%nat → data_ok msgs mem top hist got senders → data_ok (put_msg (set_state v) i msgs) mem top hist got senders.
Proof.
  intros Hl [Hi Hp Hf]. split.
  - intros j. destruct (get_put_any (set_state v) i j msgs Hl) as [-> | ->]; apply Hi.
  - intros j s p Hj Hg. destruct (get_put_any (set_state v) i j msgs Hl) as [-> | ->]; by apply (Hp j s p).
  - intros s p j Hs. destruct (get_put_any (set_state v) i j msgs Hl) as [-> | ->]; by apply (Hf s p j).
Qed.

Lemma expected_ready hist got pc i :
  expected hist got pc i = CXL_MSG_READY → (∃ s p, hist !! i = Some (HPosted s p)) ∧ i ∉ got ∧ reading i pc = false.
Proof.
  unfold expected. destruct (hist !! i) as [[s|s p|s]|]; try done. destruct (reading i pc); [done|]. destruct (decide (i ∈ got)); [done|]. eauto.
Qed.

Lemma expected_consumed hist got pc i : expected hist got pc i = CXL_MSG_CONSUMED → i ∈ got.
Proof. unfold expected. destruct (hist !! i) as [[s|s p|s]|]; try done. destruct (reading i pc); [done|]. by destruct (decide (i ∈ got)). Qed.

Lemma passed_next w t head i hist got :
  passed w t head i hist got → (∀ s p, i ∉ got → hist !! i = Some (HPosted s p) → wanted w p = false) → passed w t head (i + 1) hist got.
Proof.
  intros Hp Hi k s p Hk Hg Hh Hw. destruct (decide (k = i)) as [->|Hne]; [rewrite (Hi s p Hg Hh) in Hw; done|].
  apply (Hp k s p); [lia|done..].
Qed.

(** The scan: it passes what is not ready or not wanted. *)
Lemma scan_inv lim y g w t h i :
  inv lim y → sy_recv y = RScan w t h i → inv lim (recv_step g (RScan w t h i) y).
Proof.
  intros Hinv Hpc. pose proof (in_recv _ _ Hinv) as Hr. rewrite Hpc in Hr. cbn in Hr. destruct Hr as (-> & Hi & Hh & Hp).
  pose proof (sl_state _ _ _ _ _ _ (in_slots _ _ Hinv)) as Hst. rewrite Hpc in Hst. cbn in Hst.
  destruct (in_data _ _ Hinv) as (top & _ & Hd). cbn [recv_step]. destruct (Z.ltb_spec i h) as [Hlt|_].
  2: { apply recv_local; rewrite ?Hpc; done. }
  specialize (Hst i ltac:(lia)). destruct (Z.eqb_spec (ms_state (get_msg (sy_msgs y) i)) CXL_MSG_READY) as [He|Hne]; cbn [negb].
  - rewrite He in Hst. symmetry in Hst. apply expected_ready in Hst as ((s & p & Hh1) & Hg & _).
    pose proof (da_posted _ _ _ _ _ _ Hd i s p Hh1 Hg) as (Hsrc & Htag & _). rewrite Hsrc, Htag.
    change (matches w (u32 (po_source p)) (u32 (po_tag p))) with (wanted w p).
    destruct (wanted w p) eqn:Hw; apply recv_local; rewrite ?Hpc; try done; cbn.
    + split_and!; try lia; [done..|]. eauto.
    + split_and!; try lia. apply passed_next; [done|]. intros s1 p1 _ H1. congruence.
  - apply recv_local; rewrite ?Hpc; try done; cbn. split_and!; try lia. apply passed_next; [done|].
    intros s p Hg Hh1. exfalso. apply Hne. rewrite Hst. unfold expected. rewrite Hh1. cbn. by rewrite decide_False.
Qed.

(** A step that marks the slot of a position and moves the receiver. *)
Lemma mark_inv lim y i v pc' :
  inv lim y → sy_head y <= sy_tail y + 64 →
  let t := next_tail (sy_tail y) (sy_recv y) in
  t <= i < sy_head y → next_tail (sy_tail y) pc' = t →
  (∀ j, i ≠ j → reading j pc' = reading j (sy_recv y)) → expected (sy_hist y) (got_pos y) pc' i = v →
  recv_ok pc' (sy_head y) (sy_tail y) (sy_hist y) (got_pos y) → inv lim (with_recv pc' (edit (set_state v) i y)).
Proof.
  intros [Hw Hs [Hl Hst Hfr] (top & Hat & Hd) Hrv Ho Hc] Hcalm t Hi Ht Hrd Hv Hok. pose proof (wi_order _ _ _ _ _ Hw) as Hord.
  subst t. split; sys_cbn; rewrite ?Ht; try done.
  - split; [by rewrite put_length| |].
    + intros j Hj. destruct (decide (i = j)) as [<-|Hne]; [by rewrite get_put_eq|]. rewrite get_put_ne by lia. rewrite Hst by lia.
      unfold expected. by rewrite Hrd.
    + intros j Hj. rewrite get_put_ne by lia. apply Hfr. lia.
  - exists top. split; [done|]. by apply data_mark.
Qed.

Lemma cas_inv lim y g w t h i :
  inv lim y → sy_head y <= sy_tail y + 64 → sy_recv y = RCas w t h i → inv lim (recv_step g (RCas w t h i) y).
Proof.
  intros Hinv Hcalm Hpc. pose proof (in_recv _ _ Hinv) as Hr. rewrite Hpc in Hr. cbn in Hr.
  pose proof Hr as (-> & Hi & Hh & Hp & Hg & s & p & Hh1 & Hw).
  pose proof (sl_state _ _ _ _ _ _ (in_slots _ _ Hinv)) as Hst. rewrite Hpc in Hst. cbn in Hst. specialize (Hst i ltac:(lia)).
  unfold expected in Hst. rewrite Hh1 in Hst. cbn in Hst. rewrite decide_False in Hst by done. cbn [recv_step]. unfold state_of. rewrite Hst. cbn [Z.eqb].
  apply mark_inv; rewrite ?Hpc; try done; cbn; [lia| |].
  - intros j Hne. by apply Z.eqb_neq.
  - unfold expected. rewrite Hh1. cbn. by rewrite Z.eqb_refl.
Qed.

(** A message is read as it was sent, up to the size of the buffer. *)
Lemma read_carries g mem top m p mx :
  mapped g → top <= g_size g → carries mem top m p →
  read_msg g mx m mem = Some (take (Z.to_nat (Z.min (data_size p) mx)) (po_buf p)).
Proof.
  intros Hg Ht (_ & _ & Hs & Hd). unfold read_msg. rewrite Hs. change CXL_MSG_MAX_INLINE_SIZE with 256 in Hd.
  set (n := Z.to_nat (Z.min (data_size p) mx)). assert (n ≤ length (po_buf p))%nat as Hn by (unfold n, data_size; lia).
  destruct (Z.leb_spec (data_size p) 256).
  - destruct Hd as [-> Hd]. cbn [Z.eqb negb]. rewrite <- Hd, take_take. by rewrite Nat.min_l.
  - destruct Hd as (-> & Hr0 & Hr1 & Hd). cbn [Z.eqb negb]. rewrite rptr_to_ptr_in by (done || lia).
    rewrite (proj2 (Z.eqb_neq _ _)) by (destruct Hg; lia). f_equal.
    replace (g_base g + ms_data_rptr m - g_base g) with (ms_data_rptr m) by lia. rewrite <- Hd at 1. by rewrite ld_bytes_take.
Qed.

Lemma wanted_same w p q : po_source p = po_source q → po_tag p = po_tag q → wanted w p = wanted w q.
Proof. unfold wanted. by intros -> ->. Qed.

Lemma copy_inv g y w t h i :
  mapped g → inv (g_size g) y → sy_recv y = RCopy w t h i → inv (g_size g) (recv_step g (RCopy w t h i) y).
Proof.
  intros Hg Hinv Hpc. pose proof (in_recv _ _ Hinv) as Hr. rewrite Hpc in Hr. cbn in Hr.
  destruct Hr as (-> & Hi & Hh & Hp & Hgot & s & p & Hh1 & Hw). destruct Hinv as [Hwi Hs [Hl Hst Hfr] (top & Hat & Hd) _ Ho Hc].
  pose proof (da_posted _ _ _ _ _ _ Hd i s p Hh1 Hgot) as Hca. pose proof (ha_top _ _ _ _ Hat) as Htop.
  cbn [recv_step]. rewrite (read_carries g _ top _ p) by (done || lia). destruct Hca as (_ & _ & Hsz & _).
  rewrite Hpc in *. destruct Hwi as [Hord Hcl Hbe Hgo Hon]. split; sys_cbn; rewrite ?Hpc; cbn.
  - split; [done|done| | |].
    + intros j Hj. right. by apply Hbe.
    + intros j [->|Hj]%elem_of_cons; [eauto|by apply Hgo].
    + by constructor.
  - done.
  - split; [done| |done]. intros j Hj. rewrite Hst by done. unfold expected. cbn. destruct (sy_hist y !! j) as [[]|]; try done.
    destruct (Z.eqb_spec j i); [done|]. destruct (decide (j ∈ rc_pos <$> sy_got y)); [rewrite decide_True by set_solver|rewrite decide_False by set_solver]; done.
  - exists top. split; [done|]. destruct Hd as [Hdi Hdp Hdf]. split; [done| |done]. intros j s1 p1 Hj Hn. apply (Hdp j s1 p1); [done|set_solver].
  - split_and!; try lia. set_solver.
  - intros k j s1 p1 p2 Hkj Hk Hj Hso Hta [->|Hj2]%elem_of_cons; [|apply elem_of_cons; right; by eapply (Ho k j)]. right.
    assert (0 <= k) by (apply Hcl; eauto). destruct (Z.lt_ge_cases k (mb_tail (sy_mb y))) as [Hlt|Hge]; [by apply Hbe|].
    apply dec_stable. intros Hn. assert (p2 = p) as -> by congruence.
    by apply (Hp k s1 p1 ltac:(lia) Hn Hk (eq_trans (wanted_same w p1 p Hso Hta) Hw) i _ ltac:(lia) Hj).
  - constructor; [|done]. exists s, p. cbn. by rewrite Hsz.
Qed.

Lemma consumed_inv lim y g t h i :
  inv lim y → sy_head y <= sy_tail y + 64 → sy_recv y = RConsume t h i → inv lim (recv_step g (RConsume t h i) y).
Proof.
  intros Hinv Hcalm Hpc. pose proof (in_recv _ _ Hinv) as Hr. rewrite Hpc in Hr. cbn in Hr. destruct Hr as (-> & Hi & Hh & Hg).
  destruct (wi_got _ _ _ _ _ (in_window _ _ Hinv) i Hg) as (s & p & Hh1). cbn [recv_step].
  assert (∀ pc', (∀ j, reading j pc' = false) → expected (sy_hist y) (got_pos y) pc' i = CXL_MSG_CONSUMED) as He.
  { intros pc' Hn. unfold expected. rewrite Hh1, Hn. by rewrite decide_True. }
  assert (∀ pc' j, (∀ j, reading j pc' = false) → i ≠ j → reading j pc' = (j =? i)) as Hrd.
  { intros pc' j Hn Hne. rewrite Hn. symmetry. by apply Z.eqb_neq. }
  case_match; apply mark_inv; rewrite ?Hpc; try done; cbn; try lia; try (by apply He); intros j Hne; symmetry; by apply Z.eqb_neq.
Qed.

Lemma slot_next t : slot (t + 64) = slot t.
Proof. unfold slot, CXL_MSG_QUEUE_SIZE. f_equal. replace (t + 64) with (t + 1 * 64) by lia. apply Z_mod_plus_full. Qed.

Lemma advance_inv lim y g t h :
  inv lim y → sy_head y <= sy_tail y + 64 → sy_recv y = RAdvance t h → inv lim (recv_step g (RAdvance t h) y).
Proof.
  intros Hinv Hcalm Hpc. pose proof (in_recv _ _ Hinv) as Hr. rewrite Hpc in Hr. cbn in Hr. destruct Hr as [Hth Hh].
  cbn [recv_step]. destruct (Z.ltb_spec t h) as [Hlt|Hge]; cbn [andb]; [|apply recv_local; rewrite ?Hpc; done].
  destruct (Z.eqb_spec (state_of t y) CXL_MSG_CONSUMED) as [He|Hne]; [|apply recv_local; rewrite ?Hpc; done].
  destruct Hinv as [Hw Hs [Hl Hst Hfr] (top & Hat & Hd) _ Ho Hc]. rewrite Hpc in *. cbn in *.
  destruct Hw as [Hord Hcl Hbe Hgo Hon]. unfold state_of in He. rewrite Hst in He by lia. apply expected_consumed in He.
  split; sys_cbn; try done.
  - split; [lia|done| |done|done]. intros j Hj. destruct (decide (j = t)) as [->|]; [done|]. apply Hbe. lia.
  - split; [by rewrite put_length| |].
    + intros j Hj. rewrite get_put_ne by lia. rewrite Hst by lia. done.
    + intros j Hj. destruct (decide (j = t + 64)) as [->|Hne]; [|rewrite get_put_ne by lia; apply Hfr; lia].
      replace (get_msg (put_msg (set_state CXL_MSG_EMPTY) t (mb_messages (sy_mb y))) (t + 64))
        with (get_msg (put_msg (set_state CXL_MSG_EMPTY) t (mb_messages (sy_mb y))) t) by (unfold get_msg; by rewrite slot_next).
      by rewrite get_put_eq.
  - exists top. split; [done|]. by apply data_mark.
  - lia.
Qed.

Lemma store_inv lim y g t : inv lim y → sy_recv y = RStore t → inv lim (recv_step g (RStore t) y).
Proof.
  intros [Hw Hs [Hl Hst Hfr] Hd _ Ho Hc] Hpc. rewrite Hpc in *. cbn in *. destruct Hw as [Hord Hcl Hbe Hgo Hon].
  split; sys_cbn; try done. split; [lia|done..].
Qed.

(** Every step of the receiver keeps the invariant. *)
Lemma recv_step_inv g y :
  mapped g → inv (g_size g) y → sy_head y <= sy_tail y + 64 → inv (g_size g) (recv_step g (sy_recv y) y).
Proof.
  intros Hg Hinv Hc. destruct (sy_recv y) as [|w|w t|w t h i|w t h i|w t h i|t h i|t h|t] eqn:Hpc.
  - done.
  - apply recv_local; rewrite ?Hpc; done.
  - pose proof (in_recv _ _ Hinv) as Hr. rewrite Hpc in Hr. cbn in Hr. subst t. cbn [recv_step].
    destruct (Z.leb_spec (sy_head y) (sy_tail y)); apply recv_local; rewrite ?Hpc; try done. cbn. split_and!; try lia.
    intros k s p Hk. lia.
  - by apply scan_inv.
  - by apply cas_inv.
  - by apply copy_inv.
  - by apply consumed_inv.
  - by apply advance_inv.
  - by apply store_inv.
Qed.

(** ** Runs *)

(** Runs in which every state is calm. *)
Inductive calm_run (gs : nat → cxl_mem_t) (gr : cxl_mem_t) : Sys → list Action → Sys → Prop :=
| calm_nil y : calm_run gs gr y [] y
| calm_step y a y1 l y2 : sys_step gs gr a y = Some y1 → calm y1 → calm_run gs gr y1 l y2 → calm_run gs gr y (a :: l) y2.

Definition send_ok (a : Action) : Prop := match a with StartSend _ p => data_size p < 4611686018427383808 | _ => True end.

(** Processes that map the same region. *)
Record same_region (gs : nat → cxl_mem_t) (gr : cxl_mem_t) : Prop := {
  sr_senders s : mapped (gs s) ∧ g_size (gs s) = g_size gr;
  sr_recv : mapped gr;
  sr_small : g_size gr < 4611686018427387904
}.

Lemma mail_step_inv gs gr a y y' :
  same_region gs gr → inv (g_size gr) y → calm y → send_ok a → sys_step gs gr a y = Some y' → calm y' → inv (g_size gr) y'.
Proof.
  intros [Hgs Hgr Hsm] Hinv Hc Ha Hs Hc'. destruct a as [s p|s|w|]; cbn [sys_step] in Hs.
  - destruct (sy_senders y !! s) as [[]|] eqn:Hpc; try done. simplify_eq/=. unfold start_send. case_match; by eapply send_local.
  - destruct (sy_senders y !! s) as [pc|] eqn:Hpc; [|done]. destruct (Hgs s) as [Hg Hsz]. rewrite <- Hsz in *.
    destruct pc; simplify_eq; by apply send_step_inv.
  - destruct (sy_recv y) eqn:Hpc; try done. simplify_eq. unfold start_recv. case_match; apply recv_local; rewrite ?Hpc; done.
  - assert (y' = recv_step gr (sy_recv y) y) as -> by (destruct (sy_recv y); by simplify_eq).
    apply recv_step_inv; [done..|]. apply Hc.
Qed.

Lemma calm_run_inv gs gr y l y' :
  same_region gs gr → inv (g_size gr) y → calm y → Forall send_ok l → calm_run gs gr y l y' → inv (g_size gr) y'.
Proof.
  intros Hsr Hi Hc Hl Hr. induction Hr as [|y a y1 l y2 Hs Hc1 _ IH]; [done|]. apply Forall_cons in Hl as [? ?]. eauto using mail_step_inv.
Qed.

(** A mailbox as registration leaves it. *)
Definition empty_mailbox (mb : cxl_rank_mailbox_t) : Prop :=
  mb_head mb = 0 ∧ mb_tail mb = 0 ∧ mb_messages mb = replicate 64 zero_msg.

Lemma get_replicate i : get_msg (replicate 64 zero_msg) i = zero_msg.
Proof. unfold get_msg. rewrite lookup_replicate_2 by apply slot_lt. done. Qed.

Lemma start_inv n mb mem offset lim :
  empty_mailbox mb → 0 <= offset <= lim → lim < 4611686018427387904 → inv lim (start_sys n mb mem offset).
Proof.
  intros (Hh & Ht & Hm) Ho Hl. assert (∀ s pc, replicate n SIdle !! s = Some pc → pc = SIdle) as Hidle.
  { intros s pc [-> _]%lookup_replicate. done. }
  assert (omap pc_pending (replicate n SIdle) = []) as Hp by (clear; induction n; cbn; auto).
  split; unfold start_sys; sys_cbn; rewrite ?Hh, ?Ht, ?Hm, ?Hp.
  - split; [lia| |intros i Hi; lia|intros i []%not_elem_of_nil|constructor]. intros i. rewrite lookup_empty. split; [intros [? ?]; done|lia].
  - split; try (intros *; rewrite lookup_empty; done).
    + intros s pc i ->%Hidle. done.
    + intros s pc ->%Hidle. done.
  - split; [done|intros i Hi; lia|]. intros i _. by rewrite get_replicate.
  - exists offset. split; [split; [lia|done|cbn; lia|by left]|]. split.
    + intros i. by rewrite get_replicate.
    + intros i s p. by rewrite lookup_empty.
    + intros s p i Hs%Hidle. done.
  - done.
  - intros i j s p q _. by rewrite lookup_empty.
  - constructor.
Qed.

(** What the mailbox promises: no message is received twice; every receipt is
    of a message that was sent, was asked for, and has the bytes sent, up to
    the size of the buffer; messages of one sender with the same source and
    tag do not overtake each other. *)
Definition faithful (y : Sys) : Prop :=
  NoDup (got_pos y) ∧ Forall (receipt_ok (sy_hist y)) (sy_got y) ∧ order_ok (sy_hist y) (got_pos y).

Lemma inv_faithful lim y : inv lim y → faithful y.
Proof. intros [Hw _ _ _ _ Ho Hc]. split_and!; [apply Hw|done|done]. Qed.

Lemma start_calm n mb mem offset : empty_mailbox mb → calm (start_sys n mb mem offset).
Proof.
  intros (Hh & Ht & _). unfold calm, start_sys. sys_cbn. rewrite Hh, Ht. split_and!; [lia|done|].
  assert (omap pc_pending (replicate n SIdle) = []) as -> by (clear; induction n; cbn; auto). cbn. lia.
Qed.

(** C9. Any number of senders and the receiver, interleaved in any way: as long as
    the ring is not overrun and no two failed allocations overlap, the mailbox
    keeps its promise. *)
Theorem mailbox_faithful gs gr n mb mem offset l y (Hsr : same_region gs gr) (Hmb : empty_mailbox mb)
    (Ho : 0 <= offset <= g_size gr) (Hl : Forall send_ok l) (Hr : calm_run gs gr (start_sys n mb mem offset) l y) :
  faithful y.
Proof.
  eapply inv_faithful, calm_run_inv; [done| |by apply start_calm|done|done]. apply start_inv; [done..|apply Hsr].
Qed.

(** *** One sender *)

(** With one sender, the test for a full queue holds until the claim. *)
Definition room (y : Sys) : Prop :=
  match sy_senders y with
  | [SHead _ t] => 0 <= t <= sy_tail y
  | [SClaim _] => sy_head y < sy_tail y + 64
  | [_] => True
  | _ => False
  end.

Lemma recv_step_shared g pc y :
  sy_senders (recv_step g pc y) = sy_senders y ∧ sy_head (recv_step g pc y) = sy_head y ∧
  sy_tail (recv_step g pc y) = match pc with RStore t => t | _ => sy_tail y end.
Proof.
  destruct pc as [| | |w t h i|w t h i|w t h i| |t h|]; cbn [recv_step]; try (repeat case_match; done); done.
Qed.

Lemma store_grows lim y : inv lim y → sy_tail y <= match sy_recv y with RStore t => t | _ => sy_tail y end.
Proof. intros Hi. pose proof (wi_order _ _ _ _ _ (in_window _ _ Hi)) as Ho. destruct (sy_recv y); cbn in *; lia. Qed.

(** A step of the only sender. *)
Lemma room_send gs s pc y :
  inv (g_size gs) y → sy_head y < UINT64_MAX → sy_head y <= sy_tail y + 64 → room y → sy_senders y = [pc] → s = 0%nat →
  room (send_step gs s pc y) ∧ sy_head (send_step gs s pc y) <= sy_tail (send_step gs s pc y) + 64 ∧
  sy_head y <= sy_head (send_step gs s pc y) <= sy_head y + 1 ∧ (length (pending (send_step gs s pc y)) ≤ 1)%nat.
Proof.
  intros Hinv Hmax Hcalm Hroom Hse ->. pose proof (wi_order _ _ _ _ _ (in_window _ _ Hinv)) as Hord.
  assert (sy_tail y <= sy_head y) as Hth by (destruct (sy_recv y); cbn in Hord; lia).
  unfold room in *. rewrite Hse in Hroom. unfold pending.
  destruct pc as [|p|p t|p|p i r|p i|p i|i size|p i]; cbn [send_step].
  - rewrite Hse. cbn. split_and!; (done || lia).
  - sys_cbn. rewrite Hse. cbn. split_and!; (done || lia).
  - destruct (_ <=? _) eqn:E; sys_cbn; rewrite Hse; cbn; split_and!; try (done || lia).
    btests. rewrite u64_small in E by (unfold UINT64_MAX in *; mlia). change CXL_MSG_QUEUE_SIZE with 64 in E. lia.
  - sys_cbn. rewrite Hse. cbn. rewrite (u64_small (mb_head (sy_mb y) + 1)) by (unfold UINT64_MAX in *; mlia). split_and!; (done || lia).
  - destruct (_ && _); sys_cbn; rewrite Hse; cbn; split_and!; (done || lia).
  - destruct (negb _); sys_cbn; rewrite Hse; cbn; split_and!; (done || lia).
  - destruct (_ <=? _); [|destruct (fits _ _ _)]; sys_cbn; rewrite Hse; cbn; split_and!; (done || lia).
  - sys_cbn. rewrite Hse. cbn. split_and!; (done || lia).
  - sys_cbn. rewrite Hse. cbn. split_and!; (done || lia).
Qed.

Lemma one_sender_step gs gr a y y' :
  same_region gs gr → inv (g_size gr) y → calm y → room y → sy_head y + 1 < UINT64_MAX → sys_step gs gr a y = Some y' →
  calm y' ∧ room y' ∧ sy_head y' <= sy_head y + 1.
Proof.
  intros [Hgs Hgr _] Hinv (Hc1 & Hc2 & Hc3) Hroom Hmax Hs. assert (∃ pc0, sy_senders y = [pc0]) as [pc0 Hse].
  { unfold room in Hroom. destruct (sy_senders y) as [|pc0 [|? ?]]; [done|by eexists|by destruct pc0]. }
  pose proof (wi_order _ _ _ _ _ (in_window _ _ Hinv)) as Hord.
  assert (0 <= sy_tail y) by lia. destruct a as [s p|s|w|]; cbn [sys_step] in Hs.
  - rewrite Hse in Hs. destruct s as [|[|s]]; cbn in Hs; try done. destruct pc0; try done. simplify_eq.
    unfold calm, room, start_send. destruct (_ || _); sys_cbn; rewrite Hse; cbn; split_and!; (done || lia).
  - rewrite Hse in Hs. destruct s as [|[|s]]; cbn in Hs; try done.
    destruct (Hgs 0%nat) as [Hg Hsz]. rewrite <- Hsz in Hinv.
    assert (y' = send_step (gs 0%nat) 0 pc0 y) as -> by (destruct pc0; by simplify_eq).
    destruct (room_send (gs 0%nat) 0 pc0 y) as (H1 & H2 & H3 & H4); [done|done|done|done|done|done|].
    split_and!; [|done|lia]. split_and!; [done|lia|done].
  - destruct (sy_recv y); try done. simplify_eq. split_and!; [done..|unfold sy_head; cbn; lia].
  - assert (y' = recv_step gr (sy_recv y) y) as -> by (destruct (sy_recv y); by simplify_eq).
    destruct (recv_step_shared gr (sy_recv y) y) as (H1 & H2 & H3). pose proof (store_grows _ _ Hinv) as Hg.
    unfold calm, room, pending in *. rewrite H1, H2, H3, Hse in *. split_and!; try done; try lia. destruct pc0; (done || lia).
Qed.

Lemma one_sender_run gs gr l y y' :
  same_region gs gr → inv (g_size gr) y → calm y → room y → Forall send_ok l → sy_head y + Z.of_nat (length l) < UINT64_MAX →
  sys_run gs gr l y = Some y' → calm_run gs gr y l y'.
Proof.
  intros Hsr. revert y. induction l as [|a l IH]; intros y Hinv Hc Hroom Hl Hmax Hr; cbn in *; [simplify_eq; constructor|].
  destruct (sys_step gs gr a y) as [y1|] eqn:Hs; [|done]. cbn in Hr. apply Forall_cons in Hl as [Ha Hl].
  destruct (one_sender_step gs gr a y y1) as (Hc1 & Hroom1 & Hh); [done..|lia|done|].
  eapply calm_step; [done..|]. apply IH; [by eapply mail_step_inv|done..|lia|done].
Qed.

(** C8. One sender and the receiver, interleaved in any way, with long messages
    that may run out of memory: the mailbox keeps its promise in every run of
    fewer than 2^64 - 1 steps. *)
Theorem one_sender_faithful gs gr mb mem offset l y (Hsr : same_region gs gr) (Hmb : empty_mailbox mb)
    (Ho : 0 <= offset <= g_size gr) (Hl : Forall send_ok l) (Hlen : Z.of_nat (length l) < UINT64_MAX)
    (Hr : sys_run gs gr l (start_sys 1 mb mem offset) = Some y) :
  faithful y.
Proof.
  assert (inv (g_size gr) (start_sys 1 mb mem offset)) as Hinv by (apply start_inv; [done..|apply Hsr]).
  pose proof (start_calm 1 mb mem offset Hmb) as Hc. eapply inv_faithful, calm_run_inv; [done|done|done|done|].
  apply one_sender_run; try done. destruct Hmb as (Hh & _). unfold sy_head. cbn. rewrite Hh. lia.
Qed.

(** *** Calls end *)

Definition send_left (pc : SendPc) : Z :=
  match pc with
  | SIdle => 0 | STail _ => 10009 | SHead _ _ => 10008 | SClaim _ => 10007 | SWait _ _ r => Z.max 0 (10000 - r) + 5
  | STest _ _ => 4 | SFill _ _ => 3 | SPublish _ _ => 2 | SGiveBack _ _ => 1
  end.

Definition send_left_of (s : nat) (y : Sys) : Z := default 0 (send_left <$> sy_senders y !! s).

Definition is_step_of (s : nat) (a : Action) : bool := match a with StepSend s' => bool_decide (s = s') | _ => false end.
Definition is_start_of (s : nat) (a : Action) : bool := match a with StartSend s' _ => bool_decide (s = s') | _ => false end.

Lemma send_step_senders g s pc y :
  sy_senders y !! s = Some pc →
  (∀ s', s' ≠ s → sy_senders (send_step g s pc y) !! s' = sy_senders y !! s') ∧
  (pc ≠ SIdle → send_left_of s (send_step g s pc y) < send_left pc).
Proof.
  intros Hpc. pose proof (lookup_lt_Some _ _ _ Hpc) as Hlt. unfold send_left_of.
  assert (∀ pc' y1, sy_senders y1 = sy_senders y →
    (∀ s', s' ≠ s → sy_senders (with_send s pc' y1) !! s' = sy_senders y !! s') ∧
    (send_left pc' < send_left pc → default 0 (send_left <$> sy_senders (with_send s pc' y1) !! s) < send_left pc)) as Hgo.
  { intros pc' y1 He. cbn. rewrite He. split; [intros; by rewrite list_lookup_insert_ne by done|].
    intros. by rewrite list_lookup_insert_eq by done. }
  destruct pc as [|p|p t|p|p i r|p i|p i|i size|p i]; cbn [send_step]; [done|..];
    repeat match goal with |- context [if ?b then _ else _] => destruct b eqn:? end;
    (split; [apply Hgo; done|intros _; apply Hgo; [done|cbn; btests; lia]]).
Qed.

Lemma left_step gs gr a s y y' :
  is_start_of s a = false → sys_step gs gr a y = Some y' →
  send_left_of s y' <= send_left_of s y - (if is_step_of s a then 1 else 0).
Proof.
  intros Ha Hs. destruct a as [s' p|s'|w|]; cbn in *.
  - apply bool_decide_eq_false in Ha. destruct (sy_senders y !! s') as [[]|] eqn:Hpc; try done. simplify_eq.
    unfold send_left_of. cbn. rewrite list_lookup_insert_ne by done. lia.
  - destruct (sy_senders y !! s') as [pc|] eqn:Hpc; [|done]. assert (pc ≠ SIdle) as Hne by (by destruct pc).
    assert (y' = send_step (gs s') s' pc y) as -> by (destruct pc; by simplify_eq).
    destruct (send_step_senders (gs s') s' pc y Hpc) as [H1 H2]. case_bool_decide as He.
    + subst s'. specialize (H2 Hne). unfold send_left_of at 2. rewrite Hpc. cbn. lia.
    + unfold send_left_of. rewrite H1 by done. lia.
  - destruct (sy_recv y); try done. simplify_eq. cbn. unfold send_left_of. cbn. lia.
  - assert (y' = recv_step gr (sy_recv y) y) as -> by (destruct (sy_recv y); by simplify_eq).
    unfold send_left_of. destruct (recv_step_shared gr (sy_recv y) y) as (-> & _). lia.
Qed.

(** A call of [cxl_send] is wait-free: whatever the other processes do, it
    returns after at most 10009 of its own steps. *)
Theorem send_ends gs gr s p l y y1 y2 (Hstart : sys_step gs gr (StartSend s p) y = Some y1)
    (Hn : Forall (λ a, is_start_of s a = false) l) (Hr : sys_run gs gr l y1 = Some y2) :
  Z.of_nat (length (keep (is_step_of s) l)) <= 10009.
Proof.
  assert (∀ l y1, Forall (λ a, is_start_of s a = false) l → sys_run gs gr l y1 = Some y2 →
    Z.of_nat (length (keep (is_step_of s) l)) <= send_left_of s y1 - send_left_of s y2) as Hgen.
  { clear. induction l as [|a l IH]; intros y1 Hn Hr; cbn [sys_run] in *; [simplify_eq; cbn; lia|].
    apply Forall_cons in Hn as [Ha Hn]. destruct (sys_step gs gr a y1) as [y|] eqn:Hs; [|done]. cbn in Hr.
    apply left_step with (s := s) in Hs; [|done]. specialize (IH y Hn Hr). rewrite keep_cons. destruct (is_step_of s a); cbn [length]; lia. }
  specialize (Hgen l y1 Hn Hr). assert (0 <= send_left_of s y2) by (unfold send_left_of; destruct (sy_senders y2 !! s) as [[]|]; cbn; lia).
  cbn in Hstart. destruct (sy_senders y !! s) as [[]|] eqn:Hpc; try done. simplify_eq.
  assert (send_left_of s (with_send s (start_send (gs s) p y) y) <= 10009); [|lia].
  unfold send_left_of. cbn. rewrite list_lookup_insert_eq by by eapply lookup_lt_Some. unfold start_send. case_match; cbn; lia.
Qed.

(** Steps that are left once [head] and [tail] are loaded; with at most 64 positions
    in use, steps that are left in all. *)
Definition scan_left (pc : RecvPc) : Z :=
  match pc with
  | RScan _ t h i => 3 * Z.max 0 (h - i) + Z.max 0 (h - t) + 4
  | RCas _ t h i => 3 * (h - i) + Z.max 0 (h - t) + 3 | RCopy _ t h i => 3 * (h - i) + Z.max 0 (h - t) + 2
  | RConsume t h _ => Z.max 0 (h - t) + 3 | RAdvance t h => Z.max 0 (h - t) + 2 | RStore _ => 1
  | _ => 0
  end.

Definition recv_left (pc : RecvPc) : Z := match pc with RTail _ => 262 | RHead _ _ => 261 | _ => scan_left pc end.

(** The receiver has loaded both and looks at positions before [head]. *)
Definition scanning (pc : RecvPc) : Prop :=
  match pc with RTail _ | RHead _ _ => False | RCas _ _ h i | RCopy _ _ h i => i < h | _ => True end.

Lemma scan_left_step g y :
  scanning (sy_recv y) → sy_recv y ≠ RIdle →
  scanning (sy_recv (recv_step g (sy_recv y) y)) ∧ scan_left (sy_recv (recv_step g (sy_recv y) y)) < scan_left (sy_recv y).
Proof.
  intros Hs Hne. destruct (sy_recv y) as [|w|w t|w t h i|w t h i|w t h i|t h i|t h|t]; cbn [recv_step scanning] in *; try done.
  - destruct (Z.ltb_spec i h); [|cbn; lia]. repeat case_match; cbn; lia.
  - case_match; cbn; lia.
  - case_match; cbn; lia.
  - case_match; cbn; lia.
  - destruct (Z.ltb_spec t h); cbn [andb]; [case_match|]; cbn; lia.
Qed.

Lemma recv_left_step lim g y :
  inv lim y → calm y → sy_recv y ≠ RIdle → recv_left (sy_recv (recv_step g (sy_recv y) y)) < recv_left (sy_recv y).
Proof.
  intros Hinv (Hc & _ & _) Hne. pose proof (in_recv _ _ Hinv) as Hr.
  destruct (sy_recv y) as [|w|w t|w t h i|w t h i|w t h i|t h i|t h|t]; cbn [recv_step recv_ok] in *.
  - done.
  - cbn. lia.
  - subst t. destruct (Z.leb_spec (sy_head y) (sy_tail y)); cbn; lia.
  - destruct (Z.ltb_spec i h); [|cbn; lia]. repeat case_match; cbn; lia.
  - case_match; cbn; lia.
  - case_match; cbn; lia.
  - case_match; cbn; lia.
  - destruct (Z.ltb_spec t h); cbn [andb]; [case_match|]; cbn; lia.
  - cbn. lia.
Qed.

Lemma send_step_recv g s pc y : sy_recv (send_step g s pc y) = sy_recv y.
Proof. destruct pc; cbn [send_step]; repeat case_match; done. Qed.

Definition is_recv_step (a : Action) : bool := match a with StepRecv => true | _ => false end.
Definition is_recv_start (a : Action) : bool := match a with StartRecv _ => true | _ => false end.

(** What the other processes do leaves the receiver and [tail] alone. *)
Lemma other_step gs gr a y y' :
  is_recv_start a = false → is_recv_step a = false → sys_step gs gr a y = Some y' → sy_recv y' = sy_recv y ∧ sy_tail y' = sy_tail y.
Proof.
  intros Ha Hb Hs. destruct a as [s p|s|w|]; [| |done|done]; cbn in Hs.
  - destruct (sy_senders y !! s) as [[]|]; try done. by simplify_eq.
  - destruct (sy_senders y !! s) as [pc|]; [|done]. assert (y' = send_step (gs s) s pc y) as -> by (destruct pc; by simplify_eq).
    split; [apply send_step_recv|]. destruct pc; cbn [send_step]; repeat case_match; done.
Qed.

Lemma recv_steps gs gr y y' : sys_step gs gr StepRecv y = Some y' → sy_recv y ≠ RIdle ∧ y' = recv_step gr (sy_recv y) y.
Proof. cbn. intros Hs. split; [by destruct (sy_recv y)|]. destruct (sy_recv y); by simplify_eq. Qed.

Lemma scan_left_run gs gr l y y' :
  scanning (sy_recv y) → Forall (λ a, is_recv_start a = false) l → sys_run gs gr l y = Some y' →
  Z.of_nat (length (keep is_recv_step l)) <= scan_left (sy_recv y).
Proof.
  revert y. induction l as [|a l IH]; intros y Hsc Hn Hr; cbn [sys_run] in *; [destruct (sy_recv y); cbn in *; lia|].
  apply Forall_cons in Hn as [Ha Hn]. destruct (sys_step gs gr a y) as [y1|] eqn:Hs; [|done]. cbn [mbind option_bind] in Hr. rewrite keep_cons.
  destruct (is_recv_step a) eqn:Eb.
  - assert (a = StepRecv) as -> by (by destruct a). apply recv_steps in Hs as [Hne ->].
    destruct (scan_left_step gr y Hsc Hne) as [Hsc1 Hlt]. specialize (IH _ Hsc1 Hn Hr). cbn [length]. lia.
  - destruct (other_step gs gr a y y1 Ha Eb Hs) as [He _]. rewrite <- He in *. by apply (IH y1).
Qed.

(** The next step of the receiver in a run. *)
Lemma split_recv gs gr l y y' :
  Forall (λ a, is_recv_start a = false) l → sys_run gs gr l y = Some y' → keep is_recv_step l ≠ [] →
  ∃ la lb ya, l = la ++ StepRecv :: lb ∧ keep is_recv_step la = [] ∧ sys_run gs gr la y = Some ya ∧
    sy_recv ya = sy_recv y ∧ sy_tail ya = sy_tail y ∧ sy_recv y ≠ RIdle ∧ sys_run gs gr lb (recv_step gr (sy_recv ya) ya) = Some y'.
Proof.
  revert y. induction l as [|a l IH]; intros y Hn Hr Hk; cbn [sys_run] in *; [done|].
  apply Forall_cons in Hn as [Ha Hn]. destruct (sys_step gs gr a y) as [y1|] eqn:Hs; [|done]. cbn [mbind option_bind] in Hr. rewrite keep_cons in Hk.
  destruct (is_recv_step a) eqn:Eb.
  - assert (a = StepRecv) as -> by (by destruct a). apply recv_steps in Hs as [Hne ->]. by exists [], l, y.
  - destruct (other_step gs gr a y y1 Ha Eb Hs) as [He Ht]. destruct (IH y1 Hn Hr Hk) as (la & lb & ya & -> & Hla & Hra & H1 & H2 & H3 & H4).
    exists (a :: la), lb, ya. rewrite keep_cons, Eb. cbn [sys_run]. rewrite Hs. cbn [mbind option_bind]. rewrite H1, H2, <- He, <- Ht in *. by split_and!.
Qed.

Lemma run_app gs gr l1 l2 y : sys_run gs gr (l1 ++ l2) y = (y1 ← sys_run gs gr l1 y; sys_run gs gr l2 y1).
Proof. revert y. induction l1 as [|a l1 IH]; intros y; cbn; [done|]. destruct (sys_step gs gr a y); cbn; [apply IH|done]. Qed.

(** C29. A call of [cxl_recv] is wait-free, in every state of the mailbox and whatever the
    senders do, also when they overrun the ring: it takes at most one step of its
    own, or it loads [head] with its second step, and returns after at most
    4 k + 6 steps of its own, where k is the number of positions between [tail] and
    [head] at that load.  A ring that is not overrun has at most 64 of them, which
    gives 262 steps. *)
Theorem recv_ends gs gr w l y y1 y2 (Hstart : sys_step gs gr (StartRecv w) y = Some y1)
    (Hn : Forall (λ a, is_recv_start a = false) l) (Hr : sys_run gs gr l y1 = Some y2) :
  (length (keep is_recv_step l) ≤ 1)%nat ∨
  ∃ l1 l2 y', l = l1 ++ StepRecv :: l2 ∧ sys_run gs gr l1 y1 = Some y' ∧ length (keep is_recv_step l1) = 1%nat ∧
    Z.of_nat (length (keep is_recv_step l)) <= 4 * Z.max 0 (sy_head y' - sy_tail y') + 6.
Proof.
  destruct (decide (keep is_recv_step l = [])) as [->|Hk]; [left; cbn; lia|].
  destruct (split_recv gs gr l y1 y2 Hn Hr Hk) as (la & lb & ya & -> & Hla & Hra & Hre & _ & Hne & Hrb). apply Forall_app in Hn as [Hna Hnb].
  apply Forall_cons in Hnb as [_ Hnb]. rewrite keep_app, keep_cons, Hla in *. cbn [is_recv_step app length] in *.
  assert (sy_recv y1 = RTail w) as Hy1.
  { cbn in Hstart. destruct (sy_recv y); try done. simplify_eq. cbn in *. unfold start_recv in *. by destruct (_ || _). }
  rewrite Hre, Hy1 in Hrb. cbn [recv_step] in Hrb. set (yb := with_recv _ ya) in Hrb.
  destruct (decide (keep is_recv_step lb = [])) as [->|Hkb]; [left; cbn; lia|]. right.
  destruct (split_recv gs gr lb yb y2 Hnb Hrb Hkb) as (lc & ld & yc & -> & Hlc & Hrc & Hrec & Htc & _ & Hrd). apply Forall_app in Hnb as [Hnc Hnd].
  apply Forall_cons in Hnd as [_ Hnd]. exists (la ++ StepRecv :: lc), ld, yc. split; [by rewrite <- app_assoc|].
  rewrite run_app, Hra. cbn [mbind option_bind sys_run]. rewrite keep_app, keep_cons, Hla, Hlc, keep_app, keep_cons, Hlc. cbn [is_recv_step app length].
  assert (sys_step gs gr StepRecv ya = Some yb) as -> by (cbn; by rewrite Hre, Hy1). cbn [mbind option_bind]. split; [done|]. split; [done|].
  change (sy_recv yb) with (RHead w (sy_tail ya)) in Hrec. change (sy_tail yb) with (sy_tail ya) in Htc. rewrite Hrec in Hrd. cbn [recv_step] in Hrd.
  apply scan_left_run in Hrd; [|destruct (_ <=? _); done|done]. rewrite Htc. destruct (Z.leb_spec (sy_head yc) (sy_tail ya)); cbn in Hrd; lia.
Qed.

(** *** Positions that are given up *)

(** What is settled stays. *)
Lemma settled_step gs gr a y y' i h :
  inv (g_size gr) y → sys_step gs gr a y = Some y' → sy_hist y !! i = Some h → (∀ s, h ≠ HClaimed s) → sy_hist y' !! i = Some h.
Proof.
  intros Hinv Hs Hi Hn. destruct a as [s p|s|w|]; cbn [sys_step] in Hs.
  - destruct (sy_senders y !! s) as [[]|]; try done. by simplify_eq.
  - destruct (sy_senders y !! s) as [pc|] eqn:Hpc; [|done]. assert (y' = send_step (gs s) s pc y) as -> by (destruct pc; by simplify_eq).
    pose proof (se_holds _ _ (in_senders _ _ Hinv) s pc) as Hh.
    assert (sy_hist y !! sy_head y = None) as Hnew.
    { apply eq_None_not_Some. intros H%(wi_claimed _ _ _ _ _ (in_window _ _ Hinv)). lia. }
    assert (∀ j h', pc_pos pc = Some j → <[j := h']> (sy_hist y) !! i = Some h) as Hother.
    { intros j h' Hj. specialize (Hh j Hpc Hj). rewrite lookup_insert_ne; [done|]. intros ->. apply (Hn s). congruence. }
    destruct pc; cbn [send_step]; repeat (match goal with |- context [if ?b then _ else _] => destruct b end); cbn; try done; try (by apply Hother).
    rewrite lookup_insert_ne; [done|]. congruence.
  - destruct (sy_recv y); try done. by simplify_eq.
  - assert (y' = recv_step gr (sy_recv y) y) as -> by (destruct (sy_recv y); by simplify_eq).
    destruct (sy_recv y); cbn [recv_step]; repeat case_match; done.
Qed.

(** A position that a sender claimed and gave up, for want of memory, blocks
    the mailbox for good: the tail never passes it, so that at most 63 more
    positions can be claimed, ever. *)
Theorem abandoned_blocks gs gr l y y' i s (Hsr : same_region gs gr) (Hinv : inv (g_size gr) y) (Hc : calm y)
    (Hi : sy_hist y !! i = Some (HAbandoned s)) (Hl : Forall send_ok l) (Hr : calm_run gs gr y l y') :
  sy_tail y' <= i ∧ sy_head y' <= i + 64.
Proof.
  assert (sy_tail y' <= i ∧ calm y') as [? [? _]]; [|lia].
  induction Hr as [y|y a y1 l y2 Hs Hc1 _ IH].
  - split; [|done]. destruct (in_window _ _ Hinv) as [Hord _ Hbe Hgo _]. apply Z.nlt_ge. intros Hlt.
    destruct (Z.lt_ge_cases i 0) as [Hneg|Hpos].
    + assert (0 <= i < sy_head y) by (apply (wi_claimed _ _ _ _ _ (in_window _ _ Hinv)); eauto). lia.
    + destruct (Hgo i) as (s1 & p1 & H1); [apply Hbe; lia|congruence].
  - apply Forall_cons in Hl as [? ?]. apply IH; [by eapply mail_step_inv|done| |done]. by eapply settled_step.
Qed.

(** ** Calls without interference *)

(** [cxl_recv] and [cxl_send] run to their end. *)
Fixpoint finish_recv (fuel : nat) (g : cxl_mem_t) (y : Sys) : Sys :=
  match fuel with
  | O => y
  | S fuel' => match sy_recv y with RIdle => y | pc => finish_recv fuel' g (recv_step g pc y) end
  end.
Definition cxl_recv (g : cxl_mem_t) (w : Want) (y : Sys) : Sys := finish_recv 263 g (with_recv (start_recv g w) y).

Fixpoint finish_send (fuel : nat) (g : cxl_mem_t) (s : nat) (y : Sys) : Sys :=
  match fuel with
  | O => y
  | S fuel' => match sy_senders y !! s with Some SIdle | None => y | Some pc => finish_send fuel' g s (send_step g s pc y) end
  end.
Definition cxl_send (g : cxl_mem_t) (s : nat) (p : Post) (y : Sys) : Sys :=
  finish_send (7 + Z.to_nat 10003) g s (with_send s (start_send g p y) y).

(** No message before position [i] waits for this call. *)
Definition none_before (w : Want) (i : Z) (y : Sys) : Prop :=
  ∀ k s p, k < i → sy_hist y !! k = Some (HPosted s p) → k ∉ got_pos y → wanted w p = false.

(** The call has received the first message that waits for it. *)
Definition took_first (w : Want) (y0 y : Sys) : Prop :=
  ∃ r s p, sy_got y = r :: sy_got y0 ∧ sy_hist y0 !! rc_pos r = Some (HPosted s p) ∧ rc_pos r ∉ got_pos y0 ∧
           wanted w p = true ∧ none_before w (rc_pos r) y0 ∧ rc_want r = w ∧ rc_size r = data_size p ∧
           rc_buf r = take (Z.to_nat (Z.min (data_size p) (wa_max w))) (po_buf p).

Definition took_none (w : Want) (y0 y : Sys) : Prop := sy_got y = sy_got y0 ∧ ∀ i, none_before w i y0.

Definition stage (w : Want) (y0 y : Sys) : Prop :=
  sy_hist y = sy_hist y0 ∧
  match sy_recv y with
  | RTail w' | RHead w' _ => w' = w ∧ sy_got y = sy_got y0
  | RScan w' _ h i | RCas w' _ h i | RCopy w' _ h i => w' = w ∧ h = sy_head y ∧ sy_got y = sy_got y0 ∧ none_before w i y0
  | RConsume _ _ _ | RAdvance _ _ | RStore _ => took_first w y0 y
  | RIdle => took_first w y0 y ∨ took_none w y0 y
  end.

Lemma none_before_tail lim w y : inv lim y → none_before w (sy_tail y) y.
Proof.
  intros Hinv k s p Hk Hh Hg. destruct (in_window _ _ Hinv) as [Hord Hcl Hbe _ _]. exfalso. apply Hg, Hbe.
  assert (0 <= k < sy_head y) by (apply Hcl; eauto). lia.
Qed.

Lemma none_before_all lim w y i : inv lim y → sy_head y <= i → none_before w i y → ∀ j, none_before w j y.
Proof.
  intros Hinv Hi Hn j k s p Hk Hh Hg. apply (Hn k s p); [|done..].
  assert (0 <= k < sy_head y) by (apply (wi_claimed _ _ _ _ _ (in_window _ _ Hinv)); eauto). lia.
Qed.

Lemma none_before_next w i y :
  none_before w i y → (∀ s p, sy_hist y !! i = Some (HPosted s p) → i ∉ got_pos y → wanted w p = false) → none_before w (i + 1) y.
Proof. intros Hn Hi k s p Hk Hh Hg. destruct (decide (k = i)) as [->|]; [by eapply Hi|]. apply (Hn k s p); [lia|done..]. Qed.

Lemma none_before_same w i y y0 : sy_hist y = sy_hist y0 → sy_got y = sy_got y0 → none_before w i y ↔ none_before w i y0.
Proof. intros H1 H2. unfold none_before, got_pos. by rewrite H1, H2. Qed.

(** A position at which the scan looks: it is ready exactly when it holds a
    message that was not received. *)
Lemma scan_ready lim y w t h i :
  inv lim y → sy_recv y = RScan w t h i → i < h →
  if ms_state (get_msg (sy_msgs y) i) =? CXL_MSG_READY then
    ∃ s p, sy_hist y !! i = Some (HPosted s p) ∧ i ∉ got_pos y ∧
           matches w (ms_source_rank (get_msg (sy_msgs y) i)) (ms_tag (get_msg (sy_msgs y) i)) = wanted w p
  else ∀ s p, sy_hist y !! i = Some (HPosted s p) → i ∈ got_pos y.
Proof.
  intros Hinv Hpc Hlt. pose proof (in_recv _ _ Hinv) as Hr. rewrite Hpc in Hr. cbn in Hr. destruct Hr as (-> & Hi & Hh & _).
  pose proof (sl_state _ _ _ _ _ _ (in_slots _ _ Hinv)) as Hst. rewrite Hpc in Hst. cbn in Hst. specialize (Hst i ltac:(lia)).
  destruct (in_data _ _ Hinv) as (top & _ & Hd). destruct (Z.eqb_spec (ms_state (get_msg (sy_msgs y) i)) CXL_MSG_READY) as [He|Hne].
  - rewrite He in Hst. symmetry in Hst. apply expected_ready in Hst as ((s & p & Hh1) & Hg & _).
    exists s, p. split_and!; [done..|]. destruct (da_posted _ _ _ _ _ _ Hd i s p Hh1 Hg) as (-> & -> & _). done.
  - intros s p Hh1. apply dec_stable. intros Hg. apply Hne. rewrite Hst. unfold expected. rewrite Hh1. cbn. by rewrite decide_False.
Qed.

Lemma stage_step g w y0 y :
  mapped g → inv (g_size g) y0 → inv (g_size g) y → sy_head y = sy_head y0 → sy_recv y ≠ RIdle →
  stage w y0 y → stage w y0 (recv_step g (sy_recv y) y).
Proof.
  intros Hg Hinv0 Hinv Hhd Hne [Hhist Hst]. pose proof (in_recv _ _ Hinv) as Hr.
  destruct (sy_recv y) as [|w'|w' t|w' t h i|w' t h i|w' t h i|t h i|t h|t] eqn:Hpc; cbn [recv_step recv_ok] in *; [done|..].
  - by split.
  - destruct Hst as [-> Hgot]. subst t. pose proof (none_before_tail _ w y Hinv) as Hn.
    destruct (Z.leb_spec (sy_head y) (sy_tail y)); split; try done; cbn.
    + right. split; [done|]. intros i. apply (none_before_same w i y y0 Hhist Hgot). by eapply none_before_all.
    + split_and!; try done. by apply (none_before_same w _ y y0).
  - destruct Hst as (-> & -> & Hgot & Hn). destruct (Z.ltb_spec i (sy_head y)) as [Hlt|Hge].
    + pose proof (scan_ready _ y w t (sy_head y) i Hinv Hpc Hlt) as Hsr. unfold got_pos in Hsr. rewrite Hhist, Hgot in Hsr.
      destruct (ms_state _ =? CXL_MSG_READY); cbn [negb].
      * destruct Hsr as (s & p & H1 & H2 & ->). destruct (wanted w p) eqn:Hw; split; try done; cbn; split_and!; try done.
        apply none_before_next; [done|]. intros s1 p1 H3 _. congruence.
      * split; [done|]. cbn. split_and!; try done. apply none_before_next; [done|]. intros s1 p1 H3%Hsr ?. done.
    + split; [done|]. cbn. right. split; [done|]. intros j. rewrite Hhd in Hge. by eapply none_before_all.
  - destruct Hst as (-> & -> & Hgot & Hn). destruct Hr as (-> & Hi & _ & _ & Hgi & s & p & Hh1 & Hw).
    pose proof (sl_state _ _ _ _ _ _ (in_slots _ _ Hinv)) as Hsl. rewrite Hpc in Hsl. cbn in Hsl. specialize (Hsl i ltac:(lia)).
    unfold expected in Hsl. rewrite Hh1 in Hsl. cbn in Hsl. rewrite decide_False in Hsl by done. unfold state_of. rewrite Hsl. cbn [Z.eqb].
    split; [done|]. cbn. by split_and!.
  - destruct Hst as (-> & -> & Hgot & Hn). destruct Hr as (-> & Hi & _ & _ & Hgi & s & p & Hh1 & Hw).
    destruct (in_data _ _ Hinv) as (top & Hat & Hd). pose proof (da_posted _ _ _ _ _ _ Hd i s p Hh1 Hgi) as Hca.
    pose proof (ha_top _ _ _ _ Hat). rewrite (read_carries g _ top _ p) by (done || lia). split; [done|]. cbn.
    destruct Hca as (_ & _ & Hsz & _). unfold got_pos in *. rewrite Hhist, Hgot in *.
    eexists _, s, p. split; [cbn; by rewrite Hgot|]. cbn. split_and!; done.
  - destruct (i =? t); (split; [done|]); [exact Hst|left; exact Hst].
  - case_match; split; done.
  - split; [done|]. left. exact Hst.
Qed.

Lemma stage_finish g w y0 fuel y :
  mapped g → g_size g < 4611686018427387904 → inv (g_size g) y0 → inv (g_size g) y → calm y → sy_head y = sy_head y0 →
  stage w y0 y → recv_left (sy_recv y) < Z.of_nat fuel →
  let y' := finish_recv fuel g y in
  sy_recv y' = RIdle ∧ inv (g_size g) y' ∧ calm y' ∧ stage w y0 y'.
Proof.
  intros Hg Hsm Hinv0. revert y. induction fuel as [|fuel IH]; intros y Hinv Hc Hhd Hst Hf.
  { pose proof (in_recv _ _ Hinv) as Hr. destruct (sy_recv y); cbn in *; lia. }
  cbn [finish_recv]. assert (sy_recv y = RIdle ∨ sy_recv y ≠ RIdle) as [He|Hne] by (destruct (sy_recv y); auto).
  { rewrite He. by split_and!. }
  assert (finish_recv (S fuel) g y = finish_recv fuel g (recv_step g (sy_recv y) y)) as Heq by (cbn; by destruct (sy_recv y)).
  cbn [finish_recv] in Heq. rewrite Heq. destruct (recv_step_shared g (sy_recv y) y) as (Hs1 & Hs2 & Hs3).
  pose proof (store_grows _ _ Hinv). pose proof (recv_left_step _ g y Hinv Hc Hne).
  apply IH; [apply recv_step_inv; [done..|apply Hc]| |lia|by apply stage_step|lia].
  destruct Hc as (H1 & H2 & H3). unfold calm, pending in *. rewrite Hs1, Hs2, Hs3. split_and!; (done || lia).
Qed.

(** A call of [cxl_recv] that no sender interferes with receives the first of
    the messages in the mailbox that it asks for, and nothing exactly when
    there is none. *)
Theorem recv_first g w y (Hg : mapped g) (Hsm : g_size g < 4611686018427387904) (Hinv : inv (g_size g) y) (Hc : calm y)
    (Hen : g_cxl_comm_enabled g = true) (Hrank : 0 <= g_my_rank g) (Hidle : sy_recv y = RIdle) :
  let y' := cxl_recv g w y in
  sy_recv y' = RIdle ∧ sy_hist y' = sy_hist y ∧ (took_first w y y' ∨ took_none w y y').
Proof.
  assert (start_recv g w = RTail w) as Hs by (unfold start_recv; rewrite Hen, (proj2 (Z.ltb_ge _ _)) by lia; done).
  unfold cxl_recv. rewrite Hs. destruct (stage_finish g w y 263 (with_recv (RTail w) y)) as (H1 & _ & _ & H4 & H5); try done.
  - apply recv_local; rewrite ?Hidle; done.
  - cbn zeta. rewrite H1 in H5. by split_and!.
Qed.

(** What the steps of a sender leave alone. *)
Lemma send_step_keeps g s pc y :
  let y' := send_step g s pc y in
  sy_tail y' = sy_tail y ∧ sy_got y' = sy_got y ∧
  sy_head y' = match pc with SClaim _ => sy_head y +w 1 | _ => sy_head y end ∧
  sy_offset y' = match pc with
                 | SFill p _ => if data_size p <=? CXL_MSG_MAX_INLINE_SIZE then sy_offset y else fetch_add_offset (round_up (data_size p)) (sy_offset y)
                 | SGiveBack _ size => fetch_sub_offset size (sy_offset y)
                 | _ => sy_offset y
                 end.
Proof. destruct pc; cbn [send_step]; repeat case_match; done. Qed.

(** The next place of a sender that is not disturbed, with room and memory. *)
Definition send_next (y : Sys) (pc : SendPc) : SendPc :=
  match pc with
  | STail p => SHead p (sy_tail y)
  | SHead p _ => SClaim p
  | SClaim p => SWait p (sy_head y) 0
  | SWait p i _ => STest p i
  | STest p i => SFill p i
  | SFill p i => SPublish p i
  | _ => SIdle
  end.

Definition undisturbed (g : cxl_mem_t) (y : Sys) (pc : SendPc) : Prop :=
  match pc with
  | SHead _ t => t = sy_tail y ∧ sy_head y < sy_tail y + 64
  | SClaim _ => sy_head y < sy_tail y + 64 ∧ sy_head y + 1 < UINT64_MAX
  | SFill p _ => data_size p <= 256 ∨ fits (g_size g) (sy_offset y) (round_up (data_size p)) = true
  | SGiveBack _ _ => False
  | _ => True
  end.

Lemma send_alone g s pc y :
  mapped g → g_size g < 4611686018427387904 → inv (g_size g) y → calm y → sy_senders y !! s = Some pc → undisturbed g y pc →
  let y' := send_step g s pc y in
  inv (g_size g) y' ∧ calm y' ∧ sy_senders y' !! s = Some (send_next y pc).
Proof.
  intros Hg Hsm Hinv Hc Hpc Hu y'. pose proof (wi_order _ _ _ _ _ (in_window _ _ Hinv)) as Hord.
  assert (sy_senders y' = <[s := send_next y pc]> (sy_senders y)) as Hse.
  { subst y'. destruct pc as [|p|p t|p|p i r|p i|p i|i size|p i]; cbn [send_step undisturbed send_next] in *; try done.
    - by rewrite list_insert_id.
    - destruct Hu as [-> Hu]. destruct Hc as (_ & Hmx & _). rewrite u64_small by (unfold UINT64_MAX in *; destruct (sy_recv y); cbn in *; mlia).
      change CXL_MSG_QUEUE_SIZE with 64. rewrite (proj2 (Z.leb_gt _ _)) by lia. done.
    - destruct (held_pos _ y s _ i Hinv Hpc eq_refl) as (_ & _ & _ & ->). done.
    - destruct (held_pos _ y s _ i Hinv Hpc eq_refl) as (_ & _ & _ & ->). done.
    - change CXL_MSG_MAX_INLINE_SIZE with 256. destruct (Z.leb_spec (data_size p) 256); [done|]. destruct Hu as [?|Hf]; [lia|].
      change (sy_offset (edit (fill_meta p) i y)) with (sy_offset y). rewrite Hf. done. }
  destruct (send_step_keeps g s pc y) as (Ht & _ & Hh & _). fold y' in Ht, Hh.
  assert (calm y') as Hc'.
  { destruct Hc as (H1 & H2 & H3). unfold calm, pending in *. rewrite Ht, Hh, Hse.
    rewrite (pending_same _ _ _ (send_next y pc) Hpc) by (by destruct pc).
    destruct pc; try done. cbn in Hu. rewrite u64_small by (unfold UINT64_MAX in *; destruct (sy_recv y); cbn in *; mlia). split_and!; (done || lia). }
  split_and!; [by apply send_step_inv|done|]. rewrite Hse. apply list_lookup_insert_eq. by eapply lookup_lt_Some.
Qed.

(** *** A whole call of [cxl_send] *)

Definition has_memory (g : cxl_mem_t) (p : Post) (y : Sys) : Prop :=
  data_size p <= 256 ∨ fits (g_size g) (sy_offset y) (round_up (data_size p)) = true.
Definition has_room (y : Sys) : Prop := sy_head y < sy_tail y + 64 ∧ sy_head y + 1 < UINT64_MAX.

(** A sender on its way to post [p], with [k] steps to go. *)
Definition on_way (g : cxl_mem_t) (p : Post) (y : Sys) (k : nat) (pc : SendPc) : Prop :=
  match pc with
  | STail q => k = 7%nat ∧ q = p ∧ has_memory g p y ∧ has_room y
  | SHead q t => k = 6%nat ∧ q = p ∧ has_memory g p y ∧ has_room y ∧ t = sy_tail y
  | SClaim q => k = 5%nat ∧ q = p ∧ has_memory g p y ∧ has_room y
  | SWait q _ _ => k = 4%nat ∧ q = p ∧ has_memory g p y
  | STest q _ => k = 3%nat ∧ q = p ∧ has_memory g p y
  | SFill q _ => k = 2%nat ∧ q = p ∧ has_memory g p y
  | SPublish q _ => k = 1%nat ∧ q = p
  | _ => False
  end.

Record posted (lim : Z) (s : nat) (p : Post) (i : Z) (y y' : Sys) : Prop := {
  pd_inv : inv lim y';
  pd_calm : calm y';
  pd_idle : sy_senders y' !! s = Some SIdle;
  pd_recv : sy_recv y' = sy_recv y;
  pd_got : sy_got y' = sy_got y;
  pd_hist : sy_hist y' = <[i := HPosted s p]> (sy_hist y)
}.

Lemma on_way_step g s p y k pc :
  mapped g → g_size g < 4611686018427387904 → inv (g_size g) y → calm y → sy_senders y !! s = Some pc → on_way g p y (S k) pc → is_publish pc = false →
  let y' := send_step g s pc y in
  inv (g_size g) y' ∧ calm y' ∧ sy_senders y' !! s = Some (send_next y pc) ∧ on_way g p y' k (send_next y pc) ∧
  default (sy_head y') (pc_pos (send_next y pc)) = default (sy_head y) (pc_pos pc) ∧
  ∀ h, <[default (sy_head y) (pc_pos pc) := h]> (sy_hist y') = <[default (sy_head y) (pc_pos pc) := h]> (sy_hist y).
Proof.
  intros Hg Hsm Hinv Hc Hpc Hw Hnp y'.
  assert (undisturbed g y pc) as Hu by (destruct pc; cbn in *; unfold has_room, has_memory in *; naive_solver).
  destruct (send_alone g s pc y Hg Hsm Hinv Hc Hpc Hu) as (Hi & Hc' & Hse). fold y' in Hi, Hc', Hse.
  destruct (send_step_keeps g s pc y) as (Ht & Hgo & Hh & Ho). fold y' in Ht, Hh, Ho. split_and!; [done..| | |].
  - destruct pc; cbn in *; unfold has_memory, has_room in *; rewrite ?Ht, ?Hh, ?Ho in *; naive_solver lia.
  - destruct pc; cbn in *; rewrite ?Hh; try done; naive_solver.
  - intros h. subst y'. destruct pc as [|q|q t|q|q i r|q i|q i|i size|q i]; cbn [send_step pc_pos default] in *; try done.
    + cbn. apply insert_insert_eq.
    + destruct (held_pos _ y s _ i Hinv Hpc eq_refl) as (_ & _ & _ & ->). done.
    + by repeat case_match.
Qed.

Lemma finish_posts g s p k fuel y pc :
  mapped g → g_size g < 4611686018427387904 → inv (g_size g) y → calm y → sy_senders y !! s = Some pc → on_way g p y k pc →
  posted (g_size g) s p (default (sy_head y) (pc_pos pc)) y (finish_send (k + fuel) g s y).
Proof.
  intros Hg Hsm. revert y pc. induction k as [|k IH]; intros y pc Hinv Hc Hpc Hw; [by destruct pc; cbn in Hw; naive_solver|].
  assert (finish_send (S k + fuel) g s y = finish_send (k + fuel) g s (send_step g s pc y)) as -> by (cbn; rewrite Hpc; by destruct pc).
  destruct (is_publish pc) eqn:Hp.
  - destruct pc as [| | | | | | | |q i]; try done. cbn in Hw. destruct Hw as [[= ->] ->].
    destruct (send_alone g s _ y Hg Hsm Hinv Hc Hpc I) as (Hi & Hc' & Hse).
    assert (finish_send (0 + fuel) g s (send_step g s (SPublish p i) y) = send_step g s (SPublish p i) y) as ->.
    { destruct fuel; [done|]. cbn [plus finish_send]. by rewrite Hse. }
    split; done.
  - destruct (on_way_step g s p y k pc) as (Hi & Hc' & Hse & Hw' & Hd & Hh); [done..|].
    destruct (IH _ _ Hi Hc' Hse Hw') as [H1 H2 H3 H4 H5 H6]. rewrite Hd in H6. split; [done..| | |].
    + by rewrite H4, send_step_recv.
    + rewrite H5. apply (send_step_keeps g s pc y).
    + by rewrite H6, Hh.
Qed.

(** A call of [cxl_send] that is not disturbed, with room in the ring and
    memory for a long message, appends its message. *)
Lemma send_posts g s p y :
  mapped g → g_size g < 4611686018427387904 → inv (g_size g) y → calm y → sy_senders y !! s = Some SIdle →
  g_cxl_comm_enabled g = true → mb_active (sy_mb y) ≠ 0 → data_size p < 4611686018427383808 → has_room y → has_memory g p y →
  posted (g_size g) s p (sy_head y) y (cxl_send g s p y).
Proof.
  intros Hg Hsm Hinv Hc Hpc Hen Hac Hsz Hroom Hmem. unfold cxl_send.
  assert (start_send g p y = STail p) as -> by (unfold start_send; rewrite Hen, (proj2 (Z.eqb_neq _ _)) by done; done).
  set (y1 := with_send s (STail p) y).
  assert (sy_senders y1 !! s = Some (STail p)) as Hp1 by (apply list_lookup_insert_eq; by eapply lookup_lt_Some).
  assert (calm y1) as Hc1.
  { destruct Hc as (H1 & H2 & H3). split_and!; [done..|]. unfold pending in *. cbn. by rewrite (pending_same _ _ _ _ Hpc). }
  destruct (finish_posts g s p 7 (Z.to_nat 10003) y1 (STail p)) as [H1 H2 H3 H4 H5 H6]; [done|done|by eapply send_local|done|done|done|].
  by split.
Qed.

(** C28. Round trip: a message that is sent without interference and asked for by
    the next receive, when no earlier message matches, arrives with its bytes
    and its size, inline or through the heap. *)
Theorem send_recv_roundtrip g gr s p w y (Hg : mapped g) (Hgr : mapped gr) (Hsz : g_size g = g_size gr) (Hsm : g_size gr < 4611686018427387904)
    (Hinv : inv (g_size gr) y) (Hc : calm y) (Hpc : sy_senders y !! s = Some SIdle) (Hidle : sy_recv y = RIdle)
    (Hen : g_cxl_comm_enabled g = true) (Henr : g_cxl_comm_enabled gr = true) (Hrank : 0 <= g_my_rank gr) (Hac : mb_active (sy_mb y) ≠ 0)
    (Hd : data_size p < 4611686018427383808) (Hroom : has_room y) (Hmem : has_memory g p y)
    (Hw : wanted w p = true) (Hfirst : ∀ i, none_before w i y) :
  ∃ r, sy_got (cxl_recv gr w (cxl_send g s p y)) = r :: sy_got y ∧
       rc_size r = data_size p ∧ rc_buf r = take (Z.to_nat (wa_max w)) (po_buf p).
Proof.
  destruct (send_posts g s p y) as [H1 H2 H3 H4 H5 H6]; rewrite ?Hsz; try done.
  generalize dependent (cxl_send g s p y). intros y1 H1 H2 H3 H4 H5 H6. rewrite Hsz in H1.
  destruct (recv_first gr w y1) as (_ & _ & Ht); [done..|by rewrite H4|].
  assert (sy_hist y1 !! sy_head y = Some (HPosted s p)) as Hh by (by rewrite H6, lookup_insert_eq).
  assert (sy_head y ∉ got_pos y) as Hng.
  { intros (s1 & p1 & H)%(wi_got _ _ _ _ _ (in_window _ _ Hinv)).
    assert (0 <= sy_head y < sy_head y) by (apply (wi_claimed _ _ _ _ _ (in_window _ _ Hinv)); eauto). lia. }
  destruct Ht as [(r & s1 & p1 & Hg1 & Hr1 & Hr2 & Hr3 & Hr4 & Hr5 & Hr6 & Hr7)|[_ Hn]].
  - assert (rc_pos r = sy_head y) as He.
    { apply dec_stable. intros Hne. unfold got_pos in Hr2. rewrite H5 in Hr2. rewrite H6 in Hr1. rewrite lookup_insert_ne in Hr1 by done.
      rewrite (Hfirst (rc_pos r + 1) (rc_pos r) s1 p1) in Hr3; [done|lia|done|done]. }
    rewrite He, Hh in Hr1. injection Hr1 as <- <-. exists r. rewrite Hg1, H5. split_and!; [done..|]. rewrite Hr7.
    destruct (Z.le_ge_cases (wa_max w) (data_size p)); [by rewrite Z.min_r|]. rewrite Z.min_l by done.
    rewrite !take_ge; [done|unfold data_size in *; lia..].
  - unfold none_before, got_pos in Hn. rewrite H5 in Hn. by rewrite (Hn (sy_head y + 1) (sy_head y) s p ltac:(lia) Hh Hng) in Hw.
Qed.

(** ** Overrun and witnesses *)

(** The state after a run, and whether all states on the way are calm. *)
Fixpoint run_to (gs : nat → cxl_mem_t) (gr : cxl_mem_t) (l : list Action) (y : Sys) : Sys :=
  match l with [] => y | a :: l' => match sys_step gs gr a y with Some y1 => run_to gs gr l' y1 | None => y end end.

#[global] Instance calm_dec y : Decision (calm y) := _.

Fixpoint stays_calm (gs : nat → cxl_mem_t) (gr : cxl_mem_t) (l : list Action) (y : Sys) : bool :=
  match l with
  | [] => true
  | a :: l' => match sys_step gs gr a y with Some y1 => bool_decide (calm y1) && stays_calm gs gr l' y1 | None => false end
  end.

Lemma stays_calm_run gs gr l y : stays_calm gs gr l y = true → calm_run gs gr y l (run_to gs gr l y).
Proof.
  revert y. induction l as [|a l IH]; intros y H; cbn in *; [constructor|]. destruct (sys_step gs gr a y) as [y1|] eqn:E; [|done].
  apply andb_prop in H as [H1%bool_decide_eq_true H2]. econstructor; eauto.
Qed.

Lemma stays_calm_to gs gr l y : stays_calm gs gr l y = true → sys_run gs gr l y = Some (run_to gs gr l y).
Proof.
  revert y. induction l as [|a l IH]; intros y H; cbn in *; [done|]. destruct (sys_step gs gr a y) as [y1|] eqn:E; [|done].
  apply andb_prop in H as [_ H2]. by apply IH.
Qed.

Definition test_mailbox : cxl_rank_mailbox_t := enter_mailbox 0 1 [] zero_mailbox.
Definition test_post (b : Z) : Post := {| po_buf := [b; 2 * b]; po_tag := 7; po_source := b |}.
Definition any_message : Want := {| wa_max := 8; wa_source := -1; wa_tag := -1 |}.
Definition whole_send (s : nat) (b : Z) : list Action := StartSend s (test_post b) :: replicate 7 (StepSend s).

(** Three senders: the first claims position 0 and is stopped before it fills
    the slot; 62 messages follow; the two others find 63 positions in use and
    both go on.  One gets position 64, which has the slot of position 0. *)
Definition overrun : list Action :=
  StartSend 0 (test_post 100) :: replicate 5 (StepSend 0) ++ concat (replicate 62 (whole_send 1 1)) ++
  StartSend 1 (test_post 101) :: replicate 2 (StepSend 1) ++ StartSend 2 (test_post 102) :: replicate 2 (StepSend 2) ++
  replicate 5 (StepSend 2) ++ replicate 5 (StepSend 1) ++ replicate 2 (StepSend 0).

(** All calls of [cxl_send] return success, but the message at position 64 is
    overwritten by the first sender and never received. *)
Lemma overrun_loses_message :
  let y := run_to (λ _, small_process) small_process overrun (start_sys 3 test_mailbox ∅ CXL_HEADER_SIZE) in
  let z := Nat.iter 70 (cxl_recv small_process any_message) y in
  sy_hist y !! 0 = Some (HPosted 0 (test_post 100)) ∧ sy_hist y !! 64 = Some (HPosted 1 (test_post 101)) ∧
  (sy_head z, sy_tail z, length (sy_got z)) = (65, 64, 64%nat) ∧ forallb (λ r, negb (bool_decide (rc_buf r = [101; 202]))) (sy_got z) = true.
Proof. vm_compute. done. Qed.

Lemma test_mailbox_empty : empty_mailbox test_mailbox.
Proof. done. Qed.

Lemma test_region : same_region (λ _, small_process) small_process.
Proof. split; [intros _; split; [apply small_process_mapped|done]|apply small_process_mapped|done]. Qed.

Definition test_start (n : nat) : Sys := start_sys n test_mailbox ∅ CXL_HEADER_SIZE.

Lemma test_start_inv n : inv (g_size small_process) (test_start n).
Proof. by apply start_inv. Qed.

Lemma test_start_calm n : calm (test_start n).
Proof. by apply start_calm. Qed.

(** Two senders whose claims are interleaved, and a receive between. *)
Definition test_actions : list Action :=
  StartSend 0 (test_post 5) :: replicate 3 (StepSend 0) ++ whole_send 1 6 ++ StartRecv any_message :: replicate 7 StepRecv ++ replicate 4 (StepSend 0).

Lemma mailbox_faithful_witness :
  let y := run_to (λ _, small_process) small_process test_actions (test_start 2) in
  got_pos y = [1] ∧ faithful y.
Proof.
  intros y. split; [vm_compute; reflexivity|].
  apply (mailbox_faithful (λ _, small_process) small_process 2 test_mailbox ∅ CXL_HEADER_SIZE test_actions);
    [apply test_region|apply test_mailbox_empty|by split|repeat constructor; done|]. apply stays_calm_run. vm_compute. reflexivity.
Defined.

(** Two messages, of which the first one is received. *)
Definition test_exchange : list Action := whole_send 0 5 ++ whole_send 0 6 ++ StartRecv any_message :: replicate 9 StepRecv.

Lemma one_sender_faithful_witness :
  let y := run_to (λ _, small_process) small_process test_exchange (test_start 1) in
  (sy_head y, sy_tail y, rc_buf <$> sy_got y) = (2, 1, [[5; 10]]) ∧ faithful y.
Proof.
  intros y. split; [vm_compute; reflexivity|].
  apply (one_sender_faithful (λ _, small_process) small_process test_mailbox ∅ CXL_HEADER_SIZE test_exchange);
    [apply test_region|apply test_mailbox_empty|by split|repeat constructor; done|done|].
  apply stays_calm_to. vm_compute. reflexivity.
Defined.

Lemma send_ends_witness :
  let y1 := run_to (λ _, small_process) small_process [StartSend 0 (test_post 5)] (test_start 1) in
  sys_run (λ _, small_process) small_process (replicate 7 (StepSend 0)) y1 =
    Some (run_to (λ _, small_process) small_process (replicate 7 (StepSend 0)) y1) ∧
  Z.of_nat (length (keep (is_step_of 0) (replicate 7 (StepSend 0)))) <= 10009.
Proof.
  intros y1. assert (stays_calm (λ _, small_process) small_process (replicate 7 (StepSend 0)) y1 = true) as Hr by (vm_compute; reflexivity).
  apply stays_calm_to in Hr. split; [exact Hr|].
  apply (send_ends (λ _, small_process) small_process 0 (test_post 5) (replicate 7 (StepSend 0)) (test_start 1) y1
    (run_to (λ _, small_process) small_process (replicate 7 (StepSend 0)) y1) eq_refl); [repeat constructor|exact Hr].
Defined.

(** The ring is overrun, and the receiver takes a message while a sender finds it full. *)
Lemma recv_ends_witness :
  let y := run_to (λ _, small_process) small_process overrun (test_start 3) in
  let y1 := run_to (λ _, small_process) small_process [StartRecv any_message] y in
  let l := StepRecv :: StartSend 0 (test_post 5) :: StepSend 0 :: StepSend 0 :: replicate 8 StepRecv in
  sy_head y - sy_tail y = 65 ∧ length (sy_got (run_to (λ _, small_process) small_process l y1)) = 1%nat ∧
  ((length (keep is_recv_step l) ≤ 1)%nat ∨
   ∃ l1 l2 y', l = l1 ++ StepRecv :: l2 ∧ sys_run (λ _, small_process) small_process l1 y1 = Some y' ∧ length (keep is_recv_step l1) = 1%nat ∧
    Z.of_nat (length (keep is_recv_step l)) <= 4 * Z.max 0 (sy_head y' - sy_tail y') + 6).
Proof.
  intros y y1 l. split; [vm_compute; reflexivity|]. split; [vm_compute; reflexivity|].
  apply (recv_ends (λ _, small_process) small_process any_message l y y1 (run_to (λ _, small_process) small_process l y1)).
  - vm_compute. reflexivity.
  - repeat constructor.
  - vm_compute. reflexivity.
Defined.

(** A process with little memory, and a message that does not fit. *)
Definition tight_process : cxl_mem_t :=
  {| g_base := 1048576; g_size := CXL_HEADER_SIZE; g_used := 0; g_initialized := true; g_dax := true; g_header := true;
     g_my_rank := 0; g_world_size := 2; g_max_ranks := 256; g_cxl_comm_enabled := true; g_all_ranks_local := true |}.
Definition long_post : Post := {| po_buf := replicate 300 1; po_tag := 7; po_source := 1 |}.
Definition long_send : list Action := StartSend 0 long_post :: replicate 7 (StepSend 0).

Lemma tight_region : same_region (λ _, tight_process) tight_process.
Proof. split; [intros _; by split|by split|done]. Qed.

Lemma abandoned_blocks_witness :
  let y := run_to (λ _, tight_process) tight_process long_send (test_start 1) in
  sy_hist y !! 0 = Some (HAbandoned 0) ∧
  sy_tail (run_to (λ _, tight_process) tight_process (whole_send 0 5) y) <= 0.
Proof.
  intros y. assert (stays_calm (λ _, tight_process) tight_process long_send (test_start 1) = true) as Hc by (vm_compute; reflexivity).
  assert (inv (g_size tight_process) y) as Hinv.
  { apply (calm_run_inv (λ _, tight_process) tight_process (test_start 1) long_send y tight_region);
      [by apply start_inv|apply test_start_calm|repeat constructor; done|by apply stays_calm_run]. }
  assert (calm y) as Hcy by (refine (bool_decide_unpack _ _); vm_compute; exact I).
  assert (sy_hist y !! 0 = Some (HAbandoned 0)) as Hh by (vm_compute; reflexivity).
  split; [exact Hh|]. apply (abandoned_blocks (λ _, tight_process) tight_process (whole_send 0 5) y
    (run_to (λ _, tight_process) tight_process (whole_send 0 5) y) 0 0 tight_region Hinv Hcy Hh);
    [repeat constructor; done|]. apply stays_calm_run. vm_compute. reflexivity.
Defined.

Lemma recv_first_witness :
  let y := run_to (λ _, small_process) small_process (whole_send 0 5) (test_start 1) in
  sy_hist (cxl_recv small_process any_message y) = sy_hist y.
Proof.
  intros y. assert (inv (g_size small_process) y) as Hinv.
  { apply (calm_run_inv (λ _, small_process) small_process (test_start 1) (whole_send 0 5) y test_region);
      [apply test_start_inv|apply test_start_calm|repeat constructor; done|]. apply stays_calm_run. vm_compute. reflexivity. }
  assert (calm y) as Hcy by (refine (bool_decide_unpack _ _); vm_compute; exact I).
  apply (recv_first small_process any_message y small_process_mapped eq_refl Hinv Hcy eq_refl); [done|vm_compute; reflexivity].
Defined.

Lemma send_recv_roundtrip_witness :
  ∃ r, sy_got (cxl_recv small_process any_message (cxl_send small_process 0 long_post (test_start 1))) = [r] ∧
       rc_size r = 300 ∧ rc_buf r = replicate 8 1.
Proof.
  apply (send_recv_roundtrip small_process small_process 0 long_post any_message (test_start 1) small_process_mapped small_process_mapped
    eq_refl eq_refl (test_start_inv 1) (test_start_calm 1)); try reflexivity; try done.
  right. reflexivity.
Defined.
