(* ===== verification/MpiColl.v ===== *)
(** * The MPI shim: collective operations

    Models the hooks of [MPI_Bcast], [MPI_Scatter], [MPI_Gather],
    [MPI_Allgather], [MPI_Alltoall] and [MPI_Allreduce] of
    src/workloads/gromacs/mpi_cxl_shim.c.  When all ranks are on one node and
    the message is small, ranks put their data into blocks of the shared heap,
    register the blocks in the header, meet at a barrier of MPI, read each
    other's blocks and meet at a second barrier.  Otherwise a hook returns
    what MPI's own function returns.

    A hook is two parts: [Start], up to the first call of MPI, and [Read],
    from the first barrier to the next call.  [outcome] runs the first parts
    of all ranks in any order, and the second ones when all ranks have reached
    the barrier.  Ranks whose next calls of MPI differ, one at a barrier and
    one in MPI's own function, do not match.

    A buffer is a list of bytes.  The order of the shared accesses of
    different ranks inside a part does not matter: they allocate atomically
    and write to their own blocks and entries; a part is one step here.

    The sum of two signed integers that overflows is undefined. *)

From Stdlib Require Import SpecFloat.
From S2P Require Import Prelude Bytes Float64 MpiShim.

(** ** Data types *)

Inductive MPI_Datatype :=
| MPI_CHAR | MPI_BYTE | MPI_UNSIGNED_CHAR | MPI_INT8_T | MPI_UINT8_T
| MPI_SHORT | MPI_UNSIGNED_SHORT | MPI_INT16_T | MPI_UINT16_T
| MPI_INT | MPI_UNSIGNED | MPI_FLOAT | MPI_INT32_T | MPI_UINT32_T
| MPI_DOUBLE | MPI_LONG | MPI_UNSIGNED_LONG | MPI_LONG_LONG | MPI_UNSIGNED_LONG_LONG | MPI_INT64_T | MPI_UINT64_T
| MPI_LONG_DOUBLE | MPI_C_DOUBLE_COMPLEX | MPI_C_LONG_DOUBLE_COMPLEX | MPI_C_FLOAT_COMPLEX | MPI_2INT
| MPI_TYPE (id : Z).                      (** any other type, derived types among them *)

Definition safe_type_size (datatype : MPI_Datatype) : Z :=
  match datatype with
  | MPI_CHAR | MPI_BYTE | MPI_UNSIGNED_CHAR | MPI_INT8_T | MPI_UINT8_T => 1
  | MPI_SHORT | MPI_UNSIGNED_SHORT | MPI_INT16_T | MPI_UINT16_T => 2
  | MPI_INT | MPI_UNSIGNED | MPI_FLOAT | MPI_INT32_T | MPI_UINT32_T => 4
  | MPI_DOUBLE | MPI_LONG | MPI_UNSIGNED_LONG | MPI_LONG_LONG | MPI_UNSIGNED_LONG_LONG | MPI_INT64_T | MPI_UINT64_T => 8
  | MPI_LONG_DOUBLE => 16
  | MPI_C_DOUBLE_COMPLEX => 16
  | MPI_C_LONG_DOUBLE_COMPLEX => 32
  | MPI_C_FLOAT_COMPLEX => 8
  | MPI_2INT => 8
  | MPI_TYPE _ => 4
  end.

Inductive MPI_Op := MPI_SUM | MPI_OP (id : Z).

(** [(size_t)count * type_size] *)
Definition bytes_of (count : Z) (datatype : MPI_Datatype) : Z := u64 count *w safe_type_size datatype.

(** [cxl_direct_max_bytes]: the value of CXL_DIRECT_MAX_BYTES, if it parses. *)
Definition cxl_direct_max_bytes (value : option Z) : Z :=
  match value with Some parsed => if parsed =? 0 then 4096 else parsed | None => 4096 end.

(** ** Parts of a hook *)

Inductive Next := ToBarrier | ToOrig.

Definition Start : Type := cxl_mem_t → Shm → cxl_mem_t * Shm * Next.

(** A rank reaches the second barrier with a buffer, calls MPI's own function, or has
    reached undefined behaviour. *)
Inductive Reading := Filled (buf : list Z) | CallsOrig | Undefined.
Definition Read : Type := cxl_mem_t → Shm → Reading.

(** [bs] copied to position [n] of [d]. *)
Definition paste (n : Z) (bs d : list Z) : list Z := take (Z.to_nat n) d ++ bs ++ drop (Z.to_nat n + length bs) d.

(** The conditions that all hooks test; [world]: [comm] is MPI_COMM_WORLD. *)
Definition use_cxl (g : cxl_mem_t) (world : bool) (bytes : Z) (env : option Z) : bool :=
  g_cxl_comm_enabled g && g_all_ranks_local g && world && (bytes <=? cxl_direct_max_bytes env) && (g_world_size g <=? 64).

(** Copy of [bytes] bytes of a buffer to a pointer of the region. *)
Definition write_ptr (g : cxl_mem_t) (ptr bytes : Z) (buf : list Z) (sh : Shm) : Shm :=
  set_mem (st_bytes (ptr - g_base g) (take (Z.to_nat bytes) buf) (sh_mem sh)) sh.
Definition read_ptr (g : cxl_mem_t) (ptr bytes : Z) (sh : Shm) : list Z :=
  ld_bytes (sh_mem sh) (ptr - g_base g) (Z.to_nat bytes).

(** Every rank allocates a block for its data and registers it. *)
Definition contribute (bytes : Z) (buf : list Z) : Start := λ g sh,
  let '(g, sh, my_buf) := allocate_cxl_memory bytes g sh in
  if my_buf =? 0 then (g, sh, ToOrig)
  else (g, cxl_collective_register_buffer (g_my_rank g) my_buf g (write_ptr g my_buf bytes buf sh), ToBarrier).

(** The root allocates a block for its data and registers it, the others
    register [NULL]. *)
Definition offer (root bytes : Z) (buf : list Z) : Start := λ g sh,
  let '(g, sh, root_buf) :=
    if g_my_rank g =? root then
      let '(g, sh, root_buf) := allocate_cxl_memory bytes g sh in
      (g, if root_buf =? 0 then sh else write_ptr g root_buf bytes buf sh, root_buf)
    else (g, sh, 0) in
  (g, cxl_collective_register_buffer (g_my_rank g) root_buf g sh, ToBarrier).

(** The loop over all ranks that copies [bytes] bytes at [skip] of the block
    of rank [r] to position [r * bytes] of the buffer. *)
Fixpoint read_all (ranks : list Z) (skip bytes : Z) (g : cxl_mem_t) (sh : Shm) (buf : list Z) : Reading :=
  match ranks with
  | [] => Filled buf
  | r :: ranks' =>
      let their_buf := cxl_collective_get_buffer r g sh in
      if their_buf =? 0 then CallsOrig
      else read_all ranks' skip bytes g sh (paste (r * bytes) (read_ptr g (their_buf + skip) bytes sh) buf)
  end.

(** ** Addition of elements *)

Definition signed (w : Z) (u : Z) : Z := if u <? 2 ^ (w - 1) then u else u - 2 ^ w.

(** Numbers of [mw] bits of mantissa and [ew] bits of exponent. *)
Definition float_of_bits (mw ew : Z) (x : Z) : spec_float :=
  let s := Z.testbit x (mw + ew) in
  let e := Z.shiftr x mw mod 2 ^ ew in
  let m := x mod 2 ^ mw in
  let emin := 2 - 2 ^ (ew - 1) - mw in
  if e =? 0 then if m =? 0 then S754_zero s else S754_finite s (Z.to_pos m) emin
  else if e =? 2 ^ ew - 1 then if m =? 0 then S754_infinity s else S754_nan
  else S754_finite s (Z.to_pos (m + 2 ^ mw)) (e + emin - 1).

Definition bits_of_float (mw ew : Z) (x : spec_float) : Z :=
  let sign (s : bool) := if s then 2 ^ (mw + ew) else 0 in
  let emin := 2 - 2 ^ (ew - 1) - mw in
  match x with
  | S754_zero s => sign s
  | S754_infinity s => sign s + (2 ^ ew - 1) * 2 ^ mw
  | S754_nan => (2 ^ ew - 1) * 2 ^ mw + 2 ^ (mw - 1)
  | S754_finite s m e => sign s + if Z.pos m <? 2 ^ mw then Z.pos m else (e - emin + 1) * 2 ^ mw + (Z.pos m - 2 ^ mw)
  end.

(** The sum of two signed integers of [w] bits; [None]: it overflows. *)
Definition add_signed (w a b : Z) : option Z :=
  let sum := signed w a + signed w b in
  if (- 2 ^ (w - 1) <=? sum) && (sum <? 2 ^ (w - 1)) then Some (sum mod 2 ^ w) else None.

(** [dst[i] += src[i]] on the bytes of one element; other types are left alone. *)
Definition add_element (datatype : MPI_Datatype) (a b : Z) : option Z :=
  match datatype with
  | MPI_DOUBLE => Some (bits_of_float 52 11 (SFadd 53 1024 (float_of_bits 52 11 a) (float_of_bits 52 11 b)))
  | MPI_FLOAT => Some (bits_of_float 23 8 (SFadd 24 128 (float_of_bits 23 8 a) (float_of_bits 23 8 b)))
  | MPI_INT => add_signed 32 a b
  | MPI_LONG | MPI_LONG_LONG => add_signed 64 a b
  | _ => Some a
  end.

Definition can_add (datatype : MPI_Datatype) : bool :=
  match datatype with MPI_DOUBLE | MPI_FLOAT | MPI_INT | MPI_LONG | MPI_LONG_LONG => true | _ => false end.

(** The loop over [count] elements of a type. *)
Fixpoint add_elements (datatype : MPI_Datatype) (count : nat) (dst src : list Z) : option (list Z) :=
  match count with
  | O => Some dst
  | S count' =>
      let w := Z.to_nat (safe_type_size datatype) in
      sum ← add_element datatype (le_decode (take w dst)) (le_decode (take w src));
      rest ← add_elements datatype count' (drop w dst) (drop w src);
      Some (le_encode w sum ++ rest)
  end.

(** The loop of [MPI_Allreduce] over the other ranks. *)
Fixpoint reduce_all (datatype : MPI_Datatype) (count bytes : Z) (ranks : list Z) (g : cxl_mem_t) (sh : Shm) (buf : list Z) : Reading :=
  match ranks with
  | [] => Filled buf
  | r :: ranks' =>
      if r =? g_my_rank g then reduce_all datatype count bytes ranks' g sh buf
      else
        let their_buf := cxl_collective_get_buffer r g sh in
        if their_buf =? 0 then CallsOrig
        else
          match add_elements datatype (Z.to_nat count) buf (read_ptr g their_buf bytes sh) with
          | Some buf1 => reduce_all datatype count bytes ranks' g sh buf1
          | None => Undefined
          end
  end.

(** ** The hooks *)

Record Hook := { hk_start : Start; hk_read : Read }.

(** The first part of a hook that may not use the region. *)
Definition guarded (use : cxl_mem_t → bool) (s : Start) : Start := λ g sh, if use g then s g sh else (g, sh, ToOrig).

Definition MPI_Bcast (env : option Z) (world : bool) (buffer : list Z) (count : Z) (datatype : MPI_Datatype) (root : Z) : Hook :=
  let total_size := bytes_of count datatype in
  {| hk_start := guarded (λ g, use_cxl g world total_size env) (offer root total_size buffer);
     hk_read g sh :=
       if g_my_rank g =? root then Filled buffer
       else
         let bcast_buf := cxl_collective_get_buffer root g sh in
         if bcast_buf =? 0 then CallsOrig else Filled (paste 0 (read_ptr g bcast_buf total_size sh) buffer) |}.

Definition MPI_Scatter (env : option Z) (world : bool) (sendbuf : list Z) (sendcount : Z) (sendtype : MPI_Datatype) (recvbuf : list Z) (root : Z) : Hook :=
  let send_bytes := bytes_of sendcount sendtype in
  {| hk_start := λ g sh, guarded (λ g, use_cxl g world send_bytes env) (offer root (send_bytes *w u64 (g_world_size g)) sendbuf) g sh;
     hk_read g sh :=
       let scatter_buf := cxl_collective_get_buffer root g sh in
       if scatter_buf =? 0 then CallsOrig
       else Filled (paste 0 (read_ptr g (scatter_buf + g_my_rank g * send_bytes) send_bytes sh) recvbuf) |}.

Definition MPI_Gather (env : option Z) (world : bool) (sendbuf : list Z) (sendcount : Z) (sendtype : MPI_Datatype) (recvbuf : list Z) (root : Z) : Hook :=
  let send_bytes := bytes_of sendcount sendtype in
  {| hk_start := guarded (λ g, use_cxl g world send_bytes env) (contribute send_bytes sendbuf);
     hk_read g sh :=
       if g_my_rank g =? root then read_all (seqZ 0 (g_world_size g)) 0 send_bytes g sh recvbuf else Filled recvbuf |}.

Definition MPI_Allgather (env : option Z) (world in_place : bool) (sendbuf : list Z) (sendcount : Z) (sendtype : MPI_Datatype) (recvbuf : list Z) : Hook :=
  let send_bytes := bytes_of sendcount sendtype in
  {| hk_start := guarded (λ g, use_cxl g world send_bytes env && negb in_place) (contribute send_bytes sendbuf);
     hk_read g sh := read_all (seqZ 0 (g_world_size g)) 0 send_bytes g sh recvbuf |}.

Definition MPI_Alltoall (env : option Z) (world : bool) (sendbuf : list Z) (sendcount : Z) (sendtype : MPI_Datatype)
    (recvbuf : list Z) (recvcount : Z) (recvtype : MPI_Datatype) : Hook :=
  let send_bytes := bytes_of sendcount sendtype in
  let recv_bytes := bytes_of recvcount recvtype in
  {| hk_start := λ g sh, guarded (λ g, use_cxl g world send_bytes env) (contribute (send_bytes *w u64 (g_world_size g)) sendbuf) g sh;
     hk_read g sh := read_all (seqZ 0 (g_world_size g)) (g_my_rank g * send_bytes) recv_bytes g sh recvbuf |}.

Definition MPI_Allreduce (env : option Z) (world in_place : bool) (sendbuf recvbuf : list Z) (count : Z) (datatype : MPI_Datatype) (op : MPI_Op) : Hook :=
  let total_size := bytes_of count datatype in
  {| hk_start := guarded (λ g, use_cxl g world total_size env && negb in_place && match op with MPI_SUM => true | _ => false end && can_add datatype)
       (contribute total_size sendbuf);
     hk_read g sh :=
       reduce_all datatype count total_size (seqZ 0 (g_world_size g)) g sh (paste 0 (take (Z.to_nat total_size) sendbuf) recvbuf) |}.

(** ** All ranks together *)

(** The first parts of the ranks of [order]; [hooks r] is the call of rank [r]. *)
Fixpoint run_starts (hooks : Z → Hook) (order : list Z) (gs : Z → cxl_mem_t) (sh : Shm) : (Z → cxl_mem_t) * Shm * list Next :=
  match order with
  | [] => (gs, sh, [])
  | r :: order' =>
      let '(g, sh, nx) := hk_start (hooks r) (gs r) sh in
      let '(gs, sh, l) := run_starts hooks order' (λ k, if k =? r then g else gs k) sh in
      (gs, sh, nx :: l)
  end.

Inductive Outcome :=
| Completed (buffers : list (list Z))     (** by rank, after the second barrier *)
| FellBack                                (** all ranks call MPI's own function *)
| Mismatched                              (** their calls of MPI differ *)
| Undefined_behaviour.                    (** of some rank *)

Definition is_barrier (nx : Next) : bool := match nx with ToBarrier => true | ToOrig => false end.
Definition is_filled (x : Reading) : bool := match x with Filled _ => true | _ => false end.
Definition is_undefined (x : Reading) : bool := match x with Undefined => true | _ => false end.
Definition buffer_of (x : Reading) : list Z := match x with Filled buf => buf | _ => [] end.

(** What the ranks do together after the first barrier. *)
Definition settle (reads : list Reading) : Outcome :=
  if existsb is_undefined reads then Undefined_behaviour
  else if forallb is_filled reads then Completed (buffer_of <$> reads)
  else if forallb (λ x, negb (is_filled x)) reads then FellBack else Mismatched.

Definition outcome (hooks : Z → Hook) (n : Z) (order : list Z) (gs : Z → cxl_mem_t) (sh : Shm) : Outcome :=
  let '(gs, sh, l) := run_starts hooks order gs sh in
  if forallb is_barrier l then settle ((λ r, hk_read (hooks r) (gs r) sh) <$> seqZ 0 n)
  else if forallb (λ nx, negb (is_barrier nx)) l then FellBack else Mismatched.

(** ** Nodes *)

(** [n] registered ranks of one node, whose region has [sz] bytes. *)
Record node (n sz : Z) (gs : Z → cxl_mem_t) (sh : Shm) : Prop := {
  nd_n : 1 <= n <= 64;
  nd_size : sz < 4611686018427387904;
  nd_rptrs : length (h_coll_data_rptr (sh_header sh)) = 256%nat;
  nd_offset : 0 <= h_alloc_offset (sh_header sh) <= sz;
  nd_mapped r : 0 <= r < n → mapped (gs r) ∧ g_size (gs r) = sz;
  nd_rank r : 0 <= r < n → g_my_rank (gs r) = r ∧ g_world_size (gs r) = n;
  nd_local r : 0 <= r < n → g_cxl_comm_enabled (gs r) = true ∧ g_all_ranks_local (gs r) = true
}.

(** The same process, up to its own count of used memory. *)
Definition like (g g' : cxl_mem_t) : Prop := ∃ u, g' = set_used u g.

Lemma like_refl g : like g g.
Proof. exists (g_used g). by destruct g. Qed.

Lemma set_used_id g : set_used (g_used g) g = g.
Proof. by destruct g. Qed.

Lemma like_mapped g g' : like g g' → mapped g → mapped g'.
Proof. intros [u ->] [? ? ? ? ?]. by split. Qed.

(** The block of rank [r] holds the bytes [d]. *)
Definition block_at (sz : Z) (sh : Shm) (r : Z) (d : list Z) : Prop :=
  ∃ off, h_coll_data_rptr (sh_header sh) !! Z.to_nat r = Some off ∧ 0 <= off ∧ off < sz ∧
         off + Z.of_nat (length d) <= h_alloc_offset (sh_header sh) ∧ ld_bytes (sh_mem sh) off (length d) = d.

Lemma get_buffer_at sz sh r d g :
  mapped g → g_size g = sz → 0 <= r < 256 → block_at sz sh r d →
  ∃ off, cxl_collective_get_buffer r g sh = g_base g + off ∧ cxl_collective_get_buffer r g sh ≠ 0 ∧
         ld_bytes (sh_mem sh) off (length d) = d.
Proof.
  intros Hg Hsz Hr (off & Hl & H0 & Hs & _ & Hd). exists off.
  assert (cxl_collective_get_buffer r g sh = g_base g + off) as ->.
  { unfold cxl_collective_get_buffer. rewrite (mp_header g Hg). change CXL_MAX_RANKS with 256.
    rewrite (proj2 (Z.ltb_ge _ _)), (proj2 (Z.leb_gt _ _)) by lia. cbn [negb orb]. rewrite Hl. cbn. apply rptr_to_ptr_in; [done|lia]. }
  split_and!; [done| |done]. destruct Hg. lia.
Qed.

(** Reading a part of a block. *)
Lemma read_part sz sh r d g skip (n : nat) :
  mapped g → g_size g = sz → 0 <= r < 256 → block_at sz sh r d → 0 <= skip → (Z.to_nat skip + n ≤ length d)%nat →
  cxl_collective_get_buffer r g sh ≠ 0 ∧
  read_ptr g (cxl_collective_get_buffer r g sh + skip) (Z.of_nat n) sh = take n (drop (Z.to_nat skip) d).
Proof.
  intros Hg Hsz Hr Hb Hs Hn. destruct (get_buffer_at sz sh r d g Hg Hsz Hr Hb) as (off & He & Hne & Hd). split; [done|].
  unfold read_ptr. rewrite He. replace (g_base g + off + skip - g_base g) with (off + Z.of_nat (Z.to_nat skip)) by lia.
  rewrite Nat2Z.id. rewrite (ld_bytes_sub _ _ _ _ (length d)) by done. by rewrite Hd.
Qed.

(** ** First parts *)

(** What registration leaves of the region. *)
Lemma register_eq r buf g sh :
  mapped g → 0 <= r < 256 →
  cxl_collective_register_buffer r buf g sh =
    set_header (set_coll_data_rptr (<[Z.to_nat r := ptr_to_rptr g buf]> (h_coll_data_rptr (sh_header sh))) (sh_header sh)) sh.
Proof.
  intros Hg Hr. unfold cxl_collective_register_buffer. rewrite (mp_header g Hg). change CXL_MAX_RANKS with 256.
  by rewrite (proj2 (Z.ltb_ge _ _)), (proj2 (Z.leb_gt _ _)) by lia.
Qed.

(** The region after rank [r] has put the block [d] at the end of the heap. *)
Definition with_block (r size : Z) (d : list Z) (sh : Shm) : Shm :=
  let o := h_alloc_offset (sh_header sh) in
  set_header (set_coll_data_rptr (<[Z.to_nat r := o]> (h_coll_data_rptr (sh_header sh))) (set_alloc_offset (o + size) (sh_header sh)))
    (set_mem (st_bytes o d (sh_mem sh)) sh).

Lemma with_block_new sz r size d sh :
  0 <= r < 256 → length (h_coll_data_rptr (sh_header sh)) = 256%nat → 0 <= h_alloc_offset (sh_header sh) →
  0 < size → Z.of_nat (length d) <= size → h_alloc_offset (sh_header sh) + size <= sz → block_at sz (with_block r size d sh) r d.
Proof.
  intros Hr Hl Ho Hs Hd Hfit. exists (h_alloc_offset (sh_header sh)). cbn. rewrite list_lookup_insert_eq by lia.
  split_and!; [done|lia..|]. apply ld_st_bytes.
Qed.

Lemma with_block_kept sz r r' size d d' sh :
  block_at sz sh r d → r ≠ r' → 0 <= r → 0 <= r' → 0 <= size → block_at sz (with_block r' size d' sh) r d.
Proof.
  intros (off & Hl & H0 & Hs & He & Hd) Hne Hr Hr' Hsz. exists off. cbn. rewrite list_lookup_insert_ne by lia.
  split_and!; [done..|lia|]. rewrite st_bytes_other by done. done.
Qed.

(** Sizes for which the arithmetic of an allocation does not wrap. *)
Definition block_size (bytes : Z) : Prop := 0 < bytes < 4611686018427383808.

Lemma block_size_round bytes : block_size bytes → bytes <= round_up bytes < 4611686018427387904.
Proof. intros [H0 H1]. destruct (round_up_bounds bytes) as [? _]; lia. Qed.

Lemma contribute_eq sz sh r g bytes buf :
  mapped g → g_size g = sz → g_my_rank g = r → 0 <= r < 256 → sz < 4611686018427387904 → block_size bytes →
  0 <= h_alloc_offset (sh_header sh) → h_alloc_offset (sh_header sh) + round_up bytes <= sz →
  contribute bytes buf g sh =
    (set_used (h_alloc_offset (sh_header sh) + round_up bytes) g, with_block r (round_up bytes) (take (Z.to_nat bytes) buf) sh, ToBarrier).
Proof.
  intros Hg Hsz Hrk Hr Hsm Hb Ho Hfit. pose proof (block_size_round _ Hb) as Hru. destruct Hb as [Hb0 Hb1].
  unfold contribute. rewrite allocate_spec by (done || lia). cbn zeta. rewrite Hsz.
  rewrite (proj2 (Z.leb_le _ _)) by done. rewrite (proj2 (Z.eqb_neq _ 0)) by (destruct Hg; lia).
  set (o := h_alloc_offset (sh_header sh)) in *. assert (mapped (set_used (o + round_up bytes) g)) as Hg' by (by destruct Hg).
  change (g_my_rank (set_used (o + round_up bytes) g)) with (g_my_rank g). rewrite Hrk, register_eq by done.
  rewrite ptr_to_rptr_in; [|done|cbn; destruct Hg; lia]. unfold write_ptr, with_block. cbn. fold o.
  replace (g_base g + o - g_base g) with o by lia. done.
Qed.

(** The ranks of [l] have put their data into blocks of [bytes] bytes. *)
Record contributed (sz bytes o : Z) (data : Z → list Z) (gs gs' : Z → cxl_mem_t) (l : list Z) (sh : Shm) : Prop := {
  cb_offset : h_alloc_offset (sh_header sh) = o + Z.of_nat (length l) * round_up bytes;
  cb_rptrs : length (h_coll_data_rptr (sh_header sh)) = 256%nat;
  cb_block r : r ∈ l → block_at sz sh r (take (Z.to_nat bytes) (data r));
  cb_like r : like (gs r) (gs' r);
  cb_same r : r ∉ l → gs' r = gs r
}.

Lemma run_contribute n sz gs hooks bytes data o order l gs1 sh :
  (∀ r, 0 <= r < n → mapped (gs r) ∧ g_size (gs r) = sz ∧ g_my_rank (gs r) = r) → n <= 64 → sz < 4611686018427387904 →
  block_size bytes → (∀ r, 0 <= r < n → bytes <= Z.of_nat (length (data r))) → 0 <= o →
  (∀ r sh, 0 <= r < n → hk_start (hooks r) (gs r) sh = contribute bytes (data r) (gs r) sh) →
  NoDup (l ++ order) → Forall (λ r, 0 <= r < n) (l ++ order) → o + Z.of_nat (length (l ++ order)) * round_up bytes <= sz →
  contributed sz bytes o data gs gs1 l sh →
  ∃ gs2 sh2, run_starts hooks order gs1 sh = (gs2, sh2, replicate (length order) ToBarrier) ∧ contributed sz bytes o data gs gs2 (l ++ order) sh2.
Proof.
  intros Hgs Hn Hsm Hb Hdata Ho Hhk. pose proof (block_size_round _ Hb) as Hru. pose proof Hb as [Hb0 Hb1]. revert l gs1 sh.
  induction order as [|r order IH]; intros l gs1 sh Hnd Hrange Hfit [Hoff Hlen Hblk Hlike Hsame]; cbn [run_starts].
  { exists gs1, sh. rewrite app_nil_r. done. }
  assert (0 <= r < n) as Hr by (rewrite Forall_forall in Hrange; apply Hrange; set_solver).
  assert (r ∉ l) as Hrl by (intros Hin; apply NoDup_app in Hnd as (_ & H & _); apply (H r Hin); set_solver).
  destruct (Hgs r Hr) as (Hg & Hsz & Hrk). rewrite length_app in Hfit. cbn [length] in Hfit.
  assert (0 <= Z.of_nat (length l) * round_up bytes) as Hnn by (apply Z.mul_nonneg_nonneg; lia).
  assert (0 <= Z.of_nat (length order) * round_up bytes) as Hnn' by (apply Z.mul_nonneg_nonneg; lia).
  assert (h_alloc_offset (sh_header sh) + round_up bytes <= sz) as Hf by (rewrite Hoff; lia).
  rewrite Hsame by done. rewrite Hhk by done. rewrite (contribute_eq sz sh r) by (done || lia).
  assert (Z.of_nat (length (take (Z.to_nat bytes) (data r))) <= round_up bytes) as Hdl by (rewrite length_take; lia).
  destruct (IH (l ++ [r]) (λ k, if k =? r then set_used (h_alloc_offset (sh_header sh) + round_up bytes) (gs r) else gs1 k)
    (with_block r (round_up bytes) (take (Z.to_nat bytes) (data r)) sh)) as (gs2 & sh2 & Hrun & Hcon).
  - by rewrite <- app_assoc.
  - by rewrite <- app_assoc.
  - rewrite <- app_assoc, length_app. cbn. lia.
  - split.
    + cbn. rewrite Hoff, length_app. cbn. lia.
    + cbn. by rewrite length_insert.
    + intros k [Hk|Hk]%elem_of_app.
      * assert (0 <= k < n) by (rewrite Forall_forall in Hrange; apply Hrange; set_solver).
        apply with_block_kept; [by apply Hblk|set_solver|lia..].
      * apply list_elem_of_singleton in Hk as ->. apply with_block_new; try done; lia.
    + intros k. destruct (Z.eqb_spec k r) as [->|]; [by eexists|apply Hlike].
    + intros k Hk. rewrite (proj2 (Z.eqb_neq k r)) by set_solver. apply Hsame. set_solver.
  - exists gs2, sh2. rewrite Hrun. rewrite <- app_assoc in Hcon. done.
Qed.

(** ** Second parts *)

Lemma paste_app (d b e : list Z) n :
  n = Z.of_nat (length d) → (length b ≤ length e)%nat → paste n b (d ++ e) = d ++ b ++ drop (length b) e.
Proof.
  intros -> Hb. unfold paste. rewrite Nat2Z.id, take_app_length. f_equal. f_equal. by rewrite drop_app_add.
Qed.

(** The loop over the ranks fills the buffer with the parts it reads. *)
Lemma read_all_from sz sh g skip bytes (data : Z → list Z) j i d e :
  mapped g → g_size g = sz → 0 <= i → i + Z.of_nat j <= 64 → 0 <= skip → 0 <= bytes →
  (∀ k, i <= k < i + Z.of_nat j → block_at sz sh k (data k) ∧ (Z.to_nat skip + Z.to_nat bytes ≤ length (data k))%nat) →
  length d = Z.to_nat (i * bytes) → length e = (j * Z.to_nat bytes)%nat →
  read_all (seqZ i (Z.of_nat j)) skip bytes g sh (d ++ e) =
    Filled (d ++ concat ((λ k, take (Z.to_nat bytes) (drop (Z.to_nat skip) (data k))) <$> seqZ i (Z.of_nat j))).
Proof.
  intros Hg Hsz. revert i d e. induction j as [|j IH]; intros i d e Hi Hn Hs Hb Hblk Hd He.
  { destruct e; [done|]. cbn in He. lia. }
  rewrite seqZ_cons by lia. cbn [read_all fmap list_fmap concat].
  destruct (Hblk i ltac:(lia)) as [Hbi Hli].
  destruct (read_part sz sh i (data i) g skip (Z.to_nat bytes) Hg Hsz ltac:(lia) Hbi Hs Hli) as [Hne Hr].
  rewrite Z2Nat.id in Hr by done. rewrite (proj2 (Z.eqb_neq _ _)) by done. rewrite Hr.
  set (b := take (Z.to_nat bytes) (drop (Z.to_nat skip) (data i))).
  assert (length b = Z.to_nat bytes) as Hlb by (unfold b; rewrite length_take, length_drop; lia).
  rewrite paste_app by (lia || (rewrite Hlb, He; lia)). rewrite app_assoc.
  replace (Z.pred (Z.of_nat (S j))) with (Z.of_nat j) by lia.
  rewrite (IH (Z.succ i) (d ++ b) (drop (length b) e)).
  - by rewrite <- app_assoc.
  - lia.
  - lia.
  - done.
  - done.
  - intros k Hk. apply Hblk. lia.
  - rewrite length_app, Hd, Hlb. nia.
  - rewrite length_drop, He, Hlb. lia.
Qed.

Lemma read_all_exact sz sh g n skip bytes (data : Z → list Z) buf :
  mapped g → g_size g = sz → 0 <= n <= 64 → 0 <= skip → 0 <= bytes →
  (∀ k, 0 <= k < n → block_at sz sh k (data k) ∧ (Z.to_nat skip + Z.to_nat bytes ≤ length (data k))%nat) →
  length buf = (Z.to_nat n * Z.to_nat bytes)%nat →
  read_all (seqZ 0 n) skip bytes g sh buf = Filled (concat ((λ k, take (Z.to_nat bytes) (drop (Z.to_nat skip) (data k))) <$> seqZ 0 n)).
Proof.
  intros Hg Hsz Hn Hs Hb Hblk Hl. pose proof (read_all_from sz sh g skip bytes data (Z.to_nat n) 0 [] buf Hg Hsz) as H.
  rewrite Z2Nat.id in H by lia. apply H; try lia; [by rewrite Z.add_0_l|by rewrite Z.mul_0_l].
Qed.

(** ** Outcomes *)

Lemma settle_filled {A} (res : A → list Z) (l : list A) : settle ((λ r, Filled (res r)) <$> l) = Completed (res <$> l).
Proof.
  unfold settle. assert (existsb is_undefined ((λ r, Filled (res r)) <$> l) = false ∧ forallb is_filled ((λ r, Filled (res r)) <$> l) = true ∧
    buffer_of <$> ((λ r, Filled (res r)) <$> l) = res <$> l) as (-> & -> & ->); [|done].
  induction l as [|x l (IH1 & IH2 & IH3)]; [done|]. rewrite !fmap_cons. cbn [existsb forallb is_undefined is_filled orb andb]. by rewrite IH1, IH2, IH3.
Qed.

Lemma fmap_ext_in {A B} (f1 f2 : A → B) (l : list A) : (∀ x, x ∈ l → f1 x = f2 x) → f1 <$> l = f2 <$> l.
Proof.
  induction l as [|x l IH]; intros H; [done|]. cbn. f_equal; [apply H; set_solver|]. apply IH. set_solver.
Qed.

Lemma forallb_barriers k : forallb is_barrier (replicate k ToBarrier) = true.
Proof. by induction k. Qed.

(** A collective in which every rank contributes a block completes with what
    the second parts read from the blocks. *)
Lemma contribute_completes n sz gs sh hooks bytes data order res :
  node n sz gs sh → order ≡ₚ seqZ 0 n → block_size bytes → (∀ r, 0 <= r < n → bytes <= Z.of_nat (length (data r))) →
  h_alloc_offset (sh_header sh) + n * round_up bytes <= sz →
  (∀ r sh, 0 <= r < n → hk_start (hooks r) (gs r) sh = contribute bytes (data r) (gs r) sh) →
  (∀ r g sh', 0 <= r < n → like (gs r) g → (∀ k, 0 <= k < n → block_at sz sh' k (take (Z.to_nat bytes) (data k))) →
     hk_read (hooks r) g sh' = Filled (res r)) →
  outcome hooks n order gs sh = Completed (res <$> seqZ 0 n).
Proof.
  intros [Hn Hsm Hrp Hoff Hmap Hrk _] Hord Hb Hdata Hfit Hhk Hread.
  assert (length order = Z.to_nat n) as Hlen by (rewrite Hord; apply length_seqZ).
  destruct (run_contribute n sz gs hooks bytes data (h_alloc_offset (sh_header sh)) order [] gs sh) as (gs2 & sh2 & Hrun & [_ _ Hblk Hlike _]);
    try done; try lia.
  - intros r Hr. destruct (Hmap r Hr), (Hrk r Hr). done.
  - cbn. rewrite Hord. apply NoDup_seqZ.
  - cbn. rewrite Hord. apply Forall_forall. intros k Hk%elem_of_seqZ. lia.
  - cbn. rewrite Hlen. lia.
  - split; try done; [cbn; lia|intros r Hr; by apply not_elem_of_nil in Hr|intros r; apply like_refl].
  - unfold outcome. rewrite Hrun, forallb_barriers. cbn [app] in Hblk.
    rewrite (fmap_ext_in _ (λ r, Filled (res r))).
    + apply settle_filled.
    + intros r Hr%elem_of_seqZ. apply Hread; [lia|apply Hlike|]. intros k Hk. apply Hblk. rewrite Hord. apply elem_of_seqZ. lia.
Qed.

Lemma use_cxl_node n sz gs sh r bytes env :
  node n sz gs sh → 0 <= r < n → bytes <= cxl_direct_max_bytes env → use_cxl (gs r) true bytes env = true.
Proof.
  intros Hnode Hr Hb. destruct (nd_local _ _ _ _ Hnode r Hr) as [He Hl], (nd_rank _ _ _ _ Hnode r Hr) as [_ Hw], (nd_n _ _ _ _ Hnode).
  unfold use_cxl. rewrite He, Hl, Hw. cbn [andb]. rewrite !(proj2 (Z.leb_le _ _)) by lia. done.
Qed.

Lemma like_world g g' : like g g' → g_world_size g' = g_world_size g ∧ g_my_rank g' = g_my_rank g ∧ g_size g' = g_size g.
Proof. by intros [u ->]. Qed.

Section exact.
Context (n sz : Z) (gs : Z → cxl_mem_t) (sh : Shm) (order : list Z) (env : option Z).
Hypothesis (Hnode : node n sz gs sh) (Hord : order ≡ₚ seqZ 0 n).

(** A rank that reads all blocks in full. *)
Lemma read_whole bytes sendbuf r g sh' buf :
  0 < bytes → 0 <= r < n → like (gs r) g → (∀ k, 0 <= k < n → length (sendbuf k) = Z.to_nat bytes) →
  (∀ k, 0 <= k < n → block_at sz sh' k (take (Z.to_nat bytes) (sendbuf k))) → length buf = (Z.to_nat n * Z.to_nat bytes)%nat →
  read_all (seqZ 0 (g_world_size g)) 0 bytes g sh' buf = Filled (concat (sendbuf <$> seqZ 0 n)).
Proof using Hnode.
  intros Hb Hr Hlk Hlen Hblk Hbuf. destruct (like_world _ _ Hlk) as (Hw & Hrk & Hs). pose proof (nd_n _ _ _ _ Hnode) as Hn.
  destruct (nd_mapped _ _ _ _ Hnode r Hr) as [Hm Hsz], (nd_rank _ _ _ _ Hnode r Hr) as [_ Hwn]. rewrite Hw, Hwn.
  rewrite (read_all_exact sz _ _ n 0 _ sendbuf); [|by eapply like_mapped|congruence|lia|lia|lia| |done].
  - do 2 f_equal. apply fmap_ext_in. intros k Hk%elem_of_seqZ. cbn. rewrite drop_0, take_ge by (rewrite Hlen; lia). done.
  - intros k Hk. specialize (Hblk k Hk). rewrite take_ge in Hblk by (rewrite Hlen; lia). split; [done|]. rewrite Hlen by done. lia.
Qed.

(** [MPI_Allgather]: every rank gets the data of all ranks, by rank. *)
Lemma allgather_completes count ty sendbuf recvbuf :
  let bytes := bytes_of count ty in
  block_size bytes → bytes <= cxl_direct_max_bytes env → h_alloc_offset (sh_header sh) + n * round_up bytes <= sz →
  (∀ r, 0 <= r < n → length (sendbuf r) = Z.to_nat bytes ∧ length (recvbuf r) = (Z.to_nat n * Z.to_nat bytes)%nat) →
  outcome (λ r, MPI_Allgather env true false (sendbuf r) count ty (recvbuf r)) n order gs sh =
    Completed ((λ _, concat (sendbuf <$> seqZ 0 n)) <$> seqZ 0 n).
Proof using Hnode Hord.
  intros bytes Hb Hmax Hfit Hlen. pose proof Hb as [Hb0 Hb1]. pose proof (nd_n _ _ _ _ Hnode) as Hn.
  eapply contribute_completes with (bytes := bytes) (data := sendbuf); try done.
  - intros r Hr. destruct (Hlen r Hr). lia.
  - intros r sh' Hr. cbn [MPI_Allgather hk_start]. unfold guarded. rewrite (use_cxl_node n sz gs sh) by done. done.
  - intros r g sh' Hr Hlk Hblk. apply (read_whole bytes sendbuf r); [done..| |done|by destruct (Hlen r Hr)].
    intros k Hk. by destruct (Hlen k Hk).
Qed.

(** [MPI_Gather]: the root gets the data of all ranks, by rank; the buffers of
    the others stay. *)
Lemma gather_completes count ty sendbuf recvbuf root :
  let bytes := bytes_of count ty in
  block_size bytes → bytes <= cxl_direct_max_bytes env → h_alloc_offset (sh_header sh) + n * round_up bytes <= sz →
  (∀ r, 0 <= r < n → length (sendbuf r) = Z.to_nat bytes ∧ (r = root → length (recvbuf r) = (Z.to_nat n * Z.to_nat bytes)%nat)) →
  outcome (λ r, MPI_Gather env true (sendbuf r) count ty (recvbuf r) root) n order gs sh =
    Completed ((λ r, if r =? root then concat (sendbuf <$> seqZ 0 n) else recvbuf r) <$> seqZ 0 n).
Proof using Hnode Hord.
  intros bytes Hb Hmax Hfit Hlen. pose proof Hb as [Hb0 Hb1]. pose proof (nd_n _ _ _ _ Hnode) as Hn.
  eapply contribute_completes with (bytes := bytes) (data := sendbuf); try done.
  - intros r Hr. destruct (Hlen r Hr). lia.
  - intros r sh' Hr. cbn [MPI_Gather hk_start]. unfold guarded. rewrite (use_cxl_node n sz gs sh) by done. done.
  - intros r g sh' Hr Hlk Hblk. destruct (like_world _ _ Hlk) as (_ & Hrk & _), (nd_rank _ _ _ _ Hnode r Hr) as [Hrr _].
    cbn [MPI_Gather hk_read]. rewrite Hrk, Hrr. destruct (Z.eqb_spec r root) as [Heq|]; [|done].
    apply (read_whole bytes sendbuf r); [done..| |done|destruct (Hlen r Hr) as [_ H]; by apply H]. intros k Hk. by destruct (Hlen k Hk).
Qed.

(** [MPI_Alltoall]: rank [k] gets block [k] of every rank, by rank. *)
Lemma alltoall_completes count ty rcount rty sendbuf recvbuf :
  let bytes := bytes_of count ty in
  bytes_of rcount rty = bytes → 0 < bytes → block_size (n * bytes) → bytes <= cxl_direct_max_bytes env →
  h_alloc_offset (sh_header sh) + n * round_up (n * bytes) <= sz →
  (∀ r, 0 <= r < n → length (sendbuf r) = (Z.to_nat n * Z.to_nat bytes)%nat ∧ length (recvbuf r) = (Z.to_nat n * Z.to_nat bytes)%nat) →
  outcome (λ r, MPI_Alltoall env true (sendbuf r) count ty (recvbuf r) rcount rty) n order gs sh =
    Completed ((λ k, concat ((λ r, take (Z.to_nat bytes) (drop (Z.to_nat (k * bytes)) (sendbuf r))) <$> seqZ 0 n)) <$> seqZ 0 n).
Proof using Hnode Hord.
  intros bytes Hrb Hbp Hb Hmax Hfit Hlen. pose proof Hb as [Hb0 Hb1]. pose proof (nd_n _ _ _ _ Hnode) as Hn.
  assert (Z.to_nat (n * bytes) = (Z.to_nat n * Z.to_nat bytes)%nat) as Hnb by (rewrite Z2Nat.inj_mul by lia; done).
  eapply contribute_completes with (bytes := n * bytes) (data := sendbuf); try done.
  - intros r Hr. destruct (Hlen r Hr). lia.
  - intros r sh' Hr. destruct (nd_rank _ _ _ _ Hnode r Hr) as [_ Hwn]. cbn [MPI_Alltoall hk_start]. unfold guarded.
    rewrite (use_cxl_node n sz gs sh) by done. rewrite Hwn. fold bytes. rewrite (u64_small n) by mlia.
    rewrite (Z.mul_comm bytes), u64_small by mlia. done.
  - intros r g sh' Hr Hlk Hblk. destruct (like_world _ _ Hlk) as (Hw & Hrk & Hs).
    destruct (nd_mapped _ _ _ _ Hnode r Hr) as [Hm Hsz], (nd_rank _ _ _ _ Hnode r Hr) as [Hrr Hwn]. cbn [MPI_Alltoall hk_read].
    rewrite Hw, Hwn, Hrk, Hrr, Hrb. fold bytes.
    rewrite (read_all_exact sz _ _ n (r * bytes) _ sendbuf); [done|by eapply like_mapped|congruence|lia|nia|lia| |by destruct (Hlen r Hr)].
    intros k Hk. destruct (Hlen k Hk) as [Hl _]. specialize (Hblk k Hk). rewrite take_ge in Hblk by lia. split; [done|].
    rewrite Hl. rewrite Z2Nat.inj_mul by lia. assert (Z.to_nat r < Z.to_nat n)%nat by lia. nia.
Qed.

(** *** Rooted collectives *)

(** A rank that registers [NULL]. *)
Definition null_entry (r : Z) (sh : Shm) : Shm :=
  set_header (set_coll_data_rptr (<[Z.to_nat r := CXL_RPTR_NULL]> (h_coll_data_rptr (sh_header sh))) (sh_header sh)) sh.

Lemma offer_other root bytes buf r sh' : 0 <= r < n → r ≠ root → offer root bytes buf (gs r) sh' = (gs r, null_entry r sh', ToBarrier).
Proof using Hnode.
  intros Hr Hne. destruct (nd_rank _ _ _ _ Hnode r Hr) as [Hrk _], (nd_mapped _ _ _ _ Hnode r Hr) as [Hm _]. pose proof (nd_n _ _ _ _ Hnode).
  unfold offer. rewrite Hrk, (proj2 (Z.eqb_neq _ _)) by done. rewrite register_eq by (done || lia).  by rewrite ptr_to_rptr_null, Hrk.
Qed.

Lemma offer_root root bytes buf sh' :
  0 <= root < n → block_size bytes → 0 <= h_alloc_offset (sh_header sh') < 4611686018427387904 →
  offer root bytes buf (gs root) sh' =
    if h_alloc_offset (sh_header sh') + round_up bytes <=? sz then
      (set_used (h_alloc_offset (sh_header sh') + round_up bytes) (gs root), with_block root (round_up bytes) (take (Z.to_nat bytes) buf) sh', ToBarrier)
    else (gs root, null_entry root sh', ToBarrier).
Proof using Hnode.
  intros Hr Hb Ho. destruct (nd_rank _ _ _ _ Hnode root Hr) as [Hrk _], (nd_mapped _ _ _ _ Hnode root Hr) as [Hm Hsz]. pose proof (nd_n _ _ _ _ Hnode).
  pose proof (nd_size _ _ _ _ Hnode). destruct (Z.leb_spec (h_alloc_offset (sh_header sh') + round_up bytes) sz) as [Hfit|Hno].
  - pose proof (contribute_eq sz sh' root (gs root) bytes buf Hm Hsz Hrk ltac:(lia) ltac:(done) Hb ltac:(lia) Hfit) as Hc.
    unfold contribute in Hc. unfold offer. rewrite Hrk, Z.eqb_refl. destruct (allocate_cxl_memory bytes (gs root) sh') as [[g1 sh1] p].
    destruct (p =? 0); [done|]. exact Hc.
  - destruct Hb as [Hb0 Hb1]. unfold offer. rewrite Hrk, Z.eqb_refl. rewrite allocate_spec by (done || lia). cbn zeta. rewrite Hsz.
    rewrite (proj2 (Z.leb_gt _ _)) by lia. cbn. rewrite Hrk, register_eq by (done || lia). by rewrite ptr_to_rptr_null.
Qed.

Lemma null_entry_block r r' d sh' : block_at sz sh' r d → r ≠ r' → 0 <= r → 0 <= r' → block_at sz (null_entry r' sh') r d.
Proof using. intros (off & Hl & H) Hne Hr Hr'. exists off. cbn. rewrite list_lookup_insert_ne by lia. done. Qed.

(** The first parts of a rooted collective: what the root leaves in its entry
    stays there. *)
Lemma run_offer (P : Shm → Prop) hooks root o todo l gs1 sh1 :
  (∀ r sh', 0 <= r < n → r ≠ root → hk_start (hooks r) (gs r) sh' = (gs r, null_entry r sh', ToBarrier)) →
  (∀ sh', length (h_coll_data_rptr (sh_header sh')) = 256%nat → h_alloc_offset (sh_header sh') = o →
     ∃ u sh2, hk_start (hooks root) (gs root) sh' = (set_used u (gs root), sh2, ToBarrier) ∧ length (h_coll_data_rptr (sh_header sh2)) = 256%nat ∧ P sh2) →
  (∀ r sh', 0 <= r < n → r ≠ root → P sh' → P (null_entry r sh')) →
  NoDup (l ++ todo) → Forall (λ r, 0 <= r < n) (l ++ todo) →
  length (h_coll_data_rptr (sh_header sh1)) = 256%nat → (root ∉ l → h_alloc_offset (sh_header sh1) = o) → (root ∈ l → P sh1) →
  (∀ r, like (gs r) (gs1 r)) → (∀ r, r ∉ l → gs1 r = gs r) →
  ∃ gs2 sh2, run_starts hooks todo gs1 sh1 = (gs2, sh2, replicate (length todo) ToBarrier) ∧ (root ∈ l ++ todo → P sh2) ∧ ∀ r, like (gs r) (gs2 r).
Proof using Hnode Hord.
  intros Hother Hroot Hstable. revert l gs1 sh1. induction todo as [|r todo IH]; intros l gs1 sh1 Hnd Hrange Hlen Ho HP Hlike Hsame; cbn [run_starts].
  { exists gs1, sh1. rewrite app_nil_r. done. }
  assert (0 <= r < n) as Hr by (rewrite Forall_forall in Hrange; apply Hrange; set_solver).
  assert (r ∉ l) as Hrl by (intros Hin; apply NoDup_app in Hnd as (_ & H & _); apply (H r Hin); set_solver).
  rewrite Hsame by done. replace (l ++ r :: todo) with ((l ++ [r]) ++ todo) in * by by rewrite <- app_assoc.
  assert (∃ u sh2, hk_start (hooks r) (gs r) sh1 = (set_used u (gs r), sh2, ToBarrier) ∧ length (h_coll_data_rptr (sh_header sh2)) = 256%nat ∧
    (root ∉ l ++ [r] → h_alloc_offset (sh_header sh2) = o) ∧ (root ∈ l ++ [r] → P sh2)) as (u & sh2 & Hst & Hlen2 & Ho2 & HP2).
  { destruct (decide (r = root)) as [->|Hne].
    - destruct (Hroot sh1 Hlen (Ho Hrl)) as (u & sh2 & H1 & H2 & H3). exists u, sh2. split_and!; [done..|set_solver|done].
    - exists (g_used (gs r)), (null_entry r sh1). rewrite Hother by done. split_and!.
      + by destruct (gs r).
      + cbn. by rewrite length_insert.
      + intros H. apply Ho. set_solver.
      + intros H. apply Hstable; [done..|]. apply HP. set_solver. }
  rewrite Hst. destruct (IH (l ++ [r]) (λ k, if k =? r then set_used u (gs r) else gs1 k) sh2) as (gs2 & sh3 & Hrun & HP3 & Hlike3); try done.
  - intros k. destruct (Z.eqb_spec k r) as [->|]; [by eexists|apply Hlike].
  - intros k Hk. rewrite (proj2 (Z.eqb_neq k r)) by set_solver. apply Hsame. set_solver.
  - exists gs2, sh3. by rewrite Hrun.
Qed.

(** All first parts of a rooted collective. *)
Lemma all_offer (P : Shm → Prop) hooks root bytes buf :
  0 <= root < n → block_size bytes →
  (∀ r sh', 0 <= r < n → hk_start (hooks r) (gs r) sh' = offer root bytes (buf r) (gs r) sh') →
  (∀ r sh', 0 <= r < n → r ≠ root → P sh' → P (null_entry r sh')) →
  (∀ sh', length (h_coll_data_rptr (sh_header sh')) = 256%nat → h_alloc_offset (sh_header sh') = h_alloc_offset (sh_header sh) →
     P (if h_alloc_offset (sh_header sh') + round_up bytes <=? sz then with_block root (round_up bytes) (take (Z.to_nat bytes) (buf root)) sh' else null_entry root sh')) →
  ∃ gs2 sh2, run_starts hooks order gs sh = (gs2, sh2, replicate (length order) ToBarrier) ∧ P sh2 ∧ ∀ r, like (gs r) (gs2 r).
Proof using Hnode Hord.
  intros Hroot Hb Hhk Hstable HP. pose proof (nd_offset _ _ _ _ Hnode) as Ho. pose proof (nd_size _ _ _ _ Hnode) as Hsm.
  destruct (run_offer P hooks root (h_alloc_offset (sh_header sh)) order [] gs sh) as (gs2 & sh2 & Hrun & HP2 & Hlike).
  - intros r sh' Hr Hne. rewrite Hhk by done. by apply offer_other.
  - intros sh' Hlen Hoff. specialize (HP sh' Hlen Hoff). rewrite Hhk, offer_root by (done || lia). destruct (_ <=? sz); eexists _, _.
    + split; [done|]. split; [cbn; by rewrite length_insert|done].
    + split; [rewrite <- (set_used_id (gs root)) at 1; done|]. split; [cbn; by rewrite length_insert|done].
  - done.
  - cbn. rewrite Hord. apply NoDup_seqZ.
  - cbn. rewrite Hord. apply Forall_forall. intros k Hk%elem_of_seqZ. lia.
  - apply Hnode.
  - done.
  - intros H. by apply not_elem_of_nil in H.
  - intros r. apply like_refl.
  - done.
  - exists gs2, sh2. split_and!; [done| |done]. apply HP2. cbn. rewrite Hord. apply elem_of_seqZ. lia.
Qed.

Lemma outcome_reads hooks gs2 sh2 k :
  run_starts hooks order gs sh = (gs2, sh2, replicate k ToBarrier) →
  outcome hooks n order gs sh =
    settle ((λ r, hk_read (hooks r) (gs2 r) sh2) <$> seqZ 0 n).
Proof using. intros Hrun. unfold outcome. by rewrite Hrun, forallb_barriers. Qed.

Lemma outcome_completed hooks gs2 sh2 k res :
  run_starts hooks order gs sh = (gs2, sh2, replicate k ToBarrier) →
  (∀ r, 0 <= r < n → hk_read (hooks r) (gs2 r) sh2 = Filled (res r)) → outcome hooks n order gs sh = Completed (res <$> seqZ 0 n).
Proof using.
  intros Hrun Hread. rewrite (outcome_reads _ _ _ _ Hrun). rewrite (fmap_ext_in _ (λ r, Filled (res r))).
  - apply settle_filled.
  - intros r Hr%elem_of_seqZ. apply Hread. lia.
Qed.

(** Reading the root's block. *)
Lemma read_root root d r g sh2 skip bytes :
  0 <= root < n → 0 <= r < n → like (gs r) g → block_at sz sh2 root d → 0 <= skip → 0 <= bytes → (Z.to_nat skip + Z.to_nat bytes ≤ length d)%nat →
  cxl_collective_get_buffer root g sh2 ≠ 0 ∧
  read_ptr g (cxl_collective_get_buffer root g sh2 + skip) bytes sh2 = take (Z.to_nat bytes) (drop (Z.to_nat skip) d).
Proof using Hnode.
  intros Hroot Hr Hlk Hblk Hs Hb Hl. destruct (nd_mapped _ _ _ _ Hnode r Hr) as [Hm Hsz], (like_world _ _ Hlk) as (_ & _ & Hsz').
  pose proof (nd_n _ _ _ _ Hnode). pose proof (read_part sz sh2 root d g skip (Z.to_nat bytes)) as Hp. rewrite Z2Nat.id in Hp by done.
  apply Hp; [by eapply like_mapped|congruence|lia|done..].
Qed.

Lemma paste_whole d e : length d = length e → paste 0 d e = d.
Proof using. intros H. unfold paste. change (Z.to_nat 0) with 0%nat. rewrite take_0, Nat.add_0_l, H, drop_all. apply app_nil_r. Qed.

(** [MPI_Bcast]: every rank gets the buffer of the root. *)
Lemma bcast_completes count ty buffer root :
  let bytes := bytes_of count ty in
  0 <= root < n → block_size bytes → bytes <= cxl_direct_max_bytes env → h_alloc_offset (sh_header sh) + round_up bytes <= sz →
  (∀ r, 0 <= r < n → length (buffer r) = Z.to_nat bytes) →
  outcome (λ r, MPI_Bcast env true (buffer r) count ty root) n order gs sh = Completed ((λ _, buffer root) <$> seqZ 0 n).
Proof using Hnode Hord.
  intros bytes Hroot Hb Hmax Hfit Hlen. pose proof Hb as [Hb0 _]. pose proof (nd_offset _ _ _ _ Hnode). pose proof (nd_n _ _ _ _ Hnode).
  destruct (all_offer (λ sh', block_at sz sh' root (buffer root)) (λ r, MPI_Bcast env true (buffer r) count ty root) root bytes buffer)
    as (gs2 & sh2 & Hrun & Hblk & Hlike); [done|done| | | |].
  - intros r sh' Hr. cbn [MPI_Bcast hk_start]. unfold guarded. by rewrite (use_cxl_node n sz gs sh) by done.
  - intros r sh' Hr Hne HP. apply null_entry_block; [done..|lia|lia].
  - intros sh' Hl Ho. rewrite Ho, (proj2 (Z.leb_le _ _)) by done. rewrite take_ge by (rewrite Hlen; lia).
    pose proof (block_size_round _ Hb). apply with_block_new; try (done || lia). rewrite Hlen by done. lia.
  - eapply outcome_completed; [done|]. intros r Hr. destruct (like_world _ _ (Hlike r)) as (_ & Hrk & _), (nd_rank _ _ _ _ Hnode r Hr) as [Hrr _].
    cbn [MPI_Bcast hk_read]. rewrite Hrk, Hrr. destruct (Z.eqb_spec r root) as [->|Hne]; [done|].
    destruct (read_root root (buffer root) r (gs2 r) sh2 0 bytes) as [Hnz Hrd]; try (done || lia); [rewrite Hlen by done; lia|].
    rewrite (proj2 (Z.eqb_neq _ _)) by done. rewrite Z.add_0_r in Hrd. fold bytes. rewrite Hrd. cbn. rewrite drop_0, take_ge by (rewrite Hlen; lia).
    rewrite paste_whole; [done|]. by rewrite !Hlen.
Qed.

(** [MPI_Scatter]: rank [r] gets block [r] of the root's buffer. *)
Lemma scatter_completes count ty sendbuf recvbuf root :
  let bytes := bytes_of count ty in
  0 <= root < n → 0 < bytes → block_size (n * bytes) → bytes <= cxl_direct_max_bytes env → h_alloc_offset (sh_header sh) + round_up (n * bytes) <= sz →
  length (sendbuf root) = (Z.to_nat n * Z.to_nat bytes)%nat → (∀ r, 0 <= r < n → length (recvbuf r) = Z.to_nat bytes) →
  outcome (λ r, MPI_Scatter env true (sendbuf r) count ty (recvbuf r) root) n order gs sh =
    Completed ((λ r, take (Z.to_nat bytes) (drop (Z.to_nat (r * bytes)) (sendbuf root))) <$> seqZ 0 n).
Proof using Hnode Hord.
  intros bytes Hroot Hbp Hb Hmax Hfit Hlen Hrlen. pose proof Hb as [Hb0 Hb1]. pose proof (nd_offset _ _ _ _ Hnode). pose proof (nd_n _ _ _ _ Hnode) as Hn.
  assert (Z.to_nat (n * bytes) = (Z.to_nat n * Z.to_nat bytes)%nat) as Hnb by (rewrite Z2Nat.inj_mul by lia; done).
  destruct (all_offer (λ sh', block_at sz sh' root (sendbuf root)) (λ r, MPI_Scatter env true (sendbuf r) count ty (recvbuf r) root) root (n * bytes) sendbuf)
    as (gs2 & sh2 & Hrun & Hblk & Hlike); [done|done| | | |].
  - intros r sh' Hr. destruct (nd_rank _ _ _ _ Hnode r Hr) as [_ Hwn]. cbn [MPI_Scatter hk_start]. unfold guarded.
    rewrite (use_cxl_node n sz gs sh) by done. rewrite Hwn. fold bytes. rewrite (u64_small n) by mlia. rewrite (Z.mul_comm bytes), u64_small by mlia. done.
  - intros r sh' Hr Hne HP. apply null_entry_block; [done..|lia|lia].
  - intros sh' Hl Ho. rewrite Ho, (proj2 (Z.leb_le _ _)) by done. rewrite take_ge by lia.
    pose proof (block_size_round _ Hb). apply with_block_new; try (done || lia).
  - eapply outcome_completed; [done|]. intros r Hr. destruct (like_world _ _ (Hlike r)) as (_ & Hrk & _), (nd_rank _ _ _ _ Hnode r Hr) as [Hrr _].
    cbn [MPI_Scatter hk_read]. rewrite Hrk, Hrr. fold bytes.
    assert (Z.to_nat (r * bytes) + Z.to_nat bytes ≤ length (sendbuf root))%nat as Hin.
    { rewrite Hlen, Z2Nat.inj_mul by lia. assert (Z.to_nat r < Z.to_nat n)%nat by lia. nia. }
    destruct (read_root root (sendbuf root) r (gs2 r) sh2 (r * bytes) bytes) as [Hnz Hrd]; try (done || lia).
    rewrite (proj2 (Z.eqb_neq _ _)) by done. rewrite Hrd. rewrite paste_whole; [done|]. rewrite length_take, length_drop, Hrlen by done. lia.
Qed.

(** *** [MPI_Allreduce] *)

(** What a rank adds to its own data, in order. *)
Definition others (r : Z) : list Z := keep (λ k, negb (k =? r)) (seqZ 0 n).
Fixpoint add_all (ty : MPI_Datatype) (count : nat) (bufs : list (list Z)) (acc : list Z) : option (list Z) :=
  match bufs with
  | [] => Some acc
  | buf :: bufs' => acc1 ← add_elements ty count acc buf; add_all ty count bufs' acc1
  end.
Definition reduced (ty : MPI_Datatype) (count : Z) (sendbuf : Z → list Z) (r : Z) : option (list Z) :=
  add_all ty (Z.to_nat count) (sendbuf <$> others r) (sendbuf r).
Definition reading (res : option (list Z)) : Reading := match res with Some buf => Filled buf | None => Undefined end.

Lemma reduce_all_exact ty count bytes sendbuf r g sh2 ranks buf :
  0 <= r < n → like (gs r) g → 0 <= bytes → Forall (λ k, 0 <= k < n) ranks →
  (∀ k, 0 <= k < n → length (sendbuf k) = Z.to_nat bytes) → (∀ k, 0 <= k < n → block_at sz sh2 k (sendbuf k)) →
  reduce_all ty count bytes ranks g sh2 buf = reading (add_all ty (Z.to_nat count) (sendbuf <$> keep (λ k, negb (k =? r)) ranks) buf).
Proof using Hnode.
  intros Hr Hlk Hb Hranks Hlen Hblk. destruct (like_world _ _ Hlk) as (_ & Hrk & _), (nd_rank _ _ _ _ Hnode r Hr) as [Hrr _].
  revert buf. induction Hranks as [|k ranks Hk _ IH]; intros buf; [done|]. cbn [reduce_all]. rewrite Hrk, Hrr, keep_cons.
  destruct (Z.eqb_spec k r) as [->|Hne]; cbn [negb]; [apply IH|].
  destruct (read_root k (sendbuf k) r g sh2 0 bytes) as [Hnz Hrd]; try (done || lia); [by apply Hblk|rewrite Hlen by done; lia|].
  rewrite (proj2 (Z.eqb_neq _ _)) by done. rewrite Z.add_0_r in Hrd. rewrite Hrd, fmap_cons. cbn [add_all]. change (Z.to_nat 0) with 0%nat.
  rewrite drop_0, take_ge by (rewrite Hlen; lia). destruct (add_elements _ _ _ _); cbn; [apply IH|done].
Qed.

Lemma allreduce_completes count ty sendbuf recvbuf res :
  let bytes := bytes_of count ty in
  (∀ r, 0 <= r < n → reduced ty count sendbuf r = Some (res r)) → can_add ty = true → block_size bytes → bytes <= cxl_direct_max_bytes env → h_alloc_offset (sh_header sh) + n * round_up bytes <= sz →
  (∀ r, 0 <= r < n → length (sendbuf r) = Z.to_nat bytes ∧ length (recvbuf r) = Z.to_nat bytes) →
  outcome (λ r, MPI_Allreduce env true false (sendbuf r) (recvbuf r) count ty MPI_SUM) n order gs sh =
    Completed (res <$> seqZ 0 n).
Proof using Hnode Hord.
  intros bytes Hres Hty Hb Hmax Hfit Hlen. pose proof Hb as [Hb0 Hb1].
  eapply contribute_completes with (bytes := bytes) (data := sendbuf); try done.
  - intros r Hr. destruct (Hlen r Hr). lia.
  - intros r sh' Hr. cbn [MPI_Allreduce hk_start]. unfold guarded. rewrite (use_cxl_node n sz gs sh), Hty by done. done.
  - intros r g sh' Hr Hlk Hblk. destruct (like_world _ _ Hlk) as (Hw & _ & _), (nd_rank _ _ _ _ Hnode r Hr) as [_ Hwn].
    cbn [MPI_Allreduce hk_read]. rewrite Hw, Hwn. destruct (Hlen r Hr) as [Hl1 Hl2]. fold bytes.
    rewrite take_ge by lia. rewrite paste_whole by congruence. rewrite (reduce_all_exact ty count bytes sendbuf r); [|done|done|lia| | |].
    + fold (others r). fold (reduced ty count sendbuf r). by rewrite Hres.
    + apply Forall_forall. intros k Hk%elem_of_seqZ. lia.
    + intros k Hk. by destruct (Hlen k Hk).
    + intros k Hk. destruct (Hlen k Hk). specialize (Hblk k Hk). by rewrite take_ge in Hblk by lia.
Qed.
End exact.

(** ** Sums of integers *)

(** Element [i] of a buffer of elements of [w] bytes. *)
Definition elem (w i : nat) (buf : list Z) : Z := le_decode (take w (drop (i * w) buf)).

Definition is_int (ty : MPI_Datatype) : bool := match ty with MPI_INT | MPI_LONG | MPI_LONG_LONG => true | _ => false end.

(** Its value as a signed integer. *)
Definition selem (ty : MPI_Datatype) (i : nat) (buf : list Z) : Z :=
  signed (8 * safe_type_size ty) (elem (Z.to_nat (safe_type_size ty)) i buf).

(** Half of the values of a type. *)
Definition half (ty : MPI_Datatype) : Z := 2 ^ (8 * safe_type_size ty - 1).

Lemma signed_mod w x : 0 < w → - 2 ^ (w - 1) <= x < 2 ^ (w - 1) → signed w (x mod 2 ^ w) = x.
Proof.
  intros Hw Hx. assert (2 ^ w = 2 * 2 ^ (w - 1)) as Hp by (rewrite <- Z.pow_succ_r by lia; f_equal; lia). unfold signed.
  destruct (Z.le_gt_cases 0 x).
  - rewrite Z.mod_small by lia. by rewrite (proj2 (Z.ltb_lt _ _)) by lia.
  - rewrite <- (Z_mod_plus_full x 1), Z.mod_small by lia. rewrite (proj2 (Z.ltb_ge _ _)) by lia. lia.
Qed.

Lemma add_signed_ok w a b :
  - 2 ^ (w - 1) <= signed w a + signed w b < 2 ^ (w - 1) → add_signed w a b = Some ((signed w a + signed w b) mod 2 ^ w).
Proof. intros H. unfold add_signed. by rewrite (proj2 (Z.leb_le _ _)), (proj2 (Z.ltb_lt _ _)) by lia. Qed.

Lemma add_element_ok ty a b :
  let w := 8 * safe_type_size ty in
  is_int ty = true → - half ty <= signed w a + signed w b < half ty →
  add_element ty a b = Some ((signed w a + signed w b) mod 2 ^ w).
Proof. intros w Hty H. destruct ty; try done; by apply add_signed_ok. Qed.

(** One buffer added to another: every element of the result is the exact sum. *)
Lemma add_elements_ok ty count dst src :
  is_int ty = true → (∀ i, (i < count)%nat → - half ty <= selem ty i dst + selem ty i src < half ty) →
  ∃ res, add_elements ty count dst src = Some res ∧ ∀ i, (i < count)%nat → selem ty i res = selem ty i dst + selem ty i src.
Proof.
  intros Hty. set (w := Z.to_nat (safe_type_size ty)). assert (8 * Z.of_nat w = 8 * safe_type_size ty ∧ 0 < safe_type_size ty) as [Hw Hpos] by (by destruct ty).
  assert (∀ i buf, selem ty (S i) buf = selem ty i (drop w buf)) as Hshift by (intros i buf; unfold selem, elem; fold w; by rewrite drop_drop).
  revert dst src. induction count as [|count IH]; intros dst src H; [exists dst; split; [done|lia]|]. cbn [add_elements]. fold w.
  pose proof (H 0%nat ltac:(lia)) as H0. unfold selem, elem in H0. fold w in H0. rewrite !Nat.mul_0_l, !drop_0 in H0.
  rewrite (add_element_ok ty _ _ Hty H0). set (sum := signed _ _ + signed _ _) in *.
  destruct (IH (drop w dst) (drop w src)) as (rest & Hrest & Hsum); [intros i Hi; rewrite <- !Hshift; apply H; lia|].
  cbn [mbind option_bind]. rewrite Hrest. eexists. split; [done|]. intros [|i] Hi.
  - unfold selem, elem. fold w. rewrite !Nat.mul_0_l, !drop_0. rewrite take_app_le, take_ge, le_decode_encode by by rewrite le_encode_length.
    change 256 with (2 ^ 8). rewrite <- Z.pow_mul_r, Hw, Z.mod_mod by (try apply Z.pow_nonzero; lia). apply signed_mod; [lia|done].
  - rewrite !Hshift. rewrite <- Hsum by lia. rewrite drop_app_length' by by rewrite le_encode_length. done.
Qed.

(** The running sum of the buffers stays within these bounds. *)
Definition highest (xs : list Z) : Z := zsum (Z.max 0 <$> xs).
Definition lowest (xs : list Z) : Z := zsum (Z.min 0 <$> xs).

Lemma highest_cons x xs : highest (x :: xs) = Z.max 0 x + highest xs.
Proof. done. Qed.

Lemma lowest_cons x xs : lowest (x :: xs) = Z.min 0 x + lowest xs.
Proof. done. Qed.

Lemma highest_pos xs : 0 <= highest xs ∧ lowest xs <= 0.
Proof. induction xs as [|x xs [IH1 IH2]]; [done|]. rewrite highest_cons, lowest_cons. lia. Qed.

Lemma add_all_ok ty count bufs acc :
  is_int ty = true →
  (∀ i, (i < count)%nat → - half ty <= selem ty i acc + lowest (selem ty i <$> bufs) ∧ selem ty i acc + highest (selem ty i <$> bufs) < half ty) →
  ∃ res, add_all ty count bufs acc = Some res ∧ ∀ i, (i < count)%nat → selem ty i res = selem ty i acc + zsum (selem ty i <$> bufs).
Proof.
  intros Hty. revert acc. induction bufs as [|buf bufs IH]; intros acc H.
  { exists acc. split; [done|]. intros i _. cbn. lia. }
  assert (∀ i, (i < count)%nat → - half ty <= selem ty i acc + selem ty i buf + lowest (selem ty i <$> bufs) ∧
            selem ty i acc + selem ty i buf + highest (selem ty i <$> bufs) < half ty) as H1.
  { intros i Hi. specialize (H i Hi). rewrite fmap_cons, highest_cons, lowest_cons in H. lia. }
  destruct (add_elements_ok ty count acc buf Hty) as (acc1 & Hacc & Hsum).
  { intros i Hi. specialize (H1 i Hi). pose proof (highest_pos (selem ty i <$> bufs)). lia. }
  destruct (IH acc1) as (res & Hres & Htot); [intros i Hi; rewrite Hsum by done; by apply H1|].
  exists res. split; [cbn [add_all]; by rewrite Hacc|]. intros i Hi. rewrite Htot, Hsum, fmap_cons, zsum_cons by done. lia.
Qed.

Lemma others_perm n r : 0 <= r < n → seqZ 0 n ≡ₚ r :: others n r.
Proof.
  intros Hr. unfold others. assert (NoDup (seqZ 0 n)) as Hnd by apply NoDup_seqZ. assert (r ∈ seqZ 0 n) as Hin by (apply elem_of_seqZ; lia).
  revert Hnd Hin. generalize (seqZ 0 n). intros l. induction l as [|x l IH]; intros Hnd Hin; [by apply not_elem_of_nil in Hin|].
  apply NoDup_cons in Hnd as [Hx Hnd]. rewrite keep_cons. destruct (Z.eqb_spec x r) as [->|Hne]; cbn [negb].
  - f_equiv. rewrite keep_all; [done|]. intros y Hy. apply negb_true_iff, Z.eqb_neq. intros ->. done.
  - rewrite Permutation_swap. f_equiv. apply IH; [done|set_solver].
Qed.

(** ** What the collectives promise *)

(** The data a node works on: a count of elements whose bytes fit everywhere. *)
Record fitting (sz : Z) (sh : Shm) (env : option Z) (bytes blocks each : Z) : Prop := {
  ft_size : block_size each;
  ft_small : 0 < bytes <= cxl_direct_max_bytes env;
  ft_memory : h_alloc_offset (sh_header sh) + blocks * round_up each <= sz
}.

(** C15. Gathering among the ranks of one node ([node], at most 64) on the world
    communicator: with memory for one block for each rank, blocks of at least one
    byte and at most [cxl_direct_max_bytes], and buffers of the size that
    [safe_type_size] gives (a type it does not know counts as four bytes), in any
    order of the ranks [MPI_Allgather] gives every rank the data of all ranks in
    order, [MPI_Gather] gives it to the root and leaves the other buffers
    alone. *)
Theorem gather_exact n sz gs sh order env count ty sendbuf recvbuf root
    (Hnode : node n sz gs sh) (Hord : order ≡ₚ seqZ 0 n) (Hfit : fitting sz sh env (bytes_of count ty) n (bytes_of count ty))
    (Hsend : ∀ r, 0 <= r < n → length (sendbuf r) = Z.to_nat (bytes_of count ty))
    (Hrecv : ∀ r, 0 <= r < n → length (recvbuf r) = (Z.to_nat n * Z.to_nat (bytes_of count ty))%nat) :
  outcome (λ r, MPI_Allgather env true false (sendbuf r) count ty (recvbuf r)) n order gs sh =
    Completed ((λ _, concat (sendbuf <$> seqZ 0 n)) <$> seqZ 0 n) ∧
  outcome (λ r, MPI_Gather env true (sendbuf r) count ty (recvbuf r) root) n order gs sh =
    Completed ((λ r, if r =? root then concat (sendbuf <$> seqZ 0 n) else recvbuf r) <$> seqZ 0 n).
Proof.
  destruct Hfit as [Hs Hsm Hm]. split; [eapply allgather_completes|eapply gather_completes]; try done; try lia; intros r Hr; auto.
Qed.

(** [MPI_Alltoall] transposes: block [r] of the result of rank [k] is block
    [k] of the data of rank [r]. *)
Theorem alltoall_exact n sz gs sh order env count ty rcount rty sendbuf recvbuf
    (Hnode : node n sz gs sh) (Hord : order ≡ₚ seqZ 0 n) (Hfit : fitting sz sh env (bytes_of count ty) n (n * bytes_of count ty))
    (Hsame : bytes_of rcount rty = bytes_of count ty)
    (Hlen : ∀ r, 0 <= r < n → length (sendbuf r) = (Z.to_nat n * Z.to_nat (bytes_of count ty))%nat ∧
                              length (recvbuf r) = (Z.to_nat n * Z.to_nat (bytes_of count ty))%nat) :
  outcome (λ r, MPI_Alltoall env true (sendbuf r) count ty (recvbuf r) rcount rty) n order gs sh =
    Completed ((λ k, concat ((λ r, take (Z.to_nat (bytes_of count ty)) (drop (Z.to_nat (k * bytes_of count ty)) (sendbuf r))) <$> seqZ 0 n)) <$> seqZ 0 n).
Proof. destruct Hfit as [Hs Hsm Hm]. eapply alltoall_completes; try done; lia. Qed.

(** C16. Rooted collectives among the ranks of one node ([node], at most 64) on the
    world communicator: with memory for the root's block, parts of at least one byte
    and at most [cxl_direct_max_bytes], and buffers of the size that
    [safe_type_size] gives (a type it does not know counts as four bytes), in any
    order of the ranks [MPI_Bcast] gives every rank the root's buffer and
    [MPI_Scatter] gives rank [r] its block [r]. *)
Theorem rooted_exact n sz gs sh order env count ty buffer sendbuf recvbuf root
    (Hnode : node n sz gs sh) (Hord : order ≡ₚ seqZ 0 n) (Hroot : 0 <= root < n)
    (Hfit : fitting sz sh env (bytes_of count ty) 1 (n * bytes_of count ty))
    (Hbuf : ∀ r, 0 <= r < n → length (buffer r) = Z.to_nat (bytes_of count ty))
    (Hsend : length (sendbuf root) = (Z.to_nat n * Z.to_nat (bytes_of count ty))%nat)
    (Hrecv : ∀ r, 0 <= r < n → length (recvbuf r) = Z.to_nat (bytes_of count ty)) :
  outcome (λ r, MPI_Bcast env true (buffer r) count ty root) n order gs sh = Completed ((λ _, buffer root) <$> seqZ 0 n) ∧
  outcome (λ r, MPI_Scatter env true (sendbuf r) count ty (recvbuf r) root) n order gs sh =
    Completed ((λ r, take (Z.to_nat (bytes_of count ty)) (drop (Z.to_nat (r * bytes_of count ty)) (sendbuf root))) <$> seqZ 0 n).
Proof.
  destruct Hfit as [[Hs0 Hs1] Hsm Hm]. pose proof (nd_n _ _ _ _ Hnode) as Hn.
  assert (bytes_of count ty <= n * bytes_of count ty) as Hle by nia. split.
  - eapply bcast_completes; try done; [split; lia|lia|].
    rewrite round_up_eq in * by lia. pose proof (Z.div_le_mono (bytes_of count ty + 4095) (n * bytes_of count ty + 4095) 4096). lia.
  - eapply scatter_completes; try done; lia.
Qed.

#[global] Instance highest_perm : Proper ((≡ₚ) ==> (=)) highest.
Proof. intros xs ys H. unfold highest. by rewrite H. Qed.

#[global] Instance lowest_perm : Proper ((≡ₚ) ==> (=)) lowest.
Proof. intros xs ys H. unfold lowest. by rewrite H. Qed.

(** No sum of elements [i] of some of the [n] ranks overflows. *)
Definition no_overflow (n : Z) (ty : MPI_Datatype) (sendbuf : Z → list Z) (i : nat) : Prop :=
  let xs := (λ k, selem ty i (sendbuf k)) <$> seqZ 0 n in - half ty <= lowest xs ∧ highest xs < half ty.

Lemma reduced_ok n ty count sendbuf r :
  is_int ty = true → 0 <= r < n → (∀ i, (i < Z.to_nat count)%nat → no_overflow n ty sendbuf i) →
  ∃ res, reduced n ty count sendbuf r = Some res ∧
         ∀ i, (i < Z.to_nat count)%nat → selem ty i res = zsum ((λ k, selem ty i (sendbuf k)) <$> seqZ 0 n).
Proof.
  intros Hty Hr Hno. destruct (add_all_ok ty (Z.to_nat count) (sendbuf <$> others n r) (sendbuf r) Hty) as (res & Hres & Hsum).
  - intros i Hi. specialize (Hno i Hi). unfold no_overflow in Hno. rewrite (others_perm n r Hr), fmap_cons, highest_cons, lowest_cons in Hno.
    rewrite <- list_fmap_compose. unfold compose. lia.
  - exists res. split; [done|]. intros i Hi. rewrite Hsum, (others_perm n r Hr), fmap_cons, zsum_cons by done. by rewrite <- list_fmap_compose.
Qed.

(** A function from the results of all ranks. *)
Lemma choose_results {A} (P : Z → A → Prop) (d : A) (n : nat) :
  (∀ r, 0 <= r < Z.of_nat n → ∃ x, P r x) → ∃ f, ∀ r, 0 <= r < Z.of_nat n → P r (f r).
Proof.
  induction n as [|n IH]; intros H; [exists (λ _, d); lia|].
  destruct IH as [f Hf]; [intros r Hr; apply H; lia|]. destruct (H (Z.of_nat n) ltac:(lia)) as [x Hx].
  exists (λ r, if r =? Z.of_nat n then x else f r). intros r Hr. destruct (Z.eqb_spec r (Z.of_nat n)) as [->|]; [done|]. apply Hf. lia.
Qed.

(** C14. [MPI_Allreduce] with MPI_SUM of MPI_INT, MPI_LONG or MPI_LONG_LONG on the
    world communicator of a node: with memory for one block for each rank, in
    any order of the ranks, every rank gets for each element the exact sum of the
    elements of all ranks, when no sum of some of them overflows (an
    overflow is undefined: [allreduce_overflows]). *)
Theorem allreduce_sums n sz gs sh order env count ty sendbuf recvbuf
    (Hnode : node n sz gs sh) (Hord : order ≡ₚ seqZ 0 n) (Hfit : fitting sz sh env (bytes_of count ty) n (bytes_of count ty))
    (Hty : is_int ty = true)
    (Hlen : ∀ r, 0 <= r < n → length (sendbuf r) = Z.to_nat (bytes_of count ty) ∧ length (recvbuf r) = Z.to_nat (bytes_of count ty))
    (Hno : ∀ i, (i < Z.to_nat count)%nat → no_overflow n ty sendbuf i) :
  ∃ res, outcome (λ r, MPI_Allreduce env true false (sendbuf r) (recvbuf r) count ty MPI_SUM) n order gs sh = Completed (res <$> seqZ 0 n) ∧
         ∀ r i, 0 <= r < n → (i < Z.to_nat count)%nat →
           selem ty i (res r) = zsum ((λ k, selem ty i (sendbuf k)) <$> seqZ 0 n).
Proof.
  destruct Hfit as [Hs Hsm Hm]. pose proof (nd_n _ _ _ _ Hnode) as Hn.
  destruct (choose_results (λ r res, reduced n ty count sendbuf r = Some res ∧
    ∀ i, (i < Z.to_nat count)%nat → selem ty i res = zsum ((λ k, selem ty i (sendbuf k)) <$> seqZ 0 n)) [] (Z.to_nat n)) as [res Hres].
  { intros r Hr. apply reduced_ok; [done|lia|done]. }
  exists res. split; [|intros r i Hr Hi; apply Hres; [lia|done]].
  eapply allreduce_completes; try done; [intros r Hr; apply Hres; lia|by destruct ty|lia].
Qed.

(** ** Without memory *)

Lemma existsb_none {A} (f : A → bool) l : (∀ x, x ∈ l → f x = false) → existsb f l = false.
Proof. intros H. destruct (existsb f l) eqn:E; [|done]. apply existsb_exists in E as (x & Hx%list_elem_of_In & Hf). by rewrite H in Hf. Qed.

Lemma forallb_not {A} (f : A → bool) l x : f x = false → x ∈ l → forallb f l = false.
Proof. intros Hf Hx. destruct (forallb f l) eqn:E; [|done]. rewrite forallb_forall in E. specialize (E x (proj1 (list_elem_of_In _ _) Hx)). congruence. Qed.

Definition null_at (root : Z) (sh : Shm) : Prop := h_coll_data_rptr (sh_header sh) !! Z.to_nat root = Some CXL_RPTR_NULL.

Lemma null_buffer root g sh : mapped g → null_at root sh → cxl_collective_get_buffer root g sh = 0.
Proof.
  intros Hg Hn. unfold cxl_collective_get_buffer. case_match; [done|]. rewrite Hn. cbn. apply rptr_to_ptr_null.
Qed.

Lemma all_offer_null n sz gs sh order hooks root bytes buf :
  node n sz gs sh → order ≡ₚ seqZ 0 n → 0 <= root < n → block_size bytes → sz < h_alloc_offset (sh_header sh) + round_up bytes →
  (∀ r sh', 0 <= r < n → hk_start (hooks r) (gs r) sh' = offer root bytes (buf r) (gs r) sh') →
  ∃ gs2 sh2, run_starts hooks order gs sh = (gs2, sh2, replicate (length order) ToBarrier) ∧ null_at root sh2 ∧ ∀ r, like (gs r) (gs2 r).
Proof.
  intros Hnode Hord Hroot Hb Hno Hhk. eapply (all_offer n sz gs sh order Hnode Hord (null_at root)); try done.
  - intros r sh' Hr Hne HP. unfold null_at in *. cbn. by rewrite list_lookup_insert_ne by lia.
  - intros sh' Hl Ho. rewrite Ho, (proj2 (Z.leb_gt _ _)) by lia. unfold null_at. cbn. apply list_lookup_insert_eq.
    pose proof (nd_n _ _ _ _ Hnode). lia.
Qed.

(** When the root of [MPI_Bcast] has no memory, it goes on to the second
    barrier while all other ranks call MPI's own [MPI_Bcast]: their calls
    never match. *)
Theorem bcast_without_memory n sz gs sh order env count ty buffer root
    (Hnode : node n sz gs sh) (Hord : order ≡ₚ seqZ 0 n) (Hn : 2 <= n) (Hroot : 0 <= root < n) (Hb : block_size (bytes_of count ty))
    (Hmax : bytes_of count ty <= cxl_direct_max_bytes env) (Hno : sz < h_alloc_offset (sh_header sh) + round_up (bytes_of count ty)) :
  outcome (λ r, MPI_Bcast env true (buffer r) count ty root) n order gs sh = Mismatched.
Proof.
  destruct (all_offer_null n sz gs sh order (λ r, MPI_Bcast env true (buffer r) count ty root) root (bytes_of count ty) buffer)
    as (gs2 & sh2 & Hrun & Hnull & Hlike); try done.
  { intros r sh' Hr. cbn [MPI_Bcast hk_start]. unfold guarded. by rewrite (use_cxl_node n sz gs sh) by done. }
  assert (∀ r, 0 <= r < n → hk_read (MPI_Bcast env true (buffer r) count ty root) (gs2 r) sh2 = if r =? root then Filled (buffer r) else CallsOrig) as Hread.
  { intros r Hr. destruct (like_world _ _ (Hlike r)) as (_ & Hrk & _), (nd_rank _ _ _ _ Hnode r Hr) as [Hrr _], (nd_mapped _ _ _ _ Hnode r Hr) as [Hm _].
    cbn [MPI_Bcast hk_read]. rewrite Hrk, Hrr. case_match; [done|]. rewrite null_buffer by (done || by eapply like_mapped). done. }
  rewrite (outcome_reads n gs sh order _ _ _ _ Hrun).
  rewrite (fmap_ext_in _ (λ r, if r =? root then Filled (buffer r) else CallsOrig)) by (intros r Hr%elem_of_seqZ; apply Hread; lia).
  unfold settle. set (reads := _ <$> seqZ 0 n). assert (∀ r, 0 <= r < n → (if r =? root then Filled (buffer r) else CallsOrig) ∈ reads) as Hin.
  { intros r Hr. apply list_elem_of_fmap. exists r. split; [done|]. apply elem_of_seqZ. lia. }
  rewrite (existsb_none is_undefined reads), (forallb_not is_filled reads CallsOrig), (forallb_not _ reads (Filled (buffer root))); [done|..]; try done.
  - specialize (Hin root Hroot). by rewrite Z.eqb_refl in Hin.
  - specialize (Hin (if root =? 0 then 1 else 0) ltac:(case_match; lia)). destruct (Z.eqb_spec root 0); by rewrite (proj2 (Z.eqb_neq _ root)) in Hin by lia.
  - intros x (r & -> & _)%list_elem_of_fmap. by destruct (r =? root).
Qed.

(** When the root of [MPI_Scatter] has no memory, all ranks call MPI's own
    [MPI_Scatter]. *)
Theorem scatter_without_memory n sz gs sh order env count ty sendbuf recvbuf root
    (Hnode : node n sz gs sh) (Hord : order ≡ₚ seqZ 0 n) (Hroot : 0 <= root < n) (Hb : block_size (n * bytes_of count ty))
    (Hb0 : 0 < bytes_of count ty <= cxl_direct_max_bytes env) (Hno : sz < h_alloc_offset (sh_header sh) + round_up (n * bytes_of count ty)) :
  outcome (λ r, MPI_Scatter env true (sendbuf r) count ty (recvbuf r) root) n order gs sh = FellBack.
Proof.
  pose proof (nd_n _ _ _ _ Hnode) as Hn. pose proof Hb as [Hb1 Hb2].
  destruct (all_offer_null n sz gs sh order (λ r, MPI_Scatter env true (sendbuf r) count ty (recvbuf r) root) root (n * bytes_of count ty) sendbuf)
    as (gs2 & sh2 & Hrun & Hnull & Hlike); try done.
  { intros r sh' Hr. destruct (nd_rank _ _ _ _ Hnode r Hr) as [_ Hwn]. cbn [MPI_Scatter hk_start]. unfold guarded.
    rewrite (use_cxl_node n sz gs sh) by (done || lia). rewrite Hwn, (u64_small n) by mlia. rewrite (Z.mul_comm (bytes_of count ty)), u64_small by mlia. done. }
  rewrite (outcome_reads n gs sh order _ _ _ _ Hrun). rewrite (fmap_ext_in _ (λ _, CallsOrig)).
  - unfold settle. set (reads := _ <$> seqZ 0 n). assert (∀ x, x ∈ reads → x = CallsOrig) as Hall by (by intros x (r & -> & _)%list_elem_of_fmap).
    rewrite (existsb_none is_undefined reads), (forallb_not is_filled reads CallsOrig); [|done| |intros x ->%Hall; done].
    + by rewrite (proj2 (forallb_forall _ _)) by (by intros x ->%list_elem_of_In%Hall).
    + apply list_elem_of_fmap. exists 0. split; [done|]. apply elem_of_seqZ. lia.
  - intros r Hr%elem_of_seqZ. destruct (nd_mapped _ _ _ _ Hnode r) as [Hm _]; [lia|]. cbn [MPI_Scatter hk_read].
    rewrite null_buffer by (done || by eapply like_mapped). done.
Qed.

(** ** Observations and witnesses *)

Definition rank_process (n sz r : Z) : cxl_mem_t :=
  {| g_base := 1048576 * (r + 1); g_size := sz; g_used := 0; g_initialized := true; g_dax := true; g_header := true;
     g_my_rank := r; g_world_size := n; g_max_ranks := 256; g_cxl_comm_enabled := true; g_all_ranks_local := true |}.

Definition registered_region : Shm :=
  set_header (set_coll_data_rptr null_rptrs (set_alloc_offset CXL_HEADER_SIZE zero_header)) fresh_region.

Lemma test_node n sz : 1 <= n <= 64 → CXL_HEADER_SIZE <= sz < 1073741824 → node n sz (rank_process n sz) registered_region.
Proof.
  intros Hn Hsz. change CXL_HEADER_SIZE with 5277760 in Hsz. split; try done; [lia|cbn; change CXL_HEADER_SIZE with 5277760; lia|].
  intros r Hr. split; [|done]. split; cbn; (done || lia).
Qed.

Definition room_for_three : Z := CXL_HEADER_SIZE + 3 * 4096.

(** Three ranks add doubles: 1, 2^53 and -2^53.  A rank starts with its own
    number, so the sums are rounded in different orders and the results of the
    ranks differ. *)
Lemma allreduce_ranks_disagree :
  let num x := le_encode 8 (bits_of_float 52 11 (f64_of_Z x)) in
  let sendbuf r := num (if r =? 0 then 1 else if r =? 1 then 9007199254740992 else -9007199254740992) in
  outcome (λ r, MPI_Allreduce None true false (sendbuf r) (replicate 8 0) 1 MPI_DOUBLE MPI_SUM) 3 [0; 1; 2]
    (rank_process 3 room_for_three) registered_region = Completed [num 0; num 0; num 1].
Proof. vm_compute. reflexivity. Qed.

(** A type that is not in the list is taken to have four bytes: of two elements
    of eight bytes, [MPI_Bcast] sends the first one only. *)
Lemma bcast_cuts_derived_types :
  outcome (λ r, MPI_Bcast None true (if r =? 0 then replicate 16 7 else replicate 16 0) 2 (MPI_TYPE 1) 0) 2 [0; 1]
    (rank_process 2 room_for_three) registered_region = Completed [replicate 16 7; replicate 8 7 ++ replicate 8 0].
Proof. vm_compute. reflexivity. Qed.

(** Memory for two blocks and three ranks: two ranks wait at the barrier, the
    third one calls MPI's own function. *)
Lemma gather_partial_memory :
  outcome (λ r, MPI_Allgather None true false [r] 1 MPI_BYTE (replicate 3 0)) 3 [0; 1; 2]
    (rank_process 3 (CXL_HEADER_SIZE + 2 * 4096)) registered_region = Mismatched.
Proof. vm_compute. reflexivity. Qed.

Lemma three_fit : fitting room_for_three registered_region None (bytes_of 1 MPI_INT) 3 (bytes_of 1 MPI_INT).
Proof. by split. Qed.

Lemma three_perm : [2; 0; 1] ≡ₚ seqZ 0 3.
Proof. change (seqZ 0 3) with [0; 1; 2]. rewrite (Permutation_cons_append [0; 1] 2). done. Qed.

Definition test_data (r : Z) : list Z := [r; 0; 0; 0].

Lemma gather_exact_witness :
  outcome (λ r, MPI_Allgather None true false (test_data r) 1 MPI_INT (replicate 12 0)) 3 [2; 0; 1]
    (rank_process 3 room_for_three) registered_region =
  Completed (replicate 3 [0; 0; 0; 0; 1; 0; 0; 0; 2; 0; 0; 0]).
Proof.
  apply (gather_exact 3 room_for_three (rank_process 3 room_for_three) registered_region [2; 0; 1] None 1 MPI_INT test_data (λ _, replicate 12 0) 0
    (test_node 3 room_for_three ltac:(done) ltac:(done)) three_perm three_fit); done.
Defined.

Lemma alltoall_exact_witness :
  outcome (λ r, MPI_Alltoall None true [r; r + 10; r + 20] 1 MPI_BYTE (replicate 3 0) 1 MPI_CHAR) 3 [2; 0; 1]
    (rank_process 3 room_for_three) registered_region = Completed [[0; 1; 2]; [10; 11; 12]; [20; 21; 22]].
Proof.
  apply (alltoall_exact 3 room_for_three (rank_process 3 room_for_three) registered_region [2; 0; 1] None 1 MPI_BYTE 1 MPI_CHAR
    (λ r, [r; r + 10; r + 20]) (λ _, replicate 3 0) (test_node 3 room_for_three ltac:(done) ltac:(done)) three_perm); [by split|done|done].
Defined.

Lemma rooted_exact_witness :
  outcome (λ r, MPI_Bcast None true (test_data r) 1 MPI_INT 2) 3 [2; 0; 1] (rank_process 3 room_for_three) registered_region =
  Completed (replicate 3 (test_data 2)).
Proof.
  apply (rooted_exact 3 room_for_three (rank_process 3 room_for_three) registered_region [2; 0; 1] None 1 MPI_INT test_data (λ _, replicate 12 0) test_data 2
    (test_node 3 room_for_three ltac:(done) ltac:(done)) three_perm); [done|by split|done|done|done].
Defined.

(** Rank [r] has the integers [5 - 4 r] and [r]. *)
Definition test_ints (r : Z) : list Z := le_encode 4 ((5 - 4 * r) mod 2 ^ 32) ++ le_encode 4 r.

Lemma three_ints_fit : fitting room_for_three registered_region None (bytes_of 2 MPI_INT) 3 (bytes_of 2 MPI_INT).
Proof. by split. Qed.

Lemma allreduce_sums_witness :
  ∃ res, outcome (λ r, MPI_Allreduce None true false (test_ints r) (replicate 8 0) 2 MPI_INT MPI_SUM) 3 [2; 0; 1]
           (rank_process 3 room_for_three) registered_region = Completed (res <$> seqZ 0 3) ∧
         ∀ r i, 0 <= r < 3 → (i < 2)%nat → selem MPI_INT i (res r) = 3.
Proof.
  destruct (allreduce_sums 3 room_for_three (rank_process 3 room_for_three) registered_region [2; 0; 1] None 2 MPI_INT test_ints (λ _, replicate 8 0)
    (test_node 3 room_for_three ltac:(done) ltac:(done)) three_perm three_ints_fit) as (res & Hout & Hsum); [done|done| |].
  - intros i Hi. assert (i = 0 ∨ i = 1)%nat as [-> | ->] by (change (Z.to_nat 2) with 2%nat in Hi; lia); split; vm_compute; done.
  - exists res. split; [exact Hout|]. intros r i Hr Hi. rewrite (Hsum r i Hr Hi). destruct i as [|[|i]]; [reflexivity|reflexivity|lia].
Defined.

(** Two ranks add the greatest [int] and 1. *)
Lemma allreduce_overflows :
  outcome (λ r, MPI_Allreduce None true false (le_encode 4 (if r =? 0 then 2147483647 else 1)) (replicate 4 0) 1 MPI_INT MPI_SUM) 2 [0; 1]
    (rank_process 2 room_for_three) registered_region = Undefined_behaviour.
Proof. vm_compute. reflexivity. Qed.

Lemma bcast_without_memory_witness :
  outcome (λ r, MPI_Bcast None true (test_data r) 1 MPI_INT 0) 2 [0; 1] (rank_process 2 CXL_HEADER_SIZE) registered_region = Mismatched.
Proof.
  apply (bcast_without_memory 2 CXL_HEADER_SIZE (rank_process 2 CXL_HEADER_SIZE) registered_region [0; 1] None 1 MPI_INT test_data 0
    (test_node 2 CXL_HEADER_SIZE ltac:(done) ltac:(done))); done.
Defined.

Lemma scatter_without_memory_witness :
  outcome (λ r, MPI_Scatter None true (replicate 8 1) 1 MPI_INT (test_data r) 0) 2 [0; 1] (rank_process 2 CXL_HEADER_SIZE) registered_region = FellBack.
Proof.
  apply (scatter_without_memory 2 CXL_HEADER_SIZE (rank_process 2 CXL_HEADER_SIZE) registered_region [0; 1] None 1 MPI_INT (λ _, replicate 8 1) test_data 0
    (test_node 2 CXL_HEADER_SIZE ltac:(done) ltac:(done))); done.
Defined.
