(* ===== verification/GpuTransport.v ===== *)
(** * Guest CUDA library: the command transport

    Models src/qemu_integration/guest_libcuda/cxl_gpu_transport.c, through which
    a process of the guest gives commands to the GPU, a device in QEMU.  BAR2 of
    the device is mapped into the process and holds registers, a descriptor in
    which a command and its answer are exchanged, and two windows for data.  A
    command is written to the descriptor, announced by a store to the doorbell
    and awaited by polling.

    The device is a parameter, the class [Gpu]: what it does when the doorbell
    rings, after how many polls the process sees it, and what the clock of the
    process shows meanwhile.  [GpuProtocol] states that a device answers the way
    cxl_gpu_cmd.h documents the descriptor.

    The parts of BAR2 do not overlap ([bar2_layout]), so they are fields of a
    record.  The loads of one poll see one state of the descriptor.  [flock]
    keeps other processes away while a command runs; what happens when a process
    gives up on a command is [timeout_confuses]. *)

From S2P Require Import Prelude Bytes.

(** ** Layout of BAR2 *)

Definition CXL_GPU_REG_CMD : Z := 16.
Definition CXL_GPU_REG_CALL_ID : Z := 40.
Definition CXL_GPU_REG_PARAM0 : Z := 64.
Definition CXL_GPU_REG_PARAM7 : Z := 120.
Definition CXL_GPU_REG_RESULT0 : Z := 128.
Definition CXL_GPU_REG_RESULT3 : Z := 152.
Definition CXL_GPU_DATA_OFFSET : Z := 4096.
Definition CXL_GPU_DATA_SIZE : Z := 8388608.
Definition CXL_GPU_DESCRIPTOR_OFFSET : Z := 8392704.
Definition CXL_GPU_DESCRIPTOR_REGION_SIZE : Z := 4096.
Definition CXL_GPU_DESCRIPTOR_WIRE_SIZE : Z := 256.
Definition CXL_GPU_BATCH_DATA_OFFSET : Z := 8396800.
Definition CXL_GPU_BATCH_DATA_SIZE : Z := 33554432.

Definition CXL_GPU_DESCRIPTOR_PROTOCOL_VERSION : Z := 3.
Definition CXL_GPU_DESCRIPTOR_DOORBELL_VALUE : Z := 1.
Definition CXL_GPU_DESCRIPTOR_COMPLETION_COMPLETE : Z := 1.
Definition CXL_GPU_DESCRIPTOR_COMPLETION_ERROR : Z := 2.
Definition CXL_GPU_CMD_CASE_BEGIN : Z := 8.
Definition CXL_GPU_ERROR_UNKNOWN : Z := 999.

Record CXLGPURAMCommandDescriptor := {
  d_protocol_version : Z; d_descriptor_size : Z;
  d_request_submission : Z; d_request_device_generation : Z; d_request_command : Z;
  d_request_call_id : Z; d_request_case_epoch : Z;
  d_params : list Z;
  d_completion_submission : Z; d_completion_device_generation : Z; d_completion_status : Z;
  d_result : Z; d_results : list Z;
  d_active_case_epoch : Z; d_device_generation : Z
}.

Record Bar2 := {
  b_regs : Mem;
  b_data : Mem;
  b_descriptor : CXLGPURAMCommandDescriptor;
  b_batch_data : Mem
}.

(** The mapping of a process.  [t_mapped]: [regs], [data], [descriptor] and
    [batch_data] are set. *)
Record CxlGpuTransport := { t_mapped : bool; t_unusable : bool }.

(** ** Updates *)

Definition set_request (submission generation command epoch : Z) (d : CXLGPURAMCommandDescriptor) : CXLGPURAMCommandDescriptor :=
  {| d_protocol_version := CXL_GPU_DESCRIPTOR_PROTOCOL_VERSION; d_descriptor_size := CXL_GPU_DESCRIPTOR_WIRE_SIZE;
     d_request_submission := submission; d_request_device_generation := generation; d_request_command := command;
     d_request_call_id := d_request_call_id d; d_request_case_epoch := epoch; d_params := d_params d;
     d_completion_submission := d_completion_submission d; d_completion_device_generation := d_completion_device_generation d;
     d_completion_status := d_completion_status d; d_result := d_result d; d_results := d_results d;
     d_active_case_epoch := d_active_case_epoch d; d_device_generation := d_device_generation d |}.

(** The fields that the registers of a process reach. *)
Definition set_arguments (call_id : Z) (params results : list Z) (d : CXLGPURAMCommandDescriptor) : CXLGPURAMCommandDescriptor :=
  {| d_protocol_version := d_protocol_version d; d_descriptor_size := d_descriptor_size d;
     d_request_submission := d_request_submission d; d_request_device_generation := d_request_device_generation d;
     d_request_command := d_request_command d; d_request_call_id := call_id; d_request_case_epoch := d_request_case_epoch d;
     d_params := params; d_completion_submission := d_completion_submission d;
     d_completion_device_generation := d_completion_device_generation d; d_completion_status := d_completion_status d;
     d_result := d_result d; d_results := results; d_active_case_epoch := d_active_case_epoch d;
     d_device_generation := d_device_generation d |}.

Definition set_call_id (v : Z) (d : CXLGPURAMCommandDescriptor) := set_arguments v (d_params d) (d_results d) d.
Definition set_param (i : nat) (v : Z) (d : CXLGPURAMCommandDescriptor) :=
  set_arguments (d_request_call_id d) (<[i := v]> (d_params d)) (d_results d) d.
Definition set_results (i : nat) (v : Z) (d : CXLGPURAMCommandDescriptor) :=
  set_arguments (d_request_call_id d) (d_params d) (<[i := v]> (d_results d)) d.

Definition set_descriptor (d : CXLGPURAMCommandDescriptor) (b : Bar2) : Bar2 :=
  {| b_regs := b_regs b; b_data := b_data b; b_descriptor := d; b_batch_data := b_batch_data b |}.
Definition set_regs (m : Mem) (b : Bar2) : Bar2 :=
  {| b_regs := m; b_data := b_data b; b_descriptor := b_descriptor b; b_batch_data := b_batch_data b |}.
Definition set_data (m : Mem) (b : Bar2) : Bar2 :=
  {| b_regs := b_regs b; b_data := m; b_descriptor := b_descriptor b; b_batch_data := b_batch_data b |}.
Definition set_batch_data (m : Mem) (b : Bar2) : Bar2 :=
  {| b_regs := b_regs b; b_data := b_data b; b_descriptor := b_descriptor b; b_batch_data := m |}.

(** ** Registers *)

Definition is_param (offset : Z) : bool :=
  (CXL_GPU_REG_PARAM0 <=? offset) && (offset <=? CXL_GPU_REG_PARAM7) && ((offset - CXL_GPU_REG_PARAM0) mod 8 =? 0).
Definition is_result (offset : Z) : bool :=
  (CXL_GPU_REG_RESULT0 <=? offset) && (offset <=? CXL_GPU_REG_RESULT3) && ((offset - CXL_GPU_REG_RESULT0) mod 8 =? 0).
Definition param_index (offset : Z) : nat := Z.to_nat ((offset - CXL_GPU_REG_PARAM0) / 8).
Definition result_index (offset : Z) : nat := Z.to_nat ((offset - CXL_GPU_REG_RESULT0) / 8).

Definition cxl_gpu_transport_read32 (b : Bar2) (offset : Z) : Z :=
  if is_param offset then u32 (nth (param_index offset) (d_params (b_descriptor b)) 0)
  else le_decode (ld_bytes (b_regs b) offset 4).

Definition cxl_gpu_transport_read64 (b : Bar2) (offset : Z) : Z :=
  if is_param offset then nth (param_index offset) (d_params (b_descriptor b)) 0
  else if offset =? CXL_GPU_REG_CALL_ID then d_request_call_id (b_descriptor b)
  else if is_result offset then nth (result_index offset) (d_results (b_descriptor b)) 0
  else ld64 (b_regs b) offset.

Definition cxl_gpu_transport_write32 (t : CxlGpuTransport) (offset value : Z) (b : Bar2) : Bar2 :=
  if t_unusable t then b
  else if is_param offset then set_descriptor (set_param (param_index offset) value (b_descriptor b)) b
  else set_regs (st_bytes offset (le_encode 4 value) (b_regs b)) b.

Definition cxl_gpu_transport_write64 (t : CxlGpuTransport) (offset value : Z) (b : Bar2) : Bar2 :=
  if t_unusable t then b
  else if is_param offset then set_descriptor (set_param (param_index offset) value (b_descriptor b)) b
  else if offset =? CXL_GPU_REG_CALL_ID then set_descriptor (set_call_id value (b_descriptor b)) b
  else if is_result offset then set_descriptor (set_results (result_index offset) value (b_descriptor b)) b
  else set_regs (st64 offset value (b_regs b)) b.

(** ** Windows *)

(** [src] points into the memory [mem] of the process. *)
Definition cxl_gpu_transport_data_write (offset src len : Z) (mem : Mem) (b : Bar2) : Bar2 :=
  if (CXL_GPU_DATA_SIZE <? offset) || (CXL_GPU_DATA_SIZE - offset <? len) then b
  else set_data (st_bytes offset (ld_bytes mem src (Z.to_nat len)) (b_data b)) b.

Definition cxl_gpu_transport_data_read (offset dst len : Z) (b : Bar2) (mem : Mem) : Mem :=
  if (CXL_GPU_DATA_SIZE <? offset) || (CXL_GPU_DATA_SIZE - offset <? len) then mem
  else st_bytes dst (ld_bytes (b_data b) offset (Z.to_nat len)) mem.

(** The source of a batch write is given by its bytes, because some of them are
    structures of the caller. *)
Definition cxl_gpu_transport_batch_write (t : CxlGpuTransport) (offset : Z) (src : list Z) (b : Bar2) : option Bar2 :=
  if negb (t_mapped t) || (CXL_GPU_BATCH_DATA_SIZE <? offset) || (CXL_GPU_BATCH_DATA_SIZE - offset <? Z.of_nat (length src)) then None
  else Some (set_batch_data (st_bytes offset src (b_batch_data b)) b).

Definition cxl_gpu_transport_batch_read (t : CxlGpuTransport) (offset len : Z) (b : Bar2) : option (list Z) :=
  if negb (t_mapped t) || (CXL_GPU_BATCH_DATA_SIZE <? offset) || (CXL_GPU_BATCH_DATA_SIZE - offset <? len) then None
  else Some (ld_bytes (b_batch_data b) offset (Z.to_nat len)).

(** ** Polling

    [seen k] is the descriptor at poll [k], [clock j] what [monotonic_ns]
    returns when it is called for the [j]-th time (0: it failed). *)

Definition command_timeout_ns : Z := 60 * 1000000000.
Definition spin_poll_limit : Z := 64.

Inductive Awaited :=
| Answered (d : CXLGPURAMCommandDescriptor) (polls : Z)
| TimedOut (polls : Z).

Definition completed (submission generation : Z) (d : CXLGPURAMCommandDescriptor) : bool :=
  ((d_completion_status d =? CXL_GPU_DESCRIPTOR_COMPLETION_COMPLETE) || (d_completion_status d =? CXL_GPU_DESCRIPTOR_COMPLETION_ERROR)) &&
  (d_completion_submission d =? submission) && (d_completion_device_generation d =? generation).

(** The loop, after [k] polls and [j] readings of the clock. *)
Fixpoint await (fuel : nat) (seen : nat → CXLGPURAMCommandDescriptor) (clock : nat → Z) (submission generation : Z)
    (k j : nat) (deadline_ns : Z) : option Awaited :=
  match fuel with
  | O => None
  | S fuel' =>
      let polls := u32 (Z.of_nat k + 1) in
      if completed submission generation (seen k) then Some (Answered (seen k) polls)
      else
        let now_ns := clock j in
        let '(j, deadline_ns, failed) :=
          if deadline_ns =? 0 then (S j, u64 (now_ns + command_timeout_ns), now_ns =? 0) else (j, deadline_ns, false) in
        if failed then Some (TimedOut polls)
        else if spin_poll_limit <=? polls then
          let now_ns := clock j in
          if (now_ns =? 0) || (deadline_ns <=? now_ns) then Some (TimedOut polls)
          else await fuel' seen clock submission generation (S k) (S j) deadline_ns
        else await fuel' seen clock submission generation (S k) j deadline_ns
  end.

(** ** The device *)

(** What a process sees of a command: BAR2 and its own memory, which the device
    reaches through BAR4, after [an_delay] polls.  [an_fuel] bounds the polls. *)
Record Answer (S : Type) := {
  an_delay : nat; an_clock : nat → Z; an_fuel : nat;
  an_bar : Bar2; an_mem : Mem; an_state : S
}.
Arguments an_delay {S}. Arguments an_clock {S}. Arguments an_fuel {S}.
Arguments an_bar {S}. Arguments an_mem {S}. Arguments an_state {S}.

Class Gpu := {
  gpu_state : Type;
  gpu_exec : Bar2 → Mem → gpu_state → Answer gpu_state
}.

Definition ring_doorbell (b : Bar2) : Bar2 := set_regs (st_bytes CXL_GPU_REG_CMD (le_encode 4 CXL_GPU_DESCRIPTOR_DOORBELL_VALUE) (b_regs b)) b.

Definition with_unusable (v : bool) (t : CxlGpuTransport) : CxlGpuTransport := {| t_mapped := t_mapped t; t_unusable := v |}.

(** [cxl_gpu_transport_execute].  [None]: the fuel of the device did not reach
    the end of the loop.  When the process gives up, the device still finishes. *)
Definition cxl_gpu_transport_execute `{Gpu} (command : Z) (t : CxlGpuTransport) (b : Bar2) (mem : Mem) (st : gpu_state) :
    option (Z * CxlGpuTransport * Bar2 * Mem * gpu_state) :=
  if t_unusable t || negb (t_mapped t) then Some (CXL_GPU_ERROR_UNKNOWN, t, b, mem, st)
  else
    let d := b_descriptor b in
    let generation := d_device_generation d in
    let previous := d_completion_submission d in
    if (generation =? 0) || (previous =? UINT64_MAX) then Some (CXL_GPU_ERROR_UNKNOWN, with_unusable true t, b, mem, st)
    else
      let submission := previous + 1 in
      let epoch := if command =? CXL_GPU_CMD_CASE_BEGIN then 0 else d_active_case_epoch d in
      let b := ring_doorbell (set_descriptor (set_request submission generation command epoch d) b) in
      let a := gpu_exec b mem st in
      let seen k := b_descriptor (if (k <? an_delay a)%nat then b else an_bar a) in
      match await (an_fuel a) seen (an_clock a) submission generation 0 0 0 with
      | Some (Answered d _) =>
          let t := if d_completion_status d =? CXL_GPU_DESCRIPTOR_COMPLETION_ERROR then with_unusable true t else t in
          Some (u32 (d_result d), t, an_bar a, an_mem a, an_state a)
      | Some (TimedOut _) => Some (CXL_GPU_ERROR_UNKNOWN, with_unusable true t, an_bar a, an_mem a, an_state a)
      | None => None
      end.

(** ** The protocol of the descriptor *)

(** BAR2 when a process may give a command. *)
Record bar_ready (b : Bar2) : Prop := {
  br_params : length (d_params (b_descriptor b)) = 8%nat;
  br_results : length (d_results (b_descriptor b)) = 4%nat;
  br_generation : d_device_generation (b_descriptor b) ≠ 0;
  br_submission : 0 <= d_completion_submission (b_descriptor b)
}.

(** A command that was announced. *)
Definition requested (b : Bar2) : Prop :=
  d_request_submission (b_descriptor b) = d_completion_submission (b_descriptor b) + 1 ∧
  d_request_device_generation (b_descriptor b) = d_device_generation (b_descriptor b).

Definition succeeded (b : Bar2) : Prop :=
  d_completion_status (b_descriptor b) = CXL_GPU_DESCRIPTOR_COMPLETION_COMPLETE ∧ d_result (b_descriptor b) = 0.

(** The device completes every command under its number and generation, before
    the process gives up, and leaves BAR2 ready for the next one. *)
Class GpuProtocol `{Gpu} : Prop := {
  gp_completes b mem st :
    requested b → bar_ready b →
    completed (d_request_submission (b_descriptor b)) (d_request_device_generation (b_descriptor b))
      (b_descriptor (an_bar (gpu_exec b mem st))) = true;
  gp_ready b mem st : requested b → bar_ready b → bar_ready (an_bar (gpu_exec b mem st));
  gp_generation b mem st :
    requested b → bar_ready b →
    d_device_generation (b_descriptor (an_bar (gpu_exec b mem st))) = d_device_generation (b_descriptor b);
  gp_fuel b mem st : (an_delay (gpu_exec b mem st) < an_fuel (gpu_exec b mem st))%nat;
  gp_clock b mem st j :
    (j ≤ an_delay (gpu_exec b mem st))%nat →
    0 < an_clock (gpu_exec b mem st) j < TWO64 - command_timeout_ns ∧
    an_clock (gpu_exec b mem st) j < an_clock (gpu_exec b mem st) 0%nat + command_timeout_ns
}.

(** ** Registers: lemmas *)

Lemma bar2_layout :
  CXL_GPU_REG_RESULT3 + 8 <= CXL_GPU_DATA_OFFSET ∧
  CXL_GPU_DATA_OFFSET + CXL_GPU_DATA_SIZE <= CXL_GPU_DESCRIPTOR_OFFSET ∧
  CXL_GPU_DESCRIPTOR_OFFSET + CXL_GPU_DESCRIPTOR_WIRE_SIZE <= CXL_GPU_DESCRIPTOR_OFFSET + CXL_GPU_DESCRIPTOR_REGION_SIZE ∧
  CXL_GPU_DESCRIPTOR_OFFSET + CXL_GPU_DESCRIPTOR_REGION_SIZE <= CXL_GPU_BATCH_DATA_OFFSET.
Proof. repeat split; vm_compute; congruence. Qed.

Lemma nth_insert_same (l : list Z) i v x : (i < length l)%nat → nth i (<[i := v]> l) x = v.
Proof. intros Hi. rewrite nth_lookup, list_lookup_insert_eq by done. done. Qed.

Lemma param_index_bound offset : is_param offset = true → (param_index offset < 8)%nat.
Proof. unfold is_param, param_index, CXL_GPU_REG_PARAM0, CXL_GPU_REG_PARAM7. intros H. btests. Z.to_euclidean_division_equations. lia. Qed.

Lemma result_index_bound offset : is_result offset = true → (result_index offset < 4)%nat.
Proof. unfold is_result, result_index, CXL_GPU_REG_RESULT0, CXL_GPU_REG_RESULT3. intros H. btests. Z.to_euclidean_division_equations. lia. Qed.

Lemma ld64_st64 a v m : ld64 (st64 a v m) a = u64 v.
Proof. unfold ld64, st64. rewrite <- (le_encode_length 8 v) at 2. rewrite ld_st_bytes. apply le_word. Qed.

(** A 64-bit register that was written holds the value, wherever it lives. *)
Theorem reg64_roundtrip t b offset v (Ht : t_unusable t = false) (Hb : bar_ready b) (Hv : is_u64 v) :
  cxl_gpu_transport_read64 (cxl_gpu_transport_write64 t offset v b) offset = v.
Proof.
  unfold cxl_gpu_transport_read64, cxl_gpu_transport_write64. rewrite Ht.
  destruct (is_param offset) eqn:Hp.
  { apply nth_insert_same. rewrite br_params by done. by apply param_index_bound. }
  destruct (offset =? _); [done|]. destruct (is_result offset) eqn:Hr.
  { apply nth_insert_same. rewrite br_results by done. by apply result_index_bound. }
  unfold set_regs. cbn [b_regs]. rewrite ld64_st64. by apply u64_small.
Qed.

(** ** Polling: lemmas *)

(** The deadline and the number of readings of the clock after [k] polls. *)
Definition awaiting (clock : nat → Z) (k j : nat) (deadline_ns : Z) : Prop :=
  (k = 0%nat ∧ j = 0%nat ∧ deadline_ns = 0) ∨ ((1 ≤ j ≤ k)%nat ∧ deadline_ns = clock 0%nat + command_timeout_ns).

Lemma awaiting_next clock k j dl (Hk : awaiting clock k j dl) (Hc : 0 < clock 0%nat < TWO64 - command_timeout_ns) :
  let '(j', dl', failed) := if dl =? 0 then (S j, u64 (clock j + command_timeout_ns), clock j =? 0) else (j, dl, false) in
  failed = false ∧ (1 ≤ j' ≤ S k)%nat ∧ dl' = clock 0%nat + command_timeout_ns ∧ (1 ≤ k → j' ≤ k)%nat.
Proof.
  destruct Hk as [(-> & -> & ->)|(Hj & ->)]; unfold command_timeout_ns in *.
  - cbn. rewrite u64_small by (unfold is_u64; lia). lia.
  - rewrite (proj2 (Z.eqb_neq (clock 0%nat + 60 * 1000000000) 0)) by lia. lia.
Qed.

Lemma await_answer seen clock submission generation delay fuel k j dl :
  (∀ i, (i < delay)%nat → completed submission generation (seen i) = false) →
  completed submission generation (seen delay) = true →
  (∀ i, (i ≤ delay)%nat → 0 < clock i < TWO64 - command_timeout_ns ∧ clock i < clock 0%nat + command_timeout_ns) →
  (k ≤ delay)%nat → (delay - k < fuel)%nat → awaiting clock k j dl →
  ∃ polls, await fuel seen clock submission generation k j dl = Some (Answered (seen delay) polls).
Proof.
  intros Hnot Hdone Hc. revert k j dl. induction fuel as [|fuel IH]; intros k j dl Hk Hf Ha; [lia|]. cbn [await].
  destruct (decide (k = delay)) as [->|Hne]; [rewrite Hdone; by eexists|]. rewrite Hnot by lia.
  pose proof (awaiting_next clock k j dl Ha) as Hn. specialize (Hn (proj1 (Hc 0%nat ltac:(lia)))).
  destruct (if dl =? 0 then _ else _) as [[j' dl'] failed]. destruct Hn as (-> & Hj & -> & Hj1).
  destruct (Z.leb_spec spin_poll_limit (u32 (Z.of_nat k + 1))) as [Hs|Hs]; [|apply IH; try lia; right; lia].
  assert (1 ≤ k)%nat as Hk1. { destruct k; [by vm_compute in Hs|lia]. }
  destruct (Hc j' ltac:(lia)) as [Hp Hl].
  rewrite (proj2 (Z.eqb_neq _ _)), (proj2 (Z.leb_gt _ _)) by lia. cbn [orb]. apply IH; try lia. right. lia.
Qed.

(** The same, exactly: after the first 64 polls every poll reads the clock. *)
Definition awaiting_at (clock : nat → Z) (k j : nat) (deadline_ns : Z) : Prop :=
  (k = 0%nat ∧ j = 0%nat ∧ deadline_ns = 0) ∨
  ((1 ≤ k)%nat ∧ j = (1 `max` (k - 62))%nat ∧ deadline_ns = clock 0%nat + command_timeout_ns).

(** A clock that fails or reaches the deadline ends the loop, whatever the
    device shows. *)
Lemma await_ends seen clock submission generation n fuel k j dl :
  (∀ i, (n ≤ i)%nat → clock i = 0 ∨ clock 0%nat + command_timeout_ns <= clock i) →
  0 < clock 0%nat < TWO64 - command_timeout_ns → Z.of_nat n < 4294967000 → (1 ≤ n)%nat →
  awaiting_at clock k j dl → (k ≤ 62 + n)%nat → (62 + n - k < fuel)%nat →
  await fuel seen clock submission generation k j dl ≠ None.
Proof.
  intros Hn Hc Hn1 Hn2. revert k j dl. induction fuel as [|fuel IH]; intros k j dl Ha Hk Hf; [lia|]. cbn [await].
  destruct (completed _ _ _); [done|].
  assert ((if dl =? 0 then (S j, u64 (clock j + command_timeout_ns), clock j =? 0) else (j, dl, false)) =
          ((1 `max` (k - 62))%nat, clock 0%nat + command_timeout_ns, false)) as ->.
  { destruct Ha as [(-> & -> & ->)|(Hk1 & -> & ->)]; unfold command_timeout_ns in *.
    - cbn. rewrite u64_small by (unfold is_u64; lia). do 2 f_equal. lia.
    - by rewrite (proj2 (Z.eqb_neq (clock 0%nat + 60 * 1000000000) 0)) by lia. }
  assert (u32 (Z.of_nat k + 1) = Z.of_nat k + 1) as -> by (apply u32_small; unfold is_u32; lia).
  destruct (Z.leb_spec spin_poll_limit (Z.of_nat k + 1)) as [Hs|Hs]; unfold spin_poll_limit in Hs.
  2: { apply IH; [right|..]; lia. }
  destruct (decide (k = 62 + n)%nat) as [->|Hne].
  - destruct (Hn (1 `max` (62 + n - 62))%nat ltac:(lia)) as [->|Hge]; [done|].
    rewrite (proj2 (Z.leb_le _ _) Hge), orb_true_r. done.
  - case_match; [done|]. apply IH; [right|..]; lia.
Qed.

(** ** Commands *)

Lemma request_not_completed d submission generation command epoch :
  d_completion_submission d < submission →
  completed submission generation (set_request submission generation command epoch d) = false.
Proof.
  intros Hs. unfold completed. cbn. rewrite (proj2 (Z.eqb_neq (d_completion_submission d) submission)) by lia.
  by rewrite andb_false_r.
Qed.

Lemma set_request_ready b submission generation command epoch :
  bar_ready b → bar_ready (ring_doorbell (set_descriptor (set_request submission generation command epoch (b_descriptor b)) b)).
Proof. by intros []. Qed.

(** The request that [cxl_gpu_transport_execute] announces. *)
Definition announce (command : Z) (b : Bar2) : Bar2 :=
  let d := b_descriptor b in
  ring_doorbell (set_descriptor (set_request (d_completion_submission d + 1) (d_device_generation d) command
    (if command =? CXL_GPU_CMD_CASE_BEGIN then 0 else d_active_case_epoch d) d) b).

Section Commands.
Context `{GpuProtocol}.

Lemma announce_requested command b : requested (announce command b).
Proof. done. Qed.

Lemma announce_ready command b : bar_ready b → bar_ready (announce command b).
Proof. apply set_request_ready. Qed.

(** A process that can use the transport gets the answer of the device to the
    command that it has written, with its arguments and data. *)
Theorem execute_answers command t b mem st
    (Ht : t_mapped t = true) (Hu : t_unusable t = false) (Hb : bar_ready b) (Hs : d_completion_submission (b_descriptor b) < UINT64_MAX) :
  let a := gpu_exec (announce command b) mem st in
  let d := b_descriptor (an_bar a) in
  cxl_gpu_transport_execute command t b mem st =
    Some (u32 (d_result d), (if d_completion_status d =? CXL_GPU_DESCRIPTOR_COMPLETION_ERROR then with_unusable true t else t),
          an_bar a, an_mem a, an_state a).
Proof.
  unfold cxl_gpu_transport_execute. rewrite Ht, Hu. cbn [negb orb].
  rewrite (proj2 (Z.eqb_neq _ 0)) by (by apply br_generation).
  rewrite (proj2 (Z.eqb_neq _ UINT64_MAX)) by lia. cbn [orb]. fold (announce command b).
  set (a := gpu_exec (announce command b) mem st). cbv zeta.
  destruct (await_answer (λ k, b_descriptor (if (k <? an_delay a)%nat then announce command b else an_bar a)) (an_clock a)
    (d_completion_submission (b_descriptor b) + 1) (d_device_generation (b_descriptor b)) (an_delay a) (an_fuel a) 0 0 0) as [polls He].
  - intros i Hi. rewrite (proj2 (Nat.ltb_lt _ _) Hi). apply request_not_completed. lia.
  - rewrite Nat.ltb_irrefl. apply gp_completes; [done|by apply announce_ready].
  - intros i Hi. by apply gp_clock.
  - lia.
  - pose proof (gp_fuel (announce command b) mem st). fold a in H1. lia.
  - by left.
  - rewrite He, Nat.ltb_irrefl. done.
Qed.
End Commands.

(** A process whose transport is unusable changes neither BAR2 nor its memory. *)
Lemma execute_unusable `{Gpu} command t b mem st :
  t_unusable t = true →
  cxl_gpu_transport_execute command t b mem st = Some (CXL_GPU_ERROR_UNKNOWN, t, b, mem, st) ∧
  ∀ offset v, cxl_gpu_transport_write64 t offset v b = b ∧ cxl_gpu_transport_write32 t offset v b = b.
Proof.
  intros Ht. unfold cxl_gpu_transport_execute, cxl_gpu_transport_write64, cxl_gpu_transport_write32. by rewrite Ht.
Qed.

Lemma await_answered seen clock submission generation fuel k j dl d polls :
  await fuel seen clock submission generation k j dl = Some (Answered d polls) →
  completed submission generation d = true ∧ ∃ i, d = seen i.
Proof.
  revert k j dl. induction fuel as [|fuel IH]; intros k j dl; [done|]. cbn [await].
  destruct (completed submission generation (seen k)) eqn:Hc; [intros [= <- _]; eauto|].
  destruct (if dl =? 0 then _ else _) as [[j' dl'] failed]. destruct failed; [done|].
  case_match; [case_match; [done|]|]; apply IH.
Qed.

(** However the device behaves, a command ends once the clock of the process
    has passed the deadline or fails, after at most 64 polls more than readings
    of the clock.  Then either the device has completed this very command, or
    the transport is unusable from then on. *)
Theorem execute_ends `{Gpu} command t b mem st n (Ht : t_mapped t = true) (Hn : Z.of_nat n < 4294960000)
    (Hfuel : (64 + n ≤ an_fuel (gpu_exec (announce command b) mem st))%nat)
    (Hstart : 0 <= an_clock (gpu_exec (announce command b) mem st) 0%nat < TWO64 - command_timeout_ns)
    (Hclock : ∀ i, (n ≤ i)%nat → let c := an_clock (gpu_exec (announce command b) mem st) in c i = 0 ∨ c 0%nat + command_timeout_ns <= c i) :
  ∃ r t' b' mem' st', cxl_gpu_transport_execute command t b mem st = Some (r, t', b', mem', st') ∧
    (t_unusable t' = true ∨
     r = u32 (d_result (b_descriptor b')) ∧
     completed (d_completion_submission (b_descriptor b) + 1) (d_device_generation (b_descriptor b)) (b_descriptor b') = true).
Proof.
  unfold cxl_gpu_transport_execute. rewrite Ht, orb_false_r.
  destruct (t_unusable t) eqn:Hu; [by repeat eexists; left|].
  destruct (_ || _); [by repeat eexists; left|]. cbv zeta. fold (announce command b).
  set (a := gpu_exec (announce command b) mem st) in *. cbv zeta in Hclock.
  set (seen := λ k, b_descriptor _). destruct (await _ _ _ _ _ _ _ _) as [[d polls|polls]|] eqn:He.
  - apply await_answered in He as [Hc [i ->]]. repeat eexists.
    destruct (d_completion_status _ =? _); [by left|right]. subst seen. cbv beta in *.
    destruct (i <? an_delay a)%nat; [|done]. unfold announce in Hc. cbn in Hc.
    by rewrite request_not_completed in Hc by lia.
  - repeat eexists. by left.
  - exfalso. revert He. destruct (decide (an_clock a 0%nat = 0)) as [H0|H0].
    { destruct (an_fuel a); [lia|]. cbn [await]. rewrite H0. cbn. by destruct (completed _ _ _). }
    apply (await_ends _ _ _ _ (S n)); try lia; [|by left]. intros i Hi. apply Hclock. lia.
Qed.

(** ** Observations *)

(** The number of a command is the number of the last completion plus one, and
    not that of the last request.  When a process gives up on a command, the
    next process uses the same number, and takes the answer to the command
    that was given up for its own.  The device here completes a command when
    the next one is announced, with the command as its result. *)

Definition idle_descriptor : CXLGPURAMCommandDescriptor :=
  {| d_protocol_version := 3; d_descriptor_size := 256; d_request_submission := 0; d_request_device_generation := 0;
     d_request_command := 0; d_request_call_id := 0; d_request_case_epoch := 0; d_params := replicate 8 0;
     d_completion_submission := 0; d_completion_device_generation := 0; d_completion_status := 0; d_result := 0;
     d_results := replicate 4 0; d_active_case_epoch := 0; d_device_generation := 1 |}.

Definition idle_bar : Bar2 := {| b_regs := ∅; b_data := ∅; b_descriptor := idle_descriptor; b_batch_data := ∅ |}.
Definition usable : CxlGpuTransport := {| t_mapped := true; t_unusable := false |}.

Definition complete_as (submission generation result : Z) (d : CXLGPURAMCommandDescriptor) : CXLGPURAMCommandDescriptor :=
  {| d_protocol_version := d_protocol_version d; d_descriptor_size := d_descriptor_size d;
     d_request_submission := d_request_submission d; d_request_device_generation := d_request_device_generation d;
     d_request_command := d_request_command d; d_request_call_id := d_request_call_id d;
     d_request_case_epoch := d_request_case_epoch d; d_params := d_params d; d_completion_submission := submission;
     d_completion_device_generation := generation; d_completion_status := CXL_GPU_DESCRIPTOR_COMPLETION_COMPLETE;
     d_result := result; d_results := d_results d; d_active_case_epoch := d_active_case_epoch d;
     d_device_generation := d_device_generation d |}.

#[local] Instance late_gpu : Gpu := {
  gpu_state := option CXLGPURAMCommandDescriptor;
  gpu_exec b mem st :=
    {| an_delay := 0; an_clock j := if (j =? 0)%nat then 1 else 100000000000; an_fuel := 100;
       an_bar := match st with
                 | None => b
                 | Some d => set_descriptor (complete_as (d_request_submission d) (d_request_device_generation d) (d_request_command d) (b_descriptor b)) b
                 end;
       an_mem := mem; an_state := Some (b_descriptor b) |}
}.

Lemma timeout_confuses :
  ∃ t b mem st, cxl_gpu_transport_execute 34 usable idle_bar ∅ None = Some (CXL_GPU_ERROR_UNKNOWN, t, b, mem, st) ∧
    t_unusable t = true ∧
    ∃ b' mem' st', cxl_gpu_transport_execute 50 usable b mem st = Some (34, usable, b', mem', st').
Proof. repeat eexists. Qed.

(** ** A device that answers at once

    It runs the function [run] on the command, the parameters, the data and
    the batch window; [run] returns the result, the results, the data window
    and the two memories. *)

Section Prompt.
Context {S : Type} (run : Z → list Z → Mem → Mem → Mem → S → Z * list Z * Mem * Mem * S).

Definition prompt_bar (b : Bar2) (result : Z) (results : list Z) (data : Mem) : Bar2 :=
  let d := b_descriptor b in
  let d' := set_arguments (d_request_call_id d) (d_params d) (take 4 (results ++ replicate 4 0)) d in
  {| b_regs := b_regs b; b_data := data; b_batch_data := b_batch_data b;
     b_descriptor := complete_as (d_request_submission d) (d_request_device_generation d) result d' |}.

#[local] Instance prompt_gpu : Gpu := {
  gpu_state := S;
  gpu_exec b mem st :=
    let d := b_descriptor b in
    let '(result, results, data, mem', st') := run (d_request_command d) (d_params d) (b_data b) (b_batch_data b) mem st in
    {| an_delay := 0; an_clock _ := 1; an_fuel := 100; an_bar := prompt_bar b result results data; an_mem := mem'; an_state := st' |}
}.

Lemma prompt_protocol : GpuProtocol.
Proof.
  split; intros b mem st; cbn; destruct (run _ _ _ _ _ _) as [[[[r rs] dt] m'] st']; cbn.
  - intros _ _. unfold completed. cbn. by rewrite !Z.eqb_refl.
  - intros [Hs _] [Hp Hr Hg Hc]. split; cbn; [done| |done|rewrite Hs; lia].
    rewrite length_take, length_app. change (length [0; 0; 0; 0]) with 4%nat. lia.
  - done.
  - lia.
  - unfold command_timeout_ns. lia.
Qed.
End Prompt.

(** A device that answers every command with its first parameter plus one. *)
Definition echo_run (command : Z) (params : list Z) (data batch mem : Mem) (st : unit) : Z * list Z * Mem * Mem * unit :=
  (nth 0 params 0 + 1, [], data, mem, st).

Lemma idle_bar_ready : bar_ready idle_bar.
Proof. by split. Qed.

Lemma reg64_roundtrip_witness :
  cxl_gpu_transport_read64 (cxl_gpu_transport_write64 usable 64 7 idle_bar) 64 = 7.
Proof. apply reg64_roundtrip; [done|apply idle_bar_ready|unfold is_u64; lia]. Defined.

Lemma execute_answers_witness :
  let b := cxl_gpu_transport_write64 usable 64 7 idle_bar in
  ∃ b' mem st, @cxl_gpu_transport_execute (prompt_gpu echo_run) 34 usable b ∅ tt = Some (8, usable, b', mem, st).
Proof.
  do 3 eexists. rewrite (@execute_answers _ (prompt_protocol echo_run)); [reflexivity|done|done|by split|done].
Defined.

Lemma execute_ends_witness :
  ∃ r t' b' mem' st', cxl_gpu_transport_execute 34 usable idle_bar ∅ None = Some (r, t', b', mem', st') ∧
    (t_unusable t' = true ∨
     r = u32 (d_result (b_descriptor b')) ∧
     completed (d_completion_submission (b_descriptor idle_bar) + 1) (d_device_generation (b_descriptor idle_bar)) (b_descriptor b') = true).
Proof.
  apply (@execute_ends late_gpu 34 usable idle_bar ∅ None 1); [done|done|cbn; lia|cbn; unfold command_timeout_ns; lia|].
  intros [|i] Hi; [lia|]. right. cbn. unfold command_timeout_ns. lia.
Defined.
